(* ===== verification/_CoqProject ===== *)
-Q . S2P
Prelude.v
Primes.v
Field.v
Compress.v
CompressBound.v
Hash.v
Rng.v
CtSafe.v
Types.v
Toeplitz.v
Matrix.v
Lpn.v
Fe25519.v
Scalar25519.v
Zp.v
Ristretto.v
Edwards.v
RistrettoOps.v
RistrettoGroup.v
Order.v
ScalarField.v
Msm.v
Transcript.v
Generators.v
InnerProduct.v
InnerProductCorrect.v
R1cs.v
R1csSafe.v
R1csAlgebra.v
R1csHonest.v
R1csCorrect.v
Gadgets.v
GadgetsSound.v
GadgetsComplete.v
Stream.v
Serialize.v
Decrypt.v
SerializeCorrect.v
SerializeProofs.v
Reduce.v
Compact.v
Sample.v
Coeffs.v
Arithmetic.v
Linear.v
Post.v
Repack.v
Product.v
Multiply.v
Encrypt.v
Noise.v
Graph.v
Encrypted.v
Keygen.v
Factor.v
KeygenCorrect.v
Legacy.v
Text.v
Circuit.v
Wiring.v
CircuitSound.v
ZeroSound.v
Shape.v
CircuitShape.v
CircuitSize.v
