(* ===== verification/Prelude.v ===== *)
(** * PVAC: the homomorphic ciphertext library of the lite node, verified

    The node carries an additively and multiplicatively homomorphic encryption
    scheme over the prime field of [2^127 - 1], written in C++ as a header
    library ([src/pvac/include/pvac/]).  This development translates its
    headers into executable Rocq functions, one file per component, and proves
    what each component promises to the next.

    ** How the program is put together, and which file models what

    - [core/field.hpp] -- [Field.v]: two-limb arithmetic modulo [P = 2^127 - 1],
      in its three builds; [Primes.v] proves the moduli prime by Pocklington
      certificates, so that the exponentiations are inversions.
    - [core/pvac_compress.hpp] -- [Compress.v] (the adaptive bit predictor, the
      range coder and the container) and [CompressBound.v] (how far the coder
      can expand, hence the unconditional round trip).
    - [core/hash.hpp] -- [Hash.v]: streaming SHA-256, SHAKE-256 and the
      [XofShake] sampler, checked on the FIPS test vectors.
    - [core/random.hpp], [core/seedable_rng.hpp] and the x86 [AesCtr256] of
      [crypto/lpn.hpp] -- [Rng.v]: draws in a state monad over a class [Rng],
      with two instances: the operating system (a tape of bytes) and AES-CTR.
    - [core/ct_safe.hpp], [core/bitvec.hpp] -- [CtSafe.v].
    - [core/types.hpp] -- [Types.v]: keys, layers, edges, ciphertexts and the
      checks of their shape; the vector operations [field::Op] of
      [ops/encrypt.hpp].
    - [crypto/toeplitz.hpp], [crypto/toeplitz_full.hpp] -- [Toeplitz.v].
    - [crypto/matrix.hpp] -- [Matrix.v]: samplers, the public permutation, the
      public matrix, the syndromes.
    - [crypto/lpn.hpp], [crypto/lpn_v2.hpp], [crypto/circuit_prf_profile.hpp],
      [ops/recrypt_src_core.hpp] -- [Lpn.v]: the masks of a layer.
    - [crypto/ristretto255.hpp] -- [Fe25519.v] (five-limb field elements),
      [Scalar25519.v] (scalars, under both reduction rules) and [Ristretto.v]
      (extended points, encodings, the generators, Pedersen commitments).
      Their specification is built in [Zp.v] (the field as a type, so that
      [field] and [nsatz] apply) and [Edwards.v] (the curve and its group);
      [RistrettoOps.v] proves the point formulas, the square root, decoding
      and encoding against it, [RistrettoGroup.v] shows that the 32-byte
      encodings are the even points modulo the 4-torsion, and [Order.v] that
      these are a cyclic group of prime order: [dlog], the logarithm in which
      all that follows is stated.  [ScalarField.v] reads scalars as residues.
    - [crypto/bulletproofs/] -- [Msm.v] ([prover_msm.hpp] and the
      [multi_scalar_mul] of [inner_product.hpp]), [Transcript.v],
      [Generators.v], [InnerProduct.v] with [InnerProductCorrect.v], and
      [R1cs.v] ([r1cs_types.hpp], [r1cs_limits.hpp], [r1cs_prover.hpp],
      [r1cs_verifier.hpp]).  [R1csSafe.v] proves that the verifier is total;
      [R1csAlgebra.v], [R1csHonest.v] and [R1csCorrect.v] that an honest proof
      is accepted.
    - [crypto/bulletproofs/gadgets.hpp] -- [Gadgets.v]: constraints on the wires
      of a system; [GadgetsSound.v] and [GadgetsComplete.v] say what every
      assignment that solves them satisfies, and that an honest prover has one.
    - [ops/verify_zero.hpp] and the circuits of [ops/verify_zero_circuit.hpp] --
      [Circuit.v]; [Wiring.v], [CircuitSound.v] and [ZeroSound.v] prove what a
      solution of a circuit says of the ciphertext, [Shape.v], [CircuitShape.v]
      and [CircuitSize.v] how large the circuit is.

    - [pvac_ffi/pvac_serialize.hpp] -- [Stream.v] ([Writer], [Reader] and the
      contract [Codec] between the two), [Serialize.v] (the formats of keys,
      ciphertexts and proofs), [SerializeCorrect.v] and [SerializeProofs.v] (that
      the formats round-trip).
    - [ops/decrypt.hpp], [ops/layer_coeffs.hpp] -- [Decrypt.v]: masks of layers,
      and decryption as a linear form in the edges; [Coeffs.v]: the same form by
      the coefficients of the layers.
    - the reductions of [ops/encrypt.hpp] -- [Reduce.v] (summing and shuffling
      edges) and [Compact.v] (dropping layers).
    - [ops/arithmetic.hpp] -- [Arithmetic.v]; what its operations decrypt to is
      in [Linear.v] (addition, scaling, constants), [Repack.v] (edges with a
      given sum), [Product.v] and [Multiply.v] (products and squares).
    - [ops/encrypt.hpp] -- [Encrypt.v]; [Noise.v], [Graph.v] and [Encrypted.v]
      prove that an encryption decrypts to its plaintext.
    - [crypto/keygen.hpp] -- [Keygen.v]; [Factor.v] and [KeygenCorrect.v] prove
      what the keys satisfy, the commitment to the circuit key included.
    - [crypto/legacy_profile.hpp] -- [Legacy.v]; [utils/text.hpp] -- [Text.v].
    - [Post.v] is the program logic of computations that draw;
      [Sample.v] is a small key pair for concrete instances.

    A ciphertext is a list of layers (each masked by a value [R] that the secret
    key derives, or the product of two earlier layers), a constant, and a list of
    weighted, signed edges on powers of a root of unity.  Slot [j] of the
    plaintext is the constant plus the sum of the edges of each layer, each sum
    divided by the layer's mask.  An operation that draws is written over the
    class [Rng] once, where the code has an overload for the system generator and
    one for [SeedableRng]; the theorems hold for every generator that satisfies
    [RngLaws] (what it returns is in range), hence for both.

    ** Conventions

    A [w]-bit word is a [Z] and every C++ operation that can wrap is followed by
    [wrap w]; a byte string is a list of such words of eight bits.  A function
    that may throw returns [res]; [OutOfFuel] stands for a rejection loop cut by
    the fuel of the model ([Fuel] is a class, so that every theorem holds for
    every fuel), and the loops whose length the code bounds are proved to finish
    within a fuel computed from their input ([norm_fuel], [unpack_loop], the cap
    of [prg_choose_k]).  [std::vector] is [list]; an index the code does not
    check is read with a default, and the theorems carry the bound.

    A [double] is the bits of its value and is computed with by [SpecFloat];
    [std::log2], whose rounding no standard fixes, is a parameter (the class
    [Log2]), and so is the order in which the arguments of one call are evaluated,
    where they both draw.  [post T m Q] says that [m], from every state of the
    generator, satisfies [Q], throws an exception in [T], or is in a rejection
    loop when the fuel ends.  [encrypts pk sk policy C v] says that the ciphertext [C]
    is well-formed and decrypts to [v].

    ** What the theorems show

    Encryption and the arithmetic on ciphertexts are homomorphic: an encryption
    of [v] decrypts to [v], from the system generator or from a seed
    ([enc_correct], [enc_seeded_correct], [text_roundtrip]); sums, multiples and
    products of ciphertexts decrypt to those of the plaintexts
    ([ct_add_correct], [ct_scale_correct], [ct_const_correct], [ct_mul_correct],
    [ct_square_correct]); reduction does not change a plaintext ([merge_correct],
    [compact_layers_correct]); decryption is the linear form of the edges
    ([dec_values_correct], [layer_coeffs_correct]); key generation makes keys that
    satisfy all of this ([keygen_correct]), unless the basis is too small
    ([small_basis_rejected]); a product by a non-zero constant without layers is
    refused ([ct_mul_constant_operand]).  What the code accepts from outside is
    well-formed and has one encoding ([cipher_canonical], [pubkey_canonical]),
    and what it writes is read back ([pubkey_roundtrip], [range_proof_roundtrip];
    [cipher_roundtrip] up to [stored], since a product layer's seed, which
    nothing reads, is not written).

    A constraint-system proof of an honest prover is accepted ([r1cs_complete],
    on [operations_keep] and [ipp_complete]); the three are about provers under
    [ScalarRule::Wide], because under [ScalarRule::Prior], the default of the
    code, some products of scalars are wrong ([scalar_rule_prior]).  The verifier
    throws on no proof, under either rule ([r1cs_verify_total]).  The points they
    compute with are sums of multiples ([msm_correct]) of generators that do not
    depend on the history of their cache ([generator_table_correct]), in a group
    of prime order ([ristretto_prime_order]).  The zero-verification circuit is
    sound as a constraint system: from a solution of the verifier's constraints
    one reads a key under which the ciphertext decrypts to zero or to the committed
    amount ([zero_circuit_sound]); its size is known, and within the limits
    of the proofs but for one shape ([key_bound_circuit_size]).  That a
    proof convinces only of solvable constraints is a cryptographic assumption,
    not a theorem of the development.

    Refinement of arithmetic ([field_refinement], [fe_field_correct],
    [scalar_field_correct], inversions by Fermat's theorem) and of the group
    ([ext_group_correct], [ristretto_group_correct], [pedersen_correct]);
    equivalence of
    builds ([mul128x128_builds_agree], [gf2_conv_correct]); round trips
    ([unpack_pack], [fe_encoding_correct], [scalar_encoding_correct],
    [fp_i64_roundtrip], [ristretto_roundtrip]); streaming ([sha256_streaming], [shake256_streaming],
    [fill_u64_stream]); samplers and permutations ([prg_choose_k_correct],
    [gen_ubk_public_correct], [apply_perm_sigma_correct]); safety
    ([masks_invertible], [update_no_overflow], [unpack_safe]); and what the older
    rules do wrong ([scalar_rule_prior], [toep_127_prefix]).

    ** Not modelled

    The ARM build of AES and the timing-driven choice between builds (the ARM
    carry-less product is modelled); [hex8]; [EvalKey]; the operating system's
    generator beyond a tape of bytes.  Of the zero proofs, the transcript context
    and the [make_*] and [verify_*] entry points around the circuits; range
    proofs, but for their serialization; recryption; [metrics.hpp] and the
    statistics of [sigma_density].  The foreign-function glue marshals values
    between C, OCaml and the library; the [mcl] tree is third-party.

    Two counters that the code keeps in an [int], [n2 + n3] of the noise plan and
    the depth hint of a block of text, are unbounded here: they differ beyond
    [2^31] noise pairs or blocks.  [Lpn.lpn_row] stops at the shorter of the row
    and the secret, where the code would read past a secret shorter than
    [lpn_n]; keys that are generated or accepted have one of that length. *)

From Stdlib Require Export ZArith Lia Zdiv String Bool Btauto.
From stdpp Require Export base tactics numbers list strings.

#[global] Open Scope Z_scope.
#[global] Set Default Goal Selector "!".

(** [lia] sees through division and remainder by constants. *)
Ltac Zify.zify_post_hook ::= Z.div_mod_to_equations.

(** ** Results: a C++ function that may throw *)

(** [OutOfFuel] stands for a rejection loop cut by the fuel of the model: the
    code itself is still drawing. *)
Inductive res (A : Type) : Type :=
| Ok (a : A)
| Throw (msg : string)
| OutOfFuel.
Arguments Ok {A} a.
Arguments Throw {A} msg.
Arguments OutOfFuel {A}.

#[export] Instance Ok_inj {A} : Inj (=) (=) (@Ok A).
Proof. by intros ?? [= ->]. Qed.

#[export] Instance res_ret : MRet res := fun A a => Ok a.
#[export] Instance res_bind : MBind res := fun A B f r =>
  match r with Ok a => f a | Throw m => Throw m | OutOfFuel => OutOfFuel end.

Definition is_ok {A} (r : res A) : bool :=
  match r with Ok _ => true | _ => false end.

Lemma res_bind_Ok {A B} (r : res A) (f : A → res B) b :
  r ≫= f = Ok b → ∃ a, r = Ok a ∧ f a = Ok b.
Proof. destruct r as [a|m|]; simpl; [eauto|discriminate..]. Qed.

(** ** Machine words

    A [w]-bit unsigned integer is a [Z] in [[0, 2^w)]; the arithmetic of the
    code is ordinary arithmetic followed by [wrap w]. *)

Definition wrap (w x : Z) : Z := x mod 2 ^ w.
Definition word (w x : Z) : Prop := 0 ≤ x < 2 ^ w.

Definition wnot (w x : Z) : Z := 2 ^ w - 1 - x.
Definition wshl (w x k : Z) : Z := wrap w (Z.shiftl x k).
Definition wneg (w x : Z) : Z := wrap w (- x).

(** Two's complement reading of a [w]-bit word. *)
Definition signed (w x : Z) : Z := if x <? 2 ^ (w - 1) then x else x - 2 ^ w.

Definition b2z (b : bool) : Z := if b then 1 else 0.

Declare Scope word_scope.
Delimit Scope word_scope with word.
Notation "x '.&' y" := (Z.land x y) (at level 36, left associativity) : word_scope.
Notation "x '.|' y" := (Z.lor x y) (at level 38, left associativity) : word_scope.
Notation "x '.^' y" := (Z.lxor x y) (at level 37, left associativity) : word_scope.
#[global] Open Scope word_scope.

Abbreviation u8 := (wrap 8) (only parsing).
Abbreviation u16 := (wrap 16) (only parsing).
Abbreviation u32 := (wrap 32) (only parsing).
Abbreviation u64 := (wrap 64) (only parsing).
Abbreviation u128 := (wrap 128) (only parsing).

Definition UINT64_MAX : Z := 0xFFFFFFFFFFFFFFFF.
Definition UINT32_MAX : Z := 0xFFFFFFFF.

(** Constant powers of two become literals, so that [lia] is linear. *)
Ltac pow_consts :=
  repeat match goal with
  | |- context [2 ^ Zpos ?k] =>
      let v := eval vm_compute in (2 ^ Zpos k) in change (2 ^ Zpos k) with v
  | H : context [2 ^ Zpos ?k] |- _ =>
      let v := eval vm_compute in (2 ^ Zpos k) in change (2 ^ Zpos k) with v in H
  end.

Ltac word_unfold :=
  unfold wnot, wshl, wneg, wrap, word, UINT64_MAX, UINT32_MAX in *.
Ltac word_lia := word_unfold; pow_consts; lia.

Lemma wrap_word w x : 0 ≤ w → word w (wrap w x).
Proof. intros. unfold word, wrap. apply Z.mod_pos_bound. lia. Qed.

Lemma wrap_small w x : word w x → wrap w x = x.
Proof. intros. by apply Z.mod_small. Qed.

Lemma wrap_wrap w x : wrap w (wrap w x) = wrap w x.
Proof. unfold wrap. by rewrite Zmod_mod. Qed.

Create HintDb word.
#[export] Hint Resolve wrap_word : word.
#[export] Hint Extern 1 (0 ≤ _) => lia : word.
#[export] Hint Extern 1 (word _ _) => word_lia : word.

(** ** Shifts and masks as arithmetic *)

Lemma shr_div x k : 0 ≤ k → x ≫ k = x / 2 ^ k.
Proof. apply Z.shiftr_div_pow2. Qed.

Lemma shl_mul x k : 0 ≤ k → Z.shiftl x k = x * 2 ^ k.
Proof. apply Z.shiftl_mul_pow2. Qed.

Lemma land_low x k m : 0 ≤ k → m = 2 ^ k - 1 → x .& m = x mod 2 ^ k.
Proof. intros ? ->. rewrite <- Z.land_ones by done. f_equal. rewrite Z.ones_equiv. lia. Qed.

Lemma testbit_small a k i : 0 ≤ a < 2 ^ k → k ≤ i → Z.testbit a i = false.
Proof.
  intros Ha Hi. destruct (Z.ltb_spec k 0).
  { rewrite Z.pow_neg_r in Ha by done. lia. }
  rewrite <- (Z.mod_small a (2 ^ k)) by done. by apply Z.mod_pow2_bits_high.
Qed.

Lemma lor_add a b k : 0 ≤ k → 0 ≤ a < 2 ^ k → Z.lor a (b * 2 ^ k) = a + b * 2 ^ k.
Proof.
  intros Hk Ha. assert (Hd : Z.land a (b * 2 ^ k) = 0).
  { apply Z.bits_inj'; intros i Hi. rewrite Z.land_spec, Z.bits_0.
    destruct (Z.ltb_spec i k).
    - rewrite (Z.mul_pow2_bits_low b) by lia. btauto.
    - rewrite (testbit_small a k) by lia. btauto. }
  by rewrite Z.add_nocarry_lxor, Z.lxor_lor.
Qed.

Lemma lor_add' a b k : 0 ≤ k → 0 ≤ a < 2 ^ k → Z.lor (b * 2 ^ k) a = a + b * 2 ^ k.
Proof. intros. rewrite Z.lor_comm. by apply lor_add. Qed.

Lemma word_bound_lor w a b : 0 ≤ w → word w a → word w b → word w (a .| b).
Proof.
  unfold word. intros Hw [Ha Ha'] [Hb Hb'].
  assert (0 ≤ a .| b) by (apply Z.lor_nonneg; lia). split; [done|].
  destruct (Z.eq_dec (a .| b) 0) as [->|Hn]; [lia|].
  apply Z.log2_lt_pow2; [lia|]. rewrite Z.log2_lor by lia.
  assert (0 < 2 ^ w) by lia.
  assert (Hl : ∀ x, 0 ≤ x → x < 2 ^ w → x ≠ 0 → Z.log2 x < w)
    by (intros; apply Z.log2_lt_pow2; lia).
  pose proof (Z.log2_nonneg a). pose proof (Z.log2_nonneg b).
  destruct (Z.eq_dec a 0) as [->|]; destruct (Z.eq_dec b 0) as [->|].
  - by rewrite Z.lor_0_r in Hn.
  - rewrite Z.max_r by done. by apply Hl.
  - rewrite Z.max_l by done. by apply Hl.
  - apply Z.max_lub_lt; by apply Hl.
Qed.

(** Bitwise equality of integers, from equality of bits. *)
Ltac bitwise i :=
  apply Z.bits_inj'; intros i ?;
  repeat first
    [ rewrite Z.lxor_spec | rewrite Z.lor_spec | rewrite Z.land_spec
    | rewrite Z.bits_0 | rewrite Z.shiftr_spec by lia | rewrite Z.shiftl_spec by lia ].

Lemma lxor_word w a b : 0 ≤ w → word w a → word w b → word w (a .^ b).
Proof.
  intros Hw Ha Hb. unfold word.
  rewrite <- (Z.mod_small a (2 ^ w)), <- (Z.mod_small b (2 ^ w)) by done.
  rewrite <- !Z.land_ones by lia.
  assert (E : (a .& Z.ones w) .^ (b .& Z.ones w) = (a .^ b) .& Z.ones w) by (bitwise i; btauto).
  rewrite E, Z.land_ones by lia. apply Z.mod_pos_bound. lia.
Qed.

(** ** Congruence modulo [m], a setoid on which ring operations are [Proper] *)

Definition cong (m x y : Z) : Prop := x mod m = y mod m.

#[export] Instance cong_equiv m : Equivalence (cong m).
Proof. split; red; unfold cong; congruence. Qed.

#[export] Instance cong_add m : Proper (cong m ==> cong m ==> cong m) Z.add.
Proof. intros x x' Hx y y' Hy. unfold cong in *. rewrite Zplus_mod, Hx, Hy. by rewrite <- Zplus_mod. Qed.
#[export] Instance cong_mul m : Proper (cong m ==> cong m ==> cong m) Z.mul.
Proof. intros x x' Hx y y' Hy. unfold cong in *. rewrite Zmult_mod, Hx, Hy. by rewrite <- Zmult_mod. Qed.
#[export] Instance cong_sub m : Proper (cong m ==> cong m ==> cong m) Z.sub.
Proof. intros x x' Hx y y' Hy. unfold cong in *. rewrite Zminus_mod, Hx, Hy. by rewrite <- Zminus_mod. Qed.
#[export] Instance cong_opp m : Proper (cong m ==> cong m) Z.opp.
Proof. intros x x' Hx. rewrite <- (Z.sub_0_l x), <- (Z.sub_0_l x'). by rewrite Hx. Qed.

Lemma cong_pow m x y n : 0 ≤ n → cong m x y → cong m (x ^ n) (y ^ n).
Proof.
  intros Hn Hxy. revert n Hn. apply natlike_ind; [done|].
  intros n Hn IH. rewrite !Z.pow_succ_r by done. by apply cong_mul.
Qed.

Lemma cong_mod m x : cong m (x mod m) x.
Proof. unfold cong. by rewrite Zmod_mod. Qed.

Lemma cong_mod_eq m x y : cong m x y → x mod m = y mod m.
Proof. done. Qed.

Lemma cong_eq m x y : x = y → cong m x y.
Proof. by intros ->. Qed.

Lemma cong_shift m x y k : x = y + k * m → cong m x y.
Proof. intros ->. unfold cong. apply Z_mod_plus_full. Qed.

Lemma cong_small m x y : cong m x y → 0 ≤ x < m → 0 ≤ y < m → x = y.
Proof. unfold cong. intros H ??. by rewrite !Z.mod_small in H by lia. Qed.


(** ** Little-endian byte strings *)

(** The value of a little-endian byte list. *)
Fixpoint le_val (bs : list Z) : Z :=
  match bs with [] => 0 | b :: bs => b + 256 * le_val bs end.

(** The [n] little-endian bytes of [x]. *)
Fixpoint le_bytes (n : nat) (x : Z) : list Z :=
  match n with O => [] | S n => x mod 256 :: le_bytes n (x / 256) end.

Definition bytes (bs : list Z) : Prop := Forall (word 8) bs.

Lemma length_le_bytes n x : length (le_bytes n x) = n.
Proof. revert x. induction n; intros; simpl; auto. Qed.

Lemma le_bytes_bytes n x : bytes (le_bytes n x).
Proof.
  revert x. induction n; intros; simpl; constructor; [|apply IHn].
  unfold word. pow_consts. lia.
Qed.

Lemma le_val_bound bs : bytes bs → 0 ≤ le_val bs < 256 ^ Z.of_nat (length bs).
Proof.
  induction 1 as [|b bs Hb _ IH]; simpl le_val; simpl length; [done|].
  rewrite Nat2Z.inj_succ, Z.pow_succ_r by lia. unfold word in Hb. pow_consts. lia.
Qed.

Lemma le_val_bytes n x : 0 ≤ x < 256 ^ Z.of_nat n → le_val (le_bytes n x) = x.
Proof.
  revert x. induction n as [|n IH]; intros x Hx; simpl.
  - simpl in Hx. lia.
  - rewrite Nat2Z.inj_succ, Z.pow_succ_r in Hx by lia.
    rewrite IH; [lia|]. split; [lia|]. apply Z.div_lt_upper_bound; lia.
Qed.

Lemma le_bytes_val bs : bytes bs → le_bytes (length bs) (le_val bs) = bs.
Proof.
  induction 1 as [|b bs Hb _ IH]; simpl; [done|].
  unfold word in Hb. pow_consts. f_equal; [lia|].
  replace ((b + 256 * le_val bs) / 256) with (le_val bs) by lia. done.
Qed.

Lemma le_val_app a b : le_val (a ++ b) = le_val a + 256 ^ Z.of_nat (length a) * le_val b.
Proof.
  induction a as [|x a IH]; simpl app; simpl le_val; simpl length.
  - simpl. lia.
  - rewrite IH, Nat2Z.inj_succ, Z.pow_succ_r by lia. lia.
Qed.

(** ** [for (i = s; i < s + n; i++)] as a list, linear to compute *)

Fixpoint zseq (s : Z) (n : nat) : list Z :=
  match n with O => [] | S n => s :: zseq (s + 1) n end.

Lemma length_zseq s n : length (zseq s n) = n.
Proof. revert s. induction n; intros; simpl; auto. Qed.

Lemma elem_of_zseq s n x : x ∈ zseq s n ↔ s ≤ x < s + Z.of_nat n.
Proof.
  revert s. induction n as [|n IH]; intros s; simpl zseq.
  - rewrite elem_of_nil. lia.
  - rewrite elem_of_cons, IH. lia.
Qed.

Lemma lookup_zseq s n i : (i < n)%nat → zseq s n !! i = Some (s + Z.of_nat i).
Proof.
  revert s i. induction n as [|n IH]; intros s [|i] Hi; simpl; [lia|lia|f_equal; lia|].
  rewrite IH by lia. f_equal. lia.
Qed.

Lemma zseq_seqZ s n : zseq s n = seqZ s (Z.of_nat n).
Proof.
  apply list_eq. intros i. destruct (decide (i < n)%nat).
  - rewrite lookup_zseq by done. symmetry. apply lookup_seqZ. lia.
  - rewrite !lookup_ge_None_2; [done|rewrite length_seqZ; lia|rewrite length_zseq; lia].
Qed.

Lemma zseq_app s n m : zseq s (n + m) = zseq s n ++ zseq (s + Z.of_nat n) m.
Proof. rewrite !zseq_seqZ, Nat2Z.inj_add, seqZ_app by lia. done. Qed.

Lemma zseq_snoc s n : zseq s (S n) = zseq s n ++ [s + Z.of_nat n].
Proof. replace (S n) with (n + 1)%nat by lia. by rewrite zseq_app. Qed.

(** ** [std::swap(l[i], l[j])] *)

Definition swap {A} (i j : nat) (l : list A) : list A :=
  match l !! i, l !! j with
  | Some x, Some y => <[i := y]> (<[j := x]> l)
  | _, _ => l
  end.

Lemma insert_Permutation {A} (l : list A) i x y : l !! i = Some x → y :: l ≡ₚ x :: <[i := y]> l.
Proof.
  revert i. induction l as [|z l IH]; intros [|i] Hi; [done..| |].
  - injection Hi as ->. apply Permutation_swap.
  - transitivity (z :: y :: l); [apply perm_swap|].
    transitivity (z :: x :: <[i := y]> l); [apply perm_skip; by apply IH|apply perm_swap].
Qed.

Lemma swap_Permutation {A} i j (l : list A) : swap i j l ≡ₚ l.
Proof.
  unfold swap. destruct (l !! i) as [x|] eqn:Hi; [|done]. destruct (l !! j) as [y|] eqn:Hj; [|done].
  destruct (decide (i = j)) as [->|Hij].
  - rewrite list_insert_insert_eq. assert (x = y) as -> by congruence. by rewrite list_insert_id.
  - apply (Permutation_cons_inv (a := x)).
    rewrite (insert_Permutation l j y x Hj). symmetry. apply insert_Permutation.
    by rewrite list_lookup_insert_ne.
Qed.

Lemma length_swap {A} i j (l : list A) : length (swap i j l) = length l.
Proof. apply Permutation_length, swap_Permutation. Qed.

(** A property of the entries of a list read with a default. *)
Lemma Forall_nth_default {A} (P : A → Prop) (l : list A) i d : Forall P l → P d → P (nth i l d).
Proof.
  intros Hl Hd. rewrite nth_lookup. destruct (l !! i) as [x|] eqn:E; [|done].
  by apply (Forall_lookup_1 _ _ _ _ Hl E).
Qed.

Lemma Forall_zip_with {A B C} (P : C → Prop) (f : A → B → C) (la : list A) (lb : list B)
    (Pa : A → Prop) (Pb : B → Prop) :
  Forall Pa la → Forall Pb lb → (∀ a b, Pa a → Pb b → P (f a b)) → Forall P (zip_with f la lb).
Proof.
  intros Ha Hb Hf. revert lb Hb. induction Ha as [|a la Ha Hla IH]; intros lb Hb; [constructor|].
  destruct Hb as [|b lb Hb Hlb]; constructor; auto.
Qed.

(** ** Calls in sequence, up to the first exception *)

Fixpoint mapR {A B} (f : A → res B) (l : list A) : res (list B) :=
  match l with [] => Ok [] | x :: l => y ← f x; ys ← mapR f l; Ok (y :: ys) end.

Lemma mapR_Ok {A B} (f : A → res B) l ys : mapR f l = Ok ys ↔ Forall2 (λ x y, f x = Ok y) l ys.
Proof.
  revert ys. induction l as [|x l IH]; intros ys; cbn [mapR].
  - split; [intros [= <-]; constructor|by inversion 1].
  - split.
    + intros (y & Hy & H1)%res_bind_Ok. apply res_bind_Ok in H1 as (ys' & Hys & [= <-]).
      constructor; [done|by apply IH].
    + inversion 1 as [|? y ? ys' Hy Hys]; subst. apply IH in Hys. cbn.
      rewrite Hy. cbn. by rewrite Hys.
Qed.

Lemma mapR_length {A B} (f : A → res B) l ys : mapR f l = Ok ys → length ys = length l.
Proof. intros H1%mapR_Ok. symmetry. by eapply Forall2_length. Qed.

Lemma mapR_Forall {A B} (f : A → res B) (Q : B → Prop) l ys :
  (∀ x y, f x = Ok y → Q y) → mapR f l = Ok ys → Forall Q ys.
Proof. intros Hf H1%mapR_Ok. induction H1; constructor; eauto. Qed.

(** ** Sums over lists *)

Definition lsum {A} (l : list A) (f : A → Z) : Z := foldr (λ x acc, f x + acc) 0 l.

Lemma lsum_cons {A} (x : A) l f : lsum (x :: l) f = f x + lsum l f.
Proof. done. Qed.

Lemma lsum_app {A} (l l' : list A) f : lsum (l ++ l') f = lsum l f + lsum l' f.
Proof. induction l as [|x l IH]; [done|]. cbn [app]. rewrite !lsum_cons, IH. lia. Qed.

Lemma lsum_bind {A B} (l : list A) (g : A → list B) f : lsum (l ≫= g) f = lsum l (λ x, lsum (g x) f).
Proof. induction l as [|x l IH]; [done|]. rewrite bind_cons, lsum_app, lsum_cons, IH. done. Qed.

Lemma lsum_ext {A} (l : list A) f g : (∀ x, x ∈ l → f x = g x) → lsum l f = lsum l g.
Proof.
  induction l as [|x l IH]; intros H; [done|]. rewrite !lsum_cons, H by by left. f_equal. apply IH. intros y Hy. apply H. by right.
Qed.

Lemma lsum_scale {A} (l : list A) f c : lsum l (λ x, c * f x) = c * lsum l f.
Proof. induction l as [|x l IH]; [unfold lsum; cbn; lia|]. rewrite !lsum_cons, IH. lia. Qed.

Lemma lsum_scale_r {A} (l : list A) f c : lsum l (λ x, f x * c) = lsum l f * c.
Proof. induction l as [|x l IH]; [unfold lsum; cbn; lia|]. rewrite !lsum_cons, IH. lia. Qed.
