(* ===== verification/Primes.v ===== *)
(** * Number theory: Pocklington certificates

    The moduli of the two fields ([2^127 - 1] and [2^255 - 19]) and the order of
    the Ristretto group are proved prime, so that the exponentiations by which
    the code inverts are inverses (with Fermat's theorem of the Standard Library). *)

From Stdlib Require Import Zdivisibility ZmodInv.
From S2P Require Import Prelude.

#[export] Instance divide_dec a b : Decision (a | b).
Proof.
  destruct ((b =? 0) || negb (a =? 0) && (b mod a =? 0)) eqn:E; [left|right];
    pose proof (Z.BoolSpec_divide a b) as H; rewrite E in H; by inversion H.
Defined.

Lemma cong_divide m x y : 0 < m → cong m x y ↔ (m | x - y).
Proof.
  intros Hm. unfold cong. rewrite <- Z.mod_divide by lia. split; intros H.
  - by rewrite Zminus_mod, H, Z.sub_diag, Zmod_0_l.
  - apply Z.mod_divide in H as [k Hk]; [|lia].
    replace x with (y + k * m) by lia. apply Z_mod_plus_full.
Qed.

Lemma fermat_little r a : Z.prime r → ¬ (r | a) → cong r (a ^ (r - 1)) 1.
Proof.
  intros Hr Ha. pose proof (Z.prime_ge_2 _ Hr). unfold cong.
  rewrite Z.fermat_nz, Z.mod_1_l by (try rewrite Z.mod_divide; done || lia). done.
Qed.

(** Inversion by exponentiation. *)
Lemma fermat_inverse r a : Z.prime r → ¬ (r | a) → cong r (a * a ^ (r - 2)) 1.
Proof.
  intros Hr Ha. pose proof (Z.prime_ge_2 _ Hr).
  rewrite <- Z.pow_succ_r by lia. replace (Z.succ (r - 2)) with (r - 1) by lia.
  by apply fermat_little.
Qed.

(** Euclid's lemma. *)
Lemma prime_mul r a b : Z.prime r → (r | a * b) → (r | a) ∨ (r | b).
Proof.
  intros Hr Hab. pose proof (Z.prime_ge_2 _ Hr).
  destruct (decide (r | a)) as [|Ha]; [by left|]. destruct (decide (r | b)) as [|Hb]; [by right|].
  exfalso. pose proof (fermat_little r a Hr Ha) as Fa. pose proof (fermat_little r b Hr Hb) as Fb.
  assert (H1 : cong r ((a * b) ^ (r - 1)) 1) by (rewrite Z.pow_mul_l, Fa, Fb; done).
  assert (H0 : cong r ((a * b) ^ (r - 1)) 0).
  { apply cong_divide; [lia|]. rewrite Z.sub_0_r. apply (Z.divide_trans _ (a * b)); [done|].
    exists ((a * b) ^ (r - 2)).
    replace (r - 1) with (Z.succ (r - 2)) by lia. rewrite Z.pow_succ_r by lia. ring. }
  rewrite H0 in H1. unfold cong in H1. rewrite Zmod_0_l, Z.mod_1_l in H1 by lia. done.
Qed.

(** ** Modular exponentiation that computes *)

Fixpoint powmod_pos (a : Z) (e : positive) (n : Z) : Z :=
  match e with
  | xH => a mod n
  | xO e => let h := powmod_pos a e n in (h * h) mod n
  | xI e => let h := powmod_pos a e n in ((h * h) mod n * a) mod n
  end.

Definition powmod (a e n : Z) : Z :=
  match e with Zpos e => powmod_pos a e n | _ => 1 mod n end.

Lemma powmod_pos_spec a e n : cong n (powmod_pos a e n) (a ^ Zpos e).
Proof.
  induction e as [e IH|e IH|]; simpl powmod_pos.
  - rewrite !cong_mod, IH. apply cong_eq.
    rewrite Pos2Z.inj_xI, Z.pow_add_r, Z.pow_1_r, Z.pow_twice_r by lia. done.
  - rewrite cong_mod, IH. apply cong_eq.
    rewrite Pos2Z.inj_xO, Z.pow_twice_r by lia. done.
  - by rewrite cong_mod, Z.pow_1_r.
Qed.

Lemma powmod_spec a e n : 0 ≤ e → cong n (powmod a e n) (a ^ e).
Proof.
  intros He. destruct e as [|e|e]; simpl powmod; [apply cong_mod|apply powmod_pos_spec|lia].
Qed.

(** ** Primality by trial division *)

Definition trial_check (n : Z) : bool :=
  (1 <? n) && forallb (λ d, negb (n mod d =? 0)) (seqZ 2 (Z.sqrt n - 1)).

Lemma prime_or_factor n : 1 < n → Z.prime n ∨ ∃ d, 1 < d ∧ d * d ≤ n ∧ (d | n).
Proof.
  intros Hn. destruct (decide (Exists (λ d, (d | n)) (seqZ 2 (n - 2)))) as [Hd|Hd].
  - right. apply Exists_exists in Hd as (d & Hd%elem_of_seqZ & k & Hk).
    destruct (Z.le_gt_cases d k).
    + exists d. split_and!; [lia|nia|by exists k].
    + exists k. split_and!; [nia|nia|exists d; lia].
  - left. split; [done|]. intros d Hdn Hdiv. apply Hd, Exists_exists.
    exists d. rewrite elem_of_seqZ. split; [lia|done].
Qed.

Lemma trial_check_prime n : trial_check n = true → Z.prime n.
Proof.
  unfold trial_check. rewrite andb_true_iff. intros [Hn Hall].
  destruct (prime_or_factor n ltac:(lia)) as [|(d & Hd & Hdd & Hdiv)]; [done|exfalso].
  rewrite forallb_forall in Hall.
  assert (Hin : In d (seqZ 2 (Z.sqrt n - 1))).
  { apply list_elem_of_In, elem_of_seqZ.
    assert (d ≤ Z.sqrt n) by (apply Z.sqrt_le_square; lia). lia. }
  apply Hall in Hin. apply Z.mod_divide in Hdiv; [|lia]. by rewrite Hdiv in Hin.
Qed.

(** ** Pocklington certificates

    [a] is the witness and [qs] distinct primes dividing [n - 1] whose product
    exceeds the square root of [n]. *)

Definition zprod (l : list Z) : Z := foldr Z.mul 1 l.

Definition pock_check (n a : Z) (qs : list Z) : bool :=
  (1 <? n) && (powmod a (n - 1) n =? 1) &&
  (n <? zprod qs * zprod qs) &&
  bool_decide (NoDup qs) &&
  forallb (λ q, ((n - 1) mod q =? 0) &&
                (Z.gcd (powmod a ((n - 1) / q) n - 1) n =? 1)) qs.

Lemma prime_factor n : 1 < n → ∃ r, Z.prime r ∧ (r | n).
Proof.
  intros Hn. assert (Hn' : 0 ≤ n) by lia. revert Hn.
  apply (Zlt_0_ind (λ n, 1 < n → ∃ r, Z.prime r ∧ (r | n))); [|done].
  clear. intros n IH _ Hn.
  destruct (prime_or_factor n Hn) as [|(d & Hd & Hdd & Hdiv)]; [by exists n|].
  destruct (IH d ltac:(nia) Hd) as (r & Hr & Hrd). exists r. split; [done|].
  by etransitivity.
Qed.

(** A number whose prime divisors all exceed its square root is prime. *)
Lemma large_factors_prime n :
  1 < n → (∀ r, Z.prime r → (r | n) → n < r * r) → Z.prime n.
Proof.
  intros Hn Hlarge.
  destruct (prime_or_factor n Hn) as [|(d & Hd & Hdd & Hdiv)]; [done|exfalso].
  destruct (prime_factor d Hd) as (r & Hr & Hrd).
  specialize (Hlarge r Hr ltac:(by etransitivity)).
  apply Z.divide_pos_le in Hrd; [|lia]. pose proof (Z.prime_ge_2 _ Hr). nia.
Qed.

Lemma pow_one r b e : 0 ≤ e → cong r b 1 → cong r (b ^ e) 1.
Proof. intros He Hb. rewrite (cong_pow r b 1) by done. by rewrite Z.pow_1_l. Qed.

(** An element other than one whose order divides the prime [q] forces [q] to
    divide [r - 1]. *)
Lemma order_divides r q b :
  Z.prime r → Z.prime q → ¬ (r | b) → cong r (b ^ q) 1 → ¬ cong r b 1 → (q | r - 1).
Proof.
  intros Hr Hq Hb Hbq Hb1.
  pose proof (Z.prime_ge_2 _ Hr). pose proof (Z.prime_ge_2 _ Hq).
  destruct (decide (q | r - 1)) as [|Hnd]; [done|exfalso].
  apply Z.coprime_prime_l in Hnd; [|done].
  destruct (Z.Bezout_coprime _ _ Hnd) as (u & v & Huv).
  set (t := Z.abs u + Z.abs v).
  (* shift the coefficients so that both exponents are non-negative *)
  assert (Hpos : 0 ≤ u + t * (r - 1) ∧ 0 ≤ t * q - v) by (unfold t; nia).
  assert (E : q * (u + t * (r - 1)) = 1 + (r - 1) * (t * q - v)) 
    by (transitivity ((u * q + v * (r - 1)) + (r - 1) * (t * q - v)); [ring|by rewrite Huv]).
  assert (Hl : cong r (b ^ (q * (u + t * (r - 1)))) 1).
  { rewrite Z.pow_mul_r by lia. apply pow_one; [lia|done]. }
  rewrite E, Z.pow_add_r, Z.pow_mul_r, Z.pow_1_r in Hl by (clear E Hl; nia).
  apply Hb1. rewrite <- Hl.
  rewrite (pow_one r (b ^ (r - 1)) _) by (try apply fermat_little; done || lia).
  apply cong_eq. ring.
Qed.

Lemma distinct_primes_coprime q qs :
  Z.prime q → Forall Z.prime qs → q ∉ qs → Z.coprime q (zprod qs).
Proof.
  intros Hq. induction 1 as [|p qs Hp _ IH]; simpl; intros Hin; [apply Z.coprime_1_r|].
  apply not_elem_of_cons in Hin as [Hne Hin].
  apply Z.coprime_mul_r; [|by apply IH].
  apply Z.coprime_prime_l; [done|]. by intros ?%Z.divide_prime_prime.
Qed.

Lemma distinct_primes_divide qs m :
  Forall Z.prime qs → NoDup qs → Forall (λ q, (q | m)) qs → (zprod qs | m).
Proof.
  induction qs as [|q qs IH]; simpl; intros Hp Hnd Hd; [apply Z.divide_1_l|].
  apply Forall_cons in Hp as [Hq Hp]. apply Forall_cons in Hd as [[k Hk] Hd].
  apply NoDup_cons in Hnd as [Hin Hnd]. rewrite Hk in *.
  specialize (IH Hp Hnd Hd).
  rewrite (Z.mul_comm k q) in IH. apply Z.gauss in IH as [j Hj].
  - exists j. rewrite Hj. ring.
  - rewrite Z.gcd_comm. by apply distinct_primes_coprime.
Qed.

Theorem pocklington n a qs :
  Forall Z.prime qs → pock_check n a qs = true → Z.prime n.
Proof.
  unfold pock_check. rewrite !andb_true_iff, bool_decide_eq_true, forallb_forall.
  intros Hp ((((Hn & Ha) & Hbig) & Hnd) & Hqs).
  apply Z.ltb_lt in Hn, Hbig. apply Z.eqb_eq in Ha.
  apply large_factors_prime; [done|]. intros r Hr [c Hc].
  assert (Hmod : ∀ x y, cong n x y → cong r x y).
  { intros x y Hxy. apply cong_divide in Hxy; [|lia].
    apply cong_divide; [pose proof (Z.prime_ge_2 _ Hr); lia|].
    etransitivity; [exists c; exact Hc|done]. }
  assert (Ha1 : cong r (a ^ (n - 1)) 1).
  { apply Hmod. rewrite <- powmod_spec, Ha by lia. done. }
  assert (Hdiv : (zprod qs | r - 1)).
  { apply distinct_primes_divide; [done..|]. apply Forall_forall. intros q Hq.
    pose proof (proj1 (Forall_forall _ _) Hp q Hq) as Hqp. pose proof (Z.prime_ge_2 _ Hqp).
    apply list_elem_of_In, Hqs in Hq. rewrite andb_true_iff, !Z.eqb_eq in Hq.
    destruct Hq as [Hq0 Hgcd].
    apply (order_divides r q (a ^ ((n - 1) / q))); [done|done| | |].
    - intros Hd. apply (Z.divide_trans _ _ (a ^ (n - 1))) in Hd.
      + apply cong_divide in Ha1; [|pose proof (Z.prime_ge_2 _ Hr); lia].
        apply (Z.divide_sub_r _ _ _ Hd) in Ha1. ring_simplify in Ha1.
        apply Z.divide_1_r in Ha1. pose proof (Z.prime_ge_2 _ Hr). lia.
      + apply Z.mod_divide in Hq0 as [k Hk]; [|lia]. rewrite Hk, Z.div_mul by lia.
        assert (1 ≤ k) by nia.
        replace (k * q) with (k + k * (q - 1)) by ring.
        rewrite Z.pow_add_r by nia. apply Z.divide_factor_l.
    - rewrite <- Z.pow_mul_r by (try apply Z.div_pos; lia).
      apply Z.mod_divide in Hq0 as [k Hk]; [|lia]. rewrite Hk, Z.div_mul by lia.
      by rewrite <- Hk.
    - intros H1.
      assert (He : cong r (powmod a ((n - 1) / q) n) (a ^ ((n - 1) / q)))
        by (apply Hmod, powmod_spec, Z.div_pos; lia).
      rewrite <- He in H1. apply cong_divide in H1; [|pose proof (Z.prime_ge_2 _ Hr); lia].
      assert (Hr1 : (r | 1)) by (rewrite <- Hgcd; apply Z.gcd_greatest; [done|by exists c]).
      apply Z.divide_1_r in Hr1. pose proof (Z.prime_ge_2 _ Hr). lia. }
  apply Z.divide_pos_le in Hdiv; [|pose proof (Z.prime_ge_2 _ Hr); lia].
  assert (0 ≤ zprod qs); [|nia].
  clear -Hp. induction Hp as [|q qs Hq _ IH]; simpl; [lia|].
  pose proof (Z.prime_ge_2 _ Hq). nia.
Qed.

(** ** The primes of the development *)

Create HintDb primes.
Ltac small_prime := apply trial_check_prime; vm_compute; reflexivity.
#[export] Hint Extern 3 (Z.prime _) => small_prime : primes.
#[export] Hint Constructors Forall : primes.

Ltac certify a qs :=
  apply (pocklington _ a qs); [eauto 20 with primes|vm_compute; reflexivity].

Lemma prime_174763 : Z.prime 174763.
Proof. certify 3 [73; 19]. Qed.
#[export] Hint Resolve prime_174763 : primes.
Lemma prime_699053 : Z.prime 699053.
Proof. certify 2 [174763]. Qed.
#[export] Hint Resolve prime_699053 : primes.
Lemma prime_77158673929 : Z.prime 77158673929.
Proof. certify 3 [699053]. Qed.
#[export] Hint Resolve prime_77158673929 : primes.
Lemma prime_649657 : Z.prime 649657.
Proof. certify 3 [1289]. Qed.
#[export] Hint Resolve prime_649657 : primes.

(** The field of the ciphertexts. *)
Lemma prime_127 : Z.prime 0x7FFFFFFFFFFFFFFFFFFFFFFFFFFFFFFF.
Proof. certify 3 [77158673929; 649657; 92737]. Qed.

(** The field of Curve25519. *)
Lemma prime_8574133 : Z.prime 8574133.
Proof. certify 2 [991; 103]. Qed.
#[export] Hint Resolve prime_8574133 : primes.
Lemma prime_1919519569386763 : Z.prime 1919519569386763.
Proof. certify 2 [8574133; 127]. Qed.
#[export] Hint Resolve prime_1919519569386763 : primes.
Lemma prime_569003 : Z.prime 569003.
Proof. certify 2 [419; 97]. Qed.
#[export] Hint Resolve prime_569003 : primes.
Lemma prime_2773320623 : Z.prime 2773320623.
Proof. certify 2 [569003]. Qed.
#[export] Hint Resolve prime_2773320623 : primes.
Lemma prime_72106336199 : Z.prime 72106336199.
Proof. certify 2 [2773320623]. Qed.
#[export] Hint Resolve prime_72106336199 : primes.
Lemma prime_cert_a : Z.prime 75445702479781427272750846543864801.
Proof. certify 2 [1919519569386763; 72106336199]. Qed.
#[export] Hint Resolve prime_cert_a : primes.
Lemma prime_430751 : Z.prime 430751.
Proof. certify 2 [1723]. Qed.
#[export] Hint Resolve prime_430751 : primes.
Lemma prime_31757755568855353 : Z.prime 31757755568855353.
Proof. certify 2 [430751; 4153]. Qed.
#[export] Hint Resolve prime_31757755568855353 : primes.
Lemma prime_cert_b :
  Z.prime 74058212732561358302231226437062788676166966415465897661863160754340907.
Proof. certify 2 [75445702479781427272750846543864801; 31757755568855353]. Qed.
#[export] Hint Resolve prime_cert_b : primes.
Lemma prime_25519 :
  Z.prime 57896044618658097711785492504343953926634992332820282019728792003956564819949.
Proof.
  certify 2 [74058212732561358302231226437062788676166966415465897661863160754340907].
Qed.

(** The order of the Ristretto group. *)
Lemma prime_1224481 : Z.prime 1224481.
Proof. certify 2 [2551]. Qed.
#[export] Hint Resolve prime_1224481 : primes.
Lemma prime_531581 : Z.prime 531581.
Proof. certify 2 [3797]. Qed.
#[export] Hint Resolve prime_531581 : primes.
Lemma prime_1257559732178653 : Z.prime 1257559732178653.
Proof. certify 2 [1224481; 531581]. Qed.
#[export] Hint Resolve prime_1257559732178653 : primes.
Lemma prime_4434155615661930479 : Z.prime 4434155615661930479.
Proof. certify 2 [1257559732178653]. Qed.
#[export] Hint Resolve prime_4434155615661930479 : primes.
Lemma prime_cert_c : Z.prime 172054593956031949258510691.
Proof. certify 2 [4434155615661930479]. Qed.
#[export] Hint Resolve prime_cert_c : primes.
Lemma prime_cert_d : Z.prime 19757330305831588566944191468367130476339.
Proof. certify 2 [172054593956031949258510691]. Qed.
#[export] Hint Resolve prime_cert_d : primes.
Lemma prime_cert_e : Z.prime 276602624281642239937218680557139826668747.
Proof. certify 2 [19757330305831588566944191468367130476339]. Qed.
#[export] Hint Resolve prime_cert_e : primes.
Lemma prime_L :
  Z.prime 7237005577332262213973186563042994240857116359379907606001950938285454250989.
Proof. certify 2 [276602624281642239937218680557139826668747]. Qed.
