(* ===== verification/Field.v ===== *)
(** * The prime field [Fp] of [core/field.hpp]

    Elements are two 64-bit limbs; every operation of the header is translated
    with its carries and proved to compute in [Z] modulo [P = 2^127 - 1]. *)

From S2P Require Import Prelude Primes.

Definition MASK63 : Z := 0x7FFFFFFFFFFFFFFF.

Record Fp : Set := mkFp { lo : Z; hi : Z }.

#[export] Instance Fp_eq_dec : EqDecision Fp.
Proof. solve_decision. Defined.

(** ** Operations *)

Definition fp_is_reduced (v : Fp) : bool :=
  (hi v .& wnot 64 MASK63 =? 0) &&
  (negb (lo v =? UINT64_MAX) || negb (hi v =? MASK63)).

(** [None] is the [false] return; the value is the [int64_t] written to [out]. *)
Definition fp_to_i64 (value : Fp) : option Z :=
  let p := u128 (wshl 128 1 127 - 1) in
  let raw := wshl 128 (hi value) 64 .| lo value in
  let max_pos := 2 ^ 63 - 1 in
  let max_neg := wshl 128 1 63 in
  if p <=? raw then None
  else if raw <=? max_pos then Some (signed 64 (u64 raw))
  else if raw <=? p / 2 then None
  else
    let magnitude := u128 (p - raw) in
    if max_neg <? magnitude then None
    else if magnitude =? max_neg then Some (- 2 ^ 63)
    else Some (- signed 64 (u64 magnitude)).

Definition fp_from_u64 (x : Z) : Fp := mkFp x 0.

Definition fp_from_words (lo0 hi0 : Z) : Fp :=
  let extra := hi0 ≫ 63 in
  let hi1 := hi0 .& MASK63 in
  let t := u128 (lo0 + extra) in
  let lo := u64 t in
  let hi := u64 (hi1 + u64 (t ≫ 64)) in
  let old_lo := lo in
  let lo2 := u64 (lo - UINT64_MAX) in
  let br := b2z (old_lo <? UINT64_MAX) in
  let hi2 := u64 (hi - MASK63 - br) in
  let need_sub := negb (hi ≫ 63 =? 0) || ((hi =? MASK63) && (lo =? UINT64_MAX)) in
  if need_sub then mkFp lo2 hi2 else mkFp lo hi.

Definition fp_add (a b : Fp) : Fp :=
  let t0 := u128 (lo a + lo b) in
  let l := u64 t0 in
  let t1 := u128 (hi a + hi b + u64 (t0 ≫ 64)) in
  fp_from_words l (u64 t1).

Definition fp_neg (a : Fp) : Fp :=
  let Plo := UINT64_MAX in
  let Phi := MASK63 in
  let t0 := u128 (Plo - lo a) in
  let l := u64 t0 in
  let t1 := u128 (Phi - hi a - u64 (t0 ≫ 64)) in
  fp_from_words l (u64 t1).

Definition fp_sub (a b : Fp) : Fp := fp_add a (fp_neg b).

(** [detail::fp_from_i64] of [ops/arithmetic.hpp]; [x] is an [int64_t]. *)
Definition fp_from_i64 (x : Z) : Fp :=
  if 0 <=? x then fp_from_u64 (u64 x)
  else fp_neg (fp_from_u64 (u64 (u64 (- (x + 1)) + 1))).

(** The three builds of the 128 x 128 -> 256 bit product. [_umul128] and the
    [mulq] instruction both return the low and high words of a 64 x 64 product. *)
Record W256 : Set := mkW256 { z0 : Z; z1 : Z; z2 : Z; z3 : Z }.

Definition umul_lo (a b : Z) : Z := u64 (a * b).
Definition umul_hi (a b : Z) : Z := u64 ((a * b) ≫ 64).

Definition mul128x128_msvc (a0 a1 b0 b1 : Z) : W256 :=
  let z0 := umul_lo a0 b0 in let h00 := umul_hi a0 b0 in
  let l01 := umul_lo a0 b1 in let h01 := umul_hi a0 b1 in
  let l10 := umul_lo a1 b0 in let h10 := umul_hi a1 b0 in
  let l11 := umul_lo a1 b1 in let h11 := umul_hi a1 b1 in
  let t1 := h00 in
  let s := u64 (t1 + l01) in
  let c := b2z (s <? t1) in
  let t1 := s in
  let s := u64 (t1 + l10) in
  let c := u64 (c + b2z (s <? t1)) in
  let z1 := s in
  let t2 := h01 in
  let s := u64 (t2 + h10) in
  let c2 := b2z (s <? t2) in
  let t2 := s in
  let s := u64 (t2 + l11) in
  let c2 := u64 (c2 + b2z (s <? t2)) in
  let t2 := s in
  let s := u64 (t2 + c) in
  let c2 := u64 (c2 + b2z (s <? t2)) in
  mkW256 z0 z1 s (u64 (h11 + c2)).

Definition mul128x128_x86 (a0 a1 b0 b1 : Z) : W256 :=
  let p00_lo := umul_lo a0 b0 in let p00_hi := umul_hi a0 b0 in
  let p01_lo := umul_lo a0 b1 in let p01_hi := umul_hi a0 b1 in
  let p10_lo := umul_lo a1 b0 in let p10_hi := umul_hi a1 b0 in
  let p11_lo := umul_lo a1 b1 in let p11_hi := umul_hi a1 b1 in
  let m1 := u128 (p00_hi + p01_lo + p10_lo) in
  let m2 := u128 (p01_hi + p10_hi + p11_lo + (m1 ≫ 64)) in
  mkW256 p00_lo (u64 m1) (u64 m2) (u64 (p11_hi + u64 (m2 ≫ 64))).

Definition mul128x128 (a0 a1 b0 b1 : Z) : W256 :=
  let c0 := u128 (a0 * b0) in
  let c1 := u128 (a0 * b1) in
  let c2 := u128 (a1 * b0) in
  let c3 := u128 (a1 * b1) in
  let t := u128 ((c0 ≫ 64) + u64 c1 + u64 c2) in
  let t2 := u128 ((c1 ≫ 64) + (c2 ≫ 64) + u64 c3 + (t ≫ 64)) in
  let t3 := u128 ((c3 ≫ 64) + (t2 ≫ 64)) in
  mkW256 (u64 c0) (u64 t) (u64 t2) (u64 t3).

Definition fp_reduce256 (z0 z1 z2 z3 : Z) : Fp :=
  let L0 := z0 in
  let L1 := z1 .& MASK63 in
  let H0 := (z1 ≫ 63) .| wshl 64 z2 1 in
  let H1 := (z2 ≫ 63) .| wshl 64 z3 1 in
  let H2 := z3 ≫ 63 in
  let t0 := u128 (L0 + H0) in
  let x0 := u64 t0 in
  let c0 := u64 (t0 ≫ 64) in
  let t1 := u128 (L1 + H1 + c0) in
  let x1 := u64 t1 in
  let c1 := u64 (t1 ≫ 64) in
  let x2 := u64 (H2 + c1) in
  let YL0 := x0 in
  let YL1 := x1 .& MASK63 in
  let YH0 := (x1 ≫ 63) .| wshl 64 x2 1 in
  let s0 := u128 (YL0 + YH0) in
  let y0 := u64 s0 in
  let cy := u64 (s0 ≫ 64) in
  let y1 := u64 (YL1 + cy) in
  fp_from_words y0 y1.

Definition fp_mul (a b : Fp) : Fp :=
  let z := mul128x128 (lo a) (hi a) (lo b) (hi b) in
  fp_reduce256 (z0 z) (z1 z) (z2 z) (z3 z).

(** [while (e)]: 64 iterations exhaust a 64-bit exponent. *)
Fixpoint fp_pow_loop (fuel : nat) (r a : Fp) (e : Z) : Fp :=
  match fuel with
  | O => r
  | S fuel =>
      if e =? 0 then r
      else
        let r := if e .& 1 =? 0 then r else fp_mul r a in
        fp_pow_loop fuel r (fp_mul a a) (e ≫ 1)
  end.

Definition fp_pow_u64 (a : Fp) (e : Z) : Fp := fp_pow_loop 64 (fp_from_u64 1) a e.

(** The window table [tbl] of [fp_inv_ct]: [tbl[0] = 1], [tbl[1] = a],
    [tbl[i] = tbl[i-1] * a] for [2 <= i < T]. *)
Fixpoint inv_table_from (n : nat) (prev a : Fp) : list Fp :=
  match n with
  | O => []
  | S n => let next := fp_mul prev a in next :: inv_table_from n next a
  end.

Definition inv_W : Z := 5.
Definition inv_T : nat := 32.

Definition inv_table (a : Fp) : list Fp :=
  fp_from_u64 1 :: a :: inv_table_from (inv_T - 2) a a.

Definition fp_sqr_n (n : nat) (r : Fp) : Fp := Nat.iter n (λ r, fp_mul r r) r.

(** [while (k >= (1 << W)) { k >>= 1; l++; }] *)
Fixpoint inv_shrink (fuel : nat) (k l : Z) : Z * Z :=
  match fuel with
  | O => (k, l)
  | S fuel => if 2 ^ inv_W <=? k then inv_shrink fuel (k ≫ 1) (l + 1) else (k, l)
  end.

(** [while (pos >= 0)]: [pos] decreases at every turn, so 127 turns suffice. *)
Fixpoint inv_loop (fuel : nat) (tbl : list Fp) (e : Z) (r : Fp) (pos : Z) : Fp :=
  match fuel with
  | O => r
  | S fuel =>
      if pos <? 0 then r
      else if (e ≫ pos) .& 1 =? 0 then inv_loop fuel tbl e (fp_mul r r) (pos - 1)
      else
        let l := Z.max 0 (pos - inv_W + 1) in
        let k := (e ≫ l) .& (Z.shiftl 1 (pos - l + 1) - 1) in
        let '(k, l) := inv_shrink 7 k l in
        let r := fp_sqr_n (Z.to_nat (pos - l + 1)) r in
        let r := fp_mul r (nth (Z.to_nat k) tbl (fp_from_u64 0)) in
        inv_loop fuel tbl e r (l - 1)
  end.

Definition inv_exp : Z := u128 (wshl 128 1 127 - 3).

Definition fp_inv_ct (a : Fp) : Fp :=
  inv_loop 127 (inv_table a) inv_exp (fp_from_u64 1) 126.

Definition fp_inv (a : Fp) : Fp := fp_inv_ct a.

(** ** Values *)

Definition P : Z := 0x7FFFFFFFFFFFFFFFFFFFFFFFFFFFFFFF.

Definition words (a : Fp) : Prop := word 64 (lo a) ∧ word 64 (hi a).
Definition val (a : Fp) : Z := lo a + 2 ^ 64 * hi a.
(** A reduced element: the unique representative of its class. *)
Definition fp_ok (a : Fp) : Prop := words a ∧ val a < P.

Definition val256 (z : W256) : Z :=
  z0 z + 2 ^ 64 * z1 z + 2 ^ 128 * z2 z + 2 ^ 192 * z3 z.

(** Shifts and masks by constants become division and remainder. *)
Ltac bits_to_arith :=
  repeat first
    [ rewrite shr_div by lia
    | rewrite shl_mul by lia
    | rewrite (land_low _ 63 MASK63) by (done || lia)
    | rewrite (land_low _ 1 1) by (done || lia) ].

Ltac case_bools :=
  repeat match goal with
  | |- context [b2z ?b] => let E := fresh "E" in destruct b eqn:E; simpl b2z
  | |- context [if ?b then _ else _] => let E := fresh "E" in destruct b eqn:E
  end.

Lemma fp_from_words_spec l h :
  word 64 l → word 64 h →
  fp_ok (fp_from_words l h) ∧ val (fp_from_words l h) = (l + 2 ^ 64 * h) mod P.
Proof.
  intros Hl Hh. unfold fp_from_words, fp_ok, words, val, b2z. cbv zeta. bits_to_arith.
  unfold MASK63, P. word_unfold. pow_consts.
  case_bools; simpl lo; simpl hi; lia.
Qed.

Lemma fp_ok_words a : fp_ok a → word 64 (lo a) ∧ word 64 (hi a).
Proof. by intros [? _]. Qed.

(** A reduced [hi] limb has its top bit clear. *)
Lemma fp_ok_bounds a : fp_ok a → 0 ≤ lo a < 2 ^ 64 ∧ 0 ≤ hi a < 2 ^ 63 ∧ 0 ≤ val a < P.
Proof. unfold fp_ok, words, val, P. word_lia. Qed.

Lemma fp_val_inj a b : fp_ok a → fp_ok b → val a = val b → a = b.
Proof.
  intros Ha%fp_ok_bounds Hb%fp_ok_bounds. destruct a, b. unfold val. simpl in *.
  intros. f_equal; word_lia.
Qed.

Lemma fp_from_u64_spec x : word 64 x → fp_ok (fp_from_u64 x) ∧ val (fp_from_u64 x) = x.
Proof. unfold fp_ok, words, val, P. simpl. word_lia. Qed.

Lemma fp_is_reduced_spec v : words v → fp_is_reduced v = true ↔ fp_ok v.
Proof.
  intros Hv. unfold fp_is_reduced, fp_ok.
  replace (hi v .& wnot 64 MASK63) with (2 ^ 63 * (hi v / 2 ^ 63)).
  - unfold words, val, P, MASK63 in *. word_lia.
  - destruct Hv as [_ Hh]. unfold wnot. change (2 ^ 64 - 1 - MASK63) with (Z.shiftl 1 63).
    rewrite Z.mul_comm, <- shr_div, <- shl_mul by lia.
    bitwise i. destruct (Z.ltb_spec i 63).
    + rewrite !(Z.testbit_neg_r _ (i - 63)) by lia. btauto.
    + rewrite Z.shiftr_spec by lia. replace (i - 63 + 63) with i by lia.
      destruct (decide (i = 63)) as [->|]; [simpl; btauto|].
      rewrite (testbit_small (hi v) 64) by (unfold word in Hh; lia). btauto.
Qed.

Lemma fp_add_spec a b :
  fp_ok a → fp_ok b → fp_ok (fp_add a b) ∧ val (fp_add a b) = (val a + val b) mod P.
Proof.
  intros Ha%fp_ok_bounds Hb%fp_ok_bounds. unfold fp_add. cbv zeta. bits_to_arith.
  edestruct fp_from_words_spec as [Hok ->]; [| |split; [exact Hok|]];
    [word_lia..|]. f_equal. unfold val in *. word_lia.
Qed.

Lemma fp_neg_spec a : fp_ok a → fp_ok (fp_neg a) ∧ val (fp_neg a) = (- val a) mod P.
Proof.
  intros Ha%fp_ok_bounds. unfold fp_neg. cbv zeta. bits_to_arith.
  edestruct fp_from_words_spec as [Hok ->]; [| |split; [exact Hok|]]; [word_lia..|].
  transitivity ((P - val a) mod P).
  - f_equal. unfold val, P, MASK63 in *. word_lia.
  - unfold P. lia.
Qed.

Lemma fp_sub_spec a b :
  fp_ok a → fp_ok b → fp_ok (fp_sub a b) ∧ val (fp_sub a b) = (val a - val b) mod P.
Proof.
  intros Ha Hb. unfold fp_sub. destruct (fp_neg_spec b Hb) as [Hn Hv].
  destruct (fp_add_spec a _ Ha Hn) as [Hok ->]. split; [done|]. rewrite Hv.
  apply cong_mod_eq. rewrite cong_mod. done.
Qed.

(** ** The 256-bit product *)

Lemma word_mul w a b : 0 ≤ w → word w a → word w b → 0 ≤ a * b ≤ (2 ^ w - 1) * (2 ^ w - 1).
Proof. unfold word. nia. Qed.

(** A double-width product splits into its two words. *)
Lemma umul_split a b : word 64 a → word 64 b →
  a * b = umul_lo a b + 2 ^ 64 * umul_hi a b ∧ word 64 (umul_lo a b) ∧
  0 ≤ umul_hi a b ≤ 2 ^ 64 - 2.
Proof.
  intros Ha Hb. pose proof (word_mul 64 a b ltac:(lia) Ha Hb).
  unfold umul_lo, umul_hi. bits_to_arith. generalize dependent (a * b). clear. intros m Hm.
  word_lia.
Qed.

(** Name the words of [a * b] and replace the product by them. *)
Ltac split_product a b :=
  let l := fresh "l" in let h := fresh "h" in
  let E := fresh "E" in let Hl := fresh "Hl" in let Hh := fresh "Hh" in
  destruct (umul_split a b ltac:(done) ltac:(done)) as (E & Hl & Hh);
  rewrite ?E in *; clear E;
  set (l := umul_lo a b) in *; set (h := umul_hi a b) in *;
  clearbody l h.

Ltac split_products a0 a1 b0 b1 :=
  split_product a0 b0; split_product a0 b1; split_product a1 b0; split_product a1 b1.

Definition mul_ok (z : W256) (a0 a1 b0 b1 : Z) : Prop :=
  word 64 (z0 z) ∧ word 64 (z1 z) ∧ word 64 (z2 z) ∧ word 64 (z3 z) ∧
  val256 z = (a0 + 2 ^ 64 * a1) * (b0 + 2 ^ 64 * b1).

Lemma mul_expand a0 a1 b0 b1 :
  (a0 + 2 ^ 64 * a1) * (b0 + 2 ^ 64 * b1) =
  a0 * b0 + 2 ^ 64 * (a0 * b1) + 2 ^ 64 * (a1 * b0) + 2 ^ 128 * (a1 * b1).
Proof. pow_consts. ring. Qed.

Lemma mul_total a0 a1 b0 b1 :
  word 64 a0 → word 64 a1 → word 64 b0 → word 64 b1 →
  a0 * b0 + 2 ^ 64 * (a0 * b1) + 2 ^ 64 * (a1 * b0) + 2 ^ 128 * (a1 * b1) < 2 ^ 256.
Proof.
  intros. rewrite <- mul_expand.
  pose proof (word_mul 128 (a0 + 2 ^ 64 * a1) (b0 + 2 ^ 64 * b1)
    ltac:(lia) ltac:(word_lia) ltac:(word_lia)).
  word_lia.
Qed.

(** All three builds are proved by the same script: name the four partial
    products and leave the carries to [lia]. *)
Ltac prove_mul_ok a0 a1 b0 b1 :=
  intros ????; unfold mul_ok, val256; rewrite mul_expand;
  pose proof (mul_total a0 a1 b0 b1 ltac:(done) ltac:(done) ltac:(done) ltac:(done)) as Htot;
  cbv zeta; bits_to_arith; cbn [z0 z1 z2 z3];
  split_products a0 a1 b0 b1.

Lemma mul128x128_x86_ok a0 a1 b0 b1 :
  word 64 a0 → word 64 a1 → word 64 b0 → word 64 b1 →
  mul_ok (mul128x128_x86 a0 a1 b0 b1) a0 a1 b0 b1.
Proof. unfold mul128x128_x86. prove_mul_ok a0 a1 b0 b1. word_lia. Qed.

(** The portable carry test [s < a] after [s = a + b]. *)
Lemma add_carry a b : word 64 a → word 64 b →
  word 64 (u64 (a + b)) ∧ 0 ≤ b2z (u64 (a + b) <? a) ≤ 1 ∧
  a + b = u64 (a + b) + 2 ^ 64 * b2z (u64 (a + b) <? a).
Proof. intros. unfold b2z. case_bools; word_lia. Qed.

Ltac split_carry a b :=
  let s := fresh "s" in let c := fresh "c" in
  let E := fresh "E" in let Hs := fresh "Hs" in let Hc := fresh "Hc" in
  destruct (add_carry a b ltac:(word_lia) ltac:(word_lia)) as (Hs & Hc & E);
  set (c := b2z (u64 (a + b) <? a)) in *; set (s := u64 (a + b)) in *; clearbody c s.

Lemma mul128x128_msvc_ok a0 a1 b0 b1 :
  word 64 a0 → word 64 a1 → word 64 b0 → word 64 b1 →
  mul_ok (mul128x128_msvc a0 a1 b0 b1) a0 a1 b0 b1.
Proof.
  unfold mul128x128_msvc. prove_mul_ok a0 a1 b0 b1.
  repeat match goal with
  | |- context [b2z (u64 (?a + ?b) <? ?a)] =>
      lazymatch a with context [wrap] => fail | _ => idtac end;
      lazymatch b with context [wrap] => fail | _ => idtac end;
      split_carry a b
  end.
  rewrite (wrap_small 64 (c + c0)) in * by word_lia.
  split_carry s2 (c + c0).
  word_lia.
Qed.

Lemma u128_lo a b : word 64 a → word 64 b → u64 (u128 (a * b)) = umul_lo a b.
Proof.
  intros Ha Hb. pose proof (word_mul 64 a b ltac:(lia) Ha Hb).
  unfold umul_lo. rewrite (wrap_small 128); [done|word_lia].
Qed.

Lemma u128_hi a b : word 64 a → word 64 b → u128 (a * b) ≫ 64 = umul_hi a b.
Proof.
  intros Ha Hb. pose proof (word_mul 64 a b ltac:(lia) Ha Hb).
  unfold umul_hi. rewrite (wrap_small 128) by word_lia. bits_to_arith.
  rewrite wrap_small; [done|]. word_lia.
Qed.

Lemma mul128x128_ok a0 a1 b0 b1 :
  word 64 a0 → word 64 a1 → word 64 b0 → word 64 b1 →
  mul_ok (mul128x128 a0 a1 b0 b1) a0 a1 b0 b1.
Proof.
  unfold mul128x128. intros ????. cbv zeta. rewrite !u128_lo, !u128_hi by done.
  generalize H H0 H1 H2. clear. prove_mul_ok a0 a1 b0 b1. word_lia.
Qed.

(** A result that satisfies [mul_ok] is determined by it. *)
Lemma mul_ok_inj z z' a0 a1 b0 b1 : mul_ok z a0 a1 b0 b1 → mul_ok z' a0 a1 b0 b1 → z = z'.
Proof.
  intros (?&?&?&?&E) (?&?&?&?&E'). rewrite <- E' in E. unfold val256 in E.
  destruct z, z'. cbn [z0 z1 z2 z3] in *. f_equal; word_lia.
Qed.

Lemma shl1_join a b : word 64 a → word 64 b →
  (a ≫ 63) .| wshl 64 b 1 = a / 2 ^ 63 + 2 * (b mod 2 ^ 63).
Proof.
  intros. bits_to_arith. unfold wshl. bits_to_arith.
  replace (u64 (b * 2 ^ 1)) with (b mod 2 ^ 63 * 2 ^ 1) by word_lia.
  rewrite lor_add; word_lia.
Qed.

(** Limb-wise addition: the low word and the carry of a 128-bit sum. *)
Lemma sum_split a b c : word 64 a → word 64 b → 0 ≤ c ≤ 1 →
  let t := u128 (a + b + c) in
  word 64 (u64 t) ∧ 0 ≤ u64 (t ≫ 64) ≤ 1 ∧ a + b + c = u64 t + 2 ^ 64 * u64 (t ≫ 64).
Proof. intros. subst t. bits_to_arith. word_lia. Qed.

Ltac split_sum a b c :=
  let s := fresh "s" in let k := fresh "k" in
  let E := fresh "E" in let Hs := fresh "Hs" in let Hk := fresh "Hk" in
  destruct (sum_split a b c ltac:(word_lia) ltac:(word_lia) ltac:(word_lia)) as (Hs & Hk & E);
  set (k := u64 (u128 (a + b + c) ≫ 64)) in *; set (s := u64 (u128 (a + b + c))) in *;
  clearbody k s.

(** Folding the bits above the 127th onto the low ones preserves the class. *)
Lemma fold127 V : cong P V (V mod 2 ^ 127 + V / 2 ^ 127).
Proof.
  apply (cong_shift _ _ _ (V / 2 ^ 127)). pose proof (Z.div_mod V (2 ^ 127) ltac:(lia)).
  unfold P. pow_consts. lia.
Qed.

Lemma fp_reduce256_spec z0 z1 z2 z3 :
  word 64 z0 → word 64 z1 → word 64 z2 → word 64 z3 →
  fp_ok (fp_reduce256 z0 z1 z2 z3) ∧
  val (fp_reduce256 z0 z1 z2 z3) = val256 (mkW256 z0 z1 z2 z3) mod P.
Proof.
  intros H0 H1 H2 H3. unfold fp_reduce256. cbv zeta.
  rewrite (shl1_join z1 z2), (shl1_join z2 z3), (land_low z1 63), (shr_div z3) by done.
  set (V := val256 _).
  assert (HL : V mod 2 ^ 127 = z0 + 2 ^ 64 * (z1 mod 2 ^ 63))
    by (unfold V, val256; simpl; word_lia).
  assert (HH : V / 2 ^ 127 = z1 / 2 ^ 63 + 2 * (z2 mod 2 ^ 63) +
    2 ^ 64 * (z2 / 2 ^ 63 + 2 * (z3 mod 2 ^ 63)) + 2 ^ 128 * (z3 / 2 ^ 63))
    by (unfold V, val256; simpl; word_lia).
  assert (HV : cong P V (V mod 2 ^ 127 + V / 2 ^ 127)) by apply fold127.
  rewrite HL, HH in HV. clear HL HH. clearbody V.
  assert (H1' : word 64 (z1 mod 2 ^ 63)) by word_lia.
  assert (Ha : word 64 (z1 / 2 ^ 63 + 2 * (z2 mod 2 ^ 63))) by word_lia.
  assert (Hb : word 64 (z2 / 2 ^ 63 + 2 * (z3 mod 2 ^ 63))) by word_lia.
  assert (Hc : 0 ≤ z3 / 2 ^ 63 ≤ 1) by word_lia.
  revert HV H1' Ha Hb Hc.
  generalize (z1 / 2 ^ 63 + 2 * (z2 mod 2 ^ 63)) (z2 / 2 ^ 63 + 2 * (z3 mod 2 ^ 63))
    (z1 mod 2 ^ 63) (z3 / 2 ^ 63).
  clear H1 H2 H3 z1 z2 z3. intros h0 h1 l1 h2 HV Hl1 Hh0 Hh1 Hh2.
  rewrite <- (Z.add_0_r (z0 + h0)). split_sum z0 h0 0. split_sum l1 h1 k.
  rewrite (wrap_small 64 (h2 + k0)) by word_lia.
  rewrite (shl1_join s0 (h2 + k0)), (land_low s0 63) by (done || word_lia).
  rewrite <- (Z.add_0_r (s + _)).
  split_sum s (s0 / 2 ^ 63 + 2 * ((h2 + k0) mod 2 ^ 63)) 0.
  edestruct fp_from_words_spec as [Hok ->]; [| |split; [exact Hok|]]; [word_lia..|].
  clear Hok. symmetry. match goal with |- ?x mod P = ?y mod P => change (cong P x y) end.
  etransitivity; [exact HV|]. etransitivity; [apply fold127|]. apply cong_eq. word_lia.
Qed.

Lemma fp_mul_words a b : words a → words b →
  fp_ok (fp_mul a b) ∧ val (fp_mul a b) = (val a * val b) mod P.
Proof.
  intros [Ha Ha'] [Hb Hb']. unfold fp_mul.
  destruct (mul128x128_ok (lo a) (hi a) (lo b) (hi b)) as (H0 & H1 & H2 & H3 & E); [done..|].
  destruct (fp_reduce256_spec _ _ _ _ H0 H1 H2 H3) as [Hok ->]. split; [done|].
  unfold val in *. rewrite <- E. by destruct (mul128x128 _ _ _ _).
Qed.

Lemma fp_mul_spec a b :
  fp_ok a → fp_ok b → fp_ok (fp_mul a b) ∧ val (fp_mul a b) = (val a * val b) mod P.
Proof. intros [? _] [? _]. by apply fp_mul_words. Qed.

(** ** The class of a field element

    [a ~ x] reads "[a] is reduced and represents [x]"; the operations transport it. *)

Definition rep (a : Fp) (x : Z) : Prop := fp_ok a ∧ cong P (val a) x.
Infix "~~" := rep (at level 70).

#[export] Instance rep_proper : Proper (eq ==> cong P ==> iff) rep.
Proof. intros a ? <- x y Hxy. unfold rep. by rewrite Hxy. Qed.

Lemma rep_val a : fp_ok a → a ~~ val a.
Proof. done. Qed.

Lemma rep_mod a x : a ~~ x → val a = x mod P.
Proof.
  intros [Ha%fp_ok_bounds Hx]. rewrite <- Hx. rewrite Z.mod_small; [done|]. lia.
Qed.

Lemma rep_ok a x : a ~~ x → fp_ok a.
Proof. by intros [? _]. Qed.

Lemma rep_inj a b x : a ~~ x → b ~~ x → a = b.
Proof.
  intros Ha Hb. apply fp_val_inj; [by eapply rep_ok..|].
  by rewrite (rep_mod _ _ Ha), (rep_mod _ _ Hb).
Qed.

Lemma rep_intro a x : fp_ok a ∧ val a = x mod P → a ~~ x.
Proof. intros [? E]. split; [done|]. rewrite E. apply cong_mod. Qed.

Lemma rep_u64 x : word 64 x → fp_from_u64 x ~~ x.
Proof. intros Hx. split; [by apply fp_from_u64_spec|]. by rewrite (proj2 (fp_from_u64_spec _ Hx)). Qed.
Lemma rep_words l h : word 64 l → word 64 h → fp_from_words l h ~~ l + 2 ^ 64 * h.
Proof. intros. by apply rep_intro, fp_from_words_spec. Qed.
Lemma rep_add a b x y : a ~~ x → b ~~ y → fp_add a b ~~ x + y.
Proof. intros [? <-] [? <-]. by apply rep_intro, fp_add_spec. Qed.
Lemma rep_neg a x : a ~~ x → fp_neg a ~~ - x.
Proof. intros [? <-]. by apply rep_intro, fp_neg_spec. Qed.
Lemma rep_sub a b x y : a ~~ x → b ~~ y → fp_sub a b ~~ x - y.
Proof. intros [? <-] [? <-]. by apply rep_intro, fp_sub_spec. Qed.
Lemma rep_mul a b x y : a ~~ x → b ~~ y → fp_mul a b ~~ x * y.
Proof. intros [? <-] [? <-]. by apply rep_intro, fp_mul_spec. Qed.

Create HintDb fp.
#[export] Hint Resolve rep_val rep_u64 rep_add rep_neg rep_sub rep_mul : fp.
#[export] Hint Extern 1 (word 64 _) => word_lia : fp.

Lemma rep_cong a x y : a ~~ x → cong P x y → a ~~ y.
Proof. by intros ? <-. Qed.

(** Solve [e ~~ x] for an expression [e] over the operations, up to [ring]. *)
Ltac rep_solve := eapply rep_cong; [eauto 20 with fp|apply cong_eq; try ring].

(** ** Exponentiation *)

Lemma pow_double x n : 0 ≤ n → x ^ (2 * n) = x ^ n * x ^ n.
Proof. intros. by rewrite <- Z.pow_add_r, Z.add_diag by lia. Qed.

Lemma fp_pow_loop_spec fuel r a e x y :
  0 ≤ e < 2 ^ Z.of_nat fuel → r ~~ x → a ~~ y → fp_pow_loop fuel r a e ~~ x * y ^ e.
Proof.
  revert r a e x y. induction fuel as [|fuel IH]; intros r a e x y He Hr Ha; simpl fp_pow_loop.
  { simpl in He. replace e with 0 by lia. by rewrite Z.mul_1_r. }
  destruct (Z.eqb_spec e 0) as [->|Hne]; [by rewrite Z.mul_1_r|].
  rewrite Nat2Z.inj_succ, Z.pow_succ_r in He by lia. bits_to_arith. change (2 ^ 1) with 2.
  pose proof (Z.div_mod e 2 ltac:(lia)) as Hdm. pose proof (Z.mod_pos_bound e 2).
  assert (He2 : 0 ≤ e / 2 < 2 ^ Z.of_nat fuel) by lia.
  destruct (Z.eqb_spec (e mod 2) 0) as [H0|H1].
  - eapply rep_cong; [by eapply IH; [|exact Hr|eauto with fp]|]. apply cong_eq.
    rewrite Hdm at 2. rewrite H0, Z.add_0_r, pow_double, Z.pow_mul_l by lia. done.
  - replace (e mod 2) with 1 in * by lia.
    eapply rep_cong; [by eapply IH; [|eapply rep_mul; [exact Hr|exact Ha]|eauto with fp]|].
    apply cong_eq. rewrite Hdm at 2.
    rewrite Z.pow_add_r, pow_double, Z.pow_mul_l by lia. ring.
Qed.

Lemma rep_pow a x e : word 64 e → a ~~ x → fp_pow_u64 a e ~~ x ^ e.
Proof.
  intros He Ha. unfold fp_pow_u64. rewrite <- (Z.mul_1_l (x ^ e)).
  apply fp_pow_loop_spec; [exact He|apply rep_u64; word_lia|done].
Qed.

(** ** Inversion *)

Lemma inv_table_from_spec n prev a k x :
  0 ≤ k → prev ~~ x ^ k → a ~~ x →
  ∀ i, (i < n)%nat →
    nth i (inv_table_from n prev a) (fp_from_u64 0) ~~ x ^ (k + 1 + Z.of_nat i).
Proof.
  intros Hk. revert prev k Hk. induction n as [|n IH]; intros prev k Hk Hp Ha i Hi; [lia|].
  assert (Hnext : fp_mul prev a ~~ x ^ (k + 1)).
  { rewrite Z.pow_add_r, Z.pow_1_r by lia. eauto with fp. }
  destruct i as [|i]; simpl inv_table_from; simpl nth.
  - by rewrite Z.add_0_r.
  - replace (k + 1 + Z.of_nat (S i)) with (k + 1 + 1 + Z.of_nat i) by lia.
    apply IH; [lia|done|done|lia].
Qed.

Lemma inv_table_spec a x i : a ~~ x → (i < 32)%nat →
  nth i (inv_table a) (fp_from_u64 0) ~~ x ^ Z.of_nat i.
Proof.
  intros Ha Hi. unfold inv_table. destruct i as [|[|i]]; cbn [nth].
  - apply rep_u64. word_lia.
  - by rewrite Z.pow_1_r.
  - replace (Z.of_nat (S (S i))) with (1 + 1 + Z.of_nat i) by lia.
    apply inv_table_from_spec; [lia|by rewrite Z.pow_1_r|done|unfold inv_T; lia].
Qed.

Lemma fp_sqr_n_spec n r x : r ~~ x → fp_sqr_n n r ~~ x ^ 2 ^ Z.of_nat n.
Proof.
  intros Hr. unfold fp_sqr_n. induction n as [|n IH]; simpl Nat.iter.
  - by rewrite Z.pow_1_r.
  - rewrite Nat2Z.inj_succ, Z.pow_succ_r by lia.
    rewrite pow_double by (apply Z.pow_nonneg; lia). by apply rep_mul.
Qed.

Lemma inv_loop_spec a x e fuel r pos :
  a ~~ x → 0 ≤ e → -1 ≤ pos < Z.of_nat fuel → r ~~ x ^ (e / 2 ^ (pos + 1)) →
  inv_loop fuel (inv_table a) e r pos ~~ x ^ e.
Proof.
  intros Ha He. revert r pos. induction fuel as [|fuel IH]; intros r pos Hpos Hr; cbn [inv_loop].
  { replace (pos + 1) with 0 in Hr by lia. by rewrite Z.div_1_r in Hr. }
  destruct (Z.ltb_spec pos 0).
  { replace (pos + 1) with 0 in Hr by lia. by rewrite Z.div_1_r in Hr. }
  set (q := e / 2 ^ (pos + 1)) in *.
  assert (Hq : 0 ≤ q) by (apply Z.div_pos; lia).
  assert (Hsplit : ∀ l, 0 ≤ l ≤ pos →
    e / 2 ^ l = 2 ^ (pos - l + 1) * q + (e / 2 ^ l) mod 2 ^ (pos - l + 1)).
  { intros l Hl. rewrite (Z.div_mod (e / 2 ^ l) (2 ^ (pos - l + 1))) at 1 by lia.
    f_equal. f_equal. unfold q. rewrite Z.div_div, <- Z.pow_add_r by lia.
    do 2 f_equal. lia. }
  rewrite (shr_div e pos), (land_low _ 1 1) by lia.
  destruct (Z.eqb_spec ((e / 2 ^ pos) mod 2 ^ 1) 0) as [H0|H1].
  - apply IH; [clear -Hpos H; lia|]. specialize (Hsplit pos ltac:(lia)).
    rewrite Z.sub_diag in Hsplit. change (2 ^ (0 + 1)) with 2 in Hsplit. change (2 ^ 1) with 2 in H0.
    replace (pos - 1 + 1) with pos by lia. rewrite Hsplit, H0, Z.add_0_r, pow_double by lia.
    by apply rep_mul.
  - set (l := Z.max 0 (pos - inv_W + 1)). unfold inv_W in *.
    assert (Hl : 0 ≤ l ≤ pos ∧ pos - l + 1 ≤ 5) by lia. clearbody l.
    rewrite shr_div, shl_mul, Z.mul_1_l, (land_low _ (pos - l + 1)) by lia.
    set (k := (e / 2 ^ l) mod 2 ^ (pos - l + 1)) in *.
    assert (Hk : 0 ≤ k < 2 ^ (pos - l + 1)) by (apply Z.mod_pos_bound; lia).
    assert (Hk32 : k < 2 ^ 5)
      by (eapply Z.lt_le_trans; [apply Hk|apply Z.pow_le_mono_r; lia]).
    cbn [inv_shrink]. unfold inv_W. rewrite (proj2 (Z.leb_gt (2 ^ 5) k)) by done.
    apply IH; [clear -Hpos Hl; lia|]. replace (l - 1 + 1) with l by (clear; lia).
    rewrite (Hsplit l) by apply Hl. fold k.
    assert (H2 : 0 ≤ 2 ^ (pos - l + 1)) by (apply Z.pow_nonneg; done).
    destruct Hk as [Hk0 Hk]. clear Hsplit IH H1.
    rewrite Z.pow_add_r by (done || by apply Z.mul_nonneg_nonneg).
    rewrite (Z.mul_comm _ q), Z.pow_mul_r by done.
    apply rep_mul.
    + rewrite <- (Z2Nat.id (pos - l + 1)) at 2 by lia. by apply fp_sqr_n_spec.
    + pose proof (inv_table_spec a x (Z.to_nat k) Ha) as Ht.
      rewrite Z2Nat.id in Ht by done. apply Ht.
      clearbody k. clear -Hk0 Hk32. lia.
Qed.

Lemma inv_exp_eq : inv_exp = P - 2.
Proof. reflexivity. Qed.

Lemma rep_inv_pow a x : a ~~ x → fp_inv a ~~ x ^ (P - 2).
Proof.
  intros Ha. unfold fp_inv, fp_inv_ct. rewrite inv_exp_eq.
  apply inv_loop_spec; [done|unfold P; lia|lia|].
  rewrite Z.div_small by (unfold P; pow_consts; lia). apply rep_u64. word_lia.
Qed.

Lemma P_pos : 0 < P.
Proof. done. Qed.

Lemma fp_nonzero_unit a : fp_ok a → val a ≠ 0 → ¬ (P | val a).
Proof. intros Ha%fp_ok_bounds Hn Hd. apply Z.divide_pos_le in Hd; lia. Qed.

Lemma fp_mul_inv a : fp_ok a → val a ≠ 0 → fp_mul a (fp_inv a) = fp_from_u64 1.
Proof.
  intros Ha Hn. apply (rep_inj _ _ 1); [|apply rep_u64; word_lia].
  eapply rep_cong; [apply rep_mul, rep_inv_pow; by apply rep_val|].
  apply fermat_inverse; [apply prime_127|by apply fp_nonzero_unit].
Qed.

(** ** Units *)

Definition fp_unit (a : Fp) : Prop := fp_ok a ∧ val a ≠ 0.

Lemma fp_unit_mul a b : fp_unit a → fp_unit b → fp_unit (fp_mul a b).
Proof.
  intros [Ha Hna] [Hb Hnb]. pose proof (rep_mul _ _ _ _ (rep_val a Ha) (rep_val b Hb)) as Hr.
  split; [by eapply rep_ok|]. rewrite (rep_mod _ _ Hr). intros H0.
  apply Z.mod_divide in H0; [|done].
  destruct (prime_mul P _ _ prime_127 H0) as [Hd|Hd]; by apply fp_nonzero_unit in Hd.
Qed.

Lemma fp_unit_one : fp_unit (fp_from_u64 1).
Proof. destruct (fp_from_u64_spec 1) as [H1 H2]; [word_lia|]. split; [done|]. by rewrite H2. Qed.

Lemma fp_unit_inv a : fp_unit a → fp_unit (fp_inv a).
Proof.
  intros [Ha Hn]. pose proof (rep_inv_pow a _ (rep_val a Ha)) as Hr. split; [by eapply rep_ok|].
  intros H0. pose proof (fp_mul_inv a Ha Hn) as Hm.
  pose proof (rep_mul _ _ _ _ (rep_val a Ha) (rep_val _ (rep_ok _ _ Hr))) as Hx.
  rewrite Hm, H0, Z.mul_0_r in Hx. apply rep_mod in Hx. destruct fp_unit_one as [_ H1].
  rewrite Hx in H1. done.
Qed.

(** ** Signed conversion *)

Lemma fp_raw v : words v → wshl 128 (hi v) 64 .| lo v = val v.
Proof.
  intros [Hl Hh]. unfold wshl, val. rewrite shl_mul by lia.
  rewrite wrap_small by word_lia. rewrite lor_add' by (done || lia). ring.
Qed.

Lemma fp_to_i64_spec v n : words v →
  fp_to_i64 v = Some n ↔ fp_ok v ∧ - 2 ^ 63 ≤ n < 2 ^ 63 ∧ cong P (val v) n.
Proof.
  intros Hv. unfold fp_to_i64. rewrite fp_raw by done.
  change (u128 (wshl 128 1 127 - 1)) with P. change (wshl 128 1 63) with (2 ^ 63).
  assert (Hb : 0 ≤ val v < 2 ^ 128) by (unfold words, val in *; word_lia).
  assert (Hok : fp_ok v ↔ val v < P) by (unfold fp_ok; tauto).
  rewrite Hok. clear Hok Hv. generalize dependent (val v). clear v. intros V HV.
  unfold cong, signed, P. word_unfold. cbv zeta. pow_consts.
  repeat case_match; (split; [intros [=<-]|intros (?&?&?)]); try f_equal; try lia.
Qed.

Lemma rep_from_i64 x : - 2 ^ 63 ≤ x < 2 ^ 63 → fp_from_i64 x ~~ x.
Proof.
  intros Hx. unfold fp_from_i64. case_match.
  - rewrite wrap_small by word_lia. apply rep_u64. word_lia.
  - rewrite <- (Z.opp_involutive x) at 2. apply rep_neg.
    replace (- x) with (u64 (u64 (- (x + 1)) + 1)) by word_lia.
    apply rep_u64. apply wrap_word. lia.
Qed.

(** ** Properties *)

(** C26: on reduced elements [fp_add], [fp_sub], [fp_neg] and [fp_mul] return
    reduced elements and compute addition, subtraction, negation and
    multiplication modulo [2^127 - 1]. *)
Theorem field_refinement a b :
  fp_ok a → fp_ok b →
  (fp_ok (fp_add a b) ∧ val (fp_add a b) = (val a + val b) mod P) ∧
  (fp_ok (fp_sub a b) ∧ val (fp_sub a b) = (val a - val b) mod P) ∧
  (fp_ok (fp_neg a) ∧ val (fp_neg a) = (- val a) mod P) ∧
  (fp_ok (fp_mul a b) ∧ val (fp_mul a b) = (val a * val b) mod P).
Proof.
  intros. split; [by apply fp_add_spec|]. split; [by apply fp_sub_spec|].
  split; [by apply fp_neg_spec|by apply fp_mul_spec].
Qed.

Lemma field_refinement_witness :
  fp_ok (mkFp 5 (2 ^ 62)) ∧ val (fp_mul (mkFp 5 (2 ^ 62)) (mkFp 2 1)) =
    (val (mkFp 5 (2 ^ 62)) * val (mkFp 2 1)) mod P.
Proof.
  assert (H : fp_ok (mkFp 5 (2 ^ 62))) by (vm_compute; split_and!; done).
  split; [exact H|].
  apply (field_refinement (mkFp 5 (2 ^ 62)) (mkFp 2 1)); [exact H|vm_compute; split_and!; done].
Defined.

(** the MSVC, x86-64 and portable builds of [mul128x128] return the same
    four words, and these are the exact 256-bit product. *)
Theorem mul128x128_builds_agree a0 a1 b0 b1 :
  word 64 a0 → word 64 a1 → word 64 b0 → word 64 b1 →
  mul128x128_msvc a0 a1 b0 b1 = mul128x128 a0 a1 b0 b1 ∧
  mul128x128_x86 a0 a1 b0 b1 = mul128x128 a0 a1 b0 b1 ∧
  val256 (mul128x128 a0 a1 b0 b1) = (a0 + 2 ^ 64 * a1) * (b0 + 2 ^ 64 * b1).
Proof.
  intros. split; [|split; [|by apply mul128x128_ok]];
    apply (mul_ok_inj _ _ a0 a1 b0 b1);
    auto using mul128x128_ok, mul128x128_msvc_ok, mul128x128_x86_ok.
Qed.

Lemma mul128x128_builds_agree_witness :
  val256 (mul128x128 UINT64_MAX UINT64_MAX UINT64_MAX UINT64_MAX) =
  (UINT64_MAX + 2 ^ 64 * UINT64_MAX) * (UINT64_MAX + 2 ^ 64 * UINT64_MAX).
Proof.
  apply (mul128x128_builds_agree UINT64_MAX UINT64_MAX UINT64_MAX UINT64_MAX); vm_compute; split; done.
Defined.

(** the windowed, constant-time [fp_inv] inverts every non-zero element and
    sends zero to zero; [fp_pow_u64] is exponentiation. *)
Theorem fp_inv_correct a e :
  fp_ok a → word 64 e →
  fp_ok (fp_inv a) ∧
  (a ≠ fp_from_u64 0 → fp_mul a (fp_inv a) = fp_from_u64 1) ∧
  (a = fp_from_u64 0 → fp_inv a = fp_from_u64 0) ∧
  val (fp_pow_u64 a e) = val a ^ e mod P.
Proof.
  intros Ha He. split_and!.
  - by eapply rep_ok, rep_inv_pow, rep_val.
  - intros Hn. apply fp_mul_inv; [done|]. intros H0. apply Hn.
    apply (rep_inj _ _ 0); [|apply rep_u64; word_lia]. by rewrite <- H0.
  - intros ->. apply (rep_inj _ _ 0); [|apply rep_u64; word_lia].
    eapply rep_cong; [apply rep_inv_pow, (rep_u64 0); word_lia|done].
  - by apply rep_mod, rep_pow, rep_val.
Qed.

Lemma fp_inv_correct_witness :
  fp_mul (mkFp 7 0) (fp_inv (mkFp 7 0)) = fp_from_u64 1.
Proof.
  apply (fp_inv_correct (mkFp 7 0) 3); [vm_compute; split_and!; done|vm_compute; split; done|done].
Defined.

(** [fp_to_i64] accepts exactly the reduced elements whose class has a
    representative in [[-2^63, 2^63)], returns that representative, and undoes
    [fp_from_i64]. *)
Theorem fp_i64_roundtrip v x :
  words v → - 2 ^ 63 ≤ x < 2 ^ 63 →
  (fp_to_i64 v = Some x ↔ fp_ok v ∧ cong P (val v) x) ∧
  fp_to_i64 (fp_from_i64 x) = Some x.
Proof.
  intros Hv Hx. split.
  - rewrite fp_to_i64_spec by done. tauto.
  - destruct (rep_from_i64 x Hx) as [Hok Hc]. apply fp_to_i64_spec; [apply Hok|]. done.
Qed.

Lemma fp_i64_roundtrip_witness :
  fp_to_i64 (fp_from_i64 (- 2 ^ 63)) = Some (- 2 ^ 63).
Proof.
  apply (fp_i64_roundtrip (mkFp 0 0) (- 2 ^ 63)); vm_compute; split; done.
Defined.
