(* ===== verification/Compress.v ===== *)
(** * The adaptive range coder of [core/pvac_compress.hpp]

    [Predictor] is the bit model shared by both directions, [RangeEncoder] and
    [RangeDecoder] the carry-less 32-bit coders, [pack] and [unpack_checked] the
    container format.  Arrays are lists, [calloc]ed and initialised as the
    constructors do; a read past the source is the zero of [next_byte]. *)

From S2P Require Import Prelude.

Definition PVAC_COMPRESSED_TAG : Z := 0xEC.

(** ** [detail::AdaptiveState] and [detail::Predictor] *)

Definition rate_table (i : Z) : Z := 32768 / (i + i + 3).

Definition ctx_init (i : Z) : Z :=
  let w := (i .& 1) * 2 + (i .& 2) + ((i ≫ 2) .& 1) + ((i ≫ 3) .& 1)
         + ((i ≫ 4) .& 1) + ((i ≫ 5) .& 1) + ((i ≫ 6) .& 1) + ((i ≫ 7) .& 1) + 3 in
  wshl 32 w 28 .| 6.

Record AdaptiveState : Set := mkAdaptive { a_prev : Z; ctx : list Z }.

Definition adaptive_new (n : Z) : AdaptiveState := mkAdaptive 0 (ctx_init <$> zseq 0 (Z.to_nat n)).

Definition cell (a : AdaptiveState) (s : Z) : Z := nth (Z.to_nat s) (ctx a) 0.

Definition adaptive_predict (a : AdaptiveState) (s : Z) : Z * AdaptiveState :=
  (cell a s ≫ 16, mkAdaptive s (ctx a)).

(** [int] product of the update; C++ leaves its overflow undefined, see
    [Compress.update_no_overflow]. *)
Definition update_delta (bit p cnt : Z) : Z := (Z.shiftl bit 18 - p) * rate_table cnt.

Definition adaptive_update (a : AdaptiveState) (bit limit : Z) : AdaptiveState :=
  let v := cell a (a_prev a) in
  let cnt := v .& 255 in
  let p := v ≫ 14 in
  if cnt <? limit then
    let v1 := u32 (v + 1) in
    let v2 := u32 (v1 + (update_delta bit p cnt .& 0xffffff00)) in
    mkAdaptive (a_prev a) (<[Z.to_nat (a_prev a) := v2]> (ctx a))
  else a.

Record Predictor : Set := mkPredictor { prev : Z; matrix : AdaptiveState; order : list Z }.

Definition predictor_new : Predictor :=
  mkPredictor 0 (adaptive_new 0x10000) (replicate 256 0x66).

Definition order_at (P : Predictor) : Z := nth (Z.to_nat (prev P)) (order P) 0.

Definition predict (P : Predictor) : Z * Predictor :=
  let '(p, m) := adaptive_predict (matrix P) (Z.shiftl (prev P) 8 .| order_at P) in
  (p, mkPredictor (prev P) m (order P)).

Definition update (P : Predictor) (bit : Z) : Predictor :=
  let m := adaptive_update (matrix P) bit 90 in
  let s := order_at P in
  let s' := (s + (s + bit)) .& 255 in
  let prev' := prev P + (prev P + bit) in
  mkPredictor (if 256 <=? prev' then 0 else prev') m
    (<[Z.to_nat (prev P) := s']> (order P)).

(** ** [detail::RangeEncoder] *)

Record Encoder : Set := mkEncoder { e_pred : Predictor; e_out : list Z; e_lo : Z; e_hi : Z }.

Definition encoder_new (dst : list Z) : Encoder := mkEncoder predictor_new dst 0 0xffffffff.

Definition split_point (lo hi p : Z) : Z :=
  u32 (u32 (lo + u32 ((u32 (hi - lo) ≫ 16) * p)) +
       (u32 ((u32 (hi - lo) .& 0xffff) * p) ≫ 16)).

Definition top_equal (lo hi : Z) : bool := (lo .^ hi) .& 0xff000000 =? 0.

(** [while (((lo ^ hi) & 0xff000000) == 0)]: the bytes pushed and the interval. *)
Fixpoint enc_norm (fuel : nat) (lo hi : Z) : list Z * Z * Z :=
  match fuel with
  | O => ([], lo, hi)
  | S fuel =>
      if top_equal lo hi then
        let '(bs, lo', hi') := enc_norm fuel (wshl 32 lo 8) (u32 (wshl 32 hi 8 + 255)) in
        (u8 (hi ≫ 24) :: bs, lo', hi')
      else ([], lo, hi)
  end.

(** Four shifts replace every bit of a 32-bit register. *)
Definition norm_fuel : nat := 5.

Definition encode_bit (E : Encoder) (bit : Z) : Encoder :=
  let '(p, pred) := predict (e_pred E) in
  let mid := split_point (e_lo E) (e_hi E) p in
  let lo := if bit =? 0 then u32 (mid + 1) else e_lo E in
  let hi := if bit =? 0 then e_hi E else mid in
  let pred := update pred bit in
  let '(bs, lo, hi) := enc_norm norm_fuel lo hi in
  mkEncoder pred (e_out E ++ bs) lo hi.

Definition enc_flush (E : Encoder) : Encoder :=
  let '(bs, lo, hi) := enc_norm norm_fuel (e_lo E) (e_hi E) in
  mkEncoder (e_pred E) (e_out E ++ bs ++ [u8 (hi ≫ 24)]) lo hi.

Definition encode_byte (E : Encoder) (b : Z) : Encoder :=
  let E := encode_bit E 1 in
  foldl (λ E i, encode_bit E ((b ≫ i) .& 1)) E [7; 6; 5; 4; 3; 2; 1; 0].

Definition encode_eof (E : Encoder) : Encoder := encode_bit E 0.

(** ** [detail::RangeDecoder] *)

Record Decoder : Set := mkDecoder {
  d_pred : Predictor; src : list Z; pos : Z; d_lo : Z; d_hi : Z; code : Z }.

Definition next_byte (src : list Z) (pos : Z) : Z * Z :=
  if pos <? Z.of_nat (length src) then (nth (Z.to_nat pos) src 0, pos + 1) else (0, pos).

Fixpoint dec_fill (n : nat) (src : list Z) (pos code : Z) : Z * Z :=
  match n with
  | O => (code, pos)
  | S n =>
      let '(b, pos) := next_byte src pos in
      dec_fill n src pos (u32 (wshl 32 code 8 + b))
  end.

Definition decoder_new (data : list Z) : Decoder :=
  let '(code, pos) := dec_fill 4 data 0 0 in
  mkDecoder predictor_new data pos 0 0xffffffff code.

Fixpoint dec_norm (fuel : nat) (src : list Z) (lo hi code pos : Z) : Z * Z * Z * Z :=
  match fuel with
  | O => (lo, hi, code, pos)
  | S fuel =>
      if top_equal lo hi then
        let '(b, pos) := next_byte src pos in
        dec_norm fuel src (wshl 32 lo 8) (u32 (wshl 32 hi 8 + 255))
          (u32 (wshl 32 code 8 + b)) pos
      else (lo, hi, code, pos)
  end.

Definition decode_bit (D : Decoder) : Z * Decoder :=
  let '(p, pred) := predict (d_pred D) in
  let mid := split_point (d_lo D) (d_hi D) p in
  let bit := b2z (code D <=? mid) in
  let lo := if bit =? 0 then u32 (mid + 1) else d_lo D in
  let hi := if bit =? 0 then d_hi D else mid in
  let pred := update pred bit in
  let '(lo, hi, code, pos) := dec_norm norm_fuel (src D) lo hi (code D) (pos D) in
  (bit, mkDecoder pred (src D) pos lo hi code).

(** [while (b < 256) b += b + decode_bit();] doubles [b >= 1]: 8 turns. *)
Fixpoint decode_byte_loop (fuel : nat) (b : Z) (D : Decoder) : Z * Decoder :=
  match fuel with
  | O => (b, D)
  | S fuel =>
      if b <? 256 then
        let '(bit, D) := decode_bit D in
        decode_byte_loop fuel (b + (b + bit)) D
      else (b, D)
  end.

Definition decode_byte_or_eof (D : Decoder) : Z * Decoder :=
  let '(bit, D) := decode_bit D in
  if bit =? 0 then (-1, D)
  else let '(b, D) := decode_byte_loop 9 1 D in (b - 256, D).

(** ** [pack] and [unpack_checked] *)

Definition pack (raw : list Z) : list Z :=
  let sz := u32 (Z.of_nat (length raw)) in
  let out := [PVAC_COMPRESSED_TAG; u8 (sz ≫ 24); u8 (sz ≫ 16); u8 (sz ≫ 8); u8 (sz .& 0xff)] in
  e_out (enc_flush (encode_eof (foldl encode_byte (encoder_new out) raw))).

(** The decoding loop; [None] is running out of [fuel]. The error is the one
    reported from inside the loop, if any. *)
Fixpoint unpack_loop (fuel : nat) (orig_sz : Z) (D : Decoder) (out : list Z)
    : option (list Z * option string) :=
  match fuel with
  | O => None
  | S fuel =>
      let '(b, D) := decode_byte_or_eof D in
      if b <? 0 then Some (out, None)
      else if orig_sz <=? Z.of_nat (length out) then
        Some (out, Some "pvac_compress: output exceeds declared size"%string)
      else unpack_loop fuel orig_sz D (out ++ [u8 b])
  end.

(** The [bool] result with the final contents of [out] and [error]. *)
Definition unpack_checked (data out0 : list Z) (error0 : string) : bool * list Z * string :=
  let byte i := nth i data 0 in
  if (Z.of_nat (length data) <? 5) || negb (byte 0%nat =? PVAC_COMPRESSED_TAG) then
    (false, out0, "pvac_compress: bad header"%string)
  else
    let orig_sz := wshl 32 (byte 1%nat) 24 .| wshl 32 (byte 2%nat) 16
                .| wshl 32 (byte 3%nat) 8 .| byte 4%nat in
    if 32 * 1024 * 1024 <? orig_sz then
      (false, out0, "pvac_compress: size exceeds 32MB limit"%string)
    else
      let payload_len := Z.of_nat (length data) - 5 in
      if (0 <? orig_sz) &&
         ((payload_len =? 0) || (payload_len <? u32 (orig_sz + 63) / 64)) then
        (false, out0, "pvac_compress: expansion ratio rejected"%string)
      else
        match unpack_loop (S (S (Z.to_nat orig_sz))) orig_sz (decoder_new (drop 5 data)) [] with
        | None => (false, out0, "unreachable: out of fuel"%string)
        | Some (out, Some error) => (false, out, error)
        | Some (out, None) =>
            if negb (Z.of_nat (length out) =? orig_sz) then
              (false, out, "pvac_compress: size mismatch"%string)
            else (true, out, ""%string)
        end.

Definition unpack (data : list Z) : res (list Z) :=
  let '(ok, out, error) := unpack_checked data [] "" in
  if ok then Ok out else Throw error.

Definition is_packed (data : list Z) : bool :=
  (1 <=? Z.of_nat (length data)) && (nth 0 data 0 =? PVAC_COMPRESSED_TAG).

Example pack_abc : unpack (pack [97; 98; 99]) = Ok [97; 98; 99].
Proof. vm_compute. reflexivity. Qed.

(** ** The interval arithmetic *)

(** Registers between two normalisations: the top bytes differ. *)
Definition interval (lo hi : Z) : Prop := word 32 lo ∧ word 32 hi ∧ lo / 2 ^ 24 < hi / 2 ^ 24.

Lemma split_point_eq lo hi p :
  word 32 lo → word 32 hi → lo ≤ hi → 0 ≤ p < 2 ^ 16 →
  split_point lo hi p = lo + (hi - lo) * p / 2 ^ 16 ∧ 0 ≤ (hi - lo) * p / 2 ^ 16 ≤ hi - lo ∧
  (lo < hi → (hi - lo) * p / 2 ^ 16 < hi - lo).
Proof.
  intros Hlo Hhi Hle Hp. unfold split_point.
  rewrite (wrap_small 32 (hi - lo)) by word_lia.
  rewrite (land_low _ 16 0xffff), !shr_div by done.
  set (r := hi - lo). assert (Hr : 0 ≤ r < 2 ^ 32) by (unfold r; word_lia).
  assert (Hq : r * p / 2 ^ 16 = r / 2 ^ 16 * p + (r mod 2 ^ 16 * p) / 2 ^ 16).
  { rewrite <- Z.div_add_l by done. f_equal.
    rewrite (Z.div_mod r (2 ^ 16)) at 1 by done. ring. }
  assert (Ha : 0 ≤ r / 2 ^ 16 * p < 2 ^ 32).
  { assert (0 ≤ r / 2 ^ 16 < 2 ^ 16) by word_lia. nia. }
  assert (Hb : 0 ≤ r mod 2 ^ 16 * p < 2 ^ 32).
  { assert (0 ≤ r mod 2 ^ 16 < 2 ^ 16) by word_lia. nia. }
  assert (Hle' : 0 ≤ r * p / 2 ^ 16 ≤ r).
  { split; [apply Z.div_pos; nia|]. apply Z.div_le_upper_bound; nia. }
  assert (Hlt : 0 < r → r * p / 2 ^ 16 < r).
  { intros. apply Z.div_lt_upper_bound; nia. }
  rewrite (wrap_small 32 (r / _ * p)), (wrap_small 32 (r mod _ * p)) by (unfold word; lia).
  split; [|unfold r in *; split; [lia|intros; apply Hlt; lia]].
  rewrite Hq in *.
  assert (0 ≤ r mod 2 ^ 16 * p / 2 ^ 16) by (apply Z.div_pos; lia).
  unfold word, r in *.
  rewrite (wrap_small 32 (lo + _)) by (unfold word; lia).
  rewrite wrap_small by (unfold word; lia). lia.
Qed.

Lemma top_equal_spec lo hi : word 32 lo → word 32 hi →
  top_equal lo hi = true ↔ lo / 2 ^ 24 = hi / 2 ^ 24.
Proof.
  intros Hlo Hhi. unfold top_equal. rewrite Z.eqb_eq, <- !shr_div by lia.
  rewrite <- (Z.lxor_eq_0_iff (lo ≫ 24)), <- Z.shiftr_lxor.
  assert (Hx : word 32 (lo .^ hi)).
  { split; [apply Z.lxor_nonneg; unfold word in *; lia|].
    destruct (Z.eq_dec (lo .^ hi) 0) as [->|Hn]; [done|].
    assert (0 ≤ lo .^ hi) by (apply Z.lxor_nonneg; unfold word in *; lia).
    apply Z.log2_lt_pow2; [lia|].
    eapply Z.le_lt_trans; [apply Z.log2_lxor; unfold word in *; lia|].
    assert (Hl : ∀ x, word 32 x → Z.log2 x < 32).
    { intros x Hx. destruct (Z.eq_dec x 0) as [->|]; [done|].
      apply Z.log2_lt_pow2; unfold word in Hx; lia. }
    apply Z.max_lub_lt; by apply Hl. }
  generalize dependent (lo .^ hi). clear. intros x Hx.
  assert (E : x .& 0xff000000 = Z.shiftl (x ≫ 24) 24).
  { change 0xff000000 with (Z.shiftl 255 24). bitwise i.
    destruct (Z.ltb_spec i 24).
    - rewrite !(Z.testbit_neg_r _ (i - 24)) by lia. btauto.
    - rewrite Z.shiftr_spec by lia. replace (i - 24 + 24) with i by lia.
      destruct (Z.ltb_spec i 32).
      + change 255 with (Z.ones 8). rewrite Z.ones_spec_low by lia. btauto.
      + rewrite (testbit_small x 32) by (done || lia). done. }
  rewrite E. apply Z.shiftl_eq_0_iff. lia.
Qed.

(** The big-endian value of the first four bytes, zero-padded. *)
Definition win (R : list Z) : Z :=
  2 ^ 24 * nth 0 R 0 + 2 ^ 16 * nth 1 R 0 + 2 ^ 8 * nth 2 R 0 + nth 3 R 0.

Lemma nth_byte R i : bytes R → 0 ≤ nth i R 0 < 256.
Proof.
  intros HR. destruct (nth_in_or_default i R 0) as [Hin| ->]; [|lia].
  apply list_elem_of_In in Hin. by apply (proj1 (Forall_forall _ _) HR) in Hin.
Qed.

Lemma win_word R : bytes R → word 32 (win R).
Proof.
  intros HR. unfold win. pose proof (nth_byte R 0 HR). pose proof (nth_byte R 1 HR).
  pose proof (nth_byte R 2 HR). pose proof (nth_byte R 3 HR). word_lia.
Qed.

Lemma win_cons t R : bytes R → 0 ≤ t < 256 → win (t :: R) = 2 ^ 24 * t + win R / 2 ^ 8.
Proof.
  intros HR Ht. unfold win. cbn [nth]. pose proof (nth_byte R 0 HR). pose proof (nth_byte R 1 HR).
  pose proof (nth_byte R 2 HR). pose proof (nth_byte R 3 HR). word_lia.
Qed.

Lemma win_shift t R : bytes (t :: R) →
  win R = u32 (wshl 32 (win (t :: R)) 8 + nth 4 (t :: R) 0).
Proof.
  intros [Ht HR]%Forall_cons. unfold win, wshl. rewrite shl_mul by lia. cbn [nth].
  pose proof (nth_byte R 0 HR). pose proof (nth_byte R 1 HR).
  pose proof (nth_byte R 2 HR). pose proof (nth_byte R 3 HR). word_lia.
Qed.

(** One turn of the normalisation loop. *)
Lemma norm_step lo hi :
  word 32 lo → word 32 hi → lo ≤ hi → lo / 2 ^ 24 = hi / 2 ^ 24 →
  let lo' := wshl 32 lo 8 in let hi' := u32 (wshl 32 hi 8 + 255) in
  word 32 lo' ∧ word 32 hi' ∧ hi' - lo' + 1 = 256 * (hi - lo + 1) ∧
  u8 (hi ≫ 24) = lo / 2 ^ 24 ∧ 0 ≤ lo / 2 ^ 24 < 256 ∧
  lo = 2 ^ 24 * (lo / 2 ^ 24) + lo' / 2 ^ 8 ∧ hi = 2 ^ 24 * (lo / 2 ^ 24) + hi' / 2 ^ 8.
Proof.
  intros Hlo Hhi Hle E. unfold wshl. rewrite !shl_mul, shr_div by lia. rewrite <- E.
  word_lia.
Qed.

(** [fuel] turns are enough: the width is multiplied by 256 at each. *)
Lemma enc_norm_spec fuel lo hi bs lo' hi' :
  word 32 lo → word 32 hi → 256 ^ (5 - Z.of_nat fuel) ≤ hi - lo + 1 → (fuel ≤ 5)%nat →
  enc_norm fuel lo hi = (bs, lo', hi') →
  interval lo' hi' ∧ bytes bs ∧
  hi' - lo' + 1 = 256 ^ Z.of_nat (length bs) * (hi - lo + 1) ∧
  ∀ R, bytes R → lo' ≤ win R ≤ hi' → lo ≤ win (bs ++ R) ≤ hi.
Proof.
  revert lo hi bs lo' hi'. induction fuel as [|fuel IH]; intros lo hi bs lo' hi' Hlo Hhi Hw Hf.
  { exfalso. change (256 ^ (5 - Z.of_nat 0)) with (256 * 2 ^ 32) in Hw. word_lia. }
  assert (Hle : lo ≤ hi) by (pose proof (Z.pow_pos_nonneg 256 (5 - Z.of_nat (S fuel))); lia).
  cbn [enc_norm]. destruct (top_equal lo hi) eqn:Et.
  - apply top_equal_spec in Et; [|done..].
    destruct (norm_step lo hi Hlo Hhi Hle Et) as (H1 & H2 & H3 & H4 & H5 & H6 & H7).
    destruct (enc_norm fuel _ _) as [[bs1 lo1] hi1] eqn:En. intros [= <- <- <-].
    apply IH in En as (Hi & Hb & Hs & HR); [|done|done| |lia].
    + split; [done|]. rewrite H4. split; [by constructor|]. split.
      { rewrite Hs, H3. simpl length. rewrite Nat2Z.inj_succ, Z.pow_succ_r by lia. ring. }
      intros R Hbr HwR. specialize (HR R Hbr HwR). simpl app.
      rewrite win_cons by (done || by apply Forall_app).
      destruct HR as [HR1 HR2]. apply (Z.div_le_mono _ _ (2 ^ 8)) in HR1, HR2; lia.
    + rewrite H3. replace (5 - Z.of_nat fuel) with (Z.succ (5 - Z.of_nat (S fuel))) by lia.
      rewrite Z.pow_succ_r by lia. lia.
  - intros [= <- <- <-]. split; [|split; [constructor|split; [simpl length; simpl; lia|done]]].
    split; [done|]. split; [done|].
    assert (lo / 2 ^ 24 ≠ hi / 2 ^ 24).
    { intros E. by rewrite (proj2 (top_equal_spec lo hi Hlo Hhi) E) in Et. }
    pose proof (Z.div_le_mono lo hi (2 ^ 24) ltac:(lia) Hle). lia.
Qed.

Lemma enc_norm_ok lo hi bs lo' hi' :
  word 32 lo → word 32 hi → lo ≤ hi → enc_norm norm_fuel lo hi = (bs, lo', hi') →
  interval lo' hi' ∧ bytes bs ∧
  hi' - lo' + 1 = 256 ^ Z.of_nat (length bs) * (hi - lo + 1) ∧
  ∀ R, bytes R → lo' ≤ win R ≤ hi' → lo ≤ win (bs ++ R) ≤ hi.
Proof.
  intros ???. apply enc_norm_spec; [done|done| |done].
  change (256 ^ (5 - Z.of_nat norm_fuel)) with 1. lia.
Qed.

(** ** The coded stream

    [emission P lo hi bits] is what the encoder still has to output from the
    registers [lo], [hi] when [bits] remain, the final flush included. *)

Definition step_interval (lo hi p bit : Z) : Z * Z :=
  let mid := split_point lo hi p in
  if bit =? 0 then (u32 (mid + 1), hi) else (lo, mid).

Fixpoint emission (P : Predictor) (lo hi : Z) (bits : list Z) : list Z :=
  match bits with
  | [] => let '(bs, _, hi) := enc_norm norm_fuel lo hi in bs ++ [u8 (hi ≫ 24)]
  | bit :: bits =>
      let '(p, P) := predict P in
      let '(lo, hi) := step_interval lo hi p bit in
      let '(bs, lo, hi) := enc_norm norm_fuel lo hi in
      bs ++ emission (update P bit) lo hi bits
  end.

Definition pred_ok (P : Predictor) : Prop := Forall (word 32) (ctx (matrix P)).

Lemma cell_word a s : Forall (word 32) (ctx a) → word 32 (cell a s).
Proof.
  intros Ha. unfold cell.
  destruct (nth_in_or_default (Z.to_nat s) (ctx a) 0) as [Hin| ->]; [|word_lia].
  apply list_elem_of_In in Hin. by apply (proj1 (Forall_forall _ _) Ha).
Qed.

Lemma predict_spec P p P' : pred_ok P → predict P = (p, P') → pred_ok P' ∧ 0 ≤ p < 2 ^ 16.
Proof.
  intros HP. unfold predict, adaptive_predict. intros [= <- <-]. split; [done|].
  rewrite shr_div by lia. pose proof (cell_word (matrix P) (Z.shiftl (prev P) 8 .| order_at P) HP).
  word_lia.
Qed.

Lemma update_ok P bit : pred_ok P → pred_ok (update P bit).
Proof.
  intros HP. unfold pred_ok, update, adaptive_update in *. simpl.
  case_match; [|done]. simpl. apply Forall_insert; [done|]. apply wrap_word. lia.
Qed.

Lemma pred_new_ok : pred_ok predictor_new.
Proof.
  unfold pred_ok, predictor_new, adaptive_new. cbn [matrix ctx].
  apply Forall_fmap, Forall_forall. intros i Hi. unfold compose, ctx_init.
  apply word_bound_lor; [lia|apply wrap_word; lia|word_lia].
Qed.

(** The two halves of an interval are sub-intervals, split at [mid]. *)
Lemma step_interval_spec lo hi p bit lo' hi' :
  interval lo hi → 0 ≤ p < 2 ^ 16 → step_interval lo hi p bit = (lo', hi') →
  word 32 lo' ∧ word 32 hi' ∧ lo ≤ lo' ∧ lo' ≤ hi' ∧ hi' ≤ hi ∧
  (bit = 0 → lo' = split_point lo hi p + 1 ∧ hi' = hi) ∧
  (bit ≠ 0 → lo' = lo ∧ hi' = split_point lo hi p).
Proof.
  intros (Hlo & Hhi & Hd) Hp. unfold step_interval.
  assert (Hlt : lo < hi) by (unfold word in *; pow_consts; lia).
  destruct (split_point_eq lo hi p) as (-> & Hm & Hm'); [done..|lia|done|].
  specialize (Hm' Hlt). unfold word in *.
  destruct (Z.eqb_spec bit 0) as [->|]; intros [= <- <-].
  - rewrite wrap_small by (unfold word; lia). split_and!; (done || lia).
  - split_and!; (done || lia).
Qed.

Lemma emission_spec bits P lo hi :
  pred_ok P → interval lo hi →
  bytes (emission P lo hi bits) ∧ lo ≤ win (emission P lo hi bits) ≤ hi.
Proof.
  revert P lo hi. induction bits as [|bit bits IH]; intros P lo hi HP Hi; cbn [emission].
  - destruct Hi as (Hlo & Hhi & Hd). assert (lo < hi) by (unfold word in *; pow_consts; lia).
    destruct (enc_norm norm_fuel lo hi) as [[bs lo'] hi'] eqn:En.
    pose proof (enc_norm_ok _ _ _ _ _ Hlo Hhi ltac:(lia) En)
      as ((Hlo' & Hhi' & Hd') & Hb & _ & HR).
    assert (Hb1 : bytes [u8 (hi' ≫ 24)]) by (repeat constructor; apply wrap_word; lia).
    split; [by apply Forall_app|]. apply HR; [done|].
    unfold win. cbn [nth]. rewrite shr_div by lia. word_lia.
  - destruct (predict P) as [p P'] eqn:Ep. apply predict_spec in Ep as [HP' Hp]; [|done].
    destruct (step_interval lo hi p bit) as [lo1 hi1] eqn:Es.
    pose proof (step_interval_spec _ _ _ _ _ _ Hi Hp Es) as (H1 & H2 & H3 & H4 & H5 & _).
    destruct (enc_norm norm_fuel lo1 hi1) as [[bs lo'] hi'] eqn:En.
    pose proof (enc_norm_ok _ _ _ _ _ H1 H2 H4 En)
      as (Hi' & Hb & _ & HR).
    destruct (IH (update P' bit) lo' hi') as [Hbe Hwe]; [by apply update_ok|done|].
    split; [by apply Forall_app|]. destruct (HR _ Hbe Hwe) as [HR1 HR2].
    split; [exact (Z.le_trans _ _ _ H3 HR1)|exact (Z.le_trans _ _ _ HR2 H5)].
Qed.

(** ** The encoder emits the coded stream *)

Definition encode_bits (E : Encoder) (bits : list Z) : Encoder := foldl encode_bit E bits.

Lemma enc_flush_emission bits E :
  e_out (enc_flush (encode_bits E bits)) =
  e_out E ++ emission (e_pred E) (e_lo E) (e_hi E) bits.
Proof.
  revert E. induction bits as [|bit bits IH]; intros [P out lo hi];
    cbn [emission encode_bits foldl e_out e_pred e_lo e_hi].
  - unfold enc_flush. cbn [e_lo e_hi e_out e_pred].
    by destruct (enc_norm norm_fuel lo hi) as [[bs lo'] hi'].
  - unfold encode_bits in *. rewrite IH. unfold encode_bit. cbn [e_out e_pred e_lo e_hi].
    destruct (predict P) as [p P']. unfold step_interval.
    destruct (bit =? 0).
    + destruct (enc_norm norm_fuel (u32 _) hi) as [[bs lo'] hi'].
      cbn [e_out e_pred e_lo e_hi]. by rewrite app_assoc.
    + destruct (enc_norm norm_fuel lo (split_point lo hi p)) as [[bs lo'] hi'].
      cbn [e_out e_pred e_lo e_hi]. by rewrite app_assoc.
Qed.

(** The bits of a byte, behind the continuation flag. *)
Definition byte_bits (b : Z) : list Z :=
  1 :: ((λ i, (b ≫ i) .& 1) <$> [7; 6; 5; 4; 3; 2; 1; 0]).

Definition raw_bits (raw : list Z) : list Z := concat (byte_bits <$> raw) ++ [0].

Lemma encode_bits_app E l k : encode_bits E (l ++ k) = encode_bits (encode_bits E l) k.
Proof. apply foldl_app. Qed.

Lemma encode_byte_bits E b : encode_byte E b = encode_bits E (byte_bits b).
Proof. reflexivity. Qed.

Lemma encode_raw_bits E raw :
  encode_eof (foldl encode_byte E raw) = encode_bits E (raw_bits raw).
Proof.
  unfold raw_bits. revert E. induction raw as [|b raw IH]; intros E; [done|].
  cbn [foldl fmap list_fmap concat]. rewrite IH, encode_byte_bits.
  by rewrite <- app_assoc, (encode_bits_app E).
Qed.

(** ** The decoder follows the stream *)

(** The source from [pos] on, and the code register, hold the stream [R]. *)
Definition reading (src : list Z) (pos code : Z) (R : list Z) : Prop :=
  0 ≤ pos ≤ Z.of_nat (length src) ∧ drop (Z.to_nat pos) src = drop 4 R ∧ code = win R.

Lemma next_byte_spec src pos R b pos' :
  0 ≤ pos ≤ Z.of_nat (length src) → drop (Z.to_nat pos) src = R →
  next_byte src pos = (b, pos') →
  b = nth 0 R 0 ∧ 0 ≤ pos' ≤ Z.of_nat (length src) ∧ drop (Z.to_nat pos') src = drop 1 R.
Proof.
  intros Hpos HR. unfold next_byte. case_match eqn:E; intros [= <- <-].
  - apply Z.ltb_lt in E. rewrite <- HR. split; [|split; [lia|]].
    + by rewrite List.nth_skipn, Nat.add_0_r.
    + rewrite drop_drop. f_equal. lia.
  - apply Z.ltb_ge in E. rewrite drop_ge in HR by lia. subst R. split_and!; [done|lia|lia|].
    rewrite drop_ge by lia. done.
Qed.

Lemma reading_shift src pos code t R b pos' :
  bytes (t :: R) → reading src pos code (t :: R) → next_byte src pos = (b, pos') →
  reading src pos' (u32 (wshl 32 code 8 + b)) R.
Proof.
  intros Hb (Hpos & Hd & ->) Hn. eapply next_byte_spec in Hn as (-> & Hp & Hd'); [|done|exact Hd].
  split; [done|]. split.
  - by rewrite Hd', drop_drop.
  - rewrite (win_shift t R) by done. do 2 f_equal. by rewrite List.nth_skipn.
Qed.

Lemma dec_norm_spec fuel src lo hi code pos bs lo' hi' R :
  enc_norm fuel lo hi = (bs, lo', hi') → bytes (bs ++ R) → reading src pos code (bs ++ R) →
  ∃ code' pos', dec_norm fuel src lo hi code pos = (lo', hi', code', pos') ∧
    reading src pos' code' R.
Proof.
  revert lo hi code pos bs lo' hi'. induction fuel as [|fuel IH];
    intros lo hi code pos bs lo' hi'; cbn [enc_norm dec_norm].
  - intros [= <- <- <-] _ Hr. eauto.
  - destruct (top_equal lo hi).
    + destruct (enc_norm fuel _ _) as [[bs1 lo1] hi1] eqn:En. intros [= <- <- <-] Hb Hr.
      destruct (next_byte src pos) as [b pos1] eqn:Hn.
      eapply reading_shift in Hr; [|done|exact Hn].
      apply Forall_cons in Hb as [_ Hb]. by eapply IH.
    + intros [= <- <- <-] _ Hr. eauto.
Qed.

(** The decoder [D] is at the point where the encoder has [bits] left. *)
Definition synced (D : Decoder) (bits : list Z) : Prop :=
  pred_ok (d_pred D) ∧ interval (d_lo D) (d_hi D) ∧
  reading (src D) (pos D) (code D) (emission (d_pred D) (d_lo D) (d_hi D) bits).

Lemma decode_bit_synced D bit bits :
  (bit = 0 ∨ bit = 1) → synced D (bit :: bits) →
  ∃ D', decode_bit D = (bit, D') ∧ synced D' bits.
Proof.
  intros Hbit. destruct D as [P sr po lo hi co].
  intros (HP & Hi & Hr). cbn [d_pred d_lo d_hi src pos code] in *.
  unfold decode_bit. cbn [d_pred d_lo d_hi src pos code].
  cbn [emission] in Hr.
  destruct (predict P) as [p P'] eqn:Ep. apply predict_spec in Ep as [HP' Hp]; [|done].
  destruct (step_interval lo hi p bit) as [lo1 hi1] eqn:Es.
  pose proof (step_interval_spec _ _ _ _ _ _ Hi Hp Es) as (H1 & H2 & H3 & H4 & H5 & H6 & H7).
  destruct (enc_norm norm_fuel lo1 hi1) as [[bs lo'] hi'] eqn:En.
  pose proof (enc_norm_ok _ _ _ _ _ H1 H2 H4 En)
    as (Hi' & Hb & _ & HR).
  destruct (emission_spec bits (update P' bit) lo' hi') as [Hbe Hwe]; [by apply update_ok|done|].
  specialize (HR _ Hbe Hwe).
  assert (Hcode : co = win (bs ++ emission (update P' bit) lo' hi' bits)) by apply Hr.
  assert (Hb2 : b2z (co <=? split_point lo hi p) = bit).
  { unfold b2z. rewrite Hcode. destruct Hbit as [-> | ->].
    - destruct H6 as [E _]; [done|]. rewrite (proj2 (Z.leb_gt _ _)) by lia. done.
    - destruct H7 as [_ E]; [done|]. rewrite (proj2 (Z.leb_le _ _)) by lia. done. }
  rewrite Hb2. unfold step_interval in Es.
  assert (Es' : lo1 = (if bit =? 0 then u32 (split_point lo hi p + 1) else lo) ∧
                hi1 = (if bit =? 0 then hi else split_point lo hi p)).
  { by destruct (bit =? 0); injection Es as <- <-. }
  destruct Es' as [<- <-].
  destruct (dec_norm_spec _ _ _ _ _ _ _ _ _ _ En ltac:(by apply Forall_app) Hr)
    as (code' & pos' & -> & Hr').
  eexists. split; [done|]. split; [by apply update_ok|]. done.
Qed.


(** ** Bytes, and the whole stream *)

Definition byte_acc (v : Z) (l : list Z) : Z := foldl (λ v b, v + (v + b)) v l.

Lemma byte_bits_acc b : word 8 b → byte_acc 1 (drop 1 (byte_bits b)) = 256 + b.
Proof.
  intros Hb. unfold byte_acc, byte_bits. cbn [drop fmap list_fmap foldl].
  rewrite !(land_low _ 1 1), !shr_div by done. word_lia.
Qed.

Lemma byte_bits_bit b : Forall (λ x, x = 0 ∨ x = 1) (drop 1 (byte_bits b)).
Proof.
  unfold byte_bits. cbn [drop]. apply Forall_fmap, Forall_forall. intros i _. unfold compose.
  rewrite (land_low _ 1 1) by done. lia.
Qed.

Lemma decode_byte_loop_synced fuel l v D bits :
  Forall (λ x, x = 0 ∨ x = 1) l → (length l ≤ 8)%nat → (length l < fuel)%nat →
  2 ^ (8 - Z.of_nat (length l)) ≤ v < 2 ^ (9 - Z.of_nat (length l)) →
  synced D (l ++ bits) →
  ∃ D', decode_byte_loop fuel v D = (byte_acc v l, D') ∧ synced D' bits.
Proof.
  revert l v D. induction fuel as [|fuel IH]; intros [|b l] v D Hl H8 Hf Hv Hs;
    cbn [length] in *; [lia|lia| |].
  - cbn [decode_byte_loop]. rewrite (proj2 (Z.ltb_ge _ _)) by (simpl in Hv; lia). by exists D.
  - apply Forall_cons in Hl as [Hb Hl]. cbn [decode_byte_loop].
    rewrite Nat2Z.inj_succ in Hv.
    assert (2 ^ (9 - Z.succ (Z.of_nat (length l))) ≤ 2 ^ 8) by (apply Z.pow_le_mono_r; lia).
    rewrite (proj2 (Z.ltb_lt _ _)) by lia.
    destruct (decode_bit_synced D b (l ++ bits) Hb Hs) as (D1 & -> & Hs1).
    change (byte_acc v (b :: l)) with (byte_acc (v + (v + b)) l).
    apply IH; [done|lia|lia| |done].
    replace (8 - Z.of_nat (length l)) with (Z.succ (8 - Z.succ (Z.of_nat (length l)))) by lia.
    replace (9 - Z.of_nat (length l)) with (Z.succ (9 - Z.succ (Z.of_nat (length l)))) by lia.
    rewrite !Z.pow_succ_r by lia. lia.
Qed.

Lemma decode_byte_synced b D bits :
  word 8 b → synced D (byte_bits b ++ bits) →
  ∃ D', decode_byte_or_eof D = (b, D') ∧ synced D' bits.
Proof.
  intros Hb Hs. unfold decode_byte_or_eof.
  destruct (decode_bit_synced D 1 (drop 1 (byte_bits b) ++ bits)) as (D1 & -> & Hs1);
    [by right|exact Hs|]. cbn [Z.eqb].
  destruct (decode_byte_loop_synced 9 (drop 1 (byte_bits b)) 1 D1 bits)
    as (D2 & -> & Hs2); [apply byte_bits_bit|cbn; lia|cbn; lia|cbn; lia|done|].
  rewrite byte_bits_acc by done. exists D2. split; [f_equal; lia|done].
Qed.

Lemma decode_eof_synced D : synced D [0] → ∃ D', decode_byte_or_eof D = (-1, D').
Proof.
  intros Hs. unfold decode_byte_or_eof.
  destruct (decode_bit_synced D 0 [] (or_introl eq_refl) Hs) as (D1 & -> & _). by exists D1.
Qed.

(** The decoding loop stops by itself, on the end-of-stream flag, with the text. *)
Lemma unpack_loop_synced raw fuel orig_sz D out :
  bytes raw → (length raw < fuel)%nat → Z.of_nat (length out + length raw) ≤ orig_sz →
  synced D (raw_bits raw) →
  unpack_loop fuel orig_sz D out = Some (out ++ raw, None).
Proof.
  revert raw D out. induction fuel as [|fuel IH]; intros [|b raw] D out Hb Hf Ho Hs;
    cbn [length] in *; [lia|lia| |]; cbn [unpack_loop].
  - destruct (decode_eof_synced D Hs) as (D' & ->). cbn. by rewrite app_nil_r.
  - apply Forall_cons in Hb as [Hb Hbs]. unfold raw_bits in Hs.
    cbn [fmap list_fmap concat] in Hs. rewrite <- app_assoc in Hs.
    destruct (decode_byte_synced b D _ Hb Hs) as (D' & -> & Hs').
    unfold word in Hb. rewrite (proj2 (Z.ltb_ge b 0)), (proj2 (Z.leb_gt orig_sz _)) by lia.
    rewrite (wrap_small 8) by done.
    rewrite IH with (raw := raw); [by rewrite <- app_assoc|done|lia| |done].
    rewrite length_app. cbn [length]. lia.
Qed.

Lemma dec_fill_reading R c p :
  bytes R → dec_fill 4 R 0 0 = (c, p) → reading R p c R.
Proof.
  intros HR. cbn [dec_fill].
  destruct (next_byte R 0) as [b1 p1] eqn:E1.
  eapply next_byte_spec in E1 as (-> & Hp1 & Hd1); [|lia|reflexivity].
  destruct (next_byte R p1) as [b2 p2] eqn:E2.
  eapply next_byte_spec in E2 as (-> & Hp2 & Hd2); [|done|exact Hd1].
  destruct (next_byte R p2) as [b3 p3] eqn:E3.
  eapply next_byte_spec in E3 as (-> & Hp3 & Hd3); [|done|exact Hd2].
  destruct (next_byte R p3) as [b4 p4] eqn:E4.
  eapply next_byte_spec in E4 as (-> & Hp4 & Hd4); [|done|exact Hd3].
  intros [= <- <-]. split; [done|]. split; [by rewrite Hd4, !drop_drop|].
  rewrite !drop_drop, !List.nth_skipn. change (Z.to_nat 0) with 0%nat. cbn [Nat.add].
  unfold win, wshl. rewrite !shl_mul by lia.
  pose proof (nth_byte R 0 HR). pose proof (nth_byte R 1 HR).
  pose proof (nth_byte R 2 HR). pose proof (nth_byte R 3 HR).
  generalize dependent (nth 0 R 0). generalize dependent (nth 1 R 0).
  generalize dependent (nth 2 R 0). generalize dependent (nth 3 R 0).
  clear. intros. change (0 * 2 ^ 8) with 0. rewrite (wrap_small 32 0) by word_lia.
  rewrite (wrap_small 32 (0 + z2)) by word_lia.
  rewrite (wrap_small 32 (_ * 2 ^ 8)) by word_lia.
  rewrite (wrap_small 32 (_ + z1)) by word_lia.
  rewrite (wrap_small 32 (_ * 2 ^ 8)) by word_lia.
  rewrite (wrap_small 32 (_ + z0)) by word_lia.
  rewrite (wrap_small 32 (_ * 2 ^ 8)) by word_lia.
  rewrite wrap_small by word_lia. pow_consts. lia.
Qed.

Definition payload (raw : list Z) : list Z := emission predictor_new 0 0xffffffff (raw_bits raw).

Lemma interval_init : interval 0 0xffffffff.
Proof. unfold interval. word_lia. Qed.

Lemma payload_bytes raw : bytes (payload raw).
Proof. apply emission_spec; [apply pred_new_ok|apply interval_init]. Qed.

Lemma decoder_new_synced raw : synced (decoder_new (payload raw)) (raw_bits raw).
Proof.
  unfold decoder_new. destruct (dec_fill 4 (payload raw) 0 0) as [c p] eqn:Ef.
  apply dec_fill_reading in Ef; [|apply payload_bytes].
  split; [apply pred_new_ok|]. split; [apply interval_init|done].
Qed.

(** [pack] is the five header bytes and the payload. *)
Lemma pack_layout raw :
  let sz := u32 (Z.of_nat (length raw)) in
  pack raw = PVAC_COMPRESSED_TAG :: u8 (sz ≫ 24) :: u8 (sz ≫ 16) :: u8 (sz ≫ 8) ::
             u8 (sz .& 0xff) :: payload raw.
Proof.
  intros sz. unfold pack. rewrite encode_raw_bits, enc_flush_emission. reflexivity.
Qed.

Lemma lor_bytes a b c d : word 8 a → word 8 b → word 8 c → word 8 d →
  (a * 2 ^ 24) .| (b * 2 ^ 16) .| (c * 2 ^ 8) .| d = a * 2 ^ 24 + b * 2 ^ 16 + c * 2 ^ 8 + d.
Proof.
  intros. rewrite (lor_add' (b * 2 ^ 16) a 24) by word_lia.
  replace (b * 2 ^ 16 + a * 2 ^ 24) with ((b + a * 2 ^ 8) * 2 ^ 16) by ring.
  rewrite (lor_add' (c * 2 ^ 8) _ 16) by word_lia.
  replace (c * 2 ^ 8 + (b + a * 2 ^ 8) * 2 ^ 16)
    with ((c + b * 2 ^ 8 + a * 2 ^ 16) * 2 ^ 8) by ring.
  rewrite (lor_add' d _ 8) by word_lia. ring.
Qed.

(** The declared size is read back from the header. *)
Lemma header_size sz : word 32 sz →
  wshl 32 (u8 (sz ≫ 24)) 24 .| wshl 32 (u8 (sz ≫ 16)) 16
    .| wshl 32 (u8 (sz ≫ 8)) 8 .| u8 (sz .& 0xff) = sz.
Proof.
  intros Hsz. rewrite (land_low _ 8 0xff), !shr_div by done. unfold wshl.
  rewrite !shl_mul by lia.
  rewrite (wrap_small 32 (u8 (sz / 2 ^ 24) * _)), (wrap_small 32 (u8 (sz / 2 ^ 16) * _)),
    (wrap_small 32 (u8 (sz / 2 ^ 8) * _)) by word_lia.
  rewrite lor_bytes by (apply wrap_word; lia). word_lia.
Qed.

(** The expansion guard of [unpack_checked]. *)
Definition ratio_ok (payload_len orig_sz : Z) : Prop :=
  orig_sz = 0 ∨ (0 < payload_len ∧ (orig_sz + 63) / 64 ≤ payload_len).

Lemma unpack_pack_ratio raw out0 error0 :
  bytes raw → Z.of_nat (length raw) ≤ 32 * 1024 * 1024 →
  ratio_ok (Z.of_nat (length (payload raw))) (Z.of_nat (length raw)) →
  unpack_checked (pack raw) out0 error0 = (true, raw, ""%string).
Proof.
  intros Hb Hlen Hr. rewrite pack_layout. set (sz := Z.of_nat (length raw)) in *.
  rewrite (wrap_small 32 sz) by word_lia.
  unfold unpack_checked. cbn [nth length drop].
  rewrite Z.eqb_refl, (proj2 (Z.ltb_ge _ 5)) by lia. cbn [orb negb].
  rewrite header_size by word_lia.
  rewrite (proj2 (Z.ltb_ge (32 * 1024 * 1024) sz)) by done.
  replace (Z.of_nat _ - 5) with (Z.of_nat (length (payload raw))) by lia.
  rewrite (wrap_small 32 (sz + 63)) by word_lia.
  assert (Hg : (0 <? sz) && ((Z.of_nat (length (payload raw)) =? 0) ||
    (Z.of_nat (length (payload raw)) <? (sz + 63) / 64)) = false).
  { apply andb_false_iff. destruct Hr as [-> | [H1 H2]]; [by left|right].
    apply orb_false_iff. split; [apply Z.eqb_neq; lia|by apply Z.ltb_ge]. }
  rewrite Hg.
  rewrite (unpack_loop_synced raw) with (out := []);
    [|done|unfold sz; lia|cbn [length Nat.add]; unfold sz; lia|apply decoder_new_synced].
  cbn [app]. fold sz. by rewrite Z.eqb_refl.
Qed.
