(* ===== verification/CompressBound.v ===== *)
(** * The adaptive coder never compresses past the guard of [unpack_checked]

    [unpack_checked] refuses a container whose payload is shorter than one byte
    per 64 bytes of text.  A context stops learning after 84 updates, so each
    coded bit costs a known amount; this file bounds that cost from below and
    concludes that the container of every text within the size limit is
    accepted.  It also bounds the [int] products of the model update. *)

From S2P Require Import Prelude Compress.

(** ** The probability of a context, by its count

    A context is a word [256 * prob + count]; [up]/[down] bound [prob] after
    [k] updates, in the 24-bit scale. *)

Definition D24 : Z := 2 ^ 24.

Fixpoint up (k : nat) : Z :=
  match k with
  | O => 13 * 2 ^ 20
  | S k => let r := rate_table (6 + Z.of_nat k) in (up k * (16384 - r) + (D24 + 63) * r) / 16384
  end.

Fixpoint down (k : nat) : Z :=
  match k with
  | O => 3 * 2 ^ 20
  | S k =>
      let r := rate_table (6 + Z.of_nat k) in
      - ((16320 - down k * (16384 - r)) / 16384)
  end.

(** The least loss of a bit coded by a context updated [k] times. *)
Definition loss (k : nat) : Z := Z.min (D24 - up k) (down k - 255).

Definition loss_table_ok (k : nat) : bool :=
  (up k <=? up (S k)) && (down (S k) <=? down k) && (0 <? loss (S k)) && (loss (S k) <=? loss k) &&
  (up (S k) <? D24) && (0 <=? down (S k)).

Lemma loss_table : forallb loss_table_ok (seq 0 84) = true.
Proof. vm_compute. reflexivity. Qed.

Lemma loss_step k : (k < 84)%nat →
  up k ≤ up (S k) ∧ down (S k) ≤ down k ∧ 0 < loss (S k) ∧ loss (S k) ≤ loss k ∧
  up (S k) < D24 ∧ 0 ≤ down (S k).
Proof.
  intros Hk. pose proof (proj1 (forallb_forall _ _) loss_table k) as H.
  assert (Hin : In k (seq 0 84)) by (apply in_seq; lia). apply H in Hin.
  unfold loss_table_ok in Hin. rewrite !andb_true_iff, !Z.leb_le, !Z.ltb_lt in Hin. tauto.
Qed.

Lemma loss_mono k k' : (k ≤ k' ≤ 84)%nat → loss k' ≤ loss k.
Proof.
  intros [Hk Hk']. induction Hk as [|m Hm IH]; [lia|].
  destruct (loss_step m) as (_ & _ & _ & H & _); lia.
Qed.

Lemma loss_pos k : (k ≤ 84)%nat → 0 < loss k.
Proof. destruct k as [|k]; [done|]. intros. apply loss_step. lia. Qed.

Lemma up_down k : (k ≤ 84)%nat → 0 ≤ down k ∧ up k < D24.
Proof. destruct k as [|k]; [done|]. intros. split; apply loss_step; lia. Qed.

(** ** The invariant of a context *)

Record cell_ok (n : nat) (v : Z) : Prop := {
  cell_cnt : 6 ≤ v mod 256 ≤ 6 + Z.of_nat n;
  cell_max : v mod 256 ≤ 90;
  cell_prob : let k := Z.to_nat (v mod 256 - 6) in down k ≤ v / 256 ≤ up k }.

Lemma cell_ok_word n v : cell_ok n v → word 32 v.
Proof.
  intros [H1 H2 H3]. destruct (up_down (Z.to_nat (v mod 256 - 6))) as [H4 H5]; [lia|].
  cbv zeta in H3. unfold D24, word in *. pow_consts. lia.
Qed.

Lemma cell_ok_le n n' v : (n ≤ n')%nat → cell_ok n v → cell_ok n' v.
Proof. intros ? [???]. split; [lia|done..]. Qed.

Definition cell_update (v bit : Z) : Z :=
  let cnt := v .& 255 in
  let v1 := u32 (v + 1) in u32 (v1 + (update_delta bit (v ≫ 14) cnt .& 0xffffff00)).

(** Masking an [int] with [0xffffff00] clears the low byte of its two's complement. *)
Lemma land_high x : x .& 0xffffff00 = x mod 2 ^ 32 - x mod 256.
Proof.
  assert (E : x .& 0xffffff00 = Z.shiftl ((x mod 2 ^ 32) ≫ 8) 8).
  { rewrite <- Z.land_ones by lia. change 0xffffff00 with (Z.shiftl (Z.ones 24) 8).
    bitwise i. destruct (Z.ltb_spec i 8).
    - rewrite !(Z.testbit_neg_r _ (i - 8)) by lia. btauto.
    - rewrite !Z.shiftr_spec, !Z.land_spec by lia. replace (i - 8 + 8) with i by lia.
      f_equal. destruct (Z.ltb_spec i 32).
      + by rewrite !Z.ones_spec_low by lia.
      + by rewrite !Z.ones_spec_high by lia. }
  rewrite E, shl_mul, shr_div by lia. word_lia.
Qed.

(** The update moves the probability and the count without interference. *)
Lemma cell_update_eq v bit :
  word 32 v → v mod 256 < 255 →
  let x := update_delta bit (v / 2 ^ 14) (v mod 256) in
  0 ≤ v / 256 + x / 256 < 2 ^ 24 →
  cell_update v bit = 256 * (v / 256 + x / 256) + (v mod 256 + 1).
Proof.
  intros Hv Hc x Hx. unfold cell_update.
  rewrite (land_low _ 8 255), shr_div by done. change (2 ^ 8) with 256. fold x.
  rewrite land_high. word_lia.
Qed.

Definition rates_ok : bool :=
  forallb (λ k, (0 <? rate_table (6 + Z.of_nat k)) && (rate_table (6 + Z.of_nat k) <=? 2184))
    (seq 0 84).

Lemma rate_bound k : (k < 84)%nat → 0 < rate_table (6 + Z.of_nat k) ≤ 2184.
Proof.
  intros Hk. assert (H : rates_ok = true) by (vm_compute; reflexivity).
  pose proof (proj1 (forallb_forall _ _) H k ltac:(apply in_seq; lia)) as Hr.
  rewrite andb_true_iff, Z.ltb_lt, Z.leb_le in Hr. lia.
Qed.

(** One update of the probability, in exact arithmetic. *)
Lemma prob_step k P b :
  (k < 84)%nat → down k ≤ P ≤ up k → b = 0 ∨ b = 1 →
  let r := rate_table (6 + Z.of_nat k) in
  down (S k) ≤ P + (Z.shiftl b 18 - P / 64) * r / 256 ≤ up (S k).
Proof.
  intros Hk HP Hb r. pose proof (rate_bound k Hk) as Hr. fold r in Hr.
  destruct (loss_step k Hk) as (Hu & Hd & _). destruct (up_down k ltac:(lia)) as [H0 HD].
  assert (Hq0 : 0 ≤ P / 64) by (apply Z.div_pos; lia). assert (Hq : 0 ≤ P - 64 * (P / 64) ≤ 63) by lia.
  generalize dependent (P / 64). intros q Hq0 Hq. destruct Hb as [-> | ->].
  - change (Z.shiftl 0 18) with 0.
    assert (Hqr : 0 ≤ q * r) by (apply Z.mul_nonneg_nonneg; lia).
    assert (Hqp : 64 * q * r ≤ P * r) by (apply Z.mul_le_mono_nonneg_r; lia).
    assert (H3 : down k * (16384 - r) ≤ P * (16384 - r))
      by (apply Z.mul_le_mono_nonneg_r; lia).
    replace ((0 - q) * r) with (- (q * r)) by ring.
    replace (64 * q * r) with (64 * (q * r)) in Hqp by ring.
    split; [|lia]. cbn [down]. fold r.
    generalize dependent (q * r). generalize dependent (down k * (16384 - r)). clear.
    intros d ? qr. intros. lia.
  - change (Z.shiftl 1 18) with 262144. unfold D24 in *. pow_consts.
    assert (Hqr : 0 ≤ (262144 - q) * r) by (apply Z.mul_nonneg_nonneg; lia).
    assert (H3 : 64 * ((262144 - q) * r) ≤ (16777216 + 63 - P) * r).
    { replace (64 * ((262144 - q) * r)) with ((64 * (262144 - q)) * r) by ring.
      apply Z.mul_le_mono_nonneg_r; lia. }
    assert (H4 : P * (16384 - r) ≤ up k * (16384 - r))
      by (apply Z.mul_le_mono_nonneg_r; lia).
    generalize dependent ((262144 - q) * r). intros qr Hqr H3.
    split; [lia|]. cbn [up]. fold r. unfold D24. pow_consts.
    apply Z.div_le_lower_bound; [done|].
    assert (H2 : 16384 * (qr / 256) ≤ 64 * qr) by lia. nia.
Qed.

(** The [int] product never overflows, and the count moves by one. *)
Lemma update_delta_bound n v b : cell_ok n v → v mod 256 < 90 → b = 0 ∨ b = 1 →
  - 2 ^ 31 ≤ update_delta b (v ≫ 14) (v .& 255) < 2 ^ 31.
Proof.
  intros Hv Hc Hb. pose proof (cell_ok_word _ _ Hv) as Hw. destruct Hv as [[Hc6 _] _ _].
  rewrite (land_low _ 8 255), shr_div by done. change (2 ^ 8) with 256. unfold update_delta.
  pose proof (rate_bound (Z.to_nat (v mod 256 - 6)) ltac:(lia)) as Hr.
  replace (6 + Z.of_nat _) with (v mod 256) in Hr by lia.
  generalize dependent (rate_table (v mod 256)). intros r Hr.
  assert (0 ≤ v / 2 ^ 14 < 2 ^ 18) by word_lia.
  assert (0 ≤ Z.shiftl b 18 ≤ 2 ^ 18) by (destruct Hb as [-> | ->]; done).
  generalize dependent (v / 2 ^ 14). generalize dependent (Z.shiftl b 18). intros. nia.
Qed.

Lemma cell_update_ok n v b : cell_ok n v → v mod 256 < 90 → b = 0 ∨ b = 1 →
  cell_ok (S n) (cell_update v b).
Proof.
  intros Hv Hc Hb. pose proof (cell_ok_word _ _ Hv) as Hw. destruct Hv as [[Hc6 Hcn] Hc90 Hp].
  set (k := Z.to_nat (v mod 256 - 6)) in *. cbv zeta in Hp.
  assert (Hk : v mod 256 = 6 + Z.of_nat k) by lia.
  assert (Hk84 : (k < 84)%nat) by lia.
  pose proof (prob_step k (v / 256) b Hk84 Hp Hb) as Hs. cbv zeta in Hs.
  replace (v / 256 / 64) with (v / 2 ^ 14) in Hs by (pow_consts; lia).
  rewrite <- Hk in Hs. change (_ * rate_table (v mod 256)) with
    (update_delta b (v / 2 ^ 14) (v mod 256)) in Hs.
  destruct (loss_step k Hk84) as (_ & _ & _ & _ & HU & HL). unfold D24 in HU.
  set (P' := v / 256 + update_delta b (v / 2 ^ 14) (v mod 256) / 256) in *.
  assert (HE : cell_update v b = 256 * P' + (v mod 256 + 1))
    by (apply cell_update_eq; [done|lia|unfold P' in *; lia]).
  assert (HM : cell_update v b mod 256 = v mod 256 + 1) by lia.
  assert (HQ : cell_update v b / 256 = P') by lia.
  split; rewrite ?HM, ?HQ; [lia..|]. cbv zeta.
  replace (Z.to_nat (v mod 256 + 1 - 6)) with (S k) by lia. done.
Qed.

(** ** The interval shrinks by a known factor *)

(** A part of [m + 1] points that misses a fraction [e / D] of [m] of them. *)
Lemma shrink D e m w : 0 < D → 0 < e ≤ D → 1 ≤ m → w ≤ m → w * D < m * (D - e) + D + 1 →
  w * (D + e) ≤ (m + 1) * D.
Proof.
  intros HD He Hm Hw Hwd. destruct (Z.le_gt_cases D (m * e)) as [Hme|Hme].
  - assert (w * D * e ≤ (m * (D - e) + D) * e) by nia.
    assert (w * D * (D + e) ≤ (m + 1) * D * D); [|nia].
    assert (w * D * D ≤ (m * (D - e) + D) * D) by nia.
    assert (D * e ≤ m * e * e) by nia. nia.
  - nia.
Qed.

(** ** The invariant of the predictor

    After [j] whole bytes a context has been updated at most [j] times, once
    more if its node lies before the current one in the byte. *)

Definition visits (j : nat) (prev s : Z) : nat := if s / 256 <? prev then S j else j.

Record pred_inv (j : nat) (P : Predictor) : Prop := {
  inv_prev : 0 ≤ prev P < 256;
  inv_order : length (order P) = 256%nat ∧ bytes (order P);
  inv_len : Z.of_nat (length (ctx (matrix P))) = 65536;
  inv_cells : ∀ s, 0 ≤ s < 65536 → cell_ok (visits j (prev P) s) (cell (matrix P) s) }.

(** The context read by [predict] and written by [update]. *)
Definition pred_index (P : Predictor) : Z := Z.shiftl (prev P) 8 .| order_at P.

Lemma order_at_byte P : bytes (order P) → 0 ≤ order_at P < 256.
Proof. intros. by apply nth_byte. Qed.

Lemma pred_index_eq j P : pred_inv j P → pred_index P = order_at P + prev P * 256.
Proof.
  intros [Hp [_ Ho] _ _]. unfold pred_index. rewrite shl_mul by lia.
  apply (lor_add' _ _ 8); [lia|]. by apply order_at_byte.
Qed.

Lemma cell_insert a s v s' : 0 ≤ s < Z.of_nat (length (ctx a)) → 0 ≤ s' →
  cell (mkAdaptive s (<[Z.to_nat s := v]> (ctx a))) s' = if s' =? s then v else cell a s'.
Proof.
  intros Hs Hs'. unfold cell. cbn [ctx]. rewrite !nth_lookup.
  destruct (Z.eqb_spec s' s) as [->|].
  - by rewrite list_lookup_insert_eq by lia.
  - by rewrite list_lookup_insert_ne by lia.
Qed.

Lemma pred_new_inv : pred_inv 0 predictor_new.
Proof.
  split; [done| | |].
  - split; [done|]. apply Forall_replicate. by vm_compute.
  - cbn [matrix predictor_new ctx adaptive_new]. rewrite length_fmap, length_zseq. lia.
  - intros s Hs. unfold visits. cbn [prev predictor_new]. rewrite (proj2 (Z.ltb_ge _ 0)) by lia.
    unfold cell. cbn [matrix predictor_new ctx adaptive_new].
    rewrite nth_lookup, list_lookup_fmap, lookup_zseq by lia. cbn [from_option fmap option_fmap option_map id].
    replace (0 + Z.of_nat (Z.to_nat s)) with s by lia.
    unfold ctx_init. rewrite !shr_div, !(land_low _ 1 1) by done.
    assert (H2 : s .& 2 = 2 * (s / 2 mod 2)).
    { change 2 with (1 * 2 ^ 1) at 1. rewrite <- (shl_mul 1 1) by lia.
      replace (2 * (s / 2 mod 2)) with (Z.shiftl ((s ≫ 1) .& 1) 1).
      - bitwise i. destruct (Z.ltb_spec i 1).
        + rewrite !(Z.testbit_neg_r _ (i - 1)) by lia. btauto.
        + rewrite Z.shiftr_spec by lia. by replace (i - 1 + 1) with i by lia.
      - rewrite shl_mul, (land_low _ 1 1), shr_div by done. change (2 ^ 1) with 2. lia. }
    rewrite H2. clear H2. change (2 ^ 1) with 2.
    set (w := (s mod 2 * 2 + _ + _ + _ + _ + _ + _ + _ + 3)).
    assert (Hw : 3 ≤ w ≤ 13) by (unfold w; pow_consts; lia). clearbody w.
    unfold wshl. rewrite shl_mul, (wrap_small 32) by word_lia.
    rewrite (lor_add' 6 w 28) by lia. clear Hs.
    assert (Hm : (6 + w * 2 ^ 28) mod 256 = 6) by (pow_consts; lia).
    assert (Hd : (6 + w * 2 ^ 28) / 256 = w * 2 ^ 20) by (pow_consts; lia).
    split; rewrite ?Hm, ?Hd; [lia|lia|]. change (Z.to_nat (6 - 6)) with O.
    cbn [up down]. pow_consts. lia.
Qed.

Lemma pred_inv_ok j P : pred_inv j P → pred_ok P.
Proof.
  intros [_ _ Hl Hc]. unfold pred_ok. apply Forall_lookup. intros i v Hi.
  pose proof (lookup_lt_Some _ _ _ Hi). specialize (Hc (Z.of_nat i) ltac:(lia)).
  unfold cell in Hc. rewrite nth_lookup, Nat2Z.id, Hi in Hc. by eapply cell_ok_word.
Qed.

(** ** One coded bit *)

Lemma update_inv j P b : pred_inv j P → b = 0 ∨ b = 1 → b = 1 ∨ 1 ≤ prev P →
  let P' := update (snd (predict P)) b in
  if 256 <=? 2 * prev P + b then prev P' = 0 ∧ pred_inv (S j) P'
  else prev P' = 2 * prev P + b ∧ pred_inv j P'.
Proof.
  intros HI Hb Hp1. pose proof (pred_index_eq _ _ HI) as Hix. destruct HI as [Hp [Ho1 Ho2] Hl Hc].
  pose proof (order_at_byte _ Ho2) as Hob.
  unfold predict, adaptive_predict, update. fold (pred_index P). cbn [snd prev order matrix].
  set (ix := pred_index P) in *. replace (prev P + (prev P + b)) with (2 * prev P + b) by ring.
  set (m := adaptive_update _ b 90).
  assert (Ho' : ∀ x, bytes (<[Z.to_nat (prev P) := x .& 255]> (order P))).
  { intros x. apply Forall_insert; [done|]. rewrite (land_low _ 8 255) by done.
    apply Z.mod_pos_bound. done. }
  assert (Hm : Z.of_nat (length (ctx m)) = 65536 ∧ ∀ s, 0 ≤ s < 65536 →
    cell_ok (if s / 256 <=? prev P then S j else j) (cell m s)).
  { assert (Hle : ∀ s, (visits j (prev P) s ≤ (if (s / 256 <=? prev P)%Z then S j else j))%nat).
    { intros s. unfold visits. destruct (Z.ltb_spec (s / 256) (prev P));
        destruct (Z.leb_spec (s / 256) (prev P)); lia. }
    unfold m, adaptive_update. cbn [a_prev ctx]. change (cell _ ix) with (cell (matrix P) ix).
    fold (cell_update (cell (matrix P) ix) b). rewrite (land_low _ 8 255) by done.
    change (2 ^ 8) with 256.
    destruct (Z.ltb_spec (cell (matrix P) ix mod 256) 90) as [H90|H90].
    - cbn [ctx]. split; [by rewrite length_insert|]. intros s Hs.
      rewrite cell_insert by lia. destruct (Z.eqb_spec s ix) as [->|].
      + rewrite (proj2 (Z.leb_le _ _)) by lia.
        apply cell_update_ok; [|done|done]. eapply cell_ok_le; [|by apply Hc; lia].
        unfold visits. case_match; [|done].
        apply Z.ltb_lt in H. lia.
      + eapply cell_ok_le; [|by apply Hc]. apply Hle.
    - split; [done|]. intros s Hs. eapply cell_ok_le; [|by apply Hc]. apply Hle. }
  destruct Hm as [Hml Hmc]. clearbody m.
  destruct (Z.leb_spec 256 (2 * prev P + b)) as [H256|H256]; (split; [done|]);
    (split; cbn [prev order matrix];
      [lia|split; [by rewrite length_insert|apply Ho']|done|]); intros s Hs;
    (eapply cell_ok_le; [|by apply Hmc]); unfold visits.
  - rewrite (proj2 (Z.ltb_ge (s / 256) 0)) by lia. case_match; lia.
  - destruct (Z.leb_spec (s / 256) (prev P)); destruct (Z.ltb_spec (s / 256) (2 * prev P + b)); lia.
Qed.

(** The probability read by [predict] keeps both outcomes above [loss]. *)
Lemma predict_range j P p P' : pred_inv j P → predict P = (p, P') →
  P' = snd (predict P) ∧ 0 ≤ p < 2 ^ 16 ∧
  loss (Nat.min j 84) ≤ 256 * p ∧ 256 * p ≤ D24 - loss (Nat.min j 84).
Proof.
  intros HI E. rewrite E. split; [done|]. pose proof (pred_index_eq _ _ HI) as Hix.
  pose proof (order_at_byte P (proj2 (inv_order _ _ HI))) as Ho.
  pose proof (inv_prev _ _ HI) as Hp.
  pose proof (inv_cells _ _ HI (pred_index P) ltac:(lia)) as Hc.
  unfold predict, adaptive_predict in E. fold (pred_index P) in E. injection E as <- _.
  unfold visits in Hc. rewrite (proj2 (Z.ltb_ge _ _)) in Hc by lia.
  rewrite shr_div by lia. generalize dependent (cell (matrix P) (pred_index P)).
  intros v Hv. pose proof (cell_ok_word _ _ Hv) as Hw. destruct Hv as [H1 H2 H3]. cbv zeta in H3.
  pose proof (loss_mono (Z.to_nat (v mod 256 - 6)) (Nat.min j 84) ltac:(lia)) as Hlm.
  unfold loss at 2 in Hlm. assert (v / 2 ^ 16 = v / 256 / 256) by (pow_consts; lia).
  unfold D24, word in *. pow_consts. lia.
Qed.

(** What the coder still has to say shrinks by [loss] at every bit. *)
Lemma bit_step j P lo hi b rest :
  pred_inv j P → interval lo hi → b = 0 ∨ b = 1 →
  ∃ bs lo' hi',
    emission P lo hi (b :: rest) = bs ++ emission (update (snd (predict P)) b) lo' hi' rest ∧
    interval lo' hi' ∧
    (hi' - lo' + 1) * (D24 + loss (Nat.min j 84)) ≤
      (hi - lo + 1) * D24 * 256 ^ Z.of_nat (length bs).
Proof.
  intros HI Hi Hb. cbn [emission]. destruct (predict P) as [p P'] eqn:Ep.
  destruct (predict_range _ _ _ _ HI Ep) as (_ & Hp & Hl1 & Hl2). cbn [snd].
  destruct (step_interval lo hi p b) as [lo1 hi1] eqn:Es.
  pose proof (step_interval_spec _ _ _ _ _ _ Hi Hp Es) as (H1 & H2 & H3 & H4 & H5 & H6 & H7).
  destruct (enc_norm norm_fuel lo1 hi1) as [[bs lo'] hi'] eqn:En.
  destruct (enc_norm_ok _ _ _ _ _ H1 H2 H4 En) as (Hi' & _ & Hw & _).
  exists bs, lo', hi'. split; [done|]. split; [done|]. rewrite Hw.
  pose proof (loss_pos (Nat.min j 84) ltac:(lia)) as Hpos.
  destruct Hi as (Hlo & Hhi & Hd). assert (Hlt : lo < hi) by (clear - Hd; pow_consts; lia).
  destruct (split_point_eq lo hi p Hlo Hhi ltac:(lia) Hp) as (Hs & Hm & Hm').
  specialize (Hm' Hlt).
  assert (Hsh : (hi1 - lo1 + 1) * (D24 + loss (Nat.min j 84)) ≤ (hi - lo + 1) * D24).
  { set (m := hi - lo) in *. set (e := loss _) in *. unfold D24 in *.
    assert (Hq : 0 ≤ m * p - 2 ^ 16 * (m * p / 2 ^ 16) < 2 ^ 16) by (pow_consts; lia).
    apply shrink; [lia|lia|lia| |].
    - destruct Hb as [-> | ->]; [destruct (H6 eq_refl) as [-> ->]|destruct (H7 ltac:(done)) as [-> ->]];
        rewrite Hs; unfold m in *; lia.
    - destruct Hb as [-> | ->]; [destruct (H6 eq_refl) as [-> ->]|destruct (H7 ltac:(done)) as [-> ->]];
        rewrite Hs.
      + replace (hi - _ + 1) with (m - m * p / 2 ^ 16) by (unfold m; lia).
        assert (m * e ≤ m * (256 * p)) by (apply Z.mul_le_mono_nonneg_l; unfold m; lia).
        generalize dependent (m * p / 2 ^ 16). intros q Hs Hm Hm' Hq. pow_consts. nia.
      + replace (lo + _ - lo + 1) with (m * p / 2 ^ 16 + 1) by lia.
        assert (m * (256 * p) ≤ m * (2 ^ 24 - e)) by (apply Z.mul_le_mono_nonneg_l; unfold m; lia).
        generalize dependent (m * p / 2 ^ 16). intros q Hs Hm Hm' Hq. pow_consts. nia. }
  assert (0 ≤ 256 ^ Z.of_nat (length bs)) by (apply Z.pow_nonneg; lia). nia.
Qed.

(** ** Bytes and texts *)

Definition gain (j : nat) : Z := D24 + loss (Nat.min j 84).

Lemma gain_pos j : D24 < gain j.
Proof. unfold gain. pose proof (loss_pos (Nat.min j 84) ltac:(lia)). lia. Qed.

Lemma pow_256_app (a b : list Z) :
  256 ^ Z.of_nat (length (a ++ b)) = 256 ^ Z.of_nat (length a) * 256 ^ Z.of_nat (length b).
Proof. rewrite length_app, Nat2Z.inj_add, Z.pow_add_r by lia. done. Qed.

(** Costs compose. *)
Lemma chain w0 w1 w2 g G d D a b :
  w1 * g ≤ w0 * d * a → w2 * G ≤ w1 * D * b → 0 ≤ g → 0 ≤ D → 0 ≤ b →
  w2 * (g * G) ≤ w0 * (d * D) * (a * b).
Proof.
  intros H1 H2 Hg HD Hb. transitivity (w1 * D * b * g).
  - replace (w2 * (g * G)) with (w2 * G * g) by ring. by apply Z.mul_le_mono_nonneg_r.
  - replace (w1 * D * b * g) with (w1 * g * (D * b)) by ring.
    replace (w0 * (d * D) * (a * b)) with (w0 * d * a * (D * b)) by ring.
    apply Z.mul_le_mono_nonneg_r; [by apply Z.mul_nonneg_nonneg|done].
Qed.

Lemma data_bits_step l j P lo hi rest :
  Forall (λ x, x = 0 ∨ x = 1) l → (length l ≤ 8)%nat → l ≠ [] →
  2 ^ (8 - Z.of_nat (length l)) ≤ prev P < 2 ^ (9 - Z.of_nat (length l)) →
  pred_inv j P → interval lo hi →
  ∃ bs P' lo' hi',
    emission P lo hi (l ++ rest) = bs ++ emission P' lo' hi' rest ∧
    pred_inv (S j) P' ∧ prev P' = 0 ∧ interval lo' hi' ∧
    (hi' - lo' + 1) * gain j ^ Z.of_nat (length l) ≤
      (hi - lo + 1) * D24 ^ Z.of_nat (length l) * 256 ^ Z.of_nat (length bs).
Proof.
  revert P lo hi. induction l as [|b l IH]; intros P lo hi Hl H8 Hne Hv HI Hi; [done|].
  apply Forall_cons in Hl as [Hb Hl]. cbn [length] in *. clear Hne.
  assert (Hv1 : 1 ≤ prev P).
  { assert (2 ^ 0 ≤ 2 ^ (8 - Z.of_nat (S (length l)))) by (apply Z.pow_le_mono_r; lia). lia. }
  destruct (bit_step j P lo hi b (l ++ rest) HI Hi Hb) as (bs & lo1 & hi1 & He & Hi1 & Hw1).
  pose proof (update_inv j P b HI Hb ltac:(by right)) as Hu. cbv zeta in Hu.
  change ((b :: l) ++ rest) with (b :: (l ++ rest)). rewrite He. clear He.
  fold (gain j) in Hw1. pose proof (gain_pos j). rewrite Nat2Z.inj_succ in *.
  rewrite !Z.pow_succ_r by lia.
  generalize dependent (update (snd (predict P)) b). intros P1 Hu.
  replace (8 - Z.of_nat (length l)) with (Z.succ (8 - Z.succ (Z.of_nat (length l)))) in IH by lia.
  replace (9 - Z.of_nat (length l)) with (Z.succ (9 - Z.succ (Z.of_nat (length l)))) in IH by lia.
  destruct l as [|b' l].
  - change (9 - Z.succ (Z.of_nat (length []))) with 8 in Hv.
    change (8 - Z.succ (Z.of_nat (length []))) with 7 in Hv.
    rewrite (proj2 (Z.leb_le _ _)) in Hu by lia. destruct Hu as [Hp1 HI1].
    exists bs, P1, lo1, hi1. cbn [length app]. change (Z.of_nat 0) with 0.
    rewrite !Z.pow_0_r. split_and!; try done. lia.
  - set (k := Z.of_nat (length (b' :: l))) in *.
    assert (Hk : 1 ≤ k ≤ 7) by (unfold k; cbn [length] in *; lia).
    assert (H256 : 2 ^ (9 - Z.succ k) ≤ 2 ^ 7) by (apply Z.pow_le_mono_r; lia).
    rewrite (proj2 (Z.leb_gt _ _)) in Hu by lia. destruct Hu as [Hp1 HI1].
    destruct (IH P1 lo1 hi1) as (bs2 & P2 & lo2 & hi2 & -> & HI2 & Hp2 & Hi2 & Hw2);
      [done|lia|done| |done|done|].
    { rewrite !Z.pow_succ_r by lia. lia. }
    exists (bs ++ bs2), P2, lo2, hi2. rewrite <- app_assoc, pow_256_app.
    split_and!; try done. clear - Hw1 Hw2 H Hk.
    apply (chain _ _ _ _ _ _ _ _ _ Hw1 Hw2);
      [unfold D24 in H; lia|by apply Z.pow_nonneg|by apply Z.pow_nonneg].
Qed.

(** A byte of text is coded as nine bits, at a cost of at least [gain]. *)
Lemma byte_step j P lo hi b rest :
  pred_inv j P → prev P = 0 → interval lo hi →
  ∃ bs P' lo' hi',
    emission P lo hi (byte_bits b ++ rest) = bs ++ emission P' lo' hi' rest ∧
    pred_inv (S j) P' ∧ prev P' = 0 ∧ interval lo' hi' ∧
    (hi' - lo' + 1) * gain j ^ 9 ≤ (hi - lo + 1) * D24 ^ 9 * 256 ^ Z.of_nat (length bs).
Proof.
  intros HI Hp Hi. change (byte_bits b ++ rest) with (1 :: (drop 1 (byte_bits b) ++ rest)).
  destruct (bit_step j P lo hi 1 (drop 1 (byte_bits b) ++ rest) HI Hi ltac:(by right))
    as (bs & lo1 & hi1 & -> & Hi1 & Hw1).
  pose proof (update_inv j P 1 HI ltac:(by right) ltac:(by left)) as Hu. cbv zeta in Hu.
  rewrite Hp in Hu. destruct Hu as [Hp1 HI1]. change (2 * 0 + 1) with 1 in Hp1.
  destruct (data_bits_step (drop 1 (byte_bits b)) j (update (snd (predict P)) 1) lo1 hi1 rest)
    as (bs2 & P2 & lo2 & hi2 & -> & HI2 & Hp2 & Hi2 & Hw2);
    [apply byte_bits_bit|cbn; lia|done|rewrite Hp1; cbn; lia|done|done|].
  exists (bs ++ bs2), P2, lo2, hi2. rewrite <- app_assoc, pow_256_app.
  split_and!; try done. fold (gain j) in Hw1. pose proof (gain_pos j).
  change 9 with (Z.succ (Z.of_nat (length (drop 1 (byte_bits b))))).
  rewrite !Z.pow_succ_r by lia.
  apply (chain _ _ _ _ _ _ _ _ _ Hw1 Hw2);
    [unfold D24 in H; lia|by apply Z.pow_nonneg|by apply Z.pow_nonneg].
Qed.

Lemma D9_pos : 0 < D24 ^ 9.
Proof. by vm_compute. Qed.

Lemma D9_nonneg n : 0 ≤ (D24 ^ 9) ^ n.
Proof. apply Z.pow_nonneg. by vm_compute. Qed.

(** The product of the [gain]s of [n] bytes, the first of which is byte [j]. *)
Fixpoint weight (j n : nat) : Z :=
  match n with O => 1 | S n => gain j ^ 9 * weight (S j) n end.

Lemma weight_first : 2 ^ 31 * (D24 ^ 9) ^ 65 < weight 0 65.
Proof. apply Z.ltb_lt. vm_compute. reflexivity. Qed.

Lemma block_gain : 256 * (D24 ^ 9) ^ 64 ≤ gain 84 ^ (9 * Z.of_nat 64).
Proof. apply Z.leb_le. vm_compute. reflexivity. Qed.

Lemma gain_min j : gain 84 ≤ gain j.
Proof.
  unfold gain. pose proof (loss_mono (Nat.min j 84) (Nat.min 84 84) ltac:(lia)). lia.
Qed.

#[local] Opaque gain.

Lemma emission_length bits P lo hi : (1 ≤ length (emission P lo hi bits))%nat.
Proof.
  revert P lo hi. induction bits as [|b bits IH]; intros P lo hi; cbn [emission].
  - destruct (enc_norm norm_fuel lo hi) as [[bs lo'] hi']. rewrite length_app. cbn. lia.
  - destruct (predict P) as [p P']. destruct (step_interval lo hi p b) as [lo1 hi1].
    destruct (enc_norm norm_fuel lo1 hi1) as [[bs lo'] hi']. rewrite length_app.
    specialize (IH (update P' b) lo' hi'). lia.
Qed.

Lemma text_bound raw j P lo hi :
  pred_inv j P → prev P = 0 → interval lo hi →
  ∃ k : nat, (S k ≤ length (emission P lo hi (raw_bits raw)))%nat ∧
    2 * weight j (length raw) ≤
      (hi - lo + 1) * (D24 ^ 9) ^ Z.of_nat (length raw) * 256 ^ Z.of_nat k.
Proof.
  revert j P lo hi. induction raw as [|b raw IH]; intros j P lo hi HI Hp Hi.
  - exists O. split; [apply emission_length|]. cbn [length weight].
    change (Z.of_nat 0) with 0. rewrite !Z.pow_0_r. destruct Hi as (_ & _ & Hd).
    clear - Hd. pow_consts. lia.
  - unfold raw_bits. cbn [fmap list_fmap concat]. rewrite <- app_assoc. fold (raw_bits raw).
    destruct (byte_step j P lo hi b (raw_bits raw) HI Hp Hi)
      as (bs & P1 & lo1 & hi1 & -> & HI1 & Hp1 & Hi1 & Hw1).
    destruct (IH (S j) P1 lo1 hi1 HI1 Hp1 Hi1) as (k & Hk & Hw).
    exists (length bs + k)%nat. split; [rewrite length_app; lia|].
    cbn [length weight]. pose proof (gain_pos j). unfold D24 in H.
    rewrite Nat2Z.inj_succ, Z.pow_succ_r, Nat2Z.inj_add, Z.pow_add_r by lia.
    replace (2 * (gain j ^ 9 * weight (S j) (length raw)))
      with (gain j ^ 9 * (2 * weight (S j) (length raw))) by ring.
    rewrite (Z.mul_comm (gain j ^ 9)).
    assert (0 ≤ gain j ^ 9) by (apply Z.pow_nonneg; lia).
    assert (0 ≤ (D24 ^ 9) ^ Z.of_nat (length raw)) by apply D9_nonneg.
    assert (0 ≤ 256 ^ Z.of_nat k) by (apply Z.pow_nonneg; lia).
    generalize dependent (weight (S j) (length raw)).
    generalize dependent ((D24 ^ 9) ^ Z.of_nat (length raw)).
    generalize dependent (D24 ^ 9). generalize dependent (gain j ^ 9). clear.
    intros g Hg d Hw1 D HD w Hw.
    transitivity ((hi1 - lo1 + 1) * D * 256 ^ Z.of_nat k * g);
      [by apply Z.mul_le_mono_nonneg_r|].
    replace (_ * D * _ * g) with ((hi1 - lo1 + 1) * g * (D * 256 ^ Z.of_nat k)) by ring.
    replace (_ * (d * D) * _) with
      ((hi - lo + 1) * d * 256 ^ Z.of_nat (length bs) * (D * 256 ^ Z.of_nat k)) by ring.
    apply Z.mul_le_mono_nonneg_r; [apply Z.mul_nonneg_nonneg; [done|by apply Z.pow_nonneg]|done].
Qed.

(** ** The weight of a text against the guard *)

Lemma weight_app j a b : weight j (a + b) = weight j a * weight (j + a) b.
Proof.
  revert j. induction a as [|a IH]; intros j.
  - rewrite Nat.add_0_r, Nat.add_0_l. cbn [weight]. ring.
  - cbn [Nat.add weight]. rewrite IH. replace (S j + a)%nat with (j + S a)%nat by lia. ring.
Qed.

Lemma weight_low j n : gain 84 ^ (9 * Z.of_nat n) ≤ weight j n.
Proof.
  assert (H0 : 0 ≤ gain 84).
  { pose proof (gain_pos 84) as H. unfold D24 in H. pow_consts. lia. }
  pose proof gain_min as Hm. generalize dependent (gain 84). intros g Hg Hm.
  revert j. induction n as [|n IH]; intros j; cbn [weight]; [done|].
  rewrite Nat2Z.inj_succ, Z.mul_succ_r, Z.add_comm, Z.pow_add_r by lia.
  apply Z.mul_le_mono_nonneg; [by apply Z.pow_nonneg| |by apply Z.pow_nonneg|apply IH].
  apply Z.pow_le_mono_l. split; [done|apply Hm].
Qed.

Lemma weight_block j : 256 * (D24 ^ 9) ^ 64 ≤ weight j 64.
Proof. etransitivity; [exact block_gain|]. exact (weight_low j 64). Qed.

Lemma weight_any j n : (D24 ^ 9) ^ Z.of_nat n ≤ weight j n.
Proof.
  etransitivity; [|apply weight_low]. rewrite <- Z.pow_mul_r by lia.
  apply Z.pow_le_mono_l. pose proof (gain_pos 84) as H. split; [by vm_compute|].
  by apply Z.lt_le_incl.
Qed.

Lemma weight_tail j m r :
  256 ^ Z.of_nat m * (D24 ^ 9) ^ Z.of_nat (64 * m + r) ≤ weight j (64 * m + r).
Proof.
  revert j. induction m as [|m IH]; intros j.
  - change (64 * 0 + r)%nat with r. rewrite Z.mul_1_l. apply weight_any.
  - replace (64 * S m + r)%nat with (64 + (64 * m + r))%nat by lia.
    rewrite weight_app. pose proof (weight_block j) as Hb. specialize (IH (j + 64)%nat).
    pose proof (D9_nonneg 64) as H64. pose proof (D9_nonneg (Z.of_nat (64 * m + r))) as Hn.
    rewrite Nat2Z.inj_succ, Z.pow_succ_r, (Nat2Z.inj_add 64), Z.pow_add_r by lia.
    replace (Z.of_nat 64) with 64 by done.
    generalize dependent ((D24 ^ 9) ^ 64).
    generalize dependent ((D24 ^ 9) ^ Z.of_nat (64 * m + r)).
    generalize (weight j 64) (weight (j + 64) (64 * m + r)).
    intros W1 W2 n HI Hn s Hb Hs. assert (0 ≤ 256 ^ Z.of_nat m) by (apply Z.pow_nonneg; lia).
    replace (256 * 256 ^ Z.of_nat m * (s * n)) with ((256 * s) * (256 ^ Z.of_nat m * n)) by ring.
    apply Z.mul_le_mono_nonneg; [lia|done| |done]. by apply Z.mul_nonneg_nonneg.
Qed.

(** [65 + 64 m + r] bytes cost more than [m] payload bytes. *)
Lemma weight_text m r : let n := (65 + (64 * m + r))%nat in
  2 ^ 31 * 256 ^ Z.of_nat m * (D24 ^ 9) ^ Z.of_nat n < weight 0 n.
Proof.
  intros n. unfold n. rewrite weight_app, (Nat2Z.inj_add 65), Z.pow_add_r by lia.
  pose proof (weight_tail 65 m r) as Ht. pose proof weight_first as Hf.
  pose proof (D9_nonneg 65) as H65.
  assert (Hs : 0 < (D24 ^ 9) ^ Z.of_nat (64 * m + r))
    by (apply Z.pow_pos_nonneg; [apply D9_pos|clear; lia]).
  replace (Z.of_nat 65) with 65 by done. change (0 + 65)%nat with 65%nat.
  generalize dependent ((D24 ^ 9) ^ 65). generalize dependent (weight 0 65).
  generalize dependent (weight 65 (64 * m + r)).
  generalize dependent ((D24 ^ 9) ^ Z.of_nat (64 * m + r)).
  intros s Hs W2 HW2 W1 f Hf H65. clear n.
  assert (HM : 0 < 256 ^ Z.of_nat m) by (apply Z.pow_pos_nonneg; lia).
  generalize dependent (256 ^ Z.of_nat m). intros M HW2 HM.
  apply Z.lt_le_trans with (W1 * (M * s)).
  - replace (2 ^ 31 * M * (f * s)) with (2 ^ 31 * f * (M * s)) by ring.
    apply Z.mul_lt_mono_pos_r; [by apply Z.mul_pos_pos|done].
  - apply Z.mul_le_mono_nonneg_l; [|done]. pow_consts. lia.
Qed.

(** The payload passes the guard whatever the text. *)
Lemma payload_ratio raw : ratio_ok (Z.of_nat (length (payload raw))) (Z.of_nat (length raw)).
Proof.
  pose proof (emission_length (raw_bits raw) predictor_new 0 0xffffffff) as H1.
  fold (payload raw) in H1. right. split; [lia|].
  destruct (Nat.le_gt_cases (length raw) 64) as [H64|H64]; [lia|].
  destruct (text_bound raw 0 predictor_new 0 0xffffffff pred_new_inv eq_refl interval_init)
    as (k & Hk & Hw). fold (payload raw) in Hk.
  set (n := length raw) in *. set (m := ((n - 65) / 64)%nat).
  pose proof (Nat.div_mod_eq (n - 65) 64) as Hn. fold m in Hn.
  pose proof (Nat.mod_upper_bound (n - 65) 64 ltac:(lia)) as Hr.
  set (r := ((n - 65) mod 64)%nat) in *. assert (Hn' : n = (65 + (64 * m + r))%nat) by lia.
  assert (m < k)%nat; [|lia].
  pose proof (weight_text m r) as Ht. cbv zeta in Ht. rewrite <- Hn' in Ht.
  assert (Hp : 0 < (D24 ^ 9) ^ Z.of_nat n)
    by (apply Z.pow_pos_nonneg; [apply D9_pos|clear; lia]).
  apply Nat2Z.inj_lt, (Z.pow_lt_mono_r_iff 256); [done|clear; lia|].
  clear - Hw Ht Hp. generalize dependent ((D24 ^ 9) ^ Z.of_nat n).
  generalize dependent (weight 0 n). generalize (256 ^ Z.of_nat m) (256 ^ Z.of_nat k).
  intros M K W s Hw Ht Hs.
  apply (Z.mul_lt_mono_pos_l (2 ^ 32 * s)); [lia|].
  replace (0xffffffff - 0 + 1) with (2 ^ 32) in Hw by done.
  replace (2 ^ 32 * s * M) with (2 * (2 ^ 31 * M * s)) by ring. lia.
Qed.

(** ** Reachable models, and arbitrary containers *)

(** The models of both coders: after a byte, only the flag 1 is followed by
    more bits. *)
Inductive reachable : Predictor → Prop :=
| reach_new : reachable predictor_new
| reach_bit P b : reachable P → b = 0 ∨ b = 1 → b = 1 ∨ 1 ≤ prev P →
    reachable (update (snd (predict P)) b).

Lemma reachable_inv P : reachable P → ∃ j, pred_inv j P.
Proof.
  induction 1 as [|P b _ [j IH] Hb Hp]; [exists O; apply pred_new_inv|].
  pose proof (update_inv j P b IH Hb Hp) as Hu. cbv zeta in Hu.
  case_match; destruct Hu as [_ Hu]; eauto.
Qed.

Lemma decode_byte_loop_range fuel v D :
  1 ≤ v < 512 → 256 ≤ v * 2 ^ (Z.of_nat fuel - 1) → (1 ≤ fuel)%nat →
  256 ≤ fst (decode_byte_loop fuel v D) < 512.
Proof.
  revert v D. induction fuel as [|fuel IH]; intros v D Hv Hf H1; [lia|].
  cbn [decode_byte_loop]. destruct (Z.ltb_spec v 256) as [Hlt|Hge].
  - destruct (decode_bit D) as [bit D'] eqn:Ed.
    assert (Hbit : bit = 0 ∨ bit = 1).
    { unfold decode_bit in Ed. destruct (predict (d_pred D)) as [p P].
      destruct (dec_norm norm_fuel _ _ _ _ _) as [[[? ?] ?] ?].
      injection Ed as <- _. unfold b2z. case_match; lia. }
    destruct fuel as [|fuel]; [simpl in Hf; lia|].
    apply IH; [lia| |lia].
    replace (Z.of_nat (S (S fuel)) - 1) with (Z.succ (Z.of_nat (S fuel) - 1)) in Hf by lia.
    rewrite Z.pow_succ_r in Hf by lia. nia.
  - cbn [fst]. lia.
Qed.

Lemma decode_byte_range D : -1 ≤ fst (decode_byte_or_eof D) < 256.
Proof.
  unfold decode_byte_or_eof. destruct (decode_bit D) as [bit D']. case_match; [done|].
  pose proof (decode_byte_loop_range 9 1 D' ltac:(lia) ltac:(by vm_compute) ltac:(lia)) as H1.
  destruct (decode_byte_loop 9 1 D') as [b D'']. cbn [fst] in *. lia.
Qed.

(** The loop is bounded by the declared size, on any source. *)
Lemma unpack_loop_total fuel orig_sz D out :
  0 ≤ orig_sz → Z.of_nat (length out) ≤ orig_sz →
  orig_sz + 1 < Z.of_nat (length out + fuel) → bytes out →
  ∃ out' e, unpack_loop fuel orig_sz D out = Some (out', e) ∧
    (e = None ∨ e = Some "pvac_compress: output exceeds declared size"%string) ∧
    Z.of_nat (length out') ≤ orig_sz ∧ bytes out'.
Proof.
  revert D out. induction fuel as [|fuel IH]; intros D out H0 Ho Hf Hb; [lia|].
  cbn [unpack_loop]. pose proof (decode_byte_range D) as Hr.
  destruct (decode_byte_or_eof D) as [b D']. cbn [fst] in Hr.
  destruct (Z.ltb_spec b 0); [eexists out, _; split; [done|]; auto|].
  destruct (Z.leb_spec orig_sz (Z.of_nat (length out))); [eexists out, _; split; [done|]; auto|].
  apply IH; rewrite ?length_app; cbn [length]; [done|lia|lia|].
  apply Forall_app. split; [done|]. repeat constructor; apply wrap_word; lia.
Qed.

(** C25. Whatever the text, up to the 32 MiB limit, [unpack_checked] accepts the
    container [pack] makes of it and returns the text: the coders stay in step,
    the decoding loop stops at the end-of-stream flag, and the guards on size
    and expansion ratio never refuse what [pack] wrote. *)
Theorem unpack_pack (raw out0 : list Z) (error0 : string)
  (Hbytes : bytes raw) (Hsize : Z.of_nat (length raw) ≤ 32 * 1024 * 1024) :
  unpack_checked (pack raw) out0 error0 = (true, raw, ""%string).
Proof. apply unpack_pack_ratio; [done..|apply payload_ratio]. Qed.

Lemma unpack_pack_witness :
  unpack_checked (pack [0; 255; 255]) [] "" = (true, [0; 255; 255], ""%string).
Proof.
  apply (unpack_pack [0; 255; 255] [] ""); [|cbn; lia].
  repeat constructor; unfold word; cbn; lia.
Defined.

(** In every reachable state of the model, in the encoder or in the decoder
    of any data, the contexts and histories are read within their arrays and the
    [int] product of the update does not overflow, whichever bit comes next. *)
Theorem update_no_overflow (P : Predictor) (bit : Z)
  (HP : reachable P) (Hbit : bit = 0 ∨ bit = 1) :
  let '(p, P') := predict P in
  let a := matrix P' in
  let v := cell a (a_prev a) in
  0 ≤ prev P < Z.of_nat (length (order P)) ∧
  0 ≤ a_prev a < Z.of_nat (length (ctx a)) ∧
  0 ≤ p < 2 ^ 16 ∧
  (v .& 255 < 90 → - 2 ^ 31 ≤ update_delta bit (v ≫ 14) (v .& 255) < 2 ^ 31).
Proof.
  apply reachable_inv in HP as [j HI]. destruct (predict P) as [p P'] eqn:Ep.
  destruct (predict_range _ _ _ _ HI Ep) as (HP' & Hp & _). rewrite Ep in HP'.
  pose proof (pred_index_eq _ _ HI) as Hix.
  pose proof (order_at_byte P (proj2 (inv_order _ _ HI))) as Ho.
  pose proof (inv_prev _ _ HI). pose proof (inv_len _ _ HI). pose proof (inv_order _ _ HI) as [Hl _].
  unfold predict, adaptive_predict in Ep. fold (pred_index P) in Ep. injection Ep as _ <-.
  cbn [matrix a_prev ctx]. split_and!; [lia|lia|lia|lia|lia|lia|]. intros Hc.
  apply (update_delta_bound (visits j (prev P) (pred_index P))); [apply (inv_cells _ _ HI); lia| |done].
  rewrite (land_low _ 8 255) in Hc by done. exact Hc.
Qed.

Lemma update_no_overflow_witness :
  let P := update (snd (predict predictor_new)) 1 in
  reachable P ∧ 0 ≤ prev P < Z.of_nat (length (order P)).
Proof.
  assert (H : reachable (update (snd (predict predictor_new)) 1)).
  { apply reach_bit; [apply reach_new|by right|by left]. }
  pose proof (update_no_overflow _ 0 H ltac:(by left)) as T.
  destruct (predict (update _ _)) as [p P']. split; [exact H|exact (proj1 T)].
Defined.

(** On any data, well formed or not, [unpack_checked] terminates, and what it
    has written into [out] is a byte string within the 32 MiB limit. *)
Theorem unpack_safe (data out0 : list Z) (error0 : string)
  (Hdata : bytes data) (Hout0 : bytes out0) :
  let '(ok, out, error) := unpack_checked data out0 error0 in
  error ≠ "unreachable: out of fuel"%string ∧ bytes out ∧
  (out = out0 ∨ Z.of_nat (length out) ≤ 32 * 1024 * 1024) ∧
  (ok = true → error = ""%string).
Proof.
  unfold unpack_checked. destruct (_ || negb _); [split_and!; (done || by left)|].
  set (orig_sz := _ .| _). assert (Hw : word 32 orig_sz).
  { unfold orig_sz. repeat (apply word_bound_lor; [done| |]); try (by apply wrap_word).
    pose proof (nth_byte data 4 Hdata). word_lia. }
  destruct (Z.ltb_spec (32 * 1024 * 1024) orig_sz) as [|Hlim]; [split_and!; (done || by left)|].
  destruct (_ && _); [split_and!; (done || by left)|]. unfold word in Hw.
  destruct (unpack_loop_total (S (S (Z.to_nat orig_sz))) orig_sz (decoder_new (drop 5 data)) [])
    as (out & e & -> & He & Hl & Hb); [lia|cbn [length]; lia|cbn [length]; lia|constructor|].
  assert (Hl' : Z.of_nat (length out) ≤ 32 * 1024 * 1024) by lia. clearbody orig_sz.
  destruct He as [-> | ->].
  - destruct (negb _); split_and!; (done || by right).
  - split_and!; (done || by right).
Qed.

Lemma unpack_safe_witness :
  let '(ok, out, error) := unpack_checked [0xEC; 0; 0; 0; 9; 1; 2; 3] [7] "" in
  error ≠ "unreachable: out of fuel"%string ∧ bytes out.
Proof.
  pose proof (unpack_safe [0xEC; 0; 0; 0; 9; 1; 2; 3] [7] "") as H.
  destruct (unpack_checked _ _ _) as [[ok out] error].
  destruct H as (H1 & H2 & _); [by repeat constructor..|]. by split.
Defined.
