(* ===== verification/Hash.v ===== *)
(** * SHA-256 and SHAKE-256 of [core/hash.hpp]

    [Sha256] and [Shake256] are the streaming states of the code, with their
    buffers; [sha256] is the reference: padding, then the compression of whole
    blocks.  [byte]s are integers in [[0, 256)]. *)

From S2P Require Import Prelude.

(** ** [load_le64], [store_le64] of [core/random.hpp] *)

Definition load_le64 (p : list Z) : Z :=
  foldl (λ x i, x .| wshl 64 (nth (Z.to_nat i) p 0) (8 * i)) 0 (zseq 0 8).

Definition store_le64 (x : Z) : list Z := (λ i, (x ≫ (8 * i)) .& 0xFF) <$> zseq 0 8.

(** The bytes of a C string. *)
Definition c_str (s : string) : list Z :=
  (λ a, Z.of_N (Ascii.N_of_ascii a)) <$> list_ascii_of_string s.

Module Sha.

Record Sha256 : Set := mkSha { h : list Z; len : Z; buf : list Z; ptr : Z }.

(** The round constants, in decimal. *)
Definition K : list Z := [
  1116352408; 1899447441; 3049323471; 3921009573; 961987163; 1508970993;
  2453635748; 2870763221; 3624381080; 310598401; 607225278; 1426881987;
  1925078388; 2162078206; 2614888103; 3248222580; 3835390401; 4022224774;
  264347078; 604807628; 770255983; 1249150122; 1555081692; 1996064986;
  2554220882; 2821834349; 2952996808; 3210313671; 3336571891; 3584528711;
  113926993; 338241895; 666307205; 773529912; 1294757372; 1396182291;
  1695183700; 1986661051; 2177026350; 2456956037; 2730485921; 2820302411;
  3259730800; 3345764771; 3516065817; 3600352804; 4094571909; 275423344;
  430227734; 506948616; 659060556; 883997877; 958139571; 1322822218;
  1537002063; 1747873779; 1955562222; 2024104815; 2227730452; 2361852424;
  2428436474; 2756734187; 3204031479; 3329325298 ].

Definition rotr (x n : Z) : Z := (x ≫ n) .| wshl 32 x (32 - n).
Definition Ch (x y z : Z) : Z := (x .& y) .^ (wnot 32 x .& z).
Definition Maj (x y z : Z) : Z := (x .& y) .^ (x .& z) .^ (y .& z).
Definition S0 (x : Z) : Z := rotr x 2 .^ rotr x 13 .^ rotr x 22.
Definition S1 (x : Z) : Z := rotr x 6 .^ rotr x 11 .^ rotr x 25.
Definition s0 (x : Z) : Z := rotr x 7 .^ rotr x 18 .^ (x ≫ 3).
Definition s1 (x : Z) : Z := rotr x 17 .^ rotr x 19 .^ (x ≫ 10).

Definition H0 : list Z := [
  0x6a09e667; 0xbb67ae85; 0x3c6ef372; 0xa54ff53a; 0x510e527f; 0x9b05688c; 0x1f83d9ab; 0x5be0cd19 ].

(** [init] leaves the buffer as it finds it. *)
Definition init (old_buf : list Z) : Sha256 := mkSha H0 0 old_buf 0.

Definition load_be32 (p : list Z) (i : nat) : Z :=
  wshl 32 (nth (4 * i) p 0) 24 .| wshl 32 (nth (4 * i + 1) p 0) 16
    .| wshl 32 (nth (4 * i + 2) p 0) 8 .| nth (4 * i + 3) p 0.

(** [for (i = 16; i < 64; i++) w[i] = ...] *)
Definition schedule (p : list Z) : list Z :=
  foldl (λ w (i : nat), w ++
    [u32 (u32 (u32 (s1 (nth (i - 2) w 0) + nth (i - 7) w 0) + s0 (nth (i - 15) w 0))
          + nth (i - 16) w 0)])
    (load_be32 p <$> seq 0 16) (seq 16 48).

Definition regs : Type := Z * Z * Z * Z * Z * Z * Z * Z.

Definition round (r : regs) (kw : Z * Z) : regs :=
  let '(a, b, c, d, e, f, g, hh) := r in
  let T1 := u32 (u32 (u32 (u32 (hh + S1 e) + Ch e f g) + fst kw) + snd kw) in
  let T2 := u32 (S0 a + Maj a b c) in
  (u32 (T1 + T2), a, b, c, u32 (d + T1), e, f, g).

Definition process (h p : list Z) : list Z :=
  match h with
  | [h0; h1; h2; h3; h4; h5; h6; h7] =>
      let '(a, b, c, d, e, f, g, hh) :=
        foldl round (h0, h1, h2, h3, h4, h5, h6, h7) (zip K (schedule p)) in
      [u32 (h0 + a); u32 (h1 + b); u32 (h2 + c); u32 (h3 + d);
       u32 (h4 + e); u32 (h5 + f); u32 (h6 + g); u32 (h7 + hh)]
  | _ => h
  end.

(** [memcpy(buf + ptr, p, n)] *)
Definition memcpy (buf : list Z) (ptr : nat) (p : list Z) : list Z :=
  take ptr buf ++ p ++ drop (ptr + length p) buf.

Fixpoint update_loop (fuel : nat) (s : Sha256) (p : list Z) : Sha256 :=
  match fuel with
  | O => s
  | S fuel =>
      match p with
      | [] => s
      | _ =>
          let n := Nat.min (64 - Z.to_nat (ptr s)) (length p) in
          let buf' := memcpy (buf s) (Z.to_nat (ptr s)) (take n p) in
          let ptr' := ptr s + Z.of_nat n in
          let s' := if ptr' =? 64 then mkSha (process (h s) buf') (len s) buf' 0
                    else mkSha (h s) (len s) buf' ptr' in
          update_loop fuel s' (drop n p)
      end
  end.

(** Every turn of the loop copies at least one byte. *)
Definition update (s : Sha256) (data : list Z) : Sha256 :=
  update_loop (S (length data)) (mkSha (h s) (u64 (len s + Z.of_nat (length data))) (buf s) (ptr s)) data.

(** [while (ptr != 56) update(&z, 1);] goes once round the buffer at most. *)
Fixpoint pad_zeros (fuel : nat) (s : Sha256) : Sha256 :=
  match fuel with
  | O => s
  | S fuel => if ptr s =? 56 then s else pad_zeros fuel (update s [0])
  end.

Definition be64 (x : Z) : list Z := (λ i, u8 (x ≫ (8 * (7 - i)))) <$> zseq 0 8.

Definition digest (h : list Z) : list Z :=
  h ≫= λ x, [(x ≫ 24) .& 0xFF; (x ≫ 16) .& 0xFF; (x ≫ 8) .& 0xFF; x .& 0xFF].

Definition finish (s : Sha256) : list Z :=
  let bitlen := u64 (len s * 8) in
  let s := update s [0x80] in
  let s := pad_zeros 64 s in
  let s := update s (be64 bitlen) in
  digest (h s).

Definition sha256_bytes (data : list Z) : list Z :=
  finish (update (init (replicate 64 0)) data).

Definition sha256_acc_u64 (s : Sha256) (x : Z) : Sha256 := update s (store_le64 x).

End Sha.

Example sha256_abc : Sha.sha256_bytes (c_str "abc") =
  [0xba; 0x78; 0x16; 0xbf; 0x8f; 0x01; 0xcf; 0xea; 0x41; 0x41; 0x40; 0xde; 0x5d; 0xae; 0x22; 0x23;
   0xb0; 0x03; 0x61; 0xa3; 0x96; 0x17; 0x7a; 0x9c; 0xb4; 0x10; 0xff; 0x61; 0xf2; 0x00; 0x15; 0xad].
Proof. vm_compute. reflexivity. Qed.

Module Shake.

Record Shake256 : Set := mkShake { st : list Z; rate : Z; pos : Z; squeezing : bool }.

Definition RC : list Z := [
  0x0000000000000001; 0x0000000000008082; 0x800000000000808a; 0x8000000080008000;
  0x000000000000808b; 0x0000000080000001; 0x8000000080008081; 0x8000000000008009;
  0x000000000000008a; 0x0000000000000088; 0x0000000080008009; 0x000000008000000a;
  0x000000008000808b; 0x800000000000008b; 0x8000000000008089; 0x8000000000008003;
  0x8000000000008002; 0x8000000000000080; 0x000000000000800a; 0x800000008000000a;
  0x8000000080008081; 0x8000000000008080; 0x0000000080000001; 0x8000000080008008 ].

Definition ROT : list (list Z) := [
  [0; 36; 3; 41; 18]; [1; 44; 10; 45; 2]; [62; 6; 43; 15; 61]; [28; 55; 25; 21; 56];
  [27; 20; 39; 8; 14] ].

Definition rotl (x r : Z) : Z := if r =? 0 then x else wshl 64 x r .| (x ≫ (64 - r)).

Definition at_ (l : list Z) (i : nat) : Z := nth i l 0.

Definition theta (st : list Z) : list Z :=
  let C := (λ x, at_ st x .^ at_ st (x + 5) .^ at_ st (x + 10) .^ at_ st (x + 15)
                 .^ at_ st (x + 20)) <$> seq 0 5 in
  let D := (λ x, at_ C ((x + 4) mod 5) .^ rotl (at_ C ((x + 1) mod 5)) 1) <$> seq 0 5 in
  imap (λ i s, s .^ at_ D (i mod 5)) st.

(** The loop over [x], [y] writes [B[X + 5 * Y]] with [X = y], [Y = 2x + 3y]. *)
Definition rho_pi (st : list Z) : list Z :=
  foldl (λ B xy,
    let '(x, y) := xy in
    let X := y in let Y := ((2 * x + 3 * y) mod 5)%nat in
    <[(X + 5 * Y)%nat := rotl (at_ st (x + 5 * y)) (nth y (nth x ROT []) 0)]> B)
    (replicate 25 0) (x ← seq 0 5; y ← seq 0 5; [(x, y)]).

Definition chi (B : list Z) : list Z :=
  imap (λ i b,
    let x := (i mod 5)%nat in let y := (i / 5)%nat in
    b .^ (wnot 64 (at_ B ((x + 1) mod 5 + 5 * y)) .& at_ B ((x + 2) mod 5 + 5 * y))) B.

Definition keccak_round (st : list Z) (rc : Z) : list Z :=
  match chi (rho_pi (theta st)) with
  | s0 :: rest => (s0 .^ rc) :: rest
  | [] => []
  end.

Definition keccakf (st : list Z) : list Z := foldl keccak_round st RC.

Definition init : Shake256 := mkShake (replicate 25 0) 136 0 false.

(** [st[idx / 8] ^= b << (idx % 8) * 8] *)
Definition xor_byte (st : list Z) (idx : Z) (b : Z) : list Z :=
  alter (λ s, s .^ wshl 64 b ((idx mod 8) * 8)) (Z.to_nat (idx / 8)) st.

Definition get_byte (st : list Z) (idx : Z) : Z :=
  (at_ st (Z.to_nat (idx / 8)) ≫ ((idx mod 8) * 8)) .& 0xFF.

Definition xor_bytes (st : list Z) (pos : Z) (data : list Z) : list Z :=
  foldl (λ st '(j, b), xor_byte st (pos + j) b) st (zip (zseq 0 (length data)) data).

(** [if (pos == rate) { keccakf(); pos = 0; }] *)
Definition turn (s : Shake256) : Shake256 :=
  if pos s =? rate s then mkShake (keccakf (st s)) (rate s) 0 (squeezing s) else s.

Fixpoint absorb_loop (fuel : nat) (s : Shake256) (data : list Z) : Shake256 :=
  match fuel with
  | O => s
  | S fuel =>
      match data with
      | [] => s
      | _ =>
          let s := turn s in
          let n := Nat.min (Z.to_nat (rate s - pos s)) (length data) in
          absorb_loop fuel
            (mkShake (xor_bytes (st s) (pos s) (take n data)) (rate s) (pos s + Z.of_nat n)
               (squeezing s))
            (drop n data)
      end
  end.

(** [None] is [std::abort]. *)
Definition absorb (s : Shake256) (data : list Z) : option Shake256 :=
  if squeezing s then None else Some (absorb_loop (S (length data)) s data).

Definition pad (s : Shake256) : Shake256 :=
  let st1 := xor_byte (st s) (pos s) 0x1F in
  let st2 := xor_byte st1 (rate s - 1) 0x80 in
  mkShake (keccakf st2) (rate s) 0 true.

Fixpoint squeeze_loop (fuel : nat) (s : Shake256) (len : nat) : list Z * Shake256 :=
  match fuel with
  | O => ([], s)
  | S fuel =>
      match len with
      | O => ([], s)
      | _ =>
          let s := turn s in
          let n := Nat.min (Z.to_nat (rate s - pos s)) len in
          let out := (λ j, get_byte (st s) (pos s + j)) <$> zseq 0 n in
          let '(rest, s') := squeeze_loop fuel
            (mkShake (st s) (rate s) (pos s + Z.of_nat n) (squeezing s)) (len - n) in
          (out ++ rest, s')
      end
  end.

Definition squeeze (s : Shake256) (len : nat) : list Z * Shake256 :=
  squeeze_loop (S len) (if squeezing s then s else pad s) len.

Definition next_u64 (s : Shake256) : Z * Shake256 :=
  let '(b, s) := squeeze s 8 in (load_le64 b, s).

(** ** [XofShake] *)

Definition xof_init (label : list Z) (seed : list Z) : option Shake256 :=
  pad <$> foldl (λ s w, s ≫= λ s, absorb s (store_le64 w)) (absorb init label) seed.

Definition take_u64 (s : Shake256) : Z * Shake256 := next_u64 s.

Fixpoint xof_bounded_loop (fuel : nat) (M : Z) (s : Shake256) : res (Z * Shake256) :=
  match fuel with
  | O => OutOfFuel
  | S fuel =>
      let lim := UINT64_MAX - UINT64_MAX mod M in
      let '(x, s) := take_u64 s in
      if x <=? lim then Ok (x mod M, s) else xof_bounded_loop fuel M s
  end.

Definition xof_bounded (fuel : nat) (M : Z) (s : Shake256) : res (Z * Shake256) :=
  if M <=? 1 then Ok (0, s) else xof_bounded_loop fuel M s.

End Shake.

Example shake256_empty : fst (Shake.squeeze Shake.init 8) =
  [0x46; 0xb9; 0xdd; 0x2b; 0x0b; 0xa8; 0x8d; 0x13].
Proof. vm_compute. reflexivity. Qed.

(** ** SHA-256 of a whole message *)

Module ShaSpec.
Import Sha.

#[local] Opaque process.

Definition block (m : list Z) (i : nat) : list Z := take 64 (drop (64 * i) m).
Definition blocks (n : nat) (m : list Z) : list Z :=
  foldl (λ h i, process h (block m i)) H0 (seq 0 n).

(** The padding of FIPS 180-4: a one bit, zeros, the length in bits. *)
Definition padded (m : list Z) : list Z :=
  m ++ [0x80] ++ replicate ((119 - length m mod 64) mod 64) 0 ++ be64 (u64 (8 * Z.of_nat (length m))).

Definition sha256 (m : list Z) : list Z :=
  digest (blocks (length (padded m) / 64) (padded m)).

Lemma blocks_S n m : blocks (S n) m = process (blocks n m) (block m n).
Proof. unfold blocks. by rewrite seq_S, foldl_snoc. Qed.

Lemma blocks_app n a b : (64 * n ≤ length a)%nat → blocks n (a ++ b) = blocks n a.
Proof.
  induction n as [|n IH]; intros Hn; [done|]. rewrite !blocks_S, IH by lia.
  apply (f_equal (process (blocks n a))). unfold block. rewrite drop_app_le by lia. rewrite take_app_le; [done|]. rewrite length_drop. lia.
Qed.

(** The state holds the whole blocks of [m] compressed, the rest buffered. *)
Record absorbed (s : Sha256) (m : list Z) : Prop := {
  abs_h : h s = blocks (length m / 64) m;
  abs_ptr : ptr s = Z.of_nat (length m mod 64);
  abs_buf : length (buf s) = 64%nat;
  abs_rest : take (length m mod 64) (buf s) = drop (64 * (length m / 64)) m }.

Lemma init_absorbed b : length b = 64%nat → absorbed (init b) [].
Proof. by split. Qed.

Lemma memcpy_spec b (k : nat) p : length b = 64%nat → (k + length p ≤ 64)%nat →
  length (memcpy b k p) = 64%nat ∧ take (k + length p) (memcpy b k p) = take k b ++ p.
Proof.
  intros Hb Hk. unfold memcpy. rewrite app_assoc. split.
  - rewrite !length_app, length_take, length_drop. lia.
  - apply take_app_length'. rewrite length_app, length_take. lia.
Qed.

Lemma update_loop_spec fuel s m p :
  absorbed s m → (length p < fuel)%nat →
  absorbed (update_loop fuel s p) (m ++ p) ∧ len (update_loop fuel s p) = len s.
Proof.
  revert s m p. induction fuel as [|fuel IH]; intros s m p Ha Hf; [lia|].
  cbn [update_loop]. destruct p as [|b p]; [by rewrite app_nil_r|].
  destruct Ha as [Hh Hp Hb Hr]. rewrite Hp, Nat2Z.id.
  set (q := (length m / 64)%nat) in *. set (k := (length m mod 64)%nat) in *.
  assert (Hm : length m = (64 * q + k)%nat) by apply Nat.div_mod_eq.
  assert (Hk : (k < 64)%nat) by (apply Nat.mod_upper_bound; lia).
  set (n := Nat.min (64 - k) (length (b :: p))).
  assert (Hn : (1 ≤ n ≤ 64 - k ∧ n ≤ length (b :: p))%nat) by (unfold n; cbn [length]; lia).
  assert (Hln : length (take n (b :: p)) = n) by (rewrite length_take; lia).
  destruct (memcpy_spec (buf s) k (take n (b :: p)) Hb ltac:(lia)) as [Hlb Htb].
  rewrite Hln in Htb.
  assert (Hstep : absorbed (if Z.of_nat k + Z.of_nat n =? 64
    then mkSha (process (h s) (memcpy (buf s) k (take n (b :: p)))) (len s)
           (memcpy (buf s) k (take n (b :: p))) 0
    else mkSha (h s) (len s) (memcpy (buf s) k (take n (b :: p))) (Z.of_nat k + Z.of_nat n))
    (m ++ take n (b :: p))).
  { destruct (Z.eqb_spec (Z.of_nat k + Z.of_nat n) 64) as [E|E].
    - assert (Hl : length (m ++ take n (b :: p)) = (64 * S q + 0)%nat) by (rewrite length_app; lia).
      assert (Hq' : (length (m ++ take n (b :: p)) / 64)%nat = S q) by (rewrite Hl; symmetry; apply (Nat.div_unique _ _ _ 0); lia).
      assert (Hk' : (length (m ++ take n (b :: p)) mod 64)%nat = 0%nat) by (rewrite Hl; symmetry; apply (Nat.mod_unique _ _ (S q)); lia).
      split; rewrite ?Hq', ?Hk'; cbn [h ptr buf]; [|done|done|].
      + rewrite blocks_S, blocks_app, Hh by lia. f_equal. unfold block.
        rewrite drop_app_le by lia. rewrite <- Hr, <- Htb.
        replace (k + n)%nat with 64%nat by lia.
        rewrite take_take, Nat.min_id, (take_ge (memcpy _ _ _) 64); [done|lia].
      + rewrite drop_ge by lia. done.
    - assert (Hl : length (m ++ take n (b :: p)) = (64 * q + (k + n))%nat) by (rewrite length_app; lia).
      assert (Hq' : (length (m ++ take n (b :: p)) / 64)%nat = q) by (rewrite Hl; symmetry; apply (Nat.div_unique _ _ _ (k + n)); lia).
      assert (Hk' : (length (m ++ take n (b :: p)) mod 64)%nat = (k + n)%nat) by (rewrite Hl; symmetry; apply (Nat.mod_unique _ _ q); lia).
      split; rewrite ?Hq', ?Hk'; cbn [h ptr buf]; [|lia|done|].
      + by rewrite blocks_app, Hh by lia.
      + by rewrite Htb, drop_app_le, Hr by lia. }
  assert (Hlen : ∀ c : bool, len (if c
    then mkSha (process (h s) (memcpy (buf s) k (take n (b :: p)))) (len s)
           (memcpy (buf s) k (take n (b :: p))) 0
    else mkSha (h s) (len s) (memcpy (buf s) k (take n (b :: p))) (Z.of_nat k + Z.of_nat n)) = len s)
    by (by intros []).
  destruct (IH _ _ (drop n (b :: p)) Hstep) as [IH1 IH2].
  { rewrite length_drop. cbn [length] in *. lia. }
  rewrite <- app_assoc, take_drop in IH1. split; [exact IH1|]. by rewrite IH2.
Qed.

Lemma update_spec s m d : absorbed s m → absorbed (update s d) (m ++ d) ∧
  len (update s d) = u64 (len s + Z.of_nat (length d)).
Proof.
  intros [????]. unfold update.
  destruct (update_loop_spec (S (length d))
    (mkSha (h s) (u64 (len s + Z.of_nat (length d))) (buf s) (ptr s)) m d) as [H1 H2];
    [by split|lia|]. by split.
Qed.

(** The padding loop stops, at the 56th byte of a block. *)
Lemma pad_zeros_spec fuel s m :
  absorbed s m → ((120 - length m mod 64) mod 64 < fuel)%nat →
  absorbed (pad_zeros fuel s) (m ++ replicate ((120 - length m mod 64) mod 64) 0).
Proof.
  revert s m. induction fuel as [|fuel IH]; intros s m Ha Hf; [lia|]. cbn [pad_zeros].
  assert (Hk : (length m mod 64 < 64)%nat) by (apply Nat.mod_upper_bound; lia).
  rewrite (abs_ptr _ _ Ha). destruct (Z.eqb_spec (Z.of_nat (length m mod 64)) 56) as [E|E].
  - replace (length m mod 64)%nat with 56%nat by lia. cbn. by rewrite app_nil_r.
  - destruct (update_spec s m [0] Ha) as [Ha' _]. specialize (IH _ _ Ha').
    rewrite length_app in IH. cbn [length] in IH.
    assert (Hj : S ((120 - (length m + 1) mod 64) mod 64) = ((120 - length m mod 64) mod 64)%nat).
    { clear - E Hk. rewrite Nat.Div0.add_mod. set (k := (length m mod 64)%nat) in *.
      clearbody k. do 64 (destruct k as [|k]; [done || (cbn in E; lia)|]). lia. }
    rewrite <- Hj. cbn [replicate]. rewrite <- app_assoc in IH. apply IH. lia.
Qed.

Lemma be64_length x : length (be64 x) = 8%nat.
Proof. reflexivity. Qed.

(** [finish] computes the digest of the padded message. *)
Lemma finish_spec s m : absorbed s m → len s = u64 (Z.of_nat (length m)) → finish s = sha256 m.
Proof.
  intros Ha Hl. unfold finish. destruct (update_spec s m [0x80] Ha) as [Ha1 _].
  assert (Hk : ∀ n : nat, (n mod 64 < 64)%nat) by (intros; apply Nat.mod_upper_bound; lia).
  apply (pad_zeros_spec 64) in Ha1; [|apply Hk].
  destruct (update_spec _ _ (be64 (u64 (len s * 8))) Ha1) as [Ha2 _].
  assert (E : (m ++ [0x80]) ++ replicate ((120 - length (m ++ [0x80]) mod 64) mod 64) 0 ++
    be64 (u64 (len s * 8)) = padded m).
  { unfold padded. rewrite <- app_assoc. do 2 f_equal. f_equal.
    - f_equal. rewrite length_app. cbn [length]. rewrite Nat.Div0.add_mod. specialize (Hk (length m)).
      generalize dependent (length m mod 64)%nat. clear. intros k Hk.
      do 64 (destruct k as [|k]; [done|]). lia.
    - f_equal. rewrite Hl. word_lia. }
  rewrite <- app_assoc, E in Ha2. unfold sha256. by rewrite <- (abs_h _ _ Ha2).
Qed.

(** Chunked input: the digest depends on the bytes only. *)
Lemma foldl_update_spec s m ds : absorbed s m → len s = u64 (Z.of_nat (length m)) →
  absorbed (foldl update s ds) (m ++ concat ds) ∧
  len (foldl update s ds) = u64 (Z.of_nat (length (m ++ concat ds))).
Proof.
  revert s m. induction ds as [|d ds IH]; intros s m Ha Hl; cbn [foldl concat].
  - by rewrite app_nil_r.
  - destruct (update_spec s m d Ha) as [Ha' Hl']. rewrite app_assoc. apply IH; [done|].
    rewrite Hl', Hl, length_app. word_lia.
Qed.

End ShaSpec.

(** ** The sponge, byte by byte *)

Module ShakeSpec.
Import Shake.

#[local] Opaque keccakf.

Definition sponge_ok (s : Shake256) : Prop := rate s = 136 ∧ 0 ≤ pos s ≤ 136.

Definition absorb_byte (s : Shake256) (b : Z) : Shake256 :=
  let s := turn s in mkShake (xor_byte (st s) (pos s) b) (rate s) (pos s + 1) (squeezing s).

Definition squeeze_byte (s : Shake256) : Z * Shake256 :=
  let s := turn s in (get_byte (st s) (pos s), mkShake (st s) (rate s) (pos s + 1) (squeezing s)).

Fixpoint squeeze_bytes (n : nat) (s : Shake256) : list Z * Shake256 :=
  match n with
  | O => ([], s)
  | S n => let '(b, s) := squeeze_byte s in let '(bs, s) := squeeze_bytes n s in (b :: bs, s)
  end.

Lemma turn_ok s : sponge_ok s → sponge_ok (turn s) ∧ pos (turn s) < 136.
Proof.
  intros [Hr Hp]. unfold turn. destruct (Z.eqb_spec (pos s) (rate s)); [done|].
  split; [done|lia].
Qed.

Lemma turn_id s : pos s < rate s → turn s = s.
Proof. intros. unfold turn. destruct (Z.eqb_spec (pos s) (rate s)); [lia|done]. Qed.

Lemma turn_turn s : sponge_ok s → turn (turn s) = turn s.
Proof. intros Hs. destruct (turn_ok s Hs) as [[Hr _] Hp]. apply turn_id. lia. Qed.

Lemma absorb_byte_turn s b : sponge_ok s → absorb_byte (turn s) b = absorb_byte s b.
Proof. intros. unfold absorb_byte. by rewrite turn_turn. Qed.

Lemma absorb_byte_ok s b : sponge_ok s → sponge_ok (absorb_byte s b).
Proof.
  intros Hs. destruct (turn_ok s Hs) as [[Hr Hp0] Hp]. split; cbn [absorb_byte rate pos]; [done|lia].
Qed.

(** One [memcpy]-like pass of the loop is a run of single bytes. *)
Lemma absorb_chunk st0 r p q l :
  p + Z.of_nat (length l) ≤ r →
  foldl absorb_byte (mkShake st0 r p q) l =
  mkShake (xor_bytes st0 p l) r (p + Z.of_nat (length l)) q.
Proof.
  unfold xor_bytes. intros Hl.
  assert (H : ∀ k, foldl absorb_byte (mkShake st0 r (p + k) q) l =
    mkShake (foldl (λ st '(j, b), xor_byte st (p + j) b) st0 (zip (zseq k (length l)) l)) r
      (p + k + Z.of_nat (length l)) q ∨ r < p + k + Z.of_nat (length l)).
  { clear Hl. revert st0. induction l as [|b l IH]; intros st0 k; cbn [foldl length zseq zip zip_with].
    - left. f_equal. lia.
    - destruct (Z.le_gt_cases (p + k + Z.of_nat (S (length l))) r) as [H|H]; [left|by right].
      unfold absorb_byte at 2. rewrite turn_id by (cbn [pos rate]; lia). cbn [st pos rate squeezing].
      destruct (IH (xor_byte st0 (p + k) b) (k + 1)) as [E|E]; [|lia].
      rewrite <- Z.add_assoc, E. f_equal. lia. }
  destruct (H 0) as [E|E]; [|lia]. rewrite Z.add_0_r in E. exact E.
Qed.

Lemma absorb_loop_bytes fuel s l : sponge_ok s → (length l < fuel)%nat →
  absorb_loop fuel s l = foldl absorb_byte s l.
Proof.
  revert s l. induction fuel as [|fuel IH]; intros s l Hs Hf; [lia|].
  cbn [absorb_loop]. destruct l as [|b l]; [done|].
  destruct (turn_ok s Hs) as [[Hr Hp0] Hp].
  set (n := Nat.min _ (length (b :: l))).
  assert (Hn : (1 ≤ n ≤ Z.to_nat (136 - pos (turn s)) ∧ n ≤ length (b :: l))%nat)
    by (unfold n; rewrite Hr; cbn [length]; lia).
  assert (Hln : length (take n (b :: l)) = n) by (rewrite length_take; lia).
  assert (E : foldl absorb_byte s (take n (b :: l)) =
    mkShake (xor_bytes (st (turn s)) (pos (turn s)) (take n (b :: l))) (rate (turn s))
      (pos (turn s) + Z.of_nat n) (squeezing (turn s))).
  { transitivity (foldl absorb_byte (turn s) (take n (b :: l))).
    - destruct n as [|n]; [lia|]. cbn [take foldl]. by rewrite absorb_byte_turn.
    - replace (Z.of_nat n) with (Z.of_nat (length (take n (b :: l)))) by lia. rewrite <- absorb_chunk by (rewrite Hln; lia). by destruct (turn s). }
  rewrite <- E, IH.
  - by rewrite <- foldl_app, take_drop.
  - rewrite E. split; cbn [rate pos]; lia.
  - rewrite length_drop. cbn [length] in *. lia.
Qed.

Lemma absorb_bytes s l : sponge_ok s → squeezing s = false →
  absorb s l = Some (foldl absorb_byte s l).
Proof. intros Hs Hq. unfold absorb. rewrite Hq, absorb_loop_bytes; [done|done|lia]. Qed.

Lemma foldl_absorb_ok s l : sponge_ok s →
  sponge_ok (foldl absorb_byte s l) ∧ squeezing (foldl absorb_byte s l) = squeezing s.
Proof.
  revert s. induction l as [|b l IH]; intros s Hs; [done|]. cbn [foldl].
  destruct (IH _ (absorb_byte_ok s b Hs)) as [H1 ->]. split; [done|]. cbn [absorb_byte squeezing].
  unfold turn. by case_match.
Qed.

Lemma squeeze_bytes_add n m s :
  squeeze_bytes (n + m) s =
  let '(x, s1) := squeeze_bytes n s in let '(y, s2) := squeeze_bytes m s1 in (x ++ y, s2).
Proof.
  revert s. induction n as [|n IH]; intros s; cbn [Nat.add squeeze_bytes app].
  - by destruct (squeeze_bytes m s).
  - destruct (squeeze_byte s) as [b s1]. rewrite IH. destruct (squeeze_bytes n s1) as [x s2].
    by destruct (squeeze_bytes m s2).
Qed.

Lemma squeeze_chunk n st0 r p q : p + Z.of_nat n ≤ r →
  squeeze_bytes n (mkShake st0 r p q) =
  ((λ j, get_byte st0 (p + j)) <$> zseq 0 n, mkShake st0 r (p + Z.of_nat n) q).
Proof.
  assert (H : ∀ k, p + k + Z.of_nat n ≤ r → squeeze_bytes n (mkShake st0 r (p + k) q) =
    ((λ j, get_byte st0 (p + j)) <$> zseq k n, mkShake st0 r (p + k + Z.of_nat n) q)).
  { induction n as [|n IH]; intros k Hk; cbn [squeeze_bytes zseq].
    - do 2 f_equal. lia.
    - unfold squeeze_byte. rewrite turn_id by (cbn [pos rate]; lia). cbn [st pos rate squeezing].
      rewrite <- Z.add_assoc, IH by lia. do 2 f_equal. lia. }
  intros Hr. rewrite <- (Z.add_0_r p) at 1. rewrite H by lia. do 2 f_equal. lia.
Qed.

Lemma squeeze_bytes_turn n s : sponge_ok s → (0 < n)%nat →
  squeeze_bytes n (turn s) = squeeze_bytes n s.
Proof.
  intros Hs Hn. destruct n as [|n]; [lia|]. cbn [squeeze_bytes]. unfold squeeze_byte.
  by rewrite turn_turn.
Qed.

Lemma squeeze_loop_bytes fuel s n : sponge_ok s → (n < fuel)%nat →
  squeeze_loop fuel s n = squeeze_bytes n s.
Proof.
  revert s n. induction fuel as [|fuel IH]; intros s n Hs Hf; [lia|].
  cbn [squeeze_loop]. destruct n as [|n0]; [done|]. set (n := S n0) in *.
  destruct (turn_ok s Hs) as [[Hr Hp0] Hp].
  set (k := Nat.min _ n).
  assert (Hk : (1 ≤ k ≤ Z.to_nat (136 - pos (turn s)) ∧ k ≤ n)%nat)
    by (unfold k; rewrite Hr; unfold n; lia).
  rewrite IH by (split; cbn [rate pos]; lia) || lia.
  replace n with (k + (n - k))%nat at 2 by lia. rewrite squeeze_bytes_add.
  rewrite <- (squeeze_bytes_turn k s) by (done || lia).
  replace (squeeze_bytes k (turn s)) with
    ((λ j, get_byte (st (turn s)) (pos (turn s) + j)) <$> zseq 0 k,
     mkShake (st (turn s)) (rate (turn s)) (pos (turn s) + Z.of_nat k) (squeezing (turn s))); [done|].
  rewrite <- squeeze_chunk by lia. by destruct (turn s).
Qed.

Lemma squeeze_bytes_ok n s : sponge_ok s →
  let s' := snd (squeeze_bytes n s) in
  sponge_ok s' ∧ squeezing s' = squeezing s ∧ length (fst (squeeze_bytes n s)) = n.
Proof.
  revert s. induction n as [|n IH]; intros s Hs; [done|]. cbn [squeeze_bytes].
  destruct (turn_ok s Hs) as [[Hr Hp0] Hp].
  destruct (squeeze_byte s) as [b s1] eqn:E. unfold squeeze_byte in E. injection E as <- <-.
  set (s1 := mkShake _ _ _ _).
  assert (H1 : sponge_ok s1) by (split; cbn [s1 rate pos]; lia).
  specialize (IH s1 H1). destruct (squeeze_bytes n s1) as [bs s2]. cbn [fst snd length] in *.
  destruct IH as (Ha & Hb & Hc). split_and!; [apply Ha..| |lia].
  rewrite Hb. unfold s1. cbn [squeezing]. unfold turn. by case_match.
Qed.

Lemma pad_ok s : rate s = 136 → sponge_ok (pad s) ∧ squeezing (pad s) = true.
Proof. intros Hr. unfold pad. cbn. split; [split; cbn [rate pos]; lia|done]. Qed.

Lemma squeeze_spec s n : sponge_ok s →
  squeeze s n = squeeze_bytes n (if squeezing s then s else pad s).
Proof.
  intros Hs. unfold squeeze. apply squeeze_loop_bytes; [|lia].
  destruct (squeezing s); [done|]. apply pad_ok, Hs.
Qed.

End ShakeSpec.

(** ** Digests *)

Lemma process_length h p : length (Sha.process h p) = length h.
Proof.
  unfold Sha.process. do 8 (destruct h as [|? h]; [done|]). destruct h; [|done].
  by destruct (foldl _ _ _) as [[[[[[[? ?] ?] ?] ?] ?] ?] ?].
Qed.

Lemma update_length s d : length (Sha.h (Sha.update s d)) = length (Sha.h s).
Proof.
  unfold Sha.update. assert (G : ∀ n s p, length (Sha.h (Sha.update_loop n s p)) = length (Sha.h s)); [|by rewrite G].
  clear. induction n as [|n IH]; intros s p; [done|]. cbn [Sha.update_loop]. destruct p; [done|]. cbv zeta. rewrite IH.
  destruct (_ =? 64); [|done]. cbn [Sha.h]. apply process_length.
Qed.

(** A digest is as long as the state. *)
Lemma finish_length s : length (Sha.h s) = 8%nat → length (Sha.finish s) = 32%nat.
Proof.
  intros Hs. unfold Sha.finish. cbv zeta. set (s' := Sha.update (Sha.pad_zeros _ _) _).
  assert (Hl : length (Sha.h s') = 8%nat).
  { unfold s'. rewrite update_length.
    assert (G : ∀ n s, length (Sha.h (Sha.pad_zeros n s)) = length (Sha.h s)); [|by rewrite G, update_length].
    clear. induction n as [|n IH]; intros s; [done|]. cbn [Sha.pad_zeros]. destruct (_ =? 56); [done|]. by rewrite IH, update_length. }
  clearbody s'. unfold Sha.digest. revert Hl. generalize (Sha.h s'). intros l Hl.
  do 8 (destruct l as [|? l]; [done|]). by destruct l.
Qed.

Lemma digest_bytes h : bytes (Sha.digest h).
Proof.
  unfold Sha.digest. apply Forall_bind, Forall_forall. intros x _.
  repeat constructor; rewrite (land_low _ 8 0xFF) by done; apply Z.mod_pos_bound; done.
Qed.

Lemma finish_bytes s : bytes (Sha.finish s).
Proof. apply digest_bytes. Qed.

(** ** Properties *)

(** C36. Streaming SHA-256 is SHA-256: whatever the initial contents of the
    buffer and however a message is cut into [update] calls, [finish] terminates
    with the digest of the padded message. *)
Theorem sha256_streaming (garbage : list Z) (chunks : list (list Z))
  (Hbuf : length garbage = 64%nat) :
  Sha.finish (foldl Sha.update (Sha.init garbage) chunks) = ShaSpec.sha256 (concat chunks).
Proof.
  destruct (ShaSpec.foldl_update_spec (Sha.init garbage) [] chunks) as [H1 H2];
    [by apply ShaSpec.init_absorbed|done|].
  by apply ShaSpec.finish_spec.
Qed.

Lemma sha256_streaming_witness :
  Sha.finish (foldl Sha.update (Sha.init (replicate 64 7)) [[97]; []; [98; 99]])
  = ShaSpec.sha256 [97; 98; 99].
Proof. apply (sha256_streaming (replicate 64 7) [[97]; []; [98; 99]]). reflexivity. Defined.

(** The sponge sees a stream: absorbing two chunks is absorbing their
    concatenation, squeezing twice is squeezing once, and [absorb] after
    [squeeze] aborts. *)
Theorem shake256_streaming (s : Shake.Shake256) (a b : list Z) (n m : nat)
  (Hs : ShakeSpec.sponge_ok s) :
  Shake.absorb s (a ++ b) = (Shake.absorb s a ≫= λ s, Shake.absorb s b) ∧
  Shake.squeeze s (n + m) =
    (let '(x, s1) := Shake.squeeze s n in
     let '(y, s2) := Shake.squeeze s1 m in (x ++ y, s2)) ∧
  Shake.absorb (snd (Shake.squeeze s n)) a = None ∧
  length (fst (Shake.squeeze s n)) = n.
Proof.
  set (t := if Shake.squeezing s then s else Shake.pad s).
  assert (Ht : ShakeSpec.sponge_ok t ∧ Shake.squeezing t = true).
  { unfold t. destruct (Shake.squeezing s) eqn:E; [done|]. apply ShakeSpec.pad_ok, Hs. }
  destruct Ht as [Ht Hq].
  destruct (ShakeSpec.squeeze_bytes_ok n t Ht) as (H1 & H2 & H3). rewrite Hq in H2.
  assert (En : Shake.squeeze s n = ShakeSpec.squeeze_bytes n t) by (by apply ShakeSpec.squeeze_spec).
  split_and!.
  - destruct (Shake.squeezing s) eqn:E; [unfold Shake.absorb; by rewrite E|].
    rewrite !ShakeSpec.absorb_bytes by done. cbn [mbind option_bind].
    destruct (ShakeSpec.foldl_absorb_ok s a Hs) as [Ha Hb]. rewrite E in Hb.
    rewrite ShakeSpec.absorb_bytes by done. by rewrite foldl_app.
  - rewrite En, ShakeSpec.squeeze_spec by done. fold t. rewrite ShakeSpec.squeeze_bytes_add.
    destruct (ShakeSpec.squeeze_bytes n t) as [x s1]. cbn [snd] in *.
    rewrite ShakeSpec.squeeze_spec by done. by rewrite H2.
  - rewrite En. unfold Shake.absorb. by rewrite H2.
  - by rewrite En.
Qed.

Lemma shake256_streaming_witness :
  Shake.absorb Shake.init ([1] ++ [2]) = (Shake.absorb Shake.init [1] ≫= λ s, Shake.absorb s [2]).
Proof. apply (shake256_streaming Shake.init [1] [2] 0 0). split; cbn; lia. Defined.
