(* ===== verification/Rng.v ===== *)
(** * Random sources: the system generator, AES-256 in counter mode

    [core/random.hpp], the [AesCtr256] of [crypto/lpn.hpp] (the AES-NI build) and
    [core/seedable_rng.hpp].  A source is a state threaded through [M], which adds
    the exceptions and the cut-off of the rejection loops.  [Rng] is what the
    encryption code asks of a source; the two sources of the code implement it. *)

From S2P Require Import Prelude Field Hash.

(** ** Stateful computations *)

Definition M (G A : Type) : Type := G → res (A * G).

#[export] Instance M_ret {G} : MRet (M G) := fun A a g => Ok (a, g).
#[export] Instance M_bind {G} : MBind (M G) := fun A B f m g =>
  match m g with Ok (a, g) => f a g | Throw e => Throw e | OutOfFuel => OutOfFuel end.

Definition lift {G A} (r : res A) : M G A := λ g, a ← r; Ok (a, g).

Lemma M_bind_Ok {G A B} (m : M G A) (f : A → M G B) g b g' :
  (m ≫= f) g = Ok (b, g') → ∃ a g1, m g = Ok (a, g1) ∧ f a g1 = Ok (b, g').
Proof. unfold mbind, M_bind. destruct (m g) as [[a g1]| |]; [eauto|discriminate..]. Qed.

(** The turns a rejection loop may take in the model. *)
Class Fuel := fuel : nat.

(** [for (;;) { x = draw(); if (p(x)) return x; }] *)
Fixpoint reject_loop {G A} (n : nat) (draw : M G A) (p : A → bool) : M G A :=
  match n with
  | O => λ _, OutOfFuel
  | S n => x ← draw; if p x then mret x else reject_loop n draw p
  end.

Definition reject {F : Fuel} {G A} (draw : M G A) (p : A → bool) : M G A := reject_loop fuel draw p.

(** [for (i = 0; i < n; i++) out.push_back(draw());] *)
Fixpoint replicateM {G A} (n : nat) (m : M G A) : M G (list A) :=
  match n with O => mret [] | S n => x ← m; xs ← replicateM n m; mret (x :: xs) end.

Fixpoint mapM' {G A B} (f : A → M G B) (l : list A) : M G (list B) :=
  match l with [] => mret [] | x :: l => y ← f x; ys ← mapM' f l; mret (y :: ys) end.

(** ** What the encryption code asks of a source *)

Class Rng (G : Type) := {
  rng_u64 : M G Z;
  rng_bounded : Z → M G Z }.

Class RngLaws (G : Type) `{Rng G} := {
  rng_u64_total g : ∃ x g', rng_u64 g = Ok (x, g');
  rng_u64_word g x g' : rng_u64 g = Ok (x, g') → word 64 x;
  rng_bounded_range m g x g' : 0 < m → rng_bounded m g = Ok (x, g') → 0 ≤ x < m;
  rng_bounded_no_throw m g e : rng_bounded m g ≠ Throw e }.

(** ** The system generator

    Its bytes are whatever the kernel returns: a tape, read from [at_]. *)

Module Os.

Record Csprng := mkCsprng { tape : nat → Z; at_ : nat }.

Definition csprng_bytes (n : nat) : M Csprng (list Z) :=
  λ g, Ok ((λ i, u8 (tape g i)) <$> seq (at_ g) n, mkCsprng (tape g) (at_ g + n)).

Definition csprng_u64 : M Csprng Z := b ← csprng_bytes 8; mret (load_le64 b).

(** [csprng_u64() % B], as every caller bounds it. *)
#[global] Instance csprng_rng : Rng Csprng := {
  rng_u64 := csprng_u64;
  rng_bounded B := x ← csprng_u64; mret (x mod B) }.

End Os.

(** ** AES *)

Module Aes.

(** *** The [__m128i] intrinsics the code uses, as documented: 16 bytes, the
    least significant first. *)

Definition block := list Z.

Definition sbox : list Z := [
  0x63; 0x7c; 0x77; 0x7b; 0xf2; 0x6b; 0x6f; 0xc5; 0x30; 0x01; 0x67; 0x2b; 0xfe; 0xd7; 0xab; 0x76;
  0xca; 0x82; 0xc9; 0x7d; 0xfa; 0x59; 0x47; 0xf0; 0xad; 0xd4; 0xa2; 0xaf; 0x9c; 0xa4; 0x72; 0xc0;
  0xb7; 0xfd; 0x93; 0x26; 0x36; 0x3f; 0xf7; 0xcc; 0x34; 0xa5; 0xe5; 0xf1; 0x71; 0xd8; 0x31; 0x15;
  0x04; 0xc7; 0x23; 0xc3; 0x18; 0x96; 0x05; 0x9a; 0x07; 0x12; 0x80; 0xe2; 0xeb; 0x27; 0xb2; 0x75;
  0x09; 0x83; 0x2c; 0x1a; 0x1b; 0x6e; 0x5a; 0xa0; 0x52; 0x3b; 0xd6; 0xb3; 0x29; 0xe3; 0x2f; 0x84;
  0x53; 0xd1; 0x00; 0xed; 0x20; 0xfc; 0xb1; 0x5b; 0x6a; 0xcb; 0xbe; 0x39; 0x4a; 0x4c; 0x58; 0xcf;
  0xd0; 0xef; 0xaa; 0xfb; 0x43; 0x4d; 0x33; 0x85; 0x45; 0xf9; 0x02; 0x7f; 0x50; 0x3c; 0x9f; 0xa8;
  0x51; 0xa3; 0x40; 0x8f; 0x92; 0x9d; 0x38; 0xf5; 0xbc; 0xb6; 0xda; 0x21; 0x10; 0xff; 0xf3; 0xd2;
  0xcd; 0x0c; 0x13; 0xec; 0x5f; 0x97; 0x44; 0x17; 0xc4; 0xa7; 0x7e; 0x3d; 0x64; 0x5d; 0x19; 0x73;
  0x60; 0x81; 0x4f; 0xdc; 0x22; 0x2a; 0x90; 0x88; 0x46; 0xee; 0xb8; 0x14; 0xde; 0x5e; 0x0b; 0xdb;
  0xe0; 0x32; 0x3a; 0x0a; 0x49; 0x06; 0x24; 0x5c; 0xc2; 0xd3; 0xac; 0x62; 0x91; 0x95; 0xe4; 0x79;
  0xe7; 0xc8; 0x37; 0x6d; 0x8d; 0xd5; 0x4e; 0xa9; 0x6c; 0x56; 0xf4; 0xea; 0x65; 0x7a; 0xae; 0x08;
  0xba; 0x78; 0x25; 0x2e; 0x1c; 0xa6; 0xb4; 0xc6; 0xe8; 0xdd; 0x74; 0x1f; 0x4b; 0xbd; 0x8b; 0x8a;
  0x70; 0x3e; 0xb5; 0x66; 0x48; 0x03; 0xf6; 0x0e; 0x61; 0x35; 0x57; 0xb9; 0x86; 0xc1; 0x1d; 0x9e;
  0xe1; 0xf8; 0x98; 0x11; 0x69; 0xd9; 0x8e; 0x94; 0x9b; 0x1e; 0x87; 0xe9; 0xce; 0x55; 0x28; 0xdf;
  0x8c; 0xa1; 0x89; 0x0d; 0xbf; 0xe6; 0x42; 0x68; 0x41; 0x99; 0x2d; 0x0f; 0xb0; 0x54; 0xbb; 0x16 ].

Definition sub_byte (b : Z) : Z := nth (Z.to_nat b) sbox 0.
Definition byte_at (x : block) (i : nat) : Z := nth i x 0.
Definition dword (x : block) (i : nat) : list Z := take 4 (drop (4 * i) x).

Definition mm_xor (x y : block) : block := zip_with Z.lxor x y.
Definition mm_slli4 (x : block) : block := [0; 0; 0; 0] ++ take 12 x.
(** [_mm_shuffle_epi32] with all four selectors equal to [i]. *)
Definition mm_bcast (i : nat) (x : block) : block :=
  dword x i ++ dword x i ++ dword x i ++ dword x i.

Definition sub_word (w : list Z) : list Z := sub_byte <$> w.
Definition rot_word (w : list Z) : list Z := drop 1 w ++ take 1 w.
Definition xor_rcon (w : list Z) (rcon : Z) : list Z :=
  match w with b :: bs => (b .^ rcon) :: bs | [] => [] end.

Definition mm_aeskeygenassist (x : block) (rcon : Z) : block :=
  let s1 := sub_word (dword x 1) in
  let s3 := sub_word (dword x 3) in
  s1 ++ xor_rcon (rot_word s1) rcon ++ s3 ++ xor_rcon (rot_word s3) rcon.

Definition shift_rows (x : block) : block :=
  (λ i : nat, byte_at x ((i mod 4) + 4 * ((i / 4 + i mod 4) mod 4))%nat) <$> seq 0 16.

Definition xtime (b : Z) : Z := u8 (wshl 8 b 1 .^ (if 128 <=? b then 0x1b else 0)).

Definition mix_column (c : list Z) : list Z :=
  match c with
  | [a; b; c; d] =>
      [xtime a .^ (xtime b .^ b) .^ c .^ d; a .^ xtime b .^ (xtime c .^ c) .^ d;
       a .^ b .^ xtime c .^ (xtime d .^ d); (xtime a .^ a) .^ b .^ c .^ xtime d]
  | _ => c
  end.

Definition mix_columns (x : block) : block :=
  mix_column (dword x 0) ++ mix_column (dword x 1) ++ mix_column (dword x 2) ++
  mix_column (dword x 3).

Definition mm_aesenc (t rk : block) : block :=
  mm_xor (mix_columns (sub_byte <$> shift_rows t)) rk.
Definition mm_aesenclast (t rk : block) : block :=
  mm_xor (sub_byte <$> shift_rows t) rk.

(** [_mm_set_epi64x(hi, lo)]; [_mm_add_epi64] adds the two halves apart. *)
Definition mm_set_epi64x (hi lo : Z) : block := store_le64 lo ++ store_le64 hi.
Definition mm_half (x : block) (i : nat) : Z := load_le64 (take 8 (drop (8 * i) x)).
Definition mm_add_epi64 (x y : block) : block :=
  mm_set_epi64x (u64 (mm_half x 1 + mm_half y 1)) (u64 (mm_half x 0 + mm_half y 0)).

(** *** [AesCtr256] *)

(** [buf] is kept as the 16 bytes [_mm_store_si128] writes. *)
Record AesCtr256 := mkAes { rk : list block; ctr : block; abuf : block; has_buf : bool }.

Definition key_expand (k t : block) : block :=
  let t := mm_bcast 3 t in
  let k := mm_xor k (mm_slli4 k) in
  let k := mm_xor k (mm_slli4 k) in
  let k := mm_xor k (mm_slli4 k) in
  mm_xor k t.

Definition key_expand2 (k1 k2 : block) : block :=
  let t := mm_aeskeygenassist k2 0 in
  let t := mm_bcast 2 t in
  let k1 := mm_xor k1 (mm_slli4 k1) in
  let k1 := mm_xor k1 (mm_slli4 k1) in
  let k1 := mm_xor k1 (mm_slli4 k1) in
  mm_xor k1 t.

Definition init (key : list Z) (nonce : Z) : AesCtr256 :=
  let k0 := take 16 key in
  let k1 := take 16 (drop 16 key) in
  let rk2 := key_expand k0 (mm_aeskeygenassist k1 0x01) in
  let rk3 := key_expand2 k1 rk2 in
  let rk4 := key_expand rk2 (mm_aeskeygenassist rk3 0x02) in
  let rk5 := key_expand2 rk3 rk4 in
  let rk6 := key_expand rk4 (mm_aeskeygenassist rk5 0x04) in
  let rk7 := key_expand2 rk5 rk6 in
  let rk8 := key_expand rk6 (mm_aeskeygenassist rk7 0x08) in
  let rk9 := key_expand2 rk7 rk8 in
  let rk10 := key_expand rk8 (mm_aeskeygenassist rk9 0x10) in
  let rk11 := key_expand2 rk9 rk10 in
  let rk12 := key_expand rk10 (mm_aeskeygenassist rk11 0x20) in
  let rk13 := key_expand2 rk11 rk12 in
  let rk14 := key_expand rk12 (mm_aeskeygenassist rk13 0x40) in
  mkAes [k0; k1; rk2; rk3; rk4; rk5; rk6; rk7; rk8; rk9; rk10; rk11; rk12; rk13; rk14]
    (mm_set_epi64x 0 nonce) (replicate 16 0) false.

Definition encrypt_ctr (a : AesCtr256) : block * AesCtr256 :=
  let k i := nth i (rk a) [] in
  let t := mm_xor (ctr a) (k 0%nat) in
  let t := foldl (λ t i, mm_aesenc t (k i)) t (seq 1 13) in
  let t := mm_aesenclast t (k 14%nat) in
  (t, mkAes (rk a) (mm_add_epi64 (ctr a) (mm_set_epi64x 0 1)) (abuf a) (has_buf a)).

Definition next_u64 (a : AesCtr256) : Z * AesCtr256 :=
  if has_buf a then (mm_half (abuf a) 1, mkAes (rk a) (ctr a) (abuf a) false)
  else
    let '(ct, a) := encrypt_ctr a in
    (mm_half ct 0, mkAes (rk a) (ctr a) ct true).

(** [for (; i + 1 < n; i += 2)]: [k] words are left to write. *)
Fixpoint fill_pairs (fuel : nat) (k : nat) (a : AesCtr256) : list Z * AesCtr256 :=
  match fuel, k with
  | S fuel, S (S k) =>
      let '(ct, a) := encrypt_ctr a in
      let '(rest, a) := fill_pairs fuel k a in
      (mm_half ct 0 :: mm_half ct 1 :: rest, a)
  | S _, S O =>
      let '(ct, a) := encrypt_ctr a in
      ([mm_half ct 0], mkAes (rk a) (ctr a) ct true)
  | _, _ => ([], a)
  end.

Definition fill_u64 (n : nat) (a : AesCtr256) : list Z * AesCtr256 :=
  if has_buf a && (0 <? n)%nat then
    let '(rest, a') := fill_pairs n (n - 1) (mkAes (rk a) (ctr a) (abuf a) false) in
    (mm_half (abuf a) 1 :: rest, a')
  else fill_pairs n n a.

Definition aes_u64 : M AesCtr256 Z := λ a, Ok (next_u64 a).

(** The rejection test is strict here, unlike in [XofShake::bounded]. *)
Definition bounded {F : Fuel} (m : Z) : M AesCtr256 Z :=
  if m <=? 1 then mret 0
  else
    let lim := UINT64_MAX - UINT64_MAX mod m in
    x ← reject aes_u64 (λ x, x <? lim); mret (x mod m).

End Aes.

(** FIPS 197, appendix C.3. *)
Example aes256_fips197 :
  fst (Aes.encrypt_ctr
    (let a := Aes.init (zseq 0 32) 0 in
     Aes.mkAes (Aes.rk a)
       [0x00; 0x11; 0x22; 0x33; 0x44; 0x55; 0x66; 0x77; 0x88; 0x99; 0xaa; 0xbb; 0xcc; 0xdd; 0xee; 0xff]
       [] false)) =
  [0x8e; 0xa2; 0xb7; 0xca; 0x51; 0x67; 0x45; 0xbf; 0xea; 0xfc; 0x49; 0x90; 0x4b; 0x49; 0x60; 0x89].
Proof. vm_compute. reflexivity. Qed.

(** ** [SeedableRng], and the draws the two sources share *)

Definition make_seeded_rng (seed : list Z) : Aes.AesCtr256 := Aes.init seed 0.

#[export] Instance seedable_rng {F : Fuel} : Rng Aes.AesCtr256 := {
  rng_u64 := Aes.aes_u64;
  rng_bounded := Aes.bounded }.

Section Draws.
Context {F : Fuel} {G} `{Rng G}.

Definition fp_nonzero_bool (x : Fp) : bool := negb (lo x =? 0) || negb (hi x =? 0).

(** [rand_fp_nonzero], [SeedableRng::fp_nonzero] *)
Definition rand_fp_nonzero : M G Fp :=
  reject (lo ← rng_u64; hi ← rng_u64; mret (fp_from_words lo (hi .& MASK63))) fp_nonzero_bool.

Record Nonce128 : Set := mkNonce { n_lo : Z; n_hi : Z }.

(** [make_nonce128], [SeedableRng::nonce128]: brace initialisation draws in order. *)
Definition make_nonce128 : M G Nonce128 := lo ← rng_u64; hi ← rng_u64; mret (mkNonce lo hi).

Definition rng_bit : M G Z := x ← rng_u64; mret (x .& 1).

End Draws.

(** ** Lemmas *)

Lemma load_le64_word p : word 64 (load_le64 p).
Proof.
  unfold load_le64. assert (Hw : ∀ l x, word 64 x →
    word 64 (foldl (λ x i, x .| wshl 64 (nth (Z.to_nat i) p 0) (8 * i)) x l)).
  { induction l as [|i l IH]; intros x Hx; [done|]. apply IH.
    apply word_bound_lor; [done|done|]. apply wrap_word. done. }
  apply Hw. done.
Qed.

Lemma reject_loop_Ok {G A} n (draw : M G A) p g x g' :
  reject_loop n draw p g = Ok (x, g') → p x = true ∧ ∃ g1, draw g1 = Ok (x, g').
Proof.
  revert g. induction n as [|n IH]; intros g; cbn [reject_loop]; [done|].
  intros (y & g1 & Hd & Hr)%M_bind_Ok. destruct (p y) eqn:Ep; [|by eapply IH].
  injection Hr as <- <-. eauto.
Qed.

(** A rejection loop returns the first accepted draw, when one is in reach. *)
Lemma reject_loop_first {G A} (draw : M G A) p g l x g' g1 k :
  replicateM (length l) draw g = Ok (l, g1) → Forall (λ y, p y = false) l →
  draw g1 = Ok (x, g') → p x = true → (length l < k)%nat →
  reject_loop k draw p g = Ok (x, g').
Proof.
  revert g k. induction l as [|y l IH]; intros g k Hl Hf Hd Hp Hk;
    destruct k as [|k]; cbn [length] in *; try lia; cbn [reject_loop].
  - cbn in Hl. injection Hl as ->. unfold mbind, M_bind. rewrite Hd, Hp. done.
  - cbn [replicateM] in Hl. apply M_bind_Ok in Hl as (z & g2 & Hz & Hl).
    apply M_bind_Ok in Hl as (l' & g3 & Hl' & E). injection E as -> -> ->.
    apply Forall_cons in Hf as [Hy Hf]. unfold mbind, M_bind. rewrite Hz, Hy.
    apply IH; [done..|lia].
Qed.

Lemma csprng_u64_eq g :
  Os.csprng_u64 g = Ok (load_le64 ((λ i, u8 (Os.tape g i)) <$> seq (Os.at_ g) 8),
                        Os.mkCsprng (Os.tape g) (Os.at_ g + 8)).
Proof. reflexivity. Qed.

#[export] Instance csprng_laws : RngLaws Os.Csprng.
Proof.
  split.
  - intros g. rewrite csprng_u64_eq. eauto.
  - intros g x g'. cbn. rewrite csprng_u64_eq. intros [= <- <-]. apply load_le64_word.
  - intros m g x g' Hm. cbn. intros (y & g1 & _ & [= <- <-])%M_bind_Ok. apply Z.mod_pos_bound. done.
  - intros m g e. cbn. unfold mbind, M_bind. by rewrite csprng_u64_eq.
Qed.

Lemma reject_loop_no_throw {G A} n (draw : M G A) p g e :
  (∀ g e, draw g ≠ Throw e) → reject_loop n draw p g ≠ Throw e.
Proof.
  intros Hd. revert g. induction n as [|n IH]; intros g; [done|]. cbn [reject_loop].
  unfold mbind, M_bind. destruct (draw g) as [[x g']| |] eqn:E; [|by apply Hd in E|done].
  destruct (p x); [done|apply IH].
Qed.

#[export] Instance seedable_laws {F : Fuel} : RngLaws Aes.AesCtr256.
Proof.
  split.
  - intros g. cbn. unfold Aes.aes_u64. destruct (Aes.next_u64 g). eauto.
  - intros g x g'. cbn. unfold Aes.aes_u64, Aes.next_u64. intros E.
    destruct (Aes.has_buf g); [|destruct (Aes.encrypt_ctr g)]; injection E as <- _;
      apply load_le64_word.
  - intros m g x g' Hm. cbn. unfold Aes.bounded. destruct (Z.leb_spec m 1).
    + intros [= <- _]. lia.
    + intros (y & g1 & _ & [= <- _])%M_bind_Ok. by apply Z.mod_pos_bound.
  - intros m g e. cbn. unfold Aes.bounded. destruct (m <=? 1); [done|].
    unfold mbind, M_bind. unfold reject.
    destruct (reject_loop _ _ _ g) as [[x g']| |] eqn:E; [done| |done].
    by apply reject_loop_no_throw in E.
Qed.

Section DrawLemmas.
Context {F : Fuel} {G} `{RngLaws G}.

Lemma fp_nonzero_bool_spec x : fp_ok x → fp_nonzero_bool x = true ↔ val x ≠ 0.
Proof.
  intros Hx%fp_ok_bounds. unfold fp_nonzero_bool, val.
  rewrite orb_true_iff, !negb_true_iff, !Z.eqb_neq. lia.
Qed.

Lemma rand_fp_nonzero_Ok g x g' : rand_fp_nonzero g = Ok (x, g') → fp_ok x ∧ val x ≠ 0.
Proof.
  intros [Hp (g1 & Hd)]%reject_loop_Ok.
  apply M_bind_Ok in Hd as (l & g2 & Hl & Hd). apply M_bind_Ok in Hd as (h & g3 & Hh & [= <- <-]).
  apply rng_u64_word in Hl, Hh.
  assert (Hm : word 64 (h .& MASK63)).
  { unfold MASK63. rewrite (land_low _ 63) by done. word_lia. }
  pose proof (rep_ok _ _ (rep_words _ _ Hl Hm)) as Hok.
  split; [done|]. by apply fp_nonzero_bool_spec.
Qed.

Lemma rng_bit_Ok g x g' : rng_bit g = Ok (x, g') → x = 0 ∨ x = 1.
Proof.
  intros (y & g1 & _ & [= <- <-])%M_bind_Ok. rewrite (land_low _ 1 1) by done. lia.
Qed.

End DrawLemmas.

(** ** [fill_u64] against [next_u64] *)

Module AesStream.
Import Aes.

#[local] Opaque encrypt_ctr.

(** States that differ in a buffer that will not be read. *)
Definition same (a b : AesCtr256) : Prop :=
  rk a = rk b ∧ ctr a = ctr b ∧ has_buf a = has_buf b ∧ (has_buf a = true → abuf a = abuf b).

#[export] Instance same_equiv : Equivalence same.
Proof.
  split.
  - intros a. by repeat split.
  - intros a b (H1 & H2 & H3 & H4). repeat split; [done..|]. intros Hb. symmetry. apply H4. congruence.
  - intros a b c (H1 & H2 & H3 & H4) (H5 & H6 & H7 & H8).
    repeat split; [congruence..|]. intros Hb. rewrite H4 by done. apply H8. congruence.
Qed.

Fixpoint next_n (n : nat) (a : AesCtr256) : list Z * AesCtr256 :=
  match n with
  | O => ([], a)
  | S n => let '(x, a) := next_u64 a in let '(xs, a) := next_n n a in (x :: xs, a)
  end.

Lemma encrypt_same a b : same a b →
  fst (encrypt_ctr a) = fst (encrypt_ctr b) ∧ rk (snd (encrypt_ctr a)) = rk (snd (encrypt_ctr b)) ∧
  ctr (snd (encrypt_ctr a)) = ctr (snd (encrypt_ctr b)).
Proof.
  Transparent encrypt_ctr. intros (H1 & H2 & _). unfold encrypt_ctr. cbn [fst snd rk ctr].
  by rewrite H1, H2.
Qed.
Opaque encrypt_ctr.

Lemma encrypt_keeps a : abuf (snd (encrypt_ctr a)) = abuf a ∧
  has_buf (snd (encrypt_ctr a)) = has_buf a.
Proof. done. Qed.

Lemma next_u64_same a b : same a b →
  fst (next_u64 a) = fst (next_u64 b) ∧ same (snd (next_u64 a)) (snd (next_u64 b)).
Proof.
  intros Hs. pose proof (encrypt_same a b Hs) as (H1 & H2 & H3).
  destruct Hs as (H4 & H5 & H6 & H7). unfold next_u64. rewrite <- H6.
  destruct (has_buf a).
  - cbn [fst snd]. rewrite H7 by done. split; [done|]. by repeat split.
  - destruct (encrypt_ctr a) as [ct a'], (encrypt_ctr b) as [ct' b']. cbn [fst snd] in *.
    subst ct'. split; [done|]. by repeat split.
Qed.

Lemma next_n_same n a b : same a b →
  fst (next_n n a) = fst (next_n n b) ∧ same (snd (next_n n a)) (snd (next_n n b)).
Proof.
  revert a b. induction n as [|n IH]; intros a b Hs; [done|]. cbn [next_n].
  destruct (next_u64_same a b Hs) as [H1 H2].
  destruct (next_u64 a) as [x a'], (next_u64 b) as [y b']. cbn [fst snd] in *. subst y.
  destruct (IH a' b' H2) as [H3 H4].
  destruct (next_n n a') as [xs a''], (next_n n b') as [ys b'']. cbn [fst snd] in *.
  split; [by f_equal|done].
Qed.

Lemma next_u64_full a : has_buf a = true →
  next_u64 a = (mm_half (abuf a) 1, mkAes (rk a) (ctr a) (abuf a) false).
Proof. intros Hb. unfold next_u64. by rewrite Hb. Qed.

Lemma next_u64_empty a : has_buf a = false →
  next_u64 a = (mm_half (fst (encrypt_ctr a)) 0,
    mkAes (rk (snd (encrypt_ctr a))) (ctr (snd (encrypt_ctr a))) (fst (encrypt_ctr a)) true).
Proof. intros Hb. unfold next_u64. rewrite Hb. by destruct (encrypt_ctr a). Qed.

Lemma fill_pairs_next fuel k a : (k ≤ fuel)%nat → has_buf a = false →
  fst (fill_pairs fuel k a) = fst (next_n k a) ∧
  same (snd (fill_pairs fuel k a)) (snd (next_n k a)).
Proof.
  revert k a. induction fuel as [|fuel IH]; intros [|[|k]] a Hk Hb; try (lia || done).
  - cbn [fill_pairs next_n]. rewrite next_u64_empty by done. by destruct (encrypt_ctr a).
  - cbn [fill_pairs next_n]. rewrite next_u64_empty by done.
    pose proof (encrypt_keeps a) as [_ Hkb]. rewrite Hb in Hkb.
    destruct (encrypt_ctr a) as [ct a1]. cbn [fst snd] in *.
    rewrite next_u64_full by done. cbn [abuf rk ctr].
    destruct (IH k a1 ltac:(lia) Hkb) as [H1 H2].
    destruct (next_n_same k a1 (mkAes (rk a1) (ctr a1) ct false)) as [H3 H4];
      [repeat split; [done|]; by rewrite Hkb|].
    destruct (fill_pairs fuel k a1) as [xs a2]. destruct (next_n k a1) as [ys a3].
    destruct (next_n k (mkAes _ _ ct false)) as [zs a4]. cbn [fst snd] in *. subst.
    split; [done|]. by rewrite H2.
Qed.

End AesStream.

(** [fill_u64] is a run of [next_u64]: same words, and an equivalent state,
    whether or not a word was waiting in the buffer and whatever the parity of
    the count. *)
Theorem fill_u64_stream (n : nat) (a : Aes.AesCtr256) :
  fst (Aes.fill_u64 n a) = fst (AesStream.next_n n a) ∧
  AesStream.same (snd (Aes.fill_u64 n a)) (snd (AesStream.next_n n a)) ∧
  ∀ m, fst (AesStream.next_n m (snd (Aes.fill_u64 n a))) =
       fst (AesStream.next_n m (snd (AesStream.next_n n a))).
Proof.
  assert (H1 : fst (Aes.fill_u64 n a) = fst (AesStream.next_n n a) ∧
    AesStream.same (snd (Aes.fill_u64 n a)) (snd (AesStream.next_n n a))).
  { unfold Aes.fill_u64. destruct (Aes.has_buf a) eqn:Eb; cbn [andb].
    - destruct n as [|n]; [done|]. cbn [Nat.ltb Nat.leb]. cbn [AesStream.next_n].
      rewrite AesStream.next_u64_full by done. replace (S n - 1)%nat with n by lia.
      destruct (AesStream.fill_pairs_next (S n) n
        (Aes.mkAes (Aes.rk a) (Aes.ctr a) (Aes.abuf a) false) ltac:(lia) eq_refl) as [H1 H2].
      destruct (Aes.fill_pairs (S n) n _) as [xs a1].
      destruct (AesStream.next_n n _) as [ys a2]. cbn [fst snd] in *. subst. by split.
    - by apply AesStream.fill_pairs_next. }
  destruct H1 as [H1 H2]. split; [done|]. split; [done|]. intros m.
  by apply AesStream.next_n_same.
Qed.
