(* ===== verification/CtSafe.v ===== *)
(** * Bit vectors and the branch-free toolkit: [core/bitvec.hpp], [core/ct_safe.hpp]

    A word type [W] of the templates is its width [w]: 8, 16, 32 or 64.  Each
    operation is shown equal to the comparison, selection or copy it replaces. *)

From S2P Require Import Prelude Field.

(** ** [BitVec] *)

Record BitVec : Set := mkBitVec { nbits : Z; bw : list Z }.

#[export] Instance BitVec_eq_dec : EqDecision BitVec.
Proof. solve_decision. Defined.

Definition bv_make (n : Z) : BitVec := mkBitVec n (replicate (Z.to_nat ((n + 63) / 64)) 0).

(** The first [min] words are combined, the others of [a] stay. *)
Definition xor_with (a b : BitVec) : BitVec :=
  let L := Nat.min (length (bw a)) (length (bw b)) in
  mkBitVec (nbits a) (zip_with Z.lxor (take L (bw a)) (take L (bw b)) ++ drop L (bw a)).

Definition popcount64 (x : Z) : Z := foldl (λ s i, s + b2z (Z.testbit x i)) 0 (zseq 0 64).

Definition popcnt (v : BitVec) : Z := foldl (λ s t, s + popcount64 t) 0 (bw v).

Definition parity64 (x : Z) : Z :=
  let x := x .^ (x ≫ 32) in
  let x := x .^ (x ≫ 16) in
  let x := x .^ (x ≫ 8) in
  let x := x .^ (x ≫ 4) in
  let x := x .& 0xF in
  (0x6996 ≫ x) .& 1.

(** ** Words *)

Module ct.

Section Words.
Variable w : Z.

Definition all : Z := wnot w 0.

Definition is_zero (x : Z) : Z := ((x .| wneg w x) ≫ (w - 1)) .^ 1.
Definition is_nonzero (x : Z) : Z := is_zero x .^ 1.
Definition eq (a b : Z) : Z := is_zero (a .^ b).
Definition neq (a b : Z) : Z := is_nonzero (a .^ b).
Definition lt (a b : Z) : Z := if a <? b then 1 else 0.
Definition gt (a b : Z) : Z := if b <? a then 1 else 0.
Definition le (a b : Z) : Z := if a <=? b then 1 else 0.
Definition ge (a b : Z) : Z := if b <=? a then 1 else 0.
Definition mask_from_bit (bit : Z) : Z := wneg w (bit .& 1).
Definition zero_mask (a : Z) : Z := mask_from_bit (is_zero a).
Definition nonzero_mask (a : Z) : Z := mask_from_bit (is_nonzero a).
Definition eq_mask (a b : Z) : Z := mask_from_bit (eq a b).
Definition neq_mask (a b : Z) : Z := mask_from_bit (neq a b).
Definition lt_mask (a b : Z) : Z := mask_from_bit (lt a b).
Definition gt_mask (a b : Z) : Z := mask_from_bit (gt a b).
Definition le_mask (a b : Z) : Z := mask_from_bit (le a b).
Definition ge_mask (a b : Z) : Z := mask_from_bit (ge a b).
Definition select (mask a b : Z) : Z := (a .& mask) .| (b .& wnot w mask).
Definition select_bit (cond a b : Z) : Z := select (mask_from_bit cond) a b.

(** [cswap] and [cswap_bit] return the two references. *)
Definition cswap (mask a b : Z) : Z * Z :=
  let t := mask .& (a .^ b) in (a .^ t, b .^ t).
Definition cswap_bit (cond a b : Z) : Z * Z := cswap (mask_from_bit cond) a b.

Definition min (a b : Z) : Z := select (lt_mask a b) a b.
Definition max (a b : Z) : Z := select (gt_mask a b) a b.
Definition abs_diff (a b : Z) : Z := select (lt_mask a b) (wrap w (b - a)) (wrap w (a - b)).
Definition clamp (x lo hi : Z) : Z := min (max x lo) hi.

Definition saturating_add (a b : Z) : Z :=
  let sum := wrap w (a + b) in
  let overflow := lt sum a in
  select (mask_from_bit overflow) all sum.

Definition saturating_sub (a b : Z) : Z :=
  let diff := wrap w (a - b) in
  let underflow := gt b a in
  select (mask_from_bit underflow) 0 diff.

(** [x >> bits] is undefined in C++ for 32 and 64 bits, and 0 for the promoted 8
    and 16: it is 0 here. *)
Definition rotate_left (x n : Z) : Z :=
  let n := n .& (w - 1) in wshl w x n .| (x ≫ (w - n)).
Definition rotate_right (x n : Z) : Z :=
  let n := n .& (w - 1) in (x ≫ n) .| wshl w x (w - n).

End Words.

(** ** Field elements, vectors, arrays *)

Definition fp_is_zero (x : Fp) : Z := is_zero 64 (lo x .| hi x).
Definition fp_is_nonzero (x : Fp) : Z := is_nonzero 64 (lo x .| hi x).
Definition fp_eq (a b : Fp) : Z := eq 64 (lo a) (lo b) .& eq 64 (hi a) (hi b).
Definition fp_neq (a b : Fp) : Z := fp_eq a b .^ 1.
Definition fp_is_one (x : Fp) : Z := eq 64 (lo x) 1 .& eq 64 (hi x) 0.
Definition fp_zero_mask (x : Fp) : Z := mask_from_bit 64 (fp_is_zero x).
Definition fp_nonzero_mask (x : Fp) : Z := mask_from_bit 64 (fp_is_nonzero x).
Definition fp_eq_mask (a b : Fp) : Z := mask_from_bit 64 (fp_eq a b).
Definition fp_select (mask : Z) (a b : Fp) : Fp :=
  mkFp (select 64 mask (lo a) (lo b)) (select 64 mask (hi a) (hi b)).
Definition fp_select_bit (cond : Z) (a b : Fp) : Fp := fp_select (mask_from_bit 64 cond) a b.
Definition fp_cswap (mask : Z) (a b : Fp) : Fp * Fp :=
  let '(al, bl) := cswap mask (lo a) (lo b) in
  let '(ah, bh) := cswap mask (hi a) (hi b) in
  (mkFp al ah, mkFp bl bh).
Definition fp_cswap_bit (cond : Z) (a b : Fp) : Fp * Fp := fp_cswap (mask_from_bit 64 cond) a b.

Definition bv_cswap (mask : Z) (a b : BitVec) : BitVec * BitVec :=
  let n := Nat.min (length (bw a)) (length (bw b)) in
  let sw := zip_with (cswap mask) (take n (bw a)) (take n (bw b)) in
  (mkBitVec (nbits a) (sw.*1 ++ drop n (bw a)), mkBitVec (nbits b) (sw.*2 ++ drop n (bw b))).

Definition bv_select (mask : Z) (a b : BitVec) : BitVec :=
  mkBitVec (nbits a) (imap (λ i av, select 64 mask av (nth i (bw b) 0)) (bw a)).

Definition lookup (arr : list Z) (idx : Z) : Z :=
  foldl (λ res i, select 64 (eq_mask 64 (Z.of_nat i) idx) (nth i arr 0) res) (nth 0 arr 0)
    (seq 1 (length arr - 1)).

Definition store (arr : list Z) (idx val : Z) : list Z :=
  imap (λ i x, select 64 (eq_mask 64 (Z.of_nat i) idx) val x) arr.

(** [a] and [b] have [n] bytes. *)
Definition memeq (a b : list Z) : Z :=
  is_zero 64 (foldl (λ diff '(x, y), diff .| (x .^ y)) 0 (zip a b)).

Definition memcpy_if (cond : Z) (dst src : list Z) : list Z :=
  let m8 := u8 (mask_from_bit 64 cond .& 0xFF) in
  zip_with (λ d s, u8 ((s .& m8) .| (d .& wnot 8 m8))) dst src.

Definition memset_if (cond : Z) (dst : list Z) (val : Z) : list Z :=
  let m8 := u8 (mask_from_bit 64 cond .& 0xFF) in
  (λ d, u8 ((val .& m8) .| (d .& wnot 8 m8))) <$> dst.

Definition memzero_if (cond : Z) (dst : list Z) : list Z := memset_if cond dst 0.

End ct.

(** ** Lemmas *)

Module ct_lemmas.
Import ct.

Section Words.
Variable w : Z.
Hypothesis Hw : 1 < w.

Lemma pow_half : 2 ^ w = 2 * 2 ^ (w - 1) ∧ 0 < 2 ^ (w - 1) ∧ 2 ≤ 2 ^ (w - 1).
Proof.
  assert (2 ^ 1 ≤ 2 ^ (w - 1)) by (apply Z.pow_le_mono_r; lia).
  replace w with (Z.succ (w - 1)) at 1 by lia. rewrite Z.pow_succ_r by lia. lia.
Qed.

(** The top bit of [x | -x] tells whether [x] is zero. *)
Lemma is_zero_spec x : word w x → is_zero w x = b2z (x =? 0).
Proof.
  intros Hx. pose proof pow_half as (Hp & Hp1 & Hp2). unfold is_zero.
  destruct (Z.eqb_spec x 0) as [->|Hn].
  - unfold wneg. rewrite wrap_small by (unfold word; lia). rewrite Z.lor_diag, Z.shiftr_0_l. done.
  - unfold word in Hx. assert (Hneg : wneg w x = 2 ^ w - x).
    { unfold wneg, wrap. symmetry. apply (Z.mod_unique _ _ (-1)); lia. }
    rewrite Hneg, Z.shiftr_lor, !shr_div by lia.
    assert (Hor : (x / 2 ^ (w - 1)) .| ((2 ^ w - x) / 2 ^ (w - 1)) = 1).
    { destruct (Z.le_gt_cases (2 ^ (w - 1)) x) as [Hge|Hlt].
      - assert (E : x / 2 ^ (w - 1) = 1)
          by (symmetry; apply (Z.div_unique _ _ _ (x - 2 ^ (w - 1))); lia).
        rewrite E. destruct (Z.eq_dec x (2 ^ (w - 1))) as [Ex|Ex].
        + replace (2 ^ w - x) with (2 ^ (w - 1)) by lia. by rewrite Z.div_same by lia.
        + by rewrite (Z.div_small (2 ^ w - x)) by lia.
      - rewrite (Z.div_small x) by lia.
        assert (E : (2 ^ w - x) / 2 ^ (w - 1) = 1)
          by (symmetry; apply (Z.div_unique _ _ _ (2 ^ w - x - 2 ^ (w - 1))); lia).
        by rewrite E. }
    by rewrite Hor.
Qed.

Lemma is_nonzero_spec x : word w x → is_nonzero w x = b2z (negb (x =? 0)).
Proof. intros. unfold is_nonzero. rewrite is_zero_spec by done. by destruct (x =? 0). Qed.

Lemma eq_spec a b : word w a → word w b → eq w a b = b2z (a =? b).
Proof.
  intros. unfold eq. rewrite is_zero_spec by (apply lxor_word; (done || lia)). f_equal.
  apply eq_true_iff_eq. rewrite !Z.eqb_eq. apply Z.lxor_eq_0_iff.
Qed.

Lemma neq_spec a b : word w a → word w b → neq w a b = b2z (negb (a =? b)).
Proof.
  intros. unfold neq, is_nonzero. change (is_zero w (a .^ b)) with (eq w a b).
  rewrite eq_spec by done. by destruct (a =? b).
Qed.

Lemma lt_spec a b : lt a b = b2z (a <? b).
Proof. done. Qed.
Lemma gt_spec a b : gt a b = b2z (b <? a).
Proof. done. Qed.

(** A mask is all zeros or all ones, and [select] follows it. *)
Lemma mask_spec (c : bool) : mask_from_bit w (b2z c) = if c then Z.ones w else 0.
Proof.
  pose proof pow_half as (Hp & Hp1 & Hp2).
  unfold mask_from_bit, wneg, wrap. destruct c; cbn [b2z].
  - change (1 .& 1) with 1. rewrite Z.ones_equiv. symmetry. apply (Z.mod_unique _ _ (-1)); lia.
  - done.
Qed.

Lemma mask_bit_spec c : mask_from_bit w c = if Z.testbit c 0 then Z.ones w else 0.
Proof.
  rewrite <- mask_spec. unfold mask_from_bit. f_equal.
  rewrite !(land_low _ 1 1) by done. change (2 ^ 1) with 2. rewrite Z.bit0_mod.
  assert (H : c mod 2 = 0 ∨ c mod 2 = 1) by lia. by destruct H as [-> | ->].
Qed.

Lemma land_ones_word a : word w a → a .& Z.ones w = a.
Proof. intros. rewrite Z.land_ones by lia. by apply Z.mod_small. Qed.

Lemma select_spec (c : bool) a b : word w a → word w b →
  select w (if c then Z.ones w else 0) a b = if c then a else b.
Proof.
  intros Ha Hb. unfold select. destruct c.
  - unfold wnot. rewrite Z.ones_equiv. replace (2 ^ w - 1 - Z.pred (2 ^ w)) with 0 by lia.
    rewrite <- Z.ones_equiv, land_ones_word by done. by rewrite Z.land_0_r, Z.lor_0_r.
  - unfold wnot. replace (2 ^ w - 1 - 0) with (Z.ones w) by (rewrite Z.ones_equiv; lia).
    rewrite land_ones_word by done. by rewrite Z.land_0_r, Z.lor_0_l.
Qed.

Lemma select_bit_spec (c : bool) a b : word w a → word w b →
  select w (mask_from_bit w (b2z c)) a b = if c then a else b.
Proof. intros. rewrite mask_spec. by apply select_spec. Qed.

Lemma cswap_spec (c : bool) a b : word w a → word w b →
  cswap (if c then Z.ones w else 0) a b = if c then (b, a) else (a, b).
Proof.
  intros Ha Hb. unfold cswap. destruct c.
  - rewrite Z.land_comm, land_ones_word by (apply lxor_word; (done || lia)).
    f_equal; bitwise i; btauto.
  - by rewrite Z.land_0_l, !Z.lxor_0_r.
Qed.

Lemma wrap_sub_ge a b : word w a → word w b → b ≤ a → wrap w (a - b) = a - b.
Proof. unfold word. intros. apply wrap_small. unfold word. lia. Qed.

Lemma all_eq : all w = 2 ^ w - 1.
Proof. unfold all, wnot. lia. Qed.

Lemma all_word : word w (all w).
Proof. pose proof pow_half. rewrite all_eq. unfold word. lia. Qed.

Lemma min_spec a b : word w a → word w b → min w a b = Z.min a b.
Proof.
  intros. unfold min, lt_mask. rewrite lt_spec, select_bit_spec by done.
  destruct (Z.ltb_spec a b); lia.
Qed.

Lemma max_spec a b : word w a → word w b → max w a b = Z.max a b.
Proof.
  intros. unfold max, gt_mask. rewrite gt_spec, select_bit_spec by done.
  destruct (Z.ltb_spec b a); lia.
Qed.

Lemma abs_diff_spec a b : word w a → word w b → abs_diff w a b = Z.abs (a - b).
Proof.
  intros. unfold abs_diff, lt_mask. rewrite lt_spec, select_bit_spec by (apply wrap_word; lia).
  destruct (Z.ltb_spec a b); rewrite wrap_sub_ge by (done || lia); lia.
Qed.

Lemma saturating_add_spec a b : word w a → word w b →
  saturating_add w a b = Z.min (a + b) (2 ^ w - 1).
Proof.
  intros Ha Hb. unfold saturating_add. rewrite lt_spec.
  rewrite select_bit_spec by (apply all_word || (apply wrap_word; lia)). rewrite all_eq.
  unfold word in *. destruct (Z.le_gt_cases (2 ^ w) (a + b)) as [Hge|Hlt].
  - assert (E : wrap w (a + b) = a + b - 2 ^ w)
      by (symmetry; apply (Z.mod_unique _ _ 1); lia).
    rewrite E. rewrite (proj2 (Z.ltb_lt _ _)) by lia. lia.
  - rewrite wrap_small by (unfold word; lia). rewrite (proj2 (Z.ltb_ge _ _)) by lia. lia.
Qed.

Lemma saturating_sub_spec a b : word w a → word w b →
  saturating_sub w a b = Z.max 0 (a - b).
Proof.
  intros Ha Hb. unfold saturating_sub. rewrite gt_spec.
  assert (word w 0) by (unfold word in *; lia).
  rewrite select_bit_spec by (done || (apply wrap_word; lia)).
  destruct (Z.ltb_spec a b); [lia|]. rewrite wrap_sub_ge by (done || lia). lia.
Qed.

(** Bit [i] of the rotation is bit [i - n] of the word, cyclically. *)
Lemma rotl_bit x n i : word w x → 0 <= n < w → 0 ≤ i < w →
  Z.testbit (wshl w x n .| (x ≫ (w - n))) i = Z.testbit x ((i - n) mod w).
Proof.
  intros Hx Hn Hi. rewrite Z.lor_spec, Z.shiftr_spec by lia. unfold wshl, wrap.
  rewrite Z.mod_pow2_bits_low, Z.shiftl_spec by lia.
  destruct (Z.le_gt_cases n i).
  - rewrite (Z.mod_small (i - n)) by lia.
    rewrite (testbit_small x w (i + (w - n))) by (done || lia). btauto.
  - rewrite (Z.testbit_neg_r x (i - n)) by lia.
    replace ((i - n) mod w) with (i + (w - n)); [btauto|].
    apply (Z.mod_unique _ _ (-1)); lia.
Qed.

Lemma rotr_bit x n i : word w x → 0 ≤ n < w → 0 ≤ i < w →
  Z.testbit ((x ≫ n) .| wshl w x (w - n)) i = Z.testbit x ((i + n) mod w).
Proof.
  intros Hx Hn Hi. rewrite Z.lor_spec, Z.shiftr_spec by lia. unfold wshl, wrap.
  rewrite Z.mod_pow2_bits_low, Z.shiftl_spec by lia.
  destruct (Z.le_gt_cases w (i + n)).
  - rewrite (testbit_small x w (i + n)) by (done || lia).
    replace ((i + n) mod w) with (i - (w - n)); [btauto|].
    apply (Z.mod_unique _ _ 1); lia.
  - rewrite (Z.testbit_neg_r x (i - (w - n))), (Z.mod_small (i + n)) by lia. btauto.
Qed.

Lemma shr_word x k : 0 ≤ k → word w x → word w (x ≫ k).
Proof.
  intros Hk Hx. rewrite shr_div by done. unfold word in *. split; [apply Z.div_pos; lia|].
  apply Z.div_lt_upper_bound; [lia|]. assert (0 < 2 ^ k) by lia. nia.
Qed.

Lemma word_bits_eq x y : word w x → word w y →
  (∀ i, 0 ≤ i < w → Z.testbit x i = Z.testbit y i) → x = y.
Proof.
  intros Hx Hy H. apply Z.bits_inj'. intros i Hi. destruct (Z.lt_ge_cases i w).
  - by apply H.
  - by rewrite !(testbit_small _ w) by (done || lia).
Qed.

Lemma rotate_inverse x n : word w x → 0 ≤ n → w = 2 ^ Z.log2 w →
  rotate_right w (rotate_left w x n) n = x ∧ rotate_left w (rotate_right w x n) n = x.
Proof.
  intros Hx Hn Hpow. unfold rotate_left, rotate_right. cbv zeta.
  assert (Hm : n .& (w - 1) = n mod w).
  { rewrite Hpow at 2. apply land_low; [apply Z.log2_nonneg|]. lia. }
  rewrite Hm. clear Hm. assert (Hk : 0 ≤ n mod w < w) by (apply Z.mod_pos_bound; lia).
  generalize dependent (n mod w). clear Hn n. intros n Hn.
  assert (Hl : ∀ y, word w y → word w (wshl w y n .| (y ≫ (w - n)))).
  { intros. apply word_bound_lor; [lia|apply wrap_word; lia|apply shr_word; [lia|done]]. }
  assert (Hr : ∀ y, word w y → word w ((y ≫ n) .| wshl w y (w - n))).
  { intros. apply word_bound_lor; [lia|apply shr_word; [lia|done]|apply wrap_word; lia]. }
  split; apply word_bits_eq; auto; intros i Hi.
  - rewrite rotr_bit, rotl_bit by (done || auto || apply Z.mod_pos_bound; lia).
    f_equal. rewrite Zminus_mod_idemp_l, Z.mod_small; lia.
  - rewrite rotl_bit, rotr_bit by (done || auto || apply Z.mod_pos_bound; lia).
    f_equal. rewrite Zplus_mod_idemp_l, Z.mod_small; lia.
Qed.

End Words.

(** *** Arrays *)

Lemma lookup_spec arr idx : Forall (word 64) arr → 0 ≤ idx < 2 ^ 64 →
  Z.of_nat (length arr) ≤ 2 ^ 64 →
  lookup arr idx = if idx <? Z.of_nat (length arr) then nth (Z.to_nat idx) arr 0 else nth 0 arr 0.
Proof.
  intros Ha Hi Hl. unfold lookup. destruct (Nat.eq_dec (length arr) 0%nat) as [E0|E0].
  { apply nil_length_inv in E0 as ->. cbn [length seq Nat.sub foldl].
    rewrite (proj2 (Z.ltb_ge idx _)) by (cbn; lia). done. }
  assert (Hn : ∀ i, word 64 (nth i arr 0)).
  { intros i. destruct (nth_in_or_default i arr 0) as [Hin| ->]; [|word_lia].
    apply list_elem_of_In in Hin. by apply (proj1 (Forall_forall _ _) Ha). }
  assert (H : ∀ n s res, word 64 res → (s + n ≤ length arr)%nat →
    foldl (λ res i, select 64 (eq_mask 64 (Z.of_nat i) idx) (nth i arr 0) res) res (seq s n) =
    if (Z.of_nat s <=? idx) && (idx <? Z.of_nat (s + n)) then nth (Z.to_nat idx) arr 0 else res).
  { induction n as [|n IH]; intros s res Hres Hsn; cbn [seq foldl].
    - destruct (Z.leb_spec (Z.of_nat s) idx); destruct (Z.ltb_spec idx (Z.of_nat (s + 0)));
        (done || lia).
    - assert (Hs : word 64 (Z.of_nat s)) by (unfold word; lia).
      unfold eq_mask. rewrite eq_spec, select_bit_spec by (done || auto).
      destruct (Z.eqb_spec (Z.of_nat s) idx) as [E|E].
      + rewrite IH by (auto || lia).
        rewrite (proj2 (Z.leb_gt _ _)) by lia. cbn [andb].
        rewrite (proj2 (Z.leb_le _ _)), (proj2 (Z.ltb_lt _ _)) by lia. cbn [andb].
        by rewrite <- E, Nat2Z.id.
      + rewrite IH by (auto || lia).
        destruct (Z.leb_spec (Z.of_nat (S s)) idx); destruct (Z.leb_spec (Z.of_nat s) idx);
          destruct (Z.ltb_spec idx (Z.of_nat (S s + n)));
          destruct (Z.ltb_spec idx (Z.of_nat (s + S n))); (done || lia). }
  rewrite H by (auto || lia).
  destruct (Z.eq_dec idx 0) as [->|].
  - cbn. by destruct (0 <? Z.of_nat (length arr)).
  - rewrite (proj2 (Z.leb_le _ _)) by lia. cbn [andb].
    destruct (Z.ltb_spec idx (Z.of_nat (1 + (length arr - 1))));
      destruct (Z.ltb_spec idx (Z.of_nat (length arr))); (done || lia).
Qed.

Lemma store_spec arr idx val : Forall (word 64) arr → word 64 val → 0 ≤ idx < 2 ^ 64 →
  Z.of_nat (length arr) ≤ 2 ^ 64 → store arr idx val = <[Z.to_nat idx := val]> arr.
Proof.
  intros Ha Hv Hi Hl. unfold store. apply list_eq. intros i. rewrite list_lookup_imap.
  destruct (arr !! i) as [x|] eqn:E; cbn [fmap option_fmap option_map].
  - pose proof (lookup_lt_Some _ _ _ E). pose proof (Forall_lookup_1 _ _ _ _ Ha E).
    unfold eq_mask. rewrite eq_spec, select_bit_spec by (done || unfold word; lia).
    destruct (Z.eqb_spec (Z.of_nat i) idx) as [Ei|Ei].
    + subst idx. rewrite Nat2Z.id, list_lookup_insert_eq by done. done.
    + rewrite list_lookup_insert_ne by lia. done.
  - symmetry. apply lookup_ge_None. rewrite length_insert. by apply lookup_ge_None.
Qed.

Lemma memeq_spec a b : bytes a → bytes b → length a = length b →
  memeq a b = b2z (bool_decide (a = b)).
Proof.
  intros Ha Hb Hl. unfold memeq.
  assert (H : ∀ acc, word 8 acc →
    let d := foldl (λ diff '(x, y), diff .| (x .^ y)) acc (zip a b) in
    word 8 d ∧ (d = 0 ↔ acc = 0 ∧ a = b)).
  { revert b Hb Hl. induction Ha as [|x a Hx Ha IH]; intros [|y b] Hb Hl acc Hacc;
      try discriminate; cbn [zip zip_with foldl].
    - tauto.
    - apply Forall_cons in Hb as [Hy Hb]. injection Hl as Hl.
      assert (Hxy : word 8 (x .^ y)) by (apply lxor_word; (done || lia)).
      destruct (IH b Hb Hl (acc .| (x .^ y))) as [H1 H2]; [by apply word_bound_lor|].
      split; [done|]. rewrite H2, Z.lor_eq_0_iff, Z.lxor_eq_0_iff.
      split; [by intros [[-> ->] ->]|by intros [-> [= -> ->]]]. }
  destruct (H 0) as [H1 H2]; [done|]. rewrite is_zero_spec by (done || (unfold word in *; lia)).
  f_equal. apply eq_true_iff_eq. rewrite Z.eqb_eq, bool_decide_eq_true, H2. tauto.
Qed.

Lemma mask8_spec (c : bool) : u8 (mask_from_bit 64 (b2z c) .& 0xFF) = if c then Z.ones 8 else 0.
Proof. by destruct c. Qed.

Lemma memcpy_if_spec (c : bool) dst src : bytes dst → bytes src → length dst = length src →
  memcpy_if (b2z c) dst src = if c then src else dst.
Proof.
  intros Hd Hs. unfold memcpy_if. rewrite mask8_spec. revert src Hs.
  induction Hd as [|d dst Hd Hds IH]; intros [|s src] Hs Hl; try discriminate.
  - by destruct c.
  - apply Forall_cons in Hs as [Hs Hss]. cbn [zip_with]. rewrite IH by (done || by injection Hl).
    pose proof (select_spec 8 ltac:(done) c s d Hs Hd) as E. unfold select in E. rewrite E.
    destruct c; by rewrite wrap_small.
Qed.

Lemma memset_if_spec (c : bool) dst v : bytes dst → word 8 v →
  memset_if (b2z c) dst v = if c then replicate (length dst) v else dst.
Proof.
  intros Hd Hv. unfold memset_if. rewrite mask8_spec.
  induction Hd as [|d dst Hd Hds IH]; [by destruct c|]. rewrite fmap_cons, IH.
  pose proof (select_spec 8 ltac:(done) c v d Hv Hd) as E. unfold select in E. rewrite E.
  destruct c; by rewrite wrap_small.
Qed.

(** *** Field elements *)

Lemma fp_is_zero_spec x : words x → fp_is_zero x = b2z (val x =? 0).
Proof.
  intros [Hl Hh]. unfold fp_is_zero.
  rewrite is_zero_spec by (done || by apply word_bound_lor). f_equal. apply eq_true_iff_eq.
  rewrite !Z.eqb_eq, Z.lor_eq_0_iff. unfold val, word in *. lia.
Qed.

Lemma fp_is_nonzero_spec x : words x → fp_is_nonzero x = b2z (negb (val x =? 0)).
Proof.
  intros Hx. unfold fp_is_nonzero, is_nonzero. change (is_zero 64 _) with (fp_is_zero x).
  rewrite fp_is_zero_spec by done. by destruct (val x =? 0).
Qed.

Lemma fp_eq_spec a b : words a → words b → fp_eq a b = b2z (bool_decide (a = b)).
Proof.
  intros [??] [??]. unfold fp_eq. rewrite !eq_spec by done. destruct a as [al ah], b as [bl bh].
  cbn [lo hi]. destruct (Z.eqb_spec al bl) as [->|]; destruct (Z.eqb_spec ah bh) as [->|];
    case_bool_decide; (done || congruence).
Qed.

Lemma fp_select_spec (c : bool) a b : words a → words b →
  fp_select_bit (b2z c) a b = if c then a else b.
Proof.
  intros [??] [??]. unfold fp_select_bit, fp_select. rewrite !select_bit_spec by done.
  by destruct c, a, b.
Qed.

Lemma fp_cswap_spec (c : bool) a b : words a → words b →
  fp_cswap_bit (b2z c) a b = if c then (b, a) else (a, b).
Proof.
  intros [??] [??]. unfold fp_cswap_bit, fp_cswap. rewrite mask_spec, !cswap_spec by done.
  by destruct c, a, b.
Qed.

End ct_lemmas.

(** ** Properties *)

(** On words of each of the four widths the branch-free operations are the
    comparisons, selections, exchanges and saturating operations they replace,
    whatever the operands, and the two rotations undo each other. *)
Theorem ct_words_correct (w a b x n : Z) (c : bool)
  (Hw : w = 8 ∨ w = 16 ∨ w = 32 ∨ w = 64)
  (Ha : word w a) (Hb : word w b) (Hx : word w x) (Hn : 0 ≤ n) :
  ct.is_zero w a = b2z (a =? 0) ∧ ct.is_nonzero w a = b2z (negb (a =? 0)) ∧
  ct.eq w a b = b2z (a =? b) ∧ ct.neq w a b = b2z (negb (a =? b)) ∧
  ct.select_bit w (b2z c) a b = (if c then a else b) ∧
  ct.cswap_bit w (b2z c) a b = (if c then (b, a) else (a, b)) ∧
  ct.min w a b = Z.min a b ∧ ct.max w a b = Z.max a b ∧
  ct.abs_diff w a b = Z.abs (a - b) ∧ ct.clamp w x a b = Z.min (Z.max x a) b ∧
  ct.saturating_add w a b = Z.min (a + b) (2 ^ w - 1) ∧
  ct.saturating_sub w a b = Z.max 0 (a - b) ∧
  ct.rotate_right w (ct.rotate_left w x n) n = x ∧
  ct.rotate_left w (ct.rotate_right w x n) n = x.
Proof.
  assert (H1 : 1 < w) by lia.
  assert (Hlog : w = 2 ^ Z.log2 w) by (destruct Hw as [->|[->|[->| ->]]]; done).
  destruct (ct_lemmas.rotate_inverse w H1 x n Hx Hn Hlog) as [Hr1 Hr2].
  assert (Hmax : word w (Z.max x a)) by (unfold word in *; lia).
  unfold ct.select_bit, ct.cswap_bit, ct.clamp.
  rewrite ct_lemmas.is_zero_spec, ct_lemmas.is_nonzero_spec, ct_lemmas.eq_spec, ct_lemmas.neq_spec,
    ct_lemmas.select_bit_spec, ct_lemmas.mask_spec, ct_lemmas.cswap_spec,
    !ct_lemmas.max_spec, !ct_lemmas.min_spec, ct_lemmas.abs_diff_spec,
    ct_lemmas.saturating_add_spec, ct_lemmas.saturating_sub_spec by done.
  by repeat split.
Qed.

Lemma ct_words_correct_witness : ct.saturating_sub 8 3 7 = Z.max 0 (3 - 7).
Proof.
  apply (ct_words_correct 8 3 7 0 0 true); [by left|unfold word; cbn; lia..|lia].
Defined.

(** The branch-free operations on field elements, arrays and buffers are
    equality, selection, exchange, indexing, assignment and conditional copy. *)
Theorem ct_data_correct (a b : Fp) (arr dst src : list Z) (idx v v8 : Z) (c : bool)
  (Ha : words a) (Hb : words b)
  (Harr : Forall (word 64) arr) (Hlen : Z.of_nat (length arr) ≤ 2 ^ 64)
  (Hidx : 0 ≤ idx < Z.of_nat (length arr)) (Hv : word 64 v)
  (Hdst : bytes dst) (Hsrc : bytes src) (Hsz : length dst = length src) (Hv8 : word 8 v8) :
  ct.fp_is_zero a = b2z (val a =? 0) ∧ ct.fp_eq a b = b2z (bool_decide (a = b)) ∧
  ct.fp_select_bit (b2z c) a b = (if c then a else b) ∧
  ct.fp_cswap_bit (b2z c) a b = (if c then (b, a) else (a, b)) ∧
  ct.lookup arr idx = nth (Z.to_nat idx) arr 0 ∧
  ct.store arr idx v = <[Z.to_nat idx := v]> arr ∧
  ct.memeq dst src = b2z (bool_decide (dst = src)) ∧
  ct.memcpy_if (b2z c) dst src = (if c then src else dst) ∧
  ct.memset_if (b2z c) dst v8 = (if c then replicate (length dst) v8 else dst).
Proof.
  rewrite ct_lemmas.fp_is_zero_spec, ct_lemmas.fp_eq_spec, ct_lemmas.fp_select_spec,
    ct_lemmas.fp_cswap_spec, ct_lemmas.lookup_spec, ct_lemmas.store_spec, ct_lemmas.memeq_spec,
    ct_lemmas.memcpy_if_spec, ct_lemmas.memset_if_spec by (done || lia).
  rewrite (proj2 (Z.ltb_lt _ _)) by lia. by repeat split.
Qed.

Lemma ct_data_correct_witness :
  ct.lookup [5; 6; 7] 2 = 7 ∧ ct.memeq [1; 2] [1; 3] = 0.
Proof.
  assert (H := ct_data_correct (mkFp 1 2) (mkFp 3 4) [5; 6; 7] [1; 2] [1; 3] 2 9 9 true).
  split; apply H; repeat constructor; unfold word; cbn; lia.
Defined.
