(* ===== verification/Types.v ===== *)
(** * The data of the scheme: [core/types.hpp], and [field::Op] of [ops/encrypt.hpp]

    Records and enumerations as the code has them, the shape checks, the
    multiplicative depth, the table of powers.  A [uint8_t] enumeration read from
    a file may hold another value: each has a constructor for it.  A [double] of
    [Params] is kept as its 64 bits. *)

From S2P Require Import Prelude Field Hash Rng CtSafe.

(** ** [namespace Dom] *)

Module Dom.
Definition H_GEN := "pvac.dom.h_gen"%string.
Definition X_SEED := "pvac.dom.x_seed"%string.
Definition NOISE := "pvac.dom.noise"%string.
Definition PRF_LPN := "pvac.dom.prf_lpn"%string.
Definition TOEP := "pvac.dom.toeplitz"%string.
Definition ZTAG := "pvac.dom.ztag"%string.
Definition COMMIT := "pvac.dom.commit"%string.
Definition PRF_R1 := "pvac.prf.r.1"%string.
Definition PRF_R2 := "pvac.prf.r.2"%string.
Definition PRF_R3 := "pvac.prf.r.3"%string.
Definition PRF_NOISE1 := "pvac.prf.noise.1"%string.
Definition PRF_NOISE2 := "pvac.prf.noise.2"%string.
Definition PRF_NOISE3 := "pvac.prf.noise.3"%string.
Definition R_COM := "pvac.dom.r_com"%string.
Definition PRF_RHO := "pvac.prf.rho"%string.
Definition PRF_RHO_PROD := "pvac.prf.rho.prod"%string.
Definition CIRCUIT_PRF_KEY := "pvac.v6.circuit_prf.key"%string.
Definition CIRCUIT_PRF_BLIND := "pvac.v6.circuit_prf.blind"%string.
Definition CIRCUIT_PRF_CHALLENGE := "pvac.v6.circuit_prf.challenge"%string.
Definition CIRCUIT_PRF_ROUND := "pvac.v6.circuit_prf.mimc.round"%string.
Definition PRF_R_ALPHA := "pvac.v6.prf.r.alpha"%string.
Definition CIRCUIT_PRF_KEY_V7 := "pvac.v7.circuit_prf.key"%string.
Definition CIRCUIT_PRF_BLIND_V7 := "pvac.v7.circuit_prf.blind"%string.
Definition CIRCUIT_PRF_CHALLENGE_V7 := "pvac.v7.circuit_prf.challenge"%string.
Definition CIRCUIT_PRF_ROUND_V7 := "pvac.v7.circuit_prf.mimc.round"%string.
End Dom.

(** ** Data *)

Record Params : Set := mkParams {
  p_B : Z;
  m_bits : Z; n_bits : Z; h_col_wt : Z; x_col_wt : Z; err_wt : Z;
  noise_entropy_bits : Z; tuple2_fraction : Z; depth_slope_bits : Z;
  edge_budget : Z;
  lpn_n : Z; lpn_t : Z; lpn_tau_num : Z; lpn_tau_den : Z;
  recrypt_lo : Z; recrypt_hi : Z; recrypt_rounds : Z }.

Definition fp_from_hash32_nonzero (inp : list Z) : Fp :=
  let lo0 := foldl (λ x i, x .| wshl 64 (nth (Z.to_nat i) inp 0) (8 * i)) 0 (zseq 0 8) in
  let hi0 := foldl (λ x i, x .| wshl 64 (nth (Z.to_nat (8 + i)) inp 0) (8 * i)) 0 (zseq 0 8) in
  let out := fp_from_words lo0 (hi0 .& MASK63) in
  if fp_nonzero_bool out then out else fp_from_u64 1.

Record Ubk : Set := mkUbk { perm : list Z; inv : list Z }.

Record RSeed : Set := mkRSeed { ztag : Z; nonce : Nonce128 }.

Inductive RRule : Set := BASE | PROD | RULE_other (b : Z).

Inductive CircuitPrfProfile : Set := MIMC_X3_V6 | MIMC_X5_V7 | PROFILE_other (b : Z).

Definition valid_circuit_prf_profile (profile : CircuitPrfProfile) : bool :=
  match profile with MIMC_X3_V6 | MIMC_X5_V7 => true | PROFILE_other _ => false end.

Record Layer : Set := mkLayer {
  rule : RRule; seed : RSeed; pa : Z; pb : Z;
  R_com : list Z; R_PC : list (list Z); PC : list (list Z) }.

Definition SGN_P : Z := 0.
Definition SGN_M : Z := 1.

Record Edge : Set := mkEdge {
  layer_id : Z; idx : Z; ch : Z; ew : list Fp; es : BitVec }.

Record Cipher : Set := mkCipher {
  L : list Layer; E : list Edge; c0 : list Fp; slots : nat }.

Record PubKey : Set := mkPubKey {
  prm : Params; canon_tag : Z; H : list BitVec; ubk : Ubk; H_digest : list Z;
  omega_B : Fp; powg_B : list Fp; circuit_prf_key_commit : list Z;
  circuit_prf_profile : CircuitPrfProfile }.

Record SecKey : Set := mkSecKey {
  prf_k : list Z; circuit_prf_key : Fp; circuit_prf_key_blind : list Z;
  circuit_prf_key_v6 : Fp; circuit_prf_key_blind_v6 : list Z; lpn_s_bits : list Z }.

Definition sgn_val (ch : Z) : Z := if ch =? SGN_P then 1 else -1.

#[export] Instance Nonce128_eq_dec : EqDecision Nonce128.
Proof. solve_decision. Defined.
#[export] Instance RSeed_eq_dec : EqDecision RSeed.
Proof. solve_decision. Defined.
#[export] Instance RRule_eq_dec : EqDecision RRule.
Proof. solve_decision. Defined.
#[export] Instance Profile_eq_dec : EqDecision CircuitPrfProfile.
Proof. solve_decision. Defined.
#[export] Instance Layer_eq_dec : EqDecision Layer.
Proof. solve_decision. Defined.
#[export] Instance Edge_eq_dec : EqDecision Edge.
Proof. solve_decision. Defined.
#[export] Instance Cipher_eq_dec : EqDecision Cipher.
Proof. solve_decision. Defined.

Definition fp0 : Fp := mkFp 0 0.

(** The default member initialisers of [Params]; 120.0, 0.55, 16.0, 0.48 and
    0.52 are given by their bits. *)
Definition params0 : Params :=
  mkParams 337 8192 16384 192 128 128 0x405e000000000000 0x3fe199999999999a 0x4030000000000000
    1200000 4096 16384 1 8 0x3fdeb851eb851eb8 0x3fe0a3d70a3d70a4 8.

(** [PubKey{}] *)
Definition pubkey0 : PubKey :=
  mkPubKey params0 0 [] (mkUbk [] []) (replicate 32 0) fp0 [] (replicate 32 0) MIMC_X3_V6.

(** ** Shape checks *)

Definition layer_shape_ok (slots : nat) (layer_id : nat) (layer : Layer) : bool :=
  match rule layer with
  | RULE_other _ => false
  | BASE =>
      ((length (PC layer) =? 0)%nat || (length (PC layer) =? slots)%nat) &&
      ((length (R_PC layer) =? 0)%nat || (length (R_PC layer) =? slots)%nat)
  | PROD =>
      negb ((Z.of_nat layer_id <=? pa layer) || (Z.of_nat layer_id <=? pb layer)) &&
      (length (PC layer) =? 0)%nat && (length (R_PC layer) =? 0)%nat
  end.

Definition edge_shape_ok (nlayers slots : nat) (edge : Edge) : bool :=
  negb (Z.of_nat nlayers <=? layer_id edge) &&
  ((ch edge =? SGN_P) || (ch edge =? SGN_M)) &&
  (length (ew edge) =? slots)%nat.

Definition is_valid_cipher_shape (cipher : Cipher) : bool :=
  negb (slots cipher =? 0)%nat &&
  ((length (c0 cipher) =? 0)%nat || (length (c0 cipher) =? slots cipher)%nat) &&
  forallb (λ p, layer_shape_ok (slots cipher) p.1 p.2) (imap pair (L cipher)) &&
  forallb (edge_shape_ok (length (L cipher)) (slots cipher)) (E cipher).

(** The table [layers], one entry per turn, and the running [depth]. *)
Definition depth_step (st : list nat * nat) (layer : Layer) : list nat * nat :=
  let '(layers, depth) := st in
  match rule layer with
  | PROD =>
      let d := S (Nat.max (nth (Z.to_nat (pa layer)) layers 0%nat)
                          (nth (Z.to_nat (pb layer)) layers 0%nat)) in
      (layers ++ [d], Nat.max depth d)
  | _ => (layers ++ [0%nat], depth)
  end.

(** [None] is the result [false]. *)
Definition cipher_mul_depth (cipher : Cipher) : option nat :=
  if is_valid_cipher_shape cipher then Some (snd (foldl depth_step ([], 0%nat) (L cipher)))
  else None.

(** [for (i = 2; i < powers.size(); ++i)]: the rest of the table against the
    running power, which is returned. *)
Fixpoint powers_loop (ratio expected : Fp) (powers : list Fp) : option Fp :=
  match powers with
  | [] => Some expected
  | p :: powers =>
      let expected := fp_mul expected ratio in
      if negb (lo p =? lo expected) || negb (hi p =? hi expected) then None
      else powers_loop ratio expected powers
  end.

Definition pubkey_powers_ok (pk : PubKey) : bool :=
  let powers := powg_B pk in
  if (p_B (prm pk) <? 3) || negb (Z.of_nat (length powers) =? p_B (prm pk)) then false
  else
    let p0 := nth 0 powers fp0 in
    if negb (lo p0 =? 1) || negb (hi p0 =? 0) then false
    else
      let ratio := nth 1 powers fp0 in
      if ((lo ratio <=? 1) && (hi ratio =? 0)) || (MASK63 <? hi ratio) ||
         ((hi ratio =? MASK63) && (lo ratio =? UINT64_MAX)) then false
      else
        match powers_loop ratio ratio (drop 2 powers) with
        | None => false
        | Some expected =>
            let closing := fp_mul expected ratio in
            (lo closing =? 1) && (hi closing =? 0)
        end.

(** One turn of the loop over [perm] and [inv]: [None] is the early return. *)
Definition seen_step (m : Z) (st : option (list bool * list bool)) (pq : Z * Z)
    : option (list bool * list bool) :=
  '(seen_perm, seen_inv) ← st;
  let '(p, q) := pq in
  if (p <? 0) || (q <? 0) || (m <=? p) || (m <=? q) then None
  else if nth (Z.to_nat p) seen_perm false || nth (Z.to_nat q) seen_inv false then None
  else Some (<[Z.to_nat p := true]> seen_perm, <[Z.to_nat q := true]> seen_inv).

Definition is_valid_pubkey_shape (pk : PubKey) : bool :=
  let P := prm pk in
  let perm := perm (ubk pk) in
  let inv := inv (ubk pk) in
  let size_is {A} (l : list A) (n : Z) := Z.of_nat (length l) =? n in
  negb ((p_B P <=? 0) || (m_bits P <=? 0) || (n_bits P <=? 0)) &&
  size_is (H pk) (n_bits P) &&
  size_is perm (m_bits P) && size_is inv (m_bits P) &&
  match foldl (seen_step (m_bits P))
          (Some (replicate (length perm) false, replicate (length inv) false)) (zip perm inv) with
  | None => false
  | Some _ => true
  end &&
  forallb (λ ip, nth (Z.to_nat ip.2) inv 0 =? Z.of_nat ip.1) (imap pair perm) &&
  size_is (powg_B pk) (p_B P) &&
  forallb (λ column, nbits column =? m_bits P) (H pk) &&
  valid_circuit_prf_profile (circuit_prf_profile pk).

Definition is_cipher_compatible_with_pubkey (pk : PubKey) (cipher : Cipher) : bool :=
  is_valid_pubkey_shape pk && is_valid_cipher_shape cipher &&
  forallb (λ edge, negb (Z.of_nat (length (powg_B pk)) <=? idx edge) &&
                   (nbits (es edge) =? m_bits (prm pk))) (E cipher).

(** ** [field::Op]: one entry per slot

    [add] and [sub] index the second operand by the first: the model has no
    entry past the end of the second, where C++ reads out of bounds. *)

Module Op.
Definition zeros (n : nat) : list Fp := replicate n fp0.
Definition fill (v : Fp) (n : nat) : list Fp := replicate n v.
Definition add (a b : list Fp) : list Fp := zip_with fp_add a b.
Definition sub (a b : list Fp) : list Fp := zip_with fp_sub a b.
Definition mul (a b : list Fp) : res (list Fp) :=
  if (length a =? length b)%nat then Ok (zip_with fp_mul a b)
  else Throw "pvac: field mul: vector size mismatch".
Definition mul_fp (a : list Fp) (b : Fp) : list Fp := (λ x, fp_mul x b) <$> a.
Definition neg (a : list Fp) : list Fp := fp_neg <$> a.
Definition sgn_fp (x : Fp) (s : Z) : Fp := if 0 <? sgn_val s then x else fp_neg x.
Definition sgn (x : list Fp) (s : Z) : list Fp := if 0 <? sgn_val s then x else neg x.
Definition nz (a : list Fp) : bool := existsb fp_nonzero_bool a.
Definition sum (xs : list Fp) : Fp := foldl fp_add (fp_from_u64 0) xs.
End Op.
