(* ===== verification/Toeplitz.v ===== *)
(** * Carry-less convolution and Toeplitz extraction: [crypto/toeplitz.hpp], [crypto/toeplitz_full.hpp]

    A vector of 64-bit words is a polynomial over GF(2), bit [k] the coefficient
    of degree [k]; the convolutions are its products.  [toep_127] picks among the
    candidates the fastest on the machine: they agree, see [Properties]. *)

From S2P Require Import Prelude.

(** [R[n] ^= x] *)
Definition xor_at (R : list Z) (n : nat) (x : Z) : list Z := alter (λ r, r .^ x) n R.

(** [__builtin_ctzll], for a nonzero word. *)
Fixpoint ctz_from (fuel : nat) (k a : Z) : Z :=
  match fuel with
  | O => k
  | S fuel => if Z.testbit a k then k else ctz_from fuel (k + 1) a
  end.
Definition ctz64 (a : Z) : Z := ctz_from 64 0 a.

Definition at_ (l : list Z) (i : nat) : Z := nth i l 0.

(** *** [gf2_conv_scalar] *)

Definition scalar_row (R B : list Z) (i : nat) (k : Z) : list Z :=
  foldl (λ R (j : nat),
    let b := at_ B j in
    if k =? 0 then xor_at R (i + j) b
    else xor_at (xor_at R (i + j) (wshl 64 b k)) (i + j + 1) (b ≫ (64 - k)))
    R (seq 0 (length B)).

(** [while (a)]: each turn clears the lowest bit. *)
Fixpoint scalar_bits (fuel : nat) (R B : list Z) (i : nat) (a : Z) : list Z :=
  match fuel with
  | O => R
  | S fuel =>
      if a =? 0 then R
      else
        let bmask := a .& wneg 64 a in
        let k := ctz64 a in
        scalar_bits fuel (scalar_row R B i k) B i (a .^ bmask)
  end.

Definition gf2_conv_scalar (A B : list Z) : list Z :=
  foldl (λ R (i : nat), scalar_bits 65 R B i (at_ A i))
    (replicate (length A + length B) 0) (seq 0 (length A)).

(** *** [gf2_conv_clmul] *)

(** The 128-bit product that the instruction [PCLMULQDQ] returns, as documented. *)
Definition clmul64 (a b : Z) : Z :=
  foldl (λ p k, if Z.testbit a k then p .^ (b ≪ k) else p) 0 (zseq 0 64).

Definition gf2_conv_clmul (A B : list Z) : list Z :=
  foldl (λ R (i : nat),
    let a := at_ A i in
    if a =? 0 then R
    else
      foldl (λ R (j : nat),
        let b := at_ B j in
        if b =? 0 then R
        else
          let p := clmul64 a b in
          xor_at (xor_at R (i + j) (u64 p)) (i + j + 1) (u64 (p ≫ 64)))
        R (seq 0 (length B)))
    (replicate (length A + length B) 0) (seq 0 (length A)).

(** *** [gf2_conv_pmull], on ARM *)

(** [vmull_p64] returns the same product, as two lanes. *)
Definition vmull_p64 (pa pb : Z) : Z * Z := let p := clmul64 pa pb in (u64 p, u64 (p ≫ 64)).
Definition vgetq_lane_u64 (u : Z * Z) (lane : Z) : Z := if lane =? 0 then u.1 else u.2.

Definition gf2_conv_pmull (A B : list Z) : list Z :=
  foldl (λ R (i : nat),
    let a := at_ A i in
    if a =? 0 then R
    else
      foldl (λ R (j : nat),
        let b := at_ B j in
        if b =? 0 then R
        else
          let u := vmull_p64 a b in
          let lo := vgetq_lane_u64 u 0 in
          let hi := vgetq_lane_u64 u 1 in
          xor_at (xor_at R (i + j) lo) (i + j + 1) hi)
        R (seq 0 (length B)))
    (replicate (length A + length B) 0) (seq 0 (length A)).

(** *** Extraction of 127 bits *)

Definition extract_127 (conv : list Z) (offset : Z) : Z * Z :=
  foldl (λ '(out_lo, out_hi) r,
    let pos := offset + r in
    let bit := (at_ conv (Z.to_nat (pos ≫ 6)) ≫ (pos .& 63)) .& 1 in
    if r <? 64 then (out_lo .| wshl 64 bit r, out_hi)
    else (out_lo, out_hi .| wshl 64 bit (r - 64)))
    (0, 0) (zseq 0 127).

Definition toep_127_scalar (top ybits : list Z) : Z * Z :=
  extract_127 (gf2_conv_scalar ybits top) 0.

Definition toep_127_clmul (top ybits : list Z) : Z * Z :=
  extract_127 (gf2_conv_clmul ybits top) 0.

Definition toep_127_pmull (top ybits : list Z) : Z * Z :=
  extract_127 (gf2_conv_pmull ybits top) 0.

Definition toep_127 := toep_127_scalar.

(** [if (bits & 63) y.back() &= (1ull << (bits & 63)) - 1;] *)
Definition mask_last (y : list Z) (bits : Z) : list Z :=
  if (bits .& 63) =? 0 then y
  else alter (λ x, x .& (wshl 64 1 (bits .& 63) - 1)) (length y - 1)%nat y.

Definition toep_127_full (top ybits : list Z) (bits : Z) : res (Z * Z) :=
  if bits =? 0 then Throw "pvac: toeplitz width rejected"
  else
    let y_words := (bits + 63) / 64 in
    let top_bits := bits + 126 in
    let top_words := (top_bits + 63) / 64 in
    if negb (Z.of_nat (length ybits) =? y_words) || negb (Z.of_nat (length top) =? top_words)
    then Throw "pvac: toeplitz shape rejected"
    else Ok (extract_127 (gf2_conv_clmul (mask_last ybits bits) top) (bits - 1)).

(** ** Polynomials over GF(2) *)

(** The polynomial of a vector of words. *)
Fixpoint poly (l : list Z) : Z :=
  match l with [] => 0 | x :: l => x .^ (poly l ≪ 64) end.

Lemma poly_xor_at R n x : (n < length R)%nat →
  poly (xor_at R n x) = poly R .^ (x ≪ (64 * Z.of_nat n)).
Proof.
  unfold xor_at. revert n. induction R as [|r R IH]; intros [|n] Hn; cbn [length] in *; [lia..| |].
  - cbn. rewrite Z.shiftl_0_r. rewrite !Z.lxor_assoc. f_equal. apply Z.lxor_comm.
  - rewrite alter_cons_S || cbn [alter list_alter].
    change (poly (r :: alter (λ r, r .^ x) n R)) with (r .^ (poly (alter (λ r, r .^ x) n R) ≪ 64)).
    rewrite IH by lia. cbn [poly]. rewrite Z.shiftl_lxor, Z.shiftl_shiftl by lia.
    rewrite Z.lxor_assoc. do 3 f_equal. lia.
Qed.

Lemma xor_at_length R n x : length (xor_at R n x) = length R.
Proof. unfold xor_at. apply length_alter. Qed.

Lemma poly_replicate n : poly (replicate n 0) = 0.
Proof. induction n as [|n IH]; [done|]. cbn [replicate poly]. by rewrite IH. Qed.

(** The shifted word straddles two entries. *)
Lemma shl_straddle b k : word 64 b → 0 < k < 64 →
  wshl 64 b k .^ ((b ≫ (64 - k)) ≪ 64) = b ≪ k.
Proof.
  intros Hb Hk. apply Z.bits_inj'. intros i Hi. rewrite Z.lxor_spec.
  unfold wshl, wrap. rewrite (Z.shiftl_spec (b ≫ _)) by lia.
  destruct (Z.ltb_spec i 64).
  - rewrite Z.mod_pow2_bits_low, (Z.testbit_neg_r _ (i - 64)) by lia. btauto.
  - rewrite Z.mod_pow2_bits_high, Z.shiftr_spec, Z.shiftl_spec by lia.
    replace (i - 64 + (64 - k)) with (i - k) by lia. btauto.
Qed.

Lemma scalar_row_spec R B i k : Forall (word 64) B → 0 ≤ k < 64 →
  (i + length B < length R)%nat →
  poly (scalar_row R B i k) = poly R .^ (poly B ≪ (64 * Z.of_nat i + k)) ∧
  length (scalar_row R B i k) = length R.
Proof.
  intros HB Hk Hl. unfold scalar_row.
  assert (G : ∀ B' pre R, B = pre ++ B' → (i + length B < length R)%nat →
    let R' := foldl (λ R (j : nat),
      if k =? 0 then xor_at R (i + j) (at_ B j)
      else xor_at (xor_at R (i + j) (wshl 64 (at_ B j) k)) (i + j + 1) (at_ B j ≫ (64 - k)))
      R (seq (length pre) (length B')) in
    poly R' = poly R .^ (poly B' ≪ (64 * Z.of_nat (i + length pre) + k)) ∧ length R' = length R).
  { induction B' as [|b B' IH]; intros pre R0 HE Hl0; cbn [length seq foldl poly].
    - by rewrite Z.shiftl_0_l, Z.lxor_0_r.
    - assert (Hb : at_ B (length pre) = b).
      { unfold at_. rewrite HE, app_nth2, Nat.sub_diag; [done|lia]. }
      assert (Hbw : word 64 b) by (rewrite HE in HB; by apply Forall_app in HB as [_ [? _]%Forall_cons]).
      assert (Hlen : (length pre < length B)%nat) by (rewrite HE, length_app; cbn [length]; lia).
      rewrite Hb. set (R1 := if k =? 0 then _ else _).
      assert (H1 : poly R1 = poly R0 .^ (b ≪ (64 * Z.of_nat (i + length pre) + k)) ∧
        length R1 = length R0).
      { unfold R1. destruct (Z.eqb_spec k 0) as [->|Hk0].
        - rewrite poly_xor_at, xor_at_length by lia. by rewrite Z.add_0_r.
        - rewrite !poly_xor_at, !xor_at_length by (rewrite ?xor_at_length; lia). split; [|done].
          rewrite Z.lxor_assoc. f_equal. rewrite (Z.add_comm _ k), <- Z.shiftl_shiftl by lia.
          rewrite <- (shl_straddle b k) by (done || lia).
          rewrite Z.shiftl_lxor. f_equal. rewrite (Z.shiftl_shiftl _ 64) by lia. f_equal. lia. }
      destruct H1 as [H1 H2].
      destruct (IH (pre ++ [b]) R1) as [H3 H4];
        [by rewrite HE, <- app_assoc|rewrite H2; lia|].
      rewrite length_app, Nat.add_1_r in H3, H4. cbn zeta in *. rewrite H3, H4, H1, H2.
      split; [|done]. rewrite Z.lxor_assoc. f_equal. rewrite Z.shiftl_lxor. f_equal.
      rewrite Z.shiftl_shiftl by lia. f_equal. lia. }
  destruct (G B [] R eq_refl Hl) as [G1 G2]. cbn zeta in *. rewrite Nat.add_0_r in G1. by split.
Qed.

(** Multiplication of polynomials, [n] the number of bits of the first. *)
Definition gf2_mul (n : nat) (x y : Z) : Z :=
  foldl (λ p k, if Z.testbit x k then p .^ (y ≪ k) else p) 0 (zseq 0 n).

Lemma clmul64_eq a b : clmul64 a b = gf2_mul 64 a b.
Proof. unfold clmul64, gf2_mul. reflexivity. Qed.

Lemma gf2_fold_acc l x y acc :
  foldl (λ p k, if Z.testbit x k then p .^ (y ≪ k) else p) acc l =
  acc .^ foldl (λ p k, if Z.testbit x k then p .^ (y ≪ k) else p) 0 l.
Proof.
  revert acc. induction l as [|k l IH]; intros acc; cbn [foldl]; [by rewrite Z.lxor_0_r|].
  destruct (Z.testbit x k); [|apply IH].
  rewrite IH, (IH (0 .^ _)). by rewrite Z.lxor_0_l, Z.lxor_assoc.
Qed.

(** One word of the first factor, seen at its place. *)
Definition word_mul (a i y : Z) : Z := gf2_mul 64 a y ≪ (64 * i).

Lemma lowest_bit a : word 64 a → a ≠ 0 →
  let k := ctz64 a in
  0 ≤ k < 64 ∧ Z.testbit a k = true ∧ (∀ i, 0 ≤ i < k → Z.testbit a i = false).
Proof.
  intros Ha Hn. unfold ctz64.
  assert (G : ∀ fuel k, 0 ≤ k → Z.of_nat fuel + k = 64 →
    (∀ i, 0 ≤ i < k → Z.testbit a i = false) →
    let r := ctz_from fuel k a in
    0 ≤ r < 64 ∧ Z.testbit a r = true ∧ (∀ i, 0 ≤ i < r → Z.testbit a i = false)).
  { induction fuel as [|fuel IH]; intros k Hk Hf Hlow; cbn [ctz_from].
    - exfalso. apply Hn. apply Z.bits_inj'. intros i Hi. rewrite Z.bits_0.
      destruct (Z.ltb_spec i 64); [apply Hlow; lia|by apply (testbit_small a 64)].
    - destruct (Z.testbit a k) eqn:Ek; [split; [lia|done]|].
      apply IH; [lia|lia|]. intros i Hi. destruct (Z.eq_dec i k) as [->|]; [done|apply Hlow; lia]. }
  apply G; [lia|lia|lia].
Qed.

(** [a & -a] isolates it. *)
Lemma isolate_lowest a : word 64 a → a ≠ 0 → a .& wneg 64 a = 1 ≪ ctz64 a.
Proof.
  intros Ha Hn. destruct (lowest_bit a Ha Hn) as (Hk & Hbit & Hlow). generalize dependent (ctz64 a). intros k Hk Hbit Hlow.
  assert (Hneg : wneg 64 a = 2 ^ 64 - a) by word_lia.
  assert (Ha' : a = (a / 2 ^ (k + 1)) * 2 ^ (k + 1) + 2 ^ k).
  { assert (Hmod : a mod 2 ^ (k + 1) = 2 ^ k).
    { apply Z.bits_inj'. intros i Hi. rewrite Z.pow2_bits_eqb by lia.
      destruct (Z.ltb_spec i (k + 1)).
      - rewrite Z.mod_pow2_bits_low by lia. destruct (Z.eqb_spec k i) as [<-|]; [done|].
        apply Hlow. lia.
      - rewrite Z.mod_pow2_bits_high by lia. symmetry. apply Z.eqb_neq. lia. }
    rewrite <- Hmod, (Z.mul_comm (a / _)). apply Z.div_mod. lia. }
  set (q := a / 2 ^ (k + 1)) in *.
  assert (Hn' : 2 ^ 64 - a = (2 ^ (63 - k) - q - 1) * 2 ^ (k + 1) + 2 ^ k).
  { rewrite Ha' at 1. replace 64 with (63 - k + (k + 1)) by lia.
    rewrite Z.pow_add_r by lia. rewrite (Z.pow_add_r 2 k 1) by lia. ring. }
  rewrite Hneg, Hn', Ha' at 1. clear Hneg.
  assert (Hq : 0 ≤ q < 2 ^ (63 - k)).
  { unfold q. split; [apply Z.div_pos; [word_lia|lia]|]. apply Z.div_lt_upper_bound; [lia|].
    rewrite <- Z.pow_add_r by lia. replace (k + 1 + (63 - k)) with 64 by lia. apply Ha. }
  replace (2 ^ (63 - k) - q - 1) with (Z.lnot q mod 2 ^ (63 - k)).
  2:{ rewrite <- (Z.mod_small (2 ^ (63 - k) - q - 1) (2 ^ (63 - k))) by lia.
      unfold Z.lnot. apply cong_shift with (k := -1). lia. }
  assert (Hbit2 : ∀ u i, 0 ≤ i → Z.testbit (u * 2 ^ (k + 1) + 2 ^ k) i =
    if i <? k then false else if i =? k then true else Z.testbit u (i - (k + 1))).
  { intros u i Hi.
    assert (E : u * 2 ^ (k + 1) + 2 ^ k = (u ≪ (k + 1)) .| 2 ^ k).
    { rewrite shl_mul by lia. rewrite lor_add' by (rewrite ?Z.pow_add_r; lia). lia. }
    rewrite E, Z.lor_spec, Z.shiftl_spec, Z.pow2_bits_eqb by lia.
    destruct (Z.ltb_spec i k); [|destruct (Z.eqb_spec i k) as [->|]].
    - rewrite Z.testbit_neg_r by lia. apply Z.eqb_neq. lia.
    - rewrite Z.eqb_refl. btauto.
    - rewrite (proj2 (Z.eqb_neq k i)) by lia. btauto. }
  apply Z.bits_inj'. intros i Hi. rewrite Z.land_spec, !Hbit2, Z.shiftl_spec by lia.
  destruct (Z.ltb_spec i k); [|destruct (Z.eqb_spec i k) as [->|]].
  - rewrite Z.testbit_neg_r by lia. done.
  - by rewrite Z.sub_diag.
  - replace (Z.testbit 1 (i - k)) with false.
    2:{ symmetry. apply (testbit_small 1 1); lia. }
    destruct (Z.ltb_spec (i - (k + 1)) (63 - k)).
    + rewrite Z.mod_pow2_bits_low, Z.lnot_spec by lia. btauto.
    + rewrite (testbit_small q (63 - k)) by lia. btauto.
Qed.

(** ** Algebra of [gf2_mul] *)

Lemma gf2_mul_xor_l n a b y : gf2_mul n (a .^ b) y = gf2_mul n a y .^ gf2_mul n b y.
Proof.
  unfold gf2_mul. generalize (zseq 0 n). induction l as [|k l IH]; [done|]. cbn [foldl].
  rewrite Z.lxor_spec. destruct (Z.testbit a k), (Z.testbit b k); cbn [xorb];
    rewrite ?(gf2_fold_acc l _ _ (0 .^ _)), IH; bitwise i; btauto.
Qed.

Lemma gf2_mul_xor_r n a y z : gf2_mul n a (y .^ z) = gf2_mul n a y .^ gf2_mul n a z.
Proof.
  unfold gf2_mul. generalize (zseq 0 n). induction l as [|k l IH]; [done|]. cbn [foldl].
  destruct (Z.testbit a k); [|done].
  rewrite !(gf2_fold_acc l _ _ (0 .^ _)), IH, Z.shiftl_lxor. bitwise i; btauto.
Qed.

Lemma gf2_mul_0_l n y : gf2_mul n 0 y = 0.
Proof.
  unfold gf2_mul. generalize (zseq 0 n). induction l as [|k l IH]; [done|]. cbn [foldl].
  by rewrite Z.testbit_0_l.
Qed.

Lemma gf2_mul_0_r n a : gf2_mul n a 0 = 0.
Proof.
  unfold gf2_mul. generalize (zseq 0 n). induction l as [|k l IH]; [done|]. cbn [foldl].
  rewrite Z.shiftl_0_l, Z.lxor_0_r. by destruct (Z.testbit a k).
Qed.

Lemma gf2_mul_bound n a y m : 0 ≤ m → word m y → word (m + Z.of_nat n) (gf2_mul n a y).
Proof.
  intros Hm Hy. unfold gf2_mul.
  assert (G : ∀ l acc, (∀ k, k ∈ l → 0 ≤ k < Z.of_nat n) → word (m + Z.of_nat n) acc →
    word (m + Z.of_nat n) (foldl (λ p k, if Z.testbit a k then p .^ (y ≪ k) else p) acc l)).
  { induction l as [|k l IH]; intros acc Hl Hacc; [done|]. cbn [foldl].
    apply IH; [intros j Hj; apply Hl; by right|].
    destruct (Z.testbit a k); [|done]. specialize (Hl k ltac:(by left)).
    apply lxor_word; [lia|done|]. rewrite shl_mul by lia. unfold word in *.
    split; [lia|]. apply Z.lt_le_trans with (2 ^ m * 2 ^ k); [nia|].
    rewrite <- Z.pow_add_r by lia. apply Z.pow_le_mono_r; lia. }
  apply G; [|unfold word; lia]. intros k Hk. apply elem_of_zseq in Hk. lia.
Qed.

(** Each bit of the product is a sum of products of bits. *)
Lemma gf2_mul_testbit n a y i : 0 ≤ i →
  Z.testbit (gf2_mul n a y) i =
  foldl xorb false ((λ k, Z.testbit a k && Z.testbit y (i - k)) <$> zseq 0 n).
Proof.
  intros Hi. unfold gf2_mul.
  assert (G : ∀ l acc, Z.testbit (foldl (λ p k, if Z.testbit a k then p .^ (y ≪ k) else p) acc l) i =
    foldl xorb (Z.testbit acc i) ((λ k, Z.testbit a k && Z.testbit y (i - k)) <$> l)).
  { induction l as [|k l IH]; intros acc; [done|]. rewrite fmap_cons. cbn [foldl]. rewrite IH. f_equal.
    destruct (Z.testbit a k); cbn [andb]; [|by rewrite xorb_false_r].
    by rewrite Z.lxor_spec, Z.shiftl_spec. }
  rewrite G. by rewrite Z.bits_0.
Qed.

Lemma gf2_mul_bit n k y : 0 ≤ k < Z.of_nat n → gf2_mul n (1 ≪ k) y = y ≪ k.
Proof.
  intros Hk. unfold gf2_mul.
  assert (E : zseq 0 n = zseq 0 (Z.to_nat k) ++ k :: zseq (k + 1) (n - Z.to_nat k - 1)).
  { replace n with (Z.to_nat k + (1 + (n - Z.to_nat k - 1)))%nat at 1 by lia.
    rewrite zseq_app. f_equal. rewrite zseq_app. cbn [zseq app].
    f_equal; [lia|]. f_equal; lia. }
  assert (Hskip : ∀ l acc, (∀ j, j ∈ l → j ≠ k ∧ 0 ≤ j) →
    foldl (λ p j, if Z.testbit (1 ≪ k) j then p .^ (y ≪ j) else p) acc l = acc).
  { induction l as [|j l IH]; intros acc Hl; [done|]. cbn [foldl].
    destruct (Hl j ltac:(by left)) as [Hj Hj0].
    replace (Z.testbit (1 ≪ k) j) with false.
    - apply IH. intros j' Hj'. apply Hl. by right.
    - rewrite Z.shiftl_1_l, Z.pow2_bits_false by lia. done. }
  rewrite E, foldl_app. cbn [foldl]. rewrite (Hskip (zseq 0 _)), Hskip.
  - rewrite Z.shiftl_1_l, Z.pow2_bits_true by lia. by rewrite Z.lxor_0_l.
  - intros j Hj%elem_of_zseq. lia.
  - intros j Hj%elem_of_zseq. lia.
Qed.

Lemma gf2_mul_shift n a y s : 0 ≤ s → gf2_mul n a (y ≪ s) = gf2_mul n a y ≪ s.
Proof.
  intros Hs. apply Z.bits_inj'. intros i Hi.
  rewrite Z.shiftl_spec by lia. destruct (Z.ltb_spec i s).
  - rewrite (Z.testbit_neg_r _ (i - s)), gf2_mul_testbit by lia.
    assert (G : ∀ l, (∀ k, k ∈ l → 0 ≤ k) →
      foldl xorb false ((λ k, Z.testbit a k && Z.testbit (y ≪ s) (i - k)) <$> l) = false).
    { induction l as [|k l IH]; intros Hl; [done|]. rewrite fmap_cons. cbn [foldl].
      specialize (Hl k ltac:(by left)) as Hk.
      assert (E : Z.testbit (y ≪ s) (i - k) = false).
      { destruct (Z.ltb_spec (i - k) 0); [by apply Z.testbit_neg_r|].
        rewrite Z.shiftl_spec, Z.testbit_neg_r by lia. done. }
      rewrite E, andb_false_r. apply IH. intros j Hj. apply Hl. by right. }
    apply G. intros k Hk%elem_of_zseq. lia.
  - rewrite !gf2_mul_testbit by lia. f_equal. apply list_fmap_ext. intros j k Hk.
    apply list_elem_of_lookup_2, elem_of_zseq in Hk. f_equal.
    destruct (Z.ltb_spec (i - k) 0).
    + rewrite !Z.testbit_neg_r by lia. done.
    + rewrite Z.shiftl_spec by lia. f_equal. lia.
Qed.

Lemma poly_nonneg l : Forall (word 64) l → 0 ≤ poly l.
Proof.
  induction 1 as [|x l Hx _ IH]; [done|]. cbn [poly]. unfold word in Hx.
  apply Z.lxor_nonneg. rewrite Z.shiftl_nonneg. lia.
Qed.

(** The first factor word by word. *)
Lemma gf2_mul_poly a A y : word 64 a → Forall (word 64) A →
  gf2_mul (64 * length (a :: A)) (poly (a :: A)) y =
  gf2_mul 64 a y .^ (gf2_mul (64 * length A) (poly A) y ≪ 64).
Proof.
  intros Ha HA. apply Z.bits_inj'. intros i Hi.
  rewrite Z.lxor_spec, Z.shiftl_spec by lia. rewrite !(gf2_mul_testbit _ _ _ i) by lia.
  assert (Hacc : ∀ l b, foldl xorb b l = xorb b (foldl xorb false l)).
  { induction l as [|c l IH]; intros b; cbn [foldl]; [by rewrite xorb_false_r|].
    rewrite IH, (IH (xorb false c)). by rewrite xorb_false_l, xorb_assoc. }
  replace (64 * length (a :: A))%nat with (64 + 64 * length A)%nat by (cbn [length]; lia).
  rewrite zseq_app, fmap_app, foldl_app, Hacc. f_equal.
  - f_equal. apply list_fmap_ext. intros j k Hk.
    apply list_elem_of_lookup_2, elem_of_zseq in Hk. f_equal. cbn [poly].
    rewrite Z.lxor_spec, Z.shiftl_spec, (Z.testbit_neg_r _ (k - 64)) by lia. btauto.
  - assert (Hs : zseq (0 + Z.of_nat 64) (64 * length A) = (λ k, k + 64) <$> zseq 0 (64 * length A)).
    { apply list_eq. intros j. rewrite list_lookup_fmap.
      destruct (decide (j < 64 * length A)%nat).
      - rewrite !lookup_zseq by done. cbn. f_equal. lia.
      - rewrite !lookup_ge_None_2 by (rewrite ?length_zseq; lia). done. }
    rewrite Hs, <- list_fmap_compose.
    assert (Hin : ∀ k, k ∈ zseq 0 (64 * length A) →
      Z.testbit (poly (a :: A)) (k + 64) && Z.testbit y (i - (k + 64)) =
      Z.testbit (poly A) k && Z.testbit y (i - 64 - k)).
    { intros k Hk%elem_of_zseq. cbn [poly].
      rewrite Z.lxor_spec, Z.shiftl_spec, (testbit_small a 64) by (done || lia).
      replace (k + 64 - 64) with k by lia. replace (i - (k + 64)) with (i - 64 - k) by lia.
      by rewrite xorb_false_l. }
    destruct (Z.ltb_spec i 64).
    + rewrite (Z.testbit_neg_r _ (i - 64)) by lia.
      assert (G : ∀ l, (∀ k, k ∈ l → 0 ≤ k) →
        foldl xorb false (((λ k, Z.testbit (poly (a :: A)) k && Z.testbit y (i - k)) ∘ (λ k, k + 64)) <$> l)
        = false).
      { induction l as [|k l IH]; intros Hl; [done|]. rewrite fmap_cons. cbn [foldl compose].
        rewrite (Z.testbit_neg_r y) by (specialize (Hl k ltac:(by left)); lia).
        rewrite andb_false_r. apply IH. intros j Hj. apply Hl. by right. }
      apply G. intros k Hk%elem_of_zseq. lia.
    + rewrite gf2_mul_testbit by lia. f_equal. apply list_fmap_ext. intros j k Hk.
      unfold compose. apply Hin. by apply list_elem_of_lookup_2 in Hk.
Qed.

(** ** The convolutions multiply *)

Lemma at_word l i : Forall (word 64) l → word 64 (at_ l i).
Proof.
  intros Hl. unfold at_. destruct (nth_in_or_default i l 0) as [Hin| ->]; [|word_lia].
  apply list_elem_of_In in Hin. by apply (proj1 (Forall_forall _ _) Hl).
Qed.

(** The loop [while (a)] ends by itself, once for each bit. *)
Lemma scalar_bits_spec fuel R B i a m :
  Forall (word 64) B → word 64 a → 0 ≤ m → 65 ≤ Z.of_nat fuel + m →
  (∀ j, 0 ≤ j < m → Z.testbit a j = false) → (i + length B < length R)%nat →
  poly (scalar_bits fuel R B i a) = poly R .^ (gf2_mul 64 a (poly B) ≪ (64 * Z.of_nat i)) ∧
  length (scalar_bits fuel R B i a) = length R.
Proof.
  revert R a m. induction fuel as [|fuel IH]; intros R a m HB Ha Hm Hf Hlow Hl; cbn [scalar_bits].
  - assert (a = 0) as ->.
    { apply Z.bits_inj'. intros j Hj. rewrite Z.bits_0. destruct (Z.ltb_spec j 64);
        [apply Hlow; lia|by apply (testbit_small a 64)]. }
    by rewrite gf2_mul_0_l, Z.shiftl_0_l, Z.lxor_0_r.
  - destruct (Z.eqb_spec a 0) as [->|Hn].
    + by rewrite gf2_mul_0_l, Z.shiftl_0_l, Z.lxor_0_r.
    + destruct (lowest_bit a Ha Hn) as (Hk & Hbit & Hbelow). rewrite isolate_lowest by done.
      set (k := ctz64 a) in *.
      assert (Hmk : m ≤ k).
      { destruct (Z.le_gt_cases m k); [done|]. rewrite Hlow in Hbit by lia. done. }
      destruct (scalar_row_spec R B i k HB Hk Hl) as [H1 H2].
      assert (Hw1 : word 64 (1 ≪ k)).
      { rewrite Z.shiftl_1_l. unfold word. split; [lia|]. apply Z.pow_lt_mono_r; lia. }
      assert (Hx : word 64 (a .^ (1 ≪ k))) by (by apply lxor_word).
      destruct (IH (scalar_row R B i k) (a .^ (1 ≪ k)) (k + 1)) as [H3 H4];
        [done|done|lia|lia| |by rewrite H2|].
      { intros j Hj. rewrite Z.lxor_spec, Z.shiftl_1_l, Z.pow2_bits_eqb by lia.
        destruct (Z.eqb_spec k j) as [<-|]; [by rewrite Hbit|]. rewrite Hbelow by lia. done. }
      rewrite H3, H4, H1, H2. split; [|done]. rewrite Z.lxor_assoc. f_equal.
      rewrite gf2_mul_xor_l, gf2_mul_bit, Z.shiftl_lxor, Z.shiftl_shiftl by lia.
      rewrite (Z.add_comm k). set (p := gf2_mul 64 a (poly B) ≪ _). bitwise j. btauto.
Qed.

Lemma clmul_row_spec R B i a : Forall (word 64) B → (i + length B < length R)%nat →
  let R' := foldl (λ R (j : nat), let b := at_ B j in
      if b =? 0 then R
      else let p := clmul64 a b in xor_at (xor_at R (i + j) (u64 p)) (i + j + 1) (u64 (p ≫ 64)))
      R (seq 0 (length B)) in
  poly R' = poly R .^ (gf2_mul 64 a (poly B) ≪ (64 * Z.of_nat i)) ∧ length R' = length R.
Proof.
  intros HB Hl.
  assert (G : ∀ B' pre R, B = pre ++ B' → (i + length B < length R)%nat →
    let R' := foldl (λ R (j : nat), let b := at_ B j in
      if b =? 0 then R
      else let p := clmul64 a b in xor_at (xor_at R (i + j) (u64 p)) (i + j + 1) (u64 (p ≫ 64)))
      R (seq (length pre) (length B')) in
    poly R' = poly R .^ (gf2_mul 64 a (poly B') ≪ (64 * Z.of_nat (i + length pre))) ∧
    length R' = length R).
  { induction B' as [|b B' IH]; intros pre R0 HE Hl0; cbn [length seq foldl poly].
    - by rewrite gf2_mul_0_r, Z.shiftl_0_l, Z.lxor_0_r.
    - assert (Hb : at_ B (length pre) = b).
      { unfold at_. rewrite HE, app_nth2, Nat.sub_diag; [done|lia]. }
      assert (Hbw : word 64 b) by (rewrite HE in HB; by apply Forall_app in HB as [_ [? _]%Forall_cons]).
      assert (Hlen : (length pre < length B)%nat) by (rewrite HE, length_app; cbn [length]; lia).
      cbv zeta. rewrite Hb. set (R1 := if b =? 0 then _ else _).
      assert (H1 : poly R1 = poly R0 .^ (gf2_mul 64 a b ≪ (64 * Z.of_nat (i + length pre))) ∧
        length R1 = length R0).
      { unfold R1. destruct (Z.eqb_spec b 0) as [->|Hb0].
        - by rewrite gf2_mul_0_r, Z.shiftl_0_l, Z.lxor_0_r.
        - assert (Hp : word 128 (gf2_mul 64 a b)) by (exact (gf2_mul_bound 64 a b 64 ltac:(done) Hbw)).
          rewrite clmul64_eq. clear R1 IH.
          generalize dependent (gf2_mul 64 a b). intros p Hp.
          assert (Hi0 : (i + length pre < length R0)%nat) by (clear - Hl0 Hlen; lia).
          assert (Hi1 : (i + length pre + 1 < length R0)%nat) by (clear - Hl0 Hlen; lia).
          rewrite !poly_xor_at, !xor_at_length by (rewrite ?xor_at_length; done).
          split; [|done]. rewrite Z.lxor_assoc. f_equal.
          assert (Hhi : u64 (p ≫ 64) = p ≫ 64).
          { apply wrap_small. rewrite shr_div by done. word_lia. }
          rewrite Hhi. replace (64 * Z.of_nat (i + length pre + 1)) with
            (64 + 64 * Z.of_nat (i + length pre)) by lia.
          rewrite <- (Z.shiftl_shiftl _ 64), <- Z.shiftl_lxor by lia. f_equal.
          apply Z.bits_inj'. intros j Hj. rewrite Z.lxor_spec, Z.shiftl_spec by lia.
          unfold wrap. destruct (Z.ltb_spec j 64).
          + rewrite Z.mod_pow2_bits_low, (Z.testbit_neg_r _ (j - 64)) by lia. btauto.
          + rewrite Z.mod_pow2_bits_high, Z.shiftr_spec by lia.
            replace (j - 64 + 64) with j by lia. btauto. }
      destruct H1 as [H1 H2].
      destruct (IH (pre ++ [b]) R1) as [H3 H4];
        [by rewrite HE, <- app_assoc|rewrite H2; lia|].
      rewrite length_app, Nat.add_1_r in H3, H4. cbn zeta in *. rewrite H3, H4, H1, H2.
      split; [|done]. rewrite Z.lxor_assoc. f_equal.
      rewrite gf2_mul_xor_r, gf2_mul_shift, Z.shiftl_lxor, Z.shiftl_shiftl by lia.
      do 2 f_equal. lia. }
  destruct (G B [] R eq_refl Hl) as [G1 G2]. cbn zeta in *. rewrite Nat.add_0_r in G1. by split.
Qed.

(** The outer loop of both, from the effect of a row. *)
Lemma conv_rows (f : list Z → nat → list Z) A y n :
  Forall (word 64) A →
  (∀ R i, (i < length A)%nat → length R = n →
     poly (f R i) = poly R .^ (gf2_mul 64 (at_ A i) y ≪ (64 * Z.of_nat i)) ∧ length (f R i) = n) →
  let R := foldl f (replicate n 0) (seq 0 (length A)) in
  poly R = gf2_mul (64 * length A) (poly A) y ∧ length R = n.
Proof.
  intros HA Hf.
  assert (G : ∀ A' pre R, A = pre ++ A' → length R = n →
    let R' := foldl f R (seq (length pre) (length A')) in
    poly R' = poly R .^ (gf2_mul (64 * length A') (poly A') y ≪ (64 * Z.of_nat (length pre))) ∧
    length R' = n).
  { induction A' as [|a A' IH]; intros pre R0 HE Hl; [by rewrite gf2_mul_0_l, Z.shiftl_0_l, Z.lxor_0_r|].
    cbn [length seq foldl].
    assert (Ha : at_ A (length pre) = a) by (unfold at_; rewrite HE, app_nth2, Nat.sub_diag; [done|lia]).
    assert (Hw : word 64 a ∧ Forall (word 64) A')
      by (rewrite HE in HA; by apply Forall_app in HA as [_ [? ?]%Forall_cons]).
    destruct (Hf R0 (length pre)) as [H1 H2]; [rewrite HE, length_app; cbn [length]; lia|done|].
    destruct (IH (pre ++ [a]) (f R0 (length pre))) as [H3 H4]; [by rewrite HE, <- app_assoc|done|].
    rewrite length_app, Nat.add_1_r in H3, H4. cbn zeta in *. split; [|done].
    change (S (length A')) with (length (a :: A')).
    rewrite H3, H1, Ha, (gf2_mul_poly a A' y) by apply Hw.
    rewrite Z.lxor_assoc. f_equal. rewrite Z.shiftl_lxor, Z.shiftl_shiftl by lia.
    do 2 f_equal. lia. }
  destruct (G A [] (replicate n 0) eq_refl (length_replicate _ _)) as [G1 G2]. cbn zeta in *.
  rewrite poly_replicate, Z.lxor_0_l, Z.shiftl_0_r in G1. by split.
Qed.

Lemma gf2_conv_scalar_spec A B : Forall (word 64) A → Forall (word 64) B →
  poly (gf2_conv_scalar A B) = gf2_mul (64 * length A) (poly A) (poly B) ∧
  length (gf2_conv_scalar A B) = (length A + length B)%nat.
Proof.
  intros HA HB. apply conv_rows; [done|]. intros R i Hi Hl. rewrite <- Hl.
  apply (scalar_bits_spec 65 R B i (at_ A i) 0); [done|by apply at_word|done|done|lia|lia].
Qed.

Lemma gf2_conv_clmul_spec A B : Forall (word 64) A → Forall (word 64) B →
  poly (gf2_conv_clmul A B) = gf2_mul (64 * length A) (poly A) (poly B) ∧
  length (gf2_conv_clmul A B) = (length A + length B)%nat.
Proof.
  intros HA HB. apply conv_rows; [done|]. intros R i Hi Hl. cbv zeta.
  destruct (Z.eqb_spec (at_ A i) 0) as [->|].
  - by rewrite gf2_mul_0_l, Z.shiftl_0_l, Z.lxor_0_r.
  - rewrite <- Hl. apply (clmul_row_spec R B i (at_ A i) HB). lia.
Qed.

(** Words of a vector are read off the polynomial. *)
Lemma xor_at_words R n x : Forall (word 64) R → word 64 x → Forall (word 64) (xor_at R n x).
Proof. intros HR Hx. apply Forall_alter; [done|]. intros r _ Hr. by apply lxor_word. Qed.

Lemma foldl_words {A} (f : list Z → A → list Z) R l : Forall (word 64) R →
  (∀ R x, Forall (word 64) R → Forall (word 64) (f R x)) → Forall (word 64) (foldl f R l).
Proof. intros HR Hf. revert R HR. induction l as [|x l IH]; intros R HR; [done|]. apply IH, Hf, HR. Qed.

Lemma shr64_word b k : 0 ≤ k → word 64 b → word 64 (b ≫ k).
Proof.
  intros Hk Hb. rewrite shr_div by done. unfold word in *. split; [apply Z.div_pos; lia|].
  apply Z.div_lt_upper_bound; [lia|]. assert (0 < 2 ^ k) by lia. nia.
Qed.

Lemma scalar_bits_words fuel R B i a : Forall (word 64) R → Forall (word 64) B →
  Forall (word 64) (scalar_bits fuel R B i a).
Proof.
  revert R a. induction fuel as [|fuel IH]; intros R a HR HB; cbn [scalar_bits]; [done|].
  destruct (a =? 0); [done|]. apply IH; [|done]. apply foldl_words; [done|]. clear R HR. intros R j HR.
  cbv zeta. assert (Hctz : ∀ n k, 0 ≤ k → k ≤ ctz_from n k a ≤ k + Z.of_nat n).
  { induction n as [|n IHn]; intros k Hk; cbn [ctz_from]; [lia|].
    destruct (Z.testbit a k); [lia|]. specialize (IHn (k + 1)). lia. }
  specialize (Hctz 64%nat 0 ltac:(lia)). fold (ctz64 a) in Hctz.
  destruct (ctz64 a =? 0); repeat apply xor_at_words; try done.
  - by apply at_word.
  - apply wrap_word. done.
  - apply shr64_word; [lia|by apply at_word].
Qed.

Lemma conv_scalar_words A B : Forall (word 64) B → Forall (word 64) (gf2_conv_scalar A B).
Proof.
  intros HB. apply foldl_words; [by apply Forall_replicate|]. intros R i HR.
  by apply scalar_bits_words.
Qed.

Lemma conv_clmul_words A B : Forall (word 64) (gf2_conv_clmul A B).
Proof.
  apply foldl_words; [by apply Forall_replicate|]. intros R i HR. cbv zeta.
  destruct (at_ A i =? 0); [done|]. apply foldl_words; [done|]. intros R' j HR'.
  destruct (at_ B j =? 0); [done|]. repeat apply xor_at_words; try done; by apply wrap_word.
Qed.

(** Bit [j] of the polynomial is bit [j mod 64] of word [j / 64]. *)
Lemma poly_testbit l j : Forall (word 64) l → 0 ≤ j →
  Z.testbit (poly l) j = Z.testbit (at_ l (Z.to_nat (j / 64))) (j mod 64).
Proof.
  intros Hl. revert j. induction Hl as [|x l Hx Hl IH]; intros j Hj; cbn [poly].
  - unfold at_. by destruct (Z.to_nat (j / 64)); rewrite !Z.bits_0.
  - rewrite Z.lxor_spec, Z.shiftl_spec by lia. destruct (Z.ltb_spec j 64).
    + rewrite (Z.testbit_neg_r _ (j - 64)), xorb_false_r by lia.
      rewrite (Z.div_small j), (Z.mod_small j) by lia. done.
    + rewrite (testbit_small x 64), xorb_false_l, IH by (done || lia).
      replace j with (j - 64 + 1 * 64) at 3 4 by lia. rewrite Z.div_add, Z_mod_plus_full by lia.
      replace (Z.to_nat ((j - 64) / 64 + 1)) with (S (Z.to_nat ((j - 64) / 64))) by lia. done.
Qed.

Lemma poly_inj l l' : Forall (word 64) l → Forall (word 64) l' → length l = length l' →
  poly l = poly l' → l = l'.
Proof.
  intros Hl Hl' Hlen Hp. apply list_eq. intros i.
  destruct (decide (i < length l)%nat) as [Hi|].
  2:{ rewrite !lookup_ge_None_2 by lia. done. }
  destruct (lookup_lt_is_Some_2 l i Hi) as [x Hx].
  destruct (lookup_lt_is_Some_2 l' i ltac:(lia)) as [x' Hx']. rewrite Hx, Hx'. f_equal.
  pose proof (Forall_lookup_1 _ _ _ _ Hl Hx). pose proof (Forall_lookup_1 _ _ _ _ Hl' Hx').
  apply Z.bits_inj'. intros b Hb. destruct (Z.ltb_spec b 64).
  - assert (E := poly_testbit l (64 * Z.of_nat i + b) Hl ltac:(lia)).
    assert (E' := poly_testbit l' (64 * Z.of_nat i + b) Hl' ltac:(lia)).
    replace ((64 * Z.of_nat i + b) / 64) with (Z.of_nat i) in E, E' by lia.
    replace ((64 * Z.of_nat i + b) mod 64) with b in E, E' by lia.
    rewrite Nat2Z.id in E, E'. unfold at_ in E, E'.
    rewrite (nth_lookup_Some _ _ _ _ Hx) in E. rewrite (nth_lookup_Some _ _ _ _ Hx') in E'.
    by rewrite <- E, <- E', Hp.
  - by rewrite !(testbit_small _ 64) by (done || lia).
Qed.

Lemma conv_agree A B : Forall (word 64) A → Forall (word 64) B →
  gf2_conv_scalar A B = gf2_conv_clmul A B.
Proof.
  intros HA HB. destruct (gf2_conv_scalar_spec A B HA HB) as [H1 H2].
  destruct (gf2_conv_clmul_spec A B HA HB) as [H3 H4].
  apply poly_inj; [by apply conv_scalar_words|apply conv_clmul_words|by rewrite H2, H4|].
  by rewrite H1, H3.
Qed.

(** ** Extraction *)

Lemma bit_at conv pos : Forall (word 64) conv → 0 ≤ pos →
  (at_ conv (Z.to_nat (pos ≫ 6)) ≫ (pos .& 63)) .& 1 = b2z (Z.testbit (poly conv) pos).
Proof.
  intros Hc Hp. rewrite poly_testbit, (land_low _ 6 63), (land_low _ 1 1), (shr_div pos 6) by done.
  change (2 ^ 6) with 64. change (2 ^ 1) with 2.
  rewrite Z.testbit_eqb, shr_div by lia.
  assert (H : (at_ conv (Z.to_nat (pos / 64)) / 2 ^ (pos mod 64)) mod 2 = 0 ∨
              (at_ conv (Z.to_nat (pos / 64)) / 2 ^ (pos mod 64)) mod 2 = 1).
  { pose proof (Z.mod_pos_bound (at_ conv (Z.to_nat (pos / 64)) / 2 ^ (pos mod 64)) 2 ltac:(lia)) as Hb.
    generalize dependent ((at_ conv (Z.to_nat (pos / 64)) / 2 ^ (pos mod 64)) mod 2). clear. lia. }
  by destruct H as [-> | ->].
Qed.

Lemma lor_set_bit acc r (b : bool) i : 0 ≤ i → 0 ≤ r < 64 →
  Z.testbit (acc .| wshl 64 (b2z b) r) i = Z.testbit acc i || ((i =? r) && b).
Proof.
  intros Hi Hr. rewrite Z.lor_spec. f_equal. unfold wshl, wrap.
  assert (Hs : b2z b ≪ r = if b then 2 ^ r else 0)
    by (destruct b; cbn [b2z]; [apply Z.shiftl_1_l|apply Z.shiftl_0_l]).
  rewrite Hs, Z.mod_small.
  - destruct b; [rewrite Z.pow2_bits_eqb by lia; rewrite Z.eqb_sym; btauto|].
    rewrite Z.bits_0. btauto.
  - destruct b; [|done]. split; [lia|]. apply Z.pow_lt_mono_r; lia.
Qed.

Lemma extract_127_spec conv offset : Forall (word 64) conv → 0 ≤ offset →
  let '(out_lo, out_hi) := extract_127 conv offset in
  (∀ i, 0 ≤ i → Z.testbit out_lo i = (i <? 64) && Z.testbit (poly conv) (offset + i)) ∧
  (∀ i, 0 ≤ i → Z.testbit out_hi i = (i <? 63) && Z.testbit (poly conv) (offset + 64 + i)).
Proof.
  intros Hc Ho. unfold extract_127.
  assert (G : ∀ n s out_lo out_hi, 0 ≤ s → s + Z.of_nat n = 127 →
    (∀ i, 0 ≤ i → Z.testbit out_lo i = (i <? 64) && (i <? s) && Z.testbit (poly conv) (offset + i)) →
    (∀ i, 0 ≤ i → Z.testbit out_hi i = (i + 64 <? s) && Z.testbit (poly conv) (offset + 64 + i)) →
    let '(out_lo, out_hi) := foldl (λ '(out_lo, out_hi) r,
      let pos := offset + r in
      let bit := (at_ conv (Z.to_nat (pos ≫ 6)) ≫ (pos .& 63)) .& 1 in
      if r <? 64 then (out_lo .| wshl 64 bit r, out_hi)
      else (out_lo, out_hi .| wshl 64 bit (r - 64))) (out_lo, out_hi) (zseq s n) in
    (∀ i, 0 ≤ i → Z.testbit out_lo i = (i <? 64) && Z.testbit (poly conv) (offset + i)) ∧
    (∀ i, 0 ≤ i → Z.testbit out_hi i = (i <? 63) && Z.testbit (poly conv) (offset + 64 + i))).
  { induction n as [|n IH]; intros s out_lo out_hi Hs Hsn Hlo Hhi; cbn [zseq foldl].
    - split; intros i Hi.
      + rewrite Hlo by done. destruct (Z.ltb_spec i 64); [|done].
        rewrite (proj2 (Z.ltb_lt i s)) by lia. done.
      + rewrite Hhi by done. f_equal. destruct (Z.ltb_spec (i + 64) s);
          destruct (Z.ltb_spec i 63); (done || lia).
    - cbv zeta. rewrite bit_at by (done || lia).
      destruct (Z.ltb_spec s 64) as [Hs64|Hs64]; apply IH; try lia; try done; intros i Hi.
      + rewrite lor_set_bit, Hlo by lia. destruct (Z.eqb_spec i s) as [->|].
        * rewrite Z.ltb_irrefl, (proj2 (Z.ltb_lt s 64)), (proj2 (Z.ltb_lt s (s + 1))) by lia. btauto.
        * replace (i <? s + 1) with (i <? s); [btauto|].
          destruct (Z.ltb_spec i s); destruct (Z.ltb_spec i (s + 1)); (done || lia).
      + rewrite Hhi by done. f_equal.
        destruct (Z.ltb_spec (i + 64) s); destruct (Z.ltb_spec (i + 64) (s + 1)); (done || lia).
      + rewrite Hlo by done. f_equal. destruct (Z.ltb_spec i 64); [|done].
        destruct (Z.ltb_spec i s); destruct (Z.ltb_spec i (s + 1)); (done || lia).
      + rewrite lor_set_bit, Hhi by lia. destruct (Z.eqb_spec i (s - 64)) as [->|].
        * replace (s - 64 + 64) with s by lia. replace (offset + 64 + (s - 64)) with (offset + s) by lia.
          rewrite Z.ltb_irrefl, (proj2 (Z.ltb_lt s (s + 1))) by lia. btauto.
        * replace (i + 64 <? s + 1) with (i + 64 <? s); [btauto|].
          destruct (Z.ltb_spec (i + 64) s); destruct (Z.ltb_spec (i + 64) (s + 1)); (done || lia). }
  apply (G 127%nat 0 0 0); [lia|done| |]; intros i Hi; rewrite Z.bits_0.
  - rewrite (proj2 (Z.ltb_ge i 0)) by lia. btauto.
  - rewrite (proj2 (Z.ltb_ge (i + 64) 0)) by lia. done.
Qed.

Lemma extract_127_ext conv conv' offset : Forall (word 64) conv → Forall (word 64) conv' → 0 ≤ offset →
  (∀ r, 0 ≤ r < 127 → Z.testbit (poly conv) (offset + r) = Z.testbit (poly conv') (offset + r)) →
  extract_127 conv offset = extract_127 conv' offset.
Proof.
  intros Hc Hc' Ho Hr. pose proof (extract_127_spec conv offset Hc Ho) as H1.
  pose proof (extract_127_spec conv' offset Hc' Ho) as H2.
  destruct (extract_127 conv offset) as [l h], (extract_127 conv' offset) as [l' h'].
  destruct H1 as [Hl Hh], H2 as [Hl' Hh'].
  f_equal; apply Z.bits_inj'; intros i Hi.
  - rewrite Hl, Hl' by done. destruct (Z.ltb_spec i 64); [|done]. apply Hr. lia.
  - rewrite Hh, Hh' by done. destruct (Z.ltb_spec i 63); [|done].
    rewrite <- !Z.add_assoc. apply Hr. lia.
Qed.

(** A sum of bits, and its dependence on its terms only. *)
Definition xor_sum (f : Z → bool) (n : nat) : bool := foldl xorb false (f <$> zseq 0 n).

Lemma xor_sum_ext f g n : (∀ k, 0 ≤ k < Z.of_nat n → f k = g k) → xor_sum f n = xor_sum g n.
Proof.
  intros Hfg. unfold xor_sum. f_equal. apply list_fmap_ext. intros j k Hk.
  apply list_elem_of_lookup_2, elem_of_zseq in Hk. apply Hfg. lia.
Qed.

Lemma xor_sum_tail f n m : (∀ k, Z.of_nat n ≤ k < Z.of_nat (n + m) → f k = false) →
  xor_sum f (n + m) = xor_sum f n.
Proof.
  induction m as [|m IH]; intros Hf; [by rewrite Nat.add_0_r|].
  rewrite Nat.add_succ_r. unfold xor_sum in *. rewrite zseq_snoc, fmap_app, foldl_app, IH.
  - cbn [fmap list_fmap foldl]. rewrite Hf by lia. apply xorb_false_r.
  - intros k Hk. apply Hf. lia.
Qed.

(** The polynomial of a truncated vector has the low bits. *)
Lemma poly_take n l j : Forall (word 64) l → 0 ≤ j →
  Z.testbit (poly (take n l)) j = (j <? 64 * Z.of_nat n) && Z.testbit (poly l) j.
Proof.
  intros Hl Hj. rewrite !poly_testbit by (done || by apply Forall_take). unfold at_.
  destruct (Z.ltb_spec j (64 * Z.of_nat n)).
  - rewrite !nth_lookup, lookup_take_lt by lia. done.
  - rewrite nth_lookup, lookup_take_ge by lia. cbn. apply Z.bits_0.
Qed.

Lemma mask_last_spec y bits : Forall (word 64) y → 0 < bits →
  Z.of_nat (length y) = (bits + 63) / 64 →
  Forall (word 64) (mask_last y bits) ∧ length (mask_last y bits) = length y ∧
  ∀ j, 0 ≤ j → Z.testbit (poly (mask_last y bits)) j = (j <? bits) && Z.testbit (poly y) j.
Proof.
  intros Hy Hb Hlen. unfold mask_last. rewrite (land_low _ 6 63) by done. change (2 ^ 6) with 64.
  destruct (Z.eqb_spec (bits mod 64) 0) as [E|E].
  - split_and!; [done|done|]. intros j Hj. destruct (Z.ltb_spec j bits); [done|].
    rewrite poly_testbit by done. unfold at_. rewrite nth_overflow by lia. apply Z.bits_0.
  - assert (Hm : wshl 64 1 (bits mod 64) - 1 = Z.ones (bits mod 64)).
    { rewrite Z.ones_equiv. unfold wshl. rewrite Z.shiftl_1_l, wrap_small; [lia|].
      unfold word. split; [lia|]. apply Z.pow_lt_mono_r; lia. }
    rewrite Hm.
    assert (Hw : Forall (word 64) (alter (λ x, x .& Z.ones (bits mod 64)) (length y - 1)%nat y)).
    { apply Forall_alter; [done|]. intros x _ Hx. rewrite Z.land_ones by lia.
      assert (2 ^ (bits mod 64) < 2 ^ 64) by (apply Z.pow_lt_mono_r; lia).
      pose proof (Z.mod_pos_bound x (2 ^ (bits mod 64)) ltac:(lia)). unfold word. lia. }
    split_and!; [done|by rewrite length_alter|]. intros j Hj. rewrite !poly_testbit by done.
    unfold at_. rewrite !nth_lookup. destruct (decide (Z.to_nat (j / 64) = length y - 1)%nat) as [Ei|Ei].
    + rewrite Ei, list_lookup_alter_eq. destruct (y !! (length y - 1)%nat) as [x|] eqn:Ex; cbn.
      * rewrite Z.land_spec. destruct (Z.ltb_spec j bits).
        -- rewrite Z.ones_spec_low by lia. btauto.
        -- rewrite Z.ones_spec_high by lia. btauto.
      * by rewrite Z.bits_0, andb_false_r.
    + rewrite list_lookup_alter_ne by done. destruct (Z.ltb_spec j bits); [done|].
      rewrite lookup_ge_None_2 by lia. cbn. by rewrite Z.bits_0.
Qed.

(** ** Properties *)

(** C37. The three convolutions (portable, [PCLMULQDQ] and ARM) compute the
    product of polynomials over GF(2), so that the candidates among which
    [select_toeplitz] chooses agree, whichever the machine has. *)
Theorem gf2_conv_correct (A B : list Z) (HA : Forall (word 64) A) (HB : Forall (word 64) B) :
  gf2_conv_scalar A B = gf2_conv_clmul A B ∧ gf2_conv_scalar A B = gf2_conv_pmull A B ∧
  toep_127_scalar B A = toep_127_clmul B A ∧ toep_127_scalar B A = toep_127_pmull B A ∧
  length (gf2_conv_scalar A B) = (length A + length B)%nat ∧
  ∀ j, 0 ≤ j →
    Z.testbit (poly (gf2_conv_scalar A B)) j =
    xor_sum (λ k, Z.testbit (poly A) k && Z.testbit (poly B) (j - k)) (64 * length A).
Proof.
  pose proof (conv_agree A B HA HB) as He. destruct (gf2_conv_scalar_spec A B HA HB) as [H1 H2].
  assert (Hp : gf2_conv_scalar A B = gf2_conv_pmull A B) by exact He.
  split; [exact He|]. split; [exact Hp|]. split; [unfold toep_127_scalar, toep_127_clmul; by rewrite He|].
  split; [unfold toep_127_scalar, toep_127_pmull; by rewrite Hp|]. split; [exact H2|].
  intros j Hj. rewrite H1, gf2_mul_testbit by done. done.
Qed.

Lemma gf2_conv_correct_witness :
  gf2_conv_scalar [3; 2 ^ 63] [5] = gf2_conv_clmul [3; 2 ^ 63] [5].
Proof. apply (gf2_conv_correct [3; 2 ^ 63] [5]); repeat constructor; unfold word; cbn; lia. Defined.

(** On vectors of the right shape [toep_127_full] is the product of a
    127-row Toeplitz matrix over GF(2) by the first [bits] bits of [ybits]: every
    one of them, and every bit of the matrix, counts. *)
Theorem toep_127_full_correct (top ybits : list Z) (bits : Z)
  (Htop : Forall (word 64) top) (Hy : Forall (word 64) ybits) (Hbits : 0 < bits)
  (Hly : Z.of_nat (length ybits) = (bits + 63) / 64)
  (Hlt : Z.of_nat (length top) = (bits + 126 + 63) / 64) :
  ∃ out_lo out_hi, toep_127_full top ybits bits = Ok (out_lo, out_hi) ∧
    word 64 out_lo ∧ word 63 out_hi ∧
    ∀ r, 0 ≤ r < 127 →
      Z.testbit (out_lo + 2 ^ 64 * out_hi) r =
      xor_sum (λ k, Z.testbit (poly ybits) k && Z.testbit (poly top) (bits - 1 + r - k))
        (Z.to_nat bits).
Proof.
  unfold toep_127_full. rewrite (proj2 (Z.eqb_neq bits 0)) by lia.
  rewrite Hly, Hlt, !Z.eqb_refl. cbn [negb orb].
  destruct (mask_last_spec ybits bits Hy Hbits Hly) as (Hmw & Hml & Hmb).
  pose proof (extract_127_spec (gf2_conv_clmul (mask_last ybits bits) top) (bits - 1)
    (conv_clmul_words _ _) ltac:(lia)) as Hx.
  destruct (extract_127 _ _) as [l h]. destruct Hx as [Hl Hh].
  assert (Hword : ∀ x n, 0 ≤ n → (∀ i, n ≤ i → Z.testbit x i = false) → word n x).
  { intros x n Hn Hhigh. assert (E : x = x mod 2 ^ n).
    { apply Z.bits_inj'. intros i Hi. destruct (Z.ltb_spec i n).
      - by rewrite Z.mod_pow2_bits_low by lia.
      - rewrite Z.mod_pow2_bits_high by lia. by apply Hhigh. }
    rewrite E. unfold word. apply Z.mod_pos_bound. lia. }
  assert (Hlw : word 64 l).
  { apply Hword; [done|]. intros i Hi. rewrite Hl by lia. by rewrite (proj2 (Z.ltb_ge i 64)). }
  assert (Hhw : word 63 h).
  { apply Hword; [done|]. intros i Hi. rewrite Hh by lia. by rewrite (proj2 (Z.ltb_ge i 63)). }
  exists l, h. split; [done|]. split; [done|]. split; [done|].
  intros r Hr. replace (l + 2 ^ 64 * h) with (l .| (h * 2 ^ 64))
    by (rewrite lor_add by (done || apply Hlw); lia).
  rewrite <- shl_mul, Z.lor_spec, Z.shiftl_spec by lia.
  assert (E : Z.testbit l r || Z.testbit h (r - 64) =
    Z.testbit (poly (gf2_conv_clmul (mask_last ybits bits) top)) (bits - 1 + r)).
  { rewrite Hl by lia. destruct (Z.ltb_spec r 64).
    - rewrite (Z.testbit_neg_r h) by lia. btauto.
    - rewrite Hh by lia. rewrite (proj2 (Z.ltb_lt (r - 64) 63)) by lia. cbn [andb orb]. f_equal. lia. }
  rewrite E. destruct (gf2_conv_clmul_spec (mask_last ybits bits) top Hmw Htop) as [-> _].
  rewrite gf2_mul_testbit, Hml by lia.
  fold (xor_sum (λ k, Z.testbit (poly (mask_last ybits bits)) k &&
    Z.testbit (poly top) (bits - 1 + r - k)) (64 * length ybits)).
  replace (64 * length ybits)%nat with (Z.to_nat bits + (64 * length ybits - Z.to_nat bits))%nat by lia.
  rewrite xor_sum_tail.
  - apply xor_sum_ext. intros k Hk. rewrite Hmb, (proj2 (Z.ltb_lt k bits)) by lia. done.
  - intros k Hk. rewrite Hmb, (proj2 (Z.ltb_ge k bits)) by lia. done.
Qed.

Lemma toep_127_full_correct_witness :
  ∃ out_lo out_hi, toep_127_full [7; 9; 1; 2] [11; 13] 100 = Ok (out_lo, out_hi) ∧ word 64 out_lo.
Proof.
  destruct (toep_127_full_correct [7; 9; 1; 2] [11; 13] 100) as (l & h & H1 & H2 & _);
    [repeat constructor; unfold word; cbn; lia..|lia|reflexivity|reflexivity|].
  exists l, h. split; [exact H1|exact H2].
Defined.

(** [toep_127] keeps the low 127 bits of the product: nothing past the
    second word of [top] or of [ybits] reaches the output. *)
Theorem toep_127_prefix (top ybits : list Z)
  (Htop : Forall (word 64) top) (Hy : Forall (word 64) ybits) :
  toep_127 top ybits = toep_127 (take 2 top) (take 2 ybits).
Proof.
  unfold toep_127, toep_127_scalar.
  apply extract_127_ext; [by apply conv_scalar_words|by apply conv_scalar_words, Forall_take|done|].
  intros r Hr. rewrite Z.add_0_l.
  destruct (gf2_conv_scalar_spec ybits top Hy Htop) as [-> _].
  destruct (gf2_conv_scalar_spec (take 2 ybits) (take 2 top)) as [-> _]; [by apply Forall_take..|].
  rewrite !gf2_mul_testbit by lia.
  set (f := λ k, Z.testbit (poly ybits) k && Z.testbit (poly top) (r - k)).
  set (g := λ k, Z.testbit (poly (take 2 ybits)) k && Z.testbit (poly (take 2 top)) (r - k)).
  fold (xor_sum f (64 * length ybits)). fold (xor_sum g (64 * length (take 2 ybits))).
  assert (Hfg : ∀ k, 0 ≤ k → f k = g k).
  { intros k Hk. unfold f, g. destruct (Z.ltb_spec (r - k) 0).
    - rewrite !(Z.testbit_neg_r _ (r - k)) by lia. btauto.
    - rewrite !poly_take by (done || lia).
      rewrite (proj2 (Z.ltb_lt k _)), (proj2 (Z.ltb_lt (r - k) _)) by lia. done. }
  assert (Hmin : length (take 2 ybits) = Nat.min 2 (length ybits)) by apply length_take.
  replace (64 * length ybits)%nat
    with (64 * length (take 2 ybits) + (64 * length ybits - 64 * length (take 2 ybits)))%nat by lia.
  rewrite xor_sum_tail.
  - apply xor_sum_ext. intros k Hk. apply Hfg. lia.
  - intros k Hk. unfold f. rewrite (Z.testbit_neg_r _ (r - k)) by lia. btauto.
Qed.

Lemma toep_127_prefix_witness :
  toep_127 [7; 9; 1; 2] [11; 13; 4] = toep_127 [7; 9] [11; 13].
Proof. apply (toep_127_prefix [7; 9; 1; 2] [11; 13; 4]); repeat constructor; unfold word; cbn; lia. Defined.
