(* ===== verification/Matrix.v ===== *)
(** * Public matrices and sampling: [crypto/matrix.hpp], commitments of [core/hash.hpp]

    [Ctr] is the counter-mode SHA-256 generator local to [prg_choose_k];
    [UbkCtr] the one local to [gen_ubk_public].  Their rejection loops take the
    turns of [Fuel]; with a draw cap the sampler needs no more than the cap. *)

From stdpp Require Import gmap.
From S2P Require Import Prelude Field Hash Rng CtSafe Types Toeplitz.

Definition sha_init : Sha.Sha256 := Sha.init (replicate 64 0).
Definition sha_str (s : Sha.Sha256) (str : string) : Sha.Sha256 := Sha.update s (c_str str).

(** ** [compute_R_com_base], [compute_R_com_prod] *)

Definition compute_R_com_base (canon_tag ztag nonce_lo nonce_hi : Z) (R_slots : list Fp) : list Z :=
  let s := sha_str sha_init "pvac.dom.r_com" in
  let s := Sha.sha256_acc_u64 s canon_tag in
  let s := Sha.sha256_acc_u64 s ztag in
  let s := Sha.sha256_acc_u64 s nonce_lo in
  let s := Sha.sha256_acc_u64 s nonce_hi in
  let s := Sha.sha256_acc_u64 s (Z.of_nat (length R_slots)) in
  Sha.finish s.

Definition compute_R_com_prod (R_com_a R_com_b : list Z) : list Z :=
  let s := sha_str sha_init "pvac.dom.r_com" in
  let s := Sha.update s R_com_a in
  let s := Sha.update s R_com_b in
  Sha.finish s.

(** ** [prg_choose_k] *)

Record Ctr := mkCtr {
  c_L : string; c_w : list Z; c_ctr : Z; c_buf : list Z; c_idx : Z;
  c_capped : bool; c_remaining : Z }.

Definition ctr_init (lab : string) (ww : list Z) (factor count : Z) : Ctr :=
  mkCtr lab ww 0 [] 32 (negb (factor =? 0)) (factor * count).

Definition refill (c : Ctr) : Ctr :=
  let s := sha_str sha_init (c_L c) in
  let s := foldl (λ s x, Sha.update s (store_le64 x)) s (c_w c) in
  let s := Sha.update s (store_le64 (c_ctr c)) in
  mkCtr (c_L c) (c_w c) (u64 (c_ctr c + 1)) (Sha.finish s) 0 (c_capped c) (c_remaining c).

Definition set_remaining (c : Ctr) (r : Z) : Ctr :=
  mkCtr (c_L c) (c_w c) (c_ctr c) (c_buf c) (c_idx c) (c_capped c) r.

Definition ctr_rnd : M Ctr Z := λ c,
  if c_capped c && (c_remaining c =? 0) then Throw "pvac: sampling effort exhausted"
  else
    let c := if c_capped c then set_remaining c (c_remaining c - 1) else c in
    let c := if 32 <=? c_idx c then refill c else c in
    let x := load_le64 (drop (Z.to_nat (c_idx c)) (c_buf c)) in
    Ok (x, mkCtr (c_L c) (c_w c) (c_ctr c) (c_buf c) (c_idx c + 8) (c_capped c) (c_remaining c)).

(** [lim] is accepted: the test is [x <= lim]. *)
Definition ctr_bounded {F : Fuel} (m : Z) : M Ctr Z :=
  if m <=? 1 then mret 0
  else
    let lim := UINT64_MAX - UINT64_MAX mod m in
    x ← reject ctr_rnd (λ x, x <=? lim); mret (x mod m).

(** [while (out.size() < k)] *)
Fixpoint choose_loop {F : Fuel} (n : nat) (k N : Z) (used : gset Z) (out : list Z) : M Ctr (list Z) :=
  if Z.of_nat (length out) <? k then
    match n with
    | O => λ _, OutOfFuel
    | S n =>
        x ← ctr_bounded N;
        if decide (x ∈ used) then choose_loop n k N used out
        else choose_loop n k N ({[x]} ∪ used) (out ++ [x])
    end
  else mret out.

Definition SIZE_MAX : Z := UINT64_MAX.

Definition prg_choose_k {F : Fuel} (k N : Z) (label : string) (words : list Z) (draw_factor : Z)
    : res (list Z) :=
  if (k <? 0) || (N <? 0) then Throw "pvac: unique sample negative domain rejected"
  else if N <? k then Throw "pvac: unique sample exceeds domain"
  else if negb (draw_factor =? 0) && (SIZE_MAX / draw_factor <? k) then
    Throw "pvac: sampling effort overflow"
  else
    '(out, _) ← choose_loop fuel k N ∅ [] (ctr_init label words draw_factor k); Ok out.

Definition prg_u64 (label : string) (words : list Z) : Z :=
  let s := sha_str sha_init label in
  let s := foldl (λ s x, Sha.update s (store_le64 x)) s words in
  load_le64 (Sha.finish s).

Definition mixed_weight (base limit : Z) (label : string) (words : list Z) : Z :=
  if (base <? limit) && negb (prg_u64 label words .& 1 =? 0) then base + 1 else base.

(** ** [gen_ubk_public] *)

Record UbkCtr := mkUbkCtr { u_tag : Z; u_c : Z; u_b : list Z; u_idx : Z }.

Definition ubk_r : M UbkCtr Z := λ c,
  let c := if 32 <=? u_idx c then
      let s := sha_str sha_init "UBK" in
      let s := Sha.update s (store_le64 (u_tag c)) in
      let s := Sha.update s (store_le64 (u_c c)) in
      mkUbkCtr (u_tag c) (u64 (u_c c + 1)) (Sha.finish s) 0
    else c in
  Ok (load_le64 (drop (Z.to_nat (u_idx c)) (u_b c)),
      mkUbkCtr (u_tag c) (u_c c) (u_b c) (u_idx c + 8)).

Definition ubk_bounded {F : Fuel} (m : Z) : M UbkCtr Z :=
  if m <=? 1 then mret 0
  else
    let lim := UINT64_MAX - UINT64_MAX mod m in
    x ← reject ubk_r (λ x, x <=? lim); mret (x mod m).

(** [for (i = n; i > 0; --i) swap(perm[i], perm[bounded(i + 1)]);] *)
Fixpoint shuffle {F : Fuel} (i : nat) (perm : list Z) : M UbkCtr (list Z) :=
  match i with
  | O => mret perm
  | S i' => j ← ubk_bounded (Z.of_nat i + 1); shuffle i' (swap i (Z.to_nat j) perm)
  end.

Definition invert (perm : list Z) : list Z :=
  foldl (λ inv '(i, p), <[Z.to_nat p := i]> inv) (replicate (length perm) 0)
    (zip (zseq 0 (length perm)) perm).

Definition gen_ubk_public {F : Fuel} (canon_tag m_bits : Z) : res Ubk :=
  '(perm, _) ← shuffle (Z.to_nat (m_bits - 1)) (zseq 0 (Z.to_nat m_bits))
                 (mkUbkCtr canon_tag 0 [] 32);
  Ok (mkUbk perm (invert perm)).

(** ** Bits of a [BitVec] *)

Definition set_bit (w : list Z) (j : Z) : list Z :=
  alter (λ x, x .| wshl 64 1 (j .& 63)) (Z.to_nat (j ≫ 6)) w.
Definition flip_bit (w : list Z) (j : Z) : list Z :=
  alter (λ x, x .^ wshl 64 1 (j .& 63)) (Z.to_nat (j ≫ 6)) w.

(** [while (x)] over the set bits of the word [wi]. *)
Fixpoint perm_word (fuel : nat) (wi : Z) (nb : Z) (inv : list Z) (x : Z) (o : list Z) : list Z :=
  match fuel with
  | O => o
  | S fuel =>
      if x =? 0 then o
      else
        let b := x .& wneg 64 x in
        let bit := ctz64 x in
        let src := (wi ≪ 6) + bit in
        let o := if src <? nb then set_bit o (nth (Z.to_nat src) inv 0) else o in
        perm_word fuel wi nb inv (x .^ b) o
  end.

Definition apply_perm_sigma (v : BitVec) (inv : list Z) : BitVec :=
  let o := bv_make (nbits v) in
  mkBitVec (nbits v)
    (foldl (λ o '(wi, x), perm_word 65 wi (nbits v) inv x o) (bw o)
      (zip (zseq 0 (length (bw v))) (bw v))).

Definition ubk_apply (pk : PubKey) (C : Cipher) : Cipher :=
  mkCipher (L C)
    ((λ e, mkEdge (layer_id e) (idx e) (ch e) (ew e) (apply_perm_sigma (es e) (inv (ubk pk)))) <$> E C)
    (c0 C) (slots C).

(** ** [gen_H] *)

Definition gen_H_column {F : Fuel} (pk : PubKey) (c : Z) : res BitVec :=
  let P := prm pk in
  let m := m_bits P in
  let words := [u64 m; u64 (n_bits P); u64 (h_col_wt P); u64 c; canon_tag pk] in
  let wt := mixed_weight (h_col_wt P) m "pvac.H.weight" words in
  rows ← prg_choose_k wt m Dom.H_GEN words 0;
  let col := bv_make m in
  Ok (mkBitVec (nbits col) (foldl set_bit (bw col) rows)).

Fixpoint gen_H_columns {F : Fuel} (pk : PubKey) (cs : list Z) : res (list BitVec) :=
  match cs with
  | [] => Ok []
  | c :: cs => col ← gen_H_column pk c; cols ← gen_H_columns pk cs; Ok (col :: cols)
  end.

(** The whole words of a column, then the bytes that are left. *)
Definition digest_column (s : Sha.Sha256) (col : BitVec) : Sha.Sha256 :=
  let bytes := (nbits col + 7) / 8 in
  let full := Z.to_nat (bytes / 8) in
  let rem := bytes mod 8 in
  let s := foldl (λ s x, Sha.update s (store_le64 x)) s (take full (bw col)) in
  if rem =? 0 then s
  else
    let x := nth full (bw col) 0 in
    Sha.update s ((λ j, u8 ((x ≫ (8 * j)) .& 0xFF)) <$> zseq 0 (Z.to_nat rem)).

(** The columns and [H_digest]. *)
Definition gen_H {F : Fuel} (pk : PubKey) : res PubKey :=
  cols ← gen_H_columns pk (zseq 0 (Z.to_nat (n_bits (prm pk))));
  let s := sha_str sha_init "H|v2" in
  let s := Sha.sha256_acc_u64 s (u64 (m_bits (prm pk))) in
  let s := Sha.sha256_acc_u64 s (u64 (n_bits (prm pk))) in
  let s := Sha.sha256_acc_u64 s (u64 (h_col_wt (prm pk))) in
  let s := foldl digest_column s cols in
  Ok (mkPubKey (prm pk) (canon_tag pk) cols (ubk pk) (Sha.finish s) (omega_B pk) (powg_B pk)
        (circuit_prf_key_commit pk) (circuit_prf_profile pk)).

(** ** [prg_layer_ztag], [sigma_from_H] *)

Definition prg_layer_ztag (canon_tag : Z) (n : Nonce128) : Z :=
  let s := sha_str sha_init Dom.ZTAG in
  let s := Sha.sha256_acc_u64 s canon_tag in
  let s := Sha.sha256_acc_u64 s (n_lo n) in
  let s := Sha.sha256_acc_u64 s (n_hi n) in
  load_le64 (Sha.finish s).

Definition sigma_from_H {F : Fuel} (pk : PubKey) (ztag : Z) (nonce : Nonce128) (idx ch salt : Z)
    (draw_factor : Z) : res BitVec :=
  let P := prm pk in
  let m := m_bits P in
  let n := n_bits P in
  let words := [canon_tag pk; ztag; n_lo nonce; n_hi nonce; idx; ch; salt] in
  cols ← prg_choose_k (x_col_wt P) n Dom.X_SEED words draw_factor;
  let s := foldl (λ s c, xor_with s (nth (Z.to_nat c) (H pk) (bv_make 0))) (bv_make m) cols in
  let noise_wt := mixed_weight (err_wt P) m "pvac.noise.weight" words in
  noise ← prg_choose_k noise_wt m Dom.NOISE words draw_factor;
  Ok (mkBitVec (nbits s) (foldl flip_bit (bw s) noise)).

(** ** The sampler *)

Section Sampler.
Context {F : Fuel}.

Lemma ctr_bounded_range m c x c' : 1 ≤ m → ctr_bounded m c = Ok (x, c') → 0 ≤ x < m.
Proof.
  intros Hm. unfold ctr_bounded. destruct (Z.leb_spec m 1).
  - intros [= <- _]. lia.
  - intros (y & c1 & _ & [= <- _])%M_bind_Ok. apply Z.mod_pos_bound. lia.
Qed.

Definition sample_ok (N : Z) (out : list Z) : Prop := NoDup out ∧ Forall (λ x, 0 ≤ x < N) out.

Lemma choose_loop_ok n k N used out c r c' :
  k ≤ N → sample_ok N out → Z.of_nat (length out) ≤ Z.max 0 k → (∀ x, x ∈ used ↔ x ∈ out) →
  choose_loop n k N used out c = Ok (r, c') →
  sample_ok N r ∧ Z.of_nat (length r) = Z.max 0 k.
Proof.
  intros HkN. revert used out c. induction n as [|n IH]; intros used out c [Hnd Hrg] Hlen Hused;
    cbn [choose_loop]; destruct (Z.ltb_spec (Z.of_nat (length out)) k) as [Hlt|Hge].
  - done.
  - intros [= <- _]. split; [by split|lia].
  - intros (x & c1 & Hx & Hr)%M_bind_Ok. apply ctr_bounded_range in Hx; [|lia].
    destruct (decide (x ∈ used)) as [Hin|Hin]; [by eapply IH|].
    eapply IH in Hr; [done| | |].
    + split.
      * apply NoDup_app. split; [done|]. split; [|apply NoDup_singleton].
        intros y Hy ->%list_elem_of_singleton. by apply Hin, Hused.
      * apply Forall_app. split; [done|]. by constructor.
    + rewrite length_app. cbn [length]. lia.
    + intros y. rewrite elem_of_union, elem_of_singleton, Hused, elem_of_app, list_elem_of_singleton.
      tauto.
  - intros [= <- _]. split; [by split|lia].
Qed.

(** With a cap every draw spends one unit of it. *)
Definition capped_at (c : Ctr) (r : Z) : Prop := c_capped c = true ∧ c_remaining c = r.

Lemma ctr_rnd_capped c r : capped_at c r → 0 ≤ r →
  (∃ e, ctr_rnd c = Throw e) ∨ (∃ x c', ctr_rnd c = Ok (x, c') ∧ capped_at c' (r - 1) ∧ 0 < r).
Proof.
  intros [Hc Hr] H0. unfold ctr_rnd. rewrite Hc, Hr. cbn [andb].
  destruct (Z.eqb_spec r 0); [left; eauto|right]. cbv zeta. eexists _, _. split; [done|].
  split; [|lia]. destruct (32 <=? _); by split.
Qed.

Lemma reject_capped n c r p : capped_at c r → 0 ≤ r < Z.of_nat n →
  (∃ e, reject_loop n ctr_rnd p c = Throw e) ∨
  (∃ x c' r', reject_loop n ctr_rnd p c = Ok (x, c') ∧ capped_at c' r' ∧ 0 ≤ r' < r).
Proof.
  revert c r. induction n as [|n IH]; intros c r Hc Hr; [lia|]. cbn [reject_loop].
  destruct (ctr_rnd_capped c r Hc ltac:(lia)) as [[e E]|(x & c1 & E & Hc1 & Hr0)];
    unfold mbind, M_bind; rewrite E; [left; eauto|].
  destruct (p x).
  - right. eexists _, _, _. split; [done|]. split; [done|lia].
  - destruct (IH c1 (r - 1) Hc1 ltac:(lia)) as [H1|(y & c2 & r2 & H1 & H2 & H3)]; [by left|right].
    eexists _, _, _. split; [done|]. split; [done|lia].
Qed.

Lemma choose_loop_total n k N used out c r :
  1 < N → capped_at c r → 0 ≤ r < Z.of_nat n → r < Z.of_nat fuel →
  choose_loop n k N used out c ≠ OutOfFuel.
Proof.
  intros HN. revert used out c r. induction n as [|n IH]; intros used out c r Hc Hr Hf; [lia|].
  cbn [choose_loop]. destruct (Z.of_nat (length out) <? k); [|done].
  unfold ctr_bounded. rewrite (proj2 (Z.leb_gt N 1)) by done. unfold reject.
  destruct (reject_capped fuel c r (λ x, x <=? UINT64_MAX - UINT64_MAX mod N) Hc ltac:(lia))
    as [[e E]|(x & c1 & r1 & E & Hc1 & Hr1)]; unfold mbind, M_bind; rewrite E; [done|].
  cbn [mret M_ret]. destruct (decide (x mod N ∈ used)); (eapply IH; [done|lia|lia]).
Qed.

(** One element out of one needs no draw. *)
Lemma choose_loop_single n k N c : N ≤ 1 → k ≤ N → (0 < n)%nat →
  choose_loop n k N ∅ [] c ≠ OutOfFuel.
Proof.
  intros HN Hk Hn. destruct n as [|n]; [lia|]. cbn [choose_loop length].
  destruct (Z.ltb_spec (Z.of_nat 0) k); [|done]. unfold ctr_bounded.
  rewrite (proj2 (Z.leb_le N 1)) by done. unfold mbind, M_bind. cbn [mret M_ret].
  rewrite decide_False by set_solver. replace k with 1 by lia. by destruct n.
Qed.

End Sampler.

(** ** The permutation *)

Lemma shuffle_Permutation {F : Fuel} i p c q c' : shuffle i p c = Ok (q, c') → q ≡ₚ p.
Proof.
  revert p c. induction i as [|i IH]; intros p c; cbn [shuffle].
  - by intros [= <- _].
  - intros (j & c1 & _ & H)%M_bind_Ok. rewrite (IH _ _ H). apply swap_Permutation.
Qed.

Definition inverse_of (inv perm : list Z) : Prop :=
  ∀ i p, perm !! i = Some p → inv !! Z.to_nat p = Some (Z.of_nat i).

Lemma invert_spec perm : perm ≡ₚ zseq 0 (length perm) → inverse_of (invert perm) perm.
Proof.
  intros Hp. assert (Hnd : NoDup perm).
  { rewrite Hp, zseq_seqZ. apply NoDup_seqZ. }
  assert (Hrg : ∀ i p, perm !! i = Some p → 0 ≤ p < Z.of_nat (length perm)).
  { intros i p Hi%list_elem_of_lookup_2. rewrite Hp in Hi. apply elem_of_zseq in Hi. lia. }
  unfold invert.
  assert (G : ∀ suf pre inv, perm = pre ++ suf → length inv = length perm →
    (∀ i p, (i < length pre)%nat → perm !! i = Some p → inv !! Z.to_nat p = Some (Z.of_nat i)) →
    inverse_of (foldl (λ inv '(i, p), <[Z.to_nat p := i]> inv) inv
      (zip (zseq (Z.of_nat (length pre)) (length suf)) suf)) perm).
  { induction suf as [|q suf IH]; intros pre inv HE Hl Hpre; cbn [length zseq zip zip_with foldl].
    - intros i p Hi. apply Hpre; [|done]. apply lookup_lt_Some in Hi.
      rewrite HE, app_nil_r in Hi. done.
    - assert (Hq : perm !! length pre = Some q) by (by rewrite HE, list_lookup_middle).
      replace (Z.of_nat (length pre) + 1) with (Z.of_nat (length (pre ++ [q])))
        by (rewrite length_app; cbn [length]; lia).
      apply IH; [by rewrite <- app_assoc|by rewrite length_insert|].
      intros i p Hi Hip. rewrite length_app in Hi. cbn [length] in Hi.
      pose proof (Hrg _ _ Hip). pose proof (Hrg _ _ Hq).
      destruct (decide (i = length pre)) as [->|Hne].
      + assert (p = q) as -> by congruence. by rewrite list_lookup_insert_eq by lia.
      + rewrite list_lookup_insert_ne; [apply Hpre; [lia|done]|].
        intros Heq. apply Hne. eapply (NoDup_lookup perm); [done|done|].
        replace p with q by lia. done. }
  apply (G perm [] _ eq_refl); [by rewrite length_replicate|]. intros i p Hi. cbn in Hi. lia.
Qed.

(** ** Permuting the bits of a vector *)

Definition vbit (w : list Z) (j : Z) : bool := Z.testbit (nth (Z.to_nat (j / 64)) w 0) (j mod 64).

Lemma set_bit_spec w j i : 0 ≤ j → 0 ≤ i → j / 64 < Z.of_nat (length w) →
  vbit (set_bit w j) i = vbit w i || (i =? j).
Proof.
  intros Hj Hi Hl. unfold vbit, set_bit. rewrite (land_low _ 6 63), shr_div by done.
  change (2 ^ 6) with 64. rewrite !nth_lookup.
  destruct (decide (i / 64 = j / 64)) as [E|E].
  - rewrite E, list_lookup_alter_eq.
    destruct (lookup_lt_is_Some_2 w (Z.to_nat (j / 64)) ltac:(lia)) as [x ->]. cbn.
    change 1 with (b2z true) at 1. rewrite lor_set_bit by lia. rewrite andb_true_r. f_equal.
    apply eq_true_iff_eq. rewrite !Z.eqb_eq. lia.
  - rewrite list_lookup_alter_ne by lia. destruct (Z.eqb_spec i j); [congruence|].
    by rewrite orb_false_r.
Qed.

Lemma set_bit_length w j : length (set_bit w j) = length w.
Proof. unfold set_bit. apply length_alter. Qed.

Section Perm.
Variables (nb : Z) (inv : list Z).
Hypothesis Hinv : Forall (λ p, 0 ≤ p < nb) inv.
Hypothesis Hlen : Z.of_nat (length inv) = nb.

(** Where the bit [s] goes. *)
Definition target (s : Z) : Z := nth (Z.to_nat s) inv 0.

Lemma target_range s : 0 ≤ s < nb → 0 ≤ target s < nb.
Proof. intros Hs. apply (Forall_nth_default (λ p, 0 ≤ p < nb)); [done|lia]. Qed.

Definition out_ok (o : list Z) : Prop := Z.of_nat (length o) = (nb + 63) / 64.

Lemma perm_word_spec fuel wi x o m :
  word 64 x → 0 ≤ wi → 0 ≤ m → 65 ≤ Z.of_nat fuel + m → (∀ b, 0 ≤ b < m → Z.testbit x b = false) →
  out_ok o →
  out_ok (perm_word fuel wi nb inv x o) ∧
  ∀ i, 0 ≤ i → vbit (perm_word fuel wi nb inv x o) i = true ↔
    vbit o i = true ∨ ∃ b, 0 ≤ b < 64 ∧ Z.testbit x b = true ∧ 64 * wi + b < nb ∧
                           target (64 * wi + b) = i.
Proof.
  intros Hx Hwi. revert x o m Hx. induction fuel as [|fuel IH]; intros x o m Hx Hm Hf Hlow Ho.
  - assert (x = 0) as ->.
    { apply Z.bits_inj'. intros j Hj. rewrite Z.bits_0. destruct (Z.ltb_spec j 64);
        [apply Hlow; lia|by apply (testbit_small x 64)]. }
    split; [done|]. intros i Hi. cbn [perm_word]. split; [auto|].
    intros [?|(b & _ & Hb & _)]; [done|]. by rewrite Z.bits_0 in Hb.
  - cbn [perm_word]. destruct (Z.eqb_spec x 0) as [->|Hn].
    { split; [done|]. intros i Hi. split; [auto|].
      intros [?|(b & _ & Hb & _)]; [done|]. by rewrite Z.bits_0 in Hb. }
    destruct (lowest_bit x Hx Hn) as (Hk & Hbit & Hbelow).
    rewrite isolate_lowest by done. set (k := ctz64 x) in *. cbv zeta.
    rewrite (shl_mul wi 6) by lia. replace (wi * 2 ^ 6 + k) with (64 * wi + k) by (pow_consts; lia).
    assert (Hmk : m ≤ k).
    { destruct (Z.le_gt_cases m k); [done|]. rewrite Hlow in Hbit by lia. done. }
    set (o1 := if 64 * wi + k <? nb then set_bit o (nth (Z.to_nat (64 * wi + k)) inv 0) else o).
    assert (Ho1 : out_ok o1 ∧ ∀ i, 0 ≤ i → vbit o1 i = true ↔
      vbit o i = true ∨ (64 * wi + k < nb ∧ target (64 * wi + k) = i)).
    { unfold o1. destruct (Z.ltb_spec (64 * wi + k) nb) as [Hlt|Hge].
      - pose proof (target_range (64 * wi + k) ltac:(lia)) as Ht. fold (target (64 * wi + k)).
        split; [unfold out_ok; by rewrite set_bit_length|]. intros i Hi.
        rewrite set_bit_spec by (unfold out_ok in Ho; lia).
        rewrite orb_true_iff, Z.eqb_eq. intuition lia.
      - split; [done|]. intros i Hi. intuition lia. }
    destruct Ho1 as [Ho1 Hs1]. clearbody o1.
    assert (Hxk : ∀ b, 0 ≤ b → Z.testbit (x .^ (1 ≪ k)) b = Z.testbit x b && negb (b =? k)).
    { intros b Hb. rewrite Z.lxor_spec, Z.shiftl_1_l, Z.pow2_bits_eqb by lia. rewrite (Z.eqb_sym k b).
      destruct (Z.eqb_spec b k) as [->|]; [rewrite Hbit; done|btauto]. }
    destruct (IH (x .^ (1 ≪ k)) o1 (k + 1)) as [Ho2 Hs2]; [|lia|lia| |done|].
    { apply lxor_word; [done|done|]. rewrite Z.shiftl_1_l. unfold word. split; [lia|].
      apply Z.pow_lt_mono_r; lia. }
    { intros b Hb. rewrite Hxk by lia. destruct (Z.eqb_spec b k) as [->|]; [btauto|].
      rewrite Hbelow by lia. done. }
    split; [done|]. intros i Hi. rewrite Hs2, Hs1 by done. split.
    + intros [[?|[H1 H2]]|(b & Hb & Ht & Hlt & Heq)]; [by left|right; exists k; split_and!; (done || lia)|right].
      rewrite Hxk in Ht by lia. apply andb_true_iff in Ht as [Ht _]. exists b. split_and!; (done || lia).
    + intros [?|(b & Hb & Ht & Hlt & Heq)]; [by left; left|].
      destruct (decide (b = k)) as [->|Hne]; [left; by right|right]. exists b.
      rewrite Hxk by lia. rewrite Ht, (proj2 (Z.eqb_neq b k)) by done. split_and!; (done || lia).
Qed.

Lemma perm_fold_spec ws s o : 0 ≤ s → Forall (word 64) ws → out_ok o →
  let o' := foldl (λ o '(wi, x), perm_word 65 wi nb inv x o) o (zip (zseq s (length ws)) ws) in
  out_ok o' ∧
  ∀ i, 0 ≤ i → vbit o' i = true ↔
    vbit o i = true ∨ ∃ j, 64 * s ≤ j < nb ∧ vbit ws (j - 64 * s) = true ∧ target j = i.
Proof.
  intros Hs Hws. revert s o Hs. induction Hws as [|x ws Hx Hws IH]; intros s o Hs Ho;
    cbn [length zseq zip zip_with foldl].
  - split; [done|]. intros i Hi. split; [auto|]. intros [?|(j & _ & Hv & _)]; [done|].
    unfold vbit in Hv. destruct (Z.to_nat _); by rewrite Z.bits_0 in Hv.
  - destruct (perm_word_spec 65 s x o 0) as [Ho1 Hs1]; [done|done|done|lia|lia|done|].
    destruct (IH (s + 1) (perm_word 65 s nb inv x o) ltac:(lia) Ho1) as [Ho2 Hs2].
    split; [done|]. intros i Hi. cbn zeta in Hs2. rewrite Hs2, Hs1 by done. split.
    + intros [[?|(b & Hb & Ht & Hlt & Heq)]|(j & Hj & Hv & Heq)]; [by left|right..].
      * exists (64 * s + b). split; [lia|]. split; [|done]. unfold vbit.
        replace (64 * s + b - 64 * s) with b by lia.
        rewrite Z.div_small, Z.mod_small by done. done.
      * exists j. split; [lia|]. split; [|done]. unfold vbit in *.
        replace (j - 64 * (s + 1)) with (j - 64 * s + (-1) * 64) in Hv by lia.
        rewrite Z.div_add, Z_mod_plus_full in Hv by lia.
        replace (Z.to_nat ((j - 64 * s) / 64)) with (S (Z.to_nat ((j - 64 * s) / 64 + -1))) by lia.
        done.
    + intros [?|(j & Hj & Hv & Heq)]; [by left; left|].
      destruct (Z.lt_ge_cases (j - 64 * s) 64) as [Hlt|Hge].
      * left. right. exists (j - 64 * s). unfold vbit in Hv.
        rewrite Z.div_small, Z.mod_small in Hv by lia. cbn in Hv.
        replace (64 * s + (j - 64 * s)) with j by lia. split; [lia|]. split; [done|]. split; [lia|done].
      * right. exists j. split; [lia|]. split; [|done]. unfold vbit in *.
        replace (j - 64 * (s + 1)) with (j - 64 * s + (-1) * 64) by lia.
        rewrite Z.div_add, Z_mod_plus_full by lia.
        replace (Z.to_nat ((j - 64 * s) / 64)) with (S (Z.to_nat ((j - 64 * s) / 64 + -1))) in Hv by lia.
        done.
Qed.

Lemma vbit_zeros n i : vbit (replicate n 0) i = false.
Proof.
  unfold vbit. rewrite nth_lookup.
  destruct (replicate n 0 !! Z.to_nat (i / 64)) as [x|] eqn:Ex; cbn; [|apply Z.bits_0].
  apply lookup_replicate in Ex as [-> _]. apply Z.bits_0.
Qed.

Lemma apply_perm_spec v : nbits v = nb → Forall (word 64) (bw v) →
  let o := apply_perm_sigma v inv in
  nbits o = nb ∧ out_ok (bw o) ∧
  ∀ i, 0 ≤ i → vbit (bw o) i = true ↔ ∃ j, 0 ≤ j < nb ∧ vbit (bw v) j = true ∧ target j = i.
Proof.
  intros Hn Hw o.
  destruct (perm_fold_spec (bw v) 0 (bw (bv_make nb))) as [H1 H2]; [done|done| |].
  { unfold out_ok. cbn [bw bv_make]. rewrite length_replicate.
    assert (0 ≤ nb) by lia. lia. }
  unfold o, apply_perm_sigma. cbn [nbits bw]. rewrite Hn. split; [done|]. split; [done|].
  intros i Hi. cbn zeta in H2. rewrite H2 by done. cbn [bw bv_make]. rewrite vbit_zeros.
  split.
  - intros [?|(j & Hj & Hv & Heq)]; [done|]. exists j. rewrite Z.sub_0_r in Hv. split; [lia|done].
  - intros (j & Hj & Hv & Heq). right. exists j. rewrite Z.sub_0_r. split; [lia|done].
Qed.

End Perm.

Lemma invert_range perm : length (invert perm) = length perm ∧
  Forall (λ p, 0 ≤ p < Z.of_nat (length perm)) (invert perm).
Proof.
  unfold invert. destruct perm as [|p0 perm']; [by split; constructor|].
  set (perm := p0 :: perm'). set (n := length perm).
  assert (Hn : (0 < n)%nat) by (unfold n, perm; cbn; lia).
  assert (Hin : ∀ i p, (i, p) ∈ zip (zseq 0 n) perm → 0 ≤ i < Z.of_nat n).
  { intros i p [j Hj]%list_elem_of_lookup. apply lookup_zip_Some in Hj as [Hj _].
    apply list_elem_of_lookup_2, elem_of_zseq in Hj. lia. }
  generalize dependent (zip (zseq 0 n) perm). intros l Hin.
  assert (G : ∀ v, length v = n → Forall (λ p, 0 ≤ p < Z.of_nat n) v →
    length (foldl (λ inv '(i, p), <[Z.to_nat p := i]> inv) v l) = n ∧
    Forall (λ p, 0 ≤ p < Z.of_nat n) (foldl (λ inv '(i, p), <[Z.to_nat p := i]> inv) v l)).
  { induction l as [|[i p] l IH]; intros v Hl Hv; [done|]. cbn [foldl]. apply IH.
    - intros i' p' Hip. apply (Hin i' p'). by right.
    - by rewrite length_insert.
    - apply Forall_insert; [done|]. apply (Hin i p). by left. }
  apply G; [apply length_replicate|]. apply Forall_replicate. lia.
Qed.

Lemma set_bit_words w j : Forall (word 64) w → Forall (word 64) (set_bit w j).
Proof.
  intros Hw. unfold set_bit. apply Forall_alter; [done|]. intros x _ Hx.
  apply word_bound_lor; [done|done|by apply wrap_word].
Qed.

Lemma perm_word_words fuel wi nb inv x o : Forall (word 64) o →
  Forall (word 64) (perm_word fuel wi nb inv x o).
Proof.
  revert x o. induction fuel as [|fuel IH]; intros x o Ho; cbn [perm_word]; [done|].
  destruct (x =? 0); [done|]. apply IH. destruct (_ <? nb); [by apply set_bit_words|done].
Qed.

Lemma apply_perm_words v inv : Forall (word 64) (bw (apply_perm_sigma v inv)).
Proof.
  unfold apply_perm_sigma. cbn [bw]. generalize (zip (zseq 0 (length (bw v))) (bw v)).
  assert (H0 : Forall (word 64) (bw (bv_make (nbits v)))) by (by apply Forall_replicate).
  intros l. revert H0. generalize (bw (bv_make (nbits v))).
  induction l as [|[wi x] l IH]; intros o Ho; [done|]. cbn [foldl]. apply IH, perm_word_words, Ho.
Qed.

(** What the shuffle returns. *)
Lemma gen_ubk_spec {F : Fuel} (tag m : Z) (u : Ubk) : gen_ubk_public tag m = Ok u →
  perm u ≡ₚ zseq 0 (Z.to_nat m) ∧ length (inv u) = Z.to_nat m ∧
  ∀ i p, perm u !! i = Some p → inv u !! Z.to_nat p = Some (Z.of_nat i).
Proof.
  intros Hu. unfold gen_ubk_public in Hu.
  destruct (shuffle _ _ _) as [[q c']| |] eqn:Eq; [|discriminate..]. injection Hu as <-.
  apply shuffle_Permutation in Eq. cbn [perm inv].
  assert (Hl : length q = Z.to_nat m) by (rewrite Eq; apply length_zseq).
  split; [done|]. split.
  - rewrite <- Hl. apply invert_range.
  - apply invert_spec. by rewrite Hl.
Qed.

(** ** Properties *)

(** C40. A sample of [prg_choose_k] is [k] distinct values below [N], and it
    exists only for [0 <= k <= N]; with a cap on the draws the sampler returns a
    sample or an exception, within as many turns as the cap allows. *)
Theorem prg_choose_k_correct {F : Fuel} (k N : Z) (label : string) (words : list Z) (draw_factor : Z) :
  (∀ out, prg_choose_k k N label words draw_factor = Ok out →
    0 ≤ k ≤ N ∧ Z.of_nat (length out) = k ∧ NoDup out ∧ Forall (λ x, 0 ≤ x < N) out) ∧
  (0 < draw_factor → draw_factor * k < Z.of_nat fuel →
    prg_choose_k k N label words draw_factor ≠ OutOfFuel) ∧
  (¬ (0 ≤ k ≤ N) → ∃ e, prg_choose_k k N label words draw_factor = Throw e).
Proof.
  unfold prg_choose_k. destruct (Z.ltb_spec k 0); [split_and!; [done|done|eauto]|].
  destruct (Z.ltb_spec N 0); [split_and!; [done|done|eauto]|]. cbn [orb].
  destruct (Z.ltb_spec N k); [split_and!; [done|done|eauto]|].
  destruct (negb (draw_factor =? 0) && _); [split_and!; [done|done|lia]|].
  split; [|split; [|lia]].
  - intros out. destruct (choose_loop fuel k N ∅ [] _) as [[r c']| |] eqn:Er; cbn; [|done..].
    intros [= <-]. apply choose_loop_ok in Er as [[Hnd Hrg] Hl]; [|lia| |cbn; lia|set_solver].
    + split; [lia|]. split; [lia|done].
    + split; constructor.
  - intros Hdf Hfuel. assert (Hr : choose_loop fuel k N ∅ [] (ctr_init label words draw_factor k) ≠ OutOfFuel).
    { destruct (Z.le_gt_cases N 1) as [HN|HN].
      - apply choose_loop_single; [done|lia|]. assert (0 ≤ draw_factor * k) by nia. lia.
      - apply (choose_loop_total _ _ _ _ _ _ (draw_factor * k)); [lia| |nia|lia].
        split; [|done]. cbn. by rewrite (proj2 (Z.eqb_neq draw_factor 0)) by lia. }
    by destruct (choose_loop fuel k N ∅ [] _) as [[r c']| |].
Qed.

Lemma prg_choose_k_correct_witness : ∃ out,
  prg_choose_k (F := 20%nat) 2 5 "x" [1] 9 = Ok out ∧ NoDup out.
Proof.
  destruct (prg_choose_k_correct (F := 20%nat) 2 5 "x" [1] 9) as (H1 & H2 & _).
  destruct (prg_choose_k (F := 20%nat) 2 5 "x" [1] 9) as [out|e|] eqn:E.
  - exists out. split; [reflexivity|]. apply H1. reflexivity.
  - exfalso. vm_compute in E. discriminate.
  - exfalso. apply H2; [reflexivity|reflexivity|reflexivity].
Defined.

(** [gen_ubk_public] shuffles: [perm] is a permutation of [0 .. m_bits - 1]
    and [inv] its inverse. *)
Theorem gen_ubk_public_correct {F : Fuel} (tag m : Z) (u : Ubk)
  (Hu : gen_ubk_public tag m = Ok u) :
  perm u ≡ₚ zseq 0 (Z.to_nat m) ∧ length (inv u) = Z.to_nat m ∧
  ∀ i p, perm u !! i = Some p → inv u !! Z.to_nat p = Some (Z.of_nat i).
Proof. by apply (gen_ubk_spec tag m). Qed.

Lemma gen_ubk_public_correct_witness : ∃ u,
  gen_ubk_public (F := 5%nat) 7 10 = Ok u ∧ perm u ≡ₚ zseq 0 10.
Proof.
  destruct (gen_ubk_public (F := 5%nat) 7 10) as [u|e|] eqn:E;
    [|exfalso; vm_compute in E; discriminate..].
  exists u. split; [reflexivity|]. apply (gen_ubk_public_correct (F := 5%nat) 7 10 u E).
Defined.

(** [apply_perm_sigma] with [inv] moves the bit [perm[i]] to [i], for every
    [i], and applying it with [perm] afterwards restores every bit. *)
Theorem apply_perm_sigma_correct (v : BitVec) (perm : list Z)
  (Hw : Forall (word 64) (bw v)) (Hn : Z.of_nat (length perm) = nbits v)
  (Hperm : perm ≡ₚ zseq 0 (length perm)) :
  let inv := invert perm in
  let o := apply_perm_sigma v inv in
  nbits o = nbits v ∧
  (∀ i p, perm !! i = Some p → vbit (bw o) (Z.of_nat i) = vbit (bw v) p) ∧
  (∀ p, 0 ≤ p < nbits v → vbit (bw (apply_perm_sigma o perm)) p = vbit (bw v) p).
Proof.
  intros inv o. pose proof (invert_spec perm Hperm) as Hinv. fold inv in Hinv.
  destruct (invert_range perm) as [Hli Hri]. fold inv in Hli, Hri. rewrite Hn in Hri.
  assert (Hrp : Forall (λ p, 0 ≤ p < nbits v) perm).
  { apply Forall_forall. intros p Hp. rewrite Hperm in Hp. apply elem_of_zseq in Hp. lia. }
  destruct (apply_perm_spec (nbits v) inv Hri ltac:(rewrite Hli; lia) v eq_refl Hw) as (H1 & H2 & H3).
  fold o in H1, H2, H3.
  assert (Htgt : ∀ i p, perm !! i = Some p → target inv p = Z.of_nat i).
  { intros i p Hi%Hinv. unfold target. by rewrite (nth_lookup_Some _ _ _ _ Hi). }
  assert (Hsurj : ∀ p, 0 ≤ p < nbits v → ∃ i, perm !! i = Some p).
  { intros p Hp. apply list_elem_of_lookup. rewrite Hperm. apply elem_of_zseq. lia. }
  assert (Hbit : ∀ i p, perm !! i = Some p → vbit (bw o) (Z.of_nat i) = vbit (bw v) p).
  { intros i p Hi. pose proof (Forall_lookup_1 _ _ _ _ Hrp Hi) as Hp. cbn beta in Hp.
    apply eq_true_iff_eq. rewrite H3 by lia. split.
    - intros (j & Hj & Hv & Ht). destruct (Hsurj j Hj) as [i' Hi'].
      rewrite (Htgt _ _ Hi') in Ht. assert (i' = i) as -> by lia.
      assert (j = p) as -> by congruence. done.
    - intros Hv. exists p. split; [done|]. split; [done|by apply Htgt]. }
  split; [done|]. split; [done|]. intros p Hp.
  destruct (apply_perm_spec (nbits v) perm Hrp Hn o H1 (apply_perm_words v inv)) as (_ & _ & H4).
  destruct (Hsurj p Hp) as [i Hi]. rewrite <- (Hbit _ _ Hi).
  apply eq_true_iff_eq. rewrite H4 by lia. split.
  - intros (j & Hj & Hv & Ht).
    destruct (lookup_lt_is_Some_2 perm (Z.to_nat j) ltac:(lia)) as [q Hq].
    unfold target in Ht. rewrite (nth_lookup_Some _ _ _ _ Hq) in Ht. subst q.
    apply Hinv in Hi, Hq. rewrite Hq in Hi. injection Hi as Hi.
    replace (Z.of_nat i) with j by lia. done.
  - intros Hv. exists (Z.of_nat i). pose proof (lookup_lt_Some _ _ _ Hi). split; [lia|]. split; [done|].
    unfold target. rewrite Nat2Z.id. by rewrite (nth_lookup_Some _ _ _ _ Hi).
Qed.

Lemma apply_perm_sigma_correct_witness :
  bw (apply_perm_sigma (mkBitVec 3 [5]) (invert [2; 0; 1])) = [3] ∧
  nbits (apply_perm_sigma (mkBitVec 3 [5]) (invert [2; 0; 1])) = 3.
Proof.
  split; [reflexivity|].
  apply (apply_perm_sigma_correct (mkBitVec 3 [5]) [2; 0; 1]);
    [repeat constructor; unfold word; cbn; lia|reflexivity|].
  change [2; 0; 1] with ([2] ++ [0; 1]). change (zseq 0 3) with ([0; 1] ++ [2]).
  apply Permutation_app_comm.
Defined.
