(* ===== verification/Lpn.v ===== *)
(** * Pseudo-random masks: [crypto/lpn.hpp], [crypto/lpn_v2.hpp], [crypto/circuit_prf_profile.hpp],
      the PRF functions of [ops/encrypt.hpp] and [ops/recrypt_src_core.hpp]

    Three families of per-layer masks: the LPN one, version 1 and 2, the MiMC
    circuit of [circuit_prf_R], and the native one.  A mask must not be zero. *)

From S2P Require Import Prelude Primes Field Hash Rng CtSafe Types Toeplitz Matrix.

(** ** [crypto/lpn.hpp] *)

Definition hash_to_fp_nonzero (lo0 hi0 : Z) : Fp :=
  let r := fp_from_words lo0 (hi0 .& MASK63) in
  let orv := lo r .| hi r in
  let mask_zero := ((orv .| wneg 64 orv) ≫ 63) .^ 1 in
  let mask_zero := wneg 64 mask_zero in
  let one := fp_from_u64 1 in
  mkFp ((lo r .& wnot 64 mask_zero) .| (lo one .& mask_zero))
       ((hi r .& wnot 64 mask_zero) .| (hi one .& mask_zero)).

Definition fnv1a_domain (dom : string) : Z :=
  foldl (λ h p, u64 ((h .^ p) * 0x100000001b3)) 0xcbf29ce484222325 (c_str dom).

Definition derive_aes_key (pk : PubKey) (sk : SecKey) (seed : RSeed) (dom : string) : list Z * Z :=
  let h := foldl Sha.sha256_acc_u64 sha_init (prf_k sk) in
  let h := Sha.sha256_acc_u64 h (canon_tag pk) in
  let h := Sha.update h (take 32 (H_digest pk)) in
  let h := Sha.sha256_acc_u64 h (ztag seed) in
  let h := Sha.sha256_acc_u64 h (n_lo (nonce seed)) in
  let h := Sha.sha256_acc_u64 h (n_hi (nonce seed)) in
  let dom_hash := fnv1a_domain dom in
  let h := Sha.sha256_acc_u64 h dom_hash in
  (Sha.finish h, dom_hash .^ n_lo (nonce seed)).

(** One sample: the dot product of a random row with the secret, and its noise.
    The secret of a generated key has a word for each of the row;
    [lpn.hpp] reads past the end of a shorter one, where the model stops. *)
Definition lpn_row {F : Fuel} (sk : SecKey) (s_words : nat) (num den : Z)
    : M Aes.AesCtr256 Z := λ prg,
  let '(row_buf, prg) := Aes.fill_u64 s_words prg in
  let acc := foldl (λ acc '(r, s), acc .^ (r .& s)) 0 (zip row_buf (lpn_s_bits sk)) in
  let dot := parity64 acc in
  (b ← Aes.bounded den;
   let e := if b <? num then 1 else 0 in
   mret (dot .^ e)) prg.

Fixpoint lpn_rows {F : Fuel} (sk : SecKey) (s_words : nat) (num den : Z) (rs : list Z)
    (ybits : list Z) : M Aes.AesCtr256 (list Z) :=
  match rs with
  | [] => mret ybits
  | r :: rs =>
      y ← lpn_row sk s_words num den;
      lpn_rows sk s_words num den rs
        (alter (λ x, x .^ wshl 64 y (r .& 63)) (Z.to_nat (r ≫ 6)) ybits)
  end.

Definition lpn_make_ybits {F : Fuel} (pk : PubKey) (sk : SecKey) (seed : RSeed) (dom : string)
    : res (list Z) :=
  let P := prm pk in
  let t := lpn_t P in
  let s_words := Z.to_nat ((lpn_n P + 63) / 64) in
  let '(aes_key, nonce) := derive_aes_key pk sk seed dom in
  let ybits := replicate (Z.to_nat ((t + 63) / 64)) 0 in
  '(ybits, _) ← lpn_rows sk s_words (u64 (lpn_tau_num P)) (u64 (lpn_tau_den P)) (zseq 0 (Z.to_nat t))
                  ybits (Aes.init aes_key nonce);
  Ok ybits.

Definition prf_R_core {F : Fuel} (pk : PubKey) (sk : SecKey) (seed : RSeed) (dom : string) : res Fp :=
  ybits ← lpn_make_ybits pk sk seed dom;
  let '(toep_key, toep_nonce) := derive_aes_key pk sk seed Dom.TOEP in
  let toep_nonce := toep_nonce .^ fnv1a_domain dom in
  let top_words := Z.to_nat ((lpn_t (prm pk) + 127 + 63) / 64) in
  let '(top, _) := Aes.fill_u64 top_words (Aes.init toep_key toep_nonce) in
  let '(lo, hi) := toep_127 top ybits in
  Ok (hash_to_fp_nonzero lo hi).

Definition prf_R {F : Fuel} (pk : PubKey) (sk : SecKey) (seed : RSeed) : res Fp :=
  r1 ← prf_R_core pk sk seed Dom.PRF_R1;
  r2 ← prf_R_core pk sk seed Dom.PRF_R2;
  r3 ← prf_R_core pk sk seed Dom.PRF_R3;
  Ok (fp_mul (fp_mul r1 r2) r3).

Definition prf_R_noise {F : Fuel} (pk : PubKey) (sk : SecKey) (seed : RSeed) : res Fp :=
  r1 ← prf_R_core pk sk seed Dom.PRF_NOISE1;
  r2 ← prf_R_core pk sk seed Dom.PRF_NOISE2;
  r3 ← prf_R_core pk sk seed Dom.PRF_NOISE3;
  Ok (fp_mul (fp_mul r1 r2) r3).

(** ** Slots *)

(** The seed of slot [j]. *)
Definition slot_seed (pk : PubKey) (sd : RSeed) (j : Z) : RSeed :=
  let t := u64 (j * 0x9E3779B97F4A7C15) in
  let n := mkNonce (n_lo (nonce sd) .^ (wshl 64 t 32 .^ (t ≫ 32))) (n_hi (nonce sd) .^ t) in
  mkRSeed (prg_layer_ztag (canon_tag pk) n) n.

Definition prf_R_slots {F : Fuel} (pk : PubKey) (sk : SecKey) (seed : RSeed) (slots : nat)
    : res (list Fp) :=
  if (slots =? 1)%nat then r ← prf_R pk sk seed; Ok [r]
  else mapR (λ j, prf_R pk sk (slot_seed pk seed j)) (zseq 0 slots).

(** ** [crypto/lpn_v2.hpp] *)

Module lpn_v2.

Definition R1 := "pvac.v2.prf.r.1"%string.
Definition R2 := "pvac.v2.prf.r.2"%string.
Definition R3 := "pvac.v2.prf.r.3"%string.
Definition N1 := "pvac.v2.prf.noise.1"%string.
Definition N2 := "pvac.v2.prf.noise.2"%string.
Definition N3 := "pvac.v2.prf.noise.3"%string.

Definition core {F : Fuel} (pk : PubKey) (sk : SecKey) (seed : RSeed) (dom : string) : res Fp :=
  ybits ← lpn_make_ybits pk sk seed dom;
  let '(toep_key, toep_nonce) := derive_aes_key pk sk seed Dom.TOEP in
  let toep_nonce := toep_nonce .^ fnv1a_domain dom in
  let top_words := Z.to_nat ((lpn_t (prm pk) + 126 + 63) / 64) in
  let '(top, _) := Aes.fill_u64 top_words (Aes.init toep_key toep_nonce) in
  '(lo, hi) ← toep_127_full top ybits (lpn_t (prm pk));
  Ok (hash_to_fp_nonzero lo hi).

Definition r {F : Fuel} (pk : PubKey) (sk : SecKey) (seed : RSeed) : res Fp :=
  a ← core pk sk seed R1; b ← core pk sk seed R2; c ← core pk sk seed R3;
  Ok (fp_mul (fp_mul a b) c).

Definition noise {F : Fuel} (pk : PubKey) (sk : SecKey) (seed : RSeed) : res Fp :=
  a ← core pk sk seed N1; b ← core pk sk seed N2; c ← core pk sk seed N3;
  Ok (fp_mul (fp_mul a b) c).

Definition slots {F : Fuel} (pk : PubKey) (sk : SecKey) (seed : RSeed) (count : nat)
    : res (list Fp) :=
  if (count =? 1)%nat then x ← r pk sk seed; Ok [x]
  else mapR (λ j, r pk sk (slot_seed pk seed j)) (zseq 0 count).

End lpn_v2.

(** ** [crypto/circuit_prf_profile.hpp] *)

Definition rejected {A} : res A := Throw "pvac: circuit prf profile rejected".

Definition circuit_prf_key_for_profile (sk : SecKey) (profile : CircuitPrfProfile) : res Fp :=
  match profile with
  | MIMC_X3_V6 => Ok (circuit_prf_key_v6 sk)
  | MIMC_X5_V7 => Ok (circuit_prf_key sk)
  | PROFILE_other _ => rejected
  end.

Definition circuit_prf_blind_for_profile (sk : SecKey) (profile : CircuitPrfProfile) : res (list Z) :=
  match profile with
  | MIMC_X3_V6 => Ok (circuit_prf_key_blind_v6 sk)
  | MIMC_X5_V7 => Ok (circuit_prf_key_blind sk)
  | PROFILE_other _ => rejected
  end.

Definition circuit_prf_challenge_domain (profile : CircuitPrfProfile) : res string :=
  match profile with
  | MIMC_X3_V6 => Ok Dom.CIRCUIT_PRF_CHALLENGE
  | MIMC_X5_V7 => Ok Dom.CIRCUIT_PRF_CHALLENGE_V7
  | PROFILE_other _ => rejected
  end.

Definition circuit_prf_round_domain (profile : CircuitPrfProfile) : res string :=
  match profile with
  | MIMC_X3_V6 => Ok Dom.CIRCUIT_PRF_ROUND
  | MIMC_X5_V7 => Ok Dom.CIRCUIT_PRF_ROUND_V7
  | PROFILE_other _ => rejected
  end.

Definition circuit_prf_proof_version (profile : CircuitPrfProfile) : res string :=
  match profile with
  | MIMC_X3_V6 => Ok "pvac-v6-key-bound"%string
  | MIMC_X5_V7 => Ok "pvac-v7-key-bound-x5"%string
  | PROFILE_other _ => rejected
  end.

Definition circuit_prf_rounds (profile : CircuitPrfProfile) : res nat :=
  if valid_circuit_prf_profile profile then Ok 91%nat else rejected.

Definition circuit_prf_power (profile : CircuitPrfProfile) (value : Fp) : res Fp :=
  let square := fp_mul value value in
  match profile with
  | MIMC_X3_V6 => Ok (fp_mul square value)
  | MIMC_X5_V7 => Ok (fp_mul (fp_mul square square) value)
  | PROFILE_other _ => rejected
  end.

(** ** [circuit_prf_R] *)

Definition circuit_prf_challenge (pk : PubKey) (sd : RSeed) (j : Z) : res Fp :=
  domain ← circuit_prf_challenge_domain (circuit_prf_profile pk);
  let h := sha_str sha_init domain in
  let h := Sha.sha256_acc_u64 h (canon_tag pk) in
  let h := Sha.update h (H_digest pk) in
  let h := Sha.sha256_acc_u64 h (ztag sd) in
  let h := Sha.sha256_acc_u64 h (n_lo (nonce sd)) in
  let h := Sha.sha256_acc_u64 h (n_hi (nonce sd)) in
  let h := Sha.sha256_acc_u64 h j in
  Ok (fp_from_hash32_nonzero (Sha.finish h)).

Definition circuit_prf_round_constant (profile : CircuitPrfProfile) (round : Z) : res Fp :=
  domain ← circuit_prf_round_domain profile;
  let h := sha_str sha_init domain in
  let h := Sha.sha256_acc_u64 h round in
  Ok (fp_from_hash32_nonzero (Sha.finish h)).

Fixpoint circuit_prf_loop (profile : CircuitPrfProfile) (key : Fp) (rounds : list Z) (state : Fp)
    : res Fp :=
  match rounds with
  | [] => Ok state
  | round :: rounds =>
      rc ← circuit_prf_round_constant profile round;
      let t := fp_add (fp_add state key) rc in
      state ← circuit_prf_power profile t;
      circuit_prf_loop profile key rounds state
  end.

Definition circuit_prf_R (pk : PubKey) (sk : SecKey) (seed : RSeed) (j : Z) : res Fp :=
  let profile := circuit_prf_profile pk in
  key ← circuit_prf_key_for_profile sk profile;
  state ← circuit_prf_challenge pk seed j;
  n ← circuit_prf_rounds profile;
  state ← circuit_prf_loop profile key (zseq 0 n) state;
  let out := fp_add (fp_add state key) (fp_from_u64 1) in
  match profile with
  | MIMC_X3_V6 => Ok (if ct.fp_is_nonzero out =? 0 then fp_from_u64 1 else out)
  | _ => Ok out
  end.

Definition circuit_prf_R_slots (pk : PubKey) (sk : SecKey) (seed : RSeed) (slots : nat)
    : res (list Fp) :=
  mapR (circuit_prf_R pk sk seed) (zseq 0 slots).

Definition circuit_prf_slots_nonzero (slots : list Fp) : bool :=
  forallb (λ value, negb (ct.fp_is_nonzero value =? 0)) slots.

(** ** [ops/recrypt_src_core.hpp] *)

(** The first 16 bytes of a digest, as [fp_from_words] of two copied words. *)
Definition digest_fp (d : list Z) : Fp :=
  let x := fp_from_words (le_val (take 8 d)) (le_val (take 8 (drop 8 d)) .& MASK63) in
  if fp_nonzero_bool x then x else fp_from_u64 1.

Definition ru_fp (sd : RSeed) (dom id slot : Z) : Fp :=
  let h := sha_str sha_init "pvac.native.ru.fp" in
  let h := foldl Sha.sha256_acc_u64 h
    [ztag sd; n_lo (nonce sd); n_hi (nonce sd); dom; id; slot] in
  digest_fp (Sha.finish h).

Definition ru_ztag (canon_tag : Z) (nonce : Nonce128) : Z :=
  let h := sha_str sha_init "pvac.native.ru.ztag" in
  let h := foldl Sha.sha256_acc_u64 h [canon_tag; n_lo nonce; n_hi nonce] in
  le_val (take 8 (Sha.finish h)).

Definition ru_src (pk : PubKey) (layer : Layer) : bool :=
  bool_decide (rule layer = BASE) &&
  (ztag (seed layer) =? ru_ztag (canon_tag pk) (nonce (seed layer))).

Definition ru_seed {F : Fuel} (pk : PubKey) (sd : list Z) : res RSeed :=
  '(n, _) ← make_nonce128 (make_seeded_rng sd);
  Ok (mkRSeed (ru_ztag (canon_tag pk) n) n).

Definition ru_affine (sk : SecKey) (sd : RSeed) (slot : Z) : Fp :=
  let h := sha_str sha_init "pvac.native.ru.secret" in
  let h := foldl Sha.sha256_acc_u64 h [ztag sd; n_lo (nonce sd); n_hi (nonce sd); slot] in
  let h := foldl (λ h '(i, k), Sha.sha256_acc_u64 (Sha.sha256_acc_u64 h i) k) h
    (zip (zseq 0 (length (prf_k sk))) (prf_k sk)) in
  digest_fp (Sha.finish h).

Definition ru_y (sk : SecKey) (sd : RSeed) (slot : Z) : Fp :=
  let a := ru_affine sk sd slot in fp_add (fp_mul a a) (fp_from_u64 1).

Definition ru_inv_slots (sk : SecKey) (sd : RSeed) (slots : nat) : list Fp :=
  (λ j, ru_y sk sd j) <$> zseq 0 slots.

Definition ru_r_slots (sk : SecKey) (sd : RSeed) (slots : nat) : list Fp :=
  fp_inv <$> ru_inv_slots sk sd slots.

(** ** Lemmas *)

Lemma le_val_take8 d : bytes d → word 64 (le_val (take 8 d)).
Proof.
  intros Hd. pose proof (le_val_bound (take 8 d) (Forall_take _ _ _ Hd)) as Hb.
  unfold word. assert (256 ^ Z.of_nat (length (take 8 d)) ≤ 256 ^ 8).
  { apply Z.pow_le_mono_r; [done|]. rewrite length_take. lia. }
  change (2 ^ 64) with (256 ^ 8). lia.
Qed.

(** Two masked words make a field element, replaced by one if zero. *)
Lemma words_or_one l h : word 64 l → word 64 h →
  fp_unit (let x := fp_from_words l (h .& MASK63) in
           if fp_nonzero_bool x then x else fp_from_u64 1).
Proof.
  intros Hl Hh. assert (Hm : word 64 (h .& MASK63)).
  { unfold MASK63. rewrite (land_low _ 63) by done. word_lia. }
  cbv zeta. pose proof (rep_ok _ _ (rep_words _ _ Hl Hm)) as Hok.
  destruct (fp_nonzero_bool _) eqn:Hn; [|apply fp_unit_one].
  split; [done|]. by apply fp_nonzero_bool_spec.
Qed.

Lemma digest_fp_unit d : bytes d → fp_unit (digest_fp d).
Proof.
  intros Hd. apply words_or_one; apply le_val_take8; [done|by apply Forall_drop].
Qed.

Lemma lor_fold_word (f : Z → Z) l x : word 64 x →
  word 64 (foldl (λ x i, x .| wshl 64 (f i) (8 * i)) x l).
Proof.
  revert x. induction l as [|i l IH]; intros x Hx; [done|]. apply IH.
  apply word_bound_lor; [done|done|by apply wrap_word].
Qed.

Lemma fp_from_hash32_unit d : fp_unit (fp_from_hash32_nonzero d).
Proof.
  apply words_or_one; [apply (lor_fold_word (λ i, nth (Z.to_nat i) d 0))|
    apply (lor_fold_word (λ i, nth (Z.to_nat (8 + i)) d 0))]; done.
Qed.

(** The branch-free selection of [hash_to_fp_nonzero] is the same choice. *)
Lemma hash_to_fp_spec l h : word 64 l → word 64 h →
  hash_to_fp_nonzero l h =
  (let x := fp_from_words l (h .& MASK63) in if fp_nonzero_bool x then x else fp_from_u64 1).
Proof.
  intros Hl Hh. unfold hash_to_fp_nonzero. cbv zeta.
  assert (Hm : word 64 (h .& MASK63)).
  { unfold MASK63. rewrite (land_low _ 63) by done. word_lia. }
  pose proof (fp_ok_words _ (rep_ok _ _ (rep_words _ _ Hl Hm))) as [Hlo Hhi].
  set (x := fp_from_words l (h .& MASK63)) in *.
  change (((lo x .| hi x .| wneg 64 (lo x .| hi x)) ≫ 63) .^ 1) with (ct.is_zero 64 (lo x .| hi x)).
  rewrite ct_lemmas.is_zero_spec by (done || by apply word_bound_lor).
  set (c := lo x .| hi x =? 0).
  assert (Hmask : wneg 64 (b2z c) = if c then Z.ones 64 else 0) by (by destruct c).
  rewrite Hmask. fold (ct.select 64 (if c then Z.ones 64 else 0)).
  pose proof (ct_lemmas.select_spec 64 ltac:(done) c) as Hs. unfold ct.select in Hs.
  assert (H1 : word 64 1) by word_lia. assert (H0 : word 64 0) by word_lia.
  cbn [lo hi fp_from_u64]. rewrite (Z.lor_comm (lo x .& _)), (Z.lor_comm (hi x .& _)).
  rewrite (Z.lor_comm _ (lo x .& _)), (Z.lor_comm _ (hi x .& _)).
  rewrite (Z.lor_comm (lo x .& _)), (Z.lor_comm (hi x .& _)).
  rewrite (Hs 1 (lo x)), (Hs 0 (hi x)) by done.
  assert (Hc : fp_nonzero_bool x = negb c).
  { unfold fp_nonzero_bool, c. apply eq_true_iff_eq.
    rewrite orb_true_iff, !negb_true_iff, !Z.eqb_neq, Z.lor_eq_0_iff. lia. }
  rewrite Hc. destruct c; [done|]. by destruct x.
Qed.

Lemma hash_to_fp_unit l h : word 64 l → word 64 h → fp_unit (hash_to_fp_nonzero l h).
Proof. intros. rewrite hash_to_fp_spec by done. by apply words_or_one. Qed.

Lemma extract_words conv offset :
  word 64 (fst (extract_127 conv offset)) ∧ word 64 (snd (extract_127 conv offset)).
Proof.
  unfold extract_127. generalize (zseq 0 127).
  assert (H0 : word 64 0) by word_lia.
  assert (G : ∀ l a, word 64 (fst a) → word 64 (snd a) →
    let r := foldl (λ '(out_lo, out_hi) r,
      let pos := offset + r in
      let bit := (at_ conv (Z.to_nat (pos ≫ 6)) ≫ (pos .& 63)) .& 1 in
      if r <? 64 then (out_lo .| wshl 64 bit r, out_hi)
      else (out_lo, out_hi .| wshl 64 bit (r - 64))) a l in word 64 (fst r) ∧ word 64 (snd r)).
  { induction l as [|r l IH]; intros [a b] Ha Hb; [done|]. cbn [foldl]. cbv zeta.
    cbn [fst snd] in *.
    destruct (r <? 64); apply IH; cbn [fst snd]; try done;
      (apply word_bound_lor; [done|done|by apply wrap_word]). }
  intros l. by apply G.
Qed.

Section Masks.
Context {F : Fuel} (pk : PubKey) (sk : SecKey).

Lemma prf_R_core_unit sd dom x : prf_R_core pk sk sd dom = Ok x → fp_unit x.
Proof.
  unfold prf_R_core. intros (y & _ & H1)%res_bind_Ok.
  destruct (derive_aes_key pk sk sd Dom.TOEP) as [k n].
  destruct (Aes.fill_u64 _ _) as [top a].
  pose proof (extract_words (gf2_conv_scalar y top) 0) as [Hl Hh].
  unfold toep_127, toep_127_scalar in H1. destruct (extract_127 _ _) as [l h]. injection H1 as <-.
  by apply hash_to_fp_unit.
Qed.

Lemma v2_core_unit sd dom x : lpn_v2.core pk sk sd dom = Ok x → fp_unit x.
Proof.
  unfold lpn_v2.core. intros (y & _ & H1)%res_bind_Ok.
  destruct (derive_aes_key pk sk sd Dom.TOEP) as [k n].
  destruct (Aes.fill_u64 _ _) as [top a]. apply res_bind_Ok in H1 as ([l h] & Ht & [= <-]).
  unfold toep_127_full in Ht. destruct (_ =? 0); [done|]. destruct (_ || _); [done|].
  apply (inj Ok) in Ht.
  pose proof (extract_words (gf2_conv_clmul (mask_last y (lpn_t (prm pk))) top) (lpn_t (prm pk) - 1))
    as [Hl Hh]. rewrite Ht in Hl, Hh. by apply hash_to_fp_unit.
Qed.

Lemma three_unit (f : string → res Fp) d1 d2 d3 x :
  (∀ d y, f d = Ok y → fp_unit y) →
  (a ← f d1; b ← f d2; c ← f d3; Ok (fp_mul (fp_mul a b) c)) = Ok x → fp_unit x.
Proof.
  intros Hf (a & Ha & H1)%res_bind_Ok. apply res_bind_Ok in H1 as (b & Hb & H1).
  apply res_bind_Ok in H1 as (c & Hc & [= <-]).
  apply fp_unit_mul; [apply fp_unit_mul|]; by eapply Hf.
Qed.

Lemma prf_R_unit sd x : prf_R pk sk sd = Ok x → fp_unit x.
Proof. apply (three_unit (prf_R_core pk sk sd)), prf_R_core_unit. Qed.

Lemma v2_noise_unit sd x : lpn_v2.noise pk sk sd = Ok x → fp_unit x.
Proof. apply (three_unit (lpn_v2.core pk sk sd)), v2_core_unit. Qed.

Lemma v2_r_unit sd x : lpn_v2.r pk sk sd = Ok x → fp_unit x.
Proof. apply (three_unit (lpn_v2.core pk sk sd)), v2_core_unit. Qed.

Lemma prf_R_slots_unit sd n xs : prf_R_slots pk sk sd n = Ok xs →
  length xs = n ∧ Forall fp_unit xs.
Proof.
  unfold prf_R_slots. destruct (Nat.eqb_spec n 1) as [->|Hn].
  - intros (x & Hx & [= <-])%res_bind_Ok. apply prf_R_unit in Hx. split; [done|by constructor].
  - intros H1. split; [apply mapR_length in H1; by rewrite length_zseq in H1|].
    eapply mapR_Forall; [|exact H1]. intros j x. apply prf_R_unit.
Qed.

(** [a * a + 1] has no root: [-1] is not a square modulo [P]. *)
Lemma square_plus_one x : ¬ (P | x * x + 1).
Proof.
  intros Hd. assert (Hsq : cong P (x * x) (-1)).
  { apply cong_divide; [done|]. by replace (x * x - -1) with (x * x + 1) by ring. }
  assert (Hx : ¬ (P | x)).
  { intros [k ->]. replace (k * P * (k * P)) with (k * P * k * P) in Hsq by ring. unfold cong in Hsq.
    rewrite Z.mod_mul in Hsq by done. by vm_compute in Hsq. }
  pose proof (fermat_little P x prime_127 Hx) as Hf.
  assert (E : x ^ (P - 1) = (x * x) ^ ((P - 1) / 2)).
  { replace (P - 1) with (2 * ((P - 1) / 2)) at 1 by (unfold P; lia).
    rewrite Z.pow_mul_r by (unfold P; lia). by rewrite Z.pow_2_r. }
  rewrite E in Hf. assert (Hm : cong P ((x * x) ^ ((P - 1) / 2)) ((-1) ^ ((P - 1) / 2)))
    by (apply cong_pow; [unfold P; lia|done]).
  assert (Hodd : ∀ m, 0 ≤ m → (-1) ^ (1 + 2 * m) = -1).
  { intros m Hm0. rewrite Z.pow_add_r, Z.pow_mul_r, Z.pow_1_r by lia.
    change ((-1) ^ 2) with 1. rewrite Z.pow_1_l by done. reflexivity. }
  replace ((P - 1) / 2) with (1 + 2 * ((P - 1) / 2 / 2)) in Hm at 2 by (unfold P; lia).
  rewrite Hf, Hodd in Hm by (unfold P; lia). by vm_compute in Hm.
Qed.

Lemma ru_y_unit sd j : fp_unit (ru_y sk sd j).
Proof.
  unfold ru_y. pose proof (digest_fp_unit (Sha.finish _) (finish_bytes _) : fp_unit (ru_affine sk sd j)) as [Ha _].
  pose proof (rep_val _ Ha) as Hr.
  assert (Hy : fp_add (fp_mul (ru_affine sk sd j) (ru_affine sk sd j)) (fp_from_u64 1) ~~
    val (ru_affine sk sd j) * val (ru_affine sk sd j) + 1)
    by (apply rep_add; [by apply rep_mul|apply rep_u64; word_lia]).
  split; [by eapply rep_ok|]. rewrite (rep_mod _ _ Hy). intros H0.
  apply Z.mod_divide in H0; [|done]. by apply square_plus_one in H0.
Qed.

Lemma ru_r_slots_unit sd n : length (ru_r_slots sk sd n) = n ∧ Forall fp_unit (ru_r_slots sk sd n).
Proof.
  unfold ru_r_slots, ru_inv_slots. split; [by rewrite !length_fmap, length_zseq|].
  apply Forall_fmap, Forall_fmap, Forall_forall. intros j _. apply fp_unit_inv, ru_y_unit.
Qed.

Lemma circuit_prf_power_ok prof v x : fp_ok v → circuit_prf_power prof v = Ok x → fp_ok x.
Proof.
  intros Hv. pose proof (rep_val v Hv) as Hr. destruct prof; unfold circuit_prf_power, rejected; cbv zeta iota;
    (intros [= <-] || discriminate);
    (eapply rep_ok; eauto with fp).
Qed.

Lemma circuit_prf_loop_ok prof key rounds st x : fp_ok key → fp_ok st →
  circuit_prf_loop prof key rounds st = Ok x → fp_ok x.
Proof.
  intros Hk. revert st. induction rounds as [|rd rounds IH]; intros st Hs; cbn [circuit_prf_loop].
  - by intros [= <-].
  - intros (rc & Hrc & H1)%res_bind_Ok. apply res_bind_Ok in H1 as (st' & Hst' & H1).
    apply res_bind_Ok in Hrc as (dm & _ & [= <-]).
    eapply IH; [|exact H1]. eapply circuit_prf_power_ok; [|exact Hst'].
    pose proof (fp_from_hash32_unit (Sha.finish (Sha.sha256_acc_u64 (sha_str sha_init dm) rd))) as [Hrc _].
    eapply rep_ok. apply rep_add; [apply rep_add|]; by apply rep_val.
Qed.

Definition keys_ok : Prop := fp_ok (circuit_prf_key sk) ∧ fp_ok (circuit_prf_key_v6 sk).

Lemma circuit_prf_R_ok sd j x : keys_ok → circuit_prf_R pk sk sd j = Ok x →
  fp_ok x ∧ (circuit_prf_profile pk = MIMC_X3_V6 → fp_unit x).
Proof.
  intros [Hk5 Hk3]. unfold circuit_prf_R. intros (key & Hkey & H1)%res_bind_Ok.
  apply res_bind_Ok in H1 as (st & Hst & H1). apply res_bind_Ok in H1 as (n & _ & H1).
  apply res_bind_Ok in H1 as (st' & Hst' & H1).
  assert (Hk : fp_ok key).
  { destruct (circuit_prf_profile pk); unfold circuit_prf_key_for_profile, rejected in Hkey;
      [by apply (inj Ok) in Hkey as <-..|discriminate]. }
  assert (Hs : fp_ok st).
  { apply res_bind_Ok in Hst as (dm & _ & [= <-]). apply fp_from_hash32_unit. }
  eapply circuit_prf_loop_ok in Hst'; [|done|done].
  assert (Ho : fp_ok (fp_add (fp_add st' key) (fp_from_u64 1))).
  { eapply rep_ok. apply rep_add; [apply rep_add; by apply rep_val|apply rep_u64; word_lia]. }
  destruct (circuit_prf_profile pk); apply (inj Ok) in H1 as <-; [|by split..].
  set (out := fp_add _ _) in *. rewrite ct_lemmas.fp_is_nonzero_spec by apply Ho.
  destruct (Z.eqb_spec (val out) 0) as [E0|E0]; cbn [negb b2z Z.eqb].
  - split; [|intros _]; apply fp_unit_one.
  - split; [done|]. by split.
Qed.

Lemma circuit_prf_R_slots_ok sd n xs : keys_ok → circuit_prf_R_slots pk sk sd n = Ok xs →
  length xs = n ∧ Forall fp_ok xs ∧ (circuit_prf_profile pk = MIMC_X3_V6 → Forall fp_unit xs).
Proof.
  intros Hk H1. split; [apply mapR_length in H1; by rewrite length_zseq in H1|].
  split; [|intros Hp]; (eapply mapR_Forall; [|exact H1]); intros j x Hx;
    by destruct (circuit_prf_R_ok sd j x Hk Hx) as [? ?]; auto.
Qed.

Lemma slots_nonzero_spec xs : Forall fp_ok xs →
  circuit_prf_slots_nonzero xs = true ↔ Forall fp_unit xs.
Proof.
  intros Hxs. unfold circuit_prf_slots_nonzero. rewrite forallb_forall, Forall_forall.
  split; intros H1 x Hx.
  - pose proof (proj1 (Forall_forall _ _) Hxs x Hx) as Hok.
    apply list_elem_of_In in Hx. specialize (H1 x Hx). split; [done|].
    rewrite ct_lemmas.fp_is_nonzero_spec in H1 by apply Hok.
    intros E0. by rewrite E0 in H1.
  - apply list_elem_of_In in Hx. destruct (H1 x Hx) as [Hok Hn].
    rewrite ct_lemmas.fp_is_nonzero_spec by apply Hok. by rewrite (proj2 (Z.eqb_neq (val x) 0)).
Qed.

End Masks.

(** ** Properties *)

(** C39. No mask is zero: every value the LPN functions return, every value of
    the version 6 circuit, every list the encryption accepts from either circuit,
    and every native value is an invertible reduced field element. *)
Theorem masks_invertible {F : Fuel} (pk : PubKey) (sk : SecKey) (sd : RSeed) (n : nat) (x : Fp)
  (xs : list Fp) (Hk : keys_ok sk) :
  (prf_R pk sk sd = Ok x → fp_unit x) ∧
  (lpn_v2.r pk sk sd = Ok x → fp_unit x) ∧ (lpn_v2.noise pk sk sd = Ok x → fp_unit x) ∧
  (prf_R_slots pk sk sd n = Ok xs → length xs = n ∧ Forall fp_unit xs) ∧
  (circuit_prf_R_slots pk sk sd n = Ok xs →
     (circuit_prf_profile pk = MIMC_X3_V6 ∨ circuit_prf_slots_nonzero xs = true) →
     length xs = n ∧ Forall fp_unit xs) ∧
  (length (ru_r_slots sk sd n) = n ∧ Forall fp_unit (ru_r_slots sk sd n)).
Proof.
  split; [apply prf_R_unit|]. split; [apply v2_r_unit|]. split; [apply v2_noise_unit|].
  split; [apply prf_R_slots_unit|]. split; [|apply ru_r_slots_unit].
  intros H1 Hor. apply circuit_prf_R_slots_ok in H1 as (Hl & Hok & Hv6); [|done].
  split; [done|]. destruct Hor as [Hv|Hnz]; [by apply Hv6|by apply slots_nonzero_spec].
Qed.

Definition tiny_params : Params :=
  mkParams 3 64 64 2 2 2 0 0 0 100 64 1 1 2 0 0 0.
Definition tiny_pk : PubKey :=
  mkPubKey tiny_params 5 [] (mkUbk [] []) (replicate 32 1) fp0 [] [] MIMC_X5_V7.
Definition tiny_sk : SecKey := mkSecKey [1; 2; 3; 4] (mkFp 5 6) [] (mkFp 7 8) [] [9].

Lemma masks_invertible_witness : ∃ x,
  prf_R (F := 20%nat) tiny_pk tiny_sk (mkRSeed 1 (mkNonce 2 3)) = Ok x ∧ fp_unit x.
Proof.
  assert (Hk : keys_ok tiny_sk) by (repeat split; by vm_compute).
  destruct (prf_R (F := 20%nat) tiny_pk tiny_sk (mkRSeed 1 (mkNonce 2 3))) as [x|e|] eqn:E;
    [|exfalso; vm_compute in E; discriminate..].
  exists x. split; [reflexivity|].
  exact (proj1 (masks_invertible (F := 20%nat) tiny_pk tiny_sk (mkRSeed 1 (mkNonce 2 3)) 1 x [] Hk) E).
Defined.
