(* ===== verification/Fe25519.v ===== *)
(** * The field of Curve25519 ([crypto/ristretto255.hpp], lines 15-228)

    Elements are five 51-bit limbs in 64-bit words; every operation is
    translated with its carry chain and proved to compute modulo [2^255 - 19]
    under the limb bounds the operations keep. *)

From S2P Require Import Prelude Primes.

Record Fe25519 : Set := mkFe { v0 : Z; v1 : Z; v2 : Z; v3 : Z; v4 : Z }.

Definition FE_MASK51 : Z := wshl 64 1 51 - 1.

Definition fe_zero : Fe25519 := mkFe 0 0 0 0 0.
Definition fe_one : Fe25519 := mkFe 1 0 0 0 0.

(** ** Arithmetic *)

Definition fe_reduce (h : Fe25519) : Fe25519 :=
  let c := v0 h ≫ 51 in let h1 := u64 (v1 h + c) in let h0 := v0 h .& FE_MASK51 in
  let c := h1 ≫ 51 in let h2 := u64 (v2 h + c) in let h1 := h1 .& FE_MASK51 in
  let c := h2 ≫ 51 in let h3 := u64 (v3 h + c) in let h2 := h2 .& FE_MASK51 in
  let c := h3 ≫ 51 in let h4 := u64 (v4 h + c) in let h3 := h3 .& FE_MASK51 in
  let c := h4 ≫ 51 in let h0 := u64 (h0 + u64 (c * 19)) in let h4 := h4 .& FE_MASK51 in
  let c := h0 ≫ 51 in let h1 := u64 (h1 + c) in let h0 := h0 .& FE_MASK51 in
  mkFe h0 h1 h2 h3 h4.

Definition fe_add (f g : Fe25519) : Fe25519 :=
  fe_reduce (mkFe (u64 (v0 f + v0 g)) (u64 (v1 f + v1 g)) (u64 (v2 f + v2 g))
                  (u64 (v3 f + v3 g)) (u64 (v4 f + v4 g))).

Definition fe_sub (f g : Fe25519) : Fe25519 :=
  let d0 := wshl 64 1 52 - 38 in
  let d := wshl 64 1 52 - 2 in
  fe_reduce (mkFe (u64 (u64 (v0 f + d0) - v0 g)) (u64 (u64 (v1 f + d) - v1 g))
                  (u64 (u64 (v2 f + d) - v2 g)) (u64 (u64 (v3 f + d) - v3 g))
                  (u64 (u64 (v4 f + d) - v4 g))).

Definition fe_neg (f : Fe25519) : Fe25519 := fe_sub fe_zero f.

(** The carry chain that [fe_mul] ends with, on its five 128-bit columns. *)
Definition fe_mul_carry (t0 t1 t2 t3 t4 : Z) : Fe25519 :=
  let h0 := u64 t0 .& FE_MASK51 in let c := u64 (t0 ≫ 51) in
  let t1 := u128 (t1 + c) in let h1 := u64 t1 .& FE_MASK51 in let c := u64 (t1 ≫ 51) in
  let t2 := u128 (t2 + c) in let h2 := u64 t2 .& FE_MASK51 in let c := u64 (t2 ≫ 51) in
  let t3 := u128 (t3 + c) in let h3 := u64 t3 .& FE_MASK51 in let c := u64 (t3 ≫ 51) in
  let t4 := u128 (t4 + c) in let h4 := u64 t4 .& FE_MASK51 in let c := u64 (t4 ≫ 51) in
  let h0 := u64 (h0 + u64 (c * 19)) in
  let c := h0 ≫ 51 in let h1 := u64 (h1 + c) in let h0 := h0 .& FE_MASK51 in
  mkFe h0 h1 h2 h3 h4.

Definition fe_mul (f g : Fe25519) : Fe25519 :=
  let g19_1 := u64 (19 * v1 g) in
  let g19_2 := u64 (19 * v2 g) in
  let g19_3 := u64 (19 * v3 g) in
  let g19_4 := u64 (19 * v4 g) in
  let t0 := u128 (v0 f * v0 g + v1 f * g19_4 + v2 f * g19_3 + v3 f * g19_2 + v4 f * g19_1) in
  let t1 := u128 (v0 f * v1 g + v1 f * v0 g + v2 f * g19_4 + v3 f * g19_3 + v4 f * g19_2) in
  let t2 := u128 (v0 f * v2 g + v1 f * v1 g + v2 f * v0 g + v3 f * g19_4 + v4 f * g19_3) in
  let t3 := u128 (v0 f * v3 g + v1 f * v2 g + v2 f * v1 g + v3 f * v0 g + v4 f * g19_4) in
  let t4 := u128 (v0 f * v4 g + v1 f * v3 g + v2 f * v2 g + v3 f * v1 g + v4 f * v0 g) in
  fe_mul_carry t0 t1 t2 t3 t4.

Definition fe_sq (f : Fe25519) : Fe25519 := fe_mul f f.

(** [for (int i = 1; i < n; i++) t = fe_sq(t);] is [fe_sqn (n - 1)]. *)
Definition fe_sqn (n : nat) (t : Fe25519) : Fe25519 := Nat.iter n fe_sq t.

Definition fe_pow2523 (z : Fe25519) : Fe25519 :=
  let t0 := fe_sq z in
  let t1 := fe_sq t0 in let t1 := fe_sq t1 in
  let t1 := fe_mul z t1 in
  let t0 := fe_mul t0 t1 in
  let t0 := fe_sq t0 in
  let t0 := fe_mul t1 t0 in
  let t1 := fe_sq t0 in
  let t1 := fe_sqn 4 t1 in
  let t0 := fe_mul t1 t0 in
  let t1 := fe_sq t0 in
  let t1 := fe_sqn 9 t1 in
  let t1 := fe_mul t1 t0 in
  let t2 := fe_sq t1 in
  let t2 := fe_sqn 19 t2 in
  let t1 := fe_mul t2 t1 in
  let t1 := fe_sq t1 in
  let t1 := fe_sqn 9 t1 in
  let t0 := fe_mul t1 t0 in
  let t1 := fe_sq t0 in
  let t1 := fe_sqn 49 t1 in
  let t1 := fe_mul t1 t0 in
  let t2 := fe_sq t1 in
  let t2 := fe_sqn 99 t2 in
  let t1 := fe_mul t2 t1 in
  let t1 := fe_sq t1 in
  let t1 := fe_sqn 49 t1 in
  let t0 := fe_mul t1 t0 in
  let t0 := fe_sq t0 in let t0 := fe_sq t0 in
  fe_mul t0 z.

Definition fe_inv (z : Fe25519) : Fe25519 :=
  let t := fe_pow2523 z in
  let t := fe_sq t in let t := fe_sq t in let t := fe_sq t in
  let z2 := fe_sq z in
  let z3 := fe_mul z z2 in
  fe_mul t z3.

(** ** Encoding *)

Definition fe_frombytes (s : list Z) : Fe25519 :=
  let b i := nth i s 0 in
  let h0 := b 0%nat .| wshl 64 (b 1%nat) 8 .| wshl 64 (b 2%nat) 16
            .| wshl 64 (b 3%nat) 24 .| wshl 64 (b 4%nat) 32 .| wshl 64 (b 5%nat) 40
            .| wshl 64 (b 6%nat .& 0x07) 48 in
  let h1 := (b 6%nat ≫ 3) .| wshl 64 (b 7%nat) 5 .| wshl 64 (b 8%nat) 13
            .| wshl 64 (b 9%nat) 21 .| wshl 64 (b 10%nat) 29 .| wshl 64 (b 11%nat) 37
            .| wshl 64 (b 12%nat .& 0x3f) 45 in
  let h2 := (b 12%nat ≫ 6) .| wshl 64 (b 13%nat) 2 .| wshl 64 (b 14%nat) 10
            .| wshl 64 (b 15%nat) 18 .| wshl 64 (b 16%nat) 26 .| wshl 64 (b 17%nat) 34
            .| wshl 64 (b 18%nat) 42 .| wshl 64 (b 19%nat .& 0x01) 50 in
  let h3 := (b 19%nat ≫ 1) .| wshl 64 (b 20%nat) 7 .| wshl 64 (b 21%nat) 15
            .| wshl 64 (b 22%nat) 23 .| wshl 64 (b 23%nat) 31 .| wshl 64 (b 24%nat) 39
            .| wshl 64 (b 25%nat .& 0x0f) 47 in
  let h4 := (b 25%nat ≫ 4) .| wshl 64 (b 26%nat) 4 .| wshl 64 (b 27%nat) 12
            .| wshl 64 (b 28%nat) 20 .| wshl 64 (b 29%nat) 28 .| wshl 64 (b 30%nat) 36
            .| wshl 64 (b 31%nat .& 0x7f) 44 in
  fe_reduce (mkFe (h0 .& FE_MASK51) (h1 .& FE_MASK51) (h2 .& FE_MASK51)
                  (h3 .& FE_MASK51) (h4 .& FE_MASK51)).

(** The canonical limbs that [fe_tobytes] computes before it packs them. *)
Definition fe_canonical (h : Fe25519) : Fe25519 :=
  let h := fe_reduce h in
  let q := u64 (v0 h + 19) ≫ 51 in
  let q := u64 (v1 h + q) ≫ 51 in
  let q := u64 (v2 h + q) ≫ 51 in
  let q := u64 (v3 h + q) ≫ 51 in
  let q := u64 (v4 h + q) ≫ 51 in
  let h0 := u64 (v0 h + u64 (19 * q)) in
  let c := h0 ≫ 51 in let h1 := u64 (v1 h + c) in let h0 := h0 .& FE_MASK51 in
  let c := h1 ≫ 51 in let h2 := u64 (v2 h + c) in let h1 := h1 .& FE_MASK51 in
  let c := h2 ≫ 51 in let h3 := u64 (v3 h + c) in let h2 := h2 .& FE_MASK51 in
  let c := h3 ≫ 51 in let h4 := u64 (v4 h + c) in let h3 := h3 .& FE_MASK51 in
  let h4 := h4 .& FE_MASK51 in
  mkFe h0 h1 h2 h3 h4.

(** The 64-bit words of canonical limbs. *)
Definition fe_words (h : Fe25519) : list Z :=
  [ v0 h .| wshl 64 (v1 h) 51;
    (v1 h ≫ 13) .| wshl 64 (v2 h) 38;
    (v2 h ≫ 26) .| wshl 64 (v3 h) 25;
    (v3 h ≫ 39) .| wshl 64 (v4 h) 12 ].

(** The eight [(uint8_t)(bits[i] >> 8k)] of a word. *)
Definition word_bytes (w : Z) : list Z :=
  map (λ k, u8 (w ≫ k)) [0; 8; 16; 24; 32; 40; 48; 56].

Definition fe_tobytes (h : Fe25519) : list Z :=
  concat (map word_bytes (fe_words (fe_canonical h))).

Definition fe_has_canonical_encoding (bytes : list Z) (value : Fe25519) : bool :=
  let canonical := fe_tobytes value in
  let mismatch := fold_left (λ m i, m .| (nth i bytes 0 .^ nth i canonical 0)) (seq 0 32) 0 in
  mismatch =? 0.

Definition fe_is_zero (f : Fe25519) : bool :=
  let d := fold_left (λ d x, d .| x) (fe_tobytes f) 0 in
  d =? 0.

Definition fe_is_negative (f : Fe25519) : bool :=
  negb (nth 0 (fe_tobytes f) 0 .& 1 =? 0).

Definition fe_cmov (f g : Fe25519) (b : bool) : Fe25519 :=
  let mask := wneg 64 (b2z b) in
  let mv x y := x .^ (mask .& (x .^ y)) in
  mkFe (mv (v0 f) (v0 g)) (mv (v1 f) (v1 g)) (mv (v2 f) (v2 g)) (mv (v3 f) (v3 g)) (mv (v4 f) (v4 g)).

Definition fe_cneg (f : Fe25519) (b : bool) : Fe25519 :=
  let nf := fe_neg f in
  fe_cmov f nf b.

Definition fe_abs (f : Fe25519) : Fe25519 := fe_cneg f (fe_is_negative f).

(** ** Specification: integers modulo [p] *)

Definition p25519 : Z := 2 ^ 255 - 19.

Definition fe_val (f : Fe25519) : Z :=
  v0 f + 2 ^ 51 * v1 f + 2 ^ 102 * v2 f + 2 ^ 153 * v3 f + 2 ^ 204 * v4 f.

(** The limb bounds that every operation leaves. *)
Definition fe_ok (f : Fe25519) : Prop :=
  0 ≤ v0 f < 2 ^ 51 ∧ 0 ≤ v1 f ≤ 2 ^ 51 + 2 ^ 10 ∧ 0 ≤ v2 f < 2 ^ 51 ∧
  0 ≤ v3 f < 2 ^ 51 ∧ 0 ≤ v4 f < 2 ^ 51.

(** [f] holds the residue of [x]. *)
Definition fe_rep (f : Fe25519) (x : Z) : Prop := fe_ok f ∧ cong p25519 (fe_val f) x.

(** *** Carry chains *)

Lemma mask51 x : x .& FE_MASK51 = x mod 2 ^ 51.
Proof. by apply land_low. Qed.

Lemma fe_reduce_spec h :
  (0 ≤ v0 h < 2 ^ 60) → (0 ≤ v1 h < 2 ^ 60) → (0 ≤ v2 h < 2 ^ 60) → (0 ≤ v3 h < 2 ^ 60) →
  (0 ≤ v4 h < 2 ^ 60) →
  fe_ok (fe_reduce h) ∧ cong p25519 (fe_val (fe_reduce h)) (fe_val h) ∧
  fe_val (fe_reduce h) < 2 ^ 255 + 2 ^ 20.
Proof.
  destruct h as [a0 a1 a2 a3 a4]. cbn [v0 v1 v2 v3 v4]. intros H0 H1 H2 H3 H4.
  unfold fe_reduce. cbn [v0 v1 v2 v3 v4]. cbv zeta.
  rewrite !mask51, !shr_div by done. unfold wrap.
  set (c0 := a0 / 2 ^ 51). set (r0 := a0 mod 2 ^ 51).
  assert (E0 : a0 = 2 ^ 51 * c0 + r0 ∧ 0 ≤ r0 < 2 ^ 51 ∧ 0 ≤ c0 < 2 ^ 9)
    by (unfold c0, r0; pow_consts; lia).
  rewrite (Z.mod_small (a1 + c0)) by (clear -H1 E0; pow_consts; lia).
  set (c1 := (a1 + c0) / 2 ^ 51). set (r1 := (a1 + c0) mod 2 ^ 51).
  assert (E1 : a1 + c0 = 2 ^ 51 * c1 + r1 ∧ 0 ≤ r1 < 2 ^ 51 ∧ 0 ≤ c1 < 2 ^ 10)
    by (clear -H1 E0; unfold c1, r1; pow_consts; lia).
  rewrite (Z.mod_small (a2 + c1)) by (clear -H2 E1; pow_consts; lia).
  set (c2 := (a2 + c1) / 2 ^ 51). set (r2 := (a2 + c1) mod 2 ^ 51).
  assert (E2 : a2 + c1 = 2 ^ 51 * c2 + r2 ∧ 0 ≤ r2 < 2 ^ 51 ∧ 0 ≤ c2 < 2 ^ 10)
    by (clear -H2 E1; unfold c2, r2; pow_consts; lia).
  rewrite (Z.mod_small (a3 + c2)) by (clear -H3 E2; pow_consts; lia).
  set (c3 := (a3 + c2) / 2 ^ 51). set (r3 := (a3 + c2) mod 2 ^ 51).
  assert (E3 : a3 + c2 = 2 ^ 51 * c3 + r3 ∧ 0 ≤ r3 < 2 ^ 51 ∧ 0 ≤ c3 < 2 ^ 10)
    by (clear -H3 E2; unfold c3, r3; pow_consts; lia).
  rewrite (Z.mod_small (a4 + c3)) by (clear -H4 E3; pow_consts; lia).
  set (c4 := (a4 + c3) / 2 ^ 51). set (r4 := (a4 + c3) mod 2 ^ 51).
  assert (E4 : a4 + c3 = 2 ^ 51 * c4 + r4 ∧ 0 ≤ r4 < 2 ^ 51 ∧ 0 ≤ c4 < 2 ^ 10)
    by (clear -H4 E3; unfold c4, r4; pow_consts; lia).
  rewrite (Z.mod_small (c4 * 19)), (Z.mod_small (r0 + c4 * 19))
    by (clear -E0 E4; pow_consts; lia).
  set (k := (r0 + c4 * 19) / 2 ^ 51). set (s0 := (r0 + c4 * 19) mod 2 ^ 51).
  assert (E5 : r0 + c4 * 19 = 2 ^ 51 * k + s0 ∧ 0 ≤ s0 < 2 ^ 51 ∧ 0 ≤ k ≤ 1 ∧
               (k = 1 → s0 < 2 ^ 15))
    by (clear -E0 E4; unfold k, s0; pow_consts; lia).
  rewrite (Z.mod_small (r1 + k)) by (clear -E1 E5; pow_consts; lia).
  clearbody c0 r0 c1 r1 c2 r2 c3 r3 c4 r4 k s0.
  unfold fe_ok, fe_val. cbn [v0 v1 v2 v3 v4]. split; [|split].
  - clear -E1 E2 E3 E4 E5. pow_consts. lia.
  - apply (cong_shift _ _ _ (- c4)). unfold p25519. clear -E0 E1 E2 E3 E4 E5. pow_consts. lia.
  - clear -E1 E2 E3 E4 E5. pow_consts. lia.
Qed.

Lemma fe_mul_carry_spec t0 t1 t2 t3 t4 :
  0 ≤ t0 < 2 ^ 110 → 0 ≤ t1 < 2 ^ 110 → 0 ≤ t2 < 2 ^ 110 → 0 ≤ t3 < 2 ^ 110 → 0 ≤ t4 < 2 ^ 106 →
  fe_ok (fe_mul_carry t0 t1 t2 t3 t4) ∧
  cong p25519 (fe_val (fe_mul_carry t0 t1 t2 t3 t4))
    (t0 + 2 ^ 51 * t1 + 2 ^ 102 * t2 + 2 ^ 153 * t3 + 2 ^ 204 * t4).
Proof.
  intros H0 H1 H2 H3 H4. unfold fe_mul_carry. cbv zeta.
  rewrite !mask51, !shr_div by done. unfold wrap.
  assert (M : ∀ x, (x mod 2 ^ 64) mod 2 ^ 51 = x mod 2 ^ 51) by (intros; pow_consts; lia).
  rewrite (M t0).
  set (c0 := t0 / 2 ^ 51). set (r0 := t0 mod 2 ^ 51).
  assert (E0 : t0 = 2 ^ 51 * c0 + r0 ∧ 0 ≤ r0 < 2 ^ 51 ∧ 0 ≤ c0 < 2 ^ 59)
    by (unfold c0, r0; pow_consts; lia).
  rewrite (Z.mod_small c0) by (clear -E0; pow_consts; lia).
  rewrite (Z.mod_small (t1 + c0)) by (clear -H1 E0; pow_consts; lia).
  set (c1 := (t1 + c0) / 2 ^ 51). set (r1 := (t1 + c0) mod 2 ^ 51).
  assert (E1 : t1 + c0 = 2 ^ 51 * c1 + r1 ∧ 0 ≤ r1 < 2 ^ 51 ∧ 0 ≤ c1 < 2 ^ 60)
    by (clear -H1 E0; unfold c1, r1; pow_consts; lia).
  rewrite (Z.mod_small c1) by (clear -E1; pow_consts; lia).
  rewrite (Z.mod_small (t2 + c1)) by (clear -H2 E1; pow_consts; lia).
  set (c2 := (t2 + c1) / 2 ^ 51). set (r2 := (t2 + c1) mod 2 ^ 51).
  assert (E2 : t2 + c1 = 2 ^ 51 * c2 + r2 ∧ 0 ≤ r2 < 2 ^ 51 ∧ 0 ≤ c2 < 2 ^ 60)
    by (clear -H2 E1; unfold c2, r2; pow_consts; lia).
  rewrite (Z.mod_small c2) by (clear -E2; pow_consts; lia).
  rewrite (Z.mod_small (t3 + c2)) by (clear -H3 E2; pow_consts; lia).
  set (c3 := (t3 + c2) / 2 ^ 51). set (r3 := (t3 + c2) mod 2 ^ 51).
  assert (E3 : t3 + c2 = 2 ^ 51 * c3 + r3 ∧ 0 ≤ r3 < 2 ^ 51 ∧ 0 ≤ c3 < 2 ^ 60)
    by (clear -H3 E2; unfold c3, r3; pow_consts; lia).
  rewrite (Z.mod_small c3) by (clear -E3; pow_consts; lia).
  rewrite (Z.mod_small (t4 + c3)) by (clear -H4 E3; pow_consts; lia).
  set (c4 := (t4 + c3) / 2 ^ 51). set (r4 := (t4 + c3) mod 2 ^ 51).
  assert (E4 : t4 + c3 = 2 ^ 51 * c4 + r4 ∧ 0 ≤ r4 < 2 ^ 51 ∧ 0 ≤ c4 < 2 ^ 55 + 2 ^ 10)
    by (clear -H4 E3; unfold c4, r4; pow_consts; lia).
  rewrite (Z.mod_small c4), (Z.mod_small (c4 * 19)), ?(Z.mod_small (r0 + c4 * 19) (2 ^ 64))
    by (clear -E0 E4; pow_consts; lia).
  set (k := (r0 + c4 * 19) / 2 ^ 51). set (s0 := (r0 + c4 * 19) mod 2 ^ 51).
  assert (E5 : r0 + c4 * 19 = 2 ^ 51 * k + s0 ∧ 0 ≤ s0 < 2 ^ 51 ∧ 0 ≤ k < 2 ^ 9)
    by (clear -E0 E4; unfold k, s0; pow_consts; lia).
  rewrite !M. fold r1 r2 r3 r4.
  rewrite (Z.mod_small (r1 + k)) by (clear -E1 E5; pow_consts; lia).
  clearbody c0 r0 c1 r1 c2 r2 c3 r3 c4 r4 k s0.
  unfold fe_ok, fe_val. cbn [v0 v1 v2 v3 v4]. split.
  - clear -E1 E2 E3 E4 E5. pow_consts. lia.
  - apply (cong_shift _ _ _ (- c4)). unfold p25519. clear -E0 E1 E2 E3 E4 E5. pow_consts. lia.
Qed.

(** A limb, and the products of two limbs that a column sums. *)
Definition limb (x : Z) : Prop := 0 ≤ x < 2 ^ 51 + 2 ^ 11.

Lemma limb_mul a b : limb a → limb b → 0 ≤ a * b < 2 ^ 102 + 2 ^ 64.
Proof. unfold limb. pow_consts. nia. Qed.

Lemma limb_mul19 a b : limb a → limb b → 0 ≤ a * (19 * b) < 2 ^ 107.
Proof. intros Ha Hb. pose proof (limb_mul _ _ Ha Hb). pow_consts. lia. Qed.

Lemma limb_mul_weak a b : limb a → limb b → 0 ≤ a * b < 2 ^ 107.
Proof. intros Ha Hb. pose proof (limb_mul _ _ Ha Hb). pow_consts. lia. Qed.

Lemma sum5_bound M a b c d e :
  0 ≤ a < M → 0 ≤ b < M → 0 ≤ c < M → 0 ≤ d < M → 0 ≤ e < M → 0 ≤ a + b + c + d + e ≤ 5 * M - 5.
Proof. lia. Qed.

Lemma column_bound a b c d e :
  0 ≤ a < 2 ^ 107 → 0 ≤ b < 2 ^ 107 → 0 ≤ c < 2 ^ 107 → 0 ≤ d < 2 ^ 107 → 0 ≤ e < 2 ^ 107 →
  0 ≤ a + b + c + d + e < 2 ^ 110.
Proof. intros. pow_consts. lia. Qed.

Lemma fe_ok_limbs f : fe_ok f → limb (v0 f) ∧ limb (v1 f) ∧ limb (v2 f) ∧ limb (v3 f) ∧ limb (v4 f).
Proof. unfold fe_ok, limb. pow_consts. lia. Qed.

Lemma wrap_19 x : limb x → u64 (19 * x) = 19 * x.
Proof. unfold limb, wrap. pow_consts. lia. Qed.

Lemma wrap_column t : 0 ≤ t < 2 ^ 110 → u128 t = t.
Proof. unfold wrap. pow_consts. lia. Qed.

Lemma fe_mul_spec f g : fe_ok f → fe_ok g →
  fe_ok (fe_mul f g) ∧ cong p25519 (fe_val (fe_mul f g)) (fe_val f * fe_val g).
Proof.
  intros (A0 & A1 & A2 & A3 & A4)%fe_ok_limbs (B0 & B1 & B2 & B3 & B4)%fe_ok_limbs.
  destruct f as [a0 a1 a2 a3 a4], g as [b0 b1 b2 b3 b4]. cbn [v0 v1 v2 v3 v4] in *.
  unfold fe_mul. cbn [v0 v1 v2 v3 v4]. cbv zeta. rewrite !wrap_19 by done.
  assert (T4 : 0 ≤ a0 * b4 + a1 * b3 + a2 * b2 + a3 * b1 + a4 * b0 < 2 ^ 106).
  { pose proof (sum5_bound (2 ^ 102 + 2 ^ 64) (a0 * b4) (a1 * b3) (a2 * b2) (a3 * b1) (a4 * b0)
      ltac:(by apply limb_mul) ltac:(by apply limb_mul) ltac:(by apply limb_mul)
      ltac:(by apply limb_mul) ltac:(by apply limb_mul)) as B.
    clear -B. pow_consts. lia. }
  rewrite !wrap_column by (apply column_bound; first [by apply limb_mul19|by apply limb_mul_weak]).
  edestruct fe_mul_carry_spec as [Hok Hval]; cycle 5.
  { split; [exact Hok|]. rewrite Hval.
    apply (cong_shift _ _ _ (- (a1 * b4 + a2 * b3 + a3 * b2 + a4 * b1
      + 2 ^ 51 * (a2 * b4 + a3 * b3 + a4 * b2) + 2 ^ 102 * (a3 * b4 + a4 * b3) + 2 ^ 153 * (a4 * b4)))).
    unfold fe_val, p25519. cbn [v0 v1 v2 v3 v4]. pow_consts. ring. }
  5: exact T4.
  all: apply column_bound; first [by apply limb_mul19|by apply limb_mul_weak].
Qed.

(** *** The operations on representatives *)

Create HintDb fe.

Lemma fe_rep_ok f x : fe_rep f x → fe_ok f.
Proof. by intros [? _]. Qed.

Lemma fe_rep_val f : fe_ok f → fe_rep f (fe_val f).
Proof. by split. Qed.

Lemma fe_rep_cong f x y : fe_rep f x → cong p25519 x y → fe_rep f y.
Proof. intros [Hf Hx] Hxy. split; [done|]. by rewrite Hx. Qed.

Lemma fe_zero_rep : fe_rep fe_zero 0.
Proof. split; [unfold fe_ok; cbn; lia|done]. Qed.

Lemma fe_one_rep : fe_rep fe_one 1.
Proof. split; [unfold fe_ok; cbn; lia|done]. Qed.

Lemma fe_add_rep f g x y : fe_rep f x → fe_rep g y → fe_rep (fe_add f g) (x + y).
Proof.
  destruct f as [a0 a1 a2 a3 a4], g as [b0 b1 b2 b3 b4].
  intros [(A0 & A1 & A2 & A3 & A4) Hx] [(B0 & B1 & B2 & B3 & B4) Hy].
  cbn [v0 v1 v2 v3 v4] in *. unfold fe_add. cbn [v0 v1 v2 v3 v4].
  assert (S : ∀ a b, 0 ≤ a ≤ 2 ^ 51 + 2 ^ 10 → 0 ≤ b ≤ 2 ^ 51 + 2 ^ 10 → 
    u64 (a + b) = a + b ∧ 0 ≤ a + b < 2 ^ 60) by (clear; unfold wrap; intros; pow_consts; lia).
  assert (L : ∀ a, 0 ≤ a < 2 ^ 51 → 0 ≤ a ≤ 2 ^ 51 + 2 ^ 10) by (clear; intros; pow_consts; lia).
  destruct (S a0 b0 (L _ A0) (L _ B0)) as [-> C0], (S a1 b1 A1 B1) as [-> C1],
    (S a2 b2 (L _ A2) (L _ B2)) as [-> C2], (S a3 b3 (L _ A3) (L _ B3)) as [-> C3],
    (S a4 b4 (L _ A4) (L _ B4)) as [-> C4].
  destruct (fe_reduce_spec (mkFe (a0 + b0) (a1 + b1) (a2 + b2) (a3 + b3) (a4 + b4)) C0 C1 C2 C3 C4)
    as (Hok & Hval & _).
  split; [done|]. rewrite Hval, <- Hx, <- Hy. apply cong_eq. unfold fe_val. cbn [v0 v1 v2 v3 v4]. ring.
Qed.

Lemma fe_sub_rep f g x y : fe_rep f x → fe_rep g y → fe_rep (fe_sub f g) (x - y).
Proof.
  destruct f as [a0 a1 a2 a3 a4], g as [b0 b1 b2 b3 b4].
  intros [(A0 & A1 & A2 & A3 & A4) Hx] [(B0 & B1 & B2 & B3 & B4) Hy].
  cbn [v0 v1 v2 v3 v4] in *. unfold fe_sub. cbn [v0 v1 v2 v3 v4]. cbv zeta.
  replace (wshl 64 1 52) with (2 ^ 52) by done.
  assert (S : ∀ a b d, 0 ≤ a ≤ 2 ^ 51 + 2 ^ 10 → 0 ≤ b ≤ 2 ^ 51 + 2 ^ 10 → 2 ^ 52 - 38 ≤ d ≤ 2 ^ 52 →
    u64 (u64 (a + d) - b) = a + d - b ∧ 0 ≤ a + d - b < 2 ^ 60)
    by (clear; unfold wrap; intros; pow_consts; lia).
  assert (L : ∀ a, 0 ≤ a < 2 ^ 51 → 0 ≤ a ≤ 2 ^ 51 + 2 ^ 10) by (clear; intros; pow_consts; lia).
  assert (D0 : 2 ^ 52 - 38 ≤ 2 ^ 52 - 38 ≤ 2 ^ 52) by (pow_consts; lia).
  assert (D1 : 2 ^ 52 - 38 ≤ 2 ^ 52 - 2 ≤ 2 ^ 52) by (pow_consts; lia).
  destruct (S a0 b0 _ (L _ A0) (L _ B0) D0) as [-> C0], (S a1 b1 _ A1 B1 D1) as [-> C1],
    (S a2 b2 _ (L _ A2) (L _ B2) D1) as [-> C2], (S a3 b3 _ (L _ A3) (L _ B3) D1) as [-> C3],
    (S a4 b4 _ (L _ A4) (L _ B4) D1) as [-> C4].
  edestruct fe_reduce_spec as (Hok & Hval & _); cycle 5.
  { split; [exact Hok|]. rewrite Hval, <- Hx, <- Hy. apply (cong_shift _ _ _ 2).
    unfold fe_val, p25519. cbn [v0 v1 v2 v3 v4]. pow_consts. ring. }
  all: assumption.
Qed.

Lemma fe_neg_rep f x : fe_rep f x → fe_rep (fe_neg f) (- x).
Proof. intros. rewrite <- Z.sub_0_l. apply fe_sub_rep; [apply fe_zero_rep|done]. Qed.

Lemma fe_mul_rep f g x y : fe_rep f x → fe_rep g y → fe_rep (fe_mul f g) (x * y).
Proof.
  intros [Hf Hx] [Hg Hy]. destruct (fe_mul_spec f g Hf Hg) as [Hok Hval].
  split; [done|]. by rewrite Hval, Hx, Hy.
Qed.

Lemma fe_sq_rep f x : fe_rep f x → fe_rep (fe_sq f) (x ^ 2).
Proof. intros. rewrite Z.pow_2_r. by apply fe_mul_rep. Qed.

(** Repeated squaring and multiplication on powers of one element. *)
Lemma fe_sqn_pow n f x e : 0 ≤ e → fe_rep f (x ^ e) → fe_rep (fe_sqn n f) (x ^ (e * 2 ^ Z.of_nat n)).
Proof.
  intros He Hf. induction n as [|n IH]; [by rewrite Z.mul_1_r|].
  unfold fe_sqn in *. cbn [Nat.iter nat_rect]. apply fe_sq_rep in IH.
  rewrite <- Z.pow_mul_r in IH by nia.
  replace (e * 2 ^ Z.of_nat (S n)) with (e * 2 ^ Z.of_nat n * 2); [done|].
  rewrite Nat2Z.inj_succ, Z.pow_succ_r by lia. ring.
Qed.

Lemma fe_sq_pow f x e : 0 ≤ e → fe_rep f (x ^ e) → fe_rep (fe_sq f) (x ^ (e * 2)).
Proof. intros. apply (fe_sqn_pow 1); done. Qed.

Lemma fe_mul_pow f g x a b : 0 ≤ a → 0 ≤ b → fe_rep f (x ^ a) → fe_rep g (x ^ b) →
  fe_rep (fe_mul f g) (x ^ (a + b)).
Proof. intros. rewrite Z.pow_add_r by done. by apply fe_mul_rep. Qed.

#[export] Hint Resolve fe_zero_rep fe_one_rep fe_add_rep fe_sub_rep fe_neg_rep fe_mul_rep fe_sq_rep : fe.

(** Addition chains: each assignment [t = e] of a chain becomes a fresh [t]
    that represents a power of the input with its exponent evaluated. *)
Lemma fe_let (P : Fe25519 → Prop) e (b : Fe25519 → Fe25519) r :
  P e → (∀ t, P t → fe_rep (b t) r) → fe_rep (let t := e in b t) r.
Proof. auto. Qed.

Ltac fe_power e :=
  lazymatch e with
  | fe_sq ?f =>
      match goal with H : fe_rep f (?x ^ ?a) |- _ => constr:(fe_sq_pow f x a ltac:(done) H) end
  | fe_sqn ?n ?f =>
      match goal with H : fe_rep f (?x ^ ?a) |- _ => constr:(fe_sqn_pow n f x a ltac:(done) H) end
  | fe_mul ?f ?g =>
      match goal with Hf : fe_rep f (?x ^ ?a), Hg : fe_rep g (?x ^ ?b) |- _ =>
        constr:(fe_mul_pow f g x a b ltac:(done) ltac:(done) Hf Hg) end
  | fe_mul ?f ?f =>
      match goal with Hf : fe_rep f (?x ^ ?a) |- _ =>
        constr:(fe_mul_pow f f x a a ltac:(done) ltac:(done) Hf Hf) end
  end.

Ltac fe_assign H :=
  lazymatch goal with
  | |- fe_rep (let t := ?e in @?b t) _ =>
      lazymatch type of H with
      | fe_rep _ (?x ^ ?n) =>
          let v := eval vm_compute in n in
          apply (fe_let (λ t, fe_rep t (x ^ v)) e b);
          [exact H|let t := fresh "t" in intros t ?]
      end
  end.
Ltac fe_chain_step :=
  lazymatch goal with
  | |- fe_rep (let t := ?e in _) _ => let H := fe_power e in fe_assign H
  end.
Ltac fe_chain_end := lazymatch goal with |- fe_rep ?e _ => let H := fe_power e in exact H end.

Lemma fe_pow2523_rep z x : fe_rep z x → fe_rep (fe_pow2523 z) (x ^ (2 ^ 252 - 3)).
Proof.
  intros Hz. assert (Z1 : fe_rep z (x ^ 1)) by by rewrite Z.pow_1_r. clear Hz.
  cbv beta delta [fe_pow2523]. do 30 fe_chain_step.
  fe_chain_end.
Qed.

Lemma fe_inv_rep z x : fe_rep z x → fe_rep (fe_inv z) (x ^ (p25519 - 2)).
Proof.
  intros Hz. assert (Z1 : fe_rep z (x ^ 1)) by by rewrite Z.pow_1_r.
  pose proof (fe_pow2523_rep z x Hz) as P. clear Hz. cbv beta delta [fe_inv].
  fe_assign P.
  do 5 fe_chain_step.
  fe_chain_end.
Qed.

(** *** Decoding *)

Lemma lor_shl a b k w : 0 ≤ k → 0 ≤ w → k + w ≤ 64 → 0 ≤ a < 2 ^ k → 0 ≤ b < 2 ^ w →
  a .| wshl 64 b k = a + b * 2 ^ k.
Proof.
  intros Hk Hw Hkw Ha Hb. unfold wshl. rewrite shl_mul by done.
  rewrite wrap_small; [by apply lor_add|]. unfold word.
  pose proof (Z.pow_pos_nonneg 2 k ltac:(lia) Hk). split; [apply Z.mul_nonneg_nonneg; lia|].
  apply (Z.lt_le_trans _ (2 ^ w * 2 ^ k)); [apply Z.mul_lt_mono_pos_r; lia|].
  rewrite <- Z.pow_add_r by done. apply Z.pow_le_mono_r; lia.
Qed.

Ltac lor_shl_step :=
  match goal with
  | |- context [?a .| wshl 64 ?b ?k] =>
      lazymatch a with context [_ .| _] => fail | _ => idtac end;
      let w := eval vm_compute in (Z.min 8 (51 - k)) in
      rewrite (lor_shl a b k w) by (pow_consts; lia)
  end.

(** Splits the byte [b] at bit [k]. *)
Ltac split_byte b k :=
  let q := fresh "q" in let r := fresh "r" in
  pose proof (Z.div_mod b (2 ^ k) ltac:(done)); pose proof (Z.mod_pos_bound b (2 ^ k) ltac:(done));
  set (q := b / 2 ^ k) in *; set (r := b mod 2 ^ k) in *; clearbody q r; subst b.

Ltac byte_list s H :=
  do 32 (destruct s as [|? s]; [discriminate H|]); destruct s as [|? s]; [clear H|discriminate H].

Lemma fe_frombytes_rep s : length s = 32%nat → bytes s → fe_rep (fe_frombytes s) (le_val s mod 2 ^ 255).
Proof.
  intros Hl Hs. byte_list s Hl.
  repeat match goal with H : bytes _ |- _ => unfold bytes in H | H : Forall _ (_ :: _) |- _ =>
    apply Forall_cons in H; destruct H as [? H] end.
  clear Hs. unfold word in *. unfold fe_frombytes. cbn [nth]. cbv zeta.
  rewrite !mask51.
  rewrite !(land_low _ 3 7), !(land_low _ 6 0x3f), !(land_low _ 1 1), !(land_low _ 4 0xf), !(land_low _ 7 0x7f) by done.
  rewrite !shr_div by done.
  split_byte z5 3. split_byte z11 6. split_byte z18 1. split_byte z24 4. split_byte z30 7.
  pow_consts.
  do 31 lor_shl_step. pow_consts.
  rewrite !(Z.mod_small _ 2251799813685248) by lia.
  match goal with |- fe_rep (fe_reduce (mkFe ?a ?b ?c ?d ?e)) (?v mod _) =>
    assert (E : v = fe_val (mkFe a b c d e) + q3 * 2 ^ 255)
      by (unfold fe_val; cbn [v0 v1 v2 v3 v4 le_val]; pow_consts; ring);
    assert (La : 0 ≤ a < 2 ^ 51) by (pow_consts; lia); assert (Lb : 0 ≤ b < 2 ^ 51) by (pow_consts; lia);
    assert (Lc : 0 ≤ c < 2 ^ 51) by (pow_consts; lia); assert (Ld : 0 ≤ d < 2 ^ 51) by (pow_consts; lia);
    assert (Le : 0 ≤ e < 2 ^ 51) by (pow_consts; lia);
    rewrite E; clear -La Lb Lc Ld Le;
    generalize dependent a; generalize dependent b; generalize dependent c;
    generalize dependent d; generalize dependent e end.
  intros e He d Hd c Hc b Hb a Ha.
  change 57896044618658097711785492504343953926634992332820282019728792003956564819968 with (2 ^ 255).
  rewrite Z_mod_plus_full, Z.mod_small by (unfold fe_val; cbn [v0 v1 v2 v3 v4]; pow_consts; lia).
  destruct (fe_reduce_spec (mkFe a b c d e)) as (Hok & Hval & _); [cbn; pow_consts; lia..|].
  by split.
Qed.

(** *** Encoding *)

Definition limbs51 (f : Fe25519) : Prop :=
  0 ≤ v0 f < 2 ^ 51 ∧ 0 ≤ v1 f < 2 ^ 51 ∧ 0 ≤ v2 f < 2 ^ 51 ∧ 0 ≤ v3 f < 2 ^ 51 ∧ 0 ≤ v4 f < 2 ^ 51.

Lemma fe_canonical_spec f : fe_ok f →
  limbs51 (fe_canonical f) ∧ fe_val (fe_canonical f) = fe_val f mod p25519.
Proof.
  intros (A0 & A1 & A2 & A3 & A4). unfold fe_canonical.
  destruct (fe_reduce_spec f) as ((B0 & B1 & B2 & B3 & B4) & Hval & Hmax);
    [clear -A0 A1 A2 A3 A4; pow_consts; lia..|].
  rewrite <- (cong_mod_eq _ _ _ Hval). destruct (fe_reduce f) as [a0 a1 a2 a3 a4].
  clear f Hval A0 A1 A2 A3 A4.
  unfold fe_val in Hmax. cbn [v0 v1 v2 v3 v4] in *. cbv zeta. rewrite !mask51, !shr_div by done.
  assert (U : ∀ x, 0 ≤ x < 2 ^ 64 → u64 x = x) by (intros; by apply wrap_small).
  rewrite (U (a0 + 19)) by (clear -B0; pow_consts; lia).
  set (q0 := (a0 + 19) / 2 ^ 51).
  assert (E0 : 2 ^ 51 * q0 ≤ a0 + 19 < 2 ^ 51 * q0 + 2 ^ 51 ∧ 0 ≤ q0 ≤ 1)
    by (unfold q0; clear -B0; pow_consts; lia). clearbody q0.
  rewrite (U (a1 + q0)) by (clear -B1 E0; pow_consts; lia).
  set (q1 := (a1 + q0) / 2 ^ 51).
  assert (E1 : 2 ^ 51 * q1 ≤ a1 + q0 < 2 ^ 51 * q1 + 2 ^ 51 ∧ 0 ≤ q1 ≤ 1)
    by (unfold q1; clear -B1 E0; pow_consts; lia). clearbody q1.
  rewrite (U (a2 + q1)) by (clear -B2 E1; pow_consts; lia).
  set (q2 := (a2 + q1) / 2 ^ 51).
  assert (E2 : 2 ^ 51 * q2 ≤ a2 + q1 < 2 ^ 51 * q2 + 2 ^ 51 ∧ 0 ≤ q2 ≤ 1)
    by (unfold q2; clear -B2 E1; pow_consts; lia). clearbody q2.
  rewrite (U (a3 + q2)) by (clear -B3 E2; pow_consts; lia).
  set (q3 := (a3 + q2) / 2 ^ 51).
  assert (E3 : 2 ^ 51 * q3 ≤ a3 + q2 < 2 ^ 51 * q3 + 2 ^ 51 ∧ 0 ≤ q3 ≤ 1)
    by (unfold q3; clear -B3 E2; pow_consts; lia). clearbody q3.
  rewrite (U (a4 + q3)) by (clear -B4 E3; pow_consts; lia).
  set (q := (a4 + q3) / 2 ^ 51).
  assert (E4 : 2 ^ 51 * q ≤ a4 + q3 < 2 ^ 51 * q + 2 ^ 51 ∧ 0 ≤ q ≤ 1)
    by (unfold q; clear -B4 E3; pow_consts; lia). clearbody q.
  set (V := fe_val (mkFe a0 a1 a2 a3 a4)).
  assert (EV : V = a0 + 2 ^ 51 * a1 + 2 ^ 102 * a2 + 2 ^ 153 * a3 + 2 ^ 204 * a4) by done.
  assert (Eq : 2 ^ 255 * q ≤ V + 19 < 2 ^ 255 * q + 2 ^ 255)
    by (clear -E0 E1 E2 E3 E4 EV; pow_consts; lia).
  rewrite <- EV in Hmax. assert (HV : 0 ≤ V) by (clear -EV B0 B1 B2 B3 B4; pow_consts; lia).
  replace (V mod p25519) with (V - q * p25519)
    by (apply (Z.mod_unique_pos _ _ q); unfold p25519; clear -HV Eq Hmax E4; pow_consts; lia).
  destruct E4 as [_ E4]. clear E0 E1 E2 E3 q0 q1 q2 q3. clearbody V.
  rewrite (U (19 * q)) by (clear -E4; pow_consts; lia).
  rewrite (U (a0 + 19 * q)) by (clear -B0 E4; pow_consts; lia).
  set (d0 := (a0 + 19 * q) / 2 ^ 51). set (s0 := (a0 + 19 * q) mod 2 ^ 51).
  assert (F0 : a0 + 19 * q = 2 ^ 51 * d0 + s0 ∧ 0 ≤ s0 < 2 ^ 51 ∧ 0 ≤ d0 ≤ 1)
    by (unfold d0, s0; clear -B0 E4; pow_consts; lia). clearbody d0 s0.
  rewrite (U (a1 + d0)) by (clear -B1 F0; pow_consts; lia).
  set (d1 := (a1 + d0) / 2 ^ 51). set (s1 := (a1 + d0) mod 2 ^ 51).
  assert (F1 : a1 + d0 = 2 ^ 51 * d1 + s1 ∧ 0 ≤ s1 < 2 ^ 51 ∧ 0 ≤ d1 ≤ 1)
    by (unfold d1, s1; clear -B1 F0; pow_consts; lia). clearbody d1 s1.
  rewrite (U (a2 + d1)) by (clear -B2 F1; pow_consts; lia).
  set (d2 := (a2 + d1) / 2 ^ 51). set (s2 := (a2 + d1) mod 2 ^ 51).
  assert (F2 : a2 + d1 = 2 ^ 51 * d2 + s2 ∧ 0 ≤ s2 < 2 ^ 51 ∧ 0 ≤ d2 ≤ 1)
    by (unfold d2, s2; clear -B2 F1; pow_consts; lia). clearbody d2 s2.
  rewrite (U (a3 + d2)) by (clear -B3 F2; pow_consts; lia).
  set (d3 := (a3 + d2) / 2 ^ 51). set (s3 := (a3 + d2) mod 2 ^ 51).
  assert (F3 : a3 + d2 = 2 ^ 51 * d3 + s3 ∧ 0 ≤ s3 < 2 ^ 51 ∧ 0 ≤ d3 ≤ 1)
    by (unfold d3, s3; clear -B3 F2; pow_consts; lia). clearbody d3 s3.
  rewrite (U (a4 + d3)) by (clear -B4 F3; pow_consts; lia).
  set (d4 := (a4 + d3) / 2 ^ 51). set (s4 := (a4 + d3) mod 2 ^ 51).
  assert (F4 : a4 + d3 = 2 ^ 51 * d4 + s4 ∧ 0 ≤ s4 < 2 ^ 51)
    by (unfold d4, s4; clear -B4 F3; pow_consts; lia). clearbody d4 s4.
  split; [split_and!; cbn; tauto|]. unfold fe_val, p25519. cbn [v0 v1 v2 v3 v4].
  clear -EV HV Eq E4 Hmax F0 F1 F2 F3 F4.
  assert (V + 19 * q = s0 + 2 ^ 51 * s1 + 2 ^ 102 * s2 + 2 ^ 153 * s3 + 2 ^ 204 * s4 + 2 ^ 255 * d4)
    by (clear Eq; pow_consts; lia).
  assert (d4 = q); [|pow_consts; lia]. clear EV. pow_consts. lia.
Qed.

(** The little-endian value of 64-bit words, and of their bytes. *)
Fixpoint le64 (ws : list Z) : Z := match ws with [] => 0 | w :: ws => w + 2 ^ 64 * le64 ws end.

Lemma word_bytes_le w : word 64 w → word_bytes w = le_bytes 8 w.
Proof.
  intros Hw. unfold word_bytes, wrap. cbn [map le_bytes]. rewrite !shr_div by done.
  rewrite !Z.div_div by done. f_equal. by rewrite Z.div_1_r.
Qed.

Lemma le_bytes_app n m x : 0 ≤ x →
  le_bytes (n + m) x = le_bytes n x ++ le_bytes m (x / 256 ^ Z.of_nat n).
Proof.
  revert x. induction n as [|n IH]; intros x Hx; [by rewrite Z.div_1_r|].
  cbn [le_bytes plus app]. rewrite IH by (apply Z.div_pos; lia).
  rewrite Z.div_div, Nat2Z.inj_succ, Z.pow_succ_r by lia. done.
Qed.

Lemma le_bytes_mod n x : le_bytes n (x mod 256 ^ Z.of_nat n) = le_bytes n x.
Proof.
  revert x. induction n as [|n IH]; intros x; [done|]. cbn [le_bytes].
  rewrite Nat2Z.inj_succ, Z.pow_succ_r by lia.
  rewrite (Z.rem_mul_r x 256) by lia.
  assert (M : (x mod 256 + 256 * ((x / 256) mod 256 ^ Z.of_nat n)) mod 256 = x mod 256)
    by (rewrite (Z.mul_comm 256), Z_mod_plus_full, Zmod_mod; done).
  assert (D : (x mod 256 + 256 * ((x / 256) mod 256 ^ Z.of_nat n)) / 256 = (x / 256) mod 256 ^ Z.of_nat n)
    by (rewrite (Z.mul_comm 256), Z.div_add, Z.div_small by (try apply Z.mod_pos_bound; lia); lia).
  by rewrite M, D, IH.
Qed.

Lemma concat_word_bytes ws : Forall (word 64) ws →
  concat (map word_bytes ws) = le_bytes (8 * length ws) (le64 ws).
Proof.
  induction 1 as [|w ws Hw Hws IH]; [done|]. cbn [map concat length le64].
  assert (0 ≤ le64 ws) by (clear IH; induction Hws as [|x l Hx _ IH]; cbn [le64]; [done|];
    unfold word in Hx; lia).
  unfold word in Hw. replace (8 * S (length ws))%nat with (8 + 8 * length ws)%nat by lia.
  rewrite le_bytes_app by lia. rewrite word_bytes_le, IH by done. f_equal.
  - rewrite <- (le_bytes_mod 8 (w + _)). f_equal. change (256 ^ Z.of_nat 8) with (2 ^ 64).
    rewrite (Z.mul_comm (2 ^ 64)), Z_mod_plus_full. by rewrite Z.mod_small.
  - f_equal. change (256 ^ Z.of_nat 8) with (2 ^ 64).
    rewrite (Z.mul_comm (2 ^ 64)), Z.div_add, Z.div_small by done. done.
Qed.

Lemma fe_words_spec f : limbs51 f → Forall (word 64) (fe_words f) ∧ le64 (fe_words f) = fe_val f.
Proof.
  destruct f as [a0 a1 a2 a3 a4]. unfold limbs51. cbn [v0 v1 v2 v3 v4]. intros (A0 & A1 & A2 & A3 & A4).
  unfold fe_words. cbn [v0 v1 v2 v3 v4].
  assert (S : ∀ a b k, 0 ≤ k < 64 → 0 ≤ a < 2 ^ k → a .| wshl 64 b k = a + 2 ^ k * (b mod 2 ^ (64 - k))).
  { intros a b k Hk Ha. unfold wshl. rewrite shl_mul by lia. unfold wrap.
    replace (2 ^ 64) with (2 ^ (64 - k) * 2 ^ k) by (rewrite <- Z.pow_add_r by lia; f_equal; lia).
    rewrite Z.mul_mod_distr_r by lia. rewrite lor_add by lia. ring. }
  rewrite !shr_div by done. rewrite !S by (pow_consts; lia).
  cbn [le64]. unfold fe_val. cbn [v0 v1 v2 v3 v4]. split; [repeat constructor|]; pow_consts; lia.
Qed.

Lemma fe_tobytes_rep f x : fe_rep f x → fe_tobytes f = le_bytes 32 (x mod p25519).
Proof.
  intros [Hf Hx]. destruct (fe_canonical_spec f Hf) as [Hl Hv].
  destruct (fe_words_spec _ Hl) as [Hw He]. unfold fe_tobytes.
  rewrite concat_word_bytes, He, Hv by done. by rewrite (cong_mod_eq _ _ _ Hx).
Qed.

Lemma fe_frombytes_ok s : length s = 32%nat → bytes s → fe_ok (fe_frombytes s).
Proof. intros Hl Hs. by destruct (fe_frombytes_rep s Hl Hs). Qed.

Lemma p25519_pos : 0 < p25519.
Proof. done. Qed.

Lemma p25519_prime : Z.prime p25519.
Proof. exact prime_25519. Qed.

Lemma fe_residue_bound x : 0 ≤ x mod p25519 < 256 ^ Z.of_nat 32.
Proof. pose proof (Z.mod_pos_bound x p25519 p25519_pos). unfold p25519 in *. pow_consts. lia. Qed.

Lemma nth_le_bytes n x i : (i < n)%nat → nth i (le_bytes n x) 0 = (x / 256 ^ Z.of_nat i) mod 256.
Proof.
  revert x i. induction n as [|n IH]; intros x [|i] Hi; [lia..|cbn; by rewrite Z.div_1_r|].
  cbn [le_bytes nth]. rewrite IH by lia. by rewrite Z.div_div, Nat2Z.inj_succ, Z.pow_succ_r by lia.
Qed.

(** Or-ing bytes together tests them all for zero. *)
Lemma fold_lor_zero {A} (g : A → Z) (l : list A) acc : 0 ≤ acc → Forall (λ a, 0 ≤ g a) l →
  fold_left (λ d a, d .| g a) l acc = 0 ↔ acc = 0 ∧ Forall (λ a, g a = 0) l.
Proof.
  intros Hacc Hl. revert acc Hacc. induction Hl as [|a l Ha _ IH]; intros acc Hacc; cbn.
  - split; [by split|by intros [? _]].
  - rewrite IH by (by apply Z.lor_nonneg). rewrite Z.lor_eq_0_iff, Forall_cons. tauto.
Qed.

Lemma le_bytes_zero n x : 0 ≤ x < 256 ^ Z.of_nat n → Forall (λ b, b = 0) (le_bytes n x) ↔ x = 0.
Proof.
  intros Hx. split.
  - intros Hz. rewrite <- (le_val_bytes n x) by done. clear Hx.
    induction Hz as [|b l -> _ IH]; [done|]. cbn. lia.
  - intros ->. clear Hx. induction n as [|n IH]; [constructor|]. cbn. constructor; [done|].
    by rewrite Zdiv_0_l.
Qed.

Lemma fe_is_zero_spec f x : fe_rep f x → fe_is_zero f = (x mod p25519 =? 0).
Proof.
  intros Hf. unfold fe_is_zero. rewrite (fe_tobytes_rep _ _ Hf). cbv zeta.
  apply eq_true_iff_eq. rewrite !Z.eqb_eq.
  rewrite (fold_lor_zero (λ b, b)); [|done|].
  - rewrite le_bytes_zero by apply fe_residue_bound. tauto.
  - eapply Forall_impl; [apply le_bytes_bytes|]. intros b [? _]. done.
Qed.

Lemma fe_is_negative_spec f x : fe_rep f x → fe_is_negative f = Z.odd (x mod p25519).
Proof.
  intros Hf. unfold fe_is_negative. rewrite (fe_tobytes_rep _ _ Hf), nth_le_bytes by lia.
  rewrite (land_low _ 1 1) by done. change (256 ^ Z.of_nat 0) with 1. rewrite Z.div_1_r.
  rewrite (Zmod_odd (_ mod 256)), <- (Z.bit0_odd (_ mod 256)), (Z.mod_pow2_bits_low _ 8), Z.bit0_odd by lia.
  by destruct (Z.odd _).
Qed.

(** A 32-byte string is a canonical encoding iff it spells an integer below [p]. *)
Lemma fe_has_canonical_encoding_spec s f x : length s = 32%nat → bytes s → fe_rep f x →
  fe_has_canonical_encoding s f = true ↔ le_val s = x mod p25519.
Proof.
  intros Hl Hs Hf. unfold fe_has_canonical_encoding. rewrite (fe_tobytes_rep _ _ Hf). cbv zeta.
  rewrite Z.eqb_eq, (fold_lor_zero (λ i, nth i s 0 .^ nth i (le_bytes 32 (x mod p25519)) 0)); [|done|].
  2: { apply Forall_forall. intros i _. 
       assert (H : ∀ l, bytes l → 0 ≤ nth i l 0)
         by (intros l Hb; apply (Forall_nth_default (λ b, 0 ≤ b)); [|done];
             eapply Forall_impl; [exact Hb|by intros b [? _]]).
       pose proof (H s Hs). pose proof (H _ (le_bytes_bytes 32 (x mod p25519))).
       rewrite Z.lxor_nonneg. tauto. }
  set (c := le_bytes 32 (x mod p25519)).
  assert (Ec : x mod p25519 = le_val c) by (symmetry; apply le_val_bytes, fe_residue_bound).
  assert (Lc : length c = 32%nat) by apply length_le_bytes. rewrite Ec. split.
  - intros [_ He]. f_equal. apply (nth_ext _ _ 0 0); [congruence|].
    intros i Hi. rewrite Hl in Hi. rewrite Forall_forall in He.
    apply Z.lxor_eq, He. apply list_elem_of_In, in_seq. lia.
  - intros He. split; [done|]. apply Forall_forall. intros i _.
    replace s with c; [apply Z.lxor_nilpotent|].
    rewrite <- (le_bytes_val s Hs), <- (le_bytes_val c) by apply le_bytes_bytes. congruence.
Qed.

Lemma fe_cmov_spec f g b : fe_ok f → fe_ok g → fe_cmov f g b = if b then g else f.
Proof.
  intros Hf Hg. unfold fe_cmov. destruct b; cbn [b2z].
  - change (wneg 64 1) with (Z.ones 64).
    assert (M : ∀ x y, word 64 x → word 64 y → x .^ (Z.ones 64 .& (x .^ y)) = y).
    { intros x y Hx Hy. rewrite (Z.land_comm (Z.ones 64)), Z.land_ones, Z.mod_small by
        (done || by apply lxor_word).
      by rewrite <- Z.lxor_assoc, Z.lxor_nilpotent, Z.lxor_0_l. }
    assert (W : ∀ x, 0 ≤ x ≤ 2 ^ 51 + 2 ^ 10 → word 64 x) by (clear; intros; word_lia).
    destruct Hf as (A0 & A1 & A2 & A3 & A4), Hg as (B0 & B1 & B2 & B3 & B4).
    rewrite !M by (apply W; clear -A0 A1 A2 A3 A4 B0 B1 B2 B3 B4; pow_consts; lia).
    by destruct g.
  - change (wneg 64 0) with 0. cbv zeta.
    assert (M : ∀ x y, x .^ (0 .& (x .^ y)) = x) by (intros; by rewrite Z.land_0_l, Z.lxor_0_r).
    rewrite !M. by destruct f.
Qed.

Lemma fe_cmov_rep f g b x y : fe_rep f x → fe_rep g y → fe_rep (fe_cmov f g b) (if b then y else x).
Proof. intros Hf Hg. rewrite fe_cmov_spec by (by eapply fe_rep_ok). by destruct b. Qed.

Lemma fe_cneg_rep f b x : fe_rep f x → fe_rep (fe_cneg f b) (if b then - x else x).
Proof. intros Hf. apply fe_cmov_rep; [done|by apply fe_neg_rep]. Qed.

(** The absolute value: the even one of [x] and [-x]. *)
Definition zabs25519 (x : Z) : Z := if Z.odd (x mod p25519) then - x else x.

Lemma fe_abs_rep f x : fe_rep f x → fe_rep (fe_abs f) (zabs25519 x).
Proof.
  intros Hf. unfold fe_abs, zabs25519. rewrite (fe_is_negative_spec _ _ Hf). by apply fe_cneg_rep.
Qed.

Lemma zabs25519_even x : Z.odd (zabs25519 x mod p25519) = false.
Proof.
  unfold zabs25519. destruct (Z.odd (x mod p25519)) eqn:E; [|done].
  assert (x mod p25519 ≠ 0) by (intros H0; by rewrite H0 in E).
  rewrite Z.mod_opp_l_nz by done. by rewrite Z.odd_sub, E.
Qed.

Lemma zabs25519_sq x : cong p25519 (zabs25519 x ^ 2) (x ^ 2).
Proof. unfold zabs25519. destruct (Z.odd _); apply cong_eq; ring. Qed.

(** Exactly the spellings of integers below [p] are canonical. *)
Lemma fe_canonical_iff s : length s = 32%nat → bytes s →
  fe_has_canonical_encoding s (fe_frombytes s) = true ↔ le_val s < p25519.
Proof.
  intros Hl Hs. pose proof (fe_frombytes_rep s Hl Hs) as Hr.
  rewrite (fe_has_canonical_encoding_spec s _ _ Hl Hs Hr).
  pose proof (le_val_bound s Hs) as Hv. rewrite Hl in Hv. split.
  - intros ->. apply Z.mod_pos_bound, p25519_pos.
  - intros Hlt. rewrite (Z.mod_small _ (2 ^ 255)) by (unfold p25519 in Hlt; lia).
    by rewrite Z.mod_small by lia.
Qed.

(** ** Properties *)

(** The limb arithmetic computes in the field of [2^255 - 19]: on
    representatives of [x] and [y] within the limb bounds, addition,
    subtraction, negation and multiplication return a representative within
    the bounds again (no 64- or 128-bit overflow), and the exponentiation chain
    of [fe_inv] inverts every non-zero element. *)
Theorem fe_field_correct f g x y : fe_rep f x → fe_rep g y →
  fe_rep (fe_add f g) (x + y) ∧ fe_rep (fe_sub f g) (x - y) ∧ fe_rep (fe_neg f) (- x) ∧
  fe_rep (fe_mul f g) (x * y) ∧ fe_rep (fe_sq f) (x * x) ∧
  (¬ cong p25519 x 0 → ∃ z, fe_rep (fe_inv f) z ∧ cong p25519 (x * z) 1).
Proof.
  intros Hf Hg.
  split; [by apply fe_add_rep|]. split; [by apply fe_sub_rep|]. split; [by apply fe_neg_rep|].
  split; [by apply fe_mul_rep|]. split; [by apply fe_mul_rep|].
  intros Hx. exists (x ^ (p25519 - 2)). split; [by apply fe_inv_rep|].
  apply fermat_inverse; [apply p25519_prime|]. intros Hd. apply Hx.
  apply cong_divide; [done|]. by rewrite Z.sub_0_r.
Qed.

Lemma fe_field_correct_witness :
  fe_rep (fe_mul (mkFe 3 0 0 0 0) (mkFe 5 0 0 0 0)) (3 * 5) ∧
  ∃ z, fe_rep (fe_inv (mkFe 3 0 0 0 0)) z ∧ cong p25519 (3 * z) 1.
Proof.
  assert (H3 : fe_rep (mkFe 3 0 0 0 0) 3) by (split; [unfold fe_ok; cbn; lia|done]).
  assert (H5 : fe_rep (mkFe 5 0 0 0 0) 5) by (split; [unfold fe_ok; cbn; lia|done]).
  destruct (fe_field_correct _ _ _ _ H3 H5) as (_ & _ & _ & M & _ & I).
  split; [exact M|]. apply I. unfold cong. vm_compute. discriminate.
Defined.

(** [fe_tobytes] writes the canonical encoding, the 32 little-endian bytes
    of the residue below [p]; [fe_frombytes] reads any 32 bytes, ignoring bit
    255; reading back what was written gives the same element; and
    [fe_has_canonical_encoding] accepts exactly the strings that spell an
    integer below [p]. *)
Theorem fe_encoding_correct f x s : fe_rep f x → length s = 32%nat → bytes s →
  fe_tobytes f = le_bytes 32 (x mod p25519) ∧
  fe_rep (fe_frombytes (fe_tobytes f)) x ∧
  fe_rep (fe_frombytes s) (le_val s mod 2 ^ 255) ∧
  (fe_has_canonical_encoding s (fe_frombytes s) = true ↔ le_val s < p25519).
Proof.
  intros Hf Hl Hs. pose proof (fe_tobytes_rep _ _ Hf) as Ht.
  pose proof (fe_residue_bound x) as Hb. pose proof (fe_frombytes_rep s Hl Hs) as Hr.
  pose proof (Z.mod_pos_bound x p25519 p25519_pos) as Hm.
  split; [done|]. split; [|split; [done|]].
  - rewrite Ht. pose proof (fe_frombytes_rep (le_bytes 32 (x mod p25519))
      ltac:(by rewrite length_le_bytes) ltac:(by apply le_bytes_bytes)) as R.
    rewrite le_val_bytes, (Z.mod_small _ (2 ^ 255)) in R by (done || unfold p25519 in *; lia).
    apply (fe_rep_cong _ _ _ R), cong_mod.
  - by apply fe_canonical_iff.
Qed.

Lemma fe_encoding_correct_witness :
  fe_tobytes (mkFe 3 0 0 0 0) = le_bytes 32 (3 mod p25519) ∧
  (fe_has_canonical_encoding (repeat 7 32) (fe_frombytes (repeat 7 32)) = true ↔ le_val (repeat 7 32) < p25519).
Proof.
  assert (H3 : fe_rep (mkFe 3 0 0 0 0) 3) by (split; [unfold fe_ok; cbn; lia|done]).
  destruct (fe_encoding_correct _ _ (repeat 7 32) H3 eq_refl
    ltac:(repeat constructor; unfold word; lia)) as (A & _ & _ & B).
  split; [exact A|exact B].
Defined.
