(* ===== verification/Scalar25519.v ===== *)
(** * Scalars of the Ristretto group ([crypto/ristretto255.hpp], lines 230-442)

    Integers modulo the group order [L = 2^252 + 277423...93] as four 64-bit
    limbs: the carry and borrow chains of the code, its two reduction rules
    ([ScalarRule::Prior] and [ScalarRule::Wide]) and the scalar field. *)

From S2P Require Import Prelude Primes Field Rng Fe25519.

Record Scalar : Set := mkScalar { sv : list Z }.

#[export] Instance Scalar_eq_dec : EqDecision Scalar.
Proof. solve_decision. Defined.

Definition SC_L : list Z :=
  [0x5812631a5cf5d3ed; 0x14def9dea2f79cd6; 0x0000000000000000; 0x1000000000000000].

Definition sc_zero : Scalar := mkScalar [0; 0; 0; 0].

Definition sc_from_bytes (s : list Z) : Scalar :=
  mkScalar (map (λ i, fold_left (λ v j, v .| wshl 64 (nth (i * 8 + j) s 0) (Z.of_nat (j * 8)))
                                (seq 0 8) 0) (seq 0 4)).

(** The loop runs from the top limb down. *)
Fixpoint sc_is_canonical_loop (ls : list (Z * Z)) : bool :=
  match ls with
  | [] => false
  | (a, l) :: ls => if a <? l then true else if l <? a then false else sc_is_canonical_loop ls
  end.

Definition sc_is_canonical (a : Scalar) : bool :=
  sc_is_canonical_loop (rev (zip (sv a) SC_L)).

Definition sc_tobytes (a : Scalar) : list Z := concat (map word_bytes (sv a)).

Inductive ScalarRule : Set := Prior | Wide.

#[export] Instance ScalarRule_eq_dec : EqDecision ScalarRule.
Proof. solve_decision. Defined.

(** ** Reduction *)

(** [borrow = (u128)a - (u128)b - in]; the limb and the borrow-out bit 64. *)
Definition sub_limb (a b bin : Z) : Z * Z :=
  let borrow := u128 (a - b - bin) in
  (u64 borrow, (borrow ≫ 64) .& 1).

(** [carry = (u128)a + b + in]; the limb and the carry out. *)
Definition add_limb (a b cin : Z) : Z * Z :=
  let carry := u128 (a + b + cin) in
  (u64 carry, carry ≫ 64).

(** The body of the loop of [sc_reduce512] on the remainder [(r0,r1,r2,r3)]. *)
Definition sc_reduce_step (rule : ScalarRule) (r : Z * Z * Z * Z) (w : Z) : Z * Z * Z * Z :=
  let '(p0, p1, p2, p3) := r in
  let r4 := p3 in let r3 := p2 in let r2 := p1 in let r1 := p0 in let r0 := w in
  let hi := match rule with
            | Wide => (r3 ≫ 60) .| wshl 128 r4 4
            | Prior => (r3 ≫ 60) .| wshl 64 r4 4
            end in
  let r3 := r3 .& 0x0FFFFFFFFFFFFFFF in
  if hi =? 0 then (r0, r1, r2, r3)
  else
    let prod0 := u128 (hi * 0x5812631a5cf5d3ed) in
    let prod1 := u128 (u128 (hi * 0x14def9dea2f79cd6) + (prod0 ≫ 64)) in
    let '(s0, s1, s2) := (u64 prod0, u64 prod1, u64 (prod1 ≫ 64)) in
    let '(r0, b) := sub_limb r0 s0 0 in
    let '(r1, b) := sub_limb r1 s1 b in
    let '(r2, b) := sub_limb r2 s2 b in
    let '(r3, b) := sub_limb r3 0 b in
    if b =? 0 then (r0, r1, r2, r3)
    else
      let '(r0, c) := add_limb r0 (nth 0 SC_L 0) 0 in
      let '(r1, c) := add_limb r1 (nth 1 SC_L 0) c in
      let '(r2, c) := add_limb r2 (nth 2 SC_L 0) c in
      let '(r3, c) := add_limb r3 (nth 3 SC_L 0) c in
      (r0, r1, r2, r3).

(** The inner loop of the final subtraction: [d >> 127] is the sign of [d]. *)
Fixpoint sub_L_loop (r l : list Z) (borrow : Z) : list Z * Z :=
  match r, l with
  | x :: r, y :: l =>
      let d := u128 (x - y - (borrow .& 1)) in
      let '(diff, b) := sub_L_loop r l (d ≫ 127) in
      (u64 d :: diff, b)
  | _, _ => ([], borrow)
  end.

Definition sc_final_sub (r : list Z) : list Z :=
  let '(diff, borrow) := sub_L_loop r SC_L 0 in
  if borrow .& 1 =? 0 then diff else r.

Definition sc_reduce512 (w : list Z) (rule : ScalarRule) : Scalar :=
  let '(r0, r1, r2, r3) := fold_left (sc_reduce_step rule) (rev w) (0, 0, 0, 0) in
  mkScalar (sc_final_sub (sc_final_sub [r0; r1; r2; r3])).

Definition sc_reduce256 (s : list Z) : Scalar :=
  sc_reduce512 (sv (sc_from_bytes s) ++ [0; 0; 0; 0]) Prior.

Definition sc_from_fp (x : Fp) : Scalar :=
  let buf := word_bytes (lo x) ++ word_bytes (hi x) ++ repeat 0 16 in
  sc_from_bytes buf.

(** ** Arithmetic *)

(** [carry += a + b; w = carry; carry >>= 64] along two limb arrays. *)
Fixpoint add_loop (a b : list Z) (carry : Z) : list Z * Z :=
  match a, b with
  | x :: a, y :: b =>
      let carry := u128 (carry + (x + y)) in
      let '(w, c) := add_loop a b (carry ≫ 64) in
      (u64 carry :: w, c)
  | _, _ => ([], carry)
  end.

Definition sc_add (a b : Scalar) : Scalar :=
  let '(w, carry) := add_loop (sv a) (sv b) 0 in
  sc_reduce512 (w ++ [u64 carry; 0; 0; 0]) Prior.

(** [neg_b = L - b], limb by limb. *)
Fixpoint neg_loop (l b : list Z) (borrow : Z) : list Z :=
  match l, b with
  | x :: l, y :: b =>
      let diff := u128 (x - y - borrow) in
      u64 diff :: neg_loop l b ((diff ≫ 64) .& 1)
  | _, _ => []
  end.

Definition sc_sub (a b : Scalar) : Scalar :=
  let neg_b := neg_loop SC_L (sv b) 0 in
  let '(w, carry) := add_loop (sv a) neg_b 0 in
  sc_reduce512 (w ++ [u64 carry; 0; 0; 0]) Prior.

(** One row of the schoolbook product, on the limbs of [w] from [i] on; the
    last carry goes to [w[i + 4]]. *)
Fixpoint mul_row (ai : Z) (b w : list Z) (carry : Z) : list Z :=
  match b, w with
  | bj :: b, wij :: w =>
      let carry := u128 (carry + u128 (u128 (ai * bj) + wij)) in
      u64 carry :: mul_row ai b w (carry ≫ 64)
  | _, _ :: w => u64 carry :: w
  | _, [] => []
  end.

Fixpoint mul_rows (a b w : list Z) : list Z :=
  match a with
  | [] => w
  | ai :: a =>
      match mul_row ai b w 0 with
      | wi :: w => wi :: mul_rows a b w
      | [] => []
      end
  end.

Definition sc_mul (a b : Scalar) (rule : ScalarRule) : Scalar :=
  sc_reduce512 (mul_rows (sv a) (sv b) (repeat 0 8)) rule.

Definition sc_neg (a : Scalar) : Scalar := sc_sub sc_zero a.

Definition sc_from_fp_signed (x : Fp) : Scalar :=
  if negb (hi x .& wshl 64 1 62 =? 0) then
    let pos := fp_neg x in
    sc_neg (sc_from_fp pos)
  else sc_from_fp x.

(** [csprng_u64] eight times. *)
Definition sc_random (rule : ScalarRule) : M Os.Csprng Scalar :=
  r ← replicateM 8 Os.csprng_u64;
  mret (sc_reduce512 r rule).

Definition sc_inv_exp : list Z := [nth 0 SC_L 0 - 2; nth 1 SC_L 0; nth 2 SC_L 0; nth 3 SC_L 0].

(** The square-and-multiply loop from bit [i] on, [n] bits. *)
Fixpoint sc_inv_loop (n : nat) (rule : ScalarRule) (i : Z) (result base : Scalar) : Scalar :=
  match n with
  | O => result
  | S n =>
      let result := if Z.testbit (nth (Z.to_nat (i ≫ 6)) sc_inv_exp 0) (i .& 63)
                    then sc_mul result base rule else result in
      sc_inv_loop n rule (i + 1) result (sc_mul base base rule)
  end.

Definition sc_inv (a : Scalar) (rule : ScalarRule) : Scalar :=
  sc_inv_loop 256 rule 0 (mkScalar [1; 0; 0; 0]) a.

(** [ScalarOps]: the operations that take the rule, with the rule fixed. *)
Record ScalarOps : Type := mkScalarOps {
  so_rule : ScalarRule;
  so_mul : Scalar → Scalar → Scalar;
  so_inv : Scalar → Scalar;
  so_random : M Os.Csprng Scalar;
  so_reduce : list Z → Scalar }.

Definition scalar_ops (value : ScalarRule) : ScalarOps :=
  mkScalarOps value (λ a b, sc_mul a b value) (λ a, sc_inv a value) (sc_random value)
    (λ w, sc_reduce512 w value).

(** ** Specification *)

Definition scL : Z := 2 ^ 252 + 27742317777372353535851937790883648493.

Definition sc_val (a : Scalar) : Z := le64 (sv a).
Definition sc_ok (a : Scalar) : Prop := length (sv a) = 4%nat ∧ Forall (word 64) (sv a).
(** A scalar below the group order. *)
Definition sc_canon (a : Scalar) : Prop := sc_ok a ∧ sc_val a < scL.

Lemma scL_prime : Z.prime scL.
Proof. exact prime_L. Qed.

Lemma le64_bound ws : Forall (word 64) ws → 0 ≤ le64 ws < 2 ^ (64 * Z.of_nat (length ws)).
Proof.
  induction 1 as [|w ws Hw _ IH]; [done|]. cbn [le64 length].
  rewrite Nat2Z.inj_succ, Z.mul_succ_r, Z.pow_add_r by lia. unfold word in Hw. nia.
Qed.

Lemma le64_app a b : le64 (a ++ b) = le64 a + 2 ^ (64 * Z.of_nat (length a)) * le64 b.
Proof.
  induction a as [|x a IH]; cbn [app le64 length]; [rewrite Z.mul_1_l; done|].
  rewrite IH, Nat2Z.inj_succ, Z.mul_succ_r, Z.pow_add_r by lia. ring.
Qed.

Lemma sc_val_bound a : sc_ok a → 0 ≤ sc_val a < 2 ^ 256.
Proof. intros [Hl Hw]. pose proof (le64_bound _ Hw) as H. by rewrite Hl in H. Qed.

Ltac scalar_words a H :=
  let l := fresh "l" in let Hl := fresh "Hl" in let Hw := fresh "Hw" in
  destruct a as [l]; destruct H as [Hl Hw]; cbn [sv] in Hl, Hw;
  do 4 (destruct l as [|? l]; [discriminate Hl|]); destruct l as [|? l]; [clear Hl|discriminate Hl];
  repeat match goal with H : Forall _ (_ :: _) |- _ => apply Forall_cons in H; destruct H as [? H] end;
  clear Hw.

(** *** Limbs with borrow and carry *)

Lemma sub_limb_spec a b c x b' : word 64 a → word 64 b → 0 ≤ c ≤ 1 →
  sub_limb a b c = (x, b') → word 64 x ∧ 0 ≤ b' ≤ 1 ∧ x = a - b - c + 2 ^ 64 * b'.
Proof.
  unfold sub_limb, wrap, word. intros Ha Hb Hc [= <- <-].
  rewrite (land_low _ 1 1), shr_div by done. pow_consts. lia.
Qed.

Lemma add_limb_spec a b c x c' : word 64 a → word 64 b → 0 ≤ c ≤ 1 →
  add_limb a b c = (x, c') → word 64 x ∧ 0 ≤ c' ≤ 1 ∧ x + 2 ^ 64 * c' = a + b + c.
Proof.
  unfold add_limb, wrap, word. intros Ha Hb Hc [= <- <-].
  rewrite shr_div by done. pow_consts. lia.
Qed.

Ltac limb_side := solve [done | unfold word; cbn; lia | lia].

(** *** One step of the reduction *)

Definition val4 (r : Z * Z * Z * Z) : Z :=
  let '(r0, r1, r2, r3) := r in r0 + 2 ^ 64 * r1 + 2 ^ 128 * r2 + 2 ^ 192 * r3.
Definition words4 (r : Z * Z * Z * Z) : Prop :=
  let '(r0, r1, r2, r3) := r in word 64 r0 ∧ word 64 r1 ∧ word 64 r2 ∧ word 64 r3.

(** The multiple [hi * (L - 2^252)] as three limbs. *)
Lemma sub_limbs_spec hi : 0 ≤ hi < 2 ^ 65 →
  let prod0 := u128 (hi * 0x5812631a5cf5d3ed) in
  let prod1 := u128 (u128 (hi * 0x14def9dea2f79cd6) + (prod0 ≫ 64)) in
  word 64 (u64 prod0) ∧ word 64 (u64 prod1) ∧ word 64 (u64 (prod1 ≫ 64)) ∧
  u64 prod0 + 2 ^ 64 * u64 prod1 + 2 ^ 128 * u64 (prod1 ≫ 64) = hi * (scL - 2 ^ 252).
Proof.
  intros Hhi. cbv zeta. rewrite !shr_div by done.
  split; [by apply wrap_word|]. split; [by apply wrap_word|]. split; [by apply wrap_word|].
  unfold wrap, scL. rewrite (Z.mod_small (hi * 0x5812631a5cf5d3ed)) by (pow_consts; lia).
  rewrite (Z.mod_small (hi * 0x14def9dea2f79cd6)) by (pow_consts; lia).
  set (q := hi * 0x5812631a5cf5d3ed / 2 ^ 64).
  assert (Hq : 0 ≤ q < 2 ^ 64) by (unfold q; pow_consts; lia).
  rewrite (Z.mod_small (hi * 0x14def9dea2f79cd6 + q)) by (clearbody q; pow_consts; lia).
  rewrite (Z.mod_small (_ / 2 ^ 64) (2 ^ 64)) by (clearbody q; pow_consts; lia).
  unfold q. pow_consts. lia.
Qed.

(** The quotient that a step subtracts. *)
Definition step_hi (rule : ScalarRule) (r3 r4 : Z) : Z :=
  match rule with Wide => (r3 ≫ 60) .| wshl 128 r4 4 | Prior => (r3 ≫ 60) .| wshl 64 r4 4 end.

Lemma step_hi_spec rule r3 r4 : word 64 r3 → 0 ≤ r4 < 2 ^ 61 → rule = Wide ∨ r4 < 2 ^ 60 →
  step_hi rule r3 r4 = r3 / 2 ^ 60 + 16 * r4 ∧ 0 ≤ step_hi rule r3 r4 < 2 ^ 65.
Proof.
  intros H3 H4 Hr. unfold word in H3.
  assert (E : step_hi rule r3 r4 = r3 / 2 ^ 60 + r4 * 2 ^ 4).
  { unfold step_hi, wshl. rewrite !shl_mul, !shr_div by done. 
    destruct Hr as [->|Hr]; [|destruct rule];
      rewrite wrap_small by (unfold word; pow_consts; lia); apply lor_add; try done;
      pow_consts; lia. }
  rewrite E. pow_consts. lia.
Qed.

Lemma sc_reduce_step_spec rule r w :
  words4 r → word 64 w → val4 r < scL → (let '(_, _, _, r3) := r in rule = Wide ∨ r3 < 2 ^ 60) →
  words4 (sc_reduce_step rule r w) ∧
  val4 (sc_reduce_step rule r w) = (val4 r * 2 ^ 64 + w) mod scL.
Proof.
  destruct r as [[[p0 p1] p2] p3]. intros (W0 & W1 & W2 & W3) Ww Hlt Hr. 
  cbn [val4] in *. unfold sc_reduce_step. fold (step_hi rule p2 p3).
  assert (H4 : 0 ≤ p3 < 2 ^ 61) by (clear -W0 W1 W2 W3 Hlt; unfold word, scL in *; pow_consts; lia).
  destruct (step_hi_spec rule p2 p3 W2 H4 Hr) as [Ehi Bhi].
  set (hi := step_hi rule p2 p3) in *. clearbody hi. clear Hr.
  rewrite (land_low p2 60) by done. 
  assert (Hl : word 64 (p2 mod 2 ^ 60) ∧ p2 = p2 mod 2 ^ 60 + 2 ^ 60 * (p2 / 2 ^ 60) ∧ 0 ≤ p2 mod 2 ^ 60 < 2 ^ 60)
    by (clear -W2; unfold word in *; pow_consts; lia).
  destruct Hl as (WL & EL & BL). set (l3 := p2 mod 2 ^ 60) in *. clearbody l3.
  set (T := (p0 + 2 ^ 64 * p1 + 2 ^ 128 * p2 + 2 ^ 192 * p3) * 2 ^ 64 + w).
  set (low := w + 2 ^ 64 * p0 + 2 ^ 128 * p1 + 2 ^ 192 * l3).
  assert (ET : T = low + 2 ^ 252 * hi) by (unfold T, low; clear -EL Ehi; pow_consts; lia).
  assert (Blow : 0 ≤ low < 2 ^ 252) by (unfold low; clear -Ww W0 W1 BL; unfold word in *; pow_consts; lia).
  destruct (hi =? 0) eqn:E0.
  { apply Z.eqb_eq in E0. split; [unfold words4; auto|]. unfold val4. fold low.
    rewrite ET, E0, Z.mul_0_r, Z.add_0_r, Z.mod_small; [done|]. unfold scL. lia. }
  destruct (sub_limbs_spec hi Bhi) as (S0 & S1 & S2 & ES). cbv zeta in *.
  revert S0 S1 S2 ES. generalize (u64 (u128 (hi * 6346243789798364141))).
  intros s0. match goal with |- context [u64 (?x ≫ 64)] => generalize (u64 (x ≫ 64)); generalize (u64 x) end.
  intros s1 s2 S0 S1 S2 ES.
  destruct (sub_limb w s0 0) as [d0 b0] eqn:D0. destruct (sub_limb p0 s1 b0) as [d1 b1] eqn:D1.
  destruct (sub_limb p1 s2 b1) as [d2 b2] eqn:D2. destruct (sub_limb l3 0 b2) as [d3 b3] eqn:D3.
  apply sub_limb_spec in D0 as (V0 & B0 & D0); [|limb_side..].
  apply sub_limb_spec in D1 as (V1 & B1 & D1); [|limb_side..].
  apply sub_limb_spec in D2 as (V2 & B2 & D2); [|limb_side..].
  apply sub_limb_spec in D3 as (V3 & B3 & D3); [|limb_side..].
  assert (ED : d0 + 2 ^ 64 * d1 + 2 ^ 128 * d2 + 2 ^ 192 * d3 = T - hi * scL + 2 ^ 256 * b3).
  { rewrite ET. unfold low. clear -ES D0 D1 D2 D3. unfold scL in *. pow_consts. lia. }
  assert (Bs : 0 ≤ hi * (scL - 2 ^ 252) < 2 ^ 190) by (unfold scL; clear -Bhi; pow_consts; lia).
  assert (ET' : T - hi * scL = low - hi * (scL - 2 ^ 252)) by (rewrite ET; ring).
  destruct (b3 =? 0) eqn:Eb.
  { apply Z.eqb_eq in Eb. subst b3. split; [unfold words4; auto|]. unfold val4. rewrite ED.
    apply (Z.mod_unique_pos _ _ hi); [|ring]. rewrite ET'.
    assert (0 ≤ d0 + 2 ^ 64 * d1 + 2 ^ 128 * d2 + 2 ^ 192 * d3)
      by (clear -V0 V1 V2 V3; unfold word in *; pow_consts; lia).
    clear -Bs Blow ET' ED H. unfold scL in *. pow_consts. lia. }
  assert (b3 = 1) as -> by (apply Z.eqb_neq in Eb; lia).
  destruct (add_limb d0 (nth 0 SC_L 0) 0) as [e0 c0] eqn:F0.
  destruct (add_limb d1 (nth 1 SC_L 0) c0) as [e1 c1] eqn:F1.
  destruct (add_limb d2 (nth 2 SC_L 0) c1) as [e2 c2] eqn:F2.
  destruct (add_limb d3 (nth 3 SC_L 0) c2) as [e3 c3] eqn:F3.
  apply add_limb_spec in F0 as (X0 & C0 & F0); [|limb_side..].
  apply add_limb_spec in F1 as (X1 & C1 & F1); [|limb_side..].
  apply add_limb_spec in F2 as (X2 & C2 & F2); [|limb_side..].
  apply add_limb_spec in F3 as (X3 & C3 & F3); [|limb_side..].
  cbn [nth SC_L] in F0, F1, F2, F3. split; [unfold words4; auto|].
  unfold val4.
  assert (EE : e0 + 2 ^ 64 * e1 + 2 ^ 128 * e2 + 2 ^ 192 * e3 + 2 ^ 256 * c3 =
               low - hi * (scL - 2 ^ 252) + scL + 2 ^ 256)
    by (rewrite <- ET'; clear -ED F0 F1 F2 F3; unfold scL in *; pow_consts; lia).
  assert (BE : 0 ≤ e0 + 2 ^ 64 * e1 + 2 ^ 128 * e2 + 2 ^ 192 * e3 < 2 ^ 256)
    by (clear -X0 X1 X2 X3; unfold word in *; pow_consts; lia).
  assert (BD : d0 + 2 ^ 64 * d1 + 2 ^ 128 * d2 + 2 ^ 192 * d3 < 2 ^ 256)
    by (clear -V0 V1 V2 V3; unfold word in *; pow_consts; lia).
  rewrite ED, ET' in BD. set (E := e0 + _ + _ + _) in *. set (D := hi * (scL - 2 ^ 252)) in *.
  clearbody E D low. clear -EE BE BD Blow Bs C3 ET'.
  assert (c3 = 1) as -> by (unfold scL in *; pow_consts; lia).
  apply (Z.mod_unique_pos _ _ (hi - 1)); [unfold scL in *; pow_consts; lia|].
  replace (scL * (hi - 1)) with (hi * scL - scL) by ring. lia.
Qed.

(** ** Reduction of 512 bits *)

Lemma sc_reduce_fold rule ws r :
  words4 r → val4 r < scL → Forall (word 64) ws → rule = Wide →
  words4 (fold_left (sc_reduce_step rule) ws r) ∧ 
  val4 (fold_left (sc_reduce_step rule) ws r) < scL ∧
  cong scL (val4 (fold_left (sc_reduce_step rule) ws r))
    (val4 r * 2 ^ (64 * Z.of_nat (length ws)) + le64 (rev ws)).
Proof.
  intros Hr Hlt Hws ->. revert r Hr Hlt. induction Hws as [|w ws Hw Hws IH]; intros r Hr Hlt.
  { split; [done|]. split; [done|]. apply cong_eq. cbn [fold_left length rev le64]. rewrite Z.mul_0_r. ring. }
  cbn [fold_left length rev].
  destruct (sc_reduce_step_spec Wide r w) as [Hs Hv]; [done..|by destruct r as [[[??]?]?]; left|].
  assert (Hm : val4 (sc_reduce_step Wide r w) < scL) by (rewrite Hv; by apply Z.mod_pos_bound).
  destruct (IH _ Hs Hm) as (Hs' & Hlt' & Hc). split; [done|]. split; [done|].
  rewrite Hc, Hv, cong_mod. apply cong_eq.
  rewrite le64_app, length_rev, Nat2Z.inj_succ, Z.mul_succ_r, Z.pow_add_r by lia. cbn [le64]. ring.
Qed.

(** A remainder with a clear top leaves as the next one shifted: no carry is lost
    by [Prior]. *)
Lemma sc_reduce_step_shift rule p0 p1 p2 w : 0 ≤ p2 < 2 ^ 60 →
  sc_reduce_step rule (p0, p1, p2, 0) w = (w, p0, p1, p2).
Proof.
  intros Hp. unfold sc_reduce_step. fold (step_hi rule p2 0).
  assert (E : step_hi rule p2 0 = 0).
  { unfold step_hi. rewrite shr_div, Z.div_small by done. by destruct rule. }
  rewrite E. cbn [Z.eqb]. by rewrite (land_low p2 60), Z.mod_small by done.
Qed.

Lemma sub_L_loop_spec r l b : Forall (word 64) r → Forall (word 64) l → 0 ≤ b ≤ 1 → length l = length r →
  let '(diff, b') := sub_L_loop r l b in
  length diff = length r ∧ Forall (word 64) diff ∧ 0 ≤ b' ≤ 1 ∧
  le64 diff = le64 r - le64 l - b + 2 ^ (64 * Z.of_nat (length r)) * b'.
Proof.
  intros Hr. revert l b. induction Hr as [|x r Hx _ IH]; intros l b Hl Hb Hlen;
    destruct Hl as [|y l Hy Hl]; try discriminate Hlen.
  { cbn. split; [done|]. split; [done|]. split; [done|]. lia. }
  cbn [sub_L_loop]. cbv zeta.
  assert (Hd : word 64 (u64 (u128 (x - y - (b .& 1)))) ∧ 0 ≤ u128 (x - y - (b .& 1)) ≫ 127 ≤ 1 ∧
    u64 (u128 (x - y - (b .& 1))) = x - y - b + 2 ^ 64 * (u128 (x - y - (b .& 1)) ≫ 127)).
  { rewrite (land_low b 1), shr_div by done. clear IH Hl. unfold word, wrap in *. pow_consts. lia. }
  destruct Hd as (Hw & Hb' & E). 
  specialize (IH l _ Hl Hb' ltac:(by injection Hlen)).
  destruct (sub_L_loop r l (u128 (x - y - (b .& 1)) ≫ 127)) as [diff b'].
  destruct IH as (Hlen' & Hw' & Hb'' & E'). cbn [length le64].
  split; [by rewrite Hlen'|]. split; [by constructor|]. split; [done|].
  rewrite E', E, Nat2Z.inj_succ, Z.mul_succ_r, Z.pow_add_r by lia. ring.
Qed.

Lemma sc_final_sub_id r : length r = 4%nat → Forall (word 64) r → le64 r < scL → sc_final_sub r = r.
Proof.
  intros Hl Hr Hlt. unfold sc_final_sub.
  assert (HL : Forall (word 64) SC_L) by (repeat constructor; unfold word; lia).
  pose proof (sub_L_loop_spec r SC_L 0 Hr HL ltac:(lia) ltac:(by rewrite Hl)) as H.
  destruct (sub_L_loop r SC_L 0) as [diff b]. destruct H as (Hd & Hw & Hb & E).
  rewrite (land_low b 1) by done.
  assert (b ≠ 0).
  { intros ->. pose proof (le64_bound diff Hw). change (le64 SC_L) with scL in E. lia. }
  destruct (b mod 2 ^ 1 =? 0) eqn:Eb; [|done]. pow_consts. lia.
Qed.

(** The final subtractions of a remainder below [L]. *)
Lemma sc_finish r : words4 r → val4 r < scL →
  let s := mkScalar (let '(r0, r1, r2, r3) := r in sc_final_sub (sc_final_sub [r0; r1; r2; r3])) in
  sc_canon s ∧ sc_val s = val4 r.
Proof.
  destruct r as [[[r0 r1] r2] r3]. intros (W0 & W1 & W2 & W3) Hlt.
  assert (E : le64 [r0; r1; r2; r3] = val4 (r0, r1, r2, r3)) by (cbn [le64 val4]; pow_consts; ring).
  assert (HF : Forall (word 64) [r0; r1; r2; r3]) by (repeat constructor; apply W0 || apply W1 || apply W2 || apply W3).
  rewrite !(sc_final_sub_id [r0; r1; r2; r3]) by (done || by rewrite E).
  cbv zeta. unfold sc_canon, sc_ok, sc_val. cbn [sv]. rewrite E. done.
Qed.

Lemma sc_reduce512_wide w : length w = 8%nat → Forall (word 64) w →
  sc_canon (sc_reduce512 w Wide) ∧ sc_val (sc_reduce512 w Wide) = le64 w mod scL.
Proof.
  intros Hl Hw. destruct (sc_reduce_fold Wide (rev w) (0, 0, 0, 0)) as (Hs & Hlt & Hc);
    [repeat split; done|done|by apply Forall_rev|done|].
  rewrite rev_involutive in Hc. cbn [val4] in Hc.
  destruct (sc_finish _ Hs Hlt) as [Hf Hv].
  unfold sc_reduce512. destruct (fold_left _ _ _) as [[[r0 r1] r2] r3].
  split; [done|]. rewrite Hv. rewrite <- (Z.mod_small (val4 (r0, r1, r2, r3)) scL).
  - by rewrite (cong_mod_eq _ _ _ Hc).
  - destruct Hs as (?&?&?&?). unfold word in *. split; [cbn; lia|done].
Qed.

(** The inputs of [sc_add], [sc_sub] and [sc_reduce256]: five limbs, the top
    one small. *)
Lemma sc_reduce512_small rule a c : length a = 4%nat → Forall (word 64) a → 0 ≤ c < 2 ^ 60 →
  sc_canon (sc_reduce512 (a ++ [c; 0; 0; 0]) rule) ∧
  sc_val (sc_reduce512 (a ++ [c; 0; 0; 0]) rule) = (le64 a + 2 ^ 256 * c) mod scL.
Proof.
  intros Hl Ha Hc.
  do 4 (destruct a as [|? a]; [discriminate Hl|]). destruct a; [clear Hl|discriminate Hl].
  repeat match goal with H : Forall _ (_ :: _) |- _ => apply Forall_cons in H; destruct H as [? H] end.
  unfold sc_reduce512. cbn [app rev fold_left].
  rewrite !(sc_reduce_step_shift rule) by (pow_consts; lia).
  assert (Hlt : val4 (z0, z1, z2, c) < scL) by (unfold word, scL in *; cbn [val4]; pow_consts; lia).
  destruct (sc_reduce_step_spec rule (z0, z1, z2, c) z) as [Hs Hv];
    [unfold words4, word in *; pow_consts; lia|done|done|right; tauto|].
  assert (Hm : val4 (sc_reduce_step rule (z0, z1, z2, c) z) < scL) by (rewrite Hv; by apply Z.mod_pos_bound).
  destruct (sc_finish _ Hs Hm) as [Hf Hv']. destruct (sc_reduce_step _ _ _) as [[[r0 r1] r2] r3].
  split; [done|]. rewrite Hv', Hv. f_equal. cbn [val4 le64]. pow_consts. ring.
Qed.

(** ** The operations *)

Lemma add_loop_spec a b c : Forall (word 64) a → Forall (word 64) b → length b = length a →
  0 ≤ c ≤ 1 →
  let '(w, c') := add_loop a b c in
  length w = length a ∧ Forall (word 64) w ∧ 0 ≤ c' ≤ 1 ∧
  le64 w + 2 ^ (64 * Z.of_nat (length a)) * c' = le64 a + le64 b + c.
Proof.
  intros Ha. revert b c. induction Ha as [|x a Hx _ IH]; intros b c Hb Hlen Hc;
    destruct Hb as [|y b Hy Hb]; try discriminate Hlen.
  { cbn [add_loop length le64]. split; [done|]. split; [done|]. split; [done|]. rewrite Z.mul_0_r. lia. }
  cbn [add_loop]. cbv zeta.
  assert (Hd : word 64 (u64 (u128 (c + (x + y)))) ∧ 0 ≤ u128 (c + (x + y)) ≫ 64 ≤ 1 ∧
    u64 (u128 (c + (x + y))) + 2 ^ 64 * (u128 (c + (x + y)) ≫ 64) = x + y + c).
  { rewrite shr_div by done. clear IH Hb. unfold word, wrap in *. pow_consts. lia. }
  destruct Hd as (Hw & Hb' & E). specialize (IH b _ Hb ltac:(by injection Hlen) Hb').
  destruct (add_loop a b (u128 (c + (x + y)) ≫ 64)) as [w c'].
  destruct IH as (Hlen' & Hw' & Hb'' & E'). cbn [length le64].
  split; [by rewrite Hlen'|]. split; [by constructor|]. split; [done|].
  rewrite Nat2Z.inj_succ, Z.mul_succ_r, Z.pow_add_r by lia.
  transitivity (u64 (u128 (c + (x + y))) + 2 ^ 64 * (le64 w + 2 ^ (64 * Z.of_nat (length a)) * c'));
    [ring|]. rewrite E'. lia.
Qed.

Lemma sc_add_words a b : length a = 4%nat → Forall (word 64) a → length b = 4%nat → Forall (word 64) b →
  let s := (let '(w, carry) := add_loop a b 0 in sc_reduce512 (w ++ [u64 carry; 0; 0; 0]) Prior) in
  sc_canon s ∧ sc_val s = (le64 a + le64 b) mod scL.
Proof.
  intros Hla Ha Hlb Hb. 
  pose proof (add_loop_spec a b 0 Ha Hb ltac:(congruence) ltac:(lia)) as H.
  destruct (add_loop a b 0) as [w c]. destruct H as (Hl & Hw & Hc & E). rewrite Hla in *.
  rewrite (wrap_small 64 c) by (unfold word; lia).
  destruct (sc_reduce512_small Prior w c Hl Hw) as [Hok Hv]; [lia|].
  split; [done|]. rewrite Hv. f_equal. change (2 ^ (64 * Z.of_nat 4)) with (2 ^ 256) in E. lia.
Qed.

Lemma sc_add_spec a b : sc_ok a → sc_ok b →
  sc_canon (sc_add a b) ∧ sc_val (sc_add a b) = (sc_val a + sc_val b) mod scL.
Proof. intros [Hla Ha] [Hlb Hb]. by apply sc_add_words. Qed.

Lemma neg_loop_spec l b c : Forall (word 64) l → Forall (word 64) b → length b = length l → 0 ≤ c ≤ 1 →
  length (neg_loop l b c) = length l ∧ Forall (word 64) (neg_loop l b c) ∧
  le64 (neg_loop l b c) = (le64 l - le64 b - c) mod 2 ^ (64 * Z.of_nat (length l)).
Proof.
  intros Hl. revert b c. induction Hl as [|x l Hx Hll IH]; intros b c Hb Hlen Hc;
    destruct Hb as [|y b Hy Hb]; try discriminate Hlen.
  { cbn [neg_loop length]. rewrite Z.mul_0_r, Z.mod_1_r. done. }
  cbn [neg_loop]. cbv zeta.
  set (d := u128 (x - y - c)).
  assert (Hd : word 64 (u64 d) ∧ 0 ≤ (d ≫ 64) .& 1 ≤ 1 ∧ x - y - c = u64 d - 2 ^ 64 * ((d ≫ 64) .& 1)).
  { unfold d. rewrite (land_low _ 1), shr_div by done. clear IH Hb Hll. unfold word, wrap in *. pow_consts. lia. }
  destruct Hd as (Hw & Hb' & E). destruct (IH b _ Hb ltac:(by injection Hlen) Hb') as (L' & W' & E').
  cbn [length le64]. split; [by rewrite L'|]. split; [by constructor|].
  rewrite E', Nat2Z.inj_succ, Z.mul_succ_r, (Z.add_comm _ 64), Z.pow_add_r by lia.
  replace (x + 2 ^ 64 * le64 l - (y + 2 ^ 64 * le64 b) - c)
    with (u64 d + (le64 l - le64 b - ((d ≫ 64) .& 1)) * 2 ^ 64) by lia.
  rewrite Z.rem_mul_r by lia. rewrite Z_mod_plus_full, (Z.mod_small (u64 d)) by done.
  rewrite Z.div_add, (Z.div_small (u64 d)) by done. by rewrite Z.add_0_l.
Qed.

Lemma SC_L_words : Forall (word 64) SC_L.
Proof. repeat constructor; unfold word; lia. Qed.

Lemma sc_sub_spec a b : sc_ok a → sc_ok b → sc_val b ≤ scL →
  sc_canon (sc_sub a b) ∧ sc_val (sc_sub a b) = (sc_val a - sc_val b) mod scL.
Proof.
  intros [Hla Ha] [Hlb Hb] Hle. pose proof (sc_val_bound b (conj Hlb Hb)) as Hbb.
  destruct (neg_loop_spec SC_L (sv b) 0 SC_L_words Hb ltac:(by rewrite Hlb) ltac:(lia)) as (Hl & Hw & E).
  destruct (sc_add_words (sv a) (neg_loop SC_L (sv b) 0) Hla Ha Hl Hw) as [Hok Hv].
  unfold sc_sub. cbv zeta. split; [exact Hok|]. rewrite Hv, E.
  change (le64 SC_L) with scL. change (2 ^ (64 * Z.of_nat (length SC_L))) with (2 ^ 256).
  fold (sc_val a) (sc_val b). rewrite (Z.mod_small _ (2 ^ 256)) by (unfold scL in *; pow_consts; lia).
  replace (sc_val a + (scL - sc_val b - 0)) with (sc_val a - sc_val b + 1 * scL) by ring.
  apply Z_mod_plus_full.
Qed.

Lemma sc_zero_ok : sc_ok sc_zero.
Proof. split; [done|repeat constructor; unfold word; lia]. Qed.

Lemma sc_neg_spec a : sc_ok a → sc_val a ≤ scL → 
  sc_canon (sc_neg a) ∧ sc_val (sc_neg a) = (- sc_val a) mod scL.
Proof. intros Ha Hle. apply (sc_sub_spec sc_zero a sc_zero_ok Ha Hle). Qed.

(** *** The schoolbook product *)

Lemma mul_row_spec ai b w1 x w2 c : word 64 ai → Forall (word 64) b → Forall (word 64) w1 →
  length w1 = length b → word 64 c →
  ∃ w', mul_row ai b (w1 ++ x :: w2) c = w' ++ w2 ∧ length w' = S (length b) ∧
    Forall (word 64) w' ∧ le64 w' = le64 w1 + ai * le64 b + c.
Proof.
  intros Ha Hb. revert w1 c. induction Hb as [|y b Hy _ IH]; intros w1 c Hw1 Hlen Hc;
    destruct Hw1 as [|z w1 Hz Hw1]; try discriminate Hlen.
  { exists [u64 c]. cbn. rewrite (wrap_small 64 c) by done.
    split; [done|]. split; [done|]. split; [by apply Forall_singleton|]. lia. }
  cbn [mul_row app]. cbv zeta. set (t := u128 (c + u128 (u128 (ai * y) + z))).
  assert (Ht : t = c + (ai * y + z) ∧ 0 ≤ t < 2 ^ 128).
  { unfold t. assert (0 ≤ ai * y ≤ (2 ^ 64 - 1) * (2 ^ 64 - 1)) by (apply word_mul; done || lia).
    clear IH Hw1. generalize dependent (ai * y). intros m Hm. unfold word, wrap in *. pow_consts. lia. }
  destruct Ht as [Et Bt]. clearbody t.
  assert (Hd : word 64 (u64 t) ∧ word 64 (t ≫ 64) ∧ u64 t + 2 ^ 64 * (t ≫ 64) = t).
  { rewrite shr_div by done. clear -Bt. unfold word, wrap. pow_consts. lia. }
  destruct Hd as (Hw & Hc' & E). destruct (IH w1 (t ≫ 64) Hw1 ltac:(by injection Hlen) Hc') as (w' & E' & Hl & Hww & Ev).
  exists (u64 t :: w'). rewrite E'. split; [done|]. split; [cbn; congruence|]. split; [by constructor|].
  cbn [le64]. rewrite Ev.
  transitivity (u64 t + 2 ^ 64 * (t ≫ 64) + 2 ^ 64 * (le64 w1 + ai * le64 b)); [ring|].
  rewrite E, Et. ring.
Qed.

Lemma mul_rows_spec a b w1 k : Forall (word 64) a → Forall (word 64) b → Forall (word 64) w1 →
  length w1 = length b → (0 < length b)%nat →
  let w := mul_rows a b (w1 ++ repeat 0 (length a + k)) in
  length w = (length w1 + (length a + k))%nat ∧ Forall (word 64) w ∧
  le64 w = le64 w1 + le64 a * le64 b.
Proof.
  intros Ha Hb. revert w1. induction Ha as [|ai a Hai _ IH]; intros w1 Hw1 Hlen Hpos; cbv zeta.
  { cbn [mul_rows length le64 plus]. split; [by rewrite length_app, repeat_length|].
    split; [apply Forall_app; split; [done|]; apply Forall_forall; intros x Hx;
      apply list_elem_of_In, repeat_spec in Hx as ->; done|].
    rewrite le64_app. replace (le64 (repeat 0 k)) with 0; [lia|].
    clear. induction k as [|k IH]; cbn [repeat le64]; lia. }
  cbn [length plus repeat].
  destruct (mul_row_spec ai b w1 0 (repeat 0 (length a + k)) 0 Hai Hb Hw1 Hlen ltac:(done))
    as (w' & E & Hl & Hw' & Ev).
  cbn [mul_rows]. rewrite E. destruct Hw' as [|wi w' Hwi Hw']; [discriminate Hl|].
  cbn [app]. injection Hl as Hl. destruct (IH w' Hw' Hl Hpos) as (L & W & V).
  split; [cbn [length]; rewrite L; lia|]. split; [by constructor|].
  cbn [le64] in *. rewrite V.
  transitivity (wi + 2 ^ 64 * le64 w' + 2 ^ 64 * (le64 a * le64 b)); [ring|]. rewrite Ev. ring.
Qed.

Lemma sc_product a b : sc_ok a → sc_ok b →
  let w := mul_rows (sv a) (sv b) (repeat 0 8) in
  length w = 8%nat ∧ Forall (word 64) w ∧ le64 w = sc_val a * sc_val b.
Proof.
  intros [Hla Ha] [Hlb Hb]. 
  destruct (mul_rows_spec (sv a) (sv b) [0; 0; 0; 0] 0 Ha Hb) as (L & W & V);
    [repeat constructor; unfold word; lia|done|rewrite Hlb; lia|].
  rewrite Hla in *. cbv zeta. split; [exact L|]. split; [exact W|]. exact V.
Qed.

Lemma sc_mul_wide a b : sc_ok a → sc_ok b →
  sc_canon (sc_mul a b Wide) ∧ sc_val (sc_mul a b Wide) = (sc_val a * sc_val b) mod scL.
Proof.
  intros Ha Hb. destruct (sc_product a b Ha Hb) as (L & W & V).
  destruct (sc_reduce512_wide _ L W) as [Hok Hv]. unfold sc_mul. by rewrite Hv, V.
Qed.

(** *** Inversion *)

Lemma sc_inv_exp_bit i : 0 ≤ i < 256 →
  Z.testbit (nth (Z.to_nat (i ≫ 6)) sc_inv_exp 0) (i .& 63) = Z.testbit (scL - 2) i.
Proof.
  intros Hi. assert (H : forallb (λ i, Bool.eqb
    (Z.testbit (nth (Z.to_nat (i ≫ 6)) sc_inv_exp 0) (i .& 63)) (Z.testbit (scL - 2) i)) (zseq 0 256) = true)
    by (vm_compute; reflexivity).
  rewrite forallb_forall in H. apply Bool.eqb_prop, H, list_elem_of_In, elem_of_zseq. lia.
Qed.

(** Bits [i .. i + n - 1] of an exponent. *)
Lemma sc_inv_loop_spec n i r b x y :
  0 ≤ i → i + Z.of_nat n ≤ 256 → sc_ok r → sc_ok b →
  cong scL (sc_val r) y → cong scL (sc_val b) x →
  sc_ok (sc_inv_loop n Wide i r b) ∧
  cong scL (sc_val (sc_inv_loop n Wide i r b)) (y * x ^ (((scL - 2) / 2 ^ i) mod 2 ^ Z.of_nat n)).
Proof.
  revert i r b x y. induction n as [|n IH]; intros i r b x y Hi Hn Hr Hb Hy Hx.
  { cbn [sc_inv_loop]. rewrite Z.mod_1_r, Z.pow_0_r, Z.mul_1_r. done. }
  cbn [sc_inv_loop]. cbv zeta. rewrite sc_inv_exp_bit by lia.
  set (e := (scL - 2) / 2 ^ i).
  assert (He : 0 ≤ e) by (apply Z.div_pos; [done|lia]).
  assert (Ebit : Z.testbit (scL - 2) i = Z.odd e).
  { rewrite <- Z.bit0_odd. unfold e. by rewrite Z.div_pow2_bits by lia. }
  destruct (sc_mul_wide b b Hb Hb) as [[Hbb _] Vbb].
  assert (Hx2 : cong scL (sc_val (sc_mul b b Wide)) (x * x)) by (by rewrite Vbb, cong_mod, Hx).
  set (r' := if Z.testbit (scL - 2) i then sc_mul r b Wide else r).
  assert (Hr' : sc_ok r' ∧ cong scL (sc_val r') (y * x ^ (e mod 2))).
  { unfold r'. rewrite Ebit, (Zmod_odd e). destruct (Z.odd e).
    - destruct (sc_mul_wide r b Hr Hb) as [[Hrb _] Vrb]. split; [done|].
      by rewrite Vrb, cong_mod, Hy, Hx, Z.pow_1_r.
    - split; [done|]. by rewrite Z.pow_0_r, Z.mul_1_r. }
  destruct Hr' as [Hok' Hy']. clearbody r'.
  destruct (IH (i + 1) r' (sc_mul b b Wide) (x * x) _ ltac:(lia) ltac:(lia) Hok' Hbb Hy' Hx2) as [Hok Hv].
  split; [done|]. rewrite Hv. apply cong_eq.
  rewrite Z.pow_add_r, <- Z.div_div by lia. fold e. change (2 ^ 1) with 2.
  rewrite Nat2Z.inj_succ, Z.pow_succ_r by lia.
  assert (0 < 2 ^ Z.of_nat n) by lia.
  rewrite Z.rem_mul_r by lia. rewrite <- Z.mul_assoc. f_equal.
  rewrite Z.pow_add_r, Z.pow_mul_r by (try apply Z.mul_nonneg_nonneg; try apply Z.mod_pos_bound; lia).
  by rewrite Z.pow_2_r.
Qed.

Lemma sc_one_ok : sc_ok (mkScalar [1; 0; 0; 0]).
Proof. split; [done|repeat constructor; unfold word; lia]. Qed.

Lemma sc_inv_loop_canon n i r b : sc_canon r → sc_ok b → sc_canon (sc_inv_loop n Wide i r b).
Proof.
  revert i r b. induction n as [|n IH]; intros i r b Hr Hb; [done|]. cbn [sc_inv_loop]. cbv zeta.
  apply IH; [|by apply sc_mul_wide]. destruct (Z.testbit _ _); [|done]. by apply sc_mul_wide; [apply Hr|].
Qed.

Lemma canon_mod a x : sc_canon a → cong scL (sc_val a) x → sc_val a = x mod scL.
Proof.
  intros [Ha Hlt] E. rewrite <- (cong_mod_eq _ _ _ E). symmetry. apply Z.mod_small. split; [|exact Hlt].
  destruct Ha as [_ Hw]. unfold sc_val. by apply le64_bound.
Qed.

Lemma sc_inv_wide a : sc_ok a →
  sc_canon (sc_inv a Wide) ∧ sc_val (sc_inv a Wide) = sc_val a ^ (scL - 2) mod scL.
Proof.
  intros Ha. destruct (sc_inv_loop_spec 256 0 (mkScalar [1; 0; 0; 0]) a (sc_val a) 1) as [Hok Hv];
    [lia|lia|apply sc_one_ok|done|done|done|].
  assert (C : sc_canon (sc_inv a Wide)) by (unfold sc_inv; apply sc_inv_loop_canon; [split; [apply sc_one_ok|vm_compute; reflexivity]|exact Ha]).
  split; [exact C|]. apply (canon_mod _ _ C). unfold sc_inv. rewrite Hv. apply cong_eq. rewrite Z.mul_1_l. f_equal.
Qed.

(** *** Encodings *)

Lemma sc_tobytes_spec a : sc_ok a → sc_tobytes a = le_bytes 32 (sc_val a).
Proof. intros [Hl Hw]. unfold sc_tobytes. rewrite concat_word_bytes by done. by rewrite Hl. Qed.

Lemma sc_is_canonical_spec a : sc_ok a → sc_is_canonical a = (sc_val a <? scL).
Proof.
  intros Ha. scalar_words a Ha. unfold sc_is_canonical, sc_val. cbn [sv zip zip_with SC_L rev app].
  change scL with (le64 SC_L). cbn [sc_is_canonical_loop le64 SC_L].
  unfold word in *.
  repeat match goal with |- context [?x <? ?y] =>
    lazymatch x with
    | context [2 ^ 64] => fail
    | _ => lazymatch y with context [2 ^ 64] => fail | _ => destruct (Z.ltb_spec x y) end
    end end; symmetry; first [apply Z.ltb_lt|apply Z.ltb_ge]; pow_consts; lia.
Qed.

(** Eight bytes or-ed into a word. *)
Lemma word_of_bytes b0 b1 b2 b3 b4 b5 b6 b7 : bytes [b0; b1; b2; b3; b4; b5; b6; b7] →
  0 .| wshl 64 b0 0 .| wshl 64 b1 8 .| wshl 64 b2 16 .| wshl 64 b3 24 .| wshl 64 b4 32
    .| wshl 64 b5 40 .| wshl 64 b6 48 .| wshl 64 b7 56 = le_val [b0; b1; b2; b3; b4; b5; b6; b7].
Proof.
  unfold bytes. rewrite !Forall_cons. unfold word. intros (B0 & B1 & B2 & B3 & B4 & B5 & B6 & B7 & _).
  cbn [le_val].
  rewrite (lor_shl 0 b0 0 8), (lor_shl _ b1 8 8), (lor_shl _ b2 16 8), (lor_shl _ b3 24 8),
    (lor_shl _ b4 32 8), (lor_shl _ b5 40 8), (lor_shl _ b6 48 8), (lor_shl _ b7 56 8)
    by (try done; pow_consts; lia).
  pow_consts. ring.
Qed.

Lemma word_of_bytes_word bs : length bs = 8%nat → bytes bs → word 64 (le_val bs).
Proof. intros Hl Hb. pose proof (le_val_bound bs Hb) as H. by rewrite Hl in H. Qed.

Lemma sc_from_bytes_spec s : length s = 32%nat → bytes s →
  sc_ok (sc_from_bytes s) ∧ sc_val (sc_from_bytes s) = le_val s.
Proof.
  intros Hl Hs. byte_list s Hl. unfold bytes in Hs. rewrite !Forall_cons in Hs.
  repeat match goal with H : _ ∧ _ |- _ => destruct H as [? H] end.
  unfold sc_from_bytes. cbn [map seq fold_left].
  cbn [Nat.mul Nat.add nth Z.of_nat Pos.of_succ_nat Pos.succ].
  rewrite !word_of_bytes by (unfold bytes; rewrite !Forall_cons; auto 20).
  split.
  - split; [done|]. unfold sc_ok. cbn [sv].
    repeat match goal with |- Forall _ (_ :: _) => apply Forall_cons; split | |- Forall _ [] => constructor end;
      (apply word_of_bytes_word; [done|]; unfold bytes; rewrite !Forall_cons; auto 20).
  - unfold sc_val. cbn [sv le64 le_val]. pow_consts. ring.
Qed.

Lemma sc_from_fp_spec x : fp_ok x → sc_ok (sc_from_fp x) ∧ sc_val (sc_from_fp x) = val x.
Proof.
  intros Hx. destruct (fp_ok_words x Hx) as [Wl Wh]. unfold sc_from_fp. cbv zeta.
  rewrite !word_bytes_le by done.
  assert (Bz : bytes (repeat 0 16)) by (apply Forall_forall; intros b Hb%list_elem_of_In%repeat_spec; by subst).
  assert (Bb : bytes (le_bytes 8 (lo x) ++ le_bytes 8 (hi x) ++ repeat 0 16)).
  { unfold bytes. rewrite !Forall_app. split; [apply le_bytes_bytes|]. split; [apply le_bytes_bytes|done]. }
  destruct (sc_from_bytes_spec (le_bytes 8 (lo x) ++ le_bytes 8 (hi x) ++ repeat 0 16)) as [Hok Hv];
    [by rewrite !length_app, !length_le_bytes|done|].
  split; [done|]. rewrite Hv, !le_val_app, !length_le_bytes, !le_val_bytes by done.
  unfold val. change (le_val (repeat 0 16)) with 0. change (256 ^ Z.of_nat 8) with (2 ^ 64). lia.
Qed.

(** The representative of a field element of absolute value at most [P / 2]. *)
Definition centered (x : Z) : Z := if x <? 2 ^ 126 then x else x - P.

Lemma sc_from_fp_signed_spec x : fp_ok x →
  sc_ok (sc_from_fp_signed x) ∧ sc_val (sc_from_fp_signed x) = centered (val x) mod scL.
Proof.
  intros Hx. destruct (fp_ok_bounds x Hx) as (Bl & Bh & Bv).
  unfold sc_from_fp_signed, centered.
  assert (Eb : negb (hi x .& wshl 64 1 62 =? 0) = negb (val x <? 2 ^ 126)).
  { change (wshl 64 1 62) with (2 ^ 62). f_equal. apply eq_true_iff_eq. rewrite Z.eqb_eq, Z.ltb_lt.
    assert (E : hi x .& 2 ^ 62 = b2z (Z.testbit (hi x) 62) * 2 ^ 62).
    { apply Z.bits_inj'. intros i Hi. rewrite Z.land_spec, Z.pow2_bits_eqb by done.
      destruct (Z.eqb_spec 62 i) as [<-|Hne]; [destruct (Z.testbit (hi x) 62); done|].
      rewrite andb_false_r. destruct (Z.testbit (hi x) 62); cbn [b2z]; [|by rewrite Z.bits_0].
      rewrite Z.mul_1_l, Z.pow2_bits_eqb by done. symmetry. by apply Z.eqb_neq. }
    rewrite E. rewrite Z.testbit_eqb by done. unfold val.
    assert (hi x / 2 ^ 62 = 0 ∨ hi x / 2 ^ 62 = 1) as [Eq|Eq] by (clear -Bh; pow_consts; lia); rewrite Eq.
    - change (b2z (0 mod 2 =? 1)) with 0. clear -Bl Bh Eq. pow_consts. lia.
    - change (b2z (1 mod 2 =? 1)) with 1. clear -Bl Bh Eq. pow_consts. lia. }
  rewrite Eb. destruct (Z.ltb_spec (val x) (2 ^ 126)) as [Hlt|Hge]; cbn [negb].
  - destruct (sc_from_fp_spec x Hx) as [Hok Hv]. split; [done|]. rewrite Hv, Z.mod_small; [done|].
    unfold scL. lia.
  - destruct (fp_neg_spec x Hx) as [Hn Hnv]. destruct (sc_from_fp_spec _ Hn) as [Hok Hv].
    rewrite Hnv in Hv. replace ((- val x) mod P) with (P - val x) in Hv
      by (apply (Z.mod_unique_pos _ _ (-1)); [clear -Bv Hge; pow_consts; lia|ring]).
    destruct (sc_neg_spec _ Hok) as [[Hok' _] Hv'].
    { rewrite Hv. clear -Bv Hge. unfold P, scL in *. pow_consts. lia. }
    split; [done|]. rewrite Hv', Hv. f_equal. ring.
Qed.

Lemma le64_inj a b : Forall (word 64) a → Forall (word 64) b → length a = length b → le64 a = le64 b → a = b.
Proof.
  intros Ha. revert b. induction Ha as [|x a Hx _ IH]; intros b Hb Hl E; destruct Hb as [|y b Hy Hb];
    try discriminate Hl; [done|].
  cbn [le64] in E. unfold word in *. pow_consts. f_equal; [lia|].
  apply IH; [done|by injection Hl|lia].
Qed.

Lemma sc_val_inj a b : sc_ok a → sc_ok b → sc_val a = sc_val b → a = b.
Proof.
  destruct a as [a], b as [b]. intros [La Wa] [Lb Wb] E. f_equal. cbn [sv] in *.
  apply le64_inj; [done..|congruence|done].
Qed.

(** ** Properties *)

(** C27. The scalar arithmetic is arithmetic modulo the group order: addition,
    subtraction, negation, the product under [ScalarRule::Wide] and its
    exponentiation by [L - 2] return a canonical scalar with the right residue
    (of [a ^ (L - 2)], the inverse of a nonzero [a]); [sc_reduce512] under [Wide] reduces every 512-bit
    integer. *)
Theorem scalar_field_correct a b w : sc_ok a → sc_canon b → length w = 8%nat → Forall (word 64) w →
  (sc_canon (sc_reduce512 w Wide) ∧ sc_val (sc_reduce512 w Wide) = le64 w mod scL) ∧
  (sc_canon (sc_add a b) ∧ sc_val (sc_add a b) = (sc_val a + sc_val b) mod scL) ∧
  (sc_canon (sc_sub a b) ∧ sc_val (sc_sub a b) = (sc_val a - sc_val b) mod scL) ∧
  (sc_canon (sc_neg b) ∧ sc_val (sc_neg b) = (- sc_val b) mod scL) ∧
  (sc_canon (sc_mul a b Wide) ∧ sc_val (sc_mul a b Wide) = (sc_val a * sc_val b) mod scL) ∧
  (sc_canon (sc_inv a Wide) ∧ sc_val (sc_inv a Wide) = sc_val a ^ (scL - 2) mod scL ∧
   (¬ cong scL (sc_val a) 0 → cong scL (sc_val a * sc_val (sc_inv a Wide)) 1)).
Proof.
  intros Ha [Hb Hlt] Hl Hw.
  split; [by apply sc_reduce512_wide|]. split; [by apply sc_add_spec|].
  split; [apply sc_sub_spec; [done..|lia]|]. split; [apply sc_neg_spec; [done|lia]|].
  split; [by apply sc_mul_wide|]. destruct (sc_inv_wide a Ha) as [Hok Hv]. split; [exact Hok|]. split; [exact Hv|].
  intros Hnz. rewrite Hv, cong_mod. apply fermat_inverse; [apply scL_prime|]. intros Hd. apply Hnz.
  apply cong_divide; [done|]. by rewrite Z.sub_0_r.
Qed.

Lemma scalar_field_correct_witness :
  cong scL (sc_val (mkScalar [3; 0; 0; 0]) * sc_val (sc_inv (mkScalar [3; 0; 0; 0]) Wide)) 1.
Proof.
  assert (H3 : sc_ok (mkScalar [3; 0; 0; 0])) by (split; [done|repeat constructor; unfold word; lia]).
  destruct (scalar_field_correct (mkScalar [3; 0; 0; 0]) (mkScalar [3; 0; 0; 0]) (repeat 0 8) H3)
    as (_ & _ & _ & _ & _ & _ & _ & I);
    [split; [done|vm_compute; reflexivity]|done|repeat constructor; unfold word; lia|].
  apply I. unfold cong. vm_compute. discriminate.
Defined.

(** C38. The two rules of [sc_reduce512]: on inputs of five limbs whose top limb
    is below [2^60] (what [sc_add], [sc_sub] and [sc_reduce256] pass) [Prior]
    reduces correctly; but [Prior] drops the top bits of the quotient of a
    remainder of [2^252] or more, so that there are canonical scalars whose
    product it gets wrong where [Wide] gets it right. *)
Theorem scalar_rule_prior :
  (∀ a c, length a = 4%nat → Forall (word 64) a → 0 ≤ c < 2 ^ 60 →
     sc_reduce512 (a ++ [c; 0; 0; 0]) Prior = sc_reduce512 (a ++ [c; 0; 0; 0]) Wide) ∧
  ∃ a b, sc_canon a ∧ sc_canon b ∧
    sc_val (sc_mul a b Wide) = (sc_val a * sc_val b) mod scL ∧
    sc_val (sc_mul a b Prior) ≠ (sc_val a * sc_val b) mod scL.
Proof.
  split.
  - intros a c Hl Ha Hc.
    destruct (sc_reduce512_small Prior a c Hl Ha Hc) as [[Hp _] Vp].
    destruct (sc_reduce512_small Wide a c Hl Ha Hc) as [[Hw _] Vw].
    apply sc_val_inj; [done|done|congruence].
  - exists (mkScalar [6346243789798364140; 1503914060200516822; 0; 1152921504606846976]),
      (mkScalar [12830863184210834075; 18446744073709551614; 18446744073709551615; 72057594037927936]).
    assert (W : ∀ l, length l = 4%nat → forallb (λ x, (0 <=? x) && (x <? 2 ^ 64)) l = true →
      sc_ok (mkScalar l)).
    { intros l Hl Hw. split; [done|]. apply Forall_forall. intros x Hx%list_elem_of_In. cbn [sv] in Hx.
      rewrite forallb_forall in Hw. apply Hw in Hx. unfold word. lia. }
    split; [split; [by apply W|vm_compute; reflexivity]|].
    split; [split; [by apply W|vm_compute; reflexivity]|].
    split; [by apply sc_mul_wide; apply W|]. vm_compute. discriminate.
Qed.

Lemma scalar_rule_prior_witness :
  sc_reduce512 ([1; 2; 3; 4] ++ [1; 0; 0; 0]) Prior = sc_reduce512 ([1; 2; 3; 4] ++ [1; 0; 0; 0]) Wide.
Proof.
  apply (proj1 scalar_rule_prior); [done|repeat constructor; unfold word; lia|lia].
Defined.

(** Encodings: [sc_tobytes] after [sc_from_bytes] is the identity on 32
    bytes, [sc_from_bytes] after [sc_tobytes] on scalars; [sc_is_canonical]
    decides [< L]; a field element becomes its value, and under
    [sc_from_fp_signed] its representative of least absolute value. *)
Theorem scalar_encoding_correct s a x : length s = 32%nat → bytes s → sc_ok a → fp_ok x →
  sc_tobytes (sc_from_bytes s) = s ∧ sc_from_bytes (sc_tobytes a) = a ∧
  sc_val (sc_from_bytes s) = le_val s ∧
  sc_is_canonical a = (sc_val a <? scL) ∧
  sc_val (sc_from_fp x) = val x ∧ sc_val (sc_from_fp_signed x) = centered (val x) mod scL.
Proof.
  intros Hl Hs Ha Hx. destruct (sc_from_bytes_spec s Hl Hs) as [Ho Hv].
  split. { rewrite sc_tobytes_spec, Hv, <- Hl by done. by apply le_bytes_val. }
  split.
  { rewrite (sc_tobytes_spec a Ha).
    destruct (sc_from_bytes_spec (le_bytes 32 (sc_val a))) as [Ho' Hv'];
      [apply length_le_bytes|apply le_bytes_bytes|].
    apply sc_val_inj; [done|done|]. rewrite Hv'. apply le_val_bytes. by apply sc_val_bound. }
  split; [done|]. split; [by apply sc_is_canonical_spec|].
  split; [by apply sc_from_fp_spec|by apply sc_from_fp_signed_spec].
Qed.

Lemma scalar_encoding_correct_witness :
  sc_tobytes (sc_from_bytes (repeat 9 32)) = repeat 9 32 ∧
  sc_val (sc_from_fp_signed (fp_neg (fp_from_u64 5))) = centered (val (fp_neg (fp_from_u64 5))) mod scL.
Proof.
  destruct (scalar_encoding_correct (repeat 9 32) sc_zero (fp_neg (fp_from_u64 5)) eq_refl
    ltac:(repeat constructor; unfold word; lia) sc_zero_ok
    (proj1 (fp_neg_spec _ (proj1 (fp_from_u64_spec 5 ltac:(unfold word; lia)))))) as (A & _ & _ & _ & _ & B).
  split; [exact A|exact B].
Defined.
