(* ===== verification/Zp.v ===== *)
(** * The field of residues modulo a prime, as a type with decidable equality

    The curve of [Ristretto.v] is reasoned about in this field, with the
    Standard Library's [field] and [nsatz]. *)

From Stdlib Require Import Ring Field NsatzTactic Eqdep_dec.
From S2P Require Import Prelude Primes Fe25519.

Definition in_range (x : Z) : bool := (0 <=? x) && (x <? p25519).

Record F : Set := mkF { fv : Z; fv_ok : in_range fv = true }.

Lemma F_eq (a b : F) : fv a = fv b → a = b.
Proof.
  destruct a as [a Ha], b as [b Hb]. cbn. intros ->. f_equal.
  apply UIP_dec, Bool.bool_dec.
Qed.

#[export] Instance F_eq_dec : EqDecision F.
Proof.
  intros a b. destruct (decide (fv a = fv b)) as [E|E]; [left; by apply F_eq|right; by intros ->].
Defined.

Lemma mod_in_range x : in_range (x mod p25519) = true.
Proof. unfold in_range. pose proof (Z.mod_pos_bound x p25519 p25519_pos). lia. Qed.

(** The class of an integer. *)
Definition toF (x : Z) : F := mkF (x mod p25519) (mod_in_range x).

Lemma fv_bound a : 0 ≤ fv a < p25519.
Proof. pose proof (fv_ok a) as H. unfold in_range in H. lia. Qed.

Lemma toF_fv a : toF (fv a) = a.
Proof. apply F_eq. cbn. apply Z.mod_small, fv_bound. Qed.

Lemma toF_eq x y : toF x = toF y ↔ cong p25519 x y.
Proof. split; [by intros [= E]|]. intros E. by apply F_eq. Qed.

Definition F0 : F := toF 0.
Definition F1 : F := toF 1.
Definition Fadd (a b : F) : F := toF (fv a + fv b).
Definition Fsub (a b : F) : F := toF (fv a - fv b).
Definition Fmul (a b : F) : F := toF (fv a * fv b).
Definition Fopp (a : F) : F := toF (- fv a).
Definition Finv (a : F) : F := toF (fv a ^ (p25519 - 2)).
Definition Fdiv (a b : F) : F := Fmul a (Finv b).

Lemma fv_toF x : cong p25519 (fv (toF x)) x.
Proof. apply cong_mod. Qed.

Lemma toF_add x y : toF (x + y) = Fadd (toF x) (toF y).
Proof. apply toF_eq. by rewrite !fv_toF. Qed.
Lemma toF_sub x y : toF (x - y) = Fsub (toF x) (toF y).
Proof. apply toF_eq. by rewrite !fv_toF. Qed.
Lemma toF_mul x y : toF (x * y) = Fmul (toF x) (toF y).
Proof. apply toF_eq. by rewrite !fv_toF. Qed.
Lemma toF_opp x : toF (- x) = Fopp (toF x).
Proof. apply toF_eq. by rewrite !fv_toF. Qed.

Lemma toF_surj (a : F) : ∃ x, a = toF x.
Proof. exists (fv a). by rewrite toF_fv. Qed.

Ltac F_lift :=
  intros; repeat match goal with a : F |- _ =>
    let x := fresh "x" in destruct (toF_surj a) as [x ->] end;
  unfold F0, F1; rewrite <- ?toF_add, <- ?toF_mul, <- ?toF_sub, <- ?toF_opp;
  rewrite <- ?toF_add, <- ?toF_mul, <- ?toF_sub, <- ?toF_opp; f_equal; ring.

Lemma F_ring_theory : ring_theory F0 F1 Fadd Fmul Fsub Fopp (@eq F).
Proof. split; F_lift. Qed.

Lemma F_zero_val (a : F) : a ≠ F0 → ¬ (p25519 | fv a).
Proof.
  intros Ha [k Hk]. apply Ha, F_eq. cbn. pose proof (fv_bound a).
  assert (k = 0) by (unfold p25519 in *; nia). subst k. by rewrite Hk.
Qed.

Lemma F_inv_l (a : F) : a ≠ F0 → Fmul (Finv a) a = F1.
Proof.
  intros Ha. rewrite <- (toF_fv a) at 2. unfold Finv, F1. rewrite <- toF_mul. apply toF_eq.
  rewrite Z.mul_comm. apply fermat_inverse; [apply p25519_prime|by apply F_zero_val].
Qed.

Lemma F_1_neq_0 : F1 ≠ F0.
Proof. intros [= H]. Qed.

Lemma F_field_theory : field_theory F0 F1 Fadd Fmul Fsub Fopp Fdiv Finv (@eq F).
Proof. split; [apply F_ring_theory|apply F_1_neq_0|done|apply F_inv_l]. Qed.

Add Field F_field : F_field_theory.

Declare Scope F_scope.
Delimit Scope F_scope with F.
Notation "0" := F0 : F_scope.
Notation "1" := F1 : F_scope.
Infix "+" := Fadd : F_scope.
Infix "-" := Fsub : F_scope.
Infix "*" := Fmul : F_scope.
Infix "/" := Fdiv : F_scope.
Notation "- x" := (Fopp x) : F_scope.
#[local] Open Scope F_scope.

Lemma F_integral (a b : F) : a * b = 0 → a = 0 ∨ b = 0.
Proof.
  intros H. destruct (decide (a = 0)) as [|Ha]; [by left|right].
  transitivity (Finv a * (a * b)); [by field|]. rewrite H. ring.
Qed.

Lemma F_mul_nonzero (a b : F) : a ≠ 0 → b ≠ 0 → a * b ≠ 0.
Proof. intros Ha Hb [?|?]%F_integral; done. Qed.

#[export] Instance F_ops : @Ncring.Ring_ops F F0 F1 Fadd Fmul Fsub Fopp (@eq F) := {}.
Lemma F_laws :
  (∀ x : F, x * 1 = x) ∧ (∀ x y z : F, (x + y) * z = x * z + y * z) ∧
  (∀ x y z : F, z * (x + y) = z * x + z * y).
Proof. split; [|split]; intros; ring. Qed.
#[export] Instance F_ring : Ncring.Ring (Ro := F_ops).
Proof.
  destruct F_ring_theory, F_laws as (M1 & Dr & Dl).
  split; try apply _; try done; repeat intro; by subst.
Qed.
#[export] Instance F_cring : Cring.Cring (Rr := F_ring).
Proof. exact (Rmul_comm F_ring_theory). Qed.
#[export] Instance F_domain : Integral_domain.Integral_domain (Rcr := F_cring).
Proof. split; [exact F_integral|exact F_1_neq_0]. Qed.

(** ** Squares *)

Definition Fpow (a : F) (n : Z) : F := toF (fv a ^ n).

Lemma fermat_F (a : F) : a ≠ 0 → Fpow a (p25519 - 1) = 1.
Proof. intros Ha. apply toF_eq, fermat_little; [apply p25519_prime|by apply F_zero_val]. Qed.

Lemma toF_pow x n : (0 ≤ n)%Z → Fpow (toF x) n = toF (x ^ n).
Proof. intros Hn. apply toF_eq, cong_pow; [done|apply fv_toF]. Qed.

Lemma Fpow_add (a : F) m n : (0 ≤ m)%Z → (0 ≤ n)%Z → Fpow a (m + n) = Fpow a m * Fpow a n.
Proof. intros. unfold Fpow. by rewrite <- toF_mul, Z.pow_add_r. Qed.

Lemma Fpow_mul (a : F) m n : (0 ≤ m)%Z → (0 ≤ n)%Z → Fpow a (m * n) = Fpow (Fpow a m) n.
Proof. intros. change (Fpow a m) with (toF (fv a ^ m)). rewrite toF_pow by done. unfold Fpow. by rewrite Z.pow_mul_r. Qed.

Lemma Fpow_1 (a : F) : Fpow a 1 = a.
Proof. unfold Fpow. rewrite Z.pow_1_r. apply toF_fv. Qed.

Lemma Fpow_2 (a : F) : Fpow a 2 = a * a.
Proof. change 2%Z with (1 + 1)%Z. by rewrite Fpow_add, Fpow_1 by done. Qed.

Lemma Fpow_4 (a : F) : Fpow a 4 = a * a * (a * a).
Proof. change 4%Z with (2 + 2)%Z. by rewrite Fpow_add, Fpow_2 by done. Qed.

(** Squaring [n] times, folding the bits from 255 on ([2^255 = 19]). *)
Definition fold255 (x : Z) : Z := (Z.land x (2 ^ 255 - 1) + 19 * Z.shiftr x 255)%Z.

Lemma fold255_spec x : cong p25519 (fold255 x) x.
Proof.
  unfold fold255. change (2 ^ 255 - 1)%Z with (Z.ones 255). rewrite Z.land_ones, Z.shiftr_div_pow2 by done.
  apply cong_divide; [done|]. exists (- (x / 2 ^ 255))%Z. unfold p25519.
  pose proof (Z.div_mod x (2 ^ 255) ltac:(done)). lia.
Qed.

Definition sqn (n : nat) (x : Z) : Z := Nat.iter n (λ y, fold255 (fold255 (y * y))) x.

Lemma sqn_spec n x : cong p25519 (sqn n x) (x ^ (2 ^ Z.of_nat n)).
Proof.
  induction n as [|n IH]; [unfold sqn; cbn [Nat.iter nat_rect]; by rewrite Z.pow_1_r|].
  change (sqn (S n) x) with (fold255 (fold255 (sqn n x * sqn n x))). rewrite !fold255_spec, IH.
  rewrite Nat2Z.inj_succ, Z.pow_succ_r, <- Z.pow_add_r by lia.
  by replace (2 * 2 ^ Z.of_nat n)%Z with (2 ^ Z.of_nat n + 2 ^ Z.of_nat n)%Z by lia.
Qed.

(** Euler's criterion, in the direction that refutes a square root:
    [(p - 1) / 2 = 2^254 - 10]. *)
Lemma not_square x :
  (sqn 254 x mod p25519 =? x ^ 10 mod p25519) = false →
  (x mod p25519 =? 0) = false → ∀ a : F, a * a ≠ toF x.
Proof.
  intros Hx%Z.eqb_neq Hnz%Z.eqb_neq a Ha.
  assert (Hnz' : a ≠ 0).
  { intros ->. assert (E : toF x = 0) by (rewrite <- Ha; ring). by apply toF_eq in E. }
  assert (Ep : (2 * 2 ^ 254 = (p25519 - 1) + 2 * 10)%Z) by done.
  assert (E : Fpow a (2 * 2 ^ 254) = Fpow (a * a) 10).
  { rewrite Ep, Fpow_add, fermat_F, (Fpow_mul a 2 10), Fpow_2 by done. ring. }
  rewrite Fpow_mul, Fpow_2, Ha, !toF_pow in E by done. apply toF_eq in E.
  apply Hx. change (cong p25519 (sqn 254 x) (x ^ 10)). rewrite sqn_spec. exact E.
Qed.
