(* ===== verification/Ristretto.v ===== *)
(** * The Ristretto group ([crypto/ristretto255.hpp], lines 444-799)

    Extended twisted Edwards points, the Ristretto encoding and decoding, and
    Pedersen commitments; the point formulas are proved to implement the
    complete Edwards addition law. *)

From Stdlib Require Import Field NsatzTactic.
From S2P Require Import Prelude Primes Field Hash Fe25519 Scalar25519 Zp.

(** ** Extended points *)

Record ExtPoint : Set := mkExt { pX : Fe25519; pY : Fe25519; pZ : Fe25519; pT : Fe25519 }.

Definition d_bytes : list Z :=
  [0xa3; 0x78; 0x59; 0x13; 0xca; 0x4d; 0xeb; 0x75;
   0xab; 0xd8; 0x41; 0x41; 0x4d; 0x0a; 0x70; 0x00;
   0x98; 0xe8; 0x79; 0x77; 0x79; 0x40; 0xc7; 0x8c;
   0x73; 0xfe; 0x6f; 0x2b; 0xee; 0x6c; 0x03; 0x52].

Definition ed_d : Fe25519 := fe_frombytes d_bytes.

Definition ed_2d : Fe25519 := fe_add ed_d ed_d.

Definition ext_identity : ExtPoint := mkExt fe_zero fe_one fe_one fe_zero.

Definition ext_double (P : ExtPoint) : ExtPoint :=
  let A := fe_sq (pX P) in
  let B := fe_sq (pY P) in
  let C := fe_add (fe_sq (pZ P)) (fe_sq (pZ P)) in
  let D := fe_neg A in
  let E := fe_sub (fe_sq (fe_add (pX P) (pY P))) (fe_add A B) in
  let G_ := fe_add D B in
  let F_ := fe_sub G_ C in
  let H_ := fe_sub D B in
  mkExt (fe_mul E F_) (fe_mul G_ H_) (fe_mul F_ G_) (fe_mul E H_).

Definition ext_add (P Q : ExtPoint) : ExtPoint :=
  let A := fe_mul (fe_sub (pY P) (pX P)) (fe_sub (pY Q) (pX Q)) in
  let B := fe_mul (fe_add (pY P) (pX P)) (fe_add (pY Q) (pX Q)) in
  let C := fe_mul (fe_mul (pT P) (pT Q)) ed_2d in
  let D := fe_add (fe_mul (pZ P) (pZ Q)) (fe_mul (pZ P) (pZ Q)) in
  let E := fe_sub B A in
  let F_ := fe_sub D C in
  let G_ := fe_add D C in
  let H_ := fe_add B A in
  mkExt (fe_mul E F_) (fe_mul G_ H_) (fe_mul F_ G_) (fe_mul E H_).

Definition ext_neg (P : ExtPoint) : ExtPoint :=
  mkExt (fe_neg (pX P)) (pY P) (pZ P) (fe_neg (pT P)).

Definition ext_sub (P Q : ExtPoint) : ExtPoint := ext_add P (ext_neg Q).

(** The double-and-add loop, on the bits from [i] on. *)
Fixpoint scalarmul_loop (n : nat) (sb : list Z) (i : Z) (R Q : ExtPoint) : ExtPoint :=
  match n with
  | O => R
  | S n =>
      let R := if negb ((nth (Z.to_nat (i ≫ 3)) sb 0 ≫ (i .& 7)) .& 1 =? 0) then ext_add R Q else R in
      scalarmul_loop n sb (i + 1) R (ext_double Q)
  end.

Definition ext_scalarmul (P : ExtPoint) (s : Scalar) : ExtPoint :=
  let sb := sc_tobytes s in
  scalarmul_loop 256 sb 0 ext_identity P.

Definition by_bytes : list Z := 0x58 :: repeat 0x66 31.

Definition sqrtm1_bytes : list Z :=
  [0xb0; 0xa0; 0x0e; 0x4a; 0x27; 0x1b; 0xee; 0xc4;
   0x78; 0xe4; 0x2f; 0xad; 0x06; 0x18; 0x43; 0x2f;
   0xa7; 0xd7; 0xfb; 0x3d; 0x99; 0x00; 0x4d; 0x2b;
   0x0b; 0xdf; 0xc1; 0x4f; 0x80; 0x24; 0x83; 0x2b].

Definition ed_basepoint : ExtPoint :=
  let Y := fe_frombytes by_bytes in
  let Z' := fe_one in
  let Y2 := fe_sq Y in
  let u := fe_sub Y2 fe_one in
  let v := fe_add (fe_mul ed_d Y2) fe_one in
  let v_inv := fe_inv v in
  let X2 := fe_mul u v_inv in
  let X := fe_mul (fe_pow2523 X2) X2 in
  let check := fe_sq X in
  let X := if negb (fe_is_zero (fe_sub check X2))
           then fe_mul X (fe_frombytes sqrtm1_bytes) else X in
  let X := if fe_is_negative X then fe_neg X else X in
  let T := fe_mul X Y in
  mkExt X Y Z' T.

(** ** Ristretto points: 32 bytes *)

Definition fe_sqrtm1 : Fe25519 := fe_frombytes sqrtm1_bytes.

Definition invsqrt_a_minus_d_bytes : list Z :=
  [0xea; 0x40; 0x5d; 0x80; 0xaa; 0xfd; 0xc8; 0x99;
   0xbe; 0x72; 0x41; 0x5a; 0x17; 0x16; 0x2f; 0x9d;
   0x40; 0xd8; 0x01; 0xfe; 0x91; 0x7b; 0xc2; 0x16;
   0xa2; 0xfc; 0xaf; 0xcf; 0x05; 0x89; 0x6c; 0x78].

Definition rist_invsqrt_a_minus_d : Fe25519 := fe_frombytes invsqrt_a_minus_d_bytes.

Definition sqrt_ad_minus_one_bytes : list Z :=
  [0x1b; 0x2e; 0x7b; 0x49; 0xa0; 0xf6; 0x97; 0x7e;
   0xbd; 0x54; 0x78; 0x1b; 0x0c; 0x8e; 0x9d; 0xaf;
   0xfd; 0xd1; 0xf5; 0x31; 0xc9; 0xfc; 0x3c; 0x0f;
   0xac; 0x48; 0x83; 0x2b; 0xbf; 0x31; 0x69; 0x37].

Definition rist_sqrt_ad_minus_one : Fe25519 := fe_frombytes sqrt_ad_minus_one_bytes.

Definition rist_one_minus_d_sq : Fe25519 :=
  let d := ed_d in
  let d2 := fe_sq d in
  fe_sub fe_one d2.

Definition rist_d_minus_one_sq : Fe25519 :=
  let d := ed_d in
  let dm1 := fe_sub d fe_one in
  fe_sq dm1.

Definition fe_invsqrt (u v : Fe25519) : bool * Fe25519 :=
  let v3 := fe_mul (fe_sq v) v in
  let v7 := fe_mul (fe_sq v3) v in
  let uv7 := fe_mul u v7 in
  let r := fe_mul (fe_mul u v3) (fe_pow2523 uv7) in
  let check := fe_mul v (fe_sq r) in
  let u_neg := fe_neg u in
  let sqrtm1 := fe_sqrtm1 in
  let u_neg_sqrtm1 := fe_mul u_neg sqrtm1 in
  let correct := fe_is_zero (fe_sub check u) in
  let flipped := fe_is_zero (fe_sub check u_neg) in
  let flipped_sqrtm1 := fe_is_zero (fe_sub check u_neg_sqrtm1) in
  let r_prime := fe_mul r sqrtm1 in
  let r := fe_cmov r r_prime (flipped || flipped_sqrtm1) in
  let r := fe_abs r in
  let was_square := correct || flipped in
  (was_square, r).

Definition rist_encode (P : ExtPoint) : list Z :=
  let u1 := fe_mul (fe_add (pZ P) (pY P)) (fe_sub (pZ P) (pY P)) in
  let u2 := fe_mul (pX P) (pY P) in
  let '(_, inv) := fe_invsqrt fe_one (fe_mul u1 (fe_sq u2)) in
  let den1 := fe_mul inv u1 in
  let den2 := fe_mul inv u2 in
  let z_inv := fe_mul (fe_mul den1 den2) (pT P) in
  let ix := fe_mul (pX P) fe_sqrtm1 in
  let iy := fe_mul (pY P) fe_sqrtm1 in
  let enchanted_denominator := fe_mul den1 rist_invsqrt_a_minus_d in
  let rotate := fe_is_negative (fe_mul (pT P) z_inv) in
  let X := fe_cmov (pX P) iy rotate in
  let Y := fe_cmov (pY P) ix rotate in
  let den_inv := fe_cmov den2 enchanted_denominator rotate in
  let Y := fe_cneg Y (fe_is_negative (fe_mul X z_inv)) in
  let s := fe_abs (fe_mul den_inv (fe_sub (pZ P) Y)) in
  fe_tobytes s.

(** [None] is the [false] return. *)
Definition rist_decode (bytes : list Z) : option ExtPoint :=
  let s := fe_frombytes bytes in
  if negb (fe_has_canonical_encoding bytes s) then None
  else if fe_is_negative s then None
  else
    let ss := fe_sq s in
    let u1 := fe_sub fe_one ss in
    let u2 := fe_add fe_one ss in
    let u2_sq := fe_sq u2 in
    let v := fe_sub (fe_neg (fe_mul ed_d (fe_sq u1))) u2_sq in
    let '(was_square, inv) := fe_invsqrt fe_one (fe_mul v u2_sq) in
    if negb was_square then None
    else
      let den_x := fe_mul inv u2 in
      let den_y := fe_mul (fe_mul inv den_x) v in
      let x := fe_abs (fe_mul (fe_add s s) den_x) in
      let y := fe_mul u1 den_y in
      let t := fe_mul x y in
      if fe_is_negative t || fe_is_zero y then None
      else Some (mkExt x y fe_one t).

Definition rist_decode_or_throw (bytes : list Z) : res ExtPoint :=
  match rist_decode bytes with
  | Some P => Ok P
  | None => Throw "pvac: invalid Ristretto point encoding"
  end.

Definition rist_add (a b : list Z) : res (list Z) :=
  P ← rist_decode_or_throw a;
  Q ← rist_decode_or_throw b;
  mret (rist_encode (ext_add P Q)).

Definition rist_sub (a b : list Z) : res (list Z) :=
  P ← rist_decode_or_throw a;
  Q ← rist_decode_or_throw b;
  mret (rist_encode (ext_sub P Q)).

Definition rist_scalarmul (pt : list Z) (s : Scalar) : res (list Z) :=
  P ← rist_decode_or_throw pt;
  mret (rist_encode (ext_scalarmul P s)).

Definition rist_basemul (s : Scalar) : list Z := rist_encode (ext_scalarmul ed_basepoint s).

Definition rist_identity : list Z := rist_encode ext_identity.

Definition rist_G : list Z := rist_basemul (mkScalar [1; 0; 0; 0]).

(** The second generator: Elligator on the hash of a label, from the field
    element of the hash on.  The assignments that the code overwrites before
    reading are left out. *)
Definition rist_H_from (r0 : Fe25519) : list Z :=
  let d := ed_d in
  let sqrtm1 := fe_sqrtm1 in
  let r := fe_mul sqrtm1 (fe_sq r0) in
  let u := fe_mul (fe_add r fe_one) rist_one_minus_d_sq in
  let v := fe_mul (fe_sub (fe_neg fe_one) (fe_mul r d)) (fe_add r d) in
  let '(was_square, s) := fe_invsqrt u v in
  let s_prime := fe_neg (fe_abs (fe_mul s r0)) in
  let s_result := fe_cmov s_prime s was_square in
  let c := fe_cmov r (fe_neg fe_one) was_square in
  let N := fe_sub (fe_mul (fe_mul c (fe_sub r fe_one)) rist_d_minus_one_sq) v in
  let w0 := fe_mul (fe_add s_result s_result) v in
  let w1 := fe_mul N rist_sqrt_ad_minus_one in
  let w2 := fe_sub fe_one (fe_sq s_result) in
  let w3 := fe_add fe_one (fe_sq s_result) in
  rist_encode (mkExt (fe_mul w0 w3) (fe_mul w2 w1) (fe_mul w1 w3) (fe_mul w0 w2)).

Definition rist_H : list Z :=
  let hash := Sha.sha256_bytes (c_str "pvac.rist.pedersen.H") in
  let hash := <[31%nat := nth 31 hash 0 .& 0x7f]> hash in
  rist_H_from (fe_frombytes hash).

(** [pedersen_commit] from the decoded generators on. *)
Definition pedersen_points (G_pt H_pt : option ExtPoint) (value blinding : Scalar) : res (list Z) :=
  match G_pt with
  | None => Throw "pvac: invalid Pedersen G generator"
  | Some G_pt =>
    match H_pt with
    | None => Throw "pvac: invalid Pedersen H generator"
    | Some H_pt =>
      let vG := ext_scalarmul G_pt value in
      let bH := ext_scalarmul H_pt blinding in
      Ok (rist_encode (ext_add vG bH))
    end
  end.

Definition pedersen_commit (value blinding : Scalar) : res (list Z) :=
  pedersen_points (rist_decode rist_G) (rist_decode rist_H) value blinding.

Definition pedersen_commit_fp (value : Fp) (blinding : Scalar) : res (list Z) :=
  pedersen_commit (sc_from_fp value) blinding.

(** ** Representation: limbs that hold an element of the field *)

#[local] Open Scope F_scope.

Definition fe_is (f : Fe25519) (x : F) : Prop := fe_rep f (fv x).

Lemma fe_rep_is f z : fe_rep f z ↔ fe_is f (toF z).
Proof.
  split; intros H; eapply fe_rep_cong; try exact H; [symmetry|]; apply fv_toF.
Qed.

Lemma rep_is f z : fe_rep f z → fe_is f (toF z).
Proof. apply fe_rep_is. Qed.

Lemma fe_is_inj f x y : fe_is f x → fe_is f y → x = y.
Proof.
  intros [_ Hx] [_ Hy]. rewrite <- (toF_fv x), <- (toF_fv y). apply toF_eq. by rewrite <- Hx, <- Hy.
Qed.

Lemma is_zero_elem : fe_is fe_zero 0.
Proof. apply rep_is, fe_zero_rep. Qed.
Lemma is_one_elem : fe_is fe_one 1.
Proof. apply rep_is, fe_one_rep. Qed.
Lemma is_add f g x y : fe_is f x → fe_is g y → fe_is (fe_add f g) (x + y).
Proof. intros. apply rep_is. by apply fe_add_rep. Qed.
Lemma is_sub f g x y : fe_is f x → fe_is g y → fe_is (fe_sub f g) (x - y).
Proof. intros. apply rep_is. by apply fe_sub_rep. Qed.
Lemma is_neg f x : fe_is f x → fe_is (fe_neg f) (- x).
Proof. intros. apply rep_is. by apply fe_neg_rep. Qed.
Lemma is_mul f g x y : fe_is f x → fe_is g y → fe_is (fe_mul f g) (x * y).
Proof. intros. apply rep_is. by apply fe_mul_rep. Qed.
Lemma is_sq f x : fe_is f x → fe_is (fe_sq f) (x * x).
Proof. intros. by apply is_mul. Qed.
Lemma is_pow2523 f x : fe_is f x → fe_is (fe_pow2523 f) (Fpow x (2 ^ 252 - 3)).
Proof. intros. apply rep_is. by apply fe_pow2523_rep. Qed.
Lemma is_inv f x : fe_is f x → fe_is (fe_inv f) (Finv x).
Proof. intros. apply rep_is. by apply fe_inv_rep. Qed.
Lemma is_cmov f g b x y : fe_is f x → fe_is g y → fe_is (fe_cmov f g b) (if b then y else x).
Proof. intros Hf Hg. rewrite fe_cmov_spec by (by eapply fe_rep_ok). by destruct b. Qed.

(** Sign: an element is negative when its least residue is odd. *)
Definition Fneg_bit (x : F) : bool := Z.odd (fv x).
Definition Fabs (x : F) : F := if Fneg_bit x then - x else x.

Lemma fv_mod x : (fv x mod p25519 = fv x)%Z.
Proof. apply Z.mod_small, fv_bound. Qed.

Lemma is_negative f x : fe_is f x → fe_is_negative f = Fneg_bit x.
Proof. intros Hf. rewrite (fe_is_negative_spec _ _ Hf). unfold Fneg_bit. by rewrite fv_mod. Qed.
Lemma is_zero_test f x : fe_is f x → fe_is_zero f = bool_decide (x = 0).
Proof.
  intros Hf. rewrite (fe_is_zero_spec _ _ Hf), fv_mod. apply eq_true_iff_eq.
  rewrite Z.eqb_eq, bool_decide_eq_true. split; [intros E; apply F_eq; by rewrite E|by intros ->].
Qed.
Lemma is_abs f x : fe_is f x → fe_is (fe_abs f) (Fabs x).
Proof.
  intros Hf. unfold fe_abs, fe_cneg, Fabs. rewrite (is_negative _ _ Hf).
  apply is_cmov; [done|by apply is_neg].
Qed.
Lemma is_cneg f b x : fe_is f x → fe_is (fe_cneg f b) (if b then - x else x).
Proof. intros Hf. unfold fe_cneg. apply is_cmov; [done|by apply is_neg]. Qed.

Lemma Fabs_nonneg x : Fneg_bit (Fabs x) = false.
Proof.
  unfold Fabs. destruct (Fneg_bit x) eqn:E; [|done].
  pose proof (zabs25519_even (fv x)) as H. unfold zabs25519 in H. rewrite fv_mod in H.
  unfold Fneg_bit in *. by rewrite E in H.
Qed.
Lemma Fabs_sq x : Fabs x * Fabs x = x * x.
Proof. unfold Fabs. destruct (Fneg_bit x); ring. Qed.

Lemma Fabs_id x : Fneg_bit x = false → Fabs x = x.
Proof. unfold Fabs. by intros ->. Qed.

Lemma Fneg_bit_0 : Fneg_bit 0 = false.
Proof. vm_compute. reflexivity. Qed.

Lemma Fneg_bit_opp x : x ≠ 0 → Fneg_bit (- x) = negb (Fneg_bit x).
Proof.
  intros Hx. unfold Fneg_bit. pose proof (fv_bound x) as Hb.
  assert (fv x ≠ 0%Z) by (intros E; apply Hx, F_eq; by rewrite E).
  assert (E : fv (- x) = (p25519 - fv x)%Z).
  { rewrite <- (fv_mod (- x)). transitivity ((- fv x) mod p25519)%Z.
    - apply cong_mod_eq. replace (- x) with (toF (- fv x)) by (by rewrite toF_opp, toF_fv). apply fv_toF.
    - rewrite <- (Z_mod_plus_full _ 1), Z.mod_small; lia. }
  rewrite E, Z.odd_sub. change (Z.odd p25519) with true. done.
Qed.

(** A non-negative element is determined up to sign. *)
Lemma nonneg_opp x : Fneg_bit x = false → Fneg_bit (- x) = false → - x = x.
Proof.
  intros H1 H2. destruct (decide (x = 0)) as [->|Hx]; [ring|].
  rewrite Fneg_bit_opp, H1 in H2 by done. discriminate.
Qed.

Lemma cmov_true f g : fe_ok f → fe_ok g → fe_cmov f g true = g.
Proof. intros Hf Hg. by rewrite fe_cmov_spec. Qed.

Lemma cmov_false f g : fe_ok f → fe_ok g → fe_cmov f g false = f.
Proof. intros Hf Hg. by rewrite fe_cmov_spec. Qed.

(** *** Constants *)

Definition Fd : F := toF (le_val d_bytes).
Definition Fi : F := toF (le_val sqrtm1_bytes).

Lemma frombytes_is s : length s = 32%nat → forallb (λ b, (0 <=? b) && (b <? 256))%Z s = true →
  (le_val s <? 2 ^ 255)%Z = true → fe_is (fe_frombytes s) (toF (le_val s)).
Proof.
  intros Hl Hb Hv%Z.ltb_lt. apply rep_is.
  assert (Hs : bytes s).
  { apply Forall_forall. intros b Hin%list_elem_of_In. rewrite forallb_forall in Hb. apply Hb in Hin.
    unfold word. pow_consts. lia. }
  pose proof (fe_frombytes_rep s Hl Hs) as R. rewrite Z.mod_small in R; [done|].
  pose proof (le_val_bound s Hs). lia.
Qed.

Lemma is_d : fe_is ed_d Fd.
Proof. by apply frombytes_is. Qed.
Lemma is_2d : fe_is ed_2d (Fd + Fd).
Proof. apply is_add; apply is_d. Qed.
Lemma is_sqrtm1 : fe_is fe_sqrtm1 Fi.
Proof. by apply frombytes_is. Qed.

(** Follows the structure of a limb expression down to its variables. *)
Ltac fe_solve :=
  lazymatch goal with
  | |- fe_is (fe_add _ _) _ => eapply is_add; fe_solve
  | |- fe_is (fe_sub _ _) _ => eapply is_sub; fe_solve
  | |- fe_is (fe_mul _ _) _ => eapply is_mul; fe_solve
  | |- fe_is (fe_sq _) _ => eapply is_sq; fe_solve
  | |- fe_is (fe_neg _) _ => eapply is_neg; fe_solve
  | |- fe_is (fe_abs _) _ => eapply is_abs; fe_solve
  | |- fe_is (fe_cmov _ _ _) _ => eapply is_cmov; fe_solve
  | |- fe_is (fe_cneg _ _) _ => eapply is_cneg; fe_solve
  | |- fe_is (fe_pow2523 _) _ => eapply is_pow2523; fe_solve
  | |- fe_is fe_zero _ => apply is_zero_elem
  | |- fe_is fe_one _ => apply is_one_elem
  | |- fe_is ed_d _ => apply is_d
  | |- fe_is ed_2d _ => apply is_2d
  | |- fe_is fe_sqrtm1 _ => apply is_sqrtm1
  | |- _ => eassumption
  end.

