(* ===== verification/Edwards.v ===== *)
(** * The group of the twisted Edwards curve

    The curve [-x^2 + y^2 = 1 + d x^2 y^2] over the field of order
    [2^255 - 19] that [crypto/ristretto255.hpp] computes on: its addition law
    is complete (no denominator vanishes on the curve) and makes the points an
    abelian group; double-and-add is scalar multiplication. *)

From Stdlib Require Import Field NsatzTactic.
From S2P Require Import Prelude Primes Field Hash Fe25519 Scalar25519 Zp Ristretto.

#[local] Open Scope F_scope.

Lemma Fi_sq : Fi * Fi = - (1).
Proof. apply F_eq. vm_compute. reflexivity. Qed.
Lemma Fd_not_square x : x * x ≠ Fd.
Proof. apply not_square; vm_compute; reflexivity. Qed.
Lemma F_2_neq_0 : 1 + 1 ≠ 0.
Proof. intros E%(f_equal fv). vm_compute in E. discriminate. Qed.
(** There are no eighth roots of unity beyond the fourth: [p - 1 = 8 k + 4]. *)
Lemma Fi_not_square x : x * x ≠ Fi.
Proof.
  intros E. assert (E4 : x * x * (x * x) = - (1)) by (rewrite E; apply Fi_sq).
  assert (Hx : x ≠ 0) by (intros ->; apply F_1_neq_0; transitivity (- - (1)); [ring|rewrite <- E4; ring]).
  assert (H1 : ∀ k, (0 ≤ k)%Z → Fpow 1 k = 1)
    by (intros k Hk; change 1 with (toF 1); rewrite toF_pow, Z.pow_1_l by done; done).
  pose proof (fermat_F x Hx) as Hf.
  assert (Ep : ∃ k, (0 ≤ k ∧ p25519 - 1 = 4 * (2 * k) + 4)%Z)
    by (exists ((p25519 - 5) / 8)%Z; vm_compute; split; [discriminate|reflexivity]).
  destruct Ep as (k & Hk & Ep).
  rewrite Ep, Fpow_add, (Fpow_mul x 4), (Fpow_mul _ 2), Fpow_4, E4, Fpow_2 in Hf by lia.
  replace (- (1) * - (1)) with 1 in Hf by ring. rewrite H1 in Hf by lia.
  apply F_2_neq_0. rewrite <- Hf at 1. ring.
Qed.
Lemma Fi_neq_0 : Fi ≠ 0.
Proof. intros E%(f_equal fv). vm_compute in E. discriminate. Qed.

#[local] Opaque toF Fadd Fmul Fsub Fopp Finv Fdiv Fpow F0 F1 Fd Fi.

(** ** The curve [-x^2 + y^2 = 1 + d x^2 y^2] and its addition law *)

Definition on_curve (x y : F) : Prop := y * y - x * x = 1 + Fd * x * x * y * y.

Definition ed_add (P Q : F * F) : F * F :=
  let '(x1, y1) := P in let '(x2, y2) := Q in
  let k := Fd * x1 * x2 * y1 * y2 in
  ((x1 * y2 + y1 * x2) / (1 + k), (y1 * y2 + x1 * x2) / (1 - k)).

Definition ed_neg (P : F * F) : F * F := (- fst P, snd P).

(** A quotient of squares is a square. *)
Lemma no_quotient a b : b ≠ 0 → a * a = Fd * (b * b) → False.
Proof. 
  intros Hb E. apply (Fd_not_square (a / b)).
  transitivity ((a * a) / (b * b)); [by field|]. rewrite E. by field.
Qed.

(** Completeness: the denominators of the addition law never vanish. *)
Lemma denominator_nonzero x1 y1 x2 y2 : on_curve x1 y1 → on_curve x2 y2 →
  (Fd * x1 * x2 * y1 * y2) * (Fd * x1 * x2 * y1 * y2) ≠ 1.
Proof.
  intros H1 H2 Hk. set (k := Fd * x1 * x2 * y1 * y2) in *.
  assert (Hx1 : x1 ≠ 0) by (intros ->; apply F_1_neq_0; rewrite <- Hk; unfold k; ring).
  assert (Hy1 : y1 ≠ 0) by (intros ->; apply F_1_neq_0; rewrite <- Hk; unfold k; ring).
  assert (Hx2 : x2 ≠ 0) by (intros ->; apply F_1_neq_0; rewrite <- Hk; unfold k; ring).
  pose proof Fi_sq as Hi. unfold on_curve in *.
  destruct (decide (Fi * x2 + y2 = 0)) as [E|E].
  - destruct (decide (Fi * x2 - y2 = 0)) as [E'|E'].
    + assert (E2 : (1 + 1) * (Fi * x2) = 0)
        by (transitivity ((Fi * x2 + y2) + (Fi * x2 - y2)); [ring|rewrite E, E'; ring]).
      destruct (F_integral _ _ E2) as [E3|E3]; [exact (F_2_neq_0 E3)|].
      destruct (F_integral _ _ E3) as [E4|E4]; [exact (Fi_neq_0 E4)|exact (Hx2 E4)].
    + apply (no_quotient (Fi * x1 - k * y1) (x1 * y1 * (Fi * x2 - y2)));
        [by repeat apply F_mul_nonzero|].
      unfold k in *. clear k E E'. generalize dependent Fi. generalize dependent Fd. intros. nsatz.
  - apply (no_quotient (Fi * x1 + k * y1) (x1 * y1 * (Fi * x2 + y2)));
      [by repeat apply F_mul_nonzero|].
    unfold k in *. clear k E. generalize dependent Fi. generalize dependent Fd. intros. nsatz.
Qed.

Lemma nz_1_plus k : k * k ≠ 1 → 1 + k ≠ 0.
Proof. intros Hk E. apply Hk. nsatz. Qed.
Lemma nz_1_minus k : k * k ≠ 1 → 1 - k ≠ 0.
Proof. intros Hk E. apply Hk. nsatz. Qed.

(** The sum of two points of the curve is on the curve. *)
Lemma ed_add_curve x1 y1 x2 y2 : on_curve x1 y1 → on_curve x2 y2 →
  let '(x3, y3) := ed_add (x1, y1) (x2, y2) in on_curve x3 y3.
Proof.
  intros H1 H2. pose proof (denominator_nonzero _ _ _ _ H1 H2) as Hk.
  pose proof (nz_1_plus _ Hk) as Hp. pose proof (nz_1_minus _ Hk) as Hm. clear Hk.
  cbn [ed_add]. set (k := Fd * x1 * x2 * y1 * y2) in *.
  set (x3 := (x1 * y2 + y1 * x2) / (1 + k)). set (y3 := (y1 * y2 + x1 * x2) / (1 - k)).
  assert (Ex : x3 * (1 + k) = x1 * y2 + y1 * x2) by (unfold x3; by field).
  assert (Ey : y3 * (1 - k) = y1 * y2 + x1 * x2) by (unfold y3; by field).
  clearbody x3 y3. unfold on_curve in *.
  assert (G : ((1 + k) * (1 - k)) * ((1 + k) * (1 - k)) * (y3 * y3 - x3 * x3 - (1 + Fd * x3 * x3 * y3 * y3)) = 0).
  { unfold k in *. generalize dependent Fd. intros d; intros.
    transitivity ((y3 * (1 - d * x1 * x2 * y1 * y2)) * (y3 * (1 - d * x1 * x2 * y1 * y2)) 
       * ((1 + d * x1 * x2 * y1 * y2) * (1 + d * x1 * x2 * y1 * y2))
     - (x3 * (1 + d * x1 * x2 * y1 * y2)) * (x3 * (1 + d * x1 * x2 * y1 * y2))
       * ((1 - d * x1 * x2 * y1 * y2) * (1 - d * x1 * x2 * y1 * y2))
     - ((1 + d * x1 * x2 * y1 * y2) * (1 - d * x1 * x2 * y1 * y2)) * ((1 + d * x1 * x2 * y1 * y2) * (1 - d * x1 * x2 * y1 * y2))
     - d * ((x3 * (1 + d * x1 * x2 * y1 * y2)) * (x3 * (1 + d * x1 * x2 * y1 * y2))
           * ((y3 * (1 - d * x1 * x2 * y1 * y2)) * (y3 * (1 - d * x1 * x2 * y1 * y2))))); [ring|].
    rewrite Ex, Ey. clear Ex Ey Hp Hm x3 y3 k. nsatz. }
  destruct (F_integral _ _ G) as [E|E].
  - exfalso. by revert E; repeat apply F_mul_nonzero.
  - transitivity (y3 * y3 - x3 * x3 - (1 + Fd * x3 * x3 * y3 * y3) + (1 + Fd * x3 * x3 * y3 * y3));
      [ring|rewrite E; ring].
Qed.

Ltac nonzero := repeat first [assumption|apply F_mul_nonzero].


(** ** The group of the curve *)

Lemma F_div_eq a b c d : b ≠ 0 → d ≠ 0 → a * d = c * b → a / b = c / d.
Proof.
  intros Hb Hd E. transitivity ((a * d) / (b * d)); [by field|]. rewrite E. by field.
Qed.

Definition curve (P : F * F) : Prop := on_curve (fst P) (snd P).

Lemma ed_add_closed P Q : curve P → curve Q → curve (ed_add P Q).
Proof.
  destruct P as [x1 y1], Q as [x2 y2]. intros H1 H2. pose proof (ed_add_curve x1 y1 x2 y2 H1 H2) as H.
  unfold curve. by destruct (ed_add (x1, y1) (x2, y2)).
Qed.

Lemma zero_curve : curve (0, 1).
Proof. unfold curve, on_curve. cbn [fst snd]. ring. Qed.

Lemma ed_neg_closed P : curve P → curve (ed_neg P).
Proof.
  destruct P as [x y]. unfold curve, ed_neg, on_curve. cbn [fst snd]. intros H.
  transitivity (y * y - x * x); [ring|rewrite H; ring].
Qed.

Lemma ed_add_comm P Q : ed_add P Q = ed_add Q P.
Proof.
  destruct P as [x1 y1], Q as [x2 y2]. cbn [ed_add].
  replace (Fd * x2 * x1 * y2 * y1) with (Fd * x1 * x2 * y1 * y2) by ring.
  f_equal; f_equal; ring.
Qed.

Lemma ed_add_0_l P : ed_add (0, 1) P = P.
Proof.
  destruct P as [x y]. cbn [ed_add]. pose proof F_1_neq_0.
  replace (1 + Fd * 0 * x * 1 * y) with 1 by ring. replace (1 - Fd * 0 * x * 1 * y) with 1 by ring.
  f_equal; by field.
Qed.

Lemma ed_add_neg_r P : curve P → ed_add P (ed_neg P) = (0, 1).
Proof.
  destruct P as [x y]. intros H. pose proof (ed_neg_closed _ H) as H'.
  pose proof (denominator_nonzero _ _ _ _ H H') as Hk. unfold curve, ed_neg in *. cbn [fst snd ed_add] in *.
  pose proof (nz_1_plus _ Hk) as Hp. pose proof (nz_1_minus _ Hk) as Hm. clear Hk. unfold on_curve in *.
  f_equal.
  - transitivity (0 / 1); [|by field; apply F_1_neq_0]. apply F_div_eq; [done|apply F_1_neq_0|ring].
  - transitivity (1 / 1); [|by field; apply F_1_neq_0]. apply F_div_eq; [done|apply F_1_neq_0|].
    transitivity (y * y - x * x); [ring|]. rewrite H. ring.
Qed.

Lemma F_neg_div a b : - (a / b) = (- a) / b.
Proof. change (a / b) with (a * Finv b). change (- a / b) with (- a * Finv b). ring. Qed.

Lemma ed_neg_add P Q : ed_neg (ed_add P Q) = ed_add (ed_neg P) (ed_neg Q).
Proof.
  destruct P as [x1 y1], Q as [x2 y2]. unfold ed_neg. cbn [fst snd ed_add].
  replace (Fd * - x1 * - x2 * y1 * y2) with (Fd * x1 * x2 * y1 * y2) by ring.
  f_equal; [|f_equal; ring].
  rewrite (F_neg_div (_ + _)). f_equal. ring.
Qed.

(** Both sums of three points as quotients. *)
Lemma triple_x d x1 y1 x2 y2 x3 y3 :
  y1 * y1 - x1 * x1 = 1 + d * x1 * x1 * y1 * y1 →
  y2 * y2 - x2 * x2 = 1 + d * x2 * x2 * y2 * y2 →
  y3 * y3 - x3 * x3 = 1 + d * x3 * x3 * y3 * y3 →
  let k := d * x1 * x2 * y1 * y2 in let m := d * x2 * x3 * y2 * y3 in
  let nx := x1 * y2 + y1 * x2 in let ny := y1 * y2 + x1 * x2 in
  let mx := x2 * y3 + y2 * x3 in let my := y2 * y3 + x2 * x3 in
  (nx * (1 - k) * y3 + ny * (1 + k) * x3) * ((1 + m) * (1 - m) + d * x1 * mx * y1 * my) =
  (x1 * my * (1 + m) + y1 * mx * (1 - m)) * ((1 + k) * (1 - k) + d * nx * x3 * ny * y3).
Proof. intros. subst k m nx ny mx my. nsatz. Qed.

Lemma triple_y d x1 y1 x2 y2 x3 y3 :
  y1 * y1 - x1 * x1 = 1 + d * x1 * x1 * y1 * y1 →
  y2 * y2 - x2 * x2 = 1 + d * x2 * x2 * y2 * y2 →
  y3 * y3 - x3 * x3 = 1 + d * x3 * x3 * y3 * y3 →
  let k := d * x1 * x2 * y1 * y2 in let m := d * x2 * x3 * y2 * y3 in
  let nx := x1 * y2 + y1 * x2 in let ny := y1 * y2 + x1 * x2 in
  let mx := x2 * y3 + y2 * x3 in let my := y2 * y3 + x2 * x3 in
  (ny * (1 + k) * y3 + nx * (1 - k) * x3) * ((1 + m) * (1 - m) - d * x1 * mx * y1 * my) =
  (y1 * my * (1 + m) + x1 * mx * (1 - m)) * ((1 + k) * (1 - k) - d * nx * x3 * ny * y3).
Proof. intros. subst k m nx ny mx my. nsatz. Qed.

(** A sum whose left operand is itself a pair of quotients. *)
Lemma add_quotients a p b q x y : p ≠ 0 → q ≠ 0 →
  (Fd * (a / p) * x * (b / q) * y) * (Fd * (a / p) * x * (b / q) * y) ≠ 1 →
  p * q + Fd * a * x * b * y ≠ 0 ∧ p * q - Fd * a * x * b * y ≠ 0 ∧
  ed_add (a / p, b / q) (x, y) =
    ((a * q * y + b * p * x) / (p * q + Fd * a * x * b * y),
     (b * p * y + a * q * x) / (p * q - Fd * a * x * b * y)).
Proof.
  intros Hp Hq Hk. pose proof (nz_1_plus _ Hk) as N1. pose proof (nz_1_minus _ Hk) as N2.
  assert (E1 : p * q + Fd * a * x * b * y = p * q * (1 + Fd * (a / p) * x * (b / q) * y)) by (by field).
  assert (E2 : p * q - Fd * a * x * b * y = p * q * (1 - Fd * (a / p) * x * (b / q) * y)) by (by field).
  split; [rewrite E1; nonzero|]. split; [rewrite E2; nonzero|].
  cbn [ed_add]. rewrite E1, E2. clear E1 E2 Hk.
  generalize dependent (1 + Fd * (a / p) * x * (b / q) * y).
  generalize dependent (1 - Fd * (a / p) * x * (b / q) * y). intros n2 N2 n1 N1.
  f_equal; field; auto.
Qed.

Lemma ed_add_assoc P Q R : curve P → curve Q → curve R →
  ed_add (ed_add P Q) R = ed_add P (ed_add Q R).
Proof.
  destruct P as [x1 y1], Q as [x2 y2], R as [x3 y3]. intros H1 H2 H3.
  pose proof (ed_add_closed _ _ H1 H2) as H12. pose proof (ed_add_closed _ _ H2 H3) as H23.
  pose proof (denominator_nonzero _ _ _ _ H1 H2) as K12. pose proof (denominator_nonzero _ _ _ _ H2 H3) as K23.
  pose proof (denominator_nonzero _ _ _ _ H12 H3) as K1. pose proof (denominator_nonzero _ _ _ _ H23 H1) as K2.
  rewrite (ed_add_comm (x1, y1) (ed_add _ _)). cbn [ed_add fst snd] in *.
  pose proof (nz_1_plus _ K12) as Np. pose proof (nz_1_minus _ K12) as Nm.
  pose proof (nz_1_plus _ K23) as Mp. pose proof (nz_1_minus _ K23) as Mm.
  destruct (add_quotients _ _ _ _ _ _ Np Nm K1) as (D1 & D2 & E1).
  destruct (add_quotients _ _ _ _ _ _ Mp Mm K2) as (D3 & D4 & E2).
  cbn [ed_add] in E1, E2. rewrite E1, E2. clear E1 E2 K1 K2 K12 K23 H12 H23.
  unfold curve, on_curve in H1, H2, H3. cbn [fst snd] in *.
  f_equal; apply F_div_eq; try assumption.
  - pose proof (triple_x Fd x1 y1 x2 y2 x3 y3 H1 H2 H3) as T. cbv zeta in T.
    etransitivity; [|etransitivity; [exact T|]]; ring.
  - pose proof (triple_y Fd x1 y1 x2 y2 x3 y3 H1 H2 H3) as T. cbv zeta in T.
    etransitivity; [|etransitivity; [exact T|]]; ring.
Qed.
(** *** Scalar multiplication: double-and-add on the curve *)

Fixpoint ed_bits (n : nat) (s : Z) (R Q : F * F) : F * F :=
  match n with
  | O => R
  | S n => ed_bits n (s / 2) (if Z.odd s then ed_add R Q else R) (ed_add Q Q)
  end.

(** The sum of the points [2^i Q] over the one bits of [s], from the lowest on. *)
Definition ed_scalarmul (s : Z) (Q : F * F) : F * F := ed_bits 256 s (0, 1) Q.


(** [n] times a point. *)
Definition ed_times (n : nat) (Q : F * F) : F * F := Nat.iter n (ed_add Q) (0, 1).

Lemma ed_times_S n Q : ed_times (S n) Q = ed_add Q (ed_times n Q).
Proof. done. Qed.

Lemma ed_times_closed n Q : curve Q → curve (ed_times n Q).
Proof.
  intros H. induction n; [apply zero_curve|]. rewrite ed_times_S. by apply ed_add_closed.
Qed.

Lemma ed_times_add m n Q : curve Q → ed_times (m + n) Q = ed_add (ed_times m Q) (ed_times n Q).
Proof.
  intros H. induction m as [|m IH]; [symmetry; apply ed_add_0_l|].
  cbn [Nat.add]. rewrite !ed_times_S, IH. symmetry.
  by apply ed_add_assoc; [|apply ed_times_closed..].
Qed.

Lemma ed_times_double n Q : curve Q → ed_times n (ed_add Q Q) = ed_times (n + n) Q.
Proof.
  intros H. induction n as [|n IH]; [done|]. rewrite ed_times_S, IH.
  replace (S n + S n)%nat with (2 + (n + n))%nat by lia. rewrite (ed_times_add 2) by done.
  f_equal. rewrite !ed_times_S. f_equal. symmetry. rewrite ed_add_comm. apply ed_add_0_l.
Qed.

Lemma ed_times_opp n Q : curve Q → ed_times n (ed_neg Q) = ed_neg (ed_times n Q).
Proof.
  intros H. induction n as [|n IH]; [unfold ed_neg; cbn; f_equal; ring|].
  rewrite !ed_times_S, IH. symmetry. apply ed_neg_add.
Qed.

(** Double-and-add on [n] bits of the scalar adds that many times the point. *)
Lemma ed_bits_times n s R Q : curve R → curve Q → (0 ≤ s < 2 ^ Z.of_nat n)%Z →
  ed_bits n s R Q = ed_add R (ed_times (Z.to_nat s) Q).
Proof.
  revert s R Q. induction n as [|n IH]; intros s R Q HR HQ Hs.
  { change (2 ^ Z.of_nat 0)%Z with 1%Z in Hs. assert (s = 0)%Z as -> by lia.
    rewrite ed_add_comm. symmetry. apply ed_add_0_l. }
  rewrite Nat2Z.inj_succ, Z.pow_succ_r in Hs by lia. cbn [ed_bits].
  assert (HQ2 : curve (ed_add Q Q)) by (by apply ed_add_closed).
  assert (Hb : (s = 2 * (s / 2) + (if Z.odd s then 1 else 0))%Z)
    by (rewrite <- (Zmod_odd s); lia).
  rewrite IH; [| destruct (Z.odd s); [by apply ed_add_closed|done] | done | lia].
  rewrite ed_times_double by done. set (h := (s / 2)%Z) in *. clearbody h.
  destruct (Z.odd s).
  - replace (Z.to_nat s) with (1 + (Z.to_nat h + Z.to_nat h))%nat by lia.
    rewrite (ed_times_add 1), ed_times_S by done.
    rewrite (ed_add_comm Q (ed_times 0 Q)). unfold ed_times at 2. cbn [Nat.iter nat_rect].
    rewrite ed_add_0_l. apply ed_add_assoc; [done..|by apply ed_times_closed].
  - by replace (Z.to_nat s) with (Z.to_nat h + Z.to_nat h)%nat by lia.
Qed.

Lemma ed_scalarmul_times s Q : curve Q → (0 ≤ s < 2 ^ 256)%Z →
  ed_scalarmul s Q = ed_times (Z.to_nat s) Q.
Proof.
  intros HQ Hs. unfold ed_scalarmul. rewrite ed_bits_times; [apply ed_add_0_l|apply zero_curve|done..].
Qed.
