(* ===== verification/RistrettoOps.v ===== *)
(** * The operations of the Ristretto group

    [crypto/ristretto255.hpp] refines the Edwards group: extended points are
    projective representations of affine points, and [ext_add], [ext_double],
    [ext_neg], [ext_scalarmul], [fe_invsqrt], [rist_decode] and
    [pedersen_commit] compute on the points they represent. *)

From Stdlib Require Import Field NsatzTactic.
From S2P Require Import Prelude Primes Field Hash Fe25519 Scalar25519 Zp Ristretto Edwards.

#[local] Open Scope F_scope.
#[local] Opaque toF Fadd Fmul Fsub Fopp Finv Fdiv Fpow F0 F1 Fd Fi.


(** ** Extended coordinates *)


Definition ext_is (P : ExtPoint) (A : F * F) : Prop :=
  let '(x, y) := A in
  on_curve x y ∧ ∃ Z, Z ≠ 0 ∧ fe_is (pX P) (x * Z) ∧ fe_is (pY P) (y * Z) ∧ fe_is (pZ P) Z ∧
                      fe_is (pT P) (x * y * Z).

Lemma fe_is_eq f x y : fe_is f x → x = y → fe_is f y.
Proof. by intros H <-. Qed.

Lemma ext_identity_is : ext_is ext_identity (0, 1).
Proof.
  split; [unfold on_curve; ring|]. exists 1. split; [apply F_1_neq_0|]. cbn [ext_identity pX pY pZ pT].
  split; [|split; [|split]]; (eapply fe_is_eq; [fe_solve|ring]).
Qed.

(** The four coordinates from the factors [E F G H] that both formulas end with. *)
Lemma ext_from_factors E F_ G_ H_ e f g h x y :
  fe_is E e → fe_is F_ f → fe_is G_ g → fe_is H_ h → f ≠ 0 → g ≠ 0 →
  on_curve x y → x * g = e → y * f = h →
  ext_is (mkExt (fe_mul E F_) (fe_mul G_ H_) (fe_mul F_ G_) (fe_mul E H_)) (x, y).
Proof.
  intros HE HF HG HH Hf Hg Hc <- <-. split; [done|]. exists (f * g). 
  split; [by apply F_mul_nonzero|]. cbn [pX pY pZ pT].
  split; [|split; [|split]]; (eapply fe_is_eq; [apply is_mul; eassumption|ring]).
Qed.

Lemma ext_add_is P Q A B : ext_is P A → ext_is Q B → ext_is (ext_add P Q) (ed_add A B).
Proof.
  destruct A as [x1 y1], B as [x2 y2].
  intros (H1 & Z1 & N1 & X1 & Y1 & Zp1 & T1) (H2 & Z2 & N2 & X2 & Y2 & Zp2 & T2).
  pose proof (denominator_nonzero _ _ _ _ H1 H2) as Hk.
  pose proof (nz_1_plus _ Hk) as Hp. pose proof (nz_1_minus _ Hk) as Hm. clear Hk.
  pose proof (ed_add_curve _ _ _ _ H1 H2) as Hc. cbn [ed_add] in *.
  unfold ext_add. cbv zeta.
  eapply ext_from_factors; [fe_solve|fe_solve|fe_solve|fe_solve| | | done | | ].
  - intros E. apply (F_mul_nonzero (1 + 1) ((1 - Fd * x1 * x2 * y1 * y2) * (Z1 * Z2)));
      [exact F_2_neq_0|nonzero|]. rewrite <- E. ring.
  - intros E. apply (F_mul_nonzero (1 + 1) ((1 + Fd * x1 * x2 * y1 * y2) * (Z1 * Z2)));
      [exact F_2_neq_0|nonzero|]. rewrite <- E. ring.
  - field. done.
  - field. done.
Qed.

Lemma ext_double_is P A : ext_is P A → ext_is (ext_double P) (ed_add A A).
Proof.
  destruct A as [x y]. intros (H1 & Z & N1 & X1 & Y1 & Zp1 & T1).
  pose proof (denominator_nonzero _ _ _ _ H1 H1) as Hk.
  pose proof (nz_1_plus _ Hk) as Hp. pose proof (nz_1_minus _ Hk) as Hm. clear Hk.
  pose proof (ed_add_curve _ _ _ _ H1 H1) as Hc. cbn [ed_add] in *.
  unfold ext_double. cbv zeta.
  assert (Hg : y * y - x * x = 1 + Fd * x * x * y * y) by done.
  assert (Hf : (1 + 1) - (y * y - x * x) = 1 - Fd * x * x * y * y) by (rewrite Hg; ring).
  eapply ext_from_factors; [fe_solve|fe_solve|fe_solve|fe_solve| | | done | | ].
  - intros E. apply (F_mul_nonzero (1 - Fd * x * x * y * y) (Z * Z)); [nonzero..|].
    rewrite <- Hf. transitivity (- (1) * 0); [|ring]. rewrite <- E. ring.
  - intros E. apply (F_mul_nonzero (1 + Fd * x * x * y * y) (Z * Z)); [nonzero..|].
    rewrite <- Hg, <- E. ring.
  - transitivity ((x * y + y * x) / (1 + Fd * x * x * y * y) * ((y * y - x * x) * (Z * Z))); [ring|].
    rewrite Hg. by field.
  - transitivity ((y * y + x * x) / (1 - Fd * x * x * y * y) * (- (1 + 1 - (y * y - x * x)) * (Z * Z))); [ring|].
    rewrite Hf. by field.
Qed.

Lemma ext_neg_is P A : ext_is P A → ext_is (ext_neg P) (ed_neg A).
Proof.
  destruct A as [x y]. intros (H1 & Z & N1 & X1 & Y1 & Zp1 & T1).
  change (ed_neg (x, y)) with (- x, y).
  split; [unfold on_curve in *; transitivity (y * y - x * x); [ring|rewrite H1; ring]|].
  exists Z. split; [done|]. unfold ext_neg. cbn [pX pY pZ pT].
  split; [|split; [done|split; [done|]]]; (eapply fe_is_eq; [apply is_neg; eassumption|ring]).
Qed.

Lemma scalar_bit s i : sc_ok s → (0 ≤ i < 256)%Z →
  negb ((nth (Z.to_nat (i ≫ 3)) (sc_tobytes s) 0 ≫ (i .& 7)) .& 1 =? 0)%Z = Z.odd (sc_val s / 2 ^ i).
Proof.
  intros Hs Hi. rewrite sc_tobytes_spec by done. rewrite (land_low i 3), (land_low _ 1) by done.
  rewrite !shr_div by (try apply Z.mod_pos_bound; lia).
  rewrite nth_le_bytes by (apply Nat2Z.inj_lt; rewrite Z2Nat.id by lia; lia).
  rewrite Z2Nat.id by lia. set (j := (i / 2 ^ 3)%Z).
  assert (Hj : (i = 8 * j + i mod 2 ^ 3 ∧ 0 ≤ i mod 2 ^ 3 < 8 ∧ 0 ≤ j)%Z)
    by (unfold j; pow_consts; lia).
  destruct Hj as (Ej & Hr & Hj). set (r := (i mod 2 ^ 3)%Z) in *. clearbody j r. subst i.
  change 256%Z with (2 ^ 8)%Z. rewrite <- Z.pow_mul_r by lia.
  change (2 ^ 1)%Z with 2%Z. rewrite Zmod_odd.
  rewrite <- (Z.bit0_odd (_ / _)), Z.div_pow2_bits, Z.mod_pow2_bits_low, Z.div_pow2_bits by lia.
  rewrite <- (Z.bit0_odd (_ / _)), Z.div_pow2_bits by lia.
  replace (0 + r + 8 * j)%Z with (0 + (8 * j + r))%Z by lia. by destruct (Z.testbit _ _).
Qed.

Lemma scalarmul_loop_is s n i R Q A B : sc_ok s → (0 ≤ i)%Z → (i + Z.of_nat n ≤ 256)%Z →
  ext_is R A → ext_is Q B →
  ext_is (scalarmul_loop n (sc_tobytes s) i R Q) (ed_bits n (sc_val s / 2 ^ i) A B).
Proof.
  intros Hs. revert i R Q A B. induction n as [|n IH]; intros i R Q A B Hi Hn HR HQ; [done|].
  cbn [scalarmul_loop ed_bits]. cbv zeta. rewrite scalar_bit by (done || lia).
  replace (sc_val s / 2 ^ i / 2)%Z with (sc_val s / 2 ^ (i + 1))%Z
    by (rewrite Z.pow_add_r, Z.div_div by lia; done).
  apply IH; [lia|lia| |by apply ext_double_is].
  destruct (Z.odd _); [by apply ext_add_is|done].
Qed.

Lemma ext_scalarmul_is P s A : sc_ok s → ext_is P A → ext_is (ext_scalarmul P s) (ed_scalarmul (sc_val s) A).
Proof.
  intros Hs HP.
  pose proof (scalarmul_loop_is s 256 0 ext_identity P (0, 1) A Hs ltac:(lia) ltac:(lia)
    ext_identity_is HP) as H.
  change (2 ^ 0)%Z with 1%Z in H. rewrite Z.div_1_r in H. exact H.
Qed.

(** ** Square roots, encoding and decoding *)

Lemma F_square_root_eq (a b : F) : a * a = b * b → a = b ∨ a = - b.
Proof.
  intros E. destruct (F_integral (a - b) (a + b)) as [H|H].
  - transitivity (a * a - b * b); [ring|rewrite E; ring].
  - left. transitivity (a - b + b); [ring|rewrite H; ring].
  - right. transitivity (a + b - b); [ring|rewrite H; ring].
Qed.

(** The fourth roots of unity. *)
Lemma fourth_root (w : F) : w * w * (w * w) = 1 → w = 1 ∨ w = - (1) ∨ w = Fi ∨ w = - Fi.
Proof.
  intros E. destruct (F_square_root_eq (w * w) 1) as [H|H]; [rewrite E; ring| |].
  - destruct (F_square_root_eq w 1) as [?|?]; [rewrite H; ring|auto..].
  - destruct (F_square_root_eq w Fi) as [?|?]; [rewrite H; symmetry; apply Fi_sq|auto..].
Qed.

(** What [fe_invsqrt] returns for [u / v]: whether [u / v] is a square, and the
    non-negative root of [u / v] when it is, of [i u / v] otherwise. *)
Definition invsqrt_spec (u v : F) (b : bool) (r : F) : Prop :=
  Fneg_bit r = false ∧ (b = true ↔ ∃ x, v * (x * x) = u) ∧
  (b = true → v * (r * r) = u) ∧ (b = false → v = 0 ∨ v * (r * r) = Fi * u).

Lemma pow2523_root (w : F) : w ≠ 0 →
  let q := Fpow w (2 ^ 252 - 3) in let t := w * (q * q) in t * t * (t * t) = 1.
Proof.
  intros Hw. cbv zeta.
  assert (E : w * (Fpow w (2 ^ 252 - 3) * Fpow w (2 ^ 252 - 3)) = Fpow w (2 ^ 253 - 5)).
  { rewrite <- Fpow_2, <- Fpow_mul by done. transitivity (Fpow w 1 * Fpow w ((2 ^ 252 - 3) * 2)).
    - by rewrite Fpow_1.
    - by rewrite <- Fpow_add. }
  rewrite E, <- Fpow_4, <- Fpow_mul by done.
  change ((2 ^ 253 - 5) * 4)%Z with (p25519 - 1)%Z. by apply fermat_F.
Qed.

(** The root that the code tests, times [v], is [u] times a fourth root of unity. *)
Lemma invsqrt_candidate u v : u = 0 ∨ v = 0 ∨
  let v3 := v * v * v in let w := u * (v3 * v3 * v) in
  let r := u * v3 * Fpow w (2 ^ 252 - 3) in
  ∃ t, v * (r * r) = u * t ∧ (t = 1 ∨ t = - (1) ∨ t = Fi ∨ t = - Fi).
Proof.
  destruct (decide (u = 0)) as [|Hu]; [by left|]. destruct (decide (v = 0)) as [|Hv]; [by right; left|].
  right; right. cbv zeta. set (w := u * (v * v * v * (v * v * v) * v)).
  assert (Hw : w ≠ 0) by (unfold w; nonzero).
  exists (w * (Fpow w (2 ^ 252 - 3) * Fpow w (2 ^ 252 - 3))). split; [|apply fourth_root, pow2523_root, Hw].
  generalize (Fpow w (2 ^ 252 - 3)). intros q. unfold w. ring.
Qed.

Lemma no_root_if u v r x : u ≠ 0 → v * (r * r) = Fi * u → v * (x * x) = u → False.
Proof.
  intros Hu Er Ex. assert (Hv : v ≠ 0) by (intros ->; apply Hu; rewrite <- Ex; ring).
  assert (Hx : x ≠ 0) by (intros ->; apply Hu; rewrite <- Ex; ring).
  apply (Fi_not_square (r / x)). transitivity ((v * (r * r)) / (v * (x * x))); [by field|].
  rewrite Er, Ex. by field.
Qed.

Lemma Fi_plus_1 : 1 + Fi ≠ 0.
Proof. intros E. apply F_2_neq_0. pose proof Fi_sq. generalize dependent Fi. intros. nsatz. Qed.
Lemma Fi_minus_1 : 1 - Fi ≠ 0.
Proof. intros E. apply F_2_neq_0. pose proof Fi_sq. generalize dependent Fi. intros. nsatz. Qed.

Lemma F_times_neq_0 u k x : u ≠ 0 → k ≠ 0 → x = u * k → bool_decide (x = 0) = false.
Proof. intros Hu Hk ->. apply bool_decide_eq_false. by apply F_mul_nonzero. Qed.
Lemma F_is_zero x : x = 0 → bool_decide (x = 0) = true.
Proof. by intros ->. Qed.

(** The case analysis of the code on the value tested. *)
Lemma invsqrt_select u v r : (u = 0 → r = 0) →
  (u = 0 ∨ v = 0 ∨ ∃ t, v * (r * r) = u * t ∧ (t = 1 ∨ t = - (1) ∨ t = Fi ∨ t = - Fi)) →
  let c := v * (r * r) in
  let flip := bool_decide (c - - u = 0) || bool_decide (c - - u * Fi = 0) in
  invsqrt_spec u v (bool_decide (c - u = 0) || bool_decide (c - - u = 0))
    (Fabs (if flip then r * Fi else r)).
Proof.
  intros H0 H. cbv zeta. split; [apply Fabs_nonneg|]. rewrite Fabs_sq.
  destruct (decide (u = 0)) as [Hu|Hu].
  { specialize (H0 Hu). subst. assert (S : bool_decide (v * (0 * 0) - 0 = 0) = true) by (apply F_is_zero; ring).
    rewrite S. cbn [orb].
    assert (Z : ∀ b : bool, v * ((if b then 0 * Fi else 0) * (if b then 0 * Fi else 0)) = 0)
      by (intros [|]; ring).
    rewrite Z. split; [split; [intros _; exists 0; ring|done]|]. split; [done|discriminate]. }
  destruct H as [?|[->|(t & E & Ht)]]; [done| |].
  { assert (S1 : bool_decide (0 * (r * r) - u = 0) = false)
      by (apply (F_times_neq_0 u (0 - 1)); [done| |ring]; intros Z; apply F_1_neq_0; rewrite <- Z at 1; nsatz).
    assert (S2 : bool_decide (0 * (r * r) - - u = 0) = false)
      by (apply (F_times_neq_0 u 1); [done|apply F_1_neq_0|ring]).
    rewrite S1, S2. cbn [orb]. split; [|split; [discriminate|by left]].
    split; [discriminate|]. intros [x Hx]. destruct Hu. rewrite <- Hx. ring. }
  pose proof Fi_sq as Hi. pose proof Fi_plus_1 as Hp. pose proof Fi_minus_1 as Hm.
  pose proof Fi_neq_0 as Hn. pose proof F_2_neq_0 as H2. 
  rewrite E.
  assert (T1 : u * t - u = u * (t - 1)) by ring.
  assert (T2 : u * t - - u = u * (t + 1)) by ring.
  assert (T3 : u * t - - u * Fi = u * (t + Fi)) by ring. rewrite T1, T2, T3. clear T1 T2 T3.
  assert (N : ∀ k, k ≠ 0 → bool_decide (u * k = 0) = false)
    by (intros k Hk; by apply (F_times_neq_0 u k)).
  assert (Y : ∀ k, k = 0 → bool_decide (u * k = 0) = true) by (intros k ->; apply F_is_zero; ring).
  assert (O : ∀ k, k ≠ 0 → - k ≠ 0) by (intros k Hk Z; apply Hk; transitivity (- - k); [ring|rewrite Z; ring]).
  destruct Ht as [-> | [-> | [-> | ->]]].
  - rewrite (Y (1 - 1)), (N (1 + 1)), (N (1 + Fi)) by (done || ring). cbn [orb].
    split; [split; [intros _; exists r; rewrite E; ring|done]|]. split; [intros _; rewrite E; ring|discriminate].
  - rewrite (N (- (1) - 1)), (Y (- (1) + 1)) by
      first [ring | replace (- (1) - 1) with (- (1 + 1)) by ring; by apply O]. cbn [orb].
    assert (R : v * (r * Fi * (r * Fi)) = u).
    { transitivity (v * (r * r) * (Fi * Fi)); [ring|rewrite E, Hi; ring]. }
    split; [split; [intros _; by exists (r * Fi)|done]|]. by split.
  - rewrite (N (Fi - 1)), (N (Fi + 1)), (N (Fi + Fi)) by
      first [ replace (Fi - 1) with (- (1 - Fi)) by ring; by apply O
            | replace (Fi + 1) with (1 + Fi) by ring; done
            | replace (Fi + Fi) with ((1 + 1) * Fi) by ring; by apply F_mul_nonzero ]. cbn [orb].
    assert (R : v * (r * r) = Fi * u) by (rewrite E; ring).
    split; [split; [discriminate|intros [x Hx]; by destruct (no_root_if u v r x)]|].
    split; [discriminate|by right].
  - rewrite (N (- Fi - 1)), (N (- Fi + 1)), (Y (- Fi + Fi)) by
      first [ ring | replace (- Fi - 1) with (- (1 + Fi)) by ring; by apply O
            | replace (- Fi + 1) with (1 - Fi) by ring; done ]. cbn [orb].
    assert (R : v * (r * Fi * (r * Fi)) = Fi * u).
    { transitivity (v * (r * r) * (Fi * Fi)); [ring|rewrite E, Hi; ring]. }
    split; [split; [discriminate|intros [x Hx]; by destruct (no_root_if u v (r * Fi) x)]|].
    split; [discriminate|by right].
Qed.

Lemma fe_invsqrt_is fu fv_ u v : fe_is fu u → fe_is fv_ v →
  let '(b, fr) := fe_invsqrt fu fv_ in ∃ r, fe_is fr r ∧ invsqrt_spec u v b r.
Proof.
  intros Hu Hv. unfold fe_invsqrt. cbv zeta.
  set (v3 := v * v * v). set (q := Fpow (u * (v3 * v3 * v)) (2 ^ 252 - 3)). set (r := u * v3 * q).
  set (fr := fe_mul (fe_mul fu _) (fe_pow2523 _)).
  assert (Hr : fe_is fr r) by (unfold fr, r, q, v3; fe_solve). clearbody fr.
  set (check := fe_mul fv_ (fe_sq fr)).
  assert (Hc : fe_is check (v * (r * r))) by (unfold check; fe_solve). clearbody check.
  rewrite (is_zero_test (fe_sub check fu) (v * (r * r) - u)) by fe_solve.
  rewrite (is_zero_test (fe_sub check (fe_neg fu)) (v * (r * r) - - u)) by fe_solve.
  rewrite (is_zero_test (fe_sub check (fe_mul (fe_neg fu) fe_sqrtm1)) (v * (r * r) - - u * Fi)) by fe_solve.
  eexists. split; [fe_solve|]. apply invsqrt_select; [|apply invsqrt_candidate].
  intros ->. unfold r. ring.
Qed.

(** *** Decoding *)

(** What an accepted encoding [s] stands for: a non-negative element whose
    quartic [v u2^2] is a non-zero square, and the point with non-negative [x]
    and [xy] and non-zero [y] that it determines. *)
Definition decode_spec (s : F) (x y : F) : Prop :=
  ∃ r, let u1 := 1 - s * s in let u2 := 1 + s * s in
       let v := - (Fd * (u1 * u1)) - u2 * u2 in
       v * (u2 * u2) * (r * r) = 1 ∧ x = Fabs ((s + s) * (r * u2)) ∧ y = u1 * (r * (r * u2) * v) ∧
       Fneg_bit (x * y) = false ∧ y ≠ 0.

Lemma nonzero_factors a b c : a * b * c = 1 → a ≠ 0 ∧ b ≠ 0 ∧ c ≠ 0.
Proof.
  intros E. split; [|split]; intros ->; apply F_1_neq_0; rewrite <- E; ring.
Qed.

Lemma decode_curve s x y : decode_spec s x y → on_curve x y ∧
  (1 + s * s) * y = 1 - s * s ∧ 1 + s * s ≠ 0 ∧ (x = 0 ↔ s = 0).
Proof.
  intros (r & Hr & Hx & Hy & _). cbv zeta in *.
  set (u1 := 1 - s * s) in *. set (u2 := 1 + s * s) in *.
  assert (Hs : u1 * u1 - u2 * u2 = - ((s + s) * (s + s))) by (unfold u1, u2; ring).
  assert (Hu : u1 = 1 - s * s) by done. clearbody u1 u2.
  set (v := - (Fd * (u1 * u1)) - u2 * u2) in *. assert (Hv : v = - (Fd * (u1 * u1)) - u2 * u2) by done.
  clearbody v. destruct (nonzero_factors _ _ _ Hr) as (Nv & Nu & Nr).
  assert (N2 : u2 ≠ 0) by (intros ->; apply Nu; ring).
  assert (Hxx : x * x = (s + s) * (r * u2) * ((s + s) * (r * u2))) by (rewrite Hx; apply Fabs_sq).
  assert (Hxv : v * (x * x) = (s + s) * (s + s))
    by (rewrite Hxx; transitivity (v * (u2 * u2) * (r * r) * ((s + s) * (s + s))); [ring|rewrite Hr; ring]).
  assert (Hyu : u2 * y = u1)
    by (rewrite Hy; transitivity (v * (u2 * u2) * (r * r) * u1); [ring|rewrite Hr; ring]).
  split; [|split; [done|split; [done|]]].
  - unfold on_curve. clear Hr Hx Hy Hxx Nu Nr Hu.
    assert (E : v * (u2 * u2) * (y * y - x * x - (1 + Fd * x * x * y * y)) = 0).
    { generalize dependent Fd. intros. nsatz. }
    destruct (F_integral _ _ E) as [E'|E'].
    + destruct (F_integral _ _ E') as [?|E'']; [done|]. destruct (F_integral _ _ E''); done.
    + transitivity (y * y - x * x - (1 + Fd * x * x * y * y) + (1 + Fd * x * x * y * y)); [ring|].
      rewrite E'. ring.
  - split; [intros Zx|intros Zs].
    2: { assert (E : v * (x * x) = 0) by (rewrite Hxv, Zs; ring).
         destruct (F_integral _ _ E) as [?|E']; [done|]. by destruct (F_integral _ _ E'). }
    rewrite Zx in Hxv. assert (E : (s + s) * (s + s) = 0) by (rewrite <- Hxv; ring).
    assert (E2 : (1 + 1) * s = 0) by (destruct (F_integral _ _ E) as [E1|E1]; rewrite <- E1; ring).
    destruct (F_integral _ _ E2) as [E3|E3]; [by destruct (F_2_neq_0 E3)|done].
Qed.

Lemma toF_le_val s : (le_val s < p25519)%Z → bytes s → fv (toF (le_val s)) = le_val s.
Proof.
  intros Hlt Hs. pose proof (le_val_bound s Hs). rewrite <- fv_mod.
  pose proof (fv_toF (le_val s)) as E. unfold cong in E. rewrite E. apply Z.mod_small. lia.
Qed.

Lemma rist_decode_is s P : length s = 32%nat → bytes s → rist_decode s = Some P →
  (le_val s < p25519)%Z ∧ Fneg_bit (toF (le_val s)) = false ∧
  ∃ x y, decode_spec (toF (le_val s)) x y ∧ Fneg_bit x = false ∧
    fe_is (pX P) x ∧ fe_is (pY P) y ∧ pZ P = fe_one ∧ fe_is (pT P) (x * y).
Proof.
  intros Hl Hs. pose proof (fe_frombytes_rep s Hl Hs) as Hf.
  unfold rist_decode. cbv zeta.
  destruct (fe_has_canonical_encoding s (fe_frombytes s)) eqn:Hc; cbn [negb]; [|discriminate].
  apply (proj1 (fe_canonical_iff s Hl Hs)) in Hc.
  assert (Hb : (0 ≤ le_val s < 2 ^ 255)%Z)
    by (pose proof (le_val_bound s Hs); unfold p25519 in Hc; lia).
  rewrite Z.mod_small in Hf by done. apply rep_is in Hf.
  set (fs := fe_frombytes s) in *. clearbody fs. set (z := toF (le_val s)) in *. clearbody z.
  rewrite (is_negative _ _ Hf). destruct (Fneg_bit z) eqn:Hneg; [discriminate|].
  set (fv_ := fe_sub (fe_neg _) _) in *.
  set (u1 := 1 - z * z). set (u2 := 1 + z * z). set (v := - (Fd * (u1 * u1)) - u2 * u2).
  assert (Hu1 : fe_is (fe_sub fe_one (fe_sq fs)) u1) by fe_solve.
  assert (Hu2 : fe_is (fe_add fe_one (fe_sq fs)) u2) by fe_solve.
  set (fu1 := fe_sub fe_one (fe_sq fs)) in *. clearbody fu1.
  set (fu2 := fe_add fe_one (fe_sq fs)) in *. clearbody fu2.
  assert (Hv : fe_is fv_ v) by (unfold fv_; fe_solve). clearbody fv_.
  assert (Hw : fe_is (fe_mul fv_ (fe_sq fu2)) (v * (u2 * u2))) by fe_solve.
  pose proof (fe_invsqrt_is _ _ _ _ is_one_elem Hw) as Hi.
  destruct (fe_invsqrt fe_one _) as [b inv]. destruct Hi as (r & Hr & _ & _ & Hsq & _).
  destruct b; cbn [negb]; [|by intros]. specialize (Hsq eq_refl).
  destruct (fe_is_negative _ || _) eqn:Hn; [by intros|]. apply orb_false_iff in Hn as [Hn Hz].
  intros E. apply Some_inj in E. subst P. cbn [pX pY pZ pT]. split; [done|]. split; [done|].
  assert (Hx : fe_is (fe_abs (fe_mul (fe_add fs fs) (fe_mul inv fu2))) (Fabs ((z + z) * (r * u2)))) by fe_solve.
  assert (Hy : fe_is (fe_mul fu1 (fe_mul (fe_mul inv (fe_mul inv fu2)) fv_)) (u1 * (r * (r * u2) * v))) by fe_solve.
  rewrite (is_negative _ _ (is_mul _ _ _ _ Hx Hy)) in Hn.
  rewrite (is_zero_test _ _ Hy) in Hz. apply bool_decide_eq_false in Hz.
  eexists _, _. split; [|split; [apply Fabs_nonneg|split; [exact Hx|split; [exact Hy|split; [done|by apply is_mul]]]]].
  exact (ex_intro _ r (conj Hsq (conj eq_refl (conj eq_refl (conj Hn Hz))))).
Qed.

Lemma rist_decode_point s P : length s = 32%nat → bytes s → rist_decode s = Some P →
  ∃ x y, ext_is P (x, y) ∧ decode_spec (toF (le_val s)) x y.
Proof.
  intros Hl Hs HP. destruct (rist_decode_is s P Hl Hs HP) as (_ & _ & x & y & D & _ & X & Y & Z1 & T).
  exists x, y. split; [|done]. split; [by apply (decode_curve _ _ _ D)|].
  exists 1. rewrite Z1. split; [apply F_1_neq_0|].
  split; [|split; [|split; [apply is_one_elem|]]]; (eapply fe_is_eq; [eassumption|ring]).
Qed.

(** *** Encoding *)

(** A non-negative element is determined by its square. *)
Lemma nonneg_root a b : Fneg_bit a = false → Fneg_bit b = false → a * a = b * b → a = b.
Proof.
  intros Ha Hb E. destruct (F_square_root_eq _ _ E) as [->| ->]; [done|by apply nonneg_opp].
Qed.

Lemma Fabs_root a b : a * a = b * b → Fabs a = Fabs b.
Proof. intros E. apply nonneg_root; [apply Fabs_nonneg..|]. by rewrite !Fabs_sq. Qed.

Lemma is_ok f x : fe_is f x → fe_ok f.
Proof. apply fe_rep_ok. Qed.

(** The constant [1 / sqrt (a - d)]. *)
Definition Fc : F := toF (le_val invsqrt_a_minus_d_bytes).

Lemma is_invsqrt_a_minus_d : fe_is rist_invsqrt_a_minus_d Fc.
Proof. by apply frombytes_is. Qed.

#[local] Opaque Fc.

(** The representative that the encoding is taken of: the point itself, or the
    point rotated by the torsion point [(i, 0)] when [xy] is negative. *)
Definition encode_val (x y r : F) : F :=
  let '(X, Y, den) :=
    if Fneg_bit (x * y) then (y * Fi, x * Fi, r * (1 - y * y) * Fc) else (x, y, r * (x * y)) in
  Fabs (den * (1 - (if Fneg_bit X then - Y else Y))).

(** The encoding of an affine point with [1 - y^2] a square. *)
Definition encodes (x y s : F) : Prop :=
  (x * y = 0 ∧ s = 0) ∨
  ∃ r, (1 - y * y) * (x * y * (x * y)) * (r * r) = 1 ∧ s = encode_val x y r.

(** The field computation of [rist_encode] on a representative of scale [Z]. *)
Definition encode_proj (x y Z r : F) : F :=
  let u1 := 1 - y * y in let u2 := x * y in
  let den1 := r * (u1 * (Z * Z)) in let den2 := r * (u2 * (Z * Z)) in
  let z_inv := den1 * den2 * (x * y * Z) in
  let rot := Fneg_bit (x * y * Z * z_inv) in
  let X := if rot then y * Z * Fi else x * Z in
  let Y := if rot then x * Z * Fi else y * Z in
  let den := if rot then den1 * Fc else den2 in
  Fabs (den * (Z - (if Fneg_bit (X * z_inv) then - Y else Y))).

Lemma encode_proj_generic x y Z r r' : Z ≠ 0 →
  (1 - y * y) * (x * y * (x * y)) * (r * r) = 1 →
  (1 - y * y) * (Z * Z) * (x * y * (Z * Z) * (x * y * (Z * Z))) * (r' * r') = 1 →
  encode_proj x y Z r' = encode_val x y r.
Proof.
  intros HZ Hr Hr'. unfold encode_proj, encode_val. cbv zeta.
  set (w := 1 - y * y) in *. clearbody w.
  destruct (nonzero_factors _ _ _ Hr) as (Nw & Nxy & _).
  assert (HR : r' * Z * Z * Z * (r' * Z * Z * Z) = r * r).
  { transitivity (r * r * (w * (Z * Z) * (x * y * (Z * Z) * (x * y * (Z * Z))) * (r' * r')));
      [|rewrite Hr'; ring].
    transitivity (w * (x * y * (x * y)) * (r * r) * (r' * Z * Z * Z * (r' * Z * Z * Z))); [rewrite Hr; ring|ring]. }
  set (zi := r' * (w * (Z * Z)) * (r' * (x * y * (Z * Z))) * (x * y * Z)).
  assert (Hzi : Z * zi = 1) by (rewrite <- Hr'; unfold zi; ring). clearbody zi.
  replace (x * y * Z * zi) with (x * y * (Z * zi)) by ring. rewrite Hzi.
  replace (x * y * 1) with (x * y) by ring.
  assert (HX : ∀ a, a * Z * Fi * zi = a * Fi) by (intros a; transitivity (a * Fi * (Z * zi)); [ring|rewrite Hzi; ring]).
  assert (HX' : ∀ a, a * Z * zi = a) by (intros a; transitivity (a * (Z * zi)); [ring|rewrite Hzi; ring]).
  clear Hr Hr' Hzi Nw Nxy. generalize dependent Fi. intros i HX. 
  assert (K : ∀ k, k * (r' * Z * Z * Z) * (k * (r' * Z * Z * Z)) = k * r * (k * r)).
  { intros k. transitivity (k * k * (r' * Z * Z * Z * (r' * Z * Z * Z))); [ring|rewrite HR; ring]. }
  destruct (Fneg_bit (x * y)).
  - rewrite HX. destruct (Fneg_bit (y * i)); apply Fabs_root.
    + etransitivity; [|etransitivity; [exact (K (w * Fc * (1 + x * i)))|]]; ring.
    + etransitivity; [|etransitivity; [exact (K (w * Fc * (1 - x * i)))|]]; ring.
  - rewrite HX'. destruct (Fneg_bit x); apply Fabs_root.
    + etransitivity; [|etransitivity; [exact (K (x * y * (1 + y)))|]]; ring.
    + etransitivity; [|etransitivity; [exact (K (x * y * (1 - y)))|]]; ring.
Qed.

Lemma encode_proj_degenerate x y Z r : on_curve x y → x * y = 0 → encode_proj x y Z r = 0.
Proof.
  intros Hc Hxy. unfold encode_proj. cbv zeta. rewrite Hxy.
  assert (E1 : ∀ a, 0 * Z * a = 0) by (intros; ring). rewrite E1, Fneg_bit_0.
  assert (E2 : ∀ a, r * (0 * (Z * Z)) * a = 0) by (intros; ring). rewrite E2.
  apply Fabs_id, Fneg_bit_0.
Qed.

Lemma rist_encode_proj P x y Z : fe_is (pX P) (x * Z) → fe_is (pY P) (y * Z) → fe_is (pZ P) Z →
  fe_is (pT P) (x * y * Z) → ∃ b r,
  invsqrt_spec 1 ((1 - y * y) * (Z * Z) * (x * y * (Z * Z) * (x * y * (Z * Z)))) b r ∧
  rist_encode P = le_bytes 32 (fv (encode_proj x y Z r)).
Proof.
  intros HX HY HZ HT. unfold rist_encode. cbv zeta.
  assert (Hw1 : fe_is (fe_mul (fe_add (pZ P) (pY P)) (fe_sub (pZ P) (pY P))) ((1 - y * y) * (Z * Z)))
    by (eapply fe_is_eq; [fe_solve|ring]).
  set (fw1 := fe_mul (fe_add (pZ P) (pY P)) _) in *. clearbody fw1.
  assert (Hw2 : fe_is (fe_mul (pX P) (pY P)) (x * y * (Z * Z))) by (eapply fe_is_eq; [fe_solve|ring]).
  set (fw2 := fe_mul (pX P) (pY P)) in *. clearbody fw2.
  assert (Hw : fe_is (fe_mul fw1 (fe_sq fw2)) ((1 - y * y) * (Z * Z) * (x * y * (Z * Z) * (x * y * (Z * Z)))))
    by fe_solve.
  pose proof (fe_invsqrt_is _ _ _ _ is_one_elem Hw) as Hi.
  destruct (fe_invsqrt fe_one _) as [b fr]. destruct Hi as (r & Hr & Hi). exists b, r. split; [done|].
  clear Hi Hw. unfold encode_proj. cbv zeta. pose proof is_invsqrt_a_minus_d as Hc.
  set (zi := r * ((1 - y * y) * (Z * Z)) * (r * (x * y * (Z * Z))) * (x * y * Z)).
  assert (Hzi : fe_is (fe_mul (fe_mul (fe_mul fr fw1) (fe_mul fr fw2)) (pT P)) zi) by (unfold zi; fe_solve).
  set (fzi := fe_mul (fe_mul (fe_mul fr fw1) (fe_mul fr fw2)) (pT P)) in *. clearbody zi fzi.
  rewrite (is_negative (fe_mul (pT P) fzi) (x * y * Z * zi)) by fe_solve.
  set (rot := Fneg_bit (x * y * Z * zi)). clearbody rot.
  rewrite (is_negative (fe_mul (fe_cmov (pX P) _ rot) fzi) ((if rot then y * Z * Fi else x * Z) * zi)) by fe_solve.
  set (sg := Fneg_bit ((if rot then y * Z * Fi else x * Z) * zi)). clearbody sg.
  rewrite <- (fv_mod (Fabs _)). apply fe_tobytes_rep. change (fe_rep ?f (fv ?z)) with (fe_is f z). fe_solve.
Qed.

Lemma encode_is P x y s : ext_is P (x, y) → encodes x y s → rist_encode P = le_bytes 32 (fv s).
Proof.
  intros (Hc & Z & NZ & HX & HY & HZ & HT) He.
  destruct (rist_encode_proj P x y Z HX HY HZ HT) as (b & r' & (_ & Hb & Hr & _) & ->).
  do 2 f_equal. destruct He as [[Hxy ->]|(r & Hr0 & ->)]; [by apply encode_proj_degenerate|].
  apply encode_proj_generic; [done..|]. apply Hr, Hb. exists (r / (Z * Z * Z)).
  transitivity ((1 - y * y) * (x * y * (x * y)) * (r * r)); [by field|done].
Qed.

(** Encoding undoes decoding. *)
Lemma decode_encodes x y s : Fneg_bit x = false → Fneg_bit s = false → decode_spec s x y → encodes x y s.
Proof.
  intros Nx Ns D. destruct (decode_curve _ _ _ D) as (_ & Hy & N2 & Hx0).
  destruct D as (_ & _ & _ & _ & Nt & Ny).
  destruct (decide (s = 0)) as [Zs|Zs]; [left; rewrite Zs; split; [|done]|right].
  { apply (proj2 Hx0) in Zs as ->. ring. }
  assert (Hx : x ≠ 0) by (by intros Zx; apply Zs, Hx0).
  set (w1 := 1 - y * y). assert (Ew : w1 = 1 - y * y) by done.
  assert (Hw1 : w1 * ((1 + s * s) * (1 + s * s)) = (s + s) * (s + s)) by (unfold w1; nsatz).
  assert (N2s : s + s ≠ 0).
  { intros E. assert (E' : (1 + 1) * s = 0) by (rewrite <- E; ring).
    destruct (F_integral _ _ E') as [E3|E3]; [by destruct (F_2_neq_0 E3)|done]. }
  assert (Nw1 : w1 ≠ 0).
  { intros E. rewrite E in Hw1. apply (F_mul_nonzero (s + s) (s + s)); [done..|].
    rewrite <- Hw1. ring. }
  clearbody w1. set (r := (1 + s * s) / (x * y * (s + s))). exists r.
  assert (Hr : w1 * (x * y * (x * y)) * (r * r) = 1).
  { transitivity ((w1 * ((1 + s * s) * (1 + s * s))) / ((s + s) * (s + s))); [unfold r; by field|].
    rewrite Hw1. by field. }
  split; [done|]. clearbody r. unfold encode_val. rewrite Nt, Nx. symmetry.
  apply nonneg_root; [apply Fabs_nonneg|done|]. rewrite Fabs_sq.
  assert (E : w1 * (r * (x * y) * (1 - y) * (r * (x * y) * (1 - y)) - s * s) = 0).
  { clear - Hr Hy Ew. subst w1. generalize dependent (x * y). intros t; intros. nsatz. }
  destruct (F_integral _ _ E) as [?|E']; [done|].
  transitivity (r * (x * y) * (1 - y) * (r * (x * y) * (1 - y)) - s * s + s * s); [ring|]. rewrite E'. ring.
Qed.

Lemma cofactor_inj a b c : a * b = 1 → a * c = 1 → b = c.
Proof.
  intros H1 H2. transitivity (b * (a * c)); [rewrite H2; ring|].
  transitivity (a * b * c); [ring|rewrite H1; ring].
Qed.

Lemma decode_spec_fun s x y x' y' : decode_spec s x y → decode_spec s x' y' → x = x' ∧ y = y'.
Proof.
  intros (r & Hr & Hx & Hy & _) (r' & Hr' & Hx' & Hy' & _). cbv zeta in *.
  set (u1 := 1 - s * s) in *. set (u2 := 1 + s * s) in *. set (v := - (Fd * (u1 * u1)) - u2 * u2) in *.
  clearbody u1 u2 v. pose proof (cofactor_inj _ _ _ Hr Hr') as E. subst x y x' y'. split.
  - apply Fabs_root. transitivity ((s + s) * (s + s) * (u2 * u2) * (r * r)); [ring|]. rewrite E. ring.
  - transitivity (u1 * (r * r * u2 * v)); [ring|]. rewrite E. ring.
Qed.

(** Decoding accepts exactly the canonical non-negative [s] with a point. *)
Lemma rist_decode_complete s x y : length s = 32%nat → bytes s → (le_val s < p25519)%Z →
  Fneg_bit (toF (le_val s)) = false → decode_spec (toF (le_val s)) x y →
  ∃ P, rist_decode s = Some P ∧ ext_is P (x, y).
Proof.
  intros Hl Hs Hlt Hneg D.
  assert (K : rist_decode s ≠ None).
  2: { destruct (rist_decode s) as [P|] eqn:E; [|done]. exists P. split; [done|].
       destruct (rist_decode_point s P Hl Hs E) as (x' & y' & HP & D').
       by destruct (decode_spec_fun _ _ _ _ _ D D') as [-> ->]. }
  pose proof (fe_frombytes_rep s Hl Hs) as Hf. unfold rist_decode. cbv zeta.
  rewrite (proj2 (fe_canonical_iff s Hl Hs) Hlt). cbn [negb].
  assert (Hb : (0 ≤ le_val s < 2 ^ 255)%Z)
    by (pose proof (le_val_bound s Hs); unfold p25519 in Hlt; lia).
  rewrite Z.mod_small in Hf by done. apply rep_is in Hf.
  set (fs := fe_frombytes s) in *. clearbody fs. set (z := toF (le_val s)) in *. clearbody z.
  rewrite (is_negative _ _ Hf), Hneg. destruct D as (r & Hr & Hx & Hy & Hn & Hz). cbv zeta in *.
  set (fv_ := fe_sub (fe_neg _) _) in *.
  set (u1 := 1 - z * z) in *. set (u2 := 1 + z * z) in *. set (v := - (Fd * (u1 * u1)) - u2 * u2) in *.
  assert (Hu1 : fe_is (fe_sub fe_one (fe_sq fs)) u1) by fe_solve.
  assert (Hu2 : fe_is (fe_add fe_one (fe_sq fs)) u2) by fe_solve.
  set (fu1 := fe_sub fe_one (fe_sq fs)) in *. clearbody fu1.
  set (fu2 := fe_add fe_one (fe_sq fs)) in *. clearbody fu2.
  assert (Hv : fe_is fv_ v) by (unfold fv_; fe_solve). clearbody fv_ u1 u2 v.
  assert (Hw : fe_is (fe_mul fv_ (fe_sq fu2)) (v * (u2 * u2))) by fe_solve.
  pose proof (fe_invsqrt_is _ _ _ _ is_one_elem Hw) as Hi.
  destruct (fe_invsqrt fe_one _) as [b inv]. destruct Hi as (r' & Hr' & _ & Hb' & Hsq & _).
  assert (b = true) as -> by (apply Hb'; by exists r). cbn [negb]. specialize (Hsq eq_refl).
  assert (Err : r' * r' = r * r) by (by apply (cofactor_inj _ _ _ Hsq)).
  set (fx := fe_abs (fe_mul (fe_add fs fs) (fe_mul inv fu2))).
  assert (Fx : fe_is fx x).
  { eapply fe_is_eq; [unfold fx; fe_solve|]. rewrite Hx. apply Fabs_root.
    transitivity ((z + z) * (z + z) * (u2 * u2) * (r' * r')); [ring|]. rewrite Err. ring. }
  set (fy := fe_mul fu1 (fe_mul (fe_mul inv (fe_mul inv fu2)) fv_)).
  assert (Fy : fe_is fy y).
  { eapply fe_is_eq; [unfold fy; fe_solve|]. rewrite Hy.
    transitivity (u1 * (r' * r' * u2 * v)); [ring|]. rewrite Err. ring. }
  rewrite (is_negative _ _ (is_mul _ _ _ _ Fx Fy)), Hn, (is_zero_test _ _ Fy).
  by rewrite bool_decide_eq_false_2.
Qed.


Lemma F_div_cancel a b : b ≠ 0 → a / b * b = a.
Proof. intros Hb. by field. Qed.

Lemma F_mul_cancel a b c : a ≠ 0 → a * b = a * c → b = c.
Proof.
  intros Ha E. destruct (F_integral a (b - c)) as [?|H]; [transitivity (a * b - a * c); [ring|rewrite E; ring]|done|].
  transitivity (b - c + c); [ring|rewrite H; ring].
Qed.

(** The encoding does not see the 4-torsion: [A], [A + (0, -1)], [A + (i, 0)]
    and [A + (-i, 0)] have the same encoding. *)
Lemma generic_nonzero w x y r : w * (x * y * (x * y)) * (r * r) = 1 → x ≠ 0 ∧ y ≠ 0.
Proof.
  intros Hr. destruct (nonzero_factors _ _ _ Hr) as (_ & N & _).
  split; intros ->; apply N; ring.
Qed.

Lemma encodes_neg x y s : encodes x y s → encodes (- x) (- y) s.
Proof.
  intros [[Hxy ->]|(r & Hr & ->)]; [left; split; [rewrite <- Hxy; ring|done]|].
  right. exists r. destruct (generic_nonzero _ _ _ _ Hr) as [Nx Ny]. unfold encode_val.
  replace (- y * - y) with (y * y) by ring. replace (- x * - y) with (x * y) by ring.
  split; [done|]. destruct (Fneg_bit (x * y)).
  - replace (- y * Fi) with (- (y * Fi)) by ring. replace (- x * Fi) with (- (x * Fi)) by ring.
    rewrite (Fneg_bit_opp (y * Fi)) by (apply F_mul_nonzero; [done|apply Fi_neq_0]).
    destruct (Fneg_bit (y * Fi)); cbn [negb]; f_equal; ring.
  - rewrite (Fneg_bit_opp x) by done. destruct (Fneg_bit x); cbn [negb]; f_equal; ring.
Qed.

Lemma Fc_sq : Fc * Fc * (- (1) - Fd) = 1.
Proof. apply F_eq. vm_compute. reflexivity. Qed.

Lemma encodes_rot x y s : on_curve x y → encodes x y s → encodes (y * Fi) (x * Fi) s.
Proof.
  intros Hc [[Hxy ->]|(r & Hr & ->)].
  { left. split; [|done]. transitivity (x * y * (Fi * Fi)); [ring|rewrite Hxy; ring]. }
  destruct (generic_nonzero _ _ _ _ Hr) as [Nx Ny]. pose proof Fi_sq as Hi. pose proof Fc_sq as Hcc.
  assert (Hc' : (1 - y * y) * (1 + x * x) = (- (1) - Fd) * (x * y * (x * y)))
    by (unfold on_curve in Hc; transitivity (1 - (y * y - x * x) - x * y * (x * y)); [ring|rewrite Hc; ring]).
  set (k := - (1) - Fd) in *. clearbody k.
  set (w := 1 - y * y) in *. assert (Hw : w = 1 - y * y) by done. clearbody w.
  set (q := r * w * Fc / (x * y)).
  assert (Hq : q * (x * y) = r * w * Fc) by (apply F_div_cancel; by apply F_mul_nonzero). clearbody q.
  right. exists q. unfold encode_val.
  assert (Exy : y * Fi * (x * Fi) = - (x * y)) by (transitivity (x * y * (Fi * Fi)); [ring|rewrite Hi; ring]).
  assert (Exx : 1 - x * Fi * (x * Fi) = 1 + x * x) by (transitivity (1 - x * x * (Fi * Fi)); [ring|rewrite Hi; ring]).
  assert (Eii : ∀ a, a * Fi * Fi = - a) by (intros a; transitivity (a * (Fi * Fi)); [ring|rewrite Hi; ring]).
  rewrite Exy, Exx, (Fneg_bit_opp (x * y)), <- Hw by (by apply F_mul_nonzero). split.
  - transitivity ((1 + x * x) * (q * (x * y)) * (q * (x * y))); [ring|]. rewrite Hq.
    transitivity (w * (1 + x * x) * (w * (r * r) * (Fc * Fc))); [ring|]. rewrite Hc'.
    transitivity (w * (x * y * (x * y)) * (r * r) * (Fc * Fc * k)); [ring|]. rewrite Hr, Hcc. ring.
  - destruct (Fneg_bit (x * y)); cbn [negb].
    + destruct (Fneg_bit (y * Fi)); apply Fabs_root;
        replace (q * - (x * y)) with (- (q * (x * y))) by ring; rewrite Hq; ring.
    + rewrite !Eii, (Fneg_bit_opp x) by done.
      assert (E : q * (1 + x * x) * Fc = r * (x * y)).
      { apply (F_mul_cancel (x * y)); [by apply F_mul_nonzero|].
        transitivity (q * (x * y) * ((1 + x * x) * Fc)); [ring|]. rewrite Hq.
        transitivity (w * (1 + x * x) * (r * (Fc * Fc))); [ring|]. rewrite Hc'.
        transitivity (Fc * Fc * k * (r * (x * y * (x * y)))); [ring|]. rewrite Hcc. ring. }
      rewrite E. destruct (Fneg_bit x); cbn [negb]; f_equal; ring.
Qed.
