(* ===== verification/RistrettoGroup.v ===== *)
(** * The Ristretto group

    What the 32-byte encodings of [crypto/ristretto255.hpp] stand for: the
    curve points with [1 - y^2] a square, modulo the four points of order
    dividing 4.  The operations on encodings compute in this group, and
    Pedersen commitments are homomorphic. *)

From Stdlib Require Import Field NsatzTactic.
From S2P Require Import Prelude Primes Field Hash Fe25519 Scalar25519 Zp Ristretto Edwards RistrettoOps.

#[local] Open Scope F_scope.
#[local] Opaque toF Fadd Fmul Fsub Fopp Finv Fdiv Fpow F0 F1 Fd Fi Fc.

(** ** The quotient group

    The encoded points are the curve points with [1 - y^2] a square; they form
    a subgroup, and two of them have the same encoding when they differ by a
    point of order dividing 4. *)

Definition even_point (A : F * F) : Prop := curve A ∧ ∃ q, 1 - snd A * snd A = q * q.

Lemma even_add_identity d x1 y1 x2 y2 :
  y1 * y1 - x1 * x1 = 1 + d * x1 * x1 * y1 * y1 →
  y2 * y2 - x2 * x2 = 1 + d * x2 * x2 * y2 * y2 →
  let k := d * x1 * x2 * y1 * y2 in let n := y1 * y2 + x1 * x2 in
  let w1 := 1 - y1 * y1 in let w2 := 1 - y2 * y2 in let m := w1 * (x2 * y2) + w2 * (x1 * y1) in
  ((1 - k) * (1 - k) - n * n) * (w1 * w2) = (- (1) - d) * (m * m).
Proof. intros. subst k n w1 w2 m. nsatz. Qed.

Lemma Fd_plus_1 : - (1) - Fd ≠ 0.
Proof. intros E. apply F_1_neq_0. rewrite <- Fc_sq, E. ring. Qed.

(** The points with [1 - y^2 = 0] are [(0, 1)] and [(0, -1)]. *)
Lemma curve_y_unit x y : on_curve x y → 1 - y * y = 0 → x = 0.
Proof.
  intros Hc Hy. assert (E : (- (1) - Fd) * (x * x) = 0) by (unfold on_curve in Hc; generalize dependent Fd; intros; nsatz).
  destruct (F_integral _ _ E) as [E'|E']; [by destruct (Fd_plus_1 E')|].
  by destruct (F_integral _ _ E').
Qed.

Lemma even_add_unit x1 y1 B : on_curve x1 y1 → 1 - y1 * y1 = 0 → even_point B → even_point (ed_add (x1, y1) B).
Proof.
  intros H1 Hy [HB [q Hq]]. split; [by apply ed_add_closed|]. exists q.
  destruct B as [x2 y2]. rewrite (curve_y_unit _ _ H1 Hy). cbn [ed_add snd] in *. rewrite <- Hq.
  assert (E : (y1 * y2 + 0 * x2) / (1 - Fd * 0 * x2 * y1 * y2) = y1 * y2).
  { replace (1 - Fd * 0 * x2 * y1 * y2) with 1 by ring. field. apply F_1_neq_0. }
  rewrite E. transitivity (1 - y1 * y1 * (y2 * y2)); [ring|].
  transitivity ((1 - y1 * y1) * (y2 * y2) + (1 - y2 * y2)); [ring|]. rewrite Hy. ring.
Qed.

Lemma even_zero : even_point (0, 1).
Proof. split; [apply zero_curve|]. exists 0. cbn. ring. Qed.

Lemma even_neg A : even_point A → even_point (ed_neg A).
Proof. intros [HA Hq]. split; [by apply ed_neg_closed|done]. Qed.

Lemma even_add A B : even_point A → even_point B → even_point (ed_add A B).
Proof.
  intros HA HB. destruct A as [x1 y1], B as [x2 y2].
  destruct (decide (1 - y1 * y1 = 0)) as [Z1|N1]; [by apply even_add_unit; [apply HA|..]|].
  destruct (decide (1 - y2 * y2 = 0)) as [Z2|N2].
  { rewrite ed_add_comm. by apply even_add_unit; [apply HB|..]. }
  destruct HA as [H1 [q1 Q1]], HB as [H2 [q2 Q2]]. split; [by apply ed_add_closed|].
  pose proof (denominator_nonzero _ _ _ _ H1 H2) as Hk. apply nz_1_minus in Hk.
  cbn [fst snd] in Hk.
  pose proof (even_add_identity Fd x1 y1 x2 y2 H1 H2) as I. cbv zeta in I. cbn [ed_add snd] in *.
  set (k := Fd * x1 * x2 * y1 * y2) in *. set (n := y1 * y2 + x1 * x2) in *.
  set (m := (1 - y1 * y1) * (x2 * y2) + (1 - y2 * y2) * (x1 * y1)) in *.
  set (w1 := 1 - y1 * y1) in *. set (w2 := 1 - y2 * y2) in *. clearbody k n m w1 w2.
  pose proof Fc_sq as Hc. set (a := - (1) - Fd) in *. clearbody a. clear H1 H2. subst w1 w2.
  assert (Nq1 : q1 ≠ 0) by (intros ->; apply N1; ring). assert (Nq2 : q2 ≠ 0) by (intros ->; apply N2; ring).
  assert (Nc : Fc ≠ 0) by (intros Ec; apply F_1_neq_0; rewrite <- Hc, Ec; ring).
  set (u := 1 - k) in *. clearbody u. set (v := Fc * q1 * q2 * u).
  assert (Nv : v ≠ 0) by (unfold v; nonzero).
  pose proof (F_div_cancel n u Hk) as En. pose proof (F_div_cancel m v Nv) as Em.
  exists (m / v). set (y := n / u) in *. set (q := m / v) in *. clearbody y q.
  apply (F_mul_cancel (v * v)); [nonzero|].
  transitivity (m * m); [|rewrite <- Em; ring].
  transitivity (Fc * Fc * ((u * u - (y * u) * (y * u)) * (q1 * q1 * (q2 * q2)))); [unfold v; ring|].
  rewrite En, I. transitivity (Fc * Fc * a * (m * m)); [ring|]. rewrite Hc. ring.
Qed.

Lemma even_times n A : even_point A → even_point (ed_times n A).
Proof. intros HA. induction n; [apply even_zero|]. rewrite ed_times_S. by apply even_add. Qed.

Lemma F_inverse a : a ≠ 0 → ∃ b, a * b = 1.
Proof. intros Ha. exists (1 / a). by field. Qed.

(** The even points are the ones with an encoding. *)
Lemma even_encodes x y : even_point (x, y) → ∃ s, encodes x y s.
Proof.
  intros [Hc [q Hq]]. cbn [snd] in Hq. destruct (decide (x * y = 0)) as [Z|N]; [exists 0; by left|].
  assert (Nq : q ≠ 0).
  { intros E. apply N. rewrite (curve_y_unit x y Hc); [ring|]. rewrite Hq, E. ring. }
  destruct (F_inverse (q * (x * y))) as [r Hr]; [by apply F_mul_nonzero|].
  eexists. right. exists r. split; [|reflexivity]. rewrite Hq.
  transitivity (q * (x * y) * r * (q * (x * y) * r)); [ring|rewrite Hr; ring].
Qed.

(** The encoding is a total function of the point. *)
Lemma encodes_fun x y s s' : encodes x y s → encodes x y s' → s = s'.
Proof.
  intros H H'. destruct H as [[Z ->]|(r & Hr & ->)], H' as [[Z' ->]|(r' & Hr' & ->)].
  - done.
  - destruct (generic_nonzero _ _ _ _ Hr') as [Nx Ny]. by destruct (F_mul_nonzero x y Nx Ny).
  - destruct (generic_nonzero _ _ _ _ Hr) as [Nx Ny]. by destruct (F_mul_nonzero x y Nx Ny).
  - pose proof (cofactor_inj _ _ _ Hr Hr') as E.
    destruct (F_square_root_eq _ _ E) as [->| ->]; [done|].
    unfold encode_val. destruct (Fneg_bit (x * y)); apply Fabs_root; ring.
Qed.

(** *** Cosets *)

Definition torsion (T : F * F) : Prop := T = (0, 1) ∨ T = (0, - (1)) ∨ T = (Fi, 0) ∨ T = (- Fi, 0).

Lemma torsion_curve T : torsion T → curve T.
Proof.
  pose proof Fi_sq as Hi. unfold curve, on_curve.
  intros [->|[->|[->| ->]]]; cbn [fst snd]; [ring|ring| |];
    (transitivity (- (Fi * Fi)); [ring|rewrite Hi; ring]).
Qed.

(** The four translates of a point. *)
Lemma ed_add_fin a b k : k = 0 → (a / (1 + k), b / (1 - k)) = (a, b).
Proof.
  intros ->. assert (1 + 0 = 1) as -> by ring. assert (1 - 0 = 1) as -> by ring.
  pose proof F_1_neq_0. f_equal; by field.
Qed.

Lemma ed_add_0 x y : ed_add (x, y) (0, 1) = (x, y).
Proof. cbn [ed_add]. rewrite ed_add_fin by ring. f_equal; ring. Qed.
Lemma ed_add_m1 x y : ed_add (x, y) (0, - (1)) = (- x, - y).
Proof. cbn [ed_add]. rewrite ed_add_fin by ring. f_equal; ring. Qed.
Lemma ed_add_i x y : ed_add (x, y) (Fi, 0) = (y * Fi, x * Fi).
Proof. cbn [ed_add]. rewrite ed_add_fin by ring. f_equal; ring. Qed.
Lemma ed_add_mi x y : ed_add (x, y) (- Fi, 0) = (- (y * Fi), - (x * Fi)).
Proof. cbn [ed_add]. rewrite ed_add_fin by ring. f_equal; ring. Qed.

Definition coset (A B : F * F) : Prop := ∃ T, torsion T ∧ B = ed_add A T.

Lemma torsion_add T U : torsion T → torsion U → torsion (ed_add T U).
Proof.
  intros HT HU. pose proof Fi_sq as Hi. unfold torsion.
  assert (Hii : - Fi * Fi = 1) by (transitivity (- (Fi * Fi)); [ring|rewrite Hi; ring]).
  destruct HU as [->|[->|[->| ->]]].
  { destruct T. by rewrite ed_add_0. }
  all: destruct HT as [->|[->|[->| ->]]]; rewrite ?ed_add_m1, ?ed_add_i, ?ed_add_mi.
  - right; left. f_equal; ring.
  - left. f_equal; ring.
  - right; right; right. f_equal; ring.
  - right; right; left. f_equal; ring.
  - right; right; left. f_equal; ring.
  - right; right; right. f_equal; ring.
  - right; left. rewrite Hi. f_equal; ring.
  - left. rewrite Hii. f_equal; ring.
  - right; right; right. f_equal; ring.
  - right; right; left. f_equal; ring.
  - left. rewrite Hi. f_equal; ring.
  - right; left. rewrite Hii. f_equal; ring.
Qed.

Lemma torsion_zero : torsion (0, 1).
Proof. by left. Qed.

Lemma torsion_neg T : torsion T → torsion (ed_neg T).
Proof.
  unfold torsion, ed_neg. intros [->|[->|[->| ->]]]; cbn [fst snd];
    [left|right; left|right; right; right|right; right; left]; f_equal; ring.
Qed.

Lemma torsion_times n T : torsion T → torsion (ed_times n T).
Proof. intros HT. induction n; [apply torsion_zero|]. rewrite ed_times_S. by apply torsion_add. Qed.

Lemma coset_refl A : coset A A.
Proof. exists (0, 1). split; [apply torsion_zero|]. symmetry. rewrite ed_add_comm. apply ed_add_0_l. Qed.

Lemma coset_trans A B C : curve A → coset A B → coset B C → coset A C.
Proof.
  intros HA (T & HT & ->) (U & HU & ->). exists (ed_add T U). split; [by apply torsion_add|].
  by apply ed_add_assoc; [|apply torsion_curve..].
Qed.

Lemma coset_sym A B : curve A → coset A B → coset B A.
Proof.
  intros HA (T & HT & ->). exists (ed_neg T). split; [by apply torsion_neg|].
  pose proof (torsion_curve T HT). rewrite ed_add_assoc by (try apply ed_neg_closed; done).
  rewrite ed_add_neg_r, ed_add_comm by done. symmetry. apply ed_add_0_l.
Qed.

(** The sum of four points of the curve, regrouped. *)
Lemma ed_add_swap A B C D : curve A → curve B → curve C → curve D →
  ed_add (ed_add A B) (ed_add C D) = ed_add (ed_add A C) (ed_add B D).
Proof.
  intros HA HB HC HD. pose proof (ed_add_closed C D HC HD). pose proof (ed_add_closed B D HB HD).
  rewrite !(ed_add_assoc A), <- (ed_add_assoc B C D), (ed_add_comm B C), (ed_add_assoc C B D) by done. done.
Qed.

Lemma coset_add A A' B B' : curve A → curve B → coset A A' → coset B B' → coset (ed_add A B) (ed_add A' B').
Proof.
  intros HA HB (T & HT & ->) (U & HU & ->). exists (ed_add T U). split; [by apply torsion_add|].
  by apply ed_add_swap; [| apply torsion_curve | | apply torsion_curve].
Qed.

Lemma coset_neg A A' : coset A A' → coset (ed_neg A) (ed_neg A').
Proof. intros (T & HT & ->). exists (ed_neg T). split; [by apply torsion_neg|apply ed_neg_add]. Qed.

Lemma coset_times n A A' : curve A → coset A A' → coset (ed_times n A) (ed_times n A').
Proof.
  intros HA H. induction n; [apply coset_refl|]. rewrite !ed_times_S.
  by apply coset_add; [|apply ed_times_closed| |].
Qed.

(** Equal cosets have equal encodings. *)
Lemma encodes_coset x y A s : on_curve x y → coset (x, y) A → encodes x y s → encodes (fst A) (snd A) s.
Proof.
  intros Hc (T & HT & ->) He.
  destruct HT as [->|[->|[->| ->]]]; rewrite ?ed_add_0, ?ed_add_m1, ?ed_add_i, ?ed_add_mi; cbn [fst snd];
    [done|by apply encodes_neg|by apply encodes_rot|by apply encodes_neg, encodes_rot].
Qed.

(** *** Decoding an encoding *)

(** A coset has a representative with [x] and [xy] non-negative. *)
Lemma canonical_rep x y : on_curve x y → x * y ≠ 0 → ∃ x' y', coset (x, y) (x', y') ∧
  Fneg_bit x' = false ∧ Fneg_bit (x' * y') = false ∧ x' * y' ≠ 0.
Proof.
  intros Hc N.
  assert (R : ∃ x1 y1, coset (x, y) (x1, y1) ∧ Fneg_bit (x1 * y1) = false ∧ x1 * y1 ≠ 0).
  { destruct (Fneg_bit (x * y)) eqn:E; [|exists x, y; split; [apply coset_refl|split; assumption]].
    exists (y * Fi), (x * Fi). assert (Ep : y * Fi * (x * Fi) = - (x * y))
      by (transitivity (x * y * (Fi * Fi)); [ring|rewrite Fi_sq; ring]).
    split; [exists (Fi, 0); split; [by right; right; left|by rewrite ed_add_i]|].
    rewrite Ep, Fneg_bit_opp, E by done. split; [done|].
    intros E'. apply N. transitivity (- - (x * y)); [ring|rewrite E'; ring]. }
  destruct R as (x1 & y1 & C1 & S1 & N1). destruct (Fneg_bit x1) eqn:E.
  2: { exists x1, y1. split_and!; assumption. }
  assert (C2 : coset (x1, y1) (- x1, - y1))
    by (exists (0, - (1)); split; [by right; left|by rewrite ed_add_m1]).
  exists (- x1), (- y1). replace (- x1 * - y1) with (x1 * y1) by ring.
  split; [by apply (coset_trans _ (x1, y1))|]. split; [|split; assumption].
  rewrite Fneg_bit_opp, E; [reflexivity|]. intros ->. apply N1. ring.
Qed.

Lemma canonical_decode x y s : on_curve x y → Fneg_bit x = false → Fneg_bit (x * y) = false → x * y ≠ 0 →
  encodes x y s → decode_spec s x y.
Proof.
  intros Hc Nx Nt N [[Z _]|(r & Hr & Es)]; [destruct (N Z)|].
  destruct (generic_nonzero _ _ _ _ Hr) as [N1 N2].
  unfold encode_val in Es. rewrite Nt, Nx in Es.
  assert (Hs2 : s * s * (1 + y) = 1 - y).
  { rewrite Es, Fabs_sq. transitivity ((1 - y * y) * (x * y * (x * y)) * (r * r) * (1 - y)); [ring|].
    rewrite Hr. ring. }
  assert (Hw : 1 - y * y ≠ 0) by (by destruct (nonzero_factors _ _ _ Hr)).
  clear Es Hr.
  assert (H2 : (1 + s * s) * (1 + y) = 1 + 1) by (transitivity (1 + y + s * s * (1 + y)); [ring|rewrite Hs2; ring]).
  assert (Hu : 1 - s * s = (1 + s * s) * y).
  { transitivity (1 - s * s * (1 + y) + s * s * y); [ring|]. rewrite Hs2. ring. }
  assert (Nu : 1 + s * s ≠ 0) by (intros E; apply F_2_neq_0; rewrite <- H2, E; ring).
  assert (Ns : s + s ≠ 0).
  { intros E. apply Hw. assert (E' : (1 + 1) * s = 0) by (rewrite <- E; ring).
    destruct (F_integral _ _ E') as [E3|E3]; [by destruct (F_2_neq_0 E3)|].
    transitivity ((1 - y) * (1 + y)); [ring|]. rewrite <- Hs2, E3. ring. }
  set (u2 := 1 + s * s) in *. assert (Eu2 : u2 = 1 + s * s) by done.
  set (u1 := 1 - s * s) in *. assert (Eu1 : u1 = 1 - s * s) by done.
  set (v := - (Fd * (u1 * u1)) - u2 * u2). assert (Ev : v = - (Fd * (u1 * u1)) - u2 * u2) by done.
  clearbody v u1 u2.
  assert (Hv : v * (x * x) = (s + s) * (s + s)).
  { transitivity (u2 * u2 - u1 * u1); [|rewrite Eu1, Eu2; ring].
    rewrite Ev, Hu. unfold on_curve in Hc.
    transitivity (u2 * u2 * (- (1 + Fd * x * x * y * y) + 1 - x * x)); [ring|]. rewrite <- Hc. ring. }
  destruct (F_inverse ((s + s) * u2)) as [q Hq]; [by apply F_mul_nonzero|].
  assert (Hr : v * (u2 * u2) * (x * q * (x * q)) = 1).
  { apply (F_mul_cancel ((s + s) * (s + s))); [by apply F_mul_nonzero|].
    transitivity (v * (x * x) * ((s + s) * u2 * q * ((s + s) * u2 * q))); [ring|]. rewrite Hq, Hv. ring. }
  exists (x * q). cbv zeta. rewrite <- Eu1, <- Eu2, <- Ev.
  split; [exact Hr|]. split; [|split; [|split; assumption]].
  - rewrite <- (Fabs_id x Nx) at 1. apply Fabs_root.
    transitivity ((s + s) * u2 * q * x * ((s + s) * u2 * q * x)); [rewrite Hq; ring|ring].
  - rewrite Hu. transitivity (v * (u2 * u2) * (x * q * (x * q)) * y); [rewrite Hr; ring|ring].
Qed.

Lemma decode_zero : decode_spec 0 0 1.
Proof.
  exists Fc. cbv zeta. pose proof Fc_sq as Hc. split.
  { transitivity (Fc * Fc * (- (1) - Fd)); [ring|exact Hc]. }
  split; [|split; [|split; [|apply F_1_neq_0]]].
  - symmetry. replace ((0 + 0) * (Fc * (1 + 0 * 0))) with 0 by ring. apply Fabs_id, Fneg_bit_0.
  - transitivity (Fc * Fc * (- (1) - Fd)); [symmetry; exact Hc|ring].
  - replace (0 * 1) with 0 by ring. apply Fneg_bit_0.
Qed.

(** The points with [xy = 0] are the torsion points. *)
Lemma torsion_points x y : on_curve x y → x * y = 0 → torsion (x, y).
Proof.
  intros Hc Z. unfold on_curve in Hc. pose proof Fi_sq as Hi.
  destruct (F_integral _ _ Z) as [-> | ->].
  - destruct (F_square_root_eq y 1) as [-> | ->]; [|by left|by right; left].
    transitivity (y * y - 0 * 0); [ring|]. rewrite Hc. ring.
  - destruct (F_square_root_eq x Fi) as [-> | ->]; [|by right; right; left|by right; right; right].
    rewrite Hi. transitivity (- (0 * 0 - x * x)); [ring|]. rewrite Hc. ring.
Qed.

Lemma encodes_decode x y s : even_point (x, y) → encodes x y s →
  ∃ x' y', decode_spec s x' y' ∧ coset (x, y) (x', y').
Proof.
  intros [Hc _] He. destruct (decide (x * y = 0)) as [Z|N].
  - destruct He as [[_ ->]|(r & Hr & _)].
    2: { destruct (generic_nonzero _ _ _ _ Hr) as [N1 N2]. by destruct (F_mul_nonzero x y N1 N2). }
    exists 0, 1. split; [apply decode_zero|]. apply coset_sym; [apply zero_curve|].
    exists (x, y). split; [by apply torsion_points|]. symmetry. apply ed_add_0_l.
  - destruct (canonical_rep x y Hc N) as (x' & y' & HC & Nx & Nt & N').
    exists x', y'. split; [|done]. apply canonical_decode; [|done..|].
    + destruct HC as (T & HT & E). pose proof (ed_add_closed (x, y) T Hc (torsion_curve T HT)) as H.
      by rewrite <- E in H.
    + by apply (encodes_coset x y (x', y')).
Qed.

Lemma decode_even s x y : decode_spec s x y → even_point (x, y).
Proof.
  intros D. destruct (decode_curve _ _ _ D) as (Hc & Hy & Nu & _). split; [done|].
  exists ((s + s) / (1 + s * s)). cbn [snd]. pose proof (F_div_cancel (s + s) _ Nu) as E.
  set (q := (s + s) / (1 + s * s)) in *. clearbody q.
  apply (F_mul_cancel ((1 + s * s) * (1 + s * s))); [by apply F_mul_nonzero|].
  transitivity ((1 + s * s) * (1 + s * s) - (1 + s * s) * y * ((1 + s * s) * y)); [ring|].
  transitivity (q * (1 + s * s) * (q * (1 + s * s))); [rewrite Hy, E|]; ring.
Qed.

(** ** Encodings as elements of the group *)

(** [bs] is the encoding of the coset of [A]. *)
Definition enc_is (bs : list Z) (A : F * F) : Prop :=
  even_point A ∧ ∃ s, encodes (fst A) (snd A) s ∧ bs = le_bytes 32 (fv s).

Lemma encodes_nonneg x y s : encodes x y s → Fneg_bit s = false.
Proof.
  intros [[_ ->]|(r & _ & ->)]; [apply Fneg_bit_0|]. unfold encode_val.
  destruct (Fneg_bit (x * y)); apply Fabs_nonneg.
Qed.

Lemma fv_bytes s : le_val (le_bytes 32 (fv s)) = fv s.
Proof. apply le_val_bytes. pose proof (fv_bound s). unfold p25519 in *. split; [lia|]. change (256 ^ _)%Z with (2 ^ 256)%Z. lia. Qed.

Lemma rist_encode_enc P A : ext_is P A → even_point A → enc_is (rist_encode P) A.
Proof.
  destruct A as [x y]. intros HP HA. split; [done|]. destruct (even_encodes x y HA) as [s Hs].
  exists s. split; [done|]. by apply (encode_is P x y).
Qed.

Lemma enc_decode bs A : enc_is bs A → ∃ P B, rist_decode bs = Some P ∧ ext_is P B ∧ even_point B ∧ coset A B.
Proof.
  destruct A as [x y]. intros [HA (s & Hs & ->)]. cbn [fst snd] in Hs.
  destruct (encodes_decode x y s HA Hs) as (x' & y' & D & HC).
  destruct (rist_decode_complete (le_bytes 32 (fv s)) x' y') as (P & HP & HE);
    [apply length_le_bytes|apply le_bytes_bytes| | | |].
  - rewrite fv_bytes. apply fv_bound.
  - rewrite fv_bytes, toF_fv. by apply (encodes_nonneg x y).
  - by rewrite fv_bytes, toF_fv.
  - exists P, (x', y'). split_and!; [assumption..|by apply (decode_even s)|assumption].
Qed.

Lemma decode_enc bs P : length bs = 32%nat → bytes bs → rist_decode bs = Some P →
  ∃ A, ext_is P A ∧ enc_is bs A.
Proof.
  intros Hl Hb HP. destruct (rist_decode_is bs P Hl Hb HP) as (Hlt & Hs & x & y & D & Nx & _).
  destruct (rist_decode_point bs P Hl Hb HP) as (x' & y' & HE & D').
  destruct (decode_spec_fun _ _ _ _ _ D D') as [<- <-].
  exists (x, y). split; [done|]. split; [by apply (decode_even _ _ _ D)|].
  exists (toF (le_val bs)). split; [by apply decode_encodes|].
  rewrite toF_le_val by done. rewrite <- Hl. symmetry. by apply le_bytes_val.
Qed.

Lemma torsion_even T : torsion T → even_point T.
Proof.
  intros HT. split; [by apply torsion_curve|].
  destruct HT as [->|[->|[->| ->]]]; cbn [snd]; [exists 0; ring|exists 0; ring|exists 1; ring..].
Qed.

Lemma enc_coset bs A B : coset A B → enc_is bs A → enc_is bs B.
Proof.
  destruct A as [x y]. intros HC [HA (s & Hs & ->)]. split.
  - destruct HC as (T & HT & ->). by apply even_add; [|apply torsion_even].
  - exists s. split; [|done]. by apply (encodes_coset x y B); [apply HA|..].
Qed.

Lemma enc_inj bs A B : enc_is bs A → enc_is bs B → coset A B.
Proof.
  destruct A as [x y], B as [x2 y2]. intros [HA (s & Hs & ->)] [HB (s2 & Hs2 & E)].
  assert (s = s2) as <- by (apply F_eq; rewrite <- fv_bytes, E; apply fv_bytes).
  destruct (encodes_decode _ _ _ HA Hs) as (u & v & D & C1).
  destruct (encodes_decode _ _ _ HB Hs2) as (u2 & v2 & D2 & C2).
  destruct (decode_spec_fun _ _ _ _ _ D D2) as [<- <-].
  apply (coset_trans _ (u, v)); [apply HA|done|]. apply coset_sym; [apply HB|done].
Qed.

(** A group operation on decoded points, encoded again. *)
Lemma enc_result P A B : ext_is P B → even_point A → coset A B → enc_is (rist_encode P) A.
Proof.
  intros HP HA HC. pose proof HC as (T & HT & E).
  assert (HB : even_point B) by (rewrite E; by apply even_add; [|apply torsion_even]).
  apply (enc_coset _ B); [apply coset_sym; [apply HA|done]|]. by apply rist_encode_enc.
Qed.

Lemma ext_sub_is P Q A B : ext_is P A → ext_is Q B → ext_is (ext_sub P Q) (ed_add A (ed_neg B)).
Proof. intros HP HQ. unfold ext_sub. by apply ext_add_is, ext_neg_is. Qed.

Lemma ext_curve P A : ext_is P A → curve A.
Proof. destruct A. intros [H _]. exact H. Qed.

Lemma ext_times_is P s A : sc_ok s → ext_is P A →
  ext_is (ext_scalarmul P s) (ed_times (Z.to_nat (sc_val s)) A).
Proof.
  intros Hs HP. rewrite <- ed_scalarmul_times; [by apply ext_scalarmul_is|by apply (ext_curve P)|].
  by apply sc_val_bound.
Qed.

Lemma rist_add_enc a b A B : enc_is a A → enc_is b B → ∃ c, rist_add a b = Ok c ∧ enc_is c (ed_add A B).
Proof.
  intros HA HB. destruct (enc_decode a A HA) as (P & A' & DP & EP & _ & CA).
  destruct (enc_decode b B HB) as (Q & B' & DQ & EQ & _ & CB).
  exists (rist_encode (ext_add P Q)). unfold rist_add, rist_decode_or_throw. rewrite DP, DQ.
  split; [reflexivity|]. apply (enc_result _ _ (ed_add A' B')); [by apply ext_add_is| |].
  - by apply even_add; [apply HA|apply HB].
  - by apply coset_add; [apply HA|apply HB|..].
Qed.

Lemma rist_sub_enc a b A B : enc_is a A → enc_is b B →
  ∃ c, rist_sub a b = Ok c ∧ enc_is c (ed_add A (ed_neg B)).
Proof.
  intros HA HB. destruct (enc_decode a A HA) as (P & A' & DP & EP & _ & CA).
  destruct (enc_decode b B HB) as (Q & B' & DQ & EQ & _ & CB).
  exists (rist_encode (ext_sub P Q)). unfold rist_sub, rist_decode_or_throw. rewrite DP, DQ.
  split; [reflexivity|]. apply (enc_result _ _ (ed_add A' (ed_neg B'))); [by apply ext_sub_is| |].
  - apply even_add; [apply HA|apply even_neg, HB].
  - apply coset_add; [apply HA|apply ed_neg_closed, HB|done|by apply coset_neg].
Qed.

Lemma rist_scalarmul_enc a s A : enc_is a A → sc_ok s →
  ∃ c, rist_scalarmul a s = Ok c ∧ enc_is c (ed_times (Z.to_nat (sc_val s)) A).
Proof.
  intros HA Hs. destruct (enc_decode a A HA) as (P & A' & DP & EP & _ & CA).
  exists (rist_encode (ext_scalarmul P s)). unfold rist_scalarmul, rist_decode_or_throw. rewrite DP.
  split; [reflexivity|]. apply (enc_result _ _ (ed_times (Z.to_nat (sc_val s)) A')); [by apply ext_times_is| |].
  - by apply even_times, HA.
  - by apply coset_times; [apply HA|].
Qed.

(** ** The generators *)

Definition By : F := toF (le_val by_bytes).
Definition Bx : F := toF 15112221349535400772501151409588531511454012693041857206046113283949847762202.

Lemma Bx_check : Bx * Bx * (Fd * (By * By) + 1) = By * By - 1 ∧ Fneg_bit Bx = false ∧
  (1 + 1 + (1 + 1) + 1) * By = 1 + 1 + (1 + 1).
Proof. split_and!; [apply F_eq; vm_compute; reflexivity|vm_compute; reflexivity|apply F_eq; vm_compute; reflexivity]. Qed.

Lemma is_by : fe_is (fe_frombytes by_bytes) By.
Proof. by apply frombytes_is. Qed.

(** No [1 + d y^2] vanishes: [-1] is a square and [d] is not. *)
Lemma one_plus_dy2 y : Fd * (y * y) + 1 ≠ 0.
Proof.
  intros E. assert (Ny : y ≠ 0) by (intros ->; apply F_1_neq_0; rewrite <- E; ring).
  apply (no_quotient (Fi * y) (y * y)); [by apply F_mul_nonzero|]. pose proof Fi_sq as Hi.
  generalize dependent Fi. generalize dependent Fd. intros. nsatz.
Qed.

(** [Z^((p + 3) / 8)] is a square root of a square up to the factor [i]. *)
Lemma candidate_root z x : z = x * x → z ≠ 0 →
  let X := Fpow z (2 ^ 252 - 3) * z in X * X = z ∨ X * X = - z.
Proof.
  intros Ez Nz X. set (q := Fpow z (2 ^ 252 - 3)) in X. 
  pose proof (pow2523_root z Nz) as H. cbv zeta in H. fold q in H. clearbody q.
  assert (EX : X * X = z * (z * (q * q))) by (unfold X; ring).
  assert (Nx : x ≠ 0) by (intros E; apply Nz; rewrite Ez, E; ring).
  assert (Et : z * (q * q) = x * q * (x * q)) by (rewrite Ez; ring).
  destruct (fourth_root _ H) as [E|[E|[E|E]]]; rewrite E in *.
  - left. rewrite EX. ring.
  - right. rewrite EX. ring.
  - destruct (Fi_not_square (x * q)). by rewrite <- Et.
  - destruct (Fi_not_square (Fi * (x * q))). transitivity (Fi * Fi * (x * q * (x * q))); [ring|].
    rewrite <- Et, Fi_sq. ring.
Qed.

Lemma ed_basepoint_is : ext_is ed_basepoint (Bx, By).
Proof.
  destruct Bx_check as (HB & Nb & _). pose proof (one_plus_dy2 By) as Nv.
  unfold ed_basepoint. cbv zeta. pose proof is_by as HY. change (fe_frombytes sqrtm1_bytes) with fe_sqrtm1.
  set (Y := fe_frombytes by_bytes) in *. clearbody Y.
  assert (EX2 : (By * By - 1) * Finv (Fd * (By * By) + 1) = Bx * Bx).
  { rewrite <- HB. change (Bx * Bx * (Fd * (By * By) + 1) * Finv (Fd * (By * By) + 1)) with
      (Bx * Bx * (Fd * (By * By) + 1) / (Fd * (By * By) + 1)). generalize dependent (Fd * (By * By) + 1).
    intros v _ Nv. by field. }
  set (X2 := fe_mul _ (fe_inv _)). 
  assert (HX2 : fe_is X2 (Bx * Bx)) by (rewrite <- EX2; unfold X2; apply is_mul; [fe_solve|apply is_inv; fe_solve]).
  clearbody X2. clear EX2.
  assert (NB : Bx ≠ 0) by (intros E; apply (f_equal fv) in E; vm_compute in E; discriminate).
  pose proof (candidate_root _ Bx eq_refl (F_mul_nonzero _ _ NB NB)) as Hr. cbv zeta in Hr.
  set (w := Fpow (Bx * Bx) (2 ^ 252 - 3) * (Bx * Bx)) in *.
  assert (HX : fe_is (fe_mul (fe_pow2523 X2) X2) w) by (unfold w; fe_solve).
  set (X := fe_mul (fe_pow2523 X2) X2) in *. clearbody X w.
  rewrite (is_zero_test (fe_sub (fe_sq X) X2) (w * w - Bx * Bx)) by fe_solve.
  set (X' := if negb _ then _ else _).
  assert (HX' : ∃ w', fe_is X' w' ∧ w' * w' = Bx * Bx).
  { unfold X'. destruct (decide (w * w - Bx * Bx = 0)) as [E|E].
    - rewrite bool_decide_eq_true_2 by done. cbn [negb]. exists w. split; [done|].
      transitivity (w * w - Bx * Bx + Bx * Bx); [ring|rewrite E; ring].
    - rewrite bool_decide_eq_false_2 by done. cbn [negb]. exists (w * Fi). split; [fe_solve|].
      destruct Hr as [Hr|Hr]; [destruct E; rewrite Hr; ring|].
      transitivity (w * w * (Fi * Fi)); [ring|]. rewrite Hr, Fi_sq. ring. }
  clearbody X'. destruct HX' as (w' & HX' & Hw'). rewrite (is_negative _ _ HX').
  assert (HX'' : fe_is (if Fneg_bit w' then fe_neg X' else X') Bx).
  { eapply fe_is_eq; [|apply (nonneg_root (Fabs w') Bx); [apply Fabs_nonneg|done|by rewrite Fabs_sq]].
    unfold Fabs. destruct (Fneg_bit w'); [by apply is_neg|done]. }
  split.
  - unfold on_curve. transitivity (By * By - 1 - Bx * Bx + 1); [ring|]. rewrite <- HB. ring.
  - exists 1. cbn [pX pY pZ pT]. split; [apply F_1_neq_0|].
    split; [|split; [|split; [apply is_one_elem|]]]; (eapply fe_is_eq; [|]); [exact HX''|ring|exact HY|ring| |].
    { apply is_mul; [exact HX''|exact HY]. }
    ring.
Qed.

Lemma basepoint_even : even_point (Bx, By).
Proof.
  split; [apply (ext_curve _ _ ed_basepoint_is)|]. destruct Bx_check as (_ & _ & H5). cbn [snd].
  destruct (F_inverse (1 + 1 + (1 + 1) + 1)) as [q Hq].
  { intros E%(f_equal fv). vm_compute in E. discriminate. }
  exists ((1 + 1 + 1) * q).
  assert (E : By = (1 + 1 + (1 + 1)) * q).
  { transitivity ((1 + 1 + (1 + 1) + 1) * q * By); [rewrite Hq; ring|].
    transitivity (q * ((1 + 1 + (1 + 1) + 1) * By)); [ring|]. rewrite H5. ring. }
  rewrite E. transitivity ((1 + 1 + (1 + 1) + 1) * q * ((1 + 1 + (1 + 1) + 1) * q) - (1 + 1 + (1 + 1)) * q * ((1 + 1 + (1 + 1)) * q));
    [rewrite Hq|]; ring.
Qed.

Lemma rist_basemul_enc s : sc_ok s → enc_is (rist_basemul s) (ed_times (Z.to_nat (sc_val s)) (Bx, By)).
Proof.
  intros Hs. apply rist_encode_enc; [apply ext_times_is; [done|apply ed_basepoint_is]|].
  apply even_times, basepoint_even.
Qed.

Lemma rist_G_enc : enc_is rist_G (Bx, By).
Proof.
  pose proof (rist_basemul_enc (mkScalar [1; 0; 0; 0]%Z)) as H.
  change (Z.to_nat (sc_val (mkScalar [1; 0; 0; 0]%Z))) with 1%nat in H.
  rewrite ed_times_S in H. change (ed_times 0 (Bx, By)) with (0, 1) in H.
  rewrite ed_add_comm, ed_add_0_l in H. apply H. unfold sc_ok. split; [done|].
  repeat constructor; unfold word; lia.
Qed.

(** *** The second generator *)

(** Elligator: both candidates for [s] land on the Jacobi quartic of the curve. *)
Lemma elligator_quartic d r s c u v : u = (r + 1) * (1 - d * d) → v = (- (1) - r * d) * (r + d) →
  v * (s * s) = u ∧ c = - (1) ∨ v * (s * s) = r * u ∧ c = r →
  let N := c * (r - 1) * ((d - 1) * (d - 1)) - v in
  v * v * (- (d * ((1 - s * s) * (1 - s * s))) - (1 + s * s) * (1 + s * s)) = N * N * (- (1) - d).
Proof.
  intros -> Hv [[Hs ->]|[Hs ->]] N; subst N.
  - transitivity (- (d + 1) * (v * v + v * (s * s) * (v * (s * s))) + (1 + 1) * (d - 1) * v * (v * (s * s))); [ring|].
    rewrite Hs, Hv. ring.
  - transitivity (- (d + 1) * (v * v + v * (s * s) * (v * (s * s))) + (1 + 1) * (d - 1) * v * (v * (s * s))); [ring|].
    rewrite Hs, Hv. ring.
Qed.

(** The point of the quartic on the curve. *)
Lemma elligator_even s N v e : 1 + s * s ≠ 0 → N ≠ 0 → e * e = - (1) - Fd → e ≠ 0 →
  v * v * (- (Fd * ((1 - s * s) * (1 - s * s))) - (1 + s * s) * (1 + s * s)) = N * N * (- (1) - Fd) →
  even_point ((s + s) * v / (N * e), (1 - s * s) / (1 + s * s)).
Proof.
  intros Nw NN He Ne Hq. pose proof (F_div_cancel ((s + s) * v) (N * e) (F_mul_nonzero _ _ NN Ne)) as Ex.
  pose proof (F_div_cancel (1 - s * s) _ Nw) as Ey. pose proof (F_div_cancel (s + s) _ Nw) as Eq.
  set (x := (s + s) * v / (N * e)) in *. set (y := (1 - s * s) / (1 + s * s)) in *.
  set (q := (s + s) / (1 + s * s)) in *. clearbody x y q. split.
  - unfold curve, on_curve. cbn [fst snd].
    apply (F_mul_cancel ((1 + s * s) * (1 + s * s) * (N * e * (N * e)))); [nonzero|].
    set (a := (1 + s * s) * (1 + s * s)). set (b := (1 - s * s) * (1 - s * s)) in *.
    transitivity (y * (1 + s * s) * (y * (1 + s * s)) * (N * N) * (e * e) - a * (x * (N * e) * (x * (N * e)))); [unfold a; ring|].
    transitivity (a * (N * N) * (e * e) + Fd * (x * (N * e) * (x * (N * e))) * (y * (1 + s * s) * (y * (1 + s * s)))); [|unfold a; ring].
    rewrite Ex, Ey, He. unfold a, b in *. generalize dependent (- (1) - Fd). intros k Hk Hq.
    transitivity (((1 - s * s) * (1 - s * s) - (1 + s * s) * (1 + s * s)) * (N * N * k) + (1 + s * s) * (1 + s * s) * (N * N * k)
       - (1 + s * s) * (1 + s * s) * ((s + s) * v * ((s + s) * v))); [ring|]. rewrite <- Hq at 1. ring.
  - exists q. cbn [snd]. apply (F_mul_cancel ((1 + s * s) * (1 + s * s))); [nonzero|].
    transitivity ((1 + s * s) * (1 + s * s) - y * (1 + s * s) * (y * (1 + s * s))); [ring|].
    transitivity (q * (1 + s * s) * (q * (1 + s * s))); [rewrite Ey, Eq|]; ring.
Qed.

Definition Fe : F := toF (le_val sqrt_ad_minus_one_bytes).

Lemma fv_nonzero x : fv x ≠ 0%Z → x ≠ 0.
Proof. intros H ->. by apply H. Qed.

Lemma is_one_minus_d_sq : fe_is rist_one_minus_d_sq (1 - Fd * Fd).
Proof. unfold rist_one_minus_d_sq. cbv zeta. fe_solve. Qed.
Lemma is_d_minus_one_sq : fe_is rist_d_minus_one_sq ((Fd - 1) * (Fd - 1)).
Proof. unfold rist_d_minus_one_sq. cbv zeta. fe_solve. Qed.
Lemma is_sqrt_ad : fe_is rist_sqrt_ad_minus_one Fe.
Proof. by apply frombytes_is. Qed.

(** The facts about the constants. *)
Lemma Fe_facts : Fe * Fe = - (1) - Fd ∧ Fe ≠ 0.
Proof. split; [apply F_eq; vm_compute; reflexivity|]. apply fv_nonzero. vm_compute. discriminate. Qed.

(** Off the zeros of [v], the quartic keeps the denominators from vanishing. *)
Lemma elligator_nonzero s N v : v ≠ 0 →
  v * v * (- (Fd * ((1 - s * s) * (1 - s * s))) - (1 + s * s) * (1 + s * s)) = N * N * (- (1) - Fd) →
  1 + s * s ≠ 0 ∧ N ≠ 0.
Proof.
  intros Nv Q. destruct Fe_facts as [He Ne]. pose proof Fi_sq as Hi. pose proof F_2_neq_0 as N2. rewrite <- He in Q.
  assert (Ht : 1 + s * s = 0 → 1 - s * s ≠ 0) by (intros E E'; apply N2; transitivity (1 + s * s + (1 - s * s)); [ring|rewrite E, E'; ring]).
  assert (Nw : 1 + s * s ≠ 0).
  { intros E. apply (no_quotient (Fi * N * Fe) (v * (1 - s * s))); [by apply F_mul_nonzero, Ht|].
    transitivity (Fi * Fi * (N * N * (Fe * Fe))); [ring|]. rewrite <- Q, E, Hi. ring. }
  split; [done|]. intros ->. 
  assert (E : v * v * (- (Fd * ((1 - s * s) * (1 - s * s))) - (1 + s * s) * (1 + s * s)) = 0) by (rewrite Q; ring).
  destruct (F_integral _ _ E) as [E'|E']; [by destruct (F_mul_nonzero v v Nv Nv)|]. clear E Q.
  apply (no_quotient (Fi * (1 + s * s)) (1 - s * s)).
  - intros Z. rewrite Z in E'. apply (F_mul_nonzero _ _ Nw Nw). transitivity (- (- (Fd * (0 * 0)) - (1 + s * s) * (1 + s * s))); [ring|]. rewrite E'. ring.
  - transitivity (Fi * Fi * ((1 + s * s) * (1 + s * s))); [ring|]. rewrite Hi.
    transitivity (- (Fd * ((1 - s * s) * (1 - s * s))) - (1 + s * s) * (1 + s * s) + Fd * ((1 - s * s) * (1 - s * s))); [ring|].
    rewrite E'. ring.
Qed.

Lemma invsqrt_zero fu fw u b f r : fe_is fu u → fe_is fw 0 → fe_invsqrt fu fw = (b, f) → fe_is f r → r = 0.
Proof.
  intros Hu Hw E Hr. revert E. unfold fe_invsqrt. cbv zeta.
  set (fr := fe_mul (fe_mul fu _) (fe_pow2523 _)). set (q := Fpow (u * (0 * 0 * 0 * (0 * 0 * 0) * 0)) (2 ^ 252 - 3)).
  assert (Hfr : fe_is fr (u * (0 * 0 * 0) * q)) by (unfold fr, q; fe_solve). clearbody fr q.
  assert (E0 : u * (0 * 0 * 0) * q = 0) by ring. rewrite E0 in Hfr. clear E0.
  intros E%(f_equal snd). cbn [snd] in E. rewrite <- E in Hr. clear E. refine (fe_is_inj _ _ _ Hr _).
  eapply fe_is_eq; [fe_solve|].
  assert (Fabs 0 = 0) as Ha by apply Fabs_id, Fneg_bit_0.
  destruct (_ || _); [|exact Ha]. replace (0 * Fi) with 0 by ring. exact Ha.
Qed.

(** The point of a good pair [(s, N)]. *)
Lemma elligator_point fs fv_ fN s v N : fe_is fs s → fe_is fv_ v → fe_is fN N →
  (v = 0 ∧ s = 0 ∧ N ≠ 0) ∨ (v ≠ 0 ∧ v * v * (- (Fd * ((1 - s * s) * (1 - s * s))) - (1 + s * s) * (1 + s * s)) = N * N * (- (1) - Fd)) →
  let w0 := fe_mul (fe_add fs fs) fv_ in
  let w1 := fe_mul fN rist_sqrt_ad_minus_one in
  let w2 := fe_sub fe_one (fe_sq fs) in
  let w3 := fe_add fe_one (fe_sq fs) in
  ∃ A, enc_is (rist_encode (mkExt (fe_mul w0 w3) (fe_mul w2 w1) (fe_mul w1 w3) (fe_mul w0 w2))) A.
Proof.
  intros Hs Hv HN H. cbv zeta. destruct Fe_facts as [He Ne]. pose proof is_sqrt_ad as HFe.
  assert (Hn : 1 + s * s ≠ 0 ∧ N ≠ 0).
  { destruct H as [(-> & -> & NN)|[Nv Q]]; [|by apply (elligator_nonzero s N v)].
    split; [|done]. replace (1 + 0 * 0) with 1 by ring. apply F_1_neq_0. }
  destruct Hn as [Nw NN].
  pose proof (F_div_cancel ((s + s) * v) (N * Fe) (F_mul_nonzero _ _ NN Ne)) as Ex.
  pose proof (F_div_cancel (1 - s * s) _ Nw) as Ey.
  assert (HA : even_point ((s + s) * v / (N * Fe), (1 - s * s) / (1 + s * s))).
  { destruct H as [(-> & -> & _)|[Nv Q]]; [|by apply elligator_even].
    assert (E0 : (0 + 0) * 0 / (N * Fe) = 0) by (field; split; done). 
    assert (E1 : (1 - 0 * 0) / (1 + 0 * 0) = 1) by (replace (1 + 0 * 0) with 1 by ring; field; apply F_1_neq_0).
    rewrite E0, E1. apply even_zero. }
  clear H. eexists. apply rist_encode_enc; [|exact HA]. split; [apply HA|]. clear HA.
  set (x := (s + s) * v / (N * Fe)) in *. set (y := (1 - s * s) / (1 + s * s)) in *. clearbody x y.
  exists (N * Fe * (1 + s * s)). split; [nonzero|]. cbn [pX pY pZ pT].
  split; [|split; [|split]]; (eapply fe_is_eq; [fe_solve|]).
  - rewrite <- Ex. ring.
  - rewrite <- Ey. ring.
  - ring.
  - rewrite <- Ex, <- Ey. ring.
Qed.

(** The map of a field element to the group is defined everywhere. *)
Lemma rist_H_from_enc fr0 r0 : fe_is fr0 r0 → ∃ A, enc_is (rist_H_from fr0) A.
Proof.
  intros Fr0'. unfold rist_H_from. cbv zeta. pose proof is_one_minus_d_sq as C1. pose proof is_d_minus_one_sq as C2.
  set (r := Fi * (r0 * r0)). set (u := (r + 1) * (1 - Fd * Fd)). set (v := (- (1) - r * Fd) * (r + Fd)).
  assert (Fr : fe_is (fe_mul fe_sqrtm1 (fe_sq fr0)) r) by (unfold r; fe_solve).
  set (fr := fe_mul fe_sqrtm1 (fe_sq fr0)) in *. clearbody fr.
  assert (Fu : fe_is (fe_mul (fe_add fr fe_one) rist_one_minus_d_sq) u) by (unfold u; fe_solve).
  set (fu := fe_mul (fe_add fr fe_one) _) in *. clearbody fu.
  assert (Fv : fe_is (fe_mul (fe_sub (fe_neg fe_one) (fe_mul fr ed_d)) (fe_add fr ed_d)) v) by (unfold v; fe_solve).
  set (fv_ := fe_mul (fe_sub (fe_neg fe_one) _) _) in *. clearbody fv_.
  pose proof (fe_invsqrt_is _ _ _ _ Fu Fv) as Hi.
  pose proof (invsqrt_zero fu fv_ u) as HZ. destruct (fe_invsqrt fu fv_) as [b fs] eqn:Einv.
  destruct Hi as (s & Fs & _ & Hb & H1 & H2).
  assert (Nr : r + 1 ≠ 0).
  { intros E. apply (Fi_not_square (Fi * Fi * r0)). pose proof Fi_sq as Hii. 
    transitivity (Fi * Fi * (Fi * (Fi * (r0 * r0)))); [ring|]. fold r. replace r with (r + 1 - 1) by ring.
    rewrite E, Hii. ring. }
  set (s' := if b then s else - Fabs (s * r0)). set (c := if b then - (1) else r).
  assert (Fs' : fe_is (fe_cmov (fe_neg (fe_abs (fe_mul fs fr0))) fs b) s') by (unfold s'; fe_solve).
  assert (Fc' : fe_is (fe_cmov fr (fe_neg fe_one) b) c) by (unfold c; fe_solve).
  set (fs' := fe_cmov _ fs b) in *. set (fc := fe_cmov fr _ b) in *. clearbody fs' fc.
  set (N := c * (r - 1) * ((Fd - 1) * (Fd - 1)) - v).
  apply (elligator_point fs' fv_ _ s' v N); [done|done|unfold N; fe_solve|].
  destruct (decide (v = 0)) as [Ev|Nv]; [left|right; split; [exact Nv|]].
  - assert (Es : s = 0) by (apply (HZ b fs s); [done|by rewrite <- Ev|done|done]).
    assert (b = false) as Eb.
    { destruct b; [|done]. exfalso. specialize (H1 eq_refl). rewrite Ev in H1.
      apply (F_mul_nonzero (r + 1) (1 - Fd * Fd)); [done| |fold u; rewrite <- H1; ring].
      apply fv_nonzero. vm_compute. discriminate. }
    split; [done|]. subst s' c N. rewrite Eb. split.
    { rewrite Es. replace (0 * r0) with 0 by ring. rewrite Fabs_id by apply Fneg_bit_0. ring. }
    rewrite Ev. assert (Er : r = - Fd ∨ r * Fd = - (1)).
    { destruct (F_integral _ _ Ev) as [E|E]; [right|left].
      - transitivity (- (1) - (- (1) - r * Fd)); [ring|]. rewrite E. ring.
      - transitivity (r + Fd - Fd); [ring|]. rewrite E. ring. }
    assert (Nd1 : Fd - 1 ≠ 0) by (apply fv_nonzero; vm_compute; discriminate).
    assert (Nd2 : Fd + 1 ≠ 0) by (apply fv_nonzero; vm_compute; discriminate).
    assert (Nd : Fd ≠ 0) by (apply fv_nonzero; vm_compute; discriminate).
    assert (Hr0 : r ≠ 0).
    { intros E. rewrite E in Er. destruct Er as [E'|E'].
      - apply Nd. transitivity (- - Fd); [ring|]. rewrite <- E'. ring.
      - apply F_1_neq_0. transitivity (- - (1)); [ring|]. rewrite <- E'. ring. }
    assert (Hr1 : r - 1 ≠ 0).
    { intros E. assert (E1 : r = 1) by (transitivity (r - 1 + 1); [ring|rewrite E; ring]). rewrite E1 in Er. apply Nd2. destruct Er as [E'|E'].
      - rewrite E'. ring.
      - transitivity (1 * Fd + 1); [ring|]. rewrite E'. ring. }
    replace (r * (r - 1) * ((Fd - 1) * (Fd - 1)) - 0) with (r * (r - 1) * ((Fd - 1) * (Fd - 1))) by ring. nonzero.
  - apply (elligator_quartic Fd r s' c u v eq_refl eq_refl). unfold s', c. destruct b; [left|right; split; [|done]].
    + split; [by apply H1|done].
    + destruct (H2 eq_refl) as [Z|E]; [destruct (Nv Z)|].
      transitivity (v * (Fabs (s * r0) * Fabs (s * r0))); [ring|]. rewrite Fabs_sq.
      transitivity (v * (s * s) * (r0 * r0)); [ring|]. rewrite E. unfold r. ring.
Qed.

Lemma hash_point_enc bs : length bs = 32%nat → bytes bs → ∃ A, enc_is (rist_H_from (fe_frombytes bs)) A.
Proof. intros Hl Hb. eapply rist_H_from_enc, rep_is, fe_frombytes_rep; done. Qed.

(** A digest with its top bit cleared. *)
Lemma masked_digest_enc s : length (Sha.h s) = 8%nat →
  ∃ A, enc_is (rist_H_from (fe_frombytes (<[31%nat := (nth 31 (Sha.finish s) 0 .& 0x7f)%Z]> (Sha.finish s)))) A.
Proof.
  intros Hs. apply hash_point_enc; [by rewrite length_insert, finish_length|].
  apply Forall_insert; [apply finish_bytes|]. rewrite (land_low _ 7) by done. unfold word.
  pose proof (Z.mod_pos_bound (nth 31 (Sha.finish s) 0)%Z (2 ^ 7)%Z ltac:(lia)). lia.
Qed.

Lemma rist_H_enc : ∃ A, enc_is rist_H A.
Proof. apply masked_digest_enc. by rewrite update_length. Qed.

(** Test vector of RFC 9496: the encoding of the base point. *)
Definition basepoint_bytes : list Z :=
  ([0xe2; 0xf2; 0xae; 0x0a; 0x6a; 0xbc; 0x4e; 0x71; 0xa8; 0x84; 0xa9; 0x61; 0xc5; 0x00; 0x51; 0x5f;
   0x58; 0xe3; 0x0b; 0x6a; 0xa5; 0x82; 0xdd; 0x8d; 0xb6; 0xa6; 0x59; 0x45; 0xe0; 0x8d; 0x2d; 0x76])%Z.

Example basepoint_encoding : rist_encode ed_basepoint = basepoint_bytes.
Proof.
  rewrite (encode_is _ Bx By (toF (le_val basepoint_bytes)) ed_basepoint_is); [vm_compute; reflexivity|].
  right. exists (toF 5323291442220986080094106682159888122382127198503675304741040912757211747795).
  split; apply F_eq; vm_compute; reflexivity.
Qed.

Lemma enc_unique a b A : enc_is a A → enc_is b A → a = b.
Proof.
  intros [_ (s & Hs & ->)] [_ (s' & Hs' & ->)]. by rewrite (encodes_fun _ _ _ _ Hs Hs').
Qed.

(** *** Pedersen commitments *)

Lemma pedersen_commit_enc G H v r : enc_is rist_G G → enc_is rist_H H → sc_ok v → sc_ok r →
  ∃ c, pedersen_commit v r = Ok c ∧
    enc_is c (ed_add (ed_times (Z.to_nat (sc_val v)) G) (ed_times (Z.to_nat (sc_val r)) H)).
Proof.
  intros HG HH Hv Hr. destruct (enc_decode _ G HG) as (P & G' & DP & EP & _ & CG).
  destruct (enc_decode _ H HH) as (Q & H' & DQ & EQ & _ & CH).
  exists (rist_encode (ext_add (ext_scalarmul P v) (ext_scalarmul Q r))). unfold pedersen_commit.
  rewrite DP, DQ. split; [reflexivity|].
  apply (enc_result _ _ (ed_add (ed_times (Z.to_nat (sc_val v)) G') (ed_times (Z.to_nat (sc_val r)) H'))).
  - by apply ext_add_is; apply ext_times_is.
  - by apply even_add; apply even_times; [apply HG|apply HH].
  - by apply coset_add; [apply ed_times_closed, HG|apply ed_times_closed, HH|apply coset_times, CG; apply HG|apply coset_times, CH; apply HH].
Qed.

(** Regrouping a sum of two commitments. *)
Lemma commit_sum G H v1 r1 v2 r2 v r : curve G → curve H → (0 ≤ v1)%Z → (0 ≤ v2)%Z → (0 ≤ r1)%Z → (0 ≤ r2)%Z →
  (v = v1 + v2)%Z → (r = r1 + r2)%Z →
  ed_add (ed_add (ed_times (Z.to_nat v1) G) (ed_times (Z.to_nat r1) H))
         (ed_add (ed_times (Z.to_nat v2) G) (ed_times (Z.to_nat r2) H)) =
  ed_add (ed_times (Z.to_nat v) G) (ed_times (Z.to_nat r) H).
Proof.
  intros HG HH ? ? ? ? -> ->. rewrite !Z2Nat.inj_add, !ed_times_add by done.
  by apply ed_add_swap; apply ed_times_closed.
Qed.

(** ** Properties *)

(** The extended-coordinate formulas compute in the group of the curve
    [-x^2 + y^2 = 1 + d x^2 y^2]: on points that represent [A] and [B],
    addition, doubling, negation, subtraction and double-and-add return a
    point representing [A + B], [2 A], [-A], [A - B] and [s A], without
    exceptional cases; and that addition is associative and commutative, with
    [(0, 1)] neutral and [ed_neg] as inverse. *)
Theorem ext_group_correct P Q A B C s : ext_is P A → ext_is Q B → curve C → sc_ok s →
  ext_is (ext_add P Q) (ed_add A B) ∧ ext_is (ext_double P) (ed_add A A) ∧
  ext_is (ext_neg P) (ed_neg A) ∧ ext_is (ext_sub P Q) (ed_add A (ed_neg B)) ∧
  ext_is (ext_scalarmul P s) (ed_times (Z.to_nat (sc_val s)) A) ∧ ext_is ext_identity (0, 1) ∧
  ed_add (ed_add A B) C = ed_add A (ed_add B C) ∧ ed_add A B = ed_add B A ∧
  ed_add (0, 1) A = A ∧ ed_add A (ed_neg A) = (0, 1).
Proof.
  intros HP HQ HC Hs. pose proof (ext_curve _ _ HP) as HA. pose proof (ext_curve _ _ HQ) as HB.
  split_and!; [by apply ext_add_is|by apply ext_double_is|by apply ext_neg_is|by apply ext_sub_is
    |by apply ext_times_is|apply ext_identity_is|by apply ed_add_assoc|apply ed_add_comm|apply ed_add_0_l
    |by apply ed_add_neg_r].
Qed.

Lemma five_scalar_ok : sc_ok (mkScalar [5; 0; 0; 0]%Z).
Proof. unfold sc_ok. split; [done|]. repeat constructor; unfold word; lia. Qed.

Lemma ten_scalar_ok : sc_ok (mkScalar [10; 0; 0; 0]%Z).
Proof. unfold sc_ok. split; [done|]. repeat constructor; unfold word; lia. Qed.

Lemma ext_group_correct_witness :
  ext_is (ext_add ed_basepoint ext_identity) (ed_add (Bx, By) (0, 1)) ∧
  ed_add (ed_add (Bx, By) (0, 1)) (Bx, By) = ed_add (Bx, By) (ed_add (0, 1) (Bx, By)).
Proof.
  destruct (ext_group_correct ed_basepoint ext_identity (Bx, By) (0, 1) (Bx, By) (mkScalar [5; 0; 0; 0]%Z)
    ed_basepoint_is ext_identity_is (proj1 basepoint_even) five_scalar_ok) as (A & _ & _ & _ & _ & _ & B & _).
  split; [exact A|exact B].
Defined.

(** [fe_invsqrt u v] decides whether [u / v] is a square and returns its
    non-negative root; for a non-square it returns the non-negative root of
    [sqrt(-1) u / v]. *)
Theorem fe_invsqrt_correct fu fw u w : fe_is fu u → fe_is fw w → w ≠ 0 → ∃ r,
  fe_is (snd (fe_invsqrt fu fw)) r ∧ Fneg_bit r = false ∧
  (fst (fe_invsqrt fu fw) = true ↔ ∃ x, w * (x * x) = u) ∧
  w * (r * r) = if fst (fe_invsqrt fu fw) then u else Fi * u.
Proof.
  intros Hu Hw Nw. pose proof (fe_invsqrt_is _ _ _ _ Hu Hw) as H.
  destruct (fe_invsqrt fu fw) as [b fr]. cbn [fst snd].
  destruct H as (r & Hr & Hneg & Hb & H1 & H2). exists r. split_and!; [done..|].
  destruct b; [by apply H1|]. by destruct (H2 eq_refl).
Qed.

Lemma fe_invsqrt_correct_witness : ∃ r, fe_is (snd (fe_invsqrt fe_one fe_one)) r ∧ Fneg_bit r = false ∧
  (fst (fe_invsqrt fe_one fe_one) = true ↔ ∃ x, 1 * (x * x) = 1) ∧
  1 * (r * r) = if fst (fe_invsqrt fe_one fe_one) then 1 else Fi * 1.
Proof. exact (fe_invsqrt_correct fe_one fe_one 1 1 is_one_elem is_one_elem F_1_neq_0). Defined.

(** C35. Ristretto encodings: a 32-byte string decodes exactly when it is the
    encoding of some point of the group; encoding the decoded point gives the
    string back; and decoding the encoding of a point gives a point of the
    same coset of the 4-torsion. *)
Theorem ristretto_roundtrip bs P A : length bs = 32%nat → bytes bs → ext_is P A → even_point A →
  ((∃ Q, rist_decode bs = Some Q) ↔ ∃ B, enc_is bs B) ∧
  (∀ Q, rist_decode bs = Some Q → rist_encode Q = bs) ∧
  ∃ Q B, rist_decode (rist_encode P) = Some Q ∧ ext_is Q B ∧ coset A B.
Proof.
  intros Hl Hb HP HA. split; [split|split].
  - intros [Q HQ]. destruct (decode_enc bs Q Hl Hb HQ) as (B & _ & HB). by exists B.
  - intros [B HB]. destruct (enc_decode bs B HB) as (Q & _ & HQ & _). by exists Q.
  - intros Q HQ. destruct (decode_enc bs Q Hl Hb HQ) as (B & HQB & HB & s & Hs & ->).
    destruct B as [x y]. by apply (encode_is Q x y s).
  - destruct (enc_decode _ A (rist_encode_enc P A HP HA)) as (Q & B & HQ & HQB & _ & HC).
    by exists Q, B.
Qed.

Lemma ristretto_roundtrip_witness :
  ((∃ Q, rist_decode (repeat 2%Z 32) = Some Q) ↔ ∃ B, enc_is (repeat 2%Z 32) B) ∧
  ∃ Q B, rist_decode (rist_encode ed_basepoint) = Some Q ∧ ext_is Q B ∧ coset (Bx, By) B.
Proof.
  destruct (ristretto_roundtrip (repeat 2%Z 32) ed_basepoint (Bx, By) eq_refl
    ltac:(repeat constructor; unfold word; lia) ed_basepoint_is basepoint_even) as (E & _ & D).
  split; [exact E|exact D].
Defined.

(** C33. The operations on encodings refine the group of cosets: for encodings
    of [A] and [B], [rist_add], [rist_sub] and [rist_scalarmul] never throw and
    return the encodings of [A + B], [A - B] and [s A]; and a string encodes
    two points exactly when they differ by a point of order dividing 4. *)
Theorem ristretto_group_correct a b A B s : enc_is a A → enc_is b B → sc_ok s →
  (∃ c, rist_add a b = Ok c ∧ enc_is c (ed_add A B)) ∧
  (∃ c, rist_sub a b = Ok c ∧ enc_is c (ed_add A (ed_neg B))) ∧
  (∃ c, rist_scalarmul a s = Ok c ∧ enc_is c (ed_times (Z.to_nat (sc_val s)) A)) ∧
  (∀ C, enc_is a C ↔ coset A C) ∧ enc_is rist_identity (0, 1).
Proof.
  intros HA HB Hs. split_and!; [by apply rist_add_enc|by apply rist_sub_enc|by apply rist_scalarmul_enc| |].
  - intros C. split; [by apply enc_inj|intros HC; by apply (enc_coset a A)].
  - apply rist_encode_enc; [apply ext_identity_is|apply even_zero].
Qed.

Lemma ristretto_group_correct_witness :
  (∃ c, rist_add rist_G rist_G = Ok c ∧ enc_is c (ed_add (Bx, By) (Bx, By))) ∧
  (∃ c, rist_scalarmul rist_G (mkScalar [5; 0; 0; 0]%Z) = Ok c ∧
    enc_is c (ed_times (Z.to_nat (sc_val (mkScalar [5; 0; 0; 0]%Z))) (Bx, By))).
Proof.
  destruct (ristretto_group_correct rist_G rist_G (Bx, By) (Bx, By) (mkScalar [5; 0; 0; 0]%Z)
    rist_G_enc rist_G_enc five_scalar_ok) as (A & _ & S & _).
  split; [exact A|exact S].
Defined.

(** C34. Pedersen commitments: with fixed generators [G] and [H] of the group,
    [pedersen_commit v r] never throws and returns the encoding of [v G + r H];
    [rist_add] of two commitments is, as bytes, the commitment to the sums, as
    integers, of the values and of the blinding factors. *)
Theorem pedersen_correct : ∃ G H, enc_is rist_G G ∧ enc_is rist_H H ∧
  ∀ v1 r1 v2 r2 v r, sc_ok v1 → sc_ok r1 → sc_ok v2 → sc_ok r2 → sc_ok v → sc_ok r →
  (sc_val v = sc_val v1 + sc_val v2)%Z → (sc_val r = sc_val r1 + sc_val r2)%Z →
  ∃ c1 c2 c, pedersen_commit v1 r1 = Ok c1 ∧ pedersen_commit v2 r2 = Ok c2 ∧
    pedersen_commit v r = Ok c ∧ rist_add c1 c2 = Ok c ∧
    enc_is c1 (ed_add (ed_times (Z.to_nat (sc_val v1)) G) (ed_times (Z.to_nat (sc_val r1)) H)).
Proof.
  destruct rist_H_enc as [H HH]. exists (Bx, By), H. split; [apply rist_G_enc|]. split; [done|].
  intros v1 r1 v2 r2 v r O1 O2 O3 O4 O5 O6 Ev Er.
  destruct (pedersen_commit_enc _ _ v1 r1 rist_G_enc HH O1 O2) as (c1 & P1 & E1).
  destruct (pedersen_commit_enc _ _ v2 r2 rist_G_enc HH O3 O4) as (c2 & P2 & E2).
  destruct (pedersen_commit_enc _ _ v r rist_G_enc HH O5 O6) as (c & P & E).
  destruct (rist_add_enc c1 c2 _ _ E1 E2) as (c' & Pa & Ea).
  exists c1, c2, c. split_and!; [done..| |done]. rewrite Pa. f_equal.
  rewrite (commit_sum _ _ _ _ _ _ (sc_val v) (sc_val r)) in Ea;
    [|apply basepoint_even|apply HH|by apply sc_val_bound..|exact Ev|exact Er].
  by apply (enc_unique _ _ _ Ea E).
Qed.

Lemma pedersen_correct_witness : ∃ c1 c2 c,
  pedersen_commit (mkScalar [5; 0; 0; 0]%Z) (mkScalar [5; 0; 0; 0]%Z) = Ok c1 ∧
  pedersen_commit (mkScalar [5; 0; 0; 0]%Z) (mkScalar [5; 0; 0; 0]%Z) = Ok c2 ∧
  pedersen_commit (mkScalar [10; 0; 0; 0]%Z) (mkScalar [10; 0; 0; 0]%Z) = Ok c ∧ rist_add c1 c2 = Ok c.
Proof.
  destruct pedersen_correct as (G & H & _ & _ & K).
  destruct (K (mkScalar [5; 0; 0; 0]%Z) (mkScalar [5; 0; 0; 0]%Z) (mkScalar [5; 0; 0; 0]%Z) (mkScalar [5; 0; 0; 0]%Z)
    (mkScalar [10; 0; 0; 0]%Z) (mkScalar [10; 0; 0; 0]%Z)) as (c1 & c2 & c & E1 & E2 & E & Ea & _);
    [exact five_scalar_ok..|exact ten_scalar_ok|exact ten_scalar_ok|reflexivity|reflexivity|].
  exists c1, c2, c. exact (conj E1 (conj E2 (conj E Ea))).
Defined.

(** The identity is encoded by 32 zeros, which decode. *)
Lemma identity_decodes : rist_decode (replicate 32 0%Z) ≠ None.
Proof.
  assert (E : enc_is (replicate 32 0%Z) (F0, F1)).
  { split; [apply even_zero|]. exists F0. split; [|reflexivity].
    left. split; [|done]. cbn [fst snd]. apply F_eq. reflexivity. }
  destruct (enc_decode _ _ E) as (P & _ & HP & _). by rewrite HP.
Qed.
