(* ===== verification/Order.v ===== *)
(** * The order of the Ristretto group

    The even points modulo the 4-torsion form a cyclic group of prime order
    [scL], generated by the base point.  The curve has at most [2 p] points, of
    which the multiples of the base point, their translates by the torsion and
    by a point that is not even already make up half; so there is no room for
    an even point outside.  Encodings are therefore determined by a logarithm
    modulo [scL], and the group operations are linear in it: [dlog]. *)

From Stdlib Require Import Field NsatzTactic.
From stdpp Require Import finite fin.
From S2P Require Import Prelude Primes Field Hash Fe25519 Scalar25519 Zp Ristretto Edwards RistrettoOps RistrettoGroup.

#[local] Open Scope F_scope.
#[local] Opaque toF Fadd Fmul Fsub Fopp Finv Fdiv Fpow F0 F1 Fd Fi Fc scL.

(** ** Projective arithmetic on integers, reduced by folding *)

Record proj : Set := mkProj { prX : Z; prY : Z; prZ : Z; prT : Z }.

Definition proj_is (P : proj) (A : F * F) : Prop :=
  let '(x, y) := A in
  on_curve x y ∧ toF (prZ P) ≠ 0 ∧ toF (prX P) = x * toF (prZ P) ∧ toF (prY P) = y * toF (prZ P) ∧
  toF (prT P) = x * y * toF (prZ P).

Definition zmul (x y : Z) : Z := fold255 (fold255 (x * y)).

Definition padd (d2 : Z) (P Q : proj) : proj :=
  (let a := zmul (prY P - prX P) (prY Q - prX Q) in
   let b := zmul (prY P + prX P) (prY Q + prX Q) in
   let c := zmul (zmul (prT P) d2) (prT Q) in
   let d := zmul (prZ P + prZ P) (prZ Q) in
   mkProj (zmul (b - a) (d - c)) (zmul (d + c) (b + a)) (zmul (d - c) (d + c)) (zmul (b - a) (b + a)))%Z.

Lemma toF_zmul x y : toF (zmul x y) = toF x * toF y.
Proof. rewrite <- toF_mul. apply toF_eq. unfold zmul. by rewrite !fold255_spec. Qed.

Lemma padd_is d2 P Q A B : toF d2 = Fd + Fd → proj_is P A → proj_is Q B → proj_is (padd d2 P Q) (ed_add A B).
Proof.
  destruct P as [X1 Y1 Z1 T1], Q as [X2 Y2 Z2 T2], A as [x1 y1], B as [x2 y2]. unfold proj_is. cbn [prX prY prZ prT].
  intros Ed (H1 & N1 & EX1 & EY1 & ET1) (H2 & N2 & EX2 & EY2 & ET2).
  pose proof (denominator_nonzero _ _ _ _ H1 H2) as Hk.
  pose proof (nz_1_plus _ Hk) as Hp. pose proof (nz_1_minus _ Hk) as Hm. clear Hk.
  pose proof (ed_add_curve _ _ _ _ H1 H2) as Hc. cbn [ed_add] in *. unfold padd. cbv zeta. cbn [prX prY prZ prT].
  rewrite !toF_zmul, !toF_add, !toF_sub, !toF_zmul, !toF_add, !toF_sub, Ed, EX1, EY1, ET1, EX2, EY2, ET2.
  set (z1 := toF Z1) in *. set (z2 := toF Z2) in *. clearbody z1 z2.
  clear X1 Y1 Z1 T1 X2 Y2 Z2 T2 EX1 EY1 ET1 EX2 EY2 ET2.
  split; [done|].
  set (f := (z1 + z1) * z2 - _). set (g := (z1 + z1) * z2 + _).
  assert (Ef : f = (1 + 1) * ((1 - Fd * x1 * x2 * y1 * y2) * (z1 * z2))) by (unfold f; ring).
  assert (Eg : g = (1 + 1) * ((1 + Fd * x1 * x2 * y1 * y2) * (z1 * z2))) by (unfold g; ring).
  pose proof F_2_neq_0 as N2'. set (x3 := _ / (1 + _)) in *. set (y3 := _ / (1 - _)) in *.
  set (a := (y1 * z1 - x1 * z1) * (y2 * z2 - x2 * z2)). set (b := (y1 * z1 + x1 * z1) * (y2 * z2 + x2 * z2)).
  set (e := b - a). set (h := b + a).
  assert (Ex : x3 * g = e) by (unfold x3, e, a, b; rewrite Eg; field; done).
  assert (Ey : y3 * f = h) by (unfold y3, h, a, b; rewrite Ef; field; done).
  assert (Nf : f ≠ 0) by (rewrite Ef; nonzero). assert (Ng : g ≠ 0) by (rewrite Eg; nonzero).
  clearbody x3 y3 f g h e. clear a b. clear Hc Hp Hm Ef Eg. rewrite <- Ex, <- Ey. split; [nonzero|]. split; [|split]; ring.
Qed.

Fixpoint pbits (n : nat) (d2 s : Z) (R Q : proj) : proj :=
  match n with
  | O => R
  | S n => pbits n d2 (s / 2) (if Z.odd s then padd d2 R Q else R) (padd d2 Q Q)
  end.

Lemma pbits_is n d2 s R Q A B : toF d2 = Fd + Fd → proj_is R A → proj_is Q B →
  proj_is (pbits n d2 s R Q) (ed_bits n s A B).
Proof.
  intros Ed. revert s R Q A B. induction n as [|n IH]; intros s R Q A B HR HQ; [done|]. cbn [pbits ed_bits].
  apply IH; [destruct (Z.odd s); [by apply padd_is|done]|by apply padd_is].
Qed.

(** ** The order of the base point *)

Definition base : F * F := (Bx, By).

Lemma base_curve : curve base.
Proof. apply basepoint_even. Qed.

Definition base_multiple : proj :=
  let x := fv Bx in let y := fv By in let d2 := fv (Fd + Fd) in
  pbits 253 d2 scL (mkProj 0 1 1 0) (mkProj x y 1 (zmul x y)).

Lemma base_multiple_value :
  (let P := base_multiple in (prX P mod p25519 =? 0) && (prY P mod p25519 =? prZ P mod p25519)) = true.
Proof. vm_compute. reflexivity. Qed.

Lemma proj_zero P A : proj_is P A → prX P mod p25519 = 0 mod p25519 → prY P mod p25519 = prZ P mod p25519 → A = (0, 1).
Proof.
  destruct P as [X Y Z T], A as [x y]. unfold proj_is. cbn [prX prY prZ prT]. intros (_ & N & EX & EY & _) HX HY.
  apply toF_eq in HX. apply toF_eq in HY. change (toF 0) with 0 in HX. rewrite HX in EX. rewrite HY in EY.
  f_equal; apply (F_mul_cancel (toF Z)); [done| |done|].
  - transitivity (x * toF Z); [ring|]. rewrite <- EX. ring.
  - transitivity (y * toF Z); [ring|]. rewrite <- EY. ring.
Qed.

Lemma scL_bound : (0 < scL < 2 ^ 253)%Z.
Proof. Transparent scL. unfold scL. Opaque scL. lia. Qed.

(** The base point has order [scL]. *)
Lemma base_order : ed_times (Z.to_nat scL) base = (0, 1).
Proof.
  pose proof scL_bound as Hb.
  assert (E : ed_bits 253 scL (0, 1) base = ed_times (Z.to_nat scL) base).
  { rewrite ed_bits_times; [apply ed_add_0_l|apply zero_curve|apply base_curve|].
    split; [apply Z.lt_le_incl, Hb|apply Hb]. }
  rewrite <- E. pose proof base_multiple_value as H. cbv zeta in H. apply andb_true_iff in H as [HX HY].
  apply Z.eqb_eq in HX, HY. apply (proj_zero base_multiple); [|exact HX|exact HY].
  unfold base_multiple. cbv zeta. apply pbits_is; [apply toF_fv| |].
  - unfold proj_is. cbn [prX prY prZ prT]. split; [apply zero_curve|]. change (toF 1) with 1. change (toF 0) with 0.
    split; [apply F_1_neq_0|]. split_and!; ring.
  - unfold proj_is, base. cbn [prX prY prZ prT]. rewrite toF_zmul, !toF_fv. split; [apply base_curve|]. change (toF 1) with 1.
    split; [apply F_1_neq_0|]. split_and!; ring.
Qed.

(** ** Multiples of the base point by integers modulo [scL] *)

Lemma ed_times_mul m n Q : curve Q → ed_times (m * n) Q = ed_times m (ed_times n Q).
Proof.
  intros HQ. induction m as [|m IH]; [done|]. cbn [Nat.mul]. by rewrite ed_times_add, ed_times_S, IH.
Qed.

Lemma ed_times_zero n : ed_times n (0, 1) = (0, 1).
Proof. induction n as [|n IH]; [done|]. by rewrite ed_times_S, IH, ed_add_0_l. Qed.

Definition mult (x : Z) : F * F := ed_times (Z.to_nat (x mod scL)) base.

Lemma mult_cong x y : cong scL x y → mult x = mult y.
Proof. unfold cong, mult. by intros ->. Qed.

Lemma scL_mod x : (0 ≤ x mod scL < scL)%Z.
Proof. apply Z.mod_pos_bound, scL_bound. Qed.

Lemma ed_times_mult n : ed_times n base = mult (Z.of_nat n).
Proof.
  pose proof scL_bound as Hb. unfold mult. pose proof (scL_mod (Z.of_nat n)) as Hm.
  pose proof (Z.div_mod (Z.of_nat n) scL ltac:(lia)) as E.
  pose proof (Z.div_pos (Z.of_nat n) scL ltac:(lia) ltac:(lia)) as Hq.
  set (q := (Z.of_nat n / scL)%Z) in *. set (r := (Z.of_nat n mod scL)%Z) in *. clearbody q r.
  assert (n = Z.to_nat q * Z.to_nat scL + Z.to_nat r)%nat as ->.
  { apply Nat2Z.inj. rewrite Nat2Z.inj_add, Nat2Z.inj_mul, !Z2Nat.id by lia. rewrite E. ring. }
  rewrite ed_times_add by apply base_curve. rewrite ed_times_mul by apply base_curve.
  by rewrite base_order, ed_times_zero, ed_add_0_l.
Qed.

Lemma mult_add x y : ed_add (mult x) (mult y) = mult (x + y).
Proof.
  unfold mult at 1 2. pose proof (scL_mod x). pose proof (scL_mod y).
  rewrite <- ed_times_add by apply base_curve. rewrite ed_times_mult. apply mult_cong.
  rewrite Nat2Z.inj_add, !Z2Nat.id by lia. by rewrite !cong_mod.
Qed.

Lemma mult_0 : mult 0 = (0, 1).
Proof. unfold mult. by rewrite Z.mod_0_l by (pose proof scL_bound; lia). Qed.

Lemma mult_1 : mult 1 = base.
Proof.
  change 1%Z with (Z.of_nat 1). rewrite <- (ed_times_mult 1), ed_times_S. change (ed_times 0 base) with (0, 1).
  rewrite ed_add_comm. apply ed_add_0_l.
Qed.

Lemma mult_even x : even_point (mult x).
Proof. apply even_times, basepoint_even. Qed.

Lemma mult_curve x : curve (mult x).
Proof. apply mult_even. Qed.

Lemma mult_times n x : ed_times n (mult x) = mult (Z.of_nat n * x).
Proof.
  unfold mult at 1. rewrite <- ed_times_mul by apply base_curve. rewrite ed_times_mult. apply mult_cong.
  pose proof (scL_mod x). rewrite Nat2Z.inj_mul, Z2Nat.id by lia. by rewrite cong_mod.
Qed.

Lemma mult_neg x : ed_neg (mult x) = mult (- x).
Proof.
  rewrite <- (ed_add_0_l (ed_neg _)), <- mult_0, <- (Z.add_opp_diag_l x), <- mult_add.
  rewrite ed_add_assoc by (try apply ed_neg_closed; apply mult_curve).
  rewrite ed_add_neg_r by apply mult_curve. rewrite ed_add_comm. apply ed_add_0_l.
Qed.

Lemma base_not_torsion : ¬ torsion base.
Proof.
  assert (Nx : Bx ≠ 0) by (apply fv_nonzero; vm_compute; discriminate).
  assert (Ny : By ≠ 0) by (apply fv_nonzero; vm_compute; discriminate).
  unfold torsion, base. intros [E|[E|[E|E]]].
  - exact (Nx (f_equal fst E)).
  - exact (Nx (f_equal fst E)).
  - exact (Ny (f_equal snd E)).
  - exact (Ny (f_equal snd E)).
Qed.

Lemma mult_torsion x : torsion (mult x) → cong scL x 0.
Proof.
  intros HT. pose proof scL_bound as Hb. destruct (decide (scL | x)%Z) as [[k ->]|N].
  { unfold cong. rewrite Z.mod_mul, Z.mod_0_l by lia. done. }
  destruct base_not_torsion. pose proof (fermat_inverse scL x scL_prime N) as E.
  set (y := ((x ^ (scL - 2)) mod scL)%Z). pose proof (scL_mod (x ^ (scL - 2))) as Hy. fold y in Hy.
  rewrite <- mult_1, <- (mult_cong (y * x) 1).
  - rewrite <- (Z2Nat.id y) by lia. rewrite <- mult_times. by apply torsion_times.
  - unfold y. rewrite cong_mod. by rewrite Z.mul_comm.
Qed.

Lemma ed_cancel A B C : curve A → curve B → curve C → ed_add A B = ed_add A C → B = C.
Proof.
  intros HA HB HC E. assert (K : ∀ D, curve D → ed_add (ed_neg A) (ed_add A D) = D).
  { intros D HD. rewrite <- ed_add_assoc by (try apply ed_neg_closed; done).
    rewrite (ed_add_comm (ed_neg A)), ed_add_neg_r by done. apply ed_add_0_l. }
  by rewrite <- (K B HB), E, K.
Qed.

Lemma coset_mult x y : coset (mult x) (mult y) → cong scL x y.
Proof.
  intros (T & HT & E). assert (HD : mult (y - x) = T).
  { apply (ed_cancel (mult x)); [apply mult_curve|apply mult_curve|by apply torsion_curve|].
    rewrite <- E, mult_add. f_equal. lia. }
  rewrite <- HD in HT. apply mult_torsion in HT.
  transitivity (x + 0)%Z; [apply cong_eq; lia|]. rewrite <- HT. apply cong_eq. lia.
Qed.

(** ** Every even point is a multiple of the base point, up to torsion *)

Definition odd : F * F := (toF 47490639360184182837601875270316946735278442122217188244898328344323804759522, toF 3).

Lemma odd_curve : curve odd.
Proof. unfold curve, on_curve, odd. apply F_eq. vm_compute. reflexivity. Qed.

Lemma odd_not_even : ¬ even_point odd.
Proof.
  intros [_ [q Hq]]. apply (not_square (-8)) with q; [vm_compute; reflexivity|vm_compute; reflexivity|].
  rewrite <- Hq. apply F_eq. vm_compute. reflexivity.
Qed.

Definition tor (t : bool * bool) : F * F :=
  match t with (false, false) => (0, 1) | (false, true) => (0, - (1)) | (true, false) => (Fi, 0) | (true, true) => (- Fi, 0) end.

Lemma tor_torsion t : torsion (tor t).
Proof. unfold torsion. destruct t as [[] []]; cbn [tor]; tauto. Qed.

Lemma tor_inj t t' : tor t = tor t' → t = t'.
Proof.
  assert (N0 : 0 ≠ Fi) by (intros E; by apply Fi_neq_0). assert (N1 : 0 ≠ - Fi).
  { intros E. apply Fi_neq_0. transitivity (- - Fi); [ring|]. rewrite <- E. ring. }
  assert (N2 : 1 ≠ - (1)).
  { intros E. apply F_2_neq_0. rewrite E at 1. ring. }
  assert (N3 : Fi ≠ - Fi).
  { intros E. apply (F_mul_nonzero (1 + 1) Fi); [apply F_2_neq_0|apply Fi_neq_0|]. transitivity (Fi + Fi); [ring|]. rewrite E at 1. ring. }
  destruct t as [[] []], t' as [[] []]; cbn [tor]; intros E; first [reflexivity|exfalso; congruence].
Qed.

Lemma torsion_tor T : torsion T → ∃ t, T = tor t.
Proof.
  intros [->|[->|[->| ->]]]; [exists (false, false)|exists (false, true)|exists (true, false)|exists (true, true)]; reflexivity.
Qed.

Lemma coset_tor A B : coset A B ↔ ∃ t, B = ed_add A (tor t).
Proof.
  split.
  - intros (T & HT & ->). destruct (torsion_tor T HT) as [t ->]. by exists t.
  - intros [t ->]. exists (tor t). split; [apply tor_torsion|reflexivity].
Qed.

Section Counting.
Context (A : F * F) (HA : even_point A) (HN : ∀ x, ¬ coset A (mult x)).

Definition pos_fin : Type := fin (Z.to_nat scL).
Definition code_fin : Type := fin (Z.to_nat p25519).

Definition place (k : bool * (bool * (pos_fin * (bool * bool)))) : F * F :=
  let '(a, (b, (i, t))) := k in
  ed_add (if a then odd else (0, 1)) (ed_add (if b then A else (0, 1)) (ed_add (mult (Z.of_nat (fin_to_nat i))) (tor t))).

Lemma part_even (b : bool) n t : even_point (ed_add (if b then A else (0, 1)) (ed_add (mult n) (tor t))).
Proof. apply even_add; [destruct b; [done|apply even_zero]|]. apply even_add; [apply mult_even|apply torsion_even, tor_torsion]. Qed.

Lemma tor_curve t : curve (tor t).
Proof. apply torsion_curve, tor_torsion. Qed.

Lemma place_curve k : curve (place k).
Proof.
  destruct k as (a & b & i & t). apply ed_add_closed; [destruct a; [apply odd_curve|apply zero_curve]|apply part_even].
Qed.

Lemma odd_plus_even E E' : even_point E → even_point E' → ed_add odd E ≠ E'.
Proof.
  intros HE HE' Ho. apply odd_not_even.
  assert (K : odd = ed_add E' (ed_neg E)).
  { rewrite <- Ho, ed_add_assoc by (try apply ed_neg_closed; try apply odd_curve; apply HE).
    rewrite ed_add_neg_r by apply HE. rewrite ed_add_comm. symmetry. apply ed_add_0_l. }
  rewrite K. by apply even_add; [|apply even_neg].
Qed.

Lemma A_plus_multiple n t n' t' : ed_add A (ed_add (mult n) (tor t)) ≠ ed_add (mult n') (tor t').
Proof.
  intros E. apply (HN (n' - n)).
  assert (HC : curve (ed_add (mult n) (tor t))) by (apply ed_add_closed; [apply mult_curve|apply tor_curve]).
  apply coset_sym; [apply mult_curve|]. exists (ed_add (tor t') (ed_neg (tor t))).
  split; [apply torsion_add; [apply tor_torsion|apply torsion_neg, tor_torsion]|].
  apply (ed_cancel (ed_add (mult n) (tor t))); [done|apply HA| |].
  { apply ed_add_closed; [apply mult_curve|]. apply ed_add_closed; [|apply ed_neg_closed]; apply tor_curve. }
  rewrite ed_add_comm, E. rewrite ed_add_swap by (try apply ed_add_closed; try apply ed_neg_closed; try apply mult_curve; apply tor_curve).
  rewrite mult_add. replace (n + (n' - n))%Z with n' by lia. f_equal.
  rewrite (ed_add_comm (tor t')), <- ed_add_assoc by (try apply ed_neg_closed; apply tor_curve).
  rewrite ed_add_neg_r by apply tor_curve. symmetry. apply ed_add_0_l.
Qed.

Lemma place_inj k k' : place k = place k' → k = k'.
Proof.
  destruct k as (a & b & i & t), k' as (a' & b' & i' & t'). unfold place.
  set (n := Z.of_nat (fin_to_nat i)). set (n' := Z.of_nat (fin_to_nat i')).
  pose proof (part_even b n t) as HP. pose proof (part_even b' n' t') as HP'. intros E.
  assert (a = a') as <-.
  { destruct a, a'; [done| | |done]; exfalso.
    - rewrite ed_add_0_l in E. by apply (odd_plus_even _ _ HP HP').
    - rewrite ed_add_0_l in E. symmetry in E. by apply (odd_plus_even _ _ HP' HP). }
  apply ed_cancel in E; [|destruct a; [apply odd_curve|apply zero_curve]|apply HP|apply HP'].
  assert (C : ∀ m u, curve (ed_add (mult m) (tor u))) by (intros; apply ed_add_closed; [apply mult_curve|apply tor_curve]).
  assert (b = b') as <-.
  { destruct b, b'; [done| | |done]; exfalso; rewrite ed_add_0_l in E; [|symmetry in E]; by apply A_plus_multiple in E. }
  apply ed_cancel in E; [|destruct b; [apply HA|apply zero_curve]|done..].
  assert (Hc : cong scL n n').
  { apply coset_mult. apply (coset_trans _ (ed_add (mult n) (tor t))); [apply mult_curve| |].
    - exists (tor t). split; [apply tor_torsion|done].
    - rewrite E. apply coset_sym; [apply mult_curve|]. exists (tor t'). split; [apply tor_torsion|done]. }
  assert (n = n').
  { apply (cong_small scL); [done| |]; subst n n'; pose proof (fin_to_nat_lt i); pose proof (fin_to_nat_lt i'); pose proof scL_bound; lia. }
  assert (i = i') as <- by (apply (inj fin_to_nat); subst n n'; lia).
  apply ed_cancel in E; [|apply mult_curve|apply tor_curve..]. by apply tor_inj in E as <-.
Qed.

Lemma fv_lt (x : F) : (Z.to_nat (fv x) < Z.to_nat p25519)%nat.
Proof. pose proof (fv_bound x). lia. Qed.

Definition code (B : F * F) : code_fin * bool := (nat_to_fin (fv_lt (snd B)), Fneg_bit (fst B)).

Lemma code_inj B C : curve B → curve C → code B = code C → B = C.
Proof.
  destruct B as [x y], C as [x' y']. unfold curve, on_curve. cbn [fst snd code]. intros HB HC E.
  pose proof (f_equal fst E) as Ey. pose proof (f_equal snd E) as Ex. unfold code in Ey, Ex. cbn [fst snd] in Ey, Ex. clear E.
  apply (f_equal fin_to_nat) in Ey. rewrite !fin_to_nat_to_fin in Ey.
  assert (y = y') as <- by (apply F_eq; pose proof (fv_bound y); pose proof (fv_bound y'); lia).
  assert (E2 : x * x = x' * x').
  { apply (F_mul_cancel (Fd * (y * y) + 1)); [apply one_plus_dy2|].
    transitivity (1 + Fd * x * x * y * y - 1 + x * x); [ring|]. rewrite <- HB.
    transitivity (1 + Fd * x' * x' * y * y - 1 + x' * x'); [|ring]. rewrite <- HC. ring. }
  destruct (F_square_root_eq _ _ E2) as [->| ->]; [done|].
  destruct (decide (x' = 0)) as [->|N]; [f_equal; ring|].
  rewrite Fneg_bit_opp in Ex by done. by destruct (Fneg_bit x').
Qed.

Lemma too_many : False.
Proof.
  assert (I : Inj (=) (=) (λ k, code (place k))).
  { intros k k' E. apply place_inj, code_inj; [apply place_curve..|done]. }
  pose proof (inj_card (λ k, code (place k))) as H.
  rewrite !prod_card, !bool_card in H. unfold pos_fin, code_fin in H. rewrite !fin_card in H.
  revert H. Transparent scL. unfold scL, p25519. lia.
Qed.
End Counting.

Lemma even_is_multiple A : even_point A → ∃ x, coset A (mult x).
Proof.
  intros HA. destruct (decide (Exists (λ n, ∃ t, mult (Z.of_nat n) = ed_add A (tor t)) (seq 0 (Z.to_nat scL)))) as [H|H].
  - apply Exists_exists in H as (n & _ & H). exists (Z.of_nat n). by apply coset_tor.
  - exfalso. apply (too_many A HA). intros x Hx. apply coset_tor in Hx. apply H, Exists_exists. exists (Z.to_nat (x mod scL)).
    pose proof (scL_mod x). split; [apply elem_of_seq; lia|].
    rewrite Z2Nat.id by lia. by rewrite (mult_cong _ x) by apply cong_mod.
Qed.

Lemma sc_of_Z x : (0 ≤ x < scL)%Z → ∃ k, sc_canon k ∧ sc_val k = x.
Proof.
  intros Hx. pose proof scL_bound as Hb.
  destruct (sc_from_bytes_spec (le_bytes 32 x)) as [Ok Ev]; [apply length_le_bytes|apply le_bytes_bytes|].
  rewrite le_val_bytes in Ev by (change (256 ^ Z.of_nat 32)%Z with (2 ^ 256)%Z; lia).
  exists (sc_from_bytes (le_bytes 32 x)). split; [|done]. split; [done|]. rewrite Ev. apply Hx.
Qed.

(** ** Logarithms of points and encodings *)

Definition ext_log (P : ExtPoint) (x : Z) : Prop := ∃ A, ext_is P A ∧ coset (mult x) A.

(** [bs] is the encoding of [x] times the base point. *)
Definition dlog (bs : list Z) (x : Z) : Prop := enc_is bs (mult x).

#[export] Instance ext_log_proper P : Proper (cong scL ==> iff) (ext_log P).
Proof. intros x y E. unfold ext_log. by rewrite (mult_cong x y E). Qed.
#[export] Instance dlog_proper bs : Proper (cong scL ==> iff) (dlog bs).
Proof. intros x y E. unfold dlog. by rewrite (mult_cong x y E). Qed.

Lemma ext_log_identity : ext_log ext_identity 0.
Proof. exists (0, 1). split; [apply ext_identity_is|]. rewrite mult_0. apply coset_refl. Qed.

Lemma ext_log_add P Q x y : ext_log P x → ext_log Q y → ext_log (ext_add P Q) (x + y).
Proof.
  intros (A & HA & CA) (B & HB & CB). exists (ed_add A B). split; [by apply ext_add_is|].
  rewrite <- mult_add. apply coset_add; [apply mult_curve..|done|done].
Qed.

Lemma ext_log_double P x : ext_log P x → ext_log (ext_double P) (2 * x).
Proof.
  intros (A & HA & CA). exists (ed_add A A). split; [by apply ext_double_is|].
  replace (2 * x)%Z with (x + x)%Z by lia. rewrite <- mult_add. apply coset_add; [apply mult_curve..|done|done].
Qed.

Lemma ext_log_scalarmul P s x : sc_ok s → ext_log P x → ext_log (ext_scalarmul P s) (sc_val s * x).
Proof.
  intros Hs (A & HA & CA). exists (ed_times (Z.to_nat (sc_val s)) A). split; [by apply ext_times_is|].
  pose proof (sc_val_bound s Hs). rewrite <- (Z2Nat.id (sc_val s)) at 1 by lia. rewrite <- mult_times.
  apply coset_times; [apply mult_curve|done].
Qed.

Lemma ext_log_encode P x : ext_log P x → dlog (rist_encode P) x.
Proof. intros (A & HA & CA). apply (enc_result P (mult x) A HA); [apply mult_even|done]. Qed.

Lemma dlog_decode bs x : dlog bs x → ∃ P, rist_decode bs = Some P ∧ ext_log P x.
Proof. intros H. destruct (enc_decode _ _ H) as (P & B & E & HP & _ & HC). exists P. split; [done|]. by exists B. Qed.

Lemma dlog_shape bs x : dlog bs x → length bs = 32%nat ∧ bytes bs.
Proof. intros (_ & s & _ & ->). split; [apply length_le_bytes|apply le_bytes_bytes]. Qed.

Lemma decode_dlog bs P : length bs = 32%nat → bytes bs → rist_decode bs = Some P → ∃ x, dlog bs x.
Proof.
  intros Hl Hb HP. destruct (decode_enc bs P Hl Hb HP) as (A & _ & HA).
  destruct (even_is_multiple A (proj1 HA)) as [x Hx]. exists x. by apply (enc_coset bs A).
Qed.

Lemma dlog_eq a b x y : dlog a x → dlog b y → a = b ↔ cong scL x y.
Proof.
  intros Ha Hb. split.
  - intros <-. apply coset_mult. by apply (enc_inj a).
  - intros E. rewrite E in Ha. by apply (enc_unique a b (mult y)).
Qed.

Lemma dlog_G : dlog rist_G 1.
Proof. unfold dlog. rewrite mult_1. apply rist_G_enc. Qed.

Lemma dlog_H : ∃ h, dlog rist_H h.
Proof.
  destruct rist_H_enc as [A HA]. destruct (even_is_multiple A (proj1 HA)) as [x Hx].
  exists x. by apply (enc_coset _ A).
Qed.

Lemma dlog_identity : dlog rist_identity 0.
Proof. apply ext_log_encode, ext_log_identity. Qed.

Lemma dlog_basemul s : sc_ok s → dlog (rist_basemul s) (sc_val s).
Proof.
  intros Hs. pose proof (sc_val_bound s Hs). unfold dlog. rewrite <- (Z2Nat.id (sc_val s)) by lia.
  rewrite <- ed_times_mult. by apply rist_basemul_enc.
Qed.

Lemma dlog_scalarmul a s x : dlog a x → sc_ok s → ∃ c, rist_scalarmul a s = Ok c ∧ dlog c (sc_val s * x).
Proof.
  intros Ha Hs. pose proof (sc_val_bound s Hs). destruct (rist_scalarmul_enc a s _ Ha Hs) as (c & E & Hc). exists c.
  split; [done|]. rewrite mult_times, Z2Nat.id in Hc by lia. exact Hc.
Qed.

Lemma dlog_pedersen h v r : dlog rist_H h → sc_ok v → sc_ok r →
  ∃ c, pedersen_commit v r = Ok c ∧ dlog c (sc_val v + sc_val r * h).
Proof.
  intros Hh Hv Hr. pose proof (sc_val_bound v Hv) as Bv. pose proof (sc_val_bound r Hr) as Br.
  destruct (pedersen_commit_enc _ _ v r dlog_G Hh Hv Hr) as (c & E & Hc). exists c. split; [done|].
  rewrite (mult_times _ 1), (mult_times _ h), mult_add, (Z2Nat.id _ (proj1 Bv)), (Z2Nat.id _ (proj1 Br)), Z.mul_1_r in Hc.
  exact Hc.
Qed.

(** ** Property *)

(** C21. The group has prime order: every string that decodes is [rist_basemul] of
    exactly one canonical scalar, and multiplication by a scalar depends on it
    modulo the order only. *)
Theorem ristretto_prime_order bs P s t : length bs = 32%nat → bytes bs → rist_decode bs = Some P → sc_ok s → sc_ok t →
  (∃ k, sc_canon k ∧ rist_basemul k = bs ∧ ∀ k', sc_canon k' → rist_basemul k' = bs → k' = k) ∧
  (cong scL (sc_val s) (sc_val t) → rist_scalarmul bs s = rist_scalarmul bs t) ∧ Z.prime scL.
Proof.
  intros Hl Hb HP Hs Ht. destruct (decode_dlog bs P Hl Hb HP) as [x Hx]. pose proof (scL_mod x) as Hm.
  destruct (sc_of_Z (x mod scL) Hm) as (k & [Ok Lk] & Ek). split; [|split; [|apply scL_prime]].
  - exists k. split; [done|]. split.
    + apply (dlog_eq _ _ (sc_val k) x); [by apply dlog_basemul|done|]. rewrite Ek. apply cong_mod.
    + intros k' [Ok' Lk'] Hk'. apply sc_val_inj; [done..|]. rewrite Ek.
      pose proof (dlog_basemul k' Ok') as D. rewrite Hk' in D. pose proof (proj1 (dlog_eq _ _ _ _ D Hx) eq_refl) as E.
      pose proof (sc_val_bound k' Ok'). apply (cong_small scL); [|lia|exact Hm]. rewrite E. symmetry. apply cong_mod.
  - intros E. destruct (dlog_scalarmul bs s x Hx Hs) as (c & -> & Hc). destruct (dlog_scalarmul bs t x Hx Ht) as (c' & -> & Hc').
    f_equal. apply (dlog_eq _ _ _ _ Hc Hc'). by rewrite E.
Qed.

Lemma ristretto_prime_order_witness :
  ∃ k, sc_canon k ∧ rist_basemul k = replicate 32 0%Z ∧ ∀ k', sc_canon k' → rist_basemul k' = replicate 32 0%Z → k' = k.
Proof.
  pose proof identity_decodes as H. destruct (rist_decode (replicate 32 0%Z)) as [P|] eqn:E; [|destruct (H eq_refl)].
  exact (proj1 (ristretto_prime_order (replicate 32 0%Z) P _ _ eq_refl ltac:(repeat constructor; unfold word; lia) E five_scalar_ok ten_scalar_ok)).
Defined.
