(* ===== verification/ScalarField.v ===== *)
(** * Scalars as residues

    [sc_is s x]: [s] is the canonical scalar of the residue of [x] modulo the
    group order.  The proofs compute with the residues. *)

From S2P Require Import Prelude Primes Field Rng Fe25519 Scalar25519.

#[local] Opaque scL.

Definition sc_is (s : Scalar) (x : Z) : Prop := sc_canon s ∧ cong scL (sc_val s) x.

#[export] Instance sc_is_proper s : Proper (cong scL ==> iff) (sc_is s).
Proof. intros x y E. unfold sc_is. by rewrite E. Qed.

Lemma scL_pos : 1 < scL.
Proof. apply scL_prime. Qed.

Lemma scL_large : 2 ^ 252 < scL < 2 ^ 253.
Proof. Transparent scL. unfold scL. Opaque scL. lia. Qed.

Lemma sc_is_ok s x : sc_is s x → sc_ok s.
Proof. intros [[H _] _]. exact H. Qed.

Lemma sc_is_val s : sc_canon s → sc_is s (sc_val s).
Proof. by split. Qed.

Lemma sc_is_cong s x y : sc_is s x → cong scL x y → sc_is s y.
Proof. intros H E. by rewrite <- E. Qed.

Lemma sc_is_fun s t x : sc_is s x → sc_is t x → s = t.
Proof.
  intros [[Os Ls] Es] [[Ot Lt] Et]. apply sc_val_inj; [done..|].
  apply (cong_small scL); [by rewrite Es, Et| |]; (split; [by apply sc_val_bound|done]).
Qed.

Lemma sc_is_inj s x y : sc_is s x → sc_is s y → cong scL x y.
Proof. intros [_ Hx] [_ Hy]. by rewrite <- Hx, <- Hy. Qed.

Lemma small_scalar v : word 64 v → sc_canon (mkScalar [v; 0; 0; 0]) ∧ sc_val (mkScalar [v; 0; 0; 0]) = v.
Proof.
  intros Hv. assert (E : sc_val (mkScalar [v; 0; 0; 0]) = v) by (unfold sc_val; cbn [sv le64]; lia).
  split; [|done]. split; [split; [done|repeat constructor; try done; unfold word in *; lia]|].
  rewrite E. pose proof scL_large. unfold word in Hv. lia.
Qed.

Lemma is_zero_scalar : sc_is sc_zero 0.
Proof. destruct (small_scalar 0) as [C E]; [done|]. split; [exact C|]. by rewrite <- E. Qed.

Lemma is_word v : word 64 v → sc_is (mkScalar [v; 0; 0; 0]) v.
Proof. intros Hv. destruct (small_scalar v Hv) as [C E]. split; [exact C|]. by rewrite E. Qed.

Lemma is_one_scalar : sc_is (mkScalar [1; 0; 0; 0]) 1.
Proof. by apply is_word. Qed.

Lemma is_sc_add a b x y : sc_is a x → sc_is b y → sc_is (sc_add a b) (x + y).
Proof.
  intros [[Oa La] Ea] [[Ob Lb] Eb]. destruct (sc_add_spec a b Oa Ob) as [C V].
  split; [done|]. by rewrite V, cong_mod, Ea, Eb.
Qed.

Lemma is_sc_sub a b x y : sc_is a x → sc_is b y → sc_is (sc_sub a b) (x - y).
Proof.
  intros [[Oa La] Ea] [[Ob Lb] Eb]. destruct (sc_sub_spec a b Oa Ob ltac:(lia)) as [C V].
  split; [done|]. by rewrite V, cong_mod, Ea, Eb.
Qed.

Lemma is_sc_neg b y : sc_is b y → sc_is (sc_neg b) (- y).
Proof.
  intros [[Ob Lb] Eb]. destruct (sc_neg_spec b Ob ltac:(lia)) as [C V].
  split; [done|]. by rewrite V, cong_mod, Eb.
Qed.

Lemma is_sc_mul a b x y : sc_is a x → sc_is b y → sc_is (sc_mul a b Wide) (x * y).
Proof.
  intros [[Oa La] Ea] [[Ob Lb] Eb]. destruct (sc_mul_wide a b Oa Ob) as [C V].
  split; [done|]. by rewrite V, cong_mod, Ea, Eb.
Qed.

(** The inverse, zero for zero. *)
Definition zinv (x : Z) : Z := x ^ (scL - 2).

#[export] Instance zinv_proper : Proper (cong scL ==> cong scL) zinv.
Proof. intros x y E. unfold zinv. apply cong_pow; [pose proof scL_large; lia|done]. Qed.

Lemma zinv_r x : ¬ cong scL x 0 → cong scL (x * zinv x) 1.
Proof.
  intros Hx. apply fermat_inverse; [apply scL_prime|]. intros Hd. apply Hx. apply cong_divide; [done|]. by rewrite Z.sub_0_r.
Qed.

Lemma is_sc_inv a x : sc_is a x → sc_is (sc_inv a Wide) (zinv x).
Proof.
  intros [[Oa La] Ea]. split.
  - exact (proj1 (sc_inv_wide a Oa)).
  - destruct (sc_inv_wide a Oa) as [_ V]. rewrite V, cong_mod. fold (zinv (sc_val a)). by rewrite Ea.
Qed.

Lemma cong_scL_0 x y : cong scL (x * y) 0 → cong scL x 0 ∨ cong scL y 0.
Proof.
  pose proof scL_pos. intros H0. assert (Hd : (scL | x * y)) by (apply Z.mod_divide; [lia|]; unfold cong in H0; by rewrite Z.mod_0_l in H0 by lia).
  apply Z.divide_prime_mul in Hd; [|apply scL_prime].
  destruct Hd as [[k ->]|[k ->]]; [left|right]; unfold cong; rewrite Z.mod_mul, Z.mod_0_l by lia; done.
Qed.

Create HintDb scalars.
#[export] Hint Resolve is_zero_scalar is_one_scalar is_sc_add is_sc_sub is_sc_neg is_sc_mul is_sc_inv : scalars.

(** ** Vectors of scalars *)

Definition is_vec : list Scalar → list Z → Prop := Forall2 sc_is.

Lemma is_vec_length v x : is_vec v x → length v = length x.
Proof. apply Forall2_length. Qed.

Lemma is_vec_nth v x i : is_vec v x → sc_is (nth i v sc_zero) (nth i x 0).
Proof.
  intros H. revert i. induction H as [|s x' v x Hs _ IH]; intros [|i]; cbn; auto using is_zero_scalar.
Qed.

Lemma is_vec_map f g v x : (∀ a b, sc_is a b → sc_is (f a) (g b)) → is_vec v x → is_vec (f <$> v) (g <$> x).
Proof. intros Hf H. induction H; constructor; auto. Qed.

Lemma is_vec_replicate n s x : sc_is s x → is_vec (replicate n s) (replicate n x).
Proof. intros H. induction n; constructor; auto. Qed.

Lemma is_vec_zip f g v w x y : (∀ a b c d, sc_is a c → sc_is b d → sc_is (f a b) (g c d)) →
  is_vec v x → is_vec w y → is_vec (zip_with f v w) (zip_with g x y).
Proof.
  intros Hf H. revert w y. induction H as [|a c v x Ha _ IH]; intros w y Hw; [constructor|].
  inversion Hw; subst; cbn; [constructor|]. constructor; [by apply Hf|by apply IH].
Qed.
