(* ===== verification/Msm.v ===== *)
(** * Sums of multiples of points

    [multi_scalar_mul] of [crypto/bulletproofs/inner_product.hpp] and
    [prover_msm] of [crypto/bulletproofs/prover_msm.hpp]: both sort the points
    into buckets by a digit of their scalars, window after window.  On
    logarithms they are the inner product, whatever the window. *)

From Stdlib Require Import Field NsatzTactic.
From S2P Require Import Prelude Primes Field Hash Rng Fe25519 Scalar25519 ScalarField Zp Ristretto Edwards RistrettoOps RistrettoGroup Order.

(** ** Buckets *)

(** The bucket of each digit is increased by the points that have it; digit
    zero has none. *)
Definition fill {B} (add : ExtPoint → B → ExtPoint) (digit : list Z → Z → Z) (bit : Z)
    (buckets : list ExtPoint) (term : list Z * B) : list ExtPoint :=
  let d := digit term.1 bit in
  if d =? 0 then buckets
  else let k := Z.to_nat (d - 1) in <[k := add (nth k buckets ext_identity) term.2]> buckets.

(** From the last bucket down, the running sum and the sum of the running sums. *)
Definition sum_buckets (buckets : list ExtPoint) : ExtPoint :=
  (foldl (λ '(running_sum, window_sum) bucket,
     let running_sum := ext_add running_sum bucket in (running_sum, ext_add window_sum running_sum))
   (ext_identity, ext_identity) (rev buckets)).2.

(** The loop over the windows, [n] of them left. *)
Fixpoint window_loop {B} (add : ExtPoint → B → ExtPoint) (digit : list Z → Z → Z) (w : nat)
    (terms : list (list Z * B)) (n : nat) (result : ExtPoint) : ExtPoint :=
  match n with
  | O => result
  | S n =>
      let result := Nat.iter w ext_double result in
      let buckets := replicate (Z.to_nat (2 ^ Z.of_nat w - 1)) ext_identity in
      let buckets := foldl (fill add digit (Z.of_nat n * Z.of_nat w)) buckets terms in
      window_loop add digit w terms n (ext_add result (sum_buckets buckets))
  end.

Definition num_windows (w : nat) : nat := (256 + w - 1) / w.

(** ** [multi_scalar_mul] *)

(** [while (tmp >>= 1) w++]. *)
Fixpoint bit_width (fuel : nat) (tmp : Z) (w : nat) : nat :=
  match fuel with
  | O => w
  | S fuel => let tmp := tmp ≫ 1 in if tmp =? 0 then w else bit_width fuel tmp (S w)
  end.

(** The bits of the window, up to bit 255. *)
Definition bucket_idx (w : nat) (sbytes : list Z) (bit_start : Z) : Z :=
  foldl (λ bucket_idx b,
    let bit := bit_start + b in
    if 256 <=? bit then bucket_idx
    else if negb ((nth (Z.to_nat (bit ≫ 3)) sbytes 0 ≫ (bit .& 7)) .& 1 =? 0)
         then bucket_idx .| wshl 32 1 b else bucket_idx) 0 (zseq 0 w).

Definition multi_scalar_mul (scalars : list Scalar) (points : list (list Z)) : res (list Z) :=
  if negb (length scalars =? length points)%nat then Throw "assertion: scalars.size() == points.size()"
  else
    let n := length scalars in
    if (n =? 0)%nat then Ok rist_identity
    else
      pts ← mapR rist_decode_or_throw points;
      let sbytes := sc_tobytes <$> scalars in
      if (n <=? 2)%nat then
        Ok (rist_encode (foldl (λ acc '(pt, s), ext_add acc (ext_scalarmul pt s)) ext_identity (zip pts scalars)))
      else
        let w := Nat.min 16 (bit_width 64 (Z.of_nat n) 1) in
        Ok (rist_encode (window_loop ext_add (bucket_idx w) w (zip sbytes pts) (num_windows w) ext_identity)).

(** ** [prover_msm] *)

Record ProverPoint : Set := mkProverPoint { minus : Fe25519; plus : Fe25519; product : Fe25519 }.

Definition prover_point (bytes : list Z) : res ProverPoint :=
  point ← rist_decode_or_throw bytes;
  Ok (mkProverPoint (fe_sub (pY point) (pX point)) (fe_add (pY point) (pX point)) (fe_mul (pT point) ed_2d)).

Definition prover_add (point : ExtPoint) (added : ProverPoint) : ExtPoint :=
  let a := fe_mul (fe_sub (pY point) (pX point)) (minus added) in
  let b := fe_mul (fe_add (pY point) (pX point)) (plus added) in
  let c := fe_mul (pT point) (product added) in
  let d := fe_add (pZ point) (pZ point) in
  let e := fe_sub b a in
  let f := fe_sub d c in
  let g := fe_add d c in
  let h := fe_add b a in
  mkExt (fe_mul e f) (fe_mul g h) (fe_mul f g) (fe_mul e h).

(** [sizeof(ExtPoint)]: four field elements of five words. *)
Definition sizeof_ExtPoint : Z := 4 * 5 * 8.

(** One width tried: whether the loop has ended, the best width, its score. *)
Definition try_width (count : Z) (st : bool * Z * Z) (bits : Z) : bool * Z * Z :=
  let '(ended, width, score) := st in
  if ended then st
  else
    let buckets := wshl 64 1 bits - 1 in
    if 256 * 1024 / sizeof_ExtPoint <? buckets then (true, width, score)
    else
      let windows := (256 + bits - 1) / bits in
      if u64 (UINT64_MAX / windows - 2 * buckets) <? count then st
      else
        let work := u64 (windows * (count + 2 * buckets)) in
        if work <? score then (false, bits, work) else st.

Definition prover_window (count : Z) : Z :=
  (foldl (try_width count) (false, 1, UINT64_MAX) (zseq 1 16)).1.2.

(** Three bytes hold a digit at any offset. *)
Definition prover_digit (width : nat) (bytes : list Z) (bit : Z) : Z :=
  let byte := bit / 8 in
  let word := foldl (λ word j, if byte + j <? 32 then word .| wshl 32 (nth (Z.to_nat (byte + j)) bytes 0) (8 * j) else word)
                0 (zseq 0 3) in
  (word ≫ (bit mod 8)) .& (2 ^ Z.of_nat width - 1).

(** Two points: the bits of both scalars together, from the top. *)
Fixpoint joint_loop (n : nat) (b0 b1 : list Z) (left right result : ExtPoint) : ExtPoint :=
  match n with
  | O => result
  | S n =>
      let result := ext_double result in
      let index := Z.of_nat n in
      let bit b := negb ((nth (Z.to_nat (index / 8)) b 0 ≫ (index mod 8)) .& 1 =? 0) in
      let result := if bit b0 then ext_add result left else result in
      let result := if bit b1 then ext_add result right else result in
      joint_loop n b0 b1 left right result
  end.

Definition prover_msm (scalars : list Scalar) (points : list (list Z)) : res (list Z) :=
  if negb (length scalars =? length points)%nat then Throw "pvac: scalar and point counts differ"
  else
    match scalars, points with
    | [], _ => Ok rist_identity
    | [s], p :: _ => P ← rist_decode_or_throw p; Ok (rist_encode (ext_scalarmul P s))
    | [s0; s1], p0 :: p1 :: _ =>
        left ← rist_decode_or_throw p0;
        right ← rist_decode_or_throw p1;
        Ok (rist_encode (joint_loop 256 (sc_tobytes s0) (sc_tobytes s1) left right ext_identity))
    | _, _ =>
        decoded ← mapR prover_point points;
        let bytes := sc_tobytes <$> scalars in
        let width := Z.to_nat (prover_window (Z.of_nat (length scalars))) in
        Ok (rist_encode (window_loop prover_add (prover_digit width) width (zip bytes decoded) (num_windows width) ext_identity))
    end.

(** ** Buckets as sums *)

(** Sums over the logarithms. *)
Definition zsums (l : list Z) : Z := foldr Z.add 0 l.

(** Bucket [k] counts [k + 1] times. *)
Fixpoint weight (l : list Z) : Z := match l with [] => 0 | b :: l => weight l + zsums (b :: l) end.

Lemma zsums_cons b l : zsums (b :: l) = b + zsums l.
Proof. done. Qed.
Lemma weight_cons b l : weight (b :: l) = weight l + (b + zsums l).
Proof. done. Qed.

Lemma zsums_insert l k b x : l !! k = Some b → zsums (<[k := b + x]> l) = zsums l + x.
Proof.
  revert k. induction l as [|y l IH]; intros [|k] E; try discriminate.
  - injection E as ->. change (<[0%nat := b + x]> (b :: l)) with ((b + x) :: l). rewrite !zsums_cons. lia.
  - change (<[S k := b + x]> (y :: l)) with (y :: <[k := b + x]> l). rewrite !zsums_cons, IH by exact E. lia.
Qed.

Lemma weight_insert l k b x : l !! k = Some b → weight (<[k := b + x]> l) = weight l + (Z.of_nat k + 1) * x.
Proof.
  revert k. induction l as [|y l IH]; intros [|k] E; try discriminate.
  - injection E as ->. change (<[0%nat := b + x]> (b :: l)) with ((b + x) :: l). rewrite !weight_cons. lia.
  - change (<[S k := b + x]> (y :: l)) with (y :: <[k := b + x]> l).
    rewrite !weight_cons, IH, (zsums_insert l k b x E) by exact E. lia.
Qed.

Lemma weight_zeros n : weight (replicate n 0) = 0 ∧ zsums (replicate n 0) = 0.
Proof.
  induction n as [|n [IH1 IH2]]; [done|]. cbn [replicate]. rewrite weight_cons, zsums_cons. lia.
Qed.

Lemma sum_buckets_log bs xs : Forall2 ext_log bs xs → ext_log (sum_buckets bs) (weight xs).
Proof.
  intros H. unfold sum_buckets. set (step := λ '(_, _) _, _).
  assert (G : ext_log (foldl step (ext_identity, ext_identity) (rev bs)).1 (zsums xs) ∧
              ext_log (foldl step (ext_identity, ext_identity) (rev bs)).2 (weight xs)); [|apply G].
  induction H as [|b x bs xs Hb _ [Hr Hs]]; [split; apply ext_log_identity|]. cbn [rev]. rewrite foldl_app. cbn [foldl].
  destruct (foldl step _ (rev bs)) as [r s]. cbn [fst snd] in *. unfold step. cbn [fst snd].
  assert (Hr' : ext_log (ext_add r b) (zsums (x :: xs))) by (rewrite zsums_cons, Z.add_comm; by apply ext_log_add).
  split; [exact Hr'|]. rewrite weight_cons. by apply ext_log_add.
Qed.

(** ** The windows *)

Section Windows.
Context {B : Type} (add : ExtPoint → B → ExtPoint) (pt_log : B → Z → Prop) (digit : list Z → Z → Z) (w : nat).
Context (add_log : ∀ P b y x, ext_log P y → pt_log b x → ext_log (add P b) (y + x)).
Context (digit_val : ∀ s bit, 0 ≤ s < 2 ^ 256 → 0 ≤ bit < 256 → digit (le_bytes 32 s) bit = (s / 2 ^ bit) mod 2 ^ Z.of_nat w).
Context (w_pos : (0 < w)%nat).

(** A term stands for a scalar and a logarithm. *)
Definition term_is (t : list Z * B) (v : Z * Z) : Prop := t.1 = le_bytes 32 v.1 ∧ 0 ≤ v.1 < 2 ^ 256 ∧ pt_log t.2 v.2.

Definition shifted_sum (bit : Z) (vs : list (Z * Z)) : Z := lsum vs (λ v, v.1 / 2 ^ bit * v.2).
Definition digit_sum (bit : Z) (vs : list (Z * Z)) : Z := lsum vs (λ v, (v.1 / 2 ^ bit) mod 2 ^ Z.of_nat w * v.2).

Lemma fill_log bit bs xs t v : 0 ≤ bit < 256 → length xs = Z.to_nat (2 ^ Z.of_nat w - 1) → Forall2 ext_log bs xs → term_is t v →
  ∃ xs', Forall2 ext_log (fill add digit bit bs t) xs' ∧ length xs' = length xs ∧
    weight xs' = weight xs + (v.1 / 2 ^ bit) mod 2 ^ Z.of_nat w * v.2.
Proof.
  intros Hbit Hl HF (E & Hs & Hp). unfold fill. rewrite E, digit_val by done.
  assert (0 < 2 ^ Z.of_nat w) by lia.
  pose proof (Z.mod_pos_bound (v.1 / 2 ^ bit) (2 ^ Z.of_nat w) ltac:(lia)) as Hd. set (d := (v.1 / 2 ^ bit) mod 2 ^ Z.of_nat w) in *.
  destruct (Z.eqb_spec d 0) as [->|Nd]; [exists xs; split_and!; [done|done|lia]|]. cbv zeta.
  destruct (lookup_lt_is_Some_2 xs (Z.to_nat (d - 1))) as [x Hx]; [lia|].
  destruct (Forall2_lookup_r _ _ _ _ _ HF Hx) as (b & Hb & Hbx).
  exists (<[Z.to_nat (d - 1) := x + v.2]> xs). split; [|split; [by rewrite length_insert|]].
  - apply Forall2_insert; [done|]. rewrite (nth_lookup_Some _ _ _ _ Hb). by apply add_log.
  - rewrite (weight_insert _ _ _ _ Hx). f_equal. f_equal. lia.
Qed.

Lemma fills_log bit bs xs ts vs : 0 ≤ bit < 256 → length xs = Z.to_nat (2 ^ Z.of_nat w - 1) → Forall2 ext_log bs xs → Forall2 term_is ts vs →
  ∃ xs', Forall2 ext_log (foldl (fill add digit bit) bs ts) xs' ∧ weight xs' = weight xs + digit_sum bit vs.
Proof.
  intros Hbit Hl HF HT. revert bs xs Hl HF. induction HT as [|t v ts vs Ht _ IH]; intros bs xs Hl HF; cbn [foldl].
  - exists xs. split; [done|]. unfold digit_sum, lsum. cbn. lia.
  - destruct (fill_log bit bs xs t v Hbit Hl HF Ht) as (xs1 & H1 & L1 & W1).
    destruct (IH _ xs1 ltac:(lia) H1) as (xs2 & H2 & W2). exists xs2. split; [done|]. rewrite W2, W1. unfold digit_sum. rewrite lsum_cons. lia.
Qed.

Lemma double_log n P x : ext_log P x → ext_log (Nat.iter n ext_double P) (2 ^ Z.of_nat n * x).
Proof.
  intros HP. induction n as [|n IH]; [by rewrite Z.mul_1_l|]. change (Nat.iter (S n) ext_double P) with (ext_double (Nat.iter n ext_double P)).
  rewrite Nat2Z.inj_succ, Z.pow_succ_r, <- Z.mul_assoc by lia. by apply ext_log_double.
Qed.

(** One more window of the scalars. *)
Lemma shifted_step n vs : 2 ^ Z.of_nat w * shifted_sum (Z.of_nat (S n) * Z.of_nat w) vs + digit_sum (Z.of_nat n * Z.of_nat w) vs =
  shifted_sum (Z.of_nat n * Z.of_nat w) vs.
Proof.
  unfold shifted_sum, digit_sum. rewrite <- lsum_scale. induction vs as [|v vs IH]; [done|]. rewrite !lsum_cons, <- IH.
  assert (E : v.1 / 2 ^ (Z.of_nat n * Z.of_nat w) =
    2 ^ Z.of_nat w * (v.1 / 2 ^ (Z.of_nat (S n) * Z.of_nat w)) + (v.1 / 2 ^ (Z.of_nat n * Z.of_nat w)) mod 2 ^ Z.of_nat w).
  { replace (Z.of_nat (S n) * Z.of_nat w) with (Z.of_nat n * Z.of_nat w + Z.of_nat w) by lia.
    rewrite Z.pow_add_r, <- Z.div_div by lia. apply Z.div_mod. lia. }
  set (d := (v.1 / 2 ^ (Z.of_nat n * Z.of_nat w)) mod 2 ^ Z.of_nat w) in *. clearbody d. rewrite E. ring.
Qed.

Lemma window_loop_log ts vs n P : Forall2 term_is ts vs → (n ≤ num_windows w)%nat →
  ext_log P (shifted_sum (Z.of_nat n * Z.of_nat w) vs) → ext_log (window_loop add digit w ts n P) (shifted_sum 0 vs).
Proof.
  intros HT. revert P. induction n as [|n IH]; intros P Hn HP; [exact HP|]. cbn [window_loop]. cbv zeta. apply IH; [lia|].
  destruct (fills_log (Z.of_nat n * Z.of_nat w) (replicate (Z.to_nat (2 ^ Z.of_nat w - 1)) ext_identity)
    (replicate (Z.to_nat (2 ^ Z.of_nat w - 1)) 0) ts vs) as (xs & HF & HW).
  - split; [lia|]. unfold num_windows in Hn. assert ((256 + w - 1) / w * w ≤ 256 + w - 1)%nat by (rewrite Nat.mul_comm; apply Nat.Div0.mul_div_le).
    assert (n * w + w ≤ (256 + w - 1) / w * w)%nat by nia. lia.
  - apply length_replicate.
  - generalize (Z.to_nat (2 ^ Z.of_nat w - 1)). intros m. induction m; constructor; [apply ext_log_identity|done].
  - done.
  - rewrite <- shifted_step. apply ext_log_add; [by apply double_log|].
    rewrite (proj1 (weight_zeros _)), Z.add_0_l in HW. rewrite <- HW. by apply sum_buckets_log.
Qed.

(** Above the top window there is nothing left of the scalars. *)
Lemma windows_log ts vs : Forall2 term_is ts vs →
  ext_log (window_loop add digit w ts (num_windows w) ext_identity) (lsum vs (λ v, v.1 * v.2)).
Proof.
  intros HT. eapply ext_log_proper; [|eapply (window_loop_log ts vs _ _ HT (le_n _))].
  - apply cong_eq. unfold shifted_sum. apply lsum_ext. intros v _. by rewrite Z.div_1_r.
  - eapply ext_log_proper; [|apply ext_log_identity]. apply cong_eq. unfold shifted_sum.
    assert (Hb : 256 ≤ Z.of_nat (num_windows w) * Z.of_nat w).
    { unfold num_windows. pose proof (Nat.div_mod (256 + w - 1) w ltac:(lia)). pose proof (Nat.mod_upper_bound (256 + w - 1) w ltac:(lia)). nia. }
    induction HT as [|t v ts vs (_ & Hs & _) _ IH]; [done|]. rewrite lsum_cons, IH.
    rewrite Z.div_small; [lia|]. split; [lia|]. eapply Z.lt_le_trans; [apply Hs|]. apply Z.pow_le_mono_r; lia.
Qed.
End Windows.

(** ** Digits *)

Lemma byte_bit s i : 0 ≤ s < 2 ^ 256 → 0 ≤ i < 256 →
  negb ((nth (Z.to_nat (i ≫ 3)) (le_bytes 32 s) 0 ≫ (i .& 7)) .& 1 =? 0) = Z.odd (s / 2 ^ i).
Proof.
  intros Hs Hi. destruct (sc_from_bytes_spec (le_bytes 32 s)) as [Ok Ev]; [apply length_le_bytes|apply le_bytes_bytes|].
  rewrite le_val_bytes in Ev by (change (256 ^ Z.of_nat 32) with (2 ^ 256); lia).
  pose proof (scalar_bit _ i Ok Hi) as H. rewrite sc_tobytes_spec, Ev in H by done. exact H.
Qed.

Lemma bucket_idx_val w s bit : (w ≤ 31)%nat → 0 ≤ s < 2 ^ 256 → 0 ≤ bit < 256 →
  bucket_idx w (le_bytes 32 s) bit = (s / 2 ^ bit) mod 2 ^ Z.of_nat w.
Proof.
  intros Hw Hs Hb. unfold bucket_idx. induction w as [|w IH]; [by rewrite Z.mod_1_r|].
  rewrite zseq_snoc, foldl_app, IH by lia. cbn [foldl]. cbv zeta. rewrite Z.add_0_l.
  assert (E : (s / 2 ^ bit) mod 2 ^ Z.of_nat (S w) =
    (s / 2 ^ bit) mod 2 ^ Z.of_nat w + (if Z.odd (s / 2 ^ (bit + Z.of_nat w)) then 1 else 0) * 2 ^ Z.of_nat w).
  { rewrite Nat2Z.inj_succ, Z.pow_succ_r, Z.mul_comm by lia. rewrite Z.rem_mul_r by lia.
    rewrite Z.div_div, <- Z.pow_add_r, Zmod_odd by lia. destruct (Z.odd _); lia. }
  rewrite E. destruct (Z.leb_spec 256 (bit + Z.of_nat w)) as [Hk|Hk].
  - rewrite (Z.div_small s (2 ^ (bit + Z.of_nat w))); [change (Z.odd 0) with false; lia|]. split; [lia|]. eapply Z.lt_le_trans; [apply Hs|]. apply Z.pow_le_mono_r; lia.
  - rewrite byte_bit by lia. destruct (Z.odd _); [|lia].
    assert (Ew : wshl 32 1 (Z.of_nat w) = 1 * 2 ^ Z.of_nat w).
    { unfold wshl. rewrite shl_mul by lia. apply wrap_small. unfold word. rewrite Z.mul_1_l. split; [lia|]. apply Z.pow_lt_mono_r; lia. }
    rewrite Ew. apply lor_add; [lia|]. apply Z.mod_pos_bound. lia.
Qed.

Lemma byte_at s k : 0 ≤ s < 2 ^ 256 → 0 ≤ k →
  (if k <? 32 then nth (Z.to_nat k) (le_bytes 32 s) 0 else 0) = (s / 2 ^ (8 * k)) mod 2 ^ 8.
Proof.
  intros Hs Hk. destruct (Z.ltb_spec k 32).
  - rewrite nth_le_bytes by lia. rewrite Z2Nat.id by lia. change 256 with (2 ^ 8) at 1. by rewrite <- Z.pow_mul_r by lia.
  - rewrite (Z.div_small s); [done|]. split; [lia|]. eapply Z.lt_le_trans; [apply Hs|]. apply Z.pow_le_mono_r; lia.
Qed.

Lemma prover_digit_val w s bit : (w ≤ 16)%nat → 0 ≤ s < 2 ^ 256 → 0 ≤ bit < 256 →
  prover_digit w (le_bytes 32 s) bit = (s / 2 ^ bit) mod 2 ^ Z.of_nat w.
Proof.
  intros Hw Hs Hb. unfold prover_digit. cbv zeta. assert (0 ≤ bit / 8 < 32) as Hq by lia.
  set (q := bit / 8) in *. set (step := λ word j, _).
  assert (Hstep : ∀ wd j, 0 ≤ j < 3 → 0 ≤ wd < 2 ^ (8 * j) → step wd j = wd + (s / 2 ^ (8 * (q + j))) mod 2 ^ 8 * 2 ^ (8 * j)).
  { intros wd j Hj Hwd. unfold step. pose proof (byte_at s (q + j) Hs ltac:(lia)) as E. destruct (q + j <? 32).
    - rewrite E. unfold wshl. rewrite shl_mul by lia.
      pose proof (Z.mod_pos_bound (s / 2 ^ (8 * (q + j))) (2 ^ 8) ltac:(lia)) as Hm.
      rewrite wrap_small; [by apply lor_add; lia|]. unfold word. split; [lia|].
      assert (2 ^ (8 * j) ≤ 2 ^ 16) by (apply Z.pow_le_mono_r; lia). nia.
    - rewrite <- E. lia. }
  cbn [zseq foldl]. rewrite (Hstep 0 0) by lia.
  assert (E1 : 0 + (s / 2 ^ (8 * (q + 0))) mod 2 ^ 8 * 2 ^ (8 * 0) = (s / 2 ^ (8 * q)) mod 2 ^ 8) by (rewrite Z.add_0_r; lia).
  rewrite E1. rewrite (Hstep _ (0 + 1)); [|lia|apply Z.mod_pos_bound; lia].
  assert (E2 : (s / 2 ^ (8 * q)) mod 2 ^ 8 + (s / 2 ^ (8 * (q + (0 + 1)))) mod 2 ^ 8 * 2 ^ (8 * (0 + 1)) = (s / 2 ^ (8 * q)) mod 2 ^ 16).
  { replace (8 * (q + (0 + 1))) with (8 * q + 8) by lia. rewrite Z.pow_add_r, <- Z.div_div by lia.
    change (2 ^ 16) with (2 ^ 8 * 2 ^ 8). rewrite (Z.rem_mul_r (s / 2 ^ (8 * q)) (2 ^ 8) (2 ^ 8)) by lia. change (8 * (0 + 1)) with 8. lia. }
  rewrite E2. rewrite (Hstep _ (0 + 1 + 1)); [|lia|apply Z.mod_pos_bound; lia].
  assert (E3 : (s / 2 ^ (8 * q)) mod 2 ^ 16 + (s / 2 ^ (8 * (q + (0 + 1 + 1)))) mod 2 ^ 8 * 2 ^ (8 * (0 + 1 + 1)) = (s / 2 ^ (8 * q)) mod 2 ^ 24).
  { replace (8 * (q + (0 + 1 + 1))) with (8 * q + 16) by lia. rewrite Z.pow_add_r, <- Z.div_div by lia.
    change (2 ^ 24) with (2 ^ 16 * 2 ^ 8). rewrite (Z.rem_mul_r (s / 2 ^ (8 * q)) (2 ^ 16) (2 ^ 8)) by lia. change (8 * (0 + 1 + 1)) with 16. lia. }
  rewrite E3. clear E1 E2 E3 Hstep step. rewrite (land_low _ (Z.of_nat w)), shr_div by lia.
  apply Z.bits_inj'. intros i Hi. destruct (Z.lt_ge_cases i (Z.of_nat w)).
  - rewrite !Z.mod_pow2_bits_low, !Z.div_pow2_bits by lia. rewrite Z.mod_pow2_bits_low, Z.div_pow2_bits by lia. f_equal. unfold q. lia.
  - by rewrite !Z.mod_pow2_bits_high by lia.
Qed.

Lemma prover_window_range count : 1 ≤ prover_window count ≤ 16.
Proof.
  unfold prover_window. assert (G : ∀ l st, Forall (λ b, 1 ≤ b ≤ 16) l → 1 ≤ st.1.2 ≤ 16 →
    1 ≤ (foldl (try_width count) st l).1.2 ≤ 16).
  { induction l as [|b l IH]; intros [[e wd] sc] Hl Hst; [done|]. inversion Hl as [|? ? Hb Hl']; subst. cbn [foldl]. apply IH; [done|].
    unfold try_width. destruct e; [done|]. cbv zeta. by repeat (match goal with |- context [if ?c then _ else _] => destruct c end; [first [done|idtac]|]). }
  apply G; [|cbn; lia]. apply Forall_forall. intros b Hb%elem_of_zseq. lia.
Qed.

Lemma bit_width_pos f tmp w : (0 < w)%nat → (0 < bit_width f tmp w)%nat.
Proof. revert tmp w. induction f as [|f IH]; intros tmp w Hw; cbn [bit_width]; [done|]. cbv zeta. destruct (_ =? 0); [done|]. apply IH. lia. Qed.

(** ** Points of the prover *)

Section ProverPoints.
#[local] Open Scope F_scope.
#[local] Opaque toF Fadd Fmul Fsub Fopp Finv Fdiv Fpow F0 F1 Fd Fi.

Definition prover_log (pp : ProverPoint) (k : Z) : Prop := ∃ x y, on_curve x y ∧ coset (mult k) (x, y) ∧
  fe_is (minus pp) (y - x) ∧ fe_is (plus pp) (y + x) ∧ fe_is (product pp) (x * y * (Fd + Fd)).

Lemma prover_point_log bs k : dlog bs k → ∃ pp, prover_point bs = Ok pp ∧ prover_log pp k.
Proof.
  intros Hk. destruct (dlog_shape bs k Hk) as [Hl Hb]. destruct (dlog_decode bs k Hk) as (P & HP & A & HA & HC).
  destruct (rist_decode_is bs P Hl Hb HP) as (_ & _ & x & y & D & _ & X & Y & _ & T).
  unfold prover_point, rist_decode_or_throw. rewrite HP. eexists. split; [reflexivity|].
  pose proof (decode_curve _ _ _ D) as [Hc _].
  exists x, y. split; [done|]. split.
  - destruct (rist_decode_point bs P Hl Hb HP) as (x' & y' & HE & D'). destruct (decode_spec_fun _ _ _ _ _ D D') as [<- <-].
    assert (A = (x, y)) as ->; [|done]. destruct A as [a b]. destruct HA as (_ & Z1 & N1 & X1 & Y1 & Zp1 & _). destruct HE as (_ & Z2 & N2 & X2 & Y2 & Zp2 & _).
    pose proof (fe_is_inj _ _ _ Zp1 Zp2) as ->. pose proof (fe_is_inj _ _ _ X1 X2) as EX. pose proof (fe_is_inj _ _ _ Y1 Y2) as EY.
    f_equal; apply (F_mul_cancel Z2); [done| |done|]; [transitivity (a * Z2); [ring|]; rewrite EX; ring|transitivity (b * Z2); [ring|]; rewrite EY; ring].
  - cbn [minus plus product]. pose proof is_2d as H2d. split; [by apply is_sub|]. split; [by apply is_add|]. by apply is_mul.
Qed.

Lemma prover_add_is P A pp x y : ext_is P A → on_curve x y → fe_is (minus pp) (y - x) → fe_is (plus pp) (y + x) →
  fe_is (product pp) (x * y * (Fd + Fd)) → ext_is (prover_add P pp) (ed_add A (x, y)).
Proof.
  destruct A as [x1 y1]. intros (H1 & Z1 & N1 & X1 & Y1 & Zp1 & T1) H2 Hm Hp Ht.
  pose proof (denominator_nonzero _ _ _ _ H1 H2) as Hk.
  pose proof (nz_1_plus _ Hk) as Np. pose proof (nz_1_minus _ Hk) as Nm. clear Hk.
  pose proof (ed_add_curve _ _ _ _ H1 H2) as Hc. cbn [ed_add] in *. unfold prover_add. cbv zeta.
  set (fm := minus pp) in *. set (fp := plus pp) in *. set (ft := product pp) in *. clearbody fm fp ft.
  eapply ext_from_factors; [fe_solve|fe_solve|fe_solve|fe_solve| | | done | | ].
  - intros E. apply (F_mul_nonzero (1 + 1) ((1 - Fd * x1 * x * y1 * y) * Z1)); [exact F_2_neq_0|nonzero|]. rewrite <- E. ring.
  - intros E. apply (F_mul_nonzero (1 + 1) ((1 + Fd * x1 * x * y1 * y) * Z1)); [exact F_2_neq_0|nonzero|]. rewrite <- E. ring.
  - field. done.
  - field. done.
Qed.
End ProverPoints.

Lemma prover_add_log P pp y x : ext_log P y → prover_log pp x → ext_log (prover_add P pp) (y + x).
Proof.
  intros (A & HA & CA) (a & b & Hc & CB & H1 & H2 & H3). exists (ed_add A (a, b)). split; [by apply prover_add_is|].
  rewrite <- mult_add. apply coset_add; [apply mult_curve..|done|done].
Qed.

Lemma decode_log bs x : dlog bs x → ∃ P, rist_decode_or_throw bs = Ok P ∧ ext_log P x.
Proof. intros H. destruct (dlog_decode bs x H) as (P & E & HP). exists P. unfold rist_decode_or_throw. by rewrite E. Qed.

(** ** Both sums are the inner product *)

Definition dot (a b : list Z) : Z := zsums (zip_with Z.mul a b).

Lemma dot_cons a b x y : dot (x :: a) (y :: b) = x * y + dot a b.
Proof. done. Qed.

Lemma mapR_log {B} (f : list Z → res B) (R : B → Z → Prop) points xs :
  (∀ bs x, dlog bs x → ∃ b, f bs = Ok b ∧ R b x) → Forall2 dlog points xs → ∃ bs, mapR f points = Ok bs ∧ Forall2 R bs xs.
Proof.
  intros Hf H. induction H as [|p x points xs Hp _ (bs & E & HB)]; [by exists []|].
  destruct (Hf p x Hp) as (b & Eb & Hb). exists (b :: bs). cbn [mapR]. rewrite Eb. cbn. rewrite E. split; [done|by constructor].
Qed.

Lemma terms_log {B} (R : B → Z → Prop) scalars bs xs : Forall sc_ok scalars → Forall2 R bs xs → length scalars = length bs →
  Forall2 (term_is R) (zip (sc_tobytes <$> scalars) bs) (zip (sc_val <$> scalars) xs) ∧
  lsum (zip (sc_val <$> scalars) xs) (λ v, v.1 * v.2) = dot (sc_val <$> scalars) xs.
Proof.
  intros Hs HB. revert scalars Hs. induction HB as [|b x bs xs Hb _ IH]; intros [|s scalars] Hs Hl; try done.
  inversion Hs as [|? ? Hs1 Hs2]; subst. destruct (IH scalars Hs2) as [IH1 IH2]; [by injection Hl|]. cbn [fmap list_fmap zip zip_with].
  split; [|rewrite lsum_cons, dot_cons; by f_equal]. constructor; [|exact IH1].
  split; [by apply sc_tobytes_spec|]. split; [by apply sc_val_bound|done].
Qed.

Lemma joint_step s n : s / 2 ^ Z.of_nat n = 2 * (s / 2 ^ Z.of_nat (S n)) + (if Z.odd (s / 2 ^ Z.of_nat n) then 1 else 0).
Proof.
  assert (E : s / 2 ^ Z.of_nat (S n) = s / 2 ^ Z.of_nat n / 2).
  { rewrite Nat2Z.inj_succ, Z.pow_succ_r, Z.div_div by lia. f_equal. lia. }
  rewrite E, <- Zmod_odd. apply Z.div_mod. lia.
Qed.

Lemma joint_loop_log n s0 s1 P Q R x y : (n ≤ 256)%nat → 0 ≤ s0 < 2 ^ 256 → 0 ≤ s1 < 2 ^ 256 → ext_log P x → ext_log Q y →
  ext_log R (s0 / 2 ^ Z.of_nat n * x + s1 / 2 ^ Z.of_nat n * y) →
  ext_log (joint_loop n (le_bytes 32 s0) (le_bytes 32 s1) P Q R) (s0 * x + s1 * y).
Proof.
  intros Hn H0 H1 HP HQ. revert R Hn. induction n as [|n IH]; intros R Hn HR; [by rewrite !Z.div_1_r in HR|].
  cbn [joint_loop]. cbv zeta. change 8 with (2 ^ 3). rewrite <- !(shr_div (Z.of_nat n) 3), <- (land_low (Z.of_nat n) 3 7) by done.
  rewrite !byte_bit by lia. apply IH; [lia|].
  pose proof (joint_step s0 n) as E0. pose proof (joint_step s1 n) as E1.
  set (b0 := Z.odd (s0 / _)) in *. set (b1 := Z.odd (s1 / _)) in *. rewrite E0, E1. clear E0 E1. clearbody b0 b1.
  set (u := s0 / 2 ^ Z.of_nat (S n)) in *. set (v := s1 / 2 ^ Z.of_nat (S n)) in *.
  apply ext_log_double in HR. set (D := ext_double R) in *. clearbody D u v.
  assert (A0 : ext_log (if b0 then ext_add D P else D) (2 * (u * x + v * y) + (if b0 then 1 else 0) * x)).
  { destruct b0; [rewrite Z.mul_1_l; by apply ext_log_add|]. by rewrite Z.mul_0_l, Z.add_0_r. }
  set (D' := if b0 then _ else _) in *. clearbody D'.
  destruct b1.
  - eapply ext_log_proper; [|apply ext_log_add; [exact A0|exact HQ]]. apply cong_eq. ring.
  - eapply ext_log_proper; [|exact A0]. apply cong_eq. ring.
Qed.

#[local] Opaque rist_encode joint_loop window_loop ext_scalarmul rist_identity rist_G rist_H sc_tobytes rist_decode_or_throw rist_decode.

Lemma Ok_bind {A B} (a : A) (f : A → res B) : (Ok a ≫= f) = f a.
Proof. done. Qed.

Lemma prover_msm_one s p P : rist_decode_or_throw p = Ok P → prover_msm [s] [p] = Ok (rist_encode (ext_scalarmul P s)).
Proof.
  intros E. transitivity (P ← rist_decode_or_throw p; Ok (rist_encode (ext_scalarmul P s))); [reflexivity|].
  by rewrite E, Ok_bind.
Qed.

Lemma prover_msm_two s0 s1 p0 p1 P Q : rist_decode_or_throw p0 = Ok P → rist_decode_or_throw p1 = Ok Q →
  prover_msm [s0; s1] [p0; p1] = Ok (rist_encode (joint_loop 256 (sc_tobytes s0) (sc_tobytes s1) P Q ext_identity)).
Proof.
  intros E0 E1. transitivity (left ← rist_decode_or_throw p0; right ← rist_decode_or_throw p1;
    Ok (rist_encode (joint_loop 256 (sc_tobytes s0) (sc_tobytes s1) left right ext_identity))); [reflexivity|].
  by rewrite E0, Ok_bind, E1, Ok_bind.
Qed.

Lemma prover_msm_many scalars points decoded : (2 < length scalars)%nat → length scalars = length points → mapR prover_point points = Ok decoded →
  let width := Z.to_nat (prover_window (Z.of_nat (length scalars))) in
  prover_msm scalars points = Ok (rist_encode
    (window_loop prover_add (prover_digit width) width (zip (sc_tobytes <$> scalars) decoded) (num_windows width) ext_identity)).
Proof.
  intros H2 Hl E. unfold prover_msm. rewrite Hl, Nat.eqb_refl. cbn [negb]. rewrite <- Hl, E, Ok_bind.
  destruct scalars as [|s0 [|s1 [|s2 scalars]]]; cbn [length] in H2; [lia|lia|lia|reflexivity].
Qed.

Lemma prover_msm_log scalars points xs : Forall sc_ok scalars → Forall2 dlog points xs → length scalars = length points →
  ∃ c, prover_msm scalars points = Ok c ∧ dlog c (dot (sc_val <$> scalars) xs).
Proof.
  intros Hs HP Hl. destruct (Nat.lt_ge_cases 2 (length scalars)) as [H2|H2].
  - destruct (mapR_log prover_point prover_log points xs prover_point_log HP) as (pps & E & HB).
    rewrite (prover_msm_many _ _ _ H2 Hl E). cbv zeta. eexists. split; [reflexivity|].
    pose proof (prover_window_range (Z.of_nat (length scalars))) as Hw. set (w := Z.to_nat (prover_window _)) in *.
    destruct (terms_log prover_log scalars pps xs Hs HB) as [HT HE]; [rewrite Hl; apply mapR_length in E; by rewrite E|].
    apply ext_log_encode. rewrite <- HE. apply (windows_log prover_add prover_log); [apply prover_add_log| |lia|done].
    intros s bit Hs' Hb. apply prover_digit_val; [lia|done..].
  - destruct scalars as [|s0 [|s1 [|]]]; cbn [length] in H2; [| | |lia].
    + destruct points; [|done]. inversion HP; subst. exists rist_identity. split; [reflexivity|]. apply dlog_identity.
    + destruct points as [|p [|]]; try done. inversion HP as [|? x ? ? Hp HP']; subst. inversion HP'; subst. inversion Hs; subst.
      destruct (decode_log p x Hp) as (P & EP & LP). rewrite (prover_msm_one _ _ _ EP). eexists. split; [reflexivity|]. apply ext_log_encode.
      assert (ED : dot (sc_val <$> [s0]) [x] = sc_val s0 * x) by (unfold dot; cbn; lia). rewrite ED. by apply ext_log_scalarmul.
    + destruct points as [|p0 [|p1 [|]]]; try done. inversion HP as [|? x ? ? Hp HP']; subst. inversion HP' as [|? y ? ? Hq HP'']; subst. inversion HP''; subst.
      inversion Hs as [|? ? Hs0 Hs']; subst. inversion Hs' as [|? ? Hs1 _]; subst.
      destruct (decode_log p0 x Hp) as (P & EP & LP). destruct (decode_log p1 y Hq) as (Q & EQ & LQ). rewrite (prover_msm_two _ _ _ _ _ _ EP EQ).
      eexists. split; [reflexivity|]. apply ext_log_encode. rewrite !sc_tobytes_spec by done.
      assert (ED : dot (sc_val <$> [s0; s1]) [x; y] = sc_val s0 * x + sc_val s1 * y) by (unfold dot; cbn; lia). rewrite ED.
      pose proof (sc_val_bound s0 Hs0) as B0. pose proof (sc_val_bound s1 Hs1) as B1.
      apply joint_loop_log; [lia|exact B0|exact B1|exact LP|exact LQ|].
      rewrite (Z.div_small (sc_val s0)), (Z.div_small (sc_val s1)) by assumption. exact ext_log_identity.
Qed.

Lemma fold_scalarmul_log pts scalars xs P y : Forall sc_ok scalars → Forall2 ext_log pts xs → length scalars = length pts → ext_log P y →
  ext_log (foldl (λ acc '(pt, s), ext_add acc (ext_scalarmul pt s)) P (zip pts scalars)) (y + dot (sc_val <$> scalars) xs).
Proof.
  intros Hs HP. revert scalars Hs P y. induction HP as [|p x pts xs Hp _ IH]; intros [|s scalars] Hs P y Hl HPy; try done.
  - cbn. unfold dot, zsums. cbn. by rewrite Z.add_0_r.
  - inversion Hs as [|? ? Hs1 Hs2]; subst. cbn [zip zip_with foldl fmap list_fmap]. rewrite dot_cons, Z.add_assoc.
    apply IH; [done|by injection Hl|]. apply ext_log_add; [done|]. by apply ext_log_scalarmul.
Qed.

Lemma multi_scalar_mul_log scalars points xs : Forall sc_ok scalars → Forall2 dlog points xs → length scalars = length points →
  ∃ c, multi_scalar_mul scalars points = Ok c ∧ dlog c (dot (sc_val <$> scalars) xs).
Proof.
  intros Hs HP Hl. unfold multi_scalar_mul. rewrite Hl, Nat.eqb_refl. cbn [negb]. destruct (Nat.eqb_spec (length points) 0) as [E0|N0].
  { destruct points; [|done]. inversion HP; subst. destruct scalars; [|done]. exists rist_identity. split; [done|]. apply dlog_identity. }
  destruct (mapR_log rist_decode_or_throw ext_log points xs decode_log HP) as (pts & E & HB). rewrite E, Ok_bind. cbv zeta.
  pose proof (mapR_length _ _ _ E) as Hlp. destruct (length points <=? 2)%nat; eexists; (split; [reflexivity|]); apply ext_log_encode.
  - eapply ext_log_proper; [|apply fold_scalarmul_log; [done|exact HB|by rewrite Hlp|apply ext_log_identity]]. apply cong_eq. lia.
  - destruct (terms_log ext_log scalars pts xs Hs HB) as [HT HE]; [by rewrite Hlp|]. rewrite <- HE.
    pose proof (bit_width_pos 64 (Z.of_nat (length points)) 1 ltac:(lia)) as Hw. set (w := bit_width _ _ _) in *.
    apply (windows_log ext_add ext_log); [intros; by apply ext_log_add| |lia|done].
    intros s bit Hs' Hb. apply bucket_idx_val; [lia|done..].
Qed.

(** ** Property *)

(** C20. Both multi-scalar multiplications, whatever window they choose, never
    throw on encodings of group elements and return the encoding of the sum of
    the multiples; so the prover's and the verifier's agree byte for byte. *)
Theorem msm_correct scalars points xs : Forall sc_ok scalars → Forall2 dlog points xs → length scalars = length points →
  ∃ c, multi_scalar_mul scalars points = Ok c ∧ prover_msm scalars points = Ok c ∧
    dlog c (dot (sc_val <$> scalars) xs).
Proof.
  intros Hs HP Hl. destruct (multi_scalar_mul_log scalars points xs Hs HP Hl) as (c & E & Hc).
  destruct (prover_msm_log scalars points xs Hs HP Hl) as (c' & E' & Hc'). exists c. split_and!; [done| |done].
  rewrite E'. f_equal. by apply (dlog_eq _ _ _ _ Hc' Hc).
Qed.

Lemma msm_correct_witness :
  ∃ c, multi_scalar_mul (replicate 3 (mkScalar [5; 0; 0; 0])) (replicate 3 rist_G) = Ok c ∧
    prover_msm (replicate 3 (mkScalar [5; 0; 0; 0])) (replicate 3 rist_G) = Ok c ∧ dlog c 15.
Proof.
  assert (HG : Forall2 dlog (replicate 3 rist_G) [1; 1; 1]) by (do 3 (apply List.Forall2_cons; [exact dlog_G|]); apply List.Forall2_nil).
  destruct (msm_correct (replicate 3 (mkScalar [5; 0; 0; 0])) (replicate 3 rist_G) [1; 1; 1]
    (Forall_replicate _ 3 _ five_scalar_ok) HG eq_refl) as (c & E1 & E2 & Hc).
  exists c. split; [exact E1|]. split; [exact E2|]. change 15 with (dot (sc_val <$> replicate 3 (mkScalar [5; 0; 0; 0])) [1; 1; 1]). exact Hc.
Defined.
