(* ===== verification/Transcript.v ===== *)
(** * The transcript of a proof: [crypto/bulletproofs/transcript.hpp]

    A transcript is a state of 64 bytes and the scalar operations of its rule.
    Challenges are functions of the messages appended before; under
    [ScalarRule::Wide] they are canonical scalars. *)

From S2P Require Import Prelude Primes Field Hash Rng Fe25519 Scalar25519 Ristretto.

Record Transcript : Type := mkTranscript { state_ : list Z; ops : ScalarOps }.

Definition sha_start : Sha.Sha256 := Sha.init (replicate 64 0).

(** The second half of the state is the hash of the first with a tweak. *)
Definition expand_state (state : list Z) (tweak : Z) : list Z :=
  state ++ Sha.finish (Sha.update (Sha.update sha_start state) [tweak]).

(** [mix], on the bytes of a tag and on the data, empty for [nullptr]. *)
Definition mix (state : list Z) (tag : string) (data : list Z) (op_byte : Z) : list Z :=
  let h := Sha.update sha_start state in
  let h := Sha.update h [op_byte] in
  let tag_len := u32 (Z.of_nat (length (c_str tag))) in
  let h := Sha.update h (le_bytes 4 tag_len) in
  let h := Sha.update h (c_str tag) in
  let h := if (length data =? 0)%nat then h
           else Sha.update (Sha.update h (le_bytes 4 (u32 (Z.of_nat (length data))))) data in
  expand_state (Sha.finish h) 0xFF.

Definition transcript_init (domain_separator : string) (rule : ScalarRule) : Transcript :=
  let h := Sha.update sha_start (c_str "pvac.bp.transcript") in
  let ds_len := u32 (Z.of_nat (length (c_str domain_separator))) in
  let h := Sha.update h (le_bytes 4 ds_len) in
  let h := Sha.update h (c_str domain_separator) in
  mkTranscript (expand_state (Sha.finish h) 0x01) (scalar_ops rule).

Definition append_message (t : Transcript) (label : string) (data : list Z) : Transcript :=
  mkTranscript (mix (state_ t) label data 0x41) (ops t).

Definition append_u64 (t : Transcript) (label : string) (v : Z) : Transcript :=
  append_message t label ((λ i, u8 (v ≫ (i * 8))) <$> zseq 0 8).

Definition append_point (t : Transcript) (label : string) (pt : list Z) : Transcript :=
  append_message t label pt.

Definition append_scalar (t : Transcript) (label : string) (s : Scalar) : Transcript :=
  append_message t label (sc_tobytes s).

(** The [i]-th word of the state. *)
Definition state_word (state : list Z) (i : nat) : Z :=
  fold_left (λ w j, w .| wshl 64 (nth (i * 8 + j) state 0) (Z.of_nat (j * 8))) (seq 0 8) 0.

Definition challenge_scalar (t : Transcript) (label : string) : Scalar * Transcript :=
  let state := mix (state_ t) label [] 0x43 in
  let w := map (state_word state) (seq 0 8) in
  let result := so_reduce (ops t) w in
  (result, mkTranscript (mix state "post_challenge" [] 0x41) (ops t)).

(** ** Challenges are canonical *)

Lemma length_mix state tag data op : length (mix state tag data op) = 64%nat.
Proof.
  unfold mix, expand_state. cbv zeta. rewrite length_app, !finish_length; [done| |].
  - by rewrite !update_length.
  - destruct (_ =? 0)%nat; by rewrite !update_length.
Qed.

Lemma mix_bytes state tag data op : bytes (mix state tag data op).
Proof. unfold mix, expand_state. cbv zeta. apply Forall_app. split; apply finish_bytes. Qed.

Lemma state_word_word state i : bytes state → word 64 (state_word state i).
Proof.
  intros Hs. unfold state_word. assert (H : ∀ l w, word 64 w →
    word 64 (fold_left (λ w j, w .| wshl 64 (nth (i * 8 + j) state 0) (Z.of_nat (j * 8))) l w)).
  { induction l as [|j l IH]; intros w Hw; [done|]. cbn [fold_left]. apply IH.
    apply word_bound_lor; [lia|done|]. by apply wrap_word. }
  apply H. unfold word. lia.
Qed.

Lemma challenge_canon t label : ops t = scalar_ops Wide → sc_canon (challenge_scalar t label).1.
Proof.
  intros E. unfold challenge_scalar. cbv zeta. cbn [fst]. rewrite E. cbn [so_reduce scalar_ops].
  apply (sc_reduce512_wide _); [by rewrite length_map, length_seq|].
  apply Forall_map, Forall_forall. intros i _. apply state_word_word, mix_bytes.
Qed.

Lemma challenge_ops t label : ops (challenge_scalar t label).2 = ops t.
Proof. done. Qed.
