(* ===== verification/Generators.v ===== *)
(** * The generators of the proofs: [crypto/bulletproofs/generators.hpp]

    Points hashed from a label and an index, kept in a table that grows on
    demand.  The table is a cache: [table_ok] is its invariant, and what it
    returns does not depend on what was asked before. *)

From S2P Require Import Prelude Primes Field Hash Rng Fe25519 Scalar25519 Zp Ristretto RistrettoGroup Order Transcript.

Definition BP_MAX_VECTOR_SIZE : Z := 2 ^ 20.

(** From the field element of the hash on, the code repeats the computation of
    [rist_H]. *)
Definition hash_to_ristretto_point (domain : string) (index : Z) : list Z :=
  let h := Sha.update sha_start (c_str domain) in
  let idx_bytes := (λ i, u8 (index ≫ (i * 8))) <$> zseq 0 8 in
  let hash := Sha.finish (Sha.update h idx_bytes) in
  let hash := <[31%nat := nth 31 hash 0 .& 0x7f]> hash in
  rist_H_from (fe_frombytes hash).

Module GeneratorTable.

Record GeneratorTable : Set := mkTable { G_ : list (list Z); H_ : list (list Z) }.

Definition empty : GeneratorTable := mkTable [] [].

(** Under the mutex: the calls are a sequence. *)
Definition ensure_size (t : GeneratorTable) (n : Z) : res GeneratorTable :=
  if BP_MAX_VECTOR_SIZE <? n then Throw "pvac: generator size rejected"
  else if negb (length (G_ t) =? length (H_ t))%nat then Throw "pvac: generator table shape rejected"
  else if n <=? Z.of_nat (length (G_ t)) then Ok t
  else
    let old := Z.of_nat (length (G_ t)) in
    let fresh := zseq old (Z.to_nat (n - old)) in
    Ok (mkTable (G_ t ++ (hash_to_ristretto_point "pvac.bp.gen.G" <$> fresh))
                (H_ t ++ (hash_to_ristretto_point "pvac.bp.gen.H" <$> fresh))).

Definition G (t : GeneratorTable) (i : Z) : res (list Z * GeneratorTable) :=
  if BP_MAX_VECTOR_SIZE <=? i then Throw "pvac: generator size rejected"
  else t ← ensure_size t (i + 1); Ok (nth (Z.to_nat i) (G_ t) [], t).

Definition H (t : GeneratorTable) (i : Z) : res (list Z * GeneratorTable) :=
  if BP_MAX_VECTOR_SIZE <=? i then Throw "pvac: generator size rejected"
  else t ← ensure_size t (i + 1); Ok (nth (Z.to_nat i) (H_ t) [], t).

Definition precompute (t : GeneratorTable) (n : Z) : res (unit * GeneratorTable) :=
  t ← ensure_size t n; Ok (tt, t).

Definition G_vec (t : GeneratorTable) (n : Z) : res (list (list Z) * GeneratorTable) :=
  t ← ensure_size t n; Ok (take (Z.to_nat n) (G_ t), t).

Definition H_vec (t : GeneratorTable) (n : Z) : res (list (list Z) * GeneratorTable) :=
  t ← ensure_size t n; Ok (take (Z.to_nat n) (H_ t), t).

End GeneratorTable.

(** [generators()], the static table: what it returns does not depend on the
    calls before ([generator_table_correct]), so each call is run on the empty
    table. *)
Module generators.

Definition run {A} (f : GeneratorTable.GeneratorTable → res (A * GeneratorTable.GeneratorTable)) : res A :=
  r ← f GeneratorTable.empty; Ok r.1.

Definition G (i : Z) : res (list Z) := run (λ t, GeneratorTable.G t i).
Definition H (i : Z) : res (list Z) := run (λ t, GeneratorTable.H t i).
Definition precompute (n : Z) : res unit := run (λ t, GeneratorTable.precompute t n).
Definition G_vec (n : Z) : res (list (list Z)) := run (λ t, GeneratorTable.G_vec t n).
Definition H_vec (n : Z) : res (list (list Z)) := run (λ t, GeneratorTable.H_vec t n).

End generators.

Definition pedersen_B : list Z := rist_G.
Definition pedersen_B_blinding : list Z := rist_H.

(** The loop doubles [out] while it is below [n]. *)
Fixpoint next_power_loop (fuel : nat) (n out : Z) : res Z :=
  match fuel with
  | O => OutOfFuel
  | S fuel =>
      if out <? n then
        if BP_MAX_VECTOR_SIZE / 2 <? out then Throw "pvac: vector size overflow"
        else next_power_loop fuel n (wshl 64 out 1)
      else Ok out
  end.

Definition next_power_of_2 (n : Z) : res Z :=
  if n =? 0 then Ok 1
  else if BP_MAX_VECTOR_SIZE <? n then Throw "pvac: vector size rejected"
  else next_power_loop 22 n 1.

Fixpoint log2_loop (fuel : nat) (n r : Z) : res Z :=
  match fuel with
  | O => OutOfFuel
  | S fuel => if wshl 64 1 r <? n then log2_loop fuel n (r + 1) else Ok r
  end.

Definition log2_size (n : Z) : res Z :=
  if (n =? 0) || (BP_MAX_VECTOR_SIZE <? n) || negb (n .& (n - 1) =? 0)
  then Throw "pvac: log2 size rejected"
  else log2_loop 22 n 0.

(** ** Hashed points are in the group *)

Lemma hash_to_ristretto_point_log domain index : ∃ x, dlog (hash_to_ristretto_point domain index) x.
Proof.
  unfold hash_to_ristretto_point. cbv zeta.
  destruct (masked_digest_enc (Sha.update (Sha.update sha_start (c_str domain)) ((λ i, u8 (index ≫ (i * 8))) <$> zseq 0 8))) as [A HA].
  { by rewrite !update_length. }
  destruct (even_is_multiple A (proj1 HA)) as [x Hx]. exists x. by apply (enc_coset _ A).
Qed.

(** ** The table is a cache *)

Definition gen_G (i : Z) : list Z := hash_to_ristretto_point "pvac.bp.gen.G" i.
Definition gen_H (i : Z) : list Z := hash_to_ristretto_point "pvac.bp.gen.H" i.

#[local] Opaque hash_to_ristretto_point.

Definition table_ok (t : GeneratorTable.GeneratorTable) : Prop := ∃ n,
  Z.of_nat n ≤ BP_MAX_VECTOR_SIZE ∧
  GeneratorTable.G_ t = gen_G <$> zseq 0 n ∧ GeneratorTable.H_ t = gen_H <$> zseq 0 n.

Lemma empty_ok : table_ok GeneratorTable.empty.
Proof. by exists 0%nat. Qed.

Lemma ensure_size_spec t n : table_ok t → 0 ≤ n ≤ BP_MAX_VECTOR_SIZE → ∃ t' m, GeneratorTable.ensure_size t n = Ok t' ∧ table_ok t' ∧
  n ≤ Z.of_nat m ∧ GeneratorTable.G_ t' = gen_G <$> zseq 0 m ∧ GeneratorTable.H_ t' = gen_H <$> zseq 0 m.
Proof.
  intros (k & Hk & HG & HH) Hn. unfold GeneratorTable.ensure_size. rewrite (proj2 (Z.ltb_ge _ _)) by lia.
  rewrite HG, HH, !length_fmap, !length_zseq, Nat.eqb_refl. cbn [negb]. destruct (Z.leb_spec n (Z.of_nat k)).
  - exists t, k. split; [reflexivity|]. split; [exists k; exact (conj Hk (conj HG HH))|]. split; [assumption|]. exact (conj HG HH).
  - set (m := (k + Z.to_nat (n - Z.of_nat k))%nat).
    assert (E : ∀ f : Z → list Z, (f <$> zseq 0 k) ++ (f <$> zseq (Z.of_nat k) (Z.to_nat (n - Z.of_nat k))) = f <$> zseq 0 m).
    { intros f. unfold m. by rewrite zseq_app, fmap_app. }
    pose proof (E gen_G) as EG. pose proof (E gen_H) as EH. clear E.
    exists (GeneratorTable.mkTable (gen_G <$> zseq 0 m) (gen_H <$> zseq 0 m)), m.
    split; [rewrite <- EG, <- EH; reflexivity|]. split; [exists m|split; [lia|]]; cbn [GeneratorTable.G_ GeneratorTable.H_].
    + split; [lia|]. split; reflexivity.
    + split; reflexivity.
Qed.

Lemma nth_gen (f : Z → list Z) i m : 0 ≤ i < Z.of_nat m → nth (Z.to_nat i) (f <$> zseq 0 m) [] = f i.
Proof.
  intros Hi. apply nth_lookup_Some. rewrite list_lookup_fmap, lookup_zseq by lia. cbn. f_equal. f_equal. lia.
Qed.

Lemma take_gen (f : Z → list Z) n m : 0 ≤ n ≤ Z.of_nat m → take (Z.to_nat n) (f <$> zseq 0 m) = f <$> zseq 0 (Z.to_nat n).
Proof.
  intros Hn. replace m with (Z.to_nat n + (m - Z.to_nat n))%nat by lia. rewrite zseq_app, fmap_app, take_app_le.
  - by rewrite take_ge by (rewrite length_fmap, length_zseq; lia).
  - rewrite length_fmap, length_zseq. lia.
Qed.

Lemma ensure_size_rejects t n : BP_MAX_VECTOR_SIZE < n → GeneratorTable.ensure_size t n = Throw "pvac: generator size rejected".
Proof. intros Hn. unfold GeneratorTable.ensure_size. by rewrite (proj2 (Z.ltb_lt _ _) Hn). Qed.

(** [generators()] on indices and sizes in range. *)
Lemma generators_G_eq i : 0 ≤ i < BP_MAX_VECTOR_SIZE → generators.G i = Ok (gen_G i).
Proof.
  intros Hi. unfold generators.G, generators.run, GeneratorTable.G. rewrite (proj2 (Z.leb_gt _ _)) by lia.
  destruct (ensure_size_spec GeneratorTable.empty (i + 1) empty_ok) as (t' & m & -> & _ & Hm & HG & _); [lia|]. cbn. by rewrite HG, nth_gen by lia.
Qed.

Lemma generators_H_eq i : 0 ≤ i < BP_MAX_VECTOR_SIZE → generators.H i = Ok (gen_H i).
Proof.
  intros Hi. unfold generators.H, generators.run, GeneratorTable.H. rewrite (proj2 (Z.leb_gt _ _)) by lia.
  destruct (ensure_size_spec GeneratorTable.empty (i + 1) empty_ok) as (t' & m & -> & _ & Hm & _ & HH); [lia|]. cbn. by rewrite HH, nth_gen by lia.
Qed.

Lemma generators_vec_eq n : 0 ≤ n ≤ BP_MAX_VECTOR_SIZE → generators.precompute n = Ok tt ∧
  generators.G_vec n = Ok (gen_G <$> zseq 0 (Z.to_nat n)) ∧ generators.H_vec n = Ok (gen_H <$> zseq 0 (Z.to_nat n)).
Proof.
  intros Hn. unfold generators.precompute, generators.G_vec, generators.H_vec, generators.run.
  unfold GeneratorTable.precompute, GeneratorTable.G_vec, GeneratorTable.H_vec.
  destruct (ensure_size_spec GeneratorTable.empty n empty_ok Hn) as (t' & m & -> & _ & Hm & HG & HH). cbn.
  rewrite HG, HH, !take_gen by lia. done.
Qed.

(** ** Powers of two *)

Lemma next_power_loop_spec f n j : 0 ≤ j → j + Z.of_nat f = 22 → 2 ^ j < 2 * n → 0 < n ≤ 2 ^ 20 →
  ∃ k, 0 ≤ k ≤ 20 ∧ next_power_loop f n (2 ^ j) = Ok (2 ^ k) ∧ n ≤ 2 ^ k < 2 * n.
Proof.
  revert j. induction f as [|f IH]; intros j Hj Hf Hlt Hn.
  { assert (2 ^ 22 ≤ 2 ^ j) by (apply Z.pow_le_mono_r; lia). lia. }
  assert (Hj21 : j ≤ 20). { destruct (Z.le_gt_cases j 20); [done|]. assert (2 ^ 21 ≤ 2 ^ j) by (apply Z.pow_le_mono_r; lia). lia. }
  cbn [next_power_loop]. destruct (Z.ltb_spec (2 ^ j) n).
  - destruct (Z.ltb_spec (BP_MAX_VECTOR_SIZE / 2) (2 ^ j)) as [Hb|Hb].
    { exfalso. change (BP_MAX_VECTOR_SIZE / 2) with (2 ^ 19) in Hb. assert (19 < j) by (apply (Z.pow_lt_mono_r_iff 2); lia).
      assert (j = 20) as -> by lia. lia. }
    assert (E : wshl 64 (2 ^ j) 1 = 2 ^ (j + 1)).
    { unfold wshl. rewrite shl_mul, <- Z.pow_add_r by lia. apply wrap_small. split; [lia|]. apply Z.pow_lt_mono_r; lia. }
    rewrite E. apply IH; [lia..| |done]. rewrite Z.pow_add_r by lia. lia.
  - exists j. split; [done|]. split; [done|lia].
Qed.

Lemma next_power_spec n : 0 < n ≤ BP_MAX_VECTOR_SIZE → ∃ k, 0 ≤ k ≤ 20 ∧ next_power_of_2 n = Ok (2 ^ k) ∧ n ≤ 2 ^ k < 2 * n.
Proof.
  intros Hn. unfold next_power_of_2. rewrite (proj2 (Z.eqb_neq _ _)), (proj2 (Z.ltb_ge _ _)) by lia.
  apply (next_power_loop_spec 22 n 0); [lia|lia|lia|]. unfold BP_MAX_VECTOR_SIZE in Hn. lia.
Qed.

Lemma log2_loop_spec f k r : 0 ≤ r ≤ k → k ≤ 20 → k < r + Z.of_nat f → log2_loop f (2 ^ k) r = Ok k.
Proof.
  revert r. induction f as [|f IH]; intros r Hr Hk Hf; [lia|]. cbn [log2_loop].
  assert (E : wshl 64 1 r = 2 ^ r).
  { unfold wshl. rewrite shl_mul, Z.mul_1_l by lia. apply wrap_small. split; [lia|]. apply Z.pow_lt_mono_r; lia. }
  rewrite E. destruct (Z.ltb_spec (2 ^ r) (2 ^ k)) as [H|H].
  - apply Z.pow_lt_mono_r_iff in H; [|lia..]. apply IH; lia.
  - f_equal. apply Z.pow_le_mono_r_iff in H; lia.
Qed.

Lemma log2_size_pow k : 0 ≤ k ≤ 20 → log2_size (2 ^ k) = Ok k.
Proof.
  intros Hk. unfold log2_size. assert (2 ^ k ≤ 2 ^ 20) by (apply Z.pow_le_mono_r; lia).
  assert (0 < 2 ^ k) by lia. rewrite (proj2 (Z.eqb_neq _ _)), (proj2 (Z.ltb_ge _ _)) by (unfold BP_MAX_VECTOR_SIZE; lia).
  rewrite (land_low _ k) by lia. rewrite Z.mod_same by lia. cbn [orb negb Z.eqb]. apply log2_loop_spec; lia.
Qed.

(** ** Properties *)

(** C22. The table of generators is a cache: whatever was asked before, [G] and
    [H] return the point hashed from their label and index, [G_vec] and [H_vec]
    the first [n] of them, all of them elements of the group; what the table
    holds stays consistent; and sizes above [BP_MAX_VECTOR_SIZE] are refused. *)
Theorem generator_table_correct t i n : table_ok t → 0 ≤ i → 0 ≤ n →
  (if i <? BP_MAX_VECTOR_SIZE then
     (∃ t', GeneratorTable.G t i = Ok (gen_G i, t') ∧ table_ok t') ∧ (∃ t', GeneratorTable.H t i = Ok (gen_H i, t') ∧ table_ok t')
   else is_ok (GeneratorTable.G t i) = false ∧ is_ok (GeneratorTable.H t i) = false) ∧
  (if n <=? BP_MAX_VECTOR_SIZE then
     (∃ t', GeneratorTable.G_vec t n = Ok (gen_G <$> zseq 0 (Z.to_nat n), t') ∧ table_ok t') ∧
     (∃ t', GeneratorTable.H_vec t n = Ok (gen_H <$> zseq 0 (Z.to_nat n), t') ∧ table_ok t') ∧
     (∃ t', GeneratorTable.precompute t n = Ok (tt, t') ∧ table_ok t')
   else is_ok (GeneratorTable.G_vec t n) = false ∧ is_ok (GeneratorTable.H_vec t n) = false ∧
        is_ok (GeneratorTable.precompute t n) = false) ∧
  rist_decode (gen_G i) ≠ None ∧ rist_decode (gen_H i) ≠ None.
Proof.
  intros Ht Hi Hn. split; [|split].
  - unfold GeneratorTable.G, GeneratorTable.H. destruct (Z.ltb_spec i BP_MAX_VECTOR_SIZE).
    + rewrite (proj2 (Z.leb_gt _ _)) by lia. destruct (ensure_size_spec t (i + 1) Ht) as (t' & m & -> & Ok' & Hm & HG & HH); [lia|].
      cbn. rewrite HG, HH, !nth_gen by lia. split; exists t'; (split; [reflexivity|exact Ok']).
    + rewrite (proj2 (Z.leb_le _ _)) by lia. split; reflexivity.
  - unfold GeneratorTable.G_vec, GeneratorTable.H_vec, GeneratorTable.precompute. destruct (Z.leb_spec n BP_MAX_VECTOR_SIZE).
    + destruct (ensure_size_spec t n Ht) as (t' & m & -> & Ok' & Hm & HG & HH); [lia|]. cbn.
      rewrite HG, HH, !take_gen by lia. repeat split; exists t'; (split; [reflexivity|exact Ok']).
    + rewrite ensure_size_rejects by lia. repeat split; reflexivity.
  - split; [destruct (hash_to_ristretto_point_log "pvac.bp.gen.G" i) as [x Hx]|destruct (hash_to_ristretto_point_log "pvac.bp.gen.H" i) as [x Hx]];
      destruct (dlog_decode _ _ Hx) as (P & E & _); unfold gen_G, gen_H; rewrite E; discriminate.
Qed.

Lemma generator_table_correct_witness :
  ∃ t', GeneratorTable.G GeneratorTable.empty 3 = Ok (gen_G 3, t') ∧ table_ok t'.
Proof. exact (proj1 (proj1 (generator_table_correct GeneratorTable.empty 3 0 empty_ok ltac:(lia) ltac:(lia)))). Defined.
