(* ===== verification/InnerProduct.v ===== *)
(** * The inner-product argument: [crypto/bulletproofs/inner_product.hpp]

    The prover halves its vectors [lg n] times, each time against a challenge of
    the transcript; the verifier folds all rounds into one sum of multiples.
    On logarithms both sides are linear algebra modulo the group order, and an
    honest proof is accepted unless a challenge is zero. *)

From S2P Require Import Prelude Primes Field Hash Rng Fe25519 Scalar25519 ScalarField Ristretto RistrettoGroup Order Msm Transcript Generators.

Record InnerProductProof : Set := mkIpp {
  ipp_L : list (list Z); ipp_R : list (list Z); ipp_a : Scalar; ipp_b : Scalar }.

(** ** Proving *)

(** [result = sc_add(result, ops.mul(a[i], b[i]))] over the indices. *)
Definition mul_sum (ops : ScalarOps) (a b : list Scalar) : Scalar :=
  foldl (λ result '(x, y), sc_add result (so_mul ops x y)) sc_zero (zip a b).

Definition inner_product (a b : list Scalar) (ops : ScalarOps) : res Scalar :=
  if negb (length a =? length b)%nat then Throw "assertion: a.size() == b.size()" else Ok (mul_sum ops a b).

(** The rounds: the points of the proof, the last values, the transcript. *)
Fixpoint ipp_loop (lg : nat) (t : Transcript) (Q : list Z) (a b : list Scalar) (G_vec H_vec : list (list Z))
    : res (InnerProductProof * Transcript) :=
  match lg with
  | O =>
      match a, b with
      | [a], [b] => Ok (mkIpp [] [] a b, t)
      | _, _ => Throw "assertion: a.size() == 1 && b.size() == 1"
      end
  | S lg =>
      let half := (length a / 2)%nat in
      let aL := take half a in let aR := drop half a in
      let bL := take half b in let bR := drop half b in
      let GL := take half G_vec in let GR := drop half G_vec in
      let HL := take half H_vec in let HR := drop half H_vec in
      let c_L := mul_sum (ops t) aL bR in
      let c_R := mul_sum (ops t) aR bL in
      L ← prover_msm (aL ++ bR ++ [c_L]) (GR ++ HL ++ [Q]);
      R ← prover_msm (aR ++ bL ++ [c_R]) (GL ++ HR ++ [Q]);
      let t := append_point t "L" L in
      let t := append_point t "R" R in
      let '(u_k, t) := challenge_scalar t "u" in
      let u_k_inv := so_inv (ops t) u_k in
      let a_new := zip_with (λ x y, sc_add (so_mul (ops t) x u_k) (so_mul (ops t) y u_k_inv)) aL aR in
      let b_new := zip_with (λ x y, sc_add (so_mul (ops t) x u_k_inv) (so_mul (ops t) y u_k)) bL bR in
      G_new ← mapR (λ '(p, q), prover_msm [u_k_inv; u_k] [p; q]) (zip GL GR);
      H_new ← mapR (λ '(p, q), prover_msm [u_k; u_k_inv] [p; q]) (zip HL HR);
      '(proof, t) ← ipp_loop lg t Q a_new b_new G_new H_new;
      Ok (mkIpp (L :: ipp_L proof) (R :: ipp_R proof) (ipp_a proof) (ipp_b proof), t)
  end.

Definition ipp_prove (t : Transcript) (Q : list Z) (a b : list Scalar) (G_vec H_vec : list (list Z))
    : res (InnerProductProof * Transcript) :=
  let n := length a in
  if negb ((n =? length b)%nat && (n =? length G_vec)%nat && (n =? length H_vec)%nat && (0 <? n)%nat &&
           (Z.of_nat n .& (Z.of_nat n - 1) =? 0)) then Throw "assertion: n"
  else
    lg ← log2_size (Z.of_nat n);
    ipp_loop (Z.to_nat lg) t Q a b G_vec H_vec.

(** ** Verifying *)

(** The verifier's challenges, from the points of the proof. *)
Fixpoint ipp_challenges (t : Transcript) (L R : list (list Z)) : list Scalar * Transcript :=
  match L, R with
  | l :: L, r :: R =>
      let t := append_point t "L" l in
      let t := append_point t "R" r in
      let '(u, t) := challenge_scalar t "u" in
      let '(us, t) := ipp_challenges t L R in (u :: us, t)
  | _, _ => ([], t)
  end.

(** [s[i]] from the entries before it: [i] without its top bit. *)
Definition next_s (ops : ScalarOps) (challenges : list Scalar) (s : list Scalar) (i : Z) : list Scalar :=
  let lg := length challenges in
  let k := bit_width 64 i 0 in
  let challenge_idx := (lg - 1 - k)%nat in
  let c := nth challenge_idx challenges sc_zero in
  let u_sq := so_mul ops c c in
  s ++ [so_mul ops (nth (Z.to_nat (i .^ wshl 64 1 (Z.of_nat k))) s sc_zero) u_sq].

Definition ipp_verification_scalars (challenges : list Scalar) (ops : ScalarOps) : list Scalar :=
  let lg := length challenges in
  let n := Z.to_nat (wshl 64 1 (Z.of_nat lg)) in
  let u_inv := so_inv ops <$> challenges in
  let s0 := foldl (so_mul ops) (mkScalar [1; 0; 0; 0]) u_inv in
  foldl (next_s ops challenges) [s0] (zseq 1 (n - 1)).

(** The products of the prefixes. *)
Fixpoint prefixes (ops : ScalarOps) (p : Scalar) (vals : list Scalar) : list Scalar :=
  match vals with [] => [p] | v :: vals => p :: prefixes ops (so_mul ops p v) vals end.

(** From the last index down, with the inverse of the product so far. *)
Fixpoint batch_back (ops : ScalarOps) (rvals rprefix : list Scalar) (inv_all : Scalar) (acc : list Scalar) : list Scalar :=
  match rvals, rprefix with
  | v :: rvals, p :: rprefix => batch_back ops rvals rprefix (so_mul ops inv_all v) (so_mul ops inv_all p :: acc)
  | _, _ => inv_all :: acc
  end.

Definition batch_sc_inv (vals : list Scalar) (ops : ScalarOps) : list Scalar :=
  match vals with
  | [] => []
  | v :: vs =>
      let prefix := prefixes ops v vs in
      match rev prefix with
      | last :: rprefix => batch_back ops (rev vs) rprefix (so_inv ops last) []
      | [] => []
      end
  end.

(** The terms of the challenges: [-u^2 L - u^-2 R]. *)
Definition round_scalars (u_sqs u_inv_sqs : list Scalar) : list Scalar :=
  concat (zip_with (λ x y, [sc_neg x; sc_neg y]) u_sqs u_inv_sqs).
Definition round_points (L R : list (list Z)) : list (list Z) := concat (zip_with (λ x y, [x; y]) L R).

Definition ipp_verify (t : Transcript) (P Q : list Z) (proof : InnerProductProof) (n : nat) : res (bool * Transcript) :=
  let lg := length (ipp_L proof) in
  if negb (length (ipp_R proof) =? lg)%nat then Ok (false, t)
  else if negb (wshl 64 1 (Z.of_nat lg) =? Z.of_nat n) then Ok (false, t)
  else
    let o := ops t in
    let '(challenges, t) := ipp_challenges t (ipp_L proof) (ipp_R proof) in
    let s := ipp_verification_scalars challenges o in
    let s_inv := batch_sc_inv s o in
    let ab := so_mul o (ipp_a proof) (ipp_b proof) in
    Gs ← mapR generators.G (zseq 0 n);
    Hs ← mapR generators.H (zseq 0 n);
    let u_sqs := (λ c, so_mul o c c) <$> challenges in
    let u_inv_sqs := batch_sc_inv u_sqs o in
    let scalars := ((λ x, so_mul o (ipp_a proof) x) <$> s) ++ ((λ x, so_mul o (ipp_b proof) x) <$> s_inv) ++ [ab]
      ++ round_scalars u_sqs u_inv_sqs in
    let points := Gs ++ Hs ++ [Q] ++ round_points (ipp_L proof) (ipp_R proof) in
    expected ← multi_scalar_mul scalars points;
    Ok (bool_decide (expected = P), t).

(** ** Vectors of residues *)

Lemma dot_app a b c d : length a = length c → dot (a ++ b) (c ++ d) = dot a c + dot b d.
Proof.
  revert c. induction a as [|x a IH]; intros [|y c] Hl; try discriminate; [done|]. cbn [app]. rewrite !dot_cons, IH by (by injection Hl). lia.
Qed.

Lemma dot_comm a b : dot a b = dot b a.
Proof. revert b. induction a as [|x a IH]; intros [|y b]; [done..|]. rewrite !dot_cons, IH. lia. Qed.

Lemma dot_one x y : dot [x] [y] = x * y.
Proof. rewrite dot_cons. unfold dot, zsums. cbn. lia. Qed.

(** [x u + y v], entry by entry. *)
Definition comb (u v : Z) (a b : list Z) : list Z := zip_with (λ x y, x * u + y * v) a b.

Lemma dot_comb u v a b c : length a = length b → length a = length c → dot (comb u v a b) c = u * dot a c + v * dot b c.
Proof.
  revert b c. induction a as [|x a IH]; intros [|y b] [|z c] H1 H2; try discriminate; [unfold dot, zsums; cbn; lia|].
  unfold comb. cbn [zip_with]. fold (comb u v a b). rewrite !dot_cons, IH by (by injection H1; injection H2). lia.
Qed.

Lemma dot_comb_r u v a b c : length a = length b → length a = length c → dot c (comb u v a b) = u * dot c a + v * dot c b.
Proof. intros. rewrite dot_comm, dot_comb by done. by rewrite (dot_comm a), (dot_comm b). Qed.

Lemma length_comb u v a b : length a = length b → length (comb u v a b) = length a.
Proof. intros H. unfold comb. rewrite length_zip_with. lia. Qed.

Definition scale (u : Z) (a : list Z) : list Z := (λ x, u * x) <$> a.

Lemma dot_scale u a b : dot (scale u a) b = u * dot a b.
Proof.
  revert b. induction a as [|x a IH]; intros [|y b]; try (unfold dot, zsums; cbn; lia). unfold scale. cbn [fmap list_fmap].
  fold (scale u a). rewrite !dot_cons, IH. lia.
Qed.

Definition cong_vec : list Z → list Z → Prop := Forall2 (cong scL).

#[export] Instance dot_proper : Proper (cong_vec ==> cong_vec ==> cong scL) dot.
Proof.
  intros a a' Ha b b' Hb. revert b b' Hb. induction Ha as [|x x' a a' Hx _ IH]; intros b b' Hb; [by destruct Hb|].
  destruct Hb as [|y y' b b' Hy Hb]; [done|]. rewrite !dot_cons. by rewrite Hx, Hy, (IH _ _ Hb).
Qed.

Lemma cong_vec_refl a : cong_vec a a.
Proof. apply Forall_Forall2_diag, Forall_forall. reflexivity. Qed.

Lemma is_vec_cong v x y : is_vec v x → cong_vec x y → is_vec v y.
Proof.
  intros H. revert y. induction H as [|s a v x Hs _ IH]; intros y Hy; inversion Hy as [|? b ? y' Hab Hy']; subst; constructor; [|by apply IH].
  by apply (sc_is_cong s a).
Qed.

Lemma is_vec_vals v x : is_vec v x → cong_vec (sc_val <$> v) x ∧ Forall sc_ok v.
Proof. intros H. induction H as [|s a v x [[Hs _] E] _ [IH1 IH2]]; split; constructor; done. Qed.

Lemma prover_msm_is ss ps vs xs : is_vec ss vs → Forall2 dlog ps xs → length ss = length ps →
  ∃ c, prover_msm ss ps = Ok c ∧ dlog c (dot vs xs).
Proof.
  intros Hs Hp Hl. destruct (is_vec_vals _ _ Hs) as [E O]. destruct (prover_msm_log ss ps xs O Hp Hl) as (c & Ec & Hc).
  exists c. split; [exact Ec|]. rewrite <- E. exact Hc.
Qed.

Lemma multi_scalar_mul_is ss ps vs xs : is_vec ss vs → Forall2 dlog ps xs → length ss = length ps →
  ∃ c, multi_scalar_mul ss ps = Ok c ∧ dlog c (dot vs xs).
Proof.
  intros Hs Hp Hl. destruct (is_vec_vals _ _ Hs) as [E O]. destruct (multi_scalar_mul_log ss ps xs O Hp Hl) as (c & Ec & Hc).
  exists c. split; [exact Ec|]. rewrite <- E. exact Hc.
Qed.

Abbreviation W := (scalar_ops Wide).

Lemma is_W_mul a b x y : sc_is a x → sc_is b y → sc_is (so_mul W a b) (x * y).
Proof. exact (is_sc_mul a b x y). Qed.

Lemma is_W_inv a x : sc_is a x → sc_is (so_inv W a) (zinv x).
Proof. exact (is_sc_inv a x). Qed.

Lemma mul_sum_is a b x y : is_vec a x → is_vec b y → sc_is (mul_sum W a b) (dot x y).
Proof.
  intros Ha Hb. unfold mul_sum. assert (G : ∀ r z, sc_is r z → sc_is (foldl (λ result '(x, y), sc_add result (so_mul W x y)) r (zip a b)) (z + dot x y)).
  { revert b y Hb. induction Ha as [|s u a x Hs _ IH]; intros b y Hb r z Hr; [unfold dot, zsums; cbn; by rewrite Z.add_0_r|].
    destruct Hb as [|s' v b y Hs' Hb]; [unfold dot, zsums; cbn; by rewrite Z.add_0_r|]. cbn [zip zip_with foldl]. rewrite dot_cons, Z.add_assoc.
    apply (IH _ _ Hb). apply is_sc_add; [exact Hr|]. exact (is_W_mul _ _ _ _ Hs Hs'). }
  exact (G sc_zero 0 is_zero_scalar).
Qed.

(** ** The rounds *)

(** The coefficients that the rounds give to the vector of generators, from the
    challenges [u] and their inverses [w]. *)
Fixpoint svec (uw : list (Z * Z)) : list Z :=
  match uw with [] => [1] | (u, w) :: uw => scale w (svec uw) ++ scale u (svec uw) end.

Lemma length_svec uw : length (svec uw) = Nat.pow 2 (length uw).
Proof. induction uw as [|[u w] uw IH]; [done|]. cbn [svec length Nat.pow]. unfold scale. rewrite length_app, !length_fmap, IH. lia. Qed.

Definition inverse_pair (p : Z * Z) : Prop := cong scL (p.1 * p.2) 1.

Definition squares (us : list Z) : list Z := (λ u, u * u) <$> us.

Lemma Forall2_two {A B} (R : A → B → Prop) a b x y : R a x → R b y → Forall2 R [a; b] [x; y].
Proof. intros Ha Hb. apply List.Forall2_cons; [exact Ha|]. apply List.Forall2_cons; [exact Hb|]. apply List.Forall2_nil. Qed.

Lemma mapR_pairs s0 s1 u0 u1 GL GR gl gr : sc_is s0 u0 → sc_is s1 u1 → Forall2 dlog GL gl → Forall2 dlog GR gr → length gl = length gr →
  ∃ cs, mapR (λ '(p, q), prover_msm [s0; s1] [p; q]) (zip GL GR) = Ok cs ∧ Forall2 dlog cs (comb u0 u1 gl gr).
Proof.
  intros H0 H1 HL. revert GR gr. induction HL as [|p x GL gl Hp _ IH]; intros GR gr HR Hl; destruct HR as [|q y GR gr Hq HR]; try discriminate.
  - exists []. split; [done|]. constructor.
  - destruct (IH GR gr HR) as (cs & Ecs & Hcs); [by injection Hl|].
    destruct (prover_msm_is [s0; s1] [p; q] [u0; u1] [x; y]) as (c & Ec & Hc); [by apply Forall2_two..|done|].
    exists (c :: cs). cbn [zip zip_with mapR]. rewrite Ec, Ok_bind, Ecs, Ok_bind. split; [done|]. constructor; [|done].
    eapply dlog_proper; [|exact Hc]. apply cong_eq. rewrite dot_cons, dot_one. ring.
Qed.

Lemma halves {A B} (R : A → B → Prop) l x n : Forall2 R l x → length x = (n + n)%nat →
  Forall2 R (take n l) (take n x) ∧ Forall2 R (drop n l) (drop n x) ∧ length (take n x) = n ∧ length (drop n x) = n ∧
  length (take n l) = n ∧ length (drop n l) = n.
Proof.
  intros H Hl. pose proof (Forall2_length _ _ _ H). rewrite !length_take, !length_drop.
  split; [by apply Forall2_take|]. split; [by apply Forall2_drop|]. lia.
Qed.

(** What the rounds preserve, as an equation between logarithms. *)
Definition round_eq (q : Z) (av bv g h : list Z) (us ws xL xR : list Z) (fa fb : Z) : Prop :=
  Forall inverse_pair (zip us ws) →
  cong scL (dot av g + dot bv h + dot av bv * q + dot (squares us) xL + dot (squares ws) xR)
           (fa * dot (svec (zip us ws)) g + fb * dot (svec (zip ws us)) h + fa * fb * q).

Lemma round_step q u w aL aR bL bR gL gR hL hR us ws xL xR fa fb n :
  length aL = n → length aR = n → length bL = n → length bR = n → length gL = n → length gR = n → length hL = n → length hR = n →
  length us = length ws → Nat.pow 2 (length us) = n →
  round_eq q (comb u w aL aR) (comb w u bL bR) (comb w u gL gR) (comb u w hL hR) us ws xL xR fa fb →
  round_eq q (aL ++ aR) (bL ++ bR) (gL ++ gR) (hL ++ hR) (u :: us) (w :: ws)
    ((dot aL gR + dot bR hL + dot aL bR * q) :: xL) ((dot aR gL + dot bL hR + dot aR bL * q) :: xR) fa fb.
Proof.
  intros LaL LaR LbL LbR LgL LgR LhL LhR Lus Ln HR HF. cbn [zip zip_with] in HF. inversion HF as [|? ? Huw HF']; subst.
  specialize (HR HF'). unfold inverse_pair in Huw. cbn [fst snd] in Huw.
  assert (Ls1 : length (svec (zip us ws)) = length gL) by (rewrite length_svec, length_zip_with; rewrite <- Lus, Nat.min_id; congruence).
  assert (Ls2 : length (svec (zip ws us)) = length gL) by (rewrite length_svec, length_zip_with; rewrite <- Lus, Nat.min_id; congruence).
  cbn [zip zip_with svec squares fmap list_fmap]. fold (squares us). fold (squares ws).
  rewrite !dot_app by (unfold scale; rewrite ?length_fmap; congruence). rewrite !dot_cons, !dot_scale.
  rewrite !dot_comb_r in HR by (rewrite ?length_comb; congruence).
  rewrite !dot_comb in HR by congruence.
  set (S1 := dot (squares us) xL) in *. set (S2 := dot (squares ws) xR) in *.
  set (v1 := dot (svec (zip us ws)) gL) in *. set (v2 := dot (svec (zip us ws)) gR) in *.
  set (v3 := dot (svec (zip ws us)) hL) in *. set (v4 := dot (svec (zip ws us)) hR) in *.
  assert (K : ∀ X, cong scL X (u * w * X)) by (intros X; rewrite Huw; apply cong_eq; ring).
  transitivity (fa * (w * v1 + u * v2) + fb * (u * v3 + w * v4) + fa * fb * q); [|apply cong_eq; ring].
  rewrite <- HR. 
  rewrite (K (dot aL gL + dot aR gR)), (K (dot bL hL + dot bR hR)), (K (dot aL bL + dot aR bR)).
  apply cong_eq. ring.
Qed.

#[local] Opaque scL zinv.

(** ** Batched inverses *)

Definition nonzero (x : Z) : Prop := ¬ cong scL x 0.

Lemma zinv_mul x y : zinv (x * y) = zinv x * zinv y.
Proof. exact (Z.pow_mul_l x y (scL - 2)). Qed.

Lemma zinv_1 : zinv 1 = 1.
Proof. apply (Z.pow_1_l (scL - 2)). pose proof scL_large. lia. Qed.

Lemma nonzero_mul x y : nonzero x → nonzero y → nonzero (x * y).
Proof. intros Hx Hy E. apply cong_scL_0 in E as [E|E]; [by apply Hx|by apply Hy]. Qed.

Lemma inverse_zinv x : nonzero x → inverse_pair (x, zinv x).
Proof. apply zinv_r. Qed.

Lemma is_vec_app v w x y : is_vec v x → is_vec w y → is_vec (v ++ w) (x ++ y).
Proof. apply Forall2_app. Qed.

Lemma foldl_mul_is vs xs p x : is_vec vs xs → sc_is p x → sc_is (foldl (so_mul W) p vs) (foldl Z.mul x xs).
Proof.
  intros H. revert p x. induction H as [|v y vs xs Hv _ IH]; intros p x Hp; [exact Hp|]. cbn [foldl]. apply IH. exact (is_W_mul _ _ _ _ Hp Hv).
Qed.

Lemma foldl_mul_nonzero xs x : nonzero x → Forall nonzero xs → nonzero (foldl Z.mul x xs).
Proof. intros Hx H. revert x Hx. induction H as [|y xs Hy _ IH]; intros x Hx; [done|]. apply IH. by apply nonzero_mul. Qed.

Lemma prefixes_last o p vs : ∃ ps, prefixes o p vs = ps ++ [foldl (so_mul o) p vs].
Proof.
  revert p. induction vs as [|v vs IH]; intros p; [by exists []|]. cbn [prefixes foldl].
  destruct (IH (so_mul o p v)) as [ps ->]. by exists (p :: ps).
Qed.

Lemma prefixes_snoc o p vs w : prefixes o p (vs ++ [w]) = prefixes o p vs ++ [so_mul o (foldl (so_mul o) p vs) w].
Proof. revert p. induction vs as [|v vs IH]; intros p; [done|]. cbn [app prefixes foldl]. by rewrite IH. Qed.

Lemma batch_back_is v x vs xs inv acc ys : sc_is v x → is_vec vs xs → nonzero x → Forall nonzero xs →
  sc_is inv (zinv (foldl Z.mul x xs)) → is_vec acc ys →
  is_vec (batch_back W (rev vs) (tail (rev (prefixes W v vs))) inv acc) (zinv x :: (zinv <$> xs) ++ ys).
Proof.
  intros Hv Hvs Nx. revert vs Hvs inv acc ys. induction xs as [|y xs IH] using rev_ind; intros vs Hvs inv acc ys Nxs Hinv Hacc.
  { inversion Hvs; subst. cbn [rev prefixes]. by constructor. }
  apply Forall2_app_inv_r in Hvs as (vs' & [|w [|]] & Hvs & Hw & ->); [inversion Hw| |inversion Hw as [|? ? ? ? ? Hn]; inversion Hn].
  apply Forall2_cons_1 in Hw as [Hw _]. apply Forall_app in Nxs as [Nxs Ny]. apply Forall_cons in Ny as [Ny _].
  rewrite rev_app_distr, prefixes_snoc, rev_app_distr. cbn [rev app tail].
  destruct (prefixes_last W v vs') as [ps Eps]. rewrite foldl_app in Hinv. cbn [foldl] in Hinv.
  pose proof (foldl_mul_is vs' xs v x Hvs Hv) as Hf. pose proof (foldl_mul_nonzero xs x Nx Nxs) as Nf. set (f := foldl Z.mul x xs) in *.
  rewrite zinv_mul in Hinv. pose proof (zinv_r f Nf) as If. pose proof (zinv_r y Ny) as Iy.
  assert (E : rev (prefixes W v vs') = foldl (so_mul W) v vs' :: tail (rev (prefixes W v vs'))) by (rewrite Eps, rev_app_distr; done).
  rewrite E. cbn [batch_back]. rewrite fmap_app, <- app_assoc. cbn [fmap list_fmap app]. apply IH; [done|done| |].
  - eapply sc_is_cong; [exact (is_W_mul _ _ _ _ Hinv Hw)|]. rewrite <- Z.mul_assoc, (Z.mul_comm (zinv y)), Iy. by rewrite Z.mul_1_r.
  - constructor; [|done]. eapply sc_is_cong; [exact (is_W_mul _ _ _ _ Hinv Hf)|].
    rewrite <- Z.mul_assoc, (Z.mul_comm (zinv y)), Z.mul_assoc, (Z.mul_comm _ f), If. by rewrite Z.mul_1_l.
Qed.

Lemma batch_sc_inv_is vals xs : is_vec vals xs → Forall nonzero xs → is_vec (batch_sc_inv vals W) (zinv <$> xs).
Proof.
  intros H N. destruct H as [|v x vs xs Hv Hvs]; [constructor|]. apply Forall_cons in N as [Nx Nxs].
  unfold batch_sc_inv. destruct (prefixes_last W v vs) as [ps Eps].
  assert (E : rev (prefixes W v vs) = foldl (so_mul W) v vs :: tail (rev (prefixes W v vs))) by (rewrite Eps, rev_app_distr; done).
  rewrite E. cbn [fmap list_fmap]. rewrite <- (app_nil_r (zinv <$> xs)). apply (batch_back_is v x); [done..| |constructor].
  apply is_W_inv. exact (foldl_mul_is _ _ _ _ Hvs Hv).
Qed.

Lemma length_prefixes o p vs : length (prefixes o p vs) = S (length vs).
Proof. revert p. induction vs as [|v vs IH]; intros p; [done|]. cbn [prefixes length]. by rewrite IH. Qed.

Lemma length_batch_back o rvals rprefix inv acc : length rvals = length rprefix →
  length (batch_back o rvals rprefix inv acc) = (S (length rvals) + length acc)%nat.
Proof.
  revert rprefix inv acc. induction rvals as [|v rv IH]; intros [|p rp] inv acc Hl; try discriminate; [done|].
  cbn [batch_back]. rewrite IH by (by injection Hl). cbn [length]. lia.
Qed.

Lemma length_batch_sc_inv o vals : length (batch_sc_inv vals o) = length vals.
Proof.
  destruct vals as [|v vs]; [done|]. unfold batch_sc_inv. pose proof (length_prefixes o v vs) as Hl. rewrite <- length_rev in Hl.
  destruct (rev (prefixes o v vs)) as [|l rp]; [discriminate|]. injection Hl as Hl. rewrite length_batch_back by (rewrite length_rev; lia).
  rewrite length_rev. cbn [length]. lia.
Qed.

(** ** The coefficients of the generators *)

Lemma bit_width_log f x w : 0 < x → Z.log2 x < Z.of_nat f → bit_width f x w = (w + Z.to_nat (Z.log2 x))%nat.
Proof.
  revert x w. induction f as [|f IH]; intros x w Hx Hf; [pose proof (Z.log2_nonneg x); lia|]. cbn [bit_width].
  rewrite shr_div by lia. change (2 ^ 1) with 2. destruct (Z.eqb_spec (x / 2) 0) as [E|N].
  - assert (x = 1) as -> by lia. cbn. lia.
  - assert (Hl : Z.log2 x = Z.log2 (x / 2) + 1).
    { pose proof (Z.log2_shiftr x 1 Hx) as Hs. rewrite shr_div in Hs by lia. change (2 ^ 1) with 2 in Hs.
      pose proof (Z.log2_le_mono 2 x ltac:(lia)) as Hm. change (Z.log2 2) with 1 in Hm. lia. }
    pose proof (Z.log2_nonneg (x / 2)). rewrite IH by lia. lia.
Qed.

(** [i ^ (1 << k)] clears the top bit. *)
Lemma clear_top k r : 0 ≤ k < 64 → 0 ≤ r < 2 ^ k → (2 ^ k + r) .^ wshl 64 1 k = r.
Proof.
  intros Hk Hr. assert (E : wshl 64 1 k = 2 ^ k).
  { unfold wshl. rewrite shl_mul, Z.mul_1_l by lia. apply wrap_small. split; [lia|]. apply Z.pow_lt_mono_r; lia. }
  rewrite E. assert (H0 : Z.land (2 ^ k) r = 0).
  { apply Z.bits_inj'. intros i Hi. rewrite Z.land_spec, Z.bits_0, Z.pow2_bits_eqb by lia.
    destruct (Z.eqb_spec k i) as [<-|]; [|done]. rewrite (testbit_small r k k) by lia. done. }
  rewrite (Z.add_nocarry_lxor _ _ H0), Z.lxor_comm, <- Z.lxor_assoc, Z.lxor_nilpotent. apply Z.lxor_0_l.
Qed.

Lemma scale_scale a b x : scale a (scale b x) = scale (a * b) x.
Proof. unfold scale. rewrite <- list_fmap_compose. apply list_fmap_ext. intros i y _. cbn. lia. Qed.

Lemma scale_app a x y : scale a (x ++ y) = scale a x ++ scale a y.
Proof. apply fmap_app. Qed.

#[export] Instance scale_proper : Proper (cong scL ==> cong_vec ==> cong_vec) scale.
Proof. intros a b E x y H. induction H as [|c d x y Hc _ IH]; [constructor|]. constructor; [|done]. by rewrite E, Hc. Qed.

#[export] Instance cong_vec_equiv : Equivalence cong_vec.
Proof. unfold cong_vec. split; apply _. Qed.

#[export] Instance is_vec_proper v : Proper (cong_vec ==> iff) (is_vec v).
Proof. intros x y E. split; intros H; [by apply (is_vec_cong v x)|]. apply (is_vec_cong v y); [done|by symmetry]. Qed.

#[export] Instance app_cong : Proper (cong_vec ==> cong_vec ==> cong_vec) (@app Z).
Proof. intros x x' Hx y y' Hy. by apply Forall2_app. Qed.

Lemma is_vec_scale a u v x : sc_is a u → is_vec v x → is_vec ((λ y, so_mul W a y) <$> v) (scale u x).
Proof. intros Ha. apply is_vec_map. intros b y. exact (is_W_mul a b u y Ha). Qed.

(** The entries from [2^j] on: those before, times the square of a challenge. *)
Lemma next_block challenges s x c u j m : is_vec s x → length x = Nat.pow 2 j → (m ≤ Nat.pow 2 j)%nat → (j < 64)%nat →
  nth (length challenges - 1 - j) challenges sc_zero = c → sc_is c u →
  is_vec (foldl (next_s W challenges) s (zseq (2 ^ Z.of_nat j) m)) (x ++ take m (scale (u * u) x)).
Proof.
  intros Hs Hl Hm Hj Ec Hc. induction m as [|m IH]; [by rewrite app_nil_r|].
  assert (HP : Z.of_nat (Nat.pow 2 j) = 2 ^ Z.of_nat j) by (by rewrite Nat2Z.inj_pow). assert (HJ : 0 < 2 ^ Z.of_nat j) by lia.
  rewrite zseq_snoc, foldl_app. cbn [foldl]. specialize (IH ltac:(lia)).
  destruct (lookup_lt_is_Some_2 x m ltac:(lia)) as [xm Hxm].
  assert (Et : take (S m) (scale (u * u) x) = take m (scale (u * u) x) ++ [(u * u) * xm]).
  { apply take_S_r. unfold scale. by rewrite list_lookup_fmap, Hxm. }
  rewrite Et, app_assoc. unfold next_s at 1. cbv zeta.
  assert (El : Z.log2 (2 ^ Z.of_nat j + Z.of_nat m) = Z.of_nat j) by (apply Z.log2_unique; [lia|rewrite Z.pow_succ_r by lia; lia]).
  rewrite bit_width_log by lia. rewrite El, Nat2Z.id, Nat.add_0_l, Ec, clear_top, Nat2Z.id by lia.
  apply is_vec_app; [exact IH|]. constructor; [|constructor]. rewrite Z.mul_comm. apply is_W_mul; [|by apply is_W_mul].
  pose proof (is_vec_nth _ _ m IH) as Hn. rewrite app_nth1 in Hn by lia. by rewrite (nth_lookup_Some _ _ _ _ Hxm) in Hn.
Qed.

Definition invs (us : list Z) : list Z := zinv <$> us.

Lemma length_invs us : length (invs us) = length us.
Proof. apply length_fmap. Qed.

Lemma next_all pre suf zpre zsuf s0 : is_vec pre zpre → is_vec suf zsuf → Forall nonzero zsuf → (length suf ≤ 63)%nat →
  sc_is s0 (foldl Z.mul 1 (invs (zpre ++ zsuf))) →
  is_vec (foldl (next_s W (pre ++ suf)) [s0] (zseq 1 (Nat.pow 2 (length suf) - 1)))
         (scale (foldl Z.mul 1 (invs zpre)) (svec (zip zsuf (invs zsuf)))).
Proof.
  intros Hpre Hsuf. revert pre zpre Hpre. induction Hsuf as [|c u suf zsuf Hc Hsuf IH]; intros pre zpre Hpre N Hl H0.
  { rewrite app_nil_r in H0. cbn [length Nat.pow Nat.sub zseq foldl zip zip_with invs fmap list_fmap svec scale]. constructor; [|constructor].
    by rewrite Z.mul_1_r. }
  apply Forall_cons in N as [Nu N]. cbn [length] in *.
  specialize (IH (pre ++ [c]) (zpre ++ [u])). rewrite <- !app_assoc in IH. cbn [app] in IH.
  assert (Hp1 : is_vec (pre ++ [c]) (zpre ++ [u])) by (apply is_vec_app; [done|by constructor]).
  specialize (IH Hp1 N ltac:(lia) H0). set (ch := pre ++ c :: suf) in *.
  replace (Nat.pow 2 (S (length suf)) - 1)%nat with ((Nat.pow 2 (length suf) - 1) + Nat.pow 2 (length suf))%nat by (cbn [Nat.pow]; pose proof (Nat.pow_nonzero 2 (length suf)); lia).
  rewrite zseq_app, foldl_app.
  replace (1 + Z.of_nat (Nat.pow 2 (length suf) - 1)) with (2 ^ Z.of_nat (length suf))
    by (pose proof (Nat.pow_nonzero 2 (length suf)); pose proof (Nat2Z.inj_pow 2 (length suf)) as HP; change (Z.of_nat 2) with 2 in HP; lia).
  assert (Hls : length (svec (zip zsuf (invs zsuf))) = Nat.pow 2 (length suf)).
  { rewrite length_svec, length_zip_with, length_invs, Nat.min_id. by rewrite (is_vec_length _ _ Hsuf). }
  unfold invs at 1 in IH. rewrite fmap_app, foldl_app in IH. cbn [fmap list_fmap foldl] in IH. fold (invs zpre) in IH.
  eapply is_vec_cong; [eapply (next_block ch _ _ c u (length suf) (Nat.pow 2 (length suf)) IH)|]; [|lia|lia| |done|].
  - unfold scale. by rewrite length_fmap.
  - unfold ch. rewrite length_app. cbn [length]. replace (length pre + S (length suf) - 1 - length suf)%nat with (length pre) by lia.
    rewrite app_nth2, Nat.sub_diag by lia. done.
  - rewrite take_ge by (unfold scale; rewrite !length_fmap; lia). cbn [invs fmap list_fmap zip zip_with svec]. fold (invs zsuf).
    rewrite scale_app, !scale_scale. apply app_cong; [reflexivity|]. apply scale_proper; [|reflexivity].
    transitivity (foldl Z.mul 1 (invs zpre) * u * (u * zinv u)); [apply cong_eq; ring|]. rewrite (zinv_r u Nu). by rewrite Z.mul_1_r.
Qed.

Lemma verification_scalars_is challenges us : is_vec challenges us → Forall nonzero us → (length us ≤ 63)%nat →
  is_vec (ipp_verification_scalars challenges W) (svec (zip us (invs us))).
Proof.
  intros H N Hl. pose proof (is_vec_length _ _ H) as El. unfold ipp_verification_scalars. cbv zeta.
  assert (E : Z.to_nat (wshl 64 1 (Z.of_nat (length challenges))) = Nat.pow 2 (length challenges)).
  { unfold wshl. rewrite shl_mul, Z.mul_1_l, wrap_small by (try (split; [|apply Z.pow_lt_mono_r]); lia).
    pose proof (Nat2Z.inj_pow 2 (length challenges)) as HP. change (Z.of_nat 2) with 2 in HP. lia. }
  rewrite E. rewrite (is_vec_proper _ _ (scale 1 (svec (zip us (invs us))))).
  - apply (next_all [] challenges [] us); [constructor|done|done|lia|]. apply foldl_mul_is; [|exact is_one_scalar].
    apply is_vec_map; [|done]. exact is_W_inv.
  - unfold scale. rewrite <- (list_fmap_id (svec _)) at 1. apply Forall2_fmap, Forall_Forall2_diag, Forall_forall. intros x _. unfold id. by rewrite Z.mul_1_l.
Qed.

(** The inverses of the coefficients are those of the inverse challenges. *)
Lemma svec_inverse us ws : Forall inverse_pair (zip us ws) →
  Forall2 (λ a b, cong scL (a * b) 1) (svec (zip us ws)) (svec (zip ws us)).
Proof.
  revert ws. induction us as [|u us IH]; intros [|w ws] H; try (by repeat constructor).
  cbn [zip zip_with] in H. apply Forall_cons in H as [Hu H]. specialize (IH ws H). unfold inverse_pair in Hu. cbn [fst snd] in Hu.
  cbn [zip zip_with svec]. unfold scale. apply Forall2_app; apply Forall2_fmap; (eapply Forall2_impl; [exact IH|]); intros a b E; cbn beta.
  - transitivity ((u * w) * (a * b)); [apply cong_eq; ring|]. by rewrite Hu, E.
  - transitivity ((u * w) * (a * b)); [apply cong_eq; ring|]. by rewrite Hu, E.
Qed.

Lemma nonzero_factor a b : cong scL (a * b) 1 → nonzero a ∧ cong scL (zinv a) b.
Proof.
  intros E. assert (N : nonzero a).
  { intros E0. rewrite E0, Z.mul_0_l in E. pose proof scL_pos. apply cong_small in E; lia. }
  split; [done|]. transitivity (a * zinv a * b); [|by rewrite (zinv_r a N), Z.mul_1_l].
  transitivity (zinv a * (a * b)); [by rewrite E, Z.mul_1_r|]. apply cong_eq. ring.
Qed.

Lemma inverse_pairs us : Forall nonzero us → Forall inverse_pair (zip us (invs us)).
Proof. intros H. induction H as [|u us Hu _ IH]; [constructor|]. constructor; [by apply inverse_zinv|exact IH]. Qed.

Lemma batch_svec s us : is_vec s (svec (zip us (invs us))) → Forall nonzero us → is_vec (batch_sc_inv s W) (svec (zip (invs us) us)).
Proof.
  intros Hs N. pose proof (svec_inverse _ _ (inverse_pairs us N)) as H. eapply is_vec_cong; [apply batch_sc_inv_is; [exact Hs|]|].
  - eapply Forall2_Forall_l; [exact H|]. apply Forall_forall. intros b _ a E. by apply (nonzero_factor a b).
  - clear Hs. induction H as [|a b x y E _ IH]; [constructor|]. constructor; [by apply nonzero_factor|done].
Qed.
