(* ===== verification/InnerProductCorrect.v ===== *)
(** * The inner-product argument is complete

    What the prover of [InnerProduct.v] makes, in logarithms; the sum that the
    verifiers compute; and the theorem that they agree. *)

From S2P Require Import Prelude Primes Field Hash Rng Fe25519 Scalar25519 ScalarField Ristretto RistrettoGroup Order Msm Transcript Generators InnerProduct.

#[local] Opaque scL zinv hash_to_ristretto_point.

(** ** The honest prover *)

(** A proof of the transcript [t], ending in [t'], whose values have the
    equation of the rounds. *)
Definition ipp_honest (q : Z) (av bv g h : list Z) (lg : nat) (t : Transcript) (proof : InnerProductProof) (t' : Transcript) : Prop :=
  ∃ us uz xL xR fa fb, ipp_challenges t (ipp_L proof) (ipp_R proof) = (us, t') ∧ is_vec us uz ∧ length uz = lg ∧
    Forall2 dlog (ipp_L proof) xL ∧ Forall2 dlog (ipp_R proof) xR ∧ length xL = lg ∧ length xR = lg ∧
    sc_is (ipp_a proof) fa ∧ sc_is (ipp_b proof) fb ∧ round_eq q av bv g h uz (invs uz) xL xR fa fb.

Lemma challenge_ops_eq t l u t' : challenge_scalar t l = (u, t') → ops t' = ops t.
Proof. intros E. by rewrite <- (challenge_ops t l), E. Qed.

Lemma challenge_canon_eq t l u t' : challenge_scalar t l = (u, t') → ops t = W → sc_canon u.
Proof. intros E Ht. pose proof (challenge_canon t l Ht) as C. by rewrite E in C. Qed.

Lemma ipp_loop_S lg t Q a b G_vec H_vec half L R u t' Gn Hn proof t'' : half = (length a / 2)%nat →
  prover_msm (take half a ++ drop half b ++ [mul_sum (ops t) (take half a) (drop half b)]) (drop half G_vec ++ take half H_vec ++ [Q]) = Ok L →
  prover_msm (drop half a ++ take half b ++ [mul_sum (ops t) (drop half a) (take half b)]) (take half G_vec ++ drop half H_vec ++ [Q]) = Ok R →
  challenge_scalar (append_point (append_point t "L" L) "R" R) "u" = (u, t') →
  mapR (λ '(p, q), prover_msm [so_inv (ops t) u; u] [p; q]) (zip (take half G_vec) (drop half G_vec)) = Ok Gn →
  mapR (λ '(p, q), prover_msm [u; so_inv (ops t) u] [p; q]) (zip (take half H_vec) (drop half H_vec)) = Ok Hn →
  ipp_loop lg t' Q (zip_with (λ x y, sc_add (so_mul (ops t) x u) (so_mul (ops t) y (so_inv (ops t) u))) (take half a) (drop half a))
    (zip_with (λ x y, sc_add (so_mul (ops t) x (so_inv (ops t) u)) (so_mul (ops t) y u)) (take half b) (drop half b)) Gn Hn = Ok (proof, t'') →
  ipp_loop (S lg) t Q a b G_vec H_vec = Ok (mkIpp (L :: ipp_L proof) (R :: ipp_R proof) (ipp_a proof) (ipp_b proof), t'').
Proof.
  intros -> EL ER EU EG EH EI. pose proof (challenge_ops_eq _ _ _ _ EU) as Eo. change (ops t' = ops t) in Eo.
  cbn [ipp_loop]. cbv zeta. rewrite EL, Ok_bind, ER, Ok_bind, EU, Eo, EG, Ok_bind, EH, Ok_bind, EI, Ok_bind. reflexivity.
Qed.

Lemma comb_is s0 s1 u0 u1 a b x y : sc_is s0 u0 → sc_is s1 u1 → is_vec a x → is_vec b y →
  is_vec (zip_with (λ x y, sc_add (so_mul W x s0) (so_mul W y s1)) a b) (comb u0 u1 x y).
Proof.
  intros H0 H1. apply is_vec_zip. intros c d e f Hc Hd. exact (is_sc_add _ _ _ _ (is_W_mul _ _ _ _ Hc H0) (is_W_mul _ _ _ _ Hd H1)).
Qed.

Lemma app3 {A B} (R : A → B → Prop) a b c x y z : Forall2 R a x → Forall2 R b y → R c z → Forall2 R (a ++ b ++ [c]) (x ++ y ++ [z]).
Proof.
  intros Ha Hb Hc. apply Forall2_app; [exact Ha|]. apply Forall2_app; [exact Hb|]. apply List.Forall2_cons; [exact Hc|]. apply List.Forall2_nil.
Qed.

Lemma dot_app3 a b c x y z : length a = length x → length b = length y → dot (a ++ b ++ [c]) (x ++ y ++ [z]) = dot a x + dot b y + c * z.
Proof. intros H1 H2. rewrite !dot_app, dot_one by done. lia. Qed.

(** One of the two points of a round. *)
Lemma round_point a b G H Q av bv g h q c n : is_vec a av → is_vec b bv → Forall2 dlog G g → Forall2 dlog H h → dlog Q q →
  length av = n → length bv = n → length g = n → length h = n → sc_is c (dot av bv) →
  ∃ L, prover_msm (a ++ b ++ [c]) (G ++ H ++ [Q]) = Ok L ∧ dlog L (dot av g + dot bv h + dot av bv * q).
Proof.
  intros Ha Hb HG HH HQ Na Nb Ng Nh Hc.
  destruct (prover_msm_is (a ++ b ++ [c]) (G ++ H ++ [Q]) (av ++ bv ++ [dot av bv]) (g ++ h ++ [q])) as (L & EL & HL).
  - by apply app3.
  - by apply app3.
  - rewrite !length_app, (is_vec_length _ _ Ha), (is_vec_length _ _ Hb), (Forall2_length _ _ _ HG), (Forall2_length _ _ _ HH). cbn [length]. lia.
  - exists L. split; [exact EL|]. rewrite <- dot_app3 by lia. exact HL.
Qed.

Lemma ipp_loop_log lg t Q q a b G_vec H_vec av bv g h : ops t = W → dlog Q q → is_vec a av → is_vec b bv →
  Forall2 dlog G_vec g → Forall2 dlog H_vec h →
  length av = Nat.pow 2 lg → length bv = Nat.pow 2 lg → length g = Nat.pow 2 lg → length h = Nat.pow 2 lg →
  ∃ proof t', ipp_loop lg t Q a b G_vec H_vec = Ok (proof, t') ∧ ipp_honest q av bv g h lg t proof t'.
Proof.
  intros Ht HQ. revert t Ht a b G_vec H_vec av bv g h. induction lg as [|lg IH]; intros t Ht a b G_vec H_vec av bv g h Ha Hb HG HH La Lb Lg Lh.
  - destruct Ha as [|a0 x0 ? ? Ha [|]]; try discriminate. destruct Hb as [|b0 y0 ? ? Hb [|]]; try discriminate.
    destruct g as [|g0 [|]]; try discriminate. destruct h as [|h0 [|]]; try discriminate.
    exists (mkIpp [] [] a0 b0), t. split; [reflexivity|]. exists [], [], [], [], x0, y0.
    split; [reflexivity|]. do 6 (split; [first [reflexivity|apply List.Forall2_nil]|]). split; [exact Ha|]. split; [exact Hb|].
    intros _. unfold squares, invs. cbn [fmap list_fmap zip zip_with svec]. rewrite !dot_one. apply cong_eq. unfold dot, zsums. cbn. ring.
  - rewrite Nat.pow_succ_r' in La, Lb, Lg, Lh. set (n := Nat.pow 2 lg) in *. replace (2 * n)%nat with (n + n)%nat in * by lia.
    destruct (halves _ _ _ n Ha La) as (HaL & HaR & NaL & NaR & Na & _). destruct (halves _ _ _ n Hb Lb) as (HbL & HbR & NbL & NbR & _).
    destruct (halves _ _ _ n HG Lg) as (HGL & HGR & NgL & NgR & _). destruct (halves _ _ _ n HH Lh) as (HHL & HHR & NhL & NhR & _).
    assert (En : n = (length a / 2)%nat).
    { rewrite (is_vec_length _ _ Ha), La. replace (n + n)%nat with (n * 2)%nat by lia. by rewrite Nat.div_mul. }
    destruct (round_point _ _ _ _ _ _ _ _ _ _ _ n HaL HbR HGR HHL HQ NaL NbR NgR NhL (mul_sum_is _ _ _ _ HaL HbR)) as (L & EL & DL).
    destruct (round_point _ _ _ _ _ _ _ _ _ _ _ n HaR HbL HGL HHR HQ NaR NbL NgL NhR (mul_sum_is _ _ _ _ HaR HbL)) as (R & ER & DR).
    destruct (challenge_scalar (append_point (append_point t "L" L) "R" R) "u") as [u t1] eqn:EU.
    pose proof (challenge_canon_eq _ _ _ _ EU Ht) as Cu.
    pose proof (challenge_ops_eq _ _ _ _ EU) as Ht1. change (ops t1 = ops t) in Ht1. rewrite Ht in Ht1.
    pose proof (sc_is_val u Cu) as Hu. set (uz := sc_val u) in *. pose proof (is_W_inv _ _ Hu) as Hw.
    destruct (mapR_pairs _ _ _ _ _ _ _ _ Hw Hu HGL HGR ltac:(congruence)) as (Gn & EG & HGn).
    destruct (mapR_pairs _ _ _ _ _ _ _ _ Hu Hw HHL HHR ltac:(congruence)) as (Hn & EH & HHn).
    destruct (IH t1 Ht1 _ _ _ _ _ _ _ _ (comb_is _ _ _ _ _ _ _ _ Hu Hw HaL HaR) (comb_is _ _ _ _ _ _ _ _ Hw Hu HbL HbR) HGn HHn)
      as (proof & t2 & EI & us & us' & xL & xR & fa & fb & EC & Hus & Nus & HxL & HxR & NxL & NxR & Hfa & Hfb & Heq);
      [rewrite length_comb; congruence..|].
    rewrite <- Ht in EL, ER, EG, EH, EI.
    pose proof (ipp_loop_S lg t Q a b G_vec H_vec n L R u t1 Gn Hn proof t2 En EL ER EU EG EH EI) as ES.
    eexists _, t2. split; [exact ES|]. eexists (u :: us), (uz :: us'), (_ :: xL), (_ :: xR), fa, fb. cbn [ipp_L ipp_R ipp_a ipp_b].
    split; [cbn [ipp_challenges]; by rewrite EU, EC|]. split; [by constructor|]. split; [cbn [length]; by rewrite Nus|].
    split; [apply List.Forall2_cons; [exact DL|exact HxL]|]. split; [apply List.Forall2_cons; [exact DR|exact HxR]|].
    split; [cbn [length]; by rewrite NxL|]. split; [cbn [length]; by rewrite NxR|]. split; [exact Hfa|]. split; [exact Hfb|].
    pose proof (round_step q uz (zinv uz) _ _ _ _ _ _ _ _ us' (invs us') xL xR fa fb n NaL NaR NbL NbR NgL NgR NhL NhR
      ltac:(by rewrite length_invs) ltac:(by rewrite Nus) Heq) as HS. by rewrite !take_drop in HS.
Qed.

(** ** The verifier's sum *)

Definition zround (us ws : list Z) : list Z := concat (zip_with (λ x y, [- x; - y]) us ws).
Definition zpoints (xL xR : list Z) : list Z := concat (zip_with (λ x y, [x; y]) xL xR).

Lemma round_scalars_is u w x y : is_vec u x → is_vec w y → is_vec (round_scalars u w) (zround x y).
Proof.
  intros H. revert w y. induction H as [|a b u x Ha _ IH]; intros w y Hw; [constructor|]. destruct Hw as [|c d w y Hc Hw]; [constructor|].
  unfold round_scalars, zround. cbn [zip_with concat app]. constructor; [by apply is_sc_neg|]. constructor; [by apply is_sc_neg|]. by apply IH.
Qed.

Lemma round_points_log L R xL xR : Forall2 dlog L xL → Forall2 dlog R xR → Forall2 dlog (round_points L R) (zpoints xL xR).
Proof.
  intros H. revert R xR. induction H as [|l x L xL Hl _ IH]; intros R xR HR; [constructor|]. destruct HR as [|r y R xR Hr HR]; [constructor|].
  unfold round_points, zpoints. cbn [zip_with concat app]. apply List.Forall2_cons; [exact Hl|]. apply List.Forall2_cons; [exact Hr|]. exact (IH _ _ HR).
Qed.

Lemma dot_round us ws xL xR : length us = length ws → length us = length xL → length us = length xR →
  dot (zround us ws) (zpoints xL xR) = - dot us xL - dot ws xR.
Proof.
  revert ws xL xR. induction us as [|u us IH]; intros [|w ws] [|x xL] [|y xR] H1 H2 H3; try discriminate; [done|].
  unfold zround, zpoints. cbn [zip_with concat app]. rewrite !dot_cons. fold (zround us ws). fold (zpoints xL xR).
  rewrite IH by (cbn [length] in *; lia). lia.
Qed.

Lemma length_zround us ws : length us = length ws → length (zround us ws) = (2 * length us)%nat.
Proof.
  revert ws. induction us as [|u us IH]; intros [|w ws] H; try discriminate; [done|]. unfold zround. cbn [zip_with concat app length].
  fold (zround us ws). rewrite IH by (by injection H). lia.
Qed.

Lemma length_round_points L R : length L = length R → length (round_points L R) = (2 * length L)%nat.
Proof.
  revert R. induction L as [|l L IH]; intros [|r R] H; try discriminate; [done|]. unfold round_points. cbn [zip_with concat app length].
  fold (round_points L R). rewrite IH by (by injection H). lia.
Qed.

Lemma squares_is u x : is_vec u x → is_vec ((λ c, so_mul W c c) <$> u) (squares x).
Proof. apply is_vec_map. intros a b H. exact (is_W_mul _ _ _ _ H H). Qed.

Lemma squares_inv us : Forall nonzero us → Forall nonzero (squares us) ∧ cong_vec (invs (squares us)) (squares (invs us)).
Proof.
  intros H. split; induction H as [|u us Hu _ IH]; try (by constructor).
  - constructor; [by apply nonzero_mul|exact IH].
  - constructor; [by rewrite zinv_mul|exact IH].
Qed.

(** The sum that both verifiers compute, against generators with logarithms [g]
    and [h] and coefficients [hz] for the second. *)
Lemma ipp_sum us uz s Hs hz ab fa z Gs Hp Q q g h L R xL xR :
  is_vec us uz → Forall nonzero uz → is_vec s (svec (zip uz (invs uz))) → is_vec Hs hz → sc_is fa z → sc_is ab q →
  Forall2 dlog Gs g → Forall2 dlog Hp h → (∃ x, dlog Q x) →
  Forall2 dlog L xL → Forall2 dlog R xR → length xL = length uz → length xR = length uz →
  length g = Nat.pow 2 (length uz) → length hz = length h →
  ∃ c, multi_scalar_mul (((λ x, so_mul W fa x) <$> s) ++ Hs ++ [ab] ++
         round_scalars ((λ c, so_mul W c c) <$> us) (batch_sc_inv ((λ c, so_mul W c c) <$> us) W))
       (Gs ++ Hp ++ [Q] ++ round_points L R) = Ok c ∧
    ∀ x, dlog Q x → dlog c (z * dot (svec (zip uz (invs uz))) g + dot hz h + q * x - dot (squares uz) xL - dot (squares (invs uz)) xR).
Proof.
  intros Hus N Hss HHs Hfa Hab HG HH [x0 HQ] HL HR NL NR Ng Nh. destruct (squares_inv uz N) as [Nsq Esq].
  assert (Nsv : length (svec (zip uz (invs uz))) = Nat.pow 2 (length uz)) by (by rewrite length_svec, length_zip_with, length_invs, Nat.min_id).
  assert (Hsq : is_vec (round_scalars ((λ c, so_mul W c c) <$> us) (batch_sc_inv ((λ c, so_mul W c c) <$> us) W)) (zround (squares uz) (squares (invs uz)))).
  { apply round_scalars_is; [by apply squares_is|]. rewrite <- Esq. apply batch_sc_inv_is; [by apply squares_is|exact Nsq]. }
  assert (Lsq : length (squares uz) = length uz ∧ length (squares (invs uz)) = length uz) by (unfold squares, invs; by rewrite !length_fmap).
  destruct (multi_scalar_mul_is
     (((λ x, so_mul W fa x) <$> s) ++ Hs ++ [ab] ++ round_scalars ((λ c, so_mul W c c) <$> us) (batch_sc_inv ((λ c, so_mul W c c) <$> us) W))
     (Gs ++ Hp ++ [Q] ++ round_points L R)
     (scale z (svec (zip uz (invs uz))) ++ hz ++ [q] ++ zround (squares uz) (squares (invs uz))) (g ++ h ++ [x0] ++ zpoints xL xR)) as (c & Ec & Hc).
  - apply is_vec_app; [by apply is_vec_scale|]. apply is_vec_app; [done|]. apply is_vec_app; [by constructor|done].
  - apply Forall2_app; [exact HG|]. apply Forall2_app; [exact HH|]. apply Forall2_app; [apply List.Forall2_cons; [exact HQ|apply List.Forall2_nil]|].
    by apply round_points_log.
  - rewrite !length_app, length_fmap, (is_vec_length _ _ Hss), (is_vec_length _ _ HHs), (is_vec_length _ _ Hsq), length_zround, length_round_points,
      (Forall2_length _ _ _ HG), (Forall2_length _ _ _ HH), (Forall2_length _ _ _ HL), Nsv by (rewrite ?(Forall2_length _ _ _ HL), ?(Forall2_length _ _ _ HR); lia).
    cbn [length]. lia.
  - exists c. split; [exact Ec|]. intros x Hx. eapply dlog_proper; [|exact Hc].
    pose proof (proj1 (dlog_eq _ _ _ _ Hx HQ) eq_refl) as Exq.
    assert (Ls : length (scale z (svec (zip uz (invs uz)))) = length g) by (unfold scale; rewrite length_fmap; lia).
    rewrite (dot_app _ _ _ _ Ls), (dot_app _ _ _ _ Nh), (dot_app [q] _ [x0] _ eq_refl), dot_scale, dot_one, dot_round by lia.
    rewrite Exq. apply cong_eq. ring.
Qed.

(** ** The generators' logarithms *)

Lemma gens_log (f : Z → list Z) l : (∀ i, ∃ x, dlog (f i) x) → ∃ xs, Forall2 dlog (f <$> l) xs.
Proof.
  intros Hf. induction l as [|i l [xs IH]]; [exists []; apply List.Forall2_nil|]. destruct (Hf i) as [x Hx]. exists (x :: xs).
  apply List.Forall2_cons; [exact Hx|exact IH].
Qed.

Lemma gen_G_log l : ∃ xs, Forall2 dlog (gen_G <$> l) xs.
Proof. apply gens_log. intros i. apply hash_to_ristretto_point_log. Qed.

Lemma gen_H_log l : ∃ xs, Forall2 dlog (gen_H <$> l) xs.
Proof. apply gens_log. intros i. apply hash_to_ristretto_point_log. Qed.

Lemma mapR_pure {A B} (f : A → res B) (g : A → B) l : (∀ x, x ∈ l → f x = Ok (g x)) → mapR f l = Ok (g <$> l).
Proof.
  induction l as [|x l IH]; intros Hf; [reflexivity|]. cbn [mapR fmap list_fmap]. rewrite (Hf x) by constructor.
  rewrite Ok_bind, IH, Ok_bind by (intros y Hy; apply Hf; by constructor). reflexivity.
Qed.

Lemma generators_mapR n : Z.of_nat n ≤ BP_MAX_VECTOR_SIZE →
  mapR generators.G (zseq 0 n) = Ok (gen_G <$> zseq 0 n) ∧ mapR generators.H (zseq 0 n) = Ok (gen_H <$> zseq 0 n).
Proof.
  intros Hn. split; apply mapR_pure; intros i Hi; apply elem_of_zseq in Hi; [apply generators_G_eq|apply generators_H_eq]; lia.
Qed.

Lemma pow_le_20 k : (k ≤ 20)%nat → Z.of_nat (Nat.pow 2 k) = 2 ^ Z.of_nat k ∧ Z.of_nat (Nat.pow 2 k) ≤ BP_MAX_VECTOR_SIZE ∧
  wshl 64 1 (Z.of_nat k) = 2 ^ Z.of_nat k.
Proof.
  intros Hk. assert (E : Z.of_nat (Nat.pow 2 k) = 2 ^ Z.of_nat k) by (by rewrite Nat2Z.inj_pow).
  split; [exact E|]. split; [rewrite E; apply Z.pow_le_mono_r; lia|].
  unfold wshl. rewrite shl_mul, Z.mul_1_l by lia. apply wrap_small. split; [lia|]. apply Z.pow_lt_mono_r; lia.
Qed.

Lemma ipp_prove_loop t Q a b Gs Hs k : (k ≤ 20)%nat → length a = Nat.pow 2 k → length b = Nat.pow 2 k →
  length Gs = Nat.pow 2 k → length Hs = Nat.pow 2 k → ipp_prove t Q a b Gs Hs = ipp_loop k t Q a b Gs Hs.
Proof.
  intros Hk La Lb Lg Lh. destruct (pow_le_20 k Hk) as (E & _ & _). unfold ipp_prove. cbv zeta.
  rewrite La, Lb, Lg, Lh, !Nat.eqb_refl, E. assert (H0 : 0 < 2 ^ Z.of_nat k) by lia.
  rewrite (proj2 (Nat.ltb_lt _ _)) by lia. rewrite (land_low _ (Z.of_nat k)), Z.mod_same by lia. cbn [andb negb Z.eqb].
  rewrite log2_size_pow, Ok_bind, Nat2Z.id by lia. reflexivity.
Qed.

Lemma round_sides (X A F D1 D2 : Z) : cong scL (X + D1 + D2) F → cong scL X A → cong scL (F - D1 - D2) A.
Proof. intros E <-. rewrite <- E. apply cong_eq. ring. Qed.

(** ** Property *)

(** C11. Completeness of the inner-product argument under [ScalarRule::Wide]: for a
    transcript of that rule, a point [Q] that decodes, and canonical scalars of any
    length a power of two up to [2^20], the prover does not fail, and the verifier
    accepts what it made for the sum of the multiples, with the transcript in the
    same state, unless a challenge is zero. (Nothing is claimed for [Prior].) *)
Theorem ipp_complete t Q PQ a b k : ops t = scalar_ops Wide → length Q = 32%nat → bytes Q → rist_decode Q = Some PQ →
  Forall sc_canon a → Forall sc_canon b → length a = Nat.pow 2 k → length b = Nat.pow 2 k → (k ≤ 20)%nat →
  ∃ Gs Hs P proof t', generators.G_vec (Z.of_nat (Nat.pow 2 k)) = Ok Gs ∧ generators.H_vec (Z.of_nat (Nat.pow 2 k)) = Ok Hs ∧
    multi_scalar_mul (a ++ b ++ [mul_sum (ops t) a b]) (Gs ++ Hs ++ [Q]) = Ok P ∧
    ipp_prove t Q a b Gs Hs = Ok (proof, t') ∧
    (ipp_verify t P Q proof (Nat.pow 2 k) = Ok (true, t') ∨ Exists (λ u, sc_val u = 0) (ipp_challenges t (ipp_L proof) (ipp_R proof)).1).
Proof.
  intros Ht LQ BQ DQ Ca Cb La Lb Hk. destruct (pow_le_20 k Hk) as (EP & HP & EW). destruct (decode_dlog Q PQ LQ BQ DQ) as [q HQ].
  assert (Va : is_vec a (sc_val <$> a)) by (clear -Ca; induction Ca; constructor; [by apply sc_is_val|done]).
  assert (Vb : is_vec b (sc_val <$> b)) by (clear -Cb; induction Cb; constructor; [by apply sc_is_val|done]).
  set (av := sc_val <$> a) in *. set (bv := sc_val <$> b) in *. set (n := Nat.pow 2 k) in *.
  assert (Lav : length av = n) by (unfold av; by rewrite length_fmap). assert (Lbv : length bv = n) by (unfold bv; by rewrite length_fmap).
  destruct (gen_G_log (zseq 0 n)) as [g Hg]. destruct (gen_H_log (zseq 0 n)) as [h Hh].
  assert (Lg : length g = n) by (rewrite <- (Forall2_length _ _ _ Hg), length_fmap; apply length_zseq).
  assert (Lh : length h = n) by (rewrite <- (Forall2_length _ _ _ Hh), length_fmap; apply length_zseq).
  destruct (generators_vec_eq (Z.of_nat n)) as (_ & EG & EH); [lia|]. rewrite Nat2Z.id in EG, EH.
  destruct (multi_scalar_mul_is (a ++ b ++ [mul_sum (ops t) a b]) ((gen_G <$> zseq 0 n) ++ (gen_H <$> zseq 0 n) ++ [Q])
     (av ++ bv ++ [dot av bv]) (g ++ h ++ [q])) as (P & HPe & HPl).
  { apply app3; [done|done|]. rewrite Ht. by apply mul_sum_is. }
  { by apply app3. }
  { rewrite !length_app, !length_fmap, !length_zseq. cbn [length]. lia. }
  rewrite dot_app3 in HPl by lia.
  destruct (ipp_loop_log k t Q q a b _ _ av bv g h Ht HQ Va Vb Hg Hh Lav Lbv Lg Lh)
    as (proof & t' & EI & us & uz & xL & xR & fa & fb & EC & Hus & Nus & HxL & HxR & NxL & NxR & Hfa & Hfb & Heq).
  exists (gen_G <$> zseq 0 n), (gen_H <$> zseq 0 n), P, proof, t'. split; [exact EG|]. split; [exact EH|]. split; [exact HPe|].
  split; [rewrite ipp_prove_loop with (k := k); rewrite ?length_fmap, ?length_zseq; done|]. rewrite EC. cbn [fst].
  destruct (decide (Exists (λ u, sc_val u = 0) us)) as [Hz|Hz]; [by right|left].
  assert (N : Forall nonzero uz).
  { apply not_Exists_Forall in Hz; [|intros u; apply _]. clear -Hus Hz. induction Hus as [|u x us uz Hu _ IH]; [constructor|].
    apply Forall_cons in Hz as [Hu0 Hz]. constructor; [|by apply IH]. intros E. apply Hu0. destruct Hu as [[Ou Lu] Eu].
    apply (cong_small scL); [by rewrite Eu|split; [by apply sc_val_bound|done]|pose proof scL_pos; lia]. }
  unfold ipp_verify. cbv zeta. rewrite (Forall2_length _ _ _ HxL), (Forall2_length _ _ _ HxR), NxL, NxR, Nat.eqb_refl. cbn [negb].
  rewrite EW, <- EP. fold n. rewrite Z.eqb_refl. cbn [negb]. rewrite EC, Ht. destruct (generators_mapR n HP) as [-> ->]. rewrite !Ok_bind.
  pose proof (verification_scalars_is us uz Hus N ltac:(lia)) as Hs.
  destruct (ipp_sum us uz _ _ (scale fb (svec (zip (invs uz) uz))) (so_mul W (ipp_a proof) (ipp_b proof)) _ fa _ _ Q (fa * fb) g h _ _ xL xR
     Hus N Hs (is_vec_scale _ _ _ _ Hfb (batch_svec _ _ Hs N)) Hfa (is_W_mul _ _ _ _ Hfa Hfb) Hg Hh (ex_intro _ q HQ) HxL HxR) as (c & Ec & Hc).
  { congruence. } { congruence. } { by rewrite Nus. }
  { unfold scale. rewrite length_fmap, length_svec, length_zip_with, length_invs, Nat.min_id. by rewrite Nus. }
  rewrite Ec, Ok_bind. rewrite bool_decide_true; [reflexivity|]. apply (dlog_eq _ _ _ _ (Hc q HQ) HPl).
  specialize (Heq (inverse_pairs uz N)). rewrite dot_scale. eapply round_sides; [|reflexivity]. 
  rewrite <- Heq. apply cong_eq. ring.
Qed.

Lemma ipp_complete_witness :
  let v := [mkScalar [5; 0; 0; 0]; mkScalar [5; 0; 0; 0]] in
  let t := transcript_init "example" Wide in
  ∃ Gs Hs P proof t', generators.G_vec 2 = Ok Gs ∧ generators.H_vec 2 = Ok Hs ∧
    multi_scalar_mul (v ++ v ++ [mul_sum (ops t) v v]) (Gs ++ Hs ++ [rist_G]) = Ok P ∧
    ipp_prove t rist_G v v Gs Hs = Ok (proof, t') ∧
    (ipp_verify t P rist_G proof 2 = Ok (true, t') ∨ Exists (λ u, sc_val u = 0) (ipp_challenges t (ipp_L proof) (ipp_R proof)).1).
Proof.
  cbv zeta. pose proof (proj1 (small_scalar 5 ltac:(done))) as H5. destruct (dlog_shape _ _ dlog_G) as [L32 B32].
  destruct (dlog_decode _ _ dlog_G) as (PG & DG & _).
  exact (ipp_complete (transcript_init "example" Wide) rist_G PG _ _ 1 eq_refl L32 B32 DG
    (Forall_cons_2 _ _ _ H5 (Forall_cons_2 _ _ _ H5 (Forall_nil_2 _))) (Forall_cons_2 _ _ _ H5 (Forall_cons_2 _ _ _ H5 (Forall_nil_2 _)))
    eq_refl eq_refl ltac:(lia)).
Defined.
