(* ===== verification/R1cs.v ===== *)
(** * Rank-1 constraint systems: [crypto/bulletproofs/r1cs_types.hpp],
    [r1cs_limits.hpp], [r1cs_prover.hpp], [r1cs_verifier.hpp]

    A [R1CSProver] collects committed values, multiplication gates and linear
    constraints; [prove] commits to the wires, folds the constraints into two
    polynomials whose product it opens at a challenge, and ends with the
    inner-product argument; [r1cs_verify] recomputes the two points that the
    argument must open to. *)

From S2P Require Import Prelude Primes Field Hash Rng Fe25519 Scalar25519 Ristretto Msm Transcript Generators InnerProduct.

(** ** Constraints *)

Inductive VarType : Set := ONE | COMMITTED | MULT_LEFT | MULT_RIGHT | MULT_OUT.

(** [struct Variable]. *)
Record Var : Set := mkVar { var_type : VarType; index : nat }.

Definition one : Var := mkVar ONE 0.
Definition committed (j : nat) : Var := mkVar COMMITTED j.
Definition mult_left (i : nat) : Var := mkVar MULT_LEFT i.
Definition mult_right (i : nat) : Var := mkVar MULT_RIGHT i.
Definition mult_out (i : nat) : Var := mkVar MULT_OUT i.

(** The terms. *)
Definition LinearCombination : Set := list (Var * Scalar).

Definition lc_var (v : Var) : LinearCombination := [(v, mkScalar [1; 0; 0; 0])].
Definition lc_term (v : Var) (coeff : Scalar) : LinearCombination := [(v, coeff)].
Definition lc_add (a other : LinearCombination) : LinearCombination := a ++ other.
Definition lc_sub (a other : LinearCombination) : LinearCombination :=
  a ++ ((λ '(var, coeff), (var, sc_neg coeff)) <$> other).
Definition lc_scale (a : LinearCombination) (s : Scalar) (ops : ScalarOps) : LinearCombination :=
  (λ '(var, coeff), (var, so_mul ops coeff s)) <$> a.
Definition lc_add_const (a : LinearCombination) (c : Scalar) : LinearCombination := a ++ [(one, c)].
Definition lc_sub_const (a : LinearCombination) (c : Scalar) : LinearCombination := lc_add_const a (sc_neg c).

Record Constraint : Set := mkConstraint { lc : LinearCombination }.

Record R1CSProof : Set := mkR1CS {
  A_I1 : list Z; A_O1 : list Z; r1_S1 : list Z;
  T_1 : list Z; T_3 : list Z; T_4 : list Z; T_5 : list Z; T_6 : list Z;
  t_x : Scalar; t_x_blinding : Scalar; e_blinding : Scalar;
  ipp : InnerProductProof; r1_V : list (list Z) }.

(** ** Limits *)

Definition R1CS_MAX_GATES : Z := Z.shiftl 1 20.
Definition R1CS_MAX_COMMITTED : Z := Z.shiftl 1 16.
Definition R1CS_MAX_CONSTRAINTS : Z := 1500000.
Definition R1CS_KEY_SWITCH_MAX_CONSTRAINTS : Z := 1550000.
Definition R1CS_MAX_TERMS : Z := Z.shiftl 1 22.

Inductive R1CSLimitProfile : Set := LimitDefault | KeySwitchRefresh.

Definition r1cs_constraint_limit (profile : R1CSLimitProfile) : Z :=
  match profile with
  | LimitDefault => R1CS_MAX_CONSTRAINTS
  | KeySwitchRefresh => R1CS_KEY_SWITCH_MAX_CONSTRAINTS
  end.

(** ** The prover's state *)

Record CommittedVar : Set := mkCommitted { value : Scalar; blinding : Scalar }.
Record Gate : Set := mkGate { a_L : Scalar; a_R : Scalar; a_O : Scalar }.

Record R1CSProver : Type := mkProver {
  committed_ : list CommittedVar;
  gates_ : list Gate;
  constraints_ : list Constraint;
  values_ : bool;
  gate_total_ : nat;
  commit_total_ : nat;
  prover_ops : ScalarOps }.

Definition prover_new (rule : ScalarRule) : R1CSProver := mkProver [] [] [] true 0 0 (scalar_ops rule).

(** [R1CSProver::verification]: the constraints without the values. *)
Definition verification (rule : ScalarRule) : R1CSProver := mkProver [] [] [] false 0 0 (scalar_ops rule).

Definition num_gates (p : R1CSProver) : nat := if values_ p then length (gates_ p) else gate_total_ p.
Definition num_constraints (p : R1CSProver) : nat := length (constraints_ p).
Definition num_committed (p : R1CSProver) : nat := if values_ p then length (committed_ p) else commit_total_ p.

Definition push_committed (p : R1CSProver) (c : CommittedVar) : R1CSProver :=
  mkProver (committed_ p ++ [c]) (gates_ p) (constraints_ p) (values_ p) (gate_total_ p) (commit_total_ p) (prover_ops p).
Definition push_gate (p : R1CSProver) (g : Gate) : R1CSProver :=
  mkProver (committed_ p) (gates_ p ++ [g]) (constraints_ p) (values_ p) (gate_total_ p) (commit_total_ p) (prover_ops p).
Definition push_constraint (p : R1CSProver) (c : Constraint) : R1CSProver :=
  mkProver (committed_ p) (gates_ p) (constraints_ p ++ [c]) (values_ p) (gate_total_ p) (commit_total_ p) (prover_ops p).
Definition count_gate (p : R1CSProver) : R1CSProver :=
  mkProver (committed_ p) (gates_ p) (constraints_ p) (values_ p) (S (gate_total_ p)) (commit_total_ p) (prover_ops p).
Definition count_commit (p : R1CSProver) : R1CSProver :=
  mkProver (committed_ p) (gates_ p) (constraints_ p) (values_ p) (gate_total_ p) (S (commit_total_ p)) (prover_ops p).

(** ** Operations on the prover *)

Definition commit (v b : Scalar) : M R1CSProver Var := λ p,
  Ok (committed (num_committed p),
      if values_ p then push_committed p (mkCommitted v b) else count_commit p).

Definition allocate (a_L_val a_R_val : Scalar) : M R1CSProver (Var * Var * Var) := λ p,
  let i := num_gates p in
  Ok ((mult_left i, mult_right i, mult_out i),
      if values_ p then push_gate p (mkGate a_L_val a_R_val (so_mul (prover_ops p) a_L_val a_R_val)) else count_gate p).

(** The value of a variable; an index past the end is undefined behaviour. *)
Definition var_value (p : R1CSProver) (var : Var) : res Scalar :=
  let out_of_range := Throw "undefined: index out of range" in
  let gate (f : Gate → Scalar) := match gates_ p !! index var with Some g => Ok (f g) | None => out_of_range end in
  match var_type var with
  | ONE => Ok (mkScalar [1; 0; 0; 0])
  | COMMITTED => match committed_ p !! index var with Some c => Ok (value c) | None => out_of_range end
  | MULT_LEFT => gate a_L
  | MULT_RIGHT => gate a_R
  | MULT_OUT => gate a_O
  end.

(** The loop of [eval_lc] from the sum [r]. *)
Fixpoint eval_terms (p : R1CSProver) (terms : LinearCombination) (r : Scalar) : res Scalar :=
  match terms with
  | [] => Ok r
  | (var, coeff) :: terms => v ← var_value p var; eval_terms p terms (sc_add r (so_mul (prover_ops p) coeff v))
  end.
Definition eval_lc (p : R1CSProver) (lc : LinearCombination) : res Scalar := eval_terms p lc sc_zero.

Definition multiply (lc_left lc_right : LinearCombination) : M R1CSProver (Var * Var * Var) := λ p,
  let i := num_gates p in
  p ← (if values_ p then
         aL ← eval_lc p lc_left;
         aR ← eval_lc p lc_right;
         Ok (push_gate p (mkGate aL aR (so_mul (prover_ops p) aL aR)))
       else Ok (count_gate p));
  let p := push_constraint p (mkConstraint (lc_sub lc_left (lc_var (mult_left i)))) in
  let p := push_constraint p (mkConstraint (lc_sub lc_right (lc_var (mult_right i)))) in
  Ok ((mult_left i, mult_right i, mult_out i), p).

Definition constrain (lc : LinearCombination) : M R1CSProver unit := λ p,
  Ok (tt, push_constraint p (mkConstraint lc)).

(** The running count, or one more than the limit. *)
Fixpoint terms_loop (cs : list Constraint) (count : Z) : Z :=
  match cs with
  | [] => count
  | c :: cs =>
      if R1CS_MAX_TERMS - count <? Z.of_nat (length (lc c)) then R1CS_MAX_TERMS + 1
      else terms_loop cs (count + Z.of_nat (length (lc c)))
  end.
Definition constraint_terms (p : R1CSProver) : Z := terms_loop (constraints_ p) 0.

(** ** Folding the constraints *)

(** The weights of the wires, of the commitments and of the constant, and the
    power of [z] reached. *)
Record Weights : Set := mkWeights {
  wL : list Scalar; wR : list Scalar; wO : list Scalar; wV : list Scalar; wc : Scalar }.

(** [if (index < n) w[index] = sc_add(w[index], zc)], for [w] of length [n]. *)
Definition add_at (w : list Scalar) (i : nat) (zc : Scalar) : list Scalar := alter (λ s, sc_add s zc) i w.

Definition add_term (ops : ScalarOps) (zp : Scalar) (w : Weights) (term : Var * Scalar) : Weights :=
  let '(var, coeff) := term in
  let zc := so_mul ops zp coeff in
  let i := index var in
  match var_type var with
  | MULT_LEFT => mkWeights (add_at (wL w) i zc) (wR w) (wO w) (wV w) (wc w)
  | MULT_RIGHT => mkWeights (wL w) (add_at (wR w) i zc) (wO w) (wV w) (wc w)
  | MULT_OUT => mkWeights (wL w) (wR w) (add_at (wO w) i zc) (wV w) (wc w)
  | COMMITTED => mkWeights (wL w) (wR w) (wO w) (add_at (wV w) i zc) (wc w)
  | ONE => mkWeights (wL w) (wR w) (wO w) (wV w) (sc_add (wc w) zc)
  end.

Definition add_constraint (ops : ScalarOps) (z : Scalar) (st : Weights * Scalar) (c : Constraint) : Weights * Scalar :=
  let '(w, zp) := st in (foldl (add_term ops zp) w (lc c), so_mul ops zp z).

(** [z_aggregate]; the verifier has the same loop in line. *)
Definition z_aggregate (ops : ScalarOps) (cs : list Constraint) (z : Scalar) (N m : nat) : Weights :=
  let zeros n := replicate n sc_zero in
  (foldl (add_constraint ops z) (mkWeights (zeros N) (zeros N) (zeros N) (zeros m) sc_zero, mkScalar [1; 0; 0; 0]) cs).1.

(** ** Proving *)

(** A vector filled by index, and read by index. *)
Definition tab {A} (N : nat) (f : nat → A) : list A := f <$> seq 0 N.
Definition sat (v : list Scalar) (i : nat) : Scalar := nth i v sc_zero.

(** [out[0] = 1; out[i] = out[i - 1] * y]. *)
Fixpoint powers_from (ops : ScalarOps) (y p : Scalar) (n : nat) : list Scalar :=
  match n with O => [] | S n => p :: powers_from ops y (so_mul ops p y) n end.
Definition powers (ops : ScalarOps) (y : Scalar) (N : nat) : list Scalar := powers_from ops y (mkScalar [1; 0; 0; 0]) N.

Definition msm_GH_blind (a b : list Scalar) (blind : Scalar) (N : nat) : res (list Z) :=
  Gs ← mapR generators.G (zseq 0 N);
  Hs ← mapR generators.H (zseq 0 N);
  prover_msm (take N a ++ take N b ++ [blind]) (Gs ++ Hs ++ [pedersen_B_blinding]).

Definition msm_G_blind (a : list Scalar) (blind : Scalar) (N : nat) : res (list Z) :=
  Gs ← mapR generators.G (zseq 0 N);
  prover_msm (take N a ++ [blind]) (Gs ++ [pedersen_B_blinding]).

(** The messages before the first challenges. *)
Definition append_header (t : Transcript) (N m q : Z) (V : list (list Z)) : Transcript :=
  let t := append_u64 t "n" N in
  let t := append_u64 t "m" m in
  let t := append_u64 t "q" q in
  foldl (λ t pt, append_point t "V" pt) t V.

Definition append_wires (t : Transcript) (AI AO S : list Z) : Transcript :=
  append_point (append_point (append_point t "A_I" AI) "A_O" AO) "S" S.

Definition append_T (t : Transcript) (T1 T3 T4 T5 T6 : list Z) : Transcript :=
  append_point (append_point (append_point (append_point (append_point t "T_1" T1) "T_3" T3) "T_4" T4) "T_5" T5) "T_6" T6.

Definition append_opening (t : Transcript) (tx txb e : Scalar) : Transcript :=
  append_scalar (append_scalar (append_scalar t "t_x" tx) "t_x_blinding" txb) "e_blinding" e.

(** The powers of [x] from the second to the sixth. *)
Definition x_powers (ops : ScalarOps) (x : Scalar) : Scalar * Scalar * Scalar * Scalar * Scalar :=
  let x2 := so_mul ops x x in
  let x3 := so_mul ops x2 x in
  let x4 := so_mul ops x3 x in
  let x5 := so_mul ops x4 x in
  let x6 := so_mul ops x5 x in
  (x2, x3, x4, x5, x6).

(** One draw of the blinding wires: [sL[i]], then [sR[i]]. *)
Definition draw_wires (ops : ScalarOps) : M Os.Csprng (Scalar * Scalar) :=
  l ← so_random ops; r ← so_random ops; mret (l, r).

(** The last part of [prove]: the opening at [x] and the inner-product argument,
    for the six polynomials of the wires. *)
Definition open_proof (ops : ScalarOps) (t : Transcript) (N : nat) (l1 l2 l3 r0 r1 r3 y_inv_n : list Scalar)
    (wv_blind tau1 tau3 tau4 tau5 tau6 alpha beta rho : Scalar) : res (Scalar * Scalar * Scalar * InnerProductProof * Transcript) :=
  let '(xc, t) := challenge_scalar t "x" in
  let '(x2, x3, x4, x5, x6) := x_powers ops xc in
  let l_eval := tab N (λ i, sc_add (sc_add (so_mul ops (sat l1 i) xc) (so_mul ops (sat l2 i) x2)) (so_mul ops (sat l3 i) x3)) in
  let r_eval := tab N (λ i, sc_add (sc_add (sat r0 i) (so_mul ops (sat r1 i) xc)) (so_mul ops (sat r3 i) x3)) in
  t_hat ← inner_product l_eval r_eval ops;
  let tau_x := so_mul ops tau1 xc in
  let tau_x := sc_sub tau_x (so_mul ops wv_blind x2) in
  let tau_x := sc_add tau_x (so_mul ops tau3 x3) in
  let tau_x := sc_add tau_x (so_mul ops tau4 x4) in
  let tau_x := sc_add tau_x (so_mul ops tau5 x5) in
  let tau_x := sc_add tau_x (so_mul ops tau6 x6) in
  let e := sc_add (sc_add (so_mul ops xc alpha) (so_mul ops x2 beta)) (so_mul ops x3 rho) in
  let t := append_opening t t_hat tau_x e in
  let '(w_ch, t) := challenge_scalar t "w" in
  Q ← rist_scalarmul pedersen_B w_ch;
  Gv ← generators.G_vec (Z.of_nat N);
  Hv ← generators.H_vec (Z.of_nat N);
  H_prime ← mapR (λ i, rist_scalarmul (nth i Hv []) (sat y_inv_n i)) (seq 0 N);
  '(proof, t) ← ipp_prove t Q l_eval r_eval Gv H_prime;
  Ok (t_hat, tau_x, e, proof, t).

(** From the challenges [y] and [z] on; the second polynomial of the left side
    is [aO], the third [sL]. *)
Definition prove_folded (ops : ScalarOps) (p : R1CSProver) (t : Transcript) (size m : nat) (y z : Scalar) (aL aR aO sL sR : list Scalar)
    (alpha beta rho : Scalar) (V : list (list Z)) (AI AO S1 : list Z) : M Os.Csprng (R1CSProof * Transcript) :=
  let w := z_aggregate ops (constraints_ p) z size m in
  let y_inv := so_inv ops y in
  let y_n := powers ops y size in
  let y_inv_n := powers ops y_inv size in
  let l1 := tab size (λ i, sc_add (sat aL i) (so_mul ops (sat y_inv_n i) (sat (wR w) i))) in
  let r0 := tab size (λ i, sc_sub (sat (wO w) i) (sat y_n i)) in
  let r1 := tab size (λ i, sc_add (so_mul ops (sat y_n i) (sat aR i)) (sat (wL w) i)) in
  let r3 := tab size (λ i, so_mul ops (sat y_n i) (sat sR i)) in
  t1 ← lift (inner_product l1 r0 ops);
  t3a ← lift (inner_product aO r1 ops);
  t3b ← lift (inner_product sL r0 ops);
  t4a ← lift (inner_product l1 r3 ops);
  t4b ← lift (inner_product sL r1 ops);
  t5 ← lift (inner_product aO r3 ops);
  t6 ← lift (inner_product sL r3 ops);
  tau1 ← so_random ops;
  tau3 ← so_random ops;
  tau4 ← so_random ops;
  tau5 ← so_random ops;
  tau6 ← so_random ops;
  T1 ← lift (pedersen_commit t1 tau1);
  T3 ← lift (pedersen_commit (sc_add t3a t3b) tau3);
  T4 ← lift (pedersen_commit (sc_add t4a t4b) tau4);
  T5 ← lift (pedersen_commit t5 tau5);
  T6 ← lift (pedersen_commit t6 tau6);
  let t := append_T t T1 T3 T4 T5 T6 in
  let wv_blind := mul_sum ops (wV w) (blinding <$> committed_ p) in
  '(t_hat, tau_x, e, proof, t) ←
    lift (open_proof ops t size l1 aO sL r0 r1 r3 y_inv_n wv_blind tau1 tau3 tau4 tau5 tau6 alpha beta rho);
  mret (mkR1CS AI AO S1 T1 T3 T4 T5 T6 t_hat tau_x e proof V, t).

(** [prove] once the limits hold and the size is known. *)
Definition prove_sized (p : R1CSProver) (t : Transcript) (N : Z) : M Os.Csprng (R1CSProof * Transcript) :=
  let ops := prover_ops p in
  let m := length (committed_ p) in
  let q := Z.of_nat (length (constraints_ p)) in
  let size := Z.to_nat N in
  V ← lift (mapR (λ c, pedersen_commit (value c) (blinding c)) (committed_ p));
  let t := append_header t N (Z.of_nat m) q V in
  let pad l := l ++ replicate (size - length l) sc_zero in
  let aL := pad (a_L <$> gates_ p) in
  let aR := pad (a_R <$> gates_ p) in
  let aO := pad (a_O <$> gates_ p) in
  wires ← replicateM size (draw_wires ops);
  let sL := fst <$> wires in
  let sR := snd <$> wires in
  alpha ← so_random ops;
  beta ← so_random ops;
  rho ← so_random ops;
  _ ← lift (generators.precompute N);
  AI ← lift (msm_GH_blind aL aR alpha size);
  AO ← lift (msm_G_blind aO beta size);
  S1 ← lift (msm_GH_blind sL sR rho size);
  let t := append_wires t AI AO S1 in
  let '(y, t) := challenge_scalar t "y" in
  let '(z, t) := challenge_scalar t "z" in
  prove_folded ops p t size m y z aL aR aO sL sR alpha beta rho V AI AO S1.

Definition prove (p : R1CSProver) (t : Transcript) (profile : R1CSLimitProfile) : M Os.Csprng (R1CSProof * Transcript) :=
  if negb (values_ p) then lift (Throw "pvac: proof witness is missing")
  else if negb (bool_decide (so_rule (Transcript.ops t) = so_rule (prover_ops p))) then lift (Throw "pvac: scalar rule mismatch")
  else
    let n := Z.of_nat (length (gates_ p)) in
    let m := Z.of_nat (length (committed_ p)) in
    let q := Z.of_nat (length (constraints_ p)) in
    let terms := constraint_terms p in
    let max_constraints := r1cs_constraint_limit profile in
    if max_constraints =? 0 then lift (Throw "pvac: invalid r1cs constraint limit")
    else if (R1CS_MAX_GATES <? n) || (R1CS_MAX_COMMITTED <? m) || (max_constraints <? q) || (R1CS_MAX_TERMS <? terms)
    then lift (Throw "pvac: r1cs prover limits exceeded")
    else N ← lift (next_power_of_2 (if 0 <? n then n else 1)); prove_sized p t N.

(** ** Verifying *)

Record ConstraintSystem : Set := mkSystem { cs_gates : Z; cs_committed : Z; constraints : list Constraint }.

Definition padded_gates (cs : ConstraintSystem) : res Z := next_power_of_2 (if 0 <? cs_gates cs then cs_gates cs else 1).

(** The catch-all makes every exception [None]. *)
Definition padded_gates_checked (cs : ConstraintSystem) : option Z :=
  if R1CS_MAX_GATES <? cs_gates cs then None
  else
    match padded_gates cs with
    | Ok out => if negb (out =? 0) && (out <=? R1CS_MAX_GATES) then Some out else None
    | _ => None
    end.

Definition r1cs_var_ok (var : Var) (gates committed : Z) : bool :=
  match var_type var with
  | ONE => (index var =? 0)%nat
  | COMMITTED => Z.of_nat (index var) <? committed
  | MULT_LEFT | MULT_RIGHT | MULT_OUT => Z.of_nat (index var) <? gates
  end.

Fixpoint constraints_ok (cs : list Constraint) (gates committed terms : Z) : bool :=
  match cs with
  | [] => true
  | c :: cs =>
      if R1CS_MAX_TERMS - terms <? Z.of_nat (length (lc c)) then false
      else forallb (λ term, r1cs_var_ok term.1 gates committed) (lc c) &&
           constraints_ok cs gates committed (terms + Z.of_nat (length (lc c)))
  end.

Definition r1cs_system_ok (cs : ConstraintSystem) (N : Z) (profile : R1CSLimitProfile) : bool :=
  let max_constraints := r1cs_constraint_limit profile in
  if max_constraints =? 0 then false
  else if (N =? 0) || (R1CS_MAX_GATES <? N) then false
  else if R1CS_MAX_GATES <? cs_gates cs then false
  else if R1CS_MAX_COMMITTED <? cs_committed cs then false
  else if max_constraints <? Z.of_nat (length (constraints cs)) then false
  else constraints_ok (constraints cs) (cs_gates cs) (cs_committed cs) 0.

Definition rist_valid (point : list Z) : bool := match rist_decode point with Some _ => true | None => false end.

Definition ipp_points_valid (proof : InnerProductProof) : bool :=
  (length (ipp_L proof) =? length (ipp_R proof))%nat && forallb rist_valid (ipp_L proof) && forallb rist_valid (ipp_R proof).

Definition r1cs_points_valid (proof : R1CSProof) : bool :=
  rist_valid (A_I1 proof) && rist_valid (A_O1 proof) && rist_valid (r1_S1 proof) &&
  rist_valid (T_1 proof) && rist_valid (T_3 proof) && rist_valid (T_4 proof) && rist_valid (T_5 proof) && rist_valid (T_6 proof) &&
  forallb rist_valid (r1_V proof) && ipp_points_valid (ipp proof).

(** [std::numeric_limits<size_t>::digits]. *)
Definition size_digits : nat := 64.

Definition ipp_verify_with_y (t : Transcript) (P Q : list Z) (proof : InnerProductProof) (n : Z) (y_inv_n : list Scalar)
    : res (bool * Transcript) :=
  if negb (rist_valid P) then Ok (false, t)
  else if negb (rist_valid Q) then Ok (false, t)
  else if negb (ipp_points_valid proof) then Ok (false, t)
  else if (n =? 0) || (BP_MAX_VECTOR_SIZE <? n) || negb (Z.of_nat (length y_inv_n) =? n) then Ok (false, t)
  else
    let lg := length (ipp_L proof) in
    if negb (length (ipp_R proof) =? lg)%nat then Ok (false, t)
    else if (size_digits <=? lg)%nat then Ok (false, t)
    else if negb (wshl 64 1 (Z.of_nat lg) =? n) then Ok (false, t)
    else
      let o := Transcript.ops t in
      let '(challenges, t) := ipp_challenges t (ipp_L proof) (ipp_R proof) in
      let s := ipp_verification_scalars challenges o in
      let s_inv := batch_sc_inv s o in
      let ab := so_mul o (ipp_a proof) (ipp_b proof) in
      Gs ← mapR generators.G (zseq 0 (Z.to_nat n));
      Hs ← mapR generators.H (zseq 0 (Z.to_nat n));
      let u_sqs := (λ c, so_mul o c c) <$> challenges in
      let u_inv_sqs := batch_sc_inv u_sqs o in
      let scalars := ((λ x, so_mul o (ipp_a proof) x) <$> s)
        ++ zip_with (λ x y, so_mul o (so_mul o (ipp_b proof) x) y) s_inv y_inv_n ++ [ab] ++ round_scalars u_sqs u_inv_sqs in
      let points := Gs ++ Hs ++ [Q] ++ round_points (ipp_L proof) (ipp_R proof) in
      expected ← multi_scalar_mul scalars points;
      Ok (bool_decide (expected = P), t).

(** The challenges of a proof and the transcript after them. *)
Definition r1cs_challenges (t : Transcript) (N m q : Z) (proof : R1CSProof) : Scalar * Scalar * Scalar * Scalar * Transcript :=
  let t := append_header t N m q (r1_V proof) in
  let t := append_wires t (A_I1 proof) (A_O1 proof) (r1_S1 proof) in
  let '(y, t) := challenge_scalar t "y" in
  let '(z, t) := challenge_scalar t "z" in
  let t := append_T t (T_1 proof) (T_3 proof) (T_4 proof) (T_5 proof) (T_6 proof) in
  let '(xc, t) := challenge_scalar t "x" in
  let t := append_opening t (t_x proof) (t_x_blinding proof) (e_blinding proof) in
  let '(w_ch, t) := challenge_scalar t "w" in
  (y, z, xc, w_ch, t).

(** The first check: the commitment to the value at [x]. *)
Definition T_rhs (o : ScalarOps) (xc : Scalar) (delta : Scalar) (w : Weights) (proof : R1CSProof) : res (list Z) :=
  let '(x2, x3, x4, x5, x6) := x_powers o xc in
  multi_scalar_mul
    ([so_mul o x2 (sc_sub delta (wc w))] ++ ((λ v, sc_neg (so_mul o x2 v)) <$> wV w) ++ [xc; x3; x4; x5; x6])
    ([pedersen_B] ++ r1_V proof ++ [T_1 proof; T_3 proof; T_4 proof; T_5 proof; T_6 proof]).

(** The point that the argument opens. *)
Definition P_point (o : ScalarOps) (xc w_ch : Scalar) (w : Weights) (y_inv_n : list Scalar) (N : nat) (proof : R1CSProof) : res (list Z) :=
  let '(x2, x3, x4, x5, x6) := x_powers o xc in
  Gs ← mapR generators.G (zseq 0 N);
  Hs ← mapR generators.H (zseq 0 N);
  multi_scalar_mul
    (tab N (λ i, so_mul o xc (so_mul o (sat y_inv_n i) (sat (wR w) i))) ++
     tab N (λ i, sc_sub (so_mul o (sat y_inv_n i) (sc_add (sat (wO w) i) (so_mul o (sat (wL w) i) xc))) (mkScalar [1; 0; 0; 0])) ++
     [xc; x2; x3; sc_neg (e_blinding proof); so_mul o (t_x proof) w_ch])
    (Gs ++ Hs ++ [A_I1 proof; A_O1 proof; r1_S1 proof; pedersen_B_blinding; pedersen_B]).

Definition r1cs_verify (t : Transcript) (cs : ConstraintSystem) (proof : R1CSProof) (profile : R1CSLimitProfile)
    : res (bool * Transcript) :=
  match padded_gates_checked cs with
  | None => Ok (false, t)
  | Some N =>
      if negb (r1cs_system_ok cs N profile) then Ok (false, t)
      else if negb (Z.of_nat (length (r1_V proof)) =? cs_committed cs) then Ok (false, t)
      else if negb (r1cs_points_valid proof) then Ok (false, t)
      else
        let o := Transcript.ops t in
        let size := Z.to_nat N in
        let '(y, z, xc, w_ch, t) := r1cs_challenges t N (cs_committed cs) (Z.of_nat (length (constraints cs))) proof in
        let y_inv_n := powers o (so_inv o y) size in
        let w := z_aggregate o (constraints cs) z size (Z.to_nat (cs_committed cs)) in
        let delta := foldl (λ d i, sc_add d (so_mul o (so_mul o (sat y_inv_n i) (sat (wR w) i)) (sat (wL w) i))) sc_zero (seq 0 size) in
        T_lhs ← pedersen_commit (t_x proof) (t_x_blinding proof);
        T_rhs ← T_rhs o xc delta w proof;
        if negb (bool_decide (T_lhs = T_rhs)) then Ok (false, t)
        else
          Q ← rist_scalarmul pedersen_B w_ch;
          _ ← generators.precompute N;
          P ← P_point o xc w_ch w y_inv_n size proof;
          ipp_verify_with_y t P Q (ipp proof) N y_inv_n
  end.
