(* ===== verification/R1csSafe.v ===== *)
(** * Verification of constraint systems is total

    Every call of [r1cs_verify] that can throw is behind a check of the proof:
    lengths agree and points decode by the time they are used. *)

From S2P Require Import Prelude Primes Field Hash Rng Fe25519 Scalar25519 ScalarField Ristretto RistrettoGroup Order Msm Transcript Generators InnerProduct InnerProductCorrect R1cs.

#[local] Opaque scL zinv hash_to_ristretto_point rist_encode ext_scalarmul rist_identity rist_G rist_H sc_tobytes
  window_loop multi_scalar_mul pedersen_commit rist_scalarmul.

(** ** Verification never throws *)

Definition decodes (p : list Z) : Prop := rist_valid p = true.

Lemma dlog_decodes p x : dlog p x → decodes p.
Proof. intros H. destruct (dlog_decode p x H) as (P & E & _). unfold decodes, rist_valid. by rewrite E. Qed.

Lemma decodes_decode p : decodes p → ∃ P, rist_decode_or_throw p = Ok P.
Proof.
  unfold decodes, rist_valid, rist_decode_or_throw. destruct (rist_decode p) as [P|]; [|discriminate]. intros _. exists P. reflexivity.
Qed.

Lemma mapR_decodes points : Forall decodes points → ∃ pts, mapR rist_decode_or_throw points = Ok pts.
Proof.
  intros H. induction H as [|p points Hp _ [pts IH]]; [by exists []|].
  destruct (decodes_decode p Hp) as [P E]. exists (P :: pts). cbn [mapR]. rewrite E, Ok_bind, IH, Ok_bind. reflexivity.
Qed.

#[local] Transparent multi_scalar_mul.

Lemma multi_scalar_mul_total scalars points : length scalars = length points → Forall decodes points →
  ∃ c, multi_scalar_mul scalars points = Ok c.
Proof.
  intros Hl Hd. unfold multi_scalar_mul. rewrite Hl, Nat.eqb_refl. cbn [negb]. destruct (length points =? 0)%nat; [eexists; reflexivity|].
  destruct (mapR_decodes points Hd) as [pts ->]. rewrite Ok_bind. cbv zeta. destruct (length points <=? 2)%nat; eexists; reflexivity.
Qed.

#[local] Opaque multi_scalar_mul.

#[local] Transparent pedersen_commit rist_scalarmul.

Lemma pedersen_commit_total v r : ∃ c, pedersen_commit v r = Ok c.
Proof.
  unfold pedersen_commit. destruct (dlog_decode _ _ dlog_G) as (P & -> & _). destruct dlog_H as [h Hh].
  destruct (dlog_decode _ _ Hh) as (Q & -> & _). eexists. reflexivity.
Qed.

Lemma rist_scalarmul_total p s : decodes p → ∃ c, rist_scalarmul p s = Ok c.
Proof.
  intros H. unfold rist_scalarmul. destruct (decodes_decode p H) as [P ->]. rewrite Ok_bind. eexists. reflexivity.
Qed.

#[local] Opaque pedersen_commit rist_scalarmul.

Lemma decodes_gens (f : Z → list Z) (l : list Z) : (∀ i, ∃ x, dlog (f i) x) → Forall decodes (f <$> l).
Proof. intros Hf. apply Forall_fmap, Forall_forall. intros i _. destruct (Hf i) as [x Hx]. exact (dlog_decodes _ _ Hx). Qed.

Lemma decodes_gen_G (l : list Z) : Forall decodes (gen_G <$> l).
Proof. apply decodes_gens. intros i. apply hash_to_ristretto_point_log. Qed.

Lemma decodes_gen_H (l : list Z) : Forall decodes (gen_H <$> l).
Proof. apply decodes_gens. intros i. apply hash_to_ristretto_point_log. Qed.

Lemma forallb_decodes l : forallb rist_valid l = true → Forall decodes l.
Proof. intros H. apply Forall_forall. intros p Hp. rewrite forallb_forall in H. exact (H p (proj1 (list_elem_of_In l p) Hp)). Qed.

Lemma decodes_round_points L R : Forall decodes L → Forall decodes R → Forall decodes (round_points L R).
Proof.
  intros HL. revert R. induction HL as [|l L Hl _ IH]; intros R HR; [constructor|]. destruct HR as [|r R Hr HR]; [constructor|].
  unfold round_points. cbn [zip_with concat app]. constructor; [exact Hl|]. constructor; [exact Hr|]. exact (IH R HR).
Qed.

Lemma length_next_s ops cs s i : length (next_s ops cs s i) = S (length s).
Proof. unfold next_s. rewrite length_app. cbn. lia. Qed.

Lemma length_foldl_next ops cs s l : length (foldl (next_s ops cs) s l) = (length s + length l)%nat.
Proof. revert s. induction l as [|i l IH]; intros s; cbn [foldl length]; [lia|]. rewrite IH, length_next_s. lia. Qed.

Lemma length_verification_scalars cs ops : (length cs ≤ 20)%nat → length (ipp_verification_scalars cs ops) = Nat.pow 2 (length cs).
Proof.
  intros Hl. destruct (pow_le_20 (length cs) Hl) as (E & _ & EW). unfold ipp_verification_scalars. cbv zeta.
  rewrite length_foldl_next, length_zseq, EW, <- E, Nat2Z.id. cbn [length]. pose proof (Nat.pow_nonzero 2 (length cs)). lia.
Qed.

Lemma length_ipp_challenges t L R : length L = length R → length (ipp_challenges t L R).1 = length L.
Proof.
  revert t R. induction L as [|l L IH]; intros t [|r R] Hl; try discriminate; [done|]. cbn [ipp_challenges].
  destruct (challenge_scalar _ "u") as [u t1]. specialize (IH t1 R ltac:(by injection Hl)). destruct (ipp_challenges t1 L R) as [us t2].
  cbn [fst] in *. cbn [length]. by rewrite IH.
Qed.

Lemma length_round_scalars u w : length u = length w → length (round_scalars u w) = (2 * length u)%nat.
Proof.
  revert w. induction u as [|x u IH]; intros [|y w] H; try discriminate; [done|]. unfold round_scalars. cbn [zip_with concat app length].
  fold (round_scalars u w). rewrite IH by (by injection H). lia.
Qed.

Lemma pow2_word_inj lg n : wshl 64 1 (Z.of_nat lg) = n → 0 < n ≤ BP_MAX_VECTOR_SIZE → (lg < 64)%nat → (lg ≤ 20)%nat ∧ n = Z.of_nat (Nat.pow 2 lg).
Proof.
  intros E Hn Hl. assert (E' : wshl 64 1 (Z.of_nat lg) = 2 ^ Z.of_nat lg).
  { unfold wshl. rewrite shl_mul, Z.mul_1_l by lia. apply wrap_small. split; [lia|]. apply Z.pow_lt_mono_r; lia. }
  rewrite E' in E. rewrite <- E in Hn |- *. assert (Z.of_nat lg ≤ 20) by (apply (Z.pow_le_mono_r_iff 2); [lia..|]; unfold BP_MAX_VECTOR_SIZE in Hn; lia).
  split; [lia|]. by rewrite Nat2Z.inj_pow.
Qed.

Lemma ipp_verify_with_y_total t P Q proof n ys : 0 ≤ n → ∃ b t', ipp_verify_with_y t P Q proof n ys = Ok (b, t').
Proof.
  intros Hn0. unfold ipp_verify_with_y. destruct (rist_valid P) eqn:VP; cbn [negb]; [|eauto]. destruct (rist_valid Q) eqn:VQ; cbn [negb]; [|eauto].
  destruct (ipp_points_valid proof) eqn:VI; cbn [negb]; [|eauto].
  destruct ((n =? 0) || _ || _) eqn:E; [eauto|]. apply orb_false_iff in E as [[E1 E2]%orb_false_iff E3%negb_false_iff].
  apply Z.eqb_neq in E1. apply Z.ltb_ge in E2. apply Z.eqb_eq in E3. cbv zeta.
  destruct (Nat.eqb_spec (length (ipp_R proof)) (length (ipp_L proof))) as [ER|]; cbn [negb]; [|eauto].
  destruct (Nat.leb_spec size_digits (length (ipp_L proof))) as [|HL]; [eauto|]. unfold size_digits in HL.
  destruct (Z.eqb_spec (wshl 64 1 (Z.of_nat (length (ipp_L proof)))) n) as [EW|]; cbn [negb]; [|eauto].
  destruct (pow2_word_inj _ _ EW ltac:(lia) HL) as [Hlg ->].
  apply andb_true_iff in VI as [[_ VL]%andb_true_iff VR].
  pose proof (length_ipp_challenges t (ipp_L proof) (ipp_R proof) (eq_sym ER)) as Lc. destruct (ipp_challenges t _ _) as [us t1]. cbn [fst] in Lc.
  rewrite Nat2Z.id. destruct (generators_mapR _ E2) as [-> ->]. rewrite !Ok_bind.
  pose proof (length_verification_scalars us (Transcript.ops t) ltac:(lia)) as Ls.
  match goal with |- context [multi_scalar_mul ?s ?p] => destruct (multi_scalar_mul_total s p) as [c ->] end.
  - rewrite !length_app, !length_fmap, length_zip_with, length_batch_sc_inv, Ls, !length_zseq, length_round_scalars, length_round_points
      by (rewrite ?length_batch_sc_inv, ?length_fmap; lia). rewrite length_fmap. cbn [length]. rewrite Lc. lia.
  - apply Forall_app_2; [apply decodes_gen_G|]. apply Forall_app_2; [apply decodes_gen_H|]. apply Forall_app_2; [by constructor|].
    apply decodes_round_points; by apply forallb_decodes.
  - rewrite Ok_bind. eauto.
Qed.

Lemma length_tab {A} N (f : nat → A) : length (tab N f) = N.
Proof. unfold tab. by rewrite length_fmap, length_seq. Qed.

Definition weights_size (N m : nat) (w : Weights) : Prop :=
  length (wL w) = N ∧ length (wR w) = N ∧ length (wO w) = N ∧ length (wV w) = m.

Lemma add_term_size ops zp N m w term : weights_size N m w → weights_size N m (add_term ops zp w term).
Proof.
  intros (H1 & H2 & H3 & H4). destruct term as [[[] i] c]; unfold add_term, add_at, weights_size; cbn; rewrite ?length_alter; tauto.
Qed.

Lemma z_aggregate_size ops cs z N m : weights_size N m (z_aggregate ops cs z N m).
Proof.
  unfold z_aggregate. cbv zeta.
  assert (H : ∀ st, weights_size N m st.1 → weights_size N m (foldl (add_constraint ops z) st cs).1).
  { induction cs as [|c cs IH]; intros [w zp] Hw; [exact Hw|]. cbn [foldl]. apply IH. cbn [add_constraint fst] in *. clear IH. revert w Hw.
    induction (lc c) as [|t l IH]; intros w Hw; [exact Hw|]. cbn [foldl]. apply IH. by apply add_term_size. }
  apply H. cbn. unfold weights_size. cbn. by rewrite !length_replicate.
Qed.

#[local] Opaque pedersen_B pedersen_B_blinding.

Lemma decodes_pedersen : decodes pedersen_B ∧ decodes pedersen_B_blinding.
Proof. split; [exact (dlog_decodes _ _ dlog_G)|]. destruct dlog_H as [h Hh]. exact (dlog_decodes _ _ Hh). Qed.

Lemma valid_decodes p : rist_valid p = true → decodes p.
Proof. intros H. exact H. Qed.

Lemma points_valid_inv proof : r1cs_points_valid proof = true →
  (rist_valid (A_I1 proof) = true ∧ rist_valid (A_O1 proof) = true ∧ rist_valid (r1_S1 proof) = true) ∧
  (rist_valid (T_1 proof) = true ∧ rist_valid (T_3 proof) = true ∧ rist_valid (T_4 proof) = true ∧ rist_valid (T_5 proof) = true ∧
   rist_valid (T_6 proof) = true) ∧ forallb rist_valid (r1_V proof) = true.
Proof. unfold r1cs_points_valid. rewrite !andb_true_iff. tauto. Qed.

(** The points of the first check, and of the second. *)
Lemma T_rhs_total o xc delta w proof : length (wV w) = length (r1_V proof) → r1cs_points_valid proof = true →
  ∃ c, T_rhs o xc delta w proof = Ok c.
Proof.
  intros Hl Hv. destruct (points_valid_inv proof Hv) as (_ & (V1 & V3 & V4 & V5 & V6) & VV).
  unfold T_rhs. destruct (x_powers o xc) as [[[[x2 x3] x4] x5] x6]. apply multi_scalar_mul_total.
  - rewrite !length_app, length_fmap, Hl. cbn [length]. reflexivity.
  - apply Forall_app_2; [constructor; [exact (proj1 decodes_pedersen)|constructor]|]. apply Forall_app_2; [exact (forallb_decodes _ VV)|].
    constructor; [exact (valid_decodes _ V1)|]. constructor; [exact (valid_decodes _ V3)|]. constructor; [exact (valid_decodes _ V4)|]. constructor; [exact (valid_decodes _ V5)|]. constructor; [exact (valid_decodes _ V6)|constructor].
Qed.

Lemma P_point_total o xc w_ch w ys N proof : Z.of_nat N ≤ BP_MAX_VECTOR_SIZE → r1cs_points_valid proof = true →
  ∃ c, P_point o xc w_ch w ys N proof = Ok c.
Proof.
  intros HN Hv. destruct (points_valid_inv proof Hv) as ((VI & VO & VS) & _).
  unfold P_point. destruct (x_powers o xc) as [[[[x2 x3] x4] x5] x6]. destruct (generators_mapR N HN) as [-> ->]. rewrite !Ok_bind.
  apply multi_scalar_mul_total.
  - rewrite !length_app, !length_tab, !length_fmap, !length_zseq. cbn [length]. reflexivity.
  - apply Forall_app_2; [apply decodes_gen_G|]. apply Forall_app_2; [apply decodes_gen_H|].
    constructor; [exact (valid_decodes _ VI)|]. constructor; [exact (valid_decodes _ VO)|]. constructor; [exact (valid_decodes _ VS)|].
    constructor; [exact (proj2 decodes_pedersen)|]. constructor; [exact (proj1 decodes_pedersen)|constructor].
Qed.

Lemma padded_checked_range cs N : padded_gates_checked cs = Some N → 0 < N ≤ BP_MAX_VECTOR_SIZE.
Proof.
  unfold padded_gates_checked. destruct (R1CS_MAX_GATES <? cs_gates cs); [discriminate|].
  assert (H : ∀ r, padded_gates cs = r → match r with Ok N => 0 < N | _ => True end).
  { intros r <-. unfold padded_gates. set (k := if 0 <? cs_gates cs then cs_gates cs else 1).
    assert (Hk : 0 < k) by (unfold k; destruct (Z.ltb_spec 0 (cs_gates cs)); lia).
    destruct (Z.le_gt_cases k BP_MAX_VECTOR_SIZE).
    - destruct (next_power_spec k) as (j & _ & -> & Hj); lia.
    - unfold next_power_of_2. rewrite (proj2 (Z.eqb_neq _ _)), (proj2 (Z.ltb_lt _ _)) by lia. done. }
  specialize (H _ eq_refl). destruct (padded_gates cs) as [M| |]; [|discriminate..].
  destruct (negb (M =? 0) && (M <=? R1CS_MAX_GATES)) eqn:E; [|discriminate]. intros [= <-].
  apply andb_true_iff in E as [_ E%Z.leb_le]. split; [exact H|exact E].
Qed.

#[local] Opaque T_rhs P_point ipp_verify_with_y r1cs_points_valid r1cs_challenges z_aggregate powers generators.precompute
  padded_gates_checked r1cs_system_ok so_inv so_mul.

Lemma bind_total {A B C} (r : res A) (f : A → res (B * C)) :
  (∃ a, r = Ok a) → (∀ a, ∃ b c, f a = Ok (b, c)) → ∃ b c, (r ≫= f) = Ok (b, c).
Proof. intros [a ->] H. exact (H a). Qed.

Lemma guard_total {B C} (g : bool) (b : B) (c : C) (r : res (B * C)) :
  (g = true → ∃ b c, r = Ok (b, c)) → ∃ b' c', (if negb g then Ok (b, c) else r) = Ok (b', c').
Proof. intros H. destruct g; [by apply H|]. exists b, c. reflexivity. Qed.

(** ** Property *)

(** C10. Verification is total: whatever the proof and the constraint system,
    [r1cs_verify] answers, and throws no exception; in particular no malformed
    point or length of a proof reaches a function that throws. *)
Theorem r1cs_verify_total t cs proof profile : ∃ b t', r1cs_verify t cs proof profile = Ok (b, t').
Proof.
  unfold r1cs_verify. destruct (padded_gates_checked cs) as [N|] eqn:EN; [|eauto]. pose proof (padded_checked_range cs N EN) as HN.
  apply guard_total. intros _. apply guard_total. intros Em%Z.eqb_eq. apply guard_total. intros VP.
  generalize (r1cs_challenges t N (cs_committed cs) (Z.of_nat (length (constraints cs))) proof). intros [[[[y z] xc] w_ch] t1].
  eapply bind_total; [exact (pedersen_commit_total _ _)|]. intros lhs. eapply bind_total.
  { apply T_rhs_total; [|exact VP]. destruct (z_aggregate_size (Transcript.ops t) (constraints cs) z (Z.to_nat N) (Z.to_nat (cs_committed cs))) as (_ & _ & _ & LV).
    rewrite LV, <- Em. apply Nat2Z.id. }
  intros rhs. apply guard_total. intros _.
  eapply bind_total; [exact (rist_scalarmul_total _ _ (proj1 decodes_pedersen))|]. intros Q.
  eapply bind_total; [exists tt; exact (proj1 (generators_vec_eq N ltac:(lia)))|]. intros _.
  eapply bind_total; [apply P_point_total; [lia|exact VP]|]. intros P. apply ipp_verify_with_y_total. lia.
Qed.
