(* ===== verification/R1csAlgebra.v ===== *)
(** * The algebra behind the constraint-system proofs

    Vectors of scalars as functions of the index, the weights that fold the
    constraints, the two identities between polynomials, and the inner-product
    argument against scaled generators. *)

From S2P Require Import Prelude Primes Field Hash Rng Fe25519 Scalar25519 ScalarField Ristretto RistrettoGroup Order Msm Transcript Generators InnerProduct InnerProductCorrect R1cs R1csSafe.

#[local] Opaque scL zinv hash_to_ristretto_point rist_encode ext_scalarmul rist_identity rist_G rist_H sc_tobytes
  window_loop multi_scalar_mul pedersen_commit rist_scalarmul pedersen_B pedersen_B_blinding.

(** ** Vectors by index *)

Definition sumf (N : nat) (f : nat → Z) : Z := lsum (seq 0 N) f.

(** The scalars of [v] have the residues [f 0, ..., f (N - 1)]. *)
Definition holds (N : nat) (v : list Scalar) (f : nat → Z) : Prop := is_vec v (tab N f).

Lemma lsum_cong {A} (l : list A) f g : (∀ x, x ∈ l → cong scL (f x) (g x)) → cong scL (lsum l f) (lsum l g).
Proof.
  induction l as [|x l IH]; intros H; [reflexivity|]. rewrite !lsum_cons, (H x), IH by (try intros y Hy; try apply H; by constructor). reflexivity.
Qed.

Lemma lsum_add {A} (l : list A) f g : lsum l f + lsum l g = lsum l (λ x, f x + g x).
Proof. induction l as [|x l IH]; [done|]. rewrite !lsum_cons, <- IH. lia. Qed.

Lemma sumf_add N f g : sumf N f + sumf N g = sumf N (λ i, f i + g i).
Proof. apply lsum_add. Qed.

Lemma sumf_scale N f c : c * sumf N f = sumf N (λ i, c * f i).
Proof. unfold sumf. by rewrite lsum_scale. Qed.

Lemma sumf_cong N f g : (∀ i, (i < N)%nat → cong scL (f i) (g i)) → cong scL (sumf N f) (sumf N g).
Proof. intros H. apply lsum_cong. intros i Hi. apply H. apply elem_of_seq in Hi. lia. Qed.

Lemma sumf_0 N : sumf N (λ _, 0) = 0.
Proof. unfold sumf. induction (seq 0 N) as [|i l IH]; [done|]. by rewrite lsum_cons, IH. Qed.

Lemma dot_tab N f g : dot (tab N f) (tab N g) = sumf N (λ i, f i * g i).
Proof.
  unfold tab, sumf. induction (seq 0 N) as [|i l IH]; [done|]. cbn [fmap list_fmap]. rewrite dot_cons, lsum_cons. f_equal. exact IH.
Qed.

Lemma nth_tab {A} N (f : nat → A) i d : (i < N)%nat → nth i (tab N f) d = f i.
Proof. intros Hi. apply nth_lookup_Some. unfold tab. rewrite list_lookup_fmap, lookup_seq_lt by done. done. Qed.

Lemma tab_nth N (x : list Z) : length x = N → tab N (λ i, nth i x 0) = x.
Proof.
  intros Hl. apply list_eq. intros i. unfold tab. rewrite list_lookup_fmap. destruct (Nat.lt_ge_cases i (length x)) as [Hi|Hi].
  - destruct (lookup_lt_is_Some_2 x i Hi) as [a Ha]. rewrite lookup_seq_lt by lia. cbn. by rewrite Ha, (nth_lookup_Some _ _ _ _ Ha).
  - rewrite lookup_seq_ge, lookup_ge_None_2 by lia. done.
Qed.

Lemma holds_vec N v x : is_vec v x → length x = N → holds N v (λ i, nth i x 0).
Proof. intros H Hl. unfold holds. by rewrite tab_nth. Qed.

Lemma holds_sat N v f i : holds N v f → (i < N)%nat → sc_is (sat v i) (f i).
Proof. intros H Hi. pose proof (is_vec_nth _ _ i H) as Hn. by rewrite nth_tab in Hn. Qed.

Lemma holds_tab N F f : (∀ i, (i < N)%nat → sc_is (F i) (f i)) → holds N (tab N F) f.
Proof.
  intros H. unfold holds, tab. assert (K : ∀ l, (∀ i, i ∈ l → (i < N)%nat) → is_vec (F <$> l) (f <$> l)).
  { induction l as [|i l IH]; intros Hl; [constructor|]. constructor; [apply H, Hl; by constructor|]. apply IH. intros j Hj. apply Hl. by constructor. }
  apply K. intros i Hi. apply elem_of_seq in Hi. lia.
Qed.

Lemma holds_length N v f : holds N v f → length v = N.
Proof. intros H. by rewrite (is_vec_length _ _ H), length_tab. Qed.

Lemma holds_ext N v f g : holds N v f → (∀ i, (i < N)%nat → cong scL (f i) (g i)) → holds N v g.
Proof.
  intros H E. apply (is_vec_cong _ _ _ H). unfold tab. apply Forall2_fmap, Forall_Forall2_diag, Forall_forall. intros i Hi%elem_of_seq. apply E. lia.
Qed.

Lemma holds_sum N a b f g : holds N a f → holds N b g → sc_is (mul_sum W a b) (sumf N (λ i, f i * g i)).
Proof. intros Ha Hb. rewrite <- dot_tab. by apply mul_sum_is. Qed.

Lemma inner_product_holds N a b f g : holds N a f → holds N b g → inner_product a b W = Ok (mul_sum W a b).
Proof. intros Ha Hb. unfold inner_product. by rewrite (holds_length _ _ _ Ha), (holds_length _ _ _ Hb), Nat.eqb_refl. Qed.

Lemma powers_from_is y x p n : sc_is y x → ∀ k, sc_is p (x ^ Z.of_nat k) →
  is_vec (powers_from W y p n) ((λ i, x ^ Z.of_nat i) <$> seq k n).
Proof.
  intros Hy. revert p. induction n as [|n IH]; intros p k Hp; [constructor|]. cbn [powers_from seq fmap list_fmap]. constructor; [exact Hp|].
  apply IH. rewrite Nat2Z.inj_succ, Z.pow_succ_r, Z.mul_comm by lia. exact (is_W_mul _ _ _ _ Hp Hy).
Qed.

Lemma powers_hold N y x : sc_is y x → holds N (powers W y N) (λ i, x ^ Z.of_nat i).
Proof. intros Hy. apply (powers_from_is y x _ N Hy 0). exact is_one_scalar. Qed.

(** ** The folded constraints *)

Section Aggregate.
Context (N m : nat) (al ar ao v : nat → Z).

(** The value of a variable, of a linear combination. *)
Definition var_val (var : Var) : Z :=
  match var_type var with
  | ONE => 1
  | COMMITTED => v (index var)
  | MULT_LEFT => al (index var)
  | MULT_RIGHT => ar (index var)
  | MULT_OUT => ao (index var)
  end.

Definition lc_val (l : LinearCombination) : Z := lsum l (λ term, sc_val term.2 * var_val term.1).

Definition term_ok (n k : Z) (term : Var * Scalar) : Prop := r1cs_var_ok term.1 n k = true ∧ sc_canon term.2.

(** The weights sum to [S] over the assignment. *)
Definition weighs (w : Weights) (S : Z) : Prop :=
  ∃ xl xr xo xv xc, is_vec (wL w) xl ∧ is_vec (wR w) xr ∧ is_vec (wO w) xo ∧ is_vec (wV w) xv ∧ sc_is (wc w) xc ∧
    length xl = N ∧ length xr = N ∧ length xo = N ∧ length xv = m ∧
    cong scL (dot xl (tab N al) + dot xr (tab N ar) + dot xo (tab N ao) + dot xv (tab m v) + xc) S.

Lemma dot_alter x y i d : (i < length x)%nat → length x = length y → dot (alter (λ a, a + d) i x) y = dot x y + d * nth i y 0.
Proof.
  revert y i. induction x as [|a x IH]; intros [|b y] [|i] Hi Hl; cbn [length] in *; try lia.
  - change (alter (λ a, a + d) 0%nat (a :: x)) with ((a + d) :: x). rewrite !dot_cons. cbn [nth]. lia.
  - change (alter (λ a, a + d) (S i) (a :: x)) with (a :: alter (λ a, a + d) i x). rewrite !dot_cons, IH by lia. cbn [nth]. lia.
Qed.

Lemma is_vec_add_at w x i zc d : is_vec w x → sc_is zc d → is_vec (add_at w i zc) (alter (λ a, a + d) i x).
Proof.
  intros H Hz. unfold add_at. revert i. induction H as [|s a w x Hs Hw IH]; intros [|i]; try constructor; try done.
  - by apply is_sc_add.
  - apply IH.
Qed.

Lemma add_term_weighs n k w S zp zv term : sc_is zp zv → n ≤ Z.of_nat N → k ≤ Z.of_nat m → term_ok n k term → weighs w S →
  weighs (add_term W zp w term) (S + zv * (sc_val term.2 * var_val term.1)).
Proof.
  intros Hz HN Hm [Hv Hc] (xl & xr & xo & xv & xc & Hl & Hr & Ho & HV & HC & Nl & Nr & No & Nv & E).
  destruct term as [[ty i] c]. cbn [fst snd] in *. pose proof (is_W_mul _ _ _ _ Hz (sc_is_val c Hc)) as Hzc.
  unfold r1cs_var_ok in Hv. cbn [var_type index] in Hv. unfold add_term, var_val. cbn [var_type index].
  destruct ty; cbn [wL wR wO wV wc].
  - exists xl, xr, xo, xv, (xc + zv * sc_val c). cbn. split_and!; try done; [by apply is_sc_add|]. rewrite <- E. apply cong_eq. ring.
  - apply Z.ltb_lt in Hv. exists xl, xr, xo, (alter (λ a, a + zv * sc_val c) i xv), xc. cbn [wL wR wO wV wc].
    split_and!; try done; [by apply is_vec_add_at|by rewrite length_alter|]. rewrite dot_alter, nth_tab by (rewrite ?length_tab; lia).
    rewrite <- E. apply cong_eq. ring.
  - apply Z.ltb_lt in Hv. exists (alter (λ a, a + zv * sc_val c) i xl), xr, xo, xv, xc. cbn [wL wR wO wV wc].
    split_and!; try done; [by apply is_vec_add_at|by rewrite length_alter|]. rewrite dot_alter, nth_tab by (rewrite ?length_tab; lia).
    rewrite <- E. apply cong_eq. ring.
  - apply Z.ltb_lt in Hv. exists xl, (alter (λ a, a + zv * sc_val c) i xr), xo, xv, xc. cbn [wL wR wO wV wc].
    split_and!; try done; [by apply is_vec_add_at|by rewrite length_alter|]. rewrite dot_alter, nth_tab by (rewrite ?length_tab; lia).
    rewrite <- E. apply cong_eq. ring.
  - apply Z.ltb_lt in Hv. exists xl, xr, (alter (λ a, a + zv * sc_val c) i xo), xv, xc. cbn [wL wR wO wV wc].
    split_and!; try done; [by apply is_vec_add_at|by rewrite length_alter|]. rewrite dot_alter, nth_tab by (rewrite ?length_tab; lia).
    rewrite <- E. apply cong_eq. ring.
Qed.

Lemma add_terms_weigh n k l w S zp zv : sc_is zp zv → n ≤ Z.of_nat N → k ≤ Z.of_nat m → Forall (term_ok n k) l → weighs w S →
  weighs (foldl (add_term W zp) w l) (S + zv * lc_val l).
Proof.
  intros Hz HN Hm Hl. revert w S. induction Hl as [|term l Ht _ IH]; intros w S Hw.
  - unfold lc_val, lsum. cbn. by rewrite Z.mul_0_r, Z.add_0_r.
  - cbn [foldl]. unfold lc_val. rewrite lsum_cons, Z.mul_add_distr_l, Z.add_assoc. apply IH. by apply (add_term_weighs n k).
Qed.

#[export] Instance weighs_proper w : Proper (cong scL ==> iff) (weighs w).
Proof. intros S S' E. unfold weighs. by setoid_rewrite E. Qed.

(** Constraints that hold leave the sum at zero. *)
Lemma z_aggregate_zero n k cs z : sc_canon z → n ≤ Z.of_nat N → k ≤ Z.of_nat m →
  Forall (λ c, Forall (term_ok n k) (lc c) ∧ cong scL (lc_val (lc c)) 0) cs →
  ∃ wl wr wo wv c0, let w := z_aggregate W cs z N m in
    holds N (wL w) wl ∧ holds N (wR w) wr ∧ holds N (wO w) wo ∧ holds m (wV w) wv ∧ sc_is (wc w) c0 ∧
    cong scL (sumf N (λ i, wl i * al i) + sumf N (λ i, wr i * ar i) + sumf N (λ i, wo i * ao i) + sumf m (λ i, wv i * v i) + c0) 0.
Proof.
  intros Hz HN Hm Hcs.
  assert (H : ∀ st zv, sc_is st.2 zv → weighs st.1 0 → weighs (foldl (add_constraint W z) st cs).1 0).
  { induction Hcs as [|c cs [Hc E] _ IH]; intros [w zp] zv Hzp Hw; [exact Hw|]. cbn [foldl]. cbn [fst snd] in Hzp, Hw.
    apply (IH _ (zv * sc_val z)); cbn [add_constraint fst snd]; [exact (is_W_mul _ _ _ _ Hzp (sc_is_val z Hz))|].
    pose proof (add_terms_weigh n k (lc c) w 0 zp zv Hzp HN Hm Hc Hw) as G. by rewrite E, Z.mul_0_r in G. }
  assert (D0 : ∀ n f, dot (replicate n 0) (tab n f) = 0).
  { intros n0 f. unfold tab. generalize 0%nat. induction n0 as [|n0 IH]; intros s; [done|]. cbn [replicate seq fmap list_fmap].
    rewrite dot_cons. unfold fmap in IH. rewrite IH. lia. }
  destruct (H (mkWeights (replicate N sc_zero) (replicate N sc_zero) (replicate N sc_zero) (replicate m sc_zero) sc_zero, mkScalar [1; 0; 0; 0]) 1)
    as (xl & xr & xo & xv & xc & Hl & Hr & Ho & HV & HC & Nl & Nr & No & Nv & E).
  - exact is_one_scalar.
  - exists (replicate N 0), (replicate N 0), (replicate N 0), (replicate m 0), 0. cbn [wL wR wO wV wc fst].
    pose proof is_zero_scalar. split_and!; try (by apply is_vec_replicate); try (by rewrite length_replicate); [done|]. by rewrite !D0.
  - exists (λ i, nth i xl 0), (λ i, nth i xr 0), (λ i, nth i xo 0), (λ i, nth i xv 0), xc. cbv zeta.
    split; [by apply holds_vec|]. split; [by apply holds_vec|]. split; [by apply holds_vec|]. split; [by apply holds_vec|]. split; [exact HC|].
    rewrite <- !dot_tab, !tab_nth by done. exact E.
Qed.
End Aggregate.

(** ** The two identities *)

Section Identities.
Context (N m : nat) (al ar ao sl sr wl wr wo yp yi gz hz : nat → Z) (wvv c0 x : Z).
Context (gates : ∀ i, (i < N)%nat → cong scL (ao i) (al i * ar i)).
Context (inverses : ∀ i, (i < N)%nat → cong scL (yp i * yi i) 1).

Definition l1_ i := al i + yi i * wr i.
Definition r0_ i := wo i - yp i.
Definition r1_ i := yp i * ar i + wl i.
Definition r3_ i := yp i * sr i.
Definition lev i := l1_ i * x + ao i * (x * x) + sl i * (x * x * x).
Definition rev_ i := r0_ i + r1_ i * x + r3_ i * (x * x * x).
Definition delta_ := sumf N (λ i, yi i * wr i * wl i).

Lemma value_identity :
  cong scL (sumf N (λ i, wl i * al i) + sumf N (λ i, wr i * ar i) + sumf N (λ i, wo i * ao i) + wvv + c0) 0 →
  cong scL (sumf N (λ i, lev i * rev_ i))
    (x * sumf N (λ i, l1_ i * r0_ i) + x * x * (delta_ - c0 - wvv) +
     x * x * x * (sumf N (λ i, ao i * r1_ i) + sumf N (λ i, sl i * r0_ i)) +
     x * x * x * x * (sumf N (λ i, l1_ i * r3_ i) + sumf N (λ i, sl i * r1_ i)) +
     x * x * x * x * x * sumf N (λ i, ao i * r3_ i) + x * x * x * x * x * x * sumf N (λ i, sl i * r3_ i)).
Proof.
  intros HC. set (S := sumf N (λ i, wl i * al i) + sumf N (λ i, wr i * ar i) + sumf N (λ i, wo i * ao i)) in *.
  assert (E : cong scL (delta_ - c0 - wvv) (delta_ + S)).
  { transitivity (delta_ + S - (S + wvv + c0)); [apply cong_eq; ring|]. rewrite HC. apply cong_eq. ring. }
  rewrite E. unfold S, delta_. rewrite !sumf_add, !sumf_scale, !sumf_add. apply sumf_cong. intros i Hi.
  pose proof (gates i Hi) as G. pose proof (inverses i Hi) as I. unfold lev, rev_, l1_, r0_, r1_, r3_.
  transitivity (x * ((al i + yi i * wr i) * (wo i - yp i)) +
    x * x * (yi i * wr i * wl i + (wl i * al i + (yp i * yi i) * (wr i * ar i) + wo i * ao i) + yp i * (al i * ar i - ao i)) +
    x * x * x * (ao i * (yp i * ar i + wl i) + sl i * (wo i - yp i)) +
    x * x * x * x * ((al i + yi i * wr i) * (yp i * sr i) + sl i * (yp i * ar i + wl i)) +
    x * x * x * x * x * (ao i * (yp i * sr i)) + x * x * x * x * x * x * (sl i * (yp i * sr i))); [apply cong_eq; ring|].
  rewrite I, <- G. apply cong_eq. ring.
Qed.

Lemma point_identity :
  cong scL (sumf N (λ i, x * (yi i * wr i) * gz i) + sumf N (λ i, (yi i * (wo i + wl i * x) - 1) * hz i) +
     (x * (sumf N (λ i, al i * gz i) + sumf N (λ i, ar i * hz i)) + x * x * sumf N (λ i, ao i * gz i) +
      x * x * x * (sumf N (λ i, sl i * gz i) + sumf N (λ i, sr i * hz i))))
    (sumf N (λ i, lev i * gz i) + sumf N (λ i, rev_ i * (yi i * hz i))).
Proof.
  rewrite !sumf_add, !sumf_scale, !sumf_add. apply sumf_cong. intros i Hi. pose proof (inverses i Hi) as I.
  unfold lev, rev_, l1_, r0_, r1_, r3_.
  transitivity ((x * (yi i * wr i) + al i * x + ao i * (x * x) + sl i * (x * x * x)) * gz i +
    (yi i * (wo i + wl i * x) - yp i * yi i + (yp i * yi i) * ar i * x + (yp i * yi i) * sr i * (x * x * x)) * hz i);
    [rewrite I; apply cong_eq; ring|apply cong_eq; ring].
Qed.
End Identities.

(** ** The argument against scaled generators *)

Lemma dot_zip c a b h : length a = length b → length b = length h →
  dot (zip_with (λ s y, c * s * y) a b) h = c * dot a (zip_with Z.mul b h).
Proof.
  revert b h. induction a as [|x a IH]; intros [|y b] [|z h] H1 H2; try discriminate; [by rewrite Z.mul_0_r|].
  cbn [zip_with]. rewrite !dot_cons, IH by (by injection H1; injection H2). lia.
Qed.

Lemma zip_tab N f g : zip_with Z.mul (tab N f) (tab N g) = tab N (λ i, f i * g i).
Proof. unfold tab. induction (seq 0 N) as [|i l IH]; [done|]. cbn [fmap list_fmap zip_with]. f_equal. exact IH. Qed.

Lemma nonzeros us uz : is_vec us uz → ¬ Exists (λ u, sc_val u = 0) us → Forall nonzero uz.
Proof.
  intros Hus Hz. apply not_Exists_Forall in Hz; [|intros u; apply _]. induction Hus as [|u x us uz Hu _ IH]; [constructor|].
  apply Forall_cons in Hz as [Hu0 Hz]. constructor; [|by apply IH]. intros E. apply Hu0. destruct Hu as [[Ou Lu] Eu].
  apply (cong_small scL); [by rewrite Eu|split; [by apply sc_val_bound|done]|pose proof scL_pos; lia].
Qed.

Lemma is_vec_zip_scaled b fb s y sz yz : sc_is b fb → is_vec s sz → is_vec y yz →
  is_vec (zip_with (λ x y, so_mul W (so_mul W b x) y) s y) (zip_with (λ s y, fb * s * y) sz yz).
Proof. intros Hb. apply is_vec_zip. intros c d e f Hc Hd. exact (is_W_mul _ _ _ _ (is_W_mul _ _ _ _ Hb Hc) Hd). Qed.

Lemma decodes_all l x : Forall2 dlog l x → forallb rist_valid l = true.
Proof. intros H. apply forallb_forall. intros p Hp. apply list_elem_of_In, list_elem_of_lookup_1 in Hp as [i Hi].
  destruct (Forall2_lookup_l _ _ _ _ _ H Hi) as (y & _ & Hy). exact (dlog_decodes _ _ Hy). Qed.

Lemma ipp_with_y_complete lg N t t' P Q p q av bv g h ys proof yf : (lg ≤ 20)%nat → N = Nat.pow 2 lg → Transcript.ops t = W →
  dlog P p → dlog Q q → Forall2 dlog (gen_G <$> zseq 0 N) g → Forall2 dlog (gen_H <$> zseq 0 N) (tab N h) → holds N ys yf →
  cong scL p (dot av g + dot bv (tab N (λ i, yf i * h i)) + dot av bv * q) →
  ipp_honest q av bv g (tab N (λ i, yf i * h i)) lg t proof t' →
  ipp_verify_with_y t P Q proof (Z.of_nat N) ys = Ok (true, t') ∨ Exists (λ u, sc_val u = 0) (ipp_challenges t (ipp_L proof) (ipp_R proof)).1.
Proof.
  intros Hlg -> Ht HP HQ Hg Hh Hys Ep (us & uz & xL & xR & fa & fb & EC & Hus & Nus & HxL & HxR & NxL & NxR & Hfa & Hfb & Heq).
  destruct (pow_le_20 lg Hlg) as (EP & HB & EW). set (N := Nat.pow 2 lg) in *. rewrite EC. cbn [fst].
  destruct (decide (Exists (λ u, sc_val u = 0) us)) as [Hz|Hz]; [by right|left]. pose proof (nonzeros us uz Hus Hz) as Nz.
  assert (Lg : length g = N) by (rewrite <- (Forall2_length _ _ _ Hg), length_fmap; apply length_zseq).
  pose proof (verification_scalars_is us uz Hus Nz ltac:(lia)) as Hs.
  assert (Lsv : length (svec (zip (invs uz) uz)) = N) by (rewrite length_svec, length_zip_with, length_invs, Nat.min_id; by rewrite Nus).
  destruct (ipp_sum us uz _ _ _ (so_mul W (ipp_a proof) (ipp_b proof)) _ fa _ _ Q (fa * fb) g (tab N h) _ _ xL xR
     Hus Nz Hs (is_vec_zip_scaled _ _ _ _ _ _ Hfb (batch_svec _ _ Hs Nz) Hys) Hfa (is_W_mul _ _ _ _ Hfa Hfb) Hg Hh (ex_intro _ q HQ) HxL HxR) as (c & Ec & Hc).
  { congruence. } { congruence. } { by rewrite Nus. } { rewrite length_zip_with, Lsv, !length_tab. apply Nat.min_id. }
  assert (R : c = P).
  { apply (dlog_eq _ _ _ _ (Hc q HQ) HP). rewrite Ep. specialize (Heq (inverse_pairs uz Nz)).
    rewrite (dot_zip fb) by (rewrite ?length_tab, ?Lsv; done). rewrite zip_tab. eapply round_sides; [|reflexivity]. rewrite <- Heq. apply cong_eq. ring. }
  unfold ipp_verify_with_y. rewrite (dlog_decodes _ _ HP : rist_valid P = true), (dlog_decodes _ _ HQ : rist_valid Q = true). cbn [negb].
  assert (VI : ipp_points_valid proof = true).
  { unfold ipp_points_valid. rewrite (decodes_all _ _ HxL), (decodes_all _ _ HxR), (Forall2_length _ _ _ HxL), (Forall2_length _ _ _ HxR), NxL, NxR, Nat.eqb_refl.
    reflexivity. }
  rewrite VI. cbn [negb]. assert (HN0 : 0 < Z.of_nat N) by (rewrite EP; lia).
  rewrite (proj2 (Z.eqb_neq _ _)), (proj2 (Z.ltb_ge _ _)), (holds_length _ _ _ Hys), Z.eqb_refl by lia. cbn [negb orb]. cbv zeta.
  rewrite (Forall2_length _ _ _ HxL), (Forall2_length _ _ _ HxR), NxL, NxR, Nat.eqb_refl. cbn [negb].
  rewrite (proj2 (Nat.leb_gt _ _)) by (unfold size_digits; lia). rewrite EW, <- EP, Z.eqb_refl. cbn [negb]. rewrite EC, Ht.
  rewrite Nat2Z.id. destruct (generators_mapR N HB) as [-> ->]. rewrite !Ok_bind, Ec, Ok_bind, R, bool_decide_true by reflexivity. reflexivity.
Qed.
