(* ===== verification/R1csHonest.v ===== *)
(** * What an honest prover sends

    [prove] never fails on a prover that holds a solution, and each part of the
    proof has the logarithm or the residue that the verifier's checks need. *)

From S2P Require Import Prelude Primes Field Hash Rng Fe25519 Scalar25519 ScalarField Ristretto RistrettoGroup Order Msm Transcript Generators InnerProduct InnerProductCorrect R1cs R1csSafe R1csAlgebra.

#[local] Opaque scL zinv hash_to_ristretto_point rist_encode ext_scalarmul rist_identity rist_G rist_H sc_tobytes
  window_loop multi_scalar_mul pedersen_commit rist_scalarmul
  pedersen_B pedersen_B_blinding prover_msm.

(** ** Drawing computations that cannot fail *)

Definition tpost {G A} (m : M G A) (Q : A → Prop) : Prop := ∀ g, ∃ a g', m g = Ok (a, g') ∧ Q a.

Lemma tpost_ret {G A} (a : A) (Q : A → Prop) : Q a → tpost (G := G) (mret a) Q.
Proof. intros H g. exists a, g. split; [reflexivity|exact H]. Qed.

Lemma tpost_bind {G A B} (m : M G A) (f : A → M G B) (Q : A → Prop) (Q' : B → Prop) :
  tpost m Q → (∀ a, Q a → tpost (f a) Q') → tpost (m ≫= f) Q'.
Proof.
  intros H K g. destruct (H g) as (a & g1 & E & HQ). destruct (K a HQ g1) as (b & g2 & E2 & HQ2).
  exists b, g2. split; [|exact HQ2]. unfold mbind, M_bind. rewrite E. exact E2.
Qed.

Lemma tpost_lift {G A} (r : res A) (Q : A → Prop) : (∃ a, r = Ok a ∧ Q a) → tpost (G := G) (lift r) Q.
Proof. intros (a & -> & H) g. exists a, g. split; [reflexivity|exact H]. Qed.

Lemma tpost_replicate {G A} n (m : M G A) (Q : A → Prop) : tpost m Q → tpost (replicateM n m) (λ l, length l = n ∧ Forall Q l).
Proof.
  intros H. induction n as [|n IH]; cbn [replicateM]; [apply tpost_ret; by split|]. eapply tpost_bind; [exact H|]. intros x Hx.
  eapply tpost_bind; [exact IH|]. intros l [Hl Hf]. apply tpost_ret. split; [cbn; by rewrite Hl|by constructor].
Qed.

Lemma tpost_u64 : tpost Os.csprng_u64 (word 64).
Proof.
  intros g. destruct (rng_u64_total (G := Os.Csprng) g) as (x & g' & E). exists x, g'. split; [exact E|]. exact (rng_u64_word _ _ _ E).
Qed.

Lemma tpost_random : tpost (so_random W) sc_canon.
Proof.
  change (so_random W) with (sc_random Wide). unfold sc_random. eapply tpost_bind; [apply tpost_replicate, tpost_u64|].
  intros ws [Hl Hw]. apply tpost_ret. by apply sc_reduce512_wide.
Qed.

Lemma tpost_wires : tpost (draw_wires W) (λ p, sc_canon p.1 ∧ sc_canon p.2).
Proof.
  unfold draw_wires. eapply tpost_bind; [exact tpost_random|]. intros l Hl. eapply tpost_bind; [exact tpost_random|]. intros r Hr.
  apply tpost_ret. exact (conj Hl Hr).
Qed.

(** ** Logarithms of what the prover sends *)

#[local] Transparent pedersen_B pedersen_B_blinding.

Lemma pedersen_B_eq : pedersen_B = rist_G.
Proof. unfold pedersen_B. reflexivity. Qed.

Lemma B_blinding_eq : pedersen_B_blinding = rist_H.
Proof. unfold pedersen_B_blinding. reflexivity. Qed.

#[local] Opaque pedersen_B pedersen_B_blinding.

Lemma dlog_B : dlog pedersen_B 1.
Proof. rewrite pedersen_B_eq. exact dlog_G. Qed.

Lemma pedersen_is hb v r x y : dlog pedersen_B_blinding hb → sc_is v x → sc_is r y →
  ∃ c, pedersen_commit v r = Ok c ∧ dlog c (x + y * hb).
Proof.
  intros Hh Hv Hr. rewrite B_blinding_eq in Hh. destruct (dlog_pedersen hb v r Hh (sc_is_ok _ _ Hv) (sc_is_ok _ _ Hr)) as (c & E & Hc).
  exists c. split; [exact E|]. eapply dlog_proper; [|exact Hc]. destruct Hv as [_ Ev], Hr as [_ Er]. by rewrite Ev, Er.
Qed.

Lemma holds_canon N l : Forall sc_canon l → (length l ≤ N)%nat → holds N (l ++ replicate (N - length l) sc_zero) (λ i, sc_val (sat l i)).
Proof.
  intros Hc Hl. assert (E : l ++ replicate (N - length l) sc_zero = tab N (sat l)).
  { apply list_eq. intros i. unfold tab. rewrite list_lookup_fmap. destruct (Nat.lt_ge_cases i N) as [Hi|Hi].
    - rewrite lookup_seq_lt by done. cbn. unfold sat. destruct (Nat.lt_ge_cases i (length l)) as [H|H].
      + rewrite lookup_app_l by done. destruct (lookup_lt_is_Some_2 l i H) as [s Hs]. by rewrite Hs, (nth_lookup_Some _ _ _ _ Hs).
      + rewrite lookup_app_r by done. rewrite lookup_replicate_2 by lia. by rewrite nth_overflow.
    - rewrite lookup_seq_ge, lookup_ge_None_2 by (rewrite ?length_app, ?length_replicate; lia). done. }
  rewrite E. apply holds_tab. intros i _. apply sc_is_val. unfold sat. apply Forall_nth_default; [done|]. apply is_zero_scalar.
Qed.

Lemma holds_self N l : Forall sc_canon l → length l = N → holds N l (λ i, sc_val (sat l i)).
Proof. intros Hc <-. pose proof (holds_canon (length l) l Hc (le_n _)) as H. by rewrite Nat.sub_diag, app_nil_r in H. Qed.

Lemma mapR_tab {B} (f : nat → res B) (R : B → Z → Prop) g N : (∀ i, (i < N)%nat → ∃ c, f i = Ok c ∧ R c (g i)) →
  ∃ cs, mapR f (seq 0 N) = Ok cs ∧ Forall2 R cs (tab N g).
Proof.
  intros H. unfold tab. assert (K : ∀ l, (∀ i, i ∈ l → (i < N)%nat) → ∃ cs, mapR f l = Ok cs ∧ Forall2 R cs (g <$> l)).
  { induction l as [|i l IH]; intros Hl; [exists []; split; [reflexivity|apply List.Forall2_nil]|].
    destruct (H i) as (c & Ec & Hc); [apply Hl; by constructor|]. destruct IH as (cs & Ecs & Hcs); [intros j Hj; apply Hl; by constructor|].
    exists (c :: cs). cbn [mapR]. rewrite Ec, Ok_bind, Ecs, Ok_bind. split; [reflexivity|]. apply List.Forall2_cons; [exact Hc|exact Hcs]. }
  apply K. intros i Hi%elem_of_seq. lia.
Qed.

Section Prover.
Context (k : nat) (Hk : (k ≤ 20)%nat) (gz hz : nat → Z) (hb : Z).
Let N := Nat.pow 2 k.
Context (HG : Forall2 dlog (gen_G <$> zseq 0 N) (tab N gz)) (HH : Forall2 dlog (gen_H <$> zseq 0 N) (tab N hz)).
Context (HB : dlog pedersen_B_blinding hb).

Lemma N_range : 0 < Z.of_nat N ≤ BP_MAX_VECTOR_SIZE.
Proof. destruct (pow_le_20 k Hk) as (E & H & _). fold N in E, H. split; [rewrite E; lia|exact H]. Qed.

Lemma msm_GH_is a b blind f g r : holds N a f → holds N b g → sc_is blind r →
  ∃ c, msm_GH_blind a b blind N = Ok c ∧ dlog c (sumf N (λ i, f i * gz i) + sumf N (λ i, g i * hz i) + r * hb).
Proof.
  intros Ha Hb Hr. unfold msm_GH_blind. destruct (generators_mapR N (proj2 N_range)) as [-> ->]. rewrite !Ok_bind.
  rewrite !take_ge by (rewrite ?(holds_length _ _ _ Ha), ?(holds_length _ _ _ Hb); lia).
  destruct (prover_msm_is (a ++ b ++ [blind]) ((gen_G <$> zseq 0 N) ++ (gen_H <$> zseq 0 N) ++ [pedersen_B_blinding])
    (tab N f ++ tab N g ++ [r]) (tab N gz ++ tab N hz ++ [hb])) as (c & E & Hc); [by apply app3|by apply app3| |].
  - rewrite !length_app, (holds_length _ _ _ Ha), (holds_length _ _ _ Hb), !length_fmap, !length_zseq. cbn [length]. reflexivity.
  - exists c. split; [exact E|]. rewrite dot_app3, !dot_tab in Hc by (by rewrite !length_tab). exact Hc.
Qed.

Lemma msm_G_is a blind f r : holds N a f → sc_is blind r →
  ∃ c, msm_G_blind a blind N = Ok c ∧ dlog c (sumf N (λ i, f i * gz i) + r * hb).
Proof.
  intros Ha Hr. unfold msm_G_blind. destruct (generators_mapR N (proj2 N_range)) as [-> _]. rewrite !Ok_bind.
  rewrite !take_ge by (rewrite (holds_length _ _ _ Ha); lia).
  destruct (prover_msm_is (a ++ [blind]) ((gen_G <$> zseq 0 N) ++ [pedersen_B_blinding]) (tab N f ++ [r]) (tab N gz ++ [hb])) as (c & E & Hc).
  - apply Forall2_app; [exact Ha|]. apply List.Forall2_cons; [exact Hr|apply List.Forall2_nil].
  - apply Forall2_app; [exact HG|]. apply List.Forall2_cons; [exact HB|apply List.Forall2_nil].
  - rewrite !length_app, (holds_length _ _ _ Ha), !length_fmap, !length_zseq. cbn [length]. reflexivity.
  - exists c. split; [exact E|]. rewrite dot_app, dot_one, !dot_tab in Hc by (by rewrite !length_tab). exact Hc.
Qed.

Lemma H_prime_is ys yf : holds N ys yf →
  ∃ cs, mapR (λ i, rist_scalarmul (nth i (gen_H <$> zseq 0 N) []) (sat ys i)) (seq 0 N) = Ok cs ∧ Forall2 dlog cs (tab N (λ i, yf i * hz i)).
Proof.
  intros Hy. apply mapR_tab. intros i Hi. pose proof (holds_sat _ _ _ _ Hy Hi) as Hs.
  assert (Hn : dlog (nth i (gen_H <$> zseq 0 N) []) (hz i)).
  { destruct (lookup_lt_is_Some_2 (tab N hz) i) as [x Hx]; [by rewrite length_tab|].
    destruct (Forall2_lookup_r _ _ _ _ _ HH Hx) as (p & Hp & Hd). rewrite (nth_lookup_Some _ _ _ _ Hp).
    rewrite <- (nth_tab N hz i 0 Hi), (nth_lookup_Some _ _ _ _ Hx). exact Hd. }
  destruct (dlog_scalarmul _ (sat ys i) _ Hn (sc_is_ok _ _ Hs)) as (c & E & Hc). exists c. split; [exact E|].
  eapply dlog_proper; [|exact Hc]. destruct Hs as [_ Es]. by rewrite Es.
Qed.

(** The opening at the challenge [x]. *)
Lemma open_proof_is t xc t1 x l1 l2 l3 r0 r1 r3 ys f1 f2 f3 g0 g1 g3 yf wv tau1 tau3 tau4 tau5 tau6 alpha beta rho vw v1 v3 v4 v5 v6 va vb vr :
  challenge_scalar t "x" = (xc, t1) → Transcript.ops t = W → sc_is xc x →
  holds N l1 f1 → holds N l2 f2 → holds N l3 f3 → holds N r0 g0 → holds N r1 g1 → holds N r3 g3 → holds N ys yf →
  sc_is wv vw → sc_is tau1 v1 → sc_is tau3 v3 → sc_is tau4 v4 → sc_is tau5 v5 → sc_is tau6 v6 → sc_is alpha va → sc_is beta vb → sc_is rho vr →
  let lf i := f1 i * x + f2 i * (x * x) + f3 i * (x * x * x) in
  let rf i := g0 i + g1 i * x + g3 i * (x * x * x) in
  ∃ tx tau e proof t' w t2, open_proof W t N l1 l2 l3 r0 r1 r3 ys wv tau1 tau3 tau4 tau5 tau6 alpha beta rho = Ok (tx, tau, e, proof, t') ∧
    sc_is tx (sumf N (λ i, lf i * rf i)) ∧
    sc_is tau (v1 * x - vw * (x * x) + v3 * (x * x * x) + v4 * (x * x * x * x) + v5 * (x * x * x * x * x) + v6 * (x * x * x * x * x * x)) ∧
    sc_is e (x * va + x * x * vb + x * x * x * vr) ∧
    challenge_scalar (append_opening t1 tx tau e) "w" = (w, t2) ∧ sc_canon w ∧ Transcript.ops t2 = W ∧
    ipp_honest (sc_val w) (tab N lf) (tab N rf) (tab N gz) (tab N (λ i, yf i * hz i)) k t2 proof t'.
Proof.
  intros EX Ht Hx H1 H2 H3 G0 G1 G3 Hy Hw T1 T3 T4 T5 T6 HA HBe HR lf rf.
  pose proof (challenge_ops_eq _ _ _ _ EX) as Ht1. rewrite Ht in Ht1.
  pose proof (is_W_mul _ _ _ _ Hx Hx) as X2. pose proof (is_W_mul _ _ _ _ X2 Hx) as X3. pose proof (is_W_mul _ _ _ _ X3 Hx) as X4.
  pose proof (is_W_mul _ _ _ _ X4 Hx) as X5. pose proof (is_W_mul _ _ _ _ X5 Hx) as X6.
  unfold open_proof. rewrite EX. unfold x_powers. cbv beta iota zeta.
  set (x2 := so_mul W xc xc) in *. set (x3 := so_mul W x2 xc) in *. set (x4 := so_mul W x3 xc) in *. set (x5 := so_mul W x4 xc) in *. set (x6 := so_mul W x5 xc) in *.
  set (le := tab N (λ i, sc_add (sc_add (so_mul W (sat l1 i) xc) (so_mul W (sat l2 i) x2)) (so_mul W (sat l3 i) x3))).
  set (re := tab N (λ i, sc_add (sc_add (sat r0 i) (so_mul W (sat r1 i) xc)) (so_mul W (sat r3 i) x3))).
  assert (Hl : holds N le lf).
  { apply holds_tab. intros i Hi. apply is_sc_add; [apply is_sc_add|]; apply is_W_mul; try assumption; by apply (holds_sat N). }
  assert (Hr : holds N re rf).
  { apply holds_tab. intros i Hi. apply is_sc_add; [apply is_sc_add; [by apply (holds_sat N)|]|]; apply is_W_mul; try assumption; by apply (holds_sat N). }
  rewrite (inner_product_holds _ _ _ _ _ Hl Hr), Ok_bind.
  pose proof (holds_sum _ _ _ _ _ Hl Hr) as Htx. set (tx := mul_sum W le re) in *.
  set (tau := sc_add (sc_add (sc_add (sc_add (sc_sub (so_mul W tau1 xc) (so_mul W wv x2)) (so_mul W tau3 x3)) (so_mul W tau4 x4)) (so_mul W tau5 x5)) (so_mul W tau6 x6)).
  set (e := sc_add (sc_add (so_mul W xc alpha) (so_mul W x2 beta)) (so_mul W x3 rho)).
  assert (Htau : sc_is tau (v1 * x - vw * (x * x) + v3 * (x * x * x) + v4 * (x * x * x * x) + v5 * (x * x * x * x * x) + v6 * (x * x * x * x * x * x))).
  { unfold tau. repeat apply is_sc_add; [apply is_sc_sub|..]; apply is_W_mul; assumption. }
  assert (He : sc_is e (x * va + x * x * vb + x * x * x * vr)) by (unfold e; repeat apply is_sc_add; apply is_W_mul; assumption).
  destruct (challenge_scalar (append_opening t1 tx tau e) "w") as [w t2] eqn:EW.
  pose proof (challenge_canon_eq _ _ _ _ EW Ht1) as Cw. pose proof (challenge_ops_eq _ _ _ _ EW) as Ht2. change (Transcript.ops t2 = Transcript.ops t1) in Ht2. rewrite Ht1 in Ht2.
  destruct (dlog_scalarmul _ w _ dlog_B (proj1 Cw)) as (Q & EQ & HQ). rewrite Z.mul_1_r in HQ. rewrite EQ, Ok_bind.
  pose proof N_range as HN. destruct (generators_vec_eq (Z.of_nat N) ltac:(lia)) as (_ & -> & ->). rewrite !Ok_bind, Nat2Z.id.
  destruct (H_prime_is ys yf Hy) as (Hp & -> & HHp). rewrite Ok_bind.
  assert (LGH : length (gen_G <$> zseq 0 N) = N) by (rewrite length_fmap; apply length_zseq).
  rewrite (ipp_prove_loop t2 Q le re _ Hp k Hk) by (rewrite ?(holds_length _ _ _ Hl), ?(holds_length _ _ _ Hr), ?(Forall2_length _ _ _ HHp), ?length_tab; assumption || reflexivity).
  destruct (ipp_loop_log k t2 Q (sc_val w) le re _ Hp (tab N lf) (tab N rf) (tab N gz) (tab N (λ i, yf i * hz i)) Ht2 HQ Hl Hr HG HHp)
    as (proof & t' & -> & Hh); [by rewrite length_tab..|]. rewrite Ok_bind.
  exists tx, tau, e, proof, t', w, t2. split; [reflexivity|]. split; [exact Htx|]. split; [exact Htau|]. split; [exact He|]. split; [exact EW|].
  split; [exact Cw|]. split; [exact Ht2|]. exact Hh.
Qed.
End Prover.

(** ** The two points of the verifier, in logarithms *)

Lemma foldl_sum_is (F : nat → Scalar) f l r z : (∀ i, i ∈ l → sc_is (F i) (f i)) → sc_is r z →
  sc_is (foldl (λ d i, sc_add d (F i)) r l) (z + lsum l f).
Proof.
  revert r z. induction l as [|i l IH]; intros r z HF Hr; [unfold lsum; cbn; by rewrite Z.add_0_r|]. cbn [foldl]. rewrite lsum_cons, Z.add_assoc.
  apply IH; [intros j Hj; apply HF; by constructor|]. apply is_sc_add; [exact Hr|]. apply HF. by constructor.
Qed.

Lemma delta_is N ys r l yf wr wl : holds N ys yf → holds N r wr → holds N l wl →
  sc_is (foldl (λ d i, sc_add d (so_mul W (so_mul W (sat ys i) (sat r i)) (sat l i))) sc_zero (seq 0 N)) (sumf N (λ i, yf i * wr i * wl i)).
Proof.
  intros Hy Hr Hl. apply (foldl_sum_is (λ i, so_mul W (so_mul W (sat ys i) (sat r i)) (sat l i)) (λ i, yf i * wr i * wl i) (seq 0 N) sc_zero 0); [|exact is_zero_scalar].
  intros i Hi%elem_of_seq. apply is_W_mul; [apply is_W_mul|]; apply (holds_sat N); try assumption; lia.
Qed.

Lemma Forall2_five {A B} (R : A → B → Prop) a b c d e x y z w v : R a x → R b y → R c z → R d w → R e v → Forall2 R [a; b; c; d; e] [x; y; z; w; v].
Proof. intros. do 5 (apply List.Forall2_cons; [assumption|]). apply List.Forall2_nil. Qed.

Lemma dot_five a b c d e x y z w v : dot [a; b; c; d; e] [x; y; z; w; v] = a * x + b * y + c * z + d * w + e * v.
Proof. rewrite !dot_cons. unfold dot, zsums. cbn. ring. Qed.

Lemma T_rhs_is xc x delta d w m wv c0 proof vl a1 a3 a4 a5 a6 : sc_is xc x → sc_is delta d → sc_is (wc w) c0 → holds m (wV w) wv →
  Forall2 dlog (r1_V proof) (tab m vl) → dlog (T_1 proof) a1 → dlog (T_3 proof) a3 → dlog (T_4 proof) a4 → dlog (T_5 proof) a5 → dlog (T_6 proof) a6 →
  ∃ c, T_rhs W xc delta w proof = Ok c ∧
    dlog c (x * x * (d - c0) - x * x * sumf m (λ j, wv j * vl j) + x * a1 + x * x * x * a3 + x * x * x * x * a4 + x * x * x * x * x * a5 + x * x * x * x * x * x * a6).
Proof.
  intros Hx Hd Hc HV HVl H1 H3 H4 H5 H6.
  pose proof (is_W_mul _ _ _ _ Hx Hx) as X2. pose proof (is_W_mul _ _ _ _ X2 Hx) as X3. pose proof (is_W_mul _ _ _ _ X3 Hx) as X4.
  pose proof (is_W_mul _ _ _ _ X4 Hx) as X5. pose proof (is_W_mul _ _ _ _ X5 Hx) as X6. unfold T_rhs, x_powers. cbv beta iota zeta.
  destruct (multi_scalar_mul_is
     ([so_mul W (so_mul W xc xc) (sc_sub delta (wc w))] ++ ((λ v, sc_neg (so_mul W (so_mul W xc xc) v)) <$> wV w) ++
      [xc; so_mul W (so_mul W xc xc) xc; so_mul W (so_mul W (so_mul W xc xc) xc) xc; so_mul W (so_mul W (so_mul W (so_mul W xc xc) xc) xc) xc;
       so_mul W (so_mul W (so_mul W (so_mul W (so_mul W xc xc) xc) xc) xc) xc])
     ([pedersen_B] ++ r1_V proof ++ [T_1 proof; T_3 proof; T_4 proof; T_5 proof; T_6 proof])
     ([x * x * (d - c0)] ++ tab m (λ j, - (x * x * wv j)) ++ [x; x * x * x; x * x * x * x; x * x * x * x * x; x * x * x * x * x * x])
     ([1] ++ tab m vl ++ [a1; a3; a4; a5; a6])) as (c & E & Hcl).
  - apply is_vec_app; [constructor; [|constructor]; apply is_W_mul; [exact X2|by apply is_sc_sub]|]. apply is_vec_app; [|exact (Forall2_five sc_is _ _ _ _ _ _ _ _ _ _ Hx X3 X4 X5 X6)].
    unfold holds, tab in HV |- *. rewrite (list_fmap_compose wv (λ a, - (x * x * a))). apply is_vec_map; [|exact HV].
    intros a b Hab. apply is_sc_neg. exact (is_W_mul _ _ _ _ X2 Hab).
  - apply Forall2_app; [apply List.Forall2_cons; [exact dlog_B|apply List.Forall2_nil]|]. apply Forall2_app; [exact HVl|]. exact (Forall2_five dlog _ _ _ _ _ _ _ _ _ _ H1 H3 H4 H5 H6).
  - rewrite !length_app, length_fmap, (holds_length _ _ _ HV), (Forall2_length _ _ _ HVl), length_tab. cbn [length]. reflexivity.
  - exists c. split; [exact E|]. eapply dlog_proper; [|exact Hcl]. apply cong_eq.
    rewrite (dot_app [x * x * (d - c0)] _ [1] _ eq_refl), dot_app, dot_one, dot_tab, dot_five by (by rewrite !length_tab).
    assert (ES : sumf m (λ i, - (x * x * wv i) * vl i) = - (x * x) * sumf m (λ j, wv j * vl j)).
    { rewrite sumf_scale. unfold sumf. apply lsum_ext. intros j _. ring. }
    rewrite ES. ring.
Qed.

Lemma P_point_is k gz hz hb : (k ≤ 20)%nat → let N := Nat.pow 2 k in
  Forall2 dlog (gen_G <$> zseq 0 N) (tab N gz) → Forall2 dlog (gen_H <$> zseq 0 N) (tab N hz) → dlog pedersen_B_blinding hb →
  ∀ xc x w_ch wv w ys yi wl wr wo proof ai ao as_ ev tv, sc_is xc x → sc_is w_ch wv → holds N (wL w) wl → holds N (wR w) wr → holds N (wO w) wo →
  holds N ys yi → dlog (A_I1 proof) ai → dlog (A_O1 proof) ao → dlog (r1_S1 proof) as_ → sc_is (e_blinding proof) ev → sc_is (t_x proof) tv →
  ∃ c, P_point W xc w_ch w ys N proof = Ok c ∧
    dlog c (sumf N (λ i, x * (yi i * wr i) * gz i) + sumf N (λ i, (yi i * (wo i + wl i * x) - 1) * hz i) +
            (x * ai + x * x * ao + x * x * x * as_) - ev * hb + tv * wv).
Proof.
  intros Hk N HG HH HB xc x w_ch wv w ys yi wl wr wo proof ai ao as_ ev tv Hx Hw Hl Hr Ho Hy HI HO HS He Ht.
  pose proof (is_W_mul _ _ _ _ Hx Hx) as X2. pose proof (is_W_mul _ _ _ _ X2 Hx) as X3.
  unfold P_point, x_powers. cbv beta iota zeta. destruct (generators_mapR N (proj2 (N_range k Hk))) as [-> ->]. rewrite !Ok_bind.
  set (s1 := tab N (λ i, so_mul W xc (so_mul W (sat ys i) (sat (wR w) i)))).
  set (s2 := tab N (λ i, sc_sub (so_mul W (sat ys i) (sc_add (sat (wO w) i) (so_mul W (sat (wL w) i) xc))) (mkScalar [1; 0; 0; 0]))).
  assert (H1 : holds N s1 (λ i, x * (yi i * wr i))).
  { apply holds_tab. intros i Hi. apply is_W_mul; [exact Hx|]. apply is_W_mul; by apply (holds_sat N). }
  assert (H2 : holds N s2 (λ i, yi i * (wo i + wl i * x) - 1)).
  { apply holds_tab. intros i Hi. apply is_sc_sub; [|exact is_one_scalar]. apply is_W_mul; [by apply (holds_sat N)|]. apply is_sc_add; [by apply (holds_sat N)|].
    apply is_W_mul; [by apply (holds_sat N)|exact Hx]. }
  destruct (multi_scalar_mul_is (s1 ++ s2 ++ [xc; so_mul W xc xc; so_mul W (so_mul W xc xc) xc; sc_neg (e_blinding proof); so_mul W (t_x proof) w_ch])
     ((gen_G <$> zseq 0 N) ++ (gen_H <$> zseq 0 N) ++ [A_I1 proof; A_O1 proof; r1_S1 proof; pedersen_B_blinding; pedersen_B])
     (tab N (λ i, x * (yi i * wr i)) ++ tab N (λ i, yi i * (wo i + wl i * x) - 1) ++ [x; x * x; x * x * x; - ev; tv * wv])
     (tab N gz ++ tab N hz ++ [ai; ao; as_; hb; 1])) as (c & E & Hc).
  - apply is_vec_app; [exact H1|]. apply is_vec_app; [exact H2|]. exact (Forall2_five sc_is _ _ _ _ _ _ _ _ _ _ Hx X2 X3 (is_sc_neg _ _ He) (is_W_mul _ _ _ _ Ht Hw)).
  - apply Forall2_app; [exact HG|]. apply Forall2_app; [exact HH|]. exact (Forall2_five dlog _ _ _ _ _ _ _ _ _ _ HI HO HS HB dlog_B).
  - rewrite !length_app, (holds_length _ _ _ H1), (holds_length _ _ _ H2), !length_fmap, !length_zseq. cbn [length]. reflexivity.
  - exists c. split; [exact E|]. eapply dlog_proper; [|exact Hc]. apply cong_eq.
    rewrite !dot_app, !dot_tab, dot_five by (by rewrite !length_tab). ring.
Qed.

(** ** A prover that holds a solution *)

Definition gate_ok (g : Gate) : Prop :=
  sc_canon (a_L g) ∧ sc_canon (a_R g) ∧ sc_canon (a_O g) ∧ cong scL (sc_val (a_O g)) (sc_val (a_L g) * sc_val (a_R g)).

Definition committed_ok (c : CommittedVar) : Prop := sc_canon (value c) ∧ sc_canon (blinding c).

(** The value of a wire and of a commitment, zero past the end. *)
Definition wire (f : Gate → Scalar) (p : R1CSProver) (i : nat) : Z := sc_val (sat (f <$> gates_ p) i).
Definition commitment (f : CommittedVar → Scalar) (p : R1CSProver) (j : nat) : Z := sc_val (sat (f <$> committed_ p) j).

(** The value of a linear combination under the values that the prover holds. *)
Definition lc_at (p : R1CSProver) (l : LinearCombination) : Z :=
  lc_val (wire a_L p) (wire a_R p) (wire a_O p) (commitment value p) l.

Definition constraint_ok (p : R1CSProver) (c : Constraint) : Prop :=
  Forall (term_ok (Z.of_nat (length (gates_ p))) (Z.of_nat (length (committed_ p)))) (lc c).

(** A prover of the rule [ScalarRule::Wide] that holds its values: canonical
    values, gates that multiply, variables in range.  Under [ScalarRule::Prior], the
    default of the code, products of canonical scalars may be wrong
    ([scalar_rule_prior]), so that gates need not multiply. *)
Definition prover_ok (p : R1CSProver) : Prop :=
  values_ p = true ∧ prover_ops p = scalar_ops Wide ∧ Forall gate_ok (gates_ p) ∧ Forall committed_ok (committed_ p) ∧
  Forall (constraint_ok p) (constraints_ p).

Definition satisfied (p : R1CSProver) : Prop := Forall (λ c, cong scL (lc_at p (lc c)) 0) (constraints_ p).

Definition within (p : R1CSProver) (profile : R1CSLimitProfile) : Prop :=
  Z.of_nat (length (gates_ p)) ≤ R1CS_MAX_GATES ∧ Z.of_nat (length (committed_ p)) ≤ R1CS_MAX_COMMITTED ∧
  Z.of_nat (length (constraints_ p)) ≤ r1cs_constraint_limit profile ∧ constraint_terms p ≤ R1CS_MAX_TERMS.

(** What the verifier knows of the system. *)
Definition system_of (p : R1CSProver) : ConstraintSystem :=
  mkSystem (Z.of_nat (num_gates p)) (Z.of_nat (num_committed p)) (constraints_ p).

(** The challenge [y], or one of the argument, is zero. *)
Definition zero_challenge (t : Transcript) (cs : ConstraintSystem) (proof : R1CSProof) : Prop :=
  ∃ N y z x w t', padded_gates_checked cs = Some N ∧
    r1cs_challenges t N (cs_committed cs) (Z.of_nat (length (constraints cs))) proof = (y, z, x, w, t') ∧
    (sc_val y = 0 ∨ Exists (λ u, sc_val u = 0) (ipp_challenges t' (ipp_L (ipp proof)) (ipp_R (ipp proof))).1).

Lemma terms_loop_ok cs count n k : terms_loop cs count ≤ R1CS_MAX_TERMS → Forall (λ c, Forall (term_ok n k) (lc c)) cs →
  constraints_ok cs n k count = true.
Proof.
  intros Hl H. revert count Hl. induction H as [|c cs Hc _ IH]; intros count Hl; [reflexivity|]. cbn [constraints_ok terms_loop] in *.
  destruct (R1CS_MAX_TERMS - count <? Z.of_nat (length (lc c))); [lia|]. rewrite IH by exact Hl. rewrite andb_true_r.
  apply forallb_forall. intros term Ht%list_elem_of_In. rewrite Forall_forall in Hc. apply (Hc term Ht).
Qed.

Lemma padded_size p : Z.of_nat (length (gates_ p)) ≤ R1CS_MAX_GATES → ∃ k, (k ≤ 20)%nat ∧ (length (gates_ p) ≤ Nat.pow 2 k)%nat ∧
  next_power_of_2 (if 0 <? Z.of_nat (length (gates_ p)) then Z.of_nat (length (gates_ p)) else 1) = Ok (Z.of_nat (Nat.pow 2 k)).
Proof.
  intros Hn. set (n := if 0 <? _ then _ else _). assert (Hn' : 0 < n ≤ BP_MAX_VECTOR_SIZE ∧ Z.of_nat (length (gates_ p)) ≤ n).
  { unfold n. change R1CS_MAX_GATES with BP_MAX_VECTOR_SIZE in Hn. assert (1 ≤ BP_MAX_VECTOR_SIZE) by (unfold BP_MAX_VECTOR_SIZE; lia).
    destruct (Z.ltb_spec 0 (Z.of_nat (length (gates_ p)))); lia. }
  destruct (next_power_spec n (proj1 Hn')) as (j & Hj & E & Hr). exists (Z.to_nat j).
  assert (EP : Z.of_nat (Nat.pow 2 (Z.to_nat j)) = 2 ^ j) by (rewrite Nat2Z.inj_pow, Z2Nat.id by lia; reflexivity).
  split; [lia|]. split; [lia|]. by rewrite EP.
Qed.

Lemma system_checked p profile k : prover_ok p → within p profile → (k ≤ 20)%nat →
  next_power_of_2 (if 0 <? Z.of_nat (length (gates_ p)) then Z.of_nat (length (gates_ p)) else 1) = Ok (Z.of_nat (Nat.pow 2 k)) →
  padded_gates_checked (system_of p) = Some (Z.of_nat (Nat.pow 2 k)) ∧ r1cs_system_ok (system_of p) (Z.of_nat (Nat.pow 2 k)) profile = true.
Proof.
  intros (HV & _ & _ & _ & HC) (W1 & W2 & W3 & W4) Hk E. destruct (pow_le_20 k Hk) as (EP & HB & _).
  assert (En : cs_gates (system_of p) = Z.of_nat (length (gates_ p))) by (cbn; unfold num_gates; by rewrite HV).
  assert (Em : cs_committed (system_of p) = Z.of_nat (length (committed_ p))) by (cbn; unfold num_committed; by rewrite HV).
  assert (H0 : 0 < Z.of_nat (Nat.pow 2 k)) by (rewrite EP; lia). change BP_MAX_VECTOR_SIZE with R1CS_MAX_GATES in HB.
  assert (HL : r1cs_constraint_limit profile ≠ 0) by (by destruct profile).
  split.
  - unfold padded_gates_checked, padded_gates. rewrite En, E, (proj2 (Z.ltb_ge _ _)), (proj2 (Z.eqb_neq _ _)), (proj2 (Z.leb_le _ _)) by lia. reflexivity.
  - unfold r1cs_system_ok. rewrite En, Em. cbv zeta. rewrite (proj2 (Z.eqb_neq _ _) HL), (proj2 (Z.eqb_neq _ _)) by lia.
    rewrite !(proj2 (Z.ltb_ge _ _)) by (try assumption; lia). cbn [orb]. apply terms_loop_ok; [exact W4|exact HC].
Qed.

Lemma satisfied_ok p : prover_ok p → satisfied p →
  Forall (λ c, Forall (term_ok (Z.of_nat (length (gates_ p))) (Z.of_nat (length (committed_ p)))) (lc c) ∧
     cong scL (lc_val (wire a_L p) (wire a_R p) (wire a_O p) (commitment value p) (lc c)) 0) (constraints_ p).
Proof. intros (_ & _ & _ & _ & HC) HS. apply Forall_and. split; [exact HC|exact HS]. Qed.

Lemma gates_product p i : Forall gate_ok (gates_ p) → cong scL (wire a_O p i) (wire a_L p i * wire a_R p i).
Proof.
  intros H. unfold wire, sat. destruct (Nat.lt_ge_cases i (length (gates_ p))) as [Hi|Hi].
  - destruct (lookup_lt_is_Some_2 _ _ Hi) as [g Hg]. rewrite Forall_forall in H.
    assert (Hf : ∀ f : Gate → Scalar, nth i (f <$> gates_ p) sc_zero = f g) by (intros f; apply nth_lookup_Some; by rewrite list_lookup_fmap, Hg).
    rewrite !Hf. apply (H g). by apply (list_elem_of_lookup_2 _ i).
  - rewrite !nth_overflow by (by rewrite length_fmap). reflexivity.
Qed.

Lemma gates_canon p (f : Gate → Scalar) : (∀ g, gate_ok g → sc_canon (f g)) → Forall gate_ok (gates_ p) → Forall sc_canon (f <$> gates_ p).
Proof. intros Hf H. apply Forall_fmap. eapply Forall_impl; [exact H|]. exact Hf. Qed.

Lemma commitments_log p hb : dlog pedersen_B_blinding hb → Forall committed_ok (committed_ p) →
  ∃ V, mapR (λ c, pedersen_commit (value c) (blinding c)) (committed_ p) = Ok V ∧
    Forall2 dlog V (tab (length (committed_ p)) (λ j, commitment value p j + commitment blinding p j * hb)).
Proof.
  intros Hh H. unfold commitment. generalize (committed_ p) as cs, H. clear H. intros cs H. 
  assert (K : ∀ l, Forall committed_ok l → ∃ V, mapR (λ c, pedersen_commit (value c) (blinding c)) l = Ok V ∧
     Forall2 dlog V ((λ c, sc_val (value c) + sc_val (blinding c) * hb) <$> l)).
  { intros l Hl. induction Hl as [|c l [Hv Hb] _ (V & E & HV)]; [exists []; split; [reflexivity|apply List.Forall2_nil]|].
    destruct (pedersen_is hb _ _ _ _ Hh (sc_is_val _ Hv) (sc_is_val _ Hb)) as (v & Ev & Hd). exists (v :: V). cbn [mapR].
    rewrite Ev, Ok_bind, E, Ok_bind. split; [reflexivity|]. apply List.Forall2_cons; [exact Hd|exact HV]. }
  destruct (K cs H) as (V & E & HV). exists V. split; [exact E|].
  assert (ET : tab (length cs) (λ j, sc_val (sat (value <$> cs) j) + sc_val (sat (blinding <$> cs) j) * hb) = (λ c, sc_val (value c) + sc_val (blinding c) * hb) <$> cs).
  { apply list_eq. intros i. unfold tab. rewrite !list_lookup_fmap. destruct (Nat.lt_ge_cases i (length cs)) as [Hi|Hi].
    - destruct (lookup_lt_is_Some_2 _ _ Hi) as [c Hc]. rewrite lookup_seq_lt, Hc by done. cbn.
      assert (Hf : ∀ f : CommittedVar → Scalar, sat (f <$> cs) i = f c) by (intros f; apply nth_lookup_Some; by rewrite list_lookup_fmap, Hc).
      by rewrite !Hf.
    - rewrite lookup_seq_ge, lookup_ge_None_2 by done. reflexivity. }
  rewrite ET. exact HV.
Qed.

(** ** The honest proof *)

(** The verifier, step by step. *)
Lemma guard_true {A} (g : bool) (a r : A) : g = true → (if negb g then a else r) = r.
Proof. by intros ->. Qed.

Lemma r1cs_verify_eq t cs proof profile N y z xc w t2 o size ys agg delta lhs Q P : padded_gates_checked cs = Some N → r1cs_system_ok cs N profile = true →
  (Z.of_nat (length (r1_V proof)) =? cs_committed cs) = true → r1cs_points_valid proof = true →
  r1cs_challenges t N (cs_committed cs) (Z.of_nat (length (constraints cs))) proof = (y, z, xc, w, t2) →
  o = Transcript.ops t → size = Z.to_nat N → ys = powers o (so_inv o y) size →
  agg = z_aggregate o (constraints cs) z size (Z.to_nat (cs_committed cs)) →
  delta = foldl (λ d i, sc_add d (so_mul o (so_mul o (sat ys i) (sat (wR agg) i)) (sat (wL agg) i))) sc_zero (seq 0 size) →
  pedersen_commit (t_x proof) (t_x_blinding proof) = Ok lhs →
  T_rhs o xc delta agg proof = Ok lhs →
  rist_scalarmul pedersen_B w = Ok Q → generators.precompute N = Ok tt → P_point o xc w agg ys size proof = Ok P →
  r1cs_verify t cs proof profile = ipp_verify_with_y t2 P Q (ipp proof) N ys.
Proof.
  intros E1 E2 E3 E4 E5 -> -> -> -> -> E6 E7 E8 E9 E10. unfold r1cs_verify. rewrite E1. rewrite (guard_true _ _ _ E2), (guard_true _ _ _ E3), (guard_true _ _ _ E4).
  rewrite E5, E6, Ok_bind, E7, Ok_bind.
  rewrite (guard_true _ _ _ (bool_decide_true _ eq_refl)), E8, Ok_bind, E9, Ok_bind, E10, Ok_bind. reflexivity.
Qed.

Section Honest.
Context (k : nat) (Hk : (k ≤ 20)%nat) (gz hz : nat → Z) (hb : Z).
Let N := Nat.pow 2 k.
Context (HG : Forall2 dlog (gen_G <$> zseq 0 N) (tab N gz)) (HH : Forall2 dlog (gen_H <$> zseq 0 N) (tab N hz)).
Context (HB : dlog pedersen_B_blinding hb).
Context (p : R1CSProver) (t : Transcript).
Let m := length (committed_ p).

(** The weights as residues; they vanish on the prover's values. *)
Definition weights_are (w : Weights) (wl wr wo wv : nat → Z) (c0 : Z) : Prop :=
  holds N (wL w) wl ∧ holds N (wR w) wr ∧ holds N (wO w) wo ∧ holds m (wV w) wv ∧ sc_is (wc w) c0 ∧
  cong scL (sumf N (λ i, wl i * wire a_L p i) + sumf N (λ i, wr i * wire a_R p i) + sumf N (λ i, wo i * wire a_O p i) +
            sumf m (λ j, wv j * commitment value p j) + c0) 0.

(** The values behind each part of a proof of the challenges [y], [x] and [w]. *)
Definition honest_values (proof : R1CSProof) (y x w : Z) (sl sr wl wr wo wv : nat → Z) (va vb vr : Z) (v : Z * Z * Z * Z * Z) (t2 t' : Transcript) : Prop :=
  let al := wire a_L p in let ar := wire a_R p in let ao := wire a_O p in
  let yp i := y ^ Z.of_nat i in let yi i := zinv y ^ Z.of_nat i in
  let l1 := l1_ al wr yi in let r0 := r0_ wo yp in let r1 := r1_ ar wl yp in let r3 := r3_ sr yp in
  let '(v1, v3, v4, v5, v6) := v in
  (Forall2 dlog (r1_V proof) (tab m (λ j, commitment value p j + commitment blinding p j * hb)) ∧
   dlog (A_I1 proof) (sumf N (λ i, al i * gz i) + sumf N (λ i, ar i * hz i) + va * hb) ∧
   dlog (A_O1 proof) (sumf N (λ i, ao i * gz i) + vb * hb) ∧
   dlog (r1_S1 proof) (sumf N (λ i, sl i * gz i) + sumf N (λ i, sr i * hz i) + vr * hb)) ∧
  (dlog (T_1 proof) (sumf N (λ i, l1 i * r0 i) + v1 * hb) ∧
   dlog (T_3 proof) (sumf N (λ i, ao i * r1 i) + sumf N (λ i, sl i * r0 i) + v3 * hb) ∧
   dlog (T_4 proof) (sumf N (λ i, l1 i * r3 i) + sumf N (λ i, sl i * r1 i) + v4 * hb) ∧
   dlog (T_5 proof) (sumf N (λ i, ao i * r3 i) + v5 * hb) ∧
   dlog (T_6 proof) (sumf N (λ i, sl i * r3 i) + v6 * hb)) ∧
  let lf := lev al ao sl wr yi x in let rf := rev_ ar sr wl wo yp x in
  sc_is (t_x proof) (sumf N (λ i, lf i * rf i)) ∧
  sc_is (t_x_blinding proof) (v1 * x - sumf m (λ j, wv j * commitment blinding p j) * (x * x) + v3 * (x * x * x) + v4 * (x * x * x * x) +
                              v5 * (x * x * x * x * x) + v6 * (x * x * x * x * x * x)) ∧
  sc_is (e_blinding proof) (x * va + x * x * vb + x * x * x * vr) ∧
  ipp_honest w (tab N lf) (tab N rf) (tab N gz) (tab N (λ i, yi i * hz i)) k t2 (ipp proof) t'.

Definition honest_proof (proof : R1CSProof) (t' : Transcript) : Prop :=
  ∃ y z xc w t2 sl sr wl wr wo wv c0 va vb vr v,
    r1cs_challenges t (Z.of_nat N) (Z.of_nat m) (Z.of_nat (length (constraints_ p))) proof = (y, z, xc, w, t2) ∧
    sc_canon y ∧ sc_canon xc ∧ sc_canon w ∧ Transcript.ops t2 = W ∧
    weights_are (z_aggregate W (constraints_ p) z N m) wl wr wo wv c0 ∧
    honest_values proof (sc_val y) (sc_val xc) (sc_val w) sl sr wl wr wo wv va vb vr v t2 t'.

Lemma pos_inverse y i : nonzero y → cong scL (y ^ Z.of_nat i * zinv y ^ Z.of_nat i) 1.
Proof.
  intros Hy. rewrite <- Z.pow_mul_l. transitivity (1 ^ Z.of_nat i); [apply cong_pow; [lia|]; by apply zinv_r|]. by rewrite Z.pow_1_l by lia.
Qed.

(** The verifier accepts it. *)
Lemma honest_accepted profile proof t' : prover_ok p → within p profile → Transcript.ops t = W →
  next_power_of_2 (if 0 <? Z.of_nat (length (gates_ p)) then Z.of_nat (length (gates_ p)) else 1) = Ok (Z.of_nat N) →
  honest_proof proof t' →
  r1cs_verify t (system_of p) proof profile = Ok (true, t') ∨ zero_challenge t (system_of p) proof.
Proof.
  intros HP HW Ht EN (y & z & xc & w & t2 & sl & sr & wl & wr & wo & wv & c0 & va & vb & vr & [[[[v1 v3] v4] v5] v6] & EC & Cy & Cx & Cw & Ht2 &
    (HwL & HwR & HwO & HwV & Hwc & Hzero) & (HV & HAI & HAO & HS) & (HT1 & HT3 & HT4 & HT5 & HT6) & Htx & Htau & He & Hipp).
  destruct (system_checked p profile k HP HW Hk EN) as [EP ES]. fold N in EP, ES.
  assert (Em : cs_committed (system_of p) = Z.of_nat m) by (cbn; unfold num_committed; by rewrite (proj1 HP)).
  destruct (decide (sc_val y = 0)) as [Y0|Y0].
  { right. exists (Z.of_nat N), y, z, xc, w, t2. rewrite Em. split; [exact EP|]. split; [exact EC|by left]. }
  assert (Ny : nonzero (sc_val y)).
  { intros E. apply Y0. destruct Cy as [Oy Ly]. apply (cong_small scL); [exact E|split; [by apply sc_val_bound|done]|pose proof scL_pos; lia]. }
  pose proof (sc_is_val _ Cy) as Hy. pose proof (sc_is_val _ Cx) as Hx. pose proof (sc_is_val _ Cw) as Hw.
  set (x := sc_val xc) in *. set (yp := λ i, sc_val y ^ Z.of_nat i) in *. set (yi := λ i, zinv (sc_val y) ^ Z.of_nat i) in *.
  assert (Inv : ∀ i, (i < N)%nat → cong scL (yp i * yi i) 1) by (intros i _; by apply pos_inverse).
  assert (Gat : ∀ i, (i < N)%nat → cong scL (wire a_O p i) (wire a_L p i * wire a_R p i)) by (intros i _; apply gates_product; apply HP).
  pose proof (powers_hold N _ _ (is_W_inv _ _ Hy)) as Hys. set (ys := powers W (so_inv W y) N) in *. change (holds N ys yi) in Hys.
  pose proof (delta_is N ys _ _ yi wr wl Hys HwR HwL) as Hdelta.
  set (agg := z_aggregate W (constraints_ p) z N m) in *.
  set (delta := foldl _ sc_zero (seq 0 N)) in Hdelta.
  destruct (pedersen_is hb _ _ _ _ HB Htx Htau) as (lhs & EL & HL).
  destruct (T_rhs_is xc x delta _ agg m wv c0 proof _ _ _ _ _ _ Hx Hdelta Hwc HwV HV HT1 HT3 HT4 HT5 HT6) as (rhs & ER & HR).
  assert (Eq : lhs = rhs).
  { apply (dlog_eq _ _ _ _ HL HR).
    rewrite (value_identity N (wire a_L p) (wire a_R p) (wire a_O p) sl sr wl wr wo yp yi (sumf m (λ j, wv j * commitment value p j)) c0 x Gat Inv Hzero).
    assert (EV : sumf m (λ j, wv j * (commitment value p j + commitment blinding p j * hb)) =
      sumf m (λ j, wv j * commitment value p j) + hb * sumf m (λ j, wv j * commitment blinding p j)).
    { rewrite sumf_scale, sumf_add. unfold sumf. apply lsum_ext. intros j _. ring. }
    rewrite EV. unfold delta_. apply cong_eq. ring. }
  destruct (dlog_scalarmul _ w _ dlog_B (proj1 Cw)) as (Q & EQ & HQ). rewrite Z.mul_1_r in HQ.
  destruct (P_point_is k gz hz hb Hk HG HH HB xc x w (sc_val w) agg ys yi wl wr wo proof _ _ _ _ _ Hx Hw HwL HwR HwO Hys HAI HAO HS He Htx) as (P & EPt & HPt).
  change (Nat.pow 2 k) with N in EPt.
  set (lf := lev (wire a_L p) (wire a_O p) sl wr yi x) in *. set (rf := rev_ (wire a_R p) sr wl wo yp x) in *.
  match type of HPt with dlog _ ?e => assert (Ep : cong scL e
    (dot (tab N lf) (tab N gz) + dot (tab N rf) (tab N (λ i, yi i * hz i)) + dot (tab N lf) (tab N rf) * sc_val w)) end.
  { rewrite !dot_tab. etransitivity;
      [|apply cong_add; [exact (point_identity N (wire a_L p) (wire a_R p) (wire a_O p) sl sr wl wr wo yp yi gz hz x Inv)|reflexivity]].
    apply cong_eq. fold N. ring. }
  destruct (ipp_with_y_complete k N t2 t' P Q _ (sc_val w) _ _ _ hz ys (ipp proof) yi Hk eq_refl Ht2 HPt HQ HG HH Hys Ep Hipp) as [EI|EI].
  - left.
    assert (VP : r1cs_points_valid proof = true).
    { unfold r1cs_points_valid. rewrite (dlog_decodes _ _ HAI : rist_valid _ = true), (dlog_decodes _ _ HAO : rist_valid _ = true), (dlog_decodes _ _ HS : rist_valid _ = true),
        (dlog_decodes _ _ HT1 : rist_valid _ = true), (dlog_decodes _ _ HT3 : rist_valid _ = true), (dlog_decodes _ _ HT4 : rist_valid _ = true),
        (dlog_decodes _ _ HT5 : rist_valid _ = true), (dlog_decodes _ _ HT6 : rist_valid _ = true), (decodes_all _ _ HV).
      destruct Hipp as (us & uz & xL & xR & fa & fb & _ & _ & _ & HxL & HxR & NxL & NxR & _). unfold ipp_points_valid.
      rewrite (decodes_all _ _ HxL), (decodes_all _ _ HxR), (Forall2_length _ _ _ HxL), (Forall2_length _ _ _ HxR), NxL, NxR, Nat.eqb_refl. reflexivity. }
    rewrite <- EI. eapply (r1cs_verify_eq t (system_of p) proof profile (Z.of_nat N) y z xc w t2 W N ys agg delta lhs Q P EP ES).
    + rewrite (Forall2_length _ _ _ HV), length_tab, Em. apply Z.eqb_refl.
    + exact VP.
    + rewrite Em. exact EC.
    + symmetry. exact Ht.
    + symmetry. apply Nat2Z.id.
    + reflexivity.
    + rewrite Em, Nat2Z.id. reflexivity.
    + reflexivity.
    + exact EL.
    + rewrite Eq. exact ER.
    + exact EQ.
    + pose proof (N_range k Hk) as HNr. change (Nat.pow 2 k) with N in HNr. apply (generators_vec_eq (Z.of_nat N)). lia.
    + exact EPt.
  - right. exists (Z.of_nat N), y, z, xc, w, t2. rewrite Em. split; [exact EP|]. split; [exact EC|by right].
Qed.
End Honest.

Lemma committed_canon p (f : CommittedVar → Scalar) : (∀ c, committed_ok c → sc_canon (f c)) → Forall committed_ok (committed_ p) →
  Forall sc_canon (f <$> committed_ p).
Proof. intros Hf H. apply Forall_fmap. eapply Forall_impl; [exact H|]. exact Hf. Qed.

Lemma foldl_point_ops V t : Transcript.ops (foldl (λ t pt, append_point t "V" pt) t V) = Transcript.ops t.
Proof. revert t. induction V as [|v V IH]; intros t; [reflexivity|]. cbn [foldl]. rewrite IH. reflexivity. Qed.

#[local] Opaque challenge_scalar so_random.

Section Prove.
Context (k : nat) (Hk : (k ≤ 20)%nat) (gz hz : nat → Z) (hb : Z).
Let N := Nat.pow 2 k.
Context (HG : Forall2 dlog (gen_G <$> zseq 0 N) (tab N gz)) (HH : Forall2 dlog (gen_H <$> zseq 0 N) (tab N hz)).
Context (HB : dlog pedersen_B_blinding hb).
Context (p : R1CSProver) (HP : prover_ok p) (HS : satisfied p) (HN : (length (gates_ p) ≤ N)%nat).
Let m := length (committed_ p).

Lemma folded_weights z : sc_canon z → ∃ wl wr wo wv c0, weights_are k p (z_aggregate W (constraints_ p) z N m) wl wr wo wv c0.
Proof.
  intros Hz. exact (z_aggregate_zero N m (wire a_L p) (wire a_R p) (wire a_O p) (commitment value p) _ _ (constraints_ p) z Hz
    (proj1 (Nat2Z.inj_le _ _) HN) (Z.le_refl _) (satisfied_ok p HP HS)).
Qed.

Lemma prove_folded_honest t t0 y z aL aR aO sL sR alpha beta rho V AI AO S1 fsl fsr t1 : 
  Transcript.ops t = W → Transcript.ops t1 = W → sc_canon y → sc_canon z →
  holds N aL (wire a_L p) → holds N aR (wire a_R p) → holds N aO (wire a_O p) → holds N sL fsl → holds N sR fsr →
  sc_canon alpha → sc_canon beta → sc_canon rho →
  challenge_scalar (append_wires (append_header t (Z.of_nat N) (Z.of_nat m) (Z.of_nat (length (constraints_ p))) V) AI AO S1) "y" = (y, t0) →
  challenge_scalar t0 "z" = (z, t1) →
  Forall2 dlog V (tab m (λ j, commitment value p j + commitment blinding p j * hb)) →
  dlog AI (sumf N (λ i, wire a_L p i * gz i) + sumf N (λ i, wire a_R p i * hz i) + sc_val alpha * hb) →
  dlog AO (sumf N (λ i, wire a_O p i * gz i) + sc_val beta * hb) →
  dlog S1 (sumf N (λ i, fsl i * gz i) + sumf N (λ i, fsr i * hz i) + sc_val rho * hb) →
  tpost (prove_folded W p t1 N m y z aL aR aO sL sR alpha beta rho V AI AO S1) (λ r, honest_proof k gz hz hb p t r.1 r.2).
Proof.
  intros Ht Ht1 Cy Cz HaL HaR HaO HsL HsR Ca Cb Cr Ey Ez HV HAI HAO HS1.
  destruct (folded_weights z Cz) as (wl & wr & wo & wv & c0 & HW). pose proof HW as (HwL & HwR & HwO & HwV & Hwc & _).
  pose proof (sc_is_val _ Cy) as Hy. pose proof (powers_hold N _ _ Hy) as Hyp. pose proof (powers_hold N _ _ (is_W_inv _ _ Hy)) as Hyi.
  unfold prove_folded. cbv zeta. set (agg := z_aggregate W (constraints_ p) z N m) in *.
  set (yp := λ i, sc_val y ^ Z.of_nat i). set (yi := λ i, zinv (sc_val y) ^ Z.of_nat i).
  change (holds N (powers W y N) yp) in Hyp. change (holds N (powers W (so_inv W y) N) yi) in Hyi.
  set (yn := powers W y N) in *. set (yn' := powers W (so_inv W y) N) in *.
  set (l1 := tab N (λ i, sc_add (sat aL i) (so_mul W (sat yn' i) (sat (wR agg) i)))).
  set (r0 := tab N (λ i, sc_sub (sat (wO agg) i) (sat yn i))).
  set (r1 := tab N (λ i, sc_add (so_mul W (sat yn i) (sat aR i)) (sat (wL agg) i))).
  set (r3 := tab N (λ i, so_mul W (sat yn i) (sat sR i))).
  assert (Hl1 : holds N l1 (l1_ (wire a_L p) wr yi)).
  { apply holds_tab. intros i Hi. apply is_sc_add; [by apply (holds_sat N)|]. apply is_W_mul; by apply (holds_sat N). }
  assert (Hr0 : holds N r0 (r0_ wo yp)) by (apply holds_tab; intros i Hi; apply is_sc_sub; by apply (holds_sat N)).
  assert (Hr1 : holds N r1 (r1_ (wire a_R p) wl yp)).
  { apply holds_tab. intros i Hi. apply is_sc_add; [|by apply (holds_sat N)]. apply is_W_mul; by apply (holds_sat N). }
  assert (Hr3 : holds N r3 (r3_ fsr yp)) by (apply holds_tab; intros i Hi; apply is_W_mul; by apply (holds_sat N)).
  assert (IP : ∀ a b f g, holds N a f → holds N b g → ∃ c, inner_product a b W = Ok c ∧ sc_is c (sumf N (λ i, f i * g i))).
  { intros a b f g Ha Hb. exists (mul_sum W a b). split; [by apply (inner_product_holds N _ _ f g)|by apply holds_sum]. }
  eapply tpost_bind; [exact (tpost_lift _ _ (IP _ _ _ _ Hl1 Hr0))|]. intros s1 I1.
  eapply tpost_bind; [exact (tpost_lift _ _ (IP _ _ _ _ HaO Hr1))|]. intros s3a I3a.
  eapply tpost_bind; [exact (tpost_lift _ _ (IP _ _ _ _ HsL Hr0))|]. intros s3b I3b.
  eapply tpost_bind; [exact (tpost_lift _ _ (IP _ _ _ _ Hl1 Hr3))|]. intros s4a I4a.
  eapply tpost_bind; [exact (tpost_lift _ _ (IP _ _ _ _ HsL Hr1))|]. intros s4b I4b.
  eapply tpost_bind; [exact (tpost_lift _ _ (IP _ _ _ _ HaO Hr3))|]. intros s5 I5.
  eapply tpost_bind; [exact (tpost_lift _ _ (IP _ _ _ _ HsL Hr3))|]. intros s6 I6.
  eapply tpost_bind; [exact tpost_random|]. intros tau1 C1%sc_is_val.
  eapply tpost_bind; [exact tpost_random|]. intros tau3 C3%sc_is_val.
  eapply tpost_bind; [exact tpost_random|]. intros tau4 C4%sc_is_val.
  eapply tpost_bind; [exact tpost_random|]. intros tau5 C5%sc_is_val.
  eapply tpost_bind; [exact tpost_random|]. intros tau6 C6%sc_is_val.
  eapply tpost_bind; [apply tpost_lift; eapply (pedersen_is hb); [exact HB|exact I1|exact C1]|]. intros T1 D1.
  eapply tpost_bind; [apply tpost_lift; eapply (pedersen_is hb); [exact HB|exact (is_sc_add _ _ _ _ I3a I3b)|exact C3]|]. intros T3 D3.
  eapply tpost_bind; [apply tpost_lift; eapply (pedersen_is hb); [exact HB|exact (is_sc_add _ _ _ _ I4a I4b)|exact C4]|]. intros T4 D4.
  eapply tpost_bind; [apply tpost_lift; eapply (pedersen_is hb); [exact HB|exact I5|exact C5]|]. intros T5 D5.
  eapply tpost_bind; [apply tpost_lift; eapply (pedersen_is hb); [exact HB|exact I6|exact C6]|]. intros T6 D6.
  destruct (challenge_scalar (append_T t1 T1 T3 T4 T5 T6) "x") as [xc t2] eqn:EX.
  pose proof (challenge_canon_eq _ _ _ _ EX Ht1) as Cx.
  pose proof (holds_sum m _ _ _ _ HwV (holds_self m _ (committed_canon p blinding (λ c H, proj2 H) (proj1 (proj2 (proj2 (proj2 HP))))) (length_fmap _ _))) as Hwv.
  set (wvb := mul_sum W (wV agg) (blinding <$> committed_ p)) in *.
  destruct (open_proof_is k Hk gz hz HG HH (append_T t1 T1 T3 T4 T5 T6) xc t2 (sc_val xc) l1 aO sL r0 r1 r3 yn' _ _ _ _ _ _ yi wvb tau1 tau3 tau4 tau5 tau6
     alpha beta rho _ _ _ _ _ _ _ _ _ EX Ht1 (sc_is_val _ Cx) Hl1 HaO HsL Hr0 Hr1 Hr3 Hyi Hwv C1 C3 C4 C5 C6 (sc_is_val _ Ca) (sc_is_val _ Cb) (sc_is_val _ Cr))
    as (tx & tau & e & proof & t' & w & t3 & EO & Htx & Htau & He & EW & Cw & Ht3 & Hipp).
  eapply tpost_bind; [apply tpost_lift; eexists; split; [exact EO|exact eq_refl]|]. intros a Ea. rewrite <- Ea. apply tpost_ret. cbn [fst snd].
  exists y, z, xc, w, t3, fsl, fsr, wl, wr, wo, wv, c0, (sc_val alpha), (sc_val beta), (sc_val rho), (sc_val tau1, sc_val tau3, sc_val tau4, sc_val tau5, sc_val tau6).
  split.
  { unfold r1cs_challenges. cbn [r1_V A_I1 A_O1 r1_S1 T_1 T_3 T_4 T_5 T_6 t_x t_x_blinding e_blinding]. fold N. fold m. rewrite Ey, Ez, EX, EW. reflexivity. }
  split; [exact Cy|]. split; [exact Cx|]. split; [exact Cw|]. split; [exact Ht3|]. split; [exact HW|].
  split; [exact (conj HV (conj HAI (conj HAO HS1)))|]. split; [exact (conj D1 (conj D3 (conj D4 (conj D5 D6))))|].
  split; [exact Htx|]. split; [exact Htau|]. split; [exact He|]. exact Hipp.
Qed.

Lemma prove_honest profile t : within p profile → Transcript.ops t = W →
  next_power_of_2 (if 0 <? Z.of_nat (length (gates_ p)) then Z.of_nat (length (gates_ p)) else 1) = Ok (Z.of_nat N) →
  tpost (prove p t profile) (λ r, honest_proof k gz hz hb p t r.1 r.2).
Proof.
  intros (W1 & W2 & W3 & W4) Ht EN. pose proof HP as (HV & HO & HGa & HC & _). unfold prove. rewrite (guard_true _ _ _ HV), Ht, HO.
  rewrite (guard_true _ _ _ (bool_decide_true _ eq_refl)).
  assert (HL : (r1cs_constraint_limit profile =? 0) = false) by (by destruct profile).
  cbv zeta. rewrite HL, !(proj2 (Z.ltb_ge _ _)) by assumption. cbn [orb].
  eapply tpost_bind; [apply tpost_lift; eexists; split; [exact EN|exact eq_refl]|]. intros ? <-.
  unfold prove_sized. rewrite HO. cbv zeta. rewrite !Nat2Z.id. change (length (committed_ p)) with m.
  destruct (commitments_log p hb HB HC) as (V & EV & DV).
  eapply tpost_bind; [apply tpost_lift; eexists; split; [exact EV|exact eq_refl]|]. intros ? <-.
  eapply tpost_bind; [apply tpost_replicate, tpost_wires|]. intros wires [Lw Hw].
  eapply tpost_bind; [exact tpost_random|]. intros alpha Ca. eapply tpost_bind; [exact tpost_random|]. intros beta Cb.
  eapply tpost_bind; [exact tpost_random|]. intros rho Cr.
  pose proof (N_range k Hk) as HNr. change (Nat.pow 2 k) with N in HNr.
  eapply (tpost_bind _ _ (λ _, True)); [apply tpost_lift; exists tt; split; [exact (proj1 (generators_vec_eq (Z.of_nat N) ltac:(lia)))|exact I]|]. intros _ _.
  assert (HAL : holds N ((a_L <$> gates_ p) ++ replicate (N - length (a_L <$> gates_ p)) sc_zero) (wire a_L p)).
  { apply holds_canon; [apply gates_canon; [intros g Hg; apply Hg|exact HGa]|by rewrite length_fmap]. }
  assert (HAR : holds N ((a_R <$> gates_ p) ++ replicate (N - length (a_R <$> gates_ p)) sc_zero) (wire a_R p)).
  { apply holds_canon; [apply gates_canon; [intros g Hg; apply Hg|exact HGa]|by rewrite length_fmap]. }
  assert (HAO : holds N ((a_O <$> gates_ p) ++ replicate (N - length (a_O <$> gates_ p)) sc_zero) (wire a_O p)).
  { apply holds_canon; [apply gates_canon; [intros g Hg; apply Hg|exact HGa]|by rewrite length_fmap]. }
  assert (HSL : holds N (fst <$> wires) (λ i, sc_val (sat (fst <$> wires) i))).
  { apply holds_self; [apply Forall_fmap; eapply Forall_impl; [exact Hw|]; intros q Hq; apply Hq|by rewrite length_fmap]. }
  assert (HSR : holds N (snd <$> wires) (λ i, sc_val (sat (snd <$> wires) i))).
  { apply holds_self; [apply Forall_fmap; eapply Forall_impl; [exact Hw|]; intros q Hq; apply Hq|by rewrite length_fmap]. }
  eapply tpost_bind; [apply tpost_lift; exact (msm_GH_is k Hk gz hz hb HG HH HB _ _ _ _ _ _ HAL HAR (sc_is_val _ Ca))|]. intros AI DAI.
  eapply tpost_bind; [apply tpost_lift; exact (msm_G_is k Hk gz hb HG HB _ _ _ _ HAO (sc_is_val _ Cb))|]. intros AO DAO.
  eapply tpost_bind; [apply tpost_lift; exact (msm_GH_is k Hk gz hz hb HG HH HB _ _ _ _ _ _ HSL HSR (sc_is_val _ Cr))|]. intros S1 DS1.
  destruct (challenge_scalar (append_wires (append_header t (Z.of_nat N) (Z.of_nat m) (Z.of_nat (length (constraints_ p))) V) AI AO S1) "y") as [y t0] eqn:Ey.
  destruct (challenge_scalar t0 "z") as [z t1] eqn:Ez.
  assert (Eh : Transcript.ops (append_wires (append_header t (Z.of_nat N) (Z.of_nat m) (Z.of_nat (length (constraints_ p))) V) AI AO S1) = W).
  { rewrite <- Ht. unfold append_wires, append_header. cbv zeta. cbn [append_point append_message Transcript.ops]. rewrite foldl_point_ops. reflexivity. }
  pose proof (challenge_ops_eq _ _ _ _ Ey) as Ht0. rewrite Eh in Ht0. pose proof (challenge_ops_eq _ _ _ _ Ez) as Ht1. rewrite Ht0 in Ht1.
  exact (prove_folded_honest t t0 y z _ _ _ _ _ alpha beta rho V AI AO S1 _ _ t1 Ht Ht1 (challenge_canon_eq _ _ _ _ Ey Eh) (challenge_canon_eq _ _ _ _ Ez Ht0)
    HAL HAR HAO HSL HSR Ca Cb Cr Ey Ez DV DAI DAO DS1).
Qed.
End Prove.
