(* ===== verification/R1csCorrect.v ===== *)
(** * Constraint-system proofs are complete

    The invariant of the prover, its preservation by the four operations, the
    contract [runs] that the gadgets are proved with, and the completeness of
    [prove] and [r1cs_verify]. *)

From S2P Require Import Prelude Primes Field Hash Rng Fe25519 Scalar25519 ScalarField Ristretto RistrettoGroup Order Msm Transcript Generators InnerProduct InnerProductCorrect R1cs R1csSafe R1csAlgebra R1csHonest.

#[local] Opaque scL zinv hash_to_ristretto_point rist_encode ext_scalarmul rist_identity rist_G rist_H sc_tobytes
  window_loop multi_scalar_mul pedersen_commit rist_scalarmul
  pedersen_B pedersen_B_blinding prover_msm challenge_scalar so_random.

(** ** What the operations of the prover keep *)

Definition good (p : R1CSProver) : Prop := prover_ok p ∧ satisfied p.

(** The value of a variable under the values that the prover holds. *)
Definition var_at (p : R1CSProver) (v : Var) : Z := var_val (wire a_L p) (wire a_R p) (wire a_O p) (commitment value p) v.

Definition in_range (p : R1CSProver) (v : Var) : Prop :=
  r1cs_var_ok v (Z.of_nat (length (gates_ p))) (Z.of_nat (length (committed_ p))) = true.

Definition lc_ok (p : R1CSProver) (l : LinearCombination) : Prop :=
  Forall (term_ok (Z.of_nat (length (gates_ p))) (Z.of_nat (length (committed_ p)))) l.

(** More values and more constraints. *)
Definition extends (p p' : R1CSProver) : Prop :=
  (∃ gs, gates_ p' = gates_ p ++ gs) ∧ (∃ cs, committed_ p' = committed_ p ++ cs) ∧ (∃ ks, constraints_ p' = constraints_ p ++ ks).

#[export] Instance extends_refl : Reflexive extends.
Proof. intros p. split_and!; exists []; by rewrite app_nil_r. Qed.

#[export] Instance extends_trans : Transitive extends.
Proof.
  intros p q r ([g1 G1] & [c1 C1] & [k1 K1]) ([g2 G2] & [c2 C2] & [k2 K2]).
  split_and!; eexists; rewrite ?G2, ?G1, ?C2, ?C1, ?K2, ?K1; by rewrite <- app_assoc.
Qed.

Lemma extends_in_range p p' v : extends p p' → in_range p v → in_range p' v.
Proof.
  intros ([gs G] & [cs C] & _). unfold in_range, r1cs_var_ok. rewrite G, C, !length_app. destruct (var_type v); rewrite ?Z.ltb_lt; try done; lia.
Qed.

Lemma extends_lc_ok p p' l : extends p p' → lc_ok p l → lc_ok p' l.
Proof.
  intros He. unfold lc_ok. intros H. eapply Forall_impl; [exact H|]. intros [v c] [Hv Hc]. split; [|exact Hc]. by apply (extends_in_range p p' v He).
Qed.

Lemma sat_app f l l' i : (i < length l)%nat → sat (f <$> (l ++ l' : list Gate)) i = sat (f <$> l) i.
Proof. intros Hi. unfold sat. by rewrite fmap_app, app_nth1 by (by rewrite length_fmap). Qed.

Lemma sat_app_c f l l' i : (i < length l)%nat → sat (f <$> (l ++ l' : list CommittedVar)) i = sat (f <$> l) i.
Proof. intros Hi. unfold sat. by rewrite fmap_app, app_nth1 by (by rewrite length_fmap). Qed.

Lemma extends_var_at p p' v : extends p p' → in_range p v → var_at p' v = var_at p v.
Proof.
  intros ([gs G] & [cs C] & _). unfold in_range, r1cs_var_ok, var_at, var_val, wire, commitment. rewrite G, C.
  destruct (var_type v); rewrite ?Z.ltb_lt; intros Hv; try done; f_equal; first [apply sat_app_c; lia|apply sat_app; lia].
Qed.

Lemma lsum_ext_in {A} (l : list A) f g : Forall (λ x, f x = g x) l → lsum l f = lsum l g.
Proof. intros H. apply lsum_ext. by apply Forall_forall. Qed.

Lemma extends_lc_at p p' l : extends p p' → lc_ok p l → lc_at p' l = lc_at p l.
Proof.
  intros He H. unfold lc_at, lc_val. apply lsum_ext_in. eapply Forall_impl; [exact H|]. intros [v c] [Hv _]. cbn [fst snd].
  f_equal. exact (extends_var_at p p' v He Hv).
Qed.

Lemma extends_constraints p p' : extends p p' → prover_ok p → satisfied p →
  Forall (constraint_ok p') (constraints_ p) ∧ Forall (λ c, cong scL (lc_at p' (lc c)) 0) (constraints_ p).
Proof.
  intros He (_ & _ & _ & _ & HC) HS. split.
  - eapply Forall_impl; [exact HC|]. intros c Hc. exact (extends_lc_ok p p' _ He Hc).
  - unfold satisfied in HS. rewrite Forall_forall in HS, HC. apply Forall_forall. intros c Hc. rewrite (extends_lc_at p p' _ He (HC c Hc)). exact (HS c Hc).
Qed.

(** The sum of a linear combination is what [eval_lc] computes. *)
Lemma var_value_is p v : prover_ok p → in_range p v → ∃ s, var_value p v = Ok s ∧ sc_is s (var_at p v).
Proof.
  intros (_ & _ & HG & HC & _). unfold in_range, r1cs_var_ok, var_value, var_at, var_val, wire, commitment.
  assert (KG : ∀ f : Gate → Scalar, (∀ g, gate_ok g → sc_canon (f g)) → Z.of_nat (index v) < Z.of_nat (length (gates_ p)) →
    ∃ s, match gates_ p !! index v with Some g => Ok (f g) | None => Throw "undefined: index out of range" end = Ok s ∧ sc_is s (sc_val (sat (f <$> gates_ p) (index v)))).
  { intros f Hf Hi. destruct (lookup_lt_is_Some_2 (gates_ p) (index v)) as [g Hg]; [lia|]. exists (f g). rewrite Hg. split; [reflexivity|].
    unfold sat. rewrite (nth_lookup_Some (f <$> gates_ p) _ sc_zero (f g)) by (by rewrite list_lookup_fmap, Hg).
    apply sc_is_val, Hf. exact (Forall_lookup_1 _ _ _ _ HG Hg). }
  destruct (var_type v); rewrite ?Z.ltb_lt; intros Hv.
  - exists (mkScalar [1; 0; 0; 0]). split; [reflexivity|exact is_one_scalar].
  - destruct (lookup_lt_is_Some_2 (committed_ p) (index v)) as [c Hc]; [lia|]. exists (value c). rewrite Hc. split; [reflexivity|].
    unfold sat. rewrite (nth_lookup_Some (value <$> committed_ p) _ sc_zero (value c)) by (by rewrite list_lookup_fmap, Hc).
    apply sc_is_val. exact (proj1 (Forall_lookup_1 _ _ _ _ HC Hc)).
  - apply KG; [intros g Hg; apply Hg|done].
  - apply KG; [intros g Hg; apply Hg|done].
  - apply KG; [intros g Hg; apply Hg|done].
Qed.

Lemma eval_lc_is p l : prover_ok p → lc_ok p l → ∃ s, eval_lc p l = Ok s ∧ sc_is s (lc_at p l).
Proof.
  intros HP H. unfold eval_lc, lc_at, lc_val. assert (K : ∀ r z, sc_is r z → ∃ s, eval_terms p l r = Ok s ∧ sc_is s (z + lsum l (λ term, sc_val term.2 * var_at p term.1))).
  { induction H as [|[v c] l [Hv Hc] _ IH]; intros r z Hr.
    - exists r. split; [reflexivity|]. unfold lsum. cbn. by rewrite Z.add_0_r.
    - destruct (var_value_is p v HP Hv) as (s & Es & Hs). cbn [eval_terms]. rewrite Es, Ok_bind, (proj1 (proj2 HP)).
      destruct (IH _ _ (is_sc_add _ _ _ _ Hr (is_W_mul _ _ _ _ (sc_is_val c Hc) Hs))) as (s' & E' & Hs'). exists s'. split; [exact E'|].
      rewrite lsum_cons, Z.add_assoc. exact Hs'. }
  exact (K sc_zero 0 is_zero_scalar).
Qed.

(** *** Linear combinations *)

Lemma lc_at_app p a b : lc_at p (a ++ b) = lc_at p a + lc_at p b.
Proof. apply lsum_app. Qed.

Lemma lc_ok_sub p a b : lc_ok p a → lc_ok p b → lc_ok p (lc_sub a b).
Proof.
  intros Ha Hb. apply Forall_app_2; [exact Ha|]. apply Forall_fmap. eapply Forall_impl; [exact Hb|]. intros [v c] [Hv Hc]. split; [exact Hv|].
  exact (proj1 (is_sc_neg c _ (sc_is_val c Hc))).
Qed.

Lemma lc_val_neg al ar ao v b n k : Forall (term_ok n k) b →
  cong scL (lc_val al ar ao v ((λ '(var, coeff), (var, sc_neg coeff)) <$> b)) (- lc_val al ar ao v b).
Proof.
  intros H. unfold lc_val. induction H as [|[w c] b [_ Hc] _ IH]; [reflexivity|]. cbn [fmap list_fmap]. rewrite !lsum_cons. cbn [fst snd].
  pose proof (is_sc_neg c _ (sc_is_val c Hc)) as [_ E]. cbn [snd] in E. unfold fmap in IH. rewrite E, IH. apply cong_eq. ring.
Qed.

Lemma lc_at_sub p a b : lc_ok p b → cong scL (lc_at p (lc_sub a b)) (lc_at p a - lc_at p b).
Proof. intros Hb. unfold lc_sub. rewrite lc_at_app. unfold lc_at at 2. rewrite (lc_val_neg _ _ _ _ _ _ _ Hb). apply cong_eq. unfold lc_at. ring. Qed.

Lemma lc_at_var p v : lc_at p (lc_var v) = var_at p v.
Proof. unfold lc_at, lc_var, lc_val, var_at. rewrite lsum_cons. unfold lsum. cbn [foldr fst snd]. destruct (small_scalar 1 ltac:(done)) as [_ ->]. ring. Qed.

Lemma lc_ok_var p v : in_range p v → lc_ok p (lc_var v).
Proof. intros Hv. constructor; [|constructor]. split; [exact Hv|]. exact (proj1 is_one_scalar). Qed.

(** *** The four operations *)

Lemma push_gate_good p g : good p → gate_ok g → good (push_gate p g) ∧ extends p (push_gate p g).
Proof.
  intros [HP HS] Hg. assert (He : extends p (push_gate p g)) by (split_and!; [by exists [g]|exists []; by rewrite app_nil_r..]).
  destruct (extends_constraints p _ He HP HS) as [H1 H2]. split; [|exact He]. destruct HP as (V & O & G & C & _).
  split; [|exact H2]. split; [exact V|]. split; [exact O|]. split; [apply Forall_app_2; [exact G|by constructor]|]. split; [exact C|exact H1].
Qed.

Lemma push_constraint_good p l : good p → lc_ok p l → cong scL (lc_at p l) 0 →
  good (push_constraint p (mkConstraint l)) ∧ extends p (push_constraint p (mkConstraint l)).
Proof.
  intros [(V & O & G & C & K) HS] Hl Hz. split; [|split_and!; [exists []; by rewrite app_nil_r..|by exists [mkConstraint l]]].
  split.
  - split; [exact V|]. split; [exact O|]. split; [exact G|]. split; [exact C|]. apply Forall_app_2; [exact K|]. constructor; [exact Hl|constructor].
  - apply Forall_app_2; [exact HS|]. constructor; [exact Hz|constructor].
Qed.

Lemma push_committed_good p c : good p → committed_ok c → good (push_committed p c) ∧ extends p (push_committed p c).
Proof.
  intros [HP HS] Hc. assert (He : extends p (push_committed p c)) by (split_and!; [exists []; by rewrite app_nil_r|by exists [c]|exists []; by rewrite app_nil_r]).
  destruct (extends_constraints p _ He HP HS) as [H1 H2]. split; [|exact He]. destruct HP as (V & O & G & C & _).
  split; [|exact H2]. split; [exact V|]. split; [exact O|]. split; [exact G|]. split; [apply Forall_app_2; [exact C|by constructor]|exact H1].
Qed.

Lemma product_gate_ok a b : sc_canon a → sc_canon b → gate_ok (mkGate a b (so_mul W a b)).
Proof.
  intros Ha Hb. pose proof (is_W_mul _ _ _ _ (sc_is_val a Ha) (sc_is_val b Hb)) as [C E]. split; [exact Ha|]. split; [exact Hb|]. split; [exact C|exact E].
Qed.

(** The new gate of a prover. *)
Lemma new_gate p g : let i := length (gates_ p) in let p' := push_gate p g in
  (in_range p' (mult_left i) ∧ in_range p' (mult_right i) ∧ in_range p' (mult_out i)) ∧
  var_at p' (mult_left i) = sc_val (a_L g) ∧ var_at p' (mult_right i) = sc_val (a_R g) ∧ var_at p' (mult_out i) = sc_val (a_O g).
Proof.
  cbv zeta. unfold in_range, r1cs_var_ok, var_at, var_val, wire, sat, push_gate. cbn [var_type index mult_left mult_right mult_out gates_ committed_].
  rewrite length_app. cbn [length]. split; [split_and!; apply Z.ltb_lt; lia|]. rewrite !fmap_app, !app_nth2 by (rewrite length_fmap; lia).
  rewrite !length_fmap, Nat.sub_diag. done.
Qed.

(** *** The contract of a computation on a good prover *)

Definition runs {A} (p : R1CSProver) (m : M R1CSProver A) (Q : R1CSProver → A → Prop) : Prop :=
  ∃ a p', m p = Ok (a, p') ∧ good p' ∧ extends p p' ∧ Q p' a.

Lemma runs_ret {A} p (a : A) (Q : R1CSProver → A → Prop) : good p → Q p a → runs p (mret a) Q.
Proof. intros Hp HQ. exists a, p. split; [reflexivity|]. split; [exact Hp|]. split; [reflexivity|exact HQ]. Qed.

Lemma runs_bind {A B} p (m : M R1CSProver A) (f : A → M R1CSProver B) Q Q' : runs p m Q →
  (∀ a p', good p' → extends p p' → Q p' a → runs p' (f a) Q') → runs p (m ≫= f) Q'.
Proof.
  intros (a & p1 & E & G & X & HQ) K. destruct (K a p1 G X HQ) as (b & p2 & E2 & G2 & X2 & HQ2). exists b, p2.
  split; [unfold mbind, M_bind; rewrite E; exact E2|]. split; [exact G2|]. split; [etransitivity; [exact X|exact X2]|exact HQ2].
Qed.

Lemma runs_mono {A} p (m : M R1CSProver A) (Q Q' : R1CSProver → A → Prop) : runs p m Q → (∀ p' a, extends p p' → Q p' a → Q' p' a) → runs p m Q'.
Proof. intros (a & p1 & E & G & X & HQ) H. exists a, p1. split; [exact E|]. split; [exact G|]. split; [exact X|]. by apply H. Qed.

Lemma commit_runs p v b : good p → sc_canon v → sc_canon b →
  runs p (commit v b) (λ p' x, in_range p' x ∧ var_at p' x = sc_val v).
Proof.
  intros G Hv Hb. pose proof (proj1 (proj1 G)) as V. destruct (push_committed_good p (mkCommitted v b) G (conj Hv Hb)) as [G' X].
  exists (committed (length (committed_ p))), (push_committed p (mkCommitted v b)). split; [unfold commit, num_committed; by rewrite V|].
  split; [exact G'|]. split; [exact X|]. unfold in_range, r1cs_var_ok, var_at, var_val, commitment, sat, push_committed. cbn [var_type index committed committed_].
  rewrite length_app. cbn [length]. split; [apply Z.ltb_lt; lia|]. rewrite fmap_app, app_nth2 by (rewrite length_fmap; lia).
  by rewrite length_fmap, Nat.sub_diag.
Qed.

Definition gate_vars (p : R1CSProver) (lro : Var * Var * Var) (a b : Z) : Prop :=
  let '(l, r, o) := lro in
  (in_range p l ∧ in_range p r ∧ in_range p o) ∧
  cong scL (var_at p l) a ∧ cong scL (var_at p r) b ∧ cong scL (var_at p o) (a * b).

Lemma allocate_runs p a b x y : good p → sc_is a x → sc_is b y → runs p (allocate a b) (λ p' lro, gate_vars p' lro x y).
Proof.
  intros G [Ha Ea] [Hb Eb]. pose proof (proj1 (proj1 G)) as V. pose proof (proj1 (proj2 (proj1 G))) as O.
  destruct (push_gate_good p _ G (product_gate_ok a b Ha Hb)) as [G' X]. exists (mult_left (length (gates_ p)), mult_right (length (gates_ p)), mult_out (length (gates_ p))), (push_gate p (mkGate a b (so_mul W a b))).
  split; [unfold allocate, num_gates; by rewrite V, O|]. split; [exact G'|]. split; [exact X|].
  destruct (new_gate p (mkGate a b (so_mul W a b))) as (HR & El & Er & Eo). cbn [gate_vars]. rewrite El, Er, Eo. cbn [a_L a_R a_O].
  split; [exact HR|]. split; [exact Ea|]. split; [exact Eb|]. destruct (is_W_mul _ _ _ _ (sc_is_val a Ha) (sc_is_val b Hb)) as [_ E].
  by rewrite E, Ea, Eb.
Qed.

Lemma constrain_runs p l : good p → lc_ok p l → cong scL (lc_at p l) 0 → runs p (constrain l) (λ _ _, True).
Proof.
  intros G Hl Hz. destruct (push_constraint_good p l G Hl Hz) as [G' X]. exists tt, (push_constraint p (mkConstraint l)).
  split; [reflexivity|]. split; [exact G'|]. split; [exact X|exact I].
Qed.

Lemma multiply_runs p ll lr : good p → lc_ok p ll → lc_ok p lr →
  runs p (multiply ll lr) (λ p' lro, gate_vars p' lro (lc_at p ll) (lc_at p lr)).
Proof.
  intros G Hl Hr. pose proof (proj1 (proj1 G)) as V. pose proof (proj1 (proj2 (proj1 G))) as O.
  destruct (eval_lc_is p ll (proj1 G) Hl) as (a & Ea & [Ca Va]). destruct (eval_lc_is p lr (proj1 G) Hr) as (b & Eb & [Cb Vb]).
  destruct (push_gate_good p _ G (product_gate_ok a b Ca Cb)) as [G1 X1].
  destruct (new_gate p (mkGate a b (so_mul W a b))) as ((Rl & Rr & Ro) & El & Er & Eo). set (p1 := push_gate p _) in *. set (i := length (gates_ p)) in *.
  cbn [a_L a_R a_O] in El, Er, Eo. destruct (is_W_mul _ _ _ _ (sc_is_val a Ca) (sc_is_val b Cb)) as [_ Eab].
  assert (Z1 : cong scL (lc_at p1 (lc_sub ll (lc_var (mult_left i)))) 0).
  { rewrite (lc_at_sub _ _ _ (lc_ok_var p1 _ Rl)), lc_at_var, El, (extends_lc_at p p1 ll X1 Hl), Va. apply cong_eq. ring. }
  destruct (push_constraint_good p1 _ G1 (lc_ok_sub _ _ _ (extends_lc_ok p p1 _ X1 Hl) (lc_ok_var p1 _ Rl)) Z1) as [G2 X2].
  set (p2 := push_constraint p1 _) in *. pose proof (extends_trans _ _ _ X1 X2) as X02.
  assert (Rr2 : in_range p2 (mult_right i)) by exact (extends_in_range p1 p2 _ X2 Rr).
  assert (Z2 : cong scL (lc_at p2 (lc_sub lr (lc_var (mult_right i)))) 0).
  { rewrite (lc_at_sub _ _ _ (lc_ok_var p2 _ Rr2)), lc_at_var, (extends_var_at p1 p2 _ X2 Rr), Er, (extends_lc_at p p2 lr X02 Hr), Vb. apply cong_eq. ring. }
  destruct (push_constraint_good p2 _ G2 (lc_ok_sub _ _ _ (extends_lc_ok p p2 _ X02 Hr) (lc_ok_var p2 _ Rr2)) Z2) as [G3 X3].
  set (p3 := push_constraint p2 _) in *. exists (mult_left i, mult_right i, mult_out i), p3. pose proof (extends_trans _ _ _ X2 X3) as X13.
  split.
  { unfold multiply, num_gates. rewrite V, Ea, Ok_bind, Eb, Ok_bind, O. rewrite Ok_bind. reflexivity. }
  split; [exact G3|]. split; [etransitivity; [exact X1|exact X13]|]. cbn [gate_vars].
  rewrite (extends_var_at p1 p3 _ X13 Rl), (extends_var_at p1 p3 _ X13 Rr), (extends_var_at p1 p3 _ X13 Ro), El, Er, Eo.
  split; [split_and!; by apply (extends_in_range p1 p3 _ X13)|]. split; [exact Va|]. split; [exact Vb|]. by rewrite Eab, Va, Vb.
Qed.

Lemma new_good : good (prover_new Wide).
Proof. split; [split_and!; try done|]; constructor. Qed.

(** ** Properties *)

(** C12. The operations of a prover of the rule [ScalarRule::Wide] keep its
    invariant: from a prover whose gates multiply, whose variables are in range and
    whose constraints hold, each operation on arguments in range succeeds, keeps all
    of it, only adds to the values and the constraints, and returns variables of the
    values given; [multiply] makes the left and right wires equal to its arguments.
    (Under [Prior] a gate that [allocate] pushes may hold a wrong product.) *)
Theorem operations_keep p v b x y ll lr : good p → sc_canon v → sc_canon b → sc_is v x → sc_is b y → lc_ok p ll → lc_ok p lr →
  runs p (commit v b) (λ p' c, in_range p' c ∧ var_at p' c = sc_val v) ∧
  runs p (allocate v b) (λ p' lro, gate_vars p' lro x y) ∧
  runs p (multiply ll lr) (λ p' lro, gate_vars p' lro (lc_at p ll) (lc_at p lr)) ∧
  (cong scL (lc_at p ll) 0 → runs p (constrain ll) (λ _ _, True)).
Proof.
  intros G Hv Hb Hx Hy Hl Hr. split; [exact (commit_runs p v b G Hv Hb)|]. split; [exact (allocate_runs p v b x y G Hx Hy)|].
  split; [exact (multiply_runs p ll lr G Hl Hr)|exact (constrain_runs p ll G Hl)].
Qed.

Lemma operations_keep_witness :
  let v := mkScalar [5; 0; 0; 0] in
  runs (prover_new Wide) (commit v v) (λ p' c, in_range p' c ∧ var_at p' c = sc_val v) ∧
  runs (prover_new Wide) (allocate v v) (λ p' lro, gate_vars p' lro 5 5) ∧
  runs (prover_new Wide) (multiply (lc_var one) (lc_var one)) (λ p' lro, gate_vars p' lro (lc_at (prover_new Wide) (lc_var one)) (lc_at (prover_new Wide) (lc_var one))) ∧
  (cong scL (lc_at (prover_new Wide) (lc_var one)) 0 → runs (prover_new Wide) (constrain (lc_var one)) (λ _ _, True)).
Proof.
  pose proof (proj1 (small_scalar 5 ltac:(done))) as H5.
  exact (operations_keep (prover_new Wide) _ _ 5 5 (lc_var one) (lc_var one) new_good H5 H5 (is_word 5 ltac:(done)) (is_word 5 ltac:(done))
    (lc_ok_var (prover_new Wide) one eq_refl) (lc_ok_var (prover_new Wide) one eq_refl)).
Defined.

(** C9. Completeness of the constraint-system proofs under [ScalarRule::Wide]: a
    prover of that rule whose values satisfy its constraints, within the limits,
    with a transcript of that rule, never fails whatever the system generator
    returns, and the verifier, who has the constraints without the values, accepts
    the proof and ends in the same transcript, unless the challenge [y] or a
    challenge of the inner-product argument is zero. ([Prior] multiplies some
    canonical scalars wrongly, see [scalar_rule_prior]; nothing is claimed for it.)
    *)
Theorem r1cs_complete p t profile g : prover_ok p → satisfied p → within p profile → Transcript.ops t = scalar_ops Wide →
  ∃ proof t' g', prove p t profile g = Ok ((proof, t'), g') ∧
    (r1cs_verify t (system_of p) proof profile = Ok (true, t') ∨ zero_challenge t (system_of p) proof).
Proof.
  intros HP HS HW Ht. destruct (padded_size p (proj1 HW)) as (k & Hk & HN & EN).
  destruct (gen_G_log (zseq 0 (Nat.pow 2 k))) as [g0 Hg]. destruct (gen_H_log (zseq 0 (Nat.pow 2 k))) as [h0 Hh]. destruct dlog_H as [hb HB].
  assert (Lg : length g0 = Nat.pow 2 k) by (rewrite <- (Forall2_length _ _ _ Hg), length_fmap; apply length_zseq).
  assert (Lh : length h0 = Nat.pow 2 k) by (rewrite <- (Forall2_length _ _ _ Hh), length_fmap; apply length_zseq).
  rewrite <- (tab_nth _ g0 Lg) in Hg. rewrite <- (tab_nth _ h0 Lh) in Hh. rewrite <- B_blinding_eq in HB.
  destruct (prove_honest k Hk _ _ hb Hg Hh HB p HP HS HN profile t HW Ht EN g) as ((proof & t') & g' & E & Hpr).
  exists proof, t', g'. split; [exact E|]. exact (honest_accepted k Hk _ _ hb Hg Hh HB p t profile proof t' HP HW Ht EN Hpr).
Qed.

(** A prover who knows a square root of nine. *)
Definition square_root : M R1CSProver unit :=
  x ← commit (mkScalar [9; 0; 0; 0]) (mkScalar [5; 0; 0; 0]);
  '(l, r, o) ← allocate (mkScalar [3; 0; 0; 0]) (mkScalar [3; 0; 0; 0]);
  _ ← constrain (lc_sub (lc_var l) (lc_var r));
  constrain (lc_sub (lc_var o) (lc_var x)).

Lemma square_root_runs : runs (prover_new Wide) square_root (λ _ _, True).
Proof.
  unfold square_root. eapply runs_bind; [exact (commit_runs _ _ _ new_good (proj1 (small_scalar 9 ltac:(done))) (proj1 (small_scalar 5 ltac:(done))))|].
  intros x p1 G1 X1 [Rx Vx]. pose proof (is_word 3 ltac:(done)) as H3.
  eapply runs_bind; [exact (allocate_runs _ _ _ _ _ G1 H3 H3)|]. intros [[l r] o] p2 G2 X2 ((Rl & Rr & Ro) & Vl & Vr & Vo).
  eapply runs_bind; [apply constrain_runs; [exact G2|exact (lc_ok_sub _ _ _ (lc_ok_var _ _ Rl) (lc_ok_var _ _ Rr))|]|].
  { rewrite (lc_at_sub _ _ _ (lc_ok_var _ _ Rr)), !lc_at_var, Vl, Vr. reflexivity. }
  intros ? p3 G3 X3 _. pose proof (extends_in_range _ _ _ X3 Ro) as Ro3. pose proof (extends_in_range _ _ _ (extends_trans _ _ _ X2 X3) Rx) as Rx3.
  apply constrain_runs; [exact G3|exact (lc_ok_sub _ _ _ (lc_ok_var _ _ Ro3) (lc_ok_var _ _ Rx3))|].
  rewrite (lc_at_sub _ _ _ (lc_ok_var _ _ Rx3)), !lc_at_var, (extends_var_at _ _ _ X3 Ro), (extends_var_at _ _ _ (extends_trans _ _ _ X2 X3) Rx), Vo, Vx.
  rewrite (proj2 (small_scalar 9 ltac:(done))). reflexivity.
Qed.

Lemma r1cs_complete_witness : ∃ p proof t' g', square_root (prover_new Wide) = Ok (tt, p) ∧
  prove p (transcript_init "example" Wide) LimitDefault (Os.mkCsprng (λ _, 0) 0) = Ok ((proof, t'), g') ∧
  (r1cs_verify (transcript_init "example" Wide) (system_of p) proof LimitDefault = Ok (true, t') ∨
   zero_challenge (transcript_init "example" Wide) (system_of p) proof).
Proof.
  destruct square_root_runs as ([] & p & E & [HP HS] & _).
  assert (Lim : ∀ p, square_root (prover_new Wide) = Ok (tt, p) → within p LimitDefault).
  { intros p' E'. cbn in E'. injection E' as <-. vm_compute. split_and!; discriminate. }
  destruct (r1cs_complete p (transcript_init "example" Wide) LimitDefault (Os.mkCsprng (λ _, 0) 0) HP HS (Lim p E) eq_refl) as (proof & t' & g' & H).
  exists p, proof, t', g'. exact (conj E H).
Defined.
