(* ===== verification/Gadgets.v ===== *)
(** * Gadgets: [crypto/bulletproofs/gadgets.hpp]

    Constraints that bound a wire, decompose it, and multiply modulo [2^127 - 1],
    as computations on a prover, which holds the values of the wires or, when it
    verifies, only counts them. *)

From S2P Require Import Prelude Primes Field Hash Rng Fe25519 Scalar25519 ScalarField Ristretto Msm Transcript Generators InnerProduct R1cs.

Definition sc_from_u64 (v : Z) : Scalar := mkScalar [v; 0; 0; 0].
Definition sc_pow2_64 : Scalar := mkScalar [0; 1; 0; 0].
Definition sc_mersenne_p : Scalar := mkScalar [UINT64_MAX; 0x7FFFFFFFFFFFFFFF; 0; 0].
Definition sc_mersenne_p_inv (ops : ScalarOps) : Scalar := so_inv ops sc_mersenne_p.

(** [prover.ops]. *)
Definition get_ops : M R1CSProver ScalarOps := λ p, Ok (prover_ops p, p).

Definition word_at (s : Scalar) (i : nat) : Z := nth i (sv s) 0.
Definition get_bit (v_val : Scalar) (bit : nat) : Z := (word_at v_val (bit / 64) ≫ Z.of_nat (bit mod 64)) .& 1.

(** The loop over the bits, from the sum and the power so far. *)
Fixpoint range_loop (v_val : Scalar) (bits : list nat) (reconstruction : LinearCombination) (power_of_2 : Scalar)
    : M R1CSProver LinearCombination :=
  match bits with
  | [] => mret reconstruction
  | i :: bits =>
      let bit_val := sc_from_u64 (get_bit v_val i) in
      '(l, r, out) ← allocate bit_val (sc_sub (sc_from_u64 1) bit_val);
      _ ← constrain (lc_var out);
      _ ← constrain (lc_sub (lc_add (lc_var l) (lc_var r)) (lc_var one));
      ops ← get_ops;
      range_loop v_val bits (lc_add reconstruction (lc_term l power_of_2)) (so_mul ops power_of_2 (sc_from_u64 2))
  end.

Definition range_check (v_var : Var) (v_val : Scalar) (n_bits : nat) : M R1CSProver unit :=
  if negb ((0 <? n_bits)%nat && (n_bits <=? 252)%nat) then lift (Throw "assertion: n_bits > 0 && n_bits <= 252")
  else
    reconstruction ← range_loop v_val (seq 0 n_bits) [] (sc_from_u64 1);
    constrain (lc_sub reconstruction (lc_var v_var)).

Definition reject_mersenne_modulus_alias (v_var : Var) (v_val : Scalar) : M R1CSProver unit :=
  ops ← get_ops;
  let delta := sc_sub sc_mersenne_p v_val in
  let inverse := so_inv ops delta in
  '(delta_var, inverse_var, product_var) ← allocate delta inverse;
  _ ← constrain (lc_sub (lc_add (lc_var delta_var) (lc_var v_var)) (lc_term one sc_mersenne_p));
  constrain (lc_sub (lc_var product_var) (lc_term one (sc_from_u64 1))).

(** Two limbs and their sum: the steps that [fp_mul_gadget] makes for each
    operand and [fp127_decompose] for its argument. *)
Definition limbs (x_var : Var) (x_val : Scalar) (canonical : bool) : M R1CSProver (Var * Var) :=
  let x0_val := sc_from_u64 (word_at x_val 0) in
  let x1_val := sc_from_u64 (word_at x_val 1) in
  '(x0_var, _, _) ← allocate x0_val (sc_from_u64 1);
  '(x1_var, _, _) ← allocate x1_val (sc_from_u64 1);
  _ ← constrain (lc_sub (lc_add (lc_var x0_var) (lc_term x1_var sc_pow2_64)) (lc_var x_var));
  _ ← range_check x0_var x0_val 64;
  _ ← range_check x1_var x1_val 63;
  _ ← (if canonical then reject_mersenne_modulus_alias x_var x_val else mret tt);
  mret (x0_var, x1_var).

Record FpMulResult : Set := mkMulResult { mul_var : Var; mul_val : Scalar }.

Definition fp_mul_gadget (a_var : Var) (a_val : Scalar) (b_var : Var) (b_val : Scalar) (canonical : bool) : M R1CSProver FpMulResult :=
  '(a0_var, a1_var) ← limbs a_var a_val canonical;
  '(b0_var, b1_var) ← limbs b_var b_val canonical;
  let a0_val := sc_from_u64 (word_at a_val 0) in
  let a1_val := sc_from_u64 (word_at a_val 1) in
  let b0_val := sc_from_u64 (word_at b_val 0) in
  let b1_val := sc_from_u64 (word_at b_val 1) in
  ops ← get_ops;
  '(_, _, p00_out) ← multiply (lc_var a0_var) (lc_var b0_var);
  '(_, _, p01_out) ← multiply (lc_var a0_var) (lc_var b1_var);
  '(_, _, p10_out) ← multiply (lc_var a1_var) (lc_var b0_var);
  '(_, _, p11_out) ← multiply (lc_var a1_var) (lc_var b1_var);
  let p00_val := so_mul ops a0_val b0_val in
  let p01_val := so_mul ops a0_val b1_val in
  let p10_val := so_mul ops a1_val b0_val in
  let p11_val := so_mul ops a1_val b1_val in
  let T_red_val := sc_add (sc_add p00_val (so_mul ops sc_pow2_64 (sc_add p01_val p10_val))) (so_mul ops (sc_from_u64 2) p11_val) in
  let a_fp := mkFp (word_at a_val 0) (word_at a_val 1) in
  let b_fp := mkFp (word_at b_val 0) (word_at b_val 1) in
  let c_fp := fp_mul a_fp b_fp in
  let c_val := mkScalar [lo c_fp; hi c_fp; 0; 0] in
  let T_minus_c := sc_sub T_red_val c_val in
  let q_val := so_mul ops T_minus_c (so_inv ops sc_mersenne_p) in
  '(c_var, _, _) ← allocate c_val (sc_from_u64 1);
  '(q_var, _, _) ← allocate q_val (sc_from_u64 1);
  '(_, _, qp_out) ← multiply (lc_var q_var) (lc_term one sc_mersenne_p);
  let l := lc_var qp_out in
  let l := lc_sub l (lc_var p00_out) in
  let l := lc_sub l (lc_term p01_out sc_pow2_64) in
  let l := lc_sub l (lc_term p10_out sc_pow2_64) in
  let l := lc_sub l (lc_term p11_out (sc_from_u64 2)) in
  let l := lc_add l (lc_var c_var) in
  _ ← constrain l;
  _ ← range_check c_var c_val 127;
  _ ← (if canonical then reject_mersenne_modulus_alias c_var c_val else mret tt);
  _ ← range_check q_var q_val 66;
  mret (mkMulResult c_var c_val).

Definition fp_cube_gadget (x_var : Var) (x_val : Scalar) (canonical : bool) : M R1CSProver FpMulResult :=
  x2 ← fp_mul_gadget x_var x_val x_var x_val canonical;
  fp_mul_gadget (mul_var x2) (mul_val x2) x_var x_val canonical.

Definition fp_fifth_gadget (x_var : Var) (x_val : Scalar) (canonical : bool) : M R1CSProver FpMulResult :=
  x2 ← fp_mul_gadget x_var x_val x_var x_val canonical;
  x4 ← fp_mul_gadget (mul_var x2) (mul_val x2) (mul_var x2) (mul_val x2) canonical;
  fp_mul_gadget (mul_var x4) (mul_val x4) x_var x_val canonical.

Record FpLimbs : Set := mkLimbs { x0_var : Var; x1_var : Var; x0_val : Scalar; x1_val : Scalar }.

Definition fp127_decompose (x_var : Var) (x_val : Scalar) (canonical : bool) : M R1CSProver FpLimbs :=
  '(x0, x1) ← limbs x_var x_val canonical;
  mret (mkLimbs x0 x1 (sc_from_u64 (word_at x_val 0)) (sc_from_u64 (word_at x_val 1))).

Record BoundPcResult : Set := mkBound { bound_var : Var; bound_val : Scalar; bound_limbs : FpLimbs }.

Definition bind_pc_value (v_signed : Var) (x_fp : Fp) (canonical : bool) : M R1CSProver BoundPcResult :=
  let x_val := mkScalar [lo x_fp; hi x_fp; 0; 0] in
  let is_high := negb (hi x_fp .& wshl 64 1 62 =? 0) in
  let b_val := sc_from_u64 (if is_high then 1 else 0) in
  '(b_left, b_right, b_out) ← allocate b_val (sc_sub (sc_from_u64 1) b_val);
  _ ← constrain (lc_var b_out);
  _ ← constrain (lc_sub (lc_add (lc_var b_left) (lc_var b_right)) (lc_var one));
  '(x_var, _, _) ← allocate x_val (sc_from_u64 1);
  _ ← constrain (lc_sub (lc_sub (lc_var x_var) (lc_var v_signed)) (lc_term b_left sc_mersenne_p));
  l ← fp127_decompose x_var x_val canonical;
  mret (mkBound x_var x_val l).

Record FpFoldedTerm : Set := mkFolded { folded_lc : LinearCombination; folded_val : Scalar }.

Definition fp_mul_const_var_folded (A_const : Fp) (x : FpLimbs) (ops : ScalarOps) : FpFoldedTerm :=
  let A0 := sc_from_u64 (lo A_const) in
  let A1 := sc_from_u64 (hi A_const) in
  let two := sc_from_u64 2 in
  let l := lc_add [] (lc_term (x0_var x) A0) in
  let l := lc_add l (lc_term (x1_var x) (so_mul ops sc_pow2_64 A0)) in
  let l := lc_add l (lc_term (x0_var x) (so_mul ops sc_pow2_64 A1)) in
  let l := lc_add l (lc_term (x1_var x) (so_mul ops two A1)) in
  let x0 := x0_val x in
  let x1 := x1_val x in
  let T_val := sc_add
    (sc_add (so_mul ops A0 x0) (so_mul ops (so_mul ops sc_pow2_64 A0) x1))
    (sc_add (so_mul ops (so_mul ops sc_pow2_64 A1) x0) (so_mul ops (so_mul ops two A1) x1)) in
  mkFolded l T_val.

(** ** The constants *)

#[local] Opaque scL.

(** Scalars of two words. *)
Lemma is_words a b : word 64 a → word 64 b → sc_is (mkScalar [a; b; 0; 0]) (a + 2 ^ 64 * b).
Proof.
  intros Ha Hb. assert (E : sc_val (mkScalar [a; b; 0; 0]) = a + 2 ^ 64 * b) by (unfold sc_val; cbn [sv le64]; lia).
  split; [|by rewrite E]. split; [split; [done|repeat constructor; try done; unfold word in *; lia]|].
  rewrite E. pose proof scL_large. unfold word in *. lia.
Qed.

Lemma mersenne_scalar : sc_is sc_mersenne_p P.
Proof. exact (is_words UINT64_MAX 0x7FFFFFFFFFFFFFFF ltac:(done) ltac:(done)). Qed.

Lemma pow64_scalar : sc_is sc_pow2_64 (2 ^ 64).
Proof. exact (is_words 0 1 ltac:(done) ltac:(done)). Qed.

Lemma u64_scalar v : word 64 v → sc_is (sc_from_u64 v) v.
Proof. exact (is_word v). Qed.

Lemma one_scalar : sc_is (sc_from_u64 1) 1.
Proof. by apply u64_scalar. Qed.

Lemma two_scalar : sc_is (sc_from_u64 2) 2.
Proof. by apply u64_scalar. Qed.

(** The scalar of a field element. *)
Lemma fp_scalar c : fp_ok c → sc_canon (mkScalar [lo c; hi c; 0; 0]) ∧ sc_val (mkScalar [lo c; hi c; 0; 0]) = val c.
Proof.
  intros Hc. destruct (fp_ok_words c Hc) as [Hl Hh]. pose proof (is_words _ _ Hl Hh) as [C E]. split; [exact C|].
  change (lo c + 2 ^ 64 * hi c) with (val c) in E. pose proof scL_large. pose proof (fp_ok_bounds c Hc) as (_ & _ & B).
  apply (cong_small scL); [exact E| |unfold P in B; lia]. split; [by apply sc_val_bound, C|apply C].
Qed.
