(* ===== verification/GadgetsSound.v ===== *)
(** * The gadgets are sound

    [forces asg n n' Pre m Post]: [m] only adds constraints, takes the commitments
    from [n] to [n'], and when the assignment [asg] of the wires solves the
    constraints that it adds, [Pre] implies [Post] of its result.  Nothing is assumed of the values that a prover holds: the theorems
    are about every assignment, in particular those of a dishonest prover. *)

From S2P Require Import Prelude Primes Field Hash Rng Fe25519 Scalar25519 ScalarField Ristretto Msm Transcript Generators InnerProduct R1cs R1csAlgebra Gadgets.

#[local] Opaque scL zinv.

(** ** Assignments *)

(** Values of the wires, with every gate multiplying, and of the commitments. *)
Record Assignment : Type := mkAssignment {
  asg_l : nat → Z; asg_r : nat → Z; asg_o : nat → Z; asg_v : nat → Z;
  asg_gates : ∀ i, cong scL (asg_o i) (asg_l i * asg_r i) }.

Definition value_of (s : Assignment) (v : Var) : Z := var_val (asg_l s) (asg_r s) (asg_o s) (asg_v s) v.
Definition lc_of (s : Assignment) (l : LinearCombination) : Z := lc_val (asg_l s) (asg_r s) (asg_o s) (asg_v s) l.
Definition solves (s : Assignment) (cs : list Constraint) : Prop := Forall (λ c, cong scL (lc_of s (lc c)) 0) cs.

(** Canonical coefficients. *)
Definition coeffs_ok (l : LinearCombination) : Prop := Forall (λ term, sc_canon term.2) l.

Definition forces (s : Assignment) (n n' : nat) {A} (Pre : Prop) (m : M R1CSProver A) (Post : A → Prop) : Prop :=
  ∀ p a p', prover_ops p = W → num_committed p = n → m p = Ok (a, p') →
    prover_ops p' = W ∧ num_committed p' = n' ∧ ∃ ks, constraints_ p' = constraints_ p ++ ks ∧ (Pre → solves s ks → Post a).

Lemma cong_minus_0 m x y : cong m (x - y) 0 → cong m x y.
Proof. intros H. replace x with (x - y + y) by ring. rewrite H. apply cong_eq. ring. Qed.

#[local] Opaque sc_val sc_mersenne_p sc_pow2_64 sc_from_u64.

Section Rules.
Context (s : Assignment) (n : nat).

Lemma forces_ret {A} (Pre : Prop) (a : A) (Post : A → Prop) : (Pre → Post a) → forces s n n Pre (mret a) Post.
Proof. intros H p b p' Hp Hn E. injection E as <- <-. split; [exact Hp|]. split; [exact Hn|]. exists []. rewrite app_nil_r. split; [reflexivity|]. intros HP _. exact (H HP). Qed.

Lemma forces_bind {A B} n1 n2 Pre (m : M R1CSProver A) (f : A → M R1CSProver B) Mid Post :
  forces s n n1 Pre m Mid → (∀ a, forces s n1 n2 (Pre ∧ Mid a) (f a) Post) → forces s n n2 Pre (m ≫= f) Post.
Proof.
  intros Hm Hf p b p' Hp Hn E. unfold mbind, M_bind in E. destruct (m p) as [[a p1]| |] eqn:E1; [|discriminate..].
  destruct (Hm p a p1 Hp Hn E1) as (Hp1 & Hn1 & ks1 & K1 & S1). destruct (Hf a p1 b p' Hp1 Hn1 E) as (Hp2 & Hn2 & ks2 & K2 & S2).
  split; [exact Hp2|]. split; [exact Hn2|]. exists (ks1 ++ ks2). split; [by rewrite K2, K1, app_assoc|]. intros HP [HS1 HS2]%Forall_app.
  apply S2; [|exact HS2]. split; [exact HP|]. exact (S1 HP HS1).
Qed.

Lemma forces_weaken {A} n' (Pre Pre' : Prop) (m : M R1CSProver A) (Post Post' : A → Prop) :
  forces s n n' Pre m Post → (Pre' → Pre) → (∀ a, Pre' → Post a → Post' a) → forces s n n' Pre' m Post'.
Proof.
  intros Hm H1 H2 p a p' Hp Hn E. destruct (Hm p a p' Hp Hn E) as (Hp1 & Hn1 & ks & K & S). split; [exact Hp1|]. split; [exact Hn1|]. exists ks. split; [exact K|].
  intros HP HS. apply H2; [exact HP|]. exact (S (H1 HP) HS).
Qed.

Lemma forces_throw {A} n' Pre e (Post : A → Prop) : forces s n n' Pre (lift (Throw e)) Post.
Proof. intros p a p' _ _ E. discriminate E. Qed.

Lemma forces_lift {A} Pre (r : res A) : forces s n n Pre (lift r) (λ a, r = Ok a).
Proof.
  intros p a p' Hp Hn E. destruct r as [b| |]; [|discriminate E..]. injection E as <- <-. split; [exact Hp|]. split; [exact Hn|].
  exists []. rewrite app_nil_r. split; [reflexivity|]. by intros _ _.
Qed.

(** A commitment has the next number. *)
Lemma forces_commit Pre v b : forces s n (S n) Pre (commit v b) (λ x, x = committed n).
Proof.
  intros p x p' Hp Hn E. unfold commit in E. injection E as <- <-. rewrite Hn. split; [by destruct (values_ p)|].
  split; [|exists []; rewrite app_nil_r; split; [by destruct (values_ p)|by intros _ _]].
  revert Hn. unfold num_committed. destruct (values_ p) eqn:V; cbn; rewrite V; [rewrite length_app; cbn; lia|lia].
Qed.

Lemma forces_ops Pre : forces s n n Pre get_ops (λ ops, ops = W).
Proof. intros p a p' Hp Hn E. injection E as <- <-. split; [exact Hp|]. split; [exact Hn|]. exists []. rewrite app_nil_r. split; [reflexivity|]. by intros _ _. Qed.

Lemma forces_constrain Pre l : forces s n n Pre (constrain l) (λ _, cong scL (lc_of s l) 0).
Proof. intros p a p' Hp Hn E. injection E as <- <-. split; [exact Hp|]. split; [exact Hn|]. exists [mkConstraint l]. split; [reflexivity|]. intros _ HS. by inversion HS. Qed.

Definition gate_of (lro : Var * Var * Var) : Prop :=
  let '(l, r, o) := lro in cong scL (value_of s o) (value_of s l * value_of s r).

Lemma gate_of_new i : gate_of (mult_left i, mult_right i, mult_out i).
Proof. apply asg_gates. Qed.

Lemma forces_allocate Pre a b : forces s n n Pre (allocate a b) gate_of.
Proof.
  intros p x p' Hp Hn E. unfold allocate in E. injection E as <- <-. split; [by destruct (values_ p)|].
  split; [revert Hn; unfold num_committed; by destruct (values_ p) eqn:V; cbn; rewrite V|]. exists []. rewrite app_nil_r.
  split; [by destruct (values_ p)|]. intros _ _. apply gate_of_new.
Qed.

(** ** Sums *)

Lemma lc_of_app a b : lc_of s (a ++ b) = lc_of s a + lc_of s b.
Proof. apply lsum_app. Qed.

Lemma lc_of_term v c : lc_of s (lc_term v c) = sc_val c * value_of s v.
Proof. unfold lc_of, lc_term, lc_val. rewrite lsum_cons. unfold lsum. cbn [foldr fst snd]. unfold value_of. ring. Qed.

Lemma lc_of_var v : lc_of s (lc_var v) = value_of s v.
Proof. change (lc_var v) with (lc_term v (mkScalar [1; 0; 0; 0])). rewrite lc_of_term, (proj2 (small_scalar 1 ltac:(done))). ring. Qed.

Lemma lc_of_sub a b : coeffs_ok b → cong scL (lc_of s (lc_sub a b)) (lc_of s a - lc_of s b).
Proof.
  intros Hb. unfold lc_sub. rewrite lc_of_app. assert (E : cong scL (lc_of s ((λ '(var, coeff), (var, sc_neg coeff)) <$> b)) (- lc_of s b)).
  { unfold lc_of, lc_val. induction Hb as [|[w c] b Hc _ IH]; [reflexivity|]. cbn [fmap list_fmap]. rewrite !lsum_cons. cbn [fst snd] in *.
    pose proof (is_sc_neg c _ (sc_is_val c Hc)) as [_ E]. unfold fmap in IH. rewrite E, IH. apply cong_eq. ring. }
  rewrite E. apply cong_eq. ring.
Qed.

Lemma coeffs_term v c : sc_canon c → coeffs_ok (lc_term v c).
Proof. intros Hc. constructor; [exact Hc|constructor]. Qed.

Lemma coeffs_var v : coeffs_ok (lc_var v).
Proof. apply coeffs_term. exact (proj1 is_one_scalar). Qed.

Lemma forces_multiply Pre ll lr : forces s n n Pre (multiply ll lr)
  (λ lro, let '(l, r, o) := lro in cong scL (lc_of s ll) (value_of s l) ∧ cong scL (lc_of s lr) (value_of s r) ∧ gate_of lro).
Proof.
  intros p x p' Hp Hn E. unfold multiply in E.
  set (i := num_gates p) in *.
  assert (H : ∀ p1, prover_ops p1 = W → num_committed p1 = n → constraints_ p1 = constraints_ p →
    let p2 := push_constraint (push_constraint p1 (mkConstraint (lc_sub ll (lc_var (mult_left i))))) (mkConstraint (lc_sub lr (lc_var (mult_right i)))) in
    prover_ops p2 = W ∧ num_committed p2 = n ∧ ∃ ks, constraints_ p2 = constraints_ p ++ ks ∧ (Pre → solves s ks →
      cong scL (lc_of s ll) (value_of s (mult_left i)) ∧ cong scL (lc_of s lr) (value_of s (mult_right i)) ∧ gate_of (mult_left i, mult_right i, mult_out i))).
  { intros p1 H1 HN H2. split; [exact H1|]. split; [exact HN|]. exists [mkConstraint (lc_sub ll (lc_var (mult_left i))); mkConstraint (lc_sub lr (lc_var (mult_right i)))].
    split; [cbn [constraints_ push_constraint]; by rewrite H2, <- app_assoc|]. intros _ HS. apply Forall_cons in HS as [Hl HS]. apply Forall_cons in HS as [Hr _].
    cbn [lc] in Hl, Hr. rewrite (lc_of_sub _ _ (coeffs_var _)), lc_of_var in Hl. rewrite (lc_of_sub _ _ (coeffs_var _)), lc_of_var in Hr.
    split; [exact (cong_minus_0 _ _ _ Hl)|]. split; [exact (cong_minus_0 _ _ _ Hr)|]. apply gate_of_new. }
  destruct (values_ p) eqn:V.
  - destruct (eval_lc p ll) as [aL| |]; [|discriminate..]. destruct (eval_lc p lr) as [aR| |]; [|discriminate..]. injection E as <- <-.
    refine (H (push_gate p _) Hp _ eq_refl). revert Hn. unfold num_committed. cbn. by rewrite V.
  - injection E as <- <-. refine (H (count_gate p) Hp _ eq_refl). revert Hn. unfold num_committed. cbn. by rewrite V.
Qed.

#[local] Opaque lc_var lc_term lc_sub.

(** ** Bits and ranges *)

Lemma bit_value x y o : cong scL o (x * y) → cong scL o 0 → cong scL (x + y - 1) 0 → cong scL x 0 ∨ cong scL x 1.
Proof.
  intros Ho H0 Hs. rewrite Ho in H0. destruct (cong_scL_0 _ _ H0) as [Hx|Hy]; [by left|right].
  rewrite Hy in Hs. replace (x + 0 - 1) with (x - 1) in Hs by ring. by apply cong_minus_0.
Qed.

Lemma range_loop_sound v_val bits : ∀ reconstruction power i, 
  forces s n n (coeffs_ok reconstruction ∧ sc_is power (2 ^ Z.of_nat i))
    (range_loop v_val bits reconstruction power)
    (λ l, coeffs_ok l ∧ ∃ x, 0 ≤ x < 2 ^ Z.of_nat (length bits) ∧ cong scL (lc_of s l) (lc_of s reconstruction + 2 ^ Z.of_nat i * x)).
Proof.
  induction bits as [|b bits IH]; intros reconstruction power i; cbn [range_loop length].
  - apply forces_ret. intros [Hc _]. split; [exact Hc|]. exists 0. split; [cbn; lia|]. apply cong_eq. ring.
  - eapply forces_bind; [apply forces_allocate|]. intros [[l r] o]. eapply forces_bind; [apply forces_constrain|]. intros [].
    eapply forces_bind; [apply forces_constrain|]. intros []. eapply forces_bind; [apply forces_ops|]. intros ops.
    eapply forces_weaken; [exact (IH (lc_add reconstruction (lc_term l power)) (so_mul ops power (sc_from_u64 2)) (Datatypes.S i))|..].
    + intros (((((Hc & Hp) & _) & _) & _) & ->). split; [apply Forall_app_2; [exact Hc|exact (coeffs_term _ _ (proj1 Hp))]|].
      rewrite Nat2Z.inj_succ, Z.pow_succ_r, Z.mul_comm by lia. exact (is_W_mul _ _ _ _ Hp two_scalar).
    + intros out (((((Hc & Hp) & Hg) & Ho) & Hs) & _) (Hl & x & Hx & E). split; [exact Hl|].
      rewrite (lc_of_sub _ _ (coeffs_var _)) in Hs. unfold lc_add in Hs, E. rewrite lc_of_app, lc_of_term in E. rewrite lc_of_app, !lc_of_var in Hs.
      rewrite lc_of_var in Ho. destruct Hp as [_ Hp]. rewrite Hp in E. rewrite Nat2Z.inj_succ, Z.pow_succ_r in E by lia.
      change (value_of s one) with 1 in Hs. pose proof (bit_value _ _ _ Hg Ho Hs) as HB.
      rewrite Nat2Z.inj_succ, Z.pow_succ_r by lia. destruct HB as [HB|HB]; rewrite HB in E.
      * exists (2 * x). split; [lia|]. rewrite E. apply cong_eq. ring.
      * exists (1 + 2 * x). split; [lia|]. rewrite E. apply cong_eq. ring.
Qed.

Lemma range_check_forces Pre v v_val n_bits : forces s n n Pre (range_check v v_val n_bits)
  (λ _, ∃ x, 0 ≤ x < 2 ^ Z.of_nat n_bits ∧ cong scL (value_of s v) x).
Proof.
  unfold range_check. destruct (negb _); [apply forces_throw|].
  eapply forces_bind; [eapply forces_weaken; [exact (range_loop_sound v_val (seq 0 n_bits) [] (sc_from_u64 1) 0)|..]|].
  - intros _. split; [constructor|]. exact one_scalar.
  - intros l _ H. exact H.
  - intros l. eapply forces_weaken; [apply forces_constrain|..]; [intros H; exact H|].
    intros _ [_ (_ & x & Hx & E)] Hs. rewrite length_seq in Hx. exists x. split; [exact Hx|].
    rewrite (lc_of_sub _ _ (coeffs_var _)), lc_of_var in Hs. symmetry. apply cong_minus_0 in Hs. rewrite <- Hs, E.
    change (lc_of s []) with 0. change (2 ^ Z.of_nat 0) with 1. apply cong_eq. ring.
Qed.

(** ** Elements of the field *)

Lemma reject_forces Pre v v_val : forces s n n Pre (reject_mersenne_modulus_alias v v_val) (λ _, ¬ cong scL (value_of s v) P).
Proof.
  unfold reject_mersenne_modulus_alias. eapply forces_bind; [apply forces_ops|]. intros ops. eapply forces_bind; [apply forces_allocate|].
  intros [[d j] o]. eapply forces_bind; [apply forces_constrain|]. intros [].
  eapply forces_weaken; [apply forces_constrain|..]; [intros H; exact H|]. intros [] [[_ Hg] Hd] Ho Hv.
  rewrite (lc_of_sub _ _ (coeffs_term _ _ (proj1 mersenne_scalar))) in Hd. unfold lc_add in Hd. rewrite lc_of_app, !lc_of_var, lc_of_term, (proj2 mersenne_scalar) in Hd.
  rewrite (lc_of_sub _ _ (coeffs_term _ _ (proj1 one_scalar))), lc_of_var, lc_of_term, (proj2 one_scalar) in Ho.
  change (value_of s one) with 1 in *. rewrite Hv in Hd. assert (D : cong scL (value_of s d) 0).
  { rewrite <- Hd. apply cong_eq. ring. }
  cbn [gate_of] in Hg. rewrite Hg, D in Ho. apply cong_minus_0 in Ho. pose proof scL_pos.
  assert (0 = 1); [|done]. apply (cong_small scL); [|lia..]. exact Ho.
Qed.

(** The wire holds [x], below [2^127], and below the modulus when the gadget is
    asked for canonical values. *)
Definition element (canonical : bool) (v : Var) (x : Z) : Prop :=
  cong scL (value_of s v) x ∧ 0 ≤ x < 2 ^ 127 ∧ (canonical = true → x < P).

(** The two limbs of [x]. *)
Definition limbs_of (x0_var x1_var : Var) (x : Z) : Prop :=
  ∃ a0 a1, 0 ≤ a0 < 2 ^ 64 ∧ 0 ≤ a1 < 2 ^ 63 ∧ cong scL (value_of s x0_var) a0 ∧ cong scL (value_of s x1_var) a1 ∧ x = a0 + 2 ^ 64 * a1.

Lemma element_unique canonical canonical' v x y : element canonical v x → element canonical' v y → x = y.
Proof.
  intros (Ex & Bx & _) (Ey & By & _). pose proof scL_large. apply (cong_small scL); [by rewrite <- Ex, <- Ey|lia..].
Qed.

Lemma forces_if Pre (c : bool) m Post : forces s n n Pre m (λ _ : unit, Post) → forces s n n Pre (if c then m else mret tt) (λ _, c = true → Post).
Proof.
  intros H. destruct c; [eapply forces_weaken; [exact H|..]; [intros H'; exact H'|by intros ? _ HP _]|]. apply forces_ret. by intros _ [=].
Qed.

Lemma below_modulus v x (canonical : bool) : 0 ≤ x < 2 ^ 127 → cong scL (value_of s v) x → (canonical = true → ¬ cong scL (value_of s v) P) → element canonical v x.
Proof.
  intros Hx E Hc. split; [exact E|]. split; [exact Hx|]. intros C. specialize (Hc C). assert (x ≠ P) by (intros ->; exact (Hc E)). unfold P in *. lia.
Qed.

Lemma limbs_forces Pre x_var x_val canonical : forces s n n Pre (limbs x_var x_val canonical)
  (λ xs, ∃ x, element canonical x_var x ∧ limbs_of xs.1 xs.2 x).
Proof.
  unfold limbs. eapply forces_bind; [apply forces_allocate|]. intros [[x0 r0] o0]. eapply forces_bind; [apply forces_allocate|]. intros [[x1 r1] o1].
  eapply forces_bind; [apply forces_constrain|]. intros []. eapply forces_bind; [apply range_check_forces|]. intros [].
  eapply forces_bind; [apply range_check_forces|]. intros []. eapply forces_bind; [apply forces_if, reject_forces|]. intros [].
  apply forces_ret. intros (((((_ & _) & Hl) & a0 & H0 & E0) & a1 & H1 & E1) & Hc).
  rewrite (lc_of_sub _ _ (coeffs_var _)) in Hl. unfold lc_add in Hl. rewrite lc_of_app, !lc_of_var, lc_of_term, (proj2 pow64_scalar), E0, E1 in Hl.
  apply cong_minus_0 in Hl. change (Z.of_nat 64) with 64 in H0. change (Z.of_nat 63) with 63 in H1.
  exists (a0 + 2 ^ 64 * a1). split; [|exact (ex_intro _ a0 (ex_intro _ a1 (conj H0 (conj H1 (conj E0 (conj E1 eq_refl))))))].
  apply below_modulus; [lia|by symmetry|exact Hc].
Qed.

(** The product of two elements. *)
Definition product (canonical : bool) (a_var b_var c_var : Var) : Prop :=
  ∃ a b c, element canonical a_var a ∧ element canonical b_var b ∧ element canonical c_var c ∧ cong P c (a * b).

Lemma quotient_exact a0 a1 b0 b1 c q : 0 ≤ a0 < 2 ^ 64 → 0 ≤ a1 < 2 ^ 63 → 0 ≤ b0 < 2 ^ 64 → 0 ≤ b1 < 2 ^ 63 → 0 ≤ c < 2 ^ 127 → 0 ≤ q < 2 ^ 66 →
  cong scL (q * P - a0 * b0 - 2 ^ 64 * (a0 * b1) - 2 ^ 64 * (a1 * b0) - 2 * (a1 * b1) + c) 0 →
  cong P c ((a0 + 2 ^ 64 * a1) * (b0 + 2 ^ 64 * b1)).
Proof.
  intros. set (T := a0 * b0 + 2 ^ 64 * (a0 * b1) + 2 ^ 64 * (a1 * b0) + 2 * (a1 * b1)).
  assert (HT : 0 ≤ T < 2 ^ 195) by (unfold T; nia). assert (Hq : 0 ≤ q * P + c < 2 ^ 194) by (unfold P; nia).
  assert (E : q * P + c = T).
  { pose proof scL_large. apply (cong_small scL); [|lia..]. apply cong_minus_0. rewrite <- H5. apply cong_eq. unfold T. ring. }
  apply (cong_shift P _ _ (- q - 2 * a1 * b1)). unfold T in E. unfold P in *. lia.
Qed.
Lemma limbs_product x0 x1 y0 y1 x y p00 p01 p10 p11 : limbs_of x0 x1 x → limbs_of y0 y1 y →
  cong scL p00 (value_of s x0 * value_of s y0) → cong scL p01 (value_of s x0 * value_of s y1) →
  cong scL p10 (value_of s x1 * value_of s y0) → cong scL p11 (value_of s x1 * value_of s y1) →
  ∀ c q, 0 ≤ c < 2 ^ 127 → 0 ≤ q < 2 ^ 66 → cong scL (q * P - p00 - 2 ^ 64 * p01 - 2 ^ 64 * p10 - 2 * p11 + c) 0 → cong P c (x * y).
Proof.
  intros (a0 & a1 & A0 & A1 & Ea0 & Ea1 & ->) (b0 & b1 & B0 & B1 & Eb0 & Eb1 & ->) E00 E01 E10 E11 c q Hc Hq HE.
  rewrite E00, E01, E10, E11, Ea0, Ea1, Eb0, Eb1 in HE. exact (quotient_exact a0 a1 b0 b1 c q A0 A1 B0 B1 Hc Hq HE).
Qed.

Lemma multiply_vars Pre a b : forces s n n Pre (multiply (lc_var a) (lc_var b)) (λ lro, cong scL (value_of s lro.2) (value_of s a * value_of s b)).
Proof.
  eapply forces_weaken; [apply forces_multiply|..]; [intros H; exact H|]. intros [[l r] o] _ (Hl & Hr & Hg). rewrite lc_of_var in Hl. rewrite lc_of_var in Hr.
  cbn [gate_of snd] in *. by rewrite Hg, Hl, Hr.
Qed.

Lemma multiply_modulus Pre q : forces s n n Pre (multiply (lc_var q) (lc_term one sc_mersenne_p)) (λ lro, cong scL (value_of s lro.2) (value_of s q * P)).
Proof.
  eapply forces_weaken; [apply forces_multiply|..]; [intros H; exact H|]. intros [[l r] o] _ (Hl & Hr & Hg). rewrite lc_of_var in Hl.
  rewrite lc_of_term, (proj2 mersenne_scalar) in Hr. change (value_of s one) with 1 in Hr. rewrite Z.mul_1_r in Hr.
  cbn [gate_of snd] in *. by rewrite Hg, <- Hl, <- Hr.
Qed.

Lemma fp_mul_forces Pre a_var a_val b_var b_val canonical :
  forces s n n Pre (fp_mul_gadget a_var a_val b_var b_val canonical) (λ r, product canonical a_var b_var (mul_var r)).
Proof.
  unfold fp_mul_gadget. eapply forces_bind; [apply limbs_forces|]. intros [a0 a1]. eapply forces_bind; [apply limbs_forces|]. intros [b0 b1].
  eapply forces_bind; [apply forces_ops|]. intros ops.
  eapply forces_bind; [apply multiply_vars|]. intros [[? ?] p00]. eapply forces_bind; [apply multiply_vars|]. intros [[? ?] p01].
  eapply forces_bind; [apply multiply_vars|]. intros [[? ?] p10]. eapply forces_bind; [apply multiply_vars|]. intros [[? ?] p11].
  cbv zeta. eapply forces_bind; [apply forces_allocate|]. intros [[c ?] ?]. eapply forces_bind; [apply forces_allocate|]. intros [[q ?] ?].
  eapply forces_bind; [apply multiply_modulus|]. intros [[? ?] qp]. eapply forces_bind; [apply forces_constrain|]. intros [].
  eapply forces_bind; [apply range_check_forces|]. intros []. eapply forces_bind; [apply forces_if, reject_forces|]. intros [].
  eapply forces_bind; [apply range_check_forces|]. intros []. apply forces_ret. cbn [mul_var].
  intros ((((((((((((((_ & a & Ha & La) & b & Hb & Lb) & _) & E00) & E01) & E10) & E11) & _) & _) & Eqp) & Hl) & c' & Hc & Ec) & Hcan) & q' & Hq & Eq).
  cbn [snd] in *. unfold lc_add in Hl. rewrite lc_of_app, lc_of_var in Hl.
  rewrite (lc_of_sub _ _ (coeffs_term _ _ (proj1 two_scalar))), lc_of_term, (proj2 two_scalar) in Hl.
  rewrite (lc_of_sub _ _ (coeffs_term _ _ (proj1 pow64_scalar))), lc_of_term, (proj2 pow64_scalar) in Hl.
  rewrite (lc_of_sub _ _ (coeffs_term _ _ (proj1 pow64_scalar))), lc_of_term, (proj2 pow64_scalar) in Hl.
  rewrite (lc_of_sub _ _ (coeffs_var _)), !lc_of_var, Eqp, Ec, Eq in Hl.
  exists a, b, c'. split; [exact Ha|]. split; [exact Hb|]. split; [exact (below_modulus c c' canonical Hc Ec Hcan)|].
  exact (limbs_product _ _ _ _ _ _ _ _ _ _ La Lb E00 E01 E10 E11 c' q' Hc Hq Hl).
Qed.

(** Powers of an element. *)
Definition power (canonical : bool) (e : Z) (x_var y_var : Var) : Prop :=
  ∃ x y, element canonical x_var x ∧ element canonical y_var y ∧ cong P y (x ^ e).

Lemma power_product canonical m k x_var y_var z_var w_var : 0 ≤ m → 0 ≤ k → power canonical m x_var y_var → power canonical k x_var z_var →
  product canonical y_var z_var w_var → power canonical (m + k) x_var w_var.
Proof.
  intros Hm Hn (x & y & Hx & Hy & E1) (x' & z & Hx' & Hz & E2) (y' & z' & w & Hy' & Hz' & Hw & E3).
  rewrite <- (element_unique _ _ _ _ _ Hx Hx') in E2. rewrite (element_unique _ _ _ _ _ Hy' Hy), (element_unique _ _ _ _ _ Hz' Hz), E1, E2 in E3.
  exists x, w. split; [exact Hx|]. split; [exact Hw|]. by rewrite Z.pow_add_r.
Qed.

Lemma power_1 canonical x_var x : element canonical x_var x → power canonical 1 x_var x_var.
Proof. intros Hx. exists x, x. split; [exact Hx|]. split; [exact Hx|]. by rewrite Z.pow_1_r. Qed.

Lemma square_power canonical x_var y_var : product canonical x_var x_var y_var → power canonical 1 x_var x_var ∧ power canonical 2 x_var y_var.
Proof.
  intros HP. pose proof HP as (x & _ & _ & Hx & _). pose proof (power_1 _ _ _ Hx) as H1. split; [exact H1|]. exact (power_product _ 1 1 _ _ _ _ ltac:(lia) ltac:(lia) H1 H1 HP).
Qed.

Lemma fp_cube_forces Pre x_var x_val canonical : forces s n n Pre (fp_cube_gadget x_var x_val canonical) (λ r, power canonical 3 x_var (mul_var r)).
Proof.
  unfold fp_cube_gadget. eapply forces_bind; [apply fp_mul_forces|]. intros x2. eapply forces_weaken; [apply fp_mul_forces|..]; [intros H; exact H|].
  intros r [_ H2] H3. destruct (square_power _ _ _ H2) as [K1 K2]. exact (power_product _ 2 1 _ _ _ _ ltac:(lia) ltac:(lia) K2 K1 H3).
Qed.

Lemma fp_fifth_forces Pre x_var x_val canonical : forces s n n Pre (fp_fifth_gadget x_var x_val canonical) (λ r, power canonical 5 x_var (mul_var r)).
Proof.
  unfold fp_fifth_gadget. eapply forces_bind; [apply fp_mul_forces|]. intros x2. eapply forces_bind; [apply fp_mul_forces|]. intros x4.
  eapply forces_weaken; [apply fp_mul_forces|..]; [intros H; exact H|].
  intros r [[_ H2] H4] H5. destruct (square_power _ _ _ H2) as [K1 K2]. pose proof (power_product _ 2 2 _ _ _ _ ltac:(lia) ltac:(lia) K2 K2 H4) as K4.
  exact (power_product _ 4 1 _ _ _ _ ltac:(lia) ltac:(lia) K4 K1 H5).
Qed.

(** ** Values bound to a commitment *)

Lemma fp127_decompose_forces Pre x_var x_val canonical : forces s n n Pre (fp127_decompose x_var x_val canonical)
  (λ l, ∃ x, element canonical x_var x ∧ limbs_of (x0_var l) (x1_var l) x).
Proof.
  unfold fp127_decompose. eapply forces_bind; [apply limbs_forces|]. intros [x0 x1]. apply forces_ret. intros [_ H]. exact H.
Qed.

(** The element is the committed residue, or the committed residue plus the modulus. *)
Definition bound_to (canonical : bool) (v_signed : Var) (r : BoundPcResult) : Prop :=
  ∃ x b, element canonical (bound_var r) x ∧ limbs_of (x0_var (bound_limbs r)) (x1_var (bound_limbs r)) x ∧
    (b = 0 ∨ b = 1) ∧ cong scL (value_of s v_signed + b * P) x.

Lemma bind_pc_value_forces Pre v_signed x_fp canonical : forces s n n Pre (bind_pc_value v_signed x_fp canonical) (bound_to canonical v_signed).
Proof.
  unfold bind_pc_value. cbv zeta. eapply forces_bind; [apply forces_allocate|]. intros [[b b'] o].
  eapply forces_bind; [apply forces_constrain|]. intros []. eapply forces_bind; [apply forces_constrain|]. intros [].
  eapply forces_bind; [apply forces_allocate|]. intros [[x ?] ?]. eapply forces_bind; [apply forces_constrain|]. intros [].
  eapply forces_bind; [apply fp127_decompose_forces|]. intros l. apply forces_ret. intros ((((((_ & Hg) & Ho) & Hs) & _) & Hx) & x' & He & Hl).
  rewrite lc_of_var in Ho. rewrite (lc_of_sub _ _ (coeffs_var _)) in Hs. unfold lc_add in Hs. rewrite lc_of_app, !lc_of_var in Hs.
  change (value_of s one) with 1 in Hs. cbn [gate_of] in Hg.
  rewrite (lc_of_sub _ _ (coeffs_term _ _ (proj1 mersenne_scalar))), (lc_of_sub _ _ (coeffs_var _)), !lc_of_var, lc_of_term, (proj2 mersenne_scalar), (proj1 He) in Hx.
  assert (K : ∀ c, cong scL (value_of s b) c → cong scL (value_of s v_signed + c * P) x').
  { intros c Hc. rewrite Hc in Hx. symmetry. apply cong_minus_0. rewrite <- Hx. apply cong_eq. ring. }
  destruct (bit_value _ _ _ Hg Ho Hs) as [H|H]; [exists x', 0|exists x', 1]; cbn [bound_var bound_limbs]; (split; [exact He|]); (split; [exact Hl|]); split; auto.
Qed.

(** ** Multiplication by a constant *)

Lemma folded_limbs A x xl : fp_ok A → limbs_of (x0_var xl) (x1_var xl) x →
  ∃ T, 0 ≤ T < 2 ^ 194 ∧ cong scL (lc_of s (folded_lc (fp_mul_const_var_folded A xl W))) T ∧ cong P T (val A * x).
Proof.
  intros HA (a0 & a1 & H0 & H1 & E0 & E1 & ->). pose proof (fp_ok_bounds A HA) as (Hl & Hh & _).
  exists (a0 * lo A + a1 * (2 ^ 64 * lo A) + a0 * (2 ^ 64 * hi A) + a1 * (2 * hi A)). split; [nia|]. split.
  - unfold fp_mul_const_var_folded. cbn [folded_lc]. unfold lc_add. rewrite !lc_of_app, !lc_of_term.
    pose proof (u64_scalar (lo A) Hl) as SL. pose proof (u64_scalar (hi A) ltac:(unfold word; lia)) as SH.
    rewrite (proj2 SL), (proj2 (is_W_mul _ _ _ _ pow64_scalar SL)), (proj2 (is_W_mul _ _ _ _ pow64_scalar SH)), (proj2 (is_W_mul _ _ _ _ two_scalar SH)), E0, E1.
    change (lc_of s []) with 0. apply cong_eq. ring.
  - unfold val. apply (cong_shift P _ _ (- 2 * hi A * a1)). unfold P. ring.
Qed.
End Rules.
