(* ===== verification/GadgetsComplete.v ===== *)
(** * The gadgets are complete

    On a prover that holds a solution, a gadget whose arguments hold the values
    that it is given never fails, and leaves a solution in which its result holds
    what it computes. *)

From S2P Require Import Prelude Primes Field Hash Rng Fe25519 Scalar25519 ScalarField Ristretto Msm Transcript Generators InnerProduct R1cs R1csSafe R1csAlgebra R1csHonest R1csCorrect Gadgets.

#[local] Opaque scL zinv sc_val sc_mersenne_p sc_pow2_64 sc_from_u64.

(** ** What variables and combinations hold *)

Definition holds_at (p : R1CSProver) (v : Var) (x : Z) : Prop := in_range p v ∧ cong scL (var_at p v) x.
Definition sums_to (p : R1CSProver) (l : LinearCombination) (x : Z) : Prop := lc_ok p l ∧ cong scL (lc_at p l) x.

Lemma holds_extends p p' v x : extends p p' → holds_at p v x → holds_at p' v x.
Proof. intros X [Hr Hv]. split; [exact (extends_in_range _ _ _ X Hr)|]. by rewrite (extends_var_at _ _ _ X Hr). Qed.

Lemma sums_extends p p' l x : extends p p' → sums_to p l x → sums_to p' l x.
Proof. intros X [Hr Hv]. split; [exact (extends_lc_ok _ _ _ X Hr)|]. by rewrite (extends_lc_at _ _ _ X Hr). Qed.

Lemma holds_one p : holds_at p one 1.
Proof. split; [done|]. reflexivity. Qed.

Lemma sums_var p v x : holds_at p v x → sums_to p (lc_var v) x.
Proof. intros [Hr Hv]. split; [exact (lc_ok_var _ _ Hr)|]. by rewrite lc_at_var. Qed.

Lemma sums_term p v c x y : holds_at p v x → sc_is c y → sums_to p (lc_term v c) (y * x).
Proof.
  intros [Hr Hv] [Hc Ec]. split; [constructor; [by split|constructor]|]. unfold lc_at, lc_term, lc_val. rewrite lsum_cons. unfold lsum. cbn [foldr fst snd].
  change (var_val _ _ _ _ v) with (var_at p v). rewrite Hv, Ec. apply cong_eq. ring.
Qed.

Lemma sums_sub p a b x y : sums_to p a x → sums_to p b y → sums_to p (lc_sub a b) (x - y).
Proof. intros [Ha Ea] [Hb Eb]. split; [exact (lc_ok_sub _ _ _ Ha Hb)|]. by rewrite (lc_at_sub _ _ _ Hb), Ea, Eb. Qed.

Lemma sums_add p a b x y : sums_to p a x → sums_to p b y → sums_to p (lc_add a b) (x + y).
Proof. intros [Ha Ea] [Hb Eb]. split; [exact (Forall_app_2 _ _ _ Ha Hb)|]. unfold lc_add. by rewrite lc_at_app, Ea, Eb. Qed.

Lemma sums_nil p : sums_to p [] 0.
Proof. split; [constructor|reflexivity]. Qed.

(** What a combination sums to, read off its syntax. *)
Ltac sc_const := lazymatch goal with
  | |- sc_is (sc_from_u64 1) _ => exact one_scalar
  | |- sc_is (sc_from_u64 2) _ => exact two_scalar
  | |- sc_is sc_mersenne_p _ => exact mersenne_scalar
  | |- sc_is sc_pow2_64 _ => exact pow64_scalar
  | |- _ => eassumption
  end.
Ltac holds := lazymatch goal with
  | |- holds_at _ one _ => exact (holds_one _)
  | |- _ => eassumption
  end.
Ltac sums := lazymatch goal with
  | |- sums_to _ (lc_sub _ _) _ => eapply sums_sub; sums
  | |- sums_to _ (lc_add _ _) _ => eapply sums_add; sums
  | |- sums_to _ (lc_var _) _ => eapply sums_var; holds
  | |- sums_to _ (lc_term _ _) _ => eapply sums_term; [holds|sc_const]
  | |- _ => eassumption
  end.

(** ** The operations *)

Lemma ops_runs p : good p → runs p get_ops (λ _ ops, ops = W).
Proof. intros G. exists (prover_ops p), p. split; [reflexivity|]. split; [exact G|]. split; [reflexivity|]. exact (proj1 (proj2 (proj1 G))). Qed.

Lemma alloc_runs p a b x y : good p → sc_is a x → sc_is b y →
  runs p (allocate a b) (λ p' lro, holds_at p' lro.1.1 x ∧ holds_at p' lro.1.2 y ∧ holds_at p' lro.2 (x * y)).
Proof.
  intros G Ha Hb. eapply runs_mono; [exact (allocate_runs p a b x y G Ha Hb)|]. intros p' [[l r] o] _ ((Rl & Rr & Ro) & El & Er & Eo).
  split; [by split|]. split; by split.
Qed.

Lemma mult_runs p a b x y : good p → sums_to p a x → sums_to p b y → runs p (multiply a b) (λ p' lro, holds_at p' lro.2 (x * y)).
Proof.
  intros G [Ha Ea] [Hb Eb]. eapply runs_mono; [exact (multiply_runs p a b G Ha Hb)|]. intros p' [[l r] o] _ ((_ & _ & Ro) & _ & _ & Eo).
  split; [exact Ro|]. cbn [snd]. by rewrite Eo, Ea, Eb.
Qed.

Lemma zero_runs p l x : good p → sums_to p l x → cong scL x 0 → runs p (constrain l) (λ _ _, True).
Proof. intros G [Hl El] E. apply (constrain_runs p l G Hl). by rewrite El. Qed.

(** Carry the facts about a prover to the one that extends it. *)
Ltac carry := repeat match goal with
  | X : extends ?p ?p', H : holds_at ?p _ _ |- _ => apply (holds_extends _ _ _ _ X) in H
  | X : extends ?p ?p', H : sums_to ?p _ _ |- _ => apply (sums_extends _ _ _ _ X) in H
  end.

(** ** Bits and ranges *)

Lemma nth_le64 ws i : Forall (word 64) ws → (i < length ws)%nat → nth i ws 0 = le64 ws / 2 ^ (64 * Z.of_nat i) mod 2 ^ 64.
Proof.
  intros Hw. revert i. induction Hw as [|w ws Hw _ IH]; intros i Hi; [cbn in Hi; lia|]. cbn [le64]. destruct i as [|i]; cbn [nth].
  - change (2 ^ (64 * Z.of_nat 0)) with 1. rewrite Z.div_1_r, Z.mul_comm, Z.mod_add, Z.mod_small by done. done.
  - rewrite IH by (cbn in Hi; lia). replace (64 * Z.of_nat (S i)) with (64 + 64 * Z.of_nat i) by lia.
    rewrite Z.pow_add_r, <- Z.div_div by lia. do 2 f_equal. unfold word in Hw. rewrite Z.mul_comm, Z.div_add, Z.div_small by lia. reflexivity.
Qed.

Lemma get_bit_spec v i : sc_ok v → (i < 256)%nat → get_bit v i = sc_val v / 2 ^ Z.of_nat i mod 2.
Proof.
  intros [Hl Hw] Hi. unfold get_bit, word_at. pose proof (Nat.div_mod_eq i 64) as E. pose proof (Nat.mod_upper_bound i 64 ltac:(lia)) as Hm.
  rewrite nth_le64 by (first [exact Hw|rewrite Hl; lia]). change (le64 (sv v)) with (sc_val v).
  change 1 with (Z.ones 1) at 1. rewrite Z.land_ones, Z.shiftr_div_pow2 by lia. change (2 ^ 1) with 2.
  rewrite <- !Z.testbit_spec', Z.mod_pow2_bits_low, Z.div_pow2_bits by lia. do 2 f_equal. lia.
Qed.

Lemma bit_01 x i : let b := x / 2 ^ Z.of_nat i mod 2 in (b = 0 ∨ b = 1) ∧ x mod 2 ^ Z.of_nat (S i) = x mod 2 ^ Z.of_nat i + b * 2 ^ Z.of_nat i.
Proof.
  cbv zeta. split; [pose proof (Z.mod_pos_bound (x / 2 ^ Z.of_nat i) 2); lia|].
  rewrite Nat2Z.inj_succ, Z.pow_succ_r, (Z.mul_comm 2), Z.rem_mul_r by lia. ring.
Qed.

Lemma range_loop_runs v_val n : sc_ok v_val → ∀ i p reconstruction power, (i + n ≤ 256)%nat → good p →
  sums_to p reconstruction (sc_val v_val mod 2 ^ Z.of_nat i) → sc_is power (2 ^ Z.of_nat i) →
  runs p (range_loop v_val (seq i n) reconstruction power) (λ p' l, sums_to p' l (sc_val v_val mod 2 ^ Z.of_nat (i + n))).
Proof.
  intros Hv. induction n as [|n IH]; intros i p reconstruction pw Hi G Hr Hp; cbn [seq range_loop].
  - apply runs_ret; [exact G|]. by rewrite Nat.add_0_r.
  - rewrite (get_bit_spec v_val i Hv) by lia. destruct (bit_01 (sc_val v_val) i) as [H01 E]. set (b := sc_val v_val / 2 ^ Z.of_nat i mod 2) in *.
    assert (Hb : sc_is (sc_from_u64 b) b) by (apply u64_scalar; unfold word; lia).
    eapply runs_bind; [exact (alloc_runs p _ _ _ _ G Hb (is_sc_sub _ _ _ _ one_scalar Hb))|]. intros [[l r] o] p1 G1 X1 (Hl & Hr' & Ho). cbn [fst snd] in *. carry.
    eapply runs_bind; [eapply (zero_runs p1 _ _ G1); [sums|]|].
    { apply cong_eq. lia. }
    intros [] p2 G2 X2 _. carry.
    eapply runs_bind; [eapply (zero_runs p2 _ _ G2); [sums|]|].
    { apply cong_eq. ring. }
    intros [] p3 G3 X3 _. carry. eapply runs_bind; [exact (ops_runs p3 G3)|]. intros ops p4 G4 X4 ->. carry.
    rewrite <- Nat.add_succ_comm. apply IH; [lia|exact G4| |].
    + rewrite E, (Z.mul_comm b). exact (sums_add _ _ _ _ _ Hr (sums_term _ _ _ _ _ Hl Hp)).
    + rewrite Nat2Z.inj_succ, Z.pow_succ_r, Z.mul_comm by lia. exact (is_W_mul _ _ _ _ Hp two_scalar).
Qed.

Lemma range_check_runs p v v_val n : good p → (0 < n ≤ 252)%nat → sc_ok v_val → sc_val v_val < 2 ^ Z.of_nat n → holds_at p v (sc_val v_val) →
  runs p (range_check v v_val n) (λ _ _, True).
Proof.
  intros G Hn Hv Hlt Hat. unfold range_check. rewrite (proj2 (Nat.ltb_lt _ _)), (proj2 (Nat.leb_le _ _)) by lia. cbn [andb negb].
  pose proof (sc_val_bound v_val Hv) as HB.
  eapply runs_bind; [apply (range_loop_runs v_val n Hv 0 p []); [lia|exact G| |exact one_scalar]|].
  { change (2 ^ Z.of_nat 0) with 1. rewrite Z.mod_1_r. apply sums_nil. }
  intros l p1 G1 X1 Hl. carry. rewrite Z.mod_small in Hl by (cbn [Nat.add]; lia).
  eapply (zero_runs p1 _ _ G1); [sums|]. apply cong_eq. ring.
Qed.

Lemma reject_runs p v v_val : good p → sc_canon v_val → sc_val v_val < P → holds_at p v (sc_val v_val) →
  runs p (reject_mersenne_modulus_alias v v_val) (λ _ _, True).
Proof.
  intros G Hc Hlt Hat. unfold reject_mersenne_modulus_alias. pose proof (sc_val_bound v_val (proj1 Hc)) as HB. pose proof scL_large as HL.
  eapply runs_bind; [exact (ops_runs p G)|]. intros ops p1 G1 X1 ->. carry. set (x := sc_val v_val) in *.
  pose proof (is_sc_sub _ _ _ _ mersenne_scalar (sc_is_val v_val Hc)) as Hd. fold x in Hd.
  assert (Hnz : ¬ cong scL (P - x) 0).
  { intros E. assert (P - x = 0); [|lia]. apply (cong_small scL); [exact E| |]; unfold P in *; lia. }
  eapply runs_bind; [exact (alloc_runs p1 _ _ _ _ G1 Hd (is_W_inv _ _ Hd))|]. intros [[d j] o] p2 G2 X2 (H1 & H2 & H3). cbn [fst snd] in *. carry.
  eapply runs_bind; [eapply (zero_runs p2 _ _ G2); [sums|]|].
  { apply cong_eq. ring. }
  intros [] p3 G3 X3 _. carry. eapply (zero_runs p3 _ _ G3); [sums|].
  rewrite (zinv_r _ Hnz). apply cong_eq. ring.
Qed.

(** ** Elements of the field *)

(** A canonical scalar below [2^127], and below the modulus when the gadget is
    asked for canonical values. *)
Definition element_val (canonical : bool) (v : Scalar) : Prop := sc_canon v ∧ sc_val v < 2 ^ 127 ∧ (canonical = true → sc_val v < P).

Lemma element_words canonical v : element_val canonical v →
  word 64 (word_at v 0) ∧ 0 ≤ word_at v 1 < 2 ^ 63 ∧ sc_val v = word_at v 0 + 2 ^ 64 * word_at v 1.
Proof.
  intros ((Hv & _) & Hlt & _). pose proof (sc_val_bound v Hv) as HB. destruct Hv as [Hl Hw]. unfold word_at.
  pose proof (nth_le64 (sv v) 0 Hw ltac:(lia)) as E0. pose proof (nth_le64 (sv v) 1 Hw ltac:(lia)) as E1. change (le64 (sv v)) with (sc_val v) in *.
  change (2 ^ (64 * Z.of_nat 0)) with 1 in E0. change (2 ^ (64 * Z.of_nat 1)) with (2 ^ 64) in E1. rewrite Z.div_1_r in E0.
  rewrite (Z.mod_small (sc_val v / 2 ^ 64)) in E1 by (split; [apply Z.div_pos; lia|apply Z.div_lt_upper_bound; lia]).
  rewrite E0, E1. split; [apply Z.mod_pos_bound; lia|]. split; [split; [apply Z.div_pos; lia|apply Z.div_lt_upper_bound; lia]|].
  rewrite Z.add_comm. apply Z.div_mod. lia.
Qed.

Lemma limbs_runs p x_var x_val canonical : good p → element_val canonical x_val → holds_at p x_var (sc_val x_val) →
  runs p (limbs x_var x_val canonical) (λ p' xs, holds_at p' xs.1 (word_at x_val 0) ∧ holds_at p' xs.2 (word_at x_val 1)).
Proof.
  intros G Hx Hat. destruct (element_words _ _ Hx) as (B0 & B1 & E). destruct Hx as (Hc & Hlt & Hcan).
  set (w0 := word_at x_val 0) in *. set (w1 := word_at x_val 1) in *. unfold limbs. fold w0 w1.
  pose proof (u64_scalar w0 B0) as S0. assert (B1' : word 64 w1) by (unfold word; lia). pose proof (u64_scalar w1 B1') as S1.
  eapply runs_bind; [exact (alloc_runs p _ _ _ _ G S0 one_scalar)|]. intros [[x0 ?] ?] p1 G1 X1 (H0 & _ & _). cbn [fst snd] in H0. carry.
  eapply runs_bind; [exact (alloc_runs p1 _ _ _ _ G1 S1 one_scalar)|]. intros [[x1 ?] ?] p2 G2 X2 (H1 & _ & _). cbn [fst snd] in H1. carry.
  eapply runs_bind; [eapply (zero_runs p2 _ _ G2); [sums|apply cong_eq; lia]|]. intros [] p3 G3 X3 _. carry.
  assert (V : ∀ w, word 64 w → sc_val (sc_from_u64 w) = w) by (intros w Hw; exact (proj2 (small_scalar w Hw))).
  eapply runs_bind; [apply range_check_runs; [exact G3|lia|exact (sc_is_ok _ _ S0)|rewrite V by exact B0; apply B0|rewrite V by exact B0; exact H0]|]. intros [] p4 G4 X4 _. carry.
  eapply runs_bind; [apply range_check_runs; [exact G4|lia|exact (sc_is_ok _ _ S1)|rewrite V by exact B1'; apply B1|rewrite V by exact B1'; exact H1]|]. intros [] p5 G5 X5 _. carry.
  eapply runs_bind with (Q := λ _ _, True).
  { destruct canonical; [|by apply runs_ret]. exact (reject_runs p5 x_var x_val G5 Hc (Hcan eq_refl) Hat). }
  intros [] p6 G6 X6 _. carry. apply runs_ret; [exact G6|]. by split.
Qed.

(** The result of a gadget: an element below the modulus, held by its wire. *)
Definition computes (p : R1CSProver) (r : FpMulResult) (z : Z) : Prop :=
  element_val true (mul_val r) ∧ holds_at p (mul_var r) (sc_val (mul_val r)) ∧ sc_val (mul_val r) = z.

Lemma fp_element canonical c : fp_ok c → element_val canonical (mkScalar [lo c; hi c; 0; 0]).
Proof.
  intros Hc. destruct (fp_scalar c Hc) as [C E]. pose proof (fp_ok_bounds c Hc) as (_ & _ & B). split; [exact C|]. rewrite E. unfold P in *. split; lia.
Qed.

Lemma sc_is_small v x : sc_is v x → 0 ≤ x < 2 ^ 252 → sc_val v = x.
Proof.
  intros [Hc E] Hx. pose proof scL_large. apply (cong_small scL); [exact E|split; [by apply sc_val_bound, Hc|apply Hc]|lia].
Qed.

(** The exact quotient of the folded product. *)
Lemma folded_quotient a0 a1 b0 b1 : word 64 a0 → 0 ≤ a1 < 2 ^ 63 → word 64 b0 → 0 ≤ b1 < 2 ^ 63 →
  let T := a0 * b0 + 2 ^ 64 * (a0 * b1 + a1 * b0) + 2 * (a1 * b1) in
  let c := ((a0 + 2 ^ 64 * a1) * (b0 + 2 ^ 64 * b1)) mod P in
  0 ≤ T / P < 2 ^ 66 ∧ T - c = T / P * P.
Proof.
  intros H0 H1 H2 H3 T c. unfold word in *. assert (HT : 0 ≤ T < 2 ^ 192 + 2 ^ 130) by (unfold T; nia).
  split; [split; [apply Z.div_pos; unfold P; lia|apply Z.div_lt_upper_bound; unfold P; lia]|].
  assert (E : c = T mod P).
  { unfold c. apply cong_mod_eq. apply (cong_shift P _ _ (2 * a1 * b1)). unfold T, P. ring. }
  rewrite E. pose proof (Z.div_mod T P ltac:(unfold P; lia)). lia.
Qed.

Lemma exact_quotient s q : sc_is s (q * P) → sc_is (so_mul W s (so_inv W sc_mersenne_p)) q.
Proof.
  intros Hs. eapply sc_is_cong; [exact (is_W_mul _ _ _ _ Hs (is_W_inv _ _ mersenne_scalar))|]. rewrite <- Z.mul_assoc, zinv_r; [apply cong_eq; ring|].
  intros E. assert (P = 0); [|done]. pose proof scL_large. apply (cong_small scL); [exact E|unfold P; lia|lia].
Qed.

(** The values that the prover puts on the wires of the product. *)
Lemma product_values canonical a_val b_val : element_val canonical a_val → element_val canonical b_val →
  let a0 := word_at a_val 0 in let a1 := word_at a_val 1 in let b0 := word_at b_val 0 in let b1 := word_at b_val 1 in
  let T := sc_add (sc_add (so_mul W (sc_from_u64 a0) (sc_from_u64 b0))
      (so_mul W sc_pow2_64 (sc_add (so_mul W (sc_from_u64 a0) (sc_from_u64 b1)) (so_mul W (sc_from_u64 a1) (sc_from_u64 b0)))))
    (so_mul W (sc_from_u64 2) (so_mul W (sc_from_u64 a1) (sc_from_u64 b1))) in
  let c_fp := fp_mul (mkFp a0 a1) (mkFp b0 b1) in
  let c_val := mkScalar [lo c_fp; hi c_fp; 0; 0] in
  element_val true c_val ∧ sc_val c_val = (sc_val a_val * sc_val b_val) mod P ∧
  ∃ q, 0 ≤ q < 2 ^ 66 ∧ sc_is (so_mul W (sc_sub T c_val) (so_inv W sc_mersenne_p)) q ∧
    q * P - a0 * b0 - 2 ^ 64 * (a0 * b1) - 2 ^ 64 * (a1 * b0) - 2 * (a1 * b1) + sc_val c_val = 0.
Proof.
  intros Ha Hb. destruct (element_words _ _ Ha) as (Wa0 & Ba1 & Ea). destruct (element_words _ _ Hb) as (Wb0 & Bb1 & Eb). cbv zeta.
  destruct (folded_quotient _ _ _ _ Wa0 Ba1 Wb0 Bb1) as [HQ HT]. rewrite <- Ea, <- Eb in HT.
  set (a0 := word_at a_val 0) in *. set (a1 := word_at a_val 1) in *. set (b0 := word_at b_val 0) in *. set (b1 := word_at b_val 1) in *.
  assert (Wa1 : word 64 a1) by (unfold word; lia). assert (Wb1 : word 64 b1) by (unfold word; lia).
  pose proof (u64_scalar a0 Wa0) as Sa0. pose proof (u64_scalar a1 Wa1) as Sa1. pose proof (u64_scalar b0 Wb0) as Sb0. pose proof (u64_scalar b1 Wb1) as Sb1.
  pose proof (is_sc_add _ _ _ _ (is_sc_add _ _ _ _ (is_W_mul _ _ _ _ Sa0 Sb0)
      (is_W_mul _ _ _ _ pow64_scalar (is_sc_add _ _ _ _ (is_W_mul _ _ _ _ Sa0 Sb1) (is_W_mul _ _ _ _ Sa1 Sb0))))
    (is_W_mul _ _ _ _ two_scalar (is_W_mul _ _ _ _ Sa1 Sb1))) as HTv.
  set (T := sc_add _ _) in *. destruct (fp_mul_words (mkFp a0 a1) (mkFp b0 b1) (conj Wa0 Wa1) (conj Wb0 Wb1)) as [Hc Vc].
  set (c := fp_mul _ _) in *. change (val c = ((a0 + 2 ^ 64 * a1) * (b0 + 2 ^ 64 * b1)) mod P) in Vc. rewrite <- Ea, <- Eb in Vc.
  pose proof (fp_element true c Hc) as Hcv. destruct (fp_scalar c Hc) as [Cc Vcs]. set (c_val := mkScalar [lo c; hi c; 0; 0]) in *.
  pose proof (sc_is_val c_val Cc) as Sc. rewrite Vcs, Vc in Sc. pose proof (is_sc_sub _ _ _ _ HTv Sc) as Hd. rewrite HT in Hd.
  split; [exact Hcv|]. split; [by rewrite Vcs, Vc|]. eexists. split; [exact HQ|]. split; [exact (exact_quotient _ _ Hd)|]. rewrite Vcs, Vc. lia.
Qed.

Lemma fp_mul_runs p a_var a_val b_var b_val canonical : good p → element_val canonical a_val → holds_at p a_var (sc_val a_val) →
  element_val canonical b_val → holds_at p b_var (sc_val b_val) →
  runs p (fp_mul_gadget a_var a_val b_var b_val canonical) (λ p' r, computes p' r ((sc_val a_val * sc_val b_val) mod P)).
Proof.
  intros G Ha Aa Hb Ab. unfold fp_mul_gadget.
  eapply runs_bind; [exact (limbs_runs p a_var a_val canonical G Ha Aa)|]. intros [a0v a1v] p1 G1 X1 [A0 A1]. cbn [fst snd] in *. carry.
  eapply runs_bind; [exact (limbs_runs p1 b_var b_val canonical G1 Hb Ab)|]. intros [b0v b1v] p2 G2 X2 [B0 B1]. cbn [fst snd] in *. carry.
  cbv zeta. eapply runs_bind; [exact (ops_runs p2 G2)|]. intros ops p3 G3 X3 ->. carry.
  destruct (product_values canonical a_val b_val Ha Hb) as (Hc & Vc & q & HQ & Hq & Eq). cbv zeta in Hc, Vc, Hq, Eq.
  set (c_val := mkScalar _) in *. set (q_val := so_mul W _ (so_inv W _)) in *.
  eapply runs_bind; [eapply (mult_runs p3 _ _ _ _ G3); sums|]. intros [[? ?] p00] p4 G4 X4 E00. cbn [snd] in E00. carry.
  eapply runs_bind; [eapply (mult_runs p4 _ _ _ _ G4); sums|]. intros [[? ?] p01] p5 G5 X5 E01. cbn [snd] in E01. carry.
  eapply runs_bind; [eapply (mult_runs p5 _ _ _ _ G5); sums|]. intros [[? ?] p10] p6 G6 X6 E10. cbn [snd] in E10. carry.
  eapply runs_bind; [eapply (mult_runs p6 _ _ _ _ G6); sums|]. intros [[? ?] p11] p7 G7 X7 E11. cbn [snd] in E11. carry.
  pose proof (sc_is_val c_val (proj1 Hc)) as Sc.
  eapply runs_bind; [exact (alloc_runs p7 _ _ _ _ G7 Sc one_scalar)|]. intros [[cv ?] ?] p8 G8 X8 (Hcv & _ & _). cbn [fst snd] in Hcv. carry.
  eapply runs_bind; [exact (alloc_runs p8 _ _ _ _ G8 Hq one_scalar)|]. intros [[qv ?] ?] p9 G9 X9 (Hqv & _ & _). cbn [fst snd] in Hqv. carry.
  eapply runs_bind; [eapply (mult_runs p9 _ _ _ _ G9); sums|]. intros [[? ?] qp] p10' G10 X10 Eqp. cbn [snd] in Eqp. carry.
  eapply runs_bind; [eapply (zero_runs p10' _ _ G10); [sums|]|].
  { apply cong_eq. rewrite <- Eq. ring. }
  intros [] p12 G12 X12 _. carry.
  eapply runs_bind; [apply range_check_runs; [exact G12|lia|exact (proj1 (proj1 Hc))|apply Hc|exact Hcv]|]. intros [] p13 G13 X13 _. carry.
  eapply runs_bind with (Q := λ _ _, True).
  { destruct canonical; [|by apply runs_ret]. exact (reject_runs p13 cv c_val G13 (proj1 Hc) (proj2 (proj2 Hc) eq_refl) Hcv). }
  intros [] p14 G14 X14 _. carry. pose proof (sc_is_small q_val q Hq ltac:(lia)) as Vq. rewrite <- Vq in Hqv.
  eapply runs_bind; [apply range_check_runs; [exact G14|lia|exact (sc_is_ok _ _ Hq)|rewrite Vq; apply HQ|exact Hqv]|]. intros [] p15 G15 X15 _. carry.
  apply runs_ret; [exact G15|]. split; [exact Hc|]. split; [exact Hcv|exact Vc].
Qed.

Lemma computes_extends p p' r z : extends p p' → computes p r z → computes p' r z.
Proof. intros X (H1 & H2 & H3). split; [exact H1|]. split; [exact (holds_extends _ _ _ _ X H2)|exact H3]. Qed.

Lemma element_weaken canonical v : element_val true v → element_val canonical v.
Proof. intros (H1 & H2 & H3). split; [exact H1|]. split; [exact H2|]. intros _. exact (H3 eq_refl). Qed.

Lemma fp_cube_runs p x_var x_val canonical : good p → element_val canonical x_val → holds_at p x_var (sc_val x_val) →
  runs p (fp_cube_gadget x_var x_val canonical) (λ p' r, computes p' r (sc_val x_val ^ 3 mod P)).
Proof.
  intros G Hx Hat. unfold fp_cube_gadget.
  eapply runs_bind; [exact (fp_mul_runs p _ _ _ _ _ G Hx Hat Hx Hat)|]. intros x2 p1 G1 X1 (H2 & A2 & V2). carry.
  eapply runs_mono; [exact (fp_mul_runs p1 _ _ _ _ _ G1 (element_weaken _ _ H2) A2 Hx Hat)|]. intros p' r _ Hr.
  rewrite V2, Z.mul_mod_idemp_l in Hr by done. replace (sc_val x_val ^ 3) with (sc_val x_val * sc_val x_val * sc_val x_val) by ring. exact Hr.
Qed.

Lemma fp_fifth_runs p x_var x_val canonical : good p → element_val canonical x_val → holds_at p x_var (sc_val x_val) →
  runs p (fp_fifth_gadget x_var x_val canonical) (λ p' r, computes p' r (sc_val x_val ^ 5 mod P)).
Proof.
  intros G Hx Hat. unfold fp_fifth_gadget.
  eapply runs_bind; [exact (fp_mul_runs p _ _ _ _ _ G Hx Hat Hx Hat)|]. intros x2 p1 G1 X1 (H2 & A2 & V2). carry.
  eapply runs_bind; [exact (fp_mul_runs p1 _ _ _ _ _ G1 (element_weaken _ _ H2) A2 (element_weaken _ _ H2) A2)|]. intros x4 p2 G2 X2 (H4 & A4 & V4). carry.
  eapply runs_mono; [exact (fp_mul_runs p2 _ _ _ _ _ G2 (element_weaken _ _ H4) A4 Hx Hat)|]. intros p' r _ Hr.
  rewrite V4, V2, <- Zmult_mod, Z.mul_mod_idemp_l in Hr by done.
  replace (sc_val x_val ^ 5) with (sc_val x_val * sc_val x_val * (sc_val x_val * sc_val x_val) * sc_val x_val) by ring. exact Hr.
Qed.

(** ** Values bound to a commitment *)

(** The limbs hold the two words of [x]. *)
Definition limbs_hold (p : R1CSProver) (l : FpLimbs) (x : Fp) : Prop :=
  (holds_at p (x0_var l) (lo x) ∧ sc_is (x0_val l) (lo x)) ∧ (holds_at p (x1_var l) (hi x) ∧ sc_is (x1_val l) (hi x)).

Lemma fp127_decompose_runs p x_var x canonical : good p → fp_ok x → holds_at p x_var (val x) →
  runs p (fp127_decompose x_var (mkScalar [lo x; hi x; 0; 0]) canonical) (λ p' l, limbs_hold p' l x).
Proof.
  intros G Hx Hat. unfold fp127_decompose. rewrite <- (proj2 (fp_scalar x Hx)) in Hat.
  eapply runs_bind; [exact (limbs_runs p x_var _ canonical G (fp_element canonical x Hx) Hat)|]. intros [x0 x1] p1 G1 X1 [H0 H1].
  apply runs_ret; [exact G1|]. destruct (fp_ok_words x Hx) as [Hl Hh]. split; (split; [assumption|by apply u64_scalar]).
Qed.

Lemma high_bit x : fp_ok x → negb (hi x .& wshl 64 1 62 =? 0) = negb (val x <? 2 ^ 126).
Proof.
  intros Hx. destruct (fp_ok_bounds x Hx) as (Bl & Bh & Bv). change (wshl 64 1 62) with (2 ^ 62). f_equal. apply eq_true_iff_eq. rewrite Z.eqb_eq, Z.ltb_lt.
  assert (E : hi x .& 2 ^ 62 = b2z (Z.testbit (hi x) 62) * 2 ^ 62).
  { apply Z.bits_inj'. intros i Hi. rewrite Z.land_spec, Z.pow2_bits_eqb by done.
    destruct (Z.eqb_spec 62 i) as [<-|Hne]; [destruct (Z.testbit (hi x) 62); done|].
    rewrite andb_false_r. destruct (Z.testbit (hi x) 62); cbn [b2z]; [|by rewrite Z.bits_0].
    rewrite Z.mul_1_l, Z.pow2_bits_eqb by done. symmetry. by apply Z.eqb_neq. }
  rewrite E. rewrite Z.testbit_eqb by done. unfold val.
  assert (hi x / 2 ^ 62 = 0 ∨ hi x / 2 ^ 62 = 1) as [Eq|Eq] by (clear -Bh; pow_consts; lia); rewrite Eq.
  - change (b2z (0 mod 2 =? 1)) with 0. clear -Bl Bh Eq. pow_consts. lia.
  - change (b2z (1 mod 2 =? 1)) with 1. clear -Bl Bh Eq. pow_consts. lia.
Qed.

(** What the committed variable must hold: the representative of [x] of absolute
    value at most [P / 2]. *)
Lemma bind_pc_value_runs p v_signed x canonical : good p → fp_ok x → holds_at p v_signed (centered (val x)) →
  runs p (bind_pc_value v_signed x canonical) (λ p' r, holds_at p' (bound_var r) (val x) ∧ sc_val (bound_val r) = val x ∧ limbs_hold p' (bound_limbs r) x).
Proof.
  intros G Hx Hat. unfold bind_pc_value. rewrite (high_bit x Hx). set (b := if negb _ then 1 else 0).
  assert (H01 : b = 0 ∨ b = 1) by (unfold b; destruct (val x <? _); auto). assert (Eb : centered (val x) = val x - b * P).
  { unfold centered, b. destruct (val x <? _); cbn [negb]; lia. }
  cbv zeta. assert (Hb : sc_is (sc_from_u64 b) b) by (apply u64_scalar; unfold word; lia). destruct (fp_scalar x Hx) as [Cx Vx]. pose proof (sc_is_val _ Cx) as Sx. rewrite Vx in Sx.
  eapply runs_bind; [exact (alloc_runs p _ _ _ _ G Hb (is_sc_sub _ _ _ _ one_scalar Hb))|]. intros [[l r] o] p1 G1 X1 (Hl & Hr & Ho). cbn [fst snd] in *. carry.
  eapply runs_bind; [eapply (zero_runs p1 _ _ G1); [sums|apply cong_eq; lia]|]. intros [] p2 G2 X2 _. carry.
  eapply runs_bind; [eapply (zero_runs p2 _ _ G2); [sums|apply cong_eq; ring]|]. intros [] p3 G3 X3 _. carry.
  eapply runs_bind; [exact (alloc_runs p3 _ _ _ _ G3 Sx one_scalar)|]. intros [[xv ?] ?] p4 G4 X4 (Hxv & _ & _). cbn [fst snd] in Hxv. carry.
  eapply runs_bind; [eapply (zero_runs p4 _ _ G4); [sums|apply cong_eq; lia]|]. intros [] p5 G5 X5 _. carry.
  eapply runs_bind; [exact (fp127_decompose_runs p5 xv x canonical G5 Hx Hxv)|]. intros lm p6 G6 X6 Hlm. carry.
  apply runs_ret; [exact G6|]. split; [exact Hxv|]. split; [exact Vx|exact Hlm].
Qed.

(** ** Multiplication by a constant *)

Lemma folded_sums p A x xl : fp_ok A → limbs_hold p xl x →
  ∃ T, sums_to p (folded_lc (fp_mul_const_var_folded A xl W)) T ∧ sc_is (folded_val (fp_mul_const_var_folded A xl W)) T.
Proof.
  intros HA ((H0 & S0) & (H1 & S1)). destruct (fp_ok_words A HA) as [Wl Wh]. pose proof (u64_scalar (lo A) Wl) as Sl. pose proof (u64_scalar (hi A) Wh) as Sh.
  pose proof (is_W_mul _ _ _ _ pow64_scalar Sl) as Sl'. pose proof (is_W_mul _ _ _ _ pow64_scalar Sh) as Sh'. pose proof (is_W_mul _ _ _ _ two_scalar Sh) as S2.
  exists (0 + lo A * lo x + 2 ^ 64 * lo A * hi x + 2 ^ 64 * hi A * lo x + 2 * hi A * hi x). unfold fp_mul_const_var_folded. cbn [folded_lc folded_val]. split.
  - pose proof (sums_nil p). repeat (eapply sums_add; [|eapply sums_term; eassumption]). exact H.
  - eapply sc_is_cong; [exact (is_sc_add _ _ _ _ (is_sc_add _ _ _ _ (is_W_mul _ _ _ _ Sl S0) (is_W_mul _ _ _ _ Sl' S1)) (is_sc_add _ _ _ _ (is_W_mul _ _ _ _ Sh' S0) (is_W_mul _ _ _ _ S2 S1)))|]. apply cong_eq. ring.
Qed.
