(* ===== verification/Stream.v ===== *)
(** * Byte streams: [Writer] and [Reader] of [pvac_ffi/pvac_serialize.hpp]

    A [Writer] is its buffer; a [Reader] is the bytes from [p] to [end] and the
    first error.  A failed reader returns defaults and never moves again.
    [Codec] is the contract between a field's writer and its reader: what is
    written is read back, and what a reader accepts is what the writer writes. *)

From S2P Require Import Prelude Field Hash Rng CtSafe Types Fe25519 Scalar25519 Ristretto.

(** ** Writing *)

Definition Writer := list Z → res (list Z).

Definition w_skip : Writer := λ buf, Ok buf.
Definition w_seq (a b : Writer) : Writer := λ buf, a buf ≫= b.
Declare Scope stream_scope.
Notation "a ⨟ b" := (w_seq a b) (at level 65, right associativity) : stream_scope.
#[local] Open Scope stream_scope.

(** [buf.insert(buf.end(), p, p + n)] *)
Definition w_raw (p : list Z) : Writer := λ buf, Ok (buf ++ p).

Definition w_u8 (v : Z) : Writer := w_raw [v].
Definition w_u16 (v : Z) : Writer := w_raw [v .& 0xFF; (v ≫ 8) .& 0xFF].
Definition w_u32 (v : Z) : Writer := w_raw ((λ i, (v ≫ (8 * i)) .& 0xFF) <$> zseq 0 4).
Definition w_u64 (v : Z) : Writer := w_raw ((λ i, (v ≫ (8 * i)) .& 0xFF) <$> zseq 0 8).
Definition w_i32 (v : Z) : Writer := w_u32 (wrap 32 v).
(** The argument is the bits of the [double]. *)
Definition w_f64 (v : Z) : Writer := w_u64 v.

Definition w_fp (x : Fp) : Writer :=
  if negb (fp_is_reduced x) then λ _, Throw "pvac_ser: noncanonical field element"
  else w_u64 (lo x) ⨟ w_u64 (hi x).

Definition w_scalar (s : Scalar) : Writer := w_raw (sc_tobytes s).

Definition w_rist_point (pt : list Z) : Writer := w_raw pt.

Fixpoint w_each {A} (f : A → Writer) (l : list A) : Writer :=
  match l with [] => w_skip | x :: l => f x ⨟ w_each f l end.

Definition w_size {A} (l : list A) : Writer := w_u64 (Z.of_nat (length l)).

Definition w_bitvec (bv : BitVec) : Writer :=
  w_u64 (nbits bv) ⨟ w_size (bw bv) ⨟ w_each w_u64 (bw bv).

Definition MAGIC : list Z := [80; 86; 65; 67].
Definition VERSION_V1 : Z := 1.
Definition VERSION_V2 : Z := 2.
Definition VERSION_V3 : Z := 3.
Definition VERSION_V4 : Z := 4.
Definition VERSION_V5 : Z := 5.
Definition VERSION : Z := VERSION_V3.

Definition w_header_version (tag version : Z) : Writer :=
  w_raw MAGIC ⨟ w_u8 version ⨟ w_u8 tag.

Definition w_header (tag : Z) : Writer := w_header_version tag VERSION.

(** ** Reading *)

Record Reader : Set := mkReader { rest : list Z; error : option string }.

(** Reading steps: a value and the reader after it. *)
Definition Rd (A : Type) : Type := Reader → A * Reader.

#[export] Instance Rd_ret : MRet Rd := λ A a r, (a, r).
#[export] Instance Rd_bind : MBind Rd := λ A B f g r, let '(a, r) := g r in f a r.

(** The constructor: a null pointer is [None]. *)
Definition reader_new (data : option (list Z)) (len : Z) : Reader :=
  match data with
  | Some data => mkReader data None
  | None => mkReader [] (if len =? 0 then None else Some "pvac_ser: truncated"%string)
  end.

Definition failed (r : Reader) : bool := match error r with Some _ => true | None => false end.

Definition r_failed : Rd bool := λ r, (failed r, r).

Definition r_fail (msg : string) : Rd unit := λ r,
  (tt, if failed r then r else mkReader (rest r) (Some msg)).

Definition remaining (r : Reader) : Z := Z.of_nat (length (rest r)).

Definition r_need (n : Z) : Rd unit := λ r,
  if failed r then (tt, r)
  else if remaining r <? n then r_fail "pvac_ser: truncated" r else (tt, r).

(** [n] bytes, or [None] when the reader fails. *)
Definition r_take (n : nat) : Rd (option (list Z)) := λ r,
  let '(_, r) := r_need (Z.of_nat n) r in
  if failed r then (None, r) else (Some (take n (rest r)), mkReader (drop n (rest r)) None).

Definition r_u8 : Rd Z :=
  o ← r_take 1; mret match o with None => 0 | Some b => nth 0 b 0 end.

Definition r_u16 : Rd Z :=
  o ← r_take 2; mret match o with None => 0 | Some b => nth 0 b 0 .| wshl 16 (nth 1 b 0) 8 end.

Definition r_u32 : Rd Z :=
  o ← r_take 4;
  mret match o with
  | None => 0
  | Some b => foldl (λ v i, v .| wshl 32 (nth (Z.to_nat i) b 0) (8 * i)) 0 (zseq 0 4)
  end.

Definition r_u64 : Rd Z :=
  o ← r_take 8;
  mret match o with
  | None => 0
  | Some b => foldl (λ v i, v .| wshl 64 (nth (Z.to_nat i) b 0) (8 * i)) 0 (zseq 0 8)
  end.

Definition r_i32 : Rd Z := v ← r_u32; mret (signed 32 v).
Definition r_f64 : Rd Z := r_u64.

Definition r_raw (n : nat) : Rd (list Z) :=
  o ← r_take n; mret match o with None => replicate n 0 | Some b => b end.

Definition r_fp : Rd Fp :=
  lo ← r_u64;
  hi ← r_u64;
  f ← r_failed;
  if f : bool then mret fp0
  else if negb (fp_is_reduced (mkFp lo hi)) then
    r_fail "pvac_ser: noncanonical field element";; mret fp0
  else mret (mkFp lo hi).

Definition r_scalar : Rd Scalar :=
  b ← r_raw 32;
  let scalar := sc_from_bytes b in
  f ← r_failed;
  _ ← (if negb f && negb (sc_is_canonical scalar)
       then r_fail "pvac_ser: non-canonical scalar encoding" else mret tt);
  f ← r_failed;
  mret (if f : bool then sc_zero else scalar).

Definition r_rist_point : Rd (list Z) :=
  pt ← r_raw 32;
  f ← r_failed;
  if f : bool then mret pt
  else
    _ ← match rist_decode pt with
        | None => r_fail "pvac_ser: invalid Ristretto point encoding"
        | Some _ => mret tt
        end;
    mret pt.

Definition r_check_count (count elem_bytes : Z) : Rd unit := λ r,
  if failed r then (tt, r)
  else
    let '(_, r) := if (0 <? elem_bytes) && (remaining r / elem_bytes <? count)
                   then r_fail "pvac_ser: count exceeds remaining data" r else (tt, r) in
    if 2 ^ 24 <? count then r_fail "pvac_ser: count exceeds maximum" r else (tt, r).

(** [if (!failed && b) fail(msg)] *)
Definition r_check (b : bool) (msg : string) : Rd unit :=
  if b then r_fail msg else mret tt.

Fixpoint r_each {A} (n : nat) (g : Rd A) : Rd (list A) :=
  match n with
  | O => mret []
  | S n => x ← g; l ← r_each n g; mret (x :: l)
  end.

Definition MAX_BITVEC_BITS : Z := 2 ^ 20.

Definition r_bitvec : Rd BitVec :=
  nbits ← r_u64;
  nw ← r_u64;
  _ ← r_check (MAX_BITVEC_BITS <? nbits) "pvac_ser: bitvec too large";
  _ ← r_check_count nw 8;
  let expected_nw := wrap 64 (nbits + 63) / 64 in
  _ ← r_check (negb (nw =? expected_nw)) "pvac_ser: bitvec word count mismatch";
  f ← r_failed;
  if f : bool then mret (mkBitVec nbits [])
  else w ← r_each (Z.to_nat nw) r_u64; mret (mkBitVec nbits w).

(** A count, its check and that many elements; nothing is read after a failure. *)
Definition r_vec {A} (elem_bytes : Z) (g : Rd A) : Rd (list A) :=
  n ← r_u64;
  _ ← r_check_count n elem_bytes;
  f ← r_failed;
  if f : bool then mret [] else r_each (Z.to_nat n) g.

Definition r_header (expected_tag : Z) : Rd Z :=
  m ← r_raw 4;
  f ← r_failed;
  if f : bool then mret 0
  else if negb (bool_decide (m = MAGIC)) then r_fail "pvac_ser: bad magic";; mret 0
  else
    ver ← r_u8;
    f ← r_failed;
    if f : bool then mret 0
    else if negb ((ver =? VERSION_V1) || (ver =? VERSION_V2) || (ver =? VERSION_V3) ||
                  (ver =? VERSION_V4) || (ver =? VERSION_V5)) then
      r_fail "pvac_ser: bad version";; mret 0
    else
      tag ← r_u8;
      f ← r_failed;
      if f : bool then mret 0
      else if negb (tag =? expected_tag) then r_fail "pvac_ser: wrong type tag";; mret 0
      else mret ver.

(** ** Little-endian words *)

Lemma store_bytes x n : (λ i, (x ≫ (8 * i)) .& 0xFF) <$> zseq 0 n = le_bytes n x.
Proof.
  assert (H : ∀ n s, 0 ≤ s → (λ i, (x ≫ (8 * i)) .& 0xFF) <$> zseq s n = le_bytes n (x / 2 ^ (8 * s))).
  { clear n. induction n as [|n IH]; intros s Hs; [done|]. cbn [zseq le_bytes fmap list_fmap].
    f_equal; [rewrite shr_div, (land_low _ 8) by lia; done|]. rewrite IH by lia. f_equal.
    replace (8 * (s + 1)) with (8 * s + 8) by lia.
    rewrite Z.pow_add_r, <- Z.div_div by lia. done. }
  rewrite H by lia. f_equal. apply Z.div_1_r.
Qed.

Lemma load_bytes w b n : bytes b → (n ≤ length b)%nat → 8 * Z.of_nat n ≤ w →
  foldl (λ v i, v .| wshl w (nth (Z.to_nat i) b 0) (8 * i)) 0 (zseq 0 n) = le_val (take n b).
Proof.
  intros Hb. induction n as [|n IH]; intros Hl Hw; [done|].
  rewrite zseq_snoc, foldl_snoc, IH by lia.
  destruct (lookup_lt_is_Some_2 b n ltac:(lia)) as [x Hx].
  rewrite (take_S_r _ _ _ Hx), le_val_app, length_take, Nat.min_l by lia.
  replace (Z.to_nat (0 + Z.of_nat n)) with n by lia. rewrite (nth_lookup_Some _ _ _ _ Hx).
  assert (Hxb : word 8 x) by (by eapply Forall_lookup_1).
  assert (Ht : bytes (take n b)) by (by apply Forall_take).
  pose proof (le_val_bound _ Ht) as Hv. rewrite length_take, Nat.min_l in Hv by lia.
  assert (E : 256 ^ Z.of_nat n = 2 ^ (8 * Z.of_nat n)) by (rewrite Z.pow_mul_r by lia; done).
  rewrite E in *. cbn [le_val]. unfold wshl. rewrite Z.add_0_l, shl_mul by lia. rewrite wrap_small.
  - rewrite lor_add by lia. lia.
  - unfold word in *. pose proof (Z.pow_pos_nonneg 2 (8 * Z.of_nat n) ltac:(lia) ltac:(lia)).
    split; [lia|]. apply (Z.lt_le_trans _ (2 ^ 8 * 2 ^ (8 * Z.of_nat n))); [nia|].
    rewrite <- Z.pow_add_r by lia. apply Z.pow_le_mono_r; lia.
Qed.

(** ** The contract of a writer and its reader *)

Definition reading (s : list Z) : Reader := mkReader s None.

(** [w] appends [bs]. *)
Definition enc (w : Writer) (bs : list Z) : Prop := bytes bs ∧ ∀ buf, w buf = Ok (buf ++ bs).

(** What [w] writes, [g] reads as [b]. *)
Definition put_get {B} (w : Writer) (g : Rd B) (b : B) : Prop :=
  ∃ bs, enc w bs ∧ ∀ s, g (reading (bs ++ s)) = (b, reading s).

(** What [g] accepts satisfies [Q] and is what [w] writes. *)
Definition get_put {B} (w : B → Writer) (g : Rd B) (Q : B → Prop) : Prop :=
  ∀ r b s, bytes (rest r) → g r = (b, reading s) →
    Q b ∧ ∃ bs, r = reading (bs ++ s) ∧ enc (w b) bs.

(** A failed reader stays failed. *)
Class Sticky {A} (g : Rd A) : Prop := sticky r : failed r = true → failed (g r).2 = true.

Class Codec {A} (put : A → Writer) (get : Rd A) (ok : A → Prop) : Prop := {
  codec_sticky :: Sticky get;
  codec_put a : ok a → put_get (put a) get a;
  codec_get : get_put put get ok }.

(** [w] appends at least [n] bytes; so do the writers of all valid values. *)
Definition grows (w : Writer) (n : Z) : Prop :=
  ∀ buf out, w buf = Ok out → Z.of_nat (length buf) + n ≤ Z.of_nat (length out).

Class Sized {A} (put : A → Writer) (ok : A → Prop) (n : Z) : Prop :=
  sized_grows a : ok a → grows (put a) n.

Lemma enc_raw p : bytes p → enc (w_raw p) p.
Proof. intros Hp. by split. Qed.

Lemma enc_skip : enc w_skip [].
Proof. split; [constructor|]. intros buf. by rewrite app_nil_r. Qed.

Lemma enc_seq a b x y : enc a x → enc b y → enc (a ⨟ b) (x ++ y).
Proof.
  intros [Hx Ea] [Hy Eb]. split; [by apply Forall_app|]. intros buf. unfold w_seq.
  rewrite Ea. cbn. by rewrite Eb, app_assoc.
Qed.

Lemma writes_inj w x y : enc w x → enc w y → x = y.
Proof. intros [_ H1] [_ H2]. pose proof (H1 []) as E1. rewrite H2 in E1. by injection E1. Qed.

Lemma grows_raw p n : Z.of_nat (length p) = n → grows (w_raw p) n.
Proof. intros <- buf out [= <-]. rewrite length_app. lia. Qed.

Lemma grows_seq a b n m k : grows a n → grows b m → k ≤ n + m → grows (a ⨟ b) k.
Proof.
  intros Ha Hb Hk buf out. unfold w_seq. intros (x & Hx & Hy)%res_bind_Ok.
  specialize (Ha buf x Hx). specialize (Hb x out Hy). lia.
Qed.

Lemma grows_each {A} (f : A → Writer) l : (∀ a, grows (f a) 0) → grows (w_each f l) 0.
Proof.
  intros Hf. induction l as [|x l IH]; cbn [w_each]; [intros buf out [= <-]; lia|].
  by apply (grows_seq _ _ 0 0).
Qed.

Lemma grows_elems {A} (f : A → Writer) l n : Forall (λ a, grows (f a) n) l →
  grows (w_each f l) (Z.of_nat (length l) * n).
Proof.
  induction 1 as [|x l Hx _ IH]; cbn [w_each length]; [intros buf out [= <-]; lia|].
  apply (grows_seq _ _ _ _ _ Hx IH). lia.
Qed.

Lemma grows_enc w n bs : grows w n → enc w bs → n ≤ Z.of_nat (length bs).
Proof. intros Hw [_ He]. pose proof (Hw [] bs (He [])) as H. cbn in H. lia. Qed.

Lemma bytes_app x y : bytes (x ++ y) → bytes x ∧ bytes y.
Proof. apply Forall_app. Qed.

Section combinators.
Context {A B : Type} (putA : A → Writer) (getA : Rd A) (okA : A → Prop) `{!Codec putA getA okA}.

Lemma put_get_bind a w (k : A → Rd B) b : okA a → put_get w (k a) b → put_get (putA a ⨟ w) (x ← getA; k x) b.
Proof.
  intros Ha (bs & He & Hk). destruct (codec_put a Ha) as (xs & Hx & Hg).
  exists (xs ++ bs). split; [by apply enc_seq|]. intros s.
  unfold mbind, Rd_bind. by rewrite <- app_assoc, Hg, Hk.
Qed.

Lemma get_put_bind (w : B → Writer) (k : A → Rd B) (f : B → A) Q : (∀ a, Sticky (k a)) →
  (∀ a, okA a → get_put w (k a) (λ b, f b = a ∧ Q b)) →
  get_put (λ b, putA (f b) ⨟ w b) (x ← getA; k x) Q.
Proof.
  intros Sk Hk r b s Hr E. unfold mbind, Rd_bind in E. destruct (getA r) as [a [s1 [e1|]]] eqn:Ea.
  { pose proof (Sk a (mkReader s1 (Some e1)) eq_refl) as F. by rewrite E in F. }
  destruct (codec_get r a s1 Hr Ea) as (Ha & xs & -> & Hx).
  destruct (Hk a Ha (reading s1) b s) as ([Hf HQ] & bs & [= ->] & Hb); [by apply bytes_app in Hr as []|done|].
  split; [done|]. exists (xs ++ bs). rewrite app_assoc. split; [done|]. apply enc_seq; [by rewrite Hf|done].
Qed.
End combinators.

Lemma put_get_ret {B} (b : B) : put_get w_skip (mret b) b.
Proof. exists []. split; [apply enc_skip|done]. Qed.

Lemma get_put_ret {B} (b : B) (Q : B → Prop) : Q b → get_put (λ _, w_skip) (mret b) Q.
Proof.
  intros HQ r b' s Hr [= <- ->]. split; [done|]. exists []. split; [done|apply enc_skip].
Qed.

(** *** Steps that write nothing *)

Lemma failed_reading s : failed (reading s) = false.
Proof. done. Qed.

Lemma put_get_failed {B} w (x : B) (k : Rd B) b :
  put_get w k b → put_get w (f ← r_failed; if f : bool then mret x else k) b.
Proof. intros (bs & He & Hk). exists bs. split; [done|]. intros s. apply Hk. Qed.

Lemma get_put_failed {B} (w : B → Writer) (x : B) (k : Rd B) Q :
  get_put w k Q → get_put w (f ← r_failed; if f : bool then mret x else k) Q.
Proof.
  intros Hk r b s Hr. unfold mbind, Rd_bind, r_failed. destruct r as [s1 [e|]]; cbn; [by intros [=]|].
  apply (Hk (reading s1)). done.
Qed.

Lemma put_get_check {B} w (c : bool) msg (k : Rd B) b :
  c = false → put_get w k b → put_get w (r_check c msg;; k) b.
Proof. intros -> H. exact H. Qed.

Lemma get_put_check {B} (w : B → Writer) (c : bool) msg (k : Rd B) Q : Sticky k →
  (c = false → get_put w k Q) → get_put w (r_check c msg;; k) Q.
Proof.
  intros Sk Hk. destruct c; [|by apply Hk]. intros r b s Hr E. exfalso.
  assert (F : failed (k (snd (r_fail msg r))).2 = true).
  { apply sticky. unfold r_fail. cbn. by destruct r as [? [?|]]. }
  unfold mbind, Rd_bind, r_check in E. cbn in E. cbn in F. by rewrite E in F.
Qed.

#[export] Instance sticky_ret {B} (b : B) : Sticky (mret b).
Proof. by intros r. Qed.
#[export] Instance sticky_bind {A B} (g : Rd A) (k : A → Rd B) : Sticky g → (∀ a, Sticky (k a)) → Sticky (g ≫= k).
Proof.
  intros Sg Sk r Hr. pose proof (Sg r Hr) as H. unfold mbind, Rd_bind. destruct (g r) as [a r1]. by apply Sk.
Qed.
#[export] Instance sticky_if {B} (c : bool) (g h : Rd B) : Sticky g → Sticky h → Sticky (if c then g else h).
Proof. by destruct c. Qed.
#[export] Instance sticky_failed : Sticky r_failed.
Proof. by intros r. Qed.
#[export] Instance sticky_fail msg : Sticky (r_fail msg).
Proof. intros r Hr. unfold r_fail. cbn. by rewrite Hr. Qed.
#[export] Instance sticky_check c msg : Sticky (r_check c msg).
Proof. unfold r_check. apply _. Qed.
#[export] Instance sticky_check_count n k : Sticky (r_check_count n k).
Proof. intros r Hr. unfold r_check_count. by rewrite Hr. Qed.
#[export] Instance sticky_take n : Sticky (r_take n).
Proof. intros r Hr. unfold r_take, r_need. by rewrite Hr, Hr. Qed.
#[export] Instance sticky_each {A} n (g : Rd A) : Sticky g → Sticky (r_each n g).
Proof. intros Sg. induction n; cbn [r_each]; apply _. Qed.
#[export] Instance sticky_vec {A} k (g : Rd A) : Sticky g → Sticky (r_vec k g).
Proof. intros Sg. unfold r_vec. apply _. Qed.

(** ** The contracts of the primitive fields *)

Lemma r_take_app n bs s : length bs = n → r_take n (reading (bs ++ s)) = (Some bs, reading s).
Proof.
  intros <-. unfold r_take, r_need, remaining. cbn [failed error reading rest].
  rewrite length_app. destruct (Z.ltb_spec (Z.of_nat (length bs + length s)) (Z.of_nat (length bs))); [lia|].
  cbn. by rewrite take_app_length, drop_app_length.
Qed.

Lemma r_take_inv n r o s : r_take n r = (o, reading s) →
  ∃ bs, o = Some bs ∧ length bs = n ∧ r = reading (bs ++ s).
Proof.
  unfold r_take, r_need. destruct r as [l [e|]]; [done|]. unfold remaining. cbn [failed error rest].
  destruct (Z.ltb_spec (Z.of_nat (length l)) (Z.of_nat n)); [by intros [=]|]. intros [= <- <-].
  exists (take n l). split; [done|]. split; [rewrite length_take; lia|]. unfold reading. by rewrite take_drop.
Qed.

(** Fields of a fixed length [n]. *)
Lemma fixed_codec {A} n (put : A → Writer) (f : option (list Z) → A) (to : A → list Z) ok :
  (∀ a, put a = w_raw (to a)) →
  (∀ a, ok a → length (to a) = n ∧ bytes (to a) ∧ f (Some (to a)) = a) →
  (∀ bs, length bs = n → bytes bs → ok (f (Some bs)) ∧ to (f (Some bs)) = bs) →
  Codec put (o ← r_take n; mret (f o)) ok.
Proof.
  intros Hput Hok Hbs. split; [apply _| |].
  - intros a Ha. destruct (Hok a Ha) as (Hl & Hb & Hf). exists (to a). rewrite Hput. split; [by apply enc_raw|].
    intros s. unfold mbind, Rd_bind. rewrite r_take_app by done. cbn. by rewrite Hf.
  - intros r a s Hr. unfold mbind, Rd_bind. destruct (r_take n r) as [o r1] eqn:E. intros [= <- ->].
    apply r_take_inv in E as (bs & -> & Hl & ->). apply bytes_app in Hr as [Hb _].
    destruct (Hbs bs Hl Hb) as [H1 H2]. split; [done|]. exists bs. rewrite Hput, H2. split; [done|by apply enc_raw].
Qed.

#[export] Instance raw_codec n : Codec w_raw (r_raw n) (λ p, length p = n ∧ bytes p).
Proof. apply (fixed_codec n w_raw _ id); [done|naive_solver|naive_solver]. Qed.

Lemma word_codec n (put : Z → Writer) (f : option (list Z) → Z) :
  (∀ v, put v = w_raw (le_bytes n v)) → (∀ bs, length bs = n → bytes bs → f (Some bs) = le_val bs) →
  Codec put (o ← r_take n; mret (f o)) (word (8 * Z.of_nat n)).
Proof.
  assert (E : 256 ^ Z.of_nat n = 2 ^ (8 * Z.of_nat n)) by (rewrite Z.pow_mul_r by lia; done).
  intros Hput Hf. apply (fixed_codec n put f (le_bytes n)); [done| |].
  - intros v Hv. rewrite length_le_bytes. split; [done|]. split; [apply le_bytes_bytes|].
    rewrite Hf by (apply length_le_bytes || apply le_bytes_bytes). apply le_val_bytes. by rewrite E.
  - intros bs Hl Hb. rewrite Hf by done. split.
    + pose proof (le_val_bound bs Hb) as H. rewrite Hl, E in H. done.
    + rewrite <- Hl. by apply le_bytes_val.
Qed.

#[export] Instance u64_codec : Codec w_u64 r_u64 (word 64).
Proof.
  apply (word_codec 8); [intros v; unfold w_u64; by rewrite store_bytes|].
  intros bs Hl Hb. rewrite (load_bytes 64 bs 8) by (done || lia). by rewrite take_ge by lia.
Qed.
#[export] Instance u32_codec : Codec w_u32 r_u32 (word 32).
Proof.
  apply (word_codec 4); [intros v; unfold w_u32; by rewrite store_bytes|].
  intros bs Hl Hb. rewrite (load_bytes 32 bs 4) by (done || lia). by rewrite take_ge by lia.
Qed.

#[export] Instance u8_codec : Codec w_u8 r_u8 (word 8).
Proof.
  apply (fixed_codec 1 w_u8 _ (λ v, [v])); [done| |].
  - intros v Hv. split; [done|]. split; [by apply Forall_singleton|done].
  - intros [|v [|]] Hl Hb; try done. apply Forall_cons in Hb as [Hv _]. by split.
Qed.

#[export] Instance u16_codec : Codec w_u16 r_u16 (word 16).
Proof.
  apply (word_codec 2).
  - intros v. unfold w_u16. cbn [le_bytes]. do 2 f_equal; [apply (land_low v 8); done|]. f_equal.
    rewrite shr_div by done. apply (land_low _ 8); done.
  - intros [|b0 [|b1 [|]]] Hl Hb; try done. apply Forall_cons in Hb as [H0 Hb]. apply Forall_cons in Hb as [H1 _].
    cbn [nth le_val]. unfold word, wshl in *. rewrite shl_mul by done.
    rewrite wrap_small by (unfold word; pow_consts; lia). rewrite (lor_add b0 b1 8) by (pow_consts; lia). pow_consts. lia.
Qed.

(** A codec through a bijection of the values. *)
Lemma iso_codec {A B} (put : A → Writer) (get : Rd A) ok `{!Codec put get ok} (from : A → B) (to : B → A) okB :
  (∀ b, okB b → ok (to b) ∧ from (to b) = b) → (∀ a, ok a → okB (from a) ∧ to (from a) = a) →
  Codec (λ b, put (to b)) (a ← get; mret (from a)) okB.
Proof.
  intros Hb Ha. split; [pose proof (codec_sticky (put := put)); apply _| |].
  - intros b Ob. destruct (Hb b Ob) as [Oa E]. destruct (codec_put _ Oa) as (bs & He & Hg).
    exists bs. split; [done|]. intros s. unfold mbind, Rd_bind. rewrite Hg. cbn. by rewrite E.
  - intros r b s Hr. unfold mbind, Rd_bind. destruct (get r) as [a r1] eqn:E. intros [= <- ->].
    destruct (codec_get r a s Hr E) as (Oa & bs & -> & He). destruct (Ha a Oa) as [Ob Et].
    split; [done|]. exists bs. by rewrite Et.
Qed.

Definition int32 (v : Z) : Prop := - 2 ^ 31 ≤ v < 2 ^ 31.

#[export] Instance i32_codec : Codec w_i32 r_i32 int32.
Proof.
  apply (iso_codec w_u32 r_u32 (word 32) (signed 32) (wrap 32)); unfold int32, word, signed, wrap;
    change (2 ^ (32 - 1)) with 2147483648; change (2 ^ 32) with 4294967296; change (2 ^ 31) with 2147483648.
  - intros v Hv. split; [lia|]. destruct (Z.ltb_spec (v mod 4294967296) 2147483648); lia.
  - intros v Hv. destruct (Z.ltb_spec v 2147483648); split; lia.
Qed.

#[export] Instance f64_codec : Codec w_f64 r_f64 (word 64) := u64_codec.

(** Writers that agree on the accepted values. *)
Lemma put_get_conv {B} (w w' : Writer) (g : Rd B) b :
  (∀ buf, w' buf = w buf) → put_get w g b → put_get w' g b.
Proof. intros Hw (bs & [Hb He] & Hg). exists bs. split; [|done]. split; [done|]. intros. by rewrite Hw. Qed.

Lemma get_put_conv {B} (w w' : B → Writer) g Q :
  (∀ b buf, Q b → w' b buf = w b buf) → get_put w g Q → get_put w' g Q.
Proof.
  intros Hw H r b s Hr E. destruct (H r b s Hr E) as (HQ & bs & Er & Hb & He). split; [done|].
  exists bs. split; [done|]. split; [done|]. intros. by rewrite Hw.
Qed.

Lemma w_seq_skip w buf : (w ⨟ w_skip) buf = w buf.
Proof. unfold w_seq, w_skip. by destruct (w buf). Qed.

Lemma w_seq_assoc a b c buf : ((a ⨟ b) ⨟ c) buf = (a ⨟ b ⨟ c) buf.
Proof. unfold w_seq. by destruct (a buf). Qed.

Lemma w_seq_cong a b c buf : (∀ buf, b buf = c buf) → (a ⨟ b) buf = (a ⨟ c) buf.
Proof. intros H. unfold w_seq. destruct (a buf); [apply H|done..]. Qed.

Lemma get_put_fail {B} (w : B → Writer) msg (k : Rd B) Q : Sticky k → get_put w (r_fail msg;; k) Q.
Proof. intros Sk. apply (get_put_check _ true); done. Qed.

#[export] Instance fp_codec : Codec w_fp r_fp fp_ok.
Proof.
  split; [unfold r_fp; apply _| |].
  - intros x Hx. destruct (fp_ok_words x Hx) as [Hl Hh].
    pose proof (proj2 (fp_is_reduced_spec x (conj Hl Hh)) Hx) as Er.
    apply (put_get_conv (w_u64 (lo x) ⨟ w_u64 (hi x) ⨟ w_skip)).
    { intros buf. unfold w_fp. rewrite Er. apply w_seq_cong. intros. by rewrite w_seq_skip. }
    unfold r_fp. eapply put_get_bind; [apply _|done|]. eapply put_get_bind; [apply _|done|]. apply put_get_failed.
    destruct x as [l h]. cbn [lo hi] in *. rewrite Er. apply put_get_ret.
  - apply (get_put_conv (λ x, w_u64 (lo x) ⨟ w_u64 (hi x) ⨟ w_skip)).
    { intros x buf Hx. unfold w_fp. rewrite (proj2 (fp_is_reduced_spec x (fp_ok_words x Hx)) Hx).
      symmetry. apply w_seq_cong. intros. by rewrite w_seq_skip. }
    eapply get_put_bind; [apply _|apply _|]. intros l Hl.
    eapply get_put_bind; [apply _|apply _|]. intros h Hh. apply get_put_failed.
    destruct (fp_is_reduced (mkFp l h)) eqn:E; cbn [negb]; [|apply get_put_fail, _].
    apply get_put_ret. split; [done|]. split; [done|]. by apply (fp_is_reduced_spec (mkFp l h) (conj Hl Hh)).
Qed.

(** One step of a reader. *)
Lemma Rd_step {A B} (g : Rd A) (k : A → Rd B) r a r1 : g r = (a, r1) → (x ← g; k x) r = k a r1.
Proof. intros E. unfold mbind, Rd_bind. by rewrite E. Qed.

(** *** Points and scalars: bytes with a validity check *)

Definition point_ok (pt : list Z) : Prop := length pt = 32%nat ∧ bytes pt ∧ rist_decode pt ≠ None.

#[export] Instance point_codec : Codec w_rist_point r_rist_point point_ok.
Proof.
  assert (S : ∀ pt, Sticky (match rist_decode pt with
    | None => r_fail "pvac_ser: invalid Ristretto point encoding" | Some _ => mret tt end)).
  { intros pt. destruct (rist_decode pt); apply _. }
  split; [unfold r_rist_point; apply _| |].
  - intros pt (Hl & Hb & Hd).
    apply (put_get_conv (w_raw pt ⨟ w_skip)); [intros; by rewrite w_seq_skip|]. unfold r_rist_point.
    eapply put_get_bind; [apply _|by split|]. apply put_get_failed.
    destruct (rist_decode pt); [apply put_get_ret|done].
  - apply (get_put_conv (λ pt, w_raw pt ⨟ w_skip)); [intros; by rewrite w_seq_skip|].
    eapply get_put_bind; [apply _|apply _|]. intros pt [Hl Hb]. apply get_put_failed.
    destruct (rist_decode pt) eqn:E; [|apply get_put_fail, _].
    apply (get_put_ret pt). split; [done|]. split; [done|]. by rewrite E.
Qed.

Lemma sc_from_tobytes a : sc_ok a → sc_from_bytes (sc_tobytes a) = a.
Proof.
  intros Ha. rewrite (sc_tobytes_spec a Ha).
  destruct (sc_from_bytes_spec (le_bytes 32 (sc_val a))) as [Ho Hv]; [apply length_le_bytes|apply le_bytes_bytes|].
  apply sc_val_inj; [done|done|]. rewrite Hv. apply le_val_bytes. by apply sc_val_bound.
Qed.

#[export] Instance scalar_codec : Codec w_scalar r_scalar sc_canon.
Proof.
  split; [unfold r_scalar; apply _| |].
  - intros a [Ha Hc]. exists (sc_tobytes a).
    assert (Hb : bytes (sc_tobytes a) ∧ length (sc_tobytes a) = 32%nat).
    { rewrite sc_tobytes_spec by done. split; [apply le_bytes_bytes|apply length_le_bytes]. }
    destruct Hb as [Hb Hl]. split; [by apply enc_raw|]. intros s.
    unfold r_scalar. rewrite (Rd_step (r_raw 32) _ _ (sc_tobytes a) (reading s))
      by (unfold r_raw; rewrite (Rd_step _ _ _ _ _ (r_take_app 32 _ s Hl)); done).
    rewrite sc_from_tobytes, sc_is_canonical_spec, (proj2 (Z.ltb_lt _ _) Hc) by done. done.
  - intros r a s Hr. unfold r_scalar. unfold mbind at 1, Rd_bind at 1.
    destruct (r_raw 32 r) as [p [s1 [e|]]] eqn:E.
    { cbn. by intros [=]. }
    destruct (codec_get (Codec := raw_codec 32) r p s1 Hr E) as ([Hl Hb] & bs & -> & He).
    destruct (sc_from_bytes_spec p Hl Hb) as [Ho Hv].
    set (sc := sc_from_bytes p) in *. clearbody sc. cbv zeta.
    destruct (sc_is_canonical sc) eqn:Hc; cbn; [|by intros [=]]. intros [= <- <-]. rewrite sc_is_canonical_spec in Hc by done. apply Z.ltb_lt in Hc.
    split; [by split|]. exists bs. split; [done|]. unfold w_scalar.
    rewrite sc_tobytes_spec, Hv, <- Hl, le_bytes_val by done. done.
Qed.

(** *** Repetition *)

Section each.
Context {A : Type} (put : A → Writer) (get : Rd A) (ok : A → Prop) `{!Codec put get ok}.

Lemma each_put l : Forall ok l → put_get (w_each put l) (r_each (length l) get) l.
Proof.
  induction 1 as [|x l Hx _ IH]; cbn [w_each r_each length]; [apply put_get_ret|].
  eapply put_get_bind; [done..|].
  destruct IH as (bs & He & Hg). exists bs. split; [done|]. intros s. by rewrite (Rd_step _ _ _ _ _ (Hg s)).
Qed.

Lemma each_get n : get_put (w_each put) (r_each n get) (λ l, length l = n ∧ Forall ok l).
Proof.
  induction n as [|n IH]; intros r l s Hr.
  { intros [= <- ->]. split; [done|]. exists []. split; [done|apply enc_skip]. }
  cbn [r_each]. unfold mbind, Rd_bind. destruct (get r) as [x [s1 e1]] eqn:E1.
  destruct (r_each n get (mkReader s1 e1)) as [l1 r2] eqn:E2. intros [= <- ->].
  assert (e1 = None) as ->.
  { destruct e1; [|done]. pose proof (sticky_each n get codec_sticky (mkReader s1 (Some s0)) eq_refl) as F.
    by rewrite E2 in F. }
  destruct (codec_get r x s1 Hr E1) as (Hx & bs & -> & He).
  destruct (IH (reading s1) l1 s (proj2 (bytes_app _ _ Hr)) E2) as ([Hl Hf] & bs' & [= ->] & He').
  split; [split; [cbn; lia|by constructor]|]. exists (bs ++ bs'). rewrite app_assoc.
  split; [done|]. by apply enc_seq.
Qed.

#[export] Instance each_codec n : Codec (w_each put) (r_each n get) (λ l, length l = n ∧ Forall ok l).
Proof.
  split; [pose proof (codec_sticky (put := put)); apply _| |apply each_get].
  intros l [<- Hl]. by apply each_put.
Qed.

Context (k : Z) `{!Sized put ok k}.

Lemma each_sized l : Forall ok l → grows (w_each put l) (Z.of_nat (length l) * k).
Proof. intros Hl. apply grows_elems. eapply Forall_impl; [exact Hl|]. apply sized_grows. Qed.

(** The count check passes exactly when the elements can be there. *)
Lemma check_count_pass n s : 0 < k → 0 ≤ n → n * k ≤ Z.of_nat (length s) → n ≤ 2 ^ 24 →
  r_check_count n k (reading s) = (tt, reading s).
Proof.
  intros Hk' Hn Hs Hm. unfold r_check_count, remaining. cbn [failed error reading rest].
  destruct (Z.ltb_spec (Z.of_nat (length s) / k) n).
  { exfalso. assert (n ≤ Z.of_nat (length s) / k) by (apply Z.div_le_lower_bound; lia). lia. }
  rewrite andb_false_r. destruct (Z.ltb_spec (2 ^ 24) n); [lia|done].
Qed.

Lemma check_count_inv n k' r s : r_check_count n k' r = (tt, reading s) → r = reading s ∧ n ≤ 2 ^ 24.
Proof.
  unfold r_check_count. destruct r as [l [e|]]; [by intros [=]|]. cbn [failed error].
  destruct ((0 <? k') && _); cbn; destruct (Z.ltb_spec (2 ^ 24) n); intros [= ?]; subst; done.
Qed.

Definition vec_ok (l : list A) : Prop := Z.of_nat (length l) ≤ 2 ^ 24 ∧ Forall ok l.

Definition w_vec (l : list A) : Writer := w_size l ⨟ w_each put l.

Lemma vec_codec : 0 < k → Codec w_vec (r_vec k get) vec_ok.
Proof.
  intros Hk'. pose proof (codec_sticky (put := put)) as Sg. split; [apply _| |].
  - intros l [Hm Hl]. destruct (each_put l Hl) as (bs & He & Hg).
    assert (Hw : word 64 (Z.of_nat (length l))) by (split; [lia|by apply (Z.le_lt_trans _ (2 ^ 24))]).
    destruct (codec_put (put := w_u64) _ Hw) as (b1 & E1 & G1).
    exists (b1 ++ bs). split; [by apply enc_seq|]. intros s. unfold r_vec.
    rewrite <- app_assoc, (Rd_step _ _ _ _ _ (G1 _)).
    pose proof (grows_enc _ _ _ (each_sized l Hl) He).
    rewrite (Rd_step _ _ _ _ _ (check_count_pass (Z.of_nat (length l)) (bs ++ s) Hk' ltac:(lia) ltac:(rewrite length_app; lia) Hm)).
    rewrite (Rd_step _ _ _ _ _ (eq_refl : r_failed (reading (bs ++ s)) = (false, _))).
    by rewrite Nat2Z.id.
  - intros r l s Hr. unfold r_vec. unfold mbind, Rd_bind.
    destruct (r_u64 r) as [n [s1 [e|]]] eqn:E1.
    { cbn. by intros [=]. }
    destruct (codec_get (Codec := u64_codec) r n s1 Hr E1) as (Hn & b1 & -> & He1).
    destruct (r_check_count n k (mkReader s1 None)) as [[] [s2 [e|]]] eqn:E2; [cbn; by intros [=]|].
    apply check_count_inv in E2 as [[= <-] Hm]. cbn. intros E3.
    destruct (each_get (Z.to_nat n) (reading s1) l s (proj2 (bytes_app _ _ Hr)) E3) as ([Hl Hf] & bs & [= ->] & He).
    assert (En : n = Z.of_nat (length l)) by (unfold word in Hn; lia). subst n.
    split; [by split|]. exists (b1 ++ bs). rewrite app_assoc. split; [done|]. by apply enc_seq.
Qed.
End each.

(** *** Counted steps, and a reader's last step *)

Lemma put_get_count {B} w n k (g : Rd B) b : 0 < k → 0 ≤ n → n ≤ 2 ^ 24 →
  grows w (n * k) → put_get w g b → put_get w (r_check_count n k;; g) b.
Proof.
  intros Hk Hn Hm Hs (bs & He & Hg). exists bs. split; [done|]. intros s. pose proof (grows_enc _ _ _ Hs He).
  rewrite (Rd_step _ _ _ _ _ (check_count_pass k n (bs ++ s) Hk Hn ltac:(rewrite length_app; lia) Hm)).
  apply Hg.
Qed.

Lemma get_put_count {B} (w : B → Writer) n k (g : Rd B) Q : Sticky g →
  (n ≤ 2 ^ 24 → get_put w g Q) → get_put w (r_check_count n k;; g) Q.
Proof.
  intros Sg Hg r b s Hr. unfold mbind, Rd_bind. destruct (r_check_count n k r) as [[] [s2 [e|]]] eqn:E2.
  { intros E. pose proof (Sg (mkReader s2 (Some e)) eq_refl) as F. by rewrite E in F. }
  apply (check_count_inv n k r s2) in E2 as [-> Hm]. by apply Hg.
Qed.

Lemma put_get_last {A B} (putA : A → Writer) (getA : Rd A) okA `{!Codec putA getA okA} (h : A → B) a :
  okA a → put_get (putA a) (x ← getA; mret (h x)) (h a).
Proof.
  intros Ha. apply (put_get_conv (putA a ⨟ w_skip)); [intros; by rewrite w_seq_skip|].
  eapply put_get_bind; [apply _|done|apply put_get_ret].
Qed.

Lemma get_put_last {A B} (putA : A → Writer) (getA : Rd A) okA `{!Codec putA getA okA} (h : A → B) (f : B → A) Q :
  (∀ a, okA a → f (h a) = a ∧ Q (h a)) → get_put (λ b, putA (f b)) (x ← getA; mret (h x)) Q.
Proof.
  intros Hq. apply (get_put_conv (λ b, putA (f b) ⨟ w_skip)); [intros; by rewrite w_seq_skip|].
  eapply get_put_bind; [apply _|apply _|]. intros a Ha. by apply get_put_ret, Hq.
Qed.

(** *** Sizes *)

Lemma grows_le w n m : grows w n → m ≤ n → grows w m.
Proof. intros Hw Hm buf out H. specialize (Hw buf out H). lia. Qed.

Lemma grows_words v : grows (w_u8 v) 1 ∧ grows (w_u16 v) 2 ∧ grows (w_u32 v) 4 ∧ grows (w_i32 v) 4 ∧ grows (w_u64 v) 8.
Proof. by split_and!; apply grows_raw. Qed.

Lemma grows_u64 v : grows (w_u64 v) 8.
Proof. by apply grows_raw. Qed.

Lemma grows_any_raw p : grows (w_raw p) 0.
Proof. apply (grows_le _ (Z.of_nat (length p))); [by apply grows_raw|lia]. Qed.

#[export] Instance i32_sized : Sized w_i32 int32 4.
Proof. intros v _. by apply grows_raw. Qed.
#[export] Instance u64_sized : Sized w_u64 (word 64) 8.
Proof. intros v _. by apply grows_raw. Qed.
#[export] Instance fp_sized : Sized w_fp fp_ok 16.
Proof.
  intros x _. unfold w_fp. destruct (fp_is_reduced x); cbn [negb]; [|intros ?? [=]].
  by apply (grows_seq _ _ 8 8); [apply grows_u64..|].
Qed.
#[export] Instance point_sized : Sized w_rist_point point_ok 32.
Proof. intros pt [Hl _]. apply grows_raw. by rewrite Hl. Qed.

Definition bitvec_ok (bv : BitVec) : Prop :=
  0 ≤ nbits bv ≤ MAX_BITVEC_BITS ∧ Z.of_nat (length (bw bv)) = (nbits bv + 63) / 64 ∧ Forall (word 64) (bw bv).

#[export] Instance bitvec_sized : Sized w_bitvec bitvec_ok 8.
Proof.
  intros bv _. apply (grows_seq _ _ 8 0); [apply grows_u64| |done].
  apply (grows_seq _ _ 8 0); [apply grows_u64| |done].
  apply grows_each. intros a. by apply (grows_le _ 8), Z.lt_le_incl; [apply grows_u64|].
Qed.

(** ** Bit vectors and headers *)

#[export] Instance bitvec_codec : Codec w_bitvec r_bitvec bitvec_ok.
Proof.
  assert (W : ∀ n, 0 ≤ n ≤ MAX_BITVEC_BITS → word 64 n ∧ wrap 64 (n + 63) / 64 = (n + 63) / 64 ∧ (n + 63) / 64 ≤ 2 ^ 15).
  { intros n Hn. unfold MAX_BITVEC_BITS in Hn. assert (word 64 n) by (unfold word; pow_consts; lia).
    rewrite wrap_small by (unfold word; pow_consts; lia). split; [done|]. split; [done|]. pow_consts. lia. }
  split; [unfold r_bitvec; apply _| |].
  - intros bv (Hn & Hl & Hw). destruct (W _ Hn) as (Hn' & En & Hm). unfold w_bitvec, w_size, r_bitvec.
    eapply put_get_bind; [apply _|done|]. eapply put_get_bind; [apply _| |].
    { rewrite Hl. unfold word. pow_consts. lia. }
    apply put_get_check; [apply Z.ltb_ge, Hn|]. apply put_get_count; [done|lia|rewrite Hl; pow_consts; lia| |].
    { apply grows_elems, Forall_forall. intros; apply grows_u64. }
    apply put_get_check; [rewrite En, Hl, Z.eqb_refl; done|]. apply put_get_failed.
    rewrite Nat2Z.id. destruct bv as [n w]. by apply (put_get_last (w_each w_u64) (r_each _ r_u64) _ (mkBitVec n)).
  - unfold r_bitvec, w_bitvec, w_size. eapply get_put_bind; [apply _|apply _|]. intros n Hn.
    eapply (get_put_bind w_u64 _ _ _ _ (λ bv, Z.of_nat (length (bw bv)))); [apply _|]. intros nw Hnw.
    apply get_put_check; [apply _|]. intros Hb%Z.ltb_ge. apply get_put_count; [apply _|]. intros _.
    apply get_put_check; [apply _|]. intros Hc%negb_false_iff%Z.eqb_eq. apply get_put_failed.
    destruct (W n ltac:(unfold word in Hn; lia)) as (_ & En & _). rewrite En in Hc.
    apply (get_put_last (w_each w_u64) (r_each (Z.to_nat nw) r_u64) _ (mkBitVec n)).
    intros w [Hl Hf]. cbn. split; [done|]. unfold word in Hnw. split; [lia|]. split; [done|].
    split; [unfold word in Hn; cbn; lia|]. split; [cbn; lia|done].
Qed.

Definition version_ok (v : Z) : Prop := 1 ≤ v ≤ 5.

Lemma header_codec tag : word 8 tag → Codec (w_header_version tag) (r_header tag) version_ok.
Proof.
  intros Ht. assert (V : ∀ v, (v =? VERSION_V1) || (v =? VERSION_V2) || (v =? VERSION_V3) || (v =? VERSION_V4) ||
    (v =? VERSION_V5) = true ↔ version_ok v).
  { intros v. rewrite !orb_true_iff, !Z.eqb_eq. unfold version_ok, VERSION_V1, VERSION_V2, VERSION_V3, VERSION_V4, VERSION_V5. lia. }
  split; [unfold r_header; apply _| |].
  - intros v Hv. unfold w_header_version, r_header.
    apply (put_get_conv (w_raw MAGIC ⨟ w_u8 v ⨟ w_u8 tag ⨟ w_skip)).
    { intros buf. do 2 (apply w_seq_cong; intros ?). by rewrite w_seq_skip. }
    eapply put_get_bind; [apply _|split; [done|repeat constructor; unfold word; lia]|]. apply put_get_failed.
    rewrite bool_decide_eq_true_2 by done. cbn [negb].
    eapply put_get_bind; [apply _|unfold word, version_ok in *; lia|]. apply put_get_failed.
    rewrite (proj2 (V v) Hv). cbn [negb]. eapply put_get_bind; [apply _|done|]. apply put_get_failed.
    rewrite Z.eqb_refl. apply put_get_ret.
  - apply (get_put_conv (λ v, w_raw MAGIC ⨟ w_u8 v ⨟ w_u8 tag ⨟ w_skip)).
    { intros v buf _. unfold w_header_version. do 2 (apply w_seq_cong; intros ?). by rewrite w_seq_skip. }
    unfold r_header. eapply (get_put_bind w_raw _ _ _ _ (λ _, MAGIC)); [apply _|]. intros m _. apply get_put_failed.
    destruct (bool_decide_reflect (m = MAGIC)) as [->|]; cbn [negb]; [|apply get_put_fail, _].
    eapply get_put_bind; [apply _|apply _|]. intros v Hv. apply get_put_failed.
    destruct (_ || (v =? VERSION_V5)) eqn:E; cbn [negb]; [|apply get_put_fail, _]. apply V in E.
    eapply (get_put_bind w_u8 _ _ _ _ (λ _, tag)); [apply _|]. intros t _. apply get_put_failed.
    destruct (Z.eqb_spec t tag) as [->|]; cbn [negb]; [|apply get_put_fail, _].
    by apply get_put_ret.
Qed.
