(* ===== verification/Serialize.v ===== *)
(** * The formats of [pvac_ffi/pvac_serialize.hpp]

    Ciphertexts, public and secret keys, zero and range proofs as byte strings.
    A [*_checked] function returns the object it fills and the error it reports,
    [None] for the result [true]. *)

From S2P Require Import Prelude Field Compress CompressBound Hash Rng CtSafe Types Fe25519 Scalar25519 Ristretto InnerProduct R1cs Stream.

#[local] Open Scope stream_scope.

Definition TAG_CIPHER : Z := 0.
Definition TAG_PUBKEY : Z := 1.
Definition TAG_SECKEY : Z := 2.
Definition TAG_RANGE_PROOF : Z := 4.
Definition TAG_AGG_RANGE_PROOF : Z := 5.
Definition TAG_ZERO_PROOF : Z := 6.
Definition TAG_BOUND_RANGE_PROOF : Z := 7.
Definition MAX_CIPHER_SLOTS : Z := 2 ^ 16.
Definition MAX_PUBLIC_CIPHER_SLOTS : Z := 8.
Definition MAX_PUBLIC_CIPHER_CELLS : Z := 2 ^ 12.

(** ** Structure checks: the first error, if any *)

Definition layer_error (slots layer_id : nat) (layer : Layer) : option string :=
  let is_prod := match rule layer with PROD => true | _ => false end in
  let is_rule := match rule layer with RULE_other _ => false | _ => true end in
  if negb is_rule then Some "pvac_ser: invalid layer rule"%string
  else if is_prod && ((Z.of_nat layer_id <=? pa layer) || (Z.of_nat layer_id <=? pb layer)) then
    Some "pvac_ser: invalid product parent"%string
  else if is_prod && negb (length (PC layer) =? 0)%nat then
    Some "pvac_ser: product layer must not contain PC"%string
  else if is_prod && negb (length (R_PC layer) =? 0)%nat then
    Some "pvac_ser: product layer must not contain R_PC"%string
  else if negb (length (PC layer) =? 0)%nat && negb (length (PC layer) =? slots)%nat then
    Some "pvac_ser: layer PC/slots size mismatch"%string
  else if negb (length (R_PC layer) =? 0)%nat && negb (length (R_PC layer) =? slots)%nat then
    Some "pvac_ser: layer R_PC/slots size mismatch"%string
  else None.

Definition edge_error (nlayers slots : nat) (edge : Edge) : option string :=
  if Z.of_nat nlayers <=? layer_id edge then Some "pvac_ser: edge layer out of range"%string
  else if negb (ch edge =? SGN_P) && negb (ch edge =? SGN_M) then Some "pvac_ser: invalid edge sign"%string
  else if negb (length (ew edge) =? slots)%nat then Some "pvac_ser: edge weight/slots size mismatch"%string
  else None.

(** The first error of a loop. *)
Fixpoint first_error {A} (f : A → option string) (l : list A) : option string :=
  match l with
  | [] => None
  | x :: l => match f x with Some e => Some e | None => first_error f l end
  end.

Definition cipher_structure_error (cipher : Cipher) : option string :=
  if (slots cipher =? 0)%nat then Some "pvac_ser: cipher slots must be positive"%string
  else if negb (length (c0 cipher) =? 0)%nat && negb (length (c0 cipher) =? slots cipher)%nat then
    Some "pvac_ser: c0/slots size mismatch"%string
  else
    match first_error (λ p, layer_error (slots cipher) p.1 p.2) (imap pair (L cipher)) with
    | Some e => Some e
    | None => first_error (edge_error (length (L cipher)) (slots cipher)) (E cipher)
    end.

Definition validate_cipher_structure (cipher : Cipher) : res unit :=
  match cipher_structure_error cipher with Some e => Throw e | None => Ok tt end.

Definition pubkey_structure_error (pk : PubKey) : option string :=
  let P := prm pk in
  let size_is {A} (l : list A) (n : Z) := Z.of_nat (length l) =? n in
  if (p_B P <=? 0) || (m_bits P <=? 0) || (n_bits P <=? 0) then
    Some "pvac_ser: invalid public key dimensions"%string
  else if negb (size_is (H pk) (n_bits P)) then Some "pvac_ser: H column count mismatch"%string
  else if negb (size_is (perm (ubk pk)) (m_bits P)) || negb (size_is (inv (ubk pk)) (m_bits P)) then
    Some "pvac_ser: UBK size mismatch"%string
  else if negb (is_valid_pubkey_shape pk) then Some "pvac_ser: invalid UBK permutation"%string
  else if negb (size_is (powg_B pk) (p_B P)) then Some "pvac_ser: powg_B size mismatch"%string
  else first_error (λ column, if negb (nbits column =? m_bits P)
                              then Some "pvac_ser: H bitvec length mismatch"%string else None) (H pk).

(** ** Parameters *)

Definition write_params (p : Params) : Writer :=
  w_i32 (p_B p) ⨟ w_i32 (m_bits p) ⨟ w_i32 (n_bits p) ⨟ w_i32 (h_col_wt p) ⨟
  w_i32 (x_col_wt p) ⨟ w_i32 (err_wt p) ⨟ w_f64 (noise_entropy_bits p) ⨟
  w_f64 (tuple2_fraction p) ⨟ w_f64 (depth_slope_bits p) ⨟ w_u64 (edge_budget p) ⨟
  w_i32 (lpn_n p) ⨟ w_i32 (lpn_t p) ⨟ w_i32 (lpn_tau_num p) ⨟ w_i32 (lpn_tau_den p) ⨟
  w_f64 (recrypt_lo p) ⨟ w_f64 (recrypt_hi p) ⨟ w_i32 (recrypt_rounds p).

Definition read_params : Rd Params :=
  B ← r_i32;
  m_bits ← r_i32;
  n_bits ← r_i32;
  h_col_wt ← r_i32;
  x_col_wt ← r_i32;
  err_wt ← r_i32;
  noise_entropy_bits ← r_f64;
  tuple2_fraction ← r_f64;
  depth_slope_bits ← r_f64;
  edge_budget ← r_u64;
  lpn_n ← r_i32;
  lpn_t ← r_i32;
  lpn_tau_num ← r_i32;
  lpn_tau_den ← r_i32;
  recrypt_lo ← r_f64;
  recrypt_hi ← r_f64;
  recrypt_rounds ← r_i32;
  mret (mkParams B m_bits n_bits h_col_wt x_col_wt err_wt noise_entropy_bits tuple2_fraction
          depth_slope_bits edge_budget lpn_n lpn_t lpn_tau_num lpn_tau_den recrypt_lo recrypt_hi
          recrypt_rounds).

(** ** Layers *)

Definition rule_byte (r : RRule) : Z := match r with BASE => 0 | PROD => 1 | RULE_other b => b end.
Definition byte_rule (b : Z) : RRule :=
  if b =? 0 then BASE else if b =? 1 then PROD else RULE_other b.

Definition seed0 : RSeed := mkRSeed 0 (mkNonce 0 0).

Definition write_layer_public (L : Layer) : Writer :=
  w_u8 (rule_byte (rule L)) ⨟
  match rule L with
  | BASE => w_u64 (ztag (seed L)) ⨟ w_u64 (n_lo (nonce (seed L))) ⨟ w_u64 (n_hi (nonce (seed L)))
  | _ => w_u32 (pa L) ⨟ w_u32 (pb L)
  end.

Definition write_layer (L : Layer) : Writer :=
  w_u8 (rule_byte (rule L)) ⨟
  match rule L with
  | BASE => w_u64 (ztag (seed L)) ⨟ w_u64 (n_lo (nonce (seed L))) ⨟ w_u64 (n_hi (nonce (seed L)))
  | _ => w_u32 (pa L) ⨟ w_u32 (pb L)
  end ⨟
  w_raw (R_com L) ⨟
  w_size (R_PC L) ⨟ w_each w_raw (R_PC L) ⨟
  w_size (PC L) ⨟ w_each w_raw (PC L).

Definition mark_public_base_layer (L : Layer) (slots : nat) : Layer :=
  match rule L with
  | BASE => mkLayer (rule L) (seed L) (pa L) (pb L) (replicate 32 0) (replicate slots (replicate 32 0)) []
  | _ => L
  end.

(** The part of a layer that depends on its rule: seed and parents. *)
Definition read_layer_source (rule : RRule) : Rd (RSeed * (Z * Z)) :=
  match rule with
  | BASE =>
      ztag ← r_u64;
      nonce_lo ← r_u64;
      nonce_hi ← r_u64;
      mret (mkRSeed ztag (mkNonce nonce_lo nonce_hi), (0, 0))
  | _ => pa ← r_u32; pb ← r_u32; mret (seed0, (pa, pb))
  end.

(** An early [return L] returns the layer with the fields read so far. *)
Definition read_layer (ver : Z) (slots : nat) : Rd Layer :=
  b ← r_u8;
  let rule := byte_rule b in
  src ← read_layer_source rule;
  let L R_com R_PC PC := mkLayer rule src.1 src.2.1 src.2.2 R_com R_PC PC in
  R_com ← (if ver <? VERSION_V4 then r_raw 32 else mret (replicate 32 0));
  R_PC ← (if (VERSION_V3 <=? ver) && (ver <? VERSION_V4) then r_vec 32 r_rist_point else mret []);
  f ← r_failed;
  if f : bool then mret (L R_com R_PC [])
  else
    PC ← (if (VERSION_V2 <=? ver) && (ver <? VERSION_V4) then r_vec 32 r_rist_point else mret []);
    f ← r_failed;
    if f : bool then mret (L R_com R_PC PC)
    else mret (if VERSION_V4 <=? ver then mark_public_base_layer (L R_com R_PC PC) slots
               else L R_com R_PC PC).

(** ** Edges *)

Definition write_edge (e : Edge) : Writer :=
  w_u32 (layer_id e) ⨟ w_u16 (idx e) ⨟ w_u8 (ch e) ⨟
  w_size (ew e) ⨟ w_each w_fp (ew e) ⨟
  w_bitvec (es e).

Definition read_edge : Rd Edge :=
  layer_id ← r_u32;
  idx ← r_u16;
  ch ← r_u8;
  w ← r_vec 16 r_fp;
  f ← r_failed;
  if f : bool then mret (mkEdge layer_id idx ch w (mkBitVec 0 []))
  else s ← r_bitvec; mret (mkEdge layer_id idx ch w s).

(** ** Ciphertexts *)

Definition read_cipher_slots (ver : Z) (strict cap : bool) : Rd nat :=
  value ← r_u64;
  f ← r_failed;
  if f : bool then mret 1%nat
  else if (value =? 0) && (strict || cap) then
    r_fail "pvac_ser: cipher slots must be positive";; mret 1%nat
  else if (cap && (MAX_CIPHER_SLOTS <? value)) ||
          (strict && (VERSION_V4 <=? ver) && (MAX_PUBLIC_CIPHER_SLOTS <? value)) then
    r_fail "pvac_ser: cipher slots exceed maximum";; mret 1%nat
  else mret (Z.to_nat value).

Definition check_public_cells (ver : Z) (slots : nat) (layers : Z) (strict cap : bool) : Rd unit :=
  let slots := Z.of_nat slots in
  r_check (negb (slots =? 0) && (strict || cap) && (VERSION_V4 <=? ver) &&
           ((MAX_PUBLIC_CIPHER_CELLS <? slots) || (MAX_PUBLIC_CIPHER_CELLS / slots <? layers)))
    "pvac_ser: public cipher size exceeds maximum".

(** The body of [read_cipher_raw] and of [deserialize_cipher_checked]. *)
Definition read_cipher_fields (ver : Z) (strict cap : bool) : Rd Cipher :=
  slots ← read_cipher_slots ver strict cap;
  nL ← r_u64;
  r_check_count nL 8;;
  check_public_cells ver slots nL strict cap;;
  f ← r_failed;
  L ← (if f : bool then mret [] else r_each (Z.to_nat nL) (read_layer ver slots));
  c0 ← r_vec 16 r_fp;
  E ← r_vec 8 read_edge;
  mret (mkCipher L E c0 slots).

Definition read_cipher_raw (ver : Z) (strict cap : bool) : Rd Cipher :=
  C ← read_cipher_fields ver strict cap;
  f ← r_failed;
  if f : bool then mret C
  else
    match cipher_structure_error C with
    | Some error => r_fail error;; mret C
    | None => mret C
    end.

Definition write_cipher_raw (C : Cipher) : Writer :=
  w_u64 (Z.of_nat (slots C)) ⨟
  w_size (L C) ⨟ w_each write_layer (L C) ⨟
  w_size (c0 C) ⨟ w_each w_fp (c0 C) ⨟
  w_size (E C) ⨟ w_each write_edge (E C).

Definition serialize_cipher (C : Cipher) : res (list Z) :=
  validate_cipher_structure C;;
  (w_header TAG_CIPHER ⨟ write_cipher_raw C) [].

Definition serialize_cipher_public (C : Cipher) : res (list Z) := serialize_cipher C.

Definition cipher0 : Cipher := mkCipher [] [] [] 1.

(** The tail of every [*_checked] function: the reader's error, then trailing
    bytes, then the structure. *)
Definition finish {A} (trailing : string) (structure_error : A → option string) (x : A) (r : Reader)
    : A * option string :=
  match error r with
  | Some e => (x, Some e)
  | None =>
      if negb (remaining r =? 0) then (x, Some trailing)
      else (x, structure_error x)
  end.

(** The out parameter is set to [dflt] and then to what [body] reads, given the
    version; nothing more is read after a failed header. *)
Definition checked {A} (tag : Z) (dflt : A) (body : Z → Rd A) (trailing : string)
    (structure_error : A → option string) (data : list Z) : A * option string :=
  let '(ver, r) := r_header tag (reader_new (Some data) (Z.of_nat (length data))) in
  let '(x, r) := if failed r then (dflt, r) else body ver r in
  finish trailing structure_error x r.

Definition or_throw {A} (p : A * option string) : res A :=
  match p.2 with Some e => Throw e | None => Ok p.1 end.

Definition deserialize_cipher_checked (data : list Z) (strict cap : bool) : Cipher * option string :=
  checked TAG_CIPHER cipher0 (λ ver, read_cipher_fields ver strict cap) "pvac_ser: trailing cipher bytes"
    cipher_structure_error data.

Definition deserialize_cipher (data : list Z) (strict cap : bool) : res Cipher :=
  or_throw (deserialize_cipher_checked data strict cap).

(** ** Public keys *)

Definition profile_byte (p : CircuitPrfProfile) : Z :=
  match p with MIMC_X3_V6 => 1 | MIMC_X5_V7 => 2 | PROFILE_other b => b end.
Definition byte_profile (b : Z) : CircuitPrfProfile :=
  if b =? 1 then MIMC_X3_V6 else if b =? 2 then MIMC_X5_V7 else PROFILE_other b.

Definition write_pubkey_fields (pk : PubKey) : Writer :=
  write_params (prm pk) ⨟
  w_u64 (canon_tag pk) ⨟
  w_size (H pk) ⨟ w_each w_bitvec (H pk) ⨟
  w_size (perm (ubk pk)) ⨟ w_each w_i32 (perm (ubk pk)) ⨟
  w_size (inv (ubk pk)) ⨟ w_each w_i32 (inv (ubk pk)) ⨟
  w_raw (H_digest pk) ⨟
  w_fp (omega_B pk) ⨟
  w_size (powg_B pk) ⨟ w_each w_fp (powg_B pk) ⨟
  w_rist_point (circuit_prf_key_commit pk) ⨟
  w_u8 (profile_byte (circuit_prf_profile pk)).

Definition serialize_pubkey_raw (pk : PubKey) : res (list Z) :=
  (w_header_version TAG_PUBKEY VERSION_V5 ⨟ write_pubkey_fields pk) [].

Definition serialize_pubkey (pk : PubKey) (compressed : bool) : res (list Z) :=
  raw ← serialize_pubkey_raw pk;
  if negb compressed then mret raw else mret (pack raw).

Definition read_pubkey_fields (ver : Z) : Rd PubKey :=
  prm ← read_params;
  canon_tag ← r_u64;
  H ← r_vec 8 r_bitvec;
  perm ← r_vec 4 r_i32;
  inv ← r_vec 4 r_i32;
  H_digest ← r_raw 32;
  omega_B ← r_fp;
  powg_B ← r_vec 16 r_fp;
  commit ← (if VERSION_V3 <=? ver then r_rist_point else mret (replicate 32 0));
  profile ← (if VERSION_V5 <=? ver then b ← r_u8; mret (byte_profile b) else mret MIMC_X3_V6);
  mret (mkPubKey prm canon_tag H (mkUbk perm inv) H_digest omega_B powg_B commit profile).

Definition deserialize_pubkey_raw_checked (data : list Z) : PubKey * option string :=
  checked TAG_PUBKEY pubkey0 read_pubkey_fields "pvac_ser: trailing pubkey bytes" pubkey_structure_error data.

Definition deserialize_pubkey_raw (data : list Z) : res PubKey :=
  or_throw (deserialize_pubkey_raw_checked data).

(** A packed key that does not unpack leaves the out parameter as it was. *)
Definition deserialize_pubkey_checked (pk : PubKey) (data : list Z) : PubKey * option string :=
  if is_packed data then
    let '(ok, raw, error) := unpack_checked data [] "" in
    if negb ok then (pk, Some error) else deserialize_pubkey_raw_checked raw
  else deserialize_pubkey_raw_checked data.

Definition deserialize_pubkey (data : list Z) : res PubKey :=
  or_throw (deserialize_pubkey_checked pubkey0 data).
(** ** Secret keys *)

Definition write_seckey_fields (sk : SecKey) : Writer :=
  w_each w_u64 (prf_k sk) ⨟
  w_fp (circuit_prf_key sk) ⨟
  w_raw (circuit_prf_key_blind sk) ⨟
  w_fp (circuit_prf_key_v6 sk) ⨟
  w_raw (circuit_prf_key_blind_v6 sk) ⨟
  w_size (lpn_s_bits sk) ⨟ w_each w_u64 (lpn_s_bits sk).

Definition serialize_seckey (sk : SecKey) : res (list Z) :=
  (w_header_version TAG_SECKEY VERSION_V5 ⨟ write_seckey_fields sk) [].

Definition read_seckey_fields (ver : Z) : Rd SecKey :=
  prf_k ← r_each 4 r_u64;
  key ← (if VERSION_V3 <=? ver then r_fp else mret fp0);
  blind ← (if VERSION_V3 <=? ver then r_raw 32 else mret (replicate 32 0));
  key_v6 ← (if VERSION_V5 <=? ver then r_fp else mret key);
  blind_v6 ← (if VERSION_V5 <=? ver then r_raw 32 else mret blind);
  lpn_s_bits ← r_vec 8 r_u64;
  mret (mkSecKey prf_k key blind key_v6 blind_v6 lpn_s_bits).

Definition seckey0 : SecKey := mkSecKey (replicate 4 0) fp0 (replicate 32 0) fp0 (replicate 32 0) [].

(** The functions that throw: no structure check. *)
Definition deserialize_with {A} (tag : Z) (dflt : A) (body : Z → Rd A) (trailing : string) (data : list Z) : res A :=
  or_throw (checked tag dflt body trailing (λ _, None) data).

Definition deserialize_seckey (data : list Z) : res SecKey :=
  deserialize_with TAG_SECKEY seckey0 read_seckey_fields "pvac_ser: trailing seckey bytes" data.

(** ** Zero-knowledge proofs *)

Record ZeroProof : Set := mkZero { zp_proof : R1CSProof; is_bound : bool }.

Record RangeProof : Set := mkRange {
  ct_bit : list Cipher; bit_proofs : list ZeroProof; lc_proof : ZeroProof }.

Record AggregatedRangeProof : Set := mkAgg { agg_ct_bit : list Cipher; agg_proof : R1CSProof }.

Definition RANGE_BITS : Z := 64.

Definition write_r1cs_proof_raw (p : R1CSProof) : Writer :=
  w_rist_point (A_I1 p) ⨟ w_rist_point (A_O1 p) ⨟ w_rist_point (r1_S1 p) ⨟
  w_rist_point (T_1 p) ⨟ w_rist_point (T_3 p) ⨟ w_rist_point (T_4 p) ⨟
  w_rist_point (T_5 p) ⨟ w_rist_point (T_6 p) ⨟
  w_scalar (t_x p) ⨟ w_scalar (t_x_blinding p) ⨟ w_scalar (e_blinding p) ⨟
  w_size (ipp_L (ipp p)) ⨟
  w_each w_rist_point (ipp_L (ipp p)) ⨟
  w_each w_rist_point (ipp_R (ipp p)) ⨟
  w_scalar (ipp_a (ipp p)) ⨟ w_scalar (ipp_b (ipp p)) ⨟
  w_size (r1_V p) ⨟ w_each w_rist_point (r1_V p).

(** [nLR] and the two vectors it counts. *)
Definition read_ipp_points : Rd (list (list Z) * list (list Z)) :=
  nLR ← r_u64;
  r_check_count nLR 32;;
  f ← r_failed;
  if f : bool then mret ([], [])
  else
    L ← r_each (Z.to_nat nLR) r_rist_point;
    R ← r_each (Z.to_nat nLR) r_rist_point;
    mret (L, R).

Definition read_r1cs_proof_raw : Rd R1CSProof :=
  A_I1 ← r_rist_point;
  A_O1 ← r_rist_point;
  S1 ← r_rist_point;
  T_1 ← r_rist_point;
  T_3 ← r_rist_point;
  T_4 ← r_rist_point;
  T_5 ← r_rist_point;
  T_6 ← r_rist_point;
  t_x ← r_scalar;
  t_x_blinding ← r_scalar;
  e_blinding ← r_scalar;
  LR ← read_ipp_points;
  a ← r_scalar;
  b ← r_scalar;
  V ← r_vec 32 r_rist_point;
  mret (mkR1CS A_I1 A_O1 S1 T_1 T_3 T_4 T_5 T_6 t_x t_x_blinding e_blinding
          (mkIpp LR.1 LR.2 a b) V).

Definition write_zero_proof_raw (zp : ZeroProof) : Writer :=
  write_r1cs_proof_raw (zp_proof zp) ⨟ w_u8 (if is_bound zp then 1 else 0).

Definition read_zero_proof_raw : Rd ZeroProof :=
  proof ← read_r1cs_proof_raw;
  b ← r_u8;
  mret (mkZero proof (negb (b =? 0))).

Definition serialize_zero_proof (zp : ZeroProof) : res (list Z) :=
  (w_header TAG_ZERO_PROOF ⨟ write_zero_proof_raw zp) [].

Definition point0 : list Z := replicate 32 0.
Definition r1cs0 : R1CSProof :=
  mkR1CS point0 point0 point0 point0 point0 point0 point0 point0 sc_zero sc_zero sc_zero
    (mkIpp [] [] sc_zero sc_zero) [].
Definition zero_proof0 : ZeroProof := mkZero r1cs0 false.

Definition deserialize_zero_proof (data : list Z) : res ZeroProof :=
  deserialize_with TAG_ZERO_PROOF zero_proof0 (λ _, read_zero_proof_raw)
    "pvac_ser: trailing zero proof bytes" data.

Definition serialize_bound_range_proof (proof : ZeroProof) : res (list Z) :=
  (w_header TAG_BOUND_RANGE_PROOF ⨟ write_zero_proof_raw proof) [].

Definition deserialize_bound_range_proof (data : list Z) : res ZeroProof :=
  deserialize_with TAG_BOUND_RANGE_PROOF zero_proof0 (λ _, read_zero_proof_raw)
    "pvac_ser: trailing bound range proof bytes" data.

(** ** Range proofs *)

Definition serialize_range_proof (rp : RangeProof) : res (list Z) :=
  (w_header TAG_RANGE_PROOF ⨟
   w_size (ct_bit rp) ⨟
   w_each write_cipher_raw (ct_bit rp) ⨟
   w_each write_zero_proof_raw (bit_proofs rp) ⨟
   write_zero_proof_raw (lc_proof rp)) [].

(** [resize(n)], then [for (i < n && !failed)]. *)
Definition r_each_live {A} (dflt : A) (g : Rd A) : nat → Rd (list A) :=
  fix loop n :=
    match n with
    | O => mret []
    | S m => f ← r_failed; if f : bool then mret (replicate n dflt) else x ← g; l ← loop m; mret (x :: l)
    end.

Definition read_range_bits : Rd nat :=
  nbits ← r_u64;
  r_check (negb (nbits =? RANGE_BITS)) "pvac_ser: unexpected range proof bit length";;
  r_check_count nbits 8;;
  mret (Z.to_nat nbits).

Definition read_range_fields (ver : Z) : Rd RangeProof :=
  nbits ← read_range_bits;
  ct_bit ← (f ← r_failed; if f : bool then mret [] else r_each_live cipher0 (read_cipher_raw ver true true) nbits);
  bit_proofs ← (f ← r_failed; if f : bool then mret [] else r_each_live zero_proof0 read_zero_proof_raw nbits);
  lc_proof ← (f ← r_failed; if f : bool then mret zero_proof0 else read_zero_proof_raw);
  mret (mkRange ct_bit bit_proofs lc_proof).

Definition deserialize_range_proof_checked (data : list Z) : RangeProof * option string :=
  checked TAG_RANGE_PROOF (mkRange [] [] zero_proof0) read_range_fields
    "pvac_ser: trailing range proof bytes" (λ _, None) data.

Definition deserialize_range_proof (data : list Z) : res RangeProof :=
  or_throw (deserialize_range_proof_checked data).

Definition serialize_agg_range_proof (arp : AggregatedRangeProof) : res (list Z) :=
  (w_header TAG_AGG_RANGE_PROOF ⨟
   w_size (agg_ct_bit arp) ⨟
   w_each write_cipher_raw (agg_ct_bit arp) ⨟
   write_r1cs_proof_raw (agg_proof arp)) [].

Definition read_agg_fields (ver : Z) : Rd AggregatedRangeProof :=
  nbits ← read_range_bits;
  ct_bit ← (f ← r_failed; if f : bool then mret [] else r_each_live cipher0 (read_cipher_raw ver true true) nbits);
  proof ← (f ← r_failed; if f : bool then mret r1cs0 else read_r1cs_proof_raw);
  mret (mkAgg ct_bit proof).

Definition deserialize_agg_range_proof (data : list Z) : res AggregatedRangeProof :=
  deserialize_with TAG_AGG_RANGE_PROOF (mkAgg [] r1cs0) read_agg_fields
    "pvac_ser: trailing aggregated range proof bytes" data.

Inductive RangeProofAny : Set :=
| RP_OLD (p : RangeProof)
| RP_AGGREGATED (p : AggregatedRangeProof)
| RP_BOUND (p : ZeroProof).

Definition deserialize_range_proof_any (data : list Z) : res RangeProofAny :=
  if Z.of_nat (length data) <? 6 then Throw "pvac_ser: range proof too short"
  else
    let tag := nth 5 data 0 in
    if tag =? TAG_RANGE_PROOF then (p ← deserialize_range_proof data; mret (RP_OLD p))
    else if tag =? TAG_AGG_RANGE_PROOF then (p ← deserialize_agg_range_proof data; mret (RP_AGGREGATED p))
    else if tag =? TAG_BOUND_RANGE_PROOF then (p ← deserialize_bound_range_proof data; mret (RP_BOUND p))
    else Throw "pvac_ser: unknown range proof tag".
