(* ===== verification/Decrypt.v ===== *)
(** * Decryption

    [ops/decrypt.hpp], [ops/layer_coeffs.hpp] and [fold_edges] of
    [ops/arithmetic.hpp].  The masks of the layers are computed by a memoised
    recursion over the layer graph; [Mask] says what they are.  [dec_values] is
    then a linear form in the edges: [plain] is that form over the integers, and
    [dec_values_decrypts] says that decryption computes it modulo [P]. *)

From S2P Require Import Prelude Primes Field Hash Rng CtSafe Types Matrix Lpn.

(** ** Masks of the layers *)

Inductive DecPolicy : Set := STANDARD | NATIVE_LOCAL | LEGACY_MASK.

#[export] Instance DecPolicy_eq_dec : EqDecision DecPolicy.
Proof. solve_decision. Defined.

Definition dec_has_native_src (pk : PubKey) (C : Cipher) : bool :=
  existsb (λ layer, bool_decide (rule layer = BASE) && ru_src pk layer) (L C).

(** The mask of a layer whose rule is [BASE]. *)
Definition base_mask {F : Fuel} (pk : PubKey) (sk : SecKey) (slots : nat) (policy : DecPolicy) (L : Layer)
    : res (list Fp) :=
  let native := ru_src pk L in
  if native && negb (bool_decide (policy = NATIVE_LOCAL)) then
    Throw "pvac: native source decrypt rejected"
  else if native then Ok (ru_r_slots sk (seed L) slots)
  else if bool_decide (policy = LEGACY_MASK) then prf_R_slots pk sk (seed L) slots
  else if negb (length (R_PC L) =? 0)%nat then circuit_prf_R_slots pk sk (seed L) slots
  else prf_R_slots pk sk (seed L) slots.

(** The work buffers: [st] is 1 while a layer is on the stack, 2 when its mask
    is in [cache]. *)
Record Work : Set := mkWork { st : list Z; cache : list (list Fp) }.

(** [n] bounds the depth of the recursion. *)
Fixpoint layer_R_cached {F : Fuel} (n : nat) (pk : PubKey) (sk : SecKey) (C : Cipher) (policy : DecPolicy)
    (lid : Z) : M Work (list Fp) := λ w,
  let nl := length (L C) in
  let i := Z.to_nat lid in
  if Z.of_nat nl <=? lid then Throw "pvac: layer_R_cached: layer id out of range"
  else if negb (length (st w) =? nl)%nat || negb (length (cache w) =? nl)%nat then
    Throw "pvac: layer_R_cached: work buffer shape rejected"
  else if nth i (st w) 0 =? 2 then Ok (nth i (cache w) [], w)
  else if nth i (st w) 0 =? 1 then Throw "pvac: layer_R_cached: cycle in layer dependency graph"
  else
    match n, L C !! i with
    | S n, Some L =>
        let w := mkWork (<[i := 1]> (st w)) (cache w) in
        '(R, w) ←
          match rule L with
          | BASE => R ← base_mask pk sk (slots C) policy L; Ok (R, w)
          | _ =>
              '(Ra, w) ← layer_R_cached n pk sk C policy (pa L) w;
              '(Rb, w) ← layer_R_cached n pk sk C policy (pb L) w;
              R ← Op.mul Ra Rb; Ok (R, w)
          end;
        Ok (R, mkWork (<[i := 2]> (st w)) (<[i := R]> (cache w)))
    | _, _ => OutOfFuel
    end.

(** ** Decryption *)

(** [v(n)] filled in a loop over [j]. *)
Definition tabulate {A} (n : nat) (f : nat → A) : list A := f <$> seq 0 n.

(** [S] inverses per layer, in order. *)
Fixpoint masks_inv {F : Fuel} (pk : PubKey) (sk : SecKey) (C : Cipher) (policy : DecPolicy) (lids : list Z)
    : M Work (list (list Fp)) :=
  match lids with
  | [] => mret []
  | lid :: lids =>
      R ← layer_R_cached (S (length (L C))) pk sk C policy lid;
      Rinv ← masks_inv pk sk C policy lids;
      mret (tabulate (slots C) (λ j, fp_inv (nth j R fp0)) :: Rinv)
  end.

(** One edge. *)
Definition dec_step (pk : PubKey) (slots : nat) (Rinv : list (list Fp)) (acc : list Fp) (e : Edge) : list Fp :=
  let gp := nth (Z.to_nat (idx e)) (powg_B pk) fp0 in
  let s := sgn_val (ch e) in
  tabulate slots (λ j,
    let term := fp_mul (fp_mul (nth j (ew e) fp0) gp) (nth j (nth (Z.to_nat (layer_id e)) Rinv []) fp0) in
    if 0 <? s then fp_add (nth j acc fp0) term else fp_sub (nth j acc fp0) term).

Definition dec_values {F : Fuel} (pk : PubKey) (sk : SecKey) (C : Cipher) (policy : DecPolicy) : res (list Fp) :=
  if negb (is_cipher_compatible_with_pubkey pk C) then Throw "pvac: cipher/pubkey mismatch"
  else if negb (bool_decide (policy = NATIVE_LOCAL)) && dec_has_native_src pk C then
    Throw "pvac: native source decrypt rejected"
  else
    let nl := length (L C) in
    '(Rinv, _) ← masks_inv pk sk C policy (zseq 0 nl) (mkWork (replicate nl 0) (replicate nl []));
    let acc := if (length (c0 C) =? 0)%nat then Op.zeros (slots C) else c0 C in
    Ok (foldl (dec_step pk (slots C) Rinv) acc (E C)).

Definition dec_value {F : Fuel} (pk : PubKey) (sk : SecKey) (C : Cipher) (policy : DecPolicy) : res Fp :=
  if negb (slots C =? 1)%nat then
    Throw "pvac: dec_value: cipher has multi-slot payload; use dec_values for vector decryption or dec_value_slot0 to explicitly coerce"
  else v ← dec_values pk sk C policy; Ok (nth 0 v fp0).

Definition dec_value_slot0 {F : Fuel} (pk : PubKey) (sk : SecKey) (C : Cipher) (policy : DecPolicy) : res Fp :=
  v ← dec_values pk sk C policy;
  if (length v =? 0)%nat then Throw "pvac: dec_value_slot0: cipher decrypts to empty value vector"
  else Ok (nth 0 v fp0).

Definition dec_value_native_local {F : Fuel} (pk : PubKey) (sk : SecKey) (C : Cipher) : res Fp :=
  dec_value pk sk C NATIVE_LOCAL.

Definition dec_value_legacy_mask {F : Fuel} (pk : PubKey) (sk : SecKey) (C : Cipher) : res Fp :=
  dec_value pk sk C LEGACY_MASK.

(** ** The coefficients of a ciphertext: its edges summed per layer *)

Definition coeff_step (pk : PubKey) (slots : nat) (out : list (list Fp)) (edge : Edge) : list (list Fp) :=
  let gp := nth (Z.to_nat (idx edge)) (powg_B pk) fp0 in
  let l := Z.to_nat (layer_id edge) in
  let row := nth l out [] in
  <[l := tabulate slots (λ j,
    let term := fp_mul (nth j (ew edge) fp0) gp in
    if 0 <? sgn_val (ch edge) then fp_add (nth j row fp0) term else fp_sub (nth j row fp0) term)]> out.

Fixpoint coeff_loop (pk : PubKey) (slots layers : nat) (es : list Edge) (out : list (list Fp))
    : res (list (list Fp)) :=
  match es with
  | [] => Ok out
  | edge :: es =>
      if Z.of_nat layers <=? layer_id edge then Throw "pvac: edge layer out of range"
      else if Z.of_nat (length (powg_B pk)) <=? idx edge then Throw "pvac: edge public-key index out of range"
      else if negb (length (ew edge) =? slots)%nat then Throw "pvac: edge weight/slots size mismatch"
      else coeff_loop pk slots layers es (coeff_step pk slots out edge)
  end.

Definition compute_layer_coeffs (pk : PubKey) (ct : Cipher) : res (list (list Fp)) :=
  coeff_loop pk (slots ct) (length (L ct)) (E ct) (replicate (length (L ct)) (Op.zeros (slots ct))).

Definition gsum_accumulator (acc term : Fp) (ch : Z) : Fp :=
  if ch =? SGN_P then fp_add acc term else fp_sub acc term.

Definition fold_edges (ct : Cipher) (pk : PubKey) (acc_fn : Fp → Fp → Z → Fp) : res (list (list Fp)) :=
  if negb (is_cipher_compatible_with_pubkey pk ct) then
    Throw "pvac: fold_edges: cipher is incompatible with public key"
  else
    Ok (foldl (λ out e,
      let gp := nth (Z.to_nat (idx e)) (powg_B pk) fp0 in
      let l := Z.to_nat (layer_id e) in
      let row := nth l out [] in
      <[l := tabulate (slots ct) (λ j, acc_fn (nth j row fp0) (fp_mul (nth j (ew e) fp0) gp) (ch e))]> out)
      (replicate (length (L ct)) (Op.zeros (slots ct))) (E ct)).

(** ** What the masks are *)

#[local] Opaque fp_inv fp_mul fp_add fp_sub base_mask.

Lemma length_tabulate {A} n (f : nat → A) : length (tabulate n f) = n.
Proof. unfold tabulate. by rewrite length_fmap, length_seq. Qed.

Lemma nth_tabulate {A} n (f : nat → A) j d : (j < n)%nat → nth j (tabulate n f) d = f j.
Proof.
  intros Hj. unfold tabulate. rewrite nth_lookup, list_lookup_fmap, lookup_seq_lt by done. done.
Qed.

(** A layer's parents come before it. *)
Definition dag (ls : list Layer) : Prop :=
  ∀ i l, ls !! i = Some l → rule l ≠ BASE → 0 ≤ pa l < Z.of_nat i ∧ 0 ≤ pb l < Z.of_nat i.

(** Parents are 32-bit words. *)
Definition parents_words (ls : list Layer) : Prop := Forall (λ l, word 32 (pa l) ∧ word 32 (pb l)) ls.

Lemma layer_ok_lookup ls S i l : forallb (λ p, layer_shape_ok S p.1 p.2) (imap pair ls) = true →
  ls !! i = Some l → layer_shape_ok S i l = true.
Proof.
  intros H Hi. rewrite forallb_forall in H. apply (H (i, l)). apply list_elem_of_In, list_elem_of_lookup.
  exists i. by rewrite list_lookup_imap, Hi.
Qed.

Lemma shape_dag C : is_valid_cipher_shape C = true → parents_words (L C) → dag (L C).
Proof.
  unfold is_valid_cipher_shape. rewrite !andb_true_iff. intros (((_ & _) & HL) & _) HW i l Hi Hr.
  destruct (Forall_lookup_1 _ _ _ _ HW Hi) as [[H1 _] [H2 _]].
  pose proof (layer_ok_lookup _ _ _ _ HL Hi) as H. unfold layer_shape_ok in H.
  destruct (rule l); [done| |done]. rewrite !andb_true_iff in H. destruct H as [[H _] _].
  apply negb_true_iff, orb_false_iff in H as [H3%Z.leb_gt H4%Z.leb_gt]. lia.
Qed.

Section Masks.
Context {F : Fuel} (pk : PubKey) (sk : SecKey) (policy : DecPolicy) (S : nat).

(** The mask of layer [i]: derived from the keys, or the product of the masks
    of its parents. *)
Inductive Mask (ls : list Layer) : nat → list Fp → Prop :=
| Mask_base i l R : ls !! i = Some l → rule l = BASE → base_mask pk sk S policy l = Ok R → Mask ls i R
| Mask_prod i l Ra Rb R : ls !! i = Some l → rule l ≠ BASE →
    Mask ls (Z.to_nat (pa l)) Ra → Mask ls (Z.to_nat (pb l)) Rb → Op.mul Ra Rb = Ok R → Mask ls i R.

Lemma Mask_fun ls i R R' : Mask ls i R → Mask ls i R' → R = R'.
Proof.
  intros H. revert R'. induction H as [i l R Hl Hr Hb|i l Ra Rb R Hl Hr Ha IHa Hb IHb Hm]; intros R' H';
    inversion H' as [i' l' R1 Hl' Hr' Hb'|i' l' Ra' Rb' R1 Hl' Hr' Ha' Hb' Hm']; subst;
    rewrite Hl in Hl'; apply Some_inj in Hl'; subst l'; try done.
  - rewrite Hb in Hb'. by apply Ok_inj in Hb'.
  - rewrite (IHa _ Ha'), (IHb _ Hb'), Hm' in Hm. by apply Ok_inj in Hm.
Qed.

Lemma Mask_lt ls i R : Mask ls i R → (i < length ls)%nat.
Proof. by destruct 1 as [i l R Hl|i l Ra Rb R Hl]; apply lookup_lt_Some in Hl. Qed.

(** *** The memoised recursion computes them *)

Context (C : Cipher) (HS : slots C = S).

(** The cached entries are masks. *)
Definition work_ok (w : Work) : Prop :=
  length (st w) = length (L C) ∧ length (cache w) = length (L C) ∧
  ∀ i, st w !! i = Some 2 → Mask (L C) i (nth i (cache w) []).

(** No layer is left on the stack. *)
Definition no_new_one (w w' : Work) : Prop := ∀ i, st w' !! i = Some 1 → st w !! i = Some 1.

Lemma work_enter w i : work_ok w → work_ok (mkWork (<[i := 1]> (st w)) (cache w)).
Proof.
  intros (H1 & H2 & H3). unfold work_ok. cbn [st cache]. split; [by rewrite length_insert|]. split; [done|]. intros k.
  destruct (decide (i = k)) as [->|Hne]; [|rewrite list_lookup_insert_ne by done; apply H3].
  destruct (decide (k < length (st w))%nat); [|rewrite list_insert_ge by lia; apply H3].
  by rewrite list_lookup_insert_eq by done.
Qed.

Lemma work_leave w i R : work_ok w → Mask (L C) i R →
  work_ok (mkWork (<[i := 2]> (st w)) (<[i := R]> (cache w))).
Proof.
  intros (H1 & H2 & H3) Hm. pose proof (Mask_lt _ _ _ Hm).
  unfold work_ok. cbn [st cache]. split; [by rewrite length_insert|]. split; [by rewrite length_insert|]. intros k.
  rewrite nth_lookup. destruct (decide (i = k)) as [->|Hne].
  - rewrite (list_lookup_insert_eq (cache w)) by lia. done.
  - rewrite !list_lookup_insert_ne by done. intros Hk. specialize (H3 k Hk). by rewrite nth_lookup in H3.
Qed.

Lemma cached_sound n lid w R w' : dag (L C) → work_ok w → layer_R_cached n pk sk C policy lid w = Ok (R, w') →
  Mask (L C) (Z.to_nat lid) R ∧ work_ok w'.
Proof.
  intros Hp Hw Hc. revert lid w R w' Hw Hc. induction n as [|n IH]; intros lid w R w' Hw; cbn [layer_R_cached];
    destruct (Z.of_nat (length (L C)) <=? lid); try done;
    destruct (_ || _); try done; set (i := Z.to_nat lid);
    (destruct (Z.eqb_spec (nth i (st w) 0) 2) as [E2|_];
     [intros E; apply Ok_inj in E; injection E as <- <-; split; [|done];
      apply Hw; rewrite nth_lookup in E2; destruct (st w !! i); cbn in E2; congruence|]);
    destruct (nth i (st w) 0 =? 1); try done. destruct (L C !! i) as [l|] eqn:Hl; [|done].
  intros ([R1 w1] & E1 & E2)%res_bind_Ok. apply Ok_inj in E2. injection E2 as -> <-.
  pose proof (work_enter _ i Hw) as Hw1.
  assert (HM : Mask (L C) i R ∧ work_ok w1).
  { destruct (rule l) eqn:Hr.
    1: { apply res_bind_Ok in E1 as (R' & Hb & E). apply Ok_inj in E. injection E as -> <-.
         split; [|done]. rewrite HS in Hb. by apply (Mask_base _ _ l). }
    all: apply res_bind_Ok in E1 as ([Ra wa] & Ea & E1); apply res_bind_Ok in E1 as ([Rb wb] & Eb & E1);
      apply res_bind_Ok in E1 as (R' & Hm & E); apply Ok_inj in E; injection E as -> <-;
      destruct (IH _ _ _ _ Hw1 Ea) as [Ma Hwa]; destruct (IH _ _ _ _ Hwa Eb) as [Mb Hwb];
      (split; [|done]); apply (Mask_prod _ _ l Ra Rb); congruence || done. }
  destruct HM as [HM HW]. split; [done|]. by apply work_leave.
Qed.

Lemma cached_complete n lid w R : dag (L C) → work_ok w → 0 ≤ lid → (Z.to_nat lid < n)%nat → Mask (L C) (Z.to_nat lid) R → (∀ i, (i ≤ Z.to_nat lid)%nat → st w !! i ≠ Some 1) →
  ∃ w', layer_R_cached n pk sk C policy lid w = Ok (R, w') ∧ no_new_one w w'.
Proof.
  intros Hd Hw. revert lid w R Hw. induction n as [|n IH]; intros lid w R Hw Hlid Hn HM H1; [lia|].
  set (i := Z.to_nat lid) in *. pose proof (Mask_lt _ _ _ HM) as Hi. destruct Hw as (W1 & W2 & W3).
  cbn [layer_R_cached]. destruct (Z.leb_spec (Z.of_nat (length (L C))) lid); [lia|].
  rewrite W1, W2, Nat.eqb_refl. cbn [negb orb]. fold i.
  destruct (lookup_lt_is_Some_2 (st w) i) as [s Hs]; [lia|]. assert (Es : nth i (st w) 0 = s) by (by rewrite nth_lookup, Hs). rewrite Es.
  destruct (Z.eqb_spec s 2) as [->|H2].
  { exists w. split; [|by intros ?]. do 2 f_equal. apply (Mask_fun (L C) i); [by apply W3|done]. }
  destruct (Z.eqb_spec s 1) as [->|_]; [by destruct (H1 i); [lia|]|].
  set (w1 := mkWork (<[i := 1]> (st w)) (cache w)).
  assert (Hw1 : work_ok w1) by (by apply work_enter).
  assert (F1 : ∀ k, (k < i)%nat → st w1 !! k ≠ Some 1).
  { intros k Hk. unfold w1. cbn [st]. rewrite list_lookup_insert_ne by lia. apply H1. lia. }
  assert (Fin : ∀ w2, no_new_one w1 w2 → no_new_one w (mkWork (<[i := 2]> (st w2)) (<[i := R]> (cache w2)))).
  { intros w2 N k. cbn [st]. destruct (decide (i = k)) as [->|Hne].
    - destruct (decide (k < length (st w2))%nat).
      + rewrite list_lookup_insert_eq by done. congruence.
      + rewrite lookup_ge_None_2; [congruence|rewrite length_insert; lia].
    - rewrite list_lookup_insert_ne by done. intros Hk%N. unfold w1 in Hk. cbn [st] in Hk.
      by rewrite list_lookup_insert_ne in Hk by done. }
  inversion HM as [i' l R1 Hl Hr Hb|i' l Ra Rb R1 Hl Hr Ha Hb Hm]; subst i' R1; rewrite Hl.
  - rewrite Hr, HS. cbn zeta. rewrite Hb. cbn. eexists. split; [done|]. apply (Fin w1). by intros ?.
  - destruct (Hd _ _ Hl Hr) as [[Pa Da] [Pb Db]].
    destruct (IH (pa l) w1 Ra Hw1 Pa ltac:(lia) Ha) as (wa & Ea & Na); [intros; apply F1; lia|].
    destruct (cached_sound _ _ _ _ _ Hd Hw1 Ea) as [_ Hwa].
    destruct (IH (pb l) wa Rb Hwa Pb ltac:(lia) Hb) as (wb & Eb & Nb).
    { intros k Hk E%Na. revert E. apply F1. lia. }
    destruct (rule l); [done|..]; cbn zeta; fold w1; rewrite Ea; cbn; rewrite Eb; cbn; rewrite Hm; cbn;
      (eexists; split; [done|]); apply (Fin wb); intros k E; by apply Na, Nb.
Qed.

(** *** The inverses that decryption uses *)

Definition mask_inv (R : list Fp) : list Fp := tabulate S (λ j, fp_inv (nth j R fp0)).

Definition masks_ok (ls : list Layer) (Rinv : list (list Fp)) : Prop :=
  length Rinv = length ls ∧ ∀ i, (i < length ls)%nat → ∃ R, Mask ls i R ∧ Rinv !! i = Some (mask_inv R).

Lemma masks_ok_fun ls Ri Ri' : masks_ok ls Ri → masks_ok ls Ri' → Ri = Ri'.
Proof.
  intros [H1 H2] [H3 H4]. apply list_eq_same_length with (length ls); [congruence|done|]. intros i x y Hi Hx Hy.
  destruct (H2 i Hi) as (R & HR & E), (H4 i Hi) as (R' & HR' & E'). rewrite (Mask_fun _ _ _ _ HR HR') in E. congruence.
Qed.

Lemma masks_inv_sound k m w Rs w' : dag (L C) → 0 ≤ k → work_ok w →
  masks_inv pk sk C policy (zseq k m) w = Ok (Rs, w') →
  length Rs = m ∧ ∀ i, (i < m)%nat → ∃ R, Mask (L C) (Z.to_nat k + i) R ∧ Rs !! i = Some (mask_inv R).
Proof.
  intros Hd. revert k w Rs w'. induction m as [|m IH]; intros k w Rs w' Hk Hw; cbn [zseq masks_inv].
  - intros E. apply Ok_inj in E. injection E as <- <-. split; [done|lia].
  - intros (R & w1 & E1 & (Ri & w2 & E2 & E3)%M_bind_Ok)%M_bind_Ok. apply Ok_inj in E3. injection E3 as <- <-.
    destruct (cached_sound _ _ _ _ _ Hd Hw E1) as [HM Hw1].
    destruct (IH (k + 1) w1 Ri w2 ltac:(lia) Hw1 E2) as [Hl Hi]. split; [cbn [length]; by rewrite Hl|].
    intros [|i] Hlt.
    + exists R. rewrite Nat.add_0_r. split; [done|]. unfold mask_inv. by rewrite <- HS.
    + destruct (Hi i ltac:(lia)) as (R' & HM' & E). exists R'. replace (Z.to_nat k + Datatypes.S i)%nat with (Z.to_nat (k + 1) + i)%nat by lia.
      done.
Qed.

Lemma masks_inv_complete k m w : dag (L C) → 0 ≤ k → (Z.to_nat k + m = length (L C))%nat → work_ok w →
  (∀ i, st w !! i ≠ Some 1) → (∀ i, (Z.to_nat k ≤ i < length (L C))%nat → ∃ R, Mask (L C) i R) →
  ∃ Rs w', masks_inv pk sk C policy (zseq k m) w = Ok (Rs, w').
Proof.
  intros Hd. revert k w. induction m as [|m IH]; intros k w Hk Hlen Hw H1 HM; cbn [zseq masks_inv].
  - by exists [], w.
  - destruct (HM (Z.to_nat k)) as [R HR]; [lia|].
    destruct (cached_complete (Datatypes.S (length (L C))) k w R Hd Hw Hk ltac:(lia) HR) as (w1 & E1 & N1); [intros; apply H1|].
    destruct (cached_sound _ _ _ _ _ Hd Hw E1) as [_ Hw1].
    destruct (IH (k + 1) w1) as (Rs & w2 & E2); [lia|lia|done|intros i E; by apply (H1 i), N1|intros; apply HM; lia|].
    eexists _, w2. unfold mbind, M_bind. rewrite E1, E2. done.
Qed.

Definition work0 : Work := mkWork (replicate (length (L C)) 0) (replicate (length (L C)) []).

Lemma work0_ok : work_ok work0 ∧ ∀ i, st work0 !! i ≠ Some 1.
Proof.
  unfold work_ok, work0. cbn [st cache]. rewrite !length_replicate. split; [split_and!; [done..|]|].
  - intros i (E & _)%lookup_replicate_1. done.
  - intros i (E & _)%lookup_replicate_1. done.
Qed.

Lemma masks_inv_spec Ri : dag (L C) →
  (∃ w', masks_inv pk sk C policy (zseq 0 (length (L C))) work0 = Ok (Ri, w')) ↔ masks_ok (L C) Ri.
Proof.
  intros Hd. destruct work0_ok as [W0 N0]. split.
  - intros [w' E]. by apply (masks_inv_sound _ _ _ _ _ Hd) in E.
  - intros HM. destruct (masks_inv_complete 0 (length (L C)) work0 Hd) as (Rs & w' & E); [done|done|done|done| |].
    { intros i [_ Hi]. destruct HM as [_ HM]. destruct (HM i Hi) as (R & HR & _). by exists R. }
    exists w'. rewrite E. do 2 f_equal. apply (masks_ok_fun (L C)); [|done].
    by apply (masks_inv_sound _ _ _ _ _ Hd) in E.
Qed.
End Masks.

(** ** Decryption as a linear form *)

Definition fval (l : list Fp) (j : nat) : Z := val (nth j l fp0).

(** The contribution of an edge to slot [j], before unmasking. *)
Definition gterm (pk : PubKey) (j : nat) (e : Edge) : Z :=
  sgn_val (ch e) * (fval (ew e) j * fval (powg_B pk) (Z.to_nat (idx e))).

Definition esum (pk : PubKey) (ri : nat → Z) (es : list Edge) (j : nat) : Z :=
  foldr (λ e s, gterm pk j e * ri (Z.to_nat (layer_id e)) + s) 0 es.

(** Slot [j] of the plaintext. *)
Definition plain (pk : PubKey) (Rinv : list (list Fp)) (C : Cipher) (j : nat) : Z :=
  fval (c0 C) j + esum pk (λ l, fval (nth l Rinv []) j) (E C) j.

Definition edge_wf (e : Edge) : Prop :=
  word 32 (layer_id e) ∧ word 16 (idx e) ∧ word 8 (ch e) ∧ Forall fp_ok (ew e).

Definition cipher_wf (C : Cipher) : Prop :=
  parents_words (L C) ∧ Forall edge_wf (E C) ∧ Forall fp_ok (c0 C).

Lemma fp0_ok : fp_ok fp0.
Proof. apply (fp_from_u64_spec 0). word_lia. Qed.

Lemma nth_ok l j : Forall fp_ok l → fp_ok (nth j l fp0).
Proof. intros. apply Forall_nth_default; [done|apply fp0_ok]. Qed.

Lemma nth_zeros n j : nth j (Op.zeros n) fp0 = fp0.
Proof. revert j. induction n as [|n IH]; intros [|j]; cbn; done. Qed.

Lemma length_zeros n : length (Op.zeros n) = n.
Proof. apply length_replicate. Qed.

Lemma nth_rep l j : Forall fp_ok l → nth j l fp0 ~~ fval l j.
Proof. intros. by apply rep_val, nth_ok. Qed.
#[local] Hint Resolve nth_rep : fp.

Lemma sgn_val_pm c : sgn_val c = 1 ∨ sgn_val c = -1.
Proof. unfold sgn_val. destruct (c =? SGN_P); auto. Qed.

(** Adding or subtracting according to a sign. *)
Lemma rep_signed c a t x y : a ~~ x → t ~~ y →
  (if 0 <? sgn_val c then fp_add a t else fp_sub a t) ~~ x + sgn_val c * y.
Proof.
  intros Ha Ht. destruct (sgn_val_pm c) as [->| ->]; cbn [Z.ltb Z.compare].
  - rewrite Z.mul_1_l. by apply rep_add.
  - replace (x + -1 * y) with (x - y) by ring. by apply rep_sub.
Qed.

Lemma tabulate_ok n f : (∀ j, (j < n)%nat → fp_ok (f j)) → Forall fp_ok (tabulate n f).
Proof. intros H. apply Forall_fmap, Forall_forall. intros j Hj%elem_of_seq. apply H. lia. Qed.

Section Linear.
Context (pk : PubKey) (n : nat) (Rinv : list (list Fp)) (Hg : Forall fp_ok (powg_B pk))
  (HR : Forall (Forall fp_ok) Rinv).

Lemma row_ok l : Forall fp_ok (nth l Rinv []).
Proof. apply Forall_nth_default; [done|constructor]. Qed.

Lemma dec_step_rep acc e j x : edge_wf e → (j < n)%nat → nth j acc fp0 ~~ x →
  nth j (dec_step pk n Rinv acc e) fp0 ~~ x + gterm pk j e * fval (nth (Z.to_nat (layer_id e)) Rinv []) j.
Proof.
  intros (_ & _ & _ & Hw) Hj Ha. unfold dec_step. cbv zeta. rewrite nth_tabulate by done.
  eapply rep_cong; [apply rep_signed; [exact Ha|]|].
  - apply rep_mul; [apply rep_mul|]; apply nth_rep; [done|done|apply row_ok].
  - apply cong_eq. unfold gterm. ring.
Qed.

Lemma dec_fold_rep es acc j x : Forall edge_wf es → (j < n)%nat → nth j acc fp0 ~~ x →
  nth j (foldl (dec_step pk n Rinv) acc es) fp0 ~~ x + esum pk (λ l, fval (nth l Rinv []) j) es j.
Proof.
  intros Hes Hj. revert acc x. induction Hes as [|e es He _ IH]; intros acc x Ha; cbn [foldl esum foldr].
  - by rewrite Z.add_0_r.
  - rewrite Z.add_assoc. by apply IH, dec_step_rep.
Qed.

Lemma dec_fold_length es acc : length acc = n → length (foldl (dec_step pk n Rinv) acc es) = n.
Proof.
  revert acc. induction es as [|e es IH]; intros acc Ha; cbn [foldl]; [done|]. apply IH. apply length_tabulate.
Qed.
End Linear.

(** [admissible]: the checks of [dec_values] before it looks at the keys. *)
Definition admissible (pk : PubKey) (C : Cipher) (policy : DecPolicy) : Prop :=
  is_cipher_compatible_with_pubkey pk C = true ∧ (policy = NATIVE_LOCAL ∨ dec_has_native_src pk C = false).

Lemma compatible_shape pk C : is_cipher_compatible_with_pubkey pk C = true → is_valid_cipher_shape C = true.
Proof. unfold is_cipher_compatible_with_pubkey. rewrite !andb_true_iff. tauto. Qed.

Section Spec.
Context {F : Fuel} (pk : PubKey) (sk : SecKey) (policy : DecPolicy).

(** The mask of a base layer has one reduced element per slot. *)
Lemma base_mask_ok S l R : keys_ok sk → base_mask pk sk S policy l = Ok R → length R = S ∧ Forall fp_ok R.
Proof.
  #[local] Transparent base_mask.
  assert (U : ∀ xs, Forall fp_unit xs → Forall fp_ok xs) by (intros xs H; eapply Forall_impl; [exact H|]; by intros x [? _]).
  intros Hk. unfold base_mask. cbv zeta. destruct (ru_src pk l && _); [done|]. destruct (ru_src pk l).
  { intros <-%Ok_inj. destruct (ru_r_slots_unit sk (seed l) S). auto. }
  destruct (bool_decide _); [intros []%prf_R_slots_unit; auto|].
  destruct (negb _); [intros (? & ? & _)%circuit_prf_R_slots_ok; auto|intros []%prf_R_slots_unit; auto].
Qed.

Lemma Mask_ok S ls i R : keys_ok sk → Mask pk sk policy S ls i R → length R = S ∧ Forall fp_ok R.
Proof.
  intros Hk. induction 1 as [i l R _ _ Hb|i l Ra Rb R _ _ _ [La Fa] _ [Lb Fb] Hm]; [by eapply base_mask_ok|].
  unfold Op.mul in Hm. destruct (_ =? _)%nat; [|done]. apply Ok_inj in Hm as <-.
  split; [rewrite length_zip_with; lia|]. eapply Forall_zip_with; [exact Fa|exact Fb|].
  intros a b Ha Hb. eapply rep_ok. by apply rep_mul; apply rep_val.
Qed.

Lemma mask_inv_ok S R : Forall fp_ok R → Forall fp_ok (mask_inv S R).
Proof. intros HR. apply tabulate_ok. intros j _. eapply rep_ok, rep_inv_pow, nth_rep, HR. Qed.

Lemma masks_ok_reduced S ls Rinv : keys_ok sk → masks_ok pk sk policy S ls Rinv → Forall (Forall fp_ok) Rinv.
Proof.
  intros Hk [Hl Hi]. apply Forall_lookup_2. intros i x Hx. pose proof (lookup_lt_Some _ _ _ Hx) as Hlt.
  rewrite Hl in Hlt. destruct (Hi i Hlt) as (R & HM & E). rewrite E in Hx. apply Some_inj in Hx as <-.
  apply mask_inv_ok. by destruct (Mask_ok _ _ _ _ Hk HM).
Qed.

(** [v] is the plaintext of [C]. *)
Definition decrypts (C : Cipher) (v : list Fp) : Prop :=
  length v = slots C ∧ ∃ Rinv, masks_ok pk sk policy (slots C) (L C) Rinv ∧
    ∀ j, (j < slots C)%nat → nth j v fp0 ~~ plain pk Rinv C j.

Lemma decrypts_fun C v v' : decrypts C v → decrypts C v' → v = v'.
Proof.
  intros [H1 (R & HR & Hv)] [H2 (R' & HR' & Hv')]. rewrite (masks_ok_fun _ _ _ _ _ _ _ HR HR') in Hv.
  apply list_eq_same_length with (slots C); [done|done|]. intros j x y Hj Hx Hy.
  specialize (Hv j Hj). specialize (Hv' j Hj). rewrite nth_lookup, Hx in Hv. rewrite nth_lookup, Hy in Hv'.
  by eapply rep_inj.
Qed.

Lemma shape_c0 C : is_valid_cipher_shape C = true → length (c0 C) = 0%nat ∨ length (c0 C) = slots C.
Proof.
  unfold is_valid_cipher_shape. rewrite !andb_true_iff, orb_true_iff, !Nat.eqb_eq. tauto.
Qed.

(** The computation after the guards. *)
Lemma dec_core C v : Forall fp_ok (powg_B pk) → keys_ok sk → cipher_wf C → is_valid_cipher_shape C = true →
  ('(Rinv, _) ← masks_inv pk sk C policy (zseq 0 (length (L C))) (work0 C);
   let acc := if (length (c0 C) =? 0)%nat then Op.zeros (slots C) else c0 C in
   Ok (foldl (dec_step pk (slots C) Rinv) acc (E C))) = Ok v ↔ decrypts C v.
Proof.
  intros Hg Hk (Hp & HE & Hc) HS. pose proof (shape_dag _ HS Hp) as Hd. cbv zeta. set (acc := if (length (c0 C) =? 0)%nat then _ else _).
  assert (Ha : length acc = slots C ∧ ∀ j, nth j acc fp0 ~~ fval (c0 C) j).
  { unfold acc. destruct (Nat.eqb_spec (length (c0 C)) 0) as [E0|E0].
    - apply length_zero_iff_nil in E0. rewrite E0. rewrite length_zeros. split; [done|].
      intros j. rewrite nth_zeros. unfold fval. destruct j; apply rep_val, fp0_ok.
    - destruct (shape_c0 _ HS); [done|]. split; [done|]. intros j. by apply nth_rep. }
  destruct Ha as [Ha Hr].
  assert (Hdec : ∀ Rinv, masks_ok pk sk policy (slots C) (L C) Rinv →
    decrypts C (foldl (dec_step pk (slots C) Rinv) acc (E C))).
  { intros Rinv HM. split; [by apply dec_fold_length|]. exists Rinv. split; [done|]. intros j Hj.
    apply dec_fold_rep; [done|by eapply masks_ok_reduced|done|done|apply Hr]. }
  assert (HI := λ Rinv, masks_inv_spec pk sk policy (slots C) C eq_refl Rinv Hd). split.
  - intros ([Rinv w] & E & <-%Ok_inj)%res_bind_Ok. apply Hdec, HI. by exists w.
  - intros HD. pose proof HD as [_ (Rinv & HM & _)]. apply HI in HM as HM'. destruct HM' as [w E]. rewrite E. cbn.
    f_equal. by eapply decrypts_fun; [apply Hdec|].
Qed.

Lemma dec_values_decrypts C v : Forall fp_ok (powg_B pk) → keys_ok sk → cipher_wf C →
  dec_values pk sk C policy = Ok v ↔ admissible pk C policy ∧ decrypts C v.
Proof.
  intros Hg Hk Hwf. unfold dec_values, admissible.
  destruct (is_cipher_compatible_with_pubkey pk C) eqn:Hcomp; cbn [negb]; [|naive_solver].
  pose proof (dec_core C v Hg Hk Hwf (compatible_shape _ _ Hcomp)) as Hcore. unfold work0 in Hcore.
  destruct (bool_decide_reflect (policy = NATIVE_LOCAL)) as [Hpol|Hpol]; cbn [negb andb]; [rewrite Hcore; naive_solver|].
  destruct (dec_has_native_src pk C); [naive_solver|]. rewrite Hcore. naive_solver.
Qed.
End Spec.
