(* ===== verification/SerializeCorrect.v ===== *)
(** * The formats round-trip

    Each record's writer and reader form a [Codec] for the records in range;
    from these, for whole strings: what is written is read back, and a string
    that is accepted is the one that the writer writes. *)

From S2P Require Import RistrettoGroup.
From S2P Require Import Prelude Field Compress CompressBound Hash Rng CtSafe Types Fe25519 Scalar25519 Ristretto.
From S2P Require Import Stream Serialize Decrypt.

#[local] Open Scope stream_scope.

(** ** Records *)

(** One field of a record, in both directions; then the last field. *)
Ltac put_field := eapply put_get_bind; [apply _|try assumption|].
Ltac get_field x H := eapply get_put_bind; [apply _|apply _|]; intros x H.

Definition params_ok (p : Params) : Prop :=
  int32 (p_B p) ∧ int32 (m_bits p) ∧ int32 (n_bits p) ∧ int32 (h_col_wt p) ∧ int32 (x_col_wt p) ∧
  int32 (err_wt p) ∧ word 64 (noise_entropy_bits p) ∧ word 64 (tuple2_fraction p) ∧
  word 64 (depth_slope_bits p) ∧ word 64 (edge_budget p) ∧ int32 (lpn_n p) ∧ int32 (lpn_t p) ∧
  int32 (lpn_tau_num p) ∧ int32 (lpn_tau_den p) ∧ word 64 (recrypt_lo p) ∧ word 64 (recrypt_hi p) ∧
  int32 (recrypt_rounds p).

#[export] Instance params_codec : Codec write_params read_params params_ok.
Proof.
  split; [unfold read_params; apply _| |].
  - intros p (? & ? & ? & ? & ? & ? & ? & ? & ? & ? & ? & ? & ? & ? & ? & ? & ?).
    unfold write_params, read_params. do 16 put_field. destruct p. by eapply put_get_last; [apply _|].
  - unfold write_params, read_params.
    do 16 (eapply get_put_bind; [apply _|apply _|]; intros ? ?).
    eapply get_put_last; [apply _|]. intros ? ?. unfold params_ok. cbn. by split_and!.
Qed.

(** *** Layers *)

Definition rule_ok (r : RRule) : Prop :=
  match r with RULE_other b => word 8 b ∧ b ≠ 0 ∧ b ≠ 1 | _ => True end.

#[export] Instance rule_codec : Codec (λ r, w_u8 (rule_byte r)) (b ← r_u8; mret (byte_rule b)) rule_ok.
Proof.
  apply (iso_codec w_u8 r_u8 (word 8)).
  - intros [| |b] Hb; [by split|by split|]. destruct Hb as (Hb & H0 & H1). split; [done|]. unfold byte_rule.
    cbn [rule_byte]. by rewrite (proj2 (Z.eqb_neq b 0)), (proj2 (Z.eqb_neq b 1)).
  - intros b Hb. unfold byte_rule. destruct (Z.eqb_spec b 0) as [->|]; [by split|].
    destruct (Z.eqb_spec b 1) as [->|]; by split.
Qed.

(** Seed and parents: the fields that the rule leaves out are zero. *)
Definition w_source (r : RRule) (src : RSeed * (Z * Z)) : Writer :=
  match r with
  | BASE => w_u64 (ztag src.1) ⨟ w_u64 (n_lo (nonce src.1)) ⨟ w_u64 (n_hi (nonce src.1))
  | _ => w_u32 src.2.1 ⨟ w_u32 src.2.2
  end.

Definition source_ok (r : RRule) (src : RSeed * (Z * Z)) : Prop :=
  match r with
  | BASE => word 64 (ztag src.1) ∧ word 64 (n_lo (nonce src.1)) ∧ word 64 (n_hi (nonce src.1)) ∧ src.2 = (0, 0)
  | _ => src.1 = seed0 ∧ word 32 src.2.1 ∧ word 32 src.2.2
  end.

Lemma parents_codec : Codec (λ src : RSeed * (Z * Z), w_u32 src.2.1 ⨟ w_u32 src.2.2)
  (pa ← r_u32; pb ← r_u32; mret (seed0, (pa, pb)))
  (λ src, src.1 = seed0 ∧ word 32 src.2.1 ∧ word 32 src.2.2).
Proof.
  split; [apply _| |].
  - intros [s [pa pb]] (Hs & ? & ?). cbn in *. subst s. put_field. by apply (put_get_last w_u32 r_u32 _ (λ pb, (seed0, (pa, pb)))).
  - eapply (get_put_bind w_u32 _ _ _ _ (λ src, src.2.1)); [apply _|]. intros pa ?.
    eapply (get_put_last w_u32 _ _ (λ pb, (seed0, (pa, pb))) (λ src, src.2.2)). intros pb ?. cbn. by split_and!.
Qed.

#[export] Instance source_codec r : Codec (w_source r) (read_layer_source r) (source_ok r).
Proof.
  destruct r; [|apply parents_codec..]. split; [cbn; apply _| |].
  - intros [[z [nl nh]] p] (? & ? & ? & Hp). cbn in *. subst p. do 2 put_field.
    by apply (put_get_last w_u64 r_u64 _ (λ nh, (mkRSeed z (mkNonce nl nh), (0, 0)))).
  - cbn. eapply (get_put_bind w_u64 _ _ _ _ (λ src, ztag src.1)); [apply _|]. intros z ?.
    eapply (get_put_bind w_u64 _ _ _ _ (λ src, n_lo (nonce src.1))); [apply _|]. intros nl ?.
    eapply (get_put_last w_u64 _ _ (λ nh, (mkRSeed z (mkNonce nl nh), (0, 0))) (λ src, n_hi (nonce src.1))).
    intros nh ?. cbn. by split_and!.
Qed.

#[export] Instance points_codec : Codec (w_vec w_rist_point) (r_vec 32 r_rist_point) (vec_ok point_ok).
Proof. eapply vec_codec; [apply _..|done]. Qed.
#[export] Instance fps_codec : Codec (w_vec w_fp) (r_vec 16 r_fp) (vec_ok fp_ok).
Proof. eapply vec_codec; [apply _..|done]. Qed.

Definition layer_ok (l : Layer) : Prop :=
  rule_ok (rule l) ∧ source_ok (rule l) (seed l, (pa l, pb l)) ∧
  (length (R_com l) = 32%nat ∧ bytes (R_com l)) ∧ vec_ok point_ok (R_PC l) ∧ vec_ok point_ok (PC l).

(** [read_layer] on version 3. *)
Definition read_layer_v3 : Rd Layer :=
  rule ← (b ← r_u8; mret (byte_rule b));
  src ← read_layer_source rule;
  R_com ← r_raw 32;
  R_PC ← r_vec 32 r_rist_point;
  f ← r_failed;
  if f : bool then mret (mkLayer rule src.1 src.2.1 src.2.2 R_com R_PC [])
  else
    PC ← r_vec 32 r_rist_point;
    mret (mkLayer rule src.1 src.2.1 src.2.2 R_com R_PC PC).

Lemma Rd_bind_assoc {A B C} (g : Rd A) (h : A → Rd B) (k : B → Rd C) r :
  (x ← (a ← g; h a); k x) r = (a ← g; x ← h a; k x) r.
Proof. unfold mbind, Rd_bind. by destruct (g r). Qed.

Lemma Rd_bind_cong {A B} (g : Rd A) (h k : A → Rd B) r : (∀ a r, h a r = k a r) → (a ← g; h a) r = (a ← g; k a) r.
Proof. intros H. unfold mbind, Rd_bind. by destruct (g r). Qed.

Lemma read_layer_3 slots r : read_layer VERSION_V3 slots r = read_layer_v3 r.
Proof.
  unfold read_layer_v3. rewrite Rd_bind_assoc. unfold read_layer. cbv zeta.
  change (VERSION_V3 <? VERSION_V4) with true. change (VERSION_V3 <=? VERSION_V3) with true.
  change (VERSION_V2 <=? VERSION_V3) with true. change (VERSION_V4 <=? VERSION_V3) with false. cbn [andb].
  apply Rd_bind_cong; intros b r1. rewrite (Rd_step (mret (byte_rule b)) _ r1 _ _ eq_refl).
  do 3 (apply Rd_bind_cong; intros ? ?). unfold mbind, Rd_bind, r_failed.
  destruct (failed _); [done|]. destruct (r_vec 32 r_rist_point _). by destruct (failed _).
Qed.

(** Readers that agree everywhere. *)
Lemma codec_cong {A} (put : A → Writer) (g h : Rd A) ok : (∀ r, h r = g r) → Codec put g ok → Codec put h ok.
Proof.
  intros E [Sg Pg Gg]. split.
  - intros r Hr. rewrite E. by apply Sg.
  - intros a Ha. destruct (Pg a Ha) as (bs & He & Hg). exists bs. split; [done|]. intros s. by rewrite E.
  - intros r b s Hr. rewrite E. by apply Gg.
Qed.

#[export] Instance layer_v3_codec : Codec write_layer read_layer_v3 layer_ok.
Proof.
  split; [unfold read_layer_v3; apply _| |].
  - intros [r s pa pb rc rpc pc] (Hr & Hs & Hc & H1 & H2). cbn in *.
    apply (put_get_conv (w_u8 (rule_byte r) ⨟ w_source r (s, (pa, pb)) ⨟ w_raw rc ⨟ w_vec w_rist_point rpc ⨟
      w_vec w_rist_point pc)).
    { intros buf. unfold write_layer. do 3 (apply w_seq_cong; intros ?). by rewrite <- w_seq_assoc. }
    unfold read_layer_v3. eapply (put_get_bind (λ r, w_u8 (rule_byte r))); [apply _|done|].
    do 3 put_field. apply put_get_failed.
    by apply (put_get_last (w_vec w_rist_point) (r_vec 32 r_rist_point) _ (mkLayer r s pa pb rc rpc)).
  - apply (get_put_conv (λ l, w_u8 (rule_byte (rule l)) ⨟ w_source (rule l) (seed l, (Types.pa l, Types.pb l)) ⨟
      w_raw (R_com l) ⨟ w_vec w_rist_point (R_PC l) ⨟ w_vec w_rist_point (PC l))).
    { intros l buf _. unfold write_layer. do 3 (apply w_seq_cong; intros ?). by rewrite <- w_seq_assoc. }
    unfold read_layer_v3. eapply (get_put_bind (λ r, w_u8 (rule_byte r)) _ _ _ _ rule); [apply _|]. intros r Hr.
    apply (get_put_conv (λ l, w_source r (seed l, (Types.pa l, Types.pb l)) ⨟
      w_raw (R_com l) ⨟ w_vec w_rist_point (R_PC l) ⨟ w_vec w_rist_point (PC l))).
    { intros l buf [-> _]. done. }
    eapply (get_put_bind (w_source r) _ _ _ _ (λ l, (seed l, (Types.pa l, Types.pb l)))); [apply _|]. intros [s [a b]] Hs.
    get_field rc Hrc. get_field rpc Hrpc. apply get_put_failed.
    eapply get_put_last; [apply points_codec|]. intros pc Hpc.
    destruct Hrc. cbn. unfold layer_ok. cbn. by split_and!.
Qed.

#[export] Instance layer_codec slots : Codec write_layer (read_layer VERSION_V3 slots) layer_ok.
Proof. apply (codec_cong _ read_layer_v3); [intros; by rewrite read_layer_3|apply _]. Qed.

Lemma layer_grows l : grows (write_layer l) 8.
Proof.
  apply (grows_seq _ _ 1 8); [apply grows_words| |done].
  apply (grows_seq _ _ 8 0); [|repeat (apply (grows_seq _ _ 0 0)); try done|done].
  - destruct (rule l); [apply (grows_seq _ _ 8 0)|apply (grows_seq _ _ 4 4)..]; try apply grows_words; try done.
    apply (grows_le _ 16); [apply (grows_seq _ _ 8 8); try apply grows_words|]; done.
  - apply grows_any_raw.
  - apply (grows_le _ 8); [apply grows_u64|done].
  - apply grows_each. intros. apply grows_any_raw.
  - apply (grows_le _ 8); [apply grows_u64|done].
  - apply grows_each. intros. apply grows_any_raw.
Qed.
#[export] Instance layer_sized : Sized write_layer layer_ok 8.
Proof. intros l _. apply layer_grows. Qed.

(** *** Edges *)

Definition edge_ok (e : Edge) : Prop :=
  word 32 (layer_id e) ∧ word 16 (idx e) ∧ word 8 (ch e) ∧ vec_ok fp_ok (ew e) ∧ bitvec_ok (es e).

#[export] Instance edge_codec : Codec write_edge read_edge edge_ok.
Proof.
  assert (A : ∀ e buf, write_edge e buf =
    (w_u32 (layer_id e) ⨟ w_u16 (idx e) ⨟ w_u8 (ch e) ⨟ w_vec w_fp (ew e) ⨟ w_bitvec (es e)) buf).
  { intros e buf. unfold write_edge. do 3 (apply w_seq_cong; intros ?). by rewrite <- w_seq_assoc. }
  split; [unfold read_edge; apply _| |].
  - intros e (? & ? & ? & ? & ?). eapply put_get_conv; [intros; apply A|]. unfold read_edge.
    do 4 put_field. apply put_get_failed. destruct e. by eapply put_get_last; [apply _|].
  - eapply get_put_conv; [intros; apply A|]. unfold read_edge.
    get_field l Hl. get_field i Hi. get_field c Hc. get_field w Hw. apply get_put_failed.
    eapply get_put_last; [apply _|]. intros s Hs. unfold edge_ok. cbn. by split_and!.
Qed.

Lemma fp_grows x : grows (w_fp x) 0.
Proof.
  unfold w_fp. destruct (negb _); [intros ?? [=]|]. by apply (grows_seq _ _ 8 8); [apply grows_words..|].
Qed.
Lemma bitvec_grows bv : grows (w_bitvec bv) 0.
Proof.
  apply (grows_seq _ _ 8 0); [apply grows_words| |done]. apply (grows_seq _ _ 8 0); [apply grows_words| |done].
  apply grows_each. intros x. apply (grows_le _ 8); [apply grows_words|done].
Qed.
Lemma edge_grows e : grows (write_edge e) 8.
Proof.
  apply (grows_seq _ _ 4 4); [apply grows_words| |done].
  apply (grows_seq _ _ 2 2); [apply grows_words| |done]. apply (grows_seq _ _ 1 1); [apply grows_words| |done].
  apply (grows_seq _ _ 8 0); [apply grows_words| |done]. apply (grows_seq _ _ 0 0); [|apply bitvec_grows|done].
  apply grows_each, fp_grows.
Qed.
#[export] Instance edge_sized : Sized write_edge edge_ok 8.
Proof. intros e _. apply edge_grows. Qed.

#[export] Instance edges_codec : Codec (w_vec write_edge) (r_vec 8 read_edge) (vec_ok edge_ok).
Proof. eapply vec_codec; [apply _..|done]. Qed.

(** ** Ciphertexts *)

Lemma put_get_live {A B} w (d g : Rd A) (k : A → Rd B) b :
  put_get w (x ← g; k x) b → put_get w (f ← r_failed; x ← (if f : bool then d else g); k x) b.
Proof. intros (bs & He & Hk). exists bs. split; [done|]. intros s. apply Hk. Qed.

Lemma get_put_live {A B} (w : B → Writer) (d g : Rd A) (k : A → Rd B) Q : Sticky d → (∀ a, Sticky (k a)) →
  get_put w (x ← g; k x) Q → get_put w (f ← r_failed; x ← (if f : bool then d else g); k x) Q.
Proof.
  intros Sd Sk Hk r b s Hr E. destruct (failed r) eqn:F.
  - exfalso. assert (E' : (x ← d; k x) r = (b, reading s)).
    { rewrite <- E. unfold mbind at 2, Rd_bind at 2, r_failed. by rewrite F. }
    pose proof (sticky (g := x ← d; k x) r F) as F'. by rewrite E' in F'.
  - apply (Hk r b s Hr). rewrite <- E. unfold mbind at 2, Rd_bind at 2, r_failed. by rewrite F.
Qed.

Definition slots_ok (strict cap : bool) (n : nat) : Prop :=
  word 64 (Z.of_nat n) ∧ (strict || cap = true → n ≠ 0%nat) ∧ (cap = true → Z.of_nat n ≤ MAX_CIPHER_SLOTS).

#[export] Instance slots_codec strict cap :
  Codec (λ n, w_u64 (Z.of_nat n)) (read_cipher_slots VERSION_V3 strict cap) (slots_ok strict cap).
Proof.
  split; [unfold read_cipher_slots; apply _| |].
  - intros n (Hw & H0 & Hc). apply (put_get_conv (w_u64 (Z.of_nat n) ⨟ w_skip)); [intros; by rewrite w_seq_skip|].
    unfold read_cipher_slots. put_field. apply put_get_failed.
    destruct (_ && _) eqn:E1.
    { apply andb_true_iff in E1 as [E0%Z.eqb_eq Es]. specialize (H0 Es). lia. }
    change (VERSION_V4 <=? VERSION_V3) with false. rewrite andb_false_r, orb_false_r.
    destruct (cap && _) eqn:E2.
    { apply andb_true_iff in E2 as [Ec E0%Z.ltb_lt]. specialize (Hc Ec). lia. }
    rewrite Nat2Z.id. apply put_get_ret.
  - apply (get_put_conv (λ n, w_u64 (Z.of_nat n) ⨟ w_skip)); [intros; by rewrite w_seq_skip|].
    unfold read_cipher_slots. eapply (get_put_bind w_u64 _ _ _ _ Z.of_nat); [apply _|]. intros v Hv.
    apply get_put_failed. destruct (_ && _) eqn:E1; [apply get_put_fail, _|].
    change (VERSION_V4 <=? VERSION_V3) with false. rewrite andb_false_r, orb_false_r.
    destruct (cap && _) eqn:E2; [apply get_put_fail, _|]. apply get_put_ret. unfold word in Hv.
    split; [lia|]. split; [unfold word; lia|]. split.
    + intros Es Ez. rewrite Es in E1. rewrite andb_true_r in E1. apply Z.eqb_neq in E1. lia.
    + intros ->. apply Z.ltb_ge in E2. lia.
Qed.

Lemma vec_grows {A} (f : A → Writer) l : (∀ a, grows (f a) 0) → grows (w_vec f l) 0.
Proof. intros Hf. apply (grows_seq _ _ 8 0); [apply grows_u64|by apply grows_each|done]. Qed.

Definition cipher_ok (strict cap : bool) (C : Cipher) : Prop :=
  slots_ok strict cap (slots C) ∧ vec_ok layer_ok (L C) ∧ vec_ok fp_ok (c0 C) ∧ vec_ok edge_ok (E C).

#[export] Instance sticky_cells ver n nL strict cap : Sticky (check_public_cells ver n nL strict cap).
Proof. unfold check_public_cells. apply _. Qed.

#[export] Instance cipher_fields_codec strict cap :
  Codec write_cipher_raw (read_cipher_fields VERSION_V3 strict cap) (cipher_ok strict cap).
Proof.
  assert (A : ∀ C buf, write_cipher_raw C buf =
    (w_u64 (Z.of_nat (slots C)) ⨟ w_size (L C) ⨟ w_each write_layer (L C) ⨟ w_vec w_fp (c0 C) ⨟ w_vec write_edge (E C)) buf).
  { intros C buf. unfold write_cipher_raw. do 3 (apply w_seq_cong; intros ?). by rewrite <- w_seq_assoc. }
  assert (P : ∀ n nL, check_public_cells VERSION_V3 n nL strict cap = r_check false "pvac_ser: public cipher size exceeds maximum").
  { intros. unfold check_public_cells. change (VERSION_V4 <=? VERSION_V3) with false. by rewrite andb_false_r. }
  split; [unfold read_cipher_fields; apply _| |].
  - intros C (Hs & [Hm HL] & Hc & HE). eapply put_get_conv; [intros; apply A|]. unfold read_cipher_fields, w_size.
    eapply (put_get_bind (λ n, w_u64 (Z.of_nat n))); [apply _|done|].
    assert (Hw : word 64 (Z.of_nat (length (L C)))) by (split; [lia|by apply (Z.le_lt_trans _ (2 ^ 24))]).
    put_field. apply put_get_count; [done|lia|done| |].
    { apply (grows_seq _ _ (Z.of_nat (length (L C)) * 8) 0); [| |lia].
      2: { apply (grows_seq _ _ 0 0); [apply vec_grows, fp_grows|apply vec_grows|done].
           intros e. by apply (grows_le _ 8); [apply edge_grows|]. }
      by eapply each_sized; [apply _..|]. }
    rewrite P. apply put_get_check; [done|]. apply put_get_live. rewrite Nat2Z.id.
    eapply (put_get_bind (w_each write_layer)); [apply _|by split|]. put_field.
    destruct C as [l e c n]. by apply (put_get_last (w_vec write_edge) (r_vec 8 read_edge) _ (λ e, mkCipher l e c n)).
  - eapply get_put_conv; [intros; apply A|]. unfold read_cipher_fields, w_size.
    eapply (get_put_bind (λ n, w_u64 (Z.of_nat n))); [apply _|apply _|]. intros n Hn.
    eapply (get_put_bind w_u64 _ _ _ _ (λ C, Z.of_nat (length (L C)))); [apply _|]. intros nL HnL.
    apply get_put_count; [apply _|]. intros Hm. rewrite P. apply get_put_check; [apply _|]. intros _.
    apply get_put_live; [apply _|apply _|].
    eapply (get_put_bind (w_each write_layer)); [apply _|apply _|]. intros l [Hl Hf].
    get_field c Hc. eapply get_put_last; [apply edges_codec|]. intros e He.
    cbn. unfold word in HnL. assert (Z.of_nat (length l) = nL) by lia.
    unfold cipher_ok, vec_ok. cbn. destruct Hc, He. split_and!; try done; lia.
Qed.

(** *** The structure check is the shape check of [core/types.hpp] *)

Lemma first_error_forallb {A} (f : A → option string) (p : A → bool) l :
  (∀ x, f x = None ↔ p x = true) → first_error f l = None ↔ forallb p l = true.
Proof.
  intros H. induction l as [|x l IH]; cbn; [done|]. rewrite andb_true_iff, <- H, <- IH.
  destruct (f x); naive_solver.
Qed.

Lemma layer_error_shape n i l : layer_error n i l = None ↔ layer_shape_ok n i l = true.
Proof.
  unfold layer_error, layer_shape_ok. destruct (rule l); cbn [negb andb]; [| |done].
  - destruct (length (PC l) =? 0)%nat, (length (PC l) =? n)%nat, (length (R_PC l) =? 0)%nat,
      (length (R_PC l) =? n)%nat; done.
  - destruct ((Z.of_nat i <=? pa l) || (Z.of_nat i <=? pb l)), (length (PC l) =? 0)%nat eqn:E1,
      (length (R_PC l) =? 0)%nat eqn:E2; done.
Qed.

Lemma edge_error_shape n m e : edge_error n m e = None ↔ edge_shape_ok n m e = true.
Proof.
  unfold edge_error, edge_shape_ok. destruct (Z.of_nat n <=? layer_id e), (ch e =? SGN_P), (ch e =? SGN_M),
    (length (ew e) =? m)%nat; done.
Qed.

Lemma cipher_structure_shape C : cipher_structure_error C = None ↔ is_valid_cipher_shape C = true.
Proof.
  unfold cipher_structure_error, is_valid_cipher_shape.
  pose proof (first_error_forallb (λ p, layer_error (slots C) p.1 p.2) (λ p, layer_shape_ok (slots C) p.1 p.2)
    (imap pair (L C)) (λ p, layer_error_shape _ _ _)) as HL.
  pose proof (first_error_forallb (edge_error (length (L C)) (slots C)) (edge_shape_ok (length (L C)) (slots C))
    (E C) (λ p, edge_error_shape _ _ _)) as HE.
  rewrite !andb_true_iff, <- HL, <- HE. clear HL HE.
  destruct (slots C =? 0)%nat, (length (c0 C) =? 0)%nat, (length (c0 C) =? slots C)%nat, (first_error _ (imap pair (L C)));
    cbn; naive_solver.
Qed.

(** *** Whole strings *)

Section strings.
Context {A : Type} (tag ver : Z) (dflt : A) (body : Z → Rd A) (trailing : string) (serr : A → option string)
  (put : A → Writer) (ok : A → Prop) (Htag : word 8 tag) (Hver : version_ok ver) `{!Codec put (body ver) ok}.

Lemma checked_write w x : put_get w (body ver) x → serr x = None →
  ∃ bs, bytes bs ∧ (w_header_version tag ver ⨟ w) [] = Ok bs ∧
    checked tag dflt body trailing serr bs = (x, None) ∧ ∃ b2, bs = MAGIC ++ ver :: tag :: b2.
Proof.
  intros (b2 & E2 & G2) Hs. pose proof (header_codec tag Htag) as HC.
  destruct (codec_put (Codec := HC) ver Hver) as (b1 & E1 & G1).
  pose proof (enc_seq _ _ _ _ E1 E2) as [Hb He]. exists (b1 ++ b2). split; [done|]. split; [apply He|].
  unfold checked, reader_new. change (mkReader (b1 ++ b2) None) with (reading (b1 ++ b2)). rewrite G1. cbn [failed error reading].
  specialize (G2 []). rewrite app_nil_r in G2. change (mkReader b2 None) with (reading b2). rewrite G2.
  unfold finish. cbn [error remaining rest reading length]. rewrite Hs. split; [done|].
  exists b2. destruct E1 as [_ E1]. specialize (E1 []). cbn in E1. by injection E1 as <-.
Qed.

Lemma checked_put x : ok x → serr x = None → ∃ bs, bytes bs ∧ (w_header_version tag ver ⨟ put x) [] = Ok bs ∧
  checked tag dflt body trailing serr bs = (x, None) ∧ ∃ b2, bs = MAGIC ++ ver :: tag :: b2.
Proof. intros Hx. by apply checked_write, codec_put. Qed.

Lemma checked_structure data x : checked tag dflt body trailing serr data = (x, None) → serr x = None.
Proof.
  unfold checked. destruct (r_header _ _) as [v r]. destruct (if failed r then _ else _) as [x' r'].
  unfold finish. destruct (error r'); [done|]. destruct (negb _); [done|]. by intros [= -> ->].
Qed.

Lemma checked_get data x : bytes data → nth 4 data 0 = ver →
  checked tag dflt body trailing serr data = (x, None) → ok x ∧ (w_header_version tag ver ⨟ put x) [] = Ok data.
Proof.
  intros Hd Hv. unfold checked, reader_new. change (mkReader data None) with (reading data).
  pose proof (header_codec tag Htag) as HC. destruct (r_header tag (reading data)) as [v [s1 [e|]]] eqn:E1.
  { cbn [failed error]. unfold finish. cbn. by intros [=]. }
  destruct (codec_get (Codec := HC) (reading data) v s1 Hd E1) as (_ & b1 & [= ->] & He1).
  assert (E : b1 = MAGIC ++ [v; tag]) by (destruct He1 as [_ He]; specialize (He []); cbn in He; by injection He).
  rewrite E in Hv. cbn in Hv. subst v. cbn [failed error].
  destruct (body ver (mkReader s1 None)) as [x' [s2 e]] eqn:E2. unfold finish. cbn [error].
  destruct e as [e|]; [by intros [=]|]. unfold remaining. cbn [rest].
  destruct (Z.eqb_spec (Z.of_nat (length s2)) 0) as [Hl|]; cbn [negb]; [|by intros [=]].
  apply (f_equal Z.to_nat) in Hl. rewrite Nat2Z.id in Hl. apply length_zero_iff_nil in Hl as ->. intros [= -> _].
  destruct (codec_get (reading s1) x [] (proj2 (bytes_app _ _ Hd)) E2) as (Hx & b2 & [= ->] & He2).
  rewrite app_nil_r. split; [done|]. by apply (enc_seq _ _ _ _ He1 He2).
Qed.
End strings.

Lemma or_throw_Ok {A} (p : A * option string) x : or_throw p = Ok x ↔ p = (x, None).
Proof. destruct p as [y [e|]]; unfold or_throw; cbn; naive_solver. Qed.

(** ** Properties of ciphertexts *)

(** What the writer keeps of a layer: a base layer has no parents, a product no
    seed. *)
Definition stored_layer (l : Layer) : Layer :=
  match rule l with
  | BASE => mkLayer BASE (seed l) 0 0 (R_com l) (R_PC l) (PC l)
  | r => mkLayer r seed0 (pa l) (pb l) (R_com l) (R_PC l) (PC l)
  end.
Definition stored (C : Cipher) : Cipher := mkCipher (stored_layer <$> L C) (E C) (c0 C) (slots C).

(** The fields that are written are in range. *)
Definition layer_range (l : Layer) : Prop :=
  rule_ok (rule l) ∧
  match rule l with
  | BASE => word 64 (ztag (seed l)) ∧ word 64 (n_lo (nonce (seed l))) ∧ word 64 (n_hi (nonce (seed l)))
  | _ => word 32 (pa l) ∧ word 32 (pb l)
  end ∧
  (length (R_com l) = 32%nat ∧ bytes (R_com l)) ∧ vec_ok point_ok (R_PC l) ∧ vec_ok point_ok (PC l).
Definition cipher_range (strict cap : bool) (C : Cipher) : Prop :=
  slots_ok strict cap (slots C) ∧ vec_ok layer_range (L C) ∧ vec_ok fp_ok (c0 C) ∧ vec_ok edge_ok (E C).

Lemma stored_layer_ok l : layer_range l → layer_ok (stored_layer l).
Proof.
  intros (Hr & Hs & Hc & H1 & H2). unfold layer_ok, stored_layer. destruct (rule l) eqn:E; cbn; (split; [done|]); (split; [naive_solver|done]).
Qed.

Lemma stored_ok strict cap C : cipher_range strict cap C → cipher_ok strict cap (stored C).
Proof.
  intros (Hs & [Hm HL] & Hc & HE). split; [exact Hs|]. split; [|by split]. unfold stored. cbn [L]. split; [by rewrite length_fmap|].
  apply Forall_fmap. eapply Forall_impl; [exact HL|]. apply stored_layer_ok.
Qed.

(** The products and the parents that [write_layer] leaves out are the only difference. *)
Lemma stored_eq C : Forall (λ l, match rule l with BASE => pa l = 0 ∧ pb l = 0 | _ => seed l = seed0 end) (L C) → stored C = C.
Proof.
  intros H. destruct C as [ls es cs n]. unfold stored. cbn [L E c0 slots] in *. f_equal. induction H as [|l ls Hl _ IH]; [done|].
  cbn [fmap list_fmap]. f_equal; [|exact IH]. unfold stored_layer. destruct l as [r s a b rc rp pc]. cbn in *. destruct r; naive_solver.
Qed.

Lemma write_stored_layer l buf : write_layer (stored_layer l) buf = write_layer l buf.
Proof. unfold write_layer, stored_layer. by destruct (rule l) eqn:E; cbn [rule seed pa pb R_com R_PC PC]. Qed.

Lemma write_each_stored ls rest buf : (w_each write_layer (stored_layer <$> ls) ⨟ rest) buf = (w_each write_layer ls ⨟ rest) buf.
Proof.
  revert buf. induction ls as [|l ls IH]; intros buf; [done|]. cbn [fmap list_fmap w_each]. rewrite !w_seq_assoc.
  unfold w_seq at 1 3. rewrite write_stored_layer. destruct (write_layer l buf) as [b| |]; [|done..]. exact (IH b).
Qed.

Lemma first_error_ext {A B} (f g : A → option string) (h h' : nat → B → A) ls : (∀ i l, f (h i l) = g (h' i l)) →
  first_error f (imap h ls) = first_error g (imap h' ls).
Proof.
  revert h h'. induction ls as [|l ls IH]; intros h h' H; [done|]. cbn [imap first_error]. rewrite H. destruct (g (h' 0%nat l)); [done|].
  apply IH. intros i x. apply H.
Qed.

Lemma stored_error C : cipher_structure_error (stored C) = cipher_structure_error C.
Proof.
  unfold cipher_structure_error, stored. cbn [slots c0 L E]. rewrite length_fmap, imap_fmap.
  rewrite (first_error_ext _ (λ p, layer_error (slots C) p.1 p.2) _ pair); [done|].
  intros i l. unfold layer_error, stored_layer, compose. cbn. by destruct (rule l) eqn:E; cbn [rule pa pb PC R_PC].
Qed.

Lemma serialize_stored C : serialize_cipher (stored C) = serialize_cipher C.
Proof.
  unfold serialize_cipher, validate_cipher_structure. rewrite stored_error. destruct (cipher_structure_error C); [done|]. cbn [mbind res_bind].
  unfold w_seq at 1 2. destruct (w_header TAG_CIPHER []) as [b| |]; [|done..]. cbn [mbind res_bind]. unfold write_cipher_raw, stored. cbn [slots L c0 E].
  apply w_seq_cong; intros b1. unfold w_size. rewrite length_fmap. apply w_seq_cong; intros b2. apply write_each_stored.
Qed.

(** Decryption does not look at what is left out. *)
Lemma stored_layers C : L (stored C) = stored_layer <$> L C.
Proof. reflexivity. Qed.

Lemma stored_mask {F : Fuel} pk sk policy C n : ∀ lid w, layer_R_cached n pk sk (stored C) policy lid w = layer_R_cached n pk sk C policy lid w.
Proof.
  induction n as [|n IH]; intros lid w; cbn [layer_R_cached]; rewrite stored_layers, !length_fmap; [done|].
  do 4 (case_match; [done|]). rewrite list_lookup_fmap. destruct (L C !! Z.to_nat lid) as [l|]; [|done]. cbn [fmap option_fmap option_map].
  unfold stored_layer. destruct (rule l) eqn:R; cbn [rule pa pb].
  - unfold base_mask, Lpn.ru_src. cbn [rule seed R_PC]. by rewrite R.
  - rewrite IH. destruct (layer_R_cached n pk sk C policy (pa l) _) as [[Ra w1]| |]; [|done..]. cbn [mbind res_bind]. by rewrite IH.
  - rewrite IH. destruct (layer_R_cached n pk sk C policy (pa l) _) as [[Ra w1]| |]; [|done..]. cbn [mbind res_bind]. by rewrite IH.
Qed.

Lemma stored_native pk C : dec_has_native_src pk (stored C) = dec_has_native_src pk C.
Proof.
  unfold dec_has_native_src, stored. cbn [L]. induction (L C) as [|l ls IH]; [done|]. cbn [fmap list_fmap existsb]. rewrite IH. f_equal.
  unfold stored_layer. destruct (rule l) eqn:R; cbn [rule]; [|by rewrite !bool_decide_false..]. unfold Lpn.ru_src. cbn [rule seed]. by rewrite R.
Qed.

Lemma stored_dec {F : Fuel} pk sk policy C : dec_values pk sk (stored C) policy = dec_values pk sk C policy.
Proof.
  assert (EC : is_cipher_compatible_with_pubkey pk (stored C) = is_cipher_compatible_with_pubkey pk C).
  { assert (ES : is_valid_cipher_shape (stored C) = is_valid_cipher_shape C) by (apply eq_true_iff_eq; by rewrite <- !cipher_structure_shape, stored_error).
    unfold is_cipher_compatible_with_pubkey. by rewrite ES. }
  unfold dec_values. rewrite EC, stored_native. do 2 (case_match; [done|]). cbv zeta. rewrite stored_layers, !length_fmap.
  assert (EM : ∀ lids w, masks_inv pk sk (stored C) policy lids w = masks_inv pk sk C policy lids w).
  { induction lids as [|lid lids IH]; intros w; [done|]. cbn [masks_inv]. unfold mbind, M_bind. rewrite stored_layers, length_fmap, stored_mask.
    destruct (layer_R_cached _ _ _ _ _ _ _) as [[R w1]| |]; [|done..]. rewrite IH. by destruct (masks_inv pk sk C policy lids w1) as [[Ri w2]| |]. }
  by rewrite EM.
Qed.

(** C28. Ciphertexts round-trip, up to what the format leaves out: a ciphertext of
    valid shape whose written fields are in range serialises, and the
    deserialiser returns [stored C] for every setting of its two flags that admits
    the number of slots.  That is the ciphertext without the seeds of its products
    and the parents of its base layers, which decrypts to the same result under
    every key and policy, and which is the ciphertext itself when they are zero. *)
Theorem cipher_roundtrip strict cap C : cipher_range strict cap C → is_valid_cipher_shape C = true →
  ∃ bs, serialize_cipher C = Ok bs ∧ bytes bs ∧ deserialize_cipher bs strict cap = Ok (stored C) ∧
    (∀ (F : Fuel) pk sk policy, dec_values pk sk (stored C) policy = dec_values pk sk C policy) ∧
    (Forall (λ l, match rule l with BASE => pa l = 0 ∧ pb l = 0 | _ => seed l = seed0 end) (L C) → stored C = C).
Proof.
  intros HC HS. apply cipher_structure_shape in HS. rewrite <- stored_error in HS.
  destruct (checked_put TAG_CIPHER VERSION_V3 cipher0 (λ ver, read_cipher_fields ver strict cap)
    "pvac_ser: trailing cipher bytes" cipher_structure_error write_cipher_raw _ ltac:(by compute) ltac:(by compute)
    (stored C) (stored_ok _ _ _ HC) HS) as (bs & Hb & Hw & Hr & _).
  exists bs. split; [|split; [done|split; [by apply or_throw_Ok|split; [intros; apply stored_dec|apply stored_eq]]]].
  rewrite <- serialize_stored. unfold serialize_cipher, validate_cipher_structure. by rewrite HS.
Qed.

(** C29. The deserialiser is safe and the format is not malleable: whatever the
    bytes, an accepted ciphertext has a valid shape; and a version-3 string that
    is accepted is byte for byte what the serialiser writes for the result. *)
Theorem cipher_canonical strict cap data C : bytes data → deserialize_cipher data strict cap = Ok C →
  is_valid_cipher_shape C = true ∧ (nth 4 data 0 = VERSION → cipher_ok strict cap C ∧ serialize_cipher C = Ok data).
Proof.
  intros Hd Hr%or_throw_Ok. pose proof (checked_structure _ _ _ _ _ _ _ Hr) as HS. split.
  - by apply cipher_structure_shape.
  - intros Hv. destruct (checked_get TAG_CIPHER VERSION_V3 cipher0 (λ ver, read_cipher_fields ver strict cap)
      "pvac_ser: trailing cipher bytes" cipher_structure_error write_cipher_raw _ ltac:(by compute) data C Hd Hv Hr) as [HC Hw].
    split; [done|]. unfold serialize_cipher, validate_cipher_structure. by rewrite HS.
Qed.

(** A squaring and its operand, one slot. *)
Definition sample_cipher : Cipher :=
  mkCipher
    [mkLayer BASE (mkRSeed 7 (mkNonce 1 2)) 0 0 (replicate 32 9) [] [];
     mkLayer PROD seed0 0 0 (replicate 32 3) [] []]
    [mkEdge 0 5 SGN_P [mkFp 4 0] (mkBitVec 1 [1]); mkEdge 1 6 SGN_M [mkFp 2 1] (mkBitVec 1 [0])]
    [mkFp 3 0] 1.

Definition byte_range (l : list Z) : bool := forallb (λ b, (0 <=? b) && (b <? 2 ^ 8)) l.

Lemma byte_range_bytes l : byte_range l = true → bytes l.
Proof.
  unfold byte_range. rewrite forallb_forall. intros H. apply Forall_forall. intros b Hb%list_elem_of_In.
  specialize (H b Hb). unfold word. lia.
Qed.

Lemma sample_ok : cipher_ok true true sample_cipher.
Proof.
  unfold cipher_ok, slots_ok, vec_ok, sample_cipher. cbn [slots L c0 E length].
  split; [unfold word, MAX_CIPHER_SLOTS; split_and!; lia|].
  split; [split; [lia|]|split; [split; [lia|]|split; [lia|]]].
  - repeat apply Forall_cons_2; [..|apply Forall_nil_2]; unfold layer_ok, vec_ok; cbn;
      split_and!; try done; try (apply byte_range_bytes; reflexivity); unfold word; lia.
  - repeat constructor; unfold word; cbn; lia.
  - repeat apply Forall_cons_2; [..|apply Forall_nil_2]; unfold edge_ok, vec_ok, bitvec_ok; cbn;
      split_and!; try done; try (unfold word; lia); repeat constructor; unfold word; cbn; lia.
Qed.

(** The product of the sample with a seed, as [make_prod_layer] makes it. *)
Definition seeded_cipher : Cipher :=
  mkCipher
    [mkLayer BASE (mkRSeed 7 (mkNonce 1 2)) 0 0 (replicate 32 9) [] [];
     mkLayer PROD (mkRSeed 8 (mkNonce 3 4)) 0 0 (replicate 32 3) [] []]
    (E sample_cipher) (c0 sample_cipher) 1.

Lemma seeded_range : cipher_range true true seeded_cipher.
Proof.
  destruct sample_ok as (Hs & _ & Hc & HE). split; [exact Hs|]. split; [|by split]. split; [cbn; lia|].
  repeat apply Forall_cons_2; [..|apply Forall_nil_2]; unfold layer_range, vec_ok; cbn;
    split_and!; try done; try (apply byte_range_bytes; reflexivity); unfold word; lia.
Qed.

Lemma cipher_roundtrip_witness : ∃ bs, serialize_cipher seeded_cipher = Ok bs ∧ bytes bs ∧
  deserialize_cipher bs true true = Ok sample_cipher.
Proof.
  destruct (cipher_roundtrip true true seeded_cipher seeded_range eq_refl) as (bs & H1 & H2 & H3 & _). exists bs. split; [exact H1|]. split; [exact H2|exact H3].
Defined.

Definition sample_bytes : list Z :=
  match serialize_cipher sample_cipher with Ok bs => bs | _ => [] end.

Lemma cipher_canonical_witness :
  is_valid_cipher_shape sample_cipher = true ∧ serialize_cipher sample_cipher = Ok sample_bytes.
Proof.
  destruct (cipher_canonical true true sample_bytes sample_cipher) as [HS HC].
  - apply byte_range_bytes. vm_compute. reflexivity.
  - vm_compute. reflexivity.
  - split; [exact HS|]. apply HC. vm_compute. reflexivity.
Defined.

(** ** Public keys *)

Definition profile_ok (p : CircuitPrfProfile) : Prop :=
  match p with PROFILE_other b => word 8 b ∧ b ≠ 1 ∧ b ≠ 2 | _ => True end.

#[export] Instance profile_codec : Codec (λ p, w_u8 (profile_byte p)) (b ← r_u8; mret (byte_profile b)) profile_ok.
Proof.
  apply (iso_codec w_u8 r_u8 (word 8)).
  - intros [| |b] Hb; [by split|by split|]. destruct Hb as (Hb & H0 & H1). split; [done|]. unfold byte_profile.
    cbn [profile_byte]. by rewrite (proj2 (Z.eqb_neq b 1)), (proj2 (Z.eqb_neq b 2)).
  - intros b Hb. unfold byte_profile. destruct (Z.eqb_spec b 1) as [->|]; [by split|].
    destruct (Z.eqb_spec b 2) as [->|]; by split.
Qed.

#[export] Instance bitvecs_codec : Codec (w_vec w_bitvec) (r_vec 8 r_bitvec) (vec_ok bitvec_ok).
Proof. eapply vec_codec; [apply _..|done]. Qed.
#[export] Instance ints_codec : Codec (w_vec w_i32) (r_vec 4 r_i32) (vec_ok int32).
Proof. eapply vec_codec; [apply _..|done]. Qed.
#[export] Instance words_codec : Codec (w_vec w_u64) (r_vec 8 r_u64) (vec_ok (word 64)).
Proof. eapply vec_codec; [apply _..|done]. Qed.

Definition pubkey_ok (pk : PubKey) : Prop :=
  params_ok (prm pk) ∧ word 64 (canon_tag pk) ∧ vec_ok bitvec_ok (H pk) ∧
  vec_ok int32 (perm (ubk pk)) ∧ vec_ok int32 (inv (ubk pk)) ∧
  (length (H_digest pk) = 32%nat ∧ bytes (H_digest pk)) ∧ fp_ok (omega_B pk) ∧ vec_ok fp_ok (powg_B pk) ∧
  point_ok (circuit_prf_key_commit pk) ∧ profile_ok (circuit_prf_profile pk).

(** The readers on version 5. *)
Definition read_pubkey_v5 : Rd PubKey :=
  prm ← read_params;
  canon_tag ← r_u64;
  H ← r_vec 8 r_bitvec;
  perm ← r_vec 4 r_i32;
  inv ← r_vec 4 r_i32;
  H_digest ← r_raw 32;
  omega_B ← r_fp;
  powg_B ← r_vec 16 r_fp;
  commit ← r_rist_point;
  profile ← (b ← r_u8; mret (byte_profile b));
  mret (mkPubKey prm canon_tag H (mkUbk perm inv) H_digest omega_B powg_B commit profile).

Definition read_seckey_v5 : Rd SecKey :=
  prf_k ← r_each 4 r_u64;
  key ← r_fp;
  blind ← r_raw 32;
  key_v6 ← r_fp;
  blind_v6 ← r_raw 32;
  lpn_s_bits ← r_vec 8 r_u64;
  mret (mkSecKey prf_k key blind key_v6 blind_v6 lpn_s_bits).

#[export] Instance pubkey_codec : Codec write_pubkey_fields (read_pubkey_fields VERSION_V5) pubkey_ok.
Proof.
  assert (A : ∀ pk buf, write_pubkey_fields pk buf =
    (write_params (prm pk) ⨟ w_u64 (canon_tag pk) ⨟ w_vec w_bitvec (H pk) ⨟ w_vec w_i32 (perm (ubk pk)) ⨟
     w_vec w_i32 (inv (ubk pk)) ⨟ w_raw (H_digest pk) ⨟ w_fp (omega_B pk) ⨟ w_vec w_fp (powg_B pk) ⨟
     w_rist_point (circuit_prf_key_commit pk) ⨟ w_u8 (profile_byte (circuit_prf_profile pk))) buf).
  { intros pk buf. unfold write_pubkey_fields. do 2 (apply w_seq_cong; intros ?).
    unfold w_vec. rewrite !w_seq_assoc. do 2 (apply w_seq_cong; intros ?). rewrite !w_seq_assoc.
    do 2 (apply w_seq_cong; intros ?). rewrite !w_seq_assoc. do 4 (apply w_seq_cong; intros ?).
    by rewrite !w_seq_assoc. }
  change (read_pubkey_fields VERSION_V5) with read_pubkey_v5.
  split; [unfold read_pubkey_v5; apply _| |].
  - intros pk (? & ? & ? & ? & ? & ? & ? & ? & ? & ?). eapply put_get_conv; [intros; apply A|].
    unfold read_pubkey_v5. do 9 put_field. destruct pk as [a b c [d e] f g h i j].
    by apply (put_get_last (λ p, w_u8 (profile_byte p)) _ _ (mkPubKey a b c (mkUbk d e) f g h i)).
  - eapply get_put_conv; [intros; apply A|]. unfold read_pubkey_v5.
    get_field a Ha. get_field b Hb. get_field c Hc. get_field d Hd. get_field e He. get_field f Hf.
    get_field g Hg. get_field h Hh. get_field i Hi.
    eapply (get_put_last (λ p, w_u8 (profile_byte p)) _ _ (mkPubKey a b c (mkUbk d e) f g h i) circuit_prf_profile).
    intros p Hp. unfold pubkey_ok. cbn. destruct Hf. by split_and!.
Qed.

Lemma pubkey_structure_shape pk : pubkey_structure_error pk = None ↔ is_valid_pubkey_shape pk = true.
Proof.
  unfold pubkey_structure_error. cbv zeta. destruct (is_valid_pubkey_shape pk) eqn:E; cbn [negb].
  - split; [done|]. intros _. unfold is_valid_pubkey_shape in E. cbv zeta in E. rewrite !andb_true_iff in E.
    destruct E as ((((((((E1 & E2) & E3) & E4) & _) & _) & E5) & E6) & _).
    apply negb_true_iff in E1. rewrite E1, E2, E3, E4, E5. cbn [negb orb].
    rewrite (first_error_forallb _ (λ column, nbits column =? m_bits (prm pk))); [done|].
    intros x. destruct (nbits x =? _); cbn [negb]; split; intros E; congruence.
  - split; [|done]. destruct (_ || _); [done|]. destruct (negb _); [done|]. by destruct (negb _ || negb _).
Qed.

Lemma is_packed_pack raw : is_packed (pack raw) = true.
Proof.
  unfold is_packed. rewrite pack_layout. cbn [nth length]. rewrite Z.eqb_refl, andb_true_r. apply Z.leb_le. lia.
Qed.

(** The raw form, in both directions. *)
Lemma pubkey_raw_put pk : pubkey_ok pk → is_valid_pubkey_shape pk = true →
  ∃ bs, bytes bs ∧ serialize_pubkey_raw pk = Ok bs ∧ deserialize_pubkey_raw_checked bs = (pk, None) ∧
    is_packed bs = false.
Proof.
  intros Hk HS%pubkey_structure_shape.
  destruct (checked_put TAG_PUBKEY VERSION_V5 pubkey0 read_pubkey_fields "pvac_ser: trailing pubkey bytes"
    pubkey_structure_error write_pubkey_fields _ ltac:(by compute) ltac:(by compute) pk Hk HS) as (bs & Hb & Hw & Hr & b2 & E).
  exists bs. split_and!; [done..|]. rewrite E. unfold is_packed. cbn [MAGIC app nth]. apply andb_false_r.
Qed.

(** C30. Public keys round-trip: a key of valid shape whose fields are in range
    serialises, as raw bytes and compressed; the deserialiser tells the packed
    form from the raw one, and returns the key from the raw bytes, and from the
    packed ones when the raw form has at most 32 MiB, the limit of [unpack]. *)
Theorem pubkey_roundtrip pk : pubkey_ok pk → is_valid_pubkey_shape pk = true →
  ∃ raw packed, serialize_pubkey pk false = Ok raw ∧ serialize_pubkey pk true = Ok packed ∧
    bytes raw ∧ is_packed raw = false ∧ is_packed packed = true ∧ deserialize_pubkey raw = Ok pk ∧
    (Z.of_nat (length raw) ≤ 32 * 1024 * 1024 → deserialize_pubkey packed = Ok pk).
Proof.
  intros Hk HS. destruct (pubkey_raw_put pk Hk HS) as (raw & Hb & Hw & Hr & Hp).
  exists raw, (pack raw). unfold serialize_pubkey. rewrite Hw. split; [done|]. split; [done|]. split; [done|]. split; [done|].
  split; [apply is_packed_pack|]. split; [|intros Hlen]; apply or_throw_Ok; unfold deserialize_pubkey_checked.
  - rewrite Hp. exact Hr.
  - rewrite is_packed_pack, unpack_pack_ratio; [exact Hr|done|done|apply payload_ratio].
Qed.

(** C31. An accepted public key has a valid shape (so [perm] and [inv] are
    inverse permutations), and a raw version-5 string that is accepted is byte
    for byte what the serialiser writes. *)
Theorem pubkey_canonical data pk : bytes data → deserialize_pubkey data = Ok pk →
  is_valid_pubkey_shape pk = true ∧
  (is_packed data = false → nth 4 data 0 = VERSION_V5 → serialize_pubkey pk false = Ok data).
Proof.
  intros Hd Hr%or_throw_Ok. unfold deserialize_pubkey_checked in Hr. split.
  - apply pubkey_structure_shape. destruct (is_packed data).
    + destruct (unpack_checked data [] "") as [[ok raw] error]. destruct ok; [|done]. by apply checked_structure in Hr.
    + by apply checked_structure in Hr.
  - intros Hp Hv. rewrite Hp in Hr.
    destruct (checked_get TAG_PUBKEY VERSION_V5 pubkey0 read_pubkey_fields "pvac_ser: trailing pubkey bytes"
      pubkey_structure_error write_pubkey_fields _ ltac:(by compute) data pk Hd Hv Hr) as [_ Hw].
    unfold serialize_pubkey, serialize_pubkey_raw. by rewrite Hw.
Qed.

(** ** Secret keys *)

Definition seckey_ok (sk : SecKey) : Prop :=
  (length (prf_k sk) = 4%nat ∧ Forall (word 64) (prf_k sk)) ∧ fp_ok (circuit_prf_key sk) ∧
  (length (circuit_prf_key_blind sk) = 32%nat ∧ bytes (circuit_prf_key_blind sk)) ∧
  fp_ok (circuit_prf_key_v6 sk) ∧
  (length (circuit_prf_key_blind_v6 sk) = 32%nat ∧ bytes (circuit_prf_key_blind_v6 sk)) ∧
  vec_ok (word 64) (lpn_s_bits sk).

#[export] Instance seckey_codec : Codec write_seckey_fields (read_seckey_fields VERSION_V5) seckey_ok.
Proof.
  change (read_seckey_fields VERSION_V5) with read_seckey_v5. split; [unfold read_seckey_v5; apply _| |].
  - intros sk (? & ? & ? & ? & ? & ?). unfold write_seckey_fields, read_seckey_v5. do 5 put_field.
    destruct sk as [a b c d e f]. by apply (put_get_last (w_vec w_u64) (r_vec 8 r_u64) _ (mkSecKey a b c d e)).
  - unfold write_seckey_fields, read_seckey_v5. do 5 (eapply get_put_bind; [apply _|apply _|]; intros ? ?).
    eapply (get_put_last (w_vec w_u64) (r_vec 8 r_u64) _ _ lpn_s_bits). intros f Hf. unfold seckey_ok. cbn.
    cbn beta in *. repeat match goal with H : _ ∧ _ |- _ => destruct H end. by split_and!.
Qed.

(** Secret keys round-trip, and a version-5 string that is accepted is the
    one that the serialiser writes. *)
Theorem seckey_roundtrip sk data : bytes data →
  (seckey_ok sk → ∃ bs, serialize_seckey sk = Ok bs ∧ deserialize_seckey bs = Ok sk) ∧
  (deserialize_seckey data = Ok sk → nth 4 data 0 = VERSION_V5 → seckey_ok sk ∧ serialize_seckey sk = Ok data).
Proof.
  intros Hd. split.
  - intros Hk. destruct (checked_put TAG_SECKEY VERSION_V5 seckey0 read_seckey_fields "pvac_ser: trailing seckey bytes"
      (λ _, None) write_seckey_fields _ ltac:(by compute) ltac:(by compute) sk Hk eq_refl) as (bs & _ & Hw & Hr & _).
    exists bs. split; [done|]. by apply or_throw_Ok.
  - intros Hr%or_throw_Ok Hv. by apply (checked_get TAG_SECKEY VERSION_V5 seckey0 read_seckey_fields
      "pvac_ser: trailing seckey bytes" (λ _, None) write_seckey_fields _ ltac:(by compute)).
Qed.

Lemma point0_ok : point_ok point0.
Proof. split; [reflexivity|]. split; [apply byte_range_bytes; reflexivity|exact identity_decodes]. Qed.

Lemma one_ok : fp_ok (mkFp 1 0).
Proof. split; [split; unfold word; cbn; lia|]. reflexivity. Qed.

Definition sample_pubkey : PubKey :=
  mkPubKey (mkParams 1 2 1 1 1 1 0 0 0 7 1 1 1 1 0 0 1) 5 [mkBitVec 2 [1]] (mkUbk [1; 0] [1; 0])
    (replicate 32 4) (mkFp 1 0) [mkFp 1 0] point0 MIMC_X5_V7.

Lemma sample_pubkey_ok : pubkey_ok sample_pubkey.
Proof.
  unfold pubkey_ok, sample_pubkey.
  cbn [prm canon_tag H ubk perm inv H_digest omega_B powg_B circuit_prf_key_commit circuit_prf_profile].
  split; [|split; [|split; [|split; [|split; [|split; [|split; [|split; [|split; [exact point0_ok|exact I]]]]]]]]].
  - unfold params_ok, int32, word. cbn. pow_consts. lia.
  - unfold word. lia.
  - split; [cbn; lia|]. apply Forall_singleton. split; [unfold MAX_BITVEC_BITS; cbn; lia|]. split; [reflexivity|].
    apply Forall_singleton. unfold word. lia.
  - split; [cbn; lia|]. repeat apply Forall_cons_2; [..|apply Forall_nil_2]; unfold int32; lia.
  - split; [cbn; lia|]. repeat apply Forall_cons_2; [..|apply Forall_nil_2]; unfold int32; lia.
  - split; [reflexivity|]. apply byte_range_bytes. reflexivity.
  - exact one_ok.
  - split; [cbn; lia|]. apply Forall_singleton. exact one_ok.
Qed.

Definition sample_pubkey_bytes : list Z :=
  match serialize_pubkey sample_pubkey false with Ok bs => bs | _ => [] end.

Lemma sample_pubkey_written : serialize_pubkey sample_pubkey false = Ok sample_pubkey_bytes.
Proof. vm_compute. reflexivity. Qed.

Lemma sample_pubkey_raw raw : serialize_pubkey_raw sample_pubkey = Ok raw → raw = sample_pubkey_bytes.
Proof.
  intros E. pose proof sample_pubkey_written as H. unfold serialize_pubkey in H. rewrite E in H. by apply Ok_inj in H.
Qed.

Lemma pubkey_roundtrip_witness : ∃ packed, serialize_pubkey sample_pubkey true = Ok packed ∧
  deserialize_pubkey packed = Ok sample_pubkey ∧ deserialize_pubkey sample_pubkey_bytes = Ok sample_pubkey.
Proof.
  destruct (pubkey_roundtrip sample_pubkey sample_pubkey_ok eq_refl) as (raw & packed & E1 & E2 & _ & _ & _ & D1 & D2).
  assert (ER : raw = sample_pubkey_bytes).
  { unfold serialize_pubkey in E1. destruct (serialize_pubkey_raw sample_pubkey) as [raw'| |] eqn:E; [|discriminate E1..].
    apply sample_pubkey_raw in E. injection E1 as <-. exact E. }
  subst raw. exists packed. split; [exact E2|]. split; [apply D2; vm_compute; discriminate|exact D1].
Defined.

Lemma sample_pubkey_read : deserialize_pubkey sample_pubkey_bytes = Ok sample_pubkey.
Proof.
  destruct (pubkey_raw_put sample_pubkey sample_pubkey_ok eq_refl) as (bs & Hb & Hw & Hr & Hp).
  apply sample_pubkey_raw in Hw as ->. apply or_throw_Ok. unfold deserialize_pubkey_checked. rewrite Hp. exact Hr.
Qed.

Lemma pubkey_canonical_witness : is_valid_pubkey_shape sample_pubkey = true ∧
  serialize_pubkey sample_pubkey false = Ok sample_pubkey_bytes.
Proof.
  destruct (pubkey_canonical sample_pubkey_bytes sample_pubkey) as [HS HC].
  - apply byte_range_bytes. vm_compute. reflexivity.
  - exact sample_pubkey_read.
  - split; [exact HS|]. apply HC; vm_compute; reflexivity.
Defined.

Definition sample_seckey : SecKey :=
  mkSecKey [1; 2; 3; 4] (mkFp 5 6) (replicate 32 7) (mkFp 8 9) (replicate 32 10) [11; 12].

Definition sample_seckey_bytes : list Z :=
  match serialize_seckey sample_seckey with Ok bs => bs | _ => [] end.

Lemma seckey_roundtrip_witness :
  (∃ bs, serialize_seckey sample_seckey = Ok bs ∧ deserialize_seckey bs = Ok sample_seckey) ∧
  serialize_seckey sample_seckey = Ok sample_seckey_bytes.
Proof.
  destruct (seckey_roundtrip sample_seckey sample_seckey_bytes) as [HP HG].
  - apply byte_range_bytes. vm_compute. reflexivity.
  - split.
    + apply HP. unfold seckey_ok, vec_ok, sample_seckey. cbn. split_and!;
        try done; try (apply byte_range_bytes; reflexivity); repeat constructor; unfold word; cbn; lia.
    + apply HG; vm_compute; reflexivity.
Defined.
