(* ===== verification/SerializeProofs.v ===== *)
(** * The zero-knowledge proofs' formats round-trip

    The R1CS proof is a [Codec]; the range proofs, whose readers take any
    nonzero byte for a flag, are read back as they were written, through
    [deserialize_range_proof_any], which tells the three kinds apart. *)

From S2P Require Import InnerProduct R1cs.
From S2P Require Import Prelude Field Compress CompressBound Hash Rng CtSafe Types Fe25519 Scalar25519 Ristretto.
From S2P Require Import Stream Serialize SerializeCorrect.

#[local] Open Scope stream_scope.

(** ** The R1CS proof *)

#[export] Instance ipp_points_codec : Codec
  (λ LR : list (list Z) * list (list Z), w_size LR.1 ⨟ w_each w_rist_point LR.1 ⨟ w_each w_rist_point LR.2)
  read_ipp_points (λ LR, vec_ok point_ok LR.1 ∧ length LR.2 = length LR.1 ∧ Forall point_ok LR.2).
Proof.
  split; [unfold read_ipp_points; apply _| |].
  - intros [l r] ([Hm Hl] & Hn & Hr). cbn [fst snd] in *. unfold w_size, read_ipp_points.
    assert (Hw : word 64 (Z.of_nat (length l))) by (split; [lia|by apply (Z.le_lt_trans _ (2 ^ 24))]).
    put_field. apply put_get_count; [done|lia|done| |].
    { apply (grows_seq _ _ (Z.of_nat (length l) * 32) 0); [by eapply each_sized; [apply _|]| |lia].
      apply grows_each. intros. apply grows_any_raw. }
    apply put_get_failed. rewrite Nat2Z.id. eapply (put_get_bind (w_each w_rist_point)); [apply _|by split|].
    by apply (put_get_last (w_each w_rist_point) (r_each (length l) r_rist_point) _ (pair l)).
  - unfold w_size, read_ipp_points. eapply (get_put_bind w_u64 _ _ _ _ (λ LR, Z.of_nat (length LR.1))); [apply _|].
    intros n Hn. apply get_put_count; [apply _|]. intros Hm. apply get_put_failed.
    eapply (get_put_bind (w_each w_rist_point) _ _ _ _ fst); [apply _|]. intros l [Hl Hf].
    eapply (get_put_last (w_each w_rist_point) _ _ (pair l) snd). intros r [Hr Hf']. unfold word in Hn. cbn.
    unfold vec_ok. split_and!; try done; lia.
Qed.

Definition r1cs_ok (p : R1CSProof) : Prop :=
  point_ok (A_I1 p) ∧ point_ok (A_O1 p) ∧ point_ok (r1_S1 p) ∧ point_ok (T_1 p) ∧ point_ok (T_3 p) ∧
  point_ok (T_4 p) ∧ point_ok (T_5 p) ∧ point_ok (T_6 p) ∧
  sc_canon (t_x p) ∧ sc_canon (t_x_blinding p) ∧ sc_canon (e_blinding p) ∧
  (vec_ok point_ok (ipp_L (ipp p)) ∧ length (ipp_R (ipp p)) = length (ipp_L (ipp p)) ∧
   Forall point_ok (ipp_R (ipp p))) ∧
  sc_canon (ipp_a (ipp p)) ∧ sc_canon (ipp_b (ipp p)) ∧ vec_ok point_ok (r1_V p).

#[export] Instance r1cs_codec : Codec write_r1cs_proof_raw read_r1cs_proof_raw r1cs_ok.
Proof.
  assert (A : ∀ p buf, write_r1cs_proof_raw p buf =
    (w_rist_point (A_I1 p) ⨟ w_rist_point (A_O1 p) ⨟ w_rist_point (r1_S1 p) ⨟
     w_rist_point (T_1 p) ⨟ w_rist_point (T_3 p) ⨟ w_rist_point (T_4 p) ⨟ w_rist_point (T_5 p) ⨟ w_rist_point (T_6 p) ⨟
     w_scalar (t_x p) ⨟ w_scalar (t_x_blinding p) ⨟ w_scalar (e_blinding p) ⨟
     (w_size (ipp_L (ipp p)) ⨟ w_each w_rist_point (ipp_L (ipp p)) ⨟ w_each w_rist_point (ipp_R (ipp p))) ⨟
     w_scalar (ipp_a (ipp p)) ⨟ w_scalar (ipp_b (ipp p)) ⨟ w_vec w_rist_point (r1_V p)) buf).
  { intros p buf. unfold write_r1cs_proof_raw, w_vec. do 11 (apply w_seq_cong; intros ?).
    rewrite !w_seq_assoc. apply w_seq_cong; intros ?. by rewrite !w_seq_assoc. }
  split; [unfold read_r1cs_proof_raw; apply _| |].
  - intros p (? & ? & ? & ? & ? & ? & ? & ? & ? & ? & ? & ? & ? & ? & ?). eapply put_get_conv; [intros; apply A|].
    unfold read_r1cs_proof_raw. do 11 put_field. destruct p as [a1 a2 a3 a4 a5 a6 a7 a8 s1 s2 s3 [l r s4 s5] v].
    eapply (put_get_bind (λ LR, w_size LR.1 ⨟ w_each w_rist_point LR.1 ⨟ w_each w_rist_point LR.2) _ _ (l, r)); [assumption|].
    do 2 put_field. cbn [fst snd].
    by apply (put_get_last (w_vec w_rist_point) (r_vec 32 r_rist_point) _
      (mkR1CS a1 a2 a3 a4 a5 a6 a7 a8 s1 s2 s3 (mkIpp l r s4 s5))).
  - eapply get_put_conv; [intros; apply A|]. unfold read_r1cs_proof_raw.
    do 11 (eapply get_put_bind; [apply _|apply _|]; intros ? ?).
    eapply (get_put_bind (λ LR, w_size LR.1 ⨟ w_each w_rist_point LR.1 ⨟ w_each w_rist_point LR.2) _ _ _ _
      (λ p, (ipp_L (ipp p), ipp_R (ipp p)))); [apply _|]. intros [l r] Hlr. cbn [fst snd].
    do 2 (eapply get_put_bind; [apply _|apply _|]; intros ? ?).
    eapply (get_put_last (w_vec w_rist_point) (r_vec 32 r_rist_point) _ _ r1_V). intros v Hv.
    unfold r1cs_ok. cbn in *. by split_and!; try apply Hlr.
Qed.

(** ** Readers that are not canonical: the writing direction alone *)

Lemma put_get_step {A B} (wa : Writer) (g : Rd A) (a : A) w (k : A → Rd B) b :
  put_get wa g a → put_get w (k a) b → put_get (wa ⨟ w) (x ← g; k x) b.
Proof.
  intros (b1 & E1 & G1) (b2 & E2 & G2). exists (b1 ++ b2). split; [by apply enc_seq|]. intros s.
  rewrite <- app_assoc, (Rd_step _ _ _ _ _ (G1 _)). apply G2.
Qed.

Lemma put_get_end {A B} (w : Writer) (g : Rd A) (a : A) (h : A → B) :
  put_get w g a → put_get w (x ← g; mret (h x)) (h a).
Proof. intros (b1 & E1 & G1). exists b1. split; [done|]. intros s. by rewrite (Rd_step _ _ _ _ _ (G1 _)). Qed.

(** A reader that looks at the error first. *)
Lemma put_get_guard {A} w (x : A) (g : Rd A) a :
  put_get w g a → put_get w (f ← r_failed; if f : bool then mret x else g) a.
Proof. apply put_get_failed. Qed.

Lemma live_put {A} (put : A → Writer) (d : A) (g : Rd A) l :
  Forall (λ a, put_get (put a) g a) l → put_get (w_each put l) (r_each_live d g (length l)) l.
Proof.
  induction 1 as [|x l Hx _ IH]; [apply put_get_ret|]. cbn [w_each r_each_live length].
  apply put_get_failed. eapply put_get_step; [exact Hx|]. by apply (put_get_end _ _ l (cons x)).
Qed.

Definition zero_ok (zp : ZeroProof) : Prop := r1cs_ok (zp_proof zp).

Lemma zero_put zp : zero_ok zp → put_get (write_zero_proof_raw zp) read_zero_proof_raw zp.
Proof.
  intros Hz. unfold write_zero_proof_raw, read_zero_proof_raw. eapply put_get_bind; [apply _|exact Hz|].
  destruct zp as [p b]. cbn [zp_proof is_bound].
  replace (mkZero p b) with ((λ c, mkZero p (negb (c =? 0))) (if b then 1 else 0)) by (by destruct b).
  apply (put_get_last w_u8 r_u8 _ (λ c, mkZero p (negb (c =? 0)))). by destruct b.
Qed.

(** A ciphertext inside a proof. *)
Definition inner_ok (C : Cipher) : Prop := cipher_ok true true C ∧ is_valid_cipher_shape C = true.

Lemma inner_put C : inner_ok C → put_get (write_cipher_raw C) (read_cipher_raw VERSION_V3 true true) C.
Proof.
  intros [HC HS%cipher_structure_shape]. destruct (codec_put (Codec := cipher_fields_codec true true) C HC) as (bs & He & Hg).
  exists bs. split; [done|]. intros s. unfold read_cipher_raw. rewrite (Rd_step _ _ _ _ _ (Hg s)).
  rewrite (Rd_step _ _ _ _ _ (eq_refl : r_failed (reading s) = (false, _))). by rewrite HS.
Qed.

Lemma inner_grows C : grows (write_cipher_raw C) 8.
Proof.
  unfold write_cipher_raw, w_size. apply (grows_seq _ _ 8 0); [apply grows_u64| |done].
  repeat (eapply (grows_seq _ _ 0 0); [| |done]);
    try (by eapply grows_le; [apply grows_u64|]); apply grows_each; intros x.
  - by apply (grows_le _ 8); [apply layer_grows|].
  - apply fp_grows.
  - by apply (grows_le _ 8); [apply edge_grows|].
Qed.

(** ** Range proofs *)

Definition range_ok (rp : RangeProof) : Prop :=
  length (ct_bit rp) = 64%nat ∧ Forall inner_ok (ct_bit rp) ∧
  length (bit_proofs rp) = 64%nat ∧ Forall zero_ok (bit_proofs rp) ∧ zero_ok (lc_proof rp).

Definition agg_ok (arp : AggregatedRangeProof) : Prop :=
  length (agg_ct_bit arp) = 64%nat ∧ Forall inner_ok (agg_ct_bit arp) ∧ r1cs_ok (agg_proof arp).

Definition any_ok (p : RangeProofAny) : Prop :=
  match p with RP_OLD p => range_ok p | RP_AGGREGATED p => agg_ok p | RP_BOUND p => zero_ok p end.

(** The writer of each kind, and its tag. *)
Definition serialize_any (p : RangeProofAny) : res (list Z) :=
  match p with
  | RP_OLD p => serialize_range_proof p
  | RP_AGGREGATED p => serialize_agg_range_proof p
  | RP_BOUND p => serialize_bound_range_proof p
  end.

Definition any_tag (p : RangeProofAny) : Z :=
  match p with RP_OLD _ => TAG_RANGE_PROOF | RP_AGGREGATED _ => TAG_AGG_RANGE_PROOF | RP_BOUND _ => TAG_BOUND_RANGE_PROOF end.

Lemma bits_put {B} n w (k : nat → Rd B) b : n = 64%nat → grows w 512 → put_get w (k n) b →
  put_get (w_u64 (Z.of_nat n) ⨟ w) (nbits ← read_range_bits; k nbits) b.
Proof.
  intros -> Hw (bs & [Hb He] & Hg). destruct (codec_put (Codec := u64_codec) 64 ltac:(by compute)) as (b1 & E1 & G1).
  exists (b1 ++ bs). split; [by apply enc_seq|]. intros s. rewrite <- app_assoc.
  pose proof (grows_enc _ _ _ Hw (conj Hb He)) as Hl.
  assert (E : read_range_bits (reading (b1 ++ bs ++ s)) = (64%nat, reading (bs ++ s))).
  { unfold read_range_bits. rewrite (Rd_step _ _ _ _ _ (G1 _)).
    rewrite (Rd_step _ _ _ _ _ (eq_refl : r_check (negb (64 =? RANGE_BITS)) _ (reading (bs ++ s)) = (tt, _))).
    by rewrite (Rd_step _ _ _ _ _ (check_count_pass 8 64 (bs ++ s) ltac:(done) ltac:(done)
      ltac:(rewrite length_app; lia) ltac:(done))). }
  rewrite (Rd_step _ _ _ _ _ E). apply Hg.
Qed.

Lemma inner_elems l w : length l = 64%nat → grows w 0 → grows (w_each write_cipher_raw l ⨟ w) 512.
Proof.
  intros Hl Hw. apply (grows_seq _ _ 512 0); [|done|done].
  eapply grows_le; [apply (grows_elems _ _ 8); apply Forall_forall; intros; apply inner_grows|]. by rewrite Hl.
Qed.

Lemma put_enc_grows {B} w (g : Rd B) b : put_get w g b → grows w 0.
Proof. intros (bs & [_ He] & _) buf out. rewrite He. intros [= <-]. rewrite length_app. lia. Qed.

Lemma range_put rp : range_ok rp → put_get
  (w_size (ct_bit rp) ⨟ w_each write_cipher_raw (ct_bit rp) ⨟ w_each write_zero_proof_raw (bit_proofs rp) ⨟
   write_zero_proof_raw (lc_proof rp)) (read_range_fields VERSION_V3) rp.
Proof.
  destruct rp as [ct ps lc]. intros (Hn & Hc & Hm & Hp & Hz). cbn [ct_bit bit_proofs lc_proof] in *.
  pose proof (live_put _ cipher0 _ _ (Forall_impl _ _ _ Hc inner_put)) as Lc.
  pose proof (live_put _ zero_proof0 _ _ (Forall_impl _ _ _ Hp zero_put)) as Lp. rewrite Hm in Lp.
  pose proof (zero_put _ Hz) as Lz. unfold read_range_fields, w_size. apply (bits_put _ _ _ _ Hn).
  - apply inner_elems; [done|]. eapply (grows_seq _ _ 0 0); [by eapply put_enc_grows..|done].
  - eapply put_get_step; [apply put_get_guard, Lc|]. rewrite Hn.
    eapply put_get_step; [apply put_get_guard, Lp|].
    by apply (put_get_end _ _ lc (mkRange ct ps)), put_get_guard.
Qed.

Lemma agg_put arp : agg_ok arp → put_get
  (w_size (agg_ct_bit arp) ⨟ w_each write_cipher_raw (agg_ct_bit arp) ⨟ write_r1cs_proof_raw (agg_proof arp))
  (read_agg_fields VERSION_V3) arp.
Proof.
  destruct arp as [ct p]. intros (Hn & Hc & Hp). cbn [agg_ct_bit agg_proof] in *.
  pose proof (live_put _ cipher0 _ _ (Forall_impl _ _ _ Hc inner_put)) as Lc.
  pose proof (codec_put (Codec := r1cs_codec) p Hp) as Lp. unfold read_agg_fields, w_size. apply (bits_put _ _ _ _ Hn).
  - apply inner_elems; [done|by eapply put_enc_grows].
  - eapply put_get_step; [apply put_get_guard, Lc|].
    by apply (put_get_end _ _ p (mkAgg ct)), put_get_guard.
Qed.

(** The dispatch looks at the byte after the version. *)
Lemma any_dispatch p : any_ok p → ∃ bs, bytes bs ∧ serialize_any p = Ok bs ∧ deserialize_range_proof_any bs = Ok p.
Proof.
  assert (D : ∀ ver tag b2, ¬ Z.of_nat (length (MAGIC ++ ver :: tag :: b2)) < 6)
    by (intros; rewrite length_app; cbn [length MAGIC]; lia).
  destruct p as [p|p|p]; cbn [any_ok serialize_any]; intros Hp.
  - destruct (checked_write TAG_RANGE_PROOF VERSION_V3 (mkRange [] [] zero_proof0) read_range_fields
      "pvac_ser: trailing range proof bytes" (λ _, None) ltac:(by compute) ltac:(by compute) _ p (range_put p Hp) eq_refl)
      as (bs & Hb & Hw & Hr & b2 & ->). eexists. split_and!; [done|exact Hw|].
    unfold deserialize_range_proof_any. rewrite (proj2 (Z.ltb_ge _ _)) by (apply Z.nlt_ge, D). cbn [nth app MAGIC].
    cbv zeta. unfold deserialize_range_proof, deserialize_range_proof_checked. rewrite (proj2 (or_throw_Ok _ p)); done.
  - destruct (checked_write TAG_AGG_RANGE_PROOF VERSION_V3 (mkAgg [] r1cs0) read_agg_fields
      "pvac_ser: trailing aggregated range proof bytes" (λ _, None) ltac:(by compute) ltac:(by compute) _ p (agg_put p Hp) eq_refl)
      as (bs & Hb & Hw & Hr & b2 & ->). eexists. split_and!; [done|exact Hw|].
    unfold deserialize_range_proof_any. rewrite (proj2 (Z.ltb_ge _ _)) by (apply Z.nlt_ge, D). cbn [nth app MAGIC].
    change (_ =? TAG_RANGE_PROOF) with false. cbv zeta iota. unfold deserialize_agg_range_proof, deserialize_with.
    rewrite (proj2 (or_throw_Ok _ p)); done.
  - destruct (checked_write TAG_BOUND_RANGE_PROOF VERSION_V3 zero_proof0 (λ _, read_zero_proof_raw)
      "pvac_ser: trailing bound range proof bytes" (λ _, None) ltac:(by compute) ltac:(by compute) _ p (zero_put p Hp) eq_refl)
      as (bs & Hb & Hw & Hr & b2 & ->). eexists. split_and!; [done|exact Hw|].
    unfold deserialize_range_proof_any. rewrite (proj2 (Z.ltb_ge _ _)) by (apply Z.nlt_ge, D). cbn [nth app MAGIC].
    change (_ =? TAG_RANGE_PROOF) with false. change (_ =? TAG_AGG_RANGE_PROOF) with false. cbv zeta iota.
    unfold deserialize_bound_range_proof, deserialize_with. rewrite (proj2 (or_throw_Ok _ p)); done.
Qed.

(** C32. Range proofs of the three kinds round-trip through the dispatching
    reader: what the kind's writer produces for a proof in range is read back as
    that proof and as that kind. *)
Theorem range_proof_roundtrip p : any_ok p →
  ∃ bs, bytes bs ∧ serialize_any p = Ok bs ∧ deserialize_range_proof_any bs = Ok p.
Proof. apply any_dispatch. Qed.

(** ** What an accepted range proof is *)

(** The values that a reader returns without an error satisfy [Q]. *)
Definition yields {A} (g : Rd A) (Q : A → Prop) : Prop := ∀ r a r', g r = (a, r') → failed r' = false → Q a.

Lemma yields_bind {A B} (g : Rd A) (k : A → Rd B) P Q : (∀ a, Sticky (k a)) →
  yields g P → (∀ a, P a → yields (k a) Q) → yields (x ← g; k x) Q.
Proof.
  intros Sk Hg Hk r b r' E Hr. unfold mbind, Rd_bind in E. destruct (g r) as [a r1] eqn:E1.
  apply (Hk a) with r1 r'; [|done..]. apply (Hg r a r1 E1). destruct (failed r1) eqn:F; [|done].
  specialize (Sk a r1 F). rewrite E in Sk. cbn in Sk. congruence.
Qed.

Lemma yields_any {A} (g : Rd A) : yields g (λ _, True).
Proof. done. Qed.

Lemma yields_ret {A} (a : A) (Q : A → Prop) : Q a → yields (mret a) Q.
Proof. intros Ha r b r' [= -> ->]. done. Qed.

Lemma yields_check c msg : yields (r_check c msg) (λ _, c = false).
Proof.
  intros r [] r' E Hr. destruct c; [|done]. unfold r_check, r_fail in E. injection E as <-.
  destruct r as [s [e|]]; done.
Qed.

Lemma yields_guard {A} (x : A) (g : Rd A) Q : yields g Q →
  yields (f ← r_failed; if f : bool then mret x else g) Q.
Proof.
  intros Hg r a r' E Hr. unfold mbind, Rd_bind, r_failed in E. destruct (failed r) eqn:F; [|by eapply Hg].
  injection E as <- <-. congruence.
Qed.

#[export] Instance sticky_live {A} n (d : A) g : Sticky g → Sticky (r_each_live d g n).
Proof. intros Sg. induction n; cbn [r_each_live]; apply _. Qed.

Lemma yields_live {A} n (d : A) g Q : Sticky g → yields g Q → yields (r_each_live d g n) (λ l, length l = n ∧ Forall Q l).
Proof.
  intros Sg Hg. induction n as [|n IH]; cbn [r_each_live]; [by apply yields_ret|]. apply yields_guard.
  apply (yields_bind _ _ Q); [apply _|done|]. intros x Hx. apply (yields_bind _ _ _ _ _ IH). intros l [Hl HF].
  apply yields_ret. cbn. split; [by rewrite Hl|by constructor].
Qed.

(** The readers of any version are sticky. *)
#[export] Instance sticky_source r : Sticky (read_layer_source r) := codec_sticky.

#[export] Instance sticky_layer ver n : Sticky (read_layer ver n).
Proof. unfold read_layer. cbv zeta. apply _. Qed.

#[export] Instance sticky_slots ver strict cap : Sticky (read_cipher_slots ver strict cap).
Proof. unfold read_cipher_slots. apply _. Qed.

#[export] Instance sticky_cipher_fields ver strict cap : Sticky (read_cipher_fields ver strict cap).
Proof. unfold read_cipher_fields. apply _. Qed.

#[export] Instance sticky_raw_cipher ver strict cap : Sticky (read_cipher_raw ver strict cap).
Proof.
  assert (S : ∀ C, Sticky (match cipher_structure_error C with Some e => r_fail e;; mret C | None => mret C end)).
  { intros C. destruct (cipher_structure_error C); apply _. }
  unfold read_cipher_raw. apply _.
Qed.

#[export] Instance sticky_zero : Sticky read_zero_proof_raw.
Proof. unfold read_zero_proof_raw. apply _. Qed.

Lemma yields_raw_cipher ver strict cap :
  yields (read_cipher_raw ver strict cap) (λ C, is_valid_cipher_shape C = true).
Proof.
  intros r C r' E Hr. unfold read_cipher_raw, mbind, Rd_bind, r_failed in E.
  destruct (read_cipher_fields ver strict cap r) as [C1 r1]. destruct (failed r1) eqn:F; [injection E as <- <-; congruence|].
  destruct (cipher_structure_error C1) eqn:S; [|injection E as <- <-; by apply cipher_structure_shape].
  unfold r_fail in E. injection E as <- <-. by destruct r1 as [? [?|]].
Qed.

Lemma yields_bits : yields read_range_bits (λ n, n = 64%nat).
Proof.
  unfold read_range_bits. apply (yields_bind _ _ (λ _, True)); [apply _|apply yields_any|]. intros n _.
  eapply yields_bind; [apply _|apply yields_check|]. intros [] Hn.
  apply (yields_bind _ _ (λ _, True)); [apply _|apply yields_any|]. intros [] _. apply yields_ret.
  apply negb_false_iff, Z.eqb_eq in Hn. by rewrite Hn.
Qed.

Definition ciphers_valid (l : list Cipher) : Prop :=
  length l = 64%nat ∧ Forall (λ C, is_valid_cipher_shape C = true) l.

Lemma yields_range ver : yields (read_range_fields ver)
  (λ rp, ciphers_valid (ct_bit rp) ∧ length (bit_proofs rp) = 64%nat).
Proof.
  unfold read_range_fields. eapply yields_bind; [apply _|apply yields_bits|]. intros n ->.
  eapply yields_bind; [apply _|apply yields_guard, yields_live, yields_raw_cipher; apply _|]. intros ct Hct.
  eapply yields_bind; [apply _|apply yields_guard, yields_live, yields_any; apply _|]. intros ps [Hps _].
  apply (yields_bind _ _ (λ _, True)); [apply _|apply yields_any|]. intros lc _. by apply yields_ret.
Qed.

Lemma yields_agg ver : yields (read_agg_fields ver) (λ rp, ciphers_valid (agg_ct_bit rp)).
Proof.
  unfold read_agg_fields. eapply yields_bind; [apply _|apply yields_bits|]. intros n ->.
  eapply yields_bind; [apply _|apply yields_guard, yields_live, yields_raw_cipher; apply _|]. intros ct Hct.
  apply (yields_bind _ _ (λ _, True)); [apply _|apply yields_any|]. intros lc _. by apply yields_ret.
Qed.

Lemma checked_yields {A} tag (dflt : A) body trailing serr Q data x : (∀ ver, yields (body ver) Q) →
  or_throw (checked tag dflt body trailing serr data) = Ok x → Q x.
Proof.
  intros Hb H%or_throw_Ok. unfold checked in H. destruct (r_header _ _) as [ver r] eqn:E1.
  destruct (failed r) eqn:F.
  - unfold finish in H. unfold failed in F. by destruct (error r).
  - destruct (body ver r) as [y r'] eqn:E2. unfold finish in H. destruct (error r') eqn:F'; [done|].
    destruct (negb _); [done|]. injection H as -> _. apply (Hb ver r x r' E2). unfold failed. by rewrite F'.
Qed.

(** Whatever the bytes, an accepted range proof is of the kind that its tag
    byte says, and carries what the verifiers index: exactly 64 ciphertexts of
    valid shape, and in the per-bit form 64 bit proofs. *)
Theorem range_proof_accepted data p : deserialize_range_proof_any data = Ok p →
  nth 5 data 0 = any_tag p ∧
  match p with
  | RP_OLD rp => ciphers_valid (ct_bit rp) ∧ length (bit_proofs rp) = 64%nat
  | RP_AGGREGATED arp => ciphers_valid (agg_ct_bit arp)
  | RP_BOUND _ => True
  end.
Proof.
  unfold deserialize_range_proof_any. destruct (_ <? 6); [discriminate|]. cbv zeta.
  destruct (Z.eqb_spec (nth 5 data 0) TAG_RANGE_PROOF) as [->|_].
  { destruct (deserialize_range_proof data) as [q| |] eqn:E; [|discriminate..]. intros <-%Ok_inj.
    split; [done|]. exact (checked_yields _ _ _ _ _ _ _ _ yields_range E). }
  destruct (Z.eqb_spec (nth 5 data 0) TAG_AGG_RANGE_PROOF) as [->|_].
  { destruct (deserialize_agg_range_proof data) as [q| |] eqn:E; [|discriminate..]. intros <-%Ok_inj.
    split; [done|]. exact (checked_yields _ _ _ _ _ _ _ _ yields_agg E). }
  destruct (Z.eqb_spec (nth 5 data 0) TAG_BOUND_RANGE_PROOF) as [->|_]; [|discriminate].
  destruct (deserialize_bound_range_proof data) as [q| |]; [|discriminate..]. by intros <-%Ok_inj.
Qed.

(** Sixty-four squarings, with empty proofs. *)
Definition sample_range : RangeProof := mkRange (replicate 64 sample_cipher) (replicate 64 zero_proof0) zero_proof0.

Lemma zero_proof0_ok : zero_ok zero_proof0.
Proof.
  assert (S : sc_canon sc_zero) by (split; [exact sc_zero_ok|reflexivity]).
  pose proof point0_ok as P. assert (V : vec_ok point_ok []) by (split; [done|constructor]).
  unfold zero_ok, r1cs_ok, zero_proof0, r1cs0. cbn [zp_proof A_I1 A_O1 r1_S1 T_1 T_3 T_4 T_5 T_6 t_x t_x_blinding
    e_blinding ipp ipp_L ipp_R ipp_a ipp_b r1_V]. split_and!; try assumption; [reflexivity|constructor].
Qed.

Lemma sample_range_ok : range_ok sample_range.
Proof.
  unfold range_ok, sample_range. cbn [ct_bit bit_proofs lc_proof].
  split; [reflexivity|]. split; [apply Forall_replicate; split; [exact sample_ok|reflexivity]|].
  split; [reflexivity|]. split; [apply Forall_replicate|]; exact zero_proof0_ok.
Qed.

Lemma range_proof_roundtrip_witness : ∃ bs, bytes bs ∧ serialize_range_proof sample_range = Ok bs ∧
  deserialize_range_proof_any bs = Ok (RP_OLD sample_range).
Proof. exact (range_proof_roundtrip (RP_OLD sample_range) sample_range_ok). Defined.

Lemma range_proof_accepted_witness : ∃ data, deserialize_range_proof_any data = Ok (RP_OLD sample_range) ∧
  nth 5 data 0 = TAG_RANGE_PROOF.
Proof.
  destruct (any_dispatch (RP_OLD sample_range) sample_range_ok) as (bs & _ & _ & H).
  exists bs. split; [exact H|]. exact (proj1 (range_proof_accepted bs (RP_OLD sample_range) H)).
Defined.
