(* ===== verification/Reduce.v ===== *)
(** * Keeping ciphertexts small

    [namespace reduction], [compact_edges], [compact_layers] and [guard_budget] of
    [ops/encrypt.hpp]: edges at the same position are summed, the edges are
    shuffled, layers that no edge needs are dropped.  None of it changes what a
    ciphertext decrypts to. *)

From Stdlib Require Import Sorted.
From S2P Require Import Prelude Primes Field Hash Rng CtSafe Types Matrix Lpn Decrypt.

(** ** [reduction::merge] *)

(** [std::make_tuple(layer_id, idx, ch == SGN_M)], compared with [<] and [==]. *)
Definition position (e : Edge) : Z * Z * bool := (layer_id e, idx e, ch e =? SGN_M).

Definition pos_lt (p q : Z * Z * bool) : bool :=
  let '(a, b, c) := p in
  let '(a', b', c') := q in
  (a <? a') || ((a =? a') && ((b <? b') || ((b =? b') && (negb c && c')))).

(** [std::stable_sort]: an edge goes before the later ones that are not less. *)
Fixpoint sort_insert (e : Edge) (l : list Edge) : list Edge :=
  match l with
  | [] => [e]
  | x :: l' => if pos_lt (position x) (position e) then x :: sort_insert e l' else e :: l
  end.

Definition stable_sort (l : list Edge) : list Edge := foldr sort_insert [] l.

Definition merge_nz (w : list Fp) (s : BitVec) : bool :=
  existsb (λ x, negb (ct.fp_is_nonzero x =? 0)) w || negb (popcnt s =? 0).

(** [sum.w[j] = fp_add(sum.w[j], e.w[j])], then [sum.s.xor_with(e.s)]. *)
Definition absorb (S : nat) (sum e : Edge) : Edge :=
  mkEdge (layer_id sum) (idx sum) (ch sum)
    (tabulate S (λ j, fp_add (nth j (ew sum) fp0) (nth j (ew e) fp0))) (xor_with (es sum) (es e)).

Definition emit_nz (sum : Edge) (out : list Edge) : list Edge :=
  if merge_nz (ew sum) (es sum) then sum :: out else out.

(** The loop over the sorted edges: [sum] is [edges[first]]. *)
Fixpoint merge_runs (S : nat) (sum : Edge) (l : list Edge) : list Edge :=
  match l with
  | [] => emit_nz sum []
  | e :: l =>
      if bool_decide (position sum = position e) then merge_runs S (absorb S sum e) l
      else emit_nz sum (merge_runs S e l)
  end.

(** The checks on the edges, and [maxL]. *)
Fixpoint merge_check (pk : PubKey) (S : nat) (maxL : Z) (l : list Edge) : res Z :=
  match l with
  | [] => Ok maxL
  | e :: l =>
      if p_B (prm pk) <=? idx e then Throw "pvac: merge edge index rejected"
      else if negb (ch e =? SGN_P) && negb (ch e =? SGN_M) then Throw "pvac: merge edge sign rejected"
      else if negb (length (ew e) =? S)%nat then Throw "pvac: merge edge width rejected"
      else if negb (nbits (es e) =? m_bits (prm pk)) then Throw "pvac: merge edge sigma rejected"
      else merge_check pk S (Z.max maxL (layer_id e)) l
  end.

Definition merge (edges : list Edge) (pk : PubKey) : res (list Edge) :=
  match edges with
  | [] => Ok []
  | e0 :: _ =>
      let B := p_B (prm pk) in
      let S := length (ew e0) in
      if B <=? 0 then Throw "pvac: merge basis rejected"
      else if (S =? 0)%nat then Throw "pvac: merge slot shape rejected"
      else
        maxL ← merge_check pk S 0 edges;
        if UINT64_MAX / B <? maxL + 1 then Throw "pvac: merge edge domain rejected"
        else
          match stable_sort edges with
          | [] => Ok []
          | e :: l => Ok (merge_runs S e l)
          end
  end.

(** ** [reduction::permute]: [for (i = e.len(); i > 1; --i)] *)

Fixpoint permute_loop {G} `{Rng G} (i : nat) (e : list Edge) : M G (list Edge) :=
  match i with
  | O => mret e
  | 1%nat => mret e
  | S k => r ← rng_bounded (Z.of_nat i); permute_loop k (swap k (Z.to_nat r) e)
  end.

Definition permute {G} `{Rng G} (e : list Edge) : M G (list Edge) := permute_loop (length e) e.

(** ** Budget *)

Definition compact_edges (pk : PubKey) (C : Cipher) : res Cipher :=
  E' ← merge (E C) pk; Ok (mkCipher (L C) E' (c0 C) (slots C)).

Definition guard_budget (pk : PubKey) (C : Cipher) : res Cipher :=
  if edge_budget (prm pk) <? Z.of_nat (length (E C)) then compact_edges pk C else Ok C.

(** ** [compact_layers] *)

Definition live_edges (nl : nat) (es : list Edge) : list bool :=
  foldl (λ live e, if layer_id e <? Z.of_nat nl then <[Z.to_nat (layer_id e) := true]> live else live)
    (replicate nl false) es.

(** [mark(p)], on the table and [chg]. *)
Definition mark (nl : nat) (p : Z) (s : list bool * bool) : list bool * bool :=
  let '(live, chg) := s in
  if (p <? Z.of_nat nl) && negb (nth (Z.to_nat p) live false) then (<[Z.to_nat p := true]> live, true) else (live, chg).

Definition sweep_step (nl : nat) (s : list bool * bool) (il : nat * Layer) : list bool * bool :=
  let '(i, l) := il in
  match rule l with
  | PROD => if nth i s.1 false then mark nl (pb l) (mark nl (pa l) s) else s
  | _ => s
  end.

Definition sweep (ls : list Layer) (live : list bool) : list bool * bool :=
  foldl (sweep_step (length ls)) (live, false) (imap pair ls).

(** [for (chg = true; chg; )]; each turn that changes marks a layer. *)
Fixpoint live_loop (n : nat) (ls : list Layer) (live : list bool) : res (list bool) :=
  match n with
  | O => OutOfFuel
  | S n => let '(live, chg) := sweep ls live in if chg : bool then live_loop n ls live else Ok live
  end.

(** [remap], and the layers kept. *)
Fixpoint remap_loop (live : list bool) (ls : list Layer) (k : nat) : list Z * list Layer :=
  match live, ls with
  | b :: live, l :: ls =>
      let '(remap, nL) := remap_loop live ls (if b : bool then S k else k) in
      if b : bool then (u32 (Z.of_nat k) :: remap, l :: nL) else (UINT32_MAX :: remap, nL)
  | _, _ => ([], [])
  end.

Definition remap_layer (remap : list Z) (l : Layer) : Layer :=
  match rule l with
  | PROD => mkLayer (rule l) (seed l) (nth (Z.to_nat (pa l)) remap 0) (nth (Z.to_nat (pb l)) remap 0)
              (R_com l) (R_PC l) (PC l)
  | _ => l
  end.

Definition remap_edge (remap : list Z) (e : Edge) : Edge :=
  mkEdge (nth (Z.to_nat (layer_id e)) remap 0) (idx e) (ch e) (ew e) (es e).

Definition compact_layers (C : Cipher) : res Cipher :=
  if negb (is_valid_cipher_shape C) then Throw "pvac: compact layers shape rejected"
  else
    let nl := length (L C) in
    if (nl =? 0)%nat then Ok C
    else
      live ← live_loop (S nl) (L C) (live_edges nl (E C));
      let '(remap, nL) := remap_loop live (L C) 0 in
      if (length nL =? nl)%nat then Ok C
      else Ok (mkCipher (remap_layer remap <$> nL) (remap_edge remap <$> E C) (c0 C) (slots C)).

#[local] Opaque fp_inv fp_mul fp_add fp_sub.

(** ** Sums over edges *)

Lemma esum_perm pk ri es es' j : es ≡ₚ es' → esum pk ri es j = esum pk ri es' j.
Proof. induction 1; cbn [esum foldr] in *; unfold esum in *; lia. Qed.

Lemma esum_app pk ri es es' j : esum pk ri (es ++ es') j = esum pk ri es j + esum pk ri es' j.
Proof. induction es as [|e es IH]; [done|]. cbn [esum foldr app] in *. unfold esum in *. lia. Qed.

Lemma esum_map pk ri ri' f es j :
  Forall (λ e, gterm pk j (f e) = gterm pk j e ∧ ri' (Z.to_nat (layer_id (f e))) = ri (Z.to_nat (layer_id e))) es →
  esum pk ri' (f <$> es) j = esum pk ri es j.
Proof.
  induction 1 as [|e es [H1 H2] _ IH]; [done|]. cbn [esum foldr fmap list_fmap] in *. unfold esum in *.
  by rewrite H1, H2, IH.
Qed.

Lemma esum_ext pk ri ri' es j : Forall (λ e, ri' (Z.to_nat (layer_id e)) = ri (Z.to_nat (layer_id e))) es →
  esum pk ri' es j = esum pk ri es j.
Proof. intros H. rewrite <- (list_fmap_id es) at 1. apply esum_map. eapply Forall_impl; [exact H|]. done. Qed.

(** What the shape and compatibility checks say of an edge. *)
Definition edge_fits (pk : PubKey) (nl S : nat) (e : Edge) : Prop :=
  layer_id e < Z.of_nat nl ∧ (ch e = SGN_P ∨ ch e = SGN_M) ∧ length (ew e) = S ∧
  idx e < Z.of_nat (length (powg_B pk)) ∧ nbits (es e) = m_bits (prm pk).

Lemma edge_shape_fits nl S e : edge_shape_ok nl S e = true ↔
  layer_id e < Z.of_nat nl ∧ (ch e = SGN_P ∨ ch e = SGN_M) ∧ length (ew e) = S.
Proof.
  unfold edge_shape_ok. rewrite !andb_true_iff, negb_true_iff, orb_true_iff, Z.leb_gt, !Z.eqb_eq, Nat.eqb_eq. tauto.
Qed.

Lemma forallb_Forall {A} (f : A → bool) (Q : A → Prop) l : (∀ x, f x = true ↔ Q x) → forallb f l = true ↔ Forall Q l.
Proof. intros H. rewrite forallb_forall, Forall_forall. setoid_rewrite H. by setoid_rewrite list_elem_of_In. Qed.

(** The checks, as one predicate on the parts of a ciphertext. *)
Lemma compatible_spec pk C : is_cipher_compatible_with_pubkey pk C = true ↔
  is_valid_pubkey_shape pk = true ∧ slots C ≠ 0%nat ∧ (length (c0 C) = 0%nat ∨ length (c0 C) = slots C) ∧
  forallb (λ p, layer_shape_ok (slots C) p.1 p.2) (imap pair (L C)) = true ∧
  Forall (edge_fits pk (length (L C)) (slots C)) (E C).
Proof.
  unfold is_cipher_compatible_with_pubkey, is_valid_cipher_shape.
  rewrite !andb_true_iff, negb_true_iff, orb_true_iff, !Nat.eqb_eq, Nat.eqb_neq.
  rewrite (forallb_Forall _ _ _ (edge_shape_fits _ _)).
  rewrite (forallb_Forall _ (λ e, idx e < Z.of_nat (length (powg_B pk)) ∧ nbits (es e) = m_bits (prm pk)))
    by (intros e; rewrite andb_true_iff, negb_true_iff, Z.leb_gt, Z.eqb_eq; tauto).
  assert (A : ∀ l, Forall (edge_fits pk (length (L C)) (slots C)) l ↔
    Forall (λ e, layer_id e < Z.of_nat (length (L C)) ∧ (ch e = SGN_P ∨ ch e = SGN_M) ∧ length (ew e) = slots C) l ∧
    Forall (λ e, idx e < Z.of_nat (length (powg_B pk)) ∧ nbits (es e) = m_bits (prm pk)) l).
  { intros l. rewrite <- Forall_and. apply Forall_iff. intros e. unfold edge_fits. tauto. }
  rewrite A. tauto.
Qed.

(** ** [merge] *)

Lemma sort_insert_perm e l : sort_insert e l ≡ₚ e :: l.
Proof.
  induction l as [|x l IH]; [done|]. cbn [sort_insert]. destruct (pos_lt _ _); [|done].
  rewrite IH. apply perm_swap.
Qed.

Lemma stable_sort_perm l : stable_sort l ≡ₚ l.
Proof. induction l as [|e l IH]; [done|]. cbn [stable_sort foldr]. by rewrite sort_insert_perm, IH. Qed.

Lemma pos_lt_trans p q r : pos_lt p q = true → pos_lt q r = true → pos_lt p r = true.
Proof.
  destruct p as [[a b] c], q as [[a' b'] c'], r as [[a'' b''] c'']. unfold pos_lt.
  destruct c, c', c''; cbn [negb andb]; rewrite ?andb_true_r, ?andb_false_r, ?orb_false_r; lia.
Qed.

Lemma pos_lt_total p q : pos_lt p q = false → pos_lt q p = false → p = q.
Proof.
  destruct p as [[a b] c], q as [[a' b'] c']. unfold pos_lt.
  destruct c, c'; cbn [negb andb]; rewrite ?andb_true_r, ?andb_false_r, ?orb_false_r; intros; repeat f_equal; lia.
Qed.

Lemma pos_lt_irrefl p : pos_lt p p = false.
Proof. destruct p as [[a b] c]. unfold pos_lt. rewrite !Z.ltb_irrefl, !Z.eqb_refl. by destruct c. Qed.

(** Not after: the order of the sorted list. *)
Definition pos_le (e e' : Edge) : Prop := pos_lt (position e') (position e) = false.

Lemma pos_le_trans e1 e2 e3 : pos_le e1 e2 → pos_le e2 e3 → pos_le e1 e3.
Proof.
  unfold pos_le. intros H1 H2. destruct (pos_lt (position e3) (position e1)) eqn:H3; [|done].
  destruct (pos_lt (position e1) (position e2)) eqn:H4.
  - by rewrite (pos_lt_trans _ _ _ H3 H4) in H2.
  - rewrite (pos_lt_total _ _ H4 H1) in H3. congruence.
Qed.

Lemma sort_insert_sorted e l : StronglySorted pos_le l → StronglySorted pos_le (sort_insert e l).
Proof.
  induction 1 as [|x l Hl IH Hx]; cbn [sort_insert]; [by repeat constructor|].
  destruct (pos_lt (position x) (position e)) eqn:Hxe.
  - constructor; [done|]. rewrite sort_insert_perm. constructor; [|done].
    unfold pos_le. destruct (pos_lt (position e) (position x)) eqn:H; [|done].
    pose proof (pos_lt_trans _ _ _ Hxe H) as H'. by rewrite pos_lt_irrefl in H'.
  - constructor; [by constructor|]. constructor; [done|]. eapply Forall_impl; [exact Hx|].
    intros y Hy. by apply (pos_le_trans _ x).
Qed.

Lemma stable_sort_sorted l : StronglySorted pos_le (stable_sort l).
Proof. induction l; [constructor|]. by apply sort_insert_sorted. Qed.

Section Merge.
Context (pk : PubKey) (nl S : nat) (Hg : Forall fp_ok (powg_B pk)).

(** A checked edge. *)
Definition edge_good (e : Edge) : Prop := edge_wf e ∧ edge_fits pk nl S e.

Lemma absorb_good a e : edge_good a → edge_good e → edge_good (absorb S a e).
Proof.
  intros [(W1 & W2 & W3 & W4) (F1 & F2 & F3 & F4 & F5)] [(_ & _ & _ & V4) _].
  split; [split_and!; try done|split_and!; try done; apply length_tabulate].
  apply tabulate_ok. intros j _. eapply rep_ok, rep_add; by apply nth_rep.
Qed.

Lemma position_eq a e : edge_good a → edge_good e → position a = position e →
  layer_id a = layer_id e ∧ idx a = idx e ∧ ch a = ch e.
Proof.
  intros [_ (_ & Ha & _)] [_ (_ & He & _)] [= H1 H2 H3]. split_and!; [done..|].
  destruct Ha as [Ha|Ha], He as [He|He]; rewrite Ha, He in *; done.
Qed.

Lemma absorb_gterm a e j : edge_good a → edge_good e → position a = position e → (j < S)%nat →
  cong P (gterm pk j (absorb S a e)) (gterm pk j a + gterm pk j e).
Proof.
  intros Ga Ge Hp Hj. destruct (position_eq _ _ Ga Ge Hp) as (_ & Hi & Hc).
  destruct Ga as [(_ & _ & _ & W) _], Ge as [(_ & _ & _ & V) _].
  unfold gterm, absorb. cbn [ew idx ch]. unfold fval at 1. rewrite nth_tabulate by done.
  pose proof (rep_add _ _ _ _ (nth_rep (ew a) j W) (nth_rep (ew e) j V)) as [_ ->].
  rewrite Hi, Hc. apply cong_eq. ring.
Qed.

Lemma merge_nz_false w s j : Forall fp_ok w → merge_nz w s = false → fval w j = 0.
Proof.
  unfold merge_nz. rewrite orb_false_iff. intros Hw [Hz _]. unfold fval. rewrite nth_lookup.
  destruct (w !! j) as [x|] eqn:Hx; [|done]. cbn [default].
  pose proof (Forall_lookup_1 _ _ _ _ Hw Hx) as Ok_x.
  destruct (Z.eq_dec (val x) 0) as [|Hn]; [done|]. exfalso.
  assert (existsb (λ x, negb (ct.fp_is_nonzero x =? 0)) w = true) as E; [|congruence].
  apply existsb_exists. exists x. split; [by apply list_elem_of_In, list_elem_of_lookup_2 with j|].
  rewrite ct_lemmas.fp_is_nonzero_spec by apply Ok_x. rewrite (proj2 (Z.eqb_neq _ _) Hn). done.
Qed.

Lemma esum_cons ri e l j : esum pk ri (e :: l) j = gterm pk j e * ri (Z.to_nat (layer_id e)) + esum pk ri l j.
Proof. done. Qed.

Lemma emit_esum ri a out j : edge_good a → cong P (esum pk ri (emit_nz a out) j) (esum pk ri (a :: out) j).
Proof.
  intros [(_ & _ & _ & W) _]. unfold emit_nz. destruct (merge_nz _ _) eqn:E; [done|].
  apply cong_eq. rewrite esum_cons. unfold gterm. rewrite (merge_nz_false _ _ j W E). ring.
Qed.

Lemma merge_runs_esum ri a l j : edge_good a → Forall edge_good l → (j < S)%nat →
  cong P (esum pk ri (merge_runs S a l) j) (esum pk ri (a :: l) j).
Proof.
  intros Ga Hl Hj. revert a Ga. induction Hl as [|e l He _ IH]; intros a Ga; cbn [merge_runs].
  - by apply emit_esum.
  - destruct (bool_decide_reflect (position a = position e)) as [Hp|_].
    + rewrite IH by by apply absorb_good. rewrite !esum_cons.
      destruct (position_eq _ _ Ga He Hp) as (El & _). change (layer_id (absorb S a e)) with (layer_id a).
      rewrite (absorb_gterm a e j) by done. rewrite El. apply cong_eq. ring.
    + rewrite emit_esum, !esum_cons by done. rewrite IH by done. by rewrite esum_cons.
Qed.

Lemma emit_good a out : edge_good a → Forall edge_good out → Forall edge_good (emit_nz a out).
Proof. unfold emit_nz. destruct (merge_nz _ _); [by constructor|done]. Qed.

Lemma merge_runs_good a l : edge_good a → Forall edge_good l → Forall edge_good (merge_runs S a l).
Proof.
  intros Ga Hl. revert a Ga. induction Hl as [|e l He _ IH]; intros a Ga; cbn [merge_runs].
  - by apply emit_good.
  - destruct (bool_decide _); [by apply IH, absorb_good|by apply emit_good; [|apply IH]].
Qed.

(** The output: strictly ascending positions, nothing that is zero. *)
Definition merged (l : list Edge) : Prop :=
  StronglySorted (λ a b, pos_lt (position a) (position b) = true) l ∧ Forall (λ e, merge_nz (ew e) (es e) = true) l.

Lemma merge_runs_positions a l x : x ∈ merge_runs S a l → position x = position a ∨ ∃ e, e ∈ l ∧ position x = position e.
Proof.
  assert (D : ∀ a out, x ∈ emit_nz a out → x = a ∨ x ∈ out).
  { intros b out. unfold emit_nz. destruct (merge_nz _ _); [rewrite elem_of_cons|]; auto. }
  revert a. induction l as [|e l IH]; intros a; cbn [merge_runs].
  - intros [->|[]%not_elem_of_nil]%D. by left.
  - destruct (bool_decide _).
    + intros [H|(y & Hy & H)]%IH; [by left|right; exists y; split; [by right|done]].
    + intros [->|H]%D; [by left|]. apply IH in H as [H|(y & Hy & H)]; right;
        [exists e; split; [by left|done]|exists y; split; [by right|done]].
Qed.

Lemma merge_runs_length a l : (length (merge_runs S a l) ≤ Datatypes.S (length l))%nat.
Proof.
  revert a. induction l as [|e l IH]; intros a; cbn [merge_runs].
  - unfold emit_nz. destruct (merge_nz _ _); cbn; lia.
  - destruct (bool_decide _); [specialize (IH (absorb S a e)); cbn; lia|].
    unfold emit_nz. specialize (IH e). destruct (merge_nz _ _); cbn [length] in *; lia.
Qed.

Lemma merge_runs_merged a l : StronglySorted pos_le (a :: l) → merged (merge_runs S a l).
Proof.
  revert a. induction l as [|e l IH]; intros a Hs; cbn [merge_runs].
  - unfold emit_nz. destruct (merge_nz _ _) eqn:E; split; repeat constructor. done.
  - apply StronglySorted_inv in Hs as [Hs Ha]. pose proof Hs as He. apply StronglySorted_inv in He as [Hl He].
    destruct (bool_decide_reflect (position a = position e)) as [Hp|Hp].
    + apply IH. constructor; [done|]. eapply Forall_impl; [exact He|]. intros y Hy.
      unfold pos_le in *. change (position (absorb S a e)) with (position a). by rewrite Hp.
    + destruct (IH e Hs) as [M1 M2]. unfold emit_nz. destruct (merge_nz _ _) eqn:E; [|done].
      split; [|by constructor]. constructor; [done|]. apply Forall_forall. intros x Hx.
      assert (Lt : pos_lt (position a) (position e) = true).
      { destruct (pos_lt (position a) (position e)) eqn:H; [done|]. destruct Hp. apply pos_lt_total; [done|].
        by apply Forall_cons in Ha as [? _]. }
      destruct (merge_runs_positions e l x Hx) as [->|(y & Hy & ->)]; [done|].
      rewrite Forall_forall in He. specialize (He y Hy). unfold pos_le in He.
      destruct (pos_lt (position e) (position y)) eqn:H; [by eapply pos_lt_trans|].
      by rewrite <- (pos_lt_total _ _ H He).
Qed.

Lemma merge_check_Ok maxL l : Z.of_nat (length (powg_B pk)) = p_B (prm pk) → Forall edge_good l → maxL < 2 ^ 32 →
  ∃ m, merge_check pk S maxL l = Ok m ∧ m < 2 ^ 32.
Proof.
  intros HB Hl. revert maxL. induction Hl as [|e l [(W & _) (F1 & F2 & F3 & F4 & F5)] _ IH]; intros maxL Hm; cbn [merge_check].
  - by exists maxL.
  - rewrite (proj2 (Z.leb_gt _ _)) by lia. rewrite F3, F5, Nat.eqb_refl, Z.eqb_refl. cbn [negb].
    assert (negb (ch e =? SGN_P) && negb (ch e =? SGN_M) = false) as ->
      by (destruct F2 as [-> | ->]; done).
    apply IH. unfold word in W. lia.
Qed.

(** [int B] in range. *)
Lemma merge_Ok edges : Z.of_nat (length (powg_B pk)) = p_B (prm pk) → 0 < p_B (prm pk) < 2 ^ 31 → S ≠ 0%nat →
  Forall edge_good edges →
  ∃ out, merge edges pk = Ok out ∧ Forall edge_good out ∧ merged out ∧ (length out ≤ length edges)%nat ∧
    ∀ ri j, (j < S)%nat → cong P (esum pk ri out j) (esum pk ri edges j).
Proof.
  intros HB HBr HS He. unfold merge. destruct edges as [|e0 l].
  { exists []. split_and!; try done; repeat constructor. }
  assert (L0 : length (ew e0) = S) by (apply Forall_cons in He as [[_ (_ & _ & ? & _)] _]; done).
  set (edges := e0 :: l) in *.
  rewrite L0. cbv zeta. rewrite (proj2 (Z.leb_gt _ _)) by lia. rewrite (proj2 (Nat.eqb_neq _ _) HS).
  destruct (merge_check_Ok 0 edges HB He ltac:(done)) as (m & -> & Hm). cbn [mbind res_bind].
  assert (D : 2 ^ 32 ≤ UINT64_MAX / p_B (prm pk)).
  { apply Z.div_le_lower_bound; [lia|]. unfold UINT64_MAX. pow_consts. lia. }
  rewrite (proj2 (Z.ltb_ge _ _)) by lia.
  pose proof (stable_sort_perm edges) as Hp. pose proof (stable_sort_sorted edges) as Hs.
  assert (Hgood : Forall edge_good (stable_sort edges)) by (by rewrite Hp).
  destruct (stable_sort edges) as [|e l'] eqn:Es.
  { by apply Permutation_nil_cons in Hp. }
  apply Forall_cons in Hgood as [G1 G2]. eexists. split; [done|].
  split; [by apply merge_runs_good|]. split; [by apply merge_runs_merged|].
  split; [rewrite <- Hp; apply merge_runs_length|].
  intros ri j Hj. rewrite merge_runs_esum by done. apply cong_eq. by apply esum_perm.
Qed.
End Merge.

(** ** [permute] *)

Lemma permute_perm {G} `{Rng G} i e g e' g' : permute_loop i e g = Ok (e', g') → e' ≡ₚ e.
Proof.
  revert e g. induction i as [|[|i] IH]; intros e g.
  - by intros [= <- _].
  - by intros [= <- _].
  - intros (r & g1 & _ & E)%M_bind_Ok. apply IH in E. by rewrite E, swap_Permutation.
Qed.

(** ** Liveness *)

(** The layers that decryption needs: those of the edges, and their parents. *)
Inductive Needed (ls : list Layer) (es : list Edge) : nat → Prop :=
| Needed_edge e : e ∈ es → layer_id e < Z.of_nat (length ls) → Needed ls es (Z.to_nat (layer_id e))
| Needed_parent i l p : Needed ls es i → ls !! i = Some l → rule l = PROD → p = pa l ∨ p = pb l →
    p < Z.of_nat (length ls) → Needed ls es (Z.to_nat p).

Definition is_live (live : list bool) (i : nat) : Prop := live !! i = Some true.

Definition dead (live : list bool) : nat := length (filter (λ b, b = false) live).

Lemma dead_mark live p : live !! p = Some false → (dead (<[p := true]> live) < dead live)%nat.
Proof.
  unfold dead. revert p. induction live as [|b live IH]; intros [|p] Hp; [done..| |].
  - injection Hp as ->. change (<[0%nat := true]> (false :: live)) with (true :: live).
    rewrite !filter_cons, (decide_False (P := true = false)), (decide_True (P := false = false)) by done.
    cbn [length]. lia.
  - specialize (IH p Hp). change (<[Datatypes.S p := true]> (b :: live)) with (b :: <[p := true]> live).
    rewrite !filter_cons. destruct (decide (b = false)); cbn [length]; lia.
Qed.

Lemma dead_le live : (dead live ≤ length live)%nat.
Proof. apply length_filter. Qed.

Lemma live_insert live p i : (p < length live)%nat → is_live (<[p := true]> live) i ↔ i = p ∨ is_live live i.
Proof.
  intros Hp. unfold is_live. destruct (decide (p = i)) as [->|Hne].
  - rewrite list_lookup_insert_eq by done. tauto.
  - rewrite list_lookup_insert_ne by done. split; [auto|]. by intros [->|].
Qed.

Lemma nth_live live i : nth i live false = true ↔ is_live live i.
Proof. unfold is_live. rewrite nth_lookup. destruct (live !! i) as [[]|]; cbn; split; congruence. Qed.

Section Live.
Context (ls : list Layer) (es : list Edge) (Hw : parents_words ls) (Hes : Forall (λ e, 0 ≤ layer_id e) es).

(** One [mark], from a state to the next. *)
Definition marks (s s' : list bool * bool) : Prop :=
  length s'.1 = length s.1 ∧ (∀ i, is_live s.1 i → is_live s'.1 i) ∧
  (s'.2 = false → s' = s) ∧ (s'.2 = true → s.2 = true ∨ (dead s'.1 < dead s.1)%nat) ∧ (dead s'.1 ≤ dead s.1)%nat.

#[local] Instance marks_preorder : PreOrder marks.
Proof.
  split.
  - intros s. split_and!; auto.
  - intros s s' s'' (A1 & A2 & A3 & A4 & A5) (B1 & B2 & B3 & B4 & B5). split_and!; [congruence|auto| | |lia].
    + intros E. specialize (B3 E). subst s''. auto.
    + intros E. destruct (B4 E) as [E'|]; [|right; lia]. destruct (A4 E'); [by left|right; lia].
Qed.

Lemma mark_spec p s : 0 ≤ p → length s.1 = length ls → marks s (mark (length ls) p s) ∧
  ((mark (length ls) p s).2 = false → p < Z.of_nat (length ls) → is_live s.1 (Z.to_nat p)) ∧
  (∀ i, is_live (mark (length ls) p s).1 i → is_live s.1 i ∨ (i = Z.to_nat p ∧ p < Z.of_nat (length ls))).
Proof.
  destruct s as [live chg]. cbn [fst]. intros Hp0 Hl. unfold mark.
  destruct (Z.ltb_spec p (Z.of_nat (length ls))) as [Hp|Hp]; cbn [andb].
  2: { split; [done|]. split; [lia|auto]. }
  destruct (nth (Z.to_nat p) live false) eqn:E; cbn [negb].
  { split; [done|]. split; [intros _ _; by apply nth_live|auto]. }
  assert (Hlt : (Z.to_nat p < length live)%nat) by lia.
  destruct (lookup_lt_is_Some_2 live (Z.to_nat p) Hlt) as [b Hb]. rewrite nth_lookup, Hb in E. cbn in E. subst b.
  pose proof (dead_mark _ _ Hb). split; [split_and!; cbn [fst snd]; [by rewrite length_insert| |done|by right|lia]|].
  { intros i Hi. apply live_insert; auto. }
  split; [done|]. cbn [fst]. intros i [->|Hi]%live_insert; auto.
Qed.

Lemma sweep_step_spec s i l : ls !! i = Some l → length s.1 = length ls → marks s (sweep_step (length ls) s (i, l)) ∧
  ((sweep_step (length ls) s (i, l)).2 = false → rule l = PROD → is_live s.1 i →
    (pa l < Z.of_nat (length ls) → is_live s.1 (Z.to_nat (pa l))) ∧
    (pb l < Z.of_nat (length ls) → is_live s.1 (Z.to_nat (pb l)))) ∧
  ((∀ k, is_live s.1 k → Needed ls es k) →
    ∀ k, is_live (sweep_step (length ls) s (i, l)).1 k → Needed ls es k).
Proof.
  intros Hls Hl. destruct (Forall_lookup_1 _ _ _ _ Hw Hls) as [[Pa _] [Pb _]].
  unfold sweep_step. destruct (rule l) eqn:Hr; [split_and!; auto; done| |split_and!; auto; done].
  destruct (nth i s.1 false) eqn:Hi.
  2: { split; [done|]. split; [|auto]. intros _ _ HI. apply nth_live in HI. congruence. }
  apply nth_live in Hi. destruct (mark_spec (pa l) s Pa Hl) as (M1 & C1 & N1).
  pose proof M1 as (L1 & _). destruct (mark_spec (pb l) (mark (length ls) (pa l) s) Pb) as (M2 & C2 & N2); [congruence|].
  split; [by transitivity (mark (length ls) (pa l) s)|]. split.
  - intros E _ _. pose proof M2 as (_ & _ & S2 & _). specialize (S2 E). specialize (C2 E).
    rewrite S2 in E. pose proof M1 as (_ & _ & S1 & _). specialize (S1 E). rewrite S1 in C2. auto.
  - intros HN k [Hk|[-> Hk]]%N2; [apply N1 in Hk as [Hk|[-> Hk]]; [auto|]|];
      (eapply Needed_parent; [by apply HN, Hi|exact Hls|done|auto|done]).
Qed.

Lemma sweep_fold_spec ils s : length s.1 = length ls → (∀ i l, (i, l) ∈ ils → ls !! i = Some l) →
  let s' := foldl (sweep_step (length ls)) s ils in
  marks s s' ∧
  (s'.2 = false → ∀ i l, (i, l) ∈ ils → rule l = PROD → is_live s.1 i →
    (pa l < Z.of_nat (length ls) → is_live s.1 (Z.to_nat (pa l))) ∧
    (pb l < Z.of_nat (length ls) → is_live s.1 (Z.to_nat (pb l)))) ∧
  ((∀ k, is_live s.1 k → Needed ls es k) → ∀ k, is_live s'.1 k → Needed ls es k).
Proof.
  revert s. induction ils as [|[i l] ils IH]; intros s Hl Hils; cbn [foldl].
  { split; [done|]. split; [by intros _ i l []%not_elem_of_nil|auto]. }
  destruct (sweep_step_spec s i l (Hils i l ltac:(by left)) Hl) as (M1 & C1 & N1). pose proof M1 as (L1 & _).
  set (s1 := sweep_step (length ls) s (i, l)) in *.
  destruct (IH s1) as (M2 & C2 & N2); [congruence|intros; apply Hils; by right|].
  split; [by transitivity s1|]. split.
  - intros E. pose proof M2 as (_ & _ & S2 & _). specialize (S2 E). rewrite S2 in E.
    pose proof M1 as (_ & _ & S1 & _). specialize (S1 E). rewrite S2 in C2. specialize (C2 E). rewrite S1 in C2.
    intros k l' [[= -> ->]|Hin]%elem_of_cons; [by apply C1|by apply C2].
  - intros HN. by apply N2, N1.
Qed.

Definition closed (live : list bool) : Prop := ∀ i l, ls !! i = Some l → rule l = PROD → is_live live i →
  (pa l < Z.of_nat (length ls) → is_live live (Z.to_nat (pa l))) ∧
  (pb l < Z.of_nat (length ls) → is_live live (Z.to_nat (pb l))).

Lemma live_loop_spec n live : length live = length ls → (dead live < n)%nat →
  ∃ live', live_loop n ls live = Ok live' ∧ length live' = length ls ∧ (∀ i, is_live live i → is_live live' i) ∧
    closed live' ∧ ((∀ k, is_live live k → Needed ls es k) → ∀ k, is_live live' k → Needed ls es k).
Proof.
  revert live. induction n as [|n IH]; intros live Hl Hd; [lia|]. cbn [live_loop]. unfold sweep.
  destruct (sweep_fold_spec (imap pair ls) (live, false) Hl) as (M & C & N).
  { intros i l (j & Hj)%list_elem_of_lookup. rewrite list_lookup_imap in Hj. destruct (ls !! j) eqn:E; [|done].
    by injection Hj as -> ->. }
  set (s' := foldl (sweep_step (length ls)) (live, false) (imap pair ls)) in *.
  destruct s' as [live1 chg] eqn:Es. cbn [fst snd] in *. destruct M as (L1 & G1 & S1 & D1 & _). cbn [fst snd] in *.
  destruct chg.
  - destruct (D1 eq_refl) as [|D]; [done|]. destruct (IH live1) as (live2 & E2 & L2 & G2 & C2 & N2); [congruence|lia|].
    exists live2. split_and!; auto.
  - injection (S1 eq_refl) as ->. exists live. split_and!; auto. intros i l Hi. apply C; [done|].
    apply list_elem_of_lookup_2 with i. by rewrite list_lookup_imap, Hi.
Qed.

Lemma live_edges_spec : length (live_edges (length ls) es) = length ls ∧
  ∀ i, is_live (live_edges (length ls) es) i ↔ ∃ e, e ∈ es ∧ layer_id e < Z.of_nat (length ls) ∧ i = Z.to_nat (layer_id e).
Proof.
  unfold live_edges. set (l0 := replicate (length ls) false).
  assert (H0 : length l0 = length ls) by apply length_replicate.
  assert (N0 : ∀ i, ¬ is_live l0 i) by (intros i [E _]%lookup_replicate_1; done).
  clearbody l0. assert (G : ∀ l, length l = length ls →
    length (foldl (λ live e, if layer_id e <? Z.of_nat (length ls) then <[Z.to_nat (layer_id e) := true]> live else live) l es) = length ls ∧
    ∀ i, is_live (foldl (λ live e, if layer_id e <? Z.of_nat (length ls) then <[Z.to_nat (layer_id e) := true]> live else live) l es) i ↔
      is_live l i ∨ ∃ e, e ∈ es ∧ layer_id e < Z.of_nat (length ls) ∧ i = Z.to_nat (layer_id e)).
  { clear H0 N0. induction es as [|e es' IH]; intros l Hl; cbn [foldl].
    - split; [done|]. intros i. split; [auto|]. intros [|(e & []%not_elem_of_nil & _)]; done.
    - apply Forall_cons in Hes as [He0 Hes']. specialize (IH Hes').
      destruct (Z.ltb_spec (layer_id e) (Z.of_nat (length ls))) as [He|He].
      + destruct (IH (<[Z.to_nat (layer_id e) := true]> l)) as [IH1 IH2]; [by rewrite length_insert|].
        split; [done|]. intros i. rewrite IH2, live_insert by lia. setoid_rewrite elem_of_cons. naive_solver.
      + destruct (IH l Hl) as [IH1 IH2]. split; [done|]. intros i. rewrite IH2. setoid_rewrite elem_of_cons.
        split; [naive_solver|]. intros [|(e' & [->|] & ? & ?)]; [auto|lia|naive_solver]. }
  destruct (G l0 H0) as [G1 G2]. split; [done|]. intros i. rewrite G2. naive_solver.
Qed.

(** The table that [compact_layers] computes: exactly the needed layers. *)
Lemma live_spec : ∃ live, live_loop (S (length ls)) ls (live_edges (length ls) es) = Ok live ∧
  length live = length ls ∧ closed live ∧ ∀ i, is_live live i ↔ Needed ls es i.
Proof.
  destruct live_edges_spec as [L0 I0]. pose proof (dead_le (live_edges (length ls) es)).
  destruct (live_loop_spec (S (length ls)) (live_edges (length ls) es) L0) as (live & E & Hl & Hm & Hc & Hn); [lia|].
  exists live. split_and!; [done..|]. intros i. split.
  - apply Hn. intros k (e & He & Hlt & ->)%I0. by constructor.
  - induction 1 as [e He Hlt|i l p _ IH Hl' Hr Hp Hlt]; [apply Hm, I0; eauto|].
    destruct (Hc i l Hl' Hr IH) as [Ca Cb]. destruct Hp as [-> | ->]; auto.
Qed.
End Live.

(** C16. [merge] accepts every list of edges that passes the checks of a
    ciphertext, and what it returns is in normal form (positions strictly
    ascending, nothing that is zero) and has, in every slot, the same value as
    the input under every choice of layer masks. *)
Theorem merge_correct pk nl S edges : Forall fp_ok (powg_B pk) →
  Z.of_nat (length (powg_B pk)) = p_B (prm pk) → 0 < p_B (prm pk) < 2 ^ 31 → S ≠ 0%nat →
  Forall (edge_good pk nl S) edges →
  ∃ out, merge edges pk = Ok out ∧ Forall (edge_good pk nl S) out ∧ merged out ∧ (length out ≤ length edges)%nat ∧
    ∀ ri j, (j < S)%nat → cong P (esum pk ri out j) (esum pk ri edges j).
Proof. intros. by apply merge_Ok. Qed.

(** Three edges, two at one position. *)
Definition merge_pk : PubKey :=
  mkPubKey (mkParams 2 2 0 0 0 0 0 0 0 0 0 0 0 0 0 0 0) 0 [] (mkUbk [] []) [] fp0 [mkFp 1 0; mkFp 4 0] [] MIMC_X5_V7.

Definition merge_edges : list Edge :=
  let e x s := mkEdge 0 1 SGN_P [mkFp x 0] (mkBitVec 2 [s]) in [e 5 1; mkEdge 0 0 SGN_M [mkFp 9 0] (mkBitVec 2 [3]); e 6 2].

Lemma merge_edges_good : Forall (edge_good merge_pk 1 1) merge_edges.
Proof.
  assert (G : ∀ i c x s, word 16 i → i < 2 → c = SGN_P ∨ c = SGN_M → word 64 x →
    edge_good merge_pk 1 1 (mkEdge 0 i c [mkFp x 0] (mkBitVec 2 [s]))).
  { intros i c x s Hi Hi2 Hc Hx. split; split_and!; try done; try lia.
    - destruct Hc as [-> | ->]; done.
    - apply Forall_singleton. by apply (fp_from_u64_spec x). }
  repeat apply Forall_cons_2; [..|apply Forall_nil_2]; apply G; auto; unfold word; lia.
Qed.

Lemma merge_correct_witness : ∃ out, merge merge_edges merge_pk = Ok out ∧ merged out ∧ length out = 2%nat.
Proof.
  destruct (merge_correct merge_pk 1 1 merge_edges) as (out & E & _ & M & _).
  - repeat apply Forall_cons_2; [..|apply Forall_nil_2]; [apply (fp_from_u64_spec 1)|apply (fp_from_u64_spec 4)]; word_lia.
  - reflexivity.
  - cbn. lia.
  - discriminate.
  - exact merge_edges_good.
  - exists out. split; [exact E|]. split; [exact M|].
    assert (L2 : match merge merge_edges merge_pk with Ok l => length l | _ => 0%nat end = 2%nat) by (vm_compute; reflexivity).
    by rewrite E in L2.
Defined.
