(* ===== verification/Compact.v ===== *)
(** * Dropping layers preserves decryption

    A layer's mask is determined by its ancestors ([Mask_embed]); so a renaming
    of the layers that keeps the needed ones keeps the plaintext.  This serves
    [compact_layers] here, and the concatenation of two layer lists in
    [Arithmetic.v]. *)

From S2P Require Import Prelude Primes Field Hash Rng CtSafe Types Matrix Lpn Decrypt Reduce.

#[local] Opaque fp_inv fp_mul fp_add fp_sub.

(** ** Renaming layers *)

Section Embed.
Context {F : Fuel} (pk : PubKey) (sk : SecKey) (policy : DecPolicy) (S : nat).

(** What the mask of a base layer is computed from. *)
Lemma base_mask_ext l l' : rule l' = rule l → seed l' = seed l → R_PC l' = R_PC l →
  base_mask pk sk S policy l' = base_mask pk sk S policy l.
Proof. intros H1 H2 H3. unfold base_mask, ru_src. by rewrite H1, H2, H3. Qed.

(** [l'] is [l] with its parents renamed by [f]. *)
Definition renamed (f : nat → nat) (l l' : Layer) : Prop :=
  rule l' = rule l ∧ seed l' = seed l ∧ R_PC l' = R_PC l ∧ PC l' = PC l ∧
  (rule l ≠ BASE → Z.to_nat (pa l') = f (Z.to_nat (pa l)) ∧ Z.to_nat (pb l') = f (Z.to_nat (pb l))).

Lemma Mask_embed (f : nat → nat) (keep : nat → Prop) ls ls' i R :
  (∀ i l, ls !! i = Some l → keep i → ∃ l', ls' !! f i = Some l' ∧ renamed f l l' ∧
    (rule l ≠ BASE → keep (Z.to_nat (pa l)) ∧ keep (Z.to_nat (pb l)))) →
  keep i → Mask pk sk policy S ls i R → Mask pk sk policy S ls' (f i) R.
Proof.
  intros He Hk HM. revert Hk. induction HM as [i l R Hl Hr Hb|i l Ra Rb R Hl Hr _ IHa _ IHb Hm]; intros Hk;
    destruct (He i l Hl Hk) as (l' & Hl' & (H1 & H2 & H3 & _ & H4) & Hp).
  - apply (Mask_base _ _ _ _ _ _ l'); [done|congruence|]. by rewrite (base_mask_ext l l').
  - destruct (Hp Hr) as [Ka Kb], (H4 Hr) as [Ea Eb]. apply (Mask_prod _ _ _ _ _ _ l' Ra Rb); [done|congruence|..].
    + rewrite Ea. by apply IHa.
    + rewrite Eb. by apply IHb.
    + done.
Qed.
End Embed.

(** ** The table *)

(** The entries at the live positions. *)
Fixpoint select {A} (live : list bool) (l : list A) : list A :=
  match live, l with
  | b :: live, x :: l => if b : bool then x :: select live l else select live l
  | _, _ => []
  end.

(** How many live positions come before. *)
Definition rank (live : list bool) (i : nat) : nat := length (filter (λ b, b = true) (take i live)).

Lemma rank_cons b live i : rank (b :: live) (Datatypes.S i) = ((if b then 1 else 0) + rank live i)%nat.
Proof. unfold rank. cbn [take]. rewrite filter_cons. by destruct b. Qed.

Lemma live_head b live : is_live (b :: live) 0 → b = true.
Proof. by intros [= ->]. Qed.

Lemma select_lookup {A} live (l : list A) i : is_live live i → select live l !! rank live i = l !! i.
Proof.
  revert l i. induction live as [|b live IH]; intros [|x l] i Hi; [done|done|by destruct b|].
  destruct i as [|i].
  - by apply live_head in Hi as ->.
  - rewrite rank_cons. specialize (IH l i Hi). by destruct b.
Qed.

Lemma select_inv {A} live (l : list A) k : (k < length (select live l))%nat → ∃ i, is_live live i ∧ rank live i = k ∧ (i < length l)%nat.
Proof.
  revert l k. induction live as [|b live IH]; intros [|x l] k Hk; try (cbn in Hk; lia). cbn [select] in Hk. destruct b.
  - destruct k as [|k]; [exists 0%nat; split_and!; [done|done|cbn; lia]|]. cbn [length] in Hk.
    destruct (IH l k ltac:(lia)) as (i & H1 & H2 & H3). exists (S i). rewrite rank_cons, H2. split_and!; [done|done|cbn; lia].
  - destruct (IH l k Hk) as (i & H1 & H2 & H3). exists (S i). rewrite rank_cons, H2. split_and!; [done|done|cbn; lia].
Qed.

Lemma select_length {A} live (l : list A) : (length (select live l) ≤ length l)%nat.
Proof. revert l. induction live as [|[] live IH]; intros [|x l]; cbn; try lia; specialize (IH l); lia. Qed.

Lemma select_full {A} live (l : list A) : length live = length l → length (select live l) = length l → select live l = l.
Proof.
  revert l. induction live as [|b live IH]; intros [|x l] Hl Hs; [done..|]. pose proof (select_length live l).
  destruct b; cbn [select length] in *; [|lia]. f_equal. apply IH; lia.
Qed.

Lemma rank_lt live i k : is_live live i → (i < k)%nat → (rank live i < rank live k)%nat.
Proof.
  revert i k. induction live as [|b live IH]; intros i k Hi Hik; [done|]. destruct i as [|i], k as [|k]; try lia.
  - apply live_head in Hi as ->. rewrite rank_cons. unfold rank at 1. cbn. lia.
  - rewrite !rank_cons. specialize (IH i k Hi). lia.
Qed.

Lemma rank_select {A} live (l : list A) i : is_live live i → (i < length l)%nat → (rank live i < length (select live l))%nat.
Proof.
  intros Hi Hl. apply lookup_lt_is_Some. rewrite select_lookup by done. by apply lookup_lt_is_Some.
Qed.

Lemma remap_loop_spec live ls k : length live = length ls →
  (remap_loop live ls k).2 = select live ls ∧ length (remap_loop live ls k).1 = length ls ∧
  ∀ i, is_live live i → nth i (remap_loop live ls k).1 0 = u32 (Z.of_nat (k + rank live i)).
Proof.
  revert ls k. induction live as [|b live IH]; intros [|l ls] k Hl; try done. cbn [remap_loop].
  injection Hl as Hl. destruct (IH ls (if b then S k else k) Hl) as (E1 & E2 & E3).
  destruct (remap_loop live ls _) as [rm nL]. cbn [fst snd] in *. destruct b; cbn [fst snd length select].
  - split; [by f_equal|]. split; [by f_equal|]. intros [|i] Hi; [cbn [nth]; unfold rank; cbn; do 2 f_equal; lia|].
    rewrite rank_cons. cbn [nth]. rewrite E3 by done. do 2 f_equal. lia.
  - split; [done|]. split; [by f_equal|]. intros [|i] Hi; [done|]. rewrite rank_cons. cbn [nth]. by rewrite E3.
Qed.

(** ** [compact_layers] *)

Lemma layers_shape_iff S ls : forallb (λ p, layer_shape_ok S p.1 p.2) (imap pair ls) = true ↔
  ∀ i l, ls !! i = Some l → layer_shape_ok S i l = true.
Proof.
  split; [intros H i l; by apply layer_ok_lookup|]. intros H. apply forallb_forall.
  intros [i l] (k & Hk)%list_elem_of_In%list_elem_of_lookup. rewrite list_lookup_imap in Hk.
  destruct (ls !! k) eqn:E; [|done]. injection Hk as -> ->. by apply H.
Qed.

Lemma layer_shape_prod S i l : layer_shape_ok S i l = true → rule l ≠ BASE →
  rule l = PROD ∧ pa l < Z.of_nat i ∧ pb l < Z.of_nat i ∧ PC l = [] ∧ R_PC l = [].
Proof.
  unfold layer_shape_ok. destruct (rule l); [done| |done]. rewrite !andb_true_iff, negb_true_iff, orb_false_iff, !Z.leb_gt, !Nat.eqb_eq.
  intros [[[? ?] ?] ?] _. split_and!; try done; by apply length_zero_iff_nil.
Qed.

(** A renaming to smaller indices keeps the shape of a layer. *)
Lemma renamed_shape f S i l l' : layer_shape_ok S i l = true → renamed f l l' → word 32 (pa l) ∧ word 32 (pb l) →
  0 ≤ pa l' ∧ 0 ≤ pb l' → (rule l ≠ BASE → (f (Z.to_nat (pa l)) < f i)%nat ∧ (f (Z.to_nat (pb l)) < f i)%nat) →
  layer_shape_ok S (f i) l' = true.
Proof.
  intros Hs (H1 & H2 & H3 & H4 & H5) _ [Pa Pb] Hlt. unfold layer_shape_ok in *. rewrite H1, H3, H4.
  destruct (rule l) eqn:Hr; [done| |done]. rewrite !andb_true_iff, negb_true_iff, orb_false_iff, !Z.leb_gt in *.
  destruct (Hlt ltac:(done)), (H5 ltac:(done)) as [Ea Eb]. split_and!; try apply Hs; lia.
Qed.

Section Compact.
Context (C : Cipher) (Hwf : cipher_wf C) (HS : is_valid_cipher_shape C = true) (Hnl : Z.of_nat (length (L C)) < 2 ^ 32).
Context (live : list bool) (Hlen : length live = length (L C)) (Hclosed : closed (L C) live)
  (Hneed : ∀ i, is_live live i ↔ Needed (L C) (E C) i).

Definition table : list Z := (remap_loop live (L C) 0).1.

Definition kept : Cipher :=
  mkCipher (remap_layer table <$> select live (L C)) (remap_edge table <$> E C) (c0 C) (slots C).

Lemma rank_bound i : (rank live i ≤ length live)%nat.
Proof. unfold rank. rewrite length_filter, length_take. lia. Qed.

Lemma table_live i : is_live live i → nth i table 0 = Z.of_nat (rank live i).
Proof.
  intros Hi. destruct (remap_loop_spec live (L C) 0 Hlen) as (_ & _ & E). unfold table. rewrite E by done.
  pose proof (rank_bound i). apply wrap_small. unfold word. cbn [Nat.add]. lia.
Qed.

Lemma all_shapes i l : L C !! i = Some l → layer_shape_ok (slots C) i l = true.
Proof.
  pose proof HS as H. unfold is_valid_cipher_shape in H. rewrite !andb_true_iff in H.
  destruct H as [[_ H] _]. by apply layers_shape_iff.
Qed.

Lemma kept_parents i l : L C !! i = Some l → is_live live i → rule l ≠ BASE →
  is_live live (Z.to_nat (pa l)) ∧ is_live live (Z.to_nat (pb l)).
Proof.
  intros Hl Hi Hr. destruct (layer_shape_prod _ _ _ (all_shapes _ _ Hl) Hr) as (Hp & Ha & Hb & _).
  pose proof (lookup_lt_Some _ _ _ Hl). destruct (Hclosed i l Hl Hp Hi) as [Ca Cb]. split; [apply Ca|apply Cb]; lia.
Qed.

Lemma kept_renamed i l : L C !! i = Some l → is_live live i → renamed (rank live) l (remap_layer table l).
Proof.
  intros Hl Hi. unfold renamed, remap_layer. pose proof (kept_parents i l Hl Hi) as Hp.
  destruct (rule l) eqn:Hr; cbn [rule seed R_PC PC pa pb].
  - by split_and!.
  - destruct (Hp ltac:(done)) as [Ha Hb]. rewrite !table_live by done. split_and!; [done..|]. by rewrite !Nat2Z.id.
  - pose proof (all_shapes _ _ Hl) as Hs. unfold layer_shape_ok in Hs. by rewrite Hr in Hs.
Qed.

Lemma kept_lookup i l : L C !! i = Some l → is_live live i → L kept !! rank live i = Some (remap_layer table l).
Proof. intros Hl Hi. unfold kept. cbn [L]. by rewrite list_lookup_fmap, select_lookup, Hl. Qed.

Lemma kept_inv k l' : L kept !! k = Some l' → ∃ i l, L C !! i = Some l ∧ is_live live i ∧ rank live i = k ∧
  l' = remap_layer table l.
Proof.
  intros Hk. pose proof (lookup_lt_Some _ _ _ Hk) as Hlt. unfold kept in Hk, Hlt. cbn [L] in Hk, Hlt.
  rewrite length_fmap in Hlt. destruct (select_inv _ _ _ Hlt) as (i & Hi & <- & Hil).
  destruct (lookup_lt_is_Some_2 (L C) i Hil) as [l Hl]. rewrite list_lookup_fmap, select_lookup, Hl in Hk by done.
  injection Hk as <-. by exists i, l.
Qed.

Lemma edge_live e : e ∈ E C → is_live live (Z.to_nat (layer_id e)).
Proof.
  intros He. apply Hneed, Needed_edge; [done|]. pose proof HS as H. unfold is_valid_cipher_shape in H.
  rewrite !andb_true_iff, !forallb_forall in H. destruct H as [_ H].
  specialize (H e (proj1 (list_elem_of_In _ _) He)). apply edge_shape_fits in H as [Hlt _]. exact Hlt.
Qed.

Lemma kept_edge_layer e : e ∈ E C → layer_id (remap_edge table e) = Z.of_nat (rank live (Z.to_nat (layer_id e))).
Proof. intros He. cbn. by apply table_live, edge_live. Qed.

Lemma remap_pos l i : L C !! i = Some l → is_live live i → word 32 (pa (remap_layer table l)) ∧ word 32 (pb (remap_layer table l)).
Proof.
  intros Hl Hi. destruct Hwf as [Hp _]. pose proof (Forall_lookup_1 _ _ _ _ Hp Hl) as Hw.
  unfold remap_layer. destruct (rule l) eqn:Hr; [done| |done]. cbn [pa pb].
  destruct (kept_parents i l Hl Hi) as [Ha Hb]; [by rewrite Hr|]. rewrite !table_live by done.
  pose proof (rank_bound (Z.to_nat (pa l))). pose proof (rank_bound (Z.to_nat (pb l))). unfold word. lia.
Qed.

Lemma kept_wf : cipher_wf kept.
Proof.
  destruct Hwf as (Hp & HE & Hc). split; [|split; [|done]].
  - apply Forall_lookup_2. intros k l' (i & l & Hl & Hi & _ & ->)%kept_inv. by apply (remap_pos l i Hl Hi).
  - unfold kept. cbn [E]. apply Forall_fmap. apply Forall_forall. intros e He. rewrite Forall_forall in HE.
    destruct (HE e He) as (_ & W2 & W3 & W4). split; [|done]. rewrite kept_edge_layer by done.
    pose proof (rank_bound (Z.to_nat (layer_id e))). unfold word. lia.
Qed.

Lemma kept_layers : forallb (λ p, layer_shape_ok (slots C) p.1 p.2) (imap pair (L kept)) = true.
Proof.
  apply layers_shape_iff. intros k l' (i & l & Hl & Hi & <- & ->)%kept_inv. pose proof (all_shapes _ _ Hl) as Hs.
  destruct Hwf as [Hp _]. destruct (remap_pos l i Hl Hi) as [Wa Wb].
  apply (renamed_shape (rank live) _ i l); [done|by apply (kept_renamed i)|by apply (Forall_lookup_1 _ _ _ _ Hp Hl)| |].
  - unfold word in *. lia.
  - intros Hr. destruct (kept_parents i l Hl Hi Hr) as [Ha Hb].
    destruct (layer_shape_prod _ _ _ Hs Hr) as (_ & La & Lb & _). destruct (Forall_lookup_1 _ _ _ _ Hp Hl) as [[Pa _] [Pb _]].
    split; apply rank_lt; try done; lia.
Qed.

Lemma kept_rank q : is_live live q → Z.of_nat (rank live q) < Z.of_nat (length (L kept)).
Proof.
  intros Hq. unfold kept. cbn [L]. rewrite length_fmap. apply inj_lt, rank_select; [done|].
  pose proof (lookup_lt_Some _ _ _ Hq). lia.
Qed.

Lemma kept_edge_lt e : e ∈ E C → layer_id (remap_edge table e) < Z.of_nat (length (L kept)).
Proof. intros He. rewrite kept_edge_layer by done. by apply kept_rank, edge_live. Qed.

Lemma kept_edges pk : Forall (edge_fits pk (length (L C)) (slots C)) (E C) →
  Forall (edge_fits pk (length (L kept)) (slots C)) (E kept).
Proof.
  intros HE. unfold kept at 2. cbn [E]. apply Forall_fmap, Forall_forall. intros e He. rewrite Forall_forall in HE.
  destruct (HE e He) as (_ & F2). split; [by apply kept_edge_lt|exact F2].
Qed.

Lemma kept_shape : is_valid_cipher_shape kept = true.
Proof.
  pose proof kept_layers as HL. pose proof HS as H. unfold is_valid_cipher_shape in H |- *. rewrite !andb_true_iff in H |- *.
  destruct H as [[[H1 H2] _] H3]. split_and!; [done|done|exact HL|]. rewrite forallb_forall in H3 |- *.
  intros e' (e & -> & He)%list_elem_of_In%list_elem_of_fmap. pose proof (H3 e (proj1 (list_elem_of_In _ _) He)) as Hf.
  apply edge_shape_fits in Hf as (_ & Hf). apply edge_shape_fits. split; [by apply kept_edge_lt|exact Hf].
Qed.

Lemma kept_decrypts {F : Fuel} pk sk policy v : decrypts pk sk policy C v → decrypts pk sk policy kept v.
Proof.
  intros [Hv (Rinv & [Hl HR] & Hp)]. split; [done|]. exists (select live Rinv). split; [split|].
  - unfold kept. cbn [L]. rewrite length_fmap. clear -Hl Hlen. revert Hlen Hl. generalize (L C) as ls. revert Rinv.
    induction live as [|b lv IH]; intros [|x Ri] [|l ls] H1 H2; try done. cbn [select]. cbn in H1, H2.
    specialize (IH Ri ls). destruct b; cbn [length]; [f_equal|]; apply IH; congruence.
  - intros k Hk. destruct (lookup_lt_is_Some_2 _ _ Hk) as [l' Hl']. destruct (kept_inv k l' Hl') as (i & l & Hil & Hi & <- & ->).
    destruct (HR i) as (R & HM & E); [by eapply lookup_lt_Some|]. exists R. split; [|by rewrite select_lookup].
    apply (Mask_embed pk sk policy _ (rank live) (is_live live) (L C)); [|done|done].
    intros i' l0 Hl0 Hi'. exists (remap_layer table l0). split; [by apply kept_lookup|].
    split; [by apply (kept_renamed i')|by apply (kept_parents i')].
  - intros j Hj. specialize (Hp j Hj). unfold plain in *. change (c0 kept) with (c0 C).
    unfold kept. cbn [E]. rewrite (esum_map _ (λ l, fval (nth l Rinv []) j)); [done|].
    apply Forall_forall. intros e He. split; [done|]. rewrite kept_edge_layer, Nat2Z.id by done.
    by rewrite !nth_lookup, select_lookup by by apply edge_live.
Qed.

Lemma kept_native pk : dec_has_native_src pk C = false → dec_has_native_src pk kept = false.
Proof.
  unfold dec_has_native_src. intros H. apply not_true_iff_false. intros (l' & Hl' & Hn)%existsb_exists.
  apply list_elem_of_In, list_elem_of_lookup in Hl' as (k & Hk). destruct (kept_inv k l' Hk) as (i & l & Hl & Hi & _ & ->).
  destruct (kept_renamed i l Hl Hi) as (E1 & E2 & _). apply not_true_iff_false in H. apply H, existsb_exists. exists l.
  split; [by eapply list_elem_of_In, list_elem_of_lookup_2|]. unfold ru_src in *. by rewrite E1, E2 in Hn.
Qed.

(** Every layer that stays is needed. *)
Lemma kept_needed k : (k < length (L kept))%nat → Needed (L kept) (E kept) k.
Proof.
  assert (G : ∀ i, Needed (L C) (E C) i → Needed (L kept) (E kept) (rank live i)).
  { induction 1 as [e He Hlt|i l p Hi IH Hl Hr Hp Hlt].
    - rewrite <- (Nat2Z.id (rank _ _)), <- kept_edge_layer by done.
      apply Needed_edge; [by apply list_elem_of_fmap_2|by apply kept_edge_lt].
    - pose proof (proj2 (Hneed i) Hi) as Hlive.
      destruct (kept_renamed i l Hl Hlive) as (E1 & _ & _ & _ & E5). destruct E5 as [Ea Eb]; [by rewrite Hr|].
      destruct (kept_parents i l Hl Hlive) as [La Lb]; [by rewrite Hr|].
      destruct (remap_pos l i Hl Hlive) as [Wa Wb].
      destruct Hp as [-> | ->];
        [rewrite <- Ea; eapply (Needed_parent _ _ _ _ (pa (remap_layer table l)))
        |rewrite <- Eb; eapply (Needed_parent _ _ _ _ (pb (remap_layer table l)))];
        try (exact IH); try (by apply kept_lookup); try congruence; auto.
      + pose proof (kept_rank _ La). unfold word in Wa. lia.
      + pose proof (kept_rank _ Lb). unfold word in Wb. lia. }
  intros Hk. destruct (lookup_lt_is_Some_2 _ _ Hk) as [l' Hl']. destruct (kept_inv k l' Hl') as (i & l & _ & Hi & <- & _).
  by apply G, Hneed.
Qed.
End Compact.

Lemma select_dead {A} live (l : list A) k : live !! k = Some false → length live = length l →
  (length (select live l) < length l)%nat.
Proof.
  revert l k. induction live as [|b lv IH]; intros [|x ls] [|k] Hb Hl; try done.
  - injection Hb as ->. cbn. pose proof (select_length lv ls). lia.
  - cbn in Hl. specialize (IH ls k Hb ltac:(lia)). destruct b; cbn; lia.
Qed.

(** Every layer is needed. *)
Definition compacted (C : Cipher) : Prop := ∀ k, (k < length (L C))%nat → Needed (L C) (E C) k.

Lemma compact_layers_cases C : cipher_wf C → is_valid_cipher_shape C = true → Z.of_nat (length (L C)) < 2 ^ 32 →
  ∃ C', compact_layers C = Ok C' ∧ compacted C' ∧
    (C' = C ∨ ∃ live, length live = length (L C) ∧ closed (L C) live ∧
      (∀ i, is_live live i ↔ Needed (L C) (E C) i) ∧ C' = kept C live).
Proof.
  intros Hwf HS Hl. unfold compact_layers. rewrite HS. cbn [negb]. cbv zeta.
  destruct (Nat.eqb_spec (length (L C)) 0) as [E0|E0].
  { exists C. split_and!; try done; [intros k Hlt; lia|by left]. }
  pose proof Hwf as (Hp & HW & Hc). destruct (live_spec (L C) (E C) Hp) as (live & -> & Hlen & Hcl & Hneed).
  { eapply Forall_impl; [exact HW|]. by intros e [[? _] _]. }
  destruct (remap_loop_spec live (L C) 0 Hlen) as (E1 & _ & _). cbn [mbind res_bind].
  assert (Ep : remap_loop live (L C) 0 = (table C live, select live (L C))).
  { unfold table. destruct (remap_loop live (L C) 0). cbn in *. by subst. }
  rewrite Ep. destruct (Nat.eqb_spec (length (select live (L C))) (length (L C))) as [Ef|Ef].
  - exists C. split_and!; [done| |by left]. intros k Hlt. apply Hneed.
    destruct (lookup_lt_is_Some_2 live k) as [[] Hb]; [lia|done|]. pose proof (select_dead live (L C) k Hb Hlen). lia.
  - exists (kept C live). split; [done|]. split; [|right; by exists live].
    intros k Hlt. eapply (kept_needed C); eassumption.
Qed.

Lemma select_all {A} live (l : list A) : Forall (λ b, b = true) live → length live = length l → select live l = l.
Proof.
  intros All. revert l. induction All as [|b lv -> _ IH]; intros [|x l] Hl; try done.
  cbn. f_equal. apply IH. by injection Hl.
Qed.

Lemma compact_layers_compacted C : cipher_wf C → is_valid_cipher_shape C = true → compacted C → compact_layers C = Ok C.
Proof.
  intros (Hp & HW & _) HS Hcc. unfold compact_layers. rewrite HS. cbn [negb]. cbv zeta. destruct (_ =? _)%nat; [done|].
  destruct (live_spec (L C) (E C) Hp) as (live & -> & Hlen & _ & Hneed).
  { eapply Forall_impl; [exact HW|]. by intros e [[? _] _]. }
  destruct (remap_loop_spec live (L C) 0 Hlen) as (E1 & _ & _). cbn [mbind res_bind].
  destruct (remap_loop live (L C) 0) as [rm nL]. cbn in E1. subst nL. rewrite select_all; [by rewrite Nat.eqb_refl| |done].
  apply Forall_lookup_2. intros k b Hb. pose proof (lookup_lt_Some _ _ _ Hb) as Hlt. rewrite Hlen in Hlt.
  apply Hcc, Hneed in Hlt. unfold is_live in Hlt. congruence.
Qed.

(** ** Ciphertexts of a plaintext

    [encrypts C v]: [C] is well formed, passes the checks for [pk], and its
    plaintext is [v].  The operations of the library keep this. *)

Definition pubkey_wf (pk : PubKey) : Prop := Forall fp_ok (powg_B pk) ∧ p_B (prm pk) < 2 ^ 31.

Section Encrypts.
Context {F : Fuel} (pk : PubKey) (sk : SecKey) (policy : DecPolicy) (Hpk : pubkey_wf pk) (Hk : keys_ok sk).

Definition encrypts (C : Cipher) (v : list Fp) : Prop :=
  cipher_wf C ∧ Z.of_nat (length (L C)) < 2 ^ 32 ∧ admissible pk C policy ∧ decrypts pk sk policy C v.

Lemma encrypts_dec C v : encrypts C v → dec_values pk sk C policy = Ok v.
Proof. intros (Hwf & _ & HA & HD). apply dec_values_decrypts; try done. apply Hpk. Qed.

Lemma dec_encrypts C v : cipher_wf C → Z.of_nat (length (L C)) < 2 ^ 32 → dec_values pk sk C policy = Ok v → encrypts C v.
Proof. intros Hwf Hl HD. apply dec_values_decrypts in HD as [HA HD]; [by split_and!|apply Hpk|done|done]. Qed.

Lemma pubkey_B : is_valid_pubkey_shape pk = true → Z.of_nat (length (powg_B pk)) = p_B (prm pk) ∧ 0 < p_B (prm pk).
Proof.
  unfold is_valid_pubkey_shape. cbv zeta. rewrite !andb_true_iff, !negb_true_iff, !orb_false_iff, !Z.eqb_eq, !Z.leb_gt. tauto.
Qed.

(** Changing the edges alone. *)
Lemma encrypts_edges C v es :
  encrypts C v → Forall (edge_good pk (length (L C)) (slots C)) es →
  (∀ ri j, (j < slots C)%nat → cong P (esum pk ri es j) (esum pk ri (E C) j)) →
  encrypts (mkCipher (L C) es (c0 C) (slots C)) v.
Proof.
  intros ((W1 & W2 & W3) & Hl & [HC Hn] & [Hv (Rinv & HM & Hp)]) Hes Hsum.
  apply compatible_spec in HC as (C1 & C2 & C3 & C4 & C5).
  split; [split_and!; try done; eapply Forall_impl; [exact Hes|]; by intros e [? _]|].
  split; [done|]. split; [split; [|done]|].
  - apply compatible_spec. cbn [L E slots c0]. split_and!; try done. eapply Forall_impl; [exact Hes|]. by intros e [_ ?].
  - split; [done|]. exists Rinv. split; [done|]. intros j Hj. eapply rep_cong; [by apply Hp|]. unfold plain.
    cbn [c0 E]. by rewrite Hsum.
Qed.

Lemma encrypts_good C v : encrypts C v → Forall (edge_good pk (length (L C)) (slots C)) (E C).
Proof.
  intros ((_ & W & _) & _ & [HC _] & _). apply compatible_spec in HC as (_ & _ & _ & _ & HF). unfold edge_good.
  by apply Forall_and.
Qed.

Lemma guard_budget_encrypts C v : encrypts C v → ∃ C', guard_budget pk C = Ok C' ∧ encrypts C' v ∧
  L C' = L C ∧ c0 C' = c0 C ∧ slots C' = slots C.
Proof.
  intros HE. unfold guard_budget, compact_edges. destruct (_ <? _); [|by exists C].
  pose proof HE as (_ & _ & [HC _] & _). apply compatible_spec in HC as (HS & Hs & _).
  destruct (pubkey_B HS) as [B1 B2]. destruct Hpk as [Hg Hb].
  destruct (merge_Ok pk (length (L C)) (slots C) (E C) B1 ltac:(lia) Hs (encrypts_good _ _ HE)) as (out & -> & G & _ & _ & Hsum).
  cbn. eexists. split; [done|]. split; [|done]. by apply encrypts_edges.
Qed.

Lemma compact_layers_encrypts C v : encrypts C v → ∃ C', compact_layers C = Ok C' ∧ encrypts C' v ∧
  slots C' = slots C ∧ c0 C' = c0 C ∧ (length (L C') ≤ length (L C))%nat ∧ compacted C' ∧
  (compacted C → C' = C).
Proof.
  intros HE. pose proof HE as (Hwf & Hl & [HC Hn] & HD). pose proof (compatible_shape _ _ HC) as HS.
  destruct (compact_layers_cases C Hwf HS Hl) as (C' & E' & Hc & [->|(live & Hlen & Hcl & Hneed & ->)]).
  { exists C. by split_and!. }
  exists (kept C live). split; [done|].
  assert (Hle : (length (L (kept C live)) ≤ length (L C))%nat) by (unfold kept; cbn [L]; rewrite length_fmap; apply select_length).
  split; [split; [eapply (kept_wf C); eassumption|split; [lia|split; [split|eapply (kept_decrypts C); eassumption]]]|].
  - apply compatible_spec in HC as (C1 & C2 & C3 & C4 & C5). apply compatible_spec. split_and!; try done.
    + eapply (kept_layers C); eassumption.
    + eapply (kept_edges C); eassumption.
  - destruct Hn as [Hn|Hn]; [by left|right; eapply (kept_native C); eassumption].
  - split_and!; try done. intros Hcc. rewrite (compact_layers_compacted C Hwf HS Hcc) in E'. by apply Ok_inj in E'.
Qed.
End Encrypts.

(** C15. [compact_layers] terminates and keeps exactly the layers that the edges
    need, directly or as parents of needed products: the result is of valid
    shape, decrypts to the same plaintext under every key and policy, and
    compacting again changes nothing. *)
Theorem compact_layers_correct C : cipher_wf C → is_valid_cipher_shape C = true → Z.of_nat (length (L C)) < 2 ^ 32 →
  ∃ C', compact_layers C = Ok C' ∧ is_valid_cipher_shape C' = true ∧ compacted C' ∧ compact_layers C' = Ok C' ∧
    (length (L C') ≤ length (L C))%nat ∧
    ∀ (F : Fuel) pk sk policy v, decrypts pk sk policy C v → decrypts pk sk policy C' v.
Proof.
  intros Hwf HS Hl. destruct (compact_layers_cases C Hwf HS Hl) as (C' & HE & Hc & [->|(live & Hlen & Hcl & Hn & ->)]).
  - exists C. by split_and!.
  - assert (Hs : is_valid_cipher_shape (kept C live) = true) by (eapply (kept_shape C); eassumption).
    assert (Hw : cipher_wf (kept C live)) by (eapply (kept_wf C); eassumption).
    exists (kept C live). split_and!; try done.
    + by apply compact_layers_compacted.
    + unfold kept. cbn [L]. rewrite length_fmap. apply select_length.
    + intros. eapply (kept_decrypts C); eassumption.
Qed.

(** A product of the first and the third of three layers, the second unused. *)
Definition sample_layers : Cipher :=
  let base z := mkLayer BASE (mkRSeed z (mkNonce z z)) 0 0 [] [] [] in
  mkCipher [base 1; base 2; base 3; mkLayer PROD (mkRSeed 4 (mkNonce 4 4)) 0 2 [] [] []]
    [mkEdge 3 0 SGN_P [mkFp 5 0] (mkBitVec 0 [])] [] 1.

Lemma compact_layers_correct_witness :
  ∃ C', compact_layers sample_layers = Ok C' ∧ length (L C') = 3%nat ∧ compacted C'.
Proof.
  destruct (compact_layers_correct sample_layers) as (C' & E1 & _ & E2 & _).
  - split; [|split; [|constructor]].
    + repeat apply Forall_cons_2; [..|apply Forall_nil_2]; unfold word; cbn; lia.
    + apply Forall_singleton. unfold edge_wf, word, SGN_P. cbn. split_and!; try lia.
      apply Forall_singleton, (fp_from_u64_spec 5). word_lia.
  - reflexivity.
  - reflexivity.
  - exists C'. split; [exact E1|]. split; [|exact E2].
    assert (E : match compact_layers sample_layers with Ok C => length (L C) | _ => 0%nat end = 3%nat) by reflexivity.
    by rewrite E1 in E.
Defined.
