(* ===== verification/Sample.v ===== *)
(** * A small key pair and ciphertexts, for concrete instances

    Three powers of a cube root of unity modulo [P], two rows, two columns; the
    layers are native ones, whose masks cost two hashes each. *)

From S2P Require Import Prelude Primes Field Hash Rng CtSafe Types Matrix Lpn Decrypt Reduce Compact.

#[export] Instance sample_fuel : Fuel := 20%nat.

Definition sample_params : Params := mkParams 3 2 2 1 1 1 0 0 0 1000 64 1 1 2 0 0 0.

Definition sample_pk : PubKey :=
  mkPubKey sample_params 5 [mkBitVec 2 [1]; mkBitVec 2 [2]] (mkUbk [1; 0] [1; 0]) (replicate 32 1)
    (mkFp 15386998897999583221 2479152227767699296)
    [mkFp 1 0; mkFp 15386998897999583221 2479152227767699296; mkFp 3059745175709968393 6744219809087076511]
    [] MIMC_X5_V7.

Definition sample_sk : SecKey := mkSecKey [1; 2; 3; 4] (mkFp 5 6) (replicate 32 0) (mkFp 7 8) (replicate 32 0) [9].

Definition native_seed (n : Z) : RSeed := mkRSeed (ru_ztag 5 (mkNonce n n)) (mkNonce n n).

(** One layer, one edge on power [i] of weight [x], constant [c]. *)
Definition sample_ct (n i x c : Z) : Cipher :=
  mkCipher [mkLayer BASE (native_seed n) 0 0 (replicate 32 0) [] []]
    [mkEdge 0 i SGN_M [mkFp x 0] (mkBitVec 2 [1])] [mkFp c 0] 1.

Lemma sample_pk_wf : pubkey_wf sample_pk.
Proof.
  split; [|done]. repeat apply Forall_cons_2; [..|apply Forall_nil_2]; (split; [split; unfold word; cbn; lia|reflexivity]).
Qed.

Lemma sample_keys_ok : keys_ok sample_sk.
Proof. split; (split; [split; unfold word; cbn; lia|reflexivity]). Qed.

Lemma sample_pk_powers : pubkey_powers_ok sample_pk = true ∧ is_valid_pubkey_shape sample_pk = true.
Proof. split; vm_compute; reflexivity. Qed.

Lemma sample_ct_wf n i x c : word 16 i → word 64 x → word 64 c → cipher_wf (sample_ct n i x c).
Proof.
  intros Hi Hx Hc. split; [|split].
  - apply Forall_singleton. cbn. unfold word. lia.
  - apply Forall_singleton. split_and!; [unfold word; cbn; lia|done|unfold word, SGN_M; cbn; lia|].
    apply Forall_singleton. by apply (fp_from_u64_spec x).
  - apply Forall_singleton. by apply (fp_from_u64_spec c).
Qed.

(** What they decrypt to. *)
Definition sample_dec (n i x c : Z) : list Fp :=
  match dec_values sample_pk sample_sk (sample_ct n i x c) NATIVE_LOCAL with Ok v => v | _ => [] end.

Lemma sample_dec_Ok n i x c : is_ok (dec_values sample_pk sample_sk (sample_ct n i x c) NATIVE_LOCAL) = true →
  dec_values sample_pk sample_sk (sample_ct n i x c) NATIVE_LOCAL = Ok (sample_dec n i x c).
Proof. unfold sample_dec. by destruct (dec_values _ _ _ _). Qed.

Lemma sample_1_dec : dec_values sample_pk sample_sk (sample_ct 1 1 5 7) NATIVE_LOCAL = Ok (sample_dec 1 1 5 7).
Proof. apply sample_dec_Ok. vm_compute. reflexivity. Qed.

Lemma sample_1 : encrypts sample_pk sample_sk NATIVE_LOCAL (sample_ct 1 1 5 7) (sample_dec 1 1 5 7).
Proof.
  apply dec_encrypts; [apply sample_pk_wf|apply sample_keys_ok|apply sample_ct_wf; unfold word; lia|done|]. exact sample_1_dec.
Qed.

Lemma sample_2 : encrypts sample_pk sample_sk NATIVE_LOCAL (sample_ct 2 2 3 4) (sample_dec 2 2 3 4).
Proof.
  apply dec_encrypts; [apply sample_pk_wf|apply sample_keys_ok|apply sample_ct_wf; unfold word; lia|done|].
  apply sample_dec_Ok. vm_compute. reflexivity.
Qed.

(** ** Decryption *)

(** C13. [dec_values] is decryption: it returns [v] exactly when the ciphertext fits
    the key and the policy and [v] is its plaintext - in every slot, the constant
    part plus the signed sum of the edges' weights times their powers, each
    divided by the mask of its layer, the mask of a product layer being the
    product of its parents' masks.  The value does not depend on the order in
    which the masks are computed and cached. *)
Theorem dec_values_correct {F : Fuel} pk sk policy C v : Forall fp_ok (powg_B pk) → keys_ok sk → cipher_wf C →
  dec_values pk sk C policy = Ok v ↔ admissible pk C policy ∧ decrypts pk sk policy C v.
Proof. apply dec_values_decrypts. Qed.

Lemma dec_values_correct_witness : dec_values sample_pk sample_sk (sample_ct 1 1 5 7) NATIVE_LOCAL = Ok (sample_dec 1 1 5 7) ∧
  decrypts sample_pk sample_sk NATIVE_LOCAL (sample_ct 1 1 5 7) (sample_dec 1 1 5 7).
Proof.
  assert (Hwf : cipher_wf (sample_ct 1 1 5 7)) by (apply sample_ct_wf; unfold word; lia).
  assert (E : dec_values sample_pk sample_sk (sample_ct 1 1 5 7) NATIVE_LOCAL = Ok (sample_dec 1 1 5 7)).
  { apply sample_1_dec. }
  split; [exact E|]. apply (dec_values_correct sample_pk sample_sk NATIVE_LOCAL (sample_ct 1 1 5 7) (sample_dec 1 1 5 7));
    [exact (proj1 sample_pk_wf)|exact sample_keys_ok|exact Hwf|exact E].
Defined.
