(* ===== verification/Coeffs.v ===== *)
(** * The coefficients of a ciphertext

    [compute_layer_coeffs] and [fold_edges] sum the edges of each layer; a
    plaintext slot is the constant plus the coefficients times the inverse
    masks.  This is the form that products are computed in. *)

From S2P Require Import Prelude Primes Field Hash Rng CtSafe Types Matrix Lpn Decrypt Reduce Compact Sample.

#[local] Opaque fp_inv fp_mul fp_add fp_sub.

(** The coefficient of layer [l] in slot [j]. *)
Definition csum (pk : PubKey) (l : nat) (es : list Edge) (j : nat) : Z :=
  esum pk (λ k, if decide (k = l) then 1 else 0) es j.

Lemma csum_cons pk l e es j : csum pk l (e :: es) j =
  (if decide (Z.to_nat (layer_id e) = l) then gterm pk j e else 0) + csum pk l es j.
Proof. unfold csum. rewrite esum_cons. destruct (decide _); lia. Qed.

(** [f 0 + ... + f (n - 1)]. *)
Definition zsum (n : nat) (f : nat → Z) : Z := foldr Z.add 0 (f <$> seq 0 n).

Lemma zsum_S n f : zsum (S n) f = zsum n f + f n.
Proof.
  unfold zsum. rewrite seq_S, fmap_app, foldr_app. cbn. generalize (f <$> seq 0 n). intros l.
  induction l as [|x l IH]; cbn; lia.
Qed.

Lemma zsum_ext n f g : (∀ i, (i < n)%nat → f i = g i) → zsum n f = zsum n g.
Proof. induction n as [|n IH]; intros H; [done|]. rewrite !zsum_S, IH, H by auto with lia. done. Qed.

Lemma zsum_add n f g : zsum n (λ i, f i + g i) = zsum n f + zsum n g.
Proof. induction n as [|n IH]; [done|]. rewrite !zsum_S, IH. lia. Qed.

Lemma zsum_scale n f c : zsum n (λ i, f i * c) = zsum n f * c.
Proof. induction n as [|n IH]; [done|]. rewrite !zsum_S, IH. lia. Qed.

Lemma zsum_zero n : zsum n (λ _, 0) = 0.
Proof. induction n as [|n IH]; [done|]. by rewrite zsum_S, IH. Qed.

Lemma zsum_cong n f g : (∀ i, (i < n)%nat → cong P (f i) (g i)) → cong P (zsum n f) (zsum n g).
Proof. induction n as [|n IH]; intros H; [done|]. rewrite !zsum_S, IH, H by auto with lia. done. Qed.

Lemma zsum_delta n k f : (k < n)%nat → zsum n (λ i, (if decide (k = i) then 1 else 0) * f i) = f k.
Proof.
  intros Hk. induction n as [|n IH]; [lia|]. rewrite zsum_S. destruct (decide (k = n)) as [->|Hne].
  - rewrite (zsum_ext n _ (λ _, 0)), zsum_zero; [lia|]. intros i Hi. destruct (decide _); lia.
  - rewrite IH by lia. lia.
Qed.

(** The linear form, layer by layer. *)
Lemma esum_layers pk ri nl es j : Forall (λ e, 0 ≤ layer_id e < Z.of_nat nl) es →
  esum pk ri es j = zsum nl (λ l, csum pk l es j * ri l).
Proof.
  induction 1 as [|e es He _ IH].
  - unfold csum. cbn. rewrite (zsum_ext nl _ (λ _, 0)), zsum_zero; [done|]. intros. lia.
  - rewrite esum_cons, IH, (zsum_ext nl (λ l, csum pk l (e :: es) j * ri l)
      (λ l, (if decide (Z.to_nat (layer_id e) = l) then 1 else 0) * ri l * gterm pk j e + csum pk l es j * ri l)).
    + rewrite zsum_add, zsum_scale, zsum_delta by lia. lia.
    + intros l _. rewrite csum_cons. destruct (decide _); lia.
Qed.

Section Coeffs.
Context (pk : PubKey) (nl S : nat) (Hg : Forall fp_ok (powg_B pk)).

(** Rows of [S] reduced elements. *)
Definition rows_ok (out : list (list Fp)) : Prop := length out = nl ∧ Forall (λ r, length r = S ∧ Forall fp_ok r) out.

Lemma row_rep out l j : rows_ok out → nth j (nth l out []) fp0 ~~ fval (nth l out []) j.
Proof.
  intros [_ H]. apply nth_rep. rewrite nth_lookup. destruct (out !! l) as [r|] eqn:E; [|constructor].
  by apply (Forall_lookup_1 _ _ _ _ H E).
Qed.

Lemma coeff_step_ok out e : rows_ok out → edge_good pk nl S e → rows_ok (coeff_step pk S out e) ∧
  ∀ l j x, (j < S)%nat → (l < nl)%nat → nth j (nth l out []) fp0 ~~ x →
    nth j (nth l (coeff_step pk S out e) []) fp0 ~~ x + (if decide (Z.to_nat (layer_id e) = l) then gterm pk j e else 0).
Proof.
  intros Ho [(W1 & W2 & W3 & W4) (F1 & F2 & F3 & F4 & F5)]. unfold coeff_step. cbv zeta.
  set (k := Z.to_nat (layer_id e)).
  assert (T : ∀ j x, nth j (nth k out []) fp0 ~~ x →
    (if 0 <? sgn_val (ch e) then fp_add (nth j (nth k out []) fp0) (fp_mul (nth j (ew e) fp0) (nth (Z.to_nat (idx e)) (powg_B pk) fp0))
     else fp_sub (nth j (nth k out []) fp0) (fp_mul (nth j (ew e) fp0) (nth (Z.to_nat (idx e)) (powg_B pk) fp0))) ~~ x + gterm pk j e).
  { intros j x Hx. unfold gterm. apply rep_signed; [done|]. apply rep_mul; by apply nth_rep. }
  destruct Ho as [Hl Hr]. split.
  - split; [by rewrite length_insert|]. apply Forall_insert; [done|]. rewrite length_tabulate. split; [done|].
    apply tabulate_ok. intros j _. eapply rep_ok, T, row_rep. by split.
  - intros l j x Hj Hlt Hx. rewrite (nth_lookup (<[k := _]> out) l). destruct (decide (k = l)) as [<-|Hne].
    + rewrite list_lookup_insert_eq by lia. cbn [default from_option id]. rewrite nth_tabulate by done. by apply T.
    + rewrite list_lookup_insert_ne by done. rewrite Z.add_0_r, <- nth_lookup. done.
Qed.

Lemma coeff_fold_ok es out : rows_ok out → Forall (edge_good pk nl S) es →
  rows_ok (foldl (coeff_step pk S) out es) ∧
  ∀ l j x, (j < S)%nat → (l < nl)%nat → nth j (nth l out []) fp0 ~~ x →
    nth j (nth l (foldl (coeff_step pk S) out es) []) fp0 ~~ x + csum pk l es j.
Proof.
  intros Ho Hes. revert out Ho. induction Hes as [|e es He _ IH]; intros out Ho; cbn [foldl].
  - split; [done|]. intros l j x _ _ Hx. unfold csum. cbn. by rewrite Z.add_0_r.
  - destruct (coeff_step_ok out e Ho He) as [H1 H2]. destruct (IH _ H1) as [H3 H4]. split; [done|].
    intros l j x Hj Hl Hx. rewrite csum_cons, Z.add_assoc. by apply H4, H2.
Qed.

Definition zero_rows : list (list Fp) := replicate nl (Op.zeros S).

Lemma zero_rows_ok : rows_ok zero_rows ∧ ∀ l j, nth j (nth l zero_rows []) fp0 = fp0.
Proof.
  unfold zero_rows, rows_ok. rewrite length_replicate. split; [split; [done|]|].
  - apply Forall_replicate. rewrite length_zeros. split; [done|]. apply Forall_replicate, fp0_ok.
  - intros l j. rewrite (nth_lookup (replicate nl _) l). destruct (replicate nl (Op.zeros S) !! l) as [r|] eqn:E; [|by destruct j].
    apply lookup_replicate_1 in E as [-> _]. apply nth_zeros.
Qed.

(** Rows that hold the coefficients of [es]. *)
Definition coeffs_of (es : list Edge) (out : list (list Fp)) : Prop :=
  rows_ok out ∧ ∀ l j, (l < nl)%nat → (j < S)%nat → nth j (nth l out []) fp0 ~~ csum pk l es j.

Lemma coeffs_fold es : Forall (edge_good pk nl S) es → coeffs_of es (foldl (coeff_step pk S) zero_rows es).
Proof.
  intros Hes. destruct zero_rows_ok as [Z1 Z2]. destruct (coeff_fold_ok es zero_rows Z1 Hes) as [H1 H2].
  split; [done|]. intros l j Hl Hj. rewrite <- (Z.add_0_l (csum _ _ _ _)). apply H2; [done..|].
  rewrite Z2. apply rep_val, fp0_ok.
Qed.

Lemma coeff_loop_Ok es out : Forall (edge_fits pk nl S) es → coeff_loop pk S nl es out = Ok (foldl (coeff_step pk S) out es).
Proof.
  intros H. revert out. induction H as [|e es (F1 & F2 & F3 & F4 & F5) _ IH]; intros out; cbn [coeff_loop foldl]; [done|].
  rewrite (proj2 (Z.leb_gt _ _)), (proj2 (Z.leb_gt _ _)), F3, Nat.eqb_refl by done. apply IH.
Qed.
End Coeffs.

Lemma coeff_step_gsum pk S out e : ch e = SGN_P ∨ ch e = SGN_M →
  coeff_step pk S out e =
    (let gp := nth (Z.to_nat (idx e)) (powg_B pk) fp0 in
     let l := Z.to_nat (layer_id e) in
     let row := nth l out [] in
     <[l := tabulate S (λ j, gsum_accumulator (nth j row fp0) (fp_mul (nth j (ew e) fp0) gp) (ch e))]> out).
Proof. unfold coeff_step. intros [-> | ->]; reflexivity. Qed.

(** [fold_edges] and [compute_layer_coeffs] are the same function on the
    ciphertexts that the former accepts. *)
Lemma fold_edges_coeffs pk C : is_cipher_compatible_with_pubkey pk C = true →
  fold_edges C pk gsum_accumulator = Ok (foldl (coeff_step pk (slots C)) (zero_rows (length (L C)) (slots C)) (E C)) ∧
  compute_layer_coeffs pk C = Ok (foldl (coeff_step pk (slots C)) (zero_rows (length (L C)) (slots C)) (E C)).
Proof.
  intros HC. unfold fold_edges, compute_layer_coeffs. rewrite HC. cbn [negb].
  apply compatible_spec in HC as (_ & _ & _ & _ & HF). split; [|by apply coeff_loop_Ok].
  f_equal. unfold zero_rows. generalize (replicate (length (L C)) (Op.zeros (slots C))). clear -HF.
  induction HF as [|e es (_ & Hs & _) _ IH]; intros out; cbn [foldl]; [done|]. rewrite IH. by rewrite coeff_step_gsum.
Qed.

(** C17. The coefficients that [compute_layer_coeffs] returns are those of
    [fold_edges], and decryption is the constant plus, for every layer, its
    coefficient divided by its mask. *)
Theorem layer_coeffs_correct {F : Fuel} pk sk policy C v : pubkey_wf pk → keys_ok sk → cipher_wf C →
  dec_values pk sk C policy = Ok v →
  ∃ G Rinv, compute_layer_coeffs pk C = Ok G ∧ fold_edges C pk gsum_accumulator = Ok G ∧
    masks_ok pk sk policy (slots C) (L C) Rinv ∧ length v = slots C ∧
    ∀ j, (j < slots C)%nat → nth j v fp0 ~~
      fval (c0 C) j + zsum (length (L C)) (λ l, fval (nth l G []) j * fval (nth l Rinv []) j).
Proof.
  intros [Hg _] Hk Hwf HD. apply dec_values_decrypts in HD as [[HC _] [Hv (Rinv & HM & Hp)]]; [|done..].
  destruct (fold_edges_coeffs pk C HC) as [E1 E2]. pose proof HC as HC'. apply compatible_spec in HC' as (_ & _ & _ & _ & HF).
  assert (Hes : Forall (edge_good pk (length (L C)) (slots C)) (E C)).
  { destruct Hwf as (_ & HW & _). unfold edge_good. by apply Forall_and. }
  destruct (coeffs_fold pk _ _ Hg _ Hes) as [HR Hc]. set (G := foldl _ _ _) in *.
  exists G, Rinv. split_and!; [done..|]. intros j Hj. eapply rep_cong; [by apply Hp|]. unfold plain.
  rewrite (esum_layers pk _ (length (L C))).
  - apply cong_add; [done|]. apply zsum_cong. intros l Hl. apply cong_mul; [|done].
    destruct (Hc l j Hl Hj) as [_ E]. symmetry. exact E.
  - eapply Forall_impl; [exact Hes|]. intros e [[[? _] _] [? _]]. lia.
Qed.

Lemma layer_coeffs_correct_witness : ∃ G, compute_layer_coeffs sample_pk (sample_ct 1 1 5 7) = Ok G ∧
  fold_edges (sample_ct 1 1 5 7) sample_pk gsum_accumulator = Ok G.
Proof.
  destruct (layer_coeffs_correct sample_pk sample_sk NATIVE_LOCAL (sample_ct 1 1 5 7) (sample_dec 1 1 5 7))
    as (G & Rinv & E1 & E2 & _).
  - exact sample_pk_wf.
  - exact sample_keys_ok.
  - exact (proj1 sample_1).
  - exact (encrypts_dec _ _ _ sample_pk_wf sample_keys_ok _ _ sample_1).
  - exists G. split; [exact E1|exact E2].
Defined.
