(* ===== verification/Arithmetic.v ===== *)
(** * Arithmetic on ciphertexts

    [ops/arithmetic.hpp].  The two overloads of each helper, on the system
    generator and on [SeedableRng], are one definition over the class [Rng]. *)

From S2P Require Import Prelude Primes Field Hash Rng CtSafe Types Matrix Lpn Decrypt Reduce.

(** ** Edges with a given sum *)

Definition index_count_ok (n B : Z) : bool :=
  (n =? 0) || ((0 <? B) && (n <=? B) && (n <=? 1 + 65535)).

Definition check_index_count (n B : Z) : res unit :=
  if index_count_ok n B then Ok tt else Throw "pvac: index count exceeds domain".

Section Repack.
Context {F : Fuel} {G} `{Rng G}.

(** [dst[i..]], given [dst[0..i)]. *)
Fixpoint sample_loop (n : nat) (B : Z) (dst : list Z) : M G (list Z) :=
  match n with
  | O => mret dst
  | S n =>
      x ← reject (r ← rng_bounded B; mret (u16 r)) (λ x, negb (existsb (Z.eqb x) dst));
      sample_loop n B (dst ++ [x])
  end.

Definition sample_unique_indices (n : nat) (B : Z) : M G (list Z) :=
  _ ← lift (check_index_count (Z.of_nat n) B);
  sample_loop n B [].

Definition make_repack_edge (pk : PubKey) (L : Layer) (lid idx ch : Z) (w : list Fp) (draw_factor : Z) : M G Edge :=
  salt ← rng_u64;
  s ← lift (sigma_from_H pk (ztag (seed L)) (nonce (seed L)) idx ch salt draw_factor);
  mret (mkEdge lid idx ch w s).

(** All the edges but the last, with random weights, and their sum. *)
Fixpoint repack_random (pk : PubKey) (L : Layer) (lid : Z) (S : nat) (draw_factor : Z)
    (specs : list (Z * Z)) (sum : list Fp) : M G (list Fp * list Edge) :=
  match specs with
  | [] => mret (sum, [])
  | (idx, ch) :: specs =>
      w ← replicateM S rand_fp_nonzero;
      let t := Op.mul_fp w (nth (Z.to_nat idx) (powg_B pk) fp0) in
      let sum := if ch =? SGN_P then Op.add sum t else Op.sub sum t in
      e ← make_repack_edge pk L lid idx ch w draw_factor;
      '(sum, edges) ← repack_random pk L lid S draw_factor specs sum;
      mret (sum, e :: edges)
  end.

Definition emit_repack_edges (pk : PubKey) (lid : Z) (L : Layer) (target : list Fp) (s : nat) (draw_factor : Z)
    : M G (list Edge) :=
  if (s =? 0)%nat then mret []
  else
    let S := length target in
    let B := p_B (prm pk) in
    idxs ← sample_unique_indices s B;
    specs ← mapM' (λ idx, b ← rng_bit; mret (idx, b)) idxs;
    '(sum, edges) ← repack_random pk L lid S draw_factor (removelast specs) (Op.zeros S);
    let '(last_idx, last_ch) := List.last specs (0, 0) in
    let diff := Op.sub target sum in
    let ginv := nth (Z.to_nat (Z.rem (B - last_idx) B)) (powg_B pk) fp0 in
    let final_w := Op.mul_fp (if last_ch =? SGN_M then Op.neg diff else diff) ginv in
    e ← make_repack_edge pk L lid last_idx last_ch final_w draw_factor;
    mret (edges ++ [e]).

Definition make_prod_layer (pk : PubKey) (pa pb : Z) (R_com_a R_com_b : list Z) : M G Layer :=
  nonce ← make_nonce128;
  mret (mkLayer PROD (mkRSeed (prg_layer_ztag (canon_tag pk) nonce) nonce)
    (if pa <? pb then pa else pb) (if pa <? pb then pb else pa)
    (if pa <? pb then compute_R_com_prod R_com_a R_com_b else compute_R_com_prod R_com_b R_com_a) [] []).

End Repack.

(** ** Layers and edges of two operands *)

(** [if (L.rule == PROD) { L.pa += off; L.pb += off; }] *)
Definition shift_layer (off : Z) (L : Layer) : Layer :=
  match rule L with
  | PROD => mkLayer (rule L) (seed L) (u32 (pa L + off)) (u32 (pb L + off)) (R_com L) (R_PC L) (PC L)
  | _ => L
  end.

Definition shift_edge (off : Z) (e : Edge) : Edge :=
  mkEdge (u32 (layer_id e + off)) (idx e) (ch e) (ew e) (es e).

Definition append_scaled_edges (dest src : list Edge) (scale : list Fp) (layer_offset : Z) : res (list Edge) :=
  if negb (Op.nz scale) then Ok dest
  else
    scaled ← mapR (λ e, w ← Op.mul (ew e) scale;
                        Ok (mkEdge (u32 (layer_id e + layer_offset)) (idx e) (ch e) w (es e))) src;
    Ok (dest ++ scaled).

Section Products.
Context {F : Fuel} {G} `{Rng G}.

(** One call of [emit(la, lb_raw)], on the layers and edges of [C]. *)
Definition emit_product (pk : PubKey) (off : option Z) (gA gB : list (list Fp))
    (target_gen : list (list Fp) → list (list Fp) → nat → nat → res (list Fp)) (S : nat) (draw_factor : Z)
    (st : list Layer * list Edge) (p : Z * Z) : M G (list Layer * list Edge) :=
  let '(Ls, Es) := st in
  let '(la, lb_raw) := p in
  let lb := match off with Some off => u32 (off + lb_raw) | None => lb_raw end in
  let R_com_of i := match Ls !! Z.to_nat i with Some l => R_com l | None => [] end in
  L ← make_prod_layer pk la lb (R_com_of la) (R_com_of lb);
  let lid := u32 (Z.of_nat (length Ls)) in
  target ← lift (target_gen gA gB (Z.to_nat la) (Z.to_nat lb_raw));
  edges ← emit_repack_edges pk lid L target S draw_factor;
  mret (Ls ++ [L], Es ++ edges).

Fixpoint emit_products (pk : PubKey) (off : option Z) (gA gB : list (list Fp))
    (target_gen : list (list Fp) → list (list Fp) → nat → nat → res (list Fp)) (S : nat) (draw_factor : Z)
    (pairs : list (Z * Z)) (st : list Layer * list Edge) : M G (list Layer * list Edge) :=
  match pairs with
  | [] => mret st
  | p :: pairs =>
      st ← emit_product pk off gA gB target_gen S draw_factor st p;
      emit_products pk off gA gB target_gen S draw_factor pairs st
  end.

(** [B] is [nullptr] for a square; [pairs] are the calls that [layer_gen] makes. *)
Definition build_product_cipher (pk : PubKey) (A : Cipher) (B : option Cipher) (pairs : list (Z * Z))
    (target_gen : list (list Fp) → list (list Fp) → nat → nat → res (list Fp)) (S : nat) (draw_factor : Z)
    : M G Cipher :=
  gA ← lift (fold_edges A pk gsum_accumulator);
  gB ← lift (match B with Some B => fold_edges B pk gsum_accumulator | None => Ok gA end);
  let off := u32 (Z.of_nat (length (L A))) in
  let Ls := match B with Some B => L A ++ (shift_layer off <$> L B) | None => L A end in
  '(Ls, Es) ← emit_products pk (match B with Some _ => Some off | None => None end) gA gB target_gen S draw_factor pairs (Ls, []);
  C ← lift (guard_budget pk (mkCipher Ls Es (Op.zeros (slots A)) (slots A)));
  lift (compact_layers C).

(** The loops of [layer_gen]. *)
Definition all_pairs (LA LB : nat) : list (Z * Z) := la ← zseq 0 LA; lb ← zseq 0 LB; [(la, lb)].
Definition triangle (LA : nat) : list (Z * Z) := la ← zseq 0 LA; lb ← zseq la (LA - Z.to_nat la); [(la, lb)].

Definition target_mul (gA gB : list (list Fp)) (la lb : nat) : res (list Fp) := Op.mul (nth la gA []) (nth lb gB []).

Definition target_square (gA gB : list (list Fp)) (la lb : nat) : res (list Fp) :=
  prod ← Op.mul (nth la gA []) (nth lb gA []);
  Ok (if negb (la =? lb)%nat then Op.add prod prod else prod).

(** [math && c0.empty() ? zeros : c0] *)
Definition c0_or_zeros (math : bool) (A : Cipher) : list Fp :=
  if math && (length (c0 A) =? 0)%nat then Op.zeros (slots A) else c0 A.

Definition zero_c0 (A : Cipher) : Cipher := mkCipher (L A) (E A) (Op.zeros (slots A)) (slots A).

Definition mul_with (pk : PubKey) (A B : Cipher) (S : nat) (math : bool) (draw_factor : Z) : M G Cipher :=
  if negb (slots A =? slots B)%nat then λ _, Throw "pvac: ct_mul: slot count mismatch between operands"
  else
    let a0 := c0_or_zeros math A in
    let b0 := c0_or_zeros math B in
    let A_g := zero_c0 A in
    let B_g := zero_c0 B in
    let LA := length (L A_g) in
    let LB := length (L B_g) in
    C ← build_product_cipher pk A_g (Some B_g) (all_pairs LA LB) target_mul (if (S =? 0)%nat then 1%nat else S) draw_factor;
    E1 ← lift (append_scaled_edges (E C) (E B_g) a0 (u32 (Z.of_nat LA)));
    E2 ← lift (append_scaled_edges E1 (E A_g) b0 0);
    c ← lift (Op.mul a0 b0);
    C ← lift (guard_budget pk (mkCipher (L C) E2 c (slots C)));
    lift (compact_layers C).

Definition square_with (pk : PubKey) (A : Cipher) (S : nat) (math : bool) : M G Cipher :=
  let a0 := c0_or_zeros math A in
  let A_g := zero_c0 A in
  let LA := length (L A_g) in
  C ← build_product_cipher pk A_g None (triangle LA) target_square (if (S =? 0)%nat then 1%nat else S) 0;
  let two_a0 := Op.add a0 a0 in
  E1 ← lift (append_scaled_edges (E C) (E A_g) two_a0 0);
  c ← lift (Op.mul a0 a0);
  C ← lift (guard_budget pk (mkCipher (L C) E1 c (slots C)));
  lift (compact_layers C).

End Products.

Definition ct_mul {F : Fuel} (pk : PubKey) (A B : Cipher) (S : nat) (math : bool) : M Os.Csprng Cipher :=
  mul_with pk A B S math 0.

Definition ct_square {F : Fuel} (pk : PubKey) (A : Cipher) (S : nat) (math : bool) : M Os.Csprng Cipher :=
  square_with pk A S math.

Definition ct_mul_seeded {F : Fuel} (pk : PubKey) (A B : Cipher) (seed : list Z) (S : nat) (math : bool)
    (draw_factor : Z) : res Cipher :=
  '(C, _) ← mul_with pk A B S math draw_factor (make_seeded_rng seed); Ok C.

Definition ct_square_seeded {F : Fuel} (pk : PubKey) (A : Cipher) (seed : list Z) (S : nat) (math : bool) : res Cipher :=
  '(C, _) ← square_with pk A S math (make_seeded_rng seed); Ok C.

(** ** Linear operations *)

Definition ct_scale (pk : PubKey) (A : Cipher) (s : Fp) : Cipher :=
  mkCipher (L A) ((λ e, mkEdge (layer_id e) (idx e) (ch e) (Op.mul_fp (ew e) s) (es e)) <$> E A)
    ((λ x, fp_mul x s) <$> c0 A) (slots A).

Definition ct_neg (pk : PubKey) (A : Cipher) : Cipher := ct_scale pk A (fp_neg (fp_from_u64 1)).

Definition ct_add (pk : PubKey) (A B : Cipher) : res Cipher :=
  if negb (slots A =? slots B)%nat then Throw "pvac: ct_add: slot count mismatch between operands"
  else
    let c := if (length (c0 A) =? 0)%nat then c0 B else if (length (c0 B) =? 0)%nat then c0 A
             else Op.add (c0 A) (c0 B) in
    let off := u32 (Z.of_nat (length (L A))) in
    C ← guard_budget pk (mkCipher (L A ++ (shift_layer off <$> L B)) (E A ++ (shift_edge off <$> E B)) c (slots A));
    compact_layers C.

Definition ct_sub (pk : PubKey) (A B : Cipher) : res Cipher := ct_add pk A (ct_neg pk B).

Definition ct_div_const (pk : PubKey) (A : Cipher) (k : Fp) : res Cipher :=
  if lo k .| hi k =? 0 then Throw "pvac: zero divisor" else Ok (ct_scale pk A (fp_inv k)).

Definition ct_mul_const_u64 (pk : PubKey) (A : Cipher) (k : Z) : Cipher := ct_scale pk A (fp_from_u64 k).
Definition ct_mul_const_i64 (pk : PubKey) (A : Cipher) (k : Z) : Cipher := ct_scale pk A (fp_from_i64 k).

Definition ct_add_const (pk : PubKey) (A : Cipher) (v : Fp) (math : bool) : Cipher :=
  mkCipher (L A) (E A) ((λ x, fp_add x v) <$> c0_or_zeros math A) (slots A).

Definition ct_add_const_u64 (pk : PubKey) (A : Cipher) (k : Z) (math : bool) : Cipher :=
  ct_add_const pk A (fp_from_u64 k) math.
Definition ct_add_const_i64 (pk : PubKey) (A : Cipher) (k : Z) (math : bool) : Cipher :=
  ct_add_const pk A (fp_from_i64 k) math.
Definition ct_sub_const_u64 (pk : PubKey) (A : Cipher) (k : Z) (math : bool) : Cipher :=
  ct_add_const pk A (fp_neg (fp_from_u64 k)) math.
Definition ct_sub_const_i64 (pk : PubKey) (A : Cipher) (k : Z) (math : bool) : Cipher :=
  ct_add_const pk A (fp_neg (fp_from_i64 k)) math.
