(* ===== verification/Linear.v ===== *)
(** * Addition, scaling and constants are homomorphic

    The operations of [Arithmetic.v] that draw no randomness: each takes
    ciphertexts of [a] and [b] to a ciphertext of the slot-wise result. *)

From S2P Require Import Prelude Primes Field Hash Rng CtSafe Types Matrix Lpn Decrypt Reduce Compact Sample Coeffs Arithmetic.

#[local] Opaque fp_inv fp_mul fp_add fp_sub fp_neg.

(** ** Two lists of layers *)

Section Append.
Context {F : Fuel} (pk : PubKey) (sk : SecKey) (policy : DecPolicy) (S : nat).

Lemma dag_weaken_l ls ls' i R : Mask pk sk policy S ls i R → Mask pk sk policy S (ls ++ ls') i R.
Proof.
  intros HM. apply (Mask_embed pk sk policy S id (λ i, (i < length ls)%nat ∧ ∃ R, Mask pk sk policy S ls i R) ls); [|split; [by eapply Mask_lt|eauto]|done].
  intros k l Hl [Hk [R' HR]]. exists l. split; [cbn; by rewrite lookup_app_l|]. split; [by split_and!|].
  intros Hr. destruct HR as [i' l' R0 Hl' Hr' _|i' l' Ra Rb R0 Hl' _ Ma Mb _]; rewrite Hl in Hl'; apply Some_inj in Hl'; subst l'; [done|].
  split; (split; [by eapply Mask_lt|eauto]).
Qed.

(** The second operand's layers, behind [off] others. *)
Definition shiftable (off : Z) (l : Layer) : Prop := rule l ≠ BASE → rule l = PROD ∧
  0 ≤ pa l ∧ 0 ≤ pb l ∧ pa l + off < 2 ^ 32 ∧ pb l + off < 2 ^ 32.

Lemma shift_parent off x : 0 ≤ off → 0 ≤ x → x + off < 2 ^ 32 → u32 (x + off) = x + off.
Proof. intros. apply wrap_small. unfold word. lia. Qed.

Lemma shift_renamed off l : 0 ≤ off → shiftable off l → renamed (λ i, (Z.to_nat off + i)%nat) l (shift_layer off l).
Proof.
  intros Ho Hs. unfold renamed, shift_layer. destruct (rule l) eqn:Hr; cbn [rule seed R_PC PC pa pb].
  - split_and!; done.
  - destruct (Hs ltac:(by rewrite Hr)) as (_ & ? & ? & ? & ?). split_and!; [done..|]. intros _.
    rewrite !shift_parent by lia. lia.
  - destruct (Hs ltac:(by rewrite Hr)) as [? _]. congruence.
Qed.

Lemma Mask_shift ls ls' off i R : off = Z.of_nat (length ls) → Forall (shiftable off) ls' →
  Mask pk sk policy S ls' i R → Mask pk sk policy S (ls ++ (shift_layer off <$> ls')) (length ls + i) R.
Proof.
  intros -> Hs HM. apply (Mask_embed pk sk policy S (λ i, (length ls + i)%nat) (λ _, True) ls'); [|done|done].
  intros k l Hl _. exists (shift_layer (Z.of_nat (length ls)) l).
  split; [rewrite lookup_app_r by lia; rewrite list_lookup_fmap; replace (length ls + k - length ls)%nat with k by lia; by rewrite Hl|].
  split; [|done]. pose proof (shift_renamed (Z.of_nat (length ls)) l ltac:(lia) (Forall_lookup_1 _ _ _ _ Hs Hl)) as HR.
  by rewrite Nat2Z.id in HR.
Qed.

Lemma masks_ok_app ls ls' off Ra Rb : off = Z.of_nat (length ls) → Forall (shiftable off) ls' →
  masks_ok pk sk policy S ls Ra → masks_ok pk sk policy S ls' Rb →
  masks_ok pk sk policy S (ls ++ (shift_layer off <$> ls')) (Ra ++ Rb).
Proof.
  intros Ho Hs [La Ma] [Lb Mb]. split; [by rewrite !length_app, length_fmap, La, Lb|].
  intros i. rewrite length_app, length_fmap. intros Hi. destruct (decide (i < length ls)%nat) as [Hlt|Hge].
  - destruct (Ma i Hlt) as (R & HR & E). exists R. split; [by apply dag_weaken_l|]. by rewrite lookup_app_l by lia.
  - destruct (Mb (i - length ls)%nat ltac:(lia)) as (R & HR & E). exists R. split.
    + replace i with (length ls + (i - length ls))%nat by lia. by apply Mask_shift.
    + rewrite lookup_app_r by lia. by rewrite La.
Qed.
End Append.

Lemma shape_shiftable n ls off : parents_words ls → forallb (λ p, layer_shape_ok n p.1 p.2) (imap pair ls) = true →
  off + Z.of_nat (length ls) < 2 ^ 32 → 0 ≤ off → Forall (shiftable off) ls.
Proof.
  intros Hp Hs Hlt Ho. apply Forall_lookup_2. intros i l Hl Hr. pose proof (lookup_lt_Some _ _ _ Hl).
  destruct (Forall_lookup_1 _ _ _ _ Hp Hl) as [[? _] [? _]].
  destruct (layer_shape_prod _ _ _ (proj1 (layers_shape_iff _ _) Hs _ _ Hl) Hr) as (? & ? & ? & _). split_and!; try done; lia.
Qed.

(** The shape of the layers of two operands together. *)
Lemma layers_shape_app n ls ls' : parents_words ls' → Z.of_nat (length ls) + Z.of_nat (length ls') < 2 ^ 32 →
  forallb (λ p, layer_shape_ok n p.1 p.2) (imap pair ls) = true →
  forallb (λ p, layer_shape_ok n p.1 p.2) (imap pair ls') = true →
  forallb (λ p, layer_shape_ok n p.1 p.2) (imap pair (ls ++ (shift_layer (Z.of_nat (length ls)) <$> ls'))) = true ∧
  parents_words (shift_layer (Z.of_nat (length ls)) <$> ls').
Proof.
  intros Hp Hlt H1 H2. pose proof (shape_shiftable n ls' (Z.of_nat (length ls)) Hp H2 ltac:(lia) ltac:(lia)) as Hs.
  assert (Hw : ∀ l, l ∈ ls' → word 32 (pa (shift_layer (Z.of_nat (length ls)) l)) ∧ word 32 (pb (shift_layer (Z.of_nat (length ls)) l))).
  { intros l Hl. pose proof (proj1 (Forall_forall _ _) Hp l Hl) as Hw. unfold shift_layer.
    destruct (rule l); [done| |done]. cbn [pa pb]. split; by apply wrap_word. }
  split.
  - apply layers_shape_iff. intros i l Hl. apply lookup_app_Some in Hl as [Hl|[Hge Hl]]; [by apply (proj1 (layers_shape_iff _ _) H1)|].
    rewrite list_lookup_fmap in Hl. destruct (ls' !! (i - length ls)%nat) as [l0|] eqn:E; [|done]. injection Hl as <-.
    replace i with ((λ k, (Z.to_nat (Z.of_nat (length ls)) + k)%nat) (i - length ls)%nat) by lia.
    pose proof (Forall_lookup_1 _ _ _ _ Hp E) as Hw0. pose proof (proj1 (layers_shape_iff _ _) H2 _ _ E) as Hl0.
    eapply renamed_shape; [exact Hl0|apply shift_renamed; [lia|by apply (Forall_lookup_1 _ _ _ _ Hs E)]|done| |].
    + destruct (Hw l0) as [[? _] [? _]]; [by eapply list_elem_of_lookup_2|]. done.
    + intros Hr. destruct (layer_shape_prod _ _ _ Hl0 Hr) as (_ & ? & ? & _). unfold word in Hw0. lia.
  - apply Forall_fmap, Forall_forall. exact Hw.
Qed.

(** ** A ciphertext by its parts *)

Section Parts.
Context {F : Fuel} (pk : PubKey) (sk : SecKey) (policy : DecPolicy).

Definition no_native (ls : list Layer) : Prop :=
  policy = NATIVE_LOCAL ∨ existsb (λ l, bool_decide (rule l = BASE) && ru_src pk l) ls = false.

(** Layers whose masks exist, with the inverses of the masks. *)
Definition layers_ok (S : nat) (ls : list Layer) (Rinv : list (list Fp)) : Prop :=
  parents_words ls ∧ Z.of_nat (length ls) < 2 ^ 32 ∧
  forallb (λ p, layer_shape_ok S p.1 p.2) (imap pair ls) = true ∧ no_native ls ∧ masks_ok pk sk policy S ls Rinv.

Lemma encrypts_parts C v : encrypts pk sk policy C v ↔
  is_valid_pubkey_shape pk = true ∧ slots C ≠ 0%nat ∧ (length (c0 C) = 0%nat ∨ length (c0 C) = slots C) ∧
  Forall fp_ok (c0 C) ∧ Forall (edge_good pk (length (L C)) (slots C)) (E C) ∧ length v = slots C ∧
  ∃ Rinv, layers_ok (slots C) (L C) Rinv ∧ ∀ j, (j < slots C)%nat → nth j v fp0 ~~ plain pk Rinv C j.
Proof.
  unfold encrypts, admissible, cipher_wf, decrypts, layers_ok, no_native, edge_good. rewrite compatible_spec, Forall_and. split.
  - intros ((W1 & W2 & W3) & Hl & ((C1 & C2 & C3 & C4 & C5) & Hn) & Hv & Rinv & HM & Hp). split_and!; try done.
    exists Rinv. by split_and!.
  - intros (C1 & C2 & C3 & W3 & (W2 & C5) & Hv & Rinv & (W1 & Hl & C4 & Hn & HM) & Hp). split_and!; try done.
    by exists Rinv.
Qed.

Lemma shift_layer_native off l : rule (shift_layer off l) = rule l ∧ ru_src pk (shift_layer off l) = ru_src pk l.
Proof. unfold shift_layer, ru_src. destruct (rule l) eqn:Hr; cbn [rule seed]; rewrite ?Hr; split; reflexivity. Qed.

Lemma layers_ok_app S ls ls' Ra Rb : layers_ok S ls Ra → layers_ok S ls' Rb →
  Z.of_nat (length ls) + Z.of_nat (length ls') < 2 ^ 32 →
  layers_ok S (ls ++ (shift_layer (Z.of_nat (length ls)) <$> ls')) (Ra ++ Rb).
Proof.
  intros (A1 & A2 & A3 & A4 & A5) (B1 & B2 & B3 & B4 & B5) Hlt.
  destruct (layers_shape_app S ls ls' B1 Hlt A3 B3) as [Hs Hp]. split_and!.
  - by apply Forall_app.
  - rewrite length_app, length_fmap. lia.
  - exact Hs.
  - destruct A4 as [A4|A4]; [by left|]. destruct B4 as [B4|B4]; [by left|]. right. rewrite existsb_app, A4. cbn [orb].
    rewrite <- B4. clear. induction ls' as [|l ls' IH]; [done|]. cbn [existsb fmap list_fmap]. rewrite IH.
    by destruct (shift_layer_native (Z.of_nat (length ls)) l) as [-> ->].
  - apply masks_ok_app; [done| |done|done]. apply (shape_shiftable S); done || lia.
Qed.

Lemma edge_good_weaken nl nl' S e : (nl ≤ nl')%nat → edge_good pk nl S e → edge_good pk nl' S e.
Proof. intros Hle [W (F1 & F2)]. split; [done|]. split; [lia|done]. Qed.

Lemma shift_edge_good nl off S e : off + Z.of_nat nl < 2 ^ 32 → 0 ≤ off → edge_good pk nl S e →
  edge_good pk (Z.to_nat off + nl) S (shift_edge off e) ∧ layer_id (shift_edge off e) = layer_id e + off.
Proof.
  intros Hlt Ho [((W1 & _) & W2 & W3 & W4) (F1 & F2 & F3 & F4 & F5)]. unfold shift_edge.
  assert (E : u32 (layer_id e + off) = layer_id e + off) by (apply wrap_small; unfold word; lia).
  split; [|exact E]. split; [split|split; [|done]]; cbn [layer_id idx ch ew]; rewrite ?E; [unfold word; lia|done|lia].
Qed.

(** The edges of the second operand, in the appended layers. *)
Lemma esum_shift nl Ra Rb off S es j : off + Z.of_nat nl < 2 ^ 32 → 0 ≤ off → length Ra = Z.to_nat off →
  Forall (edge_good pk nl S) es →
  esum pk (λ l, fval (nth l (Ra ++ Rb) []) j) (shift_edge off <$> es) j = esum pk (λ l, fval (nth l Rb []) j) es j.
Proof.
  intros Hlt Ho HR Hes. apply esum_map. eapply Forall_impl; [exact Hes|]. intros e He. split; [done|].
  destruct (shift_edge_good nl off S e Hlt Ho He) as [_ ->]. destruct He as [[[W _] _] _].
  f_equal. rewrite app_nth2 by lia. f_equal. lia.
Qed.

(** The edges of the first. *)
Lemma esum_first Ra Rb S es j : Forall (edge_good pk (length Ra) S) es →
  esum pk (λ l, fval (nth l (Ra ++ Rb) []) j) es j = esum pk (λ l, fval (nth l Ra []) j) es j.
Proof.
  intros Hes. apply esum_ext. eapply Forall_impl; [exact Hes|]. intros e [[[? _] _] [? _]].
  f_equal. by rewrite app_nth1 by lia.
Qed.
End Parts.

(** ** Vector operations, slot by slot *)

Section Slots.
Context (S : nat) (a b : list Fp) (La : length a = S) (Lb : length b = S).

Lemma nth_zip_with (f : Fp → Fp → Fp) j : (j < S)%nat → nth j (zip_with f a b) fp0 = f (nth j a fp0) (nth j b fp0).
Proof.
  intros Hj. destruct (lookup_lt_is_Some_2 a j) as [x Hx]; [lia|]. destruct (lookup_lt_is_Some_2 b j) as [y Hy]; [lia|].
  rewrite !nth_lookup, lookup_zip_with, Hx, Hy. done.
Qed.

Lemma Op_length f : length (zip_with f a b : list Fp) = S.
Proof. rewrite length_zip_with. lia. Qed.

Lemma Op_add_rep j x y : (j < S)%nat → nth j a fp0 ~~ x → nth j b fp0 ~~ y → nth j (Op.add a b) fp0 ~~ x + y.
Proof. intros. unfold Op.add. rewrite nth_zip_with by done. by apply rep_add. Qed.

Lemma Op_sub_rep j x y : (j < S)%nat → nth j a fp0 ~~ x → nth j b fp0 ~~ y → nth j (Op.sub a b) fp0 ~~ x - y.
Proof. intros. unfold Op.sub. rewrite nth_zip_with by done. by apply rep_sub. Qed.

Lemma Op_mul_rep : ∃ c, Op.mul a b = Ok c ∧ length c = S ∧
  ∀ j x y, (j < S)%nat → nth j a fp0 ~~ x → nth j b fp0 ~~ y → nth j c fp0 ~~ x * y.
Proof.
  unfold Op.mul. rewrite La, Lb, Nat.eqb_refl. exists (zip_with fp_mul a b). split; [done|].
  split; [apply Op_length|]. intros. rewrite nth_zip_with by done. by apply rep_mul.
Qed.
End Slots.

Lemma Op_map_rep (f : Fp → Fp) (a : list Fp) j : (j < length a)%nat → nth j (f <$> a) fp0 = f (nth j a fp0).
Proof.
  intros Hj. destruct (lookup_lt_is_Some_2 a j Hj) as [x Hx]. by rewrite !nth_lookup, list_lookup_fmap, Hx.
Qed.

(** A list whose entries all have values is reduced. *)
Lemma slots_ok (l : list Fp) S : length l = S → (∀ j, (j < S)%nat → fp_ok (nth j l fp0)) → Forall fp_ok l.
Proof.
  intros <- H. apply Forall_lookup_2. intros j x Hx. pose proof (lookup_lt_Some _ _ _ Hx) as Hj.
  specialize (H j Hj). by rewrite nth_lookup, Hx in H.
Qed.

Lemma plaintext_ok {F : Fuel} pk sk policy C v : encrypts pk sk policy C v → length v = slots C ∧ Forall fp_ok v.
Proof.
  intros (_ & _ & _ & [Hv (Rinv & _ & Hp)]). split; [done|]. apply (slots_ok _ (slots C)); [done|].
  intros j Hj. eapply rep_ok, Hp, Hj.
Qed.

(** ** [ct_add] *)

Lemma c0_add_spec a b S : Forall fp_ok a → Forall fp_ok b → length a = 0%nat ∨ length a = S → length b = 0%nat ∨ length b = S →
  let c := if (length a =? 0)%nat then b else if (length b =? 0)%nat then a else Op.add a b in
  Forall fp_ok c ∧ (length c = 0%nat ∨ length c = S) ∧ ∀ j, (j < S)%nat → cong P (fval c j) (fval a j + fval b j).
Proof.
  intros Ha Hb La Lb. cbv zeta.
  assert (Z0 : ∀ l j, length l = 0%nat → fval l j = 0) by (by intros [|] [|]).
  destruct (Nat.eqb_spec (length a) 0) as [Ea|Ea].
  { split_and!; [done..|]. intros j _. by rewrite (Z0 a). }
  destruct (Nat.eqb_spec (length b) 0) as [Eb|Eb].
  { split_and!; [done..|]. intros j _. rewrite (Z0 b) by done. by rewrite Z.add_0_r. }
  destruct La as [|La]; [done|]. destruct Lb as [|Lb]; [done|].
  assert (R : ∀ j, (j < S)%nat → nth j (Op.add a b) fp0 ~~ fval a j + fval b j).
  { intros j Hj. apply (Op_add_rep S); [done|done|done|by apply nth_rep|by apply nth_rep]. }
  assert (Ll : length (Op.add a b) = S) by (unfold Op.add; by apply Op_length).
  split_and!; [|by right|intros j Hj; by destruct (R j Hj)].
  apply (slots_ok _ S Ll). intros j Hj. by eapply rep_ok, R.
Qed.

Section Add.
Context {F : Fuel} (pk : PubKey) (sk : SecKey) (policy : DecPolicy) (Hpk : pubkey_wf pk).

(** The two operands side by side, with a constant part that is the sum of theirs. *)
Lemma join_encrypts A B a b c : encrypts pk sk policy A a → encrypts pk sk policy B b → slots A = slots B →
  Z.of_nat (length (L A)) + Z.of_nat (length (L B)) < 2 ^ 32 →
  Forall fp_ok c → length c = 0%nat ∨ length c = slots B → (∀ j, (j < slots B)%nat → cong P (fval c j) (fval (c0 A) j + fval (c0 B) j)) →
  let off := Z.of_nat (length (L A)) in
  encrypts pk sk policy (mkCipher (L A ++ (shift_layer off <$> L B)) (E A ++ (shift_edge off <$> E B)) c (slots A)) (Op.add a b).
Proof.
  intros HA HB HS Hlt C1 C2 C3 off.
  pose proof (proj1 (encrypts_parts _ _ _ _ _) HA) as (K & S0 & A1 & A2 & A3 & A4 & Ra & LA & PA).
  pose proof (proj1 (encrypts_parts _ _ _ _ _) HB) as (_ & _ & B1 & B2 & B3 & B4 & Rb & LB & PB).
  rewrite HS in *. assert (HR : length Ra = length (L A)) by apply LA.
  apply encrypts_parts. cbn [L E c0 slots]. split_and!; try done.
  - rewrite length_app, length_fmap. apply Forall_app. split; [eapply Forall_impl; [exact A3|]; intros e; apply edge_good_weaken; lia|].
    apply Forall_fmap. eapply Forall_impl; [exact B3|]. intros e He.
    destruct (shift_edge_good pk (length (L B)) off (slots B) e) as [G _]; [lia|lia|done|]. unfold off in G. by rewrite Nat2Z.id in G.
  - unfold Op.add. by apply Op_length.
  - exists (Ra ++ Rb). split; [by apply layers_ok_app|]. intros j Hj. eapply rep_cong; [apply (Op_add_rep (slots B)); auto|].
    unfold plain. cbn [c0 E]. rewrite C3 by done. rewrite esum_app.
    rewrite (esum_first pk Ra Rb (slots B)) by (by rewrite HR).
    rewrite (esum_shift pk (length (L B)) Ra Rb off (slots B)) by (done || lia). apply cong_eq. ring.
Qed.

Lemma ct_add_encrypts A B a b : encrypts pk sk policy A a → encrypts pk sk policy B b → slots A = slots B →
  Z.of_nat (length (L A)) + Z.of_nat (length (L B)) < 2 ^ 32 →
  ∃ C, ct_add pk A B = Ok C ∧ encrypts pk sk policy C (Op.add a b) ∧ compacted C.
Proof.
  intros HA HB HS Hlt. unfold ct_add. rewrite HS, Nat.eqb_refl. cbn [negb]. cbv zeta. rewrite (wrap_small 32) by (unfold word; lia).
  pose proof (proj1 (encrypts_parts _ _ _ _ _) HA) as (_ & _ & A1 & A2 & _).
  pose proof (proj1 (encrypts_parts _ _ _ _ _) HB) as (_ & _ & B1 & B2 & _). rewrite HS in A1.
  destruct (c0_add_spec _ _ _ A2 B2 A1 B1) as (C1 & C2 & C3).
  pose proof (join_encrypts _ _ _ _ _ HA HB HS Hlt C1 C2 C3) as HC. cbv zeta in HC. rewrite HS in HC.
  match goal with |- context [guard_budget pk ?X] => set (C := X) in * end.
  destruct (guard_budget_encrypts pk sk policy Hpk C _ HC) as (C' & -> & HC' & _). cbn [mbind res_bind].
  destruct (compact_layers_encrypts pk sk policy C' _ HC') as (C'' & -> & HC'' & _ & _ & _ & Hc & _). by exists C''.
Qed.

(** ** [ct_scale] *)

Lemma gterm_scale e s t j S : Forall fp_ok (ew e) → s ~~ t → length (ew e) = S → (j < S)%nat →
  cong P (gterm pk j (mkEdge (layer_id e) (idx e) (ch e) (Op.mul_fp (ew e) s) (es e))) (gterm pk j e * t).
Proof.
  intros He Hs Hl Hj. unfold gterm. cbn [ew idx ch]. unfold fval at 1, Op.mul_fp. rewrite Op_map_rep by lia.
  pose proof (rep_mul _ _ _ _ (nth_rep (ew e) j He) Hs) as [_ ->]. apply cong_eq. ring.
Qed.

(** Edges whose terms are scaled. *)
Lemma esum_scale ri ri' f t es j :
  Forall (λ e, cong P (gterm pk j (f e)) (gterm pk j e * t) ∧ ri' (Z.to_nat (layer_id (f e))) = ri (Z.to_nat (layer_id e))) es →
  cong P (esum pk ri' (f <$> es) j) (esum pk ri es j * t).
Proof.
  induction 1 as [|e l [H1 H2] _ IH]; [done|]. cbn [fmap list_fmap]. rewrite !esum_cons, H2, IH, H1. apply cong_eq. ring.
Qed.

Lemma scaled_good nl S e s : fp_ok s → edge_good pk nl S e →
  edge_good pk nl S (mkEdge (layer_id e) (idx e) (ch e) (Op.mul_fp (ew e) s) (es e)).
Proof.
  intros Hs [(W1 & W2 & W3 & W4) (F1 & F2 & F3 & F4 & F5)]. split; split_and!; try done; cbn [ew]; unfold Op.mul_fp.
  - apply Forall_fmap. eapply Forall_impl; [exact W4|]. intros x Hx. eapply rep_ok, rep_mul; by apply rep_val.
  - by rewrite length_fmap.
Qed.

Lemma ct_scale_encrypts A a s : fp_ok s → encrypts pk sk policy A a →
  encrypts pk sk policy (ct_scale pk A s) (Op.mul_fp a s).
Proof.
  intros Hs HA. apply encrypts_parts. pose proof (proj1 (encrypts_parts _ _ _ _ _) HA) as (K & S0 & A1 & A2 & A3 & A4 & Ra & LA & PA).
  unfold ct_scale. cbn [L E c0 slots]. unfold Op.mul_fp at 2. rewrite !length_fmap. split_and!; try done.
  - apply Forall_fmap. eapply Forall_impl; [exact A2|]. intros x Hx. eapply rep_ok, rep_mul; by apply rep_val.
  - apply Forall_fmap. eapply Forall_impl; [exact A3|]. intros e. by apply scaled_good.
  - exists Ra. split; [done|]. intros j Hj. unfold Op.mul_fp. rewrite Op_map_rep by lia.
    eapply rep_cong; [by apply rep_mul; [apply PA|apply rep_val]|]. unfold plain. cbn [c0 E].
    rewrite (esum_scale (λ l, fval (nth l Ra []) j) _ _ (val s)).
    + rewrite Z.mul_add_distr_r. apply cong_add; [|done]. symmetry. destruct A1 as [A1|A1].
      * apply length_zero_iff_nil in A1. rewrite A1. by destruct j.
      * unfold fval at 1. rewrite Op_map_rep by lia. by destruct (rep_mul _ _ _ _ (nth_rep (c0 A) j A2) (rep_val s Hs)).
    + eapply Forall_impl; [exact A3|]. intros e [(_ & _ & _ & W) (_ & _ & Hl & _)]. split; [|done].
      by apply (gterm_scale _ _ _ _ (slots A)); [|apply rep_val| |].
Qed.

(** ** [ct_add_const] *)

Lemma ct_add_const_encrypts A a k math : fp_ok k → encrypts pk sk policy A a →
  encrypts pk sk policy (ct_add_const pk A k math)
    (if math || negb (length (c0 A) =? 0)%nat then (λ x, fp_add x k) <$> a else a).
Proof.
  intros Hk HA. apply encrypts_parts. pose proof (proj1 (encrypts_parts _ _ _ _ _) HA) as (K & S0 & A1 & A2 & A3 & A4 & Ra & LA & PA).
  unfold ct_add_const, c0_or_zeros. cbn [L E c0 slots]. rewrite length_fmap.
  destruct (Nat.eqb_spec (length (c0 A)) 0) as [E0|E0]; [destruct math|rewrite andb_false_r, orb_true_r]; cbn [andb orb negb].
  - rewrite length_fmap, length_zeros. split_and!; try done; [by right|apply Forall_fmap, Forall_replicate; eapply rep_ok, rep_add; [apply rep_val, fp0_ok|by apply rep_val]|].
    exists Ra. split; [done|]. intros j Hj. rewrite Op_map_rep by lia. eapply rep_cong; [by apply rep_add; [apply PA|apply rep_val]|].
    unfold plain. cbn [c0 E]. unfold fval at 3. rewrite Op_map_rep by (by rewrite length_zeros). rewrite nth_zeros.
    destruct (rep_add _ _ _ _ (rep_val fp0 fp0_ok) (rep_val k Hk)) as [_ ->].
    apply length_zero_iff_nil in E0. rewrite E0. replace (fval [] j) with (val fp0) by (by destruct j). apply cong_eq. ring.
  - split_and!; try done. { apply length_zero_iff_nil in E0. by rewrite E0. }
    exists Ra. split; [done|]. intros j Hj. apply length_zero_iff_nil in E0. unfold plain. cbn [c0 E].
    specialize (PA j Hj). unfold plain in PA. by rewrite E0 in PA |- *.
  - destruct A1 as [A1|A1]; [done|]. rewrite length_fmap. split_and!; try done; [by right|..].
    { apply Forall_fmap. eapply Forall_impl; [exact A2|]. intros x Hx. eapply rep_ok, rep_add; by apply rep_val. }
    exists Ra. split; [done|]. intros j Hj. rewrite Op_map_rep by lia. eapply rep_cong; [by apply rep_add; [apply PA|apply rep_val]|].
    unfold plain. cbn [c0 E]. unfold fval at 3. rewrite Op_map_rep by lia.
    destruct (rep_add _ _ _ _ (nth_rep (c0 A) j A2) (rep_val k Hk)) as [_ ->]. apply cong_eq. ring.
Qed.
End Add.

(** ** The results as vectors *)

(** Vectors with the same values are equal. *)
Lemma vec_eq S a b (f : nat → Z) : length a = S → length b = S →
  (∀ j, (j < S)%nat → nth j a fp0 ~~ f j) → (∀ j, (j < S)%nat → nth j b fp0 ~~ f j) → a = b.
Proof.
  intros La Lb Ha Hb. apply list_eq_same_length with S; [done|done|]. intros j x y Hj Hx Hy.
  specialize (Ha j Hj). specialize (Hb j Hj). rewrite nth_lookup, Hx in Ha. rewrite nth_lookup, Hy in Hb.
  by eapply rep_inj.
Qed.

Lemma minus_one_rep : fp_neg (fp_from_u64 1) ~~ -1.
Proof. apply (rep_neg _ 1), rep_u64. word_lia. Qed.

Lemma scale_minus_one a : Forall fp_ok a → Op.mul_fp a (fp_neg (fp_from_u64 1)) = Op.neg a.
Proof.
  intros Ha. unfold Op.mul_fp, Op.neg. apply (vec_eq (length a) _ _ (λ j, - fval a j)); [by rewrite length_fmap..| |];
    intros j Hj; rewrite Op_map_rep by done.
  - eapply rep_cong; [apply rep_mul; [by apply nth_rep|apply minus_one_rep]|]. apply cong_eq. ring.
  - by apply rep_neg, nth_rep.
Qed.

Lemma add_neg a b : Forall fp_ok a → Forall fp_ok b → length a = length b → Op.add a (Op.neg b) = Op.sub a b.
Proof.
  intros Ha Hb Hl. assert (Ln : length (Op.neg b) = length a) by (unfold Op.neg; by rewrite length_fmap).
  apply (vec_eq (length a) _ _ (λ j, fval a j - fval b j)); [unfold Op.add; by apply Op_length|unfold Op.sub; by apply Op_length| |]; intros j Hj.
  - rewrite <- Z.add_opp_r. apply (Op_add_rep (length a)); try done; [by apply nth_rep|].
    unfold Op.neg. rewrite Op_map_rep by lia. by apply rep_neg, nth_rep.
  - apply (Op_sub_rep (length a)); try done; by apply nth_rep.
Qed.

(** C5. Addition and subtraction of ciphertexts: operands with different slot
    counts are refused; otherwise both succeed and the result is a ciphertext,
    without unneeded layers, of the slot-wise sum or difference. *)
Theorem ct_add_correct {F : Fuel} pk sk policy A B a b : pubkey_wf pk → keys_ok sk →
  encrypts pk sk policy A a → encrypts pk sk policy B b →
  Z.of_nat (length (L A)) + Z.of_nat (length (L B)) < 2 ^ 32 →
  (slots A ≠ slots B → is_ok (ct_add pk A B) = false ∧ is_ok (ct_sub pk A B) = false) ∧
  (slots A = slots B → ∃ C D, ct_add pk A B = Ok C ∧ ct_sub pk A B = Ok D ∧
    encrypts pk sk policy C (Op.add a b) ∧ compacted C ∧ dec_values pk sk C policy = Ok (Op.add a b) ∧
    encrypts pk sk policy D (Op.sub a b) ∧ compacted D ∧ dec_values pk sk D policy = Ok (Op.sub a b)).
Proof.
  intros Hpk Hk HA HB Hlt. split.
  { intros Hs. unfold ct_sub, ct_add. cbn [slots ct_neg ct_scale]. by rewrite (proj2 (Nat.eqb_neq _ _) Hs). }
  intros Hs. destruct (plaintext_ok _ _ _ _ _ HA) as [La Oa]. destruct (plaintext_ok _ _ _ _ _ HB) as [Lb Ob].
  assert (HN : encrypts pk sk policy (ct_neg pk B) (Op.neg b)).
  { rewrite <- scale_minus_one by done. apply ct_scale_encrypts; [exact (rep_ok _ _ minus_one_rep)|done]. }
  destruct (ct_add_encrypts pk sk policy Hpk A B a b) as (C & EC & HC & KC); [done..|].
  destruct (ct_add_encrypts pk sk policy Hpk A (ct_neg pk B) a (Op.neg b)) as (D & ED & HD & KD); [done..|].
  rewrite add_neg in HD by (done || lia). exists C, D. split_and!; try done; by apply encrypts_dec.
Qed.

Lemma ct_add_correct_witness : ∃ C v, ct_add sample_pk (sample_ct 1 1 5 7) (sample_ct 2 2 3 4) = Ok C ∧
  v = Op.add (sample_dec 1 1 5 7) (sample_dec 2 2 3 4) ∧ dec_values sample_pk sample_sk C NATIVE_LOCAL = Ok v.
Proof.
  destruct (ct_add_correct sample_pk sample_sk NATIVE_LOCAL (sample_ct 1 1 5 7) (sample_ct 2 2 3 4) (sample_dec 1 1 5 7)
    (sample_dec 2 2 3 4)) as [_ H].
  - exact sample_pk_wf.
  - exact sample_keys_ok.
  - exact sample_1.
  - exact sample_2.
  - reflexivity.
  - destruct (H eq_refl) as (C & D & E1 & _ & _ & _ & E2 & _).
    exists C, (Op.add (sample_dec 1 1 5 7) (sample_dec 2 2 3 4)). split; [exact E1|]. split; [reflexivity|exact E2].
Defined.

Lemma mul_inv_cancel k x y : fp_ok k → val k ≠ 0 → x ~~ y → fp_mul (fp_mul x (fp_inv k)) k ~~ y.
Proof.
  intros Hk Hn Hx. pose proof (rep_inv_pow k _ (rep_val k Hk)) as Hi. pose proof (rep_ok _ _ Hi) as Oi.
  eapply rep_cong; [apply rep_mul; [apply rep_mul; [exact Hx|by apply rep_val]|by apply rep_val]|].
  pose proof (rep_mul _ _ _ _ (rep_val k Hk) (rep_val _ Oi)) as HM. rewrite fp_mul_inv in HM by done.
  destruct (fp_from_u64_spec 1 ltac:(word_lia)) as [_ E1]. destruct HM as [_ HM]. rewrite E1 in HM.
  replace (y * val (fp_inv k) * val k) with (y * (val k * val (fp_inv k))) by ring. rewrite <- HM. apply cong_eq. ring.
Qed.

Lemma fp_zero_words k : fp_ok k → lo k .| hi k = 0 ↔ val k = 0.
Proof.
  intros Hk%fp_ok_bounds. rewrite Z.lor_eq_0_iff. unfold val in *. split; [intros [-> ->]; done|]. nia.
Qed.

(** C6. Scaling by a field element, negation, and division by a constant: each
    slot is multiplied, negated or divided; a zero divisor is refused, and
    multiplying a quotient by the divisor gives the dividend back. *)
Theorem ct_scale_correct {F : Fuel} pk sk policy A a k : pubkey_wf pk → keys_ok sk → encrypts pk sk policy A a → fp_ok k →
  dec_values pk sk (ct_scale pk A k) policy = Ok (Op.mul_fp a k) ∧
  dec_values pk sk (ct_neg pk A) policy = Ok (Op.neg a) ∧
  (val k = 0 → is_ok (ct_div_const pk A k) = false) ∧
  (val k ≠ 0 → ∃ D, ct_div_const pk A k = Ok D ∧ dec_values pk sk D policy = Ok (Op.mul_fp a (fp_inv k)) ∧
    dec_values pk sk (ct_scale pk D k) policy = Ok a).
Proof.
  intros Hpk Hk HA Ok_k. destruct (plaintext_ok _ _ _ _ _ HA) as [La Oa].
  assert (Sc : ∀ B b s, fp_ok s → encrypts pk sk policy B b → dec_values pk sk (ct_scale pk B s) policy = Ok (Op.mul_fp b s)).
  { intros B b s Hs HB. by apply encrypts_dec, ct_scale_encrypts. }
  assert (Oi : fp_ok (fp_inv k)) by (eapply rep_ok, rep_inv_pow, rep_val, Ok_k).
  split; [by apply Sc|]. split; [|unfold ct_div_const; split; intros Hn].
  - unfold ct_neg. rewrite <- scale_minus_one by done. apply Sc; [|done]. exact (rep_ok _ _ minus_one_rep).
  - by rewrite (proj2 (fp_zero_words k Ok_k) Hn).
  - rewrite (proj2 (Z.eqb_neq _ 0)) by (by rewrite fp_zero_words). exists (ct_scale pk A (fp_inv k)).
    split; [done|]. split; [by apply Sc|].
    rewrite (Sc _ (Op.mul_fp a (fp_inv k)) k) by (done || by apply ct_scale_encrypts). f_equal. unfold Op.mul_fp.
    apply (vec_eq (length a) _ _ (λ j, fval a j)); [by rewrite !length_fmap|done| |intros j _; by apply nth_rep].
    intros j Hj. rewrite !Op_map_rep by (by rewrite ?length_fmap). by apply mul_inv_cancel; [| |apply nth_rep].
Qed.

Lemma ct_scale_correct_witness : ∃ D, ct_div_const sample_pk (sample_ct 1 1 5 7) (mkFp 3 0) = Ok D ∧
  dec_values sample_pk sample_sk (ct_scale sample_pk D (mkFp 3 0)) NATIVE_LOCAL = Ok (sample_dec 1 1 5 7).
Proof.
  destruct (ct_scale_correct sample_pk sample_sk NATIVE_LOCAL (sample_ct 1 1 5 7) (sample_dec 1 1 5 7) (mkFp 3 0))
    as (_ & _ & _ & H).
  - exact sample_pk_wf.
  - exact sample_keys_ok.
  - exact sample_1.
  - apply (fp_from_u64_spec 3). word_lia.
  - destruct H as (D & E1 & _ & E2); [discriminate|]. exists D. split; [exact E1|exact E2].
Defined.

(** Adding an integer in every slot. *)
Lemma add_const_slots (a : list Fp) k n : Forall fp_ok a → k ~~ n →
  Forall2 (λ y x, y ~~ val x + n) ((λ x, fp_add x k) <$> a) a.
Proof. intros Ha Hk. apply Forall2_fmap_l, Forall_Forall2_diag. eapply Forall_impl; [exact Ha|]. intros x Hx. by apply rep_add; [apply rep_val|]. Qed.

Lemma mul_const_slots (a : list Fp) k n : Forall fp_ok a → k ~~ n →
  Forall2 (λ y x, y ~~ val x * n) (Op.mul_fp a k) a.
Proof. intros Ha Hk. apply Forall2_fmap_l, Forall_Forall2_diag. eapply Forall_impl; [exact Ha|]. intros x Hx. by apply rep_mul; [apply rep_val|]. Qed.

(** C7. Adding, subtracting and multiplying by a signed 64-bit integer [n] does
    so in every slot, modulo [P]; but a ciphertext without constants that is
    not marked [math] keeps its plaintext when a constant is added. *)
Theorem ct_const_correct {F : Fuel} pk sk policy A a n math : pubkey_wf pk → keys_ok sk → encrypts pk sk policy A a →
  - 2 ^ 63 ≤ n < 2 ^ 63 →
  (∃ v, dec_values pk sk (ct_mul_const_i64 pk A n) policy = Ok v ∧ Forall2 (λ y x, y ~~ val x * n) v a) ∧
  (math = true ∨ c0 A ≠ [] →
    (∃ v, dec_values pk sk (ct_add_const_i64 pk A n math) policy = Ok v ∧ Forall2 (λ y x, y ~~ val x + n) v a) ∧
    (∃ v, dec_values pk sk (ct_sub_const_i64 pk A n math) policy = Ok v ∧ Forall2 (λ y x, y ~~ val x - n) v a)) ∧
  (math = false → c0 A = [] → dec_values pk sk (ct_add_const_i64 pk A n math) policy = Ok a ∧
    dec_values pk sk (ct_sub_const_i64 pk A n math) policy = Ok a).
Proof.
  intros Hpk Hk HA Hn. destruct (plaintext_ok _ _ _ _ _ HA) as [_ Oa]. pose proof (rep_from_i64 n Hn) as Rn.
  pose proof (rep_neg _ _ Rn) as Rm.
  assert (AC : ∀ k m, k ~~ m → dec_values pk sk (ct_add_const pk A k math) policy =
    Ok (if math || negb (length (c0 A) =? 0)%nat then (λ x, fp_add x k) <$> a else a)).
  { intros k m Hr. apply encrypts_dec; [done..|]. apply ct_add_const_encrypts; [by eapply rep_ok|done]. }
  unfold ct_mul_const_i64, ct_add_const_i64, ct_sub_const_i64. split_and!.
  - exists (Op.mul_fp a (fp_from_i64 n)). split; [|by apply mul_const_slots].
    by apply encrypts_dec, ct_scale_encrypts; [..|eapply rep_ok|].
  - intros Hm. assert (math || negb (length (c0 A) =? 0)%nat = true) as E.
    { destruct Hm as [->|Hm]; [done|]. destruct (c0 A); [done|]. apply orb_true_r. }
    rewrite (AC _ _ Rn), (AC _ _ Rm), E. split; eexists; (split; [reflexivity|]).
    + by apply add_const_slots.
    + eapply Forall2_impl; [by apply add_const_slots|]. intros y x Hx. exact Hx.
  - intros Hm E0. by rewrite (AC _ _ Rn), (AC _ _ Rm), E0, Hm.
Qed.

Lemma ct_const_correct_witness :
  ∃ v, dec_values sample_pk sample_sk (ct_sub_const_i64 sample_pk (sample_ct 1 1 5 7) 9 false) NATIVE_LOCAL = Ok v ∧
    Forall2 (λ y x, y ~~ val x - 9) v (sample_dec 1 1 5 7).
Proof.
  destruct (ct_const_correct sample_pk sample_sk NATIVE_LOCAL (sample_ct 1 1 5 7) (sample_dec 1 1 5 7) 9 false)
    as (_ & H & _).
  - exact sample_pk_wf.
  - exact sample_keys_ok.
  - exact sample_1.
  - lia.
  - destruct H as [_ H]; [right; discriminate|]. exact H.
Defined.
