(* ===== verification/Post.v ===== *)
(** * Postconditions of drawing computations

    [post T m Q]: from every state of the generator, [m] returns a value that
    satisfies [Q], or throws an exception that satisfies [T], or is still drawing in
    a rejection loop.  One rule per combinator of [Rng.v]; the encryption and
    the products are proved with them, for every generator that satisfies
    [RngLaws]. *)

From S2P Require Import Prelude Primes Field Hash Rng CtSafe Types Matrix Lpn.

Section Post.
Context {G : Type} (T : string → Prop).

Definition post {A} (m : M G A) (Q : A → Prop) : Prop :=
  ∀ g, match m g with Ok (a, _) => Q a | Throw m => T m | OutOfFuel => True end.

#[export] Instance post_proper {A} (m : M G A) : Proper (pointwise_relation A iff ==> iff) (post m).
Proof. intros Q Q' E. unfold post. split; intros H g; specialize (H g); destruct (m g) as [[a ?]| |]; try done; by apply E. Qed.

Lemma post_Ok {A} (m : M G A) Q g a g' : post m Q → m g = Ok (a, g') → Q a.
Proof. intros H E. specialize (H g). by rewrite E in H. Qed.

Lemma post_no_throw {A} (m : M G A) Q g e : post m Q → ¬ T e → m g ≠ Throw e.
Proof. intros H HT E. specialize (H g). by rewrite E in H. Qed.

Lemma post_ret {A} (a : A) (Q : A → Prop) : Q a → post (mret a) Q.
Proof. by intros ? ?. Qed.

Lemma post_mono {A} (m : M G A) (Q Q' : A → Prop) : post m Q → (∀ a, Q a → Q' a) → post m Q'.
Proof. intros H HQ g. specialize (H g). destruct (m g) as [[a ?]| |]; auto. Qed.

Lemma post_bind {A B} (m : M G A) (f : A → M G B) Q Q' : post m Q → (∀ a, Q a → post (f a) Q') → post (m ≫= f) Q'.
Proof.
  intros H HQ g. specialize (H g). unfold mbind, M_bind. destruct (m g) as [[a g']| |]; [by apply HQ|done..].
Qed.

Lemma post_lift {A} (r : res A) (Q : A → Prop) :
  match r with Ok a => Q a | Throw m => T m | OutOfFuel => True end → post (lift r) Q.
Proof. intros H g. unfold lift. by destruct r. Qed.

Lemma post_lift_Ok {A} (a : A) (Q : A → Prop) : Q a → post (lift (Ok a)) Q.
Proof. intros H. by apply post_lift. Qed.

Lemma post_reject_loop {A} n (draw : M G A) p Q : post draw (λ a, p a = true → Q a) → post (reject_loop n draw p) Q.
Proof.
  intros H. induction n as [|n IH]; cbn [reject_loop]; [by intros ?|]. eapply post_bind; [exact H|]. cbn beta.
  intros a Ha. destruct (p a); [by apply post_ret, Ha|done].
Qed.

Lemma post_reject {F : Fuel} {A} (draw : M G A) p (Q : A → Prop) : post draw (λ a, p a = true → Q a) → post (reject draw p) Q.
Proof. apply post_reject_loop. Qed.

Lemma post_replicate {A} n (m : M G A) Q : post m Q → post (replicateM n m) (λ l, length l = n ∧ Forall Q l).
Proof.
  intros H. induction n as [|n IH]; cbn [replicateM]; [apply post_ret; split; [done|constructor]|].
  eapply post_bind; [exact H|]. intros x Hx. eapply post_bind; [exact IH|]. intros l [Hl HQ]. apply post_ret.
  split; [cbn; by rewrite Hl|by constructor].
Qed.

Lemma post_mapM {A B} (f : A → M G B) (Q : A → B → Prop) l : (∀ x, x ∈ l → post (f x) (Q x)) → post (mapM' f l) (λ ys, Forall2 Q l ys).
Proof.
  induction l as [|x l IH]; intros H; cbn [mapM']; [apply post_ret; constructor|].
  eapply post_bind; [apply H; by left|]. intros y Hy. eapply post_bind; [apply IH; intros z Hz; apply H; by right|].
  intros ys Hys. apply post_ret. by constructor.
Qed.
End Post.

(** ** The draws *)

Section Draws.
Context {F : Fuel} {G} `{RngLaws G} (T : string → Prop).

Lemma post_u64 : post T rng_u64 (word 64).
Proof. intros g. destruct (rng_u64_total g) as (x & g' & E). rewrite E. by apply rng_u64_word in E. Qed.

Lemma post_bounded B : 0 < B → post T (rng_bounded B) (λ x, 0 ≤ x < B).
Proof.
  intros HB g. destruct (rng_bounded B g) as [[x g']|e|] eqn:E; [|by apply rng_bounded_no_throw in E|done].
  by apply rng_bounded_range in E.
Qed.

Lemma post_bit : post T rng_bit (λ b, b = SGN_P ∨ b = SGN_M).
Proof.
  eapply post_bind; [apply post_u64|]. intros x _. apply post_ret. rewrite (land_low _ 1 1) by done.
  unfold SGN_P, SGN_M. lia.
Qed.

Lemma post_fp_nonzero : post T rand_fp_nonzero fp_unit.
Proof.
  apply post_reject. eapply post_bind; [apply post_u64|]. intros l Hl. eapply post_bind; [apply post_u64|]. intros h Hh.
  apply post_ret. intros Hn. assert (Hm : word 64 (h .& MASK63)) by (unfold MASK63; rewrite (land_low _ 63) by done; word_lia).
  pose proof (rep_ok _ _ (rep_words _ _ Hl Hm)) as Hok. split; [done|]. by apply fp_nonzero_bool_spec.
Qed.

Lemma post_nonce : post T make_nonce128 (λ n, word 64 (n_lo n) ∧ word 64 (n_hi n)).
Proof.
  eapply post_bind; [apply post_u64|]. intros l Hl. eapply post_bind; [apply post_u64|]. intros h Hh. by apply post_ret.
Qed.
End Draws.

(** ** [prg_choose_k] and [sigma_from_H] *)

Section Sigma.
Context {F : Fuel} (T : string → Prop).

Lemma post_ctr_rnd c : c_capped c = false → ∃ x c', ctr_rnd c = Ok (x, c') ∧ c_capped c' = false.
Proof. intros Hc. unfold ctr_rnd. rewrite Hc. cbn [andb]. cbv zeta. eexists _, _. split; [done|]. by destruct (32 <=? c_idx c). Qed.

(** Without a cap on the draws. *)
Lemma uncapped_bounded m c : c_capped c = false →
  match ctr_bounded m c with Ok (_, c') => c_capped c' = false | Throw _ => False | OutOfFuel => True end.
Proof.
  intros Hc. unfold ctr_bounded. destruct (m <=? 1); [done|]. unfold reject.
  assert (R : ∀ n c, c_capped c = false → match reject_loop n ctr_rnd (λ x, x <=? UINT64_MAX - UINT64_MAX mod m) c with
    Ok (_, c') => c_capped c' = false | Throw _ => False | OutOfFuel => True end).
  { clear. induction n as [|n IH]; intros c Hc; [done|]. cbn [reject_loop]. unfold mbind, M_bind.
    destruct (post_ctr_rnd c Hc) as (x & c' & -> & Hc'). destruct (x <=? _); [done|by apply IH]. }
  specialize (R fuel c Hc). unfold mbind, M_bind. by destruct (reject_loop _ _ _ c) as [[x c']| |].
Qed.

Lemma uncapped_choose n k N used out c e : c_capped c = false → choose_loop n k N used out c ≠ Throw e.
Proof.
  revert used out c. induction n as [|n IH]; intros used out c Hc; cbn [choose_loop]; destruct (_ <? k); try done.
  pose proof (uncapped_bounded N c Hc) as Hb. unfold mbind, M_bind. destruct (ctr_bounded N c) as [[x c']| |]; [|done..].
  destruct (decide _); by apply IH.
Qed.

Lemma choose_k_no_throw k N label words df e : 0 ≤ k ≤ N → df = 0 → prg_choose_k k N label words df ≠ Throw e.
Proof.
  intros Hk ->. unfold prg_choose_k. rewrite (proj2 (Z.ltb_ge k 0)), (proj2 (Z.ltb_ge N 0)), (proj2 (Z.ltb_ge N k)) by lia.
  cbn [orb negb Z.eqb andb]. pose proof (uncapped_choose fuel k N ∅ [] (ctr_init label words 0 k)) as Hc.
  destruct (choose_loop _ _ _ _ _ _) as [[out c']|m|]; [done| |done]. by specialize (Hc m eq_refl).
Qed.

(** The weights fit the matrix. *)
Definition weights_ok (pk : PubKey) : Prop :=
  0 ≤ x_col_wt (prm pk) ≤ n_bits (prm pk) ∧ 0 ≤ err_wt (prm pk) ≤ m_bits (prm pk).

Lemma mixed_weight_range base limit label words : 0 ≤ base ≤ limit → 0 ≤ mixed_weight base limit label words ≤ limit.
Proof. unfold mixed_weight. destruct (Z.ltb_spec base limit); cbn [andb]; [destruct (negb _)|]; lia. Qed.

Lemma foldl_xor_nbits (f : Z → BitVec) l s : nbits (foldl (λ s c, xor_with s (f c)) s l) = nbits s.
Proof. revert s. induction l as [|c l IH]; intros s; [done|]. cbn [foldl]. by rewrite IH. Qed.

Lemma sigma_spec pk zt n i c salt df : weights_ok pk → (df ≠ 0 → ∀ m, T m) →
  match sigma_from_H pk zt n i c salt df with
  | Ok s => nbits s = m_bits (prm pk) | Throw m => T m | OutOfFuel => True end.
Proof.
  intros [Hx He] HT. unfold sigma_from_H. cbv zeta.
  assert (K : ∀ k N label words, 0 ≤ k ≤ N → match prg_choose_k k N label words df with Throw m => T m | _ => True end).
  { intros k N label words Hk. destruct (prg_choose_k k N label words df) as [?|e|] eqn:E; [done| |done].
    destruct (decide (df = 0)) as [Hd|Hd]; [by apply choose_k_no_throw in E|by apply HT]. }
  specialize (K (x_col_wt (prm pk)) (n_bits (prm pk)) Dom.X_SEED [canon_tag pk; zt; n_lo n; n_hi n; i; c; salt] Hx) as K1.
  destruct (prg_choose_k _ _ Dom.X_SEED _ df) as [cols| |]; cbn [mbind res_bind]; [|done..].
  pose proof (mixed_weight_range _ _ "pvac.noise.weight" [canon_tag pk; zt; n_lo n; n_hi n; i; c; salt] He) as Hw.
  specialize (K _ _ Dom.NOISE [canon_tag pk; zt; n_lo n; n_hi n; i; c; salt] Hw) as K2.
  destruct (prg_choose_k _ _ Dom.NOISE _ df) as [noise| |]; cbn [mbind res_bind nbits]; [|done..].
  by rewrite foldl_xor_nbits.
Qed.
End Sigma.
