(* ===== verification/Repack.v ===== *)
(** * Edges with a given sum

    [emit_repack_edges] of [ops/arithmetic.hpp]: whatever is drawn, the edges it
    returns are fit for the layer, lie on distinct powers and sum to the target.
    The last weight is divided by a power of the basis; that the table of powers
    holds the inverses too is what [pubkey_powers_ok] checks. *)

From S2P Require Import Prelude Primes Field Hash Rng CtSafe Types Matrix Lpn Decrypt Reduce Compact Sample Coeffs Arithmetic Linear Post.

#[local] Opaque fp_inv fp_mul fp_add fp_sub fp_neg.

(** ** The table of powers *)

Lemma powers_loop_spec ratio r powers e k e' : ratio ~~ r → e ~~ r ^ k → 0 ≤ k → Forall fp_ok powers →
  powers_loop ratio e powers = Some e' →
  (∀ j, (j < length powers)%nat → fval powers j = val (nth j powers fp0) ∧ nth j powers fp0 ~~ r ^ (k + 1 + Z.of_nat j)) ∧
  e' ~~ r ^ (k + Z.of_nat (length powers)).
Proof.
  intros Hr He Hk Hp. revert e k He Hk. induction Hp as [|p powers Hp _ IH]; intros e k He Hk; cbn [powers_loop].
  - intros [= <-]. split; [cbn; lia|]. cbn. by rewrite Z.add_0_r.
  - destruct (negb (lo p =? lo (fp_mul e ratio)) || negb (hi p =? hi (fp_mul e ratio))) eqn:Eq; [done|].
    apply orb_false_iff in Eq as [E1%negb_false_iff%Z.eqb_eq E2%negb_false_iff%Z.eqb_eq].
    assert (Ep : p = fp_mul e ratio) by (destruct p, (fp_mul e ratio); cbn in *; congruence).
    assert (Hm : fp_mul e ratio ~~ r ^ (k + 1)).
    { eapply rep_cong; [by apply rep_mul|]. rewrite Z.pow_add_r by lia. by rewrite Z.pow_1_r. }
    intros [H1 H2]%(IH _ (k + 1) Hm ltac:(lia)). split.
    + intros [|j] Hj; split; try done; cbn [nth].
      * rewrite Ep. by rewrite Z.add_0_r.
      * destruct (H1 j) as [_ Hv]; [cbn in Hj; lia|]. replace (k + 1 + Z.of_nat (S j)) with (k + 1 + 1 + Z.of_nat j) by lia. done.
    + cbn [length]. replace (k + Z.of_nat (S (length powers))) with (k + 1 + Z.of_nat (length powers)) by lia. done.
Qed.

(** [powg_B] is [1, g, g^2, ...] for a [g] with [g^B = 1]. *)
Lemma pubkey_powers_spec pk : Forall fp_ok (powg_B pk) → pubkey_powers_ok pk = true →
  Z.of_nat (length (powg_B pk)) = p_B (prm pk) ∧ 3 ≤ p_B (prm pk) ∧
  ∃ g, (∀ i, (i < length (powg_B pk))%nat → cong P (fval (powg_B pk) i) (g ^ Z.of_nat i)) ∧ cong P (g ^ p_B (prm pk)) 1.
Proof.
  intros Hg. unfold pubkey_powers_ok. cbv zeta. destruct (Z.ltb_spec (p_B (prm pk)) 3) as [|HB]; [done|].
  destruct (Z.eqb_spec (Z.of_nat (length (powg_B pk))) (p_B (prm pk))) as [Hl|]; [cbn [negb orb]|done].
  destruct (powg_B pk) as [|p0 [|p1 ps]]; [cbn in Hl; lia|cbn in Hl; lia|]. cbn [nth drop].
  destruct (negb (lo p0 =? 1) || negb (hi p0 =? 0)) eqn:E0; [done|].
  apply orb_false_iff in E0 as [E0%negb_false_iff%Z.eqb_eq E0'%negb_false_iff%Z.eqb_eq].
  destruct (_ || _ || _); [done|]. rewrite drop_0. destruct (powers_loop p1 p1 ps) as [e|] eqn:Ep; [|done].
  intros [Ec Ec']%andb_true_iff. apply Z.eqb_eq in Ec, Ec'.
  apply Forall_cons in Hg as [G0 Hg]. apply Forall_cons in Hg as [G1 Hg].
  assert (R1 : p1 ~~ val p1 ^ 1) by (rewrite Z.pow_1_r; by apply rep_val).
  destruct (powers_loop_spec p1 (val p1) ps p1 1 e (rep_val _ G1) R1 ltac:(lia) Hg Ep) as [Hps He].
  split; [done|]. split; [done|]. exists (val p1). split.
  - intros [|[|i]] Hi; unfold fval; cbn [nth].
    + apply cong_eq. unfold val. by rewrite E0, E0'.
    + by rewrite Z.pow_1_r.
    + cbn in Hi. destruct (Hps i) as [_ [_ Hv]]; [lia|]. rewrite Hv. apply cong_eq. f_equal. lia.
  - pose proof (rep_mul _ _ _ _ He (rep_val _ G1)) as [_ Hc]. unfold val at 1 in Hc. rewrite Ec, Ec' in Hc.
    rewrite <- Hl. cbn [length]. replace (Z.of_nat (S (S (length ps)))) with (Z.succ (1 + Z.of_nat (length ps))) by lia.
    rewrite Z.pow_succ_r, Z.mul_comm by lia. symmetry. exact Hc.
Qed.

(** The power that [emit_repack_edges] divides by. *)
Lemma powers_inverse pk i : Forall fp_ok (powg_B pk) → pubkey_powers_ok pk = true → 0 ≤ i < p_B (prm pk) →
  cong P (fval (powg_B pk) (Z.to_nat i) * fval (powg_B pk) (Z.to_nat (Z.rem (p_B (prm pk) - i) (p_B (prm pk))))) 1.
Proof.
  intros Hg Hp Hi. destruct (pubkey_powers_spec pk Hg Hp) as (Hl & HB & g & Hpow & H1).
  destruct (decide (i = 0)) as [->|Hn].
  - rewrite Z.sub_0_r, Z.rem_same by lia. rewrite !Hpow by lia. done.
  - rewrite Z.rem_small by lia. rewrite !Hpow, !Z2Nat.id by lia. rewrite <- Z.pow_add_r by lia.
    replace (i + (p_B (prm pk) - i)) with (p_B (prm pk)) by lia. done.
Qed.

(** ** Sampling positions *)

Section Repack.
Context {F : Fuel} {G} `{RngLaws G} (T : string → Prop).

Definition positions_ok (B : Z) (l : list Z) : Prop := NoDup l ∧ Forall (λ x, 0 ≤ x < B ∧ word 16 x) l.

Lemma post_sample_loop n B dst : 0 < B → positions_ok B dst →
  post T (sample_loop n B dst) (λ l, length l = (length dst + n)%nat ∧ positions_ok B l).
Proof.
  intros HB. revert dst. induction n as [|n IH]; intros dst Hd; cbn [sample_loop]; [apply post_ret; split; [lia|done]|].
  eapply post_bind.
  - apply (post_reject T _ _ (λ x, (0 ≤ x < B ∧ word 16 x) ∧ x ∉ dst)). eapply post_bind; [by apply post_bounded|]. intros r Hr.
    apply post_ret. intros Hn%negb_true_iff. cbn beta in Hr. assert (0 ≤ u16 r ≤ r) by (unfold wrap; pow_consts; lia).
    split; [split; [lia|by apply wrap_word]|]. intros Hin%list_elem_of_In.
    apply not_true_iff_false in Hn. apply Hn, existsb_exists. exists (u16 r). split; [done|]. apply Z.eqb_refl.
  - intros x [Hx Hn]. eapply post_mono; [apply IH|].
    + destruct Hd as [Hd Hf]. split; [|by apply Forall_app; split; [|by apply Forall_singleton]].
      apply NoDup_app. split; [done|]. split; [|apply NoDup_singleton]. by intros y Hy ->%list_elem_of_singleton.
    + intros l [Hl Hp]. split; [|done]. rewrite Hl, length_app. cbn. lia.
Qed.

Lemma post_sample n B : (0 < n)%nat → Z.of_nat n ≤ B → Z.of_nat n ≤ 65536 →
  post T (sample_unique_indices n B) (λ l, length l = n ∧ positions_ok B l).
Proof.
  intros Hn HB Hn16. unfold sample_unique_indices, check_index_count, index_count_ok.
  rewrite (proj2 (Z.ltb_lt 0 B)), (proj2 (Z.leb_le _ B)), (proj2 (Z.leb_le _ (1 + 65535))), orb_true_r by lia.
  eapply post_bind; [by apply (post_lift_Ok T tt (λ _, True))|]. intros _ _. apply post_sample_loop; [lia|].
  split; constructor.
Qed.
End Repack.

(** ** The edges *)

(** The sum of the terms of [ed] in slot [j]. *)
Definition tsum (pk : PubKey) (ed : list Edge) (j : nat) : Z := esum pk (λ _, 1) ed j.

Lemma tsum_app pk ed ed' j : tsum pk (ed ++ ed') j = tsum pk ed j + tsum pk ed' j.
Proof. apply esum_app. Qed.

Lemma tsum_cons pk e ed j : tsum pk (e :: ed) j = gterm pk j e + tsum pk ed j.
Proof. unfold tsum. rewrite esum_cons. lia. Qed.

(** Edges of one layer. *)
Lemma esum_one_layer pk ri ed lid j : Forall (λ e, layer_id e = lid) ed → esum pk ri ed j = tsum pk ed j * ri (Z.to_nat lid).
Proof.
  induction 1 as [|e ed He _ IH]; [done|]. rewrite tsum_cons, esum_cons, IH, He. ring.
Qed.

Section Edges.
Context {F : Fuel} {G} `{RngLaws G} (T : string → Prop).
Context (pk : PubKey) (Hpk : pubkey_wf pk) (Hpow : pubkey_powers_ok pk = true) (Hw : weights_ok pk).
Context (df : Z) (Hdf : df ≠ 0 → ∀ m, T m) (lay : Layer) (lid : Z) (Hlid : 0 ≤ lid ∧ lid + 1 < 2 ^ 32) (n : nat).

(** An edge of the new layer. *)
Definition new_edge (e : Edge) : Prop := edge_good pk (Z.to_nat lid + 1) n e ∧ layer_id e = lid.

Definition spec_ok (s : Z * Z) : Prop := (0 ≤ s.1 < p_B (prm pk) ∧ word 16 s.1) ∧ (s.2 = SGN_P ∨ s.2 = SGN_M).

Lemma post_edge s w : spec_ok s → Forall fp_ok w → length w = n →
  post T (make_repack_edge pk lay lid s.1 s.2 w df) (λ e, new_edge e ∧ idx e = s.1 ∧ ch e = s.2 ∧ ew e = w).
Proof.
  intros [[Hi Hi16] Hc] Hwk Hl. unfold make_repack_edge. eapply post_bind; [apply post_u64|]. intros salt _.
  eapply (post_bind T _ _ (λ s, nbits s = m_bits (prm pk))).
  - apply post_lift. by apply sigma_spec.
  - intros sg Hs. apply post_ret. split; [|done]. destruct (pubkey_powers_spec pk (proj1 Hpk) Hpow) as (HB & _).
    split; [|done]. split; split_and!; cbn [layer_id idx ch ew es]; try done; unfold word; try lia.
    destruct Hc as [-> | ->]; unfold SGN_P, SGN_M; lia.
Qed.

Lemma gterm_of e i w j x : idx e = i → ew e = w → nth j w fp0 ~~ x → gterm pk j e = sgn_val (ch e) * (fval w j * fval (powg_B pk) (Z.to_nat i)).
Proof. by intros <- <- _. Qed.

(** A weighted power, and the running sum. *)
Definition vec_ok (v : list Fp) : Prop := length v = n ∧ Forall fp_ok v.

Lemma vec_ok_of v (f : nat → Z) : length v = n → (∀ j, (j < n)%nat → nth j v fp0 ~~ f j) → vec_ok v.
Proof. intros Hl Hf. split; [done|]. apply (slots_ok _ n); [done|]. intros j Hj. by eapply rep_ok, Hf. Qed.

Lemma mul_fp_rep v x j y : vec_ok v → x ~~ y → (j < n)%nat → nth j (Op.mul_fp v x) fp0 ~~ fval v j * y.
Proof. intros [Hl Hv] Hx Hj. unfold Op.mul_fp. rewrite Op_map_rep by lia. by apply rep_mul; [apply nth_rep|]. Qed.

Lemma running_sum sum w s : vec_ok sum → vec_ok w → spec_ok s →
  let t := Op.mul_fp w (nth (Z.to_nat s.1) (powg_B pk) fp0) in
  let sum' := if s.2 =? SGN_P then Op.add sum t else Op.sub sum t in
  vec_ok sum' ∧ ∀ j, (j < n)%nat →
    nth j sum' fp0 ~~ fval sum j + sgn_val s.2 * (fval w j * fval (powg_B pk) (Z.to_nat s.1)).
Proof.
  intros Hs Hwv [_ Hc]. cbv zeta. set (t := Op.mul_fp _ _).
  assert (Ht : ∀ j, (j < n)%nat → nth j t fp0 ~~ fval w j * fval (powg_B pk) (Z.to_nat s.1)).
  { intros j Hj. apply mul_fp_rep; [done| |done]. apply nth_rep, Hpk. }
  assert (Lt : length t = n) by (unfold t, Op.mul_fp; by rewrite length_fmap; apply Hwv).
  set (sum' := if s.2 =? SGN_P then _ else _).
  assert (R : ∀ j, (j < n)%nat → nth j sum' fp0 ~~ fval sum j + sgn_val s.2 * (fval w j * fval (powg_B pk) (Z.to_nat s.1))).
  { intros j Hj. destruct Hs as [Ls Fs]. unfold sum', sgn_val. destruct (s.2 =? SGN_P).
    - rewrite Z.mul_1_l. apply (Op_add_rep n); try done; [by apply nth_rep|by apply Ht].
    - eapply rep_cong; [apply (Op_sub_rep n); try done; [by apply nth_rep|by apply Ht]|]. apply cong_eq. ring. }
  split; [|exact R]. eapply vec_ok_of; [|exact R]. destruct Hs as [Ls _].
  unfold sum', Op.add, Op.sub. destruct (s.2 =? SGN_P); by apply Op_length.
Qed.

Definition nonzero_edge (e : Edge) : Prop := merge_nz (ew e) (es e) = true.

Lemma unit_edge e : (0 < n)%nat → Forall fp_unit (ew e) → length (ew e) = n → nonzero_edge e.
Proof.
  intros Hn Hu Hl. unfold nonzero_edge, merge_nz. destruct (ew e) as [|x w]; [cbn in Hl; lia|].
  apply Forall_cons in Hu as [[Hx Hx0] _]. cbn [existsb]. rewrite ct_lemmas.fp_is_nonzero_spec by apply Hx.
  by rewrite (proj2 (Z.eqb_neq _ _) Hx0).
Qed.

(** All the edges but the last. *)
Lemma post_repack_random specs sum : Forall spec_ok specs → vec_ok sum → (0 < n)%nat →
  post T (repack_random pk lay lid n df specs sum) (λ '(sum', ed),
    vec_ok sum' ∧ Forall new_edge ed ∧ Forall nonzero_edge ed ∧ idx <$> ed = fst <$> specs ∧
    ∀ j, (j < n)%nat → cong P (fval sum' j) (fval sum j + tsum pk ed j)).
Proof.
  intros Hs Hsum Hn. revert sum Hsum. induction Hs as [|[i c] specs Hs _ IH]; intros sum Hsum; cbn [repack_random].
  - apply post_ret. split; [done|]. split_and!; [constructor..|done|]. intros j _. unfold tsum. cbn. by rewrite Z.add_0_r.
  - eapply post_bind; [apply post_replicate, post_fp_nonzero|]. intros w [Lw Uw].
    assert (Hwv : vec_ok w) by (split; [done|]; eapply Forall_impl; [exact Uw|]; by intros x [? _]).
    destruct (running_sum sum w (i, c) Hsum Hwv Hs) as [Hv R]. cbn [fst snd] in *. cbv zeta.
    set (sum1 := if c =? SGN_P then _ else _) in *.
    eapply post_bind; [by apply (post_edge (i, c)); [|apply Hwv|]|]. cbn [fst snd]. intros e (He & Ei & Ec & Ew).
    eapply post_bind; [by apply IH|]. intros [sum' ed] (V & N & Z1 & I & C). apply post_ret. split_and!.
    + done.
    + by constructor.
    + constructor; [|done]. apply unit_edge; by rewrite ?Ew.
    + cbn [fmap list_fmap fst]. by rewrite Ei, <- I.
    + intros j Hj. rewrite (C j Hj), tsum_cons. destruct (R j Hj) as [_ ->]. unfold gterm. rewrite Ei, Ec, Ew.
      apply cong_eq. ring.
Qed.

(** The last edge makes up the difference. *)
Lemma last_weight s diff : spec_ok s → vec_ok diff →
  let ginv := nth (Z.to_nat (Z.rem (p_B (prm pk) - s.1) (p_B (prm pk)))) (powg_B pk) fp0 in
  let w := Op.mul_fp (if s.2 =? SGN_M then Op.neg diff else diff) ginv in
  vec_ok w ∧ ∀ j, (j < n)%nat → cong P (sgn_val s.2 * (fval w j * fval (powg_B pk) (Z.to_nat s.1))) (fval diff j).
Proof.
  intros [[Hi _] Hc] Hd. cbv zeta. set (k := Z.to_nat (Z.rem _ _)). set (d := if s.2 =? SGN_M then _ else _).
  assert (Hd' : vec_ok d ∧ ∀ j, (j < n)%nat → cong P (fval d j) (sgn_val s.2 * fval diff j)).
  { unfold d, sgn_val. destruct Hc as [-> | ->].
    - change (SGN_P =? SGN_M) with false. change (SGN_P =? SGN_P) with true. cbv iota.
      split; [done|]. intros j _. by rewrite Z.mul_1_l.
    - change (SGN_M =? SGN_M) with true. change (SGN_M =? SGN_P) with false. cbv iota.
      assert (R : ∀ j, (j < n)%nat → nth j (Op.neg diff) fp0 ~~ - fval diff j).
      { intros j Hj. unfold Op.neg. rewrite Op_map_rep by (destruct Hd; lia). apply rep_neg, nth_rep, Hd. }
      split; [eapply vec_ok_of; [|exact R]; unfold Op.neg; rewrite length_fmap; apply Hd|].
      intros j Hj. destruct (R j Hj) as [_ E]. unfold fval at 1. rewrite E. apply cong_eq. ring. }
  destruct Hd' as [Vd Cd].
  assert (R : ∀ j, (j < n)%nat → nth j (Op.mul_fp d (nth k (powg_B pk) fp0)) fp0 ~~ fval d j * fval (powg_B pk) k).
  { intros j Hj. apply mul_fp_rep; [done| |done]. apply nth_rep, Hpk. }
  split.
  - eapply vec_ok_of; [|exact R]. unfold Op.mul_fp. rewrite length_fmap. apply Vd.
  - intros j Hj. destruct (R j Hj) as [_ E]. unfold fval at 1. rewrite E, (Cd j Hj).
    pose proof (powers_inverse pk s.1 (proj1 Hpk) Hpow Hi) as HI. fold k in HI.
    transitivity (sgn_val s.2 * sgn_val s.2 * fval diff j * (fval (powg_B pk) (Z.to_nat s.1) * fval (powg_B pk) k));
      [apply cong_eq; ring|]. rewrite HI. apply cong_eq. destruct (sgn_val_pm s.2) as [-> | ->]; ring.
Qed.

(** The result of [emit_repack_edges]. *)
Definition repacked (s : nat) (target : list Fp) (ed : list Edge) : Prop :=
  Forall new_edge ed ∧ length ed = s ∧ NoDup (idx <$> ed) ∧ ((2 ≤ s)%nat → Exists nonzero_edge ed) ∧
  ∀ j, (j < n)%nat → cong P (tsum pk ed j) (fval target j).

Lemma post_specs idxs : positions_ok (p_B (prm pk)) idxs →
  post T (mapM' (λ i, b ← rng_bit; mret (i, b)) idxs) (λ specs, Forall spec_ok specs ∧ fst <$> specs = idxs).
Proof.
  intros [_ Hf]. eapply post_mono; [apply (post_mapM T _ (λ i s, s.1 = i ∧ (s.2 = SGN_P ∨ s.2 = SGN_M)))|].
  - intros i _. eapply post_bind; [apply post_bit|]. intros b Hb. by apply post_ret.
  - intros specs H2. cbn beta. revert Hf. induction H2 as [|i s idxs specs [Hs Hb] _ IH]; intros Hf; [by split|].
    apply Forall_cons in Hf as [Hi Hf]. destruct (IH Hf) as [I1 I2]. split; [constructor; [|done]|cbn; by rewrite Hs, I2].
    split; [by rewrite Hs|done].
Qed.

Lemma post_emit target s : (0 < s)%nat → Z.of_nat s ≤ p_B (prm pk) → Z.of_nat s ≤ 65536 → vec_ok target → (0 < n)%nat →
  post T (emit_repack_edges pk lid lay target s df) (repacked s target).
Proof.
  intros Hs HsB Hs16 Ht Hn. unfold emit_repack_edges. rewrite (proj2 (Nat.eqb_neq s 0)) by lia. cbv zeta.
  rewrite (proj1 Ht). eapply post_bind; [by apply post_sample|]. intros idxs [Li Pi].
  eapply post_bind; [by apply post_specs|]. intros specs [Sp Si].
  assert (Ls : length specs = s) by (rewrite <- Li, <- Si; by rewrite length_fmap).
  assert (Hne : specs ≠ []) by (intros ->; cbn in Ls; lia).
  pose proof (app_removelast_last (0, 0) Hne) as Hsplit. set (front := removelast specs) in *. set (s_last := List.last specs (0, 0)) in *.
  rewrite Hsplit in Sp. apply Forall_app in Sp as [Sf Sl%Forall_inv].
  assert (Vz : vec_ok (Op.zeros n)) by (split; [apply length_zeros|apply Forall_replicate, fp0_ok]).
  eapply post_bind; [by apply post_repack_random|]. intros [sum ed] (Vs & Ne & Nz & Ie & Cs).
  assert (Rd : ∀ j, (j < n)%nat → nth j (Op.sub target sum) fp0 ~~ fval target j - fval sum j).
  { intros j Hj. apply (Op_sub_rep n); try done; [apply Ht|apply Vs|apply nth_rep, Ht|apply nth_rep, Vs]. }
  assert (Vd : vec_ok (Op.sub target sum)).
  { eapply vec_ok_of; [|exact Rd]. unfold Op.sub. apply Op_length; [apply Ht|apply Vs]. }
  destruct (last_weight s_last _ Sl Vd) as [Vw Cw]. cbv zeta in Vw, Cw. destruct s_last as [li lc]. cbn [fst snd] in *.
  set (w := Op.mul_fp _ _) in *.
  eapply post_bind; [by apply (post_edge (li, lc)); [|apply Vw|apply Vw]|]. cbn [fst snd]. intros e (He & Ei & Ec & Ew). apply post_ret.
  assert (Il : idx <$> (ed ++ [e]) = idxs) by (rewrite fmap_app, Ie; cbn; by rewrite Ei, <- Si, Hsplit, fmap_app).
  split_and!.
  - apply Forall_app. split; [done|by apply Forall_singleton].
  - rewrite <- (length_fmap idx), Il. done.
  - rewrite Il. apply Pi.
  - intros H2. apply Exists_app. left. destruct ed as [|e0 ed]; [|constructor; by apply Forall_cons in Nz as [? _]].
    exfalso. rewrite <- Il in Li. cbn in Li. lia.
  - intros j Hj. rewrite tsum_app, tsum_cons. unfold gterm. rewrite Ei, Ec, Ew, (Cw j Hj).
    destruct (Rd j Hj) as [_ E]. unfold fval at 1. rewrite E, (Cs j Hj). unfold fval at 2. rewrite nth_zeros.
    change (val fp0) with 0. change (tsum pk [] j) with 0. apply cong_eq. ring.
Qed.
End Edges.
