(* ===== verification/Product.v ===== *)
(** * Products of ciphertexts

    [build_product_cipher], [ct_mul] and [ct_square] of [ops/arithmetic.hpp].
    Every pair of layers gets a product layer, whose mask is the product of the
    two masks and whose edges sum to the product of the two coefficients; the
    constants are multiplied in at the end.  The statements hold for every run of
    every generator. *)

From S2P Require Import Prelude Primes Field Hash Rng CtSafe Types Matrix Lpn Decrypt Reduce Compact Sample Coeffs Arithmetic Linear Post Repack.

#[local] Opaque fp_inv fp_mul fp_add fp_sub fp_neg.

(** ** Merging edges at distinct positions *)

Lemma merge_runs_keeps S a l e : NoDup (position <$> a :: l) → e ∈ a :: l → nonzero_edge e → e ∈ merge_runs S a l.
Proof.
  intros Hnd He Hz. revert a Hnd He. induction l as [|b l IH]; intros a Hnd He; cbn [merge_runs].
  - apply list_elem_of_singleton in He as ->. unfold emit_nz. rewrite Hz. by apply list_elem_of_singleton.
  - rewrite fmap_cons in Hnd. apply NoDup_cons in Hnd as [Ha Hnd].
    rewrite bool_decide_false by (intros E; apply Ha; rewrite E; by left).
    unfold emit_nz. apply elem_of_cons in He as [->|He].
    + rewrite Hz. by left.
    + destruct (merge_nz _ _); [right|]; by apply IH.
Qed.

Lemma guard_budget_keeps pk C C' e : guard_budget pk C = Ok C' → NoDup (position <$> E C) → e ∈ E C → nonzero_edge e → e ∈ E C'.
Proof.
  unfold guard_budget. destruct (_ <? _); [|by intros [= <-]]. unfold compact_edges.
  intros (out & Hm & E)%res_bind_Ok. apply Ok_inj in E as <-. cbn [E]. intros Hnd He Hz.
  unfold merge in Hm. destruct (Types.E C) as [|e0 l] eqn:EC; [by apply not_elem_of_nil in He|]. rewrite <- EC in *.
  cbv zeta in Hm. destruct (_ <=? 0); [done|]. destruct (_ =? 0)%nat; [done|].
  apply res_bind_Ok in Hm as (m & _ & Hm). destruct (_ <? _); [done|].
  pose proof (stable_sort_perm (Types.E C)) as Hp. destruct (stable_sort (Types.E C)) as [|a l'] eqn:Es.
  { rewrite <- Hp in He. by apply not_elem_of_nil in He. }
  apply Ok_inj in Hm as <-. apply merge_runs_keeps; [by rewrite Hp|by rewrite Hp|done].
Qed.

Lemma guard_budget_small pk C : Z.of_nat (length (E C)) ≤ edge_budget (prm pk) → guard_budget pk C = Ok C.
Proof. intros Hl. unfold guard_budget. by rewrite (proj2 (Z.ltb_ge _ _)). Qed.

(** ** One more layer *)

Section Product.
Context {F : Fuel} (pk : PubKey) (sk : SecKey) (policy : DecPolicy) (Hpk : pubkey_wf pk) (Hk : keys_ok sk) (S : nat).

Abbreviation layers_ok := (layers_ok pk sk policy S).
Abbreviation ri Rinv j := (λ l, fval (nth l Rinv []) j).

Lemma mask_inv_rep R j x : (j < S)%nat → nth j R fp0 ~~ x → cong P (fval (mask_inv S R) j) (x ^ (P - 2)).
Proof. intros Hj Hx. unfold fval, mask_inv. rewrite nth_tabulate by done. by destruct (rep_inv_pow _ _ Hx). Qed.

Lemma layers_ok_snoc ls Rinv l : layers_ok ls Rinv → Z.of_nat (length ls) + 1 < 2 ^ 32 →
  rule l = PROD → PC l = [] → R_PC l = [] → 0 ≤ pa l < Z.of_nat (length ls) → 0 ≤ pb l < Z.of_nat (length ls) →
  ∃ r, layers_ok (ls ++ [l]) (Rinv ++ [r]) ∧
    ∀ j, (j < S)%nat → cong P (fval r j) (ri Rinv j (Z.to_nat (pa l)) * ri Rinv j (Z.to_nat (pb l))).
Proof.
  intros (A1 & A2 & A3 & A4 & [A5 A6]) Hlt Hr Hc Hrc Ha Hb.
  destruct (A6 (Z.to_nat (pa l))) as (Ra & Ma & Ea); [lia|]. destruct (A6 (Z.to_nat (pb l))) as (Rb & Mb & Eb); [lia|].
  destruct (Mask_ok _ _ _ _ _ _ _ Hk Ma) as [La Fa]. destruct (Mask_ok _ _ _ _ _ _ _ Hk Mb) as [Lb Fb].
  destruct (Op_mul_rep S Ra Rb La Lb) as (R & ER & LR & RR). exists (mask_inv S R). split.
  - split_and!.
    + apply Forall_app. split; [done|]. apply Forall_singleton. unfold word. lia.
    + rewrite length_app. cbn. lia.
    + apply layers_shape_iff. intros i l' Hi. apply lookup_app_Some in Hi as [Hi|[Hge Hi]]; [by apply (proj1 (layers_shape_iff _ _) A3)|].
      destruct (i - length ls)%nat as [|k] eqn:Ek; [|by destruct k]. injection Hi as <-.
      unfold layer_shape_ok. rewrite Hr, Hc, Hrc. cbn [length]. rewrite (proj2 (Z.leb_gt _ _)), (proj2 (Z.leb_gt _ _)) by lia. done.
    + destruct A4 as [A4|A4]; [by left|right]. rewrite existsb_app, A4. cbn. by rewrite Hr.
    + split; [rewrite !length_app, A5; done|]. intros i. rewrite length_app. cbn [length]. intros Hi.
      destruct (decide (i < length ls)%nat) as [Hlt'|Hge].
      * destruct (A6 i Hlt') as (R' & M' & E'). exists R'. split; [by apply dag_weaken_l|]. by rewrite lookup_app_l by lia.
      * exists R. replace i with (length ls) by lia. split; [|by apply list_lookup_middle].
        apply (Mask_prod _ _ _ _ _ _ l Ra Rb); [by apply list_lookup_middle|by rewrite Hr|by apply dag_weaken_l..|done].
  - intros j Hj. assert (Ra' : nth j Ra fp0 ~~ fval Ra j) by by apply nth_rep. assert (Rb' : nth j Rb fp0 ~~ fval Rb j) by by apply nth_rep.
    rewrite (mask_inv_rep R j _ Hj (RR _ _ _ Hj Ra' Rb')), Z.pow_mul_l.
    rewrite !(nth_lookup Rinv), Ea, Eb. cbn [default from_option id].
    by rewrite (mask_inv_rep Ra j _ Hj Ra'), (mask_inv_rep Rb j _ Hj Rb').
Qed.

(** Layers with masks and good edges are a ciphertext of something. *)
Lemma plain_exists ls Rinv ed c : is_valid_pubkey_shape pk = true → S ≠ 0%nat → layers_ok ls Rinv →
  Forall (edge_good pk (length ls) S) ed → Forall fp_ok c → length c = S →
  ∃ v, encrypts pk sk policy (mkCipher ls ed c S) v.
Proof.
  intros K S0 HL He Hc Lc. exists (foldl (dec_step pk S Rinv) c ed). apply encrypts_parts. cbn [L E c0 slots]. split_and!; try done.
  - by right.
  - by apply dec_fold_length.
  - exists Rinv. split; [done|]. intros j Hj. unfold plain. cbn [c0 E]. apply dec_fold_rep; try done.
    + apply Hpk.
    + eapply masks_ok_reduced; [done|]. apply HL.
    + eapply Forall_impl; [exact He|]. by intros e [? _].
    + by apply nth_rep.
Qed.

(** ** The product layers *)

Context {G} `{RngLaws G} (T : string → Prop) (Hpow : pubkey_powers_ok pk = true) (Hw : weights_ok pk) (df : Z) (Hdf : df ≠ 0 → ∀ m, T m).
Context (s : nat) (Hs : (0 < s)%nat) (HsB : Z.of_nat s ≤ p_B (prm pk)) (Hs16 : Z.of_nat s ≤ 65536) (HS : (0 < S)%nat).

Lemma post_prod_layer pa0 pb0 ra rb : post T (make_prod_layer pk pa0 pb0 ra rb) (λ l,
  rule l = PROD ∧ PC l = [] ∧ R_PC l = [] ∧ (pa l = pa0 ∧ pb l = pb0 ∨ pa l = pb0 ∧ pb l = pa0)).
Proof.
  unfold make_prod_layer. eapply post_bind; [apply post_nonce|]. intros n _. apply post_ret. cbn [rule PC R_PC pa pb].
  split_and!; [done..|]. destruct (pa0 <? pb0); auto.
Qed.

Context (off : option Z) (gA gB : list (list Fp)) (tg : list (list Fp) → list (list Fp) → nat → nat → res (list Fp)).
Context (Ls0 : list Layer) (Rinv0 : list (list Fp)) (HR0 : length Rinv0 = length Ls0) (tau : Z * Z → nat → Z).

Definition second (p : Z * Z) : Z := match off with Some off => u32 (off + p.2) | None => p.2 end.

(** A pair of layers whose product can be made, with target [tau p]. *)
Definition pair_ok (p : Z * Z) : Prop :=
  0 ≤ p.1 < Z.of_nat (length Ls0) ∧ 0 ≤ second p < Z.of_nat (length Ls0) ∧
  ∃ t, tg gA gB (Z.to_nat p.1) (Z.to_nat p.2) = Ok t ∧ vec_ok S t ∧ ∀ j, (j < S)%nat → cong P (fval t j) (tau p j).

Definition psum (ps : list (Z * Z)) (j : nat) : Z :=
  foldr (λ p acc, tau p j * (ri Rinv0 j (Z.to_nat p.1) * ri Rinv0 j (Z.to_nat (second p))) + acc) 0 ps.

Lemma psum_app ps ps' j : psum (ps ++ ps') j = psum ps j + psum ps' j.
Proof. induction ps as [|p ps IH]; [done|]. cbn [psum foldr app] in *. unfold psum in *. cbn [foldr]. lia. Qed.

Definition has_edge (ed : list Edge) (k : nat) : Prop :=
  ∃ e, e ∈ ed ∧ layer_id e = Z.of_nat k ∧ ((2 ≤ s)%nat → nonzero_edge e).

Definition has_product (ls : list Layer) (p : Z * Z) : Prop :=
  ∃ k l, (length Ls0 ≤ k)%nat ∧ ls !! k = Some l ∧ rule l = PROD ∧
    (pa l = p.1 ∧ pb l = second p ∨ pa l = second p ∧ pb l = p.1).

(** What the loop has built for the pairs [ps]. *)
Record built (ps : list (Z * Z)) (ls : list Layer) (ed : list Edge) : Prop := {
  b_layers : ∃ R1, layers_ok ls (Rinv0 ++ R1) ∧ ∀ j, (j < S)%nat → cong P (esum pk (ri (Rinv0 ++ R1) j) ed j) (psum ps j);
  b_prefix : Ls0 `prefix_of` ls;
  b_length : length ls = (length Ls0 + length ps)%nat;
  b_good : Forall (edge_good pk (length ls) S) ed;
  b_count : length ed = (length ps * s)%nat;
  b_nodup : NoDup (position <$> ed);
  b_edges : ∀ k, (length Ls0 ≤ k < length ls)%nat → has_edge ed k;
  b_products : ∀ p, p ∈ ps → has_product ls p }.

Lemma has_product_snoc ls l p : has_product ls p → has_product (ls ++ [l]) p.
Proof. intros (k & l' & Hk1 & Hk2 & Hk3). exists k, l'. split; [done|]. split; [by apply lookup_app_l_Some|done]. Qed.

(** Positions in a new layer are new. *)
Lemma positions_app nl n ed ed' : NoDup (position <$> ed) → Forall (edge_good pk nl n) ed →
  Forall (λ e, layer_id e = Z.of_nat nl) ed' → NoDup (idx <$> ed') → NoDup (position <$> ed ++ ed').
Proof.
  intros N1 G1 L2 N2. rewrite fmap_app. apply NoDup_app. split; [done|]. split.
  - intros x (e & -> & He)%list_elem_of_fmap (e' & E & He')%list_elem_of_fmap. unfold position in E. injection E as El _ _.
    rewrite Forall_forall in G1, L2. destruct (G1 e He) as [_ [Hlt _]]. rewrite (L2 e' He') in El. lia.
  - assert (E : idx <$> ed' = (λ p : Z * Z * bool, p.1.2) <$> (position <$> ed')) by (rewrite <- list_fmap_compose; by apply list_fmap_ext).
    rewrite E in N2. by eapply NoDup_fmap_1.
Qed.

Lemma built_snoc ps p ls ed l ed' t : built ps ls ed → pair_ok p → Z.of_nat (length ls) + 1 < 2 ^ 32 →
  rule l = PROD → PC l = [] → R_PC l = [] → (pa l = p.1 ∧ pb l = second p ∨ pa l = second p ∧ pb l = p.1) →
  (∀ j, (j < S)%nat → cong P (fval t j) (tau p j)) → repacked pk (Z.of_nat (length ls)) S s t ed' →
  built (ps ++ [p]) (ls ++ [l]) (ed ++ ed').
Proof.
  intros [(R1 & HL & HP) B2 B3 B4 B5 B6 B7 B8] (Pa & Pb & _) Hlt Hr Hc Hrc Hpp Ht (N1 & N2 & N3 & N4 & N5).
  assert (HRl : length (Rinv0 ++ R1) = length ls) by (destruct HL as (_ & _ & _ & _ & [? _]); done).
  assert (Hle : (length Ls0 ≤ length ls)%nat) by lia.
  destruct (layers_ok_snoc ls (Rinv0 ++ R1) l HL Hlt Hr Hc Hrc) as (r & HL' & Er); [destruct Hpp; lia..|].
  assert (HLay : Forall (λ e, layer_id e = Z.of_nat (length ls)) ed') by (eapply Forall_impl; [exact N1|]; by intros e [_ ?]).
  split.
  - exists (R1 ++ [r]). rewrite app_assoc. split; [done|]. intros j Hj. rewrite esum_app, psum_app.
    rewrite (esum_first pk (Rinv0 ++ R1) [r] S) by (by rewrite HRl). rewrite (HP j Hj). apply cong_add; [done|].
    rewrite (esum_one_layer pk _ ed' (Z.of_nat (length ls))) by done. rewrite Nat2Z.id.
    rewrite <- HRl at 1. rewrite nth_middle. rewrite (N5 j Hj), (Ht j Hj), (Er j Hj). unfold psum. cbn [foldr]. rewrite Z.add_0_r.
    rewrite !app_nth1 by (destruct Hpp; lia). apply cong_eq. destruct Hpp as [[-> ->]|[-> ->]]; ring.
  - by apply prefix_app_r.
  - rewrite !length_app. cbn. lia.
  - rewrite length_app. cbn [length]. apply Forall_app. split.
    + eapply Forall_impl; [exact B4|]. intros e. apply edge_good_weaken. lia.
    + eapply Forall_impl; [exact N1|]. intros e [He _]. by rewrite Nat2Z.id in He.
  - rewrite !length_app, B5, N2. cbn. lia.
  - by eapply positions_app.
  - intros k. rewrite length_app. cbn [length]. intros Hk'. destruct (decide (k < length ls)%nat) as [Hlt'|Hge].
    + destruct (B7 k) as (e & He & E1 & E2); [lia|]. exists e. split; [apply elem_of_app; by left|done].
    + assert (k = length ls) as -> by lia. destruct (decide (2 ≤ s)%nat) as [H2|H2].
      * destruct (proj1 (Exists_exists _ _) (N4 H2)) as (e & He & Hz). exists e. split; [apply elem_of_app; by right|].
        split; [|done]. by apply (proj1 (Forall_forall _ _) HLay).
      * destruct ed' as [|e ed']; [cbn in N2; lia|]. exists e. split; [apply elem_of_app; right; by left|].
        split; [by apply Forall_inv in HLay|lia].
  - intros q [Hq| ->%list_elem_of_singleton]%elem_of_app; [by apply has_product_snoc, B8|].
    exists (length ls), l. split; [done|]. split; [by apply list_lookup_middle|done].
Qed.

Lemma post_emit_product ps p ls ed : built ps ls ed → pair_ok p → Z.of_nat (length ls) + 1 < 2 ^ 32 →
  post T (emit_product pk off gA gB tg s df (ls, ed) p) (λ '(ls', ed'), built (ps ++ [p]) ls' ed').
Proof.
  intros HB Hp Hlt. pose proof Hp as (Pa & Pb & t & Et & Vt & Ct). unfold emit_product. destruct p as [la lb].
  cbn [fst snd] in *. cbv zeta. fold (second (la, lb)).
  eapply post_bind; [apply post_prod_layer|]. intros l (Hr & Hc & Hrc & Hpp).
  eapply (post_bind T _ _ (λ t', t' = t)); [apply post_lift; by rewrite Et|]. intros ? ->.
  rewrite (wrap_small 32) by (unfold word; lia).
  eapply post_bind; [eapply post_emit; try eassumption; lia|]. intros ed' Hed. apply post_ret. by eapply built_snoc.
Qed.

Lemma post_emit_products ps pairs ls ed : built ps ls ed → Forall pair_ok pairs →
  Z.of_nat (length Ls0) + Z.of_nat (length ps + length pairs) < 2 ^ 32 →
  post T (emit_products pk off gA gB tg s df pairs (ls, ed)) (λ '(ls', ed'), built (ps ++ pairs) ls' ed').
Proof.
  intros HB Hps. revert ps ls ed HB. induction Hps as [|p pairs Hp _ IH]; intros ps ls ed HB Hlt; cbn [emit_products].
  - apply post_ret. by rewrite app_nil_r.
  - cbn [length] in Hlt. eapply post_bind; [apply (post_emit_product ps); [done..|]; rewrite (b_length _ _ _ HB); lia|].
    intros [ls' ed'] HB'. replace (ps ++ p :: pairs) with ((ps ++ [p]) ++ pairs) by by rewrite <- app_assoc.
    apply IH; [done|]. rewrite length_app. cbn [length]. lia.
Qed.

Lemma built_nil : layers_ok Ls0 Rinv0 → built [] Ls0 [].
Proof.
  intros HL. split; [|done|cbn; lia|constructor|done|constructor|lia|intros p Hp; by apply not_elem_of_nil in Hp].
  exists []. rewrite app_nil_r. split; [done|]. intros j _. done.
Qed.

(** Every layer is needed by the edges of the products. *)
Lemma built_compacted pairs ls ed ed' c n : built pairs ls ed →
  (∀ i, (i < length Ls0)%nat → ∃ p, p ∈ pairs ∧ (Z.to_nat p.1 = i ∨ Z.to_nat (second p) = i)) →
  Forall pair_ok pairs →
  (∀ e, e ∈ ed → ((2 ≤ s)%nat → nonzero_edge e) → e ∈ ed') → compacted (mkCipher ls ed' c n).
Proof.
  intros HB Hcov Hps Hin. unfold compacted. cbn [L E].
  assert (HP : ∀ k, (length Ls0 ≤ k < length ls)%nat → Needed ls ed' k).
  { intros k Hk'. destruct (b_edges _ _ _ HB k Hk') as (e & He & El & Hz). rewrite <- (Nat2Z.id k), <- El.
    apply Needed_edge; [by apply Hin|lia]. }
  intros k Hk'. destruct (decide (length Ls0 ≤ k)%nat) as [Hge|Hlt]; [by apply HP|].
  destruct (Hcov k) as (p & Hp & Hor); [lia|]. destruct (b_products _ _ _ HB p Hp) as (q & l & Hq & Hl & Hr & Hpp).
  rewrite Forall_forall in Hps. destruct (Hps p Hp) as (Pa & Pb & _).
  assert (Hq' : Needed ls ed' q) by (apply HP; split; [done|by eapply lookup_lt_Some]).
  pose proof (b_length _ _ _ HB).
  destruct Hor as [<-|<-]; (eapply (Needed_parent _ _ _ _ _ Hq' Hl Hr); [destruct Hpp as [[-> ->]|[-> ->]]; auto|lia]).
Qed.

(** The result of [build_product_cipher]. *)
Definition product_of (pairs : list (Z * Z)) (C : Cipher) : Prop :=
  slots C = S ∧ Z.of_nat (length (L C)) < 2 ^ 32 ∧ (length Ls0 ≤ length (L C))%nat ∧
  Forall (edge_good pk (length (L C)) S) (E C) ∧
  ∃ R1, layers_ok (L C) (Rinv0 ++ R1) ∧ ∀ j, (j < S)%nat → cong P (esum pk (ri (Rinv0 ++ R1) j) (E C) j) (psum pairs j).

Lemma post_products pairs : is_valid_pubkey_shape pk = true → layers_ok Ls0 Rinv0 → Forall pair_ok pairs →
  Z.of_nat (length Ls0) + Z.of_nat (length pairs) < 2 ^ 32 →
  (∀ i, (i < length Ls0)%nat → ∃ p, p ∈ pairs ∧ (Z.to_nat p.1 = i ∨ Z.to_nat (second p) = i)) →
  (2 ≤ s)%nat ∨ Z.of_nat (length pairs * s) ≤ edge_budget (prm pk) →
  post T ('(Ls, Es) ← emit_products pk off gA gB tg s df pairs (Ls0, []);
          C ← lift (guard_budget pk (mkCipher Ls Es (Op.zeros S) S));
          lift (compact_layers C)) (product_of pairs).
Proof.
  intros K HL Hps Hlt Hcov Hbud.
  eapply post_bind; [apply (post_emit_products []); [by apply built_nil|done|cbn; lia]|]. intros [ls ed] HB. cbn [app] in HB.
  pose proof HB as [(R1 & HL1 & HP1) _ B3 B4 B5 B6 _ _].
  destruct (plain_exists ls (Rinv0 ++ R1) ed (Op.zeros S) K ltac:(lia) HL1 B4) as [v HE]; [apply Forall_replicate, fp0_ok|apply length_zeros|].
  destruct (guard_budget_encrypts pk sk policy Hpk _ _ HE) as (C & EG & HC & CL & Cc & CS). cbn [L c0 slots] in *.
  eapply (post_bind T _ _ (λ C', C' = C)); [apply post_lift; by rewrite EG|]. intros ? ->. apply post_lift.
  assert (Hcomp : compacted C).
  { destruct C as [CL' CE Cc0 CS']. cbn [L c0 slots] in *. subst CL' Cc0 CS'. eapply built_compacted; [done|done|done|].
    intros e He Hz. destruct Hbud as [H2|Hb].
    - exact (guard_budget_keeps _ _ _ e EG B6 He (Hz H2)).
    - rewrite guard_budget_small in EG by (cbn [E]; lia). apply Ok_inj in EG. injection EG as <-. done. }
  destruct (compact_layers_encrypts pk sk policy C v HC) as (C' & -> & _ & _ & _ & _ & _ & Hid). rewrite (Hid Hcomp).
  pose proof (proj1 (encrypts_parts _ _ _ _ _) HC) as (_ & _ & _ & _ & HGc & _ & Rc & HLc & HPc). rewrite CS, CL in *.
  pose proof (proj1 (encrypts_parts _ _ _ _ _) HE) as (_ & _ & _ & _ & _ & _ & Re & HLe & HPe). cbn [L E slots] in *.
  assert (Rc = Rinv0 ++ R1) as -> by (eapply masks_ok_fun; [apply HLc|apply HL1]).
  assert (Re = Rinv0 ++ R1) as -> by (eapply masks_ok_fun; [apply HLe|apply HL1]).
  split_and!; [done|rewrite CL; lia|rewrite CL; lia|by rewrite CL|]. exists R1. rewrite CL. split; [done|].
  intros j Hj. rewrite <- (HP1 j Hj). destruct (HPc j Hj) as [_ E1]. destruct (HPe j Hj) as [_ E2]. rewrite E1 in E2.
  unfold plain in E2. rewrite Cc in E2. cbn [c0 E] in E2.
  rewrite <- (Z.add_simpl_l (fval (Op.zeros S) j) (esum _ _ (E C) j)), E2. by rewrite Z.add_simpl_l.
Qed.
End Product.
