(* ===== verification/Multiply.v ===== *)
(** * Multiplication and squaring are homomorphic

    The sums of [Product.v], over the pairs that [ct_mul] and [ct_square] visit,
    are the products of the linear forms; with the constants they make up the
    product of the plaintexts. *)

From S2P Require Import Prelude Primes Field Hash Rng CtSafe Types Matrix Lpn Decrypt Reduce Compact Sample Coeffs Arithmetic Linear Post Repack Product.

#[local] Opaque fp_inv fp_mul fp_add fp_sub fp_neg.

(** ** Sums over ranges *)

Lemma lsum_zseq n f : lsum (zseq 0 n) f = zsum n (λ i, f (Z.of_nat i)).
Proof.
  induction n as [|n IH]; [done|]. rewrite zsum_S, <- IH. replace (S n) with (n + 1)%nat by lia.
  rewrite zseq_app, lsum_app. cbn [zseq]. rewrite lsum_cons. change (lsum [] f) with 0. rewrite Z.add_0_l. lia.
Qed.

(** The loops of [ct_mul] and [ct_square]. *)
Lemma lsum_all_pairs n m f : lsum (all_pairs n m) f = lsum (zseq 0 n) (λ la, lsum (zseq 0 m) (λ lb, f (la, lb))).
Proof.
  unfold all_pairs. rewrite lsum_bind. apply lsum_ext. intros la _. rewrite lsum_bind. apply lsum_ext. intros lb _.
  unfold lsum. cbn. lia.
Qed.

Lemma lsum_triangle n f : lsum (triangle n) f = lsum (zseq 0 n) (λ la, lsum (zseq la (n - Z.to_nat la)) (λ lb, f (la, lb))).
Proof.
  unfold triangle. rewrite lsum_bind. apply lsum_ext. intros la _. rewrite lsum_bind. apply lsum_ext. intros lb _.
  unfold lsum. cbn. lia.
Qed.

Lemma product_of_sums n m x y : lsum (all_pairs n m) (λ p, x p.1 * y p.2) = lsum (zseq 0 n) x * lsum (zseq 0 m) y.
Proof. rewrite lsum_all_pairs. cbn [fst snd]. rewrite <- lsum_scale_r. apply lsum_ext. intros la _. apply lsum_scale. Qed.

(** The square of a sum, by its upper triangle. *)
Lemma triangle_from k m x : 0 ≤ k →
  lsum (zseq k m) (λ la, lsum (zseq la (Z.to_nat k + m - Z.to_nat la)) (λ lb, (if la =? lb then 1 else 2) * (x la * x lb))) =
  lsum (zseq k m) x * lsum (zseq k m) x.
Proof.
  revert k. induction m as [|m IH]; intros k Hk; [done|]. cbn [zseq]. rewrite !lsum_cons.
  replace (Z.to_nat k + S m - Z.to_nat k)%nat with (S m) by lia. cbn [zseq]. rewrite lsum_cons, Z.eqb_refl.
  rewrite (lsum_ext (zseq (k + 1) m) (λ lb, (if k =? lb then 1 else 2) * (x k * x lb)) (λ lb, (2 * x k) * x lb)).
  2: { intros lb Hlb%elem_of_zseq. rewrite (proj2 (Z.eqb_neq k lb)) by lia. lia. }
  rewrite lsum_scale. rewrite (lsum_ext (zseq (k + 1) m) (λ la, lsum (zseq la (Z.to_nat k + S m - Z.to_nat la)) (λ lb, (if la =? lb then 1 else 2) * (x la * x lb)))
    (λ la, lsum (zseq la (Z.to_nat (k + 1) + m - Z.to_nat la)) (λ lb, (if la =? lb then 1 else 2) * (x la * x lb)))).
  2: { intros la _. by replace (Z.to_nat k + S m - Z.to_nat la)%nat with (Z.to_nat (k + 1) + m - Z.to_nat la)%nat by lia. }
  rewrite IH by lia. ring.
Qed.

Lemma square_of_sum n x : lsum (triangle n) (λ p, (if p.1 =? p.2 then 1 else 2) * (x p.1 * x p.2)) = lsum (zseq 0 n) x * lsum (zseq 0 n) x.
Proof. rewrite lsum_triangle. cbn [fst snd]. by rewrite <- (triangle_from 0 n x). Qed.

Lemma length_lsum {A} (l : list A) : Z.of_nat (length l) = lsum l (λ _, 1).
Proof. induction l as [|x l IH]; [done|]. rewrite lsum_cons, <- IH. cbn [length]. lia. Qed.

Lemma length_all_pairs n m : length (all_pairs n m) = (n * m)%nat.
Proof.
  apply Nat2Z.inj. rewrite length_lsum. pose proof (product_of_sums n m (λ _, 1) (λ _, 1)) as E.
  etransitivity; [exact E|]. rewrite <- !length_lsum, !length_zseq. lia.
Qed.

Lemma elem_all_pairs n m p : p ∈ all_pairs n m ↔ 0 ≤ p.1 < Z.of_nat n ∧ 0 ≤ p.2 < Z.of_nat m.
Proof.
  unfold all_pairs. rewrite list_elem_of_bind. setoid_rewrite list_elem_of_bind. setoid_rewrite elem_of_zseq.
  setoid_rewrite list_elem_of_singleton. destruct p as [la lb]. cbn [fst snd]. split.
  - intros (y & (z & E & Hz) & Hy). injection E as -> ->. lia.
  - intros [Ha Hb]. exists la. split; [exists lb; split; [done|lia]|lia].
Qed.

Lemma elem_triangle n p : p ∈ triangle n ↔ 0 ≤ p.1 ≤ p.2 ∧ p.2 < Z.of_nat n.
Proof.
  unfold triangle. rewrite list_elem_of_bind. setoid_rewrite list_elem_of_bind. setoid_rewrite elem_of_zseq.
  setoid_rewrite list_elem_of_singleton. destruct p as [la lb]. cbn [fst snd]. split.
  - intros (y & (z & E & Hz) & Hy). injection E as -> ->. lia.
  - intros [Ha Hb]. exists la. split; [exists lb; split; [done|lia]|lia].
Qed.

Lemma length_triangle n : (2 * length (triangle n) = n * (n + 1))%nat.
Proof.
  apply Nat2Z.inj. rewrite !Nat2Z.inj_mul, length_lsum, lsum_triangle. cbn beta.
  rewrite (lsum_ext _ _ (λ la, Z.of_nat n - la)).
  - rewrite lsum_zseq.
    assert (G : ∀ m, 2 * zsum m (λ i, Z.of_nat n - Z.of_nat i) = Z.of_nat m * (2 * Z.of_nat n - Z.of_nat m + 1)).
    { clear. intros m. induction m as [|m IH]; [done|]. rewrite zsum_S. nia. }
    change (Z.of_nat 2) with 2. rewrite (G n), Nat2Z.inj_add. ring.
  - intros la Hla%elem_of_zseq. rewrite <- length_lsum, length_zseq. lia.
Qed.

(** ** Scaled edges *)

Lemma mapR_all {A B} (f : A → res B) (g : A → B) l : Forall (λ x, f x = Ok (g x)) l → mapR f l = Ok (g <$> l).
Proof. induction 1 as [|x l Hx _ IH]; [done|]. cbn [mapR fmap list_fmap]. by rewrite Hx, IH. Qed.

Lemma nz_false v j : Forall fp_ok v → Op.nz v = false → fval v j = 0.
Proof.
  intros Hv Hn. unfold fval. rewrite nth_lookup. destruct (v !! j) as [x|] eqn:Hx; [|done]. cbn [default from_option id].
  pose proof (Forall_lookup_1 _ _ _ _ Hv Hx) as Hxo. destruct (Z.eq_dec (val x) 0) as [|Hx0]; [done|].
  apply (fp_nonzero_bool_spec x Hxo) in Hx0. apply not_true_iff_false in Hn. destruct Hn. apply existsb_exists.
  exists x. split; [by apply list_elem_of_In, list_elem_of_lookup_2 with j|done].
Qed.

Lemma append_scaled_spec pk nl n S dest src scale off (r r' : nat → nat → Z) :
  Forall (edge_good pk nl S) dest → Forall (edge_good pk n S) src → 0 ≤ off → off + Z.of_nat n ≤ Z.of_nat nl → Z.of_nat nl < 2 ^ 32 →
  (length scale = 0%nat ∨ length scale = S) → Forall fp_ok scale →
  (∀ k j, (k < n)%nat → (j < S)%nat → r j (Z.to_nat off + k)%nat = r' j k) →
  ∃ out, append_scaled_edges dest src scale off = Ok out ∧ Forall (edge_good pk nl S) out ∧
    ∀ j, (j < S)%nat → cong P (esum pk (r j) out j) (esum pk (r j) dest j + esum pk (r' j) src j * fval scale j).
Proof.
  intros Hd Hsrc Ho Hon Hnl Hl Hsc Hr. unfold append_scaled_edges. destruct (Op.nz scale) eqn:Hz; cbn [negb].
  2: { exists dest. split_and!; [done..|]. intros j _. rewrite (nz_false _ j Hsc Hz), Z.mul_0_r, Z.add_0_r. done. }
  assert (Ls : length scale = S) by (destruct Hl as [Hl|]; [by apply length_zero_iff_nil in Hl as ->|done]). clear Hl.
  set (g := λ e, mkEdge (u32 (layer_id e + off)) (idx e) (ch e) (zip_with fp_mul (ew e) scale) (es e)).
  assert (HM : ∀ e, edge_good pk n S e → Op.mul (ew e) scale = Ok (zip_with fp_mul (ew e) scale) ∧
    edge_good pk nl S (g e) ∧ layer_id (g e) = layer_id e + off ∧
    ∀ j, (j < S)%nat → cong P (gterm pk j (g e)) (gterm pk j e * fval scale j)).
  { intros e [((W1 & _) & W2 & W3 & W4) (F1 & F2 & F3 & F4 & F5)].
    destruct (Op_mul_rep S (ew e) scale F3 Ls) as (c & Ec & Lc & Rc). unfold Op.mul in *. rewrite F3, Ls, Nat.eqb_refl in *.
    apply Ok_inj in Ec as <-. assert (El : u32 (layer_id e + off) = layer_id e + off) by (apply wrap_small; unfold word; lia).
    assert (R : ∀ j, (j < S)%nat → nth j (zip_with fp_mul (ew e) scale) fp0 ~~ fval (ew e) j * fval scale j) by (intros; apply Rc; [done|by apply nth_rep..]).
    unfold g. split; [done|]. split; [|split; [done|]].
    - split; split_and!; cbn [layer_id idx ch ew es]; rewrite ?El; try done; [unfold word; lia| |lia].
      apply (slots_ok _ S Lc). intros j Hj. by eapply rep_ok, R.
    - intros j Hj. unfold gterm. cbn [ew idx ch]. destruct (R j Hj) as [_ E]. unfold fval at 1. rewrite E. apply cong_eq. ring. }
  rewrite (mapR_all _ g) by (eapply Forall_impl; [exact Hsrc|]; intros e He; destruct (HM e He) as [-> _]; done).
  cbn [mbind res_bind]. eexists. split; [done|]. split.
  - apply Forall_app. split; [done|]. apply Forall_fmap. eapply Forall_impl; [exact Hsrc|]. intros e He. by apply HM.
  - intros j Hj. rewrite esum_app. apply cong_add; [done|]. apply esum_scale. eapply Forall_impl; [exact Hsrc|].
    intros e He. destruct (HM e He) as (_ & _ & El & Hg). split; [by apply Hg|]. rewrite El. destruct He as [((W1 & _) & _) (F1 & _)].
    rewrite <- (Hr (Z.to_nat (layer_id e)) j) by (done || lia). f_equal. lia.
Qed.

(** ** The operands *)

Section Operands.
Context {F : Fuel} (pk : PubKey) (sk : SecKey) (policy : DecPolicy) (Hpk : pubkey_wf pk) (Hk : keys_ok sk).

Abbreviation ri Rinv j := (λ l, fval (nth l Rinv []) j).

(** What is used of an operand: its coefficients, masks and constants. *)
Definition operand (math : bool) (A : Cipher) (a : list Fp) (gA Ra : list (list Fp)) : Prop :=
  fold_edges (zero_c0 A) pk gsum_accumulator = Ok gA ∧ coeffs_of pk (length (L A)) (slots A) (E A) gA ∧
  Forall (edge_good pk (length (L A)) (slots A)) (E A) ∧ layers_ok pk sk policy (slots A) (L A) Ra ∧
  (length (c0_or_zeros math A) = 0%nat ∨ length (c0_or_zeros math A) = slots A) ∧ Forall fp_ok (c0_or_zeros math A) ∧
  length a = slots A ∧ ∀ j, (j < slots A)%nat →
    nth j a fp0 ~~ fval (c0_or_zeros math A) j + lsum (zseq 0 (length (L A))) (λ l, csum pk (Z.to_nat l) (E A) j * ri Ra j (Z.to_nat l)).

Lemma operand_sum nl S Rinv ed j : Forall (edge_good pk nl S) ed →
  esum pk (ri Rinv j) ed j = lsum (zseq 0 nl) (λ l, csum pk (Z.to_nat l) ed j * ri Rinv j (Z.to_nat l)).
Proof.
  intros Hg. rewrite (esum_layers pk _ nl), lsum_zseq.
  - apply zsum_ext. intros i _. by rewrite Nat2Z.id.
  - eapply Forall_impl; [exact Hg|]. intros e [[[? _] _] [? _]]. lia.
Qed.

Lemma encrypts_operand math A a : encrypts pk sk policy A a → ∃ gA Ra, operand math A a gA Ra.
Proof.
  intros HA. pose proof (proj1 (encrypts_parts _ _ _ _ _) HA) as (K & S0 & A1 & A2 & A3 & A4 & Ra & HL & HP).
  pose proof HA as (_ & _ & [HC _] & _). apply compatible_spec in HC as (C1 & C2 & C3 & C4 & C5).
  assert (HZ : is_cipher_compatible_with_pubkey pk (zero_c0 A) = true).
  { apply compatible_spec. unfold zero_c0. cbn [L E c0 slots]. split_and!; try done. right. apply length_zeros. }
  destruct (fold_edges_coeffs pk (zero_c0 A) HZ) as [E1 _]. cbn [slots L E zero_c0] in E1.
  eexists _, Ra. split; [exact E1|]. split; [by apply coeffs_fold; [apply Hpk|]|]. split_and!; try done.
  - unfold c0_or_zeros. destruct (math && _); [right; apply length_zeros|done].
  - unfold c0_or_zeros. destruct (math && _); [apply Forall_replicate, fp0_ok|done].
  - intros j Hj. eapply rep_cong; [by apply HP|]. unfold plain. rewrite (operand_sum _ _ _ _ _ A3). apply cong_add; [|done].
    unfold c0_or_zeros. destruct (Nat.eqb_spec (length (c0 A)) 0) as [E0|_]; [|by rewrite andb_false_r].
    apply length_zero_iff_nil in E0. destruct math; [|done]. cbn [andb]. rewrite E0. unfold fval. rewrite nth_zeros. by destruct j.
Qed.

(** A coefficient. *)
Lemma operand_row nl S ed g l : coeffs_of pk nl S ed g → (l < nl)%nat →
  length (nth l g []) = S ∧ ∀ j, (j < S)%nat → nth j (nth l g []) fp0 ~~ csum pk l ed j.
Proof.
  intros [[Hl Hr] HC] Hlt. split; [|by intros; apply HC].
  destruct (lookup_lt_is_Some_2 g l) as [r Er]; [lia|]. rewrite nth_lookup, Er. cbn. by apply (Forall_lookup_1 _ _ _ _ Hr Er).
Qed.

(** A vector is zero past its end. *)
Lemma vec_mul_spec u v S : (length u = 0%nat ∨ length u = S) → Forall fp_ok u → Forall fp_ok v → length u = length v →
  ∃ w, Op.mul u v = Ok w ∧ length w = length u ∧ Forall fp_ok w ∧ ∀ j, (j < S)%nat → cong P (fval w j) (fval u j * fval v j).
Proof.
  intros Hu Fu Fv Hl. destruct (Op_mul_rep (length u) u v eq_refl (eq_sym Hl)) as (w & Ew & Lw & Rw). exists w.
  split; [done|]. split; [done|]. assert (R : ∀ j, (j < length u)%nat → nth j w fp0 ~~ fval u j * fval v j).
  { intros j Hj. apply Rw; [done|by apply nth_rep..]. }
  split; [apply (slots_ok _ _ Lw); intros j Hj; by eapply rep_ok, R|]. intros j Hj. destruct Hu as [E0|ES].
  - rewrite E0 in Lw, Hl. apply length_zero_iff_nil in E0, Lw. symmetry in Hl. apply length_zero_iff_nil in Hl. subst. by destruct j.
  - by destruct (R j ltac:(lia)).
Qed.
End Operands.

(** ** [ct_mul] *)

Section Multiply.
Context {F : Fuel} (pk : PubKey) (sk : SecKey) (policy : DecPolicy) (Hpk : pubkey_wf pk) (Hk : keys_ok sk).
Context {G} `{RngLaws G} (T : string → Prop) (Hpow : pubkey_powers_ok pk = true) (Hw : weights_ok pk) (df : Z) (Hdf : df ≠ 0 → ∀ m, T m).

Abbreviation ri Rinv j := (λ l, fval (nth l Rinv []) j).

(** The last step of both: constants multiplied in, the ciphertext reduced. *)
Lemma finish_encrypts Ls Es c v n Rinv : is_valid_pubkey_shape pk = true → n ≠ 0%nat →
  layers_ok pk sk policy n Ls Rinv → Forall (edge_good pk (length Ls) n) Es →
  (length c = 0%nat ∨ length c = n) → Forall fp_ok c → length v = n →
  (∀ j, (j < n)%nat → nth j v fp0 ~~ fval c j + esum pk (ri Rinv j) Es j) →
  post (G := G) T (C ← lift (guard_budget pk (mkCipher Ls Es c n)); lift (compact_layers C)) (λ C, encrypts pk sk policy C v ∧ compacted C).
Proof.
  intros K Hn HL HE Hc Fc Hv HP.
  assert (HC : encrypts pk sk policy (mkCipher Ls Es c n) v).
  { apply encrypts_parts. cbn [L E c0 slots]. split_and!; try done. exists Rinv. by split. }
  destruct (guard_budget_encrypts pk sk policy Hpk _ _ HC) as (C & EG & HC' & _).
  eapply (post_bind T _ _ (λ C', C' = C)); [apply post_lift; by rewrite EG|]. intros ? ->. apply post_lift.
  destruct (compact_layers_encrypts pk sk policy C v HC') as (C' & -> & HC'' & _ & _ & _ & Hcc & _). done.
Qed.

Definition repack_ok (products : nat) (s : nat) : Prop :=
  let s' := if (s =? 0)%nat then 1%nat else s in
  Z.of_nat s' ≤ p_B (prm pk) ∧ Z.of_nat s' ≤ 65536 ∧
  ((2 ≤ s')%nat ∨ Z.of_nat (products * s') ≤ edge_budget (prm pk)).

Lemma post_mul A B a b s math : encrypts pk sk policy A a → encrypts pk sk policy B b → slots A = slots B →
  (0 < length (L A))%nat → (0 < length (L B))%nat →
  Z.of_nat (length (L A) + length (L B) + length (L A) * length (L B)) < 2 ^ 32 →
  repack_ok (length (L A) * length (L B)) s →
  length (c0_or_zeros math A) = length (c0_or_zeros math B) →
  post T (mul_with pk A B s math df) (λ C, ∃ v, Op.mul a b = Ok v ∧ encrypts pk sk policy C v ∧ compacted C).
Proof.
  intros HA HB HS HLA HLB Hlt (HsB & Hs16 & Hbud) Hc0.
  destruct (encrypts_operand pk sk policy Hpk math A a HA) as (gA & Ra & FA & CA & GA & LA & ZA & OA & Na & VA).
  destruct (encrypts_operand pk sk policy Hpk math B b HB) as (gB & Rb & FB & CB & GB & LB & ZB & OB & Nb & VB).
  pose proof (proj1 (encrypts_parts _ _ _ _ _) HA) as (K & S0 & _).
  rewrite <- HS in *. unfold mul_with. rewrite <- HS, Nat.eqb_refl. cbn [negb]. cbv zeta. cbn [L E zero_c0].
  set (s' := if (s =? 0)%nat then 1%nat else s) in *. set (nA := length (L A)) in *. set (nB := length (L B)) in *.
  set (a0 := c0_or_zeros math A) in *. set (b0 := c0_or_zeros math B) in *. set (n := slots A) in *.
  assert (Eoff : u32 (Z.of_nat nA) = Z.of_nat nA) by (apply wrap_small; unfold word; lia).
  set (Ls0 := L A ++ (shift_layer (Z.of_nat nA) <$> L B)).
  assert (HLs0 : length Ls0 = (nA + nB)%nat) by (unfold Ls0; by rewrite length_app, length_fmap).
  assert (HRa : length Ra = nA) by apply LA. assert (HRb : length Rb = nB) by apply LB.
  pose proof (layers_ok_app pk sk policy n (L A) (L B) Ra Rb LA LB ltac:(unfold nA, nB in *; lia)) as HL0.
  set (tau := λ (p : Z * Z) j, csum pk (Z.to_nat p.1) (E A) j * csum pk (Z.to_nat p.2) (E B) j).
  assert (Sec : ∀ lb, 0 ≤ lb < Z.of_nat nB → u32 (Z.of_nat nA + lb) = Z.of_nat nA + lb) by (intros; apply wrap_small; unfold word; nia).
  eapply (post_bind T _ _ (product_of pk sk policy n (Some (Z.of_nat nA)) Ls0 (Ra ++ Rb) tau (all_pairs nA nB))).
  { unfold build_product_cipher. eapply (post_bind T _ _ (λ x, x = gA)); [apply post_lift; by rewrite FA|]. intros ? ->.
    eapply (post_bind T _ _ (λ x, x = gB)); [apply post_lift; by rewrite FB|]. intros ? ->. cbv zeta. cbn [L zero_c0 slots].
    fold nA n. rewrite Eoff. fold Ls0.
    eapply post_products; try done; try lia.
    - unfold s'. destruct (Nat.eqb_spec s 0); lia.
    - by rewrite length_app, HLs0, HRa, HRb.
    - apply Forall_forall. intros p [Hp1 Hp2]%elem_all_pairs. unfold pair_ok, second. rewrite Sec, HLs0 by done.
      split; [lia|]. split; [lia|].
      destruct (operand_row pk _ _ _ _ (Z.to_nat p.1) CA ltac:(lia)) as [L1 R1].
      destruct (operand_row pk _ _ _ _ (Z.to_nat p.2) CB ltac:(lia)) as [L2 R2].
      destruct (Op_mul_rep n _ _ L1 L2) as (t & Et & Lt & Rt). exists t. split; [exact Et|].
      assert (Rt' : ∀ j, (j < n)%nat → nth j t fp0 ~~ tau p j) by (intros; apply Rt; auto).
      split; [by eapply vec_ok_of|]. intros j Hj. by destruct (Rt' j Hj).
    - rewrite HLs0, length_all_pairs. lia.
    - intros i. rewrite HLs0. intros Hi. destruct (decide (i < nA)%nat) as [Hia|Hia].
      + exists (Z.of_nat i, 0). split; [apply elem_all_pairs; cbn; lia|left; apply Nat2Z.id].
      + exists (0, Z.of_nat (i - nA)). split; [apply elem_all_pairs; cbn; lia|right]. unfold second. cbn [snd]. rewrite Sec by lia. lia.
    - by rewrite length_all_pairs. }
  intros C (CS & Clt & Cge & CG & R1 & CL & CP). rewrite CS, Eoff. fold n.
  set (Rinv := (Ra ++ Rb) ++ R1) in *. rewrite HLs0 in Cge.
  destruct (append_scaled_spec pk (length (L C)) nB n (E C) (E B) a0 (Z.of_nat nA) (λ j, ri Rinv j) (λ j, ri Rb j))
    as (E1 & EE1 & GE1 & SE1); try done; try lia.
  { intros k j Hk' _. rewrite Nat2Z.id. unfold Rinv. rewrite <- app_assoc, app_nth2 by lia. rewrite app_nth1 by lia. do 2 f_equal. lia. }
  destruct (append_scaled_spec pk (length (L C)) nA n E1 (E A) b0 0 (λ j, ri Rinv j) (λ j, ri Ra j))
    as (E2 & EE2 & GE2 & SE2); try done; try lia.
  { intros k j Hk' _. unfold Rinv. rewrite <- app_assoc, app_nth1 by (change (Z.to_nat 0) with 0%nat; lia). done. }
  destruct (vec_mul_spec a0 b0 n ZA OA OB Hc0) as (c & Ec & Lc & Oc & Vc).
  destruct (Op_mul_rep n a b Na Nb) as (v & Ev & Lv & Rv).
  eapply (post_bind T _ _ (λ x, x = E1)); [apply post_lift; by rewrite EE1|]. intros ? ->.
  eapply (post_bind T _ _ (λ x, x = E2)); [apply post_lift; by rewrite EE2|]. intros ? ->.
  eapply (post_bind T _ _ (λ x, x = c)); [apply post_lift; by rewrite Ec|]. intros ? ->.
  eapply post_mono; [apply (finish_encrypts (L C) E2 c v n Rinv); try done; [by rewrite Lc|]|intros C' [? ?]; by exists v].
  intros j Hj. eapply rep_cong; [apply Rv; [done|by apply VA|by apply VB]|].
  rewrite (Vc j Hj), (SE2 j Hj), (SE1 j Hj), (CP j Hj).
  rewrite (operand_sum pk nB n Rb (E B) j GB), (operand_sum pk nA n Ra (E A) j GA).
  assert (HPs : psum (Some (Z.of_nat nA)) (Ra ++ Rb) tau (all_pairs nA nB) j =
    lsum (zseq 0 nA) (λ l, csum pk (Z.to_nat l) (E A) j * ri Ra j (Z.to_nat l)) *
    lsum (zseq 0 nB) (λ l, csum pk (Z.to_nat l) (E B) j * ri Rb j (Z.to_nat l))).
  { rewrite <- product_of_sums. apply lsum_ext. intros p [Hp1 Hp2]%elem_all_pairs. unfold tau, second. rewrite Sec by done.
    rewrite app_nth1 by lia. rewrite app_nth2 by lia. replace (Z.to_nat (Z.of_nat nA + p.2) - length Ra)%nat with (Z.to_nat p.2) by lia. ring. }
  rewrite HPs. apply cong_eq. ring.
Qed.

(** ** [ct_square] *)

Lemma double_spec u n : (length u = 0%nat ∨ length u = n) → Forall fp_ok u →
  length (Op.add u u) = length u ∧ Forall fp_ok (Op.add u u) ∧ ∀ j, (j < n)%nat → cong P (fval (Op.add u u) j) (2 * fval u j).
Proof.
  intros Hu Fu. assert (Lu : length (Op.add u u) = length u) by (unfold Op.add; by apply Op_length).
  assert (R : ∀ j, (j < length u)%nat → nth j (Op.add u u) fp0 ~~ 2 * fval u j).
  { intros j Hj. eapply rep_cong; [apply (Op_add_rep (length u)); try done; by apply nth_rep|]. apply cong_eq. ring. }
  split; [done|]. split; [apply (slots_ok _ _ Lu); intros j Hj; by eapply rep_ok, R|]. intros j Hj. destruct Hu as [E0|ES].
  - rewrite E0 in Lu. apply length_zero_iff_nil in E0, Lu. rewrite Lu, E0. by destruct j.
  - by destruct (R j ltac:(lia)).
Qed.

Lemma post_square A a s math : encrypts pk sk policy A a → (0 < length (L A))%nat →
  Z.of_nat (length (L A) + length (triangle (length (L A)))) < 2 ^ 32 →
  repack_ok (length (triangle (length (L A)))) s → df = 0 →
  post T (square_with pk A s math) (λ C, ∃ v, Op.mul a a = Ok v ∧ encrypts pk sk policy C v ∧ compacted C).
Proof.
  intros HA HLA Hlt (HsB & Hs16 & Hbud) Hdf0.
  destruct (encrypts_operand pk sk policy Hpk math A a HA) as (gA & Ra & FA & CA & GA & LA & ZA & OA & Na & VA).
  pose proof (proj1 (encrypts_parts _ _ _ _ _) HA) as (K & S0 & _).
  unfold square_with. cbv zeta. cbn [L E zero_c0].
  set (s' := if (s =? 0)%nat then 1%nat else s) in *. set (nA := length (L A)) in *.
  set (a0 := c0_or_zeros math A) in *. set (n := slots A) in *. assert (HRa : length Ra = nA) by apply LA.
  set (tau := λ (p : Z * Z) j, (if p.1 =? p.2 then 1 else 2) * (csum pk (Z.to_nat p.1) (E A) j * csum pk (Z.to_nat p.2) (E A) j)).
  eapply (post_bind T _ _ (product_of pk sk policy n None (L A) Ra tau (triangle nA))).
  { unfold build_product_cipher. eapply (post_bind T _ _ (λ x, x = gA)); [apply post_lift; by rewrite FA|]. intros ? ->.
    eapply (post_bind T _ _ (λ x, x = gA)); [by apply post_lift|]. intros ? ->. cbv zeta. cbn [L zero_c0 slots]. fold n.
    eapply post_products; try done; try lia.
    - unfold s'. destruct (Nat.eqb_spec s 0); lia.
    - apply Forall_forall. intros p [Hp1 Hp2]%elem_triangle. unfold pair_ok, second. fold nA.
      split; [lia|]. split; [lia|].
      destruct (operand_row pk _ _ _ _ (Z.to_nat p.1) CA ltac:(lia)) as [L1 R1].
      destruct (operand_row pk _ _ _ _ (Z.to_nat p.2) CA ltac:(lia)) as [L2 R2].
      destruct (Op_mul_rep n _ _ L1 L2) as (t & Et & Lt & Rt).
      assert (Rt' : ∀ j, (j < n)%nat → nth j t fp0 ~~ csum pk (Z.to_nat p.1) (E A) j * csum pk (Z.to_nat p.2) (E A) j) by (intros; apply Rt; auto).
      unfold target_square. rewrite Et. cbn [mbind res_bind]. eexists. split; [done|].
      assert (Ot : Forall fp_ok t) by (apply (slots_ok _ n Lt); intros j Hj; by eapply rep_ok, Rt').
      unfold tau. destruct (Z.eqb_spec p.1 p.2) as [E12|N12].
      + rewrite E12, Nat.eqb_refl. cbn [negb]. split; [by split|]. intros j Hj. rewrite Z.mul_1_l. rewrite <- E12 at 1. by destruct (Rt' j Hj).
      + rewrite (proj2 (Nat.eqb_neq _ _)) by lia. cbn [negb].
        destruct (double_spec t n (or_intror Lt) Ot) as (Ld & Od & Vd). split; [split; [by rewrite Ld|done]|].
        intros j Hj. rewrite (Vd j Hj). destruct (Rt' j Hj) as [_ ER]. unfold fval at 1. by rewrite ER.
    - intros i Hi. exists (Z.of_nat i, Z.of_nat i). split; [apply elem_triangle; cbn; fold nA in Hi; lia|left; apply Nat2Z.id]. }
  intros C (CS & Clt & Cge & CG & R1 & CL & CP). rewrite CS. fold n. set (Rinv := Ra ++ R1) in *. fold nA in Cge.
  destruct (double_spec a0 n ZA OA) as (L2 & O2 & V2).
  destruct (append_scaled_spec pk (length (L C)) nA n (E C) (E A) (Op.add a0 a0) 0 (λ j, ri Rinv j) (λ j, ri Ra j))
    as (E1 & EE1 & GE1 & SE1); try done; try lia.
  { intros k j Hk' _. unfold Rinv. rewrite app_nth1 by (change (Z.to_nat 0) with 0%nat; lia). done. }
  destruct (vec_mul_spec a0 a0 n ZA OA OA eq_refl) as (c & Ec & Lc & Oc & Vc).
  destruct (Op_mul_rep n a a Na Na) as (v & Ev & Lv & Rv).
  eapply (post_bind T _ _ (λ x, x = E1)); [apply post_lift; by rewrite EE1|]. intros ? ->.
  eapply (post_bind T _ _ (λ x, x = c)); [apply post_lift; by rewrite Ec|]. intros ? ->.
  eapply post_mono; [apply (finish_encrypts (L C) E1 c v n Rinv); try done; [by rewrite Lc|]|intros C' [? ?]; by exists v].
  intros j Hj. eapply rep_cong; [apply Rv; [done|by apply VA|by apply VA]|].
  rewrite (Vc j Hj), (SE1 j Hj), (V2 j Hj), (CP j Hj). rewrite (operand_sum pk nA n Ra (E A) j GA).
  assert (HPs : psum None Ra tau (triangle nA) j =
    lsum (zseq 0 nA) (λ l, csum pk (Z.to_nat l) (E A) j * ri Ra j (Z.to_nat l)) *
    lsum (zseq 0 nA) (λ l, csum pk (Z.to_nat l) (E A) j * ri Ra j (Z.to_nat l))).
  { rewrite <- square_of_sum. apply lsum_ext. intros p _. unfold tau, second. ring. }
  rewrite HPs. apply cong_eq. ring.
Qed.
End Multiply.

(** ** The properties *)

(** A bytes source for the concrete runs. *)
Definition sample_tape : nat → Z := λ i, let x := Z.of_nat i in (x * x * 7 + 3 * x + x / 5) mod 256.
Definition sample_gen : Os.Csprng := Os.mkCsprng sample_tape 0.

(** What a product has to be, for every run. *)
Definition product_result {F : Fuel} (pk : PubKey) (sk : SecKey) (policy : DecPolicy) (a b : list Fp) (C : Cipher) : Prop :=
  ∃ v, Op.mul a b = Ok v ∧ dec_values pk sk C policy = Ok v ∧ encrypts pk sk policy C v ∧ compacted C.

(** C3. A product of ciphertexts decrypts to the slot-wise product, and the result
    is compacted, for every tape of the system generator and for every seed of the
    deterministic one. The operands have layers, constant parts of equal length
    (after [math] fills them with zeros), and a repacking size that fits: at most as
    many repacked edges as there are powers, and at most 65536 ([repack_ok]; a size
    of one also needs a budget for all the products). Under these conditions no run
    throws, unless the caller caps the draws ([draw_factor]). Operands with
    different slot counts are refused. *)
Theorem ct_mul_correct {F : Fuel} pk sk policy A B a b s math :
  pubkey_wf pk → pubkey_powers_ok pk = true → weights_ok pk → keys_ok sk →
  encrypts pk sk policy A a → encrypts pk sk policy B b →
  (0 < length (L A))%nat → (0 < length (L B))%nat →
  Z.of_nat (length (L A) + length (L B) + length (L A) * length (L B)) < 2 ^ 32 →
  repack_ok pk (length (L A) * length (L B)) s →
  length (c0_or_zeros math A) = length (c0_or_zeros math B) →
  if (slots A =? slots B)%nat then
    post (λ _, False) (ct_mul pk A B s math) (product_result pk sk policy a b) ∧
    ∀ seed df, match ct_mul_seeded pk A B seed s math df with
      | Ok C => product_result pk sk policy a b C | Throw _ => df ≠ 0 | OutOfFuel => True end
  else ∀ g, is_ok (ct_mul pk A B s math g) = false.
Proof.
  intros Hpk Hpow Hw Hk HA HB HLA HLB Hlt Hr Hc.
  destruct (Nat.eqb_spec (slots A) (slots B)) as [HS|HS].
  2: { intros g. unfold ct_mul, mul_with. by rewrite (proj2 (Nat.eqb_neq _ _) HS). }
  assert (PM : ∀ G (R : Rng G) (RL : RngLaws G) df, post (λ _, df ≠ 0) (mul_with pk A B s math df) (product_result pk sk policy a b)).
  { intros G R RL df. eapply post_mono; [by eapply post_mul|]. intros C (v & Ev & HC & Hcc).
    exists v. split_and!; try done. by apply encrypts_dec. }
  split.
  - intros g. unfold ct_mul. specialize (PM _ _ _ 0 g). by destruct (mul_with _ _ _ _ _ _ g) as [[C ?]| |].
  - intros seed df. unfold ct_mul_seeded. specialize (PM _ _ _ df (make_seeded_rng seed)).
    by destruct (mul_with _ _ _ _ _ _ _) as [[C ?]| |].
Qed.

Lemma ct_mul_correct_witness : ∃ C g', ct_mul sample_pk (sample_ct 1 1 5 7) (sample_ct 2 2 3 4) 2 false sample_gen = Ok (C, g') ∧
  product_result sample_pk sample_sk NATIVE_LOCAL (sample_dec 1 1 5 7) (sample_dec 2 2 3 4) C.
Proof.
  destruct (ct_mul_correct sample_pk sample_sk NATIVE_LOCAL (sample_ct 1 1 5 7) (sample_ct 2 2 3 4) (sample_dec 1 1 5 7)
    (sample_dec 2 2 3 4) 2 false) as [H _].
  - exact sample_pk_wf.
  - exact (proj1 sample_pk_powers).
  - split; vm_compute; split; discriminate.
  - exact sample_keys_ok.
  - exact sample_1.
  - exact sample_2.
  - vm_compute. lia.
  - vm_compute. lia.
  - reflexivity.
  - split; [vm_compute; discriminate|]. split; [vm_compute; discriminate|]. left. vm_compute. lia.
  - reflexivity.
  - assert (E : is_ok (ct_mul sample_pk (sample_ct 1 1 5 7) (sample_ct 2 2 3 4) 2 false sample_gen) = true) by (vm_compute; reflexivity).
    specialize (H sample_gen). destruct (ct_mul sample_pk _ _ 2 false sample_gen) as [[C g']| |]; [|discriminate E|discriminate E].
    exists C, g'. split; [reflexivity|exact H].
Defined.

(** C4. Squaring agrees with multiplying a ciphertext by itself: for an operand that
    has layers and a repacking size that fits ([repack_ok]), every run that ends
    returns a ciphertext of the slot-wise square, and none throws, although only the
    pairs of layers [la <= lb] are visited. *)
Theorem ct_square_correct {F : Fuel} pk sk policy A a s math :
  pubkey_wf pk → pubkey_powers_ok pk = true → weights_ok pk → keys_ok sk → encrypts pk sk policy A a →
  (0 < length (L A))%nat → Z.of_nat (length (L A)) + Z.of_nat (length (L A) * (length (L A) + 1)) / 2 < 2 ^ 32 →
  repack_ok pk (length (L A) * (length (L A) + 1) / 2) s →
  post (λ _, False) (ct_square pk A s math) (product_result pk sk policy a a) ∧
  ∀ seed, match ct_square_seeded pk A seed s math with
    | Ok C => product_result pk sk policy a a C | Throw _ => False | OutOfFuel => True end.
Proof.
  intros Hpk Hpow Hw Hk HA HLA Hlt Hr. pose proof (length_triangle (length (L A))) as Ht.
  assert (Et : (length (L A) * (length (L A) + 1) / 2)%nat = length (triangle (length (L A)))).
  { rewrite <- Ht, Nat.mul_comm. by apply Nat.div_mul. }
  rewrite Et in Hr. clear Et.
  assert (PM : ∀ G (R : Rng G) (RL : RngLaws G), post (λ _, False) (square_with pk A s math) (product_result pk sk policy a a)).
  { intros G R RL. eapply post_mono; [eapply (post_square pk sk policy Hpk Hk (λ _, False) Hpow Hw 0); done || lia|].
    intros C (v & Ev & HC & Hcc). exists v. split_and!; try done. by apply encrypts_dec. }
  split; [exact (PM _ _ _)|]. intros seed. unfold ct_square_seeded. specialize (PM _ _ _ (make_seeded_rng seed)).
  by destruct (square_with _ _ _ _ _) as [[C ?]| |].
Qed.

Lemma ct_square_correct_witness : ∃ C g', ct_square sample_pk (sample_ct 1 1 5 7) 2 false sample_gen = Ok (C, g') ∧
  product_result sample_pk sample_sk NATIVE_LOCAL (sample_dec 1 1 5 7) (sample_dec 1 1 5 7) C.
Proof.
  destruct (ct_square_correct sample_pk sample_sk NATIVE_LOCAL (sample_ct 1 1 5 7) (sample_dec 1 1 5 7) 2 false) as [H _].
  - exact sample_pk_wf.
  - exact (proj1 sample_pk_powers).
  - split; vm_compute; split; discriminate.
  - exact sample_keys_ok.
  - exact sample_1.
  - vm_compute. lia.
  - reflexivity.
  - split; [vm_compute; discriminate|]. split; [vm_compute; discriminate|]. left. vm_compute. lia.
  - assert (E : is_ok (ct_square sample_pk (sample_ct 1 1 5 7) 2 false sample_gen) = true) by (vm_compute; reflexivity).
    specialize (H sample_gen). destruct (ct_square sample_pk _ 2 false sample_gen) as [[C g']| |]; [|discriminate E|discriminate E].
    exists C, g'. split; [reflexivity|exact H].
Defined.

(** ** An operand without layers *)

Lemma needed_edge ls ed k : Needed ls ed k → ed ≠ [].
Proof. induction 1 as [e He _|]; [|done]. intros ->. by apply not_elem_of_nil in He. Qed.

(** Layers are dropped when there is no edge. *)
Lemma compact_no_edges C : cipher_wf C → is_valid_cipher_shape C = true → Z.of_nat (length (L C)) < 2 ^ 32 → E C = [] →
  ∃ C', compact_layers C = Ok C' ∧ L C' = [] ∧ E C' = [] ∧ slots C' = slots C.
Proof.
  intros Hwf HS Hl HE. destruct (compact_layers_cases C Hwf HS Hl) as (C' & Ec & Hcc & HC').
  assert (EE : E C' = [] ∧ slots C' = slots C) by (destruct HC' as [->|(live & _ & _ & _ & ->)]; unfold kept; cbn [E slots]; by rewrite ?HE).
  exists C'. split; [done|]. split; [|done]. destruct (L C') as [|l ls] eqn:EL; [done|].
  pose proof (Hcc 0%nat) as Hn. rewrite EL in Hn. apply needed_edge in Hn; [|cbn; lia]. by rewrite (proj1 EE) in Hn.
Qed.

Lemma edges_without_layers es c n : es ≠ [] → Forall (λ e, 0 ≤ layer_id e) es → is_ok (compact_layers (mkCipher [] es c n)) = false.
Proof.
  intros Hne He. unfold compact_layers. assert (is_valid_cipher_shape (mkCipher [] es c n) = false) as ->; [|done].
  unfold is_valid_cipher_shape. cbn [L E slots c0]. destruct es as [|e es]; [done|]. cbn [forallb]. apply Forall_inv in He.
  unfold edge_shape_ok at 1. cbn [length]. rewrite (proj2 (Z.leb_le _ _)) by (cbn; lia). cbn [negb andb]. by rewrite !andb_false_r.
Qed.

Lemma scaled_edges src scale off out : append_scaled_edges [] src scale off = Ok out → Op.nz scale = true →
  length out = length src ∧ Forall (λ e, 0 ≤ layer_id e) out.
Proof.
  unfold append_scaled_edges. intros H Hz. rewrite Hz in H. cbn [negb app] in H. apply res_bind_Ok in H as (l & Hm & E).
  apply Ok_inj in E as <-. split; [by apply mapR_length in Hm|]. eapply mapR_Forall; [|exact Hm].
  intros e e' (w & _ & E)%res_bind_Ok. apply Ok_inj in E as <-. cbn. by apply wrap_word.
Qed.

(** C19. Multiplying a ciphertext that is only a nonzero constant, without layers,
    by a ciphertext with edges never succeeds when [math] is off, although the
    product exists: the product layers are reduced before the scaled edges of the
    second operand are added, so the layers these refer to are gone. (A zero
    constant adds no edges.) *)
Theorem ct_mul_constant_operand {F : Fuel} pk sk policy A B b s g : pubkey_wf pk → encrypts pk sk policy B b →
  is_cipher_compatible_with_pubkey pk A = true → L A = [] → E A = [] → slots A = slots B → Op.nz (c0 A) = true →
  E B ≠ [] → Z.of_nat (length (E B)) ≤ edge_budget (prm pk) → is_ok (ct_mul pk A B s false g) = false.
Proof.
  intros Hpk HB HA LA EA HS Hz HEB Hbud. unfold ct_mul, mul_with. rewrite HS, Nat.eqb_refl. cbn [negb]. cbv zeta.
  destruct (encrypts_operand pk sk policy Hpk false B b HB) as (gB & Rb & FB & CB & GB & LB & _ & _ & _ & _).
  assert (HZ : is_cipher_compatible_with_pubkey pk (zero_c0 A) = true).
  { apply compatible_spec in HA as (C1 & C2 & C3 & C4 & C5). apply compatible_spec. unfold zero_c0. cbn [L E c0 slots].
    split_and!; try done. right. apply length_zeros. }
  destruct (fold_edges_coeffs pk (zero_c0 A) HZ) as [EF _].
  unfold mbind at 1, M_bind at 1, build_product_cipher, lift, mbind, M_bind, res_bind. rewrite EF, FB. cbv zeta.
  cbn [zero_c0 L E slots length]. rewrite LA. cbn [length all_pairs zseq mbind list_bind app emit_products mret M_ret].
  change (all_pairs 0 (length (L B))) with (@nil (Z * Z)). cbn [emit_products mret M_ret]. rewrite guard_budget_small by (cbn [E length]; lia).
  change (u32 (Z.of_nat 0)) with (Z.of_nat (length (@nil Layer))).
  destruct LB as (P1 & P2 & P3 & _). destruct (layers_shape_app (slots B) [] (L B) P1 ltac:(cbn; lia) eq_refl P3) as [Sh Pw].
  cbn [app] in Sh. pose proof (proj1 (encrypts_parts _ _ _ _ _) HB) as (_ & S0 & _).
  match goal with |- context [compact_layers ?X] => set (C0 := X) end.
  destruct (compact_no_edges C0) as (C1 & -> & LC & EC & SC).
  - split; [exact Pw|]. split; [constructor|]. apply Forall_replicate, fp0_ok.
  - unfold is_valid_cipher_shape, C0. cbn [L E c0 slots]. rewrite HS, (proj2 (Nat.eqb_neq _ _) S0), length_zeros, Nat.eqb_refl, orb_true_r.
    cbn [app]. rewrite Sh. done.
  - unfold C0. cbn [L app]. rewrite length_fmap. done.
  - done.
  - rewrite EC, EA. unfold c0_or_zeros. cbn [andb].
    destruct (append_scaled_edges [] (E B) (c0 A) _) as [E1| |] eqn:EE1; [|done|done].
    destruct (scaled_edges _ _ _ _ EE1 Hz) as [L1 N1].
    assert (E2 : append_scaled_edges E1 [] (c0 B) 0 = Ok E1).
    { unfold append_scaled_edges. destruct (negb _); [done|]. cbn. by rewrite app_nil_r. }
    rewrite E2. destruct (Op.mul (c0 A) (c0 B)) as [c| |]; [|done|done].
    rewrite guard_budget_small by (cbn [E]; lia). rewrite LC.
    pose proof (edges_without_layers E1 c (slots C1)) as Hno. destruct (compact_layers _) as [?| |]; [|done|done].
    apply Hno; [|done]. intros ->. by destruct (E B).
Qed.

Lemma ct_mul_constant_operand_witness :
  is_ok (ct_mul sample_pk (mkCipher [] [] [mkFp 5 0] 1) (sample_ct 2 2 3 4) 2 false sample_gen) = false.
Proof.
  apply (ct_mul_constant_operand sample_pk sample_sk NATIVE_LOCAL (mkCipher [] [] [mkFp 5 0] 1) (sample_ct 2 2 3 4)
    (sample_dec 2 2 3 4)).
  - exact sample_pk_wf.
  - exact sample_2.
  - vm_compute. reflexivity.
  - reflexivity.
  - reflexivity.
  - reflexivity.
  - reflexivity.
  - discriminate.
  - vm_compute. discriminate.
Defined.
