(* ===== verification/Encrypt.v ===== *)
(** * Encryption: [ops/encrypt.hpp]

    [entropy::Budget], [idx::Selector], [delta], [graph], the commitments of a
    layer, [core::synth], [core::fuse] and the functions that encrypt.  The two
    overloads of each, on the system generator and on [SeedableRng], are one
    definition over the class [Rng]. *)

From Stdlib Require Import SpecFloat.
From S2P Require Import Prelude Primes Field Hash Rng CtSafe Types Matrix Lpn Scalar25519 Ristretto Decrypt Reduce Arithmetic.

(** ** Doubles

    IEEE 754 binary64, rounded to nearest even after each operation, as on the
    targets without extended precision.  [std::log2] is not an operation whose
    rounding the standard fixes: it is a parameter. *)

Class Log2 := log2_f64 : spec_float → spec_float.

Module f64.
Definition of_bits (x : Z) : spec_float :=
  let s := Z.testbit x 63 in
  let ex := (x ≫ 52) .& 0x7FF in
  let m := x .& (2 ^ 52 - 1) in
  if ex =? 0 then match m with Zpos p => S754_finite s p (-1074) | _ => S754_zero s end
  else if ex =? 0x7FF then if m =? 0 then S754_infinity s else S754_nan
  else S754_finite s (Z.to_pos (m + 2 ^ 52)) (ex - 1075).

Definition of_int (n : Z) : spec_float := binary_normalize 53 1024 n 0 false.
Definition add := SFadd 53 1024.
Definition sub := SFsub 53 1024.
Definition mul := SFmul 53 1024.
Definition div := SFdiv 53 1024.

(** [std::max(a, b)] *)
Definition max (a b : spec_float) : spec_float := if SFltb a b then b else a.

(** [static_cast<int>(std::floor(x))]; [None] is undefined behaviour. *)
Definition floor_int (x : spec_float) : option Z :=
  let in_range z := if (- 2 ^ 31 <=? z) && (z <? 2 ^ 31) then Some z else None in
  match x with
  | S754_zero _ => Some 0
  | S754_finite s m e =>
      let z := if s then Zneg m else Zpos m in
      in_range (if 0 <=? e then z * 2 ^ e else z / 2 ^ (- e))
  | _ => None
  end.
End f64.

(** ** [entropy::Budget] *)

Record Budget : Set := mkBudget { n2 : Z; n3 : Z }.

(** A sum of [int]s; parameters for which it exceeds the type have no defined
    sum in C++. *)
Definition vol (b : Budget) : Z := n2 b + n3 b.

Definition budget_compute {LOG : Log2} (p : Params) (d : Z) : option Budget :=
  let cap := f64.add (f64.of_bits (noise_entropy_bits p)) (f64.mul (f64.of_bits (depth_slope_bits p)) (f64.of_int (Z.max 0 d))) in
  let c2 := f64.mul (f64.of_int 2) (log2_f64 (f64.of_int (p_B p))) in
  let c3 := f64.mul (f64.of_int 3) (log2_f64 (f64.of_int (p_B p))) in
  let eps := f64.of_bits 0x3EB0C6F7A0B5ED8D in
  let frac := f64.of_bits (tuple2_fraction p) in
  q2 ← f64.floor_int (f64.div (f64.mul cap frac) (f64.max eps c2));
  q3 ← f64.floor_int (f64.div (f64.mul cap (f64.sub (f64.of_int 1) frac)) (f64.max eps c3));
  let q2 := Z.max 0 q2 in
  let q3 := Z.max 0 q3 in
  Some (if q2 + q3 =? 1 then if 0 <? q3 then mkBudget q2 (q3 + 1) else mkBudget (q2 + 1) q3 else mkBudget q2 q3).

Definition budget {LOG : Log2} (p : Params) (d : Z) : res Budget :=
  match budget_compute p d with Some b => Ok b | None => Throw "undefined: float to int conversion" end.

Definition plan_noise {LOG : Log2} (pk : PubKey) (depth_hint : Z) : res (Z * Z) :=
  b ← budget (prm pk) depth_hint; Ok (n2 b, n3 b).

(** ** [idx::Selector] *)

Definition raise {G A} (msg : string) : M G A := λ _, Throw msg.

Record Selector : Set := mkSelector { sel_B : Z; taken : list bool; used : Z }.

Definition selector_new (B : Z) : res Selector :=
  if B <=? 0 then Throw "pvac: selector basis rejected" else Ok (mkSelector B (replicate (Z.to_nat B) false) 0).

Section Select.
Context {F : Fuel} {G} `{Rng G}.

Definition fresh (sel : Selector) : M G (Z * Selector) :=
  if sel_B sel <=? used sel then raise "pvac: selector exhausted"
  else
    x ← reject (rng_bounded (sel_B sel)) (λ x, negb (nth (Z.to_nat x) (taken sel) false));
    mret (x, mkSelector (sel_B sel) (<[Z.to_nat x := true]> (taken sel)) (used sel + 1)).

Definition avoid (sel : Selector) (a : Z) : M G Z :=
  if sel_B sel <=? 1 then raise "pvac: selector avoid domain rejected"
  else reject (rng_bounded (sel_B sel)) (λ x, negb (x =? a)).

Definition avoid2 (sel : Selector) (a b : Z) : M G Z :=
  if (sel_B sel <=? 2) && negb (a =? b) then raise "pvac: selector avoid pair domain rejected"
  else reject (rng_bounded (sel_B sel)) (λ x, negb ((x =? a) || (x =? b))).

End Select.

(** ** [delta] *)

Definition delta_scalar {F : Fuel} (pk : PubKey) (sk : SecKey) (sd : RSeed) (i d : Z) : res Fp :=
  let ii := i + 1 in
  let dd := d + 1 in
  let lo := n_lo (nonce sd) .^ u64 (0x9e3779b97f4a7c15 * ii) in
  let hi := n_hi (nonce sd) .^ u64 (0x94d049bb133111eb * ii) in
  let zt := ztag sd .^ u64 (0x517cc1b727220a95 * ii) in
  let lo := lo .^ dd in
  let hi := hi .^ wshl 64 dd 32 in
  let zt := zt .^ wshl 64 dd 48 in
  lpn_v2.noise pk sk (mkRSeed zt (mkNonce lo hi)).

Definition xof_take : M Shake.Shake256 Z := λ s, Ok (Shake.take_u64 s).

(** [for (;;)]: a pair of words that are not both zero. *)
Definition xof_fp {F : Fuel} : M Shake.Shake256 Fp :=
  p ← reject (lo ← xof_take; hi ← xof_take; mret (lo, hi .& MASK63)) (λ p, negb (p.1 =? 0) || negb (p.2 =? 0));
  mret (fp_from_words p.1 p.2).

Definition per_slot {F : Fuel} (pk : PubKey) (sk : SecKey) (sd : RSeed) (i d : Z) (S : nat) : res (list Fp) :=
  if (S =? 1)%nat then x ← delta_scalar pk sk sd i d; Ok [x]
  else
    match Shake.xof_init (c_str "pvac.delta.slot")
            (take 4 (prf_k sk) ++ [ztag sd; n_lo (nonce sd); n_hi (nonce sd); i + 1; d + 1]) with
    | None => Throw "abort"
    | Some xof => '(r, _) ← replicateM S xof_fp xof; Ok r
    end.

(** [delta::Set]: the values, and their sum. *)
Definition delta_make {F : Fuel} (pk : PubKey) (sk : SecKey) (sd : RSeed) (b : Budget) (S : nat)
    : res (list (list Fp) * list Fp) :=
  v ← mapR (λ i, per_slot pk sk sd (u32 i) (if i <? n2 b then 0 else 1) S) (zseq 0 (Z.to_nat (vol b)));
  Ok (v, foldl Op.add (Op.zeros S) v).

Definition prf_noise_delta {F : Fuel} (pk : PubKey) (sk : SecKey) (seed : RSeed) (gid kind : Z) : res Fp :=
  delta_scalar pk sk seed gid kind.

(** ** [graph] *)

Record SigNode : Set := mkSigNode { sn_pos : Z; sn_pol : Z; sn_coef : list Fp }.
Record N2 : Set := mkN2 { n2_pa : Z; n2_pb : Z; n2_sa : Z; n2_sb : Z; n2_ra : list Fp; n2_rb : list Fp }.
Record N3 : Set := mkN3 {
  n3_pa : Z; n3_pb : Z; n3_pc : Z; n3_sa : Z; n3_sb : Z; n3_sc : Z;
  n3_ra : list Fp; n3_rb : list Fp; n3_rc : list Fp }.

Section Graph.
Context {F : Fuel} {G} `{Rng G}.

Definition power (pk : PubKey) (i : Z) : Fp := nth (Z.to_nat i) (powg_B pk) fp0.

(** [Emitter::operator()] *)
Definition emit (pk : PubKey) (sd : RSeed) (pos pol : Z) (w : list Fp) : M G Edge :=
  salt ← rng_u64;
  s ← lift (sigma_from_H pk (ztag sd) (nonce sd) pos pol salt 0);
  mret (mkEdge 0 pos pol w s).

Definition sig_node (S : nat) (sel : Selector) : M G (SigNode * Selector) :=
  c ← replicateM S rand_fp_nonzero;
  '(pos, sel) ← fresh sel;
  pol ← rng_bit;
  mret (mkSigNode pos pol c, sel).

Fixpoint sig_nodes (n : nat) (S : nat) (sel : Selector) : M G (list SigNode * Selector) :=
  match n with
  | O => mret ([], sel)
  | Datatypes.S n => '(x, sel) ← sig_node S sel; '(xs, sel) ← sig_nodes n S sel; mret (x :: xs, sel)
  end.

Definition sig_acc (pk : PubKey) (S : nat) (nodes : list SigNode) : list Fp :=
  foldl (λ acc n, Op.add acc (Op.sgn (Op.mul_fp (sn_coef n) (power pk (sn_pos n))) (sn_pol n))) (Op.zeros S) nodes.

(** [SigEdge::K] *)
Definition SIG_K : nat := 8.

Definition sig_build (pk : PubKey) (sel : Selector) (target : list Fp) : M G (list SigNode * Selector) :=
  let S := length target in
  '(nodes, sel) ← sig_nodes SIG_K S sel;
  let acc := sig_acc pk S (removelast nodes) in
  let last := List.last nodes (mkSigNode 0 0 []) in
  let rem := Op.sub target acc in
  let q := Op.mul_fp rem (fp_inv (power pk (sn_pos last))) in
  let coef := if sgn_val (sn_pol last) <? 0 then Op.neg q else q in
  mret (removelast nodes ++ [mkSigNode (sn_pos last) (sn_pol last) coef], sel).

Definition n2_build (pk : PubKey) (sel : Selector) (dt : list Fp) (slots : nat) : M G N2 :=
  a ← rng_bounded (p_B (prm pk));
  b ← avoid sel a;
  sa ← rng_bit;
  let sb := sa .^ 1 in
  let gb_inv := fp_inv (power pk b) in
  r ← mapM' (λ j,
    let d := if 0 <? sgn_val sa then nth j dt fp0 else fp_neg (nth j dt fp0) in
    ra ← rand_fp_nonzero;
    mret (ra, fp_mul (fp_sub (fp_mul ra (power pk a)) d) gb_inv)) (seq 0 slots);
  mret (mkN2 a b sa sb (fst <$> r) (snd <$> r)).

Definition n3_build (pk : PubKey) (sel : Selector) (dt : list Fp) (slots : nat) : M G N3 :=
  a ← rng_bounded (p_B (prm pk));
  b ← avoid sel a;
  c ← avoid2 sel a b;
  sa ← rng_bit;
  sb ← rng_bit;
  sc ← rng_bit;
  let gc_inv := fp_inv (Op.sgn_fp (power pk c) sc) in
  r ← mapM' (λ j,
    ra ← rand_fp_nonzero;
    rb ← rand_fp_nonzero;
    let ta := Op.sgn_fp (fp_mul ra (power pk a)) sa in
    let tb := Op.sgn_fp (fp_mul rb (power pk b)) sb in
    mret (ra, rb, fp_mul (fp_sub (nth j dt fp0) (fp_add ta tb)) gc_inv)) (seq 0 slots);
  mret (mkN3 a b c sa sb sc (fst ∘ fst <$> r) (snd ∘ fst <$> r) (snd <$> r)).

(** [em(static_cast<uint16_t>(pos), pol, field::Op::mul(R, r))] *)
Definition emit_scaled (pk : PubKey) (sd : RSeed) (R : list Fp) (pos pol : Z) (r : list Fp) : M G Edge :=
  w ← lift (Op.mul R r); emit pk sd (u16 pos) pol w.

Definition realize2 (pk : PubKey) (sd : RSeed) (R : list Fp) (n : N2) : M G (list Edge) :=
  ea ← emit_scaled pk sd R (n2_pa n) (n2_sa n) (n2_ra n);
  eb ← emit_scaled pk sd R (n2_pb n) (n2_sb n) (n2_rb n);
  mret [ea; eb].

Definition realize3 (pk : PubKey) (sd : RSeed) (R : list Fp) (n : N3) : M G (list Edge) :=
  ea ← emit_scaled pk sd R (n3_pa n) (n3_sa n) (n3_ra n);
  eb ← emit_scaled pk sd R (n3_pb n) (n3_sb n) (n3_rb n);
  ec ← emit_scaled pk sd R (n3_pc n) (n3_sc n) (n3_rc n);
  mret [ea; eb; ec].

(** [for (t = 0; t < n; ++t) se += realize(em, R, build(ds[t], S));] *)
Fixpoint tuples {N} (build : list Fp → M G N) (real : N → M G (list Edge)) (ds : list (list Fp)) : M G (list Edge) :=
  match ds with
  | [] => mret []
  | dt :: ds => n ← build dt; e ← real n; es ← tuples build real ds; mret (e ++ es)
  end.

End Graph.

(** ** The commitments of a layer *)

Definition derive_scalar (sk : SecKey) (dom : string) (n : Nonce128) (j : Z) : Scalar :=
  let h := sha_str sha_init dom in
  let h := foldl Sha.sha256_acc_u64 h (take 4 (prf_k sk)) in
  let h := Sha.sha256_acc_u64 h (n_lo n) in
  let h := Sha.sha256_acc_u64 h (n_hi n) in
  let h := Sha.sha256_acc_u64 h j in
  sc_reduce256 (Sha.finish h).

Definition derive_rho_prod (sk : SecKey) (L : Layer) (j : Z) : Scalar := derive_scalar sk Dom.PRF_RHO_PROD (nonce (seed L)) j.
Definition derive_r_alpha (sk : SecKey) (L : Layer) (j : Z) : Scalar := derive_scalar sk Dom.PRF_R_ALPHA (nonce (seed L)) j.

Definition compute_prod_layer_PC (L : Layer) (sk : SecKey) (R_pa R_pb : list Fp) (S : nat) : res Layer :=
  PC' ← mapR (λ j,
    let R_inv_j := fp_inv (fp_mul (nth j R_pa fp0) (nth j R_pb fp0)) in
    pedersen_commit (sc_from_fp_signed R_inv_j) (derive_rho_prod sk L (Z.of_nat j))) (seq 0 S);
  Ok (mkLayer (rule L) (seed L) (pa L) (pb L) (R_com L) (R_PC L) PC').

Definition compute_layer_PC (L : Layer) (sk : SecKey) (R : list Fp) (S : nat) : res Layer :=
  cs ← mapR (λ j,
    let R_inv_j := fp_inv (nth j R fp0) in
    let rho_j := derive_scalar sk Dom.PRF_RHO (nonce (seed L)) (Z.of_nat j) in
    c ← pedersen_commit (sc_from_fp_signed (nth j R fp0)) (derive_r_alpha sk L (Z.of_nat j));
    c' ← pedersen_commit (sc_from_fp_signed R_inv_j) rho_j;
    Ok (c, c')) (seq 0 S);
  Ok (mkLayer (rule L) (seed L) (pa L) (pb L) (R_com L) (fst <$> cs) (snd <$> cs)).

(** ** [core::synth] *)

Section Synth.
Context {F : Fuel} {LOG : Log2} {G} `{Rng G}.

(** [for (attempt = 0; attempt < 16 && R.empty(); ++attempt)] *)
Fixpoint mask_loop (n : nat) (pk : PubKey) (sk : SecKey) (S : nat) : M G (RSeed * list Fp) :=
  match n with
  | O => raise "pvac: circuit prf nonzero mask generation failed"
  | Datatypes.S n =>
      nonce ← make_nonce128;
      let sd := mkRSeed (prg_layer_ztag (canon_tag pk) nonce) nonce in
      candidate ← lift (circuit_prf_R_slots pk sk sd S);
      if circuit_prf_slots_nonzero candidate && negb (length candidate =? 0)%nat then mret (sd, candidate)
      else mask_loop n pk sk S
  end.

Definition synth (pk : PubKey) (sk : SecKey) (v : list Fp) (depth : Z) : M G Cipher :=
  let S := length v in
  '(sd, R) ← mask_loop 16 pk sk S;
  b ← lift (budget (prm pk) depth);
  '(ds, agg) ← lift (delta_make pk sk sd b S);
  let com := compute_R_com_base (canon_tag pk) (ztag sd) (n_lo (nonce sd)) (n_hi (nonce sd)) R in
  L ← lift (compute_layer_PC (mkLayer BASE sd 0 0 com [] []) sk R S);
  let va := Op.sub v agg in
  sel ← lift (selector_new (p_B (prm pk)));
  '(sn, sel) ← sig_build pk sel va;
  se ← mapM' (λ n, w ← lift (Op.mul (sn_coef n) R); emit pk sd (u16 (sn_pos n)) (sn_pol n) w) sn;
  e2 ← tuples (λ dt, n2_build pk sel dt S) (realize2 pk sd R) (take (Z.to_nat (n2 b)) ds);
  e3 ← tuples (λ dt, n3_build pk sel dt S) (realize3 pk sd R) (take (Z.to_nat (n3 b)) (drop (Z.to_nat (n2 b)) ds));
  m ← lift (merge (se ++ e2 ++ e3) pk);
  all ← permute m;
  mret (mkCipher [L] all (Op.zeros S) S).
End Synth.

(** The same, with [rng] for the system generator. *)
Definition synth_seeded {F : Fuel} {LOG : Log2} (pk : PubKey) (sk : SecKey) (v : list Fp) (depth : Z) : M Aes.AesCtr256 Cipher :=
  synth pk sk v depth.

(** ** [core::fuse] *)

Definition fuse (pk : PubKey) (a b : Cipher) : res Cipher :=
  if negb (slots a =? slots b)%nat then Throw "assertion: fuse: slots mismatch"
  else
    let off := u32 (Z.of_nat (length (L a))) in
    let ls := L a ++ (shift_layer off <$> L b) in
    let es := E a ++ (shift_edge off <$> E b) in
    es ← (if edge_budget (prm pk) <? Z.of_nat (length es) then merge es pk else Ok es);
    Ok (mkCipher ls es (Op.add (c0 a) (c0 b)) (slots a)).

Definition combine_ciphers (pk : PubKey) (a b : Cipher) : res Cipher := fuse pk a b.

(** ** Encryption

    [combine_ciphers(pk, enc(..), enc(..))]: C++ leaves the order in which the
    two arguments draw to the compiler; [ltr] says which. *)

Section Enc.
Context {F : Fuel} {LOG : Log2}.

Definition enc_fp_depth {G} `{Rng G} (pk : PubKey) (sk : SecKey) (v : list Fp) (d : Z) : M G Cipher := synth pk sk v d.
Definition enc_fp_raw_depth {G} `{Rng G} (pk : PubKey) (sk : SecKey) (v : list Fp) (d : Z) : M G Cipher := enc_fp_depth pk sk v d.

Definition combine_enc {G} `{Rng G} (ltr : bool) (pk : PubKey) (sk : SecKey) (x y : list Fp) (d : Z) : M G Cipher :=
  '(a, b) ← (if ltr then a ← enc_fp_depth pk sk x d; b ← enc_fp_depth pk sk y d; mret (a, b)
             else b ← enc_fp_depth pk sk y d; a ← enc_fp_depth pk sk x d; mret (a, b));
  lift (combine_ciphers pk a b).

Definition enc_fp_wrapped_depth (ltr : bool) (pk : PubKey) (sk : SecKey) (v : list Fp) (d : Z) : M Os.Csprng Cipher :=
  m ← replicateM (length v) rand_fp_nonzero;
  combine_enc ltr pk sk (Op.add v m) (Op.neg m) d.

Definition enc_value_depth (ltr : bool) (pk : PubKey) (sk : SecKey) (v : Z) (d : Z) : M Os.Csprng Cipher :=
  let vals := [fp_from_u64 v] in
  m ← replicateM 1 rand_fp_nonzero;
  combine_enc ltr pk sk (Op.add vals m) (Op.neg m) d.

Definition enc_value (ltr : bool) (pk : PubKey) (sk : SecKey) (v : Z) : M Os.Csprng Cipher :=
  enc_value_depth ltr pk sk v 0.

Definition enc_values_depth (ltr : bool) (pk : PubKey) (sk : SecKey) (v : list Z) (d : Z) : M Os.Csprng Cipher :=
  let vals := fp_from_u64 <$> v in
  m ← replicateM (length v) rand_fp_nonzero;
  combine_enc ltr pk sk (Op.add vals m) (Op.neg m) d.

Definition enc_values (ltr : bool) (pk : PubKey) (sk : SecKey) (v : list Z) : M Os.Csprng Cipher :=
  enc_values_depth ltr pk sk v 0.

Definition enc_zero_depth (ltr : bool) (pk : PubKey) (sk : SecKey) (d : Z) : M Os.Csprng Cipher :=
  m ← replicateM 1 rand_fp_nonzero;
  combine_enc ltr pk sk m (Op.neg m) d.

(** *** From a seed *)

Definition seed_mix_u64 (h : Sha.Sha256) (x : Z) : Sha.Sha256 := Sha.update h (Sha.be64 x).
Definition seed_mix_fp (h : Sha.Sha256) (x : Fp) : Sha.Sha256 := seed_mix_u64 (seed_mix_u64 h (lo x)) (hi x).

Definition enc_seed_scope (pk : PubKey) (seed : list Z) (op : string) (slots depth : Z) (values : list Fp) : list Z :=
  let h := Sha.update sha_init (c_str "pvac.enc.seed.v2") in
  let h := Sha.update h (take 32 seed) in
  let h := seed_mix_u64 h (canon_tag pk) in
  let h := Sha.update h (H_digest pk) in
  let h := Sha.update h (c_str op) in
  let h := seed_mix_u64 h slots in
  let h := seed_mix_u64 h (u64 depth) in
  let h := seed_mix_u64 h (Z.of_nat (length values)) in
  Sha.finish (foldl seed_mix_fp h values).

Definition enc_fp_depth_seeded (pk : PubKey) (sk : SecKey) (v : list Fp) (d : Z) : M Aes.AesCtr256 Cipher := synth_seeded pk sk v d.

(** The masks, then the two ciphertexts, in order. *)
Definition enc_scoped (pk : PubKey) (sk : SecKey) (x : list Fp → list Fp) (n : nat) (d : Z) : M Aes.AesCtr256 Cipher :=
  m ← replicateM n rand_fp_nonzero;
  pos ← enc_fp_depth_seeded pk sk (x m) d;
  neg ← enc_fp_depth_seeded pk sk (Op.neg m) d;
  lift (combine_ciphers pk pos neg).

Definition run_seeded (pk : PubKey) (seed : list Z) (op : string) (vals : list Fp) (d : Z) (m : M Aes.AesCtr256 Cipher) : res Cipher :=
  let scoped := enc_seed_scope pk seed op (Z.of_nat (length vals)) d vals in
  '(C, _) ← m (make_seeded_rng scoped); Ok C.

Definition enc_value_seeded (pk : PubKey) (sk : SecKey) (v : Z) (seed : list Z) : res Cipher :=
  let vals := [fp_from_u64 v] in
  run_seeded pk seed "value" vals 0 (enc_scoped pk sk (Op.add vals) 1 0).

Definition enc_value_depth_seeded (pk : PubKey) (sk : SecKey) (v d : Z) (seed : list Z) : res Cipher :=
  let vals := [fp_from_u64 v] in
  run_seeded pk seed "value_depth" vals d (enc_scoped pk sk (Op.add vals) 1 d).

Definition enc_values_seeded (pk : PubKey) (sk : SecKey) (v : list Z) (seed : list Z) : res Cipher :=
  let vals := fp_from_u64 <$> v in
  run_seeded pk seed "values" vals 0 (enc_scoped pk sk (Op.add vals) (length v) 0).

Definition enc_zero_seeded (pk : PubKey) (sk : SecKey) (seed : list Z) : res Cipher :=
  let vals := [fp0] in
  run_seeded pk seed "zero" vals 0 (enc_scoped pk sk (λ m, m) 1 0).

End Enc.
