(* ===== verification/Noise.v ===== *)
(** * The masks and the noise of an encryption never fail

    [circuit_prf_R_slots], [lpn_v2::noise], [delta::Gen] and the commitments of a
    layer, for parameters that [require_params] accepts: no exception is thrown,
    the vectors have one reduced entry per slot. *)

From S2P Require Import Prelude Primes Field Hash Rng CtSafe Types Toeplitz Matrix Lpn Scalar25519 Ristretto RistrettoGroup Decrypt Reduce Compact Coeffs Arithmetic Linear Post Repack Encrypt.

#[local] Opaque fp_inv fp_mul fp_add fp_sub fp_neg.

(** ** Results without a state *)

Definition rpost {A} (T : string → Prop) (r : res A) (Q : A → Prop) : Prop :=
  match r with Ok a => Q a | Throw m => T m | OutOfFuel => True end.

Section Rpost.
Context (T : string → Prop).

Lemma rpost_bind {A B} (r : res A) (f : A → res B) Q Q' : rpost T r Q → (∀ a, Q a → rpost T (f a) Q') → rpost T (r ≫= f) Q'.
Proof. intros Hr Hf. destruct r; cbn; [by apply Hf|done..]. Qed.

Lemma rpost_mono {A} (r : res A) (Q Q' : A → Prop) : rpost T r Q → (∀ a, Q a → Q' a) → rpost T r Q'.
Proof. intros Hr HQ. destruct r; cbn in *; auto. Qed.

Lemma rpost_and {A} (r : res A) (Q Q' : A → Prop) : rpost T r Q → (∀ a, r = Ok a → Q' a) → rpost T r (λ a, Q a ∧ Q' a).
Proof. intros Hr HQ. destruct r; cbn in *; auto. Qed.

Lemma rpost_weaken {A} (T' : string → Prop) (r : res A) Q : rpost T r Q → (∀ m, T m → T' m) → rpost T' r Q.
Proof. intros Hr HT. destruct r; cbn in *; auto. Qed.

Lemma rpost_mapR {A B} (f : A → res B) (Q : A → B → Prop) l : (∀ x, x ∈ l → rpost T (f x) (Q x)) → rpost T (mapR f l) (λ ys, Forall2 Q l ys).
Proof.
  induction l as [|x l IH]; intros Hl; cbn [mapR]; [constructor|].
  eapply rpost_bind; [apply Hl; by left|]. intros y Hy. eapply rpost_bind; [apply IH; intros z Hz; apply Hl; by right|].
  intros ys Hys. cbn. by constructor.
Qed.

(** A computation run from a state. *)
Lemma post_run {G A} (m : M G A) g Q : post T m Q → rpost T ('(x, _) ← m g; Ok x) Q.
Proof. intros Hm. specialize (Hm g). by destruct (m g) as [[a ?]| |]. Qed.
End Rpost.

Abbreviation safe := (rpost (λ _, False)).

(** ** The circuit masks *)

Section Circuit.
Context (pk : PubKey) (sk : SecKey) (Hv : valid_circuit_prf_profile (circuit_prf_profile pk) = true).

Lemma circuit_loop_safe key l st : safe (circuit_prf_loop (circuit_prf_profile pk) key l st) (λ _, True).
Proof.
  revert st. induction l as [|rd l IH]; intros st; cbn [circuit_prf_loop]; [done|].
  eapply (rpost_bind _ _ _ (λ _, True)).
  - unfold circuit_prf_round_constant, circuit_prf_round_domain. by destruct (circuit_prf_profile pk).
  - intros rc _. eapply (rpost_bind _ _ _ (λ _, True)); [|intros; apply IH].
    unfold circuit_prf_power. by destruct (circuit_prf_profile pk).
Qed.

Lemma circuit_R_safe sd j : safe (circuit_prf_R pk sk sd j) (λ _, True).
Proof.
  unfold circuit_prf_R. eapply (rpost_bind _ _ _ (λ _, True)).
  { unfold circuit_prf_key_for_profile. by destruct (circuit_prf_profile pk). }
  intros key _. eapply (rpost_bind _ _ _ (λ _, True)).
  { unfold circuit_prf_challenge, circuit_prf_challenge_domain. by destruct (circuit_prf_profile pk). }
  intros st _. eapply (rpost_bind _ _ _ (λ _, True)).
  { unfold circuit_prf_rounds. by rewrite Hv. }
  intros n _. eapply rpost_bind; [apply circuit_loop_safe|]. intros st' _. by destruct (circuit_prf_profile pk).
Qed.

Lemma circuit_slots_safe sd n : keys_ok sk → safe (circuit_prf_R_slots pk sk sd n) (λ R,
  length R = n ∧ Forall fp_ok R ∧ (circuit_prf_profile pk = MIMC_X3_V6 → Forall fp_unit R)).
Proof.
  intros Hk. eapply rpost_mono.
  - apply (rpost_and _ _ (λ _, True)); [|intros R HR; exact (circuit_prf_R_slots_ok pk sk sd n R Hk HR)].
    eapply rpost_mono; [apply rpost_mapR; intros; apply circuit_R_safe|done].
  - cbn beta. tauto.
Qed.
End Circuit.

(** ** [lpn_v2::noise] *)

Lemma length_fill_pairs n k a : (k ≤ n)%nat → length (Aes.fill_pairs n k a).1 = k.
Proof.
  revert k a. induction n as [|n IH]; intros k a Hk; [by destruct k; [|lia]|].
  destruct k as [|[|k]]; [done|cbn [Aes.fill_pairs]; by destruct (Aes.encrypt_ctr a)|].
  cbn [Aes.fill_pairs]. destruct (Aes.encrypt_ctr a) as [ct a']. specialize (IH k a' ltac:(lia)).
  destruct (Aes.fill_pairs n k a'). cbn in *. by rewrite IH.
Qed.

Lemma length_fill n a : length (Aes.fill_u64 n a).1 = n.
Proof.
  unfold Aes.fill_u64. destruct (Aes.has_buf a && (0 <? n)%nat) eqn:E; [|by apply length_fill_pairs].
  apply andb_true_iff in E as [_ E%Nat.ltb_lt].
  pose proof (length_fill_pairs n (n - 1) (Aes.mkAes (Aes.rk a) (Aes.ctr a) (Aes.abuf a) false) ltac:(lia)) as Hl.
  destruct (Aes.fill_pairs _ _ _). cbn in *. lia.
Qed.

Section Noise.
Context {F : Fuel} (pk : PubKey) (sk : SecKey) (Ht : 0 < lpn_t (prm pk)).

Lemma post_lpn_row w num den : post (λ _, False) (lpn_row sk w num den) (λ _, True).
Proof.
  intros prg. unfold lpn_row. destruct (Aes.fill_u64 w prg) as [row prg']. cbv zeta.
  set (m := _ ≫= _). assert (Hm : post (λ _, False) m (λ _, True)); [|exact (Hm prg')]. unfold m.
  eapply (post_bind _ _ _ (λ _, True)); [|by intros; apply post_ret].
  intros g. pose proof (rng_bounded_no_throw (G := Aes.AesCtr256) den g) as Hn. cbn in Hn.
  destruct (Aes.bounded den g) as [[x g']|e|]; [done| |done]. by destruct (Hn e).
Qed.

Lemma post_lpn_rows w num den rs y : post (λ _, False) (lpn_rows sk w num den rs y) (λ y', length y' = length y).
Proof.
  revert y. induction rs as [|r rs IH]; intros y; cbn [lpn_rows]; [by apply post_ret|].
  eapply post_bind; [apply post_lpn_row|]. intros b _. eapply post_mono; [apply IH|].
  intros y'. cbn beta. by rewrite length_alter.
Qed.

Lemma ybits_safe sd dom : safe (lpn_make_ybits pk sk sd dom) (λ y, Z.of_nat (length y) = (lpn_t (prm pk) + 63) / 64).
Proof.
  unfold lpn_make_ybits. cbv zeta. destruct (derive_aes_key pk sk sd dom) as [key n].
  eapply rpost_mono; [apply post_run, post_lpn_rows|]. intros y. cbn beta. rewrite length_replicate. intros ->.
  rewrite Z2Nat.id; [done|]. apply Z.div_pos; lia.
Qed.

Lemma v2_core_safe sd dom : safe (lpn_v2.core pk sk sd dom) fp_unit.
Proof.
  eapply rpost_mono; [apply (rpost_and _ _ (λ _, True)); [|intros x; exact (v2_core_unit pk sk sd dom x)]|by intros x [_ ?]].
  unfold lpn_v2.core. eapply rpost_bind; [apply ybits_safe|]. intros y Hy. destruct (derive_aes_key pk sk sd Dom.TOEP) as [key n].
  cbv zeta. pose proof (length_fill (Z.to_nat ((lpn_t (prm pk) + 126 + 63) / 64)) (Aes.init key (n .^ fnv1a_domain dom))) as Hf.
  destruct (Aes.fill_u64 _ _) as [top prg]. cbn in Hf. eapply (rpost_bind _ _ _ (λ _, True)); [|by intros [? ?]].
  unfold toep_127_full. rewrite (proj2 (Z.eqb_neq _ 0)) by lia. cbv zeta.
  assert (Ht2 : Z.of_nat (length top) = (lpn_t (prm pk) + 126 + 63) / 64) by (rewrite Hf, Z2Nat.id; [done|apply Z.div_pos; lia]).
  by rewrite Hy, Ht2, !Z.eqb_refl.
Qed.

Lemma noise_safe sd : safe (lpn_v2.noise pk sk sd) fp_unit.
Proof.
  unfold lpn_v2.noise. eapply rpost_bind; [apply v2_core_safe|]. intros a Ha. eapply rpost_bind; [apply v2_core_safe|]. intros b Hb.
  eapply rpost_bind; [apply v2_core_safe|]. intros c Hc. cbn. by apply fp_unit_mul; [apply fp_unit_mul|].
Qed.

(** ** [delta] *)

Lemma absorb_squeezing n s data : Shake.squeezing (Shake.absorb_loop n s data) = Shake.squeezing s.
Proof.
  revert s data. induction n as [|n IH]; intros s data; cbn [Shake.absorb_loop]; [done|]. destruct data; [done|].
  cbv zeta. rewrite IH. cbn [Shake.squeezing]. unfold Shake.turn. by destruct (_ =? _).
Qed.

(** The state of [XofShake] is absorbing until [init] ends. *)
Lemma xof_init_Some label l : is_Some (Shake.xof_init label l).
Proof.
  unfold Shake.xof_init. apply fmap_is_Some.
  assert (G : ∀ l s, Shake.squeezing s = false → ∃ s', foldl (λ s w, s ≫= λ s, Shake.absorb s (store_le64 w)) (Some s) l = Some s').
  { clear. induction l as [|w l IH]; intros s Hs; [by eexists|]. cbn [foldl mbind option_bind]. unfold Shake.absorb at 2. rewrite Hs.
    apply IH. by rewrite absorb_squeezing. }
  unfold Shake.absorb at 2. cbn [Shake.squeezing Shake.init]. destruct (G l (Shake.absorb_loop (S (length label)) Shake.init label)) as [s' E];
    [by rewrite absorb_squeezing|]. rewrite E. by eexists.
Qed.

Lemma post_xof_fp : post (λ _, False) xof_fp fp_ok.
Proof.
  unfold xof_fp. assert (Ht' : post (λ _, False) xof_take (word 64)).
  { intros s. unfold xof_take, Shake.take_u64, Shake.next_u64. destruct (Shake.squeeze s 8). apply load_le64_word. }
  eapply (post_bind _ _ _ (λ p, word 64 p.1 ∧ word 64 p.2)).
  - apply post_reject. eapply post_bind; [exact Ht'|]. intros l Hl. eapply post_bind; [exact Ht'|]. intros h Hh.
    apply post_ret. intros _. split; [done|]. cbn. unfold MASK63. rewrite (land_low _ 63) by done. word_lia.
  - intros [l h] [Hl Hh]. apply post_ret. cbn [fst snd] in *. eapply rep_ok, rep_words; done.
Qed.

Lemma delta_scalar_safe sd i d : safe (delta_scalar pk sk sd i d) fp_ok.
Proof. unfold delta_scalar. cbv zeta. eapply rpost_mono; [apply noise_safe|]. by intros x [? _]. Qed.

Lemma per_slot_safe sd i d S : safe (per_slot pk sk sd i d S) (vec_ok S).
Proof.
  unfold per_slot. destruct (Nat.eqb_spec S 1) as [->|_].
  - eapply rpost_bind; [apply delta_scalar_safe|]. intros x Hx. cbn. split; [done|by apply Forall_singleton].
  - destruct (xof_init_Some (c_str "pvac.delta.slot") (take 4 (prf_k sk) ++ [ztag sd; n_lo (nonce sd); n_hi (nonce sd); i + 1; d + 1])) as [xof ->].
    apply post_run. apply post_replicate, post_xof_fp.
Qed.

(** The sum of slot [j] over a list of vectors. *)
Definition vsum (ds : list (list Fp)) (j : nat) : Z := foldr (λ d s, fval d j + s) 0 ds.

Lemma vsum_app ds ds' j : vsum (ds ++ ds') j = vsum ds j + vsum ds' j.
Proof. induction ds as [|d ds IH]; [done|]. cbn [app vsum foldr] in *. unfold vsum in *. cbn [foldr]. lia. Qed.

Lemma fold_add_spec S ds acc : vec_ok S acc → Forall (vec_ok S) ds →
  vec_ok S (foldl Op.add acc ds) ∧ ∀ j, (j < S)%nat → cong P (fval (foldl Op.add acc ds) j) (fval acc j + vsum ds j).
Proof.
  intros Ha Hds. revert acc Ha. induction Hds as [|d ds Hd _ IH]; intros acc Ha; cbn [foldl].
  - split; [done|]. intros j _. cbn. by rewrite Z.add_0_r.
  - assert (R : ∀ j, (j < S)%nat → nth j (Op.add acc d) fp0 ~~ fval acc j + fval d j).
    { intros j Hj. apply (Op_add_rep S); [apply Ha|apply Hd|done|apply nth_rep, Ha|apply nth_rep, Hd]. }
    assert (Hv : vec_ok S (Op.add acc d)) by (eapply vec_ok_of; [|exact R]; unfold Op.add; apply Op_length; [apply Ha|apply Hd]).
    destruct (IH _ Hv) as [H1 H2]. split; [done|]. intros j Hj. rewrite (H2 j Hj). destruct (R j Hj) as [_ E].
    unfold fval at 1. rewrite E. unfold vsum. cbn [foldr]. apply cong_eq. lia.
Qed.

Lemma zeros_ok S : vec_ok S (Op.zeros S).
Proof. split; [apply length_zeros|apply Forall_replicate, fp0_ok]. Qed.

Lemma delta_make_safe sd b S : 0 ≤ vol b → safe (delta_make pk sk sd b S) (λ '(ds, agg),
  Z.of_nat (length ds) = vol b ∧ Forall (vec_ok S) ds ∧ vec_ok S agg ∧ ∀ j, (j < S)%nat → cong P (fval agg j) (vsum ds j)).
Proof.
  intros Hb. unfold delta_make. eapply rpost_bind; [apply (rpost_mapR _ _ (λ _, vec_ok S)); intros; apply per_slot_safe|].
  intros ds Hds. cbn beta in Hds. pose proof (Forall2_length _ _ _ Hds) as Hl. rewrite length_zseq in Hl.
  assert (HF : Forall (vec_ok S) ds) by (clear -Hds; induction Hds; by constructor).
  destruct (fold_add_spec S ds (Op.zeros S) (zeros_ok S) HF) as [H1 H2]. cbn. split_and!; [lia|done..|].
  intros j Hj. rewrite (H2 j Hj). unfold fval at 1. by rewrite nth_zeros.
Qed.
End Noise.

(** ** The commitments *)

(** A digest as a scalar. *)
Lemma sc_reduce256_ok b : length b = 32%nat → bytes b → sc_ok (sc_reduce256 b).
Proof.
  intros Hb Bb. unfold sc_reduce256. destruct (sc_from_bytes_spec b Hb Bb) as [[Hl Hw] _].
  by apply (sc_reduce512_small Prior (sv (sc_from_bytes b)) 0).
Qed.

Lemma derive_scalar_ok sk dom n j : sc_ok (derive_scalar sk dom n j).
Proof.
  unfold derive_scalar. cbv zeta. apply sc_reduce256_ok; [|apply finish_bytes].
  apply finish_length. unfold Sha.sha256_acc_u64. rewrite !update_length.
  assert (G : ∀ l s, length (Sha.h (foldl (λ s x, Sha.update s (store_le64 x)) s l)) = length (Sha.h s)).
  { clear. induction l as [|x l IH]; intros s; [done|]. cbn [foldl]. by rewrite IH, update_length. }
  etransitivity; [apply G|]. unfold sha_str. by rewrite update_length.
Qed.

Lemma pedersen_safe v r : sc_ok v → sc_ok r → safe (pedersen_commit v r) (λ _, True).
Proof.
  intros Hv Hr. destruct rist_H_enc as [H HH]. destruct (pedersen_commit_enc _ _ v r rist_G_enc HH Hv Hr) as (c & -> & _). done.
Qed.

Lemma signed_safe x r : fp_ok x → sc_ok r → safe (pedersen_commit (sc_from_fp_signed x) r) (λ _, True).
Proof. intros Hx Hr. pose proof (proj1 (sc_from_fp_signed_spec x Hx)) as Hs. exact (pedersen_safe _ _ Hs Hr). Qed.

Lemma layer_PC_safe sk l R S : vec_ok S R → safe (compute_layer_PC l sk R S) (λ l',
  ∃ cs cs', length cs = S ∧ length cs' = S ∧ l' = mkLayer (rule l) (seed l) (pa l) (pb l) (R_com l) cs cs').
Proof.
  intros HR. unfold compute_layer_PC. eapply rpost_bind; [apply (rpost_mapR _ _ (λ _ _, True))|].
  - intros j _. cbv zeta. assert (Hj : fp_ok (nth j R fp0)) by apply nth_ok, HR.
    assert (Hi : fp_ok (fp_inv (nth j R fp0))) by (eapply rep_ok, rep_inv_pow, rep_val, Hj).
    pose proof (signed_safe _ _ Hj (derive_scalar_ok sk Dom.PRF_R_ALPHA (nonce (seed l)) (Z.of_nat j))) as H1.
    pose proof (signed_safe _ _ Hi (derive_scalar_ok sk Dom.PRF_RHO (nonce (seed l)) (Z.of_nat j))) as H2.
    eapply rpost_bind; [exact H1|]. intros c _. eapply rpost_bind; [exact H2|]. intros c' _. exact I.
  - intros cs Hcs. apply Forall2_length in Hcs. rewrite length_seq in Hcs. cbn. exists (fst <$> cs), (snd <$> cs).
    by rewrite !length_fmap.
Qed.
