(* ===== verification/Graph.v ===== *)
(** * The edges of an encryption sum to the plaintext

    [graph::SigEdge], [graph::N2Edge], [graph::N3Edge] and [realize]: whatever is
    drawn, eight nodes sum to the target, a pair or a triple sums to its noise
    value, and the edges realized from them carry that sum times the mask. *)

From S2P Require Import Prelude Primes Field Hash Rng CtSafe Types Matrix Lpn Scalar25519 Ristretto Decrypt Reduce Compact Coeffs Arithmetic Linear Post Repack Encrypt Noise.

#[local] Opaque fp_inv fp_mul fp_add fp_sub fp_neg.

Lemma sgn_fp_rep x v s : x ~~ v → Op.sgn_fp x s ~~ sgn_val s * v.
Proof.
  intros Hx. unfold Op.sgn_fp. destruct (sgn_val_pm s) as [-> | ->]; cbn [Z.ltb Z.compare].
  - by rewrite Z.mul_1_l.
  - replace (-1 * v) with (- v) by ring. by apply rep_neg.
Qed.

Lemma sgn_square s : sgn_val s * sgn_val s = 1.
Proof. by destruct (sgn_val_pm s) as [-> | ->]. Qed.

Section Graph.
Context {F : Fuel} {G} `{RngLaws G} (T : string → Prop) (pk : PubKey) (S : nat).
Context (Hpk : pubkey_wf pk) (Hpow : pubkey_powers_ok pk = true) (Hw : weights_ok pk) (HB : 8 ≤ p_B (prm pk) ≤ 65536).

Definition pw (i : Z) : Z := fval (powg_B pk) (Z.to_nat i).

Definition pos_ok (i : Z) : Prop := 0 ≤ i < p_B (prm pk).
Definition pol_ok (c : Z) : Prop := c = SGN_P ∨ c = SGN_M.

(** What a node contributes to slot [j]. *)
Definition sterm (pol : Z) (c : list Fp) (i : Z) (j : nat) : Z := sgn_val pol * (fval c j * pw i).

Lemma power_rep i : power pk i ~~ pw i.
Proof. apply nth_rep, Hpk. Qed.

(** Powers are invertible. *)
Lemma power_unit i : pos_ok i → val (power pk i) ≠ 0.
Proof.
  intros Hi E0. pose proof (powers_inverse pk i (proj1 Hpk) Hpow Hi) as HI.
  unfold fval at 1 in HI. fold (power pk i) in HI. rewrite E0, Z.mul_0_l in HI. done.
Qed.

Lemma unit_inv x v : x ~~ v → val x ≠ 0 → ∃ u, fp_inv x ~~ u ∧ cong P (v * u) 1.
Proof.
  intros Hx Hn. exists (val (fp_inv x)). assert (Hi : fp_ok (fp_inv x)) by (eapply rep_ok, rep_inv_pow, Hx).
  split; [by apply rep_val|]. destruct (rep_mul _ _ _ _ Hx (rep_val _ Hi)) as [_ Hm].
  rewrite fp_mul_inv in Hm by (done || by eapply rep_ok). by rewrite (proj2 (fp_from_u64_spec 1 ltac:(word_lia))) in Hm.
Qed.

(** ** [idx::Selector] *)

Lemma post_fresh sel : sel_B sel = p_B (prm pk) → used sel < p_B (prm pk) →
  post T (fresh sel) (λ '(x, sel'), pos_ok x ∧ sel_B sel' = p_B (prm pk) ∧ used sel' = used sel + 1).
Proof.
  intros HsB Hu. unfold fresh. rewrite HsB, (proj2 (Z.leb_gt _ _)) by done.
  eapply (post_bind _ _ _ pos_ok); [|by intros x Hx; apply post_ret].
  apply post_reject. eapply post_mono; [apply post_bounded; lia|]. by intros x Hx _.
Qed.

Lemma post_avoid sel a : sel_B sel = p_B (prm pk) → post T (avoid sel a) (λ x, pos_ok x ∧ x ≠ a).
Proof.
  intros HsB. unfold avoid. rewrite HsB, (proj2 (Z.leb_gt _ _)) by lia.
  apply post_reject. eapply post_mono; [apply post_bounded; lia|]. intros x Hx Hn. split; [done|].
  by apply negb_true_iff, Z.eqb_neq in Hn.
Qed.

Lemma post_avoid2 sel a b : sel_B sel = p_B (prm pk) → post T (avoid2 sel a b) (λ x, pos_ok x ∧ x ≠ a ∧ x ≠ b).
Proof.
  intros HsB. unfold avoid2. rewrite HsB, (proj2 (Z.leb_gt _ 2)) by lia. cbn [andb].
  apply post_reject. eapply post_mono; [apply post_bounded; lia|]. intros x Hx Hn. split; [done|].
  by apply negb_true_iff, orb_false_iff in Hn as [?%Z.eqb_neq ?%Z.eqb_neq].
Qed.

(** ** [SigEdge] *)

Definition node_ok (n : SigNode) : Prop := pos_ok (sn_pos n) ∧ pol_ok (sn_pol n) ∧ vec_ok S (sn_coef n).

Definition nsum (ns : list SigNode) (j : nat) : Z := foldr (λ n s, sterm (sn_pol n) (sn_coef n) (sn_pos n) j + s) 0 ns.

Lemma nsum_app ns ns' j : nsum (ns ++ ns') j = nsum ns j + nsum ns' j.
Proof. induction ns as [|n ns IH]; [done|]. cbn [app nsum foldr] in *. unfold nsum in *. cbn [foldr]. lia. Qed.

Lemma post_unit_vec : post T (replicateM S rand_fp_nonzero) (vec_ok S).
Proof.
  eapply post_mono; [apply post_replicate, post_fp_nonzero|]. intros c [Hl Hc]. split; [done|].
  eapply Forall_impl; [exact Hc|]. by intros x [? _].
Qed.

Lemma post_sig_nodes n sel : sel_B sel = p_B (prm pk) → used sel + Z.of_nat n ≤ p_B (prm pk) →
  post T (sig_nodes n S sel) (λ '(ns, sel'), length ns = n ∧ sel_B sel' = p_B (prm pk) ∧ Forall node_ok ns).
Proof.
  revert sel. induction n as [|n IH]; intros sel HsB Hu; cbn [sig_nodes]; [by apply post_ret|].
  eapply (post_bind _ _ _ (λ '(x, sel'), node_ok x ∧ sel_B sel' = p_B (prm pk) ∧ used sel' = used sel + 1)).
  - unfold sig_node. eapply post_bind; [apply post_unit_vec|]. intros c Hc.
    eapply post_bind; [apply post_fresh; [done|lia]|]. intros [x sel'] (Hx & E1 & E2).
    eapply post_bind; [apply post_bit|]. intros b Hb. by apply post_ret.
  - intros [x sel'] (Hx & E1 & E2). eapply post_bind; [apply IH; [done|lia]|]. intros [ns sel2] (Hl & E3 & Hns).
    apply post_ret. cbn. split; [by rewrite Hl|]. split; [done|by constructor].
Qed.


(** Adding a node to the running sum. *)
Lemma sig_step acc n : vec_ok S acc → node_ok n →
  let acc' := Op.add acc (Op.sgn (Op.mul_fp (sn_coef n) (power pk (sn_pos n))) (sn_pol n)) in
  vec_ok S acc' ∧ ∀ j, (j < S)%nat → cong P (fval acc' j) (fval acc j + sterm (sn_pol n) (sn_coef n) (sn_pos n) j).
Proof.
  intros Ha (_ & _ & Hc). cbv zeta. set (t := Op.mul_fp _ _).
  assert (Lt : length t = S) by (unfold t, Op.mul_fp; rewrite length_fmap; apply Hc).
  assert (Rt : ∀ j, (j < S)%nat → nth j t fp0 ~~ fval (sn_coef n) j * pw (sn_pos n)) by (intros; by apply (mul_fp_rep S); [|apply power_rep|]).
  assert (Ls : length (Op.sgn t (sn_pol n)) = S) by (unfold Op.sgn, Op.neg; destruct (0 <? _); by rewrite ?length_fmap).
  assert (Rs : ∀ j, (j < S)%nat → nth j (Op.sgn t (sn_pol n)) fp0 ~~ sterm (sn_pol n) (sn_coef n) (sn_pos n) j).
  { intros j Hj. unfold Op.sgn, sterm, Op.neg. destruct (sgn_val_pm (sn_pol n)) as [-> | ->]; cbn [Z.ltb Z.compare].
    - rewrite Z.mul_1_l. by apply Rt.
    - rewrite Op_map_rep by lia. replace (-1 * _) with (- (fval (sn_coef n) j * pw (sn_pos n))) by ring. by apply rep_neg, Rt. }
  assert (R : ∀ j, (j < S)%nat → nth j (Op.add acc (Op.sgn t (sn_pol n))) fp0 ~~ fval acc j + sterm (sn_pol n) (sn_coef n) (sn_pos n) j).
  { intros j Hj. apply (Op_add_rep S); try done; [apply Ha|apply nth_rep, Ha|by apply Rs]. }
  split; [eapply vec_ok_of; [|exact R]; unfold Op.add; apply Op_length; [apply Ha|done]|]. intros j Hj. by destruct (R j Hj).
Qed.

Lemma sig_acc_spec ns : Forall node_ok ns → vec_ok S (sig_acc pk S ns) ∧ ∀ j, (j < S)%nat → cong P (fval (sig_acc pk S ns) j) (nsum ns j).
Proof.
  intros Hns. unfold sig_acc. assert (G0 : ∀ acc, vec_ok S acc →
    let r := foldl (λ acc n, Op.add acc (Op.sgn (Op.mul_fp (sn_coef n) (power pk (sn_pos n))) (sn_pol n))) acc ns in
    vec_ok S r ∧ ∀ j, (j < S)%nat → cong P (fval r j) (fval acc j + nsum ns j)).
  { induction Hns as [|n ns Hn _ IH]; intros acc Ha; cbn [foldl].
    - split; [done|]. intros j _. cbn. by rewrite Z.add_0_r.
    - destruct (sig_step acc n Ha Hn) as [V C]. destruct (IH _ V) as [V' C']. split; [done|]. intros j Hj.
      rewrite (C' j Hj), (C j Hj). unfold nsum. cbn [foldr]. apply cong_eq. lia. }
  destruct (G0 (Op.zeros S) (zeros_ok S)) as [V C]. split; [done|]. intros j Hj. rewrite (C j Hj).
  unfold fval at 1. by rewrite nth_zeros.
Qed.

(** The last node is solved for. *)
Lemma solve_last pol pos rem : pos_ok pos → pol_ok pol → vec_ok S rem →
  let q := Op.mul_fp rem (fp_inv (power pk pos)) in
  let c := if sgn_val pol <? 0 then Op.neg q else q in
  vec_ok S c ∧ ∀ j, (j < S)%nat → cong P (sterm pol c pos j) (fval rem j).
Proof.
  intros Hp Hc Hr. cbv zeta. destruct (unit_inv _ _ (power_rep pos) (power_unit pos Hp)) as (u & Hu & Hi).
  set (q := Op.mul_fp _ _). assert (Lq : length q = S) by (unfold q, Op.mul_fp; rewrite length_fmap; apply Hr).
  assert (Rq : ∀ j, (j < S)%nat → nth j q fp0 ~~ fval rem j * u) by (intros; by apply (mul_fp_rep S)).
  set (c := if sgn_val pol <? 0 then _ else _).
  assert (Rc : ∀ j, (j < S)%nat → nth j c fp0 ~~ sgn_val pol * (fval rem j * u)).
  { intros j Hj. unfold c, Op.neg. destruct (sgn_val_pm pol) as [-> | ->]; cbn [Z.ltb Z.compare].
    - rewrite Z.mul_1_l. by apply Rq.
    - rewrite Op_map_rep by lia. replace (-1 * _) with (- (fval rem j * u)) by ring. by apply rep_neg, Rq. }
  split.
  - eapply vec_ok_of; [|exact Rc]. unfold c, Op.neg. destruct (_ <? _); by rewrite ?length_fmap.
  - intros j Hj. unfold sterm. destruct (Rc j Hj) as [_ E]. unfold fval at 1. rewrite E.
    transitivity (sgn_val pol * sgn_val pol * fval rem j * (pw pos * u)); [apply cong_eq; ring|].
    rewrite Hi, sgn_square. apply cong_eq. ring.
Qed.

Lemma post_sig_build sel target : sel_B sel = p_B (prm pk) → used sel = 0 → vec_ok S target →
  post T (sig_build pk sel target) (λ '(ns, sel'), Forall node_ok ns ∧ sel_B sel' = p_B (prm pk) ∧
    ∀ j, (j < S)%nat → cong P (nsum ns j) (fval target j)).
Proof.
  intros HsB Hu Ht. unfold sig_build. cbv zeta. rewrite (proj1 Ht).
  eapply post_bind; [apply post_sig_nodes; [done|unfold SIG_K; lia]|]. intros [ns sel'] (Hl & E & Hns).
  assert (Hne : ns ≠ []) by (intros ->; done). rewrite (app_removelast_last (mkSigNode 0 0 []) Hne) in Hns.
  apply Forall_app in Hns as [Hf Hlast%Forall_inv]. set (front := removelast ns) in *. set (ln := List.last ns _) in *.
  destruct (sig_acc_spec front Hf) as [Va Ca]. destruct Hlast as (Hp & Hc & _).
  assert (Rr : ∀ j, (j < S)%nat → nth j (Op.sub target (sig_acc pk S front)) fp0 ~~ fval target j - fval (sig_acc pk S front) j).
  { intros j Hj. apply (Op_sub_rep S); [apply Ht|apply Va|done|apply nth_rep, Ht|apply nth_rep, Va]. }
  assert (Vr : vec_ok S (Op.sub target (sig_acc pk S front))).
  { eapply vec_ok_of; [|exact Rr]. unfold Op.sub. apply Op_length; [apply Ht|apply Va]. }
  destruct (solve_last (sn_pol ln) (sn_pos ln) _ Hp Hc Vr) as [Vc Cc]. cbv zeta in Vc, Cc.
  apply post_ret. split; [|split; [done|]].
  - apply Forall_app. split; [done|]. by apply Forall_singleton.
  - intros j Hj. rewrite nsum_app. unfold nsum at 2. cbn [foldr sn_pol sn_coef sn_pos]. rewrite (Cc j Hj).
    destruct (Rr j Hj) as [_ ER]. unfold fval at 1. rewrite ER, (Ca j Hj). apply cong_eq. ring.
Qed.

(** ** [N2Edge] and [N3Edge] *)

(** Coefficients drawn slot by slot. *)
Lemma slotwise {A} (Q : nat → A → Prop) (f : A → Fp) (r : list A) :
  Forall2 Q (seq 0 S) r → (∀ j x, Q j x → fp_ok (f x)) →
  vec_ok S (f <$> r) ∧ ∀ j, (j < S)%nat → ∃ x, Q j x ∧ r !! j = Some x ∧ fval (f <$> r) j = val (f x).
Proof.
  intros HQ Hf. pose proof (Forall2_length _ _ _ HQ) as Hl. rewrite length_seq in Hl. split; [split|].
  - by rewrite length_fmap.
  - apply Forall_fmap. clear Hl. induction HQ; constructor; [by eapply Hf|done].
  - intros j Hj. destruct (lookup_lt_is_Some_2 r j) as [x Hx]; [lia|]. exists x.
    pose proof (Forall2_lookup_lr _ _ _ _ _ _ HQ (lookup_seq_lt 0 S j Hj) Hx) as Hq. split; [done|]. split; [done|].
    unfold fval. by rewrite nth_lookup, list_lookup_fmap, Hx.
Qed.

Definition n2_spec (dt : list Fp) (n : N2) : Prop :=
  (pos_ok (n2_pa n) ∧ pos_ok (n2_pb n) ∧ pol_ok (n2_sa n) ∧ pol_ok (n2_sb n) ∧ vec_ok S (n2_ra n) ∧ vec_ok S (n2_rb n)) ∧
  ∀ j, (j < S)%nat → cong P (sterm (n2_sa n) (n2_ra n) (n2_pa n) j + sterm (n2_sb n) (n2_rb n) (n2_pb n) j) (fval dt j).

(** The two polarities are opposite. *)
Lemma flip_pol c : pol_ok c → pol_ok (c .^ 1) ∧ sgn_val (c .^ 1) = - sgn_val c.
Proof. intros [-> | ->]; unfold pol_ok; cbn; auto. Qed.

Lemma post_rand : post T rand_fp_nonzero fp_ok.
Proof. eapply post_mono; [apply post_fp_nonzero|]. by intros x [? _]. Qed.

Lemma post_n2 sel dt : sel_B sel = p_B (prm pk) → vec_ok S dt → post T (n2_build pk sel dt S) (n2_spec dt).
Proof.
  intros HsB Hd. unfold n2_build. eapply post_bind; [apply post_bounded; lia|]. intros a Ha. cbn beta in Ha.
  eapply post_bind; [by apply post_avoid|]. intros b [Hb _]. eapply post_bind; [apply post_bit|]. intros sa Hsa. cbv zeta.
  destruct (unit_inv _ _ (power_rep b) (power_unit b Hb)) as (u & Hu & Hi). destruct (flip_pol sa Hsa) as [Hsb Es].
  eapply (post_bind _ _ _ (λ r, Forall2 (λ j p, (fp_ok p.1 ∧ fp_ok p.2) ∧
    cong P (sgn_val sa * (val p.1 * pw a) + - sgn_val sa * (val p.2 * pw b)) (fval dt j)) (seq 0 S) r)).
  - apply post_mapM. intros j _. set (d := if 0 <? sgn_val sa then _ else _).
    assert (Rd : d ~~ sgn_val sa * fval dt j).
    { unfold d. destruct (sgn_val_pm sa) as [-> | ->]; cbn [Z.ltb Z.compare].
      - rewrite Z.mul_1_l. apply nth_rep, Hd.
      - replace (-1 * fval dt j) with (- fval dt j) by ring. apply rep_neg, nth_rep, Hd. }
    eapply post_bind; [apply post_rand|]. intros ra Hra. cbn beta in Hra.
    assert (Rb : fp_mul (fp_sub (fp_mul ra (power pk a)) d) (fp_inv (power pk b)) ~~ (val ra * pw a - sgn_val sa * fval dt j) * u).
    { apply rep_mul; [|done]. apply rep_sub; [|done]. apply rep_mul; [by apply rep_val|apply power_rep]. }
    apply post_ret. cbn [fst snd]. split; [split; [done|by eapply rep_ok]|]. destruct Rb as [_ ->].
    transitivity (sgn_val sa * (val ra * pw a) - sgn_val sa * (val ra * pw a - sgn_val sa * fval dt j) * (pw b * u)); [apply cong_eq; ring|].
    rewrite Hi. transitivity (sgn_val sa * sgn_val sa * fval dt j); [apply cong_eq; ring|]. rewrite sgn_square. apply cong_eq. ring.
  - intros r Hr. cbn beta in Hr. apply post_ret.
    destruct (slotwise _ fst r Hr) as [Va Fa]; [by intros j x [[? ?] _]|]. destruct (slotwise _ snd r Hr) as [Vb Fb]; [by intros j x [[? ?] _]|].
    split; [by split_and!|]. intros j Hj. cbn [n2_sa n2_ra n2_pa n2_sb n2_rb n2_pb]. unfold sterm.
    destruct (Fa j Hj) as (x & [_ Q] & Hx & ->). destruct (Fb j Hj) as (x' & _ & Hx' & ->).
    assert (x' = x) as -> by congruence. by rewrite Es.
Qed.

Definition n3_spec (dt : list Fp) (n : N3) : Prop :=
  (pos_ok (n3_pa n) ∧ pos_ok (n3_pb n) ∧ pos_ok (n3_pc n) ∧ pol_ok (n3_sa n) ∧ pol_ok (n3_sb n) ∧ pol_ok (n3_sc n) ∧
   vec_ok S (n3_ra n) ∧ vec_ok S (n3_rb n) ∧ vec_ok S (n3_rc n)) ∧
  ∀ j, (j < S)%nat → cong P (sterm (n3_sa n) (n3_ra n) (n3_pa n) j + sterm (n3_sb n) (n3_rb n) (n3_pb n) j +
    sterm (n3_sc n) (n3_rc n) (n3_pc n) j) (fval dt j).

(** A power with a sign is invertible. *)
Lemma signed_unit c i : pos_ok i → ∃ u, fp_inv (Op.sgn_fp (power pk i) c) ~~ u ∧ cong P (sgn_val c * pw i * u) 1.
Proof.
  intros Hi. apply unit_inv; [apply sgn_fp_rep, power_rep|]. intros E0.
  pose proof (power_unit i Hi) as Hn. destruct (sgn_fp_rep _ _ c (power_rep i)) as [Ho Hs]. rewrite E0 in Hs.
  apply Hn. destruct (power_rep i) as [Hp Hv]. apply (cong_small P); [|by apply fp_ok_bounds|split; [lia|apply P_pos]].
  rewrite Hv. transitivity (sgn_val c * sgn_val c * pw i); [rewrite sgn_square; apply cong_eq; ring|].
  transitivity (sgn_val c * (sgn_val c * pw i)); [apply cong_eq; ring|]. rewrite <- Hs. apply cong_eq. ring.
Qed.

Lemma post_n3 sel dt : sel_B sel = p_B (prm pk) → vec_ok S dt → post T (n3_build pk sel dt S) (n3_spec dt).
Proof.
  intros HsB Hd. unfold n3_build. eapply post_bind; [apply post_bounded; lia|]. intros a Ha. cbn beta in Ha.
  eapply post_bind; [by apply post_avoid|]. intros b [Hb _]. eapply post_bind; [by apply post_avoid2|]. intros c (Hc & _).
  eapply post_bind; [apply post_bit|]. intros sa Hsa. eapply post_bind; [apply post_bit|]. intros sb Hsb.
  eapply post_bind; [apply post_bit|]. intros sc Hsc. cbv zeta. destruct (signed_unit sc c Hc) as (u & Hu & Hi).
  eapply (post_bind _ _ _ (λ r, Forall2 (λ j p, (fp_ok p.1.1 ∧ fp_ok p.1.2 ∧ fp_ok p.2) ∧
    cong P (sgn_val sa * (val p.1.1 * pw a) + sgn_val sb * (val p.1.2 * pw b) + sgn_val sc * (val p.2 * pw c)) (fval dt j)) (seq 0 S) r)).
  - apply post_mapM. intros j _. eapply post_bind; [apply post_rand|]. intros ra Hra. cbn beta in Hra.
    eapply post_bind; [apply post_rand|]. intros rb Hrb. cbn beta in Hrb. apply post_ret. cbn [fst snd].
    assert (Rt : ∀ r s i, fp_ok r → Op.sgn_fp (fp_mul r (power pk i)) s ~~ sgn_val s * (val r * pw i)).
    { intros r s i Hr. apply sgn_fp_rep, rep_mul; [by apply rep_val|apply power_rep]. }
    set (rc := fp_mul _ _). assert (Rc : rc ~~ (fval dt j - (sgn_val sa * (val ra * pw a) + sgn_val sb * (val rb * pw b))) * u).
    { apply rep_mul; [|done]. apply rep_sub; [apply nth_rep, Hd|]. apply rep_add; by apply Rt. }
    split; [split_and!; [done..|by eapply rep_ok]|]. destruct Rc as [_ Ec].
    transitivity (sgn_val sa * (val ra * pw a) + sgn_val sb * (val rb * pw b) + val rc * (sgn_val sc * pw c)); [apply cong_eq; ring|].
    rewrite Ec. transitivity (sgn_val sa * (val ra * pw a) + sgn_val sb * (val rb * pw b) +
      (fval dt j - (sgn_val sa * (val ra * pw a) + sgn_val sb * (val rb * pw b))) * (sgn_val sc * pw c * u)); [apply cong_eq; ring|].
    rewrite Hi. apply cong_eq. ring.
  - intros r Hr. cbn beta in Hr. apply post_ret.
    destruct (slotwise _ (fst ∘ fst) r Hr) as [Va Fa]; [by intros j x [(? & ? & ?) _]|].
    destruct (slotwise _ (snd ∘ fst) r Hr) as [Vb Fb]; [by intros j x [(? & ? & ?) _]|].
    destruct (slotwise _ snd r Hr) as [Vc Fc]; [by intros j x [(? & ? & ?) _]|].
    split; [by split_and!|]. intros j Hj. cbn [n3_sa n3_ra n3_pa n3_sb n3_rb n3_pb n3_sc n3_rc n3_pc]. unfold sterm.
    destruct (Fa j Hj) as (x & [_ Q] & Hx & ->). destruct (Fb j Hj) as (y & _ & Hy & ->). destruct (Fc j Hj) as (z & _ & Hz & ->).
    assert (y = x) as -> by congruence. assert (z = x) as -> by congruence. exact Q.
Qed.

(** ** [realize] *)

Section Realize.
Context (sd : RSeed) (R : list Fp) (HR : vec_ok S R).

(** An edge of the layer 0 that contributes [x j] under the mask. *)
Definition carries (es : list Edge) (x : nat → Z) : Prop :=
  Forall (new_edge pk 0 S) es ∧ ∀ j, (j < S)%nat → cong P (tsum pk es j) (fval R j * x j).

Lemma carries_app es es' x x' : carries es x → carries es' x' → carries (es ++ es') (λ j, x j + x' j).
Proof.
  intros [N1 C1] [N2' C2]. split; [by apply Forall_app|]. intros j Hj. rewrite tsum_app, (C1 j Hj), (C2 j Hj). apply cong_eq. ring.
Qed.

Lemma carries_cong es x x' : carries es x → (∀ j, (j < S)%nat → cong P (x j) (x' j)) → carries es x'.
Proof. intros [N1 C1] E. split; [done|]. intros j Hj. by rewrite (C1 j Hj), (E j Hj). Qed.

Lemma carries_nil : carries [] (λ _, 0).
Proof. split; [constructor|]. intros j _. unfold tsum. cbn. by rewrite Z.mul_0_r. Qed.

Lemma post_emit_edge pos pol r : pos_ok pos → pol_ok pol → vec_ok S r →
  post T (emit pk sd (u16 pos) pol r) (λ e, new_edge pk 0 S e ∧ ∀ j, gterm pk j e = sterm pol r pos j).
Proof.
  intros Hp Hc [Lr Fr]. unfold emit. eapply post_bind; [apply post_u64|]. intros salt _.
  eapply (post_bind T _ _ (λ s, nbits s = m_bits (prm pk))); [apply post_lift; by apply sigma_spec|].
  intros sg Hs. apply post_ret.
  assert (E16 : u16 pos = pos) by (apply wrap_small; unfold word; unfold pos_ok in Hp; pow_consts; lia).
  destruct (pubkey_powers_spec pk (proj1 Hpk) Hpow) as (HL & _). rewrite E16. split; [|done]. split; [|done].
  unfold pos_ok in Hp. split; split_and!; cbn [layer_id idx ch ew es]; try done; unfold word; try (pow_consts; lia).
  destruct Hc as [-> | ->]; unfold SGN_P, SGN_M; lia.
Qed.

Lemma post_carries pos pol r w : pos_ok pos → pol_ok pol → vec_ok S r → length w = S →
  (∀ j, (j < S)%nat → nth j w fp0 ~~ fval R j * fval r j) →
  post T (emit pk sd (u16 pos) pol w) (λ e, carries [e] (sterm pol r pos)).
Proof.
  intros Hp Hc Hr Lw Rw. assert (Vw : vec_ok S w) by (eapply vec_ok_of; [exact Lw|exact Rw]).
  eapply post_mono; [by apply post_emit_edge|].
  intros e [He G0]. split; [by apply Forall_singleton|]. intros j Hj. rewrite tsum_cons, G0. change (tsum pk [] j) with 0.
  destruct (Rw j Hj) as [_ E]. unfold sterm. unfold fval at 1. rewrite E. apply cong_eq. ring.
Qed.

Lemma post_emit_scaled pos pol r : pos_ok pos → pol_ok pol → vec_ok S r →
  post T (emit_scaled pk sd R pos pol r) (λ e, carries [e] (sterm pol r pos)).
Proof.
  intros Hp Hc Hr. unfold emit_scaled. destruct (Op_mul_rep S R r (proj1 HR) (proj1 Hr)) as (w & -> & Lw & Rw).
  eapply (post_bind _ _ _ (eq w)); [by apply post_lift|]. intros ? <-. apply post_carries; try done.
  intros j Hj. apply Rw; [done|apply nth_rep, HR|apply nth_rep, Hr].
Qed.

Lemma post_realize2 dt n : n2_spec dt n → post T (realize2 pk sd R n) (λ es, carries es (fval dt)).
Proof.
  intros [(Ha & Hb & Hsa & Hsb & Hra & Hrb) C]. unfold realize2.
  eapply post_bind; [by apply post_emit_scaled|]. intros ea Ea. eapply post_bind; [by apply post_emit_scaled|]. intros eb Eb.
  apply post_ret. exact (carries_cong _ _ _ (carries_app [ea] [eb] _ _ Ea Eb) C).
Qed.

Lemma post_realize3 dt n : n3_spec dt n → post T (realize3 pk sd R n) (λ es, carries es (fval dt)).
Proof.
  intros [(Ha & Hb & Hc & Hsa & Hsb & Hsc & Hra & Hrb & Hrc) C]. unfold realize3.
  eapply post_bind; [by apply post_emit_scaled|]. intros ea Ea. eapply post_bind; [by apply post_emit_scaled|]. intros eb Eb.
  eapply post_bind; [by apply post_emit_scaled|]. intros ec Ec. apply post_ret.
  exact (carries_cong _ _ _ (carries_app [ea; eb] [ec] _ _ (carries_app [ea] [eb] _ _ Ea Eb) Ec) C).
Qed.

Lemma post_tuples {N} (Q : list Fp → N → Prop) (build : list Fp → M G N) (real : N → M G (list Edge)) ds :
  (∀ dt, vec_ok S dt → post T (build dt) (Q dt)) → (∀ dt n, Q dt n → post T (real n) (λ es, carries es (fval dt))) →
  Forall (vec_ok S) ds → post T (tuples build real ds) (λ es, carries es (vsum ds)).
Proof.
  intros HB' Hr Hds. induction Hds as [|dt ds Hdt _ IH]; cbn [tuples]; [apply post_ret, carries_nil|].
  eapply post_bind; [by apply HB'|]. intros n Hn. eapply post_bind; [by eapply Hr|]. intros e He.
  eapply post_bind; [exact IH|]. intros es Hes. apply post_ret. exact (carries_app _ _ _ _ He Hes).
Qed.

(** The eight signal edges. *)
Lemma post_sig_edges ns : Forall node_ok ns →
  post T (mapM' (λ n, w ← lift (Op.mul (sn_coef n) R); emit pk sd (u16 (sn_pos n)) (sn_pol n) w) ns) (λ es, carries es (nsum ns)).
Proof.
  induction 1 as [|n ns (Hp & Hc & Hv) _ IH]; cbn [mapM']; [apply post_ret, carries_nil|].
  eapply (post_bind _ _ _ (λ e, carries [e] (sterm (sn_pol n) (sn_coef n) (sn_pos n)))).
  - destruct (Op_mul_rep S (sn_coef n) R (proj1 Hv) (proj1 HR)) as (w & -> & Lw & Rw).
    eapply (post_bind _ _ _ (eq w)); [by apply post_lift|]. intros ? <-. apply post_carries; try done.
    intros j Hj. rewrite Z.mul_comm. apply Rw; [done|apply nth_rep, Hv|apply nth_rep, HR].
  - intros e He. eapply post_bind; [exact IH|]. intros es Hes. apply post_ret. exact (carries_app [e] es _ _ He Hes).
Qed.
End Realize.
End Graph.
