(* ===== verification/Encrypted.v ===== *)
(** * What encryption produces

    [core::synth], [core::fuse] and the two ciphertexts that every encryption
    combines: the result decrypts to the plaintext under every policy but the
    legacy one, and the only exception is the one of the mask generation. *)

From S2P Require Import Prelude Primes Field Hash Rng CtSafe Types Matrix Lpn Scalar25519 Ristretto Decrypt Reduce Compact Coeffs Arithmetic Linear Post Repack Product Encrypt Noise Graph.

#[local] Opaque fp_inv fp_mul fp_add fp_sub fp_neg.

Definition mask_failure : string := "pvac: circuit prf nonzero mask generation failed".

(** ** [reduction::permute] *)

Lemma post_permute {G} `{RngLaws G} T e : post T (permute e) (λ e', e' ≡ₚ e).
Proof.
  unfold permute. remember (length e) as n eqn:En. assert (Hn : (n ≤ length e)%nat) by lia. clear En.
  revert e Hn. induction n as [|n IH]; intros e Hn; [by apply post_ret|]. destruct n as [|n]; [by apply post_ret|].
  cbn [permute_loop]. eapply post_bind; [apply post_bounded; lia|]. intros r Hr.
  eapply post_mono; [apply IH; rewrite length_swap; lia|]. intros e' ->. apply swap_Permutation.
Qed.

(** ** [core::synth] *)

Section Synth.
Context {F : Fuel} {LOG : Log2} {G} `{RngLaws G} (pk : PubKey) (sk : SecKey) (policy : DecPolicy).
Context (Hpk : pubkey_wf pk) (Hsh : is_valid_pubkey_shape pk = true) (Hpow : pubkey_powers_ok pk = true).
Context (Hw : weights_ok pk) (Hk : keys_ok sk) (Ht : 0 < lpn_t (prm pk)) (HB : 8 ≤ p_B (prm pk) ≤ 65536).

(** The exception, and when. *)
Definition mask_throw (m : string) : Prop := m = mask_failure ∧ circuit_prf_profile pk = MIMC_X5_V7.

Lemma pk_profile : circuit_prf_profile pk = MIMC_X3_V6 ∨ circuit_prf_profile pk = MIMC_X5_V7.
Proof.
  assert (Hv : valid_circuit_prf_profile (circuit_prf_profile pk) = true).
  { revert Hsh. unfold is_valid_pubkey_shape. cbv zeta. rewrite !andb_true_iff. tauto. }
  destruct (circuit_prf_profile pk); auto; done.
Qed.

Lemma unit_ok l : Forall fp_unit l → Forall fp_ok l.
Proof. intros Hl. eapply Forall_impl; [exact Hl|]. by intros x [? _]. Qed.

Lemma post_mask_loop n S : (0 < n)%nat → (0 < S)%nat →
  post (G := G) mask_throw (mask_loop n pk sk S) (λ '(sd, R), circuit_prf_R_slots pk sk sd S = Ok R ∧ length R = S ∧ Forall fp_unit R).
Proof.
  intros Hn HS. assert (G0 : ∀ n, circuit_prf_profile pk = MIMC_X5_V7 ∨ (0 < n)%nat →
    post (G := G) mask_throw (mask_loop n pk sk S) (λ '(sd, R), circuit_prf_R_slots pk sk sd S = Ok R ∧ length R = S ∧ Forall fp_unit R));
    [|apply G0; by right].
  clear n Hn. induction n as [|n IH]; intros Hn; cbn [mask_loop].
  { destruct Hn as [Hp|]; [by intros g|lia]. }
  eapply post_bind; [apply post_nonce|]. intros nc _. cbv zeta. set (sd := mkRSeed _ _).
  eapply (post_bind _ _ _ (λ R, circuit_prf_R_slots pk sk sd S = Ok R ∧ length R = S ∧ Forall fp_ok R ∧
    (circuit_prf_profile pk = MIMC_X3_V6 → Forall fp_unit R))).
  - apply post_lift. pose proof (circuit_slots_safe pk sk ltac:(by destruct pk_profile as [-> | ->]) sd S Hk) as Hs.
    destruct (circuit_prf_R_slots pk sk sd S) as [R| |]; [by split|done..].
  - intros R (ER & LR & OR & UR). rewrite LR, (proj2 (Nat.eqb_neq S 0)), andb_true_r by lia.
    destruct (circuit_prf_slots_nonzero R) eqn:Ez.
    + apply post_ret. split_and!; [done..|]. by apply slots_nonzero_spec.
    + apply IH. left. destruct pk_profile as [Hp|Hp]; [|done]. apply slots_nonzero_spec in UR; [|done..]. congruence.
Qed.

(** The layer of an encryption, when it is not taken for a native one. *)
Lemma base_layer_ok S sd R com cs cs' : length cs = S → length cs' = S → (0 < S)%nat →
  let l := mkLayer BASE sd 0 0 com cs cs' in
  circuit_prf_R_slots pk sk sd S = Ok R → policy ≠ LEGACY_MASK → ru_src pk l = false →
  layers_ok pk sk policy S [l] [mask_inv S R].
Proof.
  intros Lc Lc' HS l ER Hp Hr. unfold layers_ok. split_and!.
  - apply Forall_singleton. unfold word. cbn. lia.
  - done.
  - cbn. by rewrite Lc, Lc', Nat.eqb_refl, !orb_true_r.
  - right. cbn. by rewrite Hr, andb_false_r.
  - split; [done|]. intros [|i] Hi; [|cbn in Hi; lia]. exists R. split; [|done]. eapply Mask_base; [done..|].
    unfold base_mask. rewrite Hr. cbn [andb negb]. rewrite bool_decide_false by done. cbn [l R_PC].
    rewrite Lc, (proj2 (Nat.eqb_neq S 0)) by lia. done.
Qed.

(** The inverse of the mask cancels it. *)
Lemma unmask S R j x : Forall fp_unit R → length R = S → (j < S)%nat → cong P (fval R j * x * fval (mask_inv S R) j) x.
Proof.
  intros HR HL Hj. destruct (lookup_lt_is_Some_2 R j ltac:(lia)) as [r Hr]. pose proof (Forall_lookup_1 _ _ _ _ HR Hr) as [Ho Hn].
  assert (E : fval R j = val r) by (unfold fval; by rewrite nth_lookup, Hr).
  assert (E' : fval (mask_inv S R) j = val (fp_inv r)) by (unfold fval, mask_inv; rewrite nth_tabulate by done; by rewrite nth_lookup, Hr).
  rewrite E, E'. pose proof (rep_inv_pow r _ (rep_val r Ho)) as Hi. pose proof (rep_ok _ _ Hi) as Oi.
  pose proof (rep_mul _ _ _ _ (rep_val r Ho) (rep_val _ Oi)) as [_ HM]. rewrite fp_mul_inv in HM by done.
  destruct (fp_from_u64_spec 1 ltac:(word_lia)) as [_ E1]. rewrite E1 in HM.
  transitivity (x * (val r * val (fp_inv r))); [apply cong_eq; ring|]. rewrite <- HM. apply cong_eq. ring.
Qed.

(** One fresh layer. *)
Definition encrypted (v : list Fp) (C : Cipher) : Prop :=
  slots C = length v ∧ length (c0 C) = length v ∧ length (L C) = 1%nat ∧ Forall (edge_good pk 1 (length v)) (E C) ∧
  (policy ≠ LEGACY_MASK → dec_has_native_src pk C = false → encrypts pk sk policy C v).

Lemma budget_nonneg d b : budget_compute (prm pk) d = Some b → 0 ≤ n2 b ∧ 0 ≤ n3 b.
Proof.
  unfold budget_compute. cbv zeta. intros (q2 & _ & (q3 & _ & E)%bind_Some)%bind_Some. apply Some_inj in E as <-.
  destruct (_ =? 1); [destruct (0 <? _)|]; cbn [n2 n3]; lia.
Qed.

(** From the sum of the edges to the plaintext. *)
Lemma carried_encrypts S l R v es : length v = S → Forall fp_ok v → (0 < S)%nat → length R = S → Forall fp_unit R →
  layers_ok pk sk policy S [l] [mask_inv S R] →
  Forall (edge_good pk 1 S) es →
  (∀ j, (j < S)%nat → cong P (esum pk (λ l, fval (nth l [mask_inv S R] []) j) es j) (fval R j * fval v j * fval (mask_inv S R) j)) →
  encrypts pk sk policy (mkCipher [l] es (Op.zeros S) S) v.
Proof.
  intros Lv Ov HS LR UR HL He Hs. apply encrypts_parts. cbn [L E c0 slots length]. split_and!.
  - done.
  - lia.
  - right. apply length_zeros.
  - apply Forall_replicate, fp0_ok.
  - exact He.
  - exact Lv.
  - exists [mask_inv S R]. split; [done|]. intros j Hj. eapply rep_cong; [by apply nth_rep|]. unfold plain. cbn [c0 E].
    unfold fval at 2. rewrite nth_zeros. change (val fp0) with 0. rewrite (Hs j Hj), unmask by done. apply cong_eq. ring.
Qed.

(** The target of the signal edges. *)
Lemma target_ok S v agg ds : vec_ok S v → vec_ok S agg → (∀ j, (j < S)%nat → cong P (fval agg j) (vsum ds j)) →
  vec_ok S (Op.sub v agg) ∧ ∀ j, (j < S)%nat → cong P (fval (Op.sub v agg) j) (fval v j - vsum ds j).
Proof.
  intros Vv Va Ca. assert (R : ∀ j, (j < S)%nat → nth j (Op.sub v agg) fp0 ~~ fval v j - fval agg j).
  { intros j Hj. apply (Op_sub_rep S); [apply Vv|apply Va|done|apply nth_rep, Vv|apply nth_rep, Va]. }
  split; [eapply vec_ok_of; [|exact R]; unfold Op.sub; apply Op_length; [apply Vv|apply Va]|].
  intros j Hj. destruct (R j Hj) as [_ E]. unfold fval at 1. rewrite E, (Ca j Hj). done.
Qed.

(** [merge] on the edges of an encryption. *)
Lemma merge_carried S R es x : (0 < S)%nat → carries pk S R es x →
  ∃ out, merge es pk = Ok out ∧ Forall (edge_good pk 1 S) out ∧
    ∀ r j, (j < S)%nat → cong P (esum pk (λ l, fval (nth l [r] []) j) out j) (fval R j * x j * fval r j).
Proof.
  intros HS [Hn C]. destruct (pubkey_B pk Hsh) as [LB B0].
  assert (Hg : Forall (edge_good pk 1 S) es) by (eapply Forall_impl; [exact Hn|]; by intros e [? _]).
  assert (Hid : Forall (λ e, layer_id e = 0) es) by (eapply Forall_impl; [exact Hn|]; by intros e [_ ?]).
  destruct (merge_Ok pk 1 S es LB ltac:(destruct Hpk; lia) ltac:(lia) Hg) as (out & E & G0 & _ & _ & Cs).
  exists out. split_and!; [done..|]. intros r j Hj. rewrite Cs by done. rewrite (esum_one_layer _ _ _ 0) by done.
  rewrite (C j Hj). done.
Qed.

Lemma take_drop_vsum (ds : list (list Fp)) b j : Z.of_nat (length ds) = vol b → 0 ≤ n2 b → 0 ≤ n3 b →
  vsum (take (Z.to_nat (n2 b)) ds) j + vsum (take (Z.to_nat (n3 b)) (drop (Z.to_nat (n2 b)) ds)) j = vsum ds j.
Proof.
  unfold vol. intros Hl H2 H3. rewrite <- vsum_app, (take_ge (drop _ _)), take_drop; [done|]. rewrite length_drop. lia.
Qed.

(** The edges of the graph: the signal, then the pairs, then the triples. *)
Lemma post_edges {A} S sd R v b ds agg (k : list Edge → M G A) Q : vec_ok S R → vec_ok S v → 0 ≤ n2 b → 0 ≤ n3 b → Z.of_nat (length ds) = vol b →
  Forall (vec_ok S) ds → vec_ok S agg → (∀ j, (j < S)%nat → cong P (fval agg j) (vsum ds j)) →
  (∀ es, carries pk S R es (fval v) → post mask_throw (k es) Q) →
  post mask_throw (
    sel ← lift (selector_new (p_B (prm pk)));
    '(sn, sel) ← sig_build pk sel (Op.sub v agg);
    se ← mapM' (λ n, w ← lift (Op.mul (sn_coef n) R); emit pk sd (u16 (sn_pos n)) (sn_pol n) w) sn;
    e2 ← tuples (λ dt, n2_build pk sel dt S) (realize2 pk sd R) (take (Z.to_nat (n2 b)) ds);
    e3 ← tuples (λ dt, n3_build pk sel dt S) (realize3 pk sd R) (take (Z.to_nat (n3 b)) (drop (Z.to_nat (n2 b)) ds));
    k (se ++ e2 ++ e3)) Q.
Proof.
  intros VR Vv H2 H3 Ld Vd Va Ca Hk'. destruct (target_ok S v agg ds Vv Va Ca) as [Vt Ct].
  eapply (post_bind _ _ _ (λ sel, sel_B sel = p_B (prm pk) ∧ used sel = 0)).
  { apply post_lift. unfold selector_new. by rewrite (proj2 (Z.leb_gt _ _)) by lia. }
  intros sel [HsB Hu]. eapply post_bind; [by apply (post_sig_build mask_throw pk S)|].
  intros [sn sel'] (Hsn & HsB' & Csn). eapply post_bind; [by apply (post_sig_edges mask_throw pk S)|]. intros se Cse.
  eapply post_bind.
  { apply (post_tuples mask_throw pk S R (n2_spec pk S)); [intros; by apply post_n2|intros; by apply (post_realize2 _ pk S Hpk Hpow Hw HB sd R VR dt)|by apply Forall_take]. }
  intros e2 Ce2. eapply post_bind.
  { apply (post_tuples mask_throw pk S R (n3_spec pk S)); [intros; by apply post_n3|intros; by apply (post_realize3 _ pk S Hpk Hpow Hw HB sd R VR dt)|by apply Forall_take, Forall_drop]. }
  intros e3 Ce3. apply Hk'.
  eapply carries_cong; [exact (carries_app _ _ _ _ _ _ _ Cse (carries_app _ _ _ _ _ _ _ Ce2 Ce3))|].
  intros j Hj. cbn beta. rewrite (take_drop_vsum ds b j Ld H2 H3), (Csn j Hj), (Ct j Hj). apply cong_eq. ring.
Qed.

Lemma post_synth v d : Forall fp_ok v → (0 < length v)%nat → budget_compute (prm pk) d ≠ None →
  post (G := G) mask_throw (synth pk sk v d) (encrypted v).
Proof.
  intros Ov HS Hb. unfold synth. cbv zeta. set (S := length v) in *. assert (Vv : vec_ok S v) by done.
  eapply post_bind; [by apply post_mask_loop; [lia|]|]. intros [sd R] (ER & LR & UR). pose proof (unit_ok R UR) as OR.
  unfold budget. destruct (budget_compute (prm pk) d) as [b|] eqn:Eb; [|done]. destruct (budget_nonneg _ _ Eb) as [B2 B3].
  eapply (post_bind _ _ _ (eq b)); [by apply post_lift|]. intros ? <-.
  eapply (post_bind _ _ _ (λ '(ds, agg), Z.of_nat (length ds) = vol b ∧ Forall (vec_ok S) ds ∧ vec_ok S agg ∧
    ∀ j, (j < S)%nat → cong P (fval agg j) (vsum ds j))).
  { apply post_lift. apply (rpost_weaken (λ _, False)); [|done]. apply delta_make_safe; [done|unfold vol; lia]. }
  intros [ds agg] (Ld & Vd & Va & Ca).
  set (com := compute_R_com_base _ _ _ _ _). eapply post_bind.
  { apply post_lift. apply (rpost_weaken (λ _, False)); [|done]. by apply (layer_PC_safe sk (mkLayer BASE sd 0 0 com [] []) R S). }
  intros l (cs & cs' & Lc & Lc' & ->). cbn [rule seed pa pb R_com].
  apply (post_edges S sd R v b ds agg (λ es, m ← lift (merge es pk); all ← permute m; mret (mkCipher [mkLayer BASE sd 0 0 com cs cs'] all (Op.zeros S) S)));
    try done.
  intros es Hes. cbn beta.
  destruct (merge_carried S R es _ HS Hes) as (out & -> & Go & Cs).
  eapply (post_bind _ _ _ (eq out)); [by apply post_lift|]. intros ? <-.
  eapply post_bind; [apply post_permute|]. intros all Hall. apply post_ret.
  split; [done|]. split; [apply length_zeros|]. split; [done|]. split; [cbn [E]; fold S; by rewrite Hall|]. intros Hp Hn.
  apply (carried_encrypts S _ R); try done.
  - apply base_layer_ok; try done. unfold dec_has_native_src in Hn. cbn in Hn. by rewrite orb_false_r in Hn.
  - by rewrite Hall.
  - intros j Hj. by rewrite (esum_perm _ _ _ _ _ Hall), Cs.
Qed.

(** ** [core::fuse] *)

Lemma native_join off A B C : L C = L A ++ (shift_layer off <$> L B) → dec_has_native_src pk C = false →
  dec_has_native_src pk A = false ∧ dec_has_native_src pk B = false.
Proof.
  unfold dec_has_native_src. intros ->. rewrite existsb_app, orb_false_iff. intros [-> Hn]. split; [done|]. rewrite <- Hn.
  clear. induction (L B) as [|l ls IH]; [done|]. cbn [existsb fmap list_fmap]. rewrite IH.
  by destruct (shift_layer_native pk off l) as [-> ->].
Qed.

Lemma fuse_guard A B : slots A = slots B → Z.of_nat (length (L A)) < 2 ^ 32 →
  fuse pk A B = guard_budget pk (mkCipher (L A ++ (shift_layer (Z.of_nat (length (L A))) <$> L B))
    (E A ++ (shift_edge (Z.of_nat (length (L A))) <$> E B)) (Op.add (c0 A) (c0 B)) (slots A)).
Proof.
  intros HS Hl. unfold fuse, guard_budget, compact_edges. rewrite HS, Nat.eqb_refl. cbn [negb E]. rewrite (wrap_small 32) by (unfold word; lia).
  by destruct (_ <? _).
Qed.

Lemma guard_budget_Ok C : (0 < slots C)%nat → Forall (edge_good pk (length (L C)) (slots C)) (E C) →
  ∃ C', guard_budget pk C = Ok C' ∧ L C' = L C ∧ slots C' = slots C.
Proof.
  intros HS He. unfold guard_budget, compact_edges. destruct (_ <? _); [|by exists C]. destruct (pubkey_B pk Hsh) as [LB B0].
  destruct (merge_Ok pk (length (L C)) (slots C) (E C) LB ltac:(destruct Hpk; lia) ltac:(lia) He) as (out & -> & _). by eexists.
Qed.

(** The ciphertext of [v], of two layers. *)
Definition enc_result (v : list Fp) (C : Cipher) : Prop :=
  slots C = length v ∧ length (L C) = 2%nat ∧
  (policy ≠ LEGACY_MASK → dec_has_native_src pk C = false → encrypts pk sk policy C v).

Lemma fuse_encrypted A B a b : encrypted a A → encrypted b B → length a = length b → (0 < length a)%nat →
  ∃ C, fuse pk A B = Ok C ∧ enc_result (Op.add a b) C.
Proof.
  intros (SA & CA & LA & EA & PA) (SB & CB & LB & EB & PB) Hl Hp. assert (HS : slots A = slots B) by congruence.
  rewrite fuse_guard by (done || by rewrite LA). match goal with |- context [guard_budget pk ?X] => set (C0 := X) end.
  assert (Ls : length (Op.add a b) = slots A) by (unfold Op.add; rewrite Op_length with (S := length a); congruence).
  destruct (guard_budget_Ok C0) as (C & EC & LC & SC); [unfold C0; cbn [slots]; lia| |].
  { unfold C0. cbn [L E slots]. rewrite length_app, length_fmap, LA, LB, SA. apply Forall_app. split.
    - eapply Forall_impl; [exact EA|]. intros e. apply edge_good_weaken. lia.
    - apply Forall_fmap. eapply Forall_impl; [exact EB|]. intros e He. rewrite Hl. by destruct (shift_edge_good pk 1 1 (length b) e). }
  exists C. split; [done|]. split; [by rewrite SC, Ls|].
  split; [rewrite LC; unfold C0; cbn [L]; by rewrite length_app, length_fmap, LA, LB|].
  intros Hpol Hn.
  destruct (native_join (Z.of_nat (length (L A))) A B C LC Hn) as [NA NB]. specialize (PA Hpol NA). specialize (PB Hpol NB).
  pose proof (proj1 (encrypts_parts _ _ _ _ _) PA) as (_ & _ & _ & OA & _). pose proof (proj1 (encrypts_parts _ _ _ _ _) PB) as (_ & _ & _ & OB & _).
  assert (R : ∀ j, (j < slots B)%nat → nth j (Op.add (c0 A) (c0 B)) fp0 ~~ fval (c0 A) j + fval (c0 B) j).
  { intros j Hj. apply (Op_add_rep (slots B)); [congruence|congruence|done|by apply nth_rep|by apply nth_rep]. }
  assert (Lc : length (Op.add (c0 A) (c0 B)) = slots B) by (unfold Op.add; apply Op_length; congruence).
  pose proof (join_encrypts pk sk policy A B a b (Op.add (c0 A) (c0 B)) PA PB HS) as HC. cbv zeta in HC. fold C0 in HC.
  destruct (guard_budget_encrypts pk sk policy Hpk C0 (Op.add a b)) as (C' & EC' & HC' & _).
  - apply HC; [rewrite LA, LB; lia|apply (slots_ok _ (slots B) Lc); intros j Hj; by eapply rep_ok, R|by right|].
    intros j Hj. by destruct (R j Hj).
  - rewrite EC in EC'. by apply Ok_inj in EC' as ->.
Qed.

Lemma post_combine ltr x y d : Forall fp_ok x → Forall fp_ok y → length x = length y → (0 < length x)%nat →
  budget_compute (prm pk) d ≠ None →
  post (G := G) mask_throw (combine_enc ltr pk sk x y d) (enc_result (Op.add x y)).
Proof.
  intros Hx Hy Hl Hp Hb. unfold combine_enc, enc_fp_depth, combine_ciphers.
  eapply (post_bind _ _ _ (λ '(a, b), encrypted x a ∧ encrypted y b)).
  - destruct ltr; (eapply post_bind; [apply (post_synth); done || lia|]; intros a Ha;
      eapply post_bind; [apply (post_synth); done || lia|]; intros b Hb'; by apply post_ret).
  - intros [a b] [Ha Hb']. apply post_lift. destruct (fuse_encrypted _ _ _ _ Ha Hb' Hl Hp) as (C & -> & HC). done.
Qed.

(** Adding a mask and taking it away. *)
Lemma masked_sum v m : Forall fp_ok v → Forall fp_ok m → length m = length v → Op.add (Op.add v m) (Op.neg m) = v.
Proof.
  intros Hv Hm Hl. assert (La : length (Op.add v m) = length v) by (unfold Op.add; by apply Op_length).
  assert (Ln : length (Op.neg m) = length v) by (unfold Op.neg; by rewrite length_fmap).
  apply (vec_eq (length v) _ _ (fval v)); [unfold Op.add; by apply Op_length|done|..].
  - intros j Hj. eapply rep_cong; [apply (Op_add_rep (length v)); [done|done|done|apply (Op_add_rep (length v))|]|].
    + done.
    + done.
    + done.
    + by apply nth_rep.
    + by apply nth_rep.
    + unfold Op.neg. rewrite Op_map_rep by lia. by apply rep_neg, nth_rep.
    + apply cong_eq. ring.
  - intros j Hj. by apply nth_rep.
Qed.
End Synth.

(** ** Encrypt, then decrypt *)

(** A key pair fit for encryption. *)
Record keypair_ok (pk : PubKey) (sk : SecKey) : Prop := {
  kp_wf : pubkey_wf pk;
  kp_shape : is_valid_pubkey_shape pk = true;
  kp_powers : pubkey_powers_ok pk = true;
  kp_weights : weights_ok pk;
  kp_keys : keys_ok sk;
  kp_lpn : 0 < lpn_t (prm pk);
  kp_basis : 8 ≤ p_B (prm pk) ≤ 65536 }.

(** A small key pair: nine powers of a ninth root of unity modulo [P], and noise
    for one pair and one triple when the logarithm is taken for three. *)
#[export] Instance enc_fuel : Fuel := 40%nat.
#[export] Instance enc_log2 : Log2 := λ _, f64.of_int 3.

Definition enc_params : Params := mkParams 9 2 2 1 1 1 0x4034000000000000 0x3FE0000000000000 0 1000 1 1 1 2 0 0 0.

Definition enc_pk : PubKey :=
  mkPubKey enc_params 5 [mkBitVec 2 [1]; mkBitVec 2 [2]] (mkUbk [1; 0] [1; 0]) (replicate 32 1)
    (mkFp 10667253582229442941 874577943765341363)
    [mkFp 1 0; mkFp 10667253582229442941 874577943765341363; mkFp 9166102236015575951 4103168097195122629;
     mkFp 15386998897999583221 2479152227767699296; mkFp 3523326140891837258 5276128071985294885;
     mkFp 15998969052666051937 4042966625476072871; mkFp 3059745175709968393 6744219809087076511;
     mkFp 4256164350588271416 3072666021104139559; mkFp 11728416858737475343 1077237314183580306]
    [] MIMC_X5_V7.

Definition enc_sk : SecKey := mkSecKey [1; 2; 3; 4] (mkFp 5 6) (replicate 32 0) (mkFp 7 8) (replicate 32 0) [9].

Lemma enc_keypair : keypair_ok enc_pk enc_sk.
Proof.
  split.
  - split; [|done]. repeat apply Forall_cons_2; [..|apply Forall_nil_2]; (split; [split; unfold word; cbn; lia|reflexivity]).
  - vm_compute. reflexivity.
  - vm_compute. reflexivity.
  - split; vm_compute; split; discriminate.
  - split; (split; [split; unfold word; cbn; lia|reflexivity]).
  - reflexivity.
  - split; vm_compute; discriminate.
Qed.

Example enc_budget : budget_compute enc_params 0 = Some (mkBudget 1 1).
Proof. vm_compute. reflexivity. Qed.

(** The outcome of an encryption of [v]: a ciphertext of two fresh layers, with
    one slot per entry of [v], which decrypts to [v] under every policy but the
    legacy one as long as no layer of it is taken for a native one. *)
Definition outcome {F : Fuel} (pk : PubKey) (sk : SecKey) (v : list Fp) (C : Cipher) : Prop :=
  slots C = length v ∧ length (L C) = 2%nat ∧ ∀ policy, policy ≠ LEGACY_MASK → dec_has_native_src pk C = false →
    encrypts pk sk policy C v ∧ dec_values pk sk C policy = Ok v.

Lemma post_masks {F : Fuel} {G} `{RngLaws G} T n : post (G := G) T (replicateM n rand_fp_nonzero) (λ m, length m = n ∧ Forall fp_ok m).
Proof.
  eapply post_mono; [apply post_replicate, post_fp_nonzero|]. intros m [? Hm]. split; [done|]. eapply Forall_impl; [exact Hm|].
  by intros x [? _].
Qed.

Section Enc.
Context {F : Fuel} {LOG : Log2} (pk : PubKey) (sk : SecKey) (K : keypair_ok pk sk).
Context (d : Z) (Hd : budget_compute (prm pk) d ≠ None).

Lemma outcome_intro v C : (∀ policy, enc_result pk sk policy v C) → outcome pk sk v C.
Proof.
  intros HC. destruct (HC STANDARD) as (? & ? & _). split_and!; [done..|]. intros policy Hp Hn.
  destruct (HC policy) as (_ & _ & He). specialize (He Hp Hn). split; [done|]. apply encrypts_dec; [apply K|apply K|exact He].
Qed.

Lemma post_all_policies {G A} T (m : M G A) (Q : DecPolicy → A → Prop) : (∀ p, post T m (Q p)) → post T m (λ a, ∀ p, Q p a).
Proof. intros Hm g. pose proof (λ p, Hm p g) as Hg. destruct (m g) as [[a ?]| |]; [done|apply (Hg STANDARD)|done]. Qed.

Lemma post_masked {G} `{RngLaws G} ltr v m : Forall fp_ok v → v ≠ [] → Forall fp_ok m → length m = length v →
  post (G := G) (mask_throw pk) (combine_enc ltr pk sk (Op.add v m) (Op.neg m) d) (outcome pk sk v).
Proof.
  intros Hv Hne Hm Hl. assert (Hp : (0 < length v)%nat) by (destruct v; [done|cbn; lia]).
  assert (La : length (Op.add v m) = length v) by (unfold Op.add; by apply Op_length).
  assert (Ln : length (Op.neg m) = length v) by (unfold Op.neg; by rewrite length_fmap).
  assert (Oa : Forall fp_ok (Op.add v m)).
  { apply (slots_ok _ (length v)); [done|]. intros j Hj. eapply rep_ok, (Op_add_rep (length v)); try done; by apply nth_rep. }
  assert (On : Forall fp_ok (Op.neg m)).
  { apply Forall_fmap. eapply Forall_impl; [exact Hm|]. intros x Hx. eapply rep_ok, rep_neg, rep_val, Hx. }
  eapply post_mono; [apply post_all_policies; intros p; apply (post_combine pk sk p); try done; try apply K; lia|].
  intros C HC. cbn beta in HC. apply outcome_intro. by rewrite masked_sum in HC.
Qed.

(** The seeded order: positive first. *)
Lemma post_scoped x v n : Forall fp_ok v → v ≠ [] → n = length v →
  (∀ m, length m = n → Forall fp_ok m → x m = Op.add v m) →
  post (mask_throw pk) (enc_scoped pk sk x n d) (outcome pk sk v).
Proof.
  intros Hv Hne -> Hx. unfold enc_scoped. eapply post_bind; [by apply post_masks|]. intros m [Lm Om]. rewrite (Hx m Lm Om).
  pose proof (post_masked (G := Aes.AesCtr256) true v m Hv Hne Om Lm) as HP. intros g. specialize (HP g). revert HP.
  unfold combine_enc, enc_fp_depth_seeded, synth_seeded, mbind, M_bind. change (synth (G := Aes.AesCtr256) pk sk) with (enc_fp_depth (G := Aes.AesCtr256) pk sk). destruct (enc_fp_depth pk sk (Op.add v m) d g) as [[a g1]| |]; [|done..].
  destruct (enc_fp_depth pk sk (Op.neg m) d g1) as [[b g2]| |]; done.
Qed.

Lemma zeros_add m : Forall fp_ok m → length m = 1%nat → m = Op.add [fp0] m.
Proof.
  intros Hm Hl. destruct m as [|x [|]]; [done| |done]. apply Forall_inv in Hm. cbn. f_equal.
  apply (rep_inj _ _ (val x)); [by apply rep_val|]. eapply rep_cong; [apply rep_add; [apply rep_val, fp0_ok|by apply rep_val]|].
  by apply cong_eq.
Qed.
End Enc.

Lemma u64_ok v : Forall (word 64) v → Forall fp_ok (fp_from_u64 <$> v).
Proof. intros Hv. apply Forall_fmap. eapply Forall_impl; [exact Hv|]. intros x Hx. by apply (fp_from_u64_spec x). Qed.

(** C1. Encryption with the system generator is correct: for a pair of keys fit for
    encryption ([keypair_ok]: valid shapes and powers, weights that fit the matrix,
    a basis of 8 to 65536 powers) and a noise budget that has a value, whatever is
    drawn and in whichever order the two halves are evaluated, encrypting a vector
    of 64-bit integers, one integer, zero or a vector of field elements returns a
    ciphertext that decrypts to it, under every policy but [LEGACY_MASK] when no
    layer is taken for a native one; the only exception is the failure of the mask
    generation, and only version 7 of the circuit can raise it. *)
Theorem enc_correct {F : Fuel} {LOG : Log2} pk sk ltr d vs w xs : keypair_ok pk sk → budget_compute (prm pk) d ≠ None →
  vs ≠ [] → Forall (word 64) vs → word 64 w → xs ≠ [] → Forall fp_ok xs →
  post (mask_throw pk) (enc_values_depth ltr pk sk vs d) (outcome pk sk (fp_from_u64 <$> vs)) ∧
  post (mask_throw pk) (enc_value_depth ltr pk sk w d) (outcome pk sk [fp_from_u64 w]) ∧
  post (mask_throw pk) (enc_zero_depth ltr pk sk d) (outcome pk sk [fp0]) ∧
  post (mask_throw pk) (enc_fp_wrapped_depth ltr pk sk xs d) (outcome pk sk xs).
Proof.
  intros K Hd Hvs Wvs Ww Hxs Oxs.
  assert (Ow : Forall fp_ok [fp_from_u64 w]) by (apply (u64_ok [w]); by apply Forall_singleton).
  assert (Oz : Forall fp_ok [fp0]) by apply Forall_singleton, fp0_ok.
  split_and!.
  - eapply post_bind; [by apply post_masks|]. intros m [Lm Om].
    apply (post_masked pk sk K d Hd); [by apply u64_ok|by destruct vs|done|by rewrite length_fmap].
  - eapply post_bind; [by apply post_masks|]. intros m [Lm Om]. by apply (post_masked pk sk K d Hd).
  - eapply post_bind; [by apply post_masks|]. intros m [Lm Om]. rewrite (zeros_add m Om Lm) at 1. by apply (post_masked pk sk K d Hd).
  - eapply post_bind; [by apply post_masks|]. intros m [Lm Om]. by apply (post_masked pk sk K d Hd).
Qed.

(** C2. Encryption from a seed is correct in the same sense and under the same
    conditions: the four entry points that take a seed return a ciphertext that
    decrypts to the values encrypted. *)
Theorem enc_seeded_correct {F : Fuel} {LOG : Log2} pk sk seed d vs w : keypair_ok pk sk →
  budget_compute (prm pk) 0 ≠ None → budget_compute (prm pk) d ≠ None → vs ≠ [] → Forall (word 64) vs → word 64 w →
  rpost (mask_throw pk) (enc_values_seeded pk sk vs seed) (outcome pk sk (fp_from_u64 <$> vs)) ∧
  rpost (mask_throw pk) (enc_value_seeded pk sk w seed) (outcome pk sk [fp_from_u64 w]) ∧
  rpost (mask_throw pk) (enc_value_depth_seeded pk sk w d seed) (outcome pk sk [fp_from_u64 w]) ∧
  rpost (mask_throw pk) (enc_zero_seeded pk sk seed) (outcome pk sk [fp0]).
Proof.
  intros K H0 Hd Hvs Wvs Ww.
  assert (Ow : Forall fp_ok [fp_from_u64 w]) by (apply (u64_ok [w]); by apply Forall_singleton).
  split_and!; apply post_run, post_scoped; try done.
  - by apply u64_ok.
  - by destruct vs.
  - by rewrite length_fmap.
  - apply Forall_singleton, fp0_ok.
  - intros m Lm Om. by apply zeros_add.
Qed.

Lemma enc_correct_witness :
  post (mask_throw enc_pk) (enc_values_depth true enc_pk enc_sk [3; 5] 0) (outcome enc_pk enc_sk (fp_from_u64 <$> [3; 5])) ∧
  post (mask_throw enc_pk) (enc_fp_wrapped_depth false enc_pk enc_sk [mkFp 1 2] 0) (outcome enc_pk enc_sk [mkFp 1 2]).
Proof.
  assert (HB : budget_compute (prm enc_pk) 0 ≠ None) by (vm_compute; discriminate).
  assert (W3 : Forall (word 64) [3; 5]) by (repeat constructor; unfold word; lia).
  assert (O1 : Forall fp_ok [mkFp 1 2]) by (repeat constructor; unfold word; cbn; lia).
  destruct (enc_correct enc_pk enc_sk true 0 [3; 5] 7 [mkFp 1 2] enc_keypair HB) as (H1 & _);
    [discriminate|exact W3|unfold word; lia|discriminate|exact O1|].
  destruct (enc_correct enc_pk enc_sk false 0 [3; 5] 7 [mkFp 1 2] enc_keypair HB) as (_ & _ & _ & H2);
    [discriminate|exact W3|unfold word; lia|discriminate|exact O1|].
  split; [exact H1|exact H2].
Defined.

Lemma enc_seeded_correct_witness :
  rpost (mask_throw enc_pk) (enc_value_seeded enc_pk enc_sk 42 (replicate 32 7)) (outcome enc_pk enc_sk [fp_from_u64 42]).
Proof.
  assert (HB : budget_compute (prm enc_pk) 0 ≠ None) by (vm_compute; discriminate).
  destruct (enc_seeded_correct enc_pk enc_sk (replicate 32 7) 0 [42] 42 enc_keypair HB HB) as (_ & H & _);
    [discriminate|repeat constructor; unfold word; lia|unfold word; lia|exact H].
Defined.
