(* ===== verification/Keygen.v ===== *)
(** * Key generation: [crypto/keygen.hpp]

    [keygen] and [keygen_from_seed] assign every field of the two keys: what the
    keys hold before is not used. *)

From S2P Require Import Prelude Primes Field Hash Rng CtSafe Types Matrix Lpn Scalar25519 Ristretto.

Definition bytes_from_u64s (words : list Z) : list Z :=
  concat ((λ w, (λ j, u8 ((w ≫ (8 * j)) .& 0xFF)) <$> zseq 0 8) <$> take 4 words).

Definition scalar_from_key_blind (blind : list Z) : Scalar := sc_reduce256 blind.

(** ** The key of the circuit and its commitment *)

Definition with_circuit_prf (pk : PubKey) (profile : CircuitPrfProfile) (commit : list Z) : PubKey :=
  mkPubKey (prm pk) (canon_tag pk) (H pk) (ubk pk) (H_digest pk) (omega_B pk) (powg_B pk) commit profile.

Definition set_circuit_prf_commit (pk : PubKey) (sk : SecKey) : res PubKey :=
  key ← circuit_prf_key_for_profile sk (circuit_prf_profile pk);
  blind ← circuit_prf_blind_for_profile sk (circuit_prf_profile pk);
  c ← pedersen_commit (sc_from_fp_signed key) (scalar_from_key_blind blind);
  Ok (with_circuit_prf pk (circuit_prf_profile pk) c).

Definition set_circuit_prf_profile (pk : PubKey) (sk : SecKey) (profile : CircuitPrfProfile) : res PubKey :=
  if negb (valid_circuit_prf_profile profile) then Throw "pvac: circuit prf profile rejected"
  else set_circuit_prf_commit (with_circuit_prf pk profile (circuit_prf_key_commit pk)) sk.

Definition with_circuit_keys (sk : SecKey) (key_v6 : Fp) (blind_v6 : list Z) (key : Fp) (blind : list Z) : SecKey :=
  mkSecKey (prf_k sk) key blind key_v6 blind_v6 (lpn_s_bits sk).

(** Four words, least significant byte first. *)
Definition random_blind {G} `{Rng G} : M G (list Z) := ws ← replicateM 4 rng_u64; mret (bytes_from_u64s ws).

Definition derive_circuit_prf_material_random {F : Fuel} {G} `{Rng G} (pk : PubKey) (sk : SecKey) : M G (PubKey * SecKey) :=
  key_v6 ← rand_fp_nonzero;
  blind_v6 ← random_blind;
  key ← rand_fp_nonzero;
  blind ← random_blind;
  let sk := with_circuit_keys sk key_v6 blind_v6 key blind in
  pk ← lift (set_circuit_prf_commit (with_circuit_prf pk MIMC_X5_V7 (circuit_prf_key_commit pk)) sk);
  mret (pk, sk).

Definition tagged_hash (dom : string) (data : list Z) : list Z :=
  Sha.finish (Sha.update (sha_str sha_init dom) (take 32 data)).

Definition derive_circuit_prf_material_seeded (pk : PubKey) (sk : SecKey) (master : list Z) : res (PubKey * SecKey) :=
  let sk := with_circuit_keys sk
    (fp_from_hash32_nonzero (tagged_hash Dom.CIRCUIT_PRF_KEY master)) (tagged_hash Dom.CIRCUIT_PRF_BLIND master)
    (fp_from_hash32_nonzero (tagged_hash Dom.CIRCUIT_PRF_KEY_V7 master)) (tagged_hash Dom.CIRCUIT_PRF_BLIND_V7 master) in
  pk ← set_circuit_prf_commit (with_circuit_prf pk MIMC_X5_V7 (circuit_prf_key_commit pk)) sk;
  Ok (pk, sk).

(** ** The parameters *)

Definition require_params (prm : Params) : res unit :=
  if p_B prm <? 3 then Throw "pvac: params basis rejected"
  else if (m_bits prm <=? 0) || (n_bits prm <=? 0) then Throw "pvac: params matrix shape rejected"
  else if (h_col_wt prm <? 0) || (m_bits prm <? h_col_wt prm) then Throw "pvac: params H weight rejected"
  else if (x_col_wt prm <? 0) || (n_bits prm <? x_col_wt prm) then Throw "pvac: params X weight rejected"
  else if (err_wt prm <? 0) || (m_bits prm <? err_wt prm) then Throw "pvac: params noise weight rejected"
  else if (lpn_n prm <=? 0) || (lpn_t prm <=? 0) || (lpn_tau_den prm <=? 0) then Throw "pvac: params lpn shape rejected"
  else Ok tt.

(** [while (x % d == 0) x /= d;]: [n] halvings exhaust a number below [2^n]. *)
Fixpoint strip (n : nat) (d x : Z) : Z :=
  match n with O => x | S n => if x mod d =? 0 then strip n d (x / d) else x end.

(** [for (d = 2; d * d <= x; ++d)], [n] turns at most. *)
Fixpoint factor_loop (n : nat) (d x : Z) (p : list Z) : list Z * Z :=
  match n with
  | O => (p, x)
  | S n =>
      if x <? d * d then (p, x)
      else if x mod d =? 0 then factor_loop n (d + 1) (strip 31 d x) (p ++ [d])
      else factor_loop n (d + 1) x p
  end.

(** The loop ends when [d] exceeds the square root of [n] at the latest. *)
Definition factor_small (n : Z) : list Z :=
  let '(p, x) := factor_loop (Z.to_nat (Z.sqrt n)) 2 n [] in
  if 1 <? x then p ++ [x] else p.

Definition fp_pow_u128 (a : Fp) (e : Z) : Fp := fp_pow_loop 128 (fp_from_u64 1) a e.

(** ** The tables *)

Definition pm1 : Z := 2 ^ 127 - 2.

Section Draw.
Context {F : Fuel} {G} `{Rng G}.

Definition keygen_rand_fp : M G Fp :=
  reject (lo ← rng_u64; hi ← rng_u64; mret (fp_from_words lo (hi .& MASK63))) (λ x, negb (ct.fp_is_nonzero x =? 0)).

Definition root_draw (B : Z) : M G Fp := h ← keygen_rand_fp; mret (fp_pow_u128 h (pm1 / B)).

Definition draw_g (B : Z) : M G Fp := reject (root_draw B) (λ acc, ct.fp_is_one acc =? 0).

Definition draw_omega (B : Z) : M G Fp :=
  let primes := factor_small B in
  reject (root_draw B) (λ w, (ct.fp_is_one w =? 0) && forallb (λ p, ct.fp_is_one (fp_pow_u64 w (B / p)) =? 0) primes).

Definition mask_back (n : Z) (ws : list Z) : list Z :=
  if n .& 63 =? 0 then ws else alter (λ w, w .& (wshl 64 1 (n .& 63) - 1)) (length ws - 1)%nat ws.

Definition draw_lpn_secret (n : Z) : M G (list Z) :=
  ws ← replicateM (Z.to_nat ((n + 63) / 64)) rng_u64; mret (mask_back n ws).
End Draw.

Fixpoint powers_from (n : nat) (prev g : Fp) : list Fp :=
  match n with O => [] | S n => let x := fp_mul prev g in x :: powers_from n x g end.

Definition powers_table (B : Z) (g : Fp) : list Fp := fp_from_u64 1 :: powers_from (Z.to_nat (B - 1)) (fp_from_u64 1) g.

(** ** [keygen] *)

Definition with_basis (pk : PubKey) (omega : Fp) (powg : list Fp) : PubKey :=
  mkPubKey (prm pk) (canon_tag pk) (H pk) (ubk pk) (H_digest pk) omega powg (circuit_prf_key_commit pk) (circuit_prf_profile pk).

Definition with_tag (pk : PubKey) (prm : Params) (tag : Z) : PubKey :=
  mkPubKey prm tag (H pk) (ubk pk) (H_digest pk) (omega_B pk) (powg_B pk) (circuit_prf_key_commit pk) (circuit_prf_profile pk).

Definition with_ubk (pk : PubKey) (u : Ubk) : PubKey :=
  mkPubKey (prm pk) (canon_tag pk) (H pk) u (H_digest pk) (omega_B pk) (powg_B pk) (circuit_prf_key_commit pk) (circuit_prf_profile pk).

Definition with_prf_k (sk : SecKey) (k : list Z) : SecKey :=
  mkSecKey k (circuit_prf_key sk) (circuit_prf_key_blind sk) (circuit_prf_key_v6 sk) (circuit_prf_key_blind_v6 sk) (lpn_s_bits sk).

Definition with_lpn (sk : SecKey) (s : list Z) : SecKey :=
  mkSecKey (prf_k sk) (circuit_prf_key sk) (circuit_prf_key_blind sk) (circuit_prf_key_v6 sk) (circuit_prf_key_blind_v6 sk) s.

Definition check_basis (prm : Params) (zero divides : string) : res unit :=
  require_params prm;;
  if p_B prm =? 0 then Throw zero
  else if negb (pm1 mod p_B prm =? 0) then Throw divides else Ok tt.

(** The public matrix and the permutation. *)
Definition public_parts {F : Fuel} (pk : PubKey) : res PubKey :=
  pk ← gen_H pk;
  u ← gen_ubk_public (canon_tag pk) (m_bits (prm pk));
  Ok (with_ubk pk u).

Definition keygen {F : Fuel} (prm : Params) (pk : PubKey) (sk : SecKey) : M Os.Csprng (PubKey * SecKey) :=
  lift (check_basis prm "pvac: keygen: prm.B is zero" "pvac: keygen: prm.B does not divide pm1");;
  tag ← rng_u64;
  pk ← lift (public_parts (with_tag pk prm tag));
  k ← replicateM 4 rng_u64;
  '(pk, sk) ← derive_circuit_prf_material_random pk (with_prf_k sk k);
  g ← draw_g (p_B prm);
  omega ← draw_omega (p_B prm);
  s ← draw_lpn_secret (lpn_n prm);
  mret (with_basis pk omega (powers_table (p_B prm) g), with_lpn sk s).

Definition keygen_from_seed {F : Fuel} (prm : Params) (pk : PubKey) (sk : SecKey) (wallet_privkey : list Z) : res (PubKey * SecKey) :=
  check_basis prm "pvac: keygen_from_seed: prm.B is zero" "pvac: keygen_from_seed: prm.B does not divide pm1";;
  let master := tagged_hash "OCTRA_PVAC_MASTER_V1" wallet_privkey in
  let tag_seed := tagged_hash "OCTRA_PVAC_TAG" master in
  let tag := foldl (λ x i, x .| wshl 64 (nth (Z.to_nat i) tag_seed 0) (8 * i)) 0 (zseq 0 8) in
  pk ← public_parts (with_tag pk prm tag);
  let sk_seed := tagged_hash "OCTRA_PVAC_SK" master in
  '(k, rng) ← replicateM 4 rng_u64 (make_seeded_rng sk_seed);
  '(pk, sk) ← derive_circuit_prf_material_seeded pk (with_prf_k sk k) master;
  '(s, _) ← draw_lpn_secret (lpn_n prm) rng;
  let gen_seed := tagged_hash "OCTRA_PVAC_GEN" master in
  '(g, gen_rng) ← draw_g (p_B prm) (make_seeded_rng gen_seed);
  '(omega, _) ← draw_omega (p_B prm) gen_rng;
  Ok (with_basis pk omega (powers_table (p_B prm) g), with_lpn sk s).
