(* ===== verification/Factor.v ===== *)
(** * The roots of unity of a key

    [factor_small] finds the prime divisors, and an element whose powers [B / p]
    are not one has order [B]. *)

From S2P Require Import Prelude Primes Field Hash Rng CtSafe Types Matrix Lpn Scalar25519 Ristretto Keygen.

(** ** [factor_small] *)

Lemma prime_two_le q : Z.prime q → 2 ≤ q.
Proof. intros Hq. pose proof (Z.prime_ge_2 _ Hq). lia. Qed.

Lemma strip_spec n d x : 1 < d → 0 < x < 2 ^ Z.of_nat n →
  0 < strip n d x ≤ x ∧ (strip n d x | x) ∧ ¬ (d | strip n d x) ∧
  ∀ q, Z.prime q → Z.prime d → q ≠ d → (q | x) → (q | strip n d x).
Proof.
  intros Hd. revert x. induction n as [|n IH]; intros x Hx; [cbn in Hx; lia|]. cbn [strip].
  destruct (Z.eqb_spec (x mod d) 0) as [Hm|Hm].
  - apply Z.mod_divide in Hm; [|lia]. destruct Hm as [y ->]. rewrite Z.div_mul by lia.
    rewrite Nat2Z.inj_succ, Z.pow_succ_r in Hx by lia. destruct (IH y) as (H1 & H2 & H3 & H4); [nia|].
    split; [nia|]. split; [by apply Z.divide_mul_l|]. split; [done|]. intros q Hq Hdp Hne Hqx.
    apply (prime_mul q y d Hq) in Hqx as [Hy|Hqd]; [by apply H4|].
    by apply Z.divide_prime_prime in Hqd.
  - split; [lia|]. split; [done|]. split; [|done]. by rewrite <- Z.mod_divide by lia.
Qed.

(** What the loop knows of [N]: [d] is the next candidate. *)
Record factored (N d x : Z) (p : list Z) : Prop := {
  fa_pos : 0 < x ≤ N;
  fa_least : ∀ q, Z.prime q → (q | x) → d ≤ q;
  fa_all : ∀ q, Z.prime q → (q | N) ↔ q ∈ p ∨ (q | x);
  fa_prime : Forall Z.prime p }.

Lemma least_prime N d x p : 1 < d → factored N d x p → (d | x) → Z.prime d.
Proof.
  intros Hd HF Hx. destruct (prime_factor d Hd) as (r & Hr & Hrd). pose proof (fa_least _ _ _ _ HF r Hr ltac:(by etransitivity)).
  apply Z.divide_pos_le in Hrd as Hle; [|lia]. by replace d with r by lia.
Qed.

Lemma factor_loop_spec n N d x p : 1 < d → N < 2 ^ 31 → N < (d + Z.of_nat n) * (d + Z.of_nat n) → factored N d x p →
  ∃ d', factored N d' (factor_loop n d x p).2 (factor_loop n d x p).1 ∧ 1 < d' ∧ (factor_loop n d x p).2 < d' * d'.
Proof.
  revert d x p. induction n as [|n IH]; intros d x p Hd HN Hf HF; cbn [factor_loop].
  { exists d. pose proof (fa_pos _ _ _ _ HF). split; [done|]. split; [done|]. cbn. lia. }
  destruct (Z.ltb_spec x (d * d)) as [Hlt|Hge]; [by exists d|].
  destruct (fa_pos _ _ _ _ HF) as [Hx HxN].
  destruct (Z.eqb_spec (x mod d) 0) as [Hm|Hm].
  - apply Z.mod_divide in Hm; [|lia]. pose proof (least_prime _ _ _ _ Hd HF Hm) as Hp.
    destruct (strip_spec 31 d x Hd ltac:(lia)) as (S1 & S2 & S3 & S4).
    apply IH; [lia|done|lia|]. split.
    + lia.
    + intros q Hq Hqs. pose proof (fa_least _ _ _ _ HF q Hq ltac:(by etransitivity)). assert (q ≠ d) by (by intros ->). lia.
    + intros q Hq. rewrite (fa_all _ _ _ _ HF q Hq), elem_of_app, list_elem_of_singleton. split.
      * intros [?|Hqx]; [by left; left|]. destruct (decide (q = d)) as [->|Hne]; [by left; right|]. right. by apply S4.
      * intros [[?| ->]|Hqs]; [by left|by right|right; by etransitivity].
    + apply Forall_app. split; [apply HF|by apply Forall_singleton].
  - apply IH; [lia|done|lia|]. split; [done| |apply HF|apply HF].
    intros q Hq Hqx. pose proof (fa_least _ _ _ _ HF q Hq Hqx). destruct (decide (q = d)) as [->|]; [|lia].
    by rewrite Z.mod_divide in Hm by lia.
Qed.

Lemma factor_small_spec N : 1 < N < 2 ^ 31 → Forall Z.prime (factor_small N) ∧
  ∀ q, Z.prime q → q ∈ factor_small N ↔ (q | N).
Proof.
  intros HN. unfold factor_small. destruct (factor_loop_spec (Z.to_nat (Z.sqrt N)) N 2 N [] ltac:(lia) (proj2 HN)) as (d & HF & Hd & Hlt).
  - rewrite Z2Nat.id by apply Z.sqrt_nonneg. destruct (Z.sqrt_spec N ltac:(lia)) as [_ Hs]. pose proof (Z.sqrt_nonneg N) as H0.
    eapply Z.lt_le_trans; [exact Hs|]. apply Z.mul_le_mono_nonneg; lia.
  - split; [lia|by intros q Hq _; apply prime_two_le| |constructor]. intros q Hq. split; [by right|]. intros [Hin|]; [|done]. by apply not_elem_of_nil in Hin.
  - destruct (factor_loop _ _ _ _) as [p x]. cbn [fst snd] in *. destruct (fa_pos _ _ _ _ HF) as [Hx _].
    destruct (Z.ltb_spec 1 x) as [H1|H1].
    + assert (Hpx : Z.prime x).
      { apply large_factors_prime; [done|]. intros r Hr Hrx. pose proof (fa_least _ _ _ _ HF r Hr Hrx). nia. }
      split; [apply Forall_app; split; [apply HF|by apply Forall_singleton]|]. intros q Hq.
      rewrite elem_of_app, list_elem_of_singleton, (fa_all _ _ _ _ HF q Hq). split; [intros [?| ->]; [by left|by right]|].
      intros [?|Hqx]; [by left|right]. by apply Z.divide_prime_prime in Hqx.
    + split; [apply HF|]. intros q Hq. rewrite (fa_all _ _ _ _ HF q Hq). split; [by left|]. intros [?|Hqx]; [done|].
      replace x with 1 in Hqx by lia. pose proof (prime_two_le _ Hq). apply Z.divide_pos_le in Hqx; lia.
Qed.

(** ** Orders *)

(** The exponents at which a power is one are closed under the greatest common divisor. *)
Lemma gcd_exponent m w a b : 0 < a → 0 < b → cong m (w ^ a) 1 → cong m (w ^ b) 1 → cong m (w ^ Z.gcd a b) 1.
Proof.
  intros Ha. assert (Ha' : 0 ≤ a) by lia. revert b Ha. pattern a. apply (Zlt_0_ind _); [|exact Ha'].
  clear. intros a IH _ b Ha Hb H1 H2.
  assert (Hm : cong m (w ^ (b mod a)) 1).
  { pose proof (Z.mod_pos_bound b a Ha). pose proof (Z.div_pos b a ltac:(lia) Ha).
    rewrite (Z.div_mod b a) in H2 by lia. rewrite Z.pow_add_r, Z.pow_mul_r in H2 by nia.
    rewrite (pow_one m (w ^ a)) in H2 by done. by rewrite Z.mul_1_l in H2. }
  rewrite <- Z.gcd_mod by lia. destruct (decide (b mod a = 0)) as [E|E].
  - rewrite E, Z.gcd_0_l, Z.abs_eq by lia. done.
  - pose proof (Z.mod_pos_bound b a Ha). apply IH; [lia|lia|lia|done|done].
Qed.

(** An element whose powers [B / p] are not one has order [B]. *)
Lemma primitive m w B : 1 < B → cong m (w ^ B) 1 → (∀ p, Z.prime p → (p | B) → ¬ cong m (w ^ (B / p)) 1) →
  ∀ k, 0 < k < B → ¬ cong m (w ^ k) 1.
Proof.
  intros HB H1 Hp k Hk Hc. pose proof (gcd_exponent m w k B ltac:(lia) ltac:(lia) Hc H1) as Hg.
  set (g := Z.gcd k B) in *. assert (Hgk : (g | k)) by apply Z.gcd_divide_l. assert (HgB : (g | B)) by apply Z.gcd_divide_r.
  assert (Hg0 : 0 < g) by (pose proof (Z.gcd_nonneg k B); assert (g ≠ 0) by (unfold g; intros E%Z.gcd_eq_0; lia); lia).
  apply Z.divide_pos_le in Hgk; [|lia]. destruct HgB as [q HqB]. assert (Hq : 1 < q) by nia.
  destruct (prime_factor q Hq) as (p & Hpp & [r Hr]). pose proof (prime_two_le _ Hpp).
  apply (Hp p Hpp); [exists (r * g); lia|]. replace (B / p) with (g * r).
  - rewrite Z.pow_mul_r by nia. apply pow_one; [nia|done].
  - rewrite HqB, Hr. replace (r * p * g) with (g * r * p) by ring. by rewrite Z.div_mul by lia.
Qed.
