(* ===== verification/KeygenCorrect.v ===== *)
(** * What key generation produces *)

From S2P Require Import Prelude Primes Field Hash Rng CtSafe Types Matrix Lpn Scalar25519 Ristretto Decrypt Reduce Compact Linear Post Repack Encrypt Noise Encrypted Keygen Factor.

#[local] Opaque fp_inv fp_mul fp_add fp_sub fp_neg.

(** ** The roots *)

Lemma fp_pow_u128_rep a x e : 0 ≤ e < 2 ^ 128 → a ~~ x → fp_pow_u128 a e ~~ x ^ e.
Proof.
  intros He Ha. unfold fp_pow_u128. rewrite <- (Z.mul_1_l (x ^ e)). apply fp_pow_loop_spec; [exact He|apply rep_u64; word_lia|done].
Qed.

Lemma fp_is_one_spec x : fp_ok x → ct.fp_is_one x = b2z (val x =? 1).
Proof.
  intros Hx. destruct (fp_ok_bounds x Hx) as (Hl & Hh & _). unfold ct.fp_is_one.
  rewrite !ct_lemmas.eq_spec by (unfold word; lia). unfold val. 
  destruct (Z.eqb_spec (lo x) 1), (Z.eqb_spec (hi x) 0), (Z.eqb_spec (lo x + 2 ^ 64 * hi x) 1); cbn; try done; pow_consts; lia.
Qed.

(** What [draw_g] and [draw_omega] accept. *)
Definition root_of (B : Z) (w : Fp) : Prop := fp_unit w ∧ val w ≠ 1 ∧ cong P (val w ^ B) 1.

Section Draws.
Context {F : Fuel} {G} `{RngLaws G} (T : string → Prop) (B : Z) (HB : 3 ≤ B < 2 ^ 31) (Hdiv : pm1 mod B = 0).

Lemma post_keygen_rand : post (G := G) T keygen_rand_fp fp_unit.
Proof.
  apply post_reject. eapply post_bind; [apply post_u64|]. intros l Hl. eapply post_bind; [apply post_u64|]. intros h Hh.
  apply post_ret. intros Hn. assert (Hm : word 64 (h .& MASK63)) by (unfold MASK63; rewrite (land_low _ 63) by done; word_lia).
  pose proof (rep_ok _ _ (rep_words _ _ Hl Hm)) as Hok. split; [done|]. intros E0.
  rewrite ct_lemmas.fp_is_nonzero_spec, E0 in Hn by apply Hok. done.
Qed.

Lemma exponent : pm1 = B * (pm1 / B) ∧ 0 ≤ pm1 / B < 2 ^ 128.
Proof.
  split; [pose proof (Z.div_mod pm1 B ltac:(lia)); lia|]. split; [apply Z.div_pos; unfold pm1; lia|].
  apply Z.div_lt_upper_bound; [lia|]. unfold pm1. lia.
Qed.

(** The power [pm1 / B] of a unit. *)
Lemma post_root : post (G := G) T (root_draw B) (λ w, fp_unit w ∧ cong P (val w ^ B) 1).
Proof.
  destruct exponent as [HE HR]. eapply post_bind; [apply post_keygen_rand|]. intros h [Oh Nh]. apply post_ret.
  pose proof (fp_pow_u128_rep h (val h) (pm1 / B) HR (rep_val h Oh)) as [Ow Hw].
  assert (HB1 : cong P (val (fp_pow_u128 h (pm1 / B)) ^ B) 1).
  { transitivity ((val h ^ (pm1 / B)) ^ B); [apply cong_pow; [lia|exact Hw]|]. rewrite <- Z.pow_mul_r by lia. replace (pm1 / B * B) with pm1 by lia. change pm1 with (P - 1). apply fermat_little; [exact prime_127|].
    intros Hd. destruct (fp_ok_bounds h Oh) as (_ & _ & Hb). apply Nh. apply Z.divide_pos_le in Hd; [|lia]. fold P in Hd. lia. }
  split; [|done]. split; [done|]. intros E0. rewrite E0, Z.pow_0_l in HB1 by lia. discriminate HB1.
Qed.

Lemma post_draw_g : post (G := G) T (draw_g B) (root_of B).
Proof.
  apply post_reject. eapply post_mono; [apply post_root|]. intros w [[Ow Nw] HB1] Hn. split; [done|]. split; [|done].
  intros E1. rewrite fp_is_one_spec, E1 in Hn by done. done.
Qed.

(** [omega] has order [B]. *)
Lemma post_draw_omega : post (G := G) T (draw_omega B) (λ w, root_of B w ∧ ∀ k, 0 < k < B → ¬ cong P (val w ^ k) 1).
Proof.
  destruct (factor_small_spec B ltac:(lia)) as [Hpr Hall]. apply post_reject. eapply post_mono; [apply post_root|].
  intros w [[Ow Nw] HB1] [Hn Hf]%andb_true_iff. split.
  { split; [done|]. split; [|done]. intros E1. rewrite fp_is_one_spec, E1 in Hn by done. done. }
  apply primitive; [lia|done|]. intros p Hp Hd Hc. rewrite forallb_forall in Hf.
  specialize (Hf p). assert (Hin : p ∈ factor_small B) by by apply Hall. apply list_elem_of_In in Hin. specialize (Hf Hin).
  pose proof (prime_two_le p Hp) as HB2. assert (Wd : word 64 (B / p)).
  { split; [apply Z.div_pos; lia|]. apply Z.div_lt_upper_bound; [lia|]. pow_consts. nia. }
  destruct (rep_pow w (val w) (B / p) Wd (rep_val w Ow)) as [Op Hv]. rewrite fp_is_one_spec in Hf by done.
  destruct (fp_ok_bounds _ Op) as (_ & _ & Hb). assert (E1 : val (fp_pow_u64 w (B / p)) = 1).
  { apply (cong_small P); [by rewrite Hv|done|]. unfold P. lia. }
  rewrite E1 in Hf. done.
Qed.
End Draws.

(** ** The table of powers *)

Lemma powers_from_loop n e r : powers_loop r e (powers_from n e r) = Some (Nat.iter n (λ x, fp_mul x r) e).
Proof.
  revert e. induction n as [|n IH]; intros e; [done|]. cbn [powers_from powers_loop]. rewrite !Z.eqb_refl. cbn [negb orb].
  rewrite IH. f_equal. symmetry. exact (Nat.iter_succ_r n (λ x, fp_mul x r) e).
Qed.

Lemma powers_from_ok n e r : fp_ok e → fp_ok r → Forall fp_ok (powers_from n e r) ∧ length (powers_from n e r) = n.
Proof.
  intros He Hr. revert e He. induction n as [|n IH]; intros e He; [done|]. cbn [powers_from].
  assert (Ho : fp_ok (fp_mul e r)) by (eapply rep_ok, rep_mul; by apply rep_val).
  destruct (IH _ Ho) as [H1 H2]. split; [by constructor|]. cbn. by rewrite H2.
Qed.

Lemma iter_power n e r x k : e ~~ x ^ k → r ~~ x → 0 ≤ k → Nat.iter n (λ y, fp_mul y r) e ~~ x ^ (k + Z.of_nat n).
Proof.
  intros He Hr Hk. induction n as [|n IH]; cbn [Nat.iter nat_rect].
  - by rewrite Z.add_0_r.
  - eapply rep_cong; [by apply rep_mul|]. apply cong_eq. rewrite Nat2Z.inj_succ, Z.add_succ_r, Z.pow_succ_r by lia. ring.
Qed.

Lemma fp_one_rep : fp_from_u64 1 ~~ 1.
Proof. apply rep_u64. word_lia. Qed.

Lemma powers_table_ok B g : 3 ≤ B → root_of B g → Forall fp_ok (powers_table B g) ∧ Z.of_nat (length (powers_table B g)) = B ∧
  ∀ pk, powg_B pk = powers_table B g → p_B (prm pk) = B → pubkey_powers_ok pk = true.
Proof.
  intros HB ([Og Ng] & N1 & H1). destruct (powers_from_ok (Z.to_nat (B - 1)) (fp_from_u64 1) g (rep_ok _ _ fp_one_rep) Og) as [Hf Hl].
  assert (Lt : Z.of_nat (length (powers_table B g)) = B) by (cbn [powers_table length]; rewrite Hl; lia).
  split; [constructor; [exact (rep_ok _ _ fp_one_rep)|done]|]. split; [done|]. intros pk Hp HpB. unfold pubkey_powers_ok. cbv zeta.
  rewrite Hp, HpB, (proj2 (Z.ltb_ge _ _)), Lt, Z.eqb_refl by lia. cbn [negb orb].
  unfold powers_table. destruct (Z.to_nat (B - 1)) as [|n] eqn:En; [lia|]. cbn [powers_from nth drop fp_from_u64 lo hi Z.eqb negb orb].
  assert (E1 : fp_mul (fp_from_u64 1) g = g).
  { eapply rep_inj; [apply rep_mul; [exact fp_one_rep|by apply rep_val]|]. eapply rep_cong; [by apply rep_val|]. apply cong_eq. ring. }
  rewrite E1, drop_0. destruct (fp_ok_bounds g Og) as (Bl & Bh & Bv).
  assert (Hc : ((lo g <=? 1) && (hi g =? 0)) || (MASK63 <? hi g) || ((hi g =? MASK63) && (lo g =? UINT64_MAX)) = false).
  { unfold val, P in *. apply orb_false_iff. split; [apply orb_false_iff; split|].
    - destruct (Z.leb_spec (lo g) 1), (Z.eqb_spec (hi g) 0); cbn; lia.
    - apply Z.ltb_ge. unfold MASK63. lia.
    - destruct (Z.eqb_spec (hi g) MASK63), (Z.eqb_spec (lo g) UINT64_MAX); cbn; unfold MASK63, UINT64_MAX in *; lia. }
  rewrite Hc, powers_from_loop.
  assert (Hg1 : g ~~ val g ^ 1) by (rewrite Z.pow_1_r; by apply rep_val).
  pose proof (iter_power n g g (val g) 1 Hg1 (rep_val g Og) ltac:(lia)) as Hi.
  assert (EC : fp_mul (Nat.iter n (λ y, fp_mul y g) g) g = fp_from_u64 1).
  { eapply rep_inj; [apply rep_mul; [exact Hi|by apply rep_val]|]. eapply rep_cong; [exact fp_one_rep|].
    symmetry. transitivity (val g ^ B); [|exact H1]. apply cong_eq.
    replace B with (Z.succ (1 + Z.of_nat n)) by lia. rewrite Z.pow_succ_r by lia. ring. }
  rewrite EC. done.
Qed.

(** ** The matrix and the permutation *)

Section Public.
Context {F : Fuel}.

Lemma gen_H_column_safe pk c : 0 ≤ h_col_wt (prm pk) ≤ m_bits (prm pk) → safe (gen_H_column pk c) (λ col, nbits col = m_bits (prm pk)).
Proof.
  intros Hw. unfold gen_H_column. cbv zeta. set (words := [_; _; _; _; _]).
  pose proof (mixed_weight_range (λ _, False) _ _ "pvac.H.weight" words Hw) as Hm.
  eapply (rpost_bind _ _ _ (λ _, True)); [|done].
  destruct (prg_choose_k _ _ _ _ _) as [?|e|] eqn:E; [done|exact (choose_k_no_throw (λ _, False) _ _ _ _ _ e Hm eq_refl E)|done].
Qed.

Lemma gen_H_columns_safe pk cs : 0 ≤ h_col_wt (prm pk) ≤ m_bits (prm pk) →
  safe (gen_H_columns pk cs) (λ cols, length cols = length cs ∧ Forall (λ c, nbits c = m_bits (prm pk)) cols).
Proof.
  intros Hw. induction cs as [|c cs IH]; cbn [gen_H_columns]; [done|].
  eapply rpost_bind; [by apply gen_H_column_safe|]. intros col Hc. eapply rpost_bind; [exact IH|]. intros cols [Hl Hf].
  cbn. split; [by rewrite Hl|by constructor].
Qed.

Lemma shuffle_no_throw i p c e : shuffle i p c ≠ Throw e.
Proof.
  revert p c. induction i as [|i IH]; intros p c; [done|]. cbn [shuffle]. unfold mbind, M_bind.
  destruct (ubk_bounded (Z.of_nat (S i) + 1) c) as [[j c']|m|] eqn:E; [apply IH| |done].
  exfalso. revert E. unfold ubk_bounded. destruct (_ <=? 1); [done|]. unfold mbind, M_bind.
  destruct (reject _ _ c) as [[x c']| |] eqn:E; [done| |done]. exfalso. eapply reject_loop_no_throw in E; [done|]. done.
Qed.

Lemma gen_ubk_safe tag m : safe (gen_ubk_public tag m) (λ u, perm u ≡ₚ zseq 0 (Z.to_nat m) ∧ length (inv u) = Z.to_nat m ∧
  ∀ i p, perm u !! i = Some p → inv u !! Z.to_nat p = Some (Z.of_nat i)).
Proof.
  destruct (gen_ubk_public tag m) as [u|e|] eqn:E; [by apply gen_ubk_spec in E| |done].
  unfold gen_ubk_public in E. pose proof (shuffle_no_throw (Z.to_nat (m - 1)) (zseq 0 (Z.to_nat m)) (mkUbkCtr tag 0 [] 32)) as Hn.
  destruct (shuffle _ _ _) as [[? ?]|m'|]; [done| |done]. by destruct (Hn m').
Qed.

(** The bookkeeping of [is_valid_pubkey_shape] accepts two permutations. *)
Lemma seen_fold m l sp sq : Forall (λ pq, 0 ≤ pq.1 < m ∧ 0 ≤ pq.2 < m) l → NoDup (fst <$> l) → NoDup (snd <$> l) →
  (∀ p, p ∈ fst <$> l → nth (Z.to_nat p) sp false = false) → (∀ q, q ∈ snd <$> l → nth (Z.to_nat q) sq false = false) →
  is_Some (foldl (seen_step m) (Some (sp, sq)) l).
Proof.
  intros Hr. revert sp sq. induction Hr as [|[p q] l [Hp Hq] Hr IH]; intros sp sq N1 N2 S1 S2; [by eexists|].
  cbn [fmap list_fmap fst snd] in *. apply NoDup_cons in N1 as [P1 N1], N2 as [Q1 N2]. cbn [foldl].
  assert (E : seen_step m (Some (sp, sq)) (p, q) = Some (<[Z.to_nat p := true]> sp, <[Z.to_nat q := true]> sq)).
  { unfold seen_step. cbn [mbind option_bind]. rewrite (S1 p), (S2 q) by by left.
    rewrite !(proj2 (Z.ltb_ge _ 0)), !(proj2 (Z.leb_gt m _)) by lia. done. }
  assert (Hi : ∀ (s : list bool) x y, 0 ≤ x → 0 ≤ y → x ≠ y → nth (Z.to_nat y) (<[Z.to_nat x := true]> s) false = nth (Z.to_nat y) s false).
  { intros s x y Hx Hy Hne. rewrite !nth_lookup, list_lookup_insert_ne by lia. done. }
  rewrite E. apply IH; [done|done|..].
  - intros x Hx. assert (0 ≤ x) by (apply list_elem_of_fmap in Hx as ([a b] & -> & Hab); eapply Forall_forall in Hr as [? _]; [|exact Hab]; cbn in *; lia).
    rewrite Hi; [apply S1; by right|lia|done|by intros ->].
  - intros x Hx. assert (0 ≤ x) by (apply list_elem_of_fmap in Hx as ([a b] & -> & Hab); eapply Forall_forall in Hr as [_ ?]; [|exact Hab]; cbn in *; lia).
    rewrite Hi; [apply S2; by right|lia|done|by intros ->].
Qed.
End Public.

(** ** The shape of a generated key *)

(** The matrix and the permutation of a key. *)
Definition public_ok (pk : PubKey) : Prop :=
  length (H pk) = Z.to_nat (n_bits (prm pk)) ∧ Forall (λ c, nbits c = m_bits (prm pk)) (H pk) ∧
  perm (ubk pk) ≡ₚ zseq 0 (Z.to_nat (m_bits (prm pk))) ∧ length (inv (ubk pk)) = Z.to_nat (m_bits (prm pk)) ∧
  ∀ i p, perm (ubk pk) !! i = Some p → inv (ubk pk) !! Z.to_nat p = Some (Z.of_nat i).

Lemma inverse_NoDup m ps qs : ps ≡ₚ zseq 0 m → length qs = m → (∀ i p, ps !! i = Some p → qs !! Z.to_nat p = Some (Z.of_nat i)) →
  NoDup qs ∧ Forall (λ q, 0 ≤ q < Z.of_nat m) qs.
Proof.
  intros Hp Hl Hi. assert (Lp : length ps = m) by (rewrite Hp; apply length_zseq).
  assert (Hall : ∀ a q, qs !! a = Some q → 0 ≤ q < Z.of_nat m ∧ ps !! Z.to_nat q = Some (Z.of_nat a)).
  { intros a q Ha. pose proof (lookup_lt_Some _ _ _ Ha). assert (Hin : Z.of_nat a ∈ ps) by (rewrite Hp; apply elem_of_zseq; lia).
    apply list_elem_of_lookup in Hin as [i Hps]. pose proof (Hi i _ Hps) as Hq. rewrite Nat2Z.id, Ha in Hq. injection Hq as ->.
    pose proof (lookup_lt_Some _ _ _ Hps). split; [lia|]. by rewrite Nat2Z.id. }
  split.
  - apply NoDup_alt. intros a b q Ha Hb. destruct (Hall a q Ha) as [_ E1], (Hall b q Hb) as [_ E2]. rewrite E1 in E2. injection E2. lia.
  - apply Forall_lookup_2. intros a q Ha. by destruct (Hall a q Ha).
Qed.

Lemma NoDup_zseq s n : NoDup (zseq s n).
Proof.
  apply NoDup_alt. intros i j x Hi Hj. pose proof (lookup_lt_Some _ _ _ Hi) as Li. pose proof (lookup_lt_Some _ _ _ Hj) as Lj.
  rewrite length_zseq in Li, Lj. rewrite lookup_zseq in Hi, Hj by done. injection Hi as <-. injection Hj. lia.
Qed.

Lemma generated_shape pk : 3 ≤ p_B (prm pk) → 0 < m_bits (prm pk) → 0 < n_bits (prm pk) → public_ok pk →
  Z.of_nat (length (powg_B pk)) = p_B (prm pk) → valid_circuit_prf_profile (circuit_prf_profile pk) = true → is_valid_pubkey_shape pk = true.
Proof.
  intros HB Hm Hn (LH & NH & Hp & Li & Hi) Lw Hv. set (m := Z.to_nat (m_bits (prm pk))) in *.
  assert (Lp : length (perm (ubk pk)) = m) by (rewrite Hp; apply length_zseq).
  destruct (inverse_NoDup m _ _ Hp Li Hi) as [Nq Rq].
  assert (Np : NoDup (perm (ubk pk))) by (rewrite Hp; apply NoDup_zseq).
  assert (Rp : Forall (λ p, 0 ≤ p < Z.of_nat m) (perm (ubk pk))) by (apply Forall_forall; intros x Hx; rewrite Hp in Hx; apply elem_of_zseq in Hx; lia).
  assert (Hseen : is_Some (foldl (seen_step (m_bits (prm pk)))
    (Some (replicate (length (perm (ubk pk))) false, replicate (length (inv (ubk pk))) false)) (zip (perm (ubk pk)) (inv (ubk pk))))).
  { assert (Er : ∀ n i, nth i (replicate n false) false = false).
    { intros n i. rewrite nth_lookup. destruct (replicate n false !! i) eqn:E; [|done]. by apply lookup_replicate in E as [-> _]. }
    apply seen_fold; [|by rewrite fst_zip by lia|by rewrite snd_zip by lia|by intros|by intros].
    apply Forall_forall. intros [p q] Hpq. pose proof (elem_of_zip_l _ _ _ _ Hpq) as Hip. pose proof (elem_of_zip_r _ _ _ _ Hpq) as Hiq.
    assert (0 ≤ p < Z.of_nat m) by exact (proj1 (Forall_forall _ _) Rp p Hip).
    assert (0 ≤ q < Z.of_nat m) by exact (proj1 (Forall_forall _ _) Rq q Hiq). cbn. lia. }
  unfold is_valid_pubkey_shape. cbv zeta. destruct Hseen as [st ->].
  assert (Em : Z.of_nat m = m_bits (prm pk)) by (unfold m; lia).
  rewrite LH, Lp, Li, Lw, Hv, Em, Z2Nat.id, !Z.eqb_refl by lia.
  rewrite (proj2 (Z.leb_gt (p_B (prm pk)) 0)), (proj2 (Z.leb_gt (m_bits (prm pk)) 0)), (proj2 (Z.leb_gt (n_bits (prm pk)) 0)) by lia.
  cbn [negb orb andb]. rewrite andb_true_r, andb_true_iff. split; [rewrite andb_true_r|].
  - apply (forallb_forall _ _). intros [i p] Hin%list_elem_of_In. apply list_elem_of_lookup in Hin as [k Hk]. rewrite list_lookup_imap in Hk.
    destruct (perm (ubk pk) !! k) as [p'|] eqn:E; [|done]. injection Hk as <- <-. cbn [fst snd].
    rewrite nth_lookup, (Hi _ _ E). cbn. apply Z.eqb_refl.
  - apply forallb_forall. intros c Hc%list_elem_of_In. apply Z.eqb_eq. exact (proj1 (Forall_forall _ _) NH c Hc).
Qed.

(** ** The keys *)

Lemma bytes_from_u64s_ok ws : (4 ≤ length ws)%nat → length (bytes_from_u64s ws) = 32%nat ∧ bytes (bytes_from_u64s ws).
Proof.
  intros Hl. unfold bytes_from_u64s. do 4 (destruct ws as [|? ws]; [cbn in Hl; lia|]). split; [done|].
  cbn [take fmap list_fmap concat zseq app]. repeat constructor; by apply wrap_word.
Qed.

Lemma tagged_hash_ok dom d : length (tagged_hash dom d) = 32%nat ∧ bytes (tagged_hash dom d).
Proof. split; [|apply finish_bytes]. apply finish_length. unfold sha_str. by rewrite !update_length. Qed.

(** The circuit keys are fit for the commitment. *)
Record circuit_keys_ok (sk : SecKey) : Prop := {
  ck_keys : keys_ok sk;
  ck_blind : length (circuit_prf_key_blind sk) = 32%nat ∧ bytes (circuit_prf_key_blind sk) }.

(** The commitment to the circuit key of a secret key. *)
Definition key_commitment (sk : SecKey) : res (list Z) :=
  pedersen_commit (sc_from_fp_signed (circuit_prf_key sk)) (scalar_from_key_blind (circuit_prf_key_blind sk)).

Lemma rpost_value {A} T (r : res A) (Q : A → Prop) : rpost T r Q → rpost T r (λ a, r = Ok a).
Proof. by destruct r. Qed.

Lemma set_commit_safe pk sk : circuit_keys_ok sk → circuit_prf_profile pk = MIMC_X5_V7 →
  safe (set_circuit_prf_commit pk sk) (λ pk', ∃ c, pk' = with_circuit_prf pk MIMC_X5_V7 c ∧ key_commitment sk = Ok c).
Proof.
  intros [[Hk _] [Hl Hb]] Hp. unfold set_circuit_prf_commit, key_commitment, scalar_from_key_blind. rewrite Hp.
  pose proof (rpost_value _ _ _ (signed_safe _ _ Hk (sc_reduce256_ok _ Hl Hb))) as Hs.
  eapply (rpost_bind _ _ _ (eq (circuit_prf_key sk))); [reflexivity|]. intros ? <-.
  eapply (rpost_bind _ _ _ (eq (circuit_prf_key_blind sk))); [reflexivity|]. intros ? <-.
  eapply rpost_bind; [exact Hs|]. clear Hs. intros c Hc. exists c. split; [reflexivity|exact Hc].
Qed.

(** The noise secret does not enter it. *)
Lemma key_commitment_lpn sk s : key_commitment (with_lpn sk s) = key_commitment sk.
Proof. unfold key_commitment, with_lpn. cbn [circuit_prf_key circuit_prf_key_blind]. reflexivity. Qed.

#[local] Opaque set_circuit_prf_commit key_commitment.

Lemma post_of_safe {G A} T (r : res A) Q : safe r Q → post (G := G) T (lift r) Q.
Proof. intros Hr g. unfold lift. by destruct r. Qed.

(** A computation run for its value and its last state. *)
Lemma post_state {G A} T (m : M G A) g Q : post T m Q → rpost T (m g) (λ '(a, _), Q a).
Proof. intros Hm. specialize (Hm g). by destruct (m g) as [[a ?]| |]. Qed.


Section Keys.
Context {F : Fuel}.

Lemma public_parts_safe pk : 0 ≤ h_col_wt (prm pk) ≤ m_bits (prm pk) →
  safe (public_parts pk) (λ pk', prm pk' = prm pk ∧ canon_tag pk' = canon_tag pk ∧ public_ok pk').
Proof.
  intros Hw. unfold public_parts, gen_H. eapply (rpost_bind _ _ _ (λ pk', prm pk' = prm pk ∧ canon_tag pk' = canon_tag pk ∧
    length (H pk') = Z.to_nat (n_bits (prm pk)) ∧ Forall (λ c, nbits c = m_bits (prm pk)) (H pk'))).
  - eapply rpost_bind; [by apply gen_H_columns_safe|]. intros cols [Hl Hf]. rewrite length_zseq in Hl. cbv zeta. by split_and!.
  - intros pk' (Ep & Et & Hl & Hf). eapply rpost_bind; [apply gen_ubk_safe|]. intros u Hu. cbn. split; [done|]. split; [done|].
    unfold public_ok, with_ubk. cbn [H prm ubk]. rewrite Ep in *. destruct Hu as (? & ? & ?). by split_and!.
Qed.

Lemma post_blind {G} `{RngLaws G} T : post (G := G) T random_blind (λ b, length b = 32%nat ∧ bytes b).
Proof.
  eapply post_bind; [apply post_replicate, post_u64|]. intros ws [Hl _]. apply post_ret. apply bytes_from_u64s_ok. lia.
Qed.

(** What both ways of deriving the circuit keys give. *)
Definition material (pk : PubKey) (sk : SecKey) (r : PubKey * SecKey) : Prop :=
  (∃ c, r.1 = with_circuit_prf pk MIMC_X5_V7 c ∧ key_commitment r.2 = Ok c) ∧ keys_ok r.2 ∧ prf_k r.2 = prf_k sk.

Lemma post_material {G} `{RngLaws G} pk sk : post (G := G) (λ _, False) (derive_circuit_prf_material_random pk sk) (material pk sk).
Proof.
  unfold derive_circuit_prf_material_random. eapply post_bind; [apply post_fp_nonzero|]. intros k6 [O6 _].
  eapply post_bind; [apply post_blind|]. intros b6 _. eapply post_bind; [apply post_fp_nonzero|]. intros k7 [O7 _].
  eapply post_bind; [apply post_blind|]. intros b7 Hb. cbv zeta.
  set (sk' := with_circuit_keys sk k6 b6 k7 b7). set (pk' := with_circuit_prf pk MIMC_X5_V7 (circuit_prf_key_commit pk)).
  assert (Hc : circuit_keys_ok sk') by (split; [by split|exact Hb]). assert (Hf : prf_k sk' = prf_k sk) by reflexivity.
  pose proof (set_commit_safe pk' sk' Hc eq_refl) as Hs. clearbody sk'. eapply post_bind; [apply post_of_safe; simple apply Hs|]. clear Hs.
  intros r [c [-> Hv]]. apply post_ret. split; [exists c; split; [reflexivity|exact Hv]|]. split; [exact (ck_keys _ Hc)|exact Hf].
Qed.

Lemma seeded_material pk sk master : safe (derive_circuit_prf_material_seeded pk sk master) (material pk sk).
Proof.
  unfold derive_circuit_prf_material_seeded. cbv zeta.
  assert (Ok : ∀ d, fp_ok (fp_from_hash32_nonzero d)) by (intros d; apply fp_from_hash32_unit).
  set (sk' := with_circuit_keys sk _ _ _ _). set (pk' := with_circuit_prf pk MIMC_X5_V7 (circuit_prf_key_commit pk)).
  assert (Hc : circuit_keys_ok sk') by (split; [by split; apply Ok|apply tagged_hash_ok]).
  pose proof (set_commit_safe pk' sk' Hc eq_refl) as Hs. eapply rpost_bind; [exact Hs|]. clear Hs.
  intros r [c [-> Hv]]. split; [exists c; split; [reflexivity|exact Hv]|]. split; [exact (ck_keys _ Hc)|reflexivity].
Qed.

(** The secret of the LPN noise: [n] bits, the others of the last word zero. *)
Definition secret_ok (n : Z) (ws : list Z) : Prop :=
  Z.of_nat (length ws) = (n + 63) / 64 ∧ Forall (word 64) ws ∧
  (n .& 63 ≠ 0 → ∀ w, last ws = Some w → word (n .& 63) w).

Lemma post_secret {G} `{RngLaws G} T n : 0 < n → post (G := G) T (draw_lpn_secret n) (secret_ok n).
Proof.
  intros Hn. eapply post_bind; [apply post_replicate, post_u64|]. intros ws [Hl Hw]. apply post_ret. cbn beta in *.
  assert (Hlen : Z.of_nat (length ws) = (n + 63) / 64) by (rewrite Hl, Z2Nat.id; [done|apply Z.div_pos; lia]).
  unfold mask_back. destruct (Z.eqb_spec (n .& 63) 0) as [E0|E0]; [by split_and!|].
  assert (Hb : 0 < n .& 63 < 64) by (rewrite (land_low _ 6) in * by lia; pose proof (Z.mod_pos_bound n (2 ^ 6)); lia).
  assert (Em : ∀ w, w .& (wshl 64 1 (n .& 63) - 1) = w mod 2 ^ (n .& 63)).
  { intros w. apply land_low; [lia|]. unfold wshl. rewrite shl_mul, Z.mul_1_l by lia. rewrite wrap_small; [done|].
    split; [lia|]. apply Z.pow_lt_mono_r; lia. }
  split; [by rewrite length_alter|]. split.
  - apply Forall_alter; [done|]. intros w _ Ww. rewrite Em. pose proof (Z.mod_pos_bound w (2 ^ (n .& 63)) ltac:(lia)).
    split; [lia|]. eapply Z.le_lt_trans; [apply Z.mod_le; unfold word in Ww; lia|apply Ww].
  - intros _ w. rewrite last_lookup, length_alter. replace (Nat.pred (length ws)) with (length ws - 1)%nat by lia.
    rewrite list_lookup_alter_eq. destruct (ws !! (length ws - 1)%nat) as [w0|]; cbn; [|done]. intros [= <-]. rewrite Em.
    split; [apply Z.mod_pos_bound; lia|apply Z.mod_pos_bound; lia].
Qed.
End Keys.

(** ** Both key generations *)

(** What [require_params] checks. *)
Lemma require_params_ok prm : require_params prm = Ok tt →
  3 ≤ p_B prm ∧ 0 < m_bits prm ∧ 0 < n_bits prm ∧ 0 ≤ h_col_wt prm ≤ m_bits prm ∧ 0 ≤ x_col_wt prm ≤ n_bits prm ∧
  0 ≤ err_wt prm ≤ m_bits prm ∧ 0 < lpn_n prm ∧ 0 < lpn_t prm ∧ 0 < lpn_tau_den prm.
Proof.
  unfold require_params.
  repeat (match goal with |- context [if ?b then _ else _] => destruct b eqn:?; [done|] end).
  rewrite ?orb_false_iff in *. intros _. lia.
Qed.

(** A generated pair of keys. *)
Record generated (prm0 : Params) (pk : PubKey) (sk : SecKey) : Prop := {
  ge_params : prm pk = prm0;
  ge_pubkey : pubkey_wf pk ∧ is_valid_pubkey_shape pk = true ∧ pubkey_powers_ok pk = true;
  ge_weights : weights_ok pk;
  ge_commit : circuit_prf_profile pk = MIMC_X5_V7 ∧ key_commitment sk = Ok (circuit_prf_key_commit pk);
  ge_keys : keys_ok sk ∧ length (prf_k sk) = 4%nat ∧ secret_ok (lpn_n prm0) (lpn_s_bits sk);
  ge_omega : cong P (val (omega_B pk) ^ p_B prm0) 1 ∧ ∀ k, 0 < k < p_B prm0 → ¬ cong P (val (omega_B pk) ^ k) 1 }.

Lemma generated_keypair prm0 pk sk : generated prm0 pk sk → 0 < lpn_t prm0 → 8 ≤ p_B prm0 ≤ 65536 → keypair_ok pk sk.
Proof. intros [<- (H1 & H2 & H3) Hw _ (Hk & _) _] Ht HB. by split. Qed.

Section Keygen.
Context {F : Fuel} (prm0 : Params) (HP : require_params prm0 = Ok tt) (Hdiv : pm1 mod p_B prm0 = 0) (HB : p_B prm0 < 2 ^ 31).

Lemma check_basis_ok z d : check_basis prm0 z d = Ok tt.
Proof.
  pose proof (require_params_ok prm0 HP) as (? & _). unfold check_basis. rewrite HP. cbn [mbind res_bind].
  by rewrite (proj2 (Z.eqb_neq _ 0)), (proj2 (Z.eqb_eq _ 0)) by lia.
Qed.

(** The parts put together. *)
Lemma generated_intro pk1 sk1 g omega s r tag : prm pk1 = prm0 → public_ok pk1 → material pk1 sk1 r → length (prf_k sk1) = 4%nat →
  root_of (p_B prm0) g → root_of (p_B prm0) omega → (∀ k, 0 < k < p_B prm0 → ¬ cong P (val omega ^ k) 1) →
  secret_ok (lpn_n prm0) s → canon_tag pk1 = tag →
  generated prm0 (with_basis r.1 omega (powers_table (p_B prm0) g)) (with_lpn r.2 s).
Proof.
  intros Ep Hpub [[c [E1 Hc]] [Hk Hprf]] L4 Hg (_ & _ & Ho) Hord Hs _. pose proof (require_params_ok prm0 HP) as (B3 & M0 & N0 & _ & X0 & R0 & _).
  destruct (powers_table_ok (p_B prm0) g B3 Hg) as (Fp1 & Lp & Hpow). destruct r as [pk2 sk2]. cbn [fst snd] in *. subst pk2. split.
  - exact Ep.
  - split; [split; [exact Fp1|cbn; by rewrite Ep]|]. split.
    + apply generated_shape; cbn [with_basis with_circuit_prf prm powg_B circuit_prf_profile H ubk]; rewrite ?Ep; try done.
    + apply Hpow; [done|]. cbn. by rewrite Ep.
  - clear Hc. unfold weights_ok. cbn [with_basis with_circuit_prf prm]. rewrite Ep. split; lia.
  - split; [reflexivity|]. rewrite key_commitment_lpn. exact Hc.
  - split; [exact Hk|]. split; [cbn; by rewrite Hprf|exact Hs].
  - split; [exact Ho|exact Hord].
Qed.

Lemma post_keygen pk sk : post (λ _, False) (keygen prm0 pk sk) (λ r, generated prm0 r.1 r.2).
Proof.
  pose proof (require_params_ok prm0 HP) as (B3 & M0 & N0 & W0 & X0 & R0 & L0 & _). unfold keygen.
  eapply (post_bind _ _ _ (λ _, True)); [apply post_lift; by rewrite check_basis_ok|]. intros _ _.
  eapply post_bind; [apply post_u64|]. intros tag _.
  eapply post_bind; [apply post_of_safe, public_parts_safe; exact W0|]. intros pk1 (Ep & Et & Hpub).
  eapply post_bind; [apply post_replicate, post_u64|]. intros k [Lk _].
  eapply post_bind; [apply post_material|]. intros [pk2 sk2] Hm.
  eapply post_bind; [by apply post_draw_g|]. intros g Hg. eapply post_bind; [by apply post_draw_omega|]. intros omega [Ho Hord].
  eapply post_bind; [by apply post_secret|]. intros s Hs. apply post_ret. cbn [fst snd].
  exact (generated_intro pk1 _ g omega s (pk2, sk2) tag Ep Hpub Hm Lk Hg Ho Hord Hs Et).
Qed.

Lemma safe_keygen_from_seed pk sk key : safe (keygen_from_seed prm0 pk sk key) (λ r, generated prm0 r.1 r.2).
Proof.
  pose proof (require_params_ok prm0 HP) as (B3 & M0 & N0 & W0 & X0 & R0 & L0 & _). unfold keygen_from_seed.
  eapply (rpost_bind _ _ _ (λ _, True)); [by rewrite check_basis_ok|]. intros _ _. cbv zeta.
  eapply rpost_bind; [apply public_parts_safe; exact W0|]. intros pk1 (Ep & Et & Hpub).
  eapply rpost_bind; [apply post_state, post_replicate, post_u64|]. intros [k rng] [Lk _].
  eapply rpost_bind; [apply seeded_material|]. intros [pk2 sk2] Hm.
  eapply rpost_bind; [by apply post_state, post_secret|]. intros [s rng'] Hs.
  eapply rpost_bind; [by apply post_state, post_draw_g|]. intros [g gen] Hg.
  eapply rpost_bind; [by apply post_state, post_draw_omega|]. intros [omega gen'] [Ho Hord].
  exact (generated_intro pk1 _ g omega s (pk2, sk2) _ Ep Hpub Hm Lk Hg Ho Hord Hs Et).
Qed.
End Keygen.

(** ** A basis too small to encrypt *)

Section Small.
Context {F : Fuel} {LOG : Log2} {G} `{RngLaws G}.

Abbreviation fails m := (post (G := G) (λ _, True) m (λ _, False)).

Lemma post_top {A} (m : M G A) : post (λ _, True) m (λ _, True).
Proof. intros g. by destruct (m g) as [[? ?]| |]. Qed.

Lemma fails_after {A B} (m : M G A) (f : A → M G B) : (∀ a, fails (f a)) → fails (m ≫= f).
Proof. intros Hf. eapply post_bind; [apply post_top|]. intros a _. apply Hf. Qed.

Lemma fails_bind {A B} (m : M G A) (f : A → M G B) : fails m → fails (m ≫= f).
Proof. intros Hm. eapply post_bind; [exact Hm|]. by intros a []. Qed.

(** Every fresh position uses one up. *)
Lemma post_fresh_used sel : used sel ≤ sel_B sel →
  post (G := G) (λ _, True) (fresh sel) (λ '(_, sel'), used sel' = used sel + 1 ∧ sel_B sel' = sel_B sel ∧ used sel' ≤ sel_B sel).
Proof.
  intros Hu. unfold fresh. destruct (Z.leb_spec (sel_B sel) (used sel)) as [|Hlt]; [by intros g|].
  eapply post_bind; [apply post_top|]. intros x _. apply post_ret. cbn. lia.
Qed.

Lemma sig_nodes_exhaust n S sel : used sel ≤ sel_B sel → sel_B sel < used sel + Z.of_nat n → fails (sig_nodes n S sel).
Proof.
  revert sel. induction n as [|n IH]; intros sel Hu Hn; [lia|]. cbn [sig_nodes]. eapply post_bind.
  - unfold sig_node. eapply post_bind; [apply post_top|]. intros c _. eapply post_bind; [by apply post_fresh_used|].
    intros [x sel'] Hs. eapply post_bind; [apply post_top|]. intros b _.
    apply (post_ret _ _ (λ '(_, sel'), used sel' = used sel + 1 ∧ sel_B sel' = sel_B sel ∧ used sel' ≤ sel_B sel)). exact Hs.
  - intros [x sel'] (E1 & E2 & E3). apply fails_bind, IH; lia.
Qed.

Lemma synth_fails pk sk v d : p_B (prm pk) < 8 → fails (synth pk sk v d).
Proof.
  intros HB. unfold synth. cbv zeta. apply fails_after. intros [sd R]. apply fails_after. intros b. apply fails_after. intros [ds agg].
  apply fails_after. intros l. eapply (post_bind _ _ _ (λ sel, sel_B sel = p_B (prm pk) ∧ used sel = 0 ∧ 0 < p_B (prm pk))).
  - apply post_lift. unfold selector_new. destruct (Z.leb_spec (p_B (prm pk)) 0); [done|]. done.
  - intros sel (E1 & E2 & E3). apply fails_bind. unfold sig_build. cbv zeta. apply fails_bind, sig_nodes_exhaust; [lia|]. unfold SIG_K. lia.
Qed.
End Small.

Lemma fails_ok {G A} (m : M G A) g : post (λ _, True) m (λ _, False) → is_ok (m g) = false.
Proof. intros Hm. specialize (Hm g). by destruct (m g) as [[? ?]| |]. Qed.

Lemma combine_fails {F : Fuel} {LOG : Log2} {G} `{RngLaws G} ltr pk sk x y d : p_B (prm pk) < 8 →
  post (G := G) (λ _, True) (combine_enc ltr pk sk x y d) (λ _, False).
Proof. intros HB. unfold combine_enc. apply fails_bind. destruct ltr; by apply fails_bind, synth_fails. Qed.

(** ** Theorems *)

(** C8. Key generation, from the system generator or from a wallet key: for
    parameters that [require_params] accepts and a basis size that divides
    [p - 1] it raises nothing, and its result is a pair of keys that every
    other operation accepts - the public key has a valid shape and a valid table
    of powers, [omega_B] has order exactly [B], the circuit keys are reduced, the
    profile is version 7 and the public key holds the Pedersen commitment to the
    circuit key of the secret key under its blinding ([key_commitment]), the LPN
    secret has its length and no stray bits - and a pair fit for encryption when
    [8 <= B <= 65536]; any other parameters raise. *)
Theorem keygen_correct {F : Fuel} prm0 pk0 sk0 key : p_B prm0 < 2 ^ 31 →
  (require_params prm0 = Ok tt → pm1 mod p_B prm0 = 0 →
    let fit r := generated prm0 r.1 r.2 ∧ (8 ≤ p_B prm0 ≤ 65536 → keypair_ok r.1 r.2) in
    post (λ _, False) (keygen prm0 pk0 sk0) fit ∧ rpost (λ _, False) (keygen_from_seed prm0 pk0 sk0 key) fit) ∧
  (require_params prm0 ≠ Ok tt ∨ pm1 mod p_B prm0 ≠ 0 →
    (∀ g, ∃ e, keygen prm0 pk0 sk0 g = Throw e) ∧ ∃ e, keygen_from_seed prm0 pk0 sk0 key = Throw e).
Proof.
  intros HB. split.
  - intros HP Hdiv fit. assert (Hfit : ∀ r, generated prm0 r.1 r.2 → fit r).
    { intros r Hr. split; [exact Hr|]. intros H8. apply (generated_keypair prm0); [exact Hr| |exact H8].
      by destruct (require_params_ok prm0 HP) as (_ & _ & _ & _ & _ & _ & _ & ? & _). }
    split; [eapply post_mono; [by apply post_keygen|exact Hfit]|eapply rpost_mono; [by apply safe_keygen_from_seed|exact Hfit]].
  - intros Hbad. assert (Hc : ∀ z d, ∃ e, check_basis prm0 z d = Throw e).
    { intros z d. unfold check_basis. destruct (require_params prm0) as [[]|e|] eqn:E.
      - cbn [mbind res_bind]. destruct (_ =? 0); [by eexists|]. destruct (Z.eqb_spec (pm1 mod p_B prm0) 0); [|by eexists].
        by destruct Hbad.
      - by exists e.
      - exfalso. revert E. unfold require_params. repeat (case_match; [done|]). done. }
    split; [intros g; unfold keygen|unfold keygen_from_seed].
    + destruct (Hc "pvac: keygen: prm.B is zero" "pvac: keygen: prm.B does not divide pm1") as [e E]. exists e.
      unfold mbind at 1, M_bind at 1, lift. by rewrite E.
    + destruct (Hc "pvac: keygen_from_seed: prm.B is zero" "pvac: keygen_from_seed: prm.B does not divide pm1") as [e E]. exists e.
      by rewrite E.
Qed.

Lemma keygen_correct_witness :
  post (λ _, False) (keygen enc_params enc_pk enc_sk) (λ r, generated enc_params r.1 r.2 ∧ keypair_ok r.1 r.2) ∧
  ∃ e, keygen_from_seed (mkParams 11 2 2 1 1 1 0 0 0 0 1 1 1 2 0 0 0) enc_pk enc_sk [] = Throw e.
Proof.
  split.
  - destruct (keygen_correct enc_params enc_pk enc_sk []) as [H _]; [reflexivity|].
    destruct H as [H _]; [reflexivity|vm_compute; reflexivity|].
    intros g. specialize (H g). destruct (keygen enc_params enc_pk enc_sk g) as [[r g']| |]; [|exact H|exact H].
    split; [exact (proj1 H)|]. apply (proj2 H). split; vm_compute; discriminate.
  - destruct (keygen_correct (mkParams 11 2 2 1 1 1 0 0 0 0 1 1 1 2 0 0 0) enc_pk enc_sk []) as [_ H]; [reflexivity|].
    apply H. right. vm_compute. discriminate.
Defined.

(** C18. A basis of fewer than eight powers passes [require_params], and [keygen]
    returns a pair of keys, but [enc_values_depth] never succeeds with it, for any
    values, depth, order and tape: an encryption draws eight distinct positions. *)
Theorem small_basis_rejected {F : Fuel} {LOG : Log2} prm0 pk0 sk0 : require_params prm0 = Ok tt → pm1 mod p_B prm0 = 0 → p_B prm0 < 8 →
  post (λ _, False) (keygen prm0 pk0 sk0) (λ r, ∀ ltr v d g, is_ok (enc_values_depth ltr r.1 r.2 v d g) = false).
Proof.
  intros HP Hdiv HB. eapply post_mono; [apply post_keygen; [done|done|lia]|]. intros [pk sk] [Ep _ _ _ _ _] ltr v d g. cbn [fst snd] in *.
  apply fails_ok, fails_after. intros m. apply combine_fails. by rewrite Ep.
Qed.

Lemma small_basis_rejected_witness :
  post (λ _, False) (keygen (mkParams 7 2 2 1 1 1 0 0 0 0 1 1 1 2 0 0 0) enc_pk enc_sk)
    (λ r, ∀ ltr v d g, is_ok (enc_values_depth ltr r.1 r.2 v d g) = false).
Proof. apply small_basis_rejected; [reflexivity|vm_compute; reflexivity|reflexivity]. Defined.
