(* ===== verification/Legacy.v ===== *)
(** * Matching public keys: [crypto/legacy_profile.hpp] *)

From Stdlib Require Import SpecFloat.
From S2P Require Import Prelude Primes Field Hash Rng CtSafe Types Matrix Lpn Scalar25519 Ristretto RistrettoGroup Encrypt Noise Encrypted Keygen.

(** [==] on doubles. *)
Definition f64_eq (a b : Z) : bool := SFeqb (f64.of_bits a) (f64.of_bits b).

Definition legacy_params_equal (a b : Params) : bool :=
  (p_B a =? p_B b) && (m_bits a =? m_bits b) && (n_bits a =? n_bits b) && (h_col_wt a =? h_col_wt b) &&
  (x_col_wt a =? x_col_wt b) && (err_wt a =? err_wt b) &&
  f64_eq (noise_entropy_bits a) (noise_entropy_bits b) && f64_eq (tuple2_fraction a) (tuple2_fraction b) &&
  f64_eq (depth_slope_bits a) (depth_slope_bits b) && (edge_budget a =? edge_budget b) &&
  (lpn_n a =? lpn_n b) && (lpn_t a =? lpn_t b) && (lpn_tau_num a =? lpn_tau_num b) && (lpn_tau_den a =? lpn_tau_den b) &&
  f64_eq (recrypt_lo a) (recrypt_lo b) && f64_eq (recrypt_hi a) (recrypt_hi b) && (recrypt_rounds a =? recrypt_rounds b).

(** ** The matrix of version 1: the weight of a column is the parameter itself *)

Definition legacy_v1_column {F : Fuel} (pk : PubKey) (c : Z) : res BitVec :=
  let m := m_bits (prm pk) in
  let wt := h_col_wt (prm pk) in
  rows ← prg_choose_k wt m Dom.H_GEN [u64 m; u64 (n_bits (prm pk)); u64 wt; u64 c; canon_tag pk] 0;
  let col := bv_make m in
  Ok (mkBitVec (nbits col) (foldl set_bit (bw col) rows)).

Definition with_matrix (pk : PubKey) (h : list BitVec) (digest : list Z) : PubKey :=
  mkPubKey (prm pk) (canon_tag pk) h (ubk pk) digest (omega_B pk) (powg_B pk) (circuit_prf_key_commit pk) (circuit_prf_profile pk).

(** The digest is that of [gen_H]. *)
Definition legacy_v1_matrix {F : Fuel} (pk : PubKey) : res PubKey :=
  cols ← mapR (legacy_v1_column pk) (zseq 0 (Z.to_nat (n_bits (prm pk))));
  let s := sha_str sha_init "H|v2" in
  let s := Sha.sha256_acc_u64 s (u64 (m_bits (prm pk))) in
  let s := Sha.sha256_acc_u64 s (u64 (n_bits (prm pk))) in
  let s := Sha.sha256_acc_u64 s (u64 (h_col_wt (prm pk))) in
  Ok (with_matrix pk cols (Sha.finish (foldl digest_column s cols))).

(** ** Comparisons *)

(** Same size, and [p] on every position. *)
Definition all2 {A} (p : A → A → bool) (a b : list A) : bool := (length a =? length b)%nat && forallb (λ xy, p xy.1 xy.2) (zip a b).

Definition fp_same (a b : Fp) : bool := (lo a =? lo b) && (hi a =? hi b).
Definition bv_same (a b : BitVec) : bool := (nbits a =? nbits b) && bool_decide (bw a = bw b).

Definition legacy_v1_pubkey_matches {F : Fuel} (legacy current : PubKey) : res bool :=
  if negb (legacy_params_equal (prm legacy) (prm current)) then Ok false
  else if negb (canon_tag legacy =? canon_tag current) then Ok false
  else if negb (all2 fp_same (powg_B legacy) (powg_B current)) then Ok false
  else if negb (bool_decide (perm (ubk legacy) = perm (ubk current))) || negb (bool_decide (inv (ubk legacy) = inv (ubk current))) then Ok false
  else if negb (bool_decide (circuit_prf_key_commit legacy = replicate 32 0)) then Ok false
  else
    expected ← legacy_v1_matrix (with_tag pubkey0 (prm current) (canon_tag current));
    if negb (bool_decide (H_digest legacy = H_digest expected)) || negb (all2 bv_same (H legacy) (H expected)) then Ok false
    else Ok ((hi (omega_B legacy) <=? MASK63) && (negb (lo (omega_B legacy) =? 0) || negb (hi (omega_B legacy) =? 0))).

Definition public_profile_matches (a b : PubKey) : bool :=
  legacy_params_equal (prm a) (prm b) && (canon_tag a =? canon_tag b) && bool_decide (H_digest a = H_digest b) &&
  all2 fp_same (powg_B a) (powg_B b) && all2 bv_same (H a) (H b) &&
  bool_decide (perm (ubk a) = perm (ubk b)) && bool_decide (inv (ubk a) = inv (ubk b)).

Definition proof_profile_matches (a b : PubKey) : bool :=
  public_profile_matches a b && bool_decide (circuit_prf_key_commit a = circuit_prf_key_commit b) &&
  bool_decide (circuit_prf_profile a = circuit_prf_profile b).

Definition secret_profile_matches (candidate current : PubKey) (sk : SecKey) : res bool :=
  if negb (public_profile_matches candidate current) then Ok false
  else if negb (valid_circuit_prf_profile (circuit_prf_profile candidate)) then Ok false
  else
    key ← circuit_prf_key_for_profile sk (circuit_prf_profile candidate);
    blind ← circuit_prf_blind_for_profile sk (circuit_prf_profile candidate);
    c ← pedersen_commit (sc_from_fp_signed key) (sc_reduce256 blind);
    Ok (bool_decide (circuit_prf_key_commit candidate = c)).

(** ** Lemmas *)

(** Parameters whose doubles are not NaN. *)
Definition params_finite (p : Params) : Prop :=
  Forall (λ x, f64.of_bits x ≠ S754_nan) [noise_entropy_bits p; tuple2_fraction p; depth_slope_bits p; recrypt_lo p; recrypt_hi p].

Lemma f64_eq_refl x : f64.of_bits x ≠ S754_nan → f64_eq x x = true.
Proof.
  unfold f64_eq, SFeqb. destruct (f64.of_bits x) as [s|s| |s m e] eqn:E; intros Hn.
  - by destruct s.
  - by destruct s.
  - done.
  - unfold SFcompare. rewrite Z.compare_refl. destruct s; by rewrite Pos.compare_cont_refl.
Qed.

Lemma params_refl p : params_finite p → legacy_params_equal p p = true.
Proof.
  intros Hf. unfold params_finite in Hf. rewrite !Forall_cons in Hf. destruct Hf as (H1 & H2 & H3 & H4 & H5 & _).
  unfold legacy_params_equal. by rewrite !Z.eqb_refl, !f64_eq_refl by done.
Qed.

Lemma all2_refl {A} (p : A → A → bool) l : (∀ x, p x x = true) → all2 p l l = true.
Proof.
  intros Hp. unfold all2. rewrite Nat.eqb_refl. cbn [andb]. apply forallb_forall. intros [x y] Hin.
  assert (x = y) as ->; [|apply Hp]. apply list_elem_of_In, list_elem_of_lookup in Hin as [i Hi]. apply lookup_zip_Some in Hi as [E1 E2].
  rewrite E1 in E2. by injection E2.
Qed.

Lemma all2_eq {A} (p : A → A → bool) a b : (∀ x y, p x y = true → x = y) → all2 p a b = true → a = b.
Proof.
  intros Hp [Hl%Nat.eqb_eq Hf]%andb_true_iff. revert b Hl Hf. induction a as [|x a IH]; intros [|y b] Hl Hf; try done.
  cbn [zip zip_with forallb] in Hf. apply andb_true_iff in Hf as [Hxy Hf]. f_equal; [by apply Hp|]. apply IH; [by injection Hl|done].
Qed.

Lemma fp_same_eq x y : fp_same x y = true ↔ x = y.
Proof.
  unfold fp_same. rewrite andb_true_iff, !Z.eqb_eq. destruct x, y. cbn. split; [by intros [-> ->]|by intros [= -> ->]].
Qed.

Lemma bv_same_eq x y : bv_same x y = true ↔ x = y.
Proof.
  unfold bv_same. rewrite andb_true_iff, Z.eqb_eq, bool_decide_eq_true. destruct x, y. cbn. split; [by intros [-> ->]|by intros [= -> ->]].
Qed.

Lemma public_refl a b : params_finite (prm a) → prm a = prm b → canon_tag a = canon_tag b → H_digest a = H_digest b → powg_B a = powg_B b →
  H a = H b → ubk a = ubk b → public_profile_matches a b = true.
Proof.
  intros Hf E1 E2 E3 E4 E5 E6. unfold public_profile_matches. rewrite <- E1, <- E2, <- E3, <- E4, <- E5, <- E6.
  rewrite params_refl, Z.eqb_refl, !bool_decide_true by done.
  rewrite !all2_refl; [done|intros x; by apply bv_same_eq|intros x; by apply fp_same_eq].
Qed.

(** What [public_profile_matches] finds. *)
Record public_same (a b : PubKey) : Prop := {
  ps_params : legacy_params_equal (prm a) (prm b) = true;
  ps_tag : canon_tag a = canon_tag b;
  ps_digest : H_digest a = H_digest b;
  ps_powers : powg_B a = powg_B b;
  ps_matrix : H a = H b;
  ps_perm : perm (ubk a) = perm (ubk b) ∧ inv (ubk a) = inv (ubk b) }.

Lemma public_spec a b : public_profile_matches a b = true ↔ public_same a b.
Proof.
  unfold public_profile_matches. rewrite !andb_true_iff, !bool_decide_eq_true, Z.eqb_eq. split.
  - intros ((((((H1 & H2) & H3) & H4) & H5) & H6) & H7). split; try done.
    + apply (all2_eq fp_same); [|done]. intros x y. apply fp_same_eq.
    + apply (all2_eq bv_same); [|done]. intros x y. apply bv_same_eq.
  - intros [H1 H2 H3 H4 H5 [H6 H7]]. rewrite H4, H5. split_and!; try done; apply all2_refl; intros x; [by apply fp_same_eq|by apply bv_same_eq].
Qed.

#[local] Opaque pedersen_commit sc_reduce256 sc_from_fp_signed.

(** The commitment of a key is the one [set_circuit_prf_commit] would set. *)
Lemma commit_fixed pk sk : valid_circuit_prf_profile (circuit_prf_profile pk) = true →
  set_circuit_prf_commit pk sk = Ok pk ↔
  ∃ key blind, circuit_prf_key_for_profile sk (circuit_prf_profile pk) = Ok key ∧
    circuit_prf_blind_for_profile sk (circuit_prf_profile pk) = Ok blind ∧
    pedersen_commit (sc_from_fp_signed key) (sc_reduce256 blind) = Ok (circuit_prf_key_commit pk).
Proof.
  intros Hv. unfold set_circuit_prf_commit, scalar_from_key_blind. generalize pedersen_commit, sc_from_fp_signed, sc_reduce256.
  intros commit signed reduce. split.
  - intros (key & E1 & (blind & E2 & (c & E3 & E4)%res_bind_Ok)%res_bind_Ok)%res_bind_Ok. exists key, blind.
    split; [exact E1|]. split; [exact E2|]. rewrite E3. apply Ok_inj in E4. rewrite <- E4. reflexivity.
  - intros (key & blind & E1 & E2 & E3). rewrite E1. cbn [mbind res_bind]. rewrite E2. cbn [mbind res_bind]. rewrite E3. cbn [mbind res_bind].
    by destruct pk.
Qed.

(** The commitment to the version 6 key exists. *)
Lemma set_v6_Ok pk sk : fp_ok (circuit_prf_key_v6 sk) → length (circuit_prf_key_blind_v6 sk) = 32%nat → bytes (circuit_prf_key_blind_v6 sk) →
  ∃ c, set_circuit_prf_profile pk sk MIMC_X3_V6 = Ok c.
Proof.
  intros Hk Hl Hb. destruct rist_H_enc as [B HH].
  pose proof (proj1 (sc_from_fp_signed_spec _ Hk)) as Hv. pose proof (sc_reduce256_ok _ Hl Hb) as Hr.
  destruct (pedersen_commit_enc _ _ _ _ rist_G_enc HH Hv Hr) as (c & Ec & _). revert Ec.
  unfold set_circuit_prf_profile, set_circuit_prf_commit, scalar_from_key_blind. generalize pedersen_commit, sc_from_fp_signed, sc_reduce256.
  intros commit signed reduce Ec. exists (with_circuit_prf (with_circuit_prf pk MIMC_X3_V6 (circuit_prf_key_commit pk)) MIMC_X3_V6 c).
  cbn [valid_circuit_prf_profile negb]. change (circuit_prf_profile (with_circuit_prf pk MIMC_X3_V6 (circuit_prf_key_commit pk))) with MIMC_X3_V6.
  cbn [circuit_prf_key_for_profile circuit_prf_blind_for_profile mbind res_bind]. rewrite Ec. reflexivity.
Qed.

(** [secret_profile_matches] accepts a public key exactly when it agrees with
    the current one on everything public, names a profile that exists, and its
    commitment is the one the secret key gives under that profile; so it
    accepts every key that [set_circuit_prf_profile] makes from the current
    one. *)
Theorem secret_profile_matches_correct candidate current sk :
  (secret_profile_matches candidate current sk = Ok true ↔
    public_same candidate current ∧ valid_circuit_prf_profile (circuit_prf_profile candidate) = true ∧
    set_circuit_prf_commit candidate sk = Ok candidate) ∧
  (∀ profile, params_finite (prm current) → set_circuit_prf_profile current sk profile = Ok candidate →
    secret_profile_matches candidate current sk = Ok true).
Proof.
  assert (Hiff : secret_profile_matches candidate current sk = Ok true ↔
    public_same candidate current ∧ valid_circuit_prf_profile (circuit_prf_profile candidate) = true ∧
    set_circuit_prf_commit candidate sk = Ok candidate).
  { unfold secret_profile_matches. rewrite <- public_spec. destruct (public_profile_matches candidate current); cbn [negb]; [|naive_solver].
    destruct (valid_circuit_prf_profile (circuit_prf_profile candidate)) eqn:Hv; cbn [negb]; [|naive_solver].
    rewrite (commit_fixed candidate sk Hv). generalize pedersen_commit, sc_from_fp_signed, sc_reduce256.
    intros commit signed reduce. split.
    - intros (key & E1 & (blind & E2 & (c & E3 & E4)%res_bind_Ok)%res_bind_Ok)%res_bind_Ok. apply Ok_inj in E4.
      apply bool_decide_eq_true in E4. split; [done|]. split; [done|]. exists key, blind. by rewrite E4.
    - intros (_ & _ & key & blind & E1 & E2 & E3). rewrite E1. cbn [mbind res_bind]. rewrite E2. cbn [mbind res_bind].
      rewrite E3. cbn [mbind res_bind]. by rewrite bool_decide_true. }
  split; [exact Hiff|]. intros profile Hf Hs. apply Hiff. unfold set_circuit_prf_profile in Hs.
  destruct (valid_circuit_prf_profile profile) eqn:Hv; cbn [negb] in Hs; [|done].
  assert (Hc : ∃ c, candidate = with_circuit_prf current profile c ∧ set_circuit_prf_commit candidate sk = Ok candidate).
  { revert Hs. unfold set_circuit_prf_commit, scalar_from_key_blind. generalize pedersen_commit, sc_from_fp_signed, sc_reduce256.
    intros commit signed reduce Hs. cbn [with_circuit_prf circuit_prf_profile] in Hs.
    apply res_bind_Ok in Hs as (key & E1 & Hs). apply res_bind_Ok in Hs as (blind & E2 & Hs). apply res_bind_Ok in Hs as (c & E3 & Hs).
    apply Ok_inj in Hs as <-. exists c. split; [reflexivity|]. cbn [with_circuit_prf circuit_prf_profile].
    rewrite E1. cbn [mbind res_bind]. rewrite E2. cbn [mbind res_bind]. rewrite E3. reflexivity. }
  destruct Hc as (c & -> & Hfix). split; [|split; [exact Hv|exact Hfix]]. apply public_spec.
  by apply public_refl.
Qed.

Lemma secret_profile_matches_correct_witness : ∃ candidate, set_circuit_prf_profile enc_pk enc_sk MIMC_X3_V6 = Ok candidate ∧
  secret_profile_matches candidate enc_pk enc_sk = Ok true.
Proof.
  destruct (set_v6_Ok enc_pk enc_sk) as [c Hc].
  - exact (proj2 (kp_keys _ _ enc_keypair)).
  - reflexivity.
  - apply Forall_replicate. unfold word. lia.
  - exists c. split; [exact Hc|]. apply (secret_profile_matches_correct c enc_pk enc_sk) with (profile := MIMC_X3_V6); [|exact Hc].
    repeat constructor; vm_compute; discriminate.
Defined.
