(* ===== verification/Text.v ===== *)
(** * Text in ciphertexts: [utils/text.hpp]

    A message is its length in one ciphertext and its bytes, fifteen to a field
    element, in one ciphertext each. *)

From S2P Require Import Prelude Primes Field Hash Rng CtSafe Types Matrix Lpn Decrypt Reduce Compact Post Encrypt Noise Encrypted.

(** ** Blocks of fifteen bytes *)

Definition pack_step (p : list Z) (w : Z * Z) (i : Z) : Z * Z :=
  let b := nth (Z.to_nat i) p 0 in
  let sh := i * 8 in
  if sh <? 64 then (w.1 .| wshl 64 b sh, w.2) else (w.1, w.2 .| wshl 64 b (sh - 64)).

(** [p], [len]: the bytes that are there. *)
Definition pack_15_bytes_to_fp (p : list Z) : Fp :=
  let w := foldl (pack_step p) (0, 0) (zseq 0 (Nat.min (length p) 15)) in
  fp_from_words w.1 w.2.

Definition unpack_fp_to_15_bytes (x : Fp) : list Z :=
  (λ i, let sh := i * 8 in if sh <? 64 then (lo x ≫ sh) .& 0xFF else (hi x ≫ (sh - 64)) .& 0xFF) <$> zseq 0 15.

(** ** [enc_text] and [dec_text] *)

(** [while (pos < n)]: [rest] is what starts at [pos]; [n] bounds the turns.  The
    hint is an [int], which a message of fewer than [2^31] blocks does not exceed. *)
Fixpoint enc_blocks {F : Fuel} {LOG : Log2} (n : nat) (ltr : bool) (pk : PubKey) (sk : SecKey) (rest : list Z) (depth_hint : Z)
    : M Os.Csprng (list Cipher) :=
  match n, rest with
  | Datatypes.S n, _ :: _ =>
      let x := pack_15_bytes_to_fp (take 15 rest) in
      C ← enc_fp_wrapped_depth ltr pk sk [x] depth_hint;
      Cs ← enc_blocks n ltr pk sk (drop 15 rest) (depth_hint + 1);
      mret (C :: Cs)
  | _, _ => mret []
  end.

Definition enc_text {F : Fuel} {LOG : Log2} (ltr : bool) (pk : PubKey) (sk : SecKey) (msg : list Z) : M Os.Csprng (list Cipher) :=
  C ← enc_value ltr pk sk (u64 (Z.of_nat (length msg)));
  Cs ← enc_blocks (length msg) ltr pk sk msg 2;
  mret (C :: Cs).

Definition dec_text {F : Fuel} (pk : PubKey) (sk : SecKey) (cts : list Cipher) : res (list Z) :=
  match cts with
  | [] => Ok []
  | c :: cs =>
      flen ← dec_value pk sk c STANDARD;
      if negb (hi flen =? 0) then Throw "pvac: text length rejected"
      else
        let len := lo flen in
        let max_len := u64 (Z.of_nat (length cs) * 15) in
        if max_len <? len then Throw "pvac: text length exceeds block count"
        else
          bs ← mapR (λ C, fx ← dec_value pk sk C STANDARD; Ok (unpack_fp_to_15_bytes fx)) cs;
          Ok (take (Z.to_nat len) (concat bs))
  end.

(** ** Packing loses nothing *)

(** The words of a block: eight bytes, then seven. *)
Lemma pack_words p n : bytes p → (n ≤ 15)%nat → (n ≤ length p)%nat →
  foldl (pack_step p) (0, 0) (zseq 0 n) = (le_val (take 8 (take n p)), le_val (drop 8 (take n p))).
Proof.
  intros Hp Hn Hl. induction n as [|n IH]; [done|]. rewrite zseq_snoc, foldl_app, IH by lia. cbn [foldl]. unfold pack_step.
  rewrite Z.add_0_l, Nat2Z.id. destruct (lookup_lt_is_Some_2 p n) as [b Hb]; [lia|].
  pose proof (Forall_lookup_1 _ _ _ _ Hp Hb) as Wb. rewrite nth_lookup, Hb. cbn [default from_option id fst snd].
  rewrite (take_S_r p n b Hb). assert (Lt : length (take n p) = n) by (rewrite length_take; lia).
  assert (Bt : bytes (take n p)) by by apply Forall_take.
  destruct (Z.ltb_spec (Z.of_nat n * 8) 64) as [Hc|Hc].
  - rewrite !(take_ge (_ ++ _)), !(take_ge (take n p)), !drop_ge, ?length_app by (rewrite ?length_app, ?Lt; cbn; lia).
    rewrite le_val_app, Lt. pose proof (le_val_bound _ Bt) as Hv. rewrite Lt in Hv. f_equal.
    unfold wshl. rewrite shl_mul by lia. rewrite wrap_small.
    + replace (2 ^ (Z.of_nat n * 8)) with (256 ^ Z.of_nat n) by (change 256 with (2 ^ 8); rewrite <- Z.pow_mul_r by lia; f_equal; lia).
      change 256 with (2 ^ 8) in *. rewrite <- Z.pow_mul_r in * by lia. rewrite (lor_add _ _ (8 * Z.of_nat n)) by lia. cbn [le_val]. lia.
    + unfold word in *. split; [apply Z.mul_nonneg_nonneg; lia|]. apply Z.lt_le_trans with (2 ^ 8 * 2 ^ (Z.of_nat n * 8)); [apply Z.mul_lt_mono_pos_r; lia|].
      rewrite <- Z.pow_add_r by lia. apply Z.pow_le_mono_r; lia.
  - rewrite take_app_le, drop_app_le by lia. rewrite le_val_app, length_drop, Lt. f_equal.
    assert (Bd : bytes (drop 8 (take n p))) by by apply Forall_drop.
    pose proof (le_val_bound _ Bd) as Hv. rewrite length_drop, Lt in Hv.
    unfold wshl. rewrite shl_mul by lia. rewrite wrap_small.
    + change 256 with (2 ^ 8) in *. rewrite <- Z.pow_mul_r in * by lia.
      replace (Z.of_nat n * 8 - 64) with (8 * Z.of_nat (n - 8)) by lia. rewrite (lor_add _ _ (8 * Z.of_nat (n - 8))) by lia. cbn [le_val]. lia.
    + unfold word in *. split; [apply Z.mul_nonneg_nonneg; lia|]. apply Z.lt_le_trans with (2 ^ 8 * 2 ^ (Z.of_nat n * 8 - 64)); [apply Z.mul_lt_mono_pos_r; lia|].
      rewrite <- Z.pow_add_r by lia. apply Z.pow_le_mono_r; lia.
Qed.

Lemma le_bytes_pad bs n : bytes bs → (length bs ≤ n)%nat → le_bytes n (le_val bs) = bs ++ replicate (n - length bs) 0.
Proof.
  intros Hb. revert n. induction Hb as [|b bs Hb _ IH]; intros n Hn.
  - cbn [length le_val app]. rewrite Nat.sub_0_r. clear Hn. induction n as [|n IH]; [done|].
    cbn [le_bytes replicate]. change (0 mod 256) with 0. change (0 / 256) with 0. by rewrite IH.
  - destruct n as [|n]; [cbn in Hn; lia|]. cbn [le_bytes le_val length app]. unfold word in Hb.
    replace ((b + 256 * le_val bs) mod 256) with b by (pow_consts; lia).
    replace ((b + 256 * le_val bs) / 256) with (le_val bs) by (pow_consts; lia). cbn in Hn. rewrite IH by lia. done.
Qed.

(** Bytes by shifting, as the code takes them. *)
Lemma le_bytes_shift n x k : 0 ≤ k →
  (λ i, (x ≫ (i * 8 - 8 * k)) .& 0xFF) <$> zseq k n = le_bytes n x.
Proof.
  intros Hk. assert (G : ∀ m, 0 ≤ m → (λ i, (x ≫ (i * 8 - 8 * k)) .& 0xFF) <$> zseq (k + m) n = le_bytes n (x / 256 ^ m)).
  { induction n as [|n IH]; intros m Hm; [done|]. cbn [zseq fmap list_fmap le_bytes]. f_equal.
    - rewrite (land_low _ 8), shr_div by lia. f_equal. f_equal. change 256 with (2 ^ 8). rewrite <- Z.pow_mul_r by lia. f_equal. lia.
    - rewrite Z.div_div by (try apply Z.pow_pos_nonneg; lia). rewrite (Z.mul_comm (256 ^ m)), <- Z.pow_succ_r by lia. rewrite <- IH by lia.
      f_equal. f_equal. lia. }
  specialize (G 0 ltac:(lia)). by rewrite Z.add_0_r, Z.pow_0_r, Z.div_1_r in G.
Qed.

Lemma unpack_bytes x : unpack_fp_to_15_bytes x = le_bytes 8 (lo x) ++ le_bytes 7 (hi x).
Proof.
  rewrite <- (le_bytes_shift 8 (lo x) 0), <- (le_bytes_shift 7 (hi x) 8) by lia.
  reflexivity.
Qed.

Lemma pack_bounds p : bytes p → (length p ≤ 15)%nat → 0 ≤ le_val (take 8 p) < 2 ^ 64 ∧ 0 ≤ le_val (drop 8 p) < 2 ^ 56.
Proof.
  intros Hp Hl. pose proof (le_val_bound (take 8 p) ltac:(by apply Forall_take)) as H1.
  pose proof (le_val_bound (drop 8 p) ltac:(by apply Forall_drop)) as H2. rewrite length_take in H1. rewrite length_drop in H2.
  change (2 ^ 64) with (256 ^ 8). change (2 ^ 56) with (256 ^ 7).
  split; (split; [lia|eapply Z.lt_le_trans; [apply H1 || apply H2|apply Z.pow_le_mono_r; lia]]).
Qed.

Lemma pack_fp p : bytes p → (length p ≤ 15)%nat →
  pack_15_bytes_to_fp p = mkFp (le_val (take 8 p)) (le_val (drop 8 p)).
Proof.
  intros Hp Hl. unfold pack_15_bytes_to_fp. rewrite Nat.min_l, pack_words by (done || lia). rewrite firstn_all. cbn [fst snd].
  destruct (pack_bounds p Hp Hl) as [B1 B2].
  eapply rep_inj; [apply rep_words; unfold word; [lia|pow_consts; lia]|]. split; [|done].
  split; [split; unfold word; cbn; pow_consts; lia|]. unfold val, P. cbn [lo hi]. pow_consts. lia.
Qed.

Lemma pack_ok p : bytes p → (length p ≤ 15)%nat → fp_ok (pack_15_bytes_to_fp p).
Proof.
  intros Hp Hl. unfold pack_15_bytes_to_fp. rewrite Nat.min_l, pack_words by (done || lia). rewrite firstn_all. cbn [fst snd].
  destruct (pack_bounds p Hp Hl) as [? ?]. eapply rep_ok, rep_words; unfold word; pow_consts; lia.
Qed.

(** A block comes back, padded with zeros. *)
Lemma unpack_block p : bytes p → (length p ≤ 15)%nat → unpack_fp_to_15_bytes (pack_15_bytes_to_fp p) = p ++ replicate (15 - length p) 0.
Proof.
  intros Hp Hl. rewrite pack_fp, unpack_bytes by done. cbn [lo hi].
  rewrite !le_bytes_pad; [|by apply Forall_drop|rewrite length_drop; lia|by apply Forall_take|rewrite length_take; lia].
  rewrite length_take, length_drop. destruct (le_lt_dec (length p) 8) as [Hc|Hc].
  - rewrite take_ge, drop_ge by lia. cbn [app]. rewrite <- app_assoc, <- replicate_add. do 2 f_equal. lia.
  - rewrite Nat.min_l by lia. change (8 - 8)%nat with 0%nat. cbn [replicate]. rewrite app_nil_r, app_assoc, take_drop.
    do 2 f_equal. lia.
Qed.

(** ** Round trip *)

Fixpoint chunks (n : nat) (rest : list Z) : list (list Z) :=
  match n, rest with Datatypes.S n, _ :: _ => take 15 rest :: chunks n (drop 15 rest) | _, _ => [] end.

Lemma chunks_spec n rest : (length rest ≤ n)%nat → bytes rest →
  Forall (λ p, bytes p ∧ (length p ≤ 15)%nat) (chunks n rest) ∧
  (length rest ≤ length (chunks n rest) * 15 ≤ length rest + 14)%nat ∧
  ∃ z, concat ((λ p, unpack_fp_to_15_bytes (pack_15_bytes_to_fp p)) <$> chunks n rest) = rest ++ z.
Proof.
  revert rest. induction n as [|n IH]; intros rest Hn Hb.
  { destruct rest; [|cbn in Hn; lia]. split; [constructor|]. split; [cbn; lia|]. by exists []. }
  destruct rest as [|b rest]; [split; [constructor|]; split; [cbn; lia|]; by exists []|]. cbn [chunks]. set (msg := b :: rest) in *.
  assert (Hpos : (0 < length msg)%nat) by (cbn; lia).
  destruct (IH (drop 15 msg)) as (F1 & L1 & z & C1); [rewrite length_drop; lia|by apply Forall_drop|]. rewrite length_drop in L1.
  assert (B15 : bytes (take 15 msg)) by by apply Forall_take.
  assert (L15 : (length (take 15 msg) ≤ 15)%nat) by (rewrite length_take; lia).
  split; [by constructor|]. split; [cbn [length]; lia|]. cbn [fmap list_fmap concat]. rewrite unpack_block by done.
  change (list_fmap _ _ _ (chunks n (drop 15 msg))) with
    ((λ p, unpack_fp_to_15_bytes (pack_15_bytes_to_fp p)) <$> chunks n (drop 15 msg)).
  rewrite C1. rewrite length_take. destruct (le_lt_dec 15 (length msg)) as [Hc|Hc].
  - rewrite Nat.min_l by lia. change (15 - 15)%nat with 0%nat. cbn [replicate]. rewrite app_nil_r, app_assoc, take_drop. by exists z.
  - rewrite take_ge, drop_ge by lia. cbn [app]. rewrite <- app_assoc. by eexists.
Qed.

Section Text.
Context {F : Fuel} {LOG : Log2} (pk : PubKey) (sk : SecKey) (K : keypair_ok pk sk).
Context (top : Z) (Hd : ∀ d, 0 ≤ d < top → budget_compute (prm pk) d ≠ None).

(** What one ciphertext decrypts to. *)
Lemma outcome_value C x : outcome pk sk [x] C → dec_has_native_src pk C = false → dec_value pk sk C STANDARD = Ok x.
Proof.
  intros (HS & _ & HO) Hn. destruct (HO STANDARD ltac:(done) Hn) as [_ E]. unfold dec_value. rewrite HS, E. done.
Qed.

Lemma post_blocks n ltr rest d : 0 ≤ d → d + Z.of_nat n ≤ top → Forall (λ p, bytes p ∧ (length p ≤ 15)%nat) (chunks n rest) →
  post (mask_throw pk) (enc_blocks n ltr pk sk rest d) (λ Cs, Forall2 (λ p C, outcome pk sk [pack_15_bytes_to_fp p] C) (chunks n rest) Cs).
Proof.
  revert rest d. induction n as [|n IH]; intros rest d Hd0 Hd1 HF; cbn [enc_blocks chunks]; [apply post_ret; constructor|].
  destruct rest as [|b rest]; [apply post_ret; constructor|]. cbn [chunks] in HF. apply Forall_cons in HF as [[Hb Hl] HF].
  set (msg := b :: rest) in *. eapply post_bind.
  - unfold enc_fp_wrapped_depth. eapply post_bind; [by apply post_masks|]. intros m [Lm Om].
    apply (post_masked pk sk K d (Hd d ltac:(lia))); [|done..]. apply Forall_singleton.
    by apply pack_ok.
  - intros C HC. eapply post_bind; [apply IH; [lia|lia|done]|]. intros Cs HCs. apply post_ret. by constructor.
Qed.

(** The blocks of a list of ciphertexts, none of them taken for native ones. *)
Lemma blocks_dec ps Cs : Forall2 (λ p C, outcome pk sk [pack_15_bytes_to_fp p] C) ps Cs → Forall (λ C, dec_has_native_src pk C = false) Cs →
  mapR (λ C, fx ← dec_value pk sk C STANDARD; Ok (unpack_fp_to_15_bytes fx)) Cs =
  Ok ((λ p, unpack_fp_to_15_bytes (pack_15_bytes_to_fp p)) <$> ps).
Proof.
  induction 1 as [|p C ps Cs HC _ IH]; intros Hn; [done|]. apply Forall_cons in Hn as [Hn Hns]. cbn [mapR].
  rewrite (outcome_value C _ HC Hn). cbn [mbind res_bind]. by rewrite IH.
Qed.

(** [dec_text] on the ciphertext of a length and some blocks. *)
Lemma dec_text_blocks C Cs (msg : list Z) ps : word 64 (Z.of_nat (length msg)) → outcome pk sk [fp_from_u64 (Z.of_nat (length msg))] C →
  Forall2 (λ p C, outcome pk sk [pack_15_bytes_to_fp p] C) ps Cs → Forall (λ C, dec_has_native_src pk C = false) (C :: Cs) →
  Z.of_nat (length ps) * 15 < 2 ^ 64 →
  dec_text pk sk (C :: Cs) = if Z.of_nat (length ps) * 15 <? Z.of_nat (length msg) then Throw "pvac: text length exceeds block count"
    else Ok (take (length msg) (concat ((λ p, unpack_fp_to_15_bytes (pack_15_bytes_to_fp p)) <$> ps))).
Proof.
  intros Hw HC HCs [Hn Hns]%Forall_cons Hlt. unfold dec_text. rewrite (outcome_value C _ HC Hn). cbn [mbind res_bind].
  rewrite (blocks_dec ps Cs HCs Hns). rewrite <- (Forall2_length _ _ _ HCs), wrap_small by (unfold word; lia).
  cbn [fp_from_u64 lo hi Z.eqb negb mbind res_bind]. by rewrite Nat2Z.id.
Qed.

Lemma post_text ltr msg : bytes msg → Z.of_nat (length msg) < 2 ^ 63 → 2 + Z.of_nat (length msg) ≤ top →
  post (mask_throw pk) (enc_text ltr pk sk msg) (λ Cs, ∃ C Bs, Cs = C :: Bs ∧
    outcome pk sk [fp_from_u64 (Z.of_nat (length msg))] C ∧
    Forall2 (λ p C, outcome pk sk [pack_15_bytes_to_fp p] C) (chunks (length msg) msg) Bs).
Proof.
  intros Hb Hl Ht. destruct (chunks_spec (length msg) msg (le_n _) Hb) as (HF & _).
  assert (Hw : word 64 (Z.of_nat (length msg))) by (unfold word; lia).
  unfold enc_text. rewrite (wrap_small 64) by done. eapply (post_bind _ _ _ (outcome pk sk [fp_from_u64 (Z.of_nat (length msg))])).
  - unfold enc_value, enc_value_depth. eapply post_bind; [by apply post_masks|]. intros m [Lm Om].
    apply (post_masked pk sk K 0 (Hd 0 ltac:(lia))); [|done..]. apply (u64_ok [_]). by apply Forall_singleton.
  - intros C HC. eapply post_bind; [apply post_blocks; [lia|lia|done]|]. intros Bs HBs. apply post_ret. by exists C, Bs.
Qed.
End Text.

(** C14. Text survives encryption: for keys fit for encryption and budgets that have
    a value, [enc_text] returns one ciphertext for the length and one for every
    fifteen bytes (or, under version 7 of the circuit, fails to make a mask),
    [dec_text] returns the message from them, unless one of them is taken for a
    native ciphertext, and refuses the list when blocks are missing from its end. *)
Theorem text_roundtrip {F : Fuel} {LOG : Log2} pk sk ltr msg : keypair_ok pk sk → (∀ d, 0 ≤ d < 2 + Z.of_nat (length msg) → budget_compute (prm pk) d ≠ None) →
  bytes msg → Z.of_nat (length msg) < 2 ^ 63 →
  post (mask_throw pk) (enc_text ltr pk sk msg) (λ Cs,
    (length Cs = 1 + (length msg + 14) / 15)%nat ∧
    (Forall (λ C, dec_has_native_src pk C = false) Cs →
      dec_text pk sk Cs = Ok msg ∧
      ∀ k, (k * 15 < length msg)%nat → dec_text pk sk (take (1 + k) Cs) = Throw "pvac: text length exceeds block count")).
Proof.
  intros K Hd Hb Hl. eapply post_mono; [by apply (post_text pk sk K _ Hd)|]. intros Cs (C & Bs & -> & HC & HB). cbn beta.
  destruct (chunks_spec (length msg) msg (le_n _) Hb) as (_ & HL & z & Hz). pose proof (Forall2_length _ _ _ HB) as Lb.
  assert (Hw : word 64 (Z.of_nat (length msg))) by (unfold word; lia). split.
  - cbn [length]. rewrite <- Lb. f_equal. apply Nat.div_unique with (r := (length msg + 14 - 15 * length (chunks (length msg) msg))%nat); lia.
  - intros Hn. split.
    + rewrite (dec_text_blocks pk sk C Bs msg _ Hw HC HB Hn) by lia. rewrite (proj2 (Z.ltb_ge _ _)), Hz by lia. by rewrite take_app_length.
    + intros k Hkl. cbn [take Nat.add]. apply Forall_cons in Hn as [Hn0 Hn].
      assert (Lk : (length (take k (chunks (length msg) msg)) = k)%nat) by (rewrite length_take; lia).
      rewrite (dec_text_blocks pk sk C (take k Bs) msg (take k (chunks (length msg) msg)) Hw HC).
      * by rewrite (proj2 (Z.ltb_lt _ _)) by (rewrite Lk; lia).
      * by apply Forall2_take.
      * constructor; [done|by apply Forall_take].
      * rewrite Lk. lia.
Qed.

Lemma text_roundtrip_witness : post (mask_throw enc_pk) (enc_text true enc_pk enc_sk [104; 101; 108; 108; 111]) (λ Cs,
  length Cs = 2%nat ∧ (Forall (λ C, dec_has_native_src enc_pk C = false) Cs → dec_text enc_pk enc_sk Cs = Ok [104; 101; 108; 108; 111])).
Proof.
  assert (HB : ∀ d, 0 ≤ d < 2 + Z.of_nat (length [104; 101; 108; 108; 111]) → budget_compute (prm enc_pk) d ≠ None).
  { intros d Hd. assert (Hc : d = 0 ∨ d = 1 ∨ d = 2 ∨ d = 3 ∨ d = 4 ∨ d = 5 ∨ d = 6) by (cbn in Hd; lia).
    repeat destruct Hc as [->|Hc]; [vm_compute; discriminate..|subst d; vm_compute; discriminate]. }
  assert (Bm : bytes [104; 101; 108; 108; 111]) by (repeat constructor; unfold word; lia).
  pose proof (text_roundtrip enc_pk enc_sk true [104; 101; 108; 108; 111] enc_keypair HB Bm ltac:(cbn; lia)) as H.
  intros g. specialize (H g). destruct (enc_text true enc_pk enc_sk _ g) as [[Cs g']| |]; [|exact H|exact H].
  split; [exact (proj1 H)|]. intros Hn. exact (proj1 (proj2 H Hn)).
Defined.
