(* ===== verification/Circuit.v ===== *)
(** * The circuits of a zero proof: [ops/verify_zero.hpp] and the first half of
    [ops/verify_zero_circuit.hpp]

    The constraints say that the masks of a ciphertext come from the committed
    key by the circuit PRF, that products of layers have products of masks, and
    that the coefficients weighted by the inverse masks sum to minus the constant,
    or to the committed amount, modulo [2^127 - 1].  The prover runs them on its
    values, the verifier without. *)

From S2P Require Import Prelude Primes Field Hash Rng CtSafe Types Lpn Fe25519 Scalar25519 ScalarField Ristretto Transcript InnerProduct R1cs Gadgets Decrypt Encrypt.

(** A loop that carries a value. *)
Fixpoint foldM {G A B} (f : A → B → M G A) (l : list B) (a : A) : M G A :=
  match l with
  | [] => mret a
  | b :: l => a ← f a b; foldM f l a
  end.

(** ** [ops/verify_zero.hpp] *)

Definition derive_rho (sk : SecKey) (L : Layer) (j : Z) : Scalar := derive_scalar sk Dom.PRF_RHO (nonce (seed L)) j.

(** Sixteen bytes, the top two bits dropped. *)
Definition challenge_to_fp (hash : list Z) : Fp :=
  let word_from (o : nat) := foldl (λ x i, x .| wshl 64 (nth (o + Z.to_nat i) hash 0) (8 * i)) 0 (zseq 0 8) in
  mkFp (word_from 0%nat) (word_from 8%nat .& (wshl 64 1 62 - 1)).

Definition is_base (l : Layer) : bool := match rule l with BASE => true | _ => false end.
Definition base_layer_indices (ct : Cipher) : list nat :=
  (λ il, il.1) <$> filter (λ il : nat * Layer, is_base il.2 = true) (imap pair (L ct)).

(** ** The wiring *)

Record SlotVar : Set := mkSlotVar { x_var : Var; x_val : Scalar; limbs_ : FpLimbs }.
Record KeySlotVar : Set := mkKeySlot { r_var : Var; r_val : Scalar; rinv_var : Var; rinv_val : Scalar; rinv_limbs : FpLimbs }.

(** [resize] fills with zeros: a [Variable] of zeros is [Variable::one()]. *)
Definition no_limbs : FpLimbs := mkLimbs one one sc_zero sc_zero.
Definition no_slot : SlotVar := mkSlotVar one sc_zero no_limbs.
Definition no_key_slot : KeySlotVar := mkKeySlot one sc_zero one sc_zero no_limbs.

Abbreviation wiring A := (list (list A)).
Definition wire_at {A} (d : A) (w : wiring A) (lid j : nat) : A := nth j (nth lid w []) d.
Definition set_wire {A} (w : wiring A) (lid j : nat) (x : A) : wiring A := alter (λ row, <[j := x]> row) lid w.

Record AmountBinding : Set := mkBinding { amount : Z; amount_blinding : Scalar; range_bits : nat }.

(** ** [amount_terms_present] *)

Record LayerFactor : Set := mkFactor { lf_ztag : Z; nonce_lo : Z; nonce_hi : Z }.

#[export] Instance LayerFactor_eq_dec : EqDecision LayerFactor.
Proof. solve_decision. Defined.

Definition layer_factor (l : Layer) : LayerFactor := mkFactor (ztag (seed l)) (n_lo (nonce (seed l))) (n_hi (nonce (seed l))).

Definition add_factor (factors : list LayerFactor) (l : Layer) : list LayerFactor :=
  if negb (is_base l) then factors
  else if bool_decide (layer_factor l ∈ factors) then factors else factors ++ [layer_factor l].

(** The sum of the exponents of two parents; [None] on overflow of [size_t]. *)
Fixpoint add_monomials (la lb : list Z) : option (list Z) :=
  match la, lb with
  | l :: la, r :: lb =>
      if UINT64_MAX - r <? l then None else rest ← add_monomials la lb; Some ((l + r) :: rest)
  | _, _ => Some []
  end.

(** The exponents of each layer, [done] those of the layers before. *)
Fixpoint monomials_from (factors : list LayerFactor) (done : list (list Z)) (ls : list Layer) : option (list (list Z)) :=
  match ls with
  | [] => Some done
  | l :: ls =>
      let lid := Z.of_nat (length done) in
      match rule l with
      | BASE => monomials_from factors (done ++ [(λ f, if decide (f = layer_factor l) then 1 else 0) <$> factors]) ls
      | PROD =>
          if (pa l <? lid) && (pb l <? lid) then
            m ← add_monomials (nth (Z.to_nat (pa l)) done []) (nth (Z.to_nat (pb l)) done []);
            monomials_from factors (done ++ [m]) ls
          else None
      | RULE_other _ => None
      end
  end.

(** One layer in one slot: the coefficient is added to the sum of its monomial. *)
Fixpoint add_term_sum (m : list Z) (c : Fp) (terms : list (list Z * Fp)) : list (list Z * Fp) :=
  match terms with
  | [] => [(m, c)]
  | (m', s) :: terms => if decide (m' = m) then (m', fp_add s c) :: terms else (m', s) :: add_term_sum m c terms
  end.

(** A slot: its row lengths checked, some sum not zero. *)
Definition slot_present (slots slot : nat) (monomials : list (list Z)) (coeffs : list (list Fp)) : bool :=
  forallb (λ row, (length row =? slots)%nat) coeffs &&
  let terms := foldl (λ terms mc, add_term_sum mc.1 (nth slot mc.2 fp0) terms) [] (zip monomials coeffs) in
  existsb (λ t, negb (lo t.2 =? 0) || negb (hi t.2 =? 0)) terms.

Definition amount_terms_present (ct : Cipher) (coeffs : list (list Fp)) : bool :=
  if (slots ct =? 0)%nat || negb (length coeffs =? length (L ct))%nat then false
  else
    let factors := foldl add_factor [] (L ct) in
    match monomials_from factors [] (L ct) with
    | None => false
    | Some monomials => forallb (λ slot, slot_present (slots ct) slot monomials coeffs) (seq 0 (slots ct))
    end.

(** ** What both circuits check first *)

(** The guards of one layer; [pc_guard] is the one on the commitments of a product. *)
Definition layer_guard (pc_guard : Layer → res unit) (S lid : nat) (row : list Fp) (layer : Layer) : res unit :=
  if negb (length row =? S)%nat then Throw "pvac: coefficient/slots size mismatch"
  else match rule layer with
    | BASE => Ok tt
    | PROD =>
        if (Z.of_nat lid <=? pa layer) || (Z.of_nat lid <=? pb layer) then Throw "pvac: invalid product parent"
        else pc_guard layer
    | RULE_other _ => Throw "pvac: invalid layer rule"
    end.

Fixpoint layer_guards (pc_guard : Layer → res unit) (S lid : nat) (A : list (list Fp)) (ls : list Layer) : res unit :=
  match A, ls with
  | row :: A, layer :: ls => _ ← layer_guard pc_guard S lid row layer; layer_guards pc_guard S (Datatypes.S lid) A ls
  | _, _ => Ok tt
  end.

Definition circuit_guards (pc_guard : Layer → res unit) (ct : Cipher) (A : list (list Fp)) (amount_bind : option AmountBinding) (strict_amount : bool) : res unit :=
  if negb (length A =? length (L ct))%nat then Throw "pvac: coefficient/layer size mismatch"
  else
    _ ← layer_guards pc_guard (slots ct) 0 A (L ct);
    match amount_bind with
    | Some _ => if strict_amount && negb (amount_terms_present ct A) then Throw "pvac: amount relation has no layer term" else Ok tt
    | None => Ok tt
    end.

Definition no_pc (layer : Layer) : res unit :=
  if negb (length (PC layer) =? 0)%nat then Throw "pvac: product layer must not contain PC" else Ok tt.
Definition no_proof_commitments (layer : Layer) : res unit :=
  if negb (length (PC layer) =? 0)%nat || negb (length (R_PC layer) =? 0)%nat then
    Throw "pvac: product layer must not contain proof commitments"
  else Ok tt.

(** ** The relation of a slot *)

Definition fp_scalar_of (x : Fp) : Scalar := mkScalar [lo x; hi x; 0; 0].

(** The weighted coefficients, added to the combination and to its value. *)
Definition add_layer (ops : ScalarOps) (st : LinearCombination * Scalar) (al : Fp * FpLimbs) : LinearCombination * Scalar :=
  let '(sum_lc, total) := st in
  let '(a_coeff, l) := al in
  if (lo a_coeff =? 0) && (hi a_coeff =? 0) then (sum_lc, total)
  else
    let folded := fp_mul_const_var_folded a_coeff l ops in
    (lc_add sum_lc (folded_lc folded), sc_add total (folded_val folded)).

(** [layers]: the coefficient and the limbs of the inverse mask of each layer. *)
Definition slot_relation (c0_fp : Fp) (amount : option (Var * Scalar)) (layers : list (Fp * FpLimbs)) : M R1CSProver unit :=
  let c0_scalar := fp_scalar_of c0_fp in
  let sum_lc := if negb (lo c0_fp =? 0) || negb (hi c0_fp =? 0) then lc_add [] (lc_term one c0_scalar) else [] in
  let sum_lc := match amount with Some (amount_var, _) => lc_sub sum_lc (lc_var amount_var) | None => sum_lc end in
  let total := match amount with Some (_, amount_scalar) => sc_sub c0_scalar amount_scalar | None => c0_scalar end in
  ops ← get_ops;
  let '(sum_lc, total) := foldl (add_layer ops) (sum_lc, total) layers in
  let k_val := so_mul ops total (sc_mersenne_p_inv ops) in
  '(k_var, _, _) ← allocate k_val (sc_from_u64 1);
  '(_, _, k_out) ← multiply (lc_var k_var) (lc_term one sc_mersenne_p);
  _ ← constrain (lc_sub (lc_var k_out) sum_lc);
  range_check k_var k_val 73.

(** [ct.c0.empty() ? Fp{0, 0} : ct.c0[j]] *)
Definition constant_at (ct : Cipher) (j : nat) : Fp := nth j (c0 ct) fp0.

Definition slot_layers {W : Type} (d : W) (limbs_of : W → FpLimbs) (A : list (list Fp)) (w : wiring W) (nL j : nat) : list (Fp * FpLimbs) :=
  (λ lid, (nth j (nth lid A []) fp0, limbs_of (wire_at d w lid j))) <$> seq 0 nL.

(** The layer indices and the slots of the two nested loops. *)
Definition slots_of (lids : list nat) (S : nat) : list (nat * nat) := lid ← lids; pair lid <$> seq 0 S.
Definition prod_layer_indices (ct : Cipher) : list nat :=
  (λ il, il.1) <$> filter (λ il : nat * Layer, match rule il.2 with PROD => true | _ => false end = true) (imap pair (L ct)).

(** ** [build_circuit] *)

(** The entry that a pointer leads to, zero without a pointer. *)
Definition value_at (ptr : option (list (list Fp))) (lid j : nat) : Fp :=
  match ptr with Some rows => nth j (nth lid rows []) fp0 | None => fp0 end.
Definition signed_at (ptr : option (list (list Fp))) (x : Fp) : Scalar :=
  match ptr with Some _ => sc_from_fp_signed x | None => sc_zero end.
Definition blinding_at (ptr : option (list (list Fp))) (sk_ptr : option SecKey) (derive : SecKey → Scalar) : Scalar :=
  match ptr, sk_ptr with Some _, Some sk => derive sk | _, _ => sc_zero end.

Definition layer_at (ct : Cipher) (lid : nat) : Layer := nth lid (L ct) (mkLayer BASE (mkRSeed 0 (mkNonce 0 0)) 0 0 [] [] []).

Definition base_slot (ct : Cipher) (rinv_ptr : option (list (list Fp))) (sk_ptr : option SecKey)
    (w : wiring SlotVar) (lj : nat * nat) : M R1CSProver (wiring SlotVar) :=
  let '(lid, j) := lj in
  let rinv_fp := value_at rinv_ptr lid j in
  let rho_j := blinding_at rinv_ptr sk_ptr (λ sk, derive_rho sk (layer_at ct lid) (Z.of_nat j)) in
  v_signed ← commit (signed_at rinv_ptr rinv_fp) rho_j;
  bound ← bind_pc_value v_signed rinv_fp false;
  mret (set_wire w lid j (mkSlotVar (bound_var bound) (bound_val bound) (bound_limbs bound))).

Definition prod_slot (ct : Cipher) (w : wiring SlotVar) (lj : nat * nat) : M R1CSProver (wiring SlotVar) :=
  let '(lid, j) := lj in
  let va := wire_at no_slot w (Z.to_nat (pa (layer_at ct lid))) j in
  let vb := wire_at no_slot w (Z.to_nat (pb (layer_at ct lid))) j in
  result ← fp_mul_gadget (x_var va) (x_val va) (x_var vb) (x_val vb) false;
  l ← fp127_decompose (mul_var result) (mul_val result) false;
  mret (set_wire w lid j (mkSlotVar (mul_var result) (mul_val result) l)).

(** The committed amount, with its range. *)
Definition commit_amount (amount_bind : option AmountBinding) : M R1CSProver (option (Var * Scalar)) :=
  match amount_bind with
  | None => mret None
  | Some b =>
      let amount_scalar := sc_from_u64 (amount b) in
      amount_var ← commit amount_scalar (amount_blinding b);
      mret (Some (amount_var, amount_scalar))
  end.

Definition build_circuit (ct : Cipher) (A : list (list Fp)) (bases : list nat) (rinv_ptr : option (list (list Fp)))
    (sk_ptr : option SecKey) (amount_bind : option AmountBinding) (strict_amount : bool) : M R1CSProver (wiring SlotVar) :=
  let nL := length (L ct) in
  let S := slots ct in
  _ ← lift (circuit_guards no_pc ct A amount_bind strict_amount);
  w ← foldM (base_slot ct rinv_ptr sk_ptr) (slots_of bases S) (replicate nL (replicate S no_slot));
  w ← foldM (prod_slot ct) (slots_of (prod_layer_indices ct) S) w;
  amount ← commit_amount amount_bind;
  _ ← foldM (λ _ j, slot_relation (constant_at ct j) amount (slot_layers no_slot limbs_ A w nL j)) (seq 0 S) tt;
  mret w.

(** ** [build_key_bound_circuit] *)

(** The closure [constrain_add_key_const] on the element and the wire of the key:
    the sum of the state, the key and a constant, on a new wire pinned by its
    partner, or on the wire given. *)
Definition constrain_add_key_const (key_fp : Fp) (key_bound : BoundPcResult) (state_lc : LinearCombination) (state_val : Scalar)
    (state_fp c_fp : Fp) (out_existing : option (Var * Scalar)) : M R1CSProver (Var * Scalar) :=
  let c_sc := fp_scalar_of c_fp in
  '(out_var, out_val) ← (match out_existing with
    | Some out => mret out
    | None =>
        let out_val := fp_scalar_of (fp_add (fp_add state_fp key_fp) c_fp) in
        '(allocated, one_var, _) ← allocate out_val (sc_from_u64 1);
        _ ← constrain (lc_sub (lc_var one_var) (lc_var one));
        mret (allocated, out_val)
    end);
  ops ← get_ops;
  let total := sc_sub (sc_add (sc_add state_val (bound_val key_bound)) c_sc) out_val in
  let q_val := so_mul ops total (sc_mersenne_p_inv ops) in
  '(q_var, _, _) ← allocate q_val (sc_from_u64 1);
  '(_, _, qp_out) ← multiply (lc_var q_var) (lc_term one sc_mersenne_p);
  let add_lc := lc_add state_lc (lc_var (bound_var key_bound)) in
  let add_lc := lc_add add_lc (lc_term one c_sc) in
  let add_lc := lc_sub add_lc (lc_var out_var) in
  let add_lc := lc_sub add_lc (lc_var qp_out) in
  _ ← constrain add_lc;
  _ ← range_check q_var q_val 3;
  mret (out_var, out_val).

(** The state of the PRF: its combination, its scalar and its element. *)
Record PrfState : Set := mkPrf { state_lc : LinearCombination; state_val : Scalar; state_fp : Fp }.

Definition prf_round (profile : CircuitPrfProfile) (reject : bool) (key_fp : Fp) (key_bound : BoundPcResult)
    (s : PrfState) (round : Z) : M R1CSProver PrfState :=
  c_fp ← lift (circuit_prf_round_constant profile round);
  let t_fp := fp_add (fp_add (state_fp s) key_fp) c_fp in
  '(t_var, t_val) ← constrain_add_key_const key_fp key_bound (state_lc s) (state_val s) (state_fp s) c_fp None;
  t_power ← (match profile with
    | MIMC_X3_V6 => fp_cube_gadget t_var t_val reject
    | _ => fp_fifth_gadget t_var t_val reject
    end);
  next_fp ← lift (circuit_prf_power profile t_fp);
  mret (mkPrf (lc_var (mul_var t_power)) (mul_val t_power) next_fp).

(** The constraint that a product is one. *)
Definition constrain_inverse (a_var : Var) (a_val : Scalar) (b_var : Var) (b_val : Scalar) (reject : bool) : M R1CSProver unit :=
  inv_prod ← fp_mul_gadget a_var a_val b_var b_val reject;
  constrain (lc_sub (lc_var (mul_var inv_prod)) (lc_var one)).

Definition key_base_slot (pk : PubKey) (sk_ptr : option SecKey) (ct : Cipher) (r_ptr rinv_ptr : option (list (list Fp))) (reject : bool)
    (key_fp : Fp) (key_bound : BoundPcResult) (w : wiring KeySlotVar) (lj : nat * nat) : M R1CSProver (wiring KeySlotVar) :=
  let '(lid, j) := lj in
  let profile := circuit_prf_profile pk in
  let layer := layer_at ct lid in
  let r_fp := value_at r_ptr lid j in
  let rinv_fp := value_at rinv_ptr lid j in
  r_signed ← commit (signed_at r_ptr r_fp) (blinding_at r_ptr sk_ptr (λ sk, derive_r_alpha sk layer (Z.of_nat j)));
  rinv_signed ← commit (signed_at rinv_ptr rinv_fp) (blinding_at rinv_ptr sk_ptr (λ sk, derive_rho sk layer (Z.of_nat j)));
  r_bound ← bind_pc_value r_signed r_fp reject;
  rinv_bound ← bind_pc_value rinv_signed rinv_fp reject;
  state_fp ← lift (circuit_prf_challenge pk (seed layer) (Z.of_nat j));
  rounds ← lift (circuit_prf_rounds profile);
  s ← foldM (prf_round profile reject key_fp key_bound) (zseq 0 rounds) (mkPrf (lc_term one (fp_scalar_of state_fp)) (fp_scalar_of state_fp) state_fp);
  _ ← constrain_add_key_const key_fp key_bound (state_lc s) (state_val s) (Circuit.state_fp s) (fp_from_u64 1) (Some (bound_var r_bound, bound_val r_bound));
  _ ← constrain_inverse (bound_var r_bound) (bound_val r_bound) (bound_var rinv_bound) (bound_val rinv_bound) reject;
  mret (set_wire w lid j (mkKeySlot (bound_var r_bound) (bound_val r_bound) (bound_var rinv_bound) (bound_val rinv_bound) (bound_limbs rinv_bound))).

Definition key_prod_slot (ct : Cipher) (reject : bool) (w : wiring KeySlotVar) (lj : nat * nat) : M R1CSProver (wiring KeySlotVar) :=
  let '(lid, j) := lj in
  let ra := wire_at no_key_slot w (Z.to_nat (pa (layer_at ct lid))) j in
  let rb := wire_at no_key_slot w (Z.to_nat (pb (layer_at ct lid))) j in
  r_prod ← fp_mul_gadget (r_var ra) (r_val ra) (r_var rb) (r_val rb) reject;
  rinv_prod ← fp_mul_gadget (rinv_var ra) (rinv_val ra) (rinv_var rb) (rinv_val rb) reject;
  _ ← constrain_inverse (mul_var r_prod) (mul_val r_prod) (mul_var rinv_prod) (mul_val rinv_prod) reject;
  l ← fp127_decompose (mul_var rinv_prod) (mul_val rinv_prod) reject;
  mret (set_wire w lid j (mkKeySlot (mul_var r_prod) (mul_val r_prod) (mul_var rinv_prod) (mul_val rinv_prod) l)).

(** The committed key of the profile. *)
Definition commit_key (pk : PubKey) (sk_ptr : option SecKey) (reject : bool) : M R1CSProver (Fp * BoundPcResult) :=
  '(key_fp, key_signed, key_blind) ← lift (match sk_ptr with
    | Some sk =>
        key ← circuit_prf_key_for_profile sk (circuit_prf_profile pk);
        blind ← circuit_prf_blind_for_profile sk (circuit_prf_profile pk);
        Ok (key, sc_from_fp_signed key, sc_reduce256 blind)
    | None => Ok (fp0, sc_zero, sc_zero)
    end);
  key_signed_var ← commit key_signed key_blind;
  key_bound ← bind_pc_value key_signed_var key_fp reject;
  mret (key_fp, key_bound).

Definition commit_ranged_amount (amount_bind : option AmountBinding) : M R1CSProver (option (Var * Scalar)) :=
  amount ← commit_amount amount_bind;
  match amount_bind, amount with
  | Some b, Some (amount_var, amount_scalar) =>
      if (0 <? range_bits b)%nat then _ ← range_check amount_var amount_scalar (range_bits b); mret amount else mret amount
  | _, _ => mret amount
  end.

Definition build_key_bound_circuit (pk : PubKey) (sk_ptr : option SecKey) (ct : Cipher) (A : list (list Fp)) (bases : list nat)
    (r_ptr rinv_ptr : option (list (list Fp))) (amount_bind : option AmountBinding) (force_alias_rejection strict_amount : bool)
    : M R1CSProver (wiring KeySlotVar) :=
  let nL := length (L ct) in
  let S := slots ct in
  let reject_aliases := force_alias_rejection || match circuit_prf_profile pk with MIMC_X5_V7 => true | _ => false end in
  _ ← lift (circuit_guards no_proof_commitments ct A amount_bind strict_amount);
  '(key_fp, key_bound) ← commit_key pk sk_ptr reject_aliases;
  w ← foldM (key_base_slot pk sk_ptr ct r_ptr rinv_ptr reject_aliases key_fp key_bound) (slots_of bases S) (replicate nL (replicate S no_key_slot));
  w ← foldM (key_prod_slot ct reject_aliases) (slots_of (prod_layer_indices ct) S) w;
  amount ← commit_ranged_amount amount_bind;
  _ ← foldM (λ _ j, slot_relation (constant_at ct j) amount (slot_layers no_key_slot rinv_limbs A w nL j)) (seq 0 S) tt;
  mret w.

(** ** The shapes that a proof accepts *)

Definition key_bound_base_layer_limit (profile : CircuitPrfProfile) : nat :=
  match profile with MIMC_X3_V6 => 8 | MIMC_X5_V7 => 5 | PROFILE_other _ => 0 end.
Definition key_bound_key_switch_base_layer_limit (profile : CircuitPrfProfile) : nat :=
  match profile with MIMC_X3_V6 => 8 | MIMC_X5_V7 => 6 | PROFILE_other _ => 0 end.

(** The base layers counted, [None] at a rule that is neither. *)
Fixpoint count_base_layers (base_layers : nat) (ls : list Layer) : option nat :=
  match ls with
  | [] => Some base_layers
  | layer :: ls =>
      match rule layer with
      | BASE => count_base_layers (S base_layers) ls
      | PROD => count_base_layers base_layers ls
      | RULE_other _ => None
      end
  end.

Definition key_bound_verify_shape_ok_with_limit (ct : Cipher) (base_layer_limit : nat) : bool :=
  if negb (slots ct =? 1)%nat || (length (L ct) =? 0)%nat || (16 <? length (L ct))%nat || (4096 <? Z.of_nat (length (E ct))) then false
  else
    match count_base_layers 0 (L ct) with
    | None => false
    | Some base_layers => (0 <? base_layers)%nat && (base_layers <=? base_layer_limit)%nat
    end.

Definition key_bound_verify_shape_ok (pk : PubKey) (ct : Cipher) : bool :=
  key_bound_verify_shape_ok_with_limit ct (key_bound_base_layer_limit (circuit_prf_profile pk)).
Definition key_bound_key_switch_shape_ok (pk : PubKey) (ct : Cipher) : bool :=
  key_bound_verify_shape_ok_with_limit ct (key_bound_key_switch_base_layer_limit (circuit_prf_profile pk)).
