(* ===== verification/Wiring.v ===== *)
(** * The wiring of a circuit and the order of its loops

    The lists of slots that the loops run over, the entries of a wiring, and what
    the guards of a circuit leave. *)

From S2P Require Import Prelude Field Hash Rng Types Fe25519 Scalar25519 Ristretto Transcript InnerProduct R1cs Gadgets Decrypt Circuit.

(** ** Slots *)

Lemma slots_of_cons lid lids S : slots_of (lid :: lids) S = (pair lid <$> seq 0 S) ++ slots_of lids S.
Proof. done. Qed.

Lemma length_slots_of lids S : length (slots_of lids S) = (length lids * S)%nat.
Proof. induction lids as [|lid lids IH]; [done|]. rewrite slots_of_cons, length_app, length_fmap, length_seq, IH. cbn. lia. Qed.

Lemma slots_of_lookup lids S : ∀ b lid j, lids !! b = Some lid → (j < S)%nat → slots_of lids S !! (b * S + j)%nat = Some (lid, j).
Proof.
  induction lids as [|l lids IH]; intros b lid j Hb Hj; [done|]. rewrite slots_of_cons. destruct b as [|b].
  - injection Hb as ->. rewrite lookup_app_l by (rewrite length_fmap, length_seq; lia). rewrite list_lookup_fmap, lookup_seq_lt by lia. done.
  - rewrite lookup_app_r by (rewrite length_fmap, length_seq; lia). rewrite length_fmap, length_seq.
    replace (S * b + S + j - S)%nat with (b * S + j)%nat by lia. replace (Datatypes.S b * S + j - S)%nat with (b * S + j)%nat by lia. by apply IH.
Qed.

Lemma slots_of_inv lids S : ∀ i lid j, slots_of lids S !! i = Some (lid, j) → ∃ b, lids !! b = Some lid ∧ (j < S)%nat ∧ i = (b * S + j)%nat.
Proof.
  induction lids as [|l lids IH]; intros i lid j H; [done|]. rewrite slots_of_cons in H. apply lookup_app_Some in H as [H|[Hi H]].
  - rewrite list_lookup_fmap in H. destruct (seq 0 S !! i) as [i'|] eqn:E; [|done]. injection H as <- <-.
    apply lookup_seq in E as [-> E]. exists 0%nat. split; [done|]. split; [done|]. lia.
  - rewrite length_fmap, length_seq in *. apply IH in H as (b & Hb & Hj & E). exists (Datatypes.S b). split; [done|]. split; [done|]. lia.
Qed.

(** ** Indices *)

Definition increasing (l : list nat) : Prop := ∀ i j x y, (i < j)%nat → l !! i = Some x → l !! j = Some y → (x < y)%nat.

Lemma increasing_snoc l x : increasing l → Forall (λ y, (y < x)%nat) l → increasing (l ++ [x]).
Proof.
  intros Hl Hx i j y z Hij Hi Hj. pose proof (lookup_lt_Some _ _ _ Hj) as Lj. rewrite length_app in Lj. cbn in Lj.
  rewrite lookup_app_l in Hi by lia. apply lookup_app_Some in Hj as [Hj|[Hj1 Hj]]; [by apply (Hl i j)|].
  rewrite Forall_lookup in Hx. apply list_lookup_singleton_Some in Hj as [_ <-]. exact (Hx i y Hi).
Qed.

Definition indices (p : nat * Layer → bool) (ls : list Layer) : list nat := (λ il, il.1) <$> filter (λ il : nat * Layer, p il = true) (imap pair ls).

Lemma indices_snoc p ls l : indices p (ls ++ [l]) = indices p ls ++ (if p (length ls, l) then [length ls] else []).
Proof.
  unfold indices. rewrite imap_app, filter_app, fmap_app. f_equal. cbn [imap filter list_filter]. unfold compose. cbn.
  rewrite Nat.add_0_r. destruct (p (length ls, l)); cbn; done.
Qed.

Lemma indices_elem p ls i : i ∈ indices p ls ↔ ∃ l, ls !! i = Some l ∧ p (i, l) = true.
Proof.
  unfold indices. rewrite list_elem_of_fmap. split.
  - intros ([j l] & -> & H). apply list_elem_of_filter in H as [Hp H]. apply elem_of_lookup_imap in H as (k & l' & [= -> ->] & H). by exists l'.
  - intros (l & H & Hp). exists (i, l). split; [done|]. apply list_elem_of_filter. split; [done|]. apply elem_of_lookup_imap. by exists i, l.
Qed.

Lemma indices_increasing p ls : increasing (indices p ls).
Proof.
  induction ls as [|l ls IH] using rev_ind; [intros i j x y _ H; done|]. rewrite indices_snoc. destruct (p _); [|by rewrite app_nil_r].
  apply increasing_snoc; [exact IH|]. apply Forall_forall. intros i (l' & Hi & _)%indices_elem. by apply lookup_lt_Some in Hi.
Qed.

Definition is_prod (l : Layer) : bool := match rule l with PROD => true | _ => false end.

Lemma bases_indices ct : base_layer_indices ct = indices (λ il, is_base il.2) (L ct).
Proof. done. Qed.

Lemma prods_indices ct : prod_layer_indices ct = indices (λ il, is_prod il.2) (L ct).
Proof. done. Qed.

(** Later slots of increasing layers are not at smaller layers, nor at the same place. *)
Lemma slots_order lids S i i' lid j lid' j' : increasing lids → (i' < i)%nat → slots_of lids S !! i = Some (lid, j) → slots_of lids S !! i' = Some (lid', j') →
  (lid' ≤ lid)%nat ∧ (lid', j') ≠ (lid, j).
Proof.
  intros HI Hii H H'. apply slots_of_inv in H as (b & Hb & Hj & ->). apply slots_of_inv in H' as (b' & Hb' & Hj' & ->).
  destruct (Nat.lt_trichotomy b' b) as [Hlt|[->|Hgt]].
  - pose proof (HI b' b _ _ Hlt Hb' Hb). split; [lia|]. intros [= -> ->]. lia.
  - rewrite Hb in Hb'. injection Hb' as <-. split; [lia|]. intros [= ->]. lia.
  - nia.
Qed.

(** ** Entries *)

Definition wshape {A} (w : wiring A) (nL S : nat) : Prop := length w = nL ∧ ∀ lid row, w !! lid = Some row → length row = S.

Lemma wshape_replicate {A} (d : A) nL S : wshape (replicate nL (replicate S d)) nL S.
Proof. split; [apply length_replicate|]. intros lid row [-> _]%lookup_replicate. apply length_replicate. Qed.

Lemma set_wire_shape {A} (w : wiring A) nL S lid j k : wshape w nL S → wshape (set_wire w lid j k) nL S.
Proof.
  intros [H1 H2]. unfold set_wire. split; [by rewrite length_alter|]. intros lid' row Hr. destruct (decide (lid' = lid)) as [->|Hne].
  - rewrite list_lookup_alter_eq in Hr. destruct (w !! lid) as [row'|] eqn:E; [|done]. injection Hr as <-. rewrite length_insert. by apply (H2 lid).
  - rewrite list_lookup_alter_ne in Hr by done. by apply (H2 lid').
Qed.

Lemma set_wire_same {A} (d : A) (w : wiring A) nL S lid j k : wshape w nL S → (lid < nL)%nat → (j < S)%nat → wire_at d (set_wire w lid j k) lid j = k.
Proof.
  intros [H1 H2] Hl Hj. unfold wire_at, set_wire. destruct (lookup_lt_is_Some_2 w lid) as [row Hr]; [lia|].
  assert (E : alter (λ row, <[j := k]> row) lid w !! lid = Some (<[j := k]> row)) by (by rewrite list_lookup_alter_eq, Hr).
  rewrite (nth_lookup_Some _ lid [] _ E). apply nth_lookup_Some. apply list_lookup_insert_eq. rewrite (H2 lid row Hr). done.
Qed.

Lemma set_wire_other {A} (d : A) (w : wiring A) lid j lid' j' k : (lid', j') ≠ (lid, j) → wire_at d (set_wire w lid j k) lid' j' = wire_at d w lid' j'.
Proof.
  intros Hne. unfold wire_at, set_wire. rewrite !(nth_lookup _ lid'). destruct (decide (lid' = lid)) as [->|Hl].
  - rewrite list_lookup_alter_eq. destruct (w !! lid) as [row|]; [|done]. cbn. rewrite !nth_lookup, list_lookup_insert_ne; [done|]. intros ->. by apply Hne.
  - by rewrite list_lookup_alter_ne.
Qed.

(** ** Guards *)

Definition layer_fine (lid : nat) (l : Layer) : Prop := rule l = BASE ∨ (rule l = PROD ∧ pa l < Z.of_nat lid ∧ pb l < Z.of_nat lid).

Lemma layer_guards_fine g S A ls : ∀ lid, length A = length ls → layer_guards g S lid A ls = Ok tt → ∀ i l, ls !! i = Some l → layer_fine (lid + i) l.
Proof.
  revert A. induction ls as [|l ls IH]; intros [|row A] lid HL H i l' Hi; try done. cbn [layer_guards] in H.
  apply res_bind_Ok in H as ([] & H0 & H). destruct i as [|i].
  - injection Hi as <-. rewrite Nat.add_0_r. unfold layer_guard in H0. destruct (negb _); [discriminate|]. destruct (rule l) eqn:R; [by left| |discriminate].
    right. destruct ((Z.of_nat lid <=? pa l) || (Z.of_nat lid <=? pb l)) eqn:E; [discriminate|]. apply orb_false_iff in E as [E1%Z.leb_gt E2%Z.leb_gt]. done.
  - rewrite <- Nat.add_succ_comm. apply (IH A); [by injection HL|exact H|exact Hi].
Qed.

Lemma circuit_guards_fine g ct A ab strict : circuit_guards g ct A ab strict = Ok tt →
  length A = length (L ct) ∧ ∀ i l, L ct !! i = Some l → layer_fine i l.
Proof.
  unfold circuit_guards. destruct (Nat.eqb_spec (length A) (length (L ct))) as [E|E]; [|discriminate]. cbn [negb]. intros ([] & H & _)%res_bind_Ok.
  split; [exact E|]. exact (layer_guards_fine g _ _ _ 0%nat E H).
Qed.
