(* ===== verification/CircuitSound.v ===== *)
(** * The circuits are sound

    What every assignment that solves the constraints of [build_circuit] or
    [build_key_bound_circuit] says of the values on the committed wires: the key,
    the masks and the amount satisfy the relations of the ciphertext. *)

From S2P Require Import Prelude Primes Field Hash Rng CtSafe Types Lpn Fe25519 Scalar25519 ScalarField Ristretto Msm Transcript InnerProduct R1cs R1csAlgebra Decrypt Encrypt Gadgets GadgetsSound Circuit Wiring.

#[local] Opaque scL zinv sc_val sc_mersenne_p sc_pow2_64 sc_from_u64 lc_var lc_term lc_sub.

(** ** Elements on wires *)

(** The element of a residue. *)
Definition to_fp (x : Z) : Fp := mkFp (x mod P mod 2 ^ 64) (x mod P / 2 ^ 64).

Lemma to_fp_rep x : to_fp x ~~ x.
Proof.
  pose proof (Z.mod_pos_bound x P ltac:(done)) as HB. unfold to_fp. set (y := x mod P) in *.
  pose proof (Z.div_mod y (2 ^ 64) ltac:(done)) as E. pose proof (Z.mod_pos_bound y (2 ^ 64) ltac:(done)) as H0.
  assert (H1 : 0 ≤ y / 2 ^ 64 < 2 ^ 63) by (split; [apply Z.div_pos; lia|apply Z.div_lt_upper_bound; unfold P in HB; lia]).
  assert (V : val (mkFp (y mod 2 ^ 64) (y / 2 ^ 64)) = y) by (unfold val; cbn [lo hi]; lia).
  split; [split; [split; unfold word; cbn [lo hi]; lia|rewrite V; apply HB]|]. rewrite V. apply cong_mod.
Qed.

Lemma cong_0_small m z : cong m z 0 → - m < z < m → z = 0.
Proof.
  intros H Hz. assert (Hm : 0 < m) by lia. apply cong_divide in H as [k E]; [|exact Hm]. rewrite Z.sub_0_r in E. assert (k = 0) by nia. lia.
Qed.

Section Sound.
Context (s : Assignment).

(** The element that a wire holds. *)
Definition fp_at (v : Var) : Fp := to_fp (value_of s v mod scL).

Definition in_field (canonical : bool) (v : Var) : Prop := ∃ x, element s canonical v x.

Lemma element_fp canonical v x : element s canonical v x → fp_at v ~~ x.
Proof.
  intros (E & HB & _). unfold fp_at. replace (value_of s v mod scL) with x; [apply to_fp_rep|].
  pose proof scL_large. rewrite (cong_mod_eq _ _ _ E). symmetry. apply Z.mod_small. lia.
Qed.

Lemma product_fp canonical a b c : product s canonical a b c →
  in_field canonical a ∧ in_field canonical b ∧ in_field canonical c ∧ fp_at c = fp_mul (fp_at a) (fp_at b).
Proof.
  intros (x & y & z & Hx & Hy & Hz & E). split; [by exists x|]. split; [by exists y|]. split; [by exists z|].
  apply (rep_inj _ _ z); [exact (element_fp _ _ _ Hz)|]. eapply rep_cong; [exact (rep_mul _ _ _ _ (element_fp _ _ _ Hx) (element_fp _ _ _ Hy))|]. by symmetry.
Qed.

(** The limbs of an element. *)
Definition limbs_at (l : FpLimbs) (f : Fp) : Prop := ∃ x, limbs_of s (x0_var l) (x1_var l) x ∧ f ~~ x.

(** A committed residue is the element, possibly less the modulus. *)
Definition commits (v : Var) (f : Fp) : Prop := ∃ x b, 0 ≤ x < 2 ^ 127 ∧ (b = 0 ∨ b = 1) ∧ cong scL (value_of s v) (x - b * P) ∧ f ~~ x.

Lemma bind_forces n Pre v x_fp canonical : forces s n n Pre (bind_pc_value v x_fp canonical)
  (λ r, in_field canonical (bound_var r) ∧ commits v (fp_at (bound_var r)) ∧ limbs_at (bound_limbs r) (fp_at (bound_var r))).
Proof.
  eapply forces_weaken; [apply bind_pc_value_forces|..]; [intros H; exact H|]. intros r _ (x & b & He & Hl & Hb & Hv).
  pose proof (element_fp _ _ _ He) as Hr. split; [by exists x|]. split; [|by exists x]. exists x, b. split; [apply He|]. split; [exact Hb|].
  split; [|exact Hr]. rewrite <- Hv. apply cong_eq. ring.
Qed.

(** ** Loops *)

(** Each turn commits [c] times; [I] is the invariant before each turn. *)
Lemma forces_foldM {A B} (f : A → B → M R1CSProver A) (c : nat) (I : nat → A → Prop) l : ∀ n i a,
  (∀ k b a, l !! k = Some b → forces s (n + c * k) (n + c * S k) (I (i + k)%nat a) (f a b) (I (S (i + k)))) →
  forces s n (n + c * length l) (I i a) (foldM f l a) (I (i + length l)%nat).
Proof.
  induction l as [|b l IH]; intros n i a H; cbn [foldM length].
  - rewrite Nat.mul_0_r, !Nat.add_0_r. apply forces_ret. done.
  - pose proof (H 0%nat b a eq_refl) as H0. rewrite Nat.mul_0_r, Nat.mul_1_r, !Nat.add_0_r in H0.
    eapply forces_bind; [exact H0|]. intros a'.
    replace (n + c * S (length l))%nat with (n + c + c * length l)%nat by lia. rewrite <- Nat.add_succ_comm.
    eapply forces_weaken; [apply (IH (n + c)%nat (S i) a')|..]; [|by intros [_ HI]|by intros].
    intros k b' a'' Hk. specialize (H (S k) b' a'' Hk). replace (n + c + c * k)%nat with (n + c * S k)%nat by lia.
    replace (n + c + c * S k)%nat with (n + c * S (S k))%nat by lia. by rewrite Nat.add_succ_comm.
Qed.

(** ** The circuit PRF *)

(** The combination sums to a representative of the element. *)
Definition state_at (st : PrfState) (f : Fp) : Prop := ∃ x, cong scL (lc_of s (state_lc st)) x ∧ 0 ≤ x < 2 ^ 127 ∧ f ~~ x.

Lemma fp_scalar_val c : fp_ok c → sc_val (fp_scalar_of c) = val c ∧ sc_canon (fp_scalar_of c).
Proof. intros Hc. destruct (fp_scalar c Hc) as [C E]. by split. Qed.

Lemma sum_forces n Pre key_fp key_bound slc sval sfp c_fp out : (Pre → fp_ok c_fp) →
  forces s n n Pre (constrain_add_key_const key_fp key_bound slc sval sfp c_fp out)
    (λ o, match out with Some o' => o = o' | None => True end ∧
      ∃ q, 0 ≤ q < 8 ∧ cong scL (lc_of s slc + value_of s (bound_var key_bound) + val c_fp) (value_of s o.1 + q * P)).
Proof.
  intros HPc. unfold constrain_add_key_const.
  eapply forces_bind with (Mid := λ o, match out with Some o' => o = o' | None => True end).
  { destruct out as [o|]; [by apply forces_ret|]. eapply forces_bind; [apply forces_allocate|]. intros [[a b] o].
    eapply forces_bind; [apply forces_constrain|]. intros []. by apply forces_ret. }
  intros [out_var out_val]. eapply forces_bind; [apply forces_ops|]. intros ops. cbv zeta.
  eapply forces_bind; [apply forces_allocate|]. intros [[q ?] ?]. eapply forces_bind; [apply multiply_modulus|]. intros [[? ?] qp].
  eapply forces_bind; [apply forces_constrain|]. intros []. eapply forces_bind; [apply range_check_forces|]. intros []. apply forces_ret.
  intros ((((((HP & Ho) & _) & _) & Eqp) & Hl) & q' & Hq & Eq). destruct (fp_scalar_val c_fp (HPc HP)) as [Vc Cc]. split; [exact Ho|]. exists q'. change (2 ^ Z.of_nat 3) with 8 in Hq. split; [exact Hq|].
  cbn [snd fst] in *. unfold lc_add in Hl.
  rewrite (lc_of_sub _ _ _ (coeffs_var _)), (lc_of_sub _ _ _ (coeffs_var _)), !lc_of_app, !lc_of_var, lc_of_term, Vc, Eqp, Eq in Hl.
  change (value_of s one) with 1 in Hl. apply cong_minus_0. rewrite <- Hl. apply cong_eq. ring.
Qed.

Lemma constant_ok profile round c : circuit_prf_round_constant profile round = Ok c → fp_ok c.
Proof. intros (dm & _ & [= <-])%res_bind_Ok. apply fp_from_hash32_unit. Qed.

Lemma challenge_ok pk sd j c : circuit_prf_challenge pk sd j = Ok c → fp_ok c.
Proof. intros (dm & _ & [= <-])%res_bind_Ok. apply fp_from_hash32_unit. Qed.

(** An equality of sums below the group order is exact. *)
Lemma exact_sum x k c t q : 0 ≤ x < 2 ^ 127 → 0 ≤ k < 2 ^ 127 → 0 ≤ c < 2 ^ 127 → 0 ≤ t < 2 ^ 127 → 0 ≤ q < 8 →
  cong scL (x + k + c) (t + q * P) → cong P t (x + k + c).
Proof.
  intros Hx Hk Hc Ht Hq E. pose proof scL_large. assert (x + k + c = t + q * P).
  { apply (cong_small scL); [exact E| |]; unfold P; lia. }
  apply (cong_shift P _ _ (- q)). lia.
Qed.

Lemma sum_element st key_bound reject f c t_var q t : state_at st f → in_field reject (bound_var key_bound) → fp_ok c → element s reject t_var t → 0 ≤ q < 8 →
  cong scL (lc_of s (state_lc st) + value_of s (bound_var key_bound) + val c) (value_of s t_var + q * P) →
  fp_at t_var = fp_add (fp_add f (fp_at (bound_var key_bound))) c.
Proof.
  intros (x & Ex & Hx & Hf) (k & Hk) Hc Ht Hq E. pose proof (fp_ok_bounds c Hc) as (_ & _ & Bc). rewrite Ex, (proj1 Hk), (proj1 Ht) in E.
  apply (rep_inj _ _ t); [exact (element_fp _ _ _ Ht)|].
  eapply rep_cong; [exact (rep_add _ _ _ _ (rep_add _ _ _ _ Hf (element_fp _ _ _ Hk)) (rep_val c Hc))|].
  symmetry. apply (exact_sum x k (val c) t q); [exact Hx|apply Hk|unfold P in Bc; lia|apply Ht|exact Hq|exact E].
Qed.

Lemma power_fp profile t_var y_var reject e : power s reject e t_var y_var →
  match profile with MIMC_X3_V6 => e = 3 | MIMC_X5_V7 => e = 5 | PROFILE_other _ => False end →
  ∃ t y, element s reject t_var t ∧ element s reject y_var y ∧ circuit_prf_power profile (fp_at t_var) = Ok (fp_at y_var).
Proof.
  intros (t & y & Ht & Hy & E) He. exists t, y. split; [exact Ht|]. split; [exact Hy|]. pose proof (element_fp _ _ _ Ht) as Ft. pose proof (element_fp _ _ _ Hy) as Fy.
  unfold circuit_prf_power. cbv zeta. destruct profile; [subst e..|done]; f_equal; apply (rep_inj _ _ y); try exact Fy; (eapply rep_cong; [eauto with fp|]); rewrite E; apply cong_eq; ring.
Qed.

Lemma element_state st v reject x : state_lc st = lc_var v → element s reject v x → state_at st (fp_at v).
Proof. intros E Hx. exists x. rewrite E, lc_of_var. split; [apply Hx|]. split; [apply Hx|exact (element_fp _ _ _ Hx)]. Qed.

Lemma prf_round_forces n profile reject key_fp key_bound st round f :
  forces s n n (state_at st f ∧ in_field reject (bound_var key_bound)) (prf_round profile reject key_fp key_bound st round)
    (λ st', ∃ c f', circuit_prf_round_constant profile round = Ok c ∧
      circuit_prf_power profile (fp_add (fp_add f (fp_at (bound_var key_bound))) c) = Ok f' ∧ state_at st' f').
Proof.
  unfold prf_round. eapply forces_bind; [apply forces_lift|]. intros c. cbv zeta.
  eapply forces_bind; [apply sum_forces; intros [_ Hc]; exact (constant_ok _ _ _ Hc)|]. intros [t_var t_val].
  eapply forces_bind with (Mid := λ r, power s reject (match profile with MIMC_X3_V6 => 3 | _ => 5 end) t_var (mul_var r)).
  { destruct profile; [apply fp_cube_forces|apply fp_fifth_forces..]. }
  intros r. eapply forces_bind; [apply forces_lift|]. intros next. apply forces_ret.
  intros (((((Hst & Hk) & Hc) & _ & q & Hq & E) & Hp) & _). cbn [fst] in E.
  assert (HP : match profile with MIMC_X3_V6 => match profile with MIMC_X3_V6 => 3 | _ => 5 end = 3 | MIMC_X5_V7 => match profile with MIMC_X3_V6 => 3 | _ => 5 end = 5 | PROFILE_other _ => False end).
  { destruct profile; [reflexivity..|discriminate Hc]. }
  destruct (power_fp profile t_var (mul_var r) reject _ Hp HP) as (t & y & Ht & Hy & Epw).
  rewrite (sum_element _ _ _ _ _ _ _ _ Hst Hk (constant_ok _ _ _ Hc) Ht Hq E) in Epw.
  exists c, (fp_at (mul_var r)). split; [exact Hc|]. split; [exact Epw|]. exact (element_state (mkPrf (lc_var (mul_var r)) (mul_val r) next) (mul_var r) _ _ eq_refl Hy).
Qed.

Lemma prf_rounds_forces profile reject key_fp key_bound rounds : ∀ n st f,
  forces s n n (state_at st f ∧ in_field reject (bound_var key_bound)) (foldM (prf_round profile reject key_fp key_bound) rounds st)
    (λ st', ∃ f', circuit_prf_loop profile (fp_at (bound_var key_bound)) rounds f = Ok f' ∧ state_at st' f').
Proof.
  induction rounds as [|round rounds IH]; intros n st f; cbn [foldM circuit_prf_loop].
  - apply forces_ret. intros [Hst _]. by exists f.
  - eapply forces_bind; [apply prf_round_forces|]. intros st'.
    intros p a p' Hp Hn E. destruct (IH n st' fp0 p a p' Hp Hn E) as (Hp1 & Hn1 & ks & K & _). split; [exact Hp1|]. split; [exact Hn1|]. exists ks. split; [exact K|].
    intros ((Hst & Hk) & c & f' & Hc & Hf' & Hst') HS. destruct (IH n st' f' p a p' Hp Hn E) as (_ & _ & ks' & K' & S).
    rewrite K in K'. apply app_inv_head in K' as <-. destruct (S (conj Hst' Hk) HS) as (f'' & E'' & H''). exists f''. split; [|exact H''].
    rewrite Hc, Ok_bind. cbv zeta. by rewrite Hf', Ok_bind.
Qed.

(** ** Masks *)

(** The mask that a key gives, before the replacement of zero by one. *)
Definition prf_mask (pk : PubKey) (key : Fp) (sd : RSeed) (j : Z) : res Fp :=
  state ← circuit_prf_challenge pk sd j;
  n ← circuit_prf_rounds (circuit_prf_profile pk);
  state ← circuit_prf_loop (circuit_prf_profile pk) key (zseq 0 n) state;
  Ok (fp_add (fp_add state key) (fp_from_u64 1)).

(** A wired pair of inverse elements. *)
Definition key_slot_ok (reject : bool) (k : KeySlotVar) : Prop :=
  in_field reject (r_var k) ∧ in_field reject (rinv_var k) ∧ limbs_at (rinv_limbs k) (fp_at (rinv_var k)) ∧
  fp_mul (fp_at (r_var k)) (fp_at (rinv_var k)) = fp_from_u64 1.

Lemma inverse_forces n Pre a_var a_val b_var b_val reject : forces s n n Pre (constrain_inverse a_var a_val b_var b_val reject)
  (λ _, in_field reject a_var ∧ in_field reject b_var ∧ fp_mul (fp_at a_var) (fp_at b_var) = fp_from_u64 1).
Proof.
  unfold constrain_inverse. eapply forces_bind; [apply fp_mul_forces|]. intros r.
  eapply forces_weaken; [apply forces_constrain|..]; [intros H; exact H|]. intros [] [_ Hp] Hl.
  rewrite (lc_of_sub _ _ _ (coeffs_var _)), !lc_of_var in Hl. change (value_of s one) with 1 in Hl. apply cong_minus_0 in Hl.
  destruct (product_fp _ _ _ _ Hp) as (Ha & Hb & (z & Hz) & E). split; [exact Ha|]. split; [exact Hb|].
  rewrite <- E. pose proof scL_large. assert (z = 1) as ->.
  { destruct Hz as (Ez & Bz & _). apply (cong_small scL); [by rewrite <- Ez|lia..]. }
  apply (rep_inj _ _ 1); [exact (element_fp _ _ _ Hz)|by apply rep_u64].
Qed.

(** What a base slot adds: the mask is the one of the key, and the next two
    commitments are to it and to its inverse. *)
Definition base_ok (pk : PubKey) (key : Fp) (ct : Cipher) (lid j n : nat) (k : KeySlotVar) : Prop :=
  prf_mask pk key (seed (layer_at ct lid)) (Z.of_nat j) = Ok (fp_at (r_var k)) ∧
  commits (committed n) (fp_at (r_var k)) ∧ commits (committed (S n)) (fp_at (rinv_var k)).

Lemma key_base_forces n pk sk_ptr ct r_ptr rinv_ptr reject key_fp key_bound w lid j :
  forces s n (n + 2) (in_field reject (bound_var key_bound))
    (key_base_slot pk sk_ptr ct r_ptr rinv_ptr reject key_fp key_bound w (lid, j))
    (λ w', ∃ k, w' = set_wire w lid j k ∧ key_slot_ok reject k ∧ base_ok pk (fp_at (bound_var key_bound)) ct lid j n k).
Proof.
  unfold key_base_slot. cbv zeta. replace (n + 2)%nat with (S (S n)) by lia.
  eapply forces_bind; [apply forces_commit|]. intros v1. eapply forces_bind; [apply forces_commit|]. intros v2.
  eapply forces_bind; [apply bind_forces|]. intros rb. eapply forces_bind; [apply bind_forces|]. intros ib.
  eapply forces_bind; [apply forces_lift|]. intros ch. eapply forces_bind; [apply forces_lift|]. intros rounds.
  set (st0 := mkPrf _ _ _).
  eapply forces_bind; [eapply forces_weaken; [apply (prf_rounds_forces (circuit_prf_profile pk) reject key_fp key_bound (zseq 0 rounds) (S (S n)) st0 ch)|..]|].
  { intros ((((((HK & _) & _) & _) & _) & Hch) & _). split; [|exact HK]. pose proof (challenge_ok _ _ _ _ Hch) as Hok. exists (val ch).
    unfold st0. cbn [state_lc]. rewrite lc_of_term, (proj1 (fp_scalar_val ch Hok)). change (value_of s one) with 1. rewrite Z.mul_1_r.
    pose proof (fp_ok_bounds ch Hok) as (_ & _ & HB). split; [reflexivity|]. split; [unfold P in HB; lia|exact (rep_val ch Hok)]. }
  { intros st' _ H. exact H. }
  intros st'. eapply forces_bind; [apply sum_forces; intros _; exact (rep_ok _ _ (rep_u64 1 ltac:(done)))|]. intros [ov ovv].
  eapply forces_bind; [apply inverse_forces|]. intros []. apply forces_ret.
  intros (((((((((HK & E1) & E2) & (Fr & Cr & _)) & (Fi & Ci & Li)) & Hch) & Hrn) & f' & Hloop & Hst') & Ho & q & Hq & Hsum) & _ & _ & Hinv).
  injection Ho as -> ->. cbn [fst] in Hsum. subst v1 v2. eexists. split; [reflexivity|]. split.
  - split; [exact Fr|]. split; [exact Fi|]. split; [exact Li|exact Hinv].
  - split; [|split; [exact Cr|exact Ci]]. unfold prf_mask. rewrite Hch, Ok_bind, Hrn, Ok_bind, Hloop, Ok_bind. f_equal. symmetry. cbn [r_var].
    destruct Fr as [t Ht]. exact (sum_element st' key_bound reject f' _ _ q t Hst' HK (rep_ok _ _ (rep_u64 1 ltac:(done))) Ht Hq Hsum).
Qed.

Lemma key_prod_forces n ct reject w lid j :
  let a := wire_at no_key_slot w (Z.to_nat (pa (layer_at ct lid))) j in let b := wire_at no_key_slot w (Z.to_nat (pb (layer_at ct lid))) j in
  forces s n n True (key_prod_slot ct reject w (lid, j))
    (λ w', ∃ k, w' = set_wire w lid j k ∧ key_slot_ok reject k ∧
      fp_at (r_var k) = fp_mul (fp_at (r_var a)) (fp_at (r_var b)) ∧ fp_at (rinv_var k) = fp_mul (fp_at (rinv_var a)) (fp_at (rinv_var b))).
Proof.
  cbv zeta. unfold key_prod_slot. cbv zeta. set (a := wire_at _ _ (Z.to_nat (pa _)) j). set (b := wire_at _ _ (Z.to_nat (pb _)) j).
  eapply forces_bind; [apply fp_mul_forces|]. intros rp. eapply forces_bind; [apply fp_mul_forces|]. intros ip.
  eapply forces_bind; [apply inverse_forces|]. intros []. eapply forces_bind; [apply fp127_decompose_forces|]. intros l. apply forces_ret.
  intros ((((_ & Hr) & Hi) & (Fr & Fi & Hinv)) & x & Hx & Hl). destruct (product_fp _ _ _ _ Hr) as (_ & _ & _ & Er). destruct (product_fp _ _ _ _ Hi) as (_ & _ & _ & Ei).
  eexists. split; [reflexivity|]. split; [|by split]. split; [exact Fr|]. split; [exact Fi|]. split; [|exact Hinv].
  exists x. split; [exact Hl|exact (element_fp _ _ _ Hx)].
Qed.

(** ** The relation of a slot *)

(** The sum of the coefficients weighted by the elements. *)
Definition weighted (layers : list (Fp * FpLimbs)) (fs : list Fp) : Z := lsum (zip layers fs) (λ af, val af.1.1 * val af.2).

Lemma coeffs_folded A l : fp_ok A → coeffs_ok (folded_lc (fp_mul_const_var_folded A l W)).
Proof.
  intros HA. destruct (fp_ok_words A HA) as [Wl Wh]. pose proof (u64_scalar (lo A) Wl) as Sl. pose proof (u64_scalar (hi A) Wh) as Sh.
  unfold fp_mul_const_var_folded. cbn [folded_lc]. unfold lc_add, coeffs_ok. rewrite !Forall_app.
  split; [split; [split; [split; [constructor|]|]|]|]; apply coeffs_term; [exact (proj1 Sl)|exact (proj1 (is_W_mul _ _ _ _ pow64_scalar Sl))|exact (proj1 (is_W_mul _ _ _ _ pow64_scalar Sh))|exact (proj1 (is_W_mul _ _ _ _ two_scalar Sh))].
Qed.

Lemma layers_sum layers : ∀ fs st, Forall2 (λ al f, fp_ok al.1 ∧ limbs_at al.2 f) layers fs → coeffs_ok st.1 →
  coeffs_ok (foldl (add_layer W) st layers).1 ∧
  ∃ T, 0 ≤ T ≤ Z.of_nat (length layers) * 2 ^ 194 ∧ cong scL (lc_of s (foldl (add_layer W) st layers).1) (lc_of s st.1 + T) ∧ cong P T (weighted layers fs).
Proof.
  induction layers as [|[a l] layers IH]; intros fs [sum_lc total] H Hc; inversion H as [|? f ? fs' [Ha Hf] HF]; subst; cbn [foldl length].
  - split; [exact Hc|]. exists 0. split; [lia|]. split; [apply cong_eq; ring|reflexivity].
  - cbn [fst snd] in *. unfold add_layer at 2 4. destruct ((lo a =? 0) && (hi a =? 0)) eqn:Z0.
    + destruct (IH fs' (sum_lc, total) HF Hc) as (K & T & BT & ET & PT). split; [exact K|]. exists T. split; [lia|]. split; [exact ET|].
      apply andb_true_iff in Z0 as [El%Z.eqb_eq Eh%Z.eqb_eq]. rewrite PT. unfold weighted. cbn [zip zip_with]. rewrite lsum_cons. cbn [fst snd].
      assert (Va : val a = 0) by (unfold val; by rewrite El, Eh). rewrite Va. apply cong_eq. ring.
    + destruct Hf as (x & Hx & Fx). destruct (folded_limbs s a x l Ha Hx) as (T1 & B1 & E1 & P1).
      destruct (IH fs' (lc_add sum_lc (folded_lc (fp_mul_const_var_folded a l W)), sc_add total (folded_val (fp_mul_const_var_folded a l W))) HF) as (K & T & BT & ET & PT).
      { apply Forall_app_2; [exact Hc|exact (coeffs_folded a l Ha)]. }
      split; [exact K|]. exists (T1 + T). split; [lia|]. split.
      * rewrite ET. cbn [fst]. unfold lc_add. rewrite lc_of_app, E1. apply cong_eq. ring.
      * rewrite PT, P1. unfold weighted. cbn [zip zip_with]. rewrite lsum_cons. cbn [fst snd]. destruct Fx as [_ Fx]. by rewrite Fx.
Qed.

(** The residue of the amount, zero without an amount. *)
Definition amount_value (amount : option (Var * Scalar)) : Z := match amount with Some (v, _) => value_of s v | None => 0 end.

Lemma initial_sum c0_fp (amount : option (Var * Scalar)) : fp_ok c0_fp →
  let sum_lc := if negb (lo c0_fp =? 0) || negb (hi c0_fp =? 0) then lc_add [] (lc_term one (fp_scalar_of c0_fp)) else [] in
  let sum_lc := match amount with Some (amount_var, _) => lc_sub sum_lc (lc_var amount_var) | None => sum_lc end in
  coeffs_ok sum_lc ∧ cong scL (lc_of s sum_lc) (val c0_fp - amount_value amount).
Proof.
  intros Hc. destruct (fp_scalar_val c0_fp Hc) as [V C]. cbv zeta.
  set (l0 := if negb (lo c0_fp =? 0) || negb (hi c0_fp =? 0) then lc_add [] (lc_term one (fp_scalar_of c0_fp)) else []).
  assert (H0 : coeffs_ok l0 ∧ lc_of s l0 = val c0_fp).
  { unfold l0. destruct (negb _ || negb _) eqn:E.
    - split; [exact (coeffs_term _ _ C)|]. unfold lc_add. cbn [app]. rewrite lc_of_term, V. change (value_of s one) with 1. ring.
    - apply orb_false_iff in E as [El%negb_false_iff%Z.eqb_eq Eh%negb_false_iff%Z.eqb_eq]. split; [constructor|]. unfold val. rewrite El, Eh. reflexivity. }
  destruct H0 as [H0 E0]. destruct amount as [[v sv]|]; cbn [amount_value].
  - split; [|rewrite (lc_of_sub _ _ _ (coeffs_var _)), lc_of_var, E0; reflexivity]. Transparent lc_sub. unfold lc_sub. Opaque lc_sub.
    apply Forall_app_2; [exact H0|]. apply Forall_fmap. eapply Forall_impl; [exact (coeffs_var v)|]. intros [v' c] Hv. exact (proj1 (is_sc_neg c _ (sc_is_val c Hv))).
  - split; [exact H0|]. rewrite E0. apply cong_eq. ring.
Qed.

(** The constant and the weighted sum are the amount modulo [P], the amount
    being a small integer as a residue modulo the group order. *)
Definition relation (c0_fp : Fp) (amount : option (Var * Scalar)) (layers : list (Fp * FpLimbs)) (fs : list Fp) : Prop :=
  ∃ z, - 2 ^ 240 < z < 2 ^ 240 ∧ cong scL (amount_value amount) z ∧ cong P z (val c0_fp + weighted layers fs).

Lemma slot_relation_forces n c0_fp amount layers fs : Z.of_nat (length layers) ≤ 2 ^ 40 →
  forces s n n (fp_ok c0_fp ∧ Forall2 (λ al f, fp_ok al.1 ∧ limbs_at al.2 f) layers fs) (slot_relation c0_fp amount layers)
    (λ _, relation c0_fp amount layers fs).
Proof.
  intros HL. unfold slot_relation. cbv zeta. eapply forces_bind; [apply forces_ops|]. intros ops.
  set (l0 := if negb (lo c0_fp =? 0) || negb (hi c0_fp =? 0) then lc_add [] (lc_term one (fp_scalar_of c0_fp)) else []).
  set (l1 := match amount with Some (v, _) => lc_sub l0 (lc_var v) | None => l0 end).
  set (t1 := match amount with Some (_, v) => sc_sub (fp_scalar_of c0_fp) v | None => fp_scalar_of c0_fp end).
  destruct (foldl (add_layer ops) (l1, t1) layers) as [sum_lc total] eqn:E.
  eapply forces_bind; [apply forces_allocate|]. intros [[k ?] ?]. eapply forces_bind; [apply multiply_modulus|]. intros [[? ?] ko].
  eapply forces_bind; [apply forces_constrain|]. intros []. eapply forces_weaken; [apply range_check_forces|..]; [intros H; exact H|].
  intros [] (((((Hc & HF) & ->) & _) & Eko) & Hl) (q & Hq & Eq). cbn [snd] in Eko.
  destruct (initial_sum c0_fp amount Hc) as [C1 E1]. cbv zeta in C1, E1. fold l0 in C1, E1. fold l1 in C1, E1.
  destruct (layers_sum layers fs (l1, t1) HF C1) as (C2 & T & BT & ET & PT). rewrite E in C2, ET. cbn [fst] in C2, ET.
  rewrite (lc_of_sub _ _ _ C2), lc_of_var, Eko, Eq, ET, E1 in Hl. change (2 ^ Z.of_nat 73) with (2 ^ 73) in Hq.
  pose proof (fp_ok_bounds c0_fp Hc) as (_ & _ & B0).
  exists (val c0_fp + T - q * P). split; [unfold P in *; lia|]. split.
  - apply cong_minus_0. rewrite <- Hl. apply cong_eq. ring.
  - rewrite <- PT. apply (cong_shift P _ _ (- q)). ring.
Qed.

(** ** The key-bound circuit *)

Section KeyBound.
Context (pk : PubKey) (ct : Cipher) (reject : bool) (key : Fp).
Let nL := length (L ct).
Let Sl := slots ct.
Context (Hfine : ∀ i l, L ct !! i = Some l → layer_fine i l) (Hpos : Forall (λ l, 0 ≤ pa l ∧ 0 ≤ pb l) (L ct)).

Definition slot_at (w : wiring KeySlotVar) (lid j : nat) : KeySlotVar := wire_at no_key_slot w lid j.
Definition mask_at (w : wiring KeySlotVar) (lid j : nat) : Fp := fp_at (r_var (slot_at w lid j)).
Definition inverse_at (w : wiring KeySlotVar) (lid j : nat) : Fp := fp_at (rinv_var (slot_at w lid j)).

Definition bases_done (i : nat) (w : wiring KeySlotVar) : Prop :=
  ∀ i' lid j, (i' < i)%nat → slots_of (base_layer_indices ct) Sl !! i' = Some (lid, j) →
    key_slot_ok reject (slot_at w lid j) ∧ base_ok pk key ct lid j (1 + 2 * i') (slot_at w lid j).

Definition prod_ok (w : wiring KeySlotVar) (lid j : nat) : Prop :=
  key_slot_ok reject (slot_at w lid j) ∧
  let l := layer_at ct lid in
  mask_at w lid j = fp_mul (mask_at w (Z.to_nat (pa l)) j) (mask_at w (Z.to_nat (pb l)) j) ∧
  inverse_at w lid j = fp_mul (inverse_at w (Z.to_nat (pa l)) j) (inverse_at w (Z.to_nat (pb l)) j).

Definition prods_done (i : nat) (w : wiring KeySlotVar) : Prop :=
  ∀ i' lid j, (i' < i)%nat → slots_of (prod_layer_indices ct) Sl !! i' = Some (lid, j) → prod_ok w lid j.

Lemma base_lt lid : lid ∈ base_layer_indices ct → (lid < nL)%nat.
Proof. rewrite bases_indices. intros (l & H & _)%indices_elem. exact (lookup_lt_Some _ _ _ H). Qed.

Lemma layer_at_lookup lid l : L ct !! lid = Some l → layer_at ct lid = l.
Proof. intros H. unfold layer_at. exact (nth_lookup_Some _ _ _ _ H). Qed.

Lemma prod_parents lid : lid ∈ prod_layer_indices ct →
  (lid < nL)%nat ∧ (Z.to_nat (pa (layer_at ct lid)) < lid)%nat ∧ (Z.to_nat (pb (layer_at ct lid)) < lid)%nat.
Proof.
  rewrite prods_indices. intros (l & H & Hp)%indices_elem. split; [exact (lookup_lt_Some _ _ _ H)|]. rewrite (layer_at_lookup _ _ H).
  pose proof (Forall_lookup_1 _ _ _ _ Hpos H) as [Ha Hb]. cbn [snd] in Hp. unfold is_prod in Hp.
  destruct (Hfine _ _ H) as [R|(_ & La & Lb)]; [by rewrite R in Hp|]. lia.
Qed.

Lemma bases_forces sk_ptr r_ptr rinv_ptr key_fp key_bound n w0 : wshape w0 nL Sl → n = 1%nat →
  forces s n (n + 2 * length (slots_of (base_layer_indices ct) Sl)) (in_field reject (bound_var key_bound) ∧ key = fp_at (bound_var key_bound))
    (foldM (key_base_slot pk sk_ptr ct r_ptr rinv_ptr reject key_fp key_bound) (slots_of (base_layer_indices ct) Sl) w0)
    (λ w, wshape w nL Sl ∧ bases_done (length (slots_of (base_layer_indices ct) Sl)) w).
Proof.
  intros H0 ->. set (l := slots_of _ _).
  set (I i w := (wshape w nL Sl ∧ bases_done i w) ∧ in_field reject (bound_var key_bound) ∧ key = fp_at (bound_var key_bound)).
  eapply forces_weaken; [apply (forces_foldM _ 2 I l 1 0 w0)|..].
  - intros k [lid j] w Hk. replace (1 + 2 * S k)%nat with (1 + 2 * k + 2)%nat by lia.
    eapply forces_weaken; [apply key_base_forces|..]; [by intros (_ & HK & _)|].
    intros w' ((Hsh & Hd) & HK & Ek) (ks & -> & Hok & Hb). cbn [Nat.add]. destruct (slots_of_inv _ _ _ _ _ Hk) as (b & Hlb & Hj & _).
    pose proof (base_lt lid (list_elem_of_lookup_2 _ _ _ Hlb)) as Hl. split; [|by split]. split; [by apply set_wire_shape|].
    intros i' lid' j' Hi' Hs. unfold slot_at. destruct (decide (i' = k)) as [->|Hne].
    + unfold l in Hk. rewrite Hk in Hs. injection Hs as <- <-. rewrite (set_wire_same _ _ nL Sl) by done. rewrite Ek. by split.
    + rewrite set_wire_other; [apply (Hd i'); [lia|exact Hs]|].
      apply (slots_order (base_layer_indices ct) Sl k i' lid j lid' j'); [rewrite bases_indices; apply indices_increasing|lia|exact Hk|exact Hs].
  - intros [HK Ek]. split; [|by split]. split; [exact H0|]. intros i' lid j Hi'. lia.
  - intros w _ [H _]. exact H.
Qed.

Lemma prods_forces n w0 :
  forces s n n (wshape w0 nL Sl ∧ bases_done (length (slots_of (base_layer_indices ct) Sl)) w0)
    (foldM (key_prod_slot ct reject) (slots_of (prod_layer_indices ct) Sl) w0)
    (λ w, bases_done (length (slots_of (base_layer_indices ct) Sl)) w ∧ prods_done (length (slots_of (prod_layer_indices ct) Sl)) w).
Proof.
  set (nb := length (slots_of (base_layer_indices ct) Sl)). set (l := slots_of (prod_layer_indices ct) Sl).
  set (I i w := wshape w nL Sl ∧ bases_done nb w ∧ prods_done i w).
  pose proof (forces_foldM (key_prod_slot ct reject) 0 I l n 0 w0) as HF. rewrite !Nat.add_0_r in HF.
  eapply forces_weaken; [apply HF|..].
  - intros k [lid j] w Hk. cbn [Nat.mul]. rewrite !Nat.add_0_r. eapply forces_weaken; [apply key_prod_forces|done|].
    intros w' (Hsh & Hb & Hp) (ks & -> & Hok & Er & Ei). cbn [Nat.add]. destruct (slots_of_inv _ _ _ _ _ Hk) as (b & Hlb & Hj & _).
    pose proof (list_elem_of_lookup_2 _ _ _ Hlb) as Hin. destruct (prod_parents lid Hin) as (Hl & Hpa & Hpb).
    split; [by apply set_wire_shape|]. split.
    + intros i' lid' j' Hi' Hs. unfold slot_at. rewrite set_wire_other; [by apply Hb|]. intros [= -> ->].
      apply slots_of_inv in Hs as (b' & Hb' & _). apply list_elem_of_lookup_2 in Hb'. rewrite bases_indices in Hb'. rewrite prods_indices in Hin.
      apply indices_elem in Hb' as (l1 & E1 & P1). apply indices_elem in Hin as (l2 & E2 & P2). rewrite E1 in E2. injection E2 as ->.
      cbn [snd] in *. unfold is_base in P1. unfold is_prod in P2. by destruct (rule l2).
    + assert (K : ∀ lid1 j1, (lid1 < lid)%nat → (lid1, j1) ≠ (lid, j)) by (intros ? ? ? [= ? ?]; lia).
      intros i' lid' j' Hi' Hs. unfold prod_ok, mask_at, inverse_at, slot_at. cbv zeta. destruct (decide (i' = k)) as [->|Hne].
      * unfold l in Hk. rewrite Hk in Hs. injection Hs as <- <-. rewrite (set_wire_same _ _ nL Sl) by done.
        rewrite !set_wire_other by (by apply K). by split.
      * destruct (slots_order (prod_layer_indices ct) Sl k i' lid j lid' j') as [Hle Hneq]; [rewrite prods_indices; apply indices_increasing|lia|exact Hk|exact Hs|].
        apply slots_of_inv in Hs as Hs'. destruct Hs' as (b' & Hb' & _). destruct (prod_parents lid' (list_elem_of_lookup_2 _ _ _ Hb')) as (_ & Hpa' & Hpb').
        rewrite !set_wire_other by first [exact Hneq|apply K; lia]. apply (Hp i'); [lia|exact Hs].
  - intros [H0 Hb]. split; [exact H0|]. split; [exact Hb|]. intros i' lid j Hi'. lia.
  - intros w _ (_ & H). exact H.
Qed.
End KeyBound.

Lemma forces_lift_bind {A B} n n' Pre (r : res A) (f : A → M R1CSProver B) Post :
  (∀ a, r = Ok a → forces s n n' Pre (f a) Post) → forces s n n' Pre (lift r ≫= f) Post.
Proof.
  intros H p b p' Hp Hn E. unfold mbind, M_bind, lift in E. destruct r as [a| |]; [|discriminate E..]. exact (H a eq_refl p b p' Hp Hn E).
Qed.

Lemma commit_key_forces pk sk_ptr reject : forces s 0 1 True (commit_key pk sk_ptr reject)
  (λ kb, in_field reject (bound_var kb.2) ∧ commits (committed 0) (fp_at (bound_var kb.2))).
Proof.
  unfold commit_key. apply forces_lift_bind. intros [[key_fp key_signed] key_blind] _.
  eapply forces_bind; [apply forces_commit|]. intros v. eapply forces_bind; [apply bind_forces|]. intros kb. apply forces_ret.
  intros [[_ ->] (Hf & Hc & _)]. by split.
Qed.

(** The number of amounts. *)
Definition amounts (ab : option AmountBinding) : nat := match ab with Some _ => 1 | None => 0 end.

Definition amount_held (n : nat) (ab : option AmountBinding) (am : option (Var * Scalar)) : Prop :=
  match ab with
  | None => am = None
  | Some b => (∃ v, am = Some (committed n, v)) ∧
      ((0 < range_bits b)%nat → ∃ x, 0 ≤ x < 2 ^ Z.of_nat (range_bits b) ∧ cong scL (value_of s (committed n)) x)
  end.

Lemma commit_amount_forces n Pre ab : forces s n (n + amounts ab) Pre (commit_ranged_amount ab) (amount_held n ab).
Proof.
  unfold commit_ranged_amount, commit_amount, amounts. destruct ab as [b|]; cbn [amount_held].
  - replace (n + 1)%nat with (S n) by lia. eapply forces_bind with (Mid := λ am, ∃ v, am = Some (committed n, v)).
    { eapply forces_bind; [apply forces_commit|]. intros v. apply forces_ret. intros [_ ->]. by eexists. }
    intros [[v sv]|].
    + destruct (Nat.ltb_spec 0 (range_bits b)) as [Hr|Hr].
      * eapply forces_bind; [apply range_check_forces|]. intros []. apply forces_ret. intros [[_ (v' & [= -> ->])] Hx]. split; [by eexists|]. by intros _.
      * apply forces_ret. intros [_ (v' & [= -> ->])]. split; [by eexists|]. lia.
    + apply forces_ret. by intros [_ (v' & [=])].
  - rewrite Nat.add_0_r. eapply forces_bind with (Mid := λ am, am = None); [by apply forces_ret|]. intros am. apply forces_ret. by intros [_ ->].
Qed.

Lemma relations_forces {W : Type} (d : W) (limbs_of' : W → FpLimbs) ct A (w : wiring W) nL n am (F : nat → nat → Fp) : Z.of_nat nL ≤ 2 ^ 40 →
  Forall (Forall fp_ok) A → Forall fp_ok (c0 ct) →
  forces s n n (∀ lid j, (lid < nL)%nat → (j < slots ct)%nat → limbs_at (limbs_of' (wire_at d w lid j)) (F lid j))
    (foldM (λ _ j, slot_relation (constant_at ct j) am (slot_layers d limbs_of' A w nL j)) (seq 0 (slots ct)) tt)
    (λ _, ∀ j, (j < slots ct)%nat → relation (constant_at ct j) am (slot_layers d limbs_of' A w nL j) ((λ lid, F lid j) <$> seq 0 nL)).
Proof.
  intros HL HA Hc0. set (Pre := ∀ lid j, _). set (I i (_ : unit) := Pre ∧ ∀ j, (j < i)%nat → relation (constant_at ct j) am (slot_layers d limbs_of' A w nL j) ((λ lid, F lid j) <$> seq 0 nL)).
  pose proof (forces_foldM (λ _ j, slot_relation (constant_at ct j) am (slot_layers d limbs_of' A w nL j)) 0 I (seq 0 (slots ct)) n 0 tt) as HF. rewrite !Nat.add_0_r in HF.
  eapply forces_weaken; [apply HF|..].
  - intros k j [] [-> Hj]%lookup_seq. cbn [Nat.mul]. rewrite !Nat.add_0_r.
    eapply forces_weaken; [apply (slot_relation_forces n _ am _ ((λ lid, F lid (0 + k)%nat) <$> seq 0 nL)); unfold slot_layers; by rewrite length_fmap, length_seq|..].
    + intros [HP _]. split; [unfold constant_at; by apply Forall_nth_default|]. unfold slot_layers. apply Forall2_fmap_2, Forall_Forall2_diag, Forall_forall.
      intros lid Hl%elem_of_seq. cbn [fst snd]. split; [|apply HP; lia]. apply Forall_nth_default; [|done].
      destruct (decide (lid < length A)%nat) as [Hlt|Hge]; [|rewrite nth_overflow by lia; constructor].
      destruct (lookup_lt_is_Some_2 A lid Hlt) as [row Hr]. rewrite (nth_lookup_Some _ _ _ _ Hr). exact (Forall_lookup_1 _ _ _ _ HA Hr).
    + intros [] [HP HI] HR. split; [exact HP|]. intros j Hj'. destruct (decide (j = k)) as [->|]; [exact HR|apply HI; lia].
  - intros HP. split; [exact HP|]. intros j Hj. lia.
  - intros [] _ [_ H]. rewrite length_seq in H. exact H.
Qed.

(** The sum of a slot: the constant and the coefficients weighted by the inverse masks. *)
Definition slot_sum (ct : Cipher) (A : list (list Fp)) (Rinv : nat → nat → Fp) (j : nat) : Z :=
  val (constant_at ct j) + lsum (seq 0 (length (L ct))) (λ lid, val (nth j (nth lid A []) fp0) * val (Rinv lid j)).

(** What a layer has in a slot. *)
Definition layer_holds (pk : PubKey) (key : Fp) (R Rinv : nat → nat → Fp) (lid : nat) (l : Layer) (j : nat) : Prop :=
  fp_ok (R lid j) ∧ fp_mul (R lid j) (Rinv lid j) = fp_from_u64 1 ∧ fp_ok (Rinv lid j) ∧
  match rule l with
  | BASE => prf_mask pk key (seed l) (Z.of_nat j) = Ok (R lid j)
  | PROD => R lid j = fp_mul (R (Z.to_nat (pa l)) j) (R (Z.to_nat (pb l)) j) ∧
      Rinv lid j = fp_mul (Rinv (Z.to_nat (pa l)) j) (Rinv (Z.to_nat (pb l)) j)
  | RULE_other _ => False
  end.

(** The statement of a zero proof. *)
Definition key_bound_statement (pk : PubKey) (ct : Cipher) (A : list (list Fp)) (ab : option AmountBinding)
    (key : Fp) (R Rinv : nat → nat → Fp) : Prop :=
  let bases := base_layer_indices ct in
  let amount_idx := (1 + 2 * (length bases * slots ct))%nat in
  (fp_ok key ∧ commits (committed 0) key) ∧
  (∀ lid l j, L ct !! lid = Some l → (j < slots ct)%nat → layer_holds pk key R Rinv lid l j) ∧
  (∀ b lid j, bases !! b = Some lid → (j < slots ct)%nat →
    commits (committed (1 + 2 * (b * slots ct + j))) (R lid j) ∧ commits (committed (2 + 2 * (b * slots ct + j))) (Rinv lid j)) ∧
  (∀ j, (j < slots ct)%nat → ∃ z, - 2 ^ 240 < z < 2 ^ 240 ∧ cong P z (slot_sum ct A Rinv j) ∧
    match ab with None => z = 0 | Some _ => cong scL (value_of s (committed amount_idx)) z end) ∧
  match ab with
  | Some b => (0 < range_bits b)%nat → ∃ x, 0 ≤ x < 2 ^ Z.of_nat (range_bits b) ∧ cong scL (value_of s (committed amount_idx)) x
  | None => True
  end.

Lemma weighted_sum {W : Type} (d : W) limbs_of' A (w : wiring W) nL j (F : nat → Fp) :
  weighted (slot_layers d limbs_of' A w nL j) (F <$> seq 0 nL) = lsum (seq 0 nL) (λ lid, val (nth j (nth lid A []) fp0) * val (F lid)).
Proof.
  unfold weighted, slot_layers. induction (seq 0 nL) as [|lid l IH]; [done|]. cbn [fmap list_fmap zip zip_with]. rewrite !lsum_cons. cbn [fst snd].
  f_equal. exact IH.
Qed.

Lemma all_slots_done pk ct reject key w : (∀ i l, L ct !! i = Some l → layer_fine i l) →
  bases_done pk ct reject key (length (slots_of (base_layer_indices ct) (slots ct))) w →
  prods_done ct reject (length (slots_of (prod_layer_indices ct) (slots ct))) w →
  ∀ lid l j, L ct !! lid = Some l → (j < slots ct)%nat →
    key_slot_ok reject (slot_at w lid j) ∧ layer_holds pk key (mask_at w) (inverse_at w) lid l j.
Proof.
  intros Hf Hb Hp lid l j Hl Hj.
  assert (K : key_slot_ok reject (slot_at w lid j) →
    match rule l with BASE => prf_mask pk key (seed l) (Z.of_nat j) = Ok (mask_at w lid j)
    | PROD => mask_at w lid j = fp_mul (mask_at w (Z.to_nat (pa l)) j) (mask_at w (Z.to_nat (pb l)) j) ∧
        inverse_at w lid j = fp_mul (inverse_at w (Z.to_nat (pa l)) j) (inverse_at w (Z.to_nat (pb l)) j)
    | RULE_other _ => False end → key_slot_ok reject (slot_at w lid j) ∧ layer_holds pk key (mask_at w) (inverse_at w) lid l j).
  { intros (Fr & Fi & Li & E) H. split; [by split|]. destruct Fr as [x Hx], Fi as [y Hy].
    split; [exact (rep_ok _ _ (element_fp _ _ _ Hx))|]. split; [exact E|]. split; [exact (rep_ok _ _ (element_fp _ _ _ Hy))|exact H]. }
  destruct (Hf lid l Hl) as [R|(R & _ & _)].
  - assert (Hin : lid ∈ base_layer_indices ct) by (rewrite bases_indices; apply indices_elem; exists l; split; [done|cbn; unfold is_base; by rewrite R]).
    apply list_elem_of_lookup_1 in Hin as [b Hlb]. pose proof (slots_of_lookup _ (slots ct) b lid j Hlb Hj) as Hs.
    destruct (Hb _ lid j (lookup_lt_Some _ _ _ Hs) Hs) as [H1 (H2 & _)]. apply K; [exact H1|]. rewrite R. by rewrite (layer_at_lookup _ _ _ Hl) in H2.
  - assert (Hin : lid ∈ prod_layer_indices ct) by (rewrite prods_indices; apply indices_elem; exists l; split; [done|cbn; unfold is_prod; by rewrite R]).
    apply list_elem_of_lookup_1 in Hin as [b Hlb]. pose proof (slots_of_lookup _ (slots ct) b lid j Hlb Hj) as Hs.
    destruct (Hp _ lid j (lookup_lt_Some _ _ _ Hs) Hs) as [H1 H2]. cbv zeta in H2. apply K; [exact H1|]. rewrite R. by rewrite (layer_at_lookup _ _ _ Hl) in H2.
Qed.

Lemma key_bound_forces pk sk_ptr ct A r_ptr rinv_ptr ab force strict :
  Z.of_nat (length (L ct)) ≤ 2 ^ 40 → Forall (λ l, 0 ≤ pa l ∧ 0 ≤ pb l) (L ct) → Forall (Forall fp_ok) A → Forall fp_ok (c0 ct) →
  forces s 0 (1 + 2 * (length (base_layer_indices ct) * slots ct) + amounts ab) True
    (build_key_bound_circuit pk sk_ptr ct A (base_layer_indices ct) r_ptr rinv_ptr ab force strict)
    (λ w, ∃ key, key_bound_statement pk ct A ab key (mask_at w) (inverse_at w)).
Proof.
  intros HL Hpos HA Hc0. unfold build_key_bound_circuit. cbv zeta. set (reject := force || _). rewrite <- length_slots_of. set (nb := length (slots_of _ _)).
  apply forces_lift_bind. intros [] [EA Hf]%circuit_guards_fine.
  eapply forces_bind; [apply commit_key_forces|]. intros [key_fp kb]. cbn [fst snd].
  eapply forces_bind; [eapply forces_weaken; [apply (bases_forces pk ct reject (fp_at (bound_var kb)) sk_ptr r_ptr rinv_ptr key_fp kb 1); [apply wshape_replicate|done]|..]|].
  { intros [_ [HK _]]. by split. } { intros w _ H. exact H. }
  intros w1. fold nb.
  eapply forces_bind; [eapply forces_weaken; [apply (prods_forces pk ct reject (fp_at (bound_var kb)) Hf Hpos (1 + 2 * nb) w1)|..]|].
  { intros [_ H]. exact H. } { intros w _ H. exact H. }
  intros w. eapply forces_bind; [apply commit_amount_forces|]. intros am.
  eapply forces_bind; [eapply forces_weaken; [apply (relations_forces no_key_slot rinv_limbs ct A w (length (L ct)) _ am (inverse_at w) HL HA Hc0)|..]|].
  { intros (((_ & _) & Hb & Hp) & _) lid j Hl Hj. destruct (lookup_lt_is_Some_2 _ _ Hl) as [l El].
    destruct (all_slots_done pk ct reject _ w Hf Hb Hp lid l j El Hj) as [(_ & _ & Hlimbs & _) _]. exact Hlimbs. }
  { intros u _ H. exact H. }
  intros []. apply forces_ret. intros (((((_ & HK & Ck) & _) & Hb & Hp) & Ham) & Hrel).
  exists (fp_at (bound_var kb)). destruct HK as [kx Hkx]. cbn [fst snd] in *.
  unfold key_bound_statement. cbv zeta. rewrite <- length_slots_of. fold nb.
  split; [split; [exact (rep_ok _ _ (element_fp _ _ _ Hkx))|exact Ck]|].
  split; [intros lid l j Hl Hj; exact (proj2 (all_slots_done pk ct reject _ w Hf Hb Hp lid l j Hl Hj))|].
  split.
  { intros b lid j Hlb Hj. pose proof (slots_of_lookup _ (slots ct) b lid j Hlb Hj) as Hs. exact (proj2 (proj2 (Hb _ lid j (lookup_lt_Some _ _ _ Hs) Hs))). }
  split.
  { intros j Hj. destruct (Hrel j Hj) as (z & Bz & Ez & Pz). exists z. split; [exact Bz|]. rewrite weighted_sum in Pz. split; [exact Pz|].
    destruct ab as [b|]; cbn [amount_held] in Ham.
    - destruct Ham as [[v ->] _]. exact Ez.
    - subst am. cbn [amount_value] in Ez. pose proof scL_large. apply (cong_0_small scL); [by symmetry|lia]. }
  destruct ab as [b|]; [|done]. exact (proj2 Ham).
Qed.
End Sound.
