(* ===== verification/ZeroSound.v ===== *)
(** * What a zero proof says of a ciphertext

    A solution of the constraints that the verifier builds for a ciphertext holds
    a key, and every secret key with that circuit key decrypts the ciphertext to
    zero, or to the committed amount. *)

From S2P Require Import Prelude Primes Field Hash Rng CtSafe Types Matrix Lpn Fe25519 Scalar25519 ScalarField Ristretto Msm Transcript InnerProduct R1cs R1csAlgebra Decrypt Reduce Compact Sample Coeffs Encrypt Gadgets GadgetsSound Circuit Wiring CircuitSound.

#[local] Opaque scL zinv fp_mul fp_add fp_inv.

(** ** The masks of a key *)

Lemma prf_mask_R pk sk key sd j R : circuit_prf_key_for_profile sk (circuit_prf_profile pk) = Ok key → prf_mask pk key sd j = Ok R →
  fp_ok R → val R ≠ 0 → circuit_prf_R pk sk sd j = Ok R.
Proof.
  intros Hk HR Ho Hn. unfold prf_mask in HR. apply res_bind_Ok in HR as (st & Hst & HR). apply res_bind_Ok in HR as (n & Hn' & HR).
  apply res_bind_Ok in HR as (st' & Hst' & HR). injection HR as HR. unfold circuit_prf_R. cbv zeta. rewrite Hk, Ok_bind, Hst, Ok_bind, Hn', Ok_bind, Hst', Ok_bind.
  rewrite HR. destruct (circuit_prf_profile pk); [|done..]. rewrite ct_lemmas.fp_is_nonzero_spec by apply Ho.
  rewrite (proj2 (Z.eqb_neq _ _) Hn). done.
Qed.

Lemma same_inverse m x y i : cong m (x * y) 1 → cong m (x * i) 1 → cong m y i.
Proof.
  intros E1 E2. transitivity (y * (x * i)); [rewrite E2; apply cong_eq; ring|]. transitivity (i * (x * y)); [apply cong_eq; ring|]. rewrite E1. apply cong_eq. ring.
Qed.

Lemma inverse_unique a b : fp_ok a → fp_ok b → fp_mul a b = fp_from_u64 1 → val a ≠ 0 ∧ fp_inv a = b.
Proof.
  intros Ha Hb E. pose proof (rep_mul _ _ _ _ (rep_val a Ha) (rep_val b Hb)) as Hm. rewrite E in Hm. pose proof (rep_u64 1 ltac:(done)) as H1.
  assert (E1 : cong P (val a * val b) 1) by (rewrite <- (proj2 Hm); exact (proj2 H1)).
  assert (Hn : val a ≠ 0). { intros E0. rewrite E0 in E1. by vm_compute in E1. }
  split; [exact Hn|]. pose proof (rep_inv_pow a _ (rep_val a Ha)) as Hi. set (i := val a ^ (P - 2)) in *.
  pose proof (fp_mul_inv a Ha Hn) as Ei. pose proof (rep_mul _ _ _ _ (rep_val a Ha) Hi) as Hmi. rewrite Ei in Hmi.
  assert (E2 : cong P (val a * i) 1) by (rewrite <- (proj2 Hmi); exact (proj2 H1)).
  apply (rep_inj _ _ i); [exact Hi|]. eapply rep_cong; [exact (rep_val b Hb)|].
  exact (same_inverse P (val a) (val b) i E1 E2).
Qed.

Lemma mapR_tabulate {B} (f : Z → res B) (g : nat → B) n : (∀ j, (j < n)%nat → f (Z.of_nat j) = Ok (g j)) → mapR f (zseq 0 n) = Ok (tabulate n g).
Proof.
  intros H. apply mapR_Ok. apply Forall2_same_length_lookup_2; [by rewrite length_zseq, length_tabulate|]. intros j x y Hx Hy.
  pose proof (lookup_lt_Some _ _ _ Hx) as Hj. rewrite length_zseq in Hj. rewrite lookup_zseq in Hx by done. injection Hx as <-.
  unfold tabulate in Hy. rewrite list_lookup_fmap, lookup_seq_lt in Hy by done. injection Hy as <-. rewrite Z.add_0_l. by apply H.
Qed.

Section Key.
Context {F : Fuel} (pk : PubKey) (sk : SecKey) (ct : Cipher) (key : Fp) (R Rinv : nat → nat → Fp).
Let Sl := slots ct.
Context (Hkey : circuit_prf_key_for_profile sk (circuit_prf_profile pk) = Ok key) (Hwf : parents_words (L ct)) (HS : is_valid_cipher_shape ct = true).
Context (Hnat : dec_has_native_src pk ct = false) (HPC : ∀ l, l ∈ L ct → rule l = BASE → R_PC l ≠ []).
Context (Hh : ∀ lid l j, L ct !! lid = Some l → (j < Sl)%nat → layer_holds pk key R Rinv lid l j).

Lemma base_masks lid l : L ct !! lid = Some l → rule l = BASE → base_mask pk sk Sl STANDARD l = Ok (tabulate Sl (R lid)).
Proof.
  intros Hl Hr. pose proof (list_elem_of_lookup_2 _ _ _ Hl) as Hin. unfold base_mask. cbv zeta.
  assert (Hn : ru_src pk l = false).
  { apply not_true_iff_false. intros Hs. apply not_true_iff_false in Hnat. apply Hnat. unfold dec_has_native_src. apply existsb_exists. exists l.
    split; [by apply list_elem_of_In|]. by rewrite (bool_decide_true _ Hr), Hs. }
  rewrite Hn. cbn [andb]. rewrite bool_decide_false by done. specialize (HPC l Hin Hr). destruct (R_PC l) as [|c cs]; [done|]. cbn [length Nat.eqb negb].
  apply mapR_tabulate. intros j Hj. destruct (Hh lid l j Hl Hj) as (Fr & E & Fi & H). rewrite Hr in H.
  destruct (inverse_unique _ _ Fr Fi E) as [Hnz _]. exact (prf_mask_R pk sk key _ _ _ Hkey H Fr Hnz).
Qed.

Lemma Op_mul_tab f g : Op.mul (tabulate Sl f) (tabulate Sl g) = Ok (tabulate Sl (λ j, fp_mul (f j) (g j))).
Proof.
  unfold Op.mul. rewrite !length_tabulate, Nat.eqb_refl. f_equal. unfold tabulate. induction (seq 0 Sl) as [|j l IH]; [done|].
  cbn [fmap list_fmap zip_with]. f_equal. exact IH.
Qed.

Lemma tabulate_ext {A} n (f g : nat → A) : (∀ j, (j < n)%nat → f j = g j) → tabulate n f = tabulate n g.
Proof. intros H. unfold tabulate. apply list_fmap_ext. intros i j [-> Hj]%lookup_seq. by apply H. Qed.

Lemma all_masks : ∀ lid l, L ct !! lid = Some l → Mask pk sk STANDARD Sl (L ct) lid (tabulate Sl (R lid)).
Proof.
  intros lid. induction lid as [lid IH] using lt_wf_ind. intros l Hl. pose proof (shape_dag ct HS Hwf) as Hd.
  destruct (decide (rule l = BASE)) as [Hr|Hr]; [exact (Mask_base _ _ _ _ _ _ _ _ Hl Hr (base_masks lid l Hl Hr))|].
  destruct (Hd lid l Hl Hr) as [Ha Hb].
  assert (HM : ∀ x, 0 ≤ x < Z.of_nat lid → Mask pk sk STANDARD Sl (L ct) (Z.to_nat x) (tabulate Sl (R (Z.to_nat x)))).
  { intros x Hx. destruct (lookup_lt_is_Some_2 (L ct) (Z.to_nat x)) as [lx Hlx]; [pose proof (lookup_lt_Some _ _ _ Hl); lia|]. apply (IH (Z.to_nat x) ltac:(lia) lx Hlx). }
  apply (Mask_prod _ _ _ _ _ _ l _ _ _ Hl Hr (HM _ Ha) (HM _ Hb)). rewrite Op_mul_tab. f_equal. apply tabulate_ext. intros j Hj.
  destruct (Hh lid l j Hl Hj) as (_ & _ & _ & H). destruct (rule l); [done| |done]. symmetry. apply H.
Qed.

Definition inverse_rows : list (list Fp) := (λ lid, tabulate Sl (Rinv lid)) <$> seq 0 (length (L ct)).

Lemma inverse_rows_ok : masks_ok pk sk STANDARD Sl (L ct) inverse_rows.
Proof.
  split; [unfold inverse_rows; by rewrite length_fmap, length_seq|]. intros lid Hlt. destruct (lookup_lt_is_Some_2 (L ct) lid Hlt) as [l Hl].
  exists (tabulate Sl (R lid)). split; [exact (all_masks lid l Hl)|]. unfold inverse_rows. rewrite list_lookup_fmap, lookup_seq_lt by done. cbn. f_equal.
  unfold mask_inv. apply tabulate_ext. intros j Hj. rewrite nth_tabulate by done. destruct (Hh lid l j Hl Hj) as (Fr & E & Fi & _).
  symmetry. by apply inverse_unique.
Qed.

(** Decryption with the key is the sum of the slot. *)
Lemma key_decrypts A : pubkey_wf pk → keys_ok sk → cipher_wf ct → is_cipher_compatible_with_pubkey pk ct = true →
  compute_layer_coeffs pk ct = Ok A →
  ∃ v, dec_values pk sk ct STANDARD = Ok v ∧ length v = Sl ∧ ∀ j, (j < Sl)%nat → nth j v fp0 ~~ slot_sum ct A Rinv j.
Proof.
  intros Hpk Hk Hcw HC HA. pose proof inverse_rows_ok as HM. exists (tabulate Sl (λ j, to_fp (plain pk inverse_rows ct j))).
  split.
  { apply dec_values_decrypts; [apply Hpk|exact Hk|exact Hcw|]. split; [split; [exact HC|by right]|].
    split; [apply length_tabulate|]. exists inverse_rows. split; [exact HM|]. intros j Hj. rewrite nth_tabulate by done. apply to_fp_rep. }
  split; [apply length_tabulate|]. intros j Hj. rewrite nth_tabulate by done. eapply rep_cong; [apply to_fp_rep|].
  destruct (fold_edges_coeffs pk ct HC) as [_ E]. rewrite E in HA. injection HA as <-. apply compatible_spec in HC as (_ & _ & _ & _ & HF).
  assert (Hes : Forall (edge_good pk (length (L ct)) Sl) (Types.E ct)) by (destruct Hcw as (_ & HW & _); unfold edge_good; by apply Forall_and).
  destruct (coeffs_fold pk _ _ (proj1 Hpk) _ Hes) as [_ Hc]. unfold plain, slot_sum. rewrite (esum_layers pk _ (length (L ct))).
  2:{ eapply Forall_impl; [exact Hes|]. intros e [[[? _] _] [? _]]. lia. }
  unfold fval at 1, constant_at. apply cong_add; [done|]. change (lsum (seq 0 (length (L ct))) ?f) with (lsum (seq 0 (length (L ct))) f).
  assert (EZ : ∀ f, lsum (seq 0 (length (L ct))) f = zsum (length (L ct)) f).
  { intros f. unfold lsum, zsum. induction (seq 0 (length (L ct))) as [|x l IH]; [done|]. cbn. by rewrite IH. }
  rewrite EZ. apply zsum_cong. intros lid Hlid. destruct (Hc lid j Hlid Hj) as [_ Ec]. unfold Sl in Ec |- *. rewrite Ec. apply cong_eq. f_equal.
  unfold fval, inverse_rows. rewrite (nth_lookup _ lid), list_lookup_fmap, lookup_seq_lt by done. cbn. by rewrite nth_tabulate.
Qed.
End Key.

(** ** Soundness *)

(** The amount that an assignment holds for the binding: zero without one, and in the range that the binding asks for. *)
Definition amount_held_by (s : Assignment) (ab : option AmountBinding) (idx : nat) (z : Z) : Prop :=
  match ab with
  | None => z = 0
  | Some b => - 2 ^ 240 < z < 2 ^ 240 ∧ cong scL (value_of s (committed idx)) z ∧ ((0 < range_bits b)%nat → 0 ≤ z < 2 ^ Z.of_nat (range_bits b))
  end.

(** Signed representatives below half of the order are unique. *)
Lemma signed_unique x y : cong scL x y → - 2 ^ 250 < x < 2 ^ 250 → - 2 ^ 250 < y < 2 ^ 250 → x = y.
Proof.
  intros E Hx Hy. assert (HL : 2 ^ 252 < scL) by (by vm_compute). cut (x - y = 0); [lia|]. apply (cong_0_small scL); [|lia].
  rewrite E. apply cong_eq. ring.
Qed.

Lemma coeffs_ok_of pk ct A : pubkey_wf pk → cipher_wf ct → is_cipher_compatible_with_pubkey pk ct = true → compute_layer_coeffs pk ct = Ok A → Forall (Forall fp_ok) A.
Proof.
  intros [Hg _] (_ & HW & _) HC HA. destruct (fold_edges_coeffs pk ct HC) as [_ E]. rewrite E in HA. injection HA as <-.
  apply compatible_spec in HC as (_ & _ & _ & _ & HF). assert (Hes : Forall (edge_good pk (length (L ct)) (slots ct)) (Types.E ct)) by (unfold edge_good; by apply Forall_and).
  destruct (coeffs_fold pk _ _ Hg _ Hes) as [[_ HR] _]. eapply Forall_impl; [exact HR|]. intros r [_ H]. exact H.
Qed.

(** C23. Soundness of the circuit of a zero proof, for any prover: for a ciphertext
    that is compatible with the public key, has no native layer and has mask
    commitments on its base layers, let an assignment of the wires solve the
    constraints that the verifier builds ([build_key_bound_circuit] without a secret
    key, under [ScalarRule::Wide]). Then there is an element of the field, the one
    that the commitment of the key holds, such that every secret key with that
    circuit key decrypts the ciphertext to zero in every slot; with an amount bound,
    to the amount that the assignment holds for its commitment, which is in the
    range asked for. The ciphertext may have any number of layers and slots. (That
    an accepted proof comes from a solution is the cryptographic assumption on the
    proofs, which is not part of this.) *)
Theorem zero_circuit_sound {F : Fuel} pk ct A ab force strict s w p :
  pubkey_wf pk → cipher_wf ct → is_cipher_compatible_with_pubkey pk ct = true → dec_has_native_src pk ct = false →
  (∀ l, l ∈ L ct → rule l = BASE → R_PC l ≠ []) → Z.of_nat (length (L ct)) ≤ 2 ^ 40 →
  match ab with Some b => (range_bits b ≤ 200)%nat | None => True end → compute_layer_coeffs pk ct = Ok A →
  build_key_bound_circuit pk None ct A (base_layer_indices ct) None None ab force strict (verification Wide) = Ok (w, p) →
  solves s (constraints_ p) →
  ∃ key, fp_ok key ∧ commits s (committed 0) key ∧ ∀ sk, keys_ok sk → circuit_prf_key_for_profile sk (circuit_prf_profile pk) = Ok key →
    ∃ v, dec_values pk sk ct STANDARD = Ok v ∧ length v = slots ct ∧
      ∀ j, (j < slots ct)%nat → ∃ z, nth j v fp0 ~~ z ∧ amount_held_by s ab (1 + 2 * (length (base_layer_indices ct) * slots ct)) z.
Proof.
  intros Hpk Hcw HC Hn HPC HL Hrb HA HB HS. pose proof (coeffs_ok_of pk ct A Hpk Hcw HC HA) as HAok.
  pose proof Hcw as (Hpar & HW & Hc0).
  assert (Hpos : Forall (λ l, 0 ≤ pa l ∧ 0 ≤ pb l) (L ct)) by (eapply Forall_impl; [exact Hpar|]; intros l [[? _] [? _]]; done).
  destruct (key_bound_forces s pk None ct A None None ab force strict HL Hpos HAok Hc0 (verification Wide) w p eq_refl eq_refl HB) as (_ & _ & ks & Ek & HF).
  cbn [constraints_ verification app] in Ek. rewrite Ek in HS. destruct (HF I HS) as (key & [Hk HK] & Hh & _ & Hz & Hr). clear HF.
  exists key. split; [exact Hk|]. split; [exact HK|]. intros sk Hsk Hkey. pose proof (compatible_shape pk ct HC) as HSh.
  destruct (key_decrypts pk sk ct key _ _ Hkey Hpar HSh Hn HPC Hh A Hpk Hsk Hcw HC HA) as (v & Ev & Lv & Hv).
  exists v. split; [exact Ev|]. split; [exact Lv|]. intros j Hj. destruct (Hz j Hj) as (z & Bz & Ez & Az). exists z.
  split; [eapply rep_cong; [exact (Hv j Hj)|by symmetry]|]. destruct ab as [b|]; [|exact Az]. split; [exact Bz|]. split; [exact Az|].
  intros Hb. destruct (Hr Hb) as (x & Hx & Ex). pose proof (Z.pow_le_mono_r 2 (Z.of_nat (range_bits b)) 200 ltac:(done) ltac:(lia)) as Hp.
  rewrite (signed_unique z x); [exact Hx|by rewrite <- Az|lia|lia].
Qed.

(** The sample key with the other profile. *)
Definition zero_pk : PubKey := mkPubKey (prm sample_pk) (canon_tag sample_pk) (Types.H sample_pk) (ubk sample_pk) (H_digest sample_pk) (omega_B sample_pk)
  (powg_B sample_pk) (circuit_prf_key_commit sample_pk) MIMC_X3_V6.

(** A constant of 42 and a bound amount, the wires those of a prover with the key zero. *)
Definition constant_ct : Cipher := mkCipher [] [] [mkFp 42 0] 1.
Definition bound_42 : option AmountBinding := Some (mkBinding 42 sc_zero 8).
Definition constant_run : res (wiring KeySlotVar * R1CSProver) :=
  build_key_bound_circuit zero_pk None constant_ct [] (base_layer_indices constant_ct) None None bound_42 false false (prover_new Wide).
(** The left and right wires of the run. *)
Definition constant_wires : list (Z * Z) :=
  Eval vm_compute in match constant_run with Ok (_, p) => (λ g, (sc_val (a_L g), sc_val (a_R g))) <$> gates_ p | _ => [] end.
Definition constant_assignment : Assignment :=
  let l i := (nth i constant_wires (0, 0)).1 in
  let r i := (nth i constant_wires (0, 0)).2 in
  mkAssignment l r (λ i, l i * r i) (λ i, if (i =? 1)%nat then 42 else 0) (λ i, reflexivity _).

Definition solvesb (s : Assignment) (cs : list Constraint) : bool := forallb (λ c, lc_of s (lc c) mod scL =? 0) cs.

Lemma solvesb_spec s cs : solvesb s cs = true → solves s cs.
Proof. unfold solvesb, solves. rewrite (forallb_Forall _ (λ c, cong scL (lc_of s (lc c)) 0)); [done|]. intros c. rewrite Z.eqb_eq. unfold cong. by rewrite Zmod_0_l. Qed.

(** What the verifier builds for the sample. *)
Definition constant_built : res (wiring KeySlotVar * R1CSProver) :=
  build_key_bound_circuit zero_pk None constant_ct [] (base_layer_indices constant_ct) None None bound_42 false false (verification Wide).
Definition constant_constraints : list Constraint := Eval vm_compute in match constant_built with Ok (_, p) => constraints_ p | _ => [] end.

Lemma constant_builds : match constant_built with Ok (_, p) => constraints_ p = constant_constraints | _ => False end.
Proof. vm_compute. reflexivity. Qed.

Lemma constant_built_eq :
  build_key_bound_circuit zero_pk None constant_ct [] (base_layer_indices constant_ct) None None bound_42 false false (verification Wide) = constant_built.
Proof. unfold constant_built. reflexivity. Qed.

#[local] Opaque constant_built.

Lemma constant_ct_ok : cipher_wf constant_ct ∧ is_cipher_compatible_with_pubkey zero_pk constant_ct = true.
Proof.
  split; [|vm_compute; reflexivity]. split; [constructor|]. split; [constructor|]. apply Forall_singleton. split; [split; unfold word; cbn; lia|reflexivity].
Qed.

Lemma zero_circuit_sound_witness : ∃ w p key, constant_built = Ok (w, p) ∧
  solves constant_assignment (constraints_ p) ∧ commits constant_assignment (committed 0) key ∧
  ∀ sk, keys_ok sk → circuit_prf_key_for_profile sk MIMC_X3_V6 = Ok key →
    ∃ v z, dec_values zero_pk sk constant_ct STANDARD = Ok v ∧ nth 0 v fp0 ~~ z ∧ 0 ≤ z < 256.
Proof.
  pose proof constant_builds as EB. destruct constant_built as [[w p]| |] eqn:E; [|destruct EB..].
  assert (HS : solves constant_assignment (constraints_ p)) by (rewrite EB; apply solvesb_spec; vm_compute; reflexivity).
  destruct (zero_circuit_sound zero_pk constant_ct [] bound_42 false false constant_assignment w p (conj (proj1 sample_pk_wf) eq_refl)
    (proj1 constant_ct_ok) (proj2 constant_ct_ok) eq_refl (λ l H, False_ind _ (proj1 (elem_of_nil l) H)) ltac:(cbn; lia) ltac:(cbn; lia) eq_refl (eq_trans constant_built_eq E) HS)
    as (key & _ & HK & HD).
  exists w, p, key. split; [reflexivity|]. split; [exact HS|]. split; [exact HK|]. intros sk H1 H2. destruct (HD sk H1 H2) as (v & Hv & _ & Hz).
  destruct (Hz 0%nat ltac:(constructor)) as (z & Ez & _ & _ & Hr). exists v, z. split; [exact Hv|]. split; [exact Ez|]. apply Hr. cbn. lia.
Defined.
