(* ===== verification/Shape.v ===== *)
(** * The shape of a circuit does not depend on the values

    A prover and the verifier's counting prover run the same operations.
    [mirrored] relates two computations that add the same constraints, the first
    on values, the second without; it also gives the commitments that are made and
    the size of what is added: gates, constraints, terms. *)

From S2P Require Import Prelude Primes Field Hash Rng CtSafe Types Lpn Fe25519 Scalar25519 ScalarField Ristretto Msm Transcript InnerProduct R1cs Decrypt Encrypt Gadgets Circuit Wiring.

#[local] Opaque scL zinv sc_val sc_mersenne_p sc_pow2_64 sc_from_u64 so_mul so_inv sc_add sc_sub fp_mul.

(** The second prover counts what the first holds. *)
Definition mirrors (p q : R1CSProver) : Prop :=
  values_ p = true ∧ values_ q = false ∧ gate_total_ q = length (gates_ p) ∧ commit_total_ q = length (committed_ p) ∧
  constraints_ q = constraints_ p ∧ prover_ops q = prover_ops p.

Definition terms (cs : list Constraint) : nat := sum_list_with (λ c, length (lc c)) cs.

(** [cs] commitments, [g] gates, [k] constraints and at most [t] terms. *)
Definition mirrored {A B} (cs : list CommittedVar) (g k t : Z) (m : M R1CSProver A) (m' : M R1CSProver B) (R : A → B → Prop) : Prop :=
  ∀ p q a p', mirrors p q → m p = Ok (a, p') → ∃ b q', m' q = Ok (b, q') ∧ mirrors p' q' ∧
    committed_ p' = committed_ p ++ cs ∧ Z.of_nat (length (gates_ p')) = Z.of_nat (length (gates_ p)) + g ∧
    (∃ ks, constraints_ p' = constraints_ p ++ ks ∧ Z.of_nat (length ks) = k ∧ Z.of_nat (terms ks) ≤ t) ∧ R a b.

Lemma terms_app a b : terms (a ++ b) = (terms a + terms b)%nat.
Proof. apply sum_list_with_app. Qed.

Lemma nothing (p : R1CSProver) : committed_ p = committed_ p ++ [] ∧ Z.of_nat (length (gates_ p)) = Z.of_nat (length (gates_ p)) + 0 ∧
  (∃ ks, constraints_ p = constraints_ p ++ ks ∧ Z.of_nat (length ks) = 0 ∧ Z.of_nat (terms ks) ≤ 0).
Proof. rewrite app_nil_r. split; [done|]. split; [lia|]. exists []. by rewrite app_nil_r. Qed.

Lemma mirrored_ret {A B} (a : A) (b : B) (R : A → B → Prop) : R a b → mirrored [] 0 0 0 (mret a) (mret b) R.
Proof. intros HR p q x p' HM E. injection E as <- <-. exists b, q. split; [done|]. split; [exact HM|]. destruct (nothing p) as (H1 & H2 & H3). by split_and!. Qed.

Lemma mirrored_bind {A B A' B'} c1 c2 g1 g2 k1 k2 t1 t2 (m : M R1CSProver A) (m' : M R1CSProver B) (f : A → M R1CSProver A') (f' : B → M R1CSProver B') R R' :
  mirrored c1 g1 k1 t1 m m' R → (∀ a b, R a b → mirrored c2 g2 k2 t2 (f a) (f' b) R') →
  mirrored (c1 ++ c2) (g1 + g2) (k1 + k2) (t1 + t2) (m ≫= f) (m' ≫= f') R'.
Proof.
  intros H K p q x p' HM E. unfold mbind, M_bind in E. destruct (m p) as [[a p1]| |] eqn:E1; [|discriminate..].
  destruct (H p q a p1 HM E1) as (b & q1 & F1 & HM1 & C1 & G1 & (ks1 & S1 & L1 & T1) & HR).
  destruct (K a b HR p1 q1 x p' HM1 E) as (y & q2 & F2 & HM2 & C2 & G2 & (ks2 & S2 & L2 & T2) & HR').
  exists y, q2. split; [unfold mbind, M_bind; by rewrite F1|]. split; [exact HM2|]. split; [by rewrite C2, C1, app_assoc|]. split; [lia|].
  split; [|exact HR']. exists (ks1 ++ ks2). split; [by rewrite S2, S1, app_assoc|]. rewrite length_app, terms_app. lia.
Qed.

Lemma mirrored_mono {A B} cs g k t t' (m : M R1CSProver A) (m' : M R1CSProver B) (R R' : A → B → Prop) :
  mirrored cs g k t m m' R → t ≤ t' → (∀ a b, R a b → R' a b) → mirrored cs g k t' m m' R'.
Proof.
  intros H Ht HR p q a p' HM E. destruct (H p q a p' HM E) as (b & q' & F & HM' & C & G & (ks & S & L & T) & HRab).
  exists b, q'. split; [exact F|]. split; [exact HM'|]. split; [exact C|]. split; [exact G|]. split; [exists ks; split_and!; [done..|lia]|by apply HR].
Qed.

Lemma mirrored_eq {A B} cs cs' g g' k k' t t' (m : M R1CSProver A) (m' : M R1CSProver B) (R : A → B → Prop) :
  mirrored cs g k t m m' R → cs = cs' → g = g' → k = k' → t ≤ t' → mirrored cs' g' k' t' m m' R.
Proof. intros H -> -> -> Ht. by eapply mirrored_mono. Qed.

Lemma mirrored_throw {A B} cs g k t e (m' : M R1CSProver B) (R : A → B → Prop) : mirrored cs g k t (lift (Throw e)) m' R.
Proof. intros p q a p' _ E. discriminate E. Qed.

Lemma mirrored_lift {A} (r : res A) : mirrored [] 0 0 0 (lift r) (lift r) (λ a b, a = b ∧ r = Ok a).
Proof.
  intros p q a p' HM E. destruct r as [x| |]; [|discriminate E..]. injection E as <- <-. exists x, q. split; [done|]. split; [exact HM|].
  destruct (nothing p) as (H1 & H2 & H3). by split_and!.
Qed.

Lemma mirrored_ops : mirrored [] 0 0 0 get_ops get_ops eq.
Proof.
  intros p q a p' HM E. injection E as <- <-. exists (prover_ops q), q. split; [done|]. split; [exact HM|].
  destruct (nothing p) as (H1 & H2 & H3). split_and!; [done..|]. symmetry. apply HM.
Qed.

Lemma mirrored_commit v b v' b' : mirrored [mkCommitted v b] 0 0 0 (commit v b) (commit v' b') eq.
Proof.
  intros p q a p' (V & V' & G & C & K & O) E. unfold commit, num_committed in E. rewrite V in E. injection E as <- <-.
  exists (committed (commit_total_ q)), (count_commit q). split; [unfold commit, num_committed; by rewrite V'|].
  split; [unfold mirrors; cbn; rewrite length_app; cbn; rewrite C; split_and!; [done..|lia|done|done]|]. split; [done|]. split; [cbn; lia|].
  split; [exact (proj2 (proj2 (nothing p)))|]. by rewrite C.
Qed.

Lemma mirrored_allocate a b a' b' : mirrored [] 1 0 0 (allocate a b) (allocate a' b') eq.
Proof.
  intros p q x p' (V & V' & G & C & K & O) E. unfold allocate, num_gates in E. rewrite V in E. injection E as <- <-.
  exists (mult_left (gate_total_ q), mult_right (gate_total_ q), mult_out (gate_total_ q)), (count_gate q). split; [unfold allocate, num_gates; by rewrite V'|].
  split; [unfold mirrors; cbn; rewrite length_app; cbn; rewrite G; split_and!; [done..|lia|done|done|done]|].
  split; [cbn; by rewrite app_nil_r|]. split; [cbn; rewrite length_app; cbn; lia|]. split; [exact (proj2 (proj2 (nothing p)))|]. by rewrite G.
Qed.

Lemma mirrored_constrain l : mirrored [] 0 1 (Z.of_nat (length l)) (constrain l) (constrain l) eq.
Proof.
  intros p q x p' (V & V' & G & C & K & O) E. injection E as <- <-. exists tt, (push_constraint q (mkConstraint l)). split; [done|].
  split; [unfold mirrors; cbn; rewrite K; split_and!; done|]. split; [cbn; by rewrite app_nil_r|]. split; [cbn; lia|].
  split; [|done]. exists [mkConstraint l]. split; [done|]. split; [done|]. unfold terms. cbn. lia.
Qed.

Lemma length_lc_sub a b : length (lc_sub a b) = (length a + length b)%nat.
Proof. unfold lc_sub. by rewrite length_app, length_fmap. Qed.

Lemma length_lc_add a b : length (lc_add a b) = (length a + length b)%nat.
Proof. apply length_app. Qed.

Lemma mirrored_multiply ll lr : mirrored [] 1 2 (Z.of_nat (length ll + length lr + 2)) (multiply ll lr) (multiply ll lr) eq.
Proof.
  intros p q x p' (V & V' & G & C & K & O) E. unfold multiply, num_gates in E. rewrite V in E.
  destruct (eval_lc p ll) as [aL| |]; [|discriminate E..]. destruct (eval_lc p lr) as [aR| |]; [|discriminate E..]. injection E as <- <-.
  eexists _, _. split; [unfold multiply, num_gates; rewrite V'; reflexivity|]. rewrite G.
  split; [unfold mirrors; cbn; rewrite K, length_app; cbn; split_and!; [done..|lia|done|done|done]|].
  split; [cbn; by rewrite app_nil_r|]. split; [cbn; rewrite length_app; cbn; lia|]. split; [|done]. cbn.
  eexists [_; _]. split; [by rewrite <- app_assoc|]. split; [done|]. unfold terms. cbn [sum_list_with lc]. rewrite !length_lc_sub. cbn. lia.
Qed.

(** ** The gadgets *)

Lemma length_lc_var v : length (lc_var v) = 1%nat.
Proof. done. Qed.

Lemma length_lc_term v c : length (lc_term v c) = 1%nat.
Proof. done. Qed.

#[local] Opaque lc_var lc_term lc_sub lc_add.

(** The lengths of combinations. *)
Ltac lengths := repeat rewrite ?length_lc_sub, ?length_lc_add, ?length_lc_var, ?length_lc_term; cbn [length]; lia.

Lemma mirrored_constrain_n n l : Z.of_nat (length l) ≤ n → mirrored [] 0 1 n (constrain l) (constrain l) eq.
Proof. intros H. exact (mirrored_mono _ _ _ _ _ _ _ _ _ (mirrored_constrain l) H (λ a b E, E)). Qed.

Lemma mirrored_multiply_n n ll lr : Z.of_nat (length ll + length lr + 2) ≤ n → mirrored [] 1 2 n (multiply ll lr) (multiply ll lr) eq.
Proof. intros H. exact (mirrored_mono _ _ _ _ _ _ _ _ _ (mirrored_multiply ll lr) H (λ a b E, E)). Qed.

(** A constraint of [n] terms; a multiplication with [n] terms. *)
Ltac con n := apply (mirrored_constrain_n n); lengths.
Ltac mul n := apply (mirrored_multiply_n n); lengths.

(** One step of both computations; the results of the operations are equal. *)
Ltac mstep lem := eapply mirrored_bind; [lem|].
Ltac mdone := apply mirrored_ret.
Ltac mstart := eapply mirrored_eq.

Lemma mirrored_range_loop v v' bits : ∀ reconstruction pw,
  mirrored [] (Z.of_nat (length bits)) (2 * Z.of_nat (length bits)) (4 * Z.of_nat (length bits)) (range_loop v bits reconstruction pw) (range_loop v' bits reconstruction pw)
    (λ a b, a = b ∧ length a = (length reconstruction + length bits)%nat).
Proof.
  induction bits as [|i bits IH]; intros rc pw; cbn [range_loop length].
  - mdone. split; [done|lia].
  - mstart.
    { mstep ltac:(apply mirrored_allocate). intros [[l r] o] ? <-. mstep ltac:(con 1). intros [] [] _.
      mstep ltac:(con 3). intros [] [] _. mstep ltac:(apply mirrored_ops). intros ops ? <-.
      eapply mirrored_mono; [apply (IH (lc_add rc (lc_term l pw)) (so_mul ops pw (sc_from_u64 2)))|apply Z.le_refl|].
      intros a b [E HL]. split; [exact E|]. rewrite HL. lengths. }
    all: first [reflexivity|lengths].
Qed.

Lemma mirrored_range_check v x x' n : mirrored [] (Z.of_nat n) (2 * Z.of_nat n + 1) (5 * Z.of_nat n + 1) (range_check v x n) (range_check v x' n) eq.
Proof.
  unfold range_check. destruct (negb _); [apply mirrored_throw|]. mstart.
  { mstep ltac:(apply mirrored_range_loop). intros l ? [<- HL]. eapply (mirrored_mono _ _ _ _ (Z.of_nat n + 1)); [apply mirrored_constrain|rewrite length_lc_sub, HL, length_seq, length_lc_var; cbn; lia|done]. }
  all: rewrite ?length_seq; first [reflexivity|lia].
Qed.

Lemma mirrored_reject v x x' : mirrored [] 1 2 5 (reject_mersenne_modulus_alias v x) (reject_mersenne_modulus_alias v x') eq.
Proof.
  unfold reject_mersenne_modulus_alias. mstart.
  { mstep ltac:(apply mirrored_ops). intros ops ? <-. mstep ltac:(apply mirrored_allocate). intros [[d j] o] ? <-.
    mstep ltac:(con 3). intros [] [] _. con 2. }
  all: first [reflexivity|lengths].
Qed.

(** Once per canonical element. *)
Definition if_ (c : bool) (n : Z) : Z := if c then n else 0.

Lemma mirrored_if (c : bool) m m' g k t : mirrored [] g k t m m' eq → mirrored [] (if_ c g) (if_ c k) (if_ c t) (if c then m else mret tt) (if c then m' else mret tt) eq.
Proof. destruct c; [done|]. intros _. by apply mirrored_ret. Qed.

Lemma mirrored_limbs v x x' c : mirrored [] (129 + if_ c 1) (257 + if_ c 2) (640 + if_ c 5) (limbs v x c) (limbs v x' c) eq.
Proof.
  unfold limbs. mstart.
  { mstep ltac:(apply mirrored_allocate). intros [[x0 ?] ?] ? <-. mstep ltac:(apply mirrored_allocate). intros [[x1 ?] ?] ? <-.
    mstep ltac:(con 3). intros [] [] _. mstep ltac:(apply mirrored_range_check). intros [] [] _. mstep ltac:(apply mirrored_range_check). intros [] [] _.
    mstep ltac:(apply mirrored_if, mirrored_reject). intros [] [] _. by apply mirrored_ret. }
  all: first [reflexivity|lengths].
Qed.

(** The wire of a result. *)
Definition same_var (r r' : FpMulResult) : Prop := mul_var r = mul_var r'.

Lemma mirrored_fp_mul a x x' b y y' c : mirrored [] (458 + if_ c 3) (913 + if_ c 6) (2273 + if_ c 15) (fp_mul_gadget a x b y c) (fp_mul_gadget a x' b y' c) same_var.
Proof.
  unfold fp_mul_gadget. mstart.
  { mstep ltac:(apply mirrored_limbs). intros [a0 a1] ? <-. mstep ltac:(apply mirrored_limbs). intros [b0 b1] ? <-. mstep ltac:(apply mirrored_ops). intros ops ? <-.
    mstep ltac:(mul 4). intros [[? ?] p00] ? <-. mstep ltac:(mul 4). intros [[? ?] p01] ? <-.
    mstep ltac:(mul 4). intros [[? ?] p10] ? <-. mstep ltac:(mul 4). intros [[? ?] p11] ? <-. cbv zeta.
    mstep ltac:(apply mirrored_allocate). intros [[cv ?] ?] ? <-. mstep ltac:(apply mirrored_allocate). intros [[qv ?] ?] ? <-.
    mstep ltac:(mul 4). intros [[? ?] qp] ? <-. mstep ltac:(con 6). intros [] [] _.
    mstep ltac:(apply mirrored_range_check). intros [] [] _. mstep ltac:(apply mirrored_if, mirrored_reject). intros [] [] _.
    mstep ltac:(apply mirrored_range_check). intros [] [] _. by apply mirrored_ret. }
  all: destruct c; unfold if_; first [reflexivity|lengths].
Qed.

Lemma mirrored_cube v x x' c : mirrored [] (916 + if_ c 6) (1826 + if_ c 12) (4546 + if_ c 30) (fp_cube_gadget v x c) (fp_cube_gadget v x' c) same_var.
Proof.
  unfold fp_cube_gadget. mstart.
  { mstep ltac:(apply mirrored_fp_mul). intros [x2 v2] [x2' v2'] E. unfold same_var in E. cbn in E. subst x2'. apply mirrored_fp_mul. }
  all: destruct c; unfold if_; first [reflexivity|lia].
Qed.

Lemma mirrored_fifth v x x' c : mirrored [] (1374 + if_ c 9) (2739 + if_ c 18) (6819 + if_ c 45) (fp_fifth_gadget v x c) (fp_fifth_gadget v x' c) same_var.
Proof.
  unfold fp_fifth_gadget. mstart.
  { mstep ltac:(apply mirrored_fp_mul). intros [x2 v2] [x2' v2'] E. unfold same_var in E. cbn in E. subst x2'.
    mstep ltac:(apply mirrored_fp_mul). intros [x4 v4] [x4' v4'] E. unfold same_var in E. cbn in E. subst x4'. apply mirrored_fp_mul. }
  all: destruct c; unfold if_; first [reflexivity|lia].
Qed.

(** The wires of limbs. *)
Definition same_limbs (l l' : FpLimbs) : Prop := x0_var l = x0_var l' ∧ x1_var l = x1_var l'.

Lemma mirrored_decompose v x x' c : mirrored [] (129 + if_ c 1) (257 + if_ c 2) (640 + if_ c 5) (fp127_decompose v x c) (fp127_decompose v x' c) same_limbs.
Proof.
  unfold fp127_decompose. mstart.
  { mstep ltac:(apply mirrored_limbs). intros [x0 x1] ? <-. by apply mirrored_ret. }
  all: first [reflexivity|lia].
Qed.

Definition same_bound (r r' : BoundPcResult) : Prop := bound_var r = bound_var r' ∧ same_limbs (bound_limbs r) (bound_limbs r').

Lemma mirrored_bind_pc v x x' c : mirrored [] (131 + if_ c 1) (260 + if_ c 2) (647 + if_ c 5) (bind_pc_value v x c) (bind_pc_value v x' c) same_bound.
Proof.
  unfold bind_pc_value. cbv zeta. mstart.
  { mstep ltac:(apply mirrored_allocate). intros [[bl br] bo] ? <-. mstep ltac:(con 1). intros [] [] _.
    mstep ltac:(con 3). intros [] [] _. mstep ltac:(apply mirrored_allocate). intros [[xv ?] ?] ? <-.
    mstep ltac:(con 3). intros [] [] _. mstep ltac:(apply mirrored_decompose). intros l l' HL. apply mirrored_ret. split; [done|exact HL]. }
  all: first [reflexivity|lengths].
Qed.
