(* ===== verification/CircuitShape.v ===== *)
(** * The shape of the key-bound circuit

    The prover and the verifier build the same constraints, and their number is a
    function of the numbers of layers and slots. *)

From S2P Require Import Prelude Primes Field Hash Rng CtSafe Types Lpn Fe25519 Scalar25519 ScalarField Ristretto Msm Transcript InnerProduct R1cs Decrypt Encrypt Gadgets Circuit Wiring Shape.

#[local] Opaque scL zinv sc_val sc_mersenne_p sc_pow2_64 sc_from_u64 so_mul so_inv sc_add sc_sub fp_mul fp_add lc_var lc_term lc_sub lc_add
  sc_from_fp_signed derive_rho derive_r_alpha sc_reduce256 circuit_prf_challenge circuit_prf_round_constant.

(** ** Loops *)

Lemma mirrored_foldM {A A' B} (f : A → B → M R1CSProver A) (f' : A' → B → M R1CSProver A') (cs : B → list CommittedVar) g k t (R : A → A' → Prop) l : ∀ a a',
  (∀ b a a', b ∈ l → R a a' → mirrored (cs b) g k t (f a b) (f' a' b) R) → R a a' →
  mirrored (l ≫= cs) (Z.of_nat (length l) * g) (Z.of_nat (length l) * k) (Z.of_nat (length l) * t) (foldM f l a) (foldM f' l a') R.
Proof.
  induction l as [|b l IH]; intros a a' H HR; cbn [foldM length].
  - by apply mirrored_ret.
  - mstart; [eapply mirrored_bind; [apply H; [by constructor|exact HR]|intros x x' Hx; apply IH; [intros c y y' Hc; apply H; by constructor|exact Hx]]|..];
      [reflexivity|lia..].
Qed.

Lemma mirrored_lift2 {A B} (r : res A) (r' : res B) (R : A → B → Prop) : (∀ a, r = Ok a → ∃ b, r' = Ok b ∧ R a b) → mirrored [] 0 0 0 (lift r) (lift r') R.
Proof.
  intros H p q a p' HM E. destruct r as [x| |]; [|discriminate E..]. destruct (H x eq_refl) as (b & Eb & HR). injection E as <- <-. exists b, q.
  split; [unfold lift; by rewrite Eb|]. split; [exact HM|]. destruct (nothing p) as (H1 & H2 & H3). by split_and!.
Qed.

(** ** Wirings with the same wires *)

Definition same_wiring {A} (R : A → A → Prop) (w w' : wiring A) : Prop := Forall2 (Forall2 R) w w'.

Lemma same_set {A} (R : A → A → Prop) w w' lid j x x' : same_wiring R w w' → R x x' → same_wiring R (set_wire w lid j x) (set_wire w' lid j x').
Proof.
  intros H Hx. unfold set_wire. revert lid. induction H as [|row row' w w' Hr H IH]; intros [|lid]; cbn; constructor; try done; [|by apply IH].
  by apply Forall2_insert.
Qed.

Lemma same_at {A} (R : A → A → Prop) d w w' lid j : same_wiring R w w' → R d d → R (wire_at d w lid j) (wire_at d w' lid j).
Proof.
  intros H Hd. unfold wire_at. revert lid. induction H as [|row row' w w' Hr H IH]; intros [|lid]; cbn [nth]; [by destruct j..| |apply IH].
  clear IH. revert j. induction Hr; intros [|j]; cbn [nth]; auto.
Qed.

Lemma same_replicate {A} (R : A → A → Prop) d n m : R d d → same_wiring R (replicate n (replicate m d)) (replicate n (replicate m d)).
Proof. intros Hd. apply Forall2_replicate, Forall2_replicate, Hd. Qed.

Definition same_key_slot (k k' : KeySlotVar) : Prop := r_var k = r_var k' ∧ rinv_var k = rinv_var k' ∧ same_limbs (rinv_limbs k) (rinv_limbs k').

Lemma same_no_slot : same_key_slot no_key_slot no_key_slot.
Proof. done. Qed.

(** ** The PRF *)

Lemma mirrored_sum kf kf' kb kb' slc sv sv' sf sf' c out out' : bound_var kb = bound_var kb' → length slc = 1%nat →
  match out, out' with None, None => True | Some o, Some o' => o.1 = o'.1 | _, _ => False end →
  mirrored [] (match out with None => 6 | Some _ => 5 end) (match out with None => 11 | Some _ => 10 end) (match out with None => 27 | Some _ => 25 end)
    (constrain_add_key_const kf kb slc sv sf c out) (constrain_add_key_const kf' kb' slc sv' sf' c out') (λ o o', o.1 = o'.1).
Proof.
  intros HK HL HO. unfold constrain_add_key_const. cbv zeta. rewrite <- HK. mstart.
  { eapply mirrored_bind with (R := λ o o', o.1 = o'.1) (c1 := []) (g1 := match out with None => 1 | Some _ => 0 end) (k1 := match out with None => 1 | Some _ => 0 end)
      (t1 := match out with None => 2 | Some _ => 0 end).
    - destruct out as [o|], out' as [o'|]; [by apply mirrored_ret|done|done|]. mstart.
      { mstep ltac:(apply mirrored_allocate). intros [[a b] ?] ? <-. mstep ltac:(con 2). intros [] [] _. by apply mirrored_ret. }
      all: reflexivity || lia.
    - intros [ov oval] [ov' oval'] HE. cbn [fst] in HE. subst ov'. mstep ltac:(apply mirrored_ops). intros ops ? <-.
      mstep ltac:(apply mirrored_allocate). intros [[q ?] ?] ? <-. mstep ltac:(mul 4). intros [[? ?] qp] ? <-.
      mstep ltac:(apply (mirrored_constrain_n 5); repeat rewrite ?length_lc_sub, ?length_lc_add, ?length_lc_var, ?length_lc_term; lia). intros [] [] _.
      mstep ltac:(apply mirrored_range_check). intros [] [] _. by apply mirrored_ret. }
  all: destruct out; reflexivity || lia.
Qed.

Definition power_gates (profile : CircuitPrfProfile) (c : bool) : Z := match profile with MIMC_X3_V6 => 916 + if_ c 6 | _ => 1374 + if_ c 9 end.
Definition power_constraints (profile : CircuitPrfProfile) (c : bool) : Z := match profile with MIMC_X3_V6 => 1826 + if_ c 12 | _ => 2739 + if_ c 18 end.
Definition power_terms (profile : CircuitPrfProfile) (c : bool) : Z := match profile with MIMC_X3_V6 => 4546 + if_ c 30 | _ => 6819 + if_ c 45 end.

Definition same_state (s s' : PrfState) : Prop := state_lc s = state_lc s' ∧ length (state_lc s) = 1%nat.

Lemma mirrored_round profile c kf kf' kb kb' s s' round : bound_var kb = bound_var kb' → same_state s s' →
  mirrored [] (6 + power_gates profile c) (11 + power_constraints profile c) (27 + power_terms profile c)
    (prf_round profile c kf kb s round) (prf_round profile c kf' kb' s' round) same_state.
Proof.
  intros HK [HS HL]. unfold prf_round. rewrite <- HS. mstart.
  { mstep ltac:(apply mirrored_lift). intros cf ? [<- _]. cbv zeta. mstep ltac:(exact (mirrored_sum kf kf' kb kb' _ _ _ _ _ cf None None HK HL I)).
    intros [tv tval] [tv' tval'] HE. cbn [fst] in HE. subst tv'.
    eapply mirrored_bind with (R := same_var) (c1 := []) (g1 := power_gates profile c) (k1 := power_constraints profile c) (t1 := power_terms profile c).
    - destruct profile; [apply mirrored_cube|apply mirrored_fifth..].
    - intros r r' Hr. mstep ltac:(apply (mirrored_lift2 _ _ (λ _ _, True))).
      + intros x Hx. destruct profile; [by eexists..|discriminate Hx].
      + intros x x' _. apply mirrored_ret. split; cbn [state_lc]; [by rewrite Hr|done]. }
  all: reflexivity || lia.
Qed.

(** ** Slots *)

(** The commitments of a base slot. *)
Definition base_commitments (sk : SecKey) (ct : Cipher) (r rinv : list (list Fp)) (lj : nat * nat) : list CommittedVar :=
  let layer := layer_at ct lj.1 in
  [mkCommitted (sc_from_fp_signed (value_at (Some r) lj.1 lj.2)) (derive_r_alpha sk layer (Z.of_nat lj.2));
   mkCommitted (sc_from_fp_signed (value_at (Some rinv) lj.1 lj.2)) (derive_rho sk layer (Z.of_nat lj.2))].

Definition base_gates (profile : CircuitPrfProfile) (c : bool) : Z := 91 * (6 + power_gates profile c) + 725 + if_ c 5.
Definition base_constraints (profile : CircuitPrfProfile) (c : bool) : Z := 91 * (11 + power_constraints profile c) + 1444 + if_ c 10.
Definition base_terms (profile : CircuitPrfProfile) (c : bool) : Z := 91 * (27 + power_terms profile c) + 3594 + if_ c 25.

Lemma mirrored_inverse a x x' b y y' c : mirrored [] (458 + if_ c 3) (914 + if_ c 6) (2275 + if_ c 15) (constrain_inverse a x b y c) (constrain_inverse a x' b y' c) eq.
Proof.
  unfold constrain_inverse. mstart.
  { mstep ltac:(apply mirrored_fp_mul). intros r r' Hr. unfold same_var in Hr. rewrite Hr. con 2. }
  all: reflexivity || lia.
Qed.

Lemma circuit_rounds_Ok profile n : circuit_prf_rounds profile = Ok n → n = 91%nat.
Proof. unfold circuit_prf_rounds. destruct (valid_circuit_prf_profile profile); [by intros [= <-]|discriminate]. Qed.

Lemma mirrored_key_base pk sk ct r rinv c kf kf' kb kb' lj w w' : bound_var kb = bound_var kb' → same_wiring same_key_slot w w' →
  mirrored (base_commitments sk ct r rinv lj) (base_gates (circuit_prf_profile pk) c) (base_constraints (circuit_prf_profile pk) c) (base_terms (circuit_prf_profile pk) c)
    (key_base_slot pk (Some sk) ct (Some r) (Some rinv) c kf kb w lj) (key_base_slot pk None ct None None c kf' kb' w' lj) (same_wiring same_key_slot).
Proof.
  intros HK HW. destruct lj as [lid j]. unfold key_base_slot. cbv zeta. set (pr := circuit_prf_profile pk). mstart.
  { mstep ltac:(apply mirrored_commit). intros v ? <-. mstep ltac:(apply mirrored_commit). intros v' ? <-.
    mstep ltac:(apply mirrored_bind_pc). intros rb rb' [Hrb _]. mstep ltac:(apply mirrored_bind_pc). intros ib ib' [Hib Hil].
    mstep ltac:(apply mirrored_lift). intros ch ? [<- _].
    mstep ltac:(apply mirrored_lift). intros n ? [<- Hn].
    eapply mirrored_bind with (R := same_state) (c1 := []) (g1 := 91 * (6 + power_gates pr c)) (k1 := 91 * (11 + power_constraints pr c)) (t1 := 91 * (27 + power_terms pr c)).
    { rewrite (circuit_rounds_Ok _ _ Hn). mstart.
      - apply (mirrored_foldM _ _ (λ _, [])); [intros round s s' _ Hs; exact (mirrored_round pr c kf kf' kb kb' s s' round HK Hs)|]. by split.
      - induction (zseq 0 91); done.
      - by rewrite length_zseq.
      - by rewrite length_zseq.
      - by rewrite length_zseq. }
    intros s s' [Hs HL]. rewrite <- Hs. mstep ltac:(exact (mirrored_sum kf kf' kb kb' _ _ _ _ _ _ (Some (bound_var rb, bound_val rb)) (Some (bound_var rb', bound_val rb')) HK HL Hrb)). intros o o' _.
    rewrite <- Hrb, <- Hib. mstep ltac:(apply mirrored_inverse). intros [] [] _. apply mirrored_ret. apply same_set; [exact HW|]. split; [done|]. split; [done|]. exact Hil. }
  - reflexivity.
  - unfold base_gates, if_. destruct c; lia.
  - unfold base_constraints, if_. destruct c; lia.
  - unfold base_terms, if_. destruct c; lia.
Qed.

Lemma mirrored_key_prod ct c lj w w' : same_wiring same_key_slot w w' →
  mirrored [] (1503 + if_ c 10) (2997 + if_ c 20) (7461 + if_ c 50) (key_prod_slot ct c w lj) (key_prod_slot ct c w' lj) (same_wiring same_key_slot).
Proof.
  intros HW. destruct lj as [lid j]. unfold key_prod_slot. cbv zeta. set (l := layer_at ct lid).
  destruct (same_at same_key_slot no_key_slot w w' (Z.to_nat (pa l)) j HW same_no_slot) as (Ha & Hai & _).
  destruct (same_at same_key_slot no_key_slot w w' (Z.to_nat (pb l)) j HW same_no_slot) as (Hb & Hbi & _). rewrite <- Ha, <- Hai, <- Hb, <- Hbi. mstart.
  { mstep ltac:(apply mirrored_fp_mul). intros rp rp' Hr. mstep ltac:(apply mirrored_fp_mul). intros ip ip' Hi. unfold same_var in Hr, Hi. rewrite <- Hr, <- Hi.
    mstep ltac:(apply mirrored_inverse). intros [] [] _. mstep ltac:(apply mirrored_decompose). intros lm lm' Hl. apply mirrored_ret. apply same_set; [exact HW|].
    split; [done|]. split; [done|]. exact Hl. }
  all: unfold if_; destruct c; reflexivity || lia.
Qed.

(** ** The key, the amount, the relations *)

Lemma mirrored_commit_key pk sk c key blind : circuit_prf_key_for_profile sk (circuit_prf_profile pk) = Ok key →
  circuit_prf_blind_for_profile sk (circuit_prf_profile pk) = Ok blind →
  mirrored [mkCommitted (sc_from_fp_signed key) (sc_reduce256 blind)] (131 + if_ c 1) (260 + if_ c 2) (647 + if_ c 5)
    (commit_key pk (Some sk) c) (commit_key pk None c) (λ k k', bound_var k.2 = bound_var k'.2).
Proof.
  intros HK HB. unfold commit_key. mstart.
  { eapply mirrored_bind with (c1 := []) (g1 := 0) (k1 := 0) (t1 := 0) (R := λ a _, a = (key, sc_from_fp_signed key, sc_reduce256 blind)).
    - apply mirrored_lift2. rewrite HK. cbn. rewrite HB. cbn. intros a [= <-]. by eexists.
    - intros a [[kf ks] kbl] ->. mstep ltac:(apply mirrored_commit). intros v ? <-. mstep ltac:(apply mirrored_bind_pc). intros kb kb' [Hb _]. by apply mirrored_ret. }
  all: reflexivity || lia.
Qed.

(** The same amount, but for its value. *)
Definition same_binding (ab ab' : option AmountBinding) : Prop :=
  match ab, ab' with Some b, Some b' => range_bits b = range_bits b' | None, None => True | _, _ => False end.
Definition same_amount (a a' : option (Var * Scalar)) : Prop := (fst <$> a) = (fst <$> a').
Definition amount_commitments (ab : option AmountBinding) : list CommittedVar :=
  match ab with Some b => [mkCommitted (sc_from_u64 (amount b)) (amount_blinding b)] | None => [] end.
Definition amount_bits (ab : option AmountBinding) : Z := match ab with Some b => Z.of_nat (range_bits b) | None => 0 end.

Lemma mirrored_amount ab ab' : same_binding ab ab' →
  mirrored (amount_commitments ab) (amount_bits ab) (if_ (0 <? amount_bits ab) (2 * amount_bits ab + 1)) (if_ (0 <? amount_bits ab) (5 * amount_bits ab + 1))
    (commit_ranged_amount ab) (commit_ranged_amount ab') same_amount.
Proof.
  unfold commit_ranged_amount, commit_amount. destruct ab as [b|], ab' as [b'|]; cbn [same_binding]; intros H; try done; cbn [amount_commitments amount_bits].
  - rewrite <- H. mstart.
    { eapply mirrored_bind with (g1 := 0) (k1 := 0) (t1 := 0) (c1 := amount_commitments (Some b)) (R := λ a a', ∃ v x x', a = Some (v, x) ∧ a' = Some (v, x')).
      - mstart.
        { mstep ltac:(apply mirrored_commit). intros v ? <-. apply mirrored_ret. exists v, (sc_from_u64 (amount b)), (sc_from_u64 (amount b')). done. }
        all: reflexivity.
      - intros ? ? (v & x & x' & -> & ->). eapply mirrored_eq with (cs := []) (g := Z.of_nat (range_bits b))
          (k := if_ (0 <? Z.of_nat (range_bits b)) (2 * Z.of_nat (range_bits b) + 1)) (t := if_ (0 <? Z.of_nat (range_bits b)) (5 * Z.of_nat (range_bits b) + 1)); [|reflexivity..].
        destruct (Nat.ltb_spec 0 (range_bits b)) as [Hb|Hb].
        + rewrite (proj2 (Z.ltb_lt _ _)) by lia. unfold if_. mstart; [mstep ltac:(apply mirrored_range_check); intros [] [] _; by apply mirrored_ret|reflexivity|lia..].
        + rewrite (proj2 (Z.ltb_ge _ _)) by lia. unfold if_. replace (Z.of_nat (range_bits b)) with 0 by lia. by apply mirrored_ret. }
    all: unfold if_; try destruct (0 <? Z.of_nat (range_bits b)); reflexivity || lia.
  - mstart; [eapply mirrored_bind with (R := λ a a', a = None ∧ a' = None); [by apply mirrored_ret|intros ? ? [-> ->]; by apply mirrored_ret]|reflexivity..].
Qed.

Definition same_layers (ls ls' : list (Fp * FpLimbs)) : Prop := Forall2 (λ al al', al.1 = al'.1 ∧ same_limbs al.2 al'.2) ls ls'.

Lemma same_sum ops ls ls' : same_layers ls ls' → ∀ l v v',
  (foldl (add_layer ops) (l, v) ls).1 = (foldl (add_layer ops) (l, v') ls').1 ∧
  (length (foldl (add_layer ops) (l, v) ls).1 ≤ length l + 4 * length ls)%nat.
Proof.
  induction 1 as [|[a x] [a' x'] ls ls' [Ha [H0 H1]] _ IH]; intros l v v'; cbn [foldl length]; [split; [done|cbn; lia]|]. cbn [fst snd] in Ha, H0, H1. subst a'.
  unfold add_layer at 2 4 6. destruct ((lo a =? 0) && (hi a =? 0)); [destruct (IH l v v'); split; [done|lia]|].
  assert (E : folded_lc (fp_mul_const_var_folded a x ops) = folded_lc (fp_mul_const_var_folded a x' ops) ∧ length (folded_lc (fp_mul_const_var_folded a x ops)) = 4%nat).
  { unfold fp_mul_const_var_folded. cbn [folded_lc]. rewrite H0, H1. split; [done|]. repeat rewrite ?length_lc_add, ?length_lc_term. done. }
  destruct E as [E EL]. rewrite <- E. destruct (IH (lc_add l (folded_lc (fp_mul_const_var_folded a x ops)))
    (sc_add v (folded_val (fp_mul_const_var_folded a x ops))) (sc_add v' (folded_val (fp_mul_const_var_folded a x' ops)))) as [I1 I2].
  split; [exact I1|]. rewrite length_lc_add, EL in I2. lia.
Qed.

Lemma mirrored_relation c am am' ls ls' : same_amount am am' → same_layers ls ls' →
  mirrored [] 75 150 (373 + 4 * Z.of_nat (length ls)) (slot_relation c am ls) (slot_relation c am' ls') eq.
Proof.
  intros HA HL. unfold slot_relation. cbv zeta. set (l0 := if negb (lo c =? 0) || negb (hi c =? 0) then lc_add [] (lc_term one (fp_scalar_of c)) else []).
  set (l1 := match am with Some (v, _) => lc_sub l0 (lc_var v) | None => l0 end). set (l1' := match am' with Some (v, _) => lc_sub l0 (lc_var v) | None => l0 end).
  assert (E1 : l1' = l1). { unfold l1, l1'. destruct am as [[v x]|], am' as [[v' x']|]; [by injection HA as <-|discriminate HA..|done]. }
  assert (EL : (length l1 ≤ 2)%nat).
  { assert (length l0 ≤ 1)%nat by (unfold l0; destruct (_ || _); [rewrite length_lc_add, length_lc_term|]; cbn; lia).
    unfold l1. destruct am as [[v x]|]; [rewrite length_lc_sub, length_lc_var|]; lia. }
  rewrite E1. generalize (match am with Some (_, v) => sc_sub (fp_scalar_of c) v | None => fp_scalar_of c end) as t. intros t.
  generalize (match am' with Some (_, v) => sc_sub (fp_scalar_of c) v | None => fp_scalar_of c end) as t'. intros t'. clear E1 l1'. clearbody l1. clear HA. mstart.
  { mstep ltac:(apply mirrored_ops). intros ops ? <-. destruct (same_sum ops ls ls' HL l1 t t') as [E2 L2].
    destruct (foldl (add_layer ops) (l1, t) ls) as [sl tot], (foldl (add_layer ops) (l1, t') ls') as [sl' tot']. cbn [fst] in E2, L2. subst sl'.
    mstep ltac:(apply mirrored_allocate). intros [[k ?] ?] ? <-. mstep ltac:(mul 4). intros [[? ?] ko] ? <-.
    mstep ltac:(apply (mirrored_constrain_n (3 + 4 * Z.of_nat (length ls))); rewrite length_lc_sub, length_lc_var; lia). intros [] [] _. apply mirrored_range_check. }
  all: reflexivity || lia.
Qed.

(** ** The whole circuit *)

(** The elements that have the same wires have the same limbs. *)
Lemma same_slot_layers A w w' nL j : same_wiring same_key_slot w w' →
  same_layers (slot_layers no_key_slot rinv_limbs A w nL j) (slot_layers no_key_slot rinv_limbs A w' nL j).
Proof.
  intros HW. unfold slot_layers, same_layers. apply Forall2_fmap_2, Forall_Forall2_diag, Forall_forall. intros lid _. cbn [fst snd]. split; [done|].
  exact (proj2 (proj2 (same_at same_key_slot no_key_slot w w' lid j HW same_no_slot))).
Qed.

Definition rejects (pk : PubKey) (force : bool) : bool := force || match circuit_prf_profile pk with MIMC_X5_V7 => true | _ => false end.

Definition key_bound_gates (profile : CircuitPrfProfile) (c : bool) (bases prods slots bits : Z) : Z :=
  131 + if_ c 1 + bases * slots * base_gates profile c + prods * slots * (1503 + if_ c 10) + bits + slots * 75.
Definition key_bound_constraints (profile : CircuitPrfProfile) (c : bool) (bases prods slots bits : Z) : Z :=
  260 + if_ c 2 + bases * slots * base_constraints profile c + prods * slots * (2997 + if_ c 20) + if_ (0 <? bits) (2 * bits + 1) + slots * 150.
Definition key_bound_terms (profile : CircuitPrfProfile) (c : bool) (bases prods slots bits layers : Z) : Z :=
  647 + if_ c 5 + bases * slots * base_terms profile c + prods * slots * (7461 + if_ c 50) + if_ (0 <? bits) (5 * bits + 1) + slots * (373 + 4 * layers).

(** The commitments in the order of their numbers. *)
Definition key_bound_commitments (sk : SecKey) (ct : Cipher) (r rinv : list (list Fp)) (ab : option AmountBinding) (key : Fp) (blind : list Z) : list CommittedVar :=
  mkCommitted (sc_from_fp_signed key) (sc_reduce256 blind) :: (slots_of (base_layer_indices ct) (slots ct) ≫= base_commitments sk ct r rinv) ++ amount_commitments ab.

Lemma guards_same g ct A ab ab' strict : same_binding ab ab' → circuit_guards g ct A ab strict = circuit_guards g ct A ab' strict.
Proof. intros H. unfold circuit_guards. destruct ab, ab'; done. Qed.

Lemma no_commitments {B} (l : list B) : (l ≫= λ _, @nil CommittedVar) = [].
Proof. by induction l. Qed.

Lemma mirrored_build pk sk ct A r rinv ab ab' force strict key blind : same_binding ab ab' →
  circuit_prf_key_for_profile sk (circuit_prf_profile pk) = Ok key → circuit_prf_blind_for_profile sk (circuit_prf_profile pk) = Ok blind →
  let nB := Z.of_nat (length (base_layer_indices ct)) in
  let nP := Z.of_nat (length (prod_layer_indices ct)) in
  let pr := circuit_prf_profile pk in
  let c := rejects pk force in
  mirrored (key_bound_commitments sk ct r rinv ab key blind)
    (key_bound_gates pr c nB nP (Z.of_nat (slots ct)) (amount_bits ab)) (key_bound_constraints pr c nB nP (Z.of_nat (slots ct)) (amount_bits ab))
    (key_bound_terms pr c nB nP (Z.of_nat (slots ct)) (amount_bits ab) (Z.of_nat (length (L ct))))
    (build_key_bound_circuit pk (Some sk) ct A (base_layer_indices ct) (Some r) (Some rinv) ab force strict)
    (build_key_bound_circuit pk None ct A (base_layer_indices ct) None None ab' force strict) (same_wiring same_key_slot).
Proof.
  intros HA HK HB. cbv zeta. unfold build_key_bound_circuit. cbv zeta. fold (rejects pk force). set (c := rejects pk force). set (nL := length (L ct)). mstart.
  { eapply (mirrored_bind [] _ 0 _ 0 _ 0 _ _ _ _ _ (λ _ _, True)).
    { apply mirrored_lift2. rewrite (guards_same _ _ _ _ _ _ HA). intros a Ha. by exists a. }
    intros [] [] _. mstep ltac:(exact (mirrored_commit_key pk sk c key blind HK HB)). intros [kf kb] [kf' kb'] Hk. cbn [fst snd] in Hk.
    mstep ltac:(apply (mirrored_foldM _ _ (base_commitments sk ct r rinv)); [intros lj w w' _ Hw; by apply mirrored_key_base|apply same_replicate, same_no_slot]).
    intros w w' Hw. mstep ltac:(apply (mirrored_foldM _ _ (λ _, [])); [intros lj w1 w1' _ Hw1; by apply mirrored_key_prod|exact Hw]).
    clear w w' Hw. intros w w' Hw. mstep ltac:(by apply mirrored_amount). intros am am' Ham.
    mstep ltac:(apply (mirrored_foldM _ _ (λ _, []) 75 150 (373 + 4 * Z.of_nat nL) (λ _ _, True)); [|done]).
    { intros j [] [] _ _. eapply mirrored_eq; [eapply mirrored_mono; [apply mirrored_relation; [exact Ham|by apply same_slot_layers]|apply Z.le_refl|done]|done..|].
      unfold slot_layers. rewrite length_fmap, length_seq. apply Z.le_refl. }
    intros [] [] _. by apply mirrored_ret. }
  - unfold key_bound_commitments. rewrite !no_commitments. cbn [app]. by rewrite ?app_nil_r.
  - rewrite !length_slots_of, length_seq. unfold key_bound_gates. lia.
  - rewrite !length_slots_of, length_seq. unfold key_bound_constraints. lia.
  - rewrite !length_slots_of, length_seq. unfold key_bound_terms. lia.
Qed.
