(* ===== verification/CircuitSize.v ===== *)
(** * The size of the key-bound circuit and the limits of the proofs

    The circuit of a ciphertext of an accepted shape is within the limits of the
    constraint-system proofs, but for one shape that the key switch accepts. *)

From S2P Require Import Prelude Primes Field Hash Rng CtSafe Types Lpn Fe25519 Scalar25519 ScalarField Ristretto Msm Transcript InnerProduct R1cs R1csHonest Decrypt Sample Gadgets Circuit Wiring CircuitSound ZeroSound Shape CircuitShape.

#[local] Opaque scL zinv so_mul so_inv sc_add sc_sub fp_mul.

(** ** Accepted shapes *)

Lemma indices_count (q : Layer → bool) ls : length (indices (λ il, q il.2) ls) = length (filter (λ l, q l = true) ls).
Proof.
  induction ls as [|l ls IH] using rev_ind; [done|]. rewrite indices_snoc, filter_app, !length_app, IH. f_equal. cbn [filter list_filter snd].
  destruct (q l) eqn:E; [by rewrite decide_True|by rewrite decide_False by congruence].
Qed.

Lemma count_layers ls : ∀ n m, count_base_layers n ls = Some m →
  m = (n + length (filter (λ l, is_base l = true) ls))%nat ∧
  (length (filter (λ l, is_base l = true) ls) + length (filter (λ l, is_prod l = true) ls) = length ls)%nat.
Proof.
  induction ls as [|l ls IH]; intros n m H; cbn [count_base_layers] in H; [injection H as <-; cbn; lia|].
  destruct (rule l) eqn:R; [| |discriminate]; apply IH in H as [-> HL]; rewrite !filter_cons; unfold is_base, is_prod in *; rewrite R.
  - rewrite decide_True, decide_False by done. cbn [length]. lia.
  - rewrite decide_False, decide_True by done. cbn [length]. lia.
Qed.

Lemma shape_counts ct lim : key_bound_verify_shape_ok_with_limit ct lim = true →
  slots ct = 1%nat ∧ (0 < length (base_layer_indices ct) ≤ lim)%nat ∧
  (length (base_layer_indices ct) + length (prod_layer_indices ct))%nat = length (L ct) ∧ (length (L ct) ≤ 16)%nat.
Proof.
  unfold key_bound_verify_shape_ok_with_limit. destruct (Nat.eqb_spec (slots ct) 1) as [HS|]; [|done].
  destruct (length (L ct) =? 0)%nat; [done|]. destruct (Nat.ltb_spec 16 (length (L ct))) as [|HL]; [done|]. destruct (4096 <? _); [done|]. cbn [negb orb].
  destruct (count_base_layers 0 (L ct)) as [m|] eqn:E; [|done]. intros [H1%Nat.ltb_lt H2%Nat.leb_le]%andb_true_iff.
  apply count_layers in E as [-> EL]. rewrite bases_indices, prods_indices, !indices_count. lia.
Qed.

(** ** Terms *)

Lemma terms_loop_small cs : ∀ count, count + Z.of_nat (terms cs) ≤ R1CS_MAX_TERMS → terms_loop cs count = count + Z.of_nat (terms cs).
Proof.
  induction cs as [|c cs IH]; intros count H; cbn [terms_loop]; [unfold terms; cbn; lia|].
  assert (E : terms (c :: cs) = (length (lc c) + terms cs)%nat) by done. rewrite E in H |- *.
  destruct (Z.ltb_spec (R1CS_MAX_TERMS - count) (Z.of_nat (length (lc c)))); [lia|]. rewrite IH; lia.
Qed.

(** ** The prover's circuit *)

Section Size.
Context (pk : PubKey) (sk : SecKey) (ct : Cipher) (A r rinv : list (list Fp)) (ab ab' : option AmountBinding) (force strict : bool) (rule : ScalarRule).
Let nB := Z.of_nat (length (base_layer_indices ct)).
Let nP := Z.of_nat (length (prod_layer_indices ct)).
Let nS := Z.of_nat (slots ct).
Let pr := circuit_prf_profile pk.
Let c := rejects pk force.

Lemma profile_keys : valid_circuit_prf_profile pr = true → ∃ key blind, circuit_prf_key_for_profile sk pr = Ok key ∧ circuit_prf_blind_for_profile sk pr = Ok blind.
Proof. destruct pr; [by eexists _, _|by eexists _, _|done]. Qed.

(** What the verifier counts is what the prover holds. *)
Lemma circuit_counted w p : valid_circuit_prf_profile pr = true → same_binding ab ab' →
  build_key_bound_circuit pk (Some sk) ct A (base_layer_indices ct) (Some r) (Some rinv) ab force strict (prover_new rule) = Ok (w, p) →
  ∃ key blind w' q, circuit_prf_key_for_profile sk pr = Ok key ∧ circuit_prf_blind_for_profile sk pr = Ok blind ∧
    build_key_bound_circuit pk None ct A (base_layer_indices ct) None None ab' force strict (verification rule) = Ok (w', q) ∧
    system_of q = system_of p ∧ committed_ p = key_bound_commitments sk ct r rinv ab key blind ∧ values_ p = true ∧
    Z.of_nat (length (gates_ p)) = key_bound_gates pr c nB nP nS (amount_bits ab) ∧
    Z.of_nat (length (constraints_ p)) = key_bound_constraints pr c nB nP nS (amount_bits ab) ∧
    Z.of_nat (terms (constraints_ p)) ≤ key_bound_terms pr c nB nP nS (amount_bits ab) (Z.of_nat (length (L ct))).
Proof.
  intros HV HA HB. destruct (profile_keys HV) as (key & blind & HK & HBl). exists key, blind.
  pose proof (mirrored_build pk sk ct A r rinv ab ab' force strict key blind HA HK HBl) as HM. cbv zeta in HM.
  destruct (HM (prover_new rule) (verification rule) w p) as (w' & q & Eq & (V & V' & G & C & K & O) & Ec & Eg & (ks & Ek & Ln & Lt) & _); [by split_and!|exact HB|].
  cbn [prover_new committed_ gates_ constraints_ length app] in *. subst ks. exists w', q. split; [exact HK|]. split; [exact HBl|]. split; [exact Eq|].
  split; [|split; [exact Ec|split; [exact V|split; [exact Eg|split; [exact Ln|exact Lt]]]]].
  unfold system_of, num_gates, num_committed. by rewrite V, V', G, C, K.
Qed.
End Size.

(** The limits of a proof for each profile of the circuit. *)
Lemma size_within p pr c nB nP bits layers profile : values_ p = true →
  1 ≤ nB → 0 ≤ nP → nB + nP = layers → layers ≤ 16 → 0 ≤ bits ≤ 64 → Z.of_nat (length (committed_ p)) ≤ 100 →
  (match pr with MIMC_X3_V6 => nB ≤ 8 | MIMC_X5_V7 => nB ≤ 5 ∨ profile = KeySwitchRefresh ∧ nB ≤ 6 ∧ (nP ≤ 8 ∨ nP ≤ 9 ∧ bits = 0) | PROFILE_other _ => False end) →
  Z.of_nat (length (gates_ p)) = key_bound_gates pr c nB nP 1 bits →
  Z.of_nat (length (constraints_ p)) = key_bound_constraints pr c nB nP 1 bits →
  Z.of_nat (terms (constraints_ p)) ≤ key_bound_terms pr c nB nP 1 bits layers → within p profile.
Proof.
  intros HV H1 H2 H3 H4 H5 H6 HP Eg Ek Et.
  assert (ET : Z.of_nat (terms (constraints_ p)) ≤ 4194304).
  { revert Et HP. unfold key_bound_terms, base_terms, power_terms, if_. intros Et HP. destruct pr, c, (0 <? bits); try done; lia. }
  assert (EK : Z.of_nat (length (constraints_ p)) ≤ r1cs_constraint_limit profile).
  { revert Ek HP. unfold key_bound_constraints, base_constraints, power_constraints, if_, r1cs_constraint_limit, R1CS_MAX_CONSTRAINTS, R1CS_KEY_SWITCH_MAX_CONSTRAINTS.
    intros -> HP. destruct (Z.ltb_spec 0 bits); destruct pr, c; try done; destruct profile; try lia; (destruct HP as [HP|[HP _]]; [lia|discriminate HP]). }
  assert (EG : Z.of_nat (length (gates_ p)) ≤ 1048576).
  { revert Eg HP. unfold key_bound_gates, base_gates, power_gates, if_. intros -> HP. destruct pr, c; try done; lia. }
  split; [exact EG|]. split; [change R1CS_MAX_COMMITTED with 65536; lia|]. split; [exact EK|]. unfold constraint_terms.
  rewrite terms_loop_small; change R1CS_MAX_TERMS with 4194304; lia.
Qed.

(** C24. The circuit of a zero proof, for the prover and the verifier: when the
    prover, with the masks it has, builds the circuit of a ciphertext, the
    verifier builds the same constraints without the values, and counts the gates
    and commitments that the prover holds.  The commitments are those of the key,
    of the mask and inverse mask of every base layer and slot, and of the amount, in
    the order that the verifier compares with; gates and constraints have a closed
    form.  So a ciphertext whose shape [key_bound_verify_shape_ok] accepts, or the
    key switch accepts with fewer than ten products over six base layers, is within
    the limits of the proofs; but six base layers and ten products, which
    [key_bound_key_switch_shape_ok] accepts under version 7 of the circuit, exceed the
    limit of the key switch, so that no proof of them is ever made. *)
Theorem key_bound_circuit_size pk sk ct A r rinv ab ab' force strict rule :
  valid_circuit_prf_profile (circuit_prf_profile pk) = true → same_binding ab ab' →
  let pr := circuit_prf_profile pk in
  let c := rejects pk force in
  let nB := Z.of_nat (length (base_layer_indices ct)) in
  let nP := Z.of_nat (length (prod_layer_indices ct)) in
  let build sk_ptr r_ptr rinv_ptr b := build_key_bound_circuit pk sk_ptr ct A (base_layer_indices ct) r_ptr rinv_ptr b force strict in
  ∀ w p, build (Some sk) (Some r) (Some rinv) ab (prover_new rule) = Ok (w, p) →
  (∃ key blind w' q, circuit_prf_key_for_profile sk pr = Ok key ∧ circuit_prf_blind_for_profile sk pr = Ok blind ∧
    build None None None ab' (verification rule) = Ok (w', q) ∧ system_of q = system_of p ∧
    committed_ p = key_bound_commitments sk ct r rinv ab key blind) ∧
  Z.of_nat (length (gates_ p)) = key_bound_gates pr c nB nP (Z.of_nat (slots ct)) (amount_bits ab) ∧
  Z.of_nat (length (constraints_ p)) = key_bound_constraints pr c nB nP (Z.of_nat (slots ct)) (amount_bits ab) ∧
  (amount_bits ab ≤ 64 → key_bound_verify_shape_ok pk ct = true → within p LimitDefault) ∧
  (amount_bits ab = 0 → key_bound_key_switch_shape_ok pk ct = true → nB < 6 ∨ nP < 10 → within p KeySwitchRefresh) ∧
  (pr = MIMC_X5_V7 → slots ct = 1%nat → nB = 6 → nP = 10 → ∀ t g, is_ok (prove p t KeySwitchRefresh g) = false).
Proof.
  intros HV HA pr c nB nP build w p HB.
  destruct (circuit_counted pk sk ct A r rinv ab ab' force strict rule w p HV HA HB) as (key & blind & w' & q & HK & HBl & Eq & Es & Ec & Hv & Eg & Ek & Et).
  split; [by exists key, blind, w', q|]. split; [exact Eg|]. split; [exact Ek|].
  assert (H5 : 0 ≤ amount_bits ab) by (destruct ab; cbn; lia).
  assert (HC : ∀ lim, key_bound_verify_shape_ok_with_limit ct lim = true → (lim ≤ 8)%nat → Z.of_nat (length (committed_ p)) ≤ 100).
  { intros lim (HS & HnB & _)%shape_counts Hl. rewrite Ec. unfold key_bound_commitments. cbn [length]. rewrite length_app.
    assert (EL : length (slots_of (base_layer_indices ct) (slots ct) ≫= base_commitments sk ct r rinv) = (2 * length (slots_of (base_layer_indices ct) (slots ct)))%nat).
    { induction (slots_of _ _) as [|x l IH]; [done|]. cbn [mbind list_bind]. rewrite length_app. cbn [length base_commitments]. change (list_bind _ _ (base_commitments sk ct r rinv) l) with (l ≫= base_commitments sk ct r rinv). lia. }
    rewrite EL, length_slots_of, HS. assert (length (amount_commitments ab) ≤ 1)%nat by (destruct ab; cbn; lia). lia. }
  split; [|split].
  - intros Hb Hs. unfold key_bound_verify_shape_ok in Hs. destruct (shape_counts _ _ Hs) as (HS & HnB & HL & H16). rewrite HS in *.
    apply (size_within p pr c nB nP (amount_bits ab) (Z.of_nat (length (L ct)))); try assumption; try (unfold nB, nP; lia).
    + apply (HC _ Hs). destruct (circuit_prf_profile pk); cbn; lia.
    + unfold pr, nB, nP in *. destruct (circuit_prf_profile pk); cbn [key_bound_base_layer_limit] in HnB; lia.
  - intros Hb Hs H9. unfold key_bound_key_switch_shape_ok in Hs. destruct (shape_counts _ _ Hs) as (HS & HnB & HL & H16). rewrite HS in *.
    apply (size_within p pr c nB nP (amount_bits ab) (Z.of_nat (length (L ct)))); try assumption; try (unfold nB, nP; lia).
    + apply (HC _ Hs). destruct (circuit_prf_profile pk); cbn; lia.
    + unfold pr, nB, nP in *. destruct (circuit_prf_profile pk); cbn [key_bound_key_switch_base_layer_limit] in HnB; try lia.
      destruct H9 as [H9|H9]; [left; lia|]. right. split; [reflexivity|]. lia.
  - intros Hp HS E6 E10 t g. assert (HK' : R1CS_KEY_SWITCH_MAX_CONSTRAINTS < Z.of_nat (length (constraints_ p))).
    { unfold pr in Hp. unfold nB in E6. unfold nP in E10. rewrite Ek, E6, E10, HS. unfold key_bound_constraints, c, rejects. rewrite Hp, orb_true_r.
      unfold base_constraints, power_constraints, if_, R1CS_KEY_SWITCH_MAX_CONSTRAINTS. destruct (0 <? amount_bits ab); lia. }
    unfold prove. rewrite Hv. cbn [negb]. destruct (negb _); [reflexivity|]. cbv zeta. unfold r1cs_constraint_limit.
    rewrite (proj2 (Z.ltb_lt R1CS_KEY_SWITCH_MAX_CONSTRAINTS _) HK'), orb_true_r. reflexivity.
Qed.

(** Six base layers and ten products. *)
Definition gap_ct : Cipher :=
  mkCipher (replicate 6 (mkLayer BASE (mkRSeed 0 (mkNonce 0 0)) 0 0 [] [] []) ++ replicate 10 (mkLayer PROD (mkRSeed 0 (mkNonce 0 0)) 0 0 [] [] [])) [] [] 1.

Definition sample_build : res (wiring KeySlotVar * R1CSProver) :=
  build_key_bound_circuit zero_pk (Some sample_sk) constant_ct [] (base_layer_indices constant_ct) (Some []) (Some []) bound_42 false false (prover_new Prior).

Lemma sample_builds : is_ok sample_build = true.
Proof. vm_compute. reflexivity. Qed.

Lemma sample_build_eq :
  build_key_bound_circuit zero_pk (Some sample_sk) constant_ct [] (base_layer_indices constant_ct) (Some []) (Some []) bound_42 false false (prover_new Prior) = sample_build.
Proof. unfold sample_build. reflexivity. Qed.

#[local] Opaque sample_build.

Lemma key_bound_circuit_size_witness :
  (∃ w p, sample_build = Ok (w, p) ∧ Z.of_nat (length (gates_ p)) = 131 + 8 + 75 ∧ Z.of_nat (length (constraints_ p)) = 260 + 17 + 150) ∧
  key_bound_key_switch_shape_ok sample_pk gap_ct = true ∧ (length (base_layer_indices gap_ct), length (prod_layer_indices gap_ct)) = (6, 10)%nat.
Proof.
  split; [|split; reflexivity]. pose proof sample_builds as H. destruct sample_build as [[w p]| |] eqn:E; [|discriminate H..]. clear H.
  destruct (key_bound_circuit_size zero_pk sample_sk constant_ct [] [] [] bound_42 bound_42 false false Prior eq_refl eq_refl w p (eq_trans sample_build_eq E))
    as (_ & Hg & Hk & _).
  exists w, p. split; [reflexivity|]. split; [exact Hg|exact Hk].
Defined.
